(* ===== verification/_CoqProject ===== *)
-Q . S2P
Prelude.v
Primitives.v
Pow.v
Mining.v
Governance.v
Crypto.v
Merkle.v
Entropy.v
Compliance.v
Smt.v
Types.v
Block.v
Gas.v
Vault.v
Ledger.v
ShieldedPq.v
ShieldedPqSpec.v
ShieldedV1.v
ShieldedV2.v
PqWire.v
PqWireSpec.v
Execution.v
LedgerUndo.v
LedgerCommit.v
ExecSteps.v
PoolSpend.v
PqRuntime.v
Supply.v
Conservation.v
Transaction.v
Authority.v
ExecExamples.v
DoubleSpend.v
LedgerEquiv.v
ExecStore.v
Verify.v
VerifySpec.v
BlockLog.v
Network.v
Chain.v
Produce.v
ChainReplay.v
ChainInv.v
ChainImport.v
ChainSafety.v
ChainGates.v
ChainLinkage.v
ProduceSpec.v
ChainExamples.v
Mempool.v
MempoolInv.v
MempoolAdmit.v
MempoolSelect.v
MempoolFresh.v
Timing.v
TimingSpec.v
Node.v
NodeInv.v
NodeSpec.v
NodeExamples.v
Sync.v
SyncSpec.v
SyncInv.v
SyncSafety.v
SyncDurable.v
SyncExamples.v
Link.v
LinkSpec.v
LinkExamples.v
Transport.v
TransportSpec.v
ShareChain.v
ShareSpec.v
PqScan.v
PqScanSpec.v
PqScanExamples.v
