(* ===== verification/Prelude.v ===== *)
(** * SOV chain: a verification library

    SOV is a proof-of-work chain written in Rust (src/chain/crates).  This library
    models its consensus core: what a node computes when it executes a block, and
    the arithmetic that decides which block is worth what; around it the node engine, the
    block log on disk, the synchronisation with peers, and the encrypted transport under
    it.  Sockets, RPC and the user interface are not modelled.

    ** The program's parts and the files that model them

    The files are layered as the crates are; each requires only files above it.

    - [Prelude]: the [result] monad, checked/saturating machine arithmetic, byte
      strings, big- and little-endian numbers, sums over finite maps, hints and
      tactics shared by the components.
    - [Primitives] (crates/primitives): balances, heights, account ids.
    - [Pow] (crates/pow/src/target.rs): 256-bit targets, compact "nBits" form,
      the mining loop.
    - [Mining] (crates/mining): emission schedule ([Emission]), LWMA and emergency
      difficulty ([Difficulty]), chain work ([Work]).
    - [Governance] (crates/governance): miner-signalled deployments, the state
      machine [next_state]/[state_at], the signal log and the registry.
    - [Crypto] (crates/primitives/src/hash.rs, crates/crypto/src/keys.rs,
      signature.rs): hashes, keys, signatures, implicit account ids.  The digest
      ([Blake3]), the signature schemes ([SigScheme]) and the Borsh encoders
      ([Borsh]) are classes: third-party code is a parameter.
    - [Merkle] (crates/crypto/src/merkle.rs): roots and inclusion proofs.
    - [Compliance] (crates/compliance): transfer controls, velocity limits,
      off-chain M-of-N approval.
    - [Smt] (crates/state/src/smt.rs): the sparse Merkle tree behind the state root.
    - [Types] (crates/types/src/transaction.rs, receipt.rs, crates/intents,
      crates/primitives/src/signing_domain.rs): the 33 actions, transactions,
      receipts, intents and every signing preimage.
    - [Gas] (crates/runtime/src/gas.rs): the gas schedule in wrapping [u64].
    - [Vault] (crates/state/src/account.rs, vault.rs): accounts, xUSD vaults.
    - [Ledger] (crates/state/src/ledger.rs): the world state as a record [Ledger]
      of a logical [Store], the Merkle commitment kept in step with it and an
      optional undo journal; one definition per mutating method.
    - [ShieldedV2] (crates/runtime/src/shielded_v2.rs): admission of a
      post-quantum shielded bundle.
    - [Execution] (crates/runtime/src/execution.rs): [apply_transaction] as
      [preflight] (signature, authority, nonce, fees, envelopes), [run_action] (one
      [exec_*] definition per action, in a state-and-error monad [M] over the
      transaction's local variables) and [epilogue] (write-back of the signer, fee,
      tip); [apply_coinbase]; [apply_transactions].
    - [Block] (crates/types/src/block.rs, receipt.rs, weight.rs): receipts' consensus
      bytes, the receipts root and its proofs, headers, block ids and assembly,
      transaction weights and fee rates.
    - [Mempool] (crates/mempool/src/lib.rs): the transaction pool as a record
      [Mempool] with its READY indexes and QUEUED region; admission, replacement,
      the eviction auction, promotion, pruning, TTL eviction and block selection.
      A [None] is an [expect] that would fail.
    - [Verify] (crates/verify/src/invariants.rs): the checks every committed block
      passes, over the ledger and over the transition.
    - [Chain] (crates/chain/src/genesis.rs, blockchain.rs): genesis, the chain as a
      record [Blockchain] (active blocks, fork-choice index, live ledger, undo ring,
      signals, receipts, checkpoints and deployments), one definition per method;
      validation, connection, fork choice, both kinds of reorganisation, checkpoint
      linkage and the upgrade gates.
    - [Produce] (the same file): building and sealing candidates, replay of a block
      log, resume from a snapshot.
    - [ShieldedPq] (crates/shielded-pq/src/hash.rs, domains.rs, tree.rs, state.rs,
      note.rs): digests, the commitment tree, the post-quantum pool with its frontier,
      anchor ring and nullifiers, notes; the Rescue permutation is the class [Rescue].
    - [ShieldedV1] (crates/shielded/src/state.rs): the first pool's state; its tree and
      digests are the class [Orchard].
    - [Timing] (crates/node/src/timing.rs) and [Node] (crates/node/src/node.rs): the
      node engine, a record of a chain, a pool, the timing index and the list of
      rejections, with one definition per method.  The clock is an argument.
    - [PqWire] (crates/shielded-pq/src/wire.rs, proof_frame.rs, bundle.rs, carrier.rs,
      auth.rs): the wire codec as a reader over bytes, the scan of a proof frame, the
      structural rules, and what a spend's authorisation signs.
    - [Entropy] (crates/crypto/src/rng.rs): the health tests of the entropy source.
    - [BlockLog] (crates/rpc/src/daemon.rs): the append-only log; a file is its bytes
      and how many of them are on stable storage.
    - [Network] (crates/network/src/message.rs): messages and the handshake.
    - [Sync] (crates/rpc/src/p2p.rs, sync_status.rs): the record [SyncState] with one
      definition per operation of the network thread and of the verifier thread, and
      [poll], a turn of the loop.  A [None] is a panic.
    - [Link] (crates/network/src/pq.rs, link.rs, the framing of tcp.rs): handshake, key
      exchange and channel binding as programs over a byte stream, frames over an
      established link; Noise, ML-KEM and the AEAD are classes with laws.
    - [Transport] (crates/network/src/tcp.rs): the record [Shared] with one definition
      per operation; [f64] is IEEE binary64.
    - [ShareChain] (tools/sov-sharechain/src): the share chain of a mining pool, its wire
      codec and its gossip node; walks along parents take as much fuel as there are
      shares, which is enough since heights fall.
    - [PqScan] (crates/shielded-pq/src/scan.rs, hd.rs, encrypt.rs, and
      reconcile_v2_scan_cache of node/src/gui.rs): a wallet's keys, encrypted notes and
      the record [PqNoteStore] with one definition per operation.
    The remaining files hold proofs about these definitions: [LedgerUndo] (what
    each mutation writes and journals), [LedgerCommit] (commitment in step with the
    store), [ExecSteps] (execution as a sequence of ledger mutations), [Supply],
    [Conservation] and [Transaction] (coin is conserved, nonces), [Authority]
    (who may debit whom), [ExecExamples] (a concrete environment and runs, the
    instances of the theorems on execution), [MempoolInv], [MempoolAdmit] and
    [MempoolSelect] (the pool's invariant, admission and selection), [LedgerEquiv]
    and [ExecStore] (execution depends on a ledger's store alone), [VerifySpec]
    (the checks against their meaning), [ChainReplay], [ChainInv], [ChainImport] and
    [ChainSafety] (replays, the chain's invariant, what an import does, the
    theorems), [ChainGates], [ChainLinkage], [ProduceSpec], and [ChainExamples]
    (a concrete chain, the instances of the theorems on chains), [ShieldedPqSpec]
    (the frontier against the full tree), [PqWireSpec] and [PqRuntime] (the wire codec,
    the authorisation, and verification over the concrete pool), [PoolSpend] (the pools as the ledger uses
    them, and the interfaces [SpendOnce] and [Untorn] with their instances), [DoubleSpend]
    (their client theorem on transactions), [TimingSpec],
    [MempoolFresh] (the pool against a ledger), [NodeInv], [NodeSpec] and
    [NodeExamples] (the node's invariant, theorems and instances), [SyncSpec] (batches
    and the locator exchange), [SyncInv] (the interleavings of the threads and their
    invariant), [SyncSafety] (trust, confinement, progress, and two faults),
    [SyncDurable] (broadcasts against the log) and [SyncExamples] (concrete nodes that
    exchange messages, the instances of these theorems), [LinkSpec] and [LinkExamples]
    (the link against two queues of frames, and toy ciphers), [TransportSpec] (bounds,
    bans, gossip), [ShareSpec] (the share chain and its gossip node), [PqScanSpec] and
    [PqScanExamples] (the note store against the chain, and a run of it).

    ** What the theorems show

    - Money: an accepted transaction of any kind conserves the native supply; the
      supply grows only by the coinbase, within the budget; the mainnet schedule
      totals 20,999,999.9076 coins.  The one exclusion, a multisig proposal that
      executes against the transaction's own signer, is a defect of the source and
      is exhibited by a concrete run.
    - Authority: what is accepted was signed, in the right domain, by a key that
      speaks for the signer; nobody else's balance falls without a signed intent or
      a multisig quorum; no transaction runs twice.
    - State: undoing a block restores store and root exactly, and the commitment holds
      exactly the leaves the state determines, over pools that leave nothing behind when
      they refuse a bundle ([UntornPools]); the incremental tree refines the full
      depth-256 tree; proofs are complete and sound.
    - Consensus arithmetic: compact targets, work, retargeting bounds, governance
      lifecycle (termination, monotonicity, justified verdicts, liveness).
    - Pool: in every reachable state the indexes agree, the weight counters are
      exact, all limits hold and no operation panics; what is mineable is signed,
      fresh and affordable; block selection is the greedy fee auction over
      gap-free nonce runs.  Two runs exhibit where the pool departs from its own
      documentation ([refused_bid_evicts], [resubmission_duplicates]).
    - Receipts: a receipt proof verifies exactly for the block's receipts.
    - Chain: whatever blocks arrive, in whatever order, the live state is the plain
      execution of the active blocks from genesis, the head has maximal work with
      ties to the smaller hash, so nodes that know the same blocks agree; a rejected
      block changes neither chain nor state, and the undo ring still takes back the
      newest blocks; every branch is judged by its own signals; proof of work
      is waived only for proven ancestors of the pin; the ledger checker accepts
      exactly the sound ledgers; produced blocks execute to their own roots; a
      trusted boot rebuilds the node.  A side branch longer than the undo ring is a
      defect of the source ([long_side_branch_panics]).
    - Shielded pools: the incremental frontier is the full tree over all notes; a
      bundle is accepted exactly when it spends distinct unspent notes and fits; no two
      transactions that succeed spend one nullifier, in either pool; snapshots restore;
      an anchor outlives its horizon.
    - Node: over any operations the pool stays in step with the chain (rules of the
      next block, nothing stale, transfers and tips within the balance), accepted transactions pass
      execution's checks, and what is mined is executable in order.  One run exhibits
      a stale row of the timing index after a reorganisation.
    - Wire and entropy: bundles decode exactly from their encodings; an authorisation
      determines bundle and carrier; what verification accepts the pool takes; the
      health tests reject exactly what they describe, and a failed source yields nothing.
    - Block log: over any crashes and failures, what was flushed while the file was whole
      records is read back; a torn record hides what is appended behind it, a defect of
      the source ([torn_tail_hides]).
    - Sync: whatever peers send and however the threads interleave, the node stays a
      running node and its bookkeeping holds; trust needs a handshake on this channel; a
      peer reaches only its own row; a silent peer is passed over; a locator exchange
      finds the fork; on a good log, what is broadcast is on disk or the latch is set.  Three runs
      exhibit defects ([status_zero_panics], [linkage_unanswerable],
      [gossip_outruns_disk]).
    - Link and transport: two honest ends are two queues of frames; one binding means
      one key exchange, and nothing is accepted out of order; connections, inbox and
      gossip stay within their bounds whatever happens ([transport_bounded]), a ban lasts
      ([ban_holds]), a flood earns one ([flood_banned]).  Gossip brings back an address
      the node had set aside as its own ([self_address_relearned]).
    - Mining pool: a block pays what its window earned, the whole reward if it has work,
      and pools agree on it ([pool_pays_window]);
      messages round trip ([share_wire_roundtrip]).  One stale share can be credited by
      every share of a branch ([uncle_counts_again]), and peers that connect together
      pass the limit ([slots_overrun]): defects of the source.
    - Wallet: a note store holds what one scan of its chain would ([store_is_rescan]), is
      in step with the consensus pool of that chain ([store_in_step]), and after a fork
      lands on the node's chain ([reconcile_lands]).
    A pool is changed in place, and the ledger keeps what it became also when the bundle
    is refused.  Pool v2 documents and keeps that a refusal changes nothing ([pq_untorn]);
    pool v1 documents it and keeps it while its note tree is not full ([v1_untorn]).  The
    theorems on undo, commitment and chains take it as a hypothesis; a full tree breaks
    them, a defect of the source ([torn_pool_survives_undo]).  Those on money, authority,
    nonces and double spending do not need it.

    Collision resistance is never assumed.  A theorem that needs it takes the
    hypothesis that the finitely many strings hashed in the runs it speaks about
    do not collide ([no_break]); witnesses discharge it by computation.

    ** Conventions, bounds and fuel

    Unsigned integers are [N]; each operation that the source checks, saturates or
    wraps is written with its bound ([u64_max], [u128_max], [u256_max]).  An error
    that invalidates a block is [Err (Throw e)], an [expect] that can fail is
    [Err Panic].  Fuel appears where a source loop is not structural: the governance
    walk runs at most [height] windows, a Merkle level list shrinks at every turn so
    its length suffices, the mining loop is bounded by its own iteration limit, the
    pool's loops by the transactions it holds ([promote_loop_fuel]), the walks along
    parent links by the size of the index, which no branch exceeds, the reading of a
    frame by the bytes of the stream ([gather_enough]); the
    theorems state totality ([state_at_windowed], [merkle_complete]), not only
    partial correctness.  BTreeMap iteration is [entries]: the map's elements in
    key order.

    ** Parameters

    [SyncEnv] is the order a hash map is walked in; the transport of the sync model is an
    argument, and what is asked of it is a list of [effect]s.  Under it, [Aead], [Kem] and [Noise] are the
    ciphers, with the laws the link relies on; [WalletEnv] and [StoreCodec] are the seeded
    key generations and the stored form of a wallet.  The class [ExecEnv] collects what execution calls outside the modelled crates:
    the WebAssembly VM, SHA-256, the Borsh codecs, the two proof systems and pool
    states.  Every theorem holds for all of them, subject to the hypotheses it names;
    [ExecExamples] instantiates them with concrete functions.

    ** Not modelled

    Proof systems (STARK and v1 circuit), the VM interpreter, RandomX and SHA-256d;
    sockets and threads of the transport, port mapping, RPC, node wiring, GUI, the building of spends,
    snapshots on disk, the reserve calculator: either third-party code or input and
    output.  Read-only listings, the
    intent book of crates/intents, ledger snapshots and the Borsh codec of messages are
    left out as well. *)

From stdpp Require Export base tactics numbers list gmap strings sorting.
From stdpp Require Import options.

(** ** Scopes and notations *)

Declare Scope sov_scope.
Delimit Scope sov_scope with sov.
#[global] Open Scope N_scope.

(** ** Fallible code

    [Result<A, E>] of the source.  [result E] is a monad, so that the source's
    [?] operator is written with stdpp's bind notation [x ← m; k]. *)

Inductive result (E A : Type) : Type :=
| Ok (a : A)
| Err (e : E).
Arguments Ok {E A} a.
Arguments Err {E A} e.

#[global] Instance result_ret {E} : MRet (result E) := λ A a, Ok a.
#[global] Instance result_bind {E} : MBind (result E) := λ A B f m,
  match m with Ok a => f a | Err e => Err e end.
#[global] Instance result_fmap {E} : FMap (result E) := λ A B f m,
  match m with Ok a => Ok (f a) | Err e => Err e end.

(** [Option::ok_or]. *)
Definition ok_or {E A} (o : option A) (e : E) : result E A :=
  match o with Some a => Ok a | None => Err e end.
(** [Result::map_err]. *)
Definition map_err {E F A} (f : E → F) (r : result E A) : result F A :=
  match r with Ok a => Ok a | Err e => Err (f e) end.
Definition is_ok {E A} (r : result E A) : bool :=
  match r with Ok _ => true | Err _ => false end.

(** ** Unsigned machine integers

    An unsigned [w]-bit integer is an [N]; the width appears in the operations
    that can leave it. *)

Definition u8_max : N := 2 ^ 8 - 1.
Definition u16_max : N := 2 ^ 16 - 1.
Definition u32_max : N := 2 ^ 32 - 1.
Definition u64_max : N := 2 ^ 64 - 1.
Definition u128_max : N := 2 ^ 128 - 1.
Definition u256_max : N := 2 ^ 256 - 1.

Definition checked_add (max a b : N) : option N :=
  if a + b <=? max then Some (a + b) else None.
Definition checked_mul (max a b : N) : option N :=
  if a * b <=? max then Some (a * b) else None.
Definition checked_sub (a b : N) : option N :=
  if b <=? a then Some (a - b) else None.
Definition saturating_add (max a b : N) : N := N.min max (a + b).
Definition saturating_mul (max a b : N) : N := N.min max (a * b).
(** [saturating_sub] is [N.sub], which truncates at zero. *)
Definition saturating_sub (a b : N) : N := a - b.
(** [Ord::clamp]; the source panics when [hi < lo], which no caller reaches. *)
Definition clamp (lo hi x : N) : N := if x <? lo then lo else if hi <? x then hi else x.

Lemma checked_add_Some max a b c :
  checked_add max a b = Some c ↔ c = a + b ∧ a + b ≤ max.
Proof. unfold checked_add. destruct (N.leb_spec (a + b) max); naive_solver lia. Qed.
Lemma checked_add_None max a b : checked_add max a b = None ↔ max < a + b.
Proof. unfold checked_add. destruct (N.leb_spec (a + b) max); naive_solver lia. Qed.
Lemma checked_mul_Some max a b c :
  checked_mul max a b = Some c ↔ c = a * b ∧ a * b ≤ max.
Proof. unfold checked_mul. destruct (N.leb_spec (a * b) max); naive_solver lia. Qed.
Lemma checked_mul_None max a b : checked_mul max a b = None ↔ max < a * b.
Proof. unfold checked_mul. destruct (N.leb_spec (a * b) max); naive_solver lia. Qed.
Lemma checked_sub_Some a b c : checked_sub a b = Some c ↔ c = a - b ∧ b ≤ a.
Proof. unfold checked_sub. destruct (N.leb_spec b a); naive_solver lia. Qed.
Lemma checked_sub_None a b : checked_sub a b = None ↔ a < b.
Proof. unfold checked_sub. destruct (N.leb_spec b a); naive_solver lia. Qed.

Lemma clamp_between lo hi x : lo ≤ hi → lo ≤ clamp lo hi x ≤ hi.
Proof.
  intros. unfold clamp. destruct (N.ltb_spec x lo); [lia|].
  destruct (N.ltb_spec hi x); lia.
Qed.
Lemma clamp_id lo hi x : lo ≤ x ≤ hi → clamp lo hi x = x.
Proof.
  intros. unfold clamp. destruct (N.ltb_spec x lo); [lia|].
  destruct (N.ltb_spec hi x); lia.
Qed.

(** ** Proof automation

    [sov_simpl] inverts successful runs of monadic code: it splits binds,
    turns checked arithmetic and boolean tests into propositions and
    substitutes.  The hint database [sov] collects the closing lemmas of the
    components. *)

Create HintDb sov.

Lemma ok_or_Ok {E A} (o : option A) (e : E) a : ok_or o e = Ok a ↔ o = Some a.
Proof. destruct o; naive_solver. Qed.
Lemma map_err_Ok {E F A} (f : E → F) (r : result E A) a :
  map_err f r = Ok a ↔ r = Ok a.
Proof. destruct r; naive_solver. Qed.
Lemma bind_Ok {E A B} (f : A → result E B) (m : result E A) b :
  m ≫= f = Ok b ↔ ∃ a, m = Ok a ∧ f a = Ok b.
Proof. destruct m; simpl; naive_solver. Qed.

Ltac sov_simpl_step :=
  match goal with
  | H : _ ∧ _ |- _ => destruct H
  | H : ∃ _, _ |- _ => destruct H
  | H : (_, _) = (_, _) |- _ => simplify_eq
  | H : Ok _ = Ok _ |- _ => simplify_eq
  | H : Some _ = Some _ |- _ => simplify_eq
  | H : Ok _ = Err _ |- _ => discriminate H
  | H : Err _ = Ok _ |- _ => discriminate H
  | H : Err _ = Err _ |- _ => simplify_eq
  | H : None = Some _ |- _ => discriminate H
  | H : Some _ = None |- _ => discriminate H
  | H : _ ≫= _ = Ok _ |- _ => apply bind_Ok in H
  | H : ok_or _ _ = Ok _ |- _ => apply ok_or_Ok in H
  | H : map_err _ _ = Ok _ |- _ => apply map_err_Ok in H
  | H : checked_add _ _ _ = Some _ |- _ => apply checked_add_Some in H
  | H : checked_sub _ _ = Some _ |- _ => apply checked_sub_Some in H
  | H : checked_mul _ _ _ = Some _ |- _ => apply checked_mul_Some in H
  | H : checked_add _ _ _ = None |- _ => apply checked_add_None in H
  | H : checked_sub _ _ = None |- _ => apply checked_sub_None in H
  end.
Ltac sov_simpl := repeat (sov_simpl_step; simpl in * ).

(** Case analysis on the scrutinee of a match or conditional in a hypothesis. *)
Ltac case_in H :=
  match type of H with
  | context [match ?x with _ => _ end] => destruct x eqn:?; simpl in H
  end.

(** ** Sums over finite maps *)

Section map_sum.
Context {K V : Type} `{Countable K}.
Implicit Types (m : gmap K V) (f : V → N).

Definition map_sum f m : N := map_fold (λ _ v acc, f v + acc) 0 m.

Lemma map_sum_empty f : map_sum f ∅ = 0.
Proof. done. Qed.

Lemma map_sum_insert_None f m k v :
  m !! k = None → map_sum f (<[k:=v]> m) = f v + map_sum f m.
Proof. intros. unfold map_sum. rewrite map_fold_insert_L; [done| |done]. intros; lia. Qed.

Lemma map_sum_delete f m k v :
  m !! k = Some v → map_sum f m = f v + map_sum f (delete k m).
Proof. intros. unfold map_sum. rewrite (map_fold_delete_L _ _ k v); [done| |done]. intros; lia. Qed.

Lemma map_sum_delete_None f m k : m !! k = None → map_sum f (delete k m) = map_sum f m.
Proof. intros. by rewrite delete_id. Qed.

Lemma map_sum_insert f m k v :
  map_sum f (<[k:=v]> m) = f v + map_sum f (delete k m).
Proof.
  rewrite <- insert_delete_eq. apply map_sum_insert_None. apply lookup_delete_eq.
Qed.

(** Sum of [f] at [k], the default being zero. *)
Definition at_or_0 f (o : option V) : N := match o with Some v => f v | None => 0 end.

Lemma map_sum_split f m k :
  map_sum f m = at_or_0 f (m !! k) + map_sum f (delete k m).
Proof.
  destruct (m !! k) as [v|] eqn:E; simpl.
  - by apply map_sum_delete.
  - by rewrite map_sum_delete_None.
Qed.

Lemma map_sum_lookup_le f m k v : m !! k = Some v → f v ≤ map_sum f m.
Proof. intros E. rewrite (map_sum_delete f m k v E). lia. Qed.
End map_sum.

(** ** Bit operations *)

Lemma lor_shiftl_add a b k : b < 2 ^ k → N.lor (N.shiftl a k) b = a * 2 ^ k + b.
Proof.
  intros Hb. assert (N.land (N.shiftl a k) b = 0) as Hl.
  { apply N.bits_inj_iff. intros i. rewrite N.land_spec, N.bits_0.
    destruct (N.lt_ge_cases i k).
    - by rewrite N.shiftl_spec_low.
    - destruct (N.eq_decidable b 0) as [->|]; [by rewrite N.bits_0, andb_false_r|].
      rewrite (N.bits_above_log2 b), andb_false_r; [done|].
      apply N.log2_lt_pow2; [lia|]. eapply N.lt_le_trans; [done|].
      apply N.pow_le_mono_r; lia. }
  rewrite <- N.lxor_lor, <- N.add_nocarry_lxor, N.shiftl_mul_pow2; done.
Qed.

(** [x & (1 << k) != 0]. *)
Lemma land_pow2_testbit x k : N.land x (2 ^ k) = 0 ↔ N.testbit x k = false.
Proof.
  split; intros E.
  - apply (f_equal (λ y, N.testbit y k)) in E.
    rewrite N.land_spec, N.pow2_bits_true, N.bits_0, andb_true_r in E. done.
  - apply N.bits_inj_iff. intros i. rewrite N.land_spec, N.bits_0.
    destruct (decide (k = i)) as [->|Hne]; [by rewrite E|].
    rewrite N.pow2_bits_false by done. apply andb_false_r.
Qed.

Lemma testbit_top x k : x < 2 ^ (k + 1) → N.testbit x k = (2 ^ k <=? x).
Proof.
  intros Hx. rewrite N.pow_add_r, N.pow_1_r in Hx.
  assert (2 ^ k ≠ 0) by (by apply N.pow_nonzero).
  destruct (N.leb_spec (2 ^ k) x).
  - apply N.testbit_true. replace (x / 2 ^ k) with 1; [done|].
    apply (N.div_unique x (2 ^ k) 1 (x - 2 ^ k)); lia.
  - rewrite N.testbit_false. rewrite N.div_small by done. done.
Qed.

(** ** Big-endian byte strings *)

Definition byte_ok (b : N) : Prop := b < 256.

Definition be_val (l : list N) : N := foldl (λ acc b, acc * 256 + b) 0 l.

Lemma be_val_foldl l acc : foldl (λ acc b, acc * 256 + b) acc l = acc * 256 ^ N.of_nat (length l) + be_val l.
Proof.
  unfold be_val. revert acc. induction l as [|b l IH]; intros acc; simpl; [lia|].
  rewrite IH, (IH (0 * 256 + b)). rewrite Nat2N.inj_succ, N.pow_succ_r'. lia.
Qed.
Lemma be_val_cons b l : be_val (b :: l) = b * 256 ^ N.of_nat (length l) + be_val l.
Proof. unfold be_val at 1. simpl. rewrite be_val_foldl. lia. Qed.
Lemma be_val_app l1 l2 :
  be_val (l1 ++ l2) = be_val l1 * 256 ^ N.of_nat (length l2) + be_val l2.
Proof. unfold be_val at 1. rewrite foldl_app, be_val_foldl. done. Qed.
Lemma be_val_zeros n : be_val (replicate n 0) = 0.
Proof. induction n; [done|]. simpl. rewrite be_val_cons, IHn. lia. Qed.
Lemma be_val_bound l : Forall byte_ok l → be_val l < 256 ^ N.of_nat (length l).
Proof.
  induction 1 as [|b l Hb _ IH]; [done|].
  rewrite be_val_cons. simpl length. rewrite Nat2N.inj_succ, N.pow_succ_r'.
  unfold byte_ok in Hb. nia.
Qed.

(** Lexicographic comparison, the derived [Ord] of byte arrays. *)
Fixpoint bytes_leb (l1 l2 : list N) : bool :=
  match l1, l2 with
  | [], _ => true
  | _ :: _, [] => false
  | a :: l1, b :: l2 => if a <? b then true else if b <? a then false else bytes_leb l1 l2
  end.

Lemma bytes_leb_total a b : bytes_leb a b = true ∨ bytes_leb b a = true.
Proof.
  revert b. induction a as [|x a IH]; intros [|y b]; cbn [bytes_leb]; [by left..|by right|].
  destruct (N.ltb_spec x y); [by left|]. destruct (N.ltb_spec y x); [by right|]. apply IH.
Qed.
Lemma bytes_leb_antisym a b : bytes_leb a b = true → bytes_leb b a = true → a = b.
Proof.
  revert b. induction a as [|x a IH]; intros [|y b]; cbn [bytes_leb]; [done..|].
  destruct (N.ltb_spec x y), (N.ltb_spec y x); try done; try lia. intros H1 H2. f_equal; [lia|by apply IH].
Qed.
Lemma bytes_leb_trans a b c : bytes_leb a b = true → bytes_leb b c = true → bytes_leb a c = true.
Proof.
  revert b c. induction a as [|x a IH]; intros [|y b] [|z c]; cbn [bytes_leb]; try done.
  destruct (N.ltb_spec x y), (N.ltb_spec y z), (N.ltb_spec x z), (N.ltb_spec y x), (N.ltb_spec z y), (N.ltb_spec z x);
    try done; try lia. apply IH.
Qed.

(** On arrays of one width, lexicographic order is numeric order. *)
Lemma bytes_leb_val l1 l2 :
  length l1 = length l2 → Forall byte_ok l1 → Forall byte_ok l2 →
  bytes_leb l1 l2 = (be_val l1 <=? be_val l2).
Proof.
  revert l2. induction l1 as [|a l1 IH]; intros [|b l2]; try done.
  simpl length. intros [= Hlen] Ha Hb. inversion_clear Ha. inversion_clear Hb.
  pose proof (be_val_bound l1 ltac:(done)) as B1.
  pose proof (be_val_bound l2 ltac:(done)) as B2.
  rewrite !be_val_cons. rewrite Hlen in *. simpl.
  set (p := 256 ^ N.of_nat (length l2)) in *.
  destruct (N.ltb_spec a b).
  - symmetry. apply N.leb_le. nia.
  - destruct (N.ltb_spec b a).
    + symmetry. apply N.leb_gt. nia.
    + assert (a = b) as -> by lia. rewrite IH by done.
      apply eq_true_iff_eq. rewrite !N.leb_le. lia.
Qed.

(** Big-endian encoding on [n] bytes. *)
Fixpoint to_be (n : nat) (v : N) : list N :=
  match n with
  | O => []
  | S n => (v / 256 ^ N.of_nat n) mod 256 :: to_be n v
  end.
Lemma length_to_be n v : length (to_be n v) = n.
Proof. induction n; simpl; congruence. Qed.
Lemma to_be_ok n v : Forall byte_ok (to_be n v).
Proof.
  induction n; simpl; constructor; [|done]. unfold byte_ok.
  apply N.mod_lt. done.
Qed.
Lemma be_val_to_be n v : be_val (to_be n v) = v mod 256 ^ N.of_nat n.
Proof.
  induction n as [|n IH]; [by rewrite N.mod_1_r|].
  simpl to_be. rewrite be_val_cons, length_to_be, IH, Nat2N.inj_succ, N.pow_succ_r'.
  assert (256 ^ N.of_nat n ≠ 0) by (by apply N.pow_nonzero).
  rewrite (N.mul_comm 256), N.Div0.mod_mul_r. lia.
Qed.

(** Little-endian strings: [from_le_bytes] and [to_le_bytes]. *)
Definition le_val (l : list N) : N := be_val (reverse l).
Definition to_le (n : nat) (v : N) : list N := reverse (to_be n v).
Lemma le_to_le n v : v < 256 ^ N.of_nat n → le_val (to_le n v) = v.
Proof. intros Hv. unfold le_val, to_le. rewrite reverse_involutive, be_val_to_be. by apply N.mod_small. Qed.
Lemma to_be_val l : Forall byte_ok l → to_be (length l) (be_val l) = l.
Proof.
  induction 1 as [|b l Hb Hl IH]; [done|]. cbn [length to_be]. rewrite be_val_cons.
  pose proof (be_val_bound l Hl) as Hv. set (k := 256 ^ N.of_nat (length l)) in *.
  assert (k ≠ 0) by (by apply N.pow_nonzero).
  rewrite N.div_add_l, (N.div_small (be_val l)), N.add_0_r, N.mod_small by done. f_equal.
  transitivity (to_be (length l) (be_val l)); [|exact IH]. clear IH.
  assert (∀ n, (n ≤ length l)%nat → to_be n (b * k + be_val l) = to_be n (be_val l)) as Hn; [|by apply Hn].
  induction n as [|n IH]; intros Hn; [done|]. cbn [to_be]. f_equal; [|apply IH; lia].
  assert (k = 256 ^ N.of_nat n * (256 * 256 ^ (N.of_nat (length l) - N.of_nat (S n)))) as Ek.
  { unfold k. rewrite <- N.pow_succ_r', <- N.pow_add_r. f_equal. lia. }
  assert (256 ^ N.of_nat n ≠ 0) by (by apply N.pow_nonzero).
  rewrite Ek. replace (b * (256 ^ N.of_nat n * (256 * 256 ^ (N.of_nat (length l) - N.of_nat (S n)))))
    with ((b * 256 ^ (N.of_nat (length l) - N.of_nat (S n)) * 256) * 256 ^ N.of_nat n) by lia.
  rewrite N.div_add_l by done. by rewrite N.add_comm, N.Div0.mod_add.
Qed.
Lemma to_le_val l : Forall byte_ok l → to_le (length l) (le_val l) = l.
Proof.
  intros Hl. unfold to_le, le_val. rewrite <- (length_reverse l), to_be_val; [apply reverse_involutive|by apply Forall_reverse].
Qed.
Lemma length_to_le n v : length (to_le n v) = n.
Proof. unfold to_le. by rewrite length_reverse, length_to_be. Qed.

(** What every turn of a loop keeps holds after it. *)
Lemma foldl_keeps {A B} (P : A → Prop) (f : A → B → A) l a : P a → (∀ a b, P a → P (f a b)) → P (foldl f a l).
Proof. intros Ha Hf. revert a Ha. induction l as [|b l IH]; intros a Ha; [done|]. by apply IH, Hf. Qed.

(** Overwriting one byte moves the value by the byte's weight. *)
Lemma be_val_insert l i a b :
  l !! i = Some a →
  be_val (<[i:=b]> l) + a * 256 ^ N.of_nat (length l - 1 - i)
  = be_val l + b * 256 ^ N.of_nat (length l - 1 - i).
Proof.
  revert i. induction l as [|c l IH]; intros [|i]; simpl; try done.
  - intros [= ->]. rewrite !be_val_cons.
    replace (length l - 0 - 0)%nat with (length l) by lia. lia.
  - intros Hi. rewrite !be_val_cons, length_insert.
    specialize (IH i Hi). pose proof (lookup_lt_Some _ _ _ Hi).
    replace (length l - 0 - S i)%nat with (length l - 1 - i)%nat by lia. lia.
Qed.
Lemma Forall_byte_insert l i b : byte_ok b → Forall byte_ok l → Forall byte_ok (<[i:=b]> l).
Proof. intros. by apply Forall_insert. Qed.
