(* ===== verification/Primitives.v ===== *)
(** * Core value types (crates/primitives)

    Grain amounts with checked arithmetic, block heights and validated account
    identifiers. *)

From Stdlib Require Import Ascii.
From S2P Require Import Prelude.

(** ** Amounts (amount.rs) *)

(** [struct Balance(u128)]: a number of grains. *)
Abbreviation Balance := N (only parsing).

Definition DECIMALS : N := 8.
Definition GRAINS_PER_SOV : N := 10 ^ DECIMALS.
Definition MAX_SUPPLY_SOV : N := 21000000.
Definition MAX_SUPPLY_GRAINS : N := MAX_SUPPLY_SOV * GRAINS_PER_SOV.

Inductive BalanceError := BalanceOverflow.

Module Bal.
Definition from_sov (sov : N) : result BalanceError Balance :=
  ok_or (checked_mul u128_max sov GRAINS_PER_SOV) BalanceOverflow.
Definition checked_add (a b : Balance) : option Balance := checked_add u128_max a b.
Definition checked_sub (a b : Balance) : option Balance := checked_sub a b.
Definition within_cap (a : Balance) : bool := a <=? MAX_SUPPLY_GRAINS.

Lemma add_Some a b c : checked_add a b = Some c ↔ c = a + b ∧ a + b ≤ u128_max.
Proof. apply Prelude.checked_add_Some. Qed.
Lemma add_None a b : checked_add a b = None ↔ u128_max < a + b.
Proof. apply Prelude.checked_add_None. Qed.
Lemma sub_Some a b c : checked_sub a b = Some c ↔ c = a - b ∧ b ≤ a.
Proof. apply Prelude.checked_sub_Some. Qed.
Lemma sub_None a b : checked_sub a b = None ↔ a < b.
Proof. apply Prelude.checked_sub_None. Qed.
End Bal.

(** ** Block heights (height.rs) *)

Module BlockHeight.
Definition GENESIS : N := 0.
Definition next (h : N) : option N := checked_add u64_max h 1.
Definition is_genesis (h : N) : bool := h =? 0.
End BlockHeight.

(** ** Byte strings *)

Abbreviation bytes := (list N) (only parsing).

Fixpoint string_bytes (s : string) : bytes :=
  match s with
  | EmptyString => []
  | String a s => N_of_ascii a :: string_bytes s
  end.

Lemma string_bytes_inj s t : string_bytes s = string_bytes t → s = t.
Proof.
  revert t. induction s as [|a s IH]; intros [|b t]; simpl; try done.
  intros [= Hab Hst]. rewrite <- (ascii_N_embedding a), <- (ascii_N_embedding b), Hab.
  f_equal. by apply IH.
Qed.
#[global] Instance string_bytes_Inj : Inj (=) (=) string_bytes.
Proof. exact string_bytes_inj. Qed.

(** Inverse of [string_bytes] on byte values ([String::from_utf8] restricted to
    the strings the development builds). *)
Fixpoint bytes_string (l : bytes) : string :=
  match l with
  | [] => EmptyString
  | b :: l => String (ascii_of_N b) (bytes_string l)
  end.

Lemma bytes_string_bytes s : bytes_string (string_bytes s) = s.
Proof. induction s; simpl; [done|]. by rewrite ascii_N_embedding, IHs. Qed.

(** ** Account identifiers (account.rs) *)

Inductive AccountIdError :=
| AccLength (len : N)
| AccEdgeSeparator
| AccInvalidChar (ch : N)
| AccAdjacentSeparators.

Definition MIN_LEN : N := 2.
Definition MAX_LEN : N := 64.

Definition is_ascii_digit (b : N) : bool := (48 <=? b) && (b <=? 57).
Definition is_ascii_lowercase (b : N) : bool := (97 <=? b) && (b <=? 122).
Definition is_ascii_uppercase (b : N) : bool := (65 <=? b) && (b <=? 90).
Definition is_ascii_alphanumeric (b : N) : bool :=
  is_ascii_digit b || is_ascii_lowercase b || is_ascii_uppercase b.
Definition is_ascii_graphic (b : N) : bool := (33 <=? b) && (b <=? 126).
(** [-], [_] and [.]. *)
Definition is_sep (b : N) : bool := (b =? 45) || (b =? 95) || (b =? 46).
Definition acc_char (b : N) : bool := is_ascii_lowercase b || is_ascii_digit b || is_sep b.

(** The character loop of [AccountId::validate]. *)
Fixpoint validate_chars (prev_sep : bool) (l : bytes) : result AccountIdError unit :=
  match l with
  | [] => Ok ()
  | b :: l =>
      if negb (acc_char b) then Err (AccInvalidChar b)
      else if is_sep b then
        if prev_sep then Err AccAdjacentSeparators else validate_chars true l
      else validate_chars false l
  end.

Definition validate (id : bytes) : result AccountIdError unit :=
  let len := N.of_nat (length id) in
  if negb ((MIN_LEN <=? len) && (len <=? MAX_LEN)) then Err (AccLength len)
  else if is_sep (default 0 (head id)) || is_sep (default 0 (last id)) then Err AccEdgeSeparator
  else validate_chars false id.

(** A validated identifier: [AccountId::new] is the only constructor, so the
    validity proof is part of the value. *)
Record AccountId := mkAccountId {
  as_str : string;
  as_str_valid : is_ok (validate (string_bytes as_str)) = true;
}.

Definition acc_bytes (id : AccountId) : bytes := string_bytes (as_str id).

Definition AccountId_build (raw : string) (r : result AccountIdError unit) :
    validate (string_bytes raw) = r → result AccountIdError AccountId :=
  match r with
  | Ok _ => λ E, Ok (mkAccountId raw (f_equal is_ok E))
  | Err e => λ _, Err e
  end.
Definition AccountId_new (raw : string) : result AccountIdError AccountId :=
  AccountId_build raw _ eq_refl.

Lemma AccountId_build_Ok s r E id : AccountId_build s r E = Ok id → as_str id = s.
Proof. destruct r; naive_solver. Qed.
Lemma AccountId_new_Ok s id : AccountId_new s = Ok id → as_str id = s.
Proof. apply AccountId_build_Ok. Qed.
Lemma AccountId_build_valid s r E :
  is_ok r = true → ∃ id, AccountId_build s r E = Ok id.
Proof. destruct r; naive_solver. Qed.

Lemma as_str_inj x y : as_str x = as_str y → x = y.
Proof.
  destruct x as [x Hx], y as [y Hy]; simpl. intros ->. f_equal. apply (proof_irrel _).
Qed.
#[global] Instance AccountId_eq_dec : EqDecision AccountId.
Proof.
  intros x y. destruct (decide (as_str x = as_str y)) as [E|E].
  - left. by apply as_str_inj.
  - right. intros ->. done.
Defined.
#[global] Program Instance AccountId_countable : Countable AccountId :=
  inj_countable as_str
    (λ s, match AccountId_new s with Ok a => Some a | Err _ => None end) _.
Next Obligation.
  intros x; simpl. unfold AccountId_new.
  destruct (AccountId_build_valid (as_str x) _ eq_refl (as_str_valid x)) as [id E].
  rewrite E. f_equal. apply as_str_inj. by eapply AccountId_build_Ok.
Qed.

(** [AccountId::is_implicit]: exactly 64 lowercase hexadecimal characters. *)
Definition is_implicit (id : AccountId) : bool :=
  (N.of_nat (length (acc_bytes id)) =? 64)
  && forallb (λ b, is_ascii_digit b || ((97 <=? b) && (b <=? 102))) (acc_bytes id).

Definition ends_with (suffix l : bytes) : bool :=
  bool_decide (suffix = drop (length l - length suffix) l) && (length suffix <=? length l)%nat.

(** [AccountId::is_registrable_name]. *)
Definition is_registrable_name (id : AccountId) : bool :=
  negb (is_implicit id) && ends_with (string_bytes ".sov") (acc_bytes id).

(** *** What the validation guarantees *)

Lemma validate_chars_ok p l :
  is_ok (validate_chars p l) = true → Forall (λ b, acc_char b = true) l.
Proof.
  revert p. induction l as [|b l IH]; intros p; simpl; [done|].
  destruct (acc_char b) eqn:Eb; simpl; [|done].
  destruct (is_sep b), p; try done; intros; constructor; eauto.
Qed.

Lemma validate_ok l :
  is_ok (validate l) = true →
  Forall (λ b, acc_char b = true) l ∧ (2 ≤ length l ≤ 64)%nat.
Proof.
  unfold validate, MIN_LEN, MAX_LEN.
  destruct (N.leb_spec 2 (N.of_nat (length l))); [|done].
  destruct (N.leb_spec (N.of_nat (length l)) 64); [|done]. simpl.
  destruct (_ || _); [done|]. intros ?%validate_chars_ok. split; [done|lia].
Qed.

Lemma acc_char_range b : acc_char b = true → 45 ≤ b ≤ 122.
Proof.
  unfold acc_char, is_ascii_lowercase, is_ascii_digit, is_sep.
  rewrite !orb_true_iff, !andb_true_iff, !N.leb_le, !N.eqb_eq. lia.
Qed.

(** Every byte of an account id is at least [0x2d]: the tag bytes [0x00] to
    [0x07] never occur in one. *)
Lemma acc_bytes_range id : Forall (λ b, 45 ≤ b ≤ 122) (acc_bytes id).
Proof.
  destruct (validate_ok _ (as_str_valid id)) as [H _].
  eapply Forall_impl; [exact H|]. intros; by apply acc_char_range.
Qed.
Lemma acc_bytes_nonempty id : ∃ b l, acc_bytes id = b :: l ∧ 45 ≤ b.
Proof.
  destruct (validate_ok _ (as_str_valid id)) as [H ?].
  pose proof (acc_bytes_range id) as R. unfold acc_bytes in *.
  destruct (string_bytes (as_str id)) as [|b l]; simpl in *; [lia|].
  exists b, l. inversion_clear R. naive_solver lia.
Qed.
Lemma acc_bytes_inj x y : acc_bytes x = acc_bytes y → x = y.
Proof. intros E. apply as_str_inj. by apply string_bytes_inj. Qed.
#[global] Instance acc_bytes_Inj : Inj (=) (=) acc_bytes.
Proof. exact acc_bytes_inj. Qed.
