(* ===== verification/Pow.v ===== *)
(** * Proof-of-work targets (crates/pow/src/target.rs)

    The 256-bit target as its 32 big-endian bytes, Bitcoin's compact nBits
    codec, and the generic miner. *)

From S2P Require Import Prelude Primitives.

Module Target.
(** [struct Target(Hash)]: the 32 raw big-endian bytes of the threshold. *)
Abbreviation t := (list N) (only parsing).

Definition wf (x : t) : Prop := length x = 32%nat ∧ Forall byte_ok x.

Definition ZERO : t := replicate 32 0.
Definition EASIEST : t := replicate 32 255.

Definition from_leading_zero_bits (bits : N) : t :=
  if bits =? 0 then EASIEST
  else if 256 <=? bits then ZERO
  else
    let full_zero_bytes := N.to_nat (bits / 8) in
    let zeroed := replicate full_zero_bytes 0 ++ drop full_zero_bytes (replicate 32 255) in
    let remainder := bits mod 8 in
    if remainder =? 0 then zeroed
    else <[full_zero_bytes := N.shiftr 255 remainder]> zeroed.

(** [is_met_by]: the derived order of [Hash] is lexicographic. *)
Definition is_met_by (x : t) (hash : bytes) : bool := bytes_leb hash x.

(** [bytes.iter().position(|&b| b != 0)]. *)
Fixpoint position_nonzero (l : bytes) : option nat :=
  match l with
  | [] => None
  | b :: l => if b =? 0 then S <$> position_nonzero l else Some O
  end.

(** The packing of the last lines of [to_compact], from the index of the most
    significant non-zero byte. *)
Definition pack_compact (bs : bytes) (first : nat) : N :=
  let size := 32 - N.of_nat first in
  let b k := default 0 (bs !! (first + k)%nat) in
  let mantissa := N.lor (N.lor (N.shiftl (b 0%nat) 16) (N.shiftl (b 1%nat) 8)) (b 2%nat) in
  let '(mantissa, size) :=
    if negb (N.land mantissa 0x800000 =? 0) then (N.shiftr mantissa 8, size + 1)
    else (mantissa, size) in
  N.lor (N.shiftl size 24) mantissa.

Definition to_compact (x : t) : N :=
  match position_nonzero x with
  | None => 0
  | Some first => pack_compact x first
  end.

(** [out[idx] = byte] of the decoding loop, guarded as in the source:
    [(32 + k).checked_sub(size)] and [idx < 32]. *)
Definition put_byte (size : N) (k : N) (byte : N) (out : bytes) : bytes :=
  match checked_sub (32 + k) size with
  | Some idx => if idx <? 32 then <[N.to_nat idx := byte]> out else out
  | None => out
  end.

Definition from_compact (bits : N) : option t :=
  let size := N.shiftr bits 24 in
  let mantissa := N.land bits 0x7fffff in
  if negb (N.land bits 0x800000 =? 0) then None
  else if mantissa =? 0 then Some ZERO
  else if (34 <? size) || ((0xff <? mantissa) && (33 <? size))
          || ((0xffff <? mantissa) && (32 <? size)) then None
  else
    let m0 := N.shiftr mantissa 16 mod 256 in
    let m1 := N.shiftr mantissa 8 mod 256 in
    let m2 := mantissa mod 256 in
    if size <=? 3 then
      let val := N.shiftr mantissa (8 * (3 - size)) in
      Some (<[31%nat := val mod 256]>
             (<[30%nat := N.shiftr val 8 mod 256]>
               (<[29%nat := N.shiftr val 16 mod 256]> ZERO)))
    else
      Some (put_byte size 2 m2 (put_byte size 1 m1 (put_byte size 0 m0 ZERO))).

(** ** Numeric reading *)

Lemma is_met_by_val x h :
  wf x → wf h → is_met_by x h = (be_val h <=? be_val x).
Proof. intros [??] [??]. apply bytes_leb_val; congruence. Qed.

(** The value a compact encoding denotes. *)
Definition compact_value (size mantissa : N) : N :=
  if size <=? 3 then mantissa / 256 ^ (3 - size) else mantissa * 256 ^ (size - 3).

Lemma split_mantissa m :
  m < 2 ^ 23 →
  m = (N.shiftr m 16 mod 256) * 65536 + (N.shiftr m 8 mod 256) * 256 + m mod 256.
Proof.
  intros Hm. rewrite !N.shiftr_div_pow2. change (2 ^ 16) with 65536. change (2 ^ 8) with 256.
  rewrite (N.mod_small (m / 65536)) by (apply N.Div0.div_lt_upper_bound; lia).
  pose proof (N.div_mod m 256 ltac:(done)).
  pose proof (N.div_mod (m / 256) 256 ltac:(done)) as H2.
  rewrite N.Div0.div_div in H2. change (256 * 256) with 65536 in H2. lia.
Qed.

(** A byte of the array still zero, and the weight it carries. *)
Lemma put_byte_val size k b out :
  wf out → byte_ok b → k < 3 → 4 ≤ size →
  (size ≤ 32 + k → out !! N.to_nat (32 + k - size) = Some 0) →
  (32 + k < size → b = 0) →
  wf (put_byte size k b out) ∧
  be_val (put_byte size k b out) = be_val out + b * 256 ^ (size - 1 - k).
Proof.
  intros [Hlen Hok] Hb Hk Hs Hz H0. unfold put_byte, checked_sub.
  destruct (N.leb_spec size (32 + k)) as [Hle|Hgt].
  - destruct (N.ltb_spec (32 + k - size) 32); [|lia].
    specialize (Hz Hle). split.
    + split; [by rewrite length_insert|by apply Forall_byte_insert].
    + pose proof (be_val_insert out _ 0 b Hz) as E. rewrite Hlen in E.
      replace (N.of_nat (32 - 1 - N.to_nat (32 + k - size))) with (size - 1 - k) in E by lia.
      lia.
  - split; [done|]. rewrite H0 by lia. lia.
Qed.

Lemma ZERO_wf : wf ZERO.
Proof. split; [done|]. apply Forall_replicate. done. Qed.
Lemma ZERO_lookup i : (i < 32)%nat → ZERO !! i = Some 0.
Proof. intros. by apply lookup_replicate_2. Qed.
Lemma put_byte_lookup size k b out i :
  32 + k - size ≠ N.of_nat i ∨ 32 + k < size → put_byte size k b out !! i = out !! i.
Proof.
  intros Hne. unfold put_byte, checked_sub. destruct (N.leb_spec size (32 + k)); [|done].
  destruct (_ <? 32); [|done]. apply list_lookup_insert_ne. lia.
Qed.

Lemma mod256_ok x : byte_ok (x mod 256).
Proof. by apply N.mod_lt. Qed.

(** The long form (size at least 4). *)
Lemma put_bytes_val size m0 m1 m2 :
  byte_ok m0 → byte_ok m1 → byte_ok m2 → 4 ≤ size →
  (32 < size → m0 = 0) → (33 < size → m1 = 0) → size ≤ 34 →
  let out := put_byte size 2 m2 (put_byte size 1 m1 (put_byte size 0 m0 ZERO)) in
  wf out ∧ be_val out = (m0 * 65536 + m1 * 256 + m2) * 256 ^ (size - 3).
Proof.
  intros B0 B1 B2 Hs Z0 Z1 H34. cbv zeta.
  destruct (put_byte_val size 0 m0 ZERO) as [W0 V0]; auto using ZERO_wf; try lia.
  { intros. apply ZERO_lookup. lia. }
  destruct (put_byte_val size 1 m1 (put_byte size 0 m0 ZERO)) as [W1 V1]; auto; try lia.
  { intros. rewrite put_byte_lookup by lia. apply ZERO_lookup. lia. }
  destruct (put_byte_val size 2 m2 (put_byte size 1 m1 (put_byte size 0 m0 ZERO)))
    as [W2 V2]; auto; try lia.
  { intros. rewrite !put_byte_lookup by lia. apply ZERO_lookup. lia. }
  split; [done|]. rewrite V2, V1, V0. unfold ZERO. rewrite be_val_zeros.
  replace (size - 1 - 0) with (2 + (size - 3)) by lia.
  replace (size - 1 - 1) with (1 + (size - 3)) by lia.
  replace (size - 1 - 2) with (size - 3) by lia.
  rewrite !N.pow_add_r. change (256 ^ 2) with 65536. change (256 ^ 1) with 256. lia.
Qed.

(** The short form (size at most 3). *)
Lemma short_val v :
  v < 2 ^ 23 →
  let out := <[31%nat := v mod 256]> (<[30%nat := N.shiftr v 8 mod 256]>
               (<[29%nat := N.shiftr v 16 mod 256]> ZERO)) in
  wf out ∧ be_val out = v.
Proof.
  intros Hv. cbv zeta. split.
  - split; [done|]. repeat apply Forall_byte_insert; try apply mod256_ok. apply ZERO_wf.
  - rewrite (split_mantissa v Hv) at 4. simpl. unfold be_val. simpl. lia.
Qed.

Lemma compact_mantissa bits : N.land bits 0x7fffff = bits mod 2 ^ 23.
Proof. change 0x7fffff with (N.ones 23). apply N.land_ones. Qed.
Lemma compact_sign bits : (N.land bits 0x800000 =? 0) = negb (N.testbit bits 23).
Proof.
  change 0x800000 with (2 ^ 23). apply eq_true_iff_eq.
  rewrite N.eqb_eq, land_pow2_testbit, negb_true_iff. done.
Qed.

(** What [from_compact] decodes: the denoted value, or [None] exactly for a
    set sign bit or a value that does not fit 256 bits. *)
Definition from_compact_spec (bits : N) (o : option t) : Prop :=
  let v := compact_value (bits / 2 ^ 24) (bits mod 2 ^ 23) in
  match o with
  | Some x => N.testbit bits 23 = false ∧ wf x ∧ be_val x = v
  | None => N.testbit bits 23 = true ∨ 2 ^ 256 ≤ v
  end.

Lemma overflow_value size m :
  34 < size ∨ (0xff < m ∧ 33 < size) ∨ (0xffff < m ∧ 32 < size) → m ≠ 0 →
  2 ^ 256 ≤ compact_value size m.
Proof.
  intros H Hm. unfold compact_value. destruct (N.leb_spec size 3); [lia|].
  change (2 ^ 256) with (256 ^ 32).
  destruct H as [?|[[??]|[??]]].
  - transitivity (1 * 256 ^ (size - 3)); [|apply N.mul_le_mono_r; lia].
    rewrite N.mul_1_l. apply N.pow_le_mono_r; lia.
  - transitivity (256 ^ 1 * 256 ^ (size - 3)); [|apply N.mul_le_mono_r; lia].
    rewrite <- N.pow_add_r. apply N.pow_le_mono_r; lia.
  - transitivity (256 ^ 2 * 256 ^ (size - 3)); [|apply N.mul_le_mono_r; lia].
    rewrite <- N.pow_add_r. apply N.pow_le_mono_r; lia.
Qed.

Lemma guard_false size m :
  (34 <? size) || ((0xff <? m) && (33 <? size)) || ((0xffff <? m) && (32 <? size)) = false →
  size ≤ 34 ∧ (33 < size → m ≤ 0xff) ∧ (32 < size → m ≤ 0xffff).
Proof.
  rewrite !orb_false_iff, !andb_false_iff, !N.ltb_ge. lia.
Qed.
Lemma guard_true size m :
  (34 <? size) || ((0xff <? m) && (33 <? size)) || ((0xffff <? m) && (32 <? size)) = true →
  34 < size ∨ (0xff < m ∧ 33 < size) ∨ (0xffff < m ∧ 32 < size).
Proof.
  rewrite !orb_true_iff, !andb_true_iff, !N.ltb_lt. lia.
Qed.

Lemma from_compact_correct bits : from_compact_spec bits (from_compact bits).
Proof.
  unfold from_compact_spec, from_compact.
  rewrite compact_mantissa, compact_sign, negb_involutive, N.shiftr_div_pow2.
  set (size := bits / 2 ^ 24). set (m := bits mod 2 ^ 23).
  assert (m < 2 ^ 23) as Hm by (by apply N.mod_lt).
  destruct (N.testbit bits 23); [by left|].
  destruct (N.eqb_spec m 0) as [->|Hm0].
  { split_and!; [done|apply ZERO_wf|]. unfold ZERO. rewrite be_val_zeros.
    unfold compact_value. destruct (_ <=? _); [by rewrite N.Div0.div_0_l|lia]. }
  destruct (_ || _ || _) eqn:G.
  { right. apply overflow_value; [by apply guard_true|done]. }
  apply guard_false in G as (G1 & G2 & G3).
  unfold compact_value. destruct (N.leb_spec size 3).
  - rewrite N.shiftr_div_pow2. replace (2 ^ (8 * (3 - size))) with (256 ^ (3 - size))
      by (rewrite N.pow_mul_r; done).
    split; [done|]. apply short_val.
    eapply N.le_lt_trans; [|exact Hm]. apply N.Div0.div_le_upper_bound.
    assert (256 ^ (3 - size) ≠ 0) by (by apply N.pow_nonzero). nia.
  - split; [done|].
    destruct (put_bytes_val size (N.shiftr m 16 mod 256) (N.shiftr m 8 mod 256) (m mod 256))
      as [W V]; auto using mod256_ok; try lia.
    + intros. rewrite N.shiftr_div_pow2, N.div_small; [done|]. change (2 ^ 16) with 65536. lia.
    + intros. rewrite N.shiftr_div_pow2, N.div_small; [done|]. change (2 ^ 8) with 256. lia.
    + split; [done|]. rewrite V, <- split_mantissa by done. done.
Qed.

(** ** The encoder, numerically *)

(** The byte length [s] of a non-zero value and its three leading bytes. *)
Definition top3 (s v : N) : N :=
  if s <=? 3 then v * 256 ^ (3 - s) else v / 256 ^ (s - 3).
Definition pack (s M : N) : N :=
  if M <? 2 ^ 23 then s * 2 ^ 24 + M else (s + 1) * 2 ^ 24 + M / 256.
Definition enc_spec (v bits : N) : Prop :=
  ∃ s, 1 ≤ s ∧ 256 ^ (s - 1) ≤ v < 256 ^ s ∧ bits = pack s (top3 s v).

Lemma position_nonzero_Some l first :
  position_nonzero l = Some first →
  ∃ b r, l = replicate first 0 ++ b :: r ∧ b ≠ 0.
Proof.
  revert first. induction l as [|a l IH]; intros first; simpl; [done|].
  destruct (N.eqb_spec a 0) as [->|Ha].
  - destruct (position_nonzero l) as [f|]; simpl; [|done]. intros [= <-].
    destruct (IH f eq_refl) as (b & r & -> & ?). by exists b, r.
  - intros [= <-]. by exists a, l.
Qed.
Lemma position_nonzero_None l : position_nonzero l = None → be_val l = 0.
Proof.
  induction l as [|a l IH]; simpl; [done|].
  destruct (N.eqb_spec a 0) as [->|]; [|done].
  destruct (position_nonzero l); [done|]. intros _. rewrite be_val_cons, IH by done. lia.
Qed.

Lemma mantissa_sum b0 b1 b2 :
  byte_ok b0 → byte_ok b1 → byte_ok b2 →
  N.lor (N.lor (N.shiftl b0 16) (N.shiftl b1 8)) b2 = b0 * 65536 + b1 * 256 + b2.
Proof.
  unfold byte_ok. intros.
  replace (N.shiftl b0 16) with (N.shiftl (N.shiftl b0 8) 8) by (by rewrite N.shiftl_shiftl).
  rewrite <- N.shiftl_lor, (lor_shiftl_add b0 b1 8), lor_shiftl_add by done.
  change (2 ^ 8) with 256. lia.
Qed.

(** The three leading bytes of [b :: r]. *)
Lemma top3_list b r :
  byte_ok b → Forall byte_ok r →
  let s := N.of_nat (length (b :: r)) in
  top3 s (be_val (b :: r))
  = b * 65536 + default 0 (r !! 0%nat) * 256 + default 0 (r !! 1%nat).
Proof.
  intros Hb Hr. cbv zeta. unfold top3.
  destruct r as [|b1 [|b2 r]].
  - rewrite be_val_cons. change (be_val []) with 0. cbn -[N.mul N.add].
    change (N.of_nat 1 <=? 3) with true. change (256 ^ N.of_nat 0) with 1.
    change (256 ^ (3 - N.of_nat 1)) with 65536. cbv beta iota. lia.
  - rewrite !be_val_cons. change (be_val []) with 0. cbn -[N.mul N.add].
    change (N.of_nat 2 <=? 3) with true. change (256 ^ N.of_nat 0) with 1.
    change (256 ^ N.of_nat 1) with 256. change (256 ^ (3 - N.of_nat 2)) with 256. cbv beta iota. lia.
  - inversion_clear Hr as [|? ? H1 Hr']. inversion_clear Hr' as [|? ? H2 Hr].
    change (default 0 ((b1 :: b2 :: r) !! 0%nat)) with b1.
    change (default 0 ((b1 :: b2 :: r) !! 1%nat)) with b2.
    pose proof (be_val_bound r Hr) as Br.
    set (p := 256 ^ N.of_nat (length r)) in *.
    assert (be_val (b :: b1 :: b2 :: r) = (b * 65536 + b1 * 256 + b2) * p + be_val r) as E.
    { rewrite !be_val_cons. simpl length. rewrite !Nat2N.inj_succ, !N.pow_succ_r'.
      fold p. lia. }
    rewrite E. simpl length.
    replace (N.of_nat (S (S (S (length r)))) - 3) with (N.of_nat (length r)) by lia.
    fold p. destruct (N.leb_spec (N.of_nat (S (S (S (length r))))) 3) as [Hle|].
    + assert (length r = 0%nat) as Hl by lia. destruct r; [|done]. change (be_val []) with 0. unfold p.
      change (256 ^ N.of_nat (length [])) with 1.
      change (256 ^ (3 - N.of_nat (S (S (S (length [])))))) with 1. lia.
    + symmetry. apply (N.div_unique _ p _ (be_val r)); [done|]. lia.
Qed.

Lemma to_compact_enc x :
  wf x → be_val x ≠ 0 → enc_spec (be_val x) (to_compact x).
Proof.
  intros [Hlen Hok] Hv. unfold to_compact.
  destruct (position_nonzero x) as [first|] eqn:Ep; [|by apply position_nonzero_None in Ep].
  apply position_nonzero_Some in Ep as (b & r & -> & Hb).
  apply Forall_app in Hok as [_ Hok].
  assert (byte_ok b ∧ Forall byte_ok r) as [Hb' Hr] by (by inversion_clear Hok).
  rewrite length_app, length_replicate in Hlen.
  assert (be_val (replicate first 0 ++ b :: r) = be_val (b :: r)) as ->.
  { rewrite be_val_app, be_val_zeros. lia. }
  exists (N.of_nat (length (b :: r))). split; [simpl; lia|]. split.
  { split; [|by apply be_val_bound]. rewrite be_val_cons. simpl length.
    replace (N.of_nat (S (length r)) - 1) with (N.of_nat (length r)) by lia. nia. }
  rewrite top3_list by done. unfold pack_compact.
  assert (∀ k, (replicate first 0 ++ b :: r) !! (first + k)%nat = (b :: r) !! k) as El.
  { intros k. rewrite lookup_app_r by (rewrite length_replicate; lia).
    rewrite length_replicate. f_equal. lia. }
  rewrite !El. simpl (default 0 ((b :: r) !! 0%nat)). change ((b :: r) !! 1%nat) with (r !! 0%nat).
  change ((b :: r) !! 2%nat) with (r !! 1%nat).
  assert (∀ k, byte_ok (default 0 (r !! k))) as Hd.
  { intros k. destruct (r !! k) eqn:E; [|done]. simpl. eapply Forall_lookup_1; eauto. }
  pose proof (Hd 0%nat) as H1. pose proof (Hd 1%nat) as H2.
  rewrite mantissa_sum by done.
  set (M := b * 65536 + default 0 (r !! 0%nat) * 256 + default 0 (r !! 1%nat)).
  assert (M < 2 ^ 24) as HM by (unfold M, byte_ok in *; change (2 ^ 24) with 16777216; lia).
  replace (32 - N.of_nat first) with (N.of_nat (length (b :: r))) by (simpl in *; lia).
  rewrite compact_sign, negb_involutive, testbit_top by done.
  unfold pack. destruct (N.leb_spec (2 ^ 23) M) as [HM'|HM'].
  - destruct (N.ltb_spec M (2 ^ 23)); [lia|].
    rewrite N.shiftr_div_pow2. change (2 ^ 8) with 256. apply lor_shiftl_add.
    eapply N.le_lt_trans; [|exact HM]. apply N.Div0.div_le_upper_bound. lia.
  - destruct (N.ltb_spec M (2 ^ 23)); [|lia]. by apply lor_shiftl_add.
Qed.

(** ** Fields of a packed encoding *)

Lemma fields size m :
  m < 2 ^ 23 →
  let bits := size * 2 ^ 24 + m in
  bits / 2 ^ 24 = size ∧ bits mod 2 ^ 23 = m ∧ N.testbit bits 23 = false.
Proof.
  intros Hm. cbv zeta. assert (2 ^ 24 = 2 * 2 ^ 23) as E24 by done. split_and!.
  - symmetry. apply (N.div_unique _ _ _ m); lia.
  - symmetry. apply (N.mod_unique _ _ (2 * size)); lia.
  - apply N.testbit_false.
    replace ((size * 2 ^ 24 + m) / 2 ^ 23) with (2 * size)
      by (apply (N.div_unique _ _ _ m); lia).
    rewrite N.mul_comm. apply N.Div0.mod_mul.
Qed.

Lemma pow256_pos k : 0 < 256 ^ k.
Proof. pose proof (N.pow_nonzero 256 k). lia. Qed.
Lemma div_mul_mod v p : 0 < p → v / p * p = v - v mod p.
Proof. intros. pose proof (N.div_mod v p). pose proof (N.Div0.mod_le v p). lia. Qed.

Lemma top3_bounds s v :
  1 ≤ s → 256 ^ (s - 1) ≤ v < 256 ^ s → 65536 ≤ top3 s v < 2 ^ 24.
Proof.
  intros Hs [Hl Hu]. unfold top3. change (2 ^ 24) with (256 ^ 3). change 65536 with (256 ^ 2).
  destruct (N.leb_spec s 3).
  - split.
    + transitivity (256 ^ (s - 1) * 256 ^ (3 - s)).
      { rewrite <- N.pow_add_r. apply N.pow_le_mono_r; lia. }
      by apply N.mul_le_mono_r.
    + replace (256 ^ 3) with (256 ^ s * 256 ^ (3 - s)).
      { apply N.mul_lt_mono_pos_r; [apply pow256_pos|done]. }
      rewrite <- N.pow_add_r. f_equal. lia.
  - pose proof (pow256_pos (s - 3)). split.
    + apply N.div_le_lower_bound; [lia|]. rewrite <- N.pow_add_r.
      etransitivity; [|exact Hl]. apply N.pow_le_mono_r; lia.
    + apply N.Div0.div_lt_upper_bound. rewrite <- N.pow_add_r.
      replace (s - 3 + 3) with s by lia. done.
Qed.

(** Decoding a packed encoding keeps the value up to its low bytes: three
    leading bytes, or two when the third pushes the sign bit. *)
Lemma pack_decode s v :
  1 ≤ s → 256 ^ (s - 1) ≤ v < 256 ^ s →
  let bits := pack s (top3 s v) in
  ∃ k, N.testbit bits 23 = false ∧
    compact_value (bits / 2 ^ 24) (bits mod 2 ^ 23) = v - v mod 256 ^ k ∧
    (k = 0 ∨ 256 ^ (k + 1) ≤ v).
Proof.
  intros Hs Hv. cbv zeta. pose proof (top3_bounds s v Hs Hv) as [_ HM].
  unfold pack. destruct (N.ltb_spec (top3 s v) (2 ^ 23)) as [Hlt|Hge].
  - destruct (fields s (top3 s v) Hlt) as (-> & -> & ->).
    unfold top3, compact_value in *. destruct (N.leb_spec s 3).
    + exists 0. rewrite N.div_mul, N.mod_1_r by (by apply N.pow_nonzero). naive_solver lia.
    + exists (s - 3). rewrite div_mul_mod by apply pow256_pos. split_and!; [done..|].
      right. etransitivity; [|apply Hv]. apply N.pow_le_mono_r; lia.
  - assert (top3 s v / 256 < 2 ^ 23) as Hm.
    { apply N.Div0.div_lt_upper_bound. etransitivity; [exact HM|done]. }
    destruct (fields (s + 1) _ Hm) as (-> & -> & ->).
    unfold top3, compact_value in *. destruct (N.leb_spec s 3), (N.leb_spec (s + 1) 3); try lia.
    + exists 0. rewrite N.Div0.div_div. replace (256 * 256 ^ (3 - (s + 1))) with (256 ^ (3 - s))
        by (rewrite <- N.pow_succ_r'; f_equal; lia).
      rewrite N.div_mul, N.mod_1_r by (by apply N.pow_nonzero). naive_solver lia.
    + assert (s = 3) as -> by lia. exists 1. change (256 ^ (3 - 3)) with 1.
      change (256 ^ (3 + 1 - 3)) with 256. change (256 ^ 1) with 256.
      rewrite N.mul_1_r, div_mul_mod by done. split_and!; [done..|]. right. apply Hv.
    + exists (s - 2). rewrite N.Div0.div_div.
      replace (256 ^ (s - 3) * 256) with (256 ^ (s - 2))
        by (rewrite N.mul_comm, <- N.pow_succ_r'; f_equal; lia).
      replace (s + 1 - 3) with (s - 2) by lia.
      rewrite div_mul_mod by apply pow256_pos. split_and!; [done..|].
      right. etransitivity; [|apply Hv]. apply N.pow_le_mono_r; lia.
Qed.

Lemma be_val_wf_bound x : wf x → be_val x < 2 ^ 256.
Proof.
  intros [Hl Hok]. pose proof (be_val_bound x Hok) as H. rewrite Hl in H. exact H.
Qed.

Lemma decode_encode x :
  wf x →
  ∃ x' k, from_compact (to_compact x) = Some x' ∧ wf x' ∧
    be_val x' = be_val x - be_val x mod 256 ^ k ∧ (k = 0 ∨ 256 ^ (k + 1) ≤ be_val x).
Proof.
  intros Hwf. destruct (decide (be_val x = 0)) as [E0|Hnz].
  - exists ZERO, 0.
    assert (to_compact x = 0) as ->.
    { unfold to_compact. destruct (position_nonzero x) as [f|] eqn:Ep; [|done].
      apply position_nonzero_Some in Ep as (b & r & -> & Hb).
      rewrite be_val_app, be_val_zeros, be_val_cons in E0.
      pose proof (pow256_pos (N.of_nat (length r))). nia. }
    rewrite E0. split_and!; [done|apply ZERO_wf|done|by left].
  - destruct (to_compact_enc x Hwf Hnz) as (s & Hs & Hv & Hb).
    destruct (pack_decode s (be_val x) Hs Hv) as (k & Hsign & Hval & Hk).
    rewrite <- Hb in Hsign, Hval.
    pose proof (from_compact_correct (to_compact x)) as Hc. unfold from_compact_spec in Hc.
    pose proof (be_val_wf_bound x Hwf).
    destruct (from_compact (to_compact x)) as [x'|].
    + destruct Hc as (_ & Hw & Hx). exists x', k. by rewrite Hx, Hval.
    + rewrite Hsign, Hval in Hc. destruct Hc as [|Hc]; [done|].
      exfalso. apply (N.lt_irrefl (2 ^ 256)). eapply N.le_lt_trans; [exact Hc|].
      eapply N.le_lt_trans; [apply N.le_sub_l|done].
Qed.

(** A canonical encoding: sign bit clear, the mantissa's leading byte
    non-zero or forced down by the sign rule, no bits below the units. *)
Definition canonical (bits : N) : Prop :=
  let size := bits / 2 ^ 24 in
  let m := bits mod 2 ^ 23 in
  N.testbit bits 23 = false ∧ 2 ^ 15 ≤ m ∧ (size ≤ 3 → m mod 256 ^ (3 - size) = 0).

Lemma enc_unique v b1 b2 : enc_spec v b1 → enc_spec v b2 → b1 = b2.
Proof.
  intros (s1 & H1 & V1 & ->) (s2 & H2 & V2 & ->). enough (s1 = s2) as -> by done.
  assert (∀ s t, 1 ≤ s → 1 ≤ t → 256 ^ (s - 1) ≤ v → v < 256 ^ t → s ≤ t) as Hm.
  { intros s t ? ? Hlo Hhi. assert (256 ^ (s - 1) < 256 ^ t) as Hp by lia.
    apply N.pow_lt_mono_r_iff in Hp; lia. }
  destruct V1, V2. pose proof (Hm s1 s2). pose proof (Hm s2 s1). lia.
Qed.

Lemma mul_pow256_bounds m a b c :
  256 ^ a ≤ m < 256 ^ b → 256 ^ (a + c) ≤ m * 256 ^ c < 256 ^ (b + c).
Proof.
  intros [H1 H2]. rewrite !N.pow_add_r. split; [by apply N.mul_le_mono_r|].
  apply N.mul_lt_mono_pos_r; [apply pow256_pos|done].
Qed.

(** The value of a canonical encoding, as a multiple of its unit. *)
Lemma canonical_value size m :
  0 < m → (size ≤ 3 → m mod 256 ^ (3 - size) = 0) → m < 2 ^ 23 →
  compact_value size m * 256 ^ 3 = m * 256 ^ size ∧ 1 ≤ size.
Proof.
  intros Hm Hd Hlt. unfold compact_value. destruct (N.leb_spec size 3) as [Hle|Hgt].
  - specialize (Hd Hle). pose proof (N.div_mod m (256 ^ (3 - size))) as E.
    rewrite Hd, N.add_0_r in E. specialize (E ltac:(by apply N.pow_nonzero)). split.
    + rewrite E at 2. replace (256 ^ 3) with (256 ^ (3 - size) * 256 ^ size); [lia|].
      rewrite <- N.pow_add_r. f_equal. lia.
    + destruct (decide (size = 0)) as [->|]; [|lia]. change (256 ^ (3 - 0)) with (2 * 2 ^ 23) in *.
      rewrite N.mod_small in Hd by lia. lia.
  - split; [|lia]. rewrite <- N.mul_assoc, <- N.pow_add_r. do 2 f_equal. lia.
Qed.

Lemma canonical_enc size m :
  2 ^ 15 ≤ m < 2 ^ 23 → (size ≤ 3 → m mod 256 ^ (3 - size) = 0) →
  enc_spec (compact_value size m) (size * 2 ^ 24 + m).
Proof.
  intros [Hlo Hhi] Hd. change (2 ^ 15) with 32768 in Hlo.
  destruct (canonical_value size m) as [Hv Hs]; [lia|done..|].
  set (v := compact_value size m) in *.
  (* the leading byte of the mantissa decides the byte length *)
  assert (∀ s M, M = m * 256 ^ (size - s) → s ≤ size → 1 ≤ s → 256 ^ 2 ≤ M < 256 ^ 3 →
    256 ^ (s - 1) ≤ v < 256 ^ s ∧ top3 s v = M) as Hkey.
  { intros s M HM Hss Hs1 HMb.
    assert (v * 256 ^ 3 = M * 256 ^ s) as Hv'.
    { rewrite Hv, HM, <- N.mul_assoc, <- N.pow_add_r. do 2 f_equal. lia. }
    pose proof (mul_pow256_bounds M 2 3 s HMb) as [L U]. rewrite <- Hv' in L, U.
    assert (256 ^ (s - 1) ≤ v < 256 ^ s) as Hvb.
    { split.
      - replace (2 + s) with (s - 1 + 3) in L by lia. rewrite N.pow_add_r in L.
        by apply N.mul_le_mono_pos_r in L; [|apply pow256_pos].
      - rewrite N.add_comm, N.pow_add_r in U.
        by apply N.mul_lt_mono_pos_r in U; [|apply pow256_pos]. }
    split; [done|]. unfold top3. destruct (N.leb_spec s 3).
    - apply (N.mul_cancel_r _ _ (256 ^ s)); [by apply N.pow_nonzero|].
      rewrite <- Hv', <- N.mul_assoc, <- N.pow_add_r. do 2 f_equal. lia.
    - symmetry. apply (N.div_unique _ _ _ 0); [apply pow256_pos|].
      apply (N.mul_cancel_r _ _ (256 ^ 3)); [done|].
      rewrite Hv', N.add_0_r.
      replace (256 ^ s) with (256 ^ (s - 3) * 256 ^ 3); [ring|].
      rewrite <- N.pow_add_r. f_equal. lia. }
  destruct (N.lt_ge_cases m 65536) as [Hsm|Hbig].
  - assert (2 ≤ size) as Hs2.
    { destruct (decide (size = 1)) as [E1|]; [|lia]. rewrite E1 in Hd.
      change (256 ^ (3 - 1)) with 65536 in Hd. rewrite N.mod_small in Hd; lia. }
    destruct (Hkey (size - 1) (m * 256)) as [Hb Ht].
    + replace (size - (size - 1)) with 1 by lia. done.
    + lia.
    + lia.
    + change (256 ^ 2) with 65536. change (256 ^ 3) with 16777216. lia.
    + exists (size - 1). split; [lia|]. split; [done|]. rewrite Ht. unfold pack.
      change (2 ^ 23) with 8388608. destruct (N.ltb_spec (m * 256) 8388608); [lia|].
      rewrite N.div_mul by done. replace (size - 1 + 1) with size by lia. done.
  - destruct (Hkey size m) as [Hb Ht].
    + rewrite N.sub_diag, N.mul_1_r. done.
    + lia.
    + lia.
    + change (256 ^ 2) with 65536. change (256 ^ 3) with (2 * 2 ^ 23). lia.
    + exists size. split; [done|]. split; [done|]. rewrite Ht. unfold pack.
      destruct (N.ltb_spec m (2 ^ 23)); [done|lia].
Qed.

Lemma bits_split bits :
  N.testbit bits 23 = false → bits = bits / 2 ^ 24 * 2 ^ 24 + bits mod 2 ^ 23.
Proof.
  rewrite N.testbit_false. intros Hb.
  pose proof (N.div_mod bits (2 ^ 23) ltac:(done)) as E1.
  pose proof (N.div_mod (bits / 2 ^ 23) 2 ltac:(done)) as E2.
  rewrite N.Div0.div_div, Hb in E2. change (2 ^ 23 * 2) with (2 ^ 24) in E2.
  change (2 ^ 24) with (2 * 2 ^ 23) at 2. lia.
Qed.

(** ** Difficulty in leading zero bits *)

Lemma leading_zero_bits_table :
  forallb (λ k, (be_val (from_leading_zero_bits (N.of_nat k)) =? 2 ^ (256 - N.of_nat k) - 1)
                && (length (from_leading_zero_bits (N.of_nat k)) =? 32)%nat) (seq 0 257) = true.
Proof. vm_compute. reflexivity. Qed.

Lemma leading_zero_bits_value bits :
  be_val (from_leading_zero_bits bits) = 2 ^ (256 - bits) - 1.
Proof.
  destruct (N.le_gt_cases bits 256) as [Hle|Hgt].
  - pose proof leading_zero_bits_table as T. rewrite forallb_forall in T.
    specialize (T (N.to_nat bits)). rewrite N2Nat.id in T.
    rewrite andb_true_iff, N.eqb_eq in T. apply T. apply in_seq. lia.
  - unfold from_leading_zero_bits. destruct (N.eqb_spec bits 0); [lia|].
    destruct (N.leb_spec 256 bits); [|lia]. replace (256 - bits) with 0 by lia. done.
Qed.

(** ** The generic miner *)

Section miner.
(** [pow_hash(preimage, nonce)]: Blake3 of the preimage and the nonce's
    little-endian bytes, from the blake3 crate. *)
Context (pow_hash : bytes → N → bytes).

Definition verify (preimage : bytes) (nonce : N) (target : t) : bool :=
  is_met_by target (pow_hash preimage nonce).

(** [(0..max_iterations).find_map(..)] from a starting nonce. *)
Fixpoint mine_from (fuel : nat) (nonce : N) (preimage : bytes) (target : t)
    : option (N * bytes) :=
  match fuel with
  | O => None
  | S fuel =>
      let hash := pow_hash preimage nonce in
      if is_met_by target hash then Some (nonce, hash)
      else mine_from fuel (nonce + 1) preimage target
  end.
Definition mine (preimage : bytes) (target : t) (max_iterations : N) : option (N * bytes) :=
  mine_from (N.to_nat max_iterations) 0 preimage target.

Lemma mine_from_spec fuel start p tgt :
  match mine_from fuel start p tgt with
  | Some (n, h) => start ≤ n < start + N.of_nat fuel ∧ h = pow_hash p n ∧
      verify p n tgt = true ∧ ∀ k, start ≤ k < n → verify p k tgt = false
  | None => ∀ k, start ≤ k < start + N.of_nat fuel → verify p k tgt = false
  end.
Proof.
  revert start. induction fuel as [|fuel IH]; intros start; simpl; [intros; lia|].
  destruct (is_met_by tgt (pow_hash p start)) eqn:E.
  - split_and!; [lia|lia|done|done|intros; lia].
  - specialize (IH (start + 1)). destruct (mine_from _ _ _ _) as [[n h]|].
    + destruct IH as (? & ? & ? & IH). split_and!; [lia|lia|done|done|].
      intros k ?. destruct (decide (k = start)) as [->|]; [done|]. apply IH. lia.
    + intros k ?. destruct (decide (k = start)) as [->|]; [done|]. apply IH. lia.
Qed.
End miner.

(** ** Properties *)

(** Decoding a compact encoding yields exactly the value the encoding
    denotes (mantissa times 256 to the size minus three), and it is refused
    exactly when the sign bit is set or the value does not fit 256 bits. *)
Theorem from_compact_exact bits :
  match from_compact bits with
  | Some x => N.testbit bits 23 = false ∧ wf x ∧
      be_val x = compact_value (bits / 2 ^ 24) (bits mod 2 ^ 23)
  | None => N.testbit bits 23 = true ∨
      2 ^ 256 ≤ compact_value (bits / 2 ^ 24) (bits mod 2 ^ 23)
  end.
Proof. exact (from_compact_correct bits). Qed.

(** Encoding a target and decoding it again always succeeds, never
    yields an easier target (every hash meeting the decoded target meets the
    original), and loses less than one part in 256. *)
Theorem compact_never_easier x :
  wf x →
  ∃ x', from_compact (to_compact x) = Some x' ∧ wf x' ∧ be_val x' ≤ be_val x ∧
    (be_val x - be_val x') * 256 ≤ be_val x ∧
    ∀ h, wf h → is_met_by x' h = true → is_met_by x h = true.
Proof.
  intros Hwf. destruct (decode_encode x Hwf) as (x' & k & Hd & Hw & Hv & Hk).
  pose proof (N.Div0.mod_le (be_val x) (256 ^ k)).
  set (r := be_val x mod 256 ^ k) in *.
  assert (be_val x' ≤ be_val x) by (rewrite Hv; apply N.le_sub_l).
  exists x'. split_and!; [done..| |].
  - assert (be_val x - be_val x' = r) as -> by (rewrite Hv; lia). unfold r.
    destruct Hk as [->|Hk]; [rewrite N.mod_1_r; lia|].
    pose proof (N.mod_lt (be_val x) (256 ^ k) ltac:(by apply N.pow_nonzero)).
    rewrite N.add_1_r, N.pow_succ_r' in Hk. lia.
  - intros h Hh. rewrite !is_met_by_val, !N.leb_le by done. lia.
Qed.

(** A canonical compact encoding survives decoding and re-encoding
    unchanged, so a header's bits are reproducible from the target. *)
Theorem compact_canonical_roundtrip bits x :
  canonical bits → from_compact bits = Some x → to_compact x = bits.
Proof.
  intros (Hsign & Hlo & Hd) Hf.
  pose proof (from_compact_correct bits) as Hc. rewrite Hf in Hc.
  destruct Hc as (_ & Hw & Hx).
  pose proof (N.mod_lt bits (2 ^ 23) ltac:(done)) as Hhi.
  pose proof (canonical_enc _ _ (conj Hlo Hhi) Hd) as He. rewrite <- Hx in He.
  rewrite <- bits_split in He by done.
  eapply enc_unique; [|exact He]. apply to_compact_enc; [done|].
  destruct He as (s & ? & ? & _). pose proof (pow256_pos (s - 1)). lia.
Qed.
Lemma compact_canonical_roundtrip_witness :
  to_compact (replicate 5 0 ++ [4; 4; 203] ++ replicate 24 0) = 0x1b0404cb.
Proof.
  apply compact_canonical_roundtrip; [|by vm_compute].
  split_and!; [by vm_compute|by vm_compute|]. vm_compute. intros []. done.
Defined.
Lemma compact_never_easier_witness :
  ∃ x', from_compact (to_compact EASIEST) = Some x' ∧ wf x' ∧ be_val x' ≤ be_val EASIEST ∧
    (be_val EASIEST - be_val x') * 256 ≤ be_val EASIEST ∧
    ∀ h, wf h → is_met_by x' h = true → is_met_by EASIEST h = true.
Proof. apply compact_never_easier. split; [done|]. by apply Forall_replicate. Defined.
End Target.
