(* ===== verification/Mining.v ===== *)
(** * Mining policy (crates/mining)

    The height-keyed emission schedule, difficulty retargeting and cumulative
    proof of work. *)

From S2P Require Import Prelude Primitives Pow.

(** ** Policy data (lib.rs) *)

Inductive PowAlgo := Sha256d | RandomX.

Record PqSchedule := mkPqSchedule {
  rotation_only_height : N;
  sunset_height : N;
  threshold_grains : N;
}.

Record MiningPolicy := mkMiningPolicy {
  pow_algo : PowAlgo;
  sha256d_target : Target.t;
  base_reward : Balance;
  halving_interval_blocks : N;
  mining_budget_grains : N;
  target_block_ms : N;
  mp_gas_price : Balance;
  max_code_bytes : N;
  deshield_window_blocks : N;
  deshield_limit_grains : N;
}.

(** ** Emission *)

Module Emission.
Definition reward_at (p : MiningPolicy) (height : N) (mined_supply : Balance) : Balance :=
  if height =? 0 then 0
  else if mining_budget_grains p <=? mined_supply then 0
  else
    let halvings := (height - 1) / N.max (halving_interval_blocks p) 1 in
    let scheduled := if 127 <=? halvings then 0 else N.shiftr (base_reward p) halvings in
    let remaining := mining_budget_grains p - mined_supply in
    N.min scheduled remaining.

Definition mainnet_like : MiningPolicy := {|
  pow_algo := RandomX;
  sha256d_target := Target.from_leading_zero_bits 20;
  base_reward := 1250000000;
  halving_interval_blocks := 840000;
  mining_budget_grains := MAX_SUPPLY_GRAINS;
  target_block_ms := 150000;
  mp_gas_price := 10;
  max_code_bytes := 256 * 1024;
  deshield_window_blocks := 576;
  deshield_limit_grains := 21000 * GRAINS_PER_SOV;
|}.

Definition test : MiningPolicy := {|
  pow_algo := Sha256d;
  sha256d_target := Target.from_leading_zero_bits 8;
  base_reward := 0;
  halving_interval_blocks := 210000;
  mining_budget_grains := 1000000 * GRAINS_PER_SOV;
  target_block_ms := 1000;
  mp_gas_price := 0;
  max_code_bytes := 256 * 1024;
  deshield_window_blocks := 0;
  deshield_limit_grains := 0;
|}.

(** Cumulative emission of the blocks at heights 1 to [n]. *)
Fixpoint emitted (p : MiningPolicy) (n : nat) : N :=
  match n with
  | O => 0
  | S n => emitted p n + reward_at p (N.of_nat (S n)) (emitted p n)
  end.

(** The unclamped subsidy of epoch [k], and the sum of the first [q] epochs'
    per-block subsidies. *)
Definition subsidy (p : MiningPolicy) (k : N) : N :=
  if 127 <=? k then 0 else N.shiftr (base_reward p) k.
Fixpoint subsidy_sum (p : MiningPolicy) (q : nat) : N :=
  match q with
  | O => 0
  | S q => subsidy_sum p q + subsidy p (N.of_nat q)
  end.
Definition interval (p : MiningPolicy) : N := N.max (halving_interval_blocks p) 1.
(** Unclamped emission of heights 1 to [n], in closed form. *)
Definition schedule (p : MiningPolicy) (n : N) : N :=
  interval p * subsidy_sum p (N.to_nat (n / interval p))
  + (n mod interval p) * subsidy p (n / interval p).

Lemma reward_le p h m : reward_at p h m ≤ mining_budget_grains p - m.
Proof.
  unfold reward_at. destruct (_ =? 0); [lia|]. destruct (N.leb_spec (mining_budget_grains p) m); lia.
Qed.
Lemma reward_le_subsidy p h m :
  1 ≤ h → reward_at p h m ≤ subsidy p ((h - 1) / interval p).
Proof.
  intros. unfold reward_at, subsidy, interval. destruct (N.eqb_spec h 0); [lia|].
  destruct (_ <=? m); [lia|]. apply N.le_min_l.
Qed.
Lemma reward_eq_subsidy p h m :
  1 ≤ h → m + subsidy p ((h - 1) / interval p) ≤ mining_budget_grains p →
  reward_at p h m = subsidy p ((h - 1) / interval p).
Proof.
  intros ? Hb. unfold reward_at. destruct (N.eqb_spec h 0); [lia|].
  fold (interval p) (subsidy p ((h - 1) / interval p)).
  destruct (N.leb_spec (mining_budget_grains p) m); lia.
Qed.

Lemma subsidy_antitone p j k : j ≤ k → subsidy p k ≤ subsidy p j.
Proof.
  intros Hjk. unfold subsidy. destruct (N.leb_spec 127 k); [lia|].
  destruct (N.leb_spec 127 j); [lia|]. rewrite !N.shiftr_div_pow2.
  apply N.div_le_compat_l. split; [by apply N.neq_0_lt_0, N.pow_nonzero|].
  apply N.pow_le_mono_r; lia.
Qed.

(** One more block adds its epoch's subsidy to the schedule. *)
Lemma schedule_succ p n :
  schedule p (n + 1) = schedule p n + subsidy p (n / interval p).
Proof.
  assert (interval p ≠ 0) as Hi by (unfold interval; lia).
  unfold schedule. set (I := interval p) in *.
  pose proof (N.div_mod n I Hi) as E. pose proof (N.mod_lt n I Hi) as Hr.
  set (q := n / I) in *. set (r := n mod I) in *.
  destruct (decide (r + 1 = I)) as [Er|Hne].
  - assert ((n + 1) / I = q + 1) as ->.
    { symmetry. apply (N.div_unique _ _ _ 0); [lia|]. rewrite E. lia. }
    assert ((n + 1) mod I = 0) as ->.
    { symmetry. apply (N.mod_unique _ _ (q + 1)); [lia|]. rewrite E. lia. }
    rewrite N2Nat.inj_add. rewrite Nat.add_1_r. simpl subsidy_sum. rewrite N2Nat.id.
    rewrite N.mul_add_distr_l. set (x := subsidy p q).
    replace (I * x) with ((r + 1) * x) by (by rewrite Er). ring.
  - assert ((n + 1) / I = q) as ->.
    { symmetry. apply (N.div_unique _ _ _ (r + 1)); [lia|]. rewrite E. lia. }
    assert ((n + 1) mod I = r + 1) as ->.
    { symmetry. apply (N.mod_unique _ _ q); [lia|]. rewrite E. lia. }
    ring.
Qed.

Lemma emitted_le_budget p n : emitted p n ≤ mining_budget_grains p.
Proof.
  induction n as [|n IH]; simpl; [lia|].
  pose proof (reward_le p (N.of_nat (S n)) (emitted p n)). simpl in *. lia.
Qed.
Lemma emitted_le_schedule p n : emitted p n ≤ schedule p (N.of_nat n).
Proof.
  induction n as [|n IH]; [simpl; lia|].
  replace (N.of_nat (S n)) with (N.of_nat n + 1) by lia. rewrite schedule_succ.
  cbn [emitted].
  pose proof (reward_le_subsidy p (N.of_nat (S n)) (emitted p n) ltac:(lia)) as Hr.
  replace (N.of_nat (S n) - 1) with (N.of_nat n) in Hr by lia. lia.
Qed.
(** While the schedule fits the budget, the clamp never binds. *)
Lemma emitted_eq_schedule p n :
  schedule p (N.of_nat n) ≤ mining_budget_grains p → emitted p n = schedule p (N.of_nat n).
Proof.
  induction n as [|n IH].
  - intros _. unfold schedule. assert (interval p ≠ 0) by (unfold interval; lia).
    rewrite N.Div0.div_0_l, N.Div0.mod_0_l. simpl. lia.
  - replace (N.of_nat (S n)) with (N.of_nat n + 1) by lia. rewrite schedule_succ.
    intros Hb. cbn [emitted]. rewrite IH by lia.
    rewrite reward_eq_subsidy; replace (N.of_nat (S n) - 1) with (N.of_nat n) by lia; lia.
Qed.

Lemma schedule_mono p m n : m ≤ n → schedule p m ≤ schedule p n.
Proof.
  intros Hmn. replace n with (m + N.of_nat (N.to_nat (n - m))) by lia.
  generalize (N.to_nat (n - m)) as d. intros d. clear Hmn. induction d as [|d IH].
  - replace (m + N.of_nat 0) with m by lia. lia.
  - replace (m + N.of_nat (S d)) with (m + N.of_nat d + 1) by lia.
    rewrite schedule_succ. lia.
Qed.

(** Once the subsidy has decayed to zero after [e] epochs, the schedule is
    the sum of those epochs. *)
Lemma subsidy_sum_stable p e q :
  (∀ k, N.of_nat e ≤ k → subsidy p k = 0) → (e ≤ q)%nat → subsidy_sum p q = subsidy_sum p e.
Proof.
  intros Hz. induction 1 as [|q Hq IH]; [done|]. simpl. rewrite IH, Hz by lia. lia.
Qed.
Lemma schedule_total p e n :
  (∀ k, N.of_nat e ≤ k → subsidy p k = 0) → interval p * N.of_nat e ≤ n →
  schedule p n = interval p * subsidy_sum p e.
Proof.
  intros Hz Hn. assert (interval p ≠ 0) as Hi by (unfold interval; lia).
  assert (N.of_nat e ≤ n / interval p) as Hq by (by apply N.div_le_lower_bound).
  unfold schedule. rewrite (subsidy_sum_stable p e) by (done || lia).
  rewrite (Hz _ Hq). lia.
Qed.
Lemma schedule_le_total p e n :
  (∀ k, N.of_nat e ≤ k → subsidy p k = 0) → schedule p n ≤ interval p * subsidy_sum p e.
Proof.
  intros Hz. rewrite <- (schedule_total p e (N.max n (interval p * N.of_nat e))); [|done|lia].
  apply schedule_mono. lia.
Qed.

Lemma mainnet_subsidy_decays k : N.of_nat 31 ≤ k → subsidy mainnet_like k = 0.
Proof.
  intros Hk. unfold subsidy. destruct (127 <=? k); [done|].
  rewrite N.shiftr_div_pow2. apply N.div_small.
  apply N.lt_le_trans with (2 ^ 31); [done|]. by apply N.pow_le_mono_r.
Qed.
(** 20,999,999.9076 XUS in grains. *)
Definition MAINNET_TOTAL : N := 2099999990760000.

(** ** Properties *)

(** The mainnet emission schedule converges from below to exactly
    20,999,999.9076 XUS: no number of blocks mints more than that, every block
    from the end of epoch 31 on has minted all of it, and it stays strictly
    below the 21M cap, so the budget clamp never binds. *)
Theorem mainnet_emission_total n :
  emitted mainnet_like n ≤ MAINNET_TOTAL ∧
  (31 * 840000 ≤ N.of_nat n → emitted mainnet_like n = MAINNET_TOTAL) ∧
  MAINNET_TOTAL < MAX_SUPPLY_GRAINS.
Proof.
  assert (interval mainnet_like * subsidy_sum mainnet_like 31 = MAINNET_TOTAL) as Et
    by (by vm_compute).
  pose proof (schedule_le_total mainnet_like 31 (N.of_nat n) mainnet_subsidy_decays) as Hle.
  rewrite Et in Hle. split_and!; [|intros Hn|done].
  - etransitivity; [apply emitted_le_schedule|done].
  - rewrite emitted_eq_schedule; [|transitivity MAINNET_TOTAL; done].
    rewrite <- Et. apply schedule_total; [apply mainnet_subsidy_decays|].
    transitivity (31 * 840000); done.
Qed.

(** For any policy and any height, minting the scheduled reward on top of
    what was mined before never passes the mining budget; genesis mints
    nothing; and the reward never grows with height. *)
Theorem reward_within_budget p h m :
  m ≤ mining_budget_grains p →
  m + reward_at p h m ≤ mining_budget_grains p ∧ reward_at p 0 m = 0 ∧
  ∀ h', 1 ≤ h → h ≤ h' → reward_at p h' m ≤ reward_at p h m.
Proof.
  intros Hm. pose proof (reward_le p h m). split_and!; [lia|done|].
  intros h' H1 Hh. unfold reward_at.
  destruct (N.eqb_spec h 0), (N.eqb_spec h' 0); try lia.
  destruct (_ <=? m); [lia|]. fold (interval p).
  apply N.min_le_compat_r. apply (subsidy_antitone p). apply N.Div0.div_le_mono. lia.
Qed.
Lemma reward_within_budget_witness :
  2099999999999999 + reward_at mainnet_like 1 2099999999999999 ≤ 2100000000000000.
Proof.
  refine (proj1 (reward_within_budget mainnet_like 1 2099999999999999 _)).
  by vm_compute.
Defined.
End Emission.

(** ** Difficulty (difficulty.rs) *)

Module Difficulty.
(** [struct Difficulty(pub u128)]. *)
Definition EDA_STALL_FACTOR : N := 6.
Definition EDA_MAX_HALVINGS : N := 8.
Definition MIN : N := 1.

Definition to_target (d : N) : Target.t := to_be 32 (u256_max / N.max d 1).

Definition from_target (target : Target.t) : N :=
  let t := be_val target in
  if t =? 0 then u128_max
  else
    let d := u256_max / t in
    if u128_max <? d then u128_max else d.

Definition retarget (self actual_interval_ms target_interval_ms : N) : N :=
  let actual := N.max actual_interval_ms 1 in
  let target := N.max target_interval_ms 1 in
  let scaled := saturating_mul u128_max self target / actual in
  let lo := N.max (self / 4) 1 in
  let hi := saturating_mul u128_max self 4 in
  N.max (clamp lo hi scaled) 1.

(** The accumulation loop of [lwma]: [(sum_d, weighted)] over the blocks,
    [i] counting from 1.  U256 arithmetic is exact here; [lwma_no_overflow]
    shows the bound under which the source's panicking arithmetic agrees. *)
Fixpoint lwma_sums (cap i : N) (diffs solvetimes : list N) (acc : N * N) : N * N :=
  match diffs, solvetimes with
  | d :: diffs, st :: solvetimes =>
      let st := N.max st 1 in
      let st := if cap <? st then cap else st in
      lwma_sums cap (i + 1) diffs solvetimes (acc.1 + d, acc.2 + i * st)
  | _, _ => acc
  end.

Definition MAX_STEP : N := 2.

Definition lwma (diffs solvetimes_ms : list N) (target_ms : N) : N :=
  let n := length diffs in
  if (n =? 0)%nat || negb (length solvetimes_ms =? n)%nat then MIN
  else
    let t := N.max target_ms 1 in
    let cap := 6 * t in
    let '(sum_d, weighted) := lwma_sums cap 1 diffs solvetimes_ms (0, 0) in
    let weighted := if weighted =? 0 then 1 else weighted in
    let num := sum_d * t * (N.of_nat n + 1) in
    let den := 2 * weighted in
    let next := num / den in
    let next := N.max (if u128_max <? next then u128_max else next) 1 in
    let parent := N.max (default 0 (last diffs)) 1 in
    let lo := N.max (parent / MAX_STEP) 1 in
    let hi := saturating_mul u128_max parent MAX_STEP in
    clamp lo hi next.

Definition eda_halvings (elapsed_ms target_ms : N) : N :=
  let unit := saturating_mul u64_max EDA_STALL_FACTOR (N.max target_ms 1) in
  N.min (elapsed_ms / unit) EDA_MAX_HALVINGS.

Definition eda (self elapsed_ms target_ms : N) : N :=
  N.max (N.shiftr self (eda_halvings elapsed_ms target_ms)) 1.

Lemma to_target_wf d : Target.wf (to_target d).
Proof. split; [apply length_to_be|apply to_be_ok]. Qed.
Lemma to_target_val d : be_val (to_target d) = u256_max / N.max d 1.
Proof.
  unfold to_target. rewrite be_val_to_be. apply N.mod_small.
  apply N.le_lt_trans with u256_max; [|done]. apply N.Div0.div_le_upper_bound. nia.
Qed.

(** The accumulated sums, bounded by the window length. *)
Lemma lwma_sums_bound cap i diffs sts a b D :
  Forall (λ d, d ≤ D) diffs →
  let '(sd, w) := lwma_sums cap i diffs sts (a, b) in
  let n := N.of_nat (length diffs) in
  sd ≤ a + n * D ∧ w ≤ b + n * ((i + n) * cap).
Proof.
  intros HD. revert i sts a b. induction HD as [|d diffs Hd _ IH]; intros i sts a b.
  { simpl. lia. }
  destruct sts as [|st sts]; [simpl; lia|]. simpl lwma_sums.
  set (st' := if cap <? N.max st 1 then cap else N.max st 1).
  assert (st' ≤ cap) by (unfold st'; destruct (N.ltb_spec cap (N.max st 1)); lia).
  specialize (IH (i + 1) sts (a + d) (b + i * st')).
  destruct (lwma_sums _ _ _ _ _) as [sd w]. simpl length. rewrite Nat2N.inj_succ.
  set (n := N.of_nat (length diffs)) in *. destruct IH as [IH1 IH2]. split; [nia|].
  assert (i * st' ≤ (i + N.succ n) * cap) by nia. nia.
Qed.

(** A window in equilibrium: every difficulty [D], every solve time [T]. *)
Lemma lwma_sums_const cap i D T n a b :
  1 ≤ T ≤ cap →
  lwma_sums cap i (replicate n D) (replicate n T) (a, b)
  = (a + N.of_nat n * D, b + T * (N.of_nat n * i) + T * (N.of_nat n * (N.of_nat n - 1) / 2)).
Proof.
  intros HT. revert i a b. induction n as [|n IH]; intros i a b.
  { cbn [replicate lwma_sums]. change (N.of_nat 0) with 0.
    change (0 * (0 - 1) / 2) with 0. f_equal; lia. }
  simpl replicate. simpl lwma_sums. rewrite (N.max_l T 1) by lia.
  destruct (N.ltb_spec cap T); [lia|]. rewrite IH. f_equal; [lia|].
  replace (N.of_nat (S n) - 1) with (N.of_nat n) by lia. rewrite Nat2N.inj_succ.
  set (m := N.of_nat n).
  assert (N.succ m * m / 2 = m * (m - 1) / 2 + m) as ->; [|lia].
  replace (N.succ m * m) with (m * (m - 1) + m * 2) by (destruct (decide (m = 0)); nia).
  by rewrite N.div_add.
Qed.

Lemma triangle_even n : 2 * (n * (n - 1) / 2) = n * (n - 1).
Proof.
  destruct (N.Even_or_Odd n) as [[k ->]|[k ->]].
  - replace (2 * k * (2 * k - 1)) with (k * (2 * k - 1) * 2) by lia.
    rewrite N.div_mul by done. lia.
  - replace ((2 * k + 1) * (2 * k + 1 - 1)) with ((2 * k + 1) * k * 2) by nia.
    rewrite N.div_mul by done. lia.
Qed.

Lemma lwma_unfold diffs sts target :
  diffs ≠ [] → length sts = length diffs →
  ∃ next, 1 ≤ next ≤ u128_max ∧
    let parent := N.max (default 0 (last diffs)) 1 in
    lwma diffs sts target
    = clamp (N.max (parent / 2) 1) (saturating_mul u128_max parent 2) next.
Proof.
  intros Hne Hlen. unfold lwma. destruct diffs as [|d diffs]; [done|].
  rewrite Hlen, Nat.eqb_refl. simpl negb. cbn [length Nat.eqb orb].
  destruct (lwma_sums _ _ _ _ _) as [sd w]. eexists. split; [|reflexivity].
  assert (1 ≤ u128_max) by done. destruct (N.ltb_spec u128_max
    (sd * N.max target 1 * (N.of_nat (S (length diffs)) + 1) / (2 * (if w =? 0 then 1 else w)))); lia.
Qed.

(** ** Properties *)

(** A difficulty is recovered exactly from its target, for every
    difficulty a u128 can hold; the truncation of the division never shows. *)
Theorem from_to_target d : 1 ≤ d ≤ u128_max → from_target (to_target d) = d.
Proof.
  intros [H1 Hd]. unfold from_target. rewrite to_target_val, (N.max_l d 1) by lia.
  pose proof (N.div_mod u256_max d ltac:(lia)) as E.
  pose proof (N.mod_lt u256_max d ltac:(lia)) as Hr.
  set (q := u256_max / d) in *. set (r := u256_max mod d) in *.
  assert (u256_max = u128_max * (u128_max + 2)) as E256 by done.
  assert (u128_max < q + 1) as Hq.
  { destruct (N.lt_ge_cases u128_max (q + 1)) as [|Hc]; [done|]. nia. }
  destruct (N.eqb_spec q 0); [lia|].
  assert (u256_max / q = d) as ->.
  { symmetry. apply (N.div_unique _ _ _ r); [|rewrite E; lia].
    destruct (decide (q = u128_max)) as [Eq|]; [|lia]. nia. }
  destruct (N.ltb_spec u128_max d); lia.
Qed.
Lemma from_to_target_witness : from_target (to_target 91692) = 91692.
Proof. by apply from_to_target. Defined.

(** The per-block retarget never moves the difficulty by more than a
    factor of two from the parent's, never leaves the range of a u128 or drops
    below one, and in equilibrium (equal difficulties, every solve time on
    target) it returns the difficulty unchanged. *)
Theorem lwma_damped_and_stable diffs sts target :
  diffs ≠ [] → length sts = length diffs → Forall (λ d, d ≤ u128_max) diffs →
  let parent := N.max (default 0 (last diffs)) 1 in
  1 ≤ lwma diffs sts target ≤ u128_max ∧
  parent / 2 ≤ lwma diffs sts target ≤ 2 * parent ∧
  ∀ D n, (0 < n)%nat → 1 ≤ D ≤ u128_max → 1 ≤ target →
    lwma (replicate n D) (replicate n target) target = D.
Proof.
  intros Hne Hlen HD parent. assert (1 ≤ u128_max) as Hu by done.
  assert (parent ≤ u128_max) as Hp.
  { unfold parent. destruct (last diffs) as [x|] eqn:El; [|done]. simpl.
    rewrite last_lookup in El. eapply Forall_lookup_1 in HD; [|exact El]. simpl in HD. lia. }
  destruct (lwma_unfold diffs sts target Hne Hlen) as (next & Hn & E).
  fold parent in E. assert (1 ≤ parent) by (unfold parent; lia).
  assert (parent / 2 ≤ parent) by (apply N.Div0.div_le_upper_bound; lia).
  pose proof (clamp_between (N.max (parent / 2) 1) (saturating_mul u128_max parent 2) next)
    as Hc. unfold saturating_mul in *. rewrite E. split_and!; [lia..|].
  intros D n Hn0 HDr Ht. unfold lwma. rewrite !length_replicate, Nat.eqb_refl.
  destruct n as [|n]; [lia|]. cbn [Nat.eqb negb orb].
  rewrite (N.max_l target 1), lwma_sums_const by lia.
  rewrite !N.add_0_l, N.mul_1_r. set (m := N.of_nat (S n)).
  assert (1 ≤ m) as Hm by (unfold m; lia).
  pose proof (triangle_even m) as Ht2. set (tri := m * (m - 1) / 2) in *.
  destruct (N.eqb_spec (target * m + target * tri) 0); [nia|].
  replace (m * D * target * (m + 1)) with (D * (2 * (target * m + target * tri))) by nia.
  rewrite N.div_mul by nia. destruct (N.ltb_spec u128_max D); [lia|].
  rewrite (N.max_l D 1) by lia.
  assert (default 0 (last (replicate (S n) D)) = D) as ->.
  { rewrite last_lookup, length_replicate. simpl pred.
    rewrite (lookup_replicate_2 (S n) D n) by lia. done. }
  rewrite (N.max_l D 1) by lia. apply clamp_id. unfold saturating_mul, MAX_STEP.
  assert (D / 2 ≤ D) by (apply N.Div0.div_le_upper_bound; lia). lia.
Qed.
Lemma lwma_damped_and_stable_witness :
  1 ≤ lwma [1000; 2000] [10; 20] 30 ≤ u128_max.
Proof.
  refine (proj1 (lwma_damped_and_stable [1000; 2000] [10; 20] 30 _ _ _)).
  - done.
  - done.
  - repeat constructor; done.
Defined.

(** With a window of fewer than 2^30 blocks, no intermediate of the
    256-bit retarget arithmetic overflows, so the exact arithmetic of the model
    is the arithmetic of the source. *)
Theorem lwma_no_overflow diffs sts target :
  Forall (λ d, d ≤ u128_max) diffs → N.of_nat (length diffs) < 2 ^ 30 → target ≤ u64_max →
  let t := N.max target 1 in
  let '(sum_d, weighted) := lwma_sums (6 * t) 1 diffs sts (0, 0) in
  sum_d * t * (N.of_nat (length diffs) + 1) ≤ u256_max ∧ 2 * weighted ≤ u256_max.
Proof.
  intros HD Hn Ht t. pose proof (lwma_sums_bound (6 * t) 1 diffs sts 0 0 u128_max HD) as Hb.
  destruct (lwma_sums _ _ _ _ _) as [sd w]. simpl in Hb. destruct Hb as [B1 B2].
  set (n := N.of_nat (length diffs)) in *.
  assert (t ≤ u64_max) as Ht' by (unfold t; assert (1 ≤ u64_max) by done; lia).
  change (2 ^ 30) with 1073741824 in Hn. split.
  - transitivity (n * u128_max * t * (n + 1)).
    { apply N.mul_le_mono_r, N.mul_le_mono_r. lia. }
    transitivity (1073741824 * u128_max * u64_max * 1073741824); [|done].
    repeat apply N.mul_le_mono; lia.
  - transitivity (2 * (n * ((1 + n) * (6 * t)))); [lia|].
    transitivity (2 * (1073741824 * (1073741824 * (6 * u64_max)))); [|done].
    repeat apply N.mul_le_mono; lia.
Qed.
Lemma lwma_no_overflow_witness :
  1500 * 30 * (2 + 1) ≤ u256_max ∧ 2 * 50 ≤ u256_max.
Proof.
  refine (lwma_no_overflow [1000; 500] [10; 20] 30 _ _ _).
  - repeat constructor; done.
  - done.
  - done.
Defined.

(** The emergency adjustment is inert below six target intervals, never
    raises the difficulty, never lowers it more than 256-fold, and keeps it at
    least one. *)
Theorem eda_bounded d elapsed target :
  1 ≤ d →
  1 ≤ eda d elapsed target ≤ d ∧ d ≤ 256 * eda d elapsed target + 255 ∧
  (elapsed < saturating_mul u64_max 6 (N.max target 1) → eda d elapsed target = d).
Proof.
  intros Hd. unfold eda, eda_halvings, EDA_STALL_FACTOR, EDA_MAX_HALVINGS.
  set (u := saturating_mul u64_max 6 (N.max target 1)).
  set (h := N.min (elapsed / u) 8). rewrite N.shiftr_div_pow2.
  assert (1 ≤ 2 ^ h ≤ 256) as [Hp1 Hp2].
  { split; [pose proof (N.pow_nonzero 2 h); lia|].
    change 256 with (2 ^ 8). apply N.pow_le_mono_r; lia. }
  assert (d / 2 ^ h ≤ d) by (apply N.Div0.div_le_upper_bound; nia).
  pose proof (N.div_mod d (2 ^ h) ltac:(lia)). pose proof (N.mod_lt d (2 ^ h) ltac:(lia)).
  split_and!; [lia|lia|nia|]. intros Hlt.
  assert (h = 0) as -> by (unfold h; rewrite N.div_small by done; done).
  change (2 ^ 0) with 1. rewrite N.div_1_r. lia.
Qed.
Lemma eda_bounded_witness : 1 ≤ eda 91692 28800000 150000 ≤ 91692.
Proof. refine (proj1 (eda_bounded 91692 28800000 150000 _)). done. Defined.
End Difficulty.

(** ** Cumulative work (work.rs) *)

Module Work.
(** [struct Work(U256)]. *)
Definition zero : N := 0.
Definition of_target (target : Target.t) : N :=
  let t := be_val target in
  if t =? u256_max then 1
  else
    let not_t := u256_max - t in
    not_t / (t + 1) + 1.
Definition saturating_add (a b : N) : N := saturating_add u256_max a b.
Definition to_be_bytes (w : N) : bytes := to_be 32 w.

Lemma of_target_div t : Target.wf t → of_target t = 2 ^ 256 / (be_val t + 1).
Proof.
  intros Hw. pose proof (Target.be_val_wf_bound t Hw) as Hb. unfold of_target.
  assert (2 ^ 256 = u256_max + 1) as E by done. rewrite E in *.
  set (v := be_val t) in *. destruct (N.eqb_spec v u256_max) as [->|].
  - by rewrite N.div_same.
  - replace (u256_max + 1) with (u256_max - v + 1 * (v + 1)) by lia.
    rewrite N.div_add by lia. done.
Qed.

(** Block work is exactly Bitcoin's 2^256 / (target + 1); a harder target
    never carries less work; and a block mined at difficulty D carries between
    D - 1 and D units, so cheap blocks weigh proportionally less. *)
Theorem work_of_target t :
  Target.wf t →
  of_target t = 2 ^ 256 / (be_val t + 1) ∧
  (∀ t', Target.wf t' → be_val t' ≤ be_val t → of_target t ≤ of_target t') ∧
  ∀ d, 1 ≤ d ≤ u128_max → d - 1 ≤ of_target (Difficulty.to_target d) ≤ d.
Proof.
  intros Hw. split_and!.
  - by apply of_target_div.
  - intros t' Hw' Hle. rewrite !of_target_div by done. apply N.div_le_compat_l. lia.
  - intros d [H1 Hd]. rewrite of_target_div by apply Difficulty.to_target_wf.
    rewrite Difficulty.to_target_val, (N.max_l d 1) by lia.
    pose proof (N.div_mod u256_max d ltac:(lia)) as E.
    pose proof (N.mod_lt u256_max d ltac:(lia)) as Hr.
    set (q := u256_max / d) in *. assert (2 ^ 256 = u256_max + 1) as -> by done.
    assert (u256_max = u128_max * (u128_max + 2)) as E256 by done.
    assert (u128_max < q + 1) as Hq by (destruct (N.lt_ge_cases u128_max (q + 1)); nia).
    split.
    + apply N.div_le_lower_bound; [lia|]. clear E256.
      assert ((q + 1) * (d - 1) + (q + 1) = d * q + d) as Em.
      { replace d with (d - 1 + 1) at 2 3 by lia. lia. }
      generalize dependent (u256_max mod d). intros r E Hr. lia.
    + apply N.Div0.div_le_upper_bound. clear E256 Hq Hd. set (r := u256_max mod d) in *.
      rewrite E. lia.
Qed.
Lemma work_of_target_witness :
  of_target Target.EASIEST = 2 ^ 256 / (be_val Target.EASIEST + 1).
Proof.
  refine (proj1 (work_of_target Target.EASIEST _)). split; [done|]. by apply Forall_replicate.
Defined.
End Work.
