(* ===== verification/Governance.v ===== *)
(** * Miner-signalled activation (crates/governance)

    The BIP-9 version-bits machine with the BIP-8 lock-in-on-timeout option: the
    threshold test, deployments, the signal log, the window walk [state_at] and
    the deployment registry. *)

From S2P Require Import Prelude Primitives.

Definition MAX_SIGNAL_BIT : N := 28.
Definition BIT_TX_DOMAIN : N := 0.
Definition BIT_FEE_AUCTION : N := 1.
Definition BIT_SHIELDED_V2 : N := 2.
Definition BIT_TX_TIMESTAMP : N := 3.
Definition BIT_PQ_SUNSET : N := 4.
Definition BIT_SHIELDED_V2_SUITE2 : N := 5.
Definition BIT_SHIELDED_V2_SUITE2_RECOVERY : N := 6.

(** [struct Threshold]. *)
Record Threshold := mkThreshold { th_num : N; th_den : N }.

Inductive GovernanceError :=
| BitOutOfRange (bit : N)
| BadThreshold (num den : N)
| ZeroPeriod
| TimeoutBeforeStart (start timeout : N)
| DuplicateDeployment (name : string)
| DuplicateBit (bit : N) (existing : string)
| UnknownDeployment (name : string).

Definition Threshold_new (num den : N) : result GovernanceError Threshold :=
  if (den =? 0) || (den <? num) then Err (BadThreshold num den)
  else Ok (mkThreshold num den).

(** The products are taken in u128, where two u64 factors cannot overflow. *)
Definition is_met (t : Threshold) (signaling period : N) : bool :=
  th_num t * period <=? signaling * th_den t.

Inductive ThresholdState := Defined | Started | LockedIn | Active | Failed.
#[global] Instance ThresholdState_eq_dec : EqDecision ThresholdState.
Proof. solve_decision. Defined.

Definition is_terminal (s : ThresholdState) : bool :=
  match s with Active | Failed => true | _ => false end.

(** [struct Deployment]. *)
Record Deployment := mkDeployment {
  d_name : string;
  d_bit : N;
  start_height : N;
  timeout_height : N;
  period : N;
  d_threshold : Threshold;
  min_activation_height : N;
  lockinontimeout : bool;
}.

Definition Deployment_new (name : string) (bit start_height timeout_height period : N)
    (threshold : Threshold) (min_activation_height : N) (lockinontimeout : bool) :
    result GovernanceError Deployment :=
  if MAX_SIGNAL_BIT <? bit then Err (BitOutOfRange bit)
  else if period =? 0 then Err ZeroPeriod
  else if timeout_height <=? start_height then
    Err (TimeoutBeforeStart start_height timeout_height)
  else Ok (mkDeployment name bit start_height timeout_height period threshold
             min_activation_height lockinontimeout).

Definition window_start (d : Deployment) (h : N) : N := h - h mod period d.

(** [trait MinerSignals]. *)
Class MinerSignals (Sig : Type) := signals : Sig → N → N → bool.

(** [struct SignalLog]: height to 32-bit version-bits mask. *)
Abbreviation SignalLog := (gmap N N) (only parsing).

Module SignalLogOps.
Definition record (l : SignalLog) (height mask : N) : SignalLog * option N :=
  (<[height := mask]> l, l !! height).
Definition record_bit (l : SignalLog) (height bit : N) : SignalLog * option N :=
  if 32 <=? bit then (l, l !! height)
  else
    let prev := default 0 (l !! height) in
    (<[height := N.lor prev (N.shiftl 1 bit)]> l, Some prev).
Definition remove (l : SignalLog) (height : N) : SignalLog * option N :=
  (delete height l, l !! height).
Definition log_signals (l : SignalLog) (height bit : N) : bool :=
  if 32 <=? bit then false
  else match l !! height with
       | Some mask => negb (N.land mask (N.shiftl 1 bit) =? 0)
       | None => false
       end.
End SignalLogOps.
#[global] Instance SignalLog_signals : MinerSignals SignalLog := SignalLogOps.log_signals.

(** The counting loop [for offset in 0..period]. *)
Definition signaling_count_in_window `{MinerSignals Sig} (d : Deployment) (window_start : N) (s : Sig) : N :=
  foldl (λ count offset,
      if signals s (window_start + N.of_nat offset) (d_bit d) then count + 1 else count)
    0 (seq 0 (N.to_nat (period d))).

Definition next_state `{MinerSignals Sig} (d : Deployment) (prev_state : ThresholdState)
    (next_window prev_window : N) (s : Sig) : ThresholdState :=
  match prev_state with
  | Defined => if start_height d <=? next_window then Started else Defined
  | Started =>
      let count := signaling_count_in_window d prev_window s in
      if is_met (d_threshold d) count (period d) then LockedIn
      else if timeout_height d <=? next_window then
        if lockinontimeout d then LockedIn else Failed
      else Started
  | LockedIn => if min_activation_height d <=? next_window then Active else LockedIn
  | Active => Active
  | Failed => Failed
  end.

(** The [while window < target_window] loop; [None] when the fuel runs out. *)
Fixpoint state_walk `{MinerSignals Sig} (fuel : nat) (d : Deployment) (s : Sig)
    (target_window window : N) (state : ThresholdState) : option ThresholdState :=
  if window <? target_window then
    match fuel with
    | O => None
    | S fuel =>
        let next_window := window + period d in
        state_walk fuel d s target_window next_window
          (next_state d state next_window window s)
    end
  else Some state.

(** [height] iterations are enough: the period is at least one. *)
Definition state_at `{MinerSignals Sig} (d : Deployment) (height : N) (s : Sig) : option ThresholdState :=
  state_walk (N.to_nat height) d s (window_start d height) 0 Defined.

(** [struct Governance]. *)
Abbreviation Governance := (gmap string Deployment) (only parsing).

(** [self.deployments.values().find(|d| d.bit == bit)]. *)
Definition find_bit (g : Governance) (bit : N) : option Deployment :=
  snd <$> head (filter (λ kd : string * Deployment, d_bit kd.2 = bit) (map_to_list g)).

Definition register (g : Governance) (d : Deployment) : result GovernanceError Governance :=
  match g !! d_name d with
  | Some _ => Err (DuplicateDeployment (d_name d))
  | None =>
      match find_bit g (d_bit d) with
      | Some existing => Err (DuplicateBit (d_bit d) (d_name existing))
      | None => Ok (<[d_name d := d]> g)
      end
  end.

Definition state_of `{MinerSignals Sig} (g : Governance) (name : string) (height : N) (s : Sig) :
    result GovernanceError (option ThresholdState) :=
  d ← ok_or (g !! name) (UnknownDeployment name); mret (state_at d height s).

Definition is_active `{MinerSignals Sig} (g : Governance) (name : string) (height : N) (s : Sig) : bool :=
  match state_of g name height s with Ok (Some Active) => true | _ => false end.

(** ** The walk, window by window *)

Definition valid (d : Deployment) : Prop :=
  d_bit d ≤ MAX_SIGNAL_BIT ∧ 0 < period d ∧ start_height d < timeout_height d.

Lemma Deployment_new_valid n b st t p th m l d :
  Deployment_new n b st t p th m l = Ok d → valid d ∧ d = mkDeployment n b st t p th m l.
Proof.
  unfold Deployment_new. destruct (N.ltb_spec MAX_SIGNAL_BIT b); [done|].
  destruct (N.eqb_spec p 0); [done|]. destruct (N.leb_spec t st); [done|].
  intros [= <-]. unfold valid; simpl. split; [lia|done].
Qed.

Section walk.
Context `{MinerSignals Sig} (d : Deployment) (Hp : 0 < period d).
Implicit Types s : Sig.

(** State after [k] completed windows. *)
Fixpoint state_win s (k : nat) : ThresholdState :=
  match k with
  | O => Defined
  | S k => next_state d (state_win s k) (N.of_nat k * period d + period d) (N.of_nat k * period d) s
  end.

Lemma window_start_mul h : window_start d h = h / period d * period d.
Proof.
  unfold window_start. pose proof (N.Div0.div_mod h (period d)) as E.
  rewrite (N.mul_comm (period d)) in E. set (m := h mod period d) in *.
  set (q := h / period d * period d) in *. clearbody m q. lia.
Qed.

Lemma state_walk_win s fuel k n :
  (n - k ≤ fuel)%nat → (k ≤ n)%nat →
  state_walk fuel d s (N.of_nat n * period d) (N.of_nat k * period d) (state_win s k)
  = Some (state_win s n).
Proof.
  revert k. induction fuel as [|fuel IH]; intros k Hf Hk; simpl.
  - assert (k = n) as -> by lia. by rewrite N.ltb_irrefl.
  - destruct (N.ltb_spec (N.of_nat k * period d) (N.of_nat n * period d)) as [Hlt|Hge].
    + apply N.mul_lt_mono_pos_r in Hlt; [|done].
      rewrite <- (IH (S k)) by lia. simpl. f_equal. lia.
    + apply N.mul_le_mono_pos_r in Hge; [|done]. by assert (k = n) as -> by lia.
Qed.

Lemma state_at_win s h : state_at d h s = Some (state_win s (N.to_nat (h / period d))).
Proof.
  unfold state_at. rewrite window_start_mul.
  rewrite <- (state_walk_win s (N.to_nat h) 0 (N.to_nat (h / period d))).
  - by rewrite N2Nat.id.
  - rewrite Nat.sub_0_r. assert (h / period d ≤ h) as Hle.
    2: { set (q := h / period d) in *. clearbody q. lia. }
    apply N.Div0.div_le_upper_bound.
    rewrite <- (N.mul_1_l h) at 1. apply N.mul_le_mono_r. lia.
  - apply Nat.le_0_l.
Qed.

Lemma count_ext s s' w :
  (∀ i, i < period d → signals s (w + i) (d_bit d) = signals s' (w + i) (d_bit d)) →
  signaling_count_in_window d w s = signaling_count_in_window d w s'.
Proof.
  intros He. unfold signaling_count_in_window.
  assert (∀ l, Forall (λ o, N.of_nat o < period d) l → ∀ c,
    foldl (λ count offset, if signals s (w + N.of_nat offset) (d_bit d) then count + 1 else count) c l
    = foldl (λ count offset, if signals s' (w + N.of_nat offset) (d_bit d) then count + 1 else count) c l)
    as Hl.
  { induction 1 as [|o l Ho _ IH]; intros c; simpl; [done|]. by rewrite He, IH. }
  apply Hl. apply Forall_seq. lia.
Qed.

Lemma count_bound s w : signaling_count_in_window d w s ≤ period d.
Proof.
  unfold signaling_count_in_window.
  assert (∀ l c, foldl (λ count offset,
    if signals s (w + N.of_nat offset) (d_bit d) then count + 1 else count) c l
    ≤ c + N.of_nat (length l)) as Hl.
  { induction l as [|o l IH]; intros c; simpl; [lia|].
    etrans; [apply IH|]. case_match; lia. }
  etrans; [apply Hl|]. rewrite length_seq. lia.
Qed.

Lemma state_win_ext s s' k :
  (∀ h, h < N.of_nat k * period d → signals s h (d_bit d) = signals s' h (d_bit d)) →
  state_win s k = state_win s' k.
Proof.
  induction k as [|k IH]; intros He; [done|]. simpl.
  rewrite IH by (intros; apply He; lia). unfold next_state.
  rewrite (count_ext s s' (N.of_nat k * period d)); [done|].
  intros i Hi. apply He. lia.
Qed.
End walk.

(** C38: the state walk always terminates with a state; the state is constant
    within a signalling window, is [Defined] in the first one, and each window's
    state is one application of the transition rule to the previous window's. *)
Theorem state_at_windowed `{MinerSignals Sig} (d : Deployment) (s : Sig) (h : N) :
  0 < period d →
  (∃ st, state_at d h s = Some st) ∧
  (∀ h', window_start d h' = window_start d h → state_at d h' s = state_at d h s) ∧
  (h < period d → state_at d h s = Some Defined) ∧
  ∀ st, state_at d h s = Some st →
    state_at d (h + period d) s
    = Some (next_state d st (window_start d h + period d) (window_start d h) s).
Proof.
  intros Hp. rewrite (state_at_win d Hp). split_and!.
  - by eexists.
  - intros h'. rewrite !(window_start_mul d Hp). intros E.
    apply N.mul_cancel_r in E; [|lia]. by rewrite (state_at_win d Hp), E.
  - intros Hh. by rewrite N.div_small.
  - intros st [= <-]. rewrite (state_at_win d Hp), !(window_start_mul d Hp).
    replace (h + period d) with (h + 1 * period d) by lia. rewrite N.div_add by lia.
    rewrite N2Nat.inj_add. change (N.to_nat 1) with 1%nat. rewrite Nat.add_1_r. simpl.
    by rewrite N2Nat.id.
Qed.

(** The documented lifecycle. *)
Inductive lifecycle : ThresholdState → ThresholdState → Prop :=
| lc_start : lifecycle Defined Started
| lc_lock : lifecycle Started LockedIn
| lc_fail : lifecycle Started Failed
| lc_activate : lifecycle LockedIn Active.

Lemma next_state_lifecycle `{MinerSignals Sig} d st nw pw (s : Sig) :
  rtc lifecycle st (next_state d st nw pw s).
Proof. destruct st; simpl; repeat case_match; try done; apply rtc_once; constructor. Qed.

Lemma state_win_lifecycle `{MinerSignals Sig} d (s : Sig) k k' :
  (k ≤ k')%nat → rtc lifecycle (state_win d s k) (state_win d s k').
Proof. induction 1; [done|]. etrans; [done|]. apply next_state_lifecycle. Qed.

(** As the height grows a deployment only moves forward along
    Defined, Started, LockedIn or Failed, Active; in particular Active and Failed
    are never left. *)
Theorem lifecycle_monotone `{MinerSignals Sig} (d : Deployment) (s : Sig) (h h' : N) st st' :
  0 < period d → h ≤ h' → state_at d h s = Some st → state_at d h' s = Some st' →
  rtc lifecycle st st' ∧ (is_terminal st = true → st' = st).
Proof.
  intros Hp Hle. rewrite !(state_at_win d Hp). intros [= <-] [= <-].
  assert (rtc lifecycle (state_win d s (N.to_nat (h / period d)))
            (state_win d s (N.to_nat (h' / period d)))) as Hr.
  { apply state_win_lifecycle. pose proof (N.Div0.div_le_mono h h' (period d) Hle) as Hd.
    set (q := h / period d) in *. set (q' := h' / period d) in *. clearbody q q'. lia. }
  split; [done|]. intros Ht. inversion Hr as [|? y ? Hs _]; [done|].
  subst. inversion Hs as [E|E|E|E]; rewrite <- E in Ht; done.
Qed.

Section justified.
Context `{MinerSignals Sig} (d : Deployment) (s : Sig) (Hp : 0 < period d).
Let win (k : nat) : N := N.of_nat k * period d.
Let met (k : nat) : bool :=
  is_met (d_threshold d) (signaling_count_in_window d (win k) s) (period d).

(** Why the machine is in each state after [k] windows. *)
Definition justified (k : nat) (st : ThresholdState) : Prop :=
  match st with
  | Defined => (1 ≤ k)%nat → win k < start_height d
  | Started => start_height d ≤ win k ∧ (1 ≤ k)%nat ∧
      ∀ i, (1 ≤ i < k)%nat → start_height d ≤ win i → met i = false
  | LockedIn => ∃ j, (1 ≤ j < k)%nat ∧ start_height d ≤ win j ∧
      (met j = true ∨ lockinontimeout d = true ∧ timeout_height d ≤ win (S j))
  | Active => min_activation_height d ≤ win k ∧
      ∃ j, (1 ≤ j ∧ S j < k)%nat ∧ start_height d ≤ win j ∧
      (met j = true ∨ lockinontimeout d = true ∧ timeout_height d ≤ win (S j))
  | Failed => lockinontimeout d = false ∧
      ∃ j, (1 ≤ j < k)%nat ∧ timeout_height d ≤ win (S j) ∧
      ∀ i, (1 ≤ i ≤ j)%nat → start_height d ≤ win i → met i = false
  end.

Lemma win_S k : win (S k) = win k + period d.
Proof. unfold win. lia. Qed.

Lemma not_met_le k : met k = false →
  (∀ i, (1 ≤ i < k)%nat → start_height d ≤ win i → met i = false) →
  ∀ i, (1 ≤ i ≤ k)%nat → start_height d ≤ win i → met i = false.
Proof. intros ? Hno i Hi ?. destruct (decide (i = k)) as [->|]; [done|]. apply Hno; [lia|done]. Qed.

Lemma win_mono i k : (i ≤ k)%nat → win i ≤ win k.
Proof. intros. unfold win. apply N.mul_le_mono_r. lia. Qed.

Lemma state_win_justified k : justified k (state_win d s k).
Proof.
  induction k as [|k IH]; [simpl; lia|]. simpl state_win. fold (win k). rewrite <- win_S.
  destruct (state_win d s k) eqn:E; cbn [next_state justified] in *.
  - destruct (N.leb_spec (start_height d) (win (S k))); [|by intros _].
    split_and!; [done|lia|]. intros i Hi Hst.
    pose proof (win_mono i k ltac:(lia)). exfalso. specialize (IH ltac:(lia)). lia.
  - destruct IH as (Hst & Hk & Hno). fold (met k). destruct (met k) eqn:Em.
    { exists k. split_and!; [lia|lia|done|by left]. }
    destruct (N.leb_spec (timeout_height d) (win (S k))) as [Ht|Ht].
    + destruct (lockinontimeout d) eqn:El.
      * exists k. split_and!; [lia|lia|done|by right].
      * split; [done|]. exists k. split_and!; [lia|lia|done|by apply not_met_le].
    + split_and!; [|lia|].
      * etrans; [exact Hst|]. apply win_mono. lia.
      * intros i Hi. apply (not_met_le k); [done..|lia].
  - destruct IH as (j & Hj & ?). destruct (N.leb_spec (min_activation_height d) (win (S k))).
    + split; [done|]. exists j. split; [lia|done].
    + exists j. split; [lia|done].
  - destruct IH as (Hm & j & Hj & ?). split.
    + etrans; [exact Hm|]. apply win_mono. lia.
    + exists j. split; [lia|done].
  - destruct IH as (Hl & j & Hj & ?). split; [done|]. exists j. split; [lia|done].
Qed.
End justified.


Lemma next_state_past_timeout `{MinerSignals Sig} d st nw pw (s : Sig) :
  timeout_height d ≤ nw → st ≠ Defined →
  next_state d st nw pw s ≠ Defined ∧ next_state d st nw pw s ≠ Started ∧
  (lockinontimeout d = true → st ≠ Failed → next_state d st nw pw s ≠ Failed).
Proof.
  intros Ht Hd. destruct st; simpl; try done; rewrite ?(proj2 (N.leb_le _ _) Ht);
    repeat case_match; done.
Qed.

(** The machine decides.  Two windows after the timeout every deployment has
    left the signalling phase, and with lock-in on timeout it is Active as soon as
    the minimum activation height allows, whatever the miners signalled. *)
Theorem timeout_decides `{MinerSignals Sig} (d : Deployment) (s : Sig) (h : N) :
  valid d → timeout_height d + 3 * period d ≤ h →
  (∃ st, state_at d h s = Some st ∧ st ≠ Defined ∧ st ≠ Started) ∧
  (lockinontimeout d = true → min_activation_height d ≤ window_start d h →
   state_at d h s = Some Active).
Proof.
  intros (_ & Hp & Hst) Hh. rewrite (state_at_win d Hp), (window_start_mul d Hp).
  assert (timeout_height d + 2 * period d < h / period d * period d) as HK.
  { rewrite <- (window_start_mul d Hp). unfold window_start.
    pose proof (N.mod_lt h (period d) ltac:(lia)) as Hm.
    set (m := h mod period d) in *. clearbody m. lia. }
  destruct (N.to_nat (h / period d)) as [|[|[|k]]] eqn:EK;
    replace (h / period d) with (N.of_nat (N.to_nat (h / period d))) in HK |- * by apply N2Nat.id;
    rewrite EK in HK |- *; [lia..|].
  (* three boundaries past the timeout: Started at the latest, decided, Active *)
  assert (state_win d s (S k) ≠ Defined) as H0.
  { pose proof (state_win_justified d s Hp (S k)) as J. intros E. rewrite E in J.
    specialize (J ltac:(lia)). unfold justified in J. lia. }
  destruct (next_state_past_timeout d (state_win d s (S k)) (N.of_nat (S k) * period d + period d)
              (N.of_nat (S k) * period d) s ltac:(lia) H0) as (H1 & H1' & HL).
  change (state_win d s (S (S k)) ≠ Defined) in H1.
  change (state_win d s (S (S k)) ≠ Started) in H1'.
  split.
  - eexists; split; [done|]. cbn [state_win].
    destruct (next_state_past_timeout d (state_win d s (S (S k)))
      (N.of_nat (S (S k)) * period d + period d) (N.of_nat (S (S k)) * period d) s ltac:(lia) H1) as (? & ? & _).
    done.
  - intros Hl Hmin. f_equal.
    assert (∀ n, state_win d s n ≠ Failed) as HF.
    { intros n E. pose proof (state_win_justified d s Hp n) as J. rewrite E in J.
      destruct J as [J _]. congruence. }
    pose proof (HF (S (S k))) as HF2. change (next_state d (state_win d s (S (S k)))
      (N.of_nat (S (S k)) * period d + period d) (N.of_nat (S (S k)) * period d) s = Active).
    destruct (state_win d s (S (S k))); try done. simpl.
    by rewrite (proj2 (N.leb_le _ _)) by lia.
Qed.

(** The state at a height depends only on the signals of the blocks below the
    window's first block, so neither the current window nor a reorganisation inside
    it can move it. *)
Theorem state_depends_on_past `{MinerSignals Sig} (d : Deployment) (s s' : Sig) (h : N) :
  0 < period d →
  (∀ i, i < window_start d h → signals s i (d_bit d) = signals s' i (d_bit d)) →
  state_at d h s = state_at d h s'.
Proof.
  intros Hp He. rewrite !(state_at_win d Hp). f_equal. apply (state_win_ext d Hp).
  intros i Hi. apply He. rewrite (window_start_mul d Hp). by rewrite N2Nat.id in Hi.
Qed.

(** ** The signal log and the registry *)

Section log.
Import SignalLogOps.

Lemma record_signals l height mask h bit :
  log_signals (record l height mask).1 h bit
  = if decide (h = height) then (bit <? 32) && N.testbit mask bit else log_signals l h bit.
Proof.
  unfold log_signals, record; simpl. destruct (N.leb_spec 32 bit), (N.ltb_spec bit 32); try lia;
    [by destruct (decide _)|]. rewrite N.shiftl_1_l.
  destruct (decide (h = height)) as [->|]; [|by rewrite lookup_insert_ne].
  rewrite lookup_insert_eq. simpl.
  pose proof (land_pow2_testbit mask bit) as E.
  destruct (N.testbit mask bit), (N.eqb_spec (N.land mask (2 ^ bit)) 0); naive_solver.
Qed.

(** Connecting and disconnecting blocks keeps the log honest.  A recorded
    block signals exactly the bits of its mask, [record_bit] adds exactly one bit,
    other heights are untouched, and removing the block of a height that was empty
    restores the log exactly. *)
Theorem signal_log_exact (l : SignalLog) (height mask bit : N) :
  (∀ h b, log_signals (record l height mask).1 h b
     = if decide (h = height) then (b <? 32) && N.testbit mask b else log_signals l h b) ∧
  (∀ h b, log_signals (record_bit l height bit).1 h b
     = (bool_decide (h = height ∧ b = bit ∧ bit < 32)) || log_signals l h b) ∧
  (∀ h b, h ≠ height → log_signals (remove l height).1 h b = log_signals l h b) ∧
  (l !! height = None → (remove (record l height mask).1 height).1 = l).
Proof.
  split_and!.
  - intros. apply record_signals.
  - intros h b. unfold record_bit. destruct (N.leb_spec 32 bit).
    { rewrite bool_decide_false by lia. done. }
    change (log_signals (record l height (N.lor (default 0 (l !! height)) (N.shiftl 1 bit))).1 h b
      = bool_decide (h = height ∧ b = bit ∧ bit < 32) || log_signals l h b).
    rewrite record_signals. destruct (decide (h = height)) as [->|].
    2: { rewrite bool_decide_false by naive_solver. done. }
    rewrite N.lor_spec, N.shiftl_1_l. unfold log_signals.
    destruct (N.ltb_spec b 32), (N.leb_spec 32 b); try lia.
    2: { rewrite bool_decide_false by lia. done. }
    assert (N.testbit (2 ^ bit) b = bool_decide (height = height ∧ b = bit ∧ bit < 32)) as ->.
    { destruct (decide (bit = b)) as [->|].
      - rewrite N.pow2_bits_true, bool_decide_true; done.
      - rewrite N.pow2_bits_false, bool_decide_false; naive_solver. }
    simpl. rewrite orb_comm. f_equal. rewrite N.shiftl_1_l.
    destruct (l !! height) as [m|]; simpl; [|done].
    pose proof (land_pow2_testbit m b) as E.
    destruct (N.testbit m b), (N.eqb_spec (N.land m (2 ^ b)) 0); naive_solver.
  - intros h b Hne. unfold remove, log_signals; simpl. by rewrite lookup_delete_ne.
  - intros Hn. unfold remove, record; simpl. by rewrite delete_insert_id.
Qed.
End log.

(** The registry invariant: entries are valid deployments filed under their own
    name, and no signalling bit is shared. *)
Definition registry_ok (g : Governance) : Prop :=
  (∀ name d, g !! name = Some d → d_name d = name ∧ valid d) ∧
  (∀ n1 n2 d1 d2, g !! n1 = Some d1 → g !! n2 = Some d2 → d_bit d1 = d_bit d2 → n1 = n2).

Lemma find_bit_Some g bit d : find_bit g bit = Some d → ∃ name, g !! name = Some d ∧ d_bit d = bit.
Proof.
  unfold find_bit. destruct (filter _ _) as [|[n d'] l] eqn:E; [done|]. intros [= ->].
  assert ((n, d) ∈ filter (λ kd : string * Deployment, d_bit kd.2 = bit) (map_to_list g)) as Hin
    by (rewrite E; left).
  apply list_elem_of_filter in Hin as [Hb Hin%elem_of_map_to_list]. eauto.
Qed.
Lemma find_bit_None g bit : find_bit g bit = None ↔ ∀ name d, g !! name = Some d → d_bit d ≠ bit.
Proof.
  unfold find_bit. destruct (filter _ _) as [|[n d'] l] eqn:E; simpl; split; try done.
  - intros _ name d Hl Hb.
    assert ((name, d) ∈ filter (λ kd : string * Deployment, d_bit kd.2 = bit) (map_to_list g)) as Hin
      by (apply list_elem_of_filter; split; [done|by apply elem_of_map_to_list]).
    rewrite E in Hin. inversion Hin.
  - intros Hn. exfalso.
    assert ((n, d') ∈ filter (λ kd : string * Deployment, d_bit kd.2 = bit) (map_to_list g)) as Hin
      by (rewrite E; left).
    apply list_elem_of_filter in Hin as [Hb Hin%elem_of_map_to_list]. by eapply Hn.
Qed.

(** Registering a valid deployment keeps names and bits unique, succeeds
    exactly when both are free, names the true holder of a taken bit, and leaves
    every other deployment's activation state as it was. *)
Theorem register_spec `{MinerSignals Sig} (g : Governance) (d : Deployment) (s : Sig) (h : N) :
  registry_ok g → valid d →
  match register g d with
  | Ok g' => registry_ok g' ∧ g !! d_name d = None ∧ g' = <[d_name d := d]> g ∧
      ∀ name, name ≠ d_name d → state_of g' name h s = state_of g name h s
  | Err (DuplicateDeployment n) => n = d_name d ∧ is_Some (g !! n)
  | Err (DuplicateBit b n) => b = d_bit d ∧ ∃ d', g !! n = Some d' ∧ d_bit d' = b
  | Err _ => False
  end.
Proof.
  intros [Hn Hb] Hv. unfold register. destruct (g !! d_name d) eqn:E; [by split; [|eexists]|].
  destruct (find_bit g (d_bit d)) as [d'|] eqn:F.
  - apply find_bit_Some in F as (n & Hl & Hbit). destruct (Hn _ _ Hl) as [<- _]. eauto.
  - rewrite find_bit_None in F. split_and!; [|done|done|].
    + split.
      * intros name d' [[<- <-]|[? Hl]]%lookup_insert_Some; [done|by apply Hn].
      * intros n1 n2 d1 d2 [[<- <-]|[? H1]]%lookup_insert_Some
          [[<- <-]|[? H2]]%lookup_insert_Some ?; try done.
        -- by destruct (F _ _ H2).
        -- by destruct (F _ _ H1).
        -- by eapply Hb.
    + intros name Hne. unfold state_of. by rewrite lookup_insert_ne.
Qed.

(** ** Concrete runs *)

Module Example_run.
(** The crate's test deployment: 10-block windows, 8 of 10, start 10, timeout 50. *)
Definition d0 : Deployment := mkDeployment "test_upgrade" 0 10 50 10 (mkThreshold 8 10) 0 false.
Definition d_lot : Deployment := mkDeployment "lot" 1 10 50 10 (mkThreshold 8 10) 0 true.
Definition log8 : SignalLog :=
  foldr (λ h l, (SignalLogOps.record l (10 + h) 1).1) ∅ [0; 1; 2; 3; 4; 5; 6; 7].
Definition reg0 : Governance := {["test_upgrade" := d0]}.

Lemma state_at_windowed_witness :
  state_at d0 (20 + 10) log8 = Some (next_state d0 LockedIn 30 20 log8).
Proof.
  refine (proj2 (proj2 (proj2 (state_at_windowed d0 log8 20 _))) LockedIn _); vm_compute; done.
Defined.
Lemma lifecycle_monotone_witness : rtc lifecycle LockedIn Active.
Proof.
  refine (proj1 (lifecycle_monotone d0 log8 25 95 LockedIn Active _ _ _ _)); vm_compute; done.
Defined.
Lemma timeout_decides_witness : state_at d_lot 85 (∅ : SignalLog) = Some Active.
Proof.
  refine (proj2 (timeout_decides d_lot (∅ : SignalLog) 85 _ _) _ _); vm_compute; done.
Defined.
Lemma state_depends_on_past_witness :
  state_at d0 25 log8 = state_at d0 25 (SignalLogOps.record log8 20 1).1.
Proof.
  refine (state_depends_on_past d0 log8 _ 25 _ _); [done|].
  intros i Hi. unfold signals, SignalLog_signals. rewrite record_signals.
  rewrite decide_False; [done|]. intros ->. vm_compute in Hi. done.
Defined.
Lemma signal_log_exact_witness :
  (SignalLogOps.remove (SignalLogOps.record log8 40 5).1 40).1 = log8.
Proof.
  pose proof (signal_log_exact log8 40 5 0) as (_ & _ & _ & Hr). apply Hr. by vm_compute.
Defined.
Lemma register_spec_witness :
  match register reg0 d_lot with
  | Ok g' => registry_ok g' ∧ reg0 !! d_name d_lot = None ∧ g' = <[d_name d_lot := d_lot]> reg0 ∧
      ∀ name, name ≠ d_name d_lot → state_of g' name 25 log8 = state_of reg0 name 25 log8
  | Err (DuplicateDeployment n) => n = d_name d_lot ∧ is_Some (reg0 !! n)
  | Err (DuplicateBit b n) => b = d_bit d_lot ∧ ∃ d', reg0 !! n = Some d' ∧ d_bit d' = b
  | Err _ => False
  end.
Proof.
  apply (register_spec reg0 d_lot log8 25); [|by vm_compute].
  unfold reg0. split.
  - intros name d [<- <-]%lookup_singleton_Some. by vm_compute.
  - intros n1 n2 d1 d2 [<- <-]%lookup_singleton_Some [<- <-]%lookup_singleton_Some. done.
Defined.
End Example_run.
