(* ===== verification/Crypto.v ===== *)
(** * Hashes, keys and Merkle commitments (crates/primitives/src/hash.rs, crates/crypto)

    BLAKE3, Ed25519 and ML-DSA-65 are third-party code: they are the operations
    of the classes [Blake3] and [SigScheme].  Everything built on them (the hash
    type, the versioned keys and signatures, implicit account ids, the binary
    Merkle tree of transactions and receipts) is defined here. *)

From Stdlib Require Import Ascii.
From S2P Require Import Prelude Primitives.

(** ** [struct Hash([u8; 32])] *)

Definition byte_okb (b : N) : bool := b <? 256.
Definition hash_wf (l : bytes) : bool := (length l =? 32)%nat && forallb byte_okb l.

Record Hash := mkHash { as_bytes : bytes; as_bytes_wf : hash_wf as_bytes = true }.

Lemma as_bytes_inj x y : as_bytes x = as_bytes y → x = y.
Proof. destruct x as [x Hx], y as [y Hy]; simpl. intros ->. f_equal. apply (proof_irrel _). Qed.
#[global] Instance as_bytes_Inj : Inj (=) (=) as_bytes.
Proof. exact as_bytes_inj. Qed.

Definition Hash_eqb (x y : Hash) : bool := bool_decide (as_bytes x = as_bytes y).
#[global] Instance Hash_eq_dec : EqDecision Hash.
Proof.
  intros x y. destruct (decide (as_bytes x = as_bytes y)) as [E|E].
  - left. by apply as_bytes_inj.
  - right. by intros ->.
Defined.

(** [from_bytes] on a slice: the array conversion fails unless it has 32 bytes. *)
Definition Hash_try_from (l : bytes) : option Hash :=
  match hash_wf l as b return hash_wf l = b → option Hash with
  | true => λ E, Some (mkHash l E)
  | false => λ _, None
  end eq_refl.

Lemma Hash_try_from_as_bytes h : Hash_try_from (as_bytes h) = Some h.
Proof.
  unfold Hash_try_from. destruct h as [l Hl]; simpl.
  generalize (eq_refl (hash_wf l)). generalize (hash_wf l) at 2 3.
  intros [|] E; [|congruence]. f_equal. by apply as_bytes_inj.
Qed.
#[global] Program Instance Hash_countable : Countable Hash :=
  inj_countable as_bytes Hash_try_from _.
Next Obligation. intros x. apply Hash_try_from_as_bytes. Qed.

Definition Hash_ZERO : Hash := mkHash (replicate 32 0) eq_refl.

Lemma length_as_bytes h : length (as_bytes h) = 32%nat.
Proof.
  pose proof (as_bytes_wf h) as Hl. unfold hash_wf in Hl.
  rewrite andb_true_iff in Hl. apply Nat.eqb_eq, Hl.
Qed.
Lemma as_bytes_ok h : Forall byte_ok (as_bytes h).
Proof.
  pose proof (as_bytes_wf h) as Hl. unfold hash_wf in Hl.
  rewrite andb_true_iff, forallb_forall in Hl. apply Forall_forall.
  intros b Hb. apply N.ltb_lt, Hl. by apply list_elem_of_In.
Qed.

(** The digest of a byte string. *)
Class Blake3 := digest : bytes → Hash.

(** No two different strings of [l] have the same digest, and none hashes to
    the all-zero placeholder.  It speaks of finitely many strings, the ones the
    code actually hashes, and is decided by evaluation. *)
Definition no_break `{Blake3} (l : list bytes) : Prop :=
  (∀ x y, x ∈ l → y ∈ l → digest x = digest y → x = y) ∧
  (∀ x, x ∈ l → digest x ≠ Hash_ZERO).

Lemma no_break_mono `{Blake3} l l' : l ⊆ l' → no_break l' → no_break l.
Proof. intros Hs [H1 H2]. split; intros; [apply H1|apply H2]; auto. Qed.

Lemma no_break_app_l `{Blake3} l l' : no_break (l ++ l') → no_break l.
Proof. apply no_break_mono. intros x Hx. apply elem_of_app. by left. Qed.
Lemma no_break_app_r `{Blake3} l l' : no_break (l ++ l') → no_break l'.
Proof. apply no_break_mono. intros x Hx. apply elem_of_app. by right. Qed.

(** The executable test. *)
Fixpoint no_break_from `{Blake3} (seen : gmap Hash bytes) (l : list bytes) : bool :=
  match l with
  | [] => true
  | x :: l =>
      let h := digest x in
      negb (Hash_eqb h Hash_ZERO) &&
      match seen !! h with
      | Some y => bool_decide (x = y) && no_break_from seen l
      | None => no_break_from (<[h := x]> seen) l
      end
  end.
Definition no_breakb `{Blake3} (l : list bytes) : bool := no_break_from ∅ l.

Lemma no_break_from_sound `{Blake3} l : ∀ seen,
  no_break_from seen l = true →
  (∀ h y, seen !! h = Some y → digest y = h) →
  ∃ f : gmap Hash bytes, seen ⊆ f ∧ ∀ x, x ∈ l → f !! digest x = Some x ∧ digest x ≠ Hash_ZERO.
Proof.
  induction l as [|x l IH]; intros seen Hc Hs; cbn [no_break_from] in Hc.
  { exists seen. split; [done|]. intros x Hx. inversion Hx. }
  rewrite andb_true_iff, negb_true_iff in Hc. destruct Hc as [Hz Hc].
  assert (digest x ≠ Hash_ZERO) as Hz'.
  { intros E. rewrite E in Hz. unfold Hash_eqb in Hz. by rewrite bool_decide_true in Hz. }
  destruct (seen !! digest x) as [y|] eqn:E.
  - rewrite andb_true_iff, bool_decide_eq_true in Hc. destruct Hc as [<- Hc].
    destruct (IH _ Hc Hs) as (f & Hf & Hl). exists f. split; [done|].
    intros z [->|Hz1]%elem_of_cons; [|by apply Hl]. split; [|done]. by eapply lookup_weaken.
  - destruct (IH _ Hc) as (f & Hf & Hl).
    { intros h y [[<- <-]|[_ Hy]]%lookup_insert_Some; [done|by apply Hs]. }
    exists f. split; [etrans; [by apply insert_subseteq|done]|].
    intros z [->|Hz1]%elem_of_cons; [|by apply Hl]. split; [|done].
    eapply lookup_weaken; [apply lookup_insert_eq|done].
Qed.

Lemma no_breakb_sound `{Blake3} l : no_breakb l = true → no_break l.
Proof.
  intros Hc. destruct (no_break_from_sound l ∅ Hc) as (f & _ & Hl); [by intros ?? ?%lookup_empty_Some|].
  split.
  - intros x y Hx Hy E. destruct (Hl x Hx) as [E1 _], (Hl y Hy) as [E2 _]. congruence.
  - intros x Hx. by apply Hl.
Qed.

(** ** Versioned keys and signatures (keys.rs, signature.rs) *)

Inductive PublicKey :=
| PkV1Ed25519 (key : bytes)
| PkV2HybridMlDsa65 (ed25519 ml_dsa : bytes).
#[global] Instance PublicKey_eq_dec : EqDecision PublicKey.
Proof. solve_decision. Defined.
#[global] Program Instance PublicKey_countable : Countable PublicKey :=
  inj_countable'
    (λ k, match k with PkV1Ed25519 a => inl a | PkV2HybridMlDsa65 a b => inr (a, b) end)
    (λ s, match s with inl a => PkV1Ed25519 a | inr (a, b) => PkV2HybridMlDsa65 a b end) _.
Next Obligation. by intros []. Qed.

Inductive Signature :=
| SigV1Ed25519 (sig : bytes)
| SigV2HybridMlDsa65 (ed25519 ml_dsa : bytes).
#[global] Instance Signature_eq_dec : EqDecision Signature.
Proof. solve_decision. Defined.

(** ed25519-dalek's strict verification (key parsing included) and fips204's
    ML-DSA-65 verification (key parsing included). *)
Class SigScheme := {
  verify_ed25519 : bytes → bytes → bytes → bool;
  verify_ml_dsa : bytes → bytes → bytes → bool;
}.

(** [PublicKey::verify]. *)
Definition verify `{SigScheme} (key : PublicKey) (message : bytes) (signature : Signature) : bool :=
  match key, signature with
  | PkV1Ed25519 key, SigV1Ed25519 sig => verify_ed25519 key message sig
  | PkV2HybridMlDsa65 ed25519 ml_dsa, SigV2HybridMlDsa65 ed_sig ml_sig =>
      verify_ed25519 ed25519 message ed_sig && verify_ml_dsa ml_dsa message ml_sig
  | _, _ => false
  end.

(** [borsh::to_vec], the canonical binary encoding. *)
Class Borsh (A : Type) := to_vec : A → bytes.
(** What callers rely on: the encoding determines the value. *)
Class BorshInj (A : Type) `{Borsh A} := to_vec_inj : Inj (=) (=) (to_vec (A:=A)).

Definition hex_digit (n : N) : N := if n <? 10 then 48 + n else 87 + n.
(** [hex::encode]. *)
Definition hex_encode (l : bytes) : bytes :=
  l ≫= λ b, [hex_digit (b / 16); hex_digit (b mod 16)].
Definition to_hex (h : Hash) : string := bytes_string (hex_encode (as_bytes h)).

(** [PublicKey::implicit_account_id]; [None] is the [expect] failing. *)
Definition implicit_account_id `{Blake3, Borsh PublicKey} (key : PublicKey) : option AccountId :=
  match AccountId_new (to_hex (digest (to_vec key))) with Ok id => Some id | Err _ => None end.

(** ** Hexadecimal ids are valid *)

Definition is_hex (b : N) : bool := is_ascii_digit b || ((97 <=? b) && (b <=? 102)).

Lemma hex_digit_is_hex n : n < 16 → is_hex (hex_digit n) = true.
Proof.
  intros Hn. unfold is_hex, is_ascii_digit, hex_digit. destruct (N.ltb_spec n 10).
  - apply orb_true_iff. left. apply andb_true_iff. rewrite !N.leb_le. lia.
  - apply orb_true_iff. right. apply andb_true_iff. rewrite !N.leb_le. lia.
Qed.
Lemma hex_encode_cons b l :
  hex_encode (b :: l) = hex_digit (b / 16) :: hex_digit (b mod 16) :: hex_encode l.
Proof. done. Qed.
Lemma hex_encode_hex l : Forall byte_ok l → Forall (λ b, is_hex b = true) (hex_encode l).
Proof.
  induction 1 as [|b l Hb _ IH]; [constructor|]. unfold byte_ok in Hb.
  assert (b / 16 < 16) by (apply N.Div0.div_lt_upper_bound; lia).
  assert (b mod 16 < 16) by (apply N.mod_lt; lia).
  repeat constructor; try (by apply hex_digit_is_hex). exact IH.
Qed.
Lemma length_hex_encode l : length (hex_encode l) = (2 * length l)%nat.
Proof. induction l; [done|]. rewrite hex_encode_cons. simpl. rewrite IHl. lia. Qed.

Lemma is_hex_char b : is_hex b = true → acc_char b = true ∧ is_sep b = false ∧ b < 256.
Proof.
  unfold is_hex, acc_char, is_sep, is_ascii_digit, is_ascii_lowercase.
  rewrite !orb_true_iff, !andb_true_iff, !N.leb_le, !orb_false_iff, !N.eqb_neq. lia.
Qed.
Lemma validate_chars_hex l p : Forall (λ b, is_hex b = true) l → validate_chars p l = Ok ().
Proof.
  intros H. revert p. induction H as [|b l Hb _ IH]; intros p; simpl; [done|].
  destruct (is_hex_char b Hb) as (-> & -> & _). simpl. apply IH.
Qed.

Lemma string_bytes_string l : Forall byte_ok l → string_bytes (bytes_string l) = l.
Proof. induction 1; simpl; [done|]. by rewrite N_ascii_embedding, IHForall. Qed.

Lemma string_bytes_to_hex h : string_bytes (to_hex h) = hex_encode (as_bytes h).
Proof.
  apply string_bytes_string. eapply Forall_impl.
  - apply hex_encode_hex, as_bytes_ok.
  - intros b Hb. by destruct (is_hex_char b Hb) as (_ & _ & ?).
Qed.

Lemma validate_to_hex h : validate (string_bytes (to_hex h)) = Ok ().
Proof.
  rewrite string_bytes_to_hex. pose proof (hex_encode_hex _ (as_bytes_ok h)) as Hx.
  pose proof (length_hex_encode (as_bytes h)) as Hl. rewrite length_as_bytes in Hl.
  unfold validate. rewrite Hl. simpl. set (l := hex_encode (as_bytes h)) in *.
  assert (∀ b, b ∈ l → is_sep b = false) as Hs.
  { intros b Hb. rewrite Forall_forall in Hx. by destruct (is_hex_char b (Hx b Hb)) as (_ & ? & _). }
  rewrite (validate_chars_hex l) by done.
  destruct (last l) as [y|] eqn:E; [apply last_Some in E as [l' ->]|by apply last_None in E as ->].
  simpl. rewrite (Hs y) by set_solver. destruct l' as [|x l']; simpl; [by rewrite (Hs y) by set_solver|].
  by rewrite (Hs x) by set_solver.
Qed.

(** The text of an implicit id is injective in the digest. *)
Lemma hex_digit_inj a b : a < 16 → b < 16 → hex_digit a = hex_digit b → a = b.
Proof. unfold hex_digit. intros. repeat case_match; rewrite ?N.ltb_lt, ?N.ltb_ge in *; lia. Qed.
Lemma hex_encode_inj l1 l2 :
  Forall byte_ok l1 → Forall byte_ok l2 → hex_encode l1 = hex_encode l2 → l1 = l2.
Proof.
  intros H1. revert l2. induction H1 as [|a l1 Ha _ IH]; intros l2 H2 E.
  - destruct H2; [done|]. discriminate E.
  - destruct H2 as [|b l2 Hb H2]; [discriminate E|]. rewrite !hex_encode_cons in E.
    injection E as Eh El Er. f_equal; [|by apply IH]. unfold byte_ok in *.
    apply hex_digit_inj in Eh; [|by apply N.Div0.div_lt_upper_bound..].
    apply hex_digit_inj in El; [|by apply N.mod_lt..].
    rewrite (N.div_mod a 16), (N.div_mod b 16); congruence.
Qed.
Lemma to_hex_inj h1 h2 : to_hex h1 = to_hex h2 → h1 = h2.
Proof.
  intros E%(f_equal string_bytes). rewrite !string_bytes_to_hex in E.
  apply as_bytes_inj, hex_encode_inj; [apply as_bytes_ok..|done].
Qed.

(** C39: every key has an implicit account id (the constructor never panics), the
    chain recognises it as implicit and therefore never lets it be registered as a
    name, and two keys share an id only if their encodings collide under the hash. *)
Theorem implicit_id_sound `{Blake3, Borsh PublicKey} (k : PublicKey) :
  ∃ id, implicit_account_id k = Some id ∧ is_implicit id = true ∧
    is_registrable_name id = false ∧
    ∀ k', implicit_account_id k' = Some id → digest (to_vec k) = digest (to_vec k').
Proof.
  unfold implicit_account_id. set (h := digest (to_vec k)).
  destruct (AccountId_build_valid (to_hex h) _ eq_refl) as [id Eid]; [by rewrite validate_to_hex|].
  assert (AccountId_new (to_hex h) = Ok id) as E by done.
  pose proof (AccountId_new_Ok _ _ E) as Es. rewrite E. exists id.
  assert (is_implicit id = true) as Hi.
  { unfold is_implicit, acc_bytes. rewrite Es, string_bytes_to_hex, length_hex_encode, length_as_bytes.
    simpl. apply forallb_forall. intros b Hb%list_elem_of_In.
    pose proof (hex_encode_hex _ (as_bytes_ok h)) as Hx. rewrite Forall_forall in Hx. by apply Hx. }
  split_and!; [done|done|unfold is_registrable_name; by rewrite Hi|].
  intros k'. destruct (AccountId_new (to_hex (digest (to_vec k')))) as [id'|] eqn:E'; [|done].
  intros [= ->]. apply AccountId_new_Ok in E'. apply to_hex_inj. congruence.
Qed.

(** ** A concrete digest for the examples

    A cheap byte-wise mix of the first two 32-byte blocks, the leading tag and the
    length of a string. *)
Module Toy.
Lemma bytes_wf (l : bytes) : length l = 32%nat → Forall byte_ok l → hash_wf l = true.
Proof.
  intros Hl Ho. unfold hash_wf. rewrite Hl. apply andb_true_iff. split; [done|].
  apply forallb_forall. intros b Hb%list_elem_of_In. rewrite Forall_forall in Ho.
  by apply N.ltb_lt, Ho.
Qed.
Lemma to_be_wf v : hash_wf (to_be 32 v) = true.
Proof. apply bytes_wf; [apply length_to_be|apply to_be_ok]. Qed.
Definition hash_of (v : N) : Hash := mkHash (to_be 32 v) (to_be_wf v).

(** [n] output bytes from two input streams, missing bytes read as zero. *)
Fixpoint mix (n : nat) (c : N) (l r : bytes) : bytes :=
  match n with
  | O => []
  | S n =>
      let a := default 0 (head l) in
      let b := default 0 (head r) in
      N.land (a + a + b + b + b + c) 255 :: mix n (c + b + 1) (tail l) (tail r)
  end.
Lemma length_mix n : ∀ c l r, length (mix n c l r) = n.
Proof. induction n as [|n IH]; intros; simpl; [done|]. by rewrite IH. Qed.
Lemma mix_ok n : ∀ c l r, Forall byte_ok (mix n c l r).
Proof.
  induction n as [|n IH]; intros; constructor; [|apply IH]. unfold byte_ok.
  change 255 with (N.ones 8). rewrite N.land_ones. by apply N.mod_lt.
Qed.
Definition mixed (l : bytes) : bytes :=
  mix 32 (N.of_nat (length l) + 7 * default 0 (head l)) (tail l) (drop 32 (tail l)).
Lemma mixed_wf l : hash_wf (mixed l) = true.
Proof. apply bytes_wf; [apply length_mix|apply mix_ok]. Qed.
Definition digest (l : bytes) : Hash := mkHash (mixed l) (mixed_wf l).
Instance blake3 : Blake3 := digest.
End Toy.
