(* ===== verification/Merkle.v ===== *)
(** * Binary Merkle trees (crates/crypto/src/merkle.rs)

    The ordered commitment to a block's transactions and receipts: root,
    inclusion proofs and their verification.  Completeness holds outright;
    binding and soundness are stated for the finitely many strings the functions
    hash, on which the digest must not collide ([no_break]). *)

From S2P Require Import Prelude Primitives Crypto.

Section merkle.
Context `{Blake3}.

Definition LEAF_PREFIX : N := 0.
Definition NODE_PREFIX : N := 1.

Definition leaf_preimage (leaf : Hash) : bytes := LEAF_PREFIX :: as_bytes leaf.
Definition node_preimage (l r : Hash) : bytes := NODE_PREFIX :: as_bytes l ++ as_bytes r.
Definition hash_leaf (leaf : Hash) : Hash := digest (leaf_preimage leaf).
Definition hash_node (l r : Hash) : Hash := digest (node_preimage l r).

(** One level: [level.chunks(2)], a lone last node promoted unchanged. *)
Fixpoint next_level {A} (node : A → A → A) (level : list A) : list A :=
  match level with
  | l :: r :: level => node l r :: next_level node level
  | lone => lone
  end.

(** The [while level.len() > 1] loop and the final [level[0]]. *)
Fixpoint root_loop {A} (node : A → A → A) (fuel : nat) (level : list A) : option A :=
  match level with
  | [] => None
  | [root] => Some root
  | _ => match fuel with
         | O => None
         | S fuel => root_loop node fuel (next_level node level)
         end
  end.

(** [length leaves] rounds are enough: every round at least shrinks the level
    by one. *)
Definition merkle_root (leaves : list Hash) : option Hash :=
  match leaves with
  | [] => Some (digest [LEAF_PREFIX])
  | _ => root_loop hash_node (length leaves) (hash_leaf <$> leaves)
  end.

Record MerkleStep := mkStep { sibling : Hash; sibling_is_left : bool }.

Fixpoint proof_loop (fuel : nat) (level : list Hash) (idx : nat) : option (list MerkleStep) :=
  if (length level <=? 1)%nat then Some []
  else
    match fuel with
    | O => None
    | S fuel =>
        let is_left := (idx mod 2 =? 1)%nat in
        let sibling_idx := if is_left then (idx - 1)%nat else (idx + 1)%nat in
        let step := match level !! sibling_idx with
                    | Some s => [mkStep s is_left]
                    | None => []
                    end in
        rest ← proof_loop fuel (next_level hash_node level) (idx / 2)%nat;
        Some (step ++ rest)
    end.

Definition merkle_proof (leaves : list Hash) (index : nat) : option (list MerkleStep) :=
  if (length leaves <=? index)%nat then None
  else proof_loop (length leaves) (hash_leaf <$> leaves) index.

Definition fold_step (acc : Hash) (step : MerkleStep) : Hash :=
  if sibling_is_left step then hash_node (sibling step) acc else hash_node acc (sibling step).
Definition verify_merkle_proof (leaf : Hash) (proof : list MerkleStep) (root : Hash) : bool :=
  Hash_eqb (foldl fold_step (hash_leaf leaf) proof) root.

(** ** Levels *)

Lemma length_next_level {A} (node : A → A → A) l :
  length (next_level node l) = ((length l + 1) / 2)%nat.
Proof.
  revert l. fix IH 1. intros [|a [|b l]]; [done..|]. simpl length. rewrite IH.
  replace (S (S (length l)) + 1)%nat with ((length l + 1) + 1 * 2)%nat by lia.
  rewrite Nat.div_add by lia. lia.
Qed.

Lemma next_level_shrinks {A} (node : A → A → A) l n :
  (1 < length l ≤ S n)%nat → (0 < length (next_level node l) ≤ n)%nat.
Proof.
  intros Hl. rewrite length_next_level.
  pose proof (Nat.div_mod_eq (length l + 1) 2). pose proof (Nat.mod_upper_bound (length l + 1) 2).
  lia.
Qed.

Lemma lookup_next_level {A} (node : A → A → A) l i a :
  l !! i = Some a →
  next_level node l !! (i / 2)%nat =
    if (i mod 2 =? 1)%nat then (λ s, node s a) <$> l !! (i - 1)%nat
    else Some (match l !! (i + 1)%nat with Some s => node a s | None => a end).
Proof.
  revert l i. fix IH 1. intros [|x [|y l]] i Hi; [done| |].
  - destruct i as [|i]; [by simplify_eq/=|done].
  - destruct i as [|[|i]]; [by simplify_eq/=..|].
    assert (S (S i) / 2 = S (i / 2) ∧ S (S i) mod 2 = i mod 2)%nat as [Ed Em].
    { replace (S (S i)) with (i + 1 * 2)%nat by lia.
      rewrite Nat.div_add, Nat.Div0.mod_add by lia. lia. }
    rewrite Ed, Em. transitivity (next_level node l !! (i / 2)%nat); [done|].
    simpl in Hi. rewrite (IH l i Hi). destruct (Nat.eqb_spec (i mod 2) 1) as [Hm|]; [|done].
    destruct i as [|i]; [done|]. replace (S (S (S i)) - 1)%nat with (S (S i)) by lia.
    by replace (S i - 1)%nat with i by lia.
Qed.

Lemma root_loop_total {A} (node : A → A → A) fuel l :
  (0 < length l ≤ fuel)%nat → ∃ r, root_loop node fuel l = Some r.
Proof.
  revert l. induction fuel as [|fuel IH]; intros [|a [|b l]] Hl; simpl in *; eauto; try lia.
  apply IH. apply (next_level_shrinks node (a :: b :: l)). simpl. lia.
Qed.

Lemma Hash_eqb_true x y : Hash_eqb x y = true ↔ x = y.
Proof.
  unfold Hash_eqb. rewrite bool_decide_eq_true. split; [apply as_bytes_inj|by intros ->].
Qed.

Lemma proof_loop_complete fuel l i a r :
  (length l ≤ fuel)%nat → l !! i = Some a → root_loop hash_node fuel l = Some r →
  ∃ p, proof_loop fuel l i = Some p ∧ foldl fold_step a p = r.
Proof.
  revert l i a. induction fuel as [|fuel IH]; intros l i a Hl Hi Hr.
  { destruct l; [done|simpl in Hl; lia]. }
  destruct l as [|x [|y l]]; [done| |].
  - destruct i as [|i]; [|done]. simplify_eq/=. by exists [].
  - set (lv := x :: y :: l) in *.
    assert ((length lv <=? 1)%nat = false) as E1 by done.
    change (root_loop hash_node fuel (next_level hash_node lv) = Some r) in Hr.
    cbn [proof_loop]. rewrite E1. pose proof (lookup_next_level hash_node lv i a Hi) as Hn.
    pose proof (next_level_shrinks hash_node lv fuel ltac:(simpl in *; lia)) as [_ Hs].
    destruct (Nat.eqb_spec (i mod 2) 1) as [Hm|Hm].
    + destruct (lookup_lt_is_Some_2 lv (i - 1)) as [s Es].
      { apply lookup_lt_Some in Hi. lia. }
      rewrite Es in Hn |- *.
      change (next_level hash_node lv !! (i / 2)%nat = Some (hash_node s a)) in Hn.
      destruct (IH _ _ _ Hs Hn Hr) as (p & -> & Hp). by eexists.
    + destruct (lv !! (i + 1)%nat) as [s|] eqn:Es;
        destruct (IH _ _ _ Hs Hn Hr) as (p & -> & Hp); by eexists.
Qed.

(** Every leaf of every list has an inclusion proof, and it verifies
    against the list's root; roots always exist. *)
Theorem merkle_complete (leaves : list Hash) (i : nat) (leaf : Hash) :
  leaves !! i = Some leaf →
  ∃ root proof, merkle_root leaves = Some root ∧ merkle_proof leaves i = Some proof ∧
    verify_merkle_proof leaf proof root = true.
Proof.
  intros Hi. pose proof (lookup_lt_Some _ _ _ Hi) as Hlt.
  destruct (root_loop_total hash_node (length leaves) (hash_leaf <$> leaves)) as [r Hr].
  { rewrite length_fmap. lia. }
  destruct (proof_loop_complete (length leaves) (hash_leaf <$> leaves) i (hash_leaf leaf) r)
    as (p & Hp & Hf); [by rewrite length_fmap|by rewrite list_lookup_fmap, Hi|done|].
  exists r, p. split_and!.
  - destruct leaves; done.
  - unfold merkle_proof. by rewrite (proj2 (Nat.leb_gt _ _)).
  - by apply Hash_eqb_true.
Qed.

(** ** Binding

    A run of [merkle_root] builds one tree of hashes; [tree_hashed] lists the
    strings it hashes. *)

Inductive tree := L (leaf : Hash) | Nd (l r : tree).
Fixpoint ev (t : tree) : Hash :=
  match t with L h => hash_leaf h | Nd l r => hash_node (ev l) (ev r) end.
Fixpoint fringe (t : tree) : list Hash :=
  match t with L h => [h] | Nd l r => fringe l ++ fringe r end.
Fixpoint tree_hashed (t : tree) : list bytes :=
  match t with
  | L h => [leaf_preimage h]
  | Nd l r => node_preimage (ev l) (ev r) :: tree_hashed l ++ tree_hashed r
  end.
Definition merkle_tree (leaves : list Hash) : option tree :=
  root_loop Nd (length leaves) (L <$> leaves).
(** The strings [merkle_root] hashes. *)
Definition merkle_hashed (leaves : list Hash) : list bytes :=
  match leaves with
  | [] => [[LEAF_PREFIX]]
  | _ => match merkle_tree leaves with Some t => tree_hashed t | None => [] end
  end.
(** The strings [verify_merkle_proof] hashes. *)
Fixpoint fold_hashed (acc : Hash) (proof : list MerkleStep) : list bytes :=
  match proof with
  | [] => []
  | s :: proof =>
      (if sibling_is_left s then node_preimage (sibling s) acc else node_preimage acc (sibling s))
        :: fold_hashed (fold_step acc s) proof
  end.
Definition proof_hashed (leaf : Hash) (proof : list MerkleStep) : list bytes :=
  leaf_preimage leaf :: fold_hashed (hash_leaf leaf) proof.

Lemma node_preimage_inj l r l' r' :
  node_preimage l r = node_preimage l' r' → l = l' ∧ r = r'.
Proof.
  intros [= E]. apply app_inj_1 in E as [E1 E2]; [|by rewrite !length_as_bytes].
  by split; apply as_bytes_inj.
Qed.
Lemma leaf_preimage_inj x y : leaf_preimage x = leaf_preimage y → x = y.
Proof. intros [= E]. by apply as_bytes_inj. Qed.

Lemma next_level_ev ts : ev <$> next_level Nd ts = next_level hash_node (ev <$> ts).
Proof. revert ts. fix IH 1. intros [|a [|b l]]; [done..|]. simpl. f_equal. apply IH. Qed.
Lemma root_loop_ev fuel ts :
  root_loop hash_node fuel (ev <$> ts) = ev <$> root_loop Nd fuel ts.
Proof.
  revert ts. induction fuel as [|fuel IH]; intros [|a [|b l]]; try done.
  change (root_loop hash_node fuel (next_level hash_node (ev <$> a :: b :: l))
    = ev <$> root_loop Nd fuel (next_level Nd (a :: b :: l))).
  by rewrite <- next_level_ev, IH.
Qed.
Lemma next_level_fringe ts : next_level Nd ts ≫= fringe = ts ≫= fringe.
Proof.
  revert ts. fix IH 1. intros [|a [|b l]]; [done..|].
  change (fringe (Nd a b) ++ (next_level Nd l ≫= fringe) = fringe a ++ fringe b ++ (l ≫= fringe)).
  simpl fringe. by rewrite IH, (assoc_L (++)).
Qed.
Lemma root_loop_fringe fuel ts t : root_loop Nd fuel ts = Some t → fringe t = ts ≫= fringe.
Proof.
  revert ts. induction fuel as [|fuel IH]; intros [|a [|b l]] Ht; try done;
    try (injection Ht as <-; symmetry; apply app_nil_r).
  apply IH in Ht. by rewrite next_level_fringe in Ht.
Qed.

Lemma fringe_leaves leaves : (L <$> leaves) ≫= fringe = leaves.
Proof. induction leaves as [|a l IH]; [done|]. by rewrite <- IH at 2. Qed.

Lemma merkle_root_tree leaves :
  leaves ≠ [] →
  ∃ t, merkle_root leaves = Some (ev t) ∧ fringe t = leaves ∧ merkle_hashed leaves = tree_hashed t.
Proof.
  intros Hne. destruct (root_loop_total Nd (length leaves) (L <$> leaves)) as [t Ht].
  { rewrite length_fmap. destruct leaves; [done|]. simpl. lia. }
  exists t. split_and!.
  - transitivity (root_loop hash_node (length leaves) (ev <$> (L <$> leaves))).
    + rewrite <- list_fmap_compose. by destruct leaves.
    + by rewrite root_loop_ev, Ht.
  - rewrite (root_loop_fringe _ _ _ Ht). apply fringe_leaves.
  - unfold merkle_hashed, merkle_tree. rewrite Ht. by destruct leaves.
Qed.

Lemma tree_hashed_head t : ∃ x, x ∈ tree_hashed t ∧ ev t = digest x ∧
  match t with L h => x = leaf_preimage h | Nd l r => x = node_preimage (ev l) (ev r) end.
Proof. destruct t; eexists; (split; [by left|done]). Qed.

Lemma ev_binding t1 t2 : no_break (tree_hashed t1 ++ tree_hashed t2) → ev t1 = ev t2 → t1 = t2.
Proof.
  revert t2. induction t1 as [h1|l1 IHl r1 IHr]; intros t2 Hb E.
  - destruct t2 as [h2|l2 r2].
    + f_equal. apply leaf_preimage_inj. apply Hb; [set_solver|set_solver|done].
    + assert (leaf_preimage h1 = node_preimage (ev l2) (ev r2)); [|done].
      apply Hb; [set_solver|set_solver|done].
  - destruct t2 as [h2|l2 r2].
    + assert (node_preimage (ev l1) (ev r1) = leaf_preimage h2); [|done].
      apply Hb; [set_solver|set_solver|done].
    + assert (node_preimage (ev l1) (ev r1) = node_preimage (ev l2) (ev r2)) as Ep.
      { apply Hb; [set_solver|set_solver|done]. }
      apply node_preimage_inj in Ep as [El Er]. f_equal.
      * apply IHl; [|done]. eapply no_break_mono; [|exact Hb]. simpl. set_solver.
      * apply IHr; [|done]. eapply no_break_mono; [|exact Hb]. simpl. set_solver.
Qed.

Lemma ev_not_empty t : no_break ([LEAF_PREFIX] :: tree_hashed t) → digest [LEAF_PREFIX] ≠ ev t.
Proof.
  intros [Hi _] E. destruct (tree_hashed_head t) as (x & Hx & Et & Hs). rewrite Et in E.
  apply Hi in E; [|set_solver..]. subst x. destruct t as [h|l r]; [|done].
  apply (f_equal length) in Hs. unfold leaf_preimage in Hs. simpl in Hs.
  rewrite length_as_bytes in Hs. done.
Qed.

(** A root commits to the whole ordered list.  Two lists with one root are
    equal, unless the strings hashed to build the two trees contain a collision. *)
Theorem merkle_binding (l1 l2 : list Hash) :
  no_break (merkle_hashed l1 ++ merkle_hashed l2) → merkle_root l1 = merkle_root l2 → l1 = l2.
Proof.
  intros Hb E. destruct (decide (l1 = [])) as [->|H1], (decide (l2 = [])) as [->|H2]; [done|..].
  - destruct (merkle_root_tree l2 H2) as (t & Et & _ & Eh). rewrite Et, Eh in *.
    injection E as E. by destruct (ev_not_empty t Hb).
  - destruct (merkle_root_tree l1 H1) as (t & Et & _ & Eh). rewrite Et, Eh in *.
    injection E as E. destruct (ev_not_empty t); [|done].
    eapply no_break_mono; [|exact Hb]. simpl. set_solver.
  - destruct (merkle_root_tree l1 H1) as (t1 & E1 & <- & Eh1).
    destruct (merkle_root_tree l2 H2) as (t2 & E2 & <- & Eh2).
    rewrite E1, E2, Eh1, Eh2 in *. injection E as E. f_equal. by apply ev_binding.
Qed.

(** Reading a verified path from the root down. *)
Lemma fold_path_sound proof acc t :
  no_break (tree_hashed t ++ fold_hashed acc proof) →
  foldl fold_step acc proof = ev t →
  ∃ t', acc = ev t' ∧ tree_hashed t' ⊆ tree_hashed t ∧ fringe t' ⊆ fringe t.
Proof.
  revert acc t. induction proof as [|s proof IH]; intros acc t Hb E; simpl in *.
  { by exists t. }
  destruct (IH (fold_step acc s) t) as (t' & Et & Hh & Hf); [|done|].
  { eapply no_break_mono; [|exact Hb]. set_solver. }
  destruct (tree_hashed_head t') as (x & Hx & Edx & Hs).
  assert ((if sibling_is_left s then node_preimage (sibling s) acc
           else node_preimage acc (sibling s)) = x) as Ep.
  { apply (proj1 Hb); [set_solver|set_solver|]. rewrite <- Edx, <- Et. unfold fold_step.
    by destruct (sibling_is_left s). }
  destruct t' as [h|l r]; rewrite Hs in Ep; [by destruct (sibling_is_left s)|]. simpl in Hh, Hf.
  destruct (sibling_is_left s); apply node_preimage_inj in Ep as [E1 E2].
  - exists r. split_and!; [done|set_solver|set_solver].
  - exists l. split_and!; [done|set_solver|set_solver].
Qed.

(** An accepted inclusion proof is true.  If a proof verifies against the
    root of a list, the leaf is in the list, unless the strings hashed to build
    the tree and to check the proof contain a collision. *)
Theorem merkle_proof_sound (leaves : list Hash) (root leaf : Hash) (proof : list MerkleStep) :
  merkle_root leaves = Some root →
  no_break (merkle_hashed leaves ++ proof_hashed leaf proof) →
  verify_merkle_proof leaf proof root = true → leaf ∈ leaves.
Proof.
  intros Hr Hb Hv%Hash_eqb_true. destruct (decide (leaves = [])) as [->|Hne].
  - exfalso. injection Hr as <-. destruct proof as [|s proof] using rev_ind.
    + apply (proj1 Hb) in Hv; [|set_solver..]. apply (f_equal length) in Hv.
      unfold leaf_preimage in Hv. simpl in Hv. rewrite length_as_bytes in Hv. done.
    + rewrite foldl_app in Hv. simpl in Hv.
      set (a := foldl fold_step (hash_leaf leaf) proof) in *.
      assert (∀ p acc, fold_hashed acc (p ++ [s]) = fold_hashed acc p ++
        [if sibling_is_left s then node_preimage (sibling s) (foldl fold_step acc p)
         else node_preimage (foldl fold_step acc p) (sibling s)]) as Hfh.
      { induction p as [|q p IHp]; intros acc; simpl; [done|]. by rewrite IHp. }
      unfold proof_hashed in Hb. rewrite Hfh in Hb. fold a in Hb.
      unfold fold_step in Hv. destruct (sibling_is_left s);
        apply (proj1 Hb) in Hv; try done; set_solver.
  - destruct (merkle_root_tree leaves Hne) as (t & Et & <- & Eh).
    rewrite Et in Hr. injection Hr as <-. rewrite Eh in Hb.
    destruct (fold_path_sound proof (hash_leaf leaf) t) as (t' & Ea & Hh & Hf); [|done|].
    { eapply no_break_mono; [|exact Hb]. unfold proof_hashed. set_solver. }
    destruct (tree_hashed_head t') as (x & Hx & Edx & Hs).
    assert (leaf_preimage leaf = x) as <-.
    { apply Hb; [unfold proof_hashed; set_solver|set_solver|]. by transitivity (ev t'). }
    destruct t' as [h|l r]; [|done]. apply leaf_preimage_inj in Hs as ->. set_solver.
Qed.
End merkle.

(** ** Concrete runs *)
Module Merkle_examples.
Import Crypto.Toy.
Definition leaves3 : list Hash := [hash_of 11; hash_of 22; hash_of 33].
Definition proof1 : list MerkleStep := default [] (merkle_proof leaves3 1).
Definition root3 : Hash := default Hash_ZERO (merkle_root leaves3).

Lemma merkle_complete_witness :
  ∃ root proof, merkle_root leaves3 = Some root ∧ merkle_proof leaves3 1 = Some proof ∧
    verify_merkle_proof (hash_of 22) proof root = true.
Proof. exact (merkle_complete leaves3 1 (hash_of 22) eq_refl). Defined.
Lemma merkle_binding_witness :
  no_break (merkle_hashed leaves3 ++ merkle_hashed leaves3) ∧ leaves3 = leaves3.
Proof.
  assert (no_break (merkle_hashed leaves3 ++ merkle_hashed leaves3)) as Hb
    by (apply no_breakb_sound; by vm_compute).
  split; [exact Hb|]. exact (merkle_binding leaves3 leaves3 Hb eq_refl).
Defined.
Lemma merkle_proof_sound_witness : hash_of 22 ∈ leaves3.
Proof.
  refine (merkle_proof_sound leaves3 root3 (hash_of 22) proof1 _ _ _).
  - by vm_compute.
  - apply no_breakb_sound. by vm_compute.
  - by vm_compute.
Defined.
End Merkle_examples.
