(* ===== verification/Entropy.v ===== *)
(** * Entropy health tests (crates/crypto/src/rng.rs)

    The one-shot test of the operating system's generator, its latched verdict, and
    drawing through it.  The generator is an argument: what each call returns. *)

From S2P Require Import Prelude Primitives Crypto.
#[local] Open Scope N_scope.

Module Entropy.

Definition STARTUP_TEST_BYTES : N := 8192.
Definition RCT_CUTOFF : N := 7.
Definition APT_WINDOW : nat := 512.
Definition APT_CUTOFF : N := 20.

Inductive HealthFailure := Stuck | Repetition | Proportion | Coverage | Pattern | Bias.
Inductive EntropyError := Source | HealthCheck (f : HealthFailure).

(** [true] when some value has been seen [RCT_CUTOFF] times in a row; [run] counts the
    run that ends at [last]. *)
Fixpoint repeats (last : N) (run : N) (samples : bytes) : bool :=
  match samples with
  | [] => false
  | b :: samples =>
      if last =? b then
        if RCT_CUTOFF <=? run + 1 then true else repeats b (run + 1) samples
      else repeats b 1 samples
  end.

(** [chunks_exact]: the full windows; one turn per window. *)
Fixpoint chunks (fuel : nat) (samples : bytes) : list bytes :=
  match fuel with
  | O => []
  | S fuel =>
      if bool_decide (length samples < APT_WINDOW)%nat then []
      else take APT_WINDOW samples :: chunks fuel (drop APT_WINDOW samples)
  end.
Definition windows (samples : bytes) : list bytes := chunks (length samples) samples.
(** The 256 counters of a window. *)
Definition counts (window : bytes) : list N :=
  foldl (λ (c : list N) (b : N), alter N.succ (N.to_nat b) c) (replicate 256 0) window.
Definition max_of (l : list N) : N := foldr N.max 0 l.
Definition max_window_count (samples : bytes) : N :=
  foldl (λ m w, N.max m (max_of (counts w))) 0 (windows samples).

Definition seen_all (samples : bytes) : bool :=
  forallb (λ s : bool, s) (foldl (λ (seen : list bool) (b : N), <[N.to_nat b := true]> seen) (replicate 256 false) samples).
(** Consecutive differences, wrapping. *)
Fixpoint deltas (samples : bytes) : bytes :=
  match samples with
  | a :: ((b :: _) as samples) => (b + 256 - a) mod 256 :: deltas samples
  | _ => []
  end.
Definition count_ones (b : N) : N := foldr N.add 0 ((λ i, N.b2n (N.testbit b (N.of_nat i))) <$> seq 0 8).
Definition ones (samples : bytes) : N := foldr N.add 0 (count_ones <$> samples).
Definition abs_diff (a b : N) : N := if a <? b then b - a else a - b.

(** The squares stay below 2{^64} for any buffer under 2{^28} bytes; the caller's has 8192. *)
Definition health_check (samples : bytes) : result HealthFailure unit :=
  match samples with
  | [] => Err Stuck
  | first :: rest =>
      if forallb (λ b, b =? first) samples then Err Stuck
      else if repeats first 1 rest then Err Repetition
      else if APT_CUTOFF <=? max_window_count samples then Err Proportion
      else if (STARTUP_TEST_BYTES <=? N.of_nat (length samples)) && negb (seen_all samples) then Err Coverage
      else if APT_CUTOFF <=? max_window_count (deltas samples) then Err Pattern
      else
        let n_bits := N.of_nat (length samples) * 8 in
        let dev := abs_diff (ones samples) (n_bits / 2) in
        if 25 * n_bits <? 4 * dev * dev then Err Bias else Ok ()
  end.

(** The verdict is computed at the first call and kept; [startup] is what the generator
    returns for that call's buffer. *)
Definition latch : Type := option (result EntropyError unit).
Definition ensure_healthy (l : latch) (startup : option bytes) : latch * result EntropyError unit :=
  match l with
  | Some verdict => (l, verdict)
  | None =>
      let verdict :=
        match startup with
        | None => Err Source
        | Some buf => map_err HealthCheck (health_check buf)
        end in
      (Some verdict, verdict)
  end.
Definition fill_secure (l : latch) (startup drawn : option bytes) : latch * result EntropyError bytes :=
  match ensure_healthy l startup with
  | (l, Err e) => (l, Err e)
  | (l, Ok _) => (l, match drawn with Some b => Ok b | None => Err Source end)
  end.

(** Calls in order, each with what the generator would return for the start-up buffer
    and for the draw. *)
Fixpoint draws (l : latch) (calls : list (option bytes * option bytes)) : list (result EntropyError bytes) :=
  match calls with
  | [] => []
  | (startup, drawn) :: calls => let '(l, r) := fill_secure l startup drawn in r :: draws l calls
  end.

(** ** What the tests accept *)

Definition count_in (b : N) (l : bytes) : N := N.of_nat (length (filter (λ x, x = b) l)).
(** No value occurs [APT_CUTOFF] times in a full window. *)
Definition proportionate (samples : bytes) : Prop :=
  ∀ i b, ((i + 1) * APT_WINDOW ≤ length samples)%nat →
    count_in b (take APT_WINDOW (drop (i * APT_WINDOW) samples)) < APT_CUTOFF.
(** No [RCT_CUTOFF] consecutive samples are equal. *)
Definition no_runs (samples : bytes) : Prop :=
  ∀ i b, ¬ ∀ j, (j < 7)%nat → samples !! (i + j)%nat = Some b.
(** The ones differ from half of the bits by at most five standard deviations. *)
Definition balanced (samples : bytes) : Prop :=
  let n := (8 * Z.of_nat (length samples))%Z in ((2 * Z.of_N (ones samples) - n) * (2 * Z.of_N (ones samples) - n) ≤ 25 * n)%Z.
Record healthy (samples : bytes) : Prop := {
  h_varied : ∃ a b, a ∈ samples ∧ b ∈ samples ∧ a ≠ b;
  h_runs : no_runs samples;
  h_values : proportionate samples;
  h_covered : STARTUP_TEST_BYTES ≤ N.of_nat (length samples) → ∀ b, b < 256 → b ∈ samples;
  h_steps : proportionate (deltas samples);
  h_balanced : balanced samples }.

Lemma window_pos : (0 < APT_WINDOW)%nat.
Proof. unfold APT_WINDOW. lia. Qed.
#[local] Opaque APT_WINDOW STARTUP_TEST_BYTES.

Lemma chunks_spec fuel : ∀ samples w, (length samples ≤ fuel)%nat →
  w ∈ chunks fuel samples ↔
  ∃ i, ((i + 1) * APT_WINDOW ≤ length samples)%nat ∧ w = take APT_WINDOW (drop (i * APT_WINDOW) samples).
Proof.
  pose proof window_pos as Hw. induction fuel as [|fuel IH]; intros samples w Hf; cbn [chunks].
  { split; [intros []%elem_of_nil|]. intros (i & Hi & _). nia. }
  case_bool_decide as Hl.
  { split; [intros []%elem_of_nil|]. intros (i & Hi & _). nia. }
  rewrite elem_of_cons, IH by (rewrite length_drop; lia). rewrite length_drop. split.
  - intros [->|(i & Hi & ->)]; [exists 0%nat; rewrite drop_0; split; [lia|done]|].
    exists (S i). rewrite drop_drop. split; [nia|]. f_equal.
  - intros ([|i] & Hi & ->); [left; by rewrite drop_0|]. right. exists i. rewrite drop_drop. split; [nia|]. f_equal.
Qed.
Lemma counts_lookup w i : (i < 256)%nat → counts w !! i = Some (count_in (N.of_nat i) w).
Proof.
  intros Hi. unfold counts. assert (∀ c, foldl (λ (c : list N) (b : N), alter N.succ (N.to_nat b) c) c w !! i
    = (λ x, x + count_in (N.of_nat i) w) <$> c !! i) as H.
  { induction w as [|b w IH]; intros c; cbn [foldl].
    { unfold count_in. cbn. destruct (c !! i) as [x|]; [|done]. cbn. f_equal. lia. }
    rewrite IH. unfold count_in. destruct (decide (N.to_nat b = i)) as [<-|Hne].
    - rewrite list_lookup_alter_eq, N2Nat.id, filter_cons_True by done. destruct (c !! _); [|done]. cbn. f_equal. lia.
    - rewrite list_lookup_alter_ne, filter_cons_False by (done || lia). done. }
  rewrite H, lookup_replicate_2 by done. cbn. f_equal.
Qed.
Lemma length_counts w : length (counts w) = 256%nat.
Proof.
  unfold counts. assert (∀ c, length (foldl (λ (c : list N) (b : N), alter N.succ (N.to_nat b) c) c w) = length c) as H.
  { induction w as [|b w IH]; intros c; [done|]. cbn [foldl]. by rewrite IH, length_alter. }
  by rewrite H, length_replicate.
Qed.
Lemma max_of_lt l k : 0 < k → max_of l < k ↔ ∀ x, x ∈ l → x < k.
Proof.
  intros Hk. induction l as [|y l IH]; cbn [max_of foldr]; [split; [intros _ x []%elem_of_nil|done]|].
  fold (max_of l). rewrite N.max_lub_lt_iff, IH. setoid_rewrite elem_of_cons. naive_solver.
Qed.
Lemma max_counts w k : 0 < k → Forall byte_ok w → max_of (counts w) < k ↔ ∀ b, count_in b w < k.
Proof.
  intros Hk Hw. rewrite max_of_lt by done. split.
  - intros Hm b. destruct (N.lt_ge_cases b 256) as [Hb|Hb].
    + apply Hm, list_elem_of_lookup. exists (N.to_nat b). rewrite counts_lookup by lia. by rewrite N2Nat.id.
    + unfold count_in. destruct (filter (λ x, x = b) w) as [|y l] eqn:E; [done|exfalso].
      assert (y ∈ filter (λ x, x = b) w) as [-> Hy]%list_elem_of_filter by (rewrite E; left).
      rewrite Forall_forall in Hw. specialize (Hw _ Hy). unfold byte_ok in Hw. lia.
  - intros Hc x [i Hi]%list_elem_of_lookup. pose proof (lookup_lt_Some _ _ _ Hi) as Hl. rewrite length_counts in Hl.
    rewrite counts_lookup in Hi by done. injection Hi as <-. apply Hc.
Qed.
Lemma foldl_max_lt {A} (f : A → N) l k : ∀ m, foldl (λ m w, N.max m (f w)) m l < k ↔ m < k ∧ ∀ w, w ∈ l → f w < k.
Proof.
  induction l as [|x l IH]; intros m; cbn [foldl].
  { split; [|tauto]. intros Hm. split; [done|]. intros w []%elem_of_nil. }
  rewrite IH, N.max_lub_lt_iff. setoid_rewrite elem_of_cons. naive_solver.
Qed.
Lemma max_window_count_ok samples : Forall byte_ok samples →
  (APT_CUTOFF <=? max_window_count samples) = false ↔ proportionate samples.
Proof.
  intros Hs. rewrite N.leb_gt. unfold max_window_count, proportionate. rewrite foldl_max_lt. split.
  - intros [_ Hm] i b Hi. apply max_counts; [done|by apply Forall_take, Forall_drop|]. apply Hm, chunks_spec; [done|]. by exists i.
  - intros Hp. split; [done|]. intros w Hw. apply chunks_spec in Hw as (i & Hi & ->); [|done].
    apply max_counts; [done|by apply Forall_take, Forall_drop|]. intros b. by apply Hp.
Qed.

Lemma repeats_ok samples : ∀ last run, 1 ≤ run → run < RCT_CUTOFF →
  repeats last run samples = false ↔ no_runs (replicate (N.to_nat run) last ++ samples).
Proof.
  unfold RCT_CUTOFF. induction samples as [|b samples IH]; intros last run H1 H7; cbn [repeats]; unfold RCT_CUTOFF.
  { split; [|done]. intros _ i x Hr. specialize (Hr 6%nat ltac:(lia)). apply lookup_lt_Some in Hr.
    rewrite app_nil_r, length_replicate in Hr. lia. }
  destruct (N.eqb_spec last b) as [->|Hne].
  - assert (replicate (N.to_nat run) b ++ b :: samples = replicate (N.to_nat (run + 1)) b ++ samples) as Er.
    { rewrite cons_middle, app_assoc. f_equal. rewrite N.add_1_r, N2Nat.inj_succ. by rewrite replicate_S_end. }
    rewrite Er. destruct (N.leb_spec 7 (run + 1)) as [Hc|Hc]; [|apply IH; lia].
    split; [done|]. intros Hn. exfalso. apply (Hn 0%nat b). intros j Hj. rewrite lookup_app_l by (rewrite length_replicate; lia).
    apply lookup_replicate_2. lia.
  - rewrite IH by lia. change (replicate (N.to_nat 1) b ++ samples) with (b :: samples). split; intros Hn i x Hr.
    + destruct (decide (i < N.to_nat run)%nat) as [Hi|Hi].
      * assert (x = last) as ->.
        { specialize (Hr 0%nat ltac:(lia)). rewrite Nat.add_0_r, lookup_app_l in Hr by (rewrite length_replicate; lia).
          apply lookup_replicate in Hr as [-> _]. done. }
        specialize (Hr (N.to_nat run - i)%nat ltac:(lia)). rewrite lookup_app_r in Hr by (rewrite length_replicate; lia).
        rewrite length_replicate in Hr. replace (i + (N.to_nat run - i) - N.to_nat run)%nat with 0%nat in Hr by lia.
        injection Hr as ->. done.
      * apply (Hn (i - N.to_nat run)%nat x). intros j Hj. specialize (Hr j Hj).
        rewrite lookup_app_r in Hr by (rewrite length_replicate; lia). rewrite length_replicate in Hr.
        replace (i - N.to_nat run + j)%nat with (i + j - N.to_nat run)%nat by lia. done.
    + apply (Hn (N.to_nat run + i)%nat x). intros j Hj. specialize (Hr j Hj).
      rewrite lookup_app_r by (rewrite length_replicate; lia). rewrite length_replicate.
      replace (N.to_nat run + i + j - N.to_nat run)%nat with (i + j)%nat by lia. done.
Qed.
Lemma seen_all_ok samples : seen_all samples = true ↔ ∀ b, b < 256 → b ∈ samples.
Proof.
  unfold seen_all. set (step := λ (seen : list bool) (b : N), <[N.to_nat b := true]> seen).
  assert (∀ c i, length c = 256%nat → (i < 256)%nat →
    foldl step c samples !! i = (if bool_decide (N.of_nat i ∈ samples) then Some true else c !! i) ∧
    length (foldl step c samples) = 256%nat) as H.
  { induction samples as [|b samples IH]; intros c i Hc Hi; cbn [foldl]; [done|].
    destruct (IH (step c b) i) as [E1 E2]; [by unfold step; rewrite length_insert|done|]. split; [|done]. rewrite E1.
    repeat case_bool_decide; try done; rewrite ?elem_of_cons in *; unfold step.
    - tauto.
    - assert (N.of_nat i = b) as <- by tauto. rewrite Nat2N.id, list_lookup_insert_eq by lia. done.
    - rewrite list_lookup_insert_ne; [done|]. intros <-. rewrite N2Nat.id in *. tauto. }
  rewrite forallb_forall. split.
  - intros Ht b Hb. destruct (H (replicate 256 false) (N.to_nat b)) as [E _]; [apply length_replicate|lia|].
    rewrite N2Nat.id in E. case_bool_decide as Hin; [done|]. rewrite lookup_replicate_2 in E by lia.
    assert (false = true); [|done]. apply Ht, list_elem_of_In, list_elem_of_lookup. by eexists.
  - intros Hc x [i Hi]%list_elem_of_In%list_elem_of_lookup. pose proof (lookup_lt_Some _ _ _ Hi) as Hl.
    destruct (H (replicate 256 false) 0%nat) as [_ El]; [apply length_replicate|lia|]. rewrite El in Hl.
    destruct (H (replicate 256 false) i) as [E _]; [apply length_replicate|done|]. rewrite Hi in E.
    rewrite bool_decide_true in E by (apply Hc; lia). by injection E.
Qed.
Lemma deltas_ok samples : Forall byte_ok (deltas samples).
Proof.
  induction samples as [|a [|b samples] IH]; [constructor..|]. cbn [deltas]. constructor; [|done]. unfold byte_ok. by apply N.mod_lt.
Qed.
Lemma balanced_ok samples : let n := N.of_nat (length samples) * 8 in
  (25 * n <? 4 * abs_diff (ones samples) (n / 2) * abs_diff (ones samples) (n / 2)) = false ↔ balanced samples.
Proof.
  intros n. rewrite N.ltb_ge. unfold balanced. assert (n / 2 = 4 * N.of_nat (length samples)) as Hn.
  { unfold n. replace (N.of_nat (length samples) * 8) with (4 * N.of_nat (length samples) * 2) by lia. by apply N.div_mul. }
  rewrite Hn. unfold abs_diff, n. set (o := ones samples). set (k := N.of_nat (length samples)).
  assert (Z.of_nat (length samples) = Z.of_N k) as -> by lia.
  destruct (N.ltb_spec o (4 * k)); split; nia.
Qed.

(** The start-up test accepts exactly the healthy buffers: not constant, no seven
    equal bytes in a row, no value twenty times in a full window of 512 bytes nor
    among the differences of neighbours, every value present in a full buffer, and the
    number of one bits within five standard deviations of half. *)
Theorem health_check_exact samples : Forall byte_ok samples → health_check samples = Ok () ↔ healthy samples.
Proof.
  intros Hb. destruct samples as [|first rest] eqn:Es.
  { split; [done|]. intros [(a & _ & []%elem_of_nil & _)]. }
  cbn [health_check]. rewrite <- Es in Hb |- *.
  assert (forallb (λ b, b =? first) samples = false ↔ ∃ a b, a ∈ samples ∧ b ∈ samples ∧ a ≠ b) as H1.
  { rewrite <- not_true_iff_false, forallb_forall. split.
    - intros Hn. destruct (decide (Forall (λ b, b = first) samples)) as [Hf|Hf].
      + exfalso. apply Hn. intros x Hx%list_elem_of_In. rewrite Forall_forall in Hf. by apply N.eqb_eq, Hf.
      + apply not_Forall_Exists, Exists_exists in Hf as (b & Hin & Hne); [|apply _]. exists b, first. subst samples. split_and!; [done|left|done].
    - intros (a & b & Ha & Hb' & Hne) Hf. apply Hne. apply list_elem_of_In in Ha, Hb'. apply Hf, N.eqb_eq in Ha, Hb'. congruence. }
  assert (repeats first 1 rest = false ↔ no_runs samples) as H2 by (subst samples; by apply repeats_ok).
  pose proof (max_window_count_ok samples Hb) as H3. pose proof (max_window_count_ok _ (deltas_ok samples)) as H5.
  assert ((STARTUP_TEST_BYTES <=? N.of_nat (length samples)) && negb (seen_all samples) = false ↔
    (STARTUP_TEST_BYTES ≤ N.of_nat (length samples) → ∀ b, b < 256 → b ∈ samples)) as H4.
  { rewrite <- seen_all_ok. destruct (N.leb_spec STARTUP_TEST_BYTES (N.of_nat (length samples))), (seen_all samples); cbn; split;
      intros; try done; try lia; exfalso; naive_solver. }
  pose proof (balanced_ok samples) as H6. cbn zeta in H6 |- *.
  destruct (forallb _ samples); [split; [done|intros []; naive_solver]|]. destruct (repeats _ _ _); [split; [done|intros []; naive_solver]|].
  destruct (APT_CUTOFF <=? max_window_count samples); [split; [done|intros []; naive_solver]|].
  destruct (_ && negb _); [split; [done|intros []; naive_solver]|].
  destruct (APT_CUTOFF <=? max_window_count (deltas samples)); [split; [done|intros []; naive_solver]|].
  destruct (_ <? _); [split; [done|intros []; naive_solver]|]. split; [intros _|done]. by split; naive_solver.
Qed.

(** Drawing fails closed.  If any draw of a process ever succeeds, the buffer of
    its first call was read and passed the tests; and if that buffer was not, every
    draw returns the same error. *)
Theorem entropy_fails_closed startup drawn calls :
  let verdict := match startup with Some buf => map_err HealthCheck (health_check buf) | None => Err Source end in
  match verdict with
  | Ok _ => ∃ buf, startup = Some buf ∧ health_check buf = Ok ()
  | Err e => Forall (λ r, r = Err e) (draws None ((startup, drawn) :: calls))
  end.
Proof.
  intros verdict. destruct verdict as [[]|e] eqn:Ev.
  { subst verdict. destruct startup as [buf|]; [|done]. exists buf. split; [done|]. by apply map_err_Ok in Ev. }
  assert (∀ calls, Forall (λ r, r = Err e) (draws (Some (Err e)) calls)) as H.
  { induction calls0 as [|[s d] calls0 IH]; [constructor|]. cbn. by constructor. }
  cbn [draws]. unfold fill_secure, ensure_healthy. fold verdict. rewrite Ev. by constructor.
Qed.

Module Entropy_examples.

(** A congruential generator's high bytes. *)
Fixpoint lcg (n : nat) (x : N) : bytes :=
  match n with O => [] | S n => x / 256 mod 256 :: lcg n ((x * 25173 + 13849) mod 65536) end.
Definition sampled : bytes := Eval vm_compute in lcg 520 1.
(** A counter, over one window and one byte. *)
Definition counter : bytes := Eval vm_compute in (λ i, N.of_nat i mod 256) <$> seq 0 513.

Lemma health_check_exact_witness : healthy sampled ∧ ¬ healthy counter.
Proof.
  split.
  - apply health_check_exact; [|vm_compute; reflexivity]. apply (bool_decide_unpack _). vm_compute. exact I.
  - intros H. apply health_check_exact in H; [vm_compute in H; discriminate H|]. apply (bool_decide_unpack _). vm_compute. exact I.
Defined.

Example zeros_stuck : health_check (replicate 64 0) = Err Stuck.
Proof. reflexivity. Qed.
Example counter_pattern : health_check counter = Err Pattern.
Proof. vm_compute. reflexivity. Qed.
Example run_of_seven : health_check (1 :: replicate 7 0) = Err Repetition ∧ health_check (1 :: replicate 6 0 ++ [255]) ≠ Err Repetition.
Proof. split; vm_compute; done. Qed.

End Entropy_examples.
End Entropy.
