(* ===== verification/Compliance.v ===== *)
(** * Institutional controls and multisig custody (crates/compliance)

    The transfer policy (freeze, counterparty lists, spend velocity) and the
    M-of-N approval primitive. *)

From S2P Require Import Prelude Primitives Crypto.

(** ** Transfer controls (controls.rs) *)

Inductive TransferControl :=
| Unrestricted
| AllowList (set : gset AccountId)
| DenyList (set : gset AccountId).

Definition permits (c : TransferControl) (to : AccountId) : bool :=
  match c with
  | Unrestricted => true
  | AllowList set => bool_decide (to ∈ set)
  | DenyList set => negb (bool_decide (to ∈ set))
  end.

Record SpendLimit := mkSpendLimit { max_per_window : Balance; window_blocks : N }.
Record SpendWindow := mkSpendWindow { window_start : N; spent : Balance }.
Definition SpendWindow_new : SpendWindow := mkSpendWindow 0 0.
#[global] Instance SpendWindow_eq_dec : EqDecision SpendWindow.
Proof. solve_decision. Defined.

Record CompliancePolicy := mkCompliancePolicy {
  frozen : bool;
  transfer_control : TransferControl;
  spend_limit : option SpendLimit;
}.
Definition unrestricted : CompliancePolicy := mkCompliancePolicy false Unrestricted None.
#[global] Instance TransferControl_eq_dec : EqDecision TransferControl.
Proof. solve_decision. Defined.
#[global] Instance SpendLimit_eq_dec : EqDecision SpendLimit.
Proof. solve_decision. Defined.
#[global] Instance CompliancePolicy_eq_dec : EqDecision CompliancePolicy.
Proof. solve_decision. Defined.

Inductive ComplianceError :=
| Frozen
| CounterpartyBlocked (to : AccountId)
| SpendLimitExceeded (limit window_spent attempted : N)
| ComplianceOverflow.

Definition check_transfer (p : CompliancePolicy) (to : AccountId) (amount : Balance)
    (height : N) (window : SpendWindow) : result ComplianceError SpendWindow :=
  if frozen p then Err Frozen
  else if negb (permits (transfer_control p) to) then Err (CounterpartyBlocked to)
  else
    match spend_limit p with
    | None => Ok window
    | Some limit =>
        let window_elapsed := window_blocks limit <=? saturating_sub height (window_start window) in
        let base := if window_elapsed then mkSpendWindow height 0 else window in
        new_spent ← ok_or (Bal.checked_add (spent base) amount) ComplianceOverflow;
        if max_per_window limit <? new_spent then
          Err (SpendLimitExceeded (max_per_window limit) (spent base) amount)
        else Ok (mkSpendWindow (window_start base) new_spent)
    end.

(** The policy decides exactly as documented: an approval implies the account
    is not frozen and the counterparty permitted; a refusal leaves nothing to
    persist; and with a velocity limit the persisted window never holds more than
    the limit and accounts for the approved amount. *)
Theorem check_transfer_spec p to amount height w :
  match check_transfer p to amount height w with
  | Ok w' => frozen p = false ∧ permits (transfer_control p) to = true ∧
      match spend_limit p with
      | None => w' = w
      | Some l => spent w' ≤ max_per_window l ∧
          (if window_blocks l <=? height - window_start w
           then w' = mkSpendWindow height amount
           else w' = mkSpendWindow (window_start w) (spent w + amount))
      end
  | Err Frozen => frozen p = true
  | Err (CounterpartyBlocked t) => t = to ∧ permits (transfer_control p) to = false
  | Err (SpendLimitExceeded lim s a) => ∃ l, spend_limit p = Some l ∧ lim = max_per_window l ∧
      a = amount ∧ lim < s + a
  | Err ComplianceOverflow => ∃ l, spend_limit p = Some l ∧ u128_max < spent w + amount
  end.
Proof.
  unfold check_transfer. destruct (frozen p); [done|].
  destruct (permits (transfer_control p) to); [simpl|done].
  destruct (spend_limit p) as [l|]; [|done]. unfold saturating_sub.
  destruct (window_blocks l <=? height - window_start w); simpl;
    destruct (Bal.checked_add _ _) as [n|] eqn:E; simpl.
  - apply Bal.add_Some in E as [-> _]. destruct (N.ltb_spec (max_per_window l) (0 + amount)).
    + eauto.
    + split_and!; try done.
  - apply Bal.add_None in E. exists l. split; [done|lia].
  - apply Bal.add_Some in E as [-> _].
    destruct (N.ltb_spec (max_per_window l) (spent w + amount)); [eauto|done].
  - apply Bal.add_None in E. eauto.
Qed.

(** A run of approved transfers, the window threaded as the ledger persists it. *)
Record Spend := mkSpend { sp_to : AccountId; sp_amount : Balance; sp_height : N }.
Fixpoint approve_all (p : CompliancePolicy) (w : SpendWindow) (l : list Spend) :
    result ComplianceError SpendWindow :=
  match l with
  | [] => Ok w
  | s :: l => w' ← check_transfer p (sp_to s) (sp_amount s) (sp_height s) w; approve_all p w' l
  end.

(** Value that left at heights in [[a, b)]. *)
Definition spent_between (a b : N) (l : list Spend) : N :=
  foldr (λ s acc, if (a <=? sp_height s) && (sp_height s <? b) then sp_amount s + acc else acc) 0 l.

Section velocity.
Context (p : CompliancePolicy) (lim : SpendLimit) (Hlim : spend_limit p = Some lim).
Let max := max_per_window lim.
Let wb := window_blocks lim.

Lemma check_transfer_step to amount h w w' :
  check_transfer p to amount h w = Ok w' → spent w ≤ max →
  spent w' ≤ max ∧
  ((wb ≤ h - window_start w ∧ w' = mkSpendWindow h amount) ∨
   (h - window_start w < wb ∧ w' = mkSpendWindow (window_start w) (spent w + amount))).
Proof.
  intros E Hs. pose proof (check_transfer_spec p to amount h w) as S. rewrite E, Hlim in S.
  destruct S as (_ & _ & S1 & S2). split; [done|]. fold wb in S2.
  destruct (N.leb_spec wb (h - window_start w)); auto.
Qed.

Lemma spent_between_none a b l : Forall (λ s, b ≤ sp_height s) l → spent_between a b l = 0.
Proof.
  induction 1 as [|s l Hs _ IH]; [done|]. simpl.
  destruct (N.ltb_spec (sp_height s) b); [lia|]. by rewrite andb_false_r.
Qed.

(** What leaves before the current window ends fits what is left of it. *)
Lemma spent_in_window l : ∀ w w' a b,
  approve_all p w l = Ok w' → spent w ≤ max → b ≤ window_start w + wb →
  Forall (λ s, window_start w ≤ sp_height s) l → StronglySorted (λ s t, sp_height s ≤ sp_height t) l →
  spent_between a b l + spent w ≤ max.
Proof.
  induction l as [|s l IH]; intros w w' a b E Hs Hb Hh Hst; simpl in *; [lia|].
  sov_simpl. inversion_clear Hh as [|?? Hs0 Hh']. inversion_clear Hst as [|?? Hst' Hle].
  destruct (check_transfer_step _ _ _ _ _ H Hs) as [Hx [[Hw ->]|[Hw ->]]]; simpl in *.
  - rewrite spent_between_none by (eapply Forall_impl; [exact Hle|]; simpl; lia).
    destruct (N.ltb_spec (sp_height s) b); [lia|]. rewrite andb_false_r. lia.
  - specialize (IH _ _ a b H0 ltac:(simpl; lia) ltac:(simpl; lia) ltac:(done) Hst').
    simpl in IH. case_match; lia.
Qed.

Lemma spent_from l : ∀ w w' a,
  approve_all p w l = Ok w' → spent w ≤ max →
  Forall (λ s, window_start w ≤ sp_height s ∧ a ≤ sp_height s) l →
  StronglySorted (λ s t, sp_height s ≤ sp_height t) l →
  spent_between a (a + wb) l + spent w ≤ 2 * max.
Proof.
  induction l as [|s l IH]; intros w w' a E Hs Hh Hst; simpl in *; [lia|].
  pose proof E as E0. sov_simpl. inversion_clear Hh as [|?? [Hs0 Ha] Hh'].
  inversion_clear Hst as [|?? Hst' Hle].
  destruct (check_transfer_step _ _ _ _ _ H Hs) as [Hx [[Hw ->]|[Hw ->]]]; simpl in *.
  - pose proof (spent_in_window l _ _ a (a + wb) H0 Hx ltac:(simpl; lia) Hle Hst') as B.
    simpl in B. case_match; lia.
  - specialize (IH _ _ a H0 Hx ltac:(done) Hst'). simpl in IH. case_match; lia.
Qed.

Lemma spent_any l : ∀ w w' a,
  approve_all p w l = Ok w' → spent w ≤ max →
  Forall (λ s, window_start w ≤ sp_height s) l →
  StronglySorted (λ s t, sp_height s ≤ sp_height t) l →
  spent_between a (a + wb) l ≤ 2 * max.
Proof.
  induction l as [|s l IH]; intros w w' a E Hs Hh Hst; [simpl; lia|].
  inversion_clear Hh as [|?? Hs0 Hh']. inversion_clear Hst as [|?? Hst' Hle].
  destruct (N.lt_ge_cases (sp_height s) a) as [Hlt|Hge].
  - simpl in *. destruct (N.leb_spec a (sp_height s)); [lia|]. sov_simpl.
    destruct (check_transfer_step _ _ _ _ _ H0 Hs) as [Hx [[Hw ->]|[Hw ->]]];
      eapply IH; eauto.
  - pose proof (spent_from (s :: l) w w' a E Hs) as D.
    cut (spent_between a (a + wb) (s :: l) + spent w ≤ 2 * max); [lia|]. apply D.
    + constructor; [done|]. rewrite Forall_forall in Hle, Hh' |- *. intros x Hx.
      specialize (Hle x Hx). specialize (Hh' x Hx). simpl in *. lia.
    + by constructor.
Qed.
End velocity.

(** The velocity limit holds over every stretch of blocks.  For any sequence of
    approved transfers in block order, what leaves within one accounting window is
    at most the limit, and what leaves within any [window_blocks] consecutive
    heights is at most twice the limit. *)
Theorem velocity_bound p lim w w' l a :
  spend_limit p = Some lim → approve_all p w l = Ok w' → spent w ≤ max_per_window lim →
  Forall (λ s, window_start w ≤ sp_height s) l →
  StronglySorted (λ s t, sp_height s ≤ sp_height t) l →
  spent_between (window_start w) (window_start w + window_blocks lim) l + spent w ≤ max_per_window lim ∧
  spent_between a (a + window_blocks lim) l ≤ 2 * max_per_window lim.
Proof.
  intros. split; [by eapply spent_in_window|by eapply spent_any].
Qed.

(** ** M-of-N multisig (multisig.rs) *)

Record MultisigPolicy := mkMultisigPolicy { signers : list PublicKey; threshold : N }.

Inductive MultisigError :=
| EmptySigners
| ZeroThreshold
| ThresholdExceedsSigners (threshold signers : N)
| DuplicateSigner.

Definition MultisigPolicy_new (signers : list PublicKey) (threshold : N) :
    result MultisigError MultisigPolicy :=
  if bool_decide (signers = []) then Err EmptySigners
  else if threshold =? 0 then Err ZeroThreshold
  else if N.of_nat (length signers) <? threshold then
    Err (ThresholdExceedsSigners threshold (N.of_nat (length signers)))
  else if bool_decide (NoDup signers) then Ok (mkMultisigPolicy signers threshold)
  else Err DuplicateSigner.

Record Proposal := mkProposal {
  p_account : AccountId;
  p_nonce : N;
  p_payload : bytes;
  p_expiry_height : N;
}.
Record MultisigApproval := mkApproval { a_signer : PublicKey; a_signature : Signature }.

Section multisig.
Context `{Blake3, SigScheme}.
Context `{Borsh (AccountId * N * bytes * N), Borsh (string * Hash * PublicKey)}.

Definition proposal_hash (p : Proposal) : Hash :=
  digest (to_vec (p_account p, p_nonce p, p_payload p, p_expiry_height p)).
Definition signing_bytes (h : Hash) (signer : PublicKey) : bytes :=
  to_vec ("sov.multisig.v1"%string, h, signer).
Definition approval_verify (a : MultisigApproval) (p : Proposal) : bool :=
  verify (a_signer a) (signing_bytes (proposal_hash p) (a_signer a)) (a_signature a).

Definition is_signer (m : MultisigPolicy) (key : PublicKey) : bool :=
  bool_decide (key ∈ signers m).
Definition verified_signers (m : MultisigPolicy) (p : Proposal) (approvals : list MultisigApproval) :
    gset PublicKey :=
  list_to_set (a_signer <$>
    filter (λ a, is_signer m (a_signer a) && approval_verify a p = true) approvals).
(** [.len() as u32]. *)
Definition approval_count (m : MultisigPolicy) (p : Proposal) (approvals : list MultisigApproval) : N :=
  N.of_nat (size (verified_signers m p approvals)) mod 2 ^ 32.
Definition is_authorized (m : MultisigPolicy) (p : Proposal) (approvals : list MultisigApproval)
    (current_height : N) : bool :=
  (current_height <=? p_expiry_height p) && (threshold m <=? approval_count m p approvals).

Lemma elem_of_verified m p approvals k :
  k ∈ verified_signers m p approvals ↔
  k ∈ signers m ∧ ∃ a, a ∈ approvals ∧ a_signer a = k ∧ approval_verify a p = true.
Proof.
  unfold verified_signers, is_signer. rewrite elem_of_list_to_set, list_elem_of_fmap.
  setoid_rewrite list_elem_of_filter.
  setoid_rewrite andb_true_iff. setoid_rewrite bool_decide_eq_true. naive_solver.
Qed.

Lemma verified_size m p approvals :
  (size (verified_signers m p approvals) ≤ length (signers m))%nat.
Proof.
  transitivity (size (list_to_set (signers m) : gset PublicKey)).
  - apply subseteq_size. intros k Hk. apply elem_of_verified in Hk as [Hk _].
    by apply elem_of_list_to_set.
  - clear. induction (signers m) as [|k l IH]; [done|]. simpl.
    rewrite size_union_alt, size_singleton. apply le_n_S. etrans; [|exact IH].
    apply subseteq_size. set_solver.
Qed.

(** An action is authorised exactly when it has not expired and some set of
    at least M distinct policy signers each carry an approval that verifies over
    this very proposal; repeated or foreign approvals never change the count. *)
Theorem multisig_authorized m p approvals h signers0 threshold0 :
  MultisigPolicy_new signers0 threshold0 = Ok m →
  N.of_nat (length signers0) < 2 ^ 32 →
  (is_authorized m p approvals h = true ↔
    h ≤ p_expiry_height p ∧
    ∃ S : gset PublicKey, threshold m ≤ N.of_nat (size S) ∧
      ∀ k, k ∈ S → k ∈ signers m ∧
        ∃ a, a ∈ approvals ∧ a_signer a = k ∧ approval_verify a p = true) ∧
  1 ≤ threshold m ≤ N.of_nat (length (signers m)) ∧ NoDup (signers m) ∧
  approval_count m p (approvals ++ approvals) = approval_count m p approvals.
Proof.
  unfold MultisigPolicy_new. intros Hn Hlen.
  destruct (bool_decide_reflect (signers0 = [])); [done|].
  destruct (N.eqb_spec threshold0 0); [done|].
  destruct (N.ltb_spec (N.of_nat (length signers0)) threshold0); [done|].
  destruct (bool_decide_reflect (NoDup signers0)); [|done]. injection Hn as <-.
  set (m := mkMultisigPolicy signers0 threshold0).
  pose proof (verified_size m p approvals) as Hsz. simpl in Hsz.
  split_and!; [|simpl; lia|simpl; lia|done|].
  - unfold is_authorized, approval_count. rewrite andb_true_iff, !N.leb_le.
    rewrite N.mod_small by lia. split.
    + intros [? Ht]. split; [done|]. exists (verified_signers m p approvals). split; [done|].
      intros k Hk. by apply elem_of_verified.
    + intros (? & S & Ht & HS). split; [done|]. etrans; [exact Ht|].
      assert (S ⊆ verified_signers m p approvals) as Hsub
        by (intros k Hk; by apply elem_of_verified, HS).
      apply subseteq_size in Hsub. lia.
  - unfold approval_count. do 3 f_equal. apply set_eq. intros k.
    rewrite !elem_of_verified. set_solver.
Qed.
End multisig.

(** ** Concrete runs *)
Module Compliance_examples.
Import Crypto.Toy.
Definition alice : AccountId := mkAccountId "alice.sov" eq_refl.
Definition bob : AccountId := mkAccountId "bob.sov" eq_refl.
Definition capped : CompliancePolicy :=
  mkCompliancePolicy false Unrestricted (Some (mkSpendLimit 100 10)).
Definition burst : list Spend := [mkSpend bob 100 9; mkSpend bob 100 10].

Lemma velocity_bound_witness : spent_between 9 (9 + 10) burst ≤ 2 * 100.
Proof.
  refine (proj2 (velocity_bound capped (mkSpendLimit 100 10) SpendWindow_new
    (mkSpendWindow 10 100) burst 9 _ _ _ _ _)).
  - done.
  - by vm_compute.
  - by vm_compute.
  - repeat constructor; done.
  - repeat constructor; done.
Defined.

(** The factor of two is attained: a policy that caps outgoing value at 100
    per 10 blocks lets 200 leave within two consecutive blocks, because the
    accounting window is reset, not rolled. *)
Theorem velocity_window_resets :
  is_ok (approve_all capped SpendWindow_new burst) = true ∧
  spent_between 9 (9 + 2) burst = 2 * 100.
Proof. by vm_compute. Qed.

Instance ed_stub : SigScheme := {|
  verify_ed25519 := λ k m s, bool_decide (s = k ++ m);
  verify_ml_dsa := λ k m s, bool_decide (s = k ++ m) |}.
Instance enc_prop : Borsh (AccountId * N * bytes * N) := λ x,
  let '(a, n, p, e) := x in acc_bytes a ++ [0; n; e] ++ p.
Instance enc_facts : Borsh (string * Hash * PublicKey) := λ x,
  let '(s, h, k) := x in string_bytes s ++ as_bytes h.
Definition k1 : PublicKey := PkV1Ed25519 [1].
Definition k2 : PublicKey := PkV1Ed25519 [2].
Definition pol : MultisigPolicy := mkMultisigPolicy [k1; k2] 2.
Definition prop : Proposal := mkProposal alice 0 [7] 50.
Definition approve_as (b : N) (k : PublicKey) : MultisigApproval :=
  mkApproval k (SigV1Ed25519 (b :: signing_bytes (proposal_hash prop) k)).
Lemma multisig_authorized_witness :
  is_authorized pol prop [approve_as 1 k1; approve_as 2 k2] 50 = true ∧
  approval_count pol prop ([approve_as 1 k1] ++ [approve_as 1 k1]) = approval_count pol prop [approve_as 1 k1].
Proof.
  split; [by vm_compute|].
  refine (proj2 (proj2 (proj2 (multisig_authorized pol prop [approve_as 1 k1] 50 [k1; k2] 2 _ _))));
    by vm_compute.
Defined.
End Compliance_examples.
