(* ===== verification/Smt.v ===== *)
(** * The sparse Merkle tree (crates/state/src/smt.rs)

    The authenticated key/value map that commits to the ledger.  The tree keeps a
    content-addressed node store; the theorems relate its root and proofs to the
    depth-256 binary tree over the stored map.  What the hash function must do is
    stated for the strings one history of operations hashes ([run_hashed]). *)

From S2P Require Import Prelude Primitives Crypto.

Module Smt.
Section smt.
Context `{Blake3}.

Definition TREE_HEIGHT : nat := 256.
Definition LEAF_PREFIX : N := 0.
Definition NODE_PREFIX : N := 1.

Definition leaf_preimage (value : bytes) : bytes := LEAF_PREFIX :: value.
Definition node_preimage (l r : Hash) : bytes := NODE_PREFIX :: as_bytes l ++ as_bytes r.
Definition hash_leaf (value : bytes) : Hash := digest (leaf_preimage value).
Definition hash_node (l r : Hash) : Hash := digest (node_preimage l r).

Definition bit (key : Hash) (i : nat) : bool :=
let byte := as_bytes key !!! (i / 8)%nat in
N.land (N.shiftr byte (N.of_nat (7 - i mod 8))) 1 =? 1.

(** [compute_defaults]: the loop [for h in 1..=TREE_HEIGHT]. *)
Fixpoint defaults_loop (n : nat) (below : Hash) : list Hash :=
match n with
| O => []
| S n => let d := hash_node below below in d :: defaults_loop n d
end.
Definition compute_defaults : list Hash := Hash_ZERO :: defaults_loop TREE_HEIGHT Hash_ZERO.

Record MerkleProof := mkMerkleProof { leaf : Hash; siblings : list Hash }.

#[local] Instance Hash_inhabited : Inhabited Hash := populate Hash_ZERO.

(** The parent of [node] at branch [i] of [key]'s path: [(l, r)]. *)
Definition children_at (key : Hash) (siblings : list Hash) (i : nat) (node : Hash) : Hash * Hash :=
let sibling := siblings !!! i in
if bit key i then (sibling, node) else (node, sibling).

(** [MerkleProof::verify]; the loop index is [i = TREE_HEIGHT - level], which
  runs from 255 down to 0. *)
Definition verify (p : MerkleProof) (root : Hash) (key : Hash) (value : option bytes) : bool :=
if negb (length (siblings p) =? TREE_HEIGHT)%nat then false
else
  let expected_leaf := match value with Some v => hash_leaf v | None => Hash_ZERO end in
  if negb (Hash_eqb (leaf p) expected_leaf) then false
  else
    let node := foldr (λ i node, let '(l, r) := children_at key (siblings p) i node in hash_node l r)
                  (leaf p) (seq 0 TREE_HEIGHT) in
    Hash_eqb node root.

Record SparseMerkleTree := mkSmt {
nodes : gmap Hash (Hash * Hash);
values : gmap Hash bytes;
defaults : list Hash;
root : Hash;
}.

Definition new : SparseMerkleTree :=
let defaults := compute_defaults in mkSmt ∅ ∅ defaults (defaults !!! TREE_HEIGHT).

Definition get (t : SparseMerkleTree) (key : Hash) : option bytes := values t !! key.

Definition children (t : SparseMerkleTree) (node : Hash) (level : nat) : Hash * Hash :=
match nodes t !! node with
| Some lr => lr
| None => (defaults t !!! (level - 1)%nat, defaults t !!! (level - 1)%nat)
end.

(** [for level in (1..=TREE_HEIGHT).rev()]. *)
Fixpoint siblings_loop (t : SparseMerkleTree) (key : Hash) (level : nat) (cur : Hash) : list Hash :=
match level with
| O => []
| S below =>
    let '(l, r) := children t cur level in
    if bit key (TREE_HEIGHT - level) then l :: siblings_loop t key below r
    else r :: siblings_loop t key below l
end.
Definition siblings_for (t : SparseMerkleTree) (key : Hash) : list Hash :=
siblings_loop t key TREE_HEIGHT (root t).

(** One iteration of [recompute]'s loop at [i = TREE_HEIGHT - level]. *)
Definition recompute_step (defaults : list Hash) (key : Hash) (siblings : list Hash) (i : nat)
  (st : Hash * gmap Hash (Hash * Hash)) : Hash * gmap Hash (Hash * Hash) :=
let '(node, nodes) := st in
let '(l, r) := children_at key siblings i node in
let parent := hash_node l r in
(parent, if Hash_eqb parent (defaults !!! (TREE_HEIGHT - i)%nat) then nodes
         else <[parent := (l, r)]> nodes).
Definition recompute (t : SparseMerkleTree) (key leaf : Hash) (siblings : list Hash) : SparseMerkleTree :=
let '(node, nodes') :=
  foldr (recompute_step (defaults t) key siblings) (leaf, nodes t) (seq 0 TREE_HEIGHT) in
mkSmt nodes' (values t) (defaults t) node.

Definition insert (t : SparseMerkleTree) (key : Hash) (value : bytes) : SparseMerkleTree :=
let siblings := siblings_for t key in
let leaf := hash_leaf value in
recompute (mkSmt (nodes t) (<[key := value]> (values t)) (defaults t) (root t)) key leaf siblings.

Definition remove (t : SparseMerkleTree) (key : Hash) : SparseMerkleTree * option bytes :=
match values t !! key with
| None => (t, None)
| Some old =>
    let t' := mkSmt (nodes t) (delete key (values t)) (defaults t) (root t) in
    (recompute t' key Hash_ZERO (siblings_for t' key), Some old)
end.

Definition prove (t : SparseMerkleTree) (key : Hash) : MerkleProof :=
mkMerkleProof
  (match values t !! key with Some v => hash_leaf v | None => Hash_ZERO end)
  (siblings_for t key).

(** ** The specification: a full binary tree of depth 256 *)

Definition key_path (key : Hash) : list bool := bit key <$> seq 0 TREE_HEIGHT.

(** Hash of the subtree of height [l] at prefix [p]; the leaf at a full path is
  the committed value, or the zero placeholder. *)
Fixpoint subtree (m : gmap (list bool) bytes) (l : nat) (p : list bool) : Hash :=
match l with
| O => match m !! p with Some v => hash_leaf v | None => Hash_ZERO end
| S l => hash_node (subtree m l (p ++ [false])) (subtree m l (p ++ [true]))
end.
Definition by_path (m : gmap Hash bytes) : gmap (list bool) bytes := kmap key_path m.
Definition spec_root (m : gmap Hash bytes) : Hash := subtree (by_path m) TREE_HEIGHT [].

(** ** Histories *)

Inductive op := Ins (key : Hash) (value : bytes) | Rem (key : Hash).
Definition step (t : SparseMerkleTree) (o : op) : SparseMerkleTree :=
match o with Ins k v => insert t k v | Rem k => (remove t k).1 end.
Definition run (ops : list op) : SparseMerkleTree := foldl step new ops.
Definition mstep (m : gmap Hash bytes) (o : op) : gmap Hash bytes :=
match o with Ins k v => <[k := v]> m | Rem k => delete k m end.
Definition mrun (ops : list op) : gmap Hash bytes := foldl mstep ∅ ops.

(** The strings [hash_node] hashes along a path, bottom up. *)
Fixpoint up (path : list bool) (sibs : list Hash) (x : Hash) : Hash :=
match path, sibs with
| b :: path, s :: sibs =>
    let c := up path sibs x in if b then hash_node s c else hash_node c s
| _, _ => x
end.
Fixpoint up_hashed (path : list bool) (sibs : list Hash) (x : Hash) : list bytes :=
match path, sibs with
| b :: path, s :: sibs =>
    let below := up_hashed path sibs x in
    let c := match below with [] => x | y :: _ => digest y end in
    (if b then node_preimage s c else node_preimage c s) :: below
| _, _ => []
end.
Fixpoint defaults_hashed (n : nat) (below : Hash) : list bytes :=
match n with
| O => []
| S n => node_preimage below below :: defaults_hashed n (hash_node below below)
end.
Definition step_hashed (t : SparseMerkleTree) (o : op) : list bytes :=
match o with
| Ins k v => leaf_preimage v :: up_hashed (key_path k) (siblings_for t k) (hash_leaf v)
| Rem k => match values t !! k with
           | Some _ => up_hashed (key_path k) (siblings_for t k) Hash_ZERO
           | None => []
           end
end.
Fixpoint hashed_from (t : SparseMerkleTree) (ops : list op) : list bytes :=
match ops with
| [] => []
| o :: ops => step_hashed t o ++ hashed_from (step t o) ops
end.
(** Every string hashed to build the tree by [ops]. *)
Definition run_hashed (ops : list op) : list bytes :=
defaults_hashed TREE_HEIGHT Hash_ZERO ++ hashed_from new ops.
(** Every string hashed to check a proof. *)
Definition verify_hashed (p : MerkleProof) (key : Hash) (value : option bytes) : list bytes :=
match value with Some v => [leaf_preimage v] | None => [] end
++ up_hashed (key_path key) (siblings p) (leaf p).

(** ** Keys and paths *)

Lemma bit_testbit key i :
bit key i = N.testbit (as_bytes key !!! (i / 8)%nat) (N.of_nat (7 - i mod 8)).
Proof.
unfold bit. set (b := as_bytes key !!! (i / 8)%nat). set (n := N.of_nat (7 - i mod 8)).
change 1 with (N.ones 1) at 1. rewrite N.land_ones. change (2 ^ 1) with 2.
rewrite <- N.bit0_eqb, N.shiftr_spec' . done.
Qed.

Lemma byte_testbit_high b n : byte_ok b → 8 ≤ n → N.testbit b n = false.
Proof.
unfold byte_ok. intros Hb Hn. destruct (N.eq_dec b 0) as [->|]; [apply N.bits_0|].
apply N.bits_above_log2. eapply N.lt_le_trans; [|exact Hn].
apply N.log2_lt_pow2; [lia|done].
Qed.

Lemma length_key_path key : length (key_path key) = TREE_HEIGHT.
Proof. unfold key_path. by rewrite length_fmap, length_seq. Qed.

Lemma key_path_bit k1 k2 i : key_path k1 = key_path k2 → (i < 256)%nat → bit k1 i = bit k2 i.
Proof.
intros E Hi. apply (f_equal (lookup i)) in E. unfold key_path in E.
rewrite !list_lookup_fmap, lookup_seq_lt in E by done. by injection E.
Qed.

#[global] Instance key_path_Inj : Inj (=) (=) key_path.
Proof.
intros k1 k2 E. apply as_bytes_inj. apply list_eq_same_length with 32%nat;
  [by rewrite length_as_bytes..|].
intros i b1 b2 Hi E1 E2. apply N.bits_inj_iff. intros n.
pose proof (as_bytes_ok k1) as O1. pose proof (as_bytes_ok k2) as O2.
rewrite Forall_lookup in O1, O2. specialize (O1 _ _ E1). specialize (O2 _ _ E2).
destruct (N.lt_ge_cases n 8) as [Hn|Hn]; [|by rewrite !byte_testbit_high].
pose proof (key_path_bit k1 k2 (i * 8 + (7 - N.to_nat n))%nat E ltac:(lia)) as Eb.
rewrite !bit_testbit in Eb.
assert (((i * 8 + (7 - N.to_nat n)) / 8 = i)%nat ∧
        ((i * 8 + (7 - N.to_nat n)) mod 8 = 7 - N.to_nat n)%nat) as [Ed Em].
{ rewrite Nat.add_comm, Nat.div_add, Nat.Div0.mod_add by lia.
  rewrite Nat.div_small, Nat.mod_small by lia. done. }
rewrite Ed, Em, !list_lookup_total_alt, E1, E2 in Eb. simpl in Eb.
replace (N.of_nat (7 - (7 - N.to_nat n))) with n in Eb by lia. done.
Qed.

(** ** Loops as walks along the path *)

#[local] Opaque TREE_HEIGHT.

Lemma drop_lookup_total (l : list Hash) i :
(i < length l)%nat → drop i l = l !!! i :: drop (S i) l.
Proof.
intros Hi. destruct (lookup_lt_is_Some_2 l i Hi) as [x Hx].
rewrite (drop_S _ _ _ Hx). by rewrite (list_lookup_total_correct _ _ _ Hx).
Qed.

Lemma foldr_up key sibs x n : ∀ k, length sibs = (k + n)%nat →
foldr (λ i node, let '(l, r) := children_at key sibs i node in hash_node l r) x (seq k n)
= up (bit key <$> seq k n) (drop k sibs) x.
Proof.
induction n as [|n IH]; intros k Hl; simpl; [done|].
rewrite IH by lia. rewrite (drop_lookup_total sibs k) by lia. unfold children_at.
by destruct (bit key k).
Qed.

Lemma verify_up p root key value :
verify p root key value = true ↔
length (siblings p) = TREE_HEIGHT ∧
leaf p = match value with Some v => hash_leaf v | None => Hash_ZERO end ∧
up (key_path key) (siblings p) (leaf p) = root.
Proof.
unfold verify. destruct (Nat.eqb_spec (length (siblings p)) TREE_HEIGHT) as [El|]; [|naive_solver].
cbn [negb]. pose proof (foldr_up key (siblings p) (leaf p) TREE_HEIGHT 0 El) as Ef.
rewrite drop_0 in Ef. fold (key_path key) in Ef. rewrite Ef. clear Ef.
assert (∀ x y, Hash_eqb x y = true ↔ x = y) as Heq.
{ intros x y. unfold Hash_eqb. rewrite bool_decide_eq_true. split; [apply as_bytes_inj|by intros ->]. }
destruct (Hash_eqb (leaf p) _) eqn:E; cbn [negb].
- rewrite Heq in E. rewrite Heq. naive_solver.
- split; [done|]. intros (_ & E' & _). apply Heq in E'. congruence.
Qed.

(** ** The specification tree along one path *)

Lemma up_hashed_cons b path s sibs x :
up_hashed (b :: path) (s :: sibs) x
= (if b then node_preimage s (up path sibs x) else node_preimage (up path sibs x) s)
  :: up_hashed path sibs x.
Proof.
assert (∀ path sibs,
  match up_hashed path sibs x with [] => x | y :: _ => digest y end = up path sibs x) as Hc.
{ clear. induction path as [|b path IH]; intros [|s sibs]; [done..|].
  cbn [up_hashed up]. rewrite IH. by destruct b. }
cbn [up_hashed]. by rewrite Hc.
Qed.

Fixpoint spec_sibs (m : gmap (list bool) bytes) (p rest : list bool) : list Hash :=
match rest with
| [] => []
| b :: rest => subtree m (length rest) (p ++ [negb b]) :: spec_sibs m (p ++ [b]) rest
end.

Lemma length_spec_sibs m rest : ∀ p, length (spec_sibs m p rest) = length rest.
Proof. induction rest as [|b rest IH]; intros p; simpl; [done|]. by rewrite IH. Qed.

Lemma subtree_up m rest : ∀ p,
subtree m (length rest) p = up rest (spec_sibs m p rest) (subtree m 0 (p ++ rest)).
Proof.
induction rest as [|b rest IH]; intros p; [by rewrite app_nil_r|].
cbn [length subtree spec_sibs up].
replace (p ++ b :: rest) with ((p ++ [b]) ++ rest) by by rewrite <- (assoc_L (++)).
rewrite <- IH. by destruct b.
Qed.

Lemma spec_sibs_drop m k : ∀ p path,
drop k (spec_sibs m p path) = spec_sibs m (p ++ take k path) (drop k path).
Proof.
induction k as [|k IH]; intros p path; simpl.
- by rewrite drop_0, take_0, app_nil_r.
- destruct path as [|b path]; [done|]. simpl. rewrite IH. f_equal.
  by rewrite <- (assoc_L (++)).
Qed.

Section agree.
Context (m1 m2 : gmap (list bool) bytes) (q : list bool).
Context (Hagree : ∀ q', q' ≠ q → m1 !! q' = m2 !! q').

Lemma subtree_agree l : ∀ p, ¬ p `prefix_of` q → subtree m1 l p = subtree m2 l p.
Proof.
induction l as [|l IH]; intros p Hp; simpl.
- rewrite Hagree; [done|]. by intros ->.
- f_equal; apply IH; intros Hpre; apply Hp; (etrans; [|exact Hpre]); apply prefix_app_r; done.
Qed.

Lemma spec_sibs_agree rest : ∀ p, q = p ++ rest → spec_sibs m1 p rest = spec_sibs m2 p rest.
Proof.
induction rest as [|b rest IH]; intros p Hq; simpl; [done|]. f_equal.
- apply subtree_agree. rewrite Hq. intros Hpre%prefix_app_inv.
  apply prefix_cons_inv_1 in Hpre. by destruct b.
- apply IH. rewrite Hq. by rewrite <- (assoc_L (++)).
Qed.
End agree.

Lemma spec_hashed_head m rest p b :
node_preimage (subtree m (length rest) (p ++ [false])) (subtree m (length rest) (p ++ [true]))
∈ up_hashed (b :: rest) (spec_sibs m p (b :: rest)) (subtree m 0 (p ++ b :: rest)).
Proof.
cbn [spec_sibs]. rewrite up_hashed_cons.
replace (p ++ b :: rest) with ((p ++ [b]) ++ rest) by by rewrite <- (assoc_L (++)).
rewrite <- subtree_up. destruct b; left.
Qed.

Lemma up_hashed_drop k : ∀ path sibs x,
length path = length sibs → up_hashed (drop k path) (drop k sibs) x ⊆ up_hashed path sibs x.
Proof.
induction k as [|k IH]; intros path sibs x Hl; [by rewrite !drop_0|].
destruct path as [|b path], sibs as [|s sibs]; try done. rewrite up_hashed_cons. simpl.
etrans; [apply IH; by injection Hl|]. set_solver.
Qed.

(** ** The recompute loop *)

Lemma path_from key k : drop k (key_path key) = bit key <$> seq k (TREE_HEIGHT - k).
Proof. unfold key_path. by rewrite <- fmap_drop, drop_seq, Nat.add_0_l. Qed.

Lemma Hash_eqb_iff x y : Hash_eqb x y = true ↔ x = y.
Proof. unfold Hash_eqb. rewrite bool_decide_eq_true. split; [apply as_bytes_inj|by intros ->]. Qed.

Lemma recompute_loop ds key sibs x ns : length sibs = TREE_HEIGHT → ∀ n k, (k + n = TREE_HEIGHT)%nat →
let r := foldr (recompute_step ds key sibs) (x, ns) (seq k n) in
r.1 = up (drop k (key_path key)) (drop k sibs) x ∧
(∀ h, is_Some (ns !! h) → is_Some (r.2 !! h)) ∧
(∀ h lr, r.2 !! h = Some lr → ns !! h = Some lr ∨
   hash_node lr.1 lr.2 = h ∧ node_preimage lr.1 lr.2 ∈ up_hashed (drop k (key_path key)) (drop k sibs) x) ∧
(∀ j, (k ≤ j < TREE_HEIGHT)%nat →
   up (drop j (key_path key)) (drop j sibs) x = ds !!! (TREE_HEIGHT - j)%nat ∨
   is_Some (r.2 !! up (drop j (key_path key)) (drop j sibs) x)).
Proof.
intros Hl. induction n as [|n IH]; intros k Hk; cbn zeta.
- replace k with TREE_HEIGHT by lia. rewrite !drop_ge by (rewrite ?length_key_path; lia).
  simpl. split_and!; [done|done|by left|lia].
- destruct (IH (S k) ltac:(lia)) as (I1 & I2 & I3 & I4). clear IH. cbn zeta in *.
  cbn [seq foldr]. destruct (foldr _ _ _) as [c ns'] eqn:Ef. simpl in I1, I2, I3, I4.
  assert (drop k (key_path key) = bit key k :: drop (S k) (key_path key)) as Ep.
  { rewrite !path_from. replace (TREE_HEIGHT - k)%nat with (S (TREE_HEIGHT - S k)) by lia. done. }
  assert (up (drop k (key_path key)) (drop k sibs) x
    = let '(l, r) := children_at key sibs k c in hash_node l r) as Eu.
  { rewrite Ep, (drop_lookup_total sibs k) by lia. simpl. rewrite <- I1. unfold children_at.
    by destruct (bit key k). }
  unfold recompute_step at 1 2 3 4.
  destruct (children_at key sibs k c) as [l r] eqn:Ec. cbn [fst snd].
  assert (up_hashed (drop k (key_path key)) (drop k sibs) x
    = node_preimage l r :: up_hashed (drop (S k) (key_path key)) (drop (S k) sibs) x) as Eh.
  { rewrite Ep, (drop_lookup_total sibs k), up_hashed_cons by lia. rewrite <- I1.
    unfold children_at in Ec. destruct (bit key k); by injection Ec as <- <-. }
  split_and!.
  + done.
  + intros h Hh%I2. case_match; [done|]. destruct (decide (h = hash_node l r)) as [->|].
    * rewrite lookup_insert_eq. done.
    * by rewrite lookup_insert_ne.
  + intros h lr Hr. rewrite Eh.
    assert (ns' !! h = Some lr ∨ hash_node l r = h ∧ (l, r) = lr) as [Hr'|[Hh <-]].
    { case_match; [by left|]. apply lookup_insert_Some in Hr. naive_solver. }
    * destruct (I3 _ _ Hr') as [?|[? ?]]; [by left|right; split; [done|by right]].
    * right. split; [done|left].
  + intros j Hj. destruct (decide (j = k)) as [->|Hne].
    * rewrite Eu. destruct (Hash_eqb (hash_node l r) _) eqn:E.
      -- left. by apply Hash_eqb_iff.
      -- right. rewrite lookup_insert_eq. done.
    * destruct (I4 j ltac:(lia)) as [?|Hs]; [by left|right]. case_match; [done|].
      set (h := up (drop j (key_path key)) (drop j sibs) x) in *.
      destruct (decide (h = hash_node l r)) as [->|].
      -- rewrite lookup_insert_eq. done.
      -- by rewrite lookup_insert_ne.
Qed.

(** ** The store invariant *)

Fixpoint default_at (l : nat) : Hash :=
match l with O => Hash_ZERO | S l => hash_node (default_at l) (default_at l) end.

Lemma defaults_loop_lookup n : ∀ j i, (i < n)%nat →
defaults_loop n (default_at j) !!! i = default_at (j + S i).
Proof.
induction n as [|n IH]; intros j i Hi; [lia|]. destruct i as [|i].
- by rewrite Nat.add_1_r.
- change (defaults_loop n (default_at (S j)) !!! i = default_at (j + S (S i))).
  rewrite IH by lia. f_equal. lia.
Qed.
Lemma defaults_cons_lookup n l :
(l ≤ n)%nat → (Hash_ZERO :: defaults_loop n Hash_ZERO) !!! l = default_at l.
Proof. intros Hl. destruct l as [|l]; [done|]. apply (defaults_loop_lookup n 0 l). lia. Qed.
Lemma compute_defaults_lookup l : (l ≤ TREE_HEIGHT)%nat → compute_defaults !!! l = default_at l.
Proof. apply defaults_cons_lookup. Qed.
Lemma defaults_hashed_in n : ∀ j i, (i < n)%nat →
node_preimage (default_at (j + i)) (default_at (j + i)) ∈ defaults_hashed n (default_at j).
Proof.
induction n as [|n IH]; intros j i Hi; [lia|]. simpl. destruct i as [|i].
- rewrite Nat.add_0_r. left.
- right. replace (j + S i)%nat with (S j + i)%nat by lia. apply (IH (S j) i). lia.
Qed.

Definition sub (t : SparseMerkleTree) : nat → list bool → Hash := subtree (by_path (values t)).

(** [T] lists the strings hashed so far. *)
Record inv (T : list bytes) (t : SparseMerkleTree) : Prop := {
inv_defaults : defaults t = compute_defaults;
inv_root : root t = spec_root (values t);
inv_store : ∀ h lr, nodes t !! h = Some lr →
  hash_node lr.1 lr.2 = h ∧ node_preimage lr.1 lr.2 ∈ T;
inv_dom : ∀ l p, (1 ≤ l)%nat → (length p + l = TREE_HEIGHT)%nat →
  sub t l p = default_at l ∨ is_Some (nodes t !! sub t l p);
inv_hashed : ∀ l p, (length p + S l = TREE_HEIGHT)%nat →
  node_preimage (sub t l (p ++ [false])) (sub t l (p ++ [true])) ∈ T;
inv_empty : ∀ l, (l < TREE_HEIGHT)%nat → node_preimage (default_at l) (default_at l) ∈ T;
inv_leaf : ∀ k v, values t !! k = Some v → leaf_preimage v ∈ T;
}.

Lemma smt_node_preimage_inj l r l' r' :
node_preimage l r = node_preimage l' r' → l = l' ∧ r = r'.
Proof.
intros [= E]. apply app_inj_1 in E as [E1 E2]; [|by rewrite !length_as_bytes].
by split; apply as_bytes_inj.
Qed.

Lemma subtree_empty l : ∀ p, subtree ∅ l p = default_at l.
Proof. induction l as [|l IH]; intros p; simpl; [by rewrite lookup_empty|]. by rewrite !IH. Qed.

Lemma inv_new : inv (defaults_hashed TREE_HEIGHT Hash_ZERO) new.
Proof.
assert (∀ l p, sub new l p = default_at l) as Hs.
{ intros l p. unfold sub, by_path, new; simpl values. rewrite kmap_empty. apply subtree_empty. }
split.
- exact eq_refl.
- unfold new, spec_root, by_path; cbn [root values]. rewrite kmap_empty, subtree_empty.
  apply compute_defaults_lookup. reflexivity.
- intros h lr E. unfold new in E; cbn [nodes] in E. rewrite lookup_empty in E. discriminate E.
- intros l p ? ?. left. apply Hs.
- intros l p Hl. rewrite !Hs. apply (defaults_hashed_in TREE_HEIGHT 0). lia.
- intros l Hl. exact (defaults_hashed_in TREE_HEIGHT 0 l Hl).
- intros k v E. unfold new in E; cbn [values] in E. rewrite lookup_empty in E. discriminate E.
Qed.

Lemma inv_children T t l p :
inv T t → no_break T → (length p + S l = TREE_HEIGHT)%nat →
children t (sub t (S l) p) (S l) = (sub t l (p ++ [false]), sub t l (p ++ [true])).
Proof.
intros I [Hinj _] Hl. unfold children.
pose proof (inv_hashed _ _ I l p Hl) as Hin.
assert (sub t (S l) p = digest (node_preimage (sub t l (p ++ [false])) (sub t l (p ++ [true]))))
  as Es by done.
destruct (nodes t !! sub t (S l) p) as [[a b]|] eqn:E.
- destruct (inv_store _ _ I _ _ E) as [Eh Hab]. cbn [fst snd] in Eh, Hab. rewrite Es in Eh.
  apply Hinj in Eh; [|done|done]. by apply smt_node_preimage_inj in Eh as [-> ->].
- destruct (inv_dom _ _ I (S l) p ltac:(lia) Hl) as [Ed|[? Ed]]; [|congruence]. rewrite Es in Ed.
  change (default_at (S l)) with (digest (node_preimage (default_at l) (default_at l))) in Ed.
  apply Hinj in Ed; [|done|apply (inv_empty _ _ I); lia].
  apply smt_node_preimage_inj in Ed as [-> ->].
  rewrite (inv_defaults _ _ I), compute_defaults_lookup by lia.
  by replace (S l - 1)%nat with l by lia.
Qed.

Lemma siblings_loop_spec T t key : inv T t → no_break T → ∀ n k p,
(k + n = TREE_HEIGHT)%nat → length p = k →
siblings_loop t key n (sub t n p) = spec_sibs (by_path (values t)) p (drop k (key_path key)).
Proof.
intros I Hb. induction n as [|n IH]; intros k p Hk Hp.
- rewrite drop_ge by (rewrite length_key_path; lia). done.
- cbn [siblings_loop]. rewrite (inv_children T t n p I Hb) by lia.
  replace (TREE_HEIGHT - S n)%nat with k by lia.
  rewrite path_from. replace (TREE_HEIGHT - k)%nat with (S n) by lia.
  cbn [seq fmap list_fmap spec_sibs]. rewrite length_fmap, length_seq.
  assert (bit key <$> seq (S k) n = drop (S k) (key_path key)) as Ep.
  { rewrite path_from. f_equal. f_equal. lia. }
  change (list_fmap bool) with (@fmap list list_fmap nat bool) in *.
  destruct (bit key k); simpl negb.
  + f_equal. rewrite (IH (S k) (p ++ [true])) by (rewrite ?length_app; simpl; lia).
    by rewrite <- Ep.
  + f_equal. rewrite (IH (S k) (p ++ [false])) by (rewrite ?length_app; simpl; lia).
    by rewrite <- Ep.
Qed.

Lemma siblings_for_spec T t key :
inv T t → no_break T →
siblings_for t key = spec_sibs (by_path (values t)) [] (key_path key).
Proof.
intros I Hb. unfold siblings_for. rewrite (inv_root _ _ I).
by apply (siblings_loop_spec T t key I Hb TREE_HEIGHT 0 []).
Qed.

Lemma prefix_of_path (p q : list bool) : p `prefix_of` q → q = p ++ drop (length p) q ∧ p = take (length p) q.
Proof. intros [k ->]. by rewrite drop_app_length, take_app_length. Qed.

(** Writing one leaf: [vals'] differs from the stored map at [key] only. *)
Lemma recompute_inv T t key vals' x :
inv T t →
(∀ k, k ≠ key → vals' !! k = values t !! k) →
x = match vals' !! key with Some v => hash_leaf v | None => Hash_ZERO end →
let sibs := spec_sibs (by_path (values t)) [] (key_path key) in
let T' := match vals' !! key with Some v => [leaf_preimage v] | None => [] end
          ++ up_hashed (key_path key) sibs x in
inv (T ++ T') (recompute (mkSmt (nodes t) vals' (defaults t) (root t)) key x sibs).
Proof.
intros I Hv Hx sibs T'. set (m := by_path (values t)). set (m' := by_path vals').
assert (∀ q, q ≠ key_path key → m' !! q = m !! q) as Hagree.
{ intros q Hq. unfold m, m', by_path. apply option_eq. intros v.
  rewrite !lookup_kmap_Some by apply _. split; intros (k & -> & E); exists k; (split; [done|]);
    [rewrite <- Hv|rewrite Hv]; (done || by intros ->). }
assert (length sibs = TREE_HEIGHT) as Hlen by (unfold sibs; by rewrite length_spec_sibs, length_key_path).
assert (spec_sibs m' [] (key_path key) = sibs) as Hsibs
  by (by apply (spec_sibs_agree m' m (key_path key) Hagree)).
assert (subtree m' 0 (key_path key) = x) as Hleaf
  by (simpl; unfold m', by_path; by rewrite lookup_kmap, Hx by apply _).
assert (∀ p, p `prefix_of` key_path key → ∀ l, (length p + l = TREE_HEIGHT)%nat →
  subtree m' l p = up (drop (length p) (key_path key)) (drop (length p) sibs) x) as Hon.
{ intros p Hp l Hl. destruct (prefix_of_path _ _ Hp) as [Eq Et].
  assert (length (drop (length p) (key_path key)) = l) as El by (rewrite length_drop, length_key_path; lia).
  rewrite <- El at 1. rewrite (subtree_up m' (drop (length p) (key_path key)) p), <- Eq, Hleaf.
  rewrite <- Hsibs, spec_sibs_drop. simpl. by rewrite <- Et. }
unfold recompute; cbn [nodes values defaults].
destruct (recompute_loop (defaults t) key sibs x (nodes t) Hlen TREE_HEIGHT 0 eq_refl)
  as (R1 & R2 & R3 & R4). rewrite !drop_0 in R1, R3.
destruct (foldr _ _ _) as [nd ns]. cbn [fst snd] in *.
assert (∀ l p, ¬ p `prefix_of` key_path key → subtree m' l p = subtree m l p) as Hoff
  by (intros l p Hp; by apply (subtree_agree m' m (key_path key) Hagree)).
split; cbn [nodes values defaults root]; unfold sub; cbn [values]; fold m'.
- apply (inv_defaults _ _ I).
- unfold spec_root. fold m'. rewrite (Hon [] (prefix_nil _) TREE_HEIGHT eq_refl).
  cbn [length]. by rewrite R1, !drop_0.
- intros h lr E. apply R3 in E as [E|[? ?]].
  + destruct (inv_store _ _ I _ _ E) as [? ?]. split; [assumption|].
    apply elem_of_app. by left.
  + split; [assumption|]. apply elem_of_app. right. apply elem_of_app. by right.
- intros l p Hl Hpl. destruct (decide (p `prefix_of` key_path key)) as [Hp|Hp].
  + rewrite (Hon p Hp l Hpl). destruct (R4 (length p) ltac:(lia)) as [E|E]; [left|by right].
    rewrite E, (inv_defaults _ _ I), compute_defaults_lookup by lia. f_equal. lia.
  + rewrite Hoff by done. destruct (inv_dom _ _ I l p Hl Hpl) as [?|?]; [by left|right; by apply R2].
- intros l p Hl. destruct (decide (p `prefix_of` key_path key)) as [Hp|Hp].
  + destruct (prefix_of_path _ _ Hp) as [Eq Et].
    assert (length (drop (length p) (key_path key)) = S l) as El by (rewrite length_drop, length_key_path; lia).
    assert (up_hashed (drop (length p) (key_path key)) (drop (length p) sibs) x ⊆ T') as Hsub.
    { etrans; [apply up_hashed_drop; by rewrite length_key_path|].
      intros y Hy. apply elem_of_app. by right. }
    rewrite <- Hsibs, spec_sibs_drop in Hsub. simpl in Hsub. rewrite <- Et, <- Hleaf, Eq in Hsub.
    destruct (drop (length p) (key_path key)) as [|b rest] eqn:Ed; [done|]. injection El as <-.
    rewrite <- Eq in Hsub. apply elem_of_app. right. apply Hsub. rewrite Eq.
    rewrite drop_app_length. apply spec_hashed_head.
  + rewrite !Hoff by (intros Hp'; apply Hp; etrans; [|exact Hp']; by apply prefix_app_r).
    apply elem_of_app. left. by apply (inv_hashed _ _ I).
- intros l Hl. apply elem_of_app. left. by apply (inv_empty _ _ I).
- intros k v E. apply elem_of_app. destruct (decide (k = key)) as [->|Hne].
  + right. unfold T'. rewrite E. left.
  + left. rewrite Hv in E by done. by apply (inv_leaf _ _ I k).
Qed.

(** ** Histories keep the invariant *)

Lemma siblings_loop_ext t t' key n : ∀ cur,
nodes t' = nodes t → defaults t' = defaults t →
siblings_loop t' key n cur = siblings_loop t key n cur.
Proof.
induction n as [|n IH]; intros cur En Ed; simpl; [done|]. unfold children. rewrite En, Ed.
destruct (nodes t !! cur) as [[l r]|]; case_match; f_equal; by apply IH.
Qed.

Lemma step_inv T t o : inv T t → no_break T → inv (T ++ step_hashed t o) (step t o).
Proof.
intros I Hb. destruct o as [key v|key]; cbn [step step_hashed].
- unfold insert. rewrite (siblings_for_spec T t key I Hb).
  pose proof (recompute_inv T t key (<[key:=v]> (values t)) (hash_leaf v) I) as R.
  rewrite lookup_insert_eq in R. apply R; [|reflexivity].
  intros k Hk. by rewrite lookup_insert_ne.
- unfold remove. destruct (values t !! key) as [old|] eqn:E; cbn [fst].
  + assert (siblings_for (mkSmt (nodes t) (delete key (values t)) (defaults t) (root t)) key
      = siblings_for t key) as -> by (by apply siblings_loop_ext).
    rewrite (siblings_for_spec T t key I Hb).
    pose proof (recompute_inv T t key (delete key (values t)) Hash_ZERO I) as R.
    rewrite lookup_delete_eq in R. apply R; [|reflexivity].
    intros k Hk. by rewrite lookup_delete_ne.
  + rewrite app_nil_r. done.
Qed.

Lemma run_inv_from ops : ∀ T t,
inv T t → no_break (T ++ hashed_from t ops) →
inv (T ++ hashed_from t ops) (foldl step t ops).
Proof.
induction ops as [|o ops IH]; intros T t I Hb; cbn [hashed_from foldl] in *.
- by rewrite app_nil_r.
- rewrite (assoc_L (++)) in Hb |- *. apply IH; [|done]. apply step_inv; [done|].
  exact (no_break_app_l _ _ (no_break_app_l _ _ Hb)).
Qed.
Lemma run_inv ops : no_break (run_hashed ops) → inv (run_hashed ops) (run ops).
Proof. apply run_inv_from. apply inv_new. Qed.

Lemma recompute_values t k x s : values (recompute t k x s) = values t.
Proof. unfold recompute. by destruct (foldr _ _ _). Qed.
Lemma step_values t o : values (step t o) = mstep (values t) o.
Proof.
destruct o as [k v|k]; cbn [step mstep].
- unfold insert. by rewrite recompute_values.
- unfold remove. destruct (values t !! k) eqn:E; cbn [fst].
  + by rewrite recompute_values.
  + by rewrite delete_id.
Qed.
Lemma run_values ops : values (run ops) = mrun ops.
Proof.
unfold run, mrun. change (∅ : gmap Hash bytes) with (values new). generalize new.
induction ops as [|o ops IH]; intros t; cbn [foldl]; [done|]. by rewrite IH, step_values.
Qed.

(** ** What a root and a proof say *)

Lemma path_hashed T t rest : inv T t → ∀ p, (length p + length rest = TREE_HEIGHT)%nat →
up_hashed rest (spec_sibs (by_path (values t)) p rest) (sub t 0 (p ++ rest)) ⊆ T.
Proof.
intros I. induction rest as [|b rest IH]; intros p Hl; [intros x Hx; inversion Hx|].
simpl length in Hl. pose proof (IH (p ++ [b]) ltac:(rewrite length_app; simpl; lia)) as IHb.
cbn [spec_sibs]. rewrite up_hashed_cons.
replace (p ++ b :: rest) with ((p ++ [b]) ++ rest) by by rewrite <- (assoc_L (++)).
unfold sub. rewrite <- subtree_up. intros x [->|Hx]%elem_of_cons; [|by apply IHb].
pose proof (inv_hashed _ _ I (length rest) p Hl). by destruct b.
Qed.

Lemma up_sound T t rest : inv T t → no_break T → ∀ p sibs x,
(length p + length rest = TREE_HEIGHT)%nat → length sibs = length rest →
up_hashed rest sibs x ⊆ T → up rest sibs x = sub t (length rest) p → x = sub t 0 (p ++ rest).
Proof.
intros I Hb. induction rest as [|b rest IH]; intros p sibs x Hl Hs HT E.
{ destruct sibs; [|done]. by rewrite app_nil_r. }
destruct sibs as [|s sibs]; [done|]. injection Hs as Hs. simpl length in Hl.
replace (p ++ b :: rest) with ((p ++ [b]) ++ rest) by by rewrite <- (assoc_L (++)).
rewrite up_hashed_cons in HT.
pose proof (inv_hashed _ _ I (length rest) p Hl) as Hin.
apply (IH (p ++ [b]) sibs); [rewrite length_app; simpl; lia|done| |].
{ intros y Hy. apply HT. by right. }
cbn [up] in E.
assert ((if b then node_preimage s (up rest sibs x) else node_preimage (up rest sibs x) s)
  = node_preimage (sub t (length rest) (p ++ [false])) (sub t (length rest) (p ++ [true]))) as Ep.
{ apply (proj1 Hb); [apply HT; left|done|]. transitivity (sub t (length (b :: rest)) p); [|done].
  rewrite <- E. by destruct b. }
destruct b; apply smt_node_preimage_inj in Ep as [E1 E2]; done.
Qed.

Lemma sub_leaf t k : sub t 0 (key_path k) =
match values t !! k with Some v => hash_leaf v | None => Hash_ZERO end.
Proof. unfold sub, by_path; simpl. by rewrite lookup_kmap by apply _. Qed.

Lemma prove_verifies T t k : inv T t → no_break T → verify (prove t k) (root t) k (values t !! k) = true.
Proof.
intros I Hb. apply verify_up. unfold prove; cbn [siblings leaf].
rewrite (siblings_for_spec T t k I Hb). split_and!.
- by rewrite length_spec_sibs, length_key_path.
- done.
- rewrite <- sub_leaf. rewrite (inv_root _ _ I). unfold spec_root.
  rewrite <- (length_key_path k) at 1. symmetry. apply subtree_up.
Qed.

Lemma verify_sound T t p k v :
inv T t → no_break (T ++ verify_hashed p k v) → verify p (root t) k v = true → v = values t !! k.
Proof.
intros I Hb (Hl & Hleaf & Hup)%verify_up.
assert (inv (T ++ verify_hashed p k v) t) as I'.
{ destruct I. split; try done; intros; apply elem_of_app || idtac; eauto.
  - destruct (inv_store0 h lr) as [? ?]; [done|]. split; [done|]. apply elem_of_app. by left. }
assert (leaf p = sub t 0 ([] ++ key_path k)) as E.
{ apply (up_sound (T ++ verify_hashed p k v) t (key_path k) I' Hb [] (siblings p)).
  - by rewrite length_key_path.
  - by rewrite length_key_path.
  - unfold verify_hashed. intros y Hy. apply elem_of_app. right. apply elem_of_app. by right.
  - rewrite length_key_path, Hup. apply (inv_root _ _ I). }
simpl in E. rewrite sub_leaf, Hleaf in E. destruct Hb as [Hinj Hz].
assert (∀ w, v = Some w → leaf_preimage w ∈ T ++ verify_hashed p k v) as Hw.
{ intros w ->. apply elem_of_app. right. left. }
assert (∀ w, values t !! k = Some w → leaf_preimage w ∈ T ++ verify_hashed p k v) as Hw'.
{ intros w E'. apply elem_of_app. left. by apply (inv_leaf _ _ I k). }
destruct v as [v|], (values t !! k) as [v'|]; [|exfalso..|done].
- apply Hinj in E; [by injection E as ->|auto..].
- by apply (Hz (leaf_preimage v)); [auto|].
- by apply (Hz (leaf_preimage v')); [auto|].
Qed.

(** C35: one root per state.  After any history of insertions and removals the
  root is the root of the full depth-256 tree over the resulting key/value map,
  so histories that end in the same map end in the same root, in whatever order
  they got there; the only proviso is that the strings a history hashes do not
  collide. *)
Theorem smt_root_canonical (ops : list op) :
no_break (run_hashed ops) →
root (run ops) = spec_root (mrun ops) ∧
∀ ops', no_break (run_hashed ops') → mrun ops' = mrun ops → root (run ops') = root (run ops).
Proof.
intros Hb. pose proof (inv_root _ _ (run_inv ops Hb)) as R. rewrite run_values in R.
split; [exact R|]. intros ops' Hb' E. rewrite R, <- E.
rewrite (inv_root _ _ (run_inv ops' Hb')). by rewrite run_values.
Qed.

(** Every key has a proof.  The proof the tree produces for a key verifies
  against its root for exactly the stored value, or for absence. *)
Theorem smt_prove_complete (ops : list op) (k : Hash) :
no_break (run_hashed ops) →
verify (prove (run ops) k) (root (run ops)) k (mrun ops !! k) = true.
Proof. intros Hb. rewrite <- run_values. by apply (prove_verifies _ _ _ (run_inv ops Hb)). Qed.

(** C36: no proof lies.  Whatever proof is presented, if it verifies against the
  root for a value (or for absence) then that is what the map holds at the key,
  unless the strings hashed to build the tree and to check the proof collide. *)
Theorem smt_proof_sound (ops : list op) (p : MerkleProof) (k : Hash) (v : option bytes) :
no_break (run_hashed ops ++ verify_hashed p k v) →
verify p (root (run ops)) k v = true → v = mrun ops !! k.
Proof.
intros Hb Hv. rewrite <- run_values. eapply verify_sound; [apply run_inv|exact Hb|exact Hv].
exact (no_break_app_l _ _ Hb).
Qed.

Lemma prove_hashed ops k :
no_break (run_hashed ops) → verify_hashed (prove (run ops) k) k (mrun ops !! k) ⊆ run_hashed ops.
Proof.
intros Hb. pose proof (run_inv ops Hb) as I. unfold verify_hashed, prove; cbn [siblings leaf].
rewrite (siblings_for_spec _ _ k I Hb), <- run_values. intros x [Hx|Hx]%elem_of_app.
- destruct (values (run ops) !! k) as [w|] eqn:E; [|by inversion Hx].
  apply list_elem_of_singleton in Hx as ->. by apply (inv_leaf _ _ I k).
- rewrite <- sub_leaf in Hx.
  apply (path_hashed _ _ (key_path k) I [] ltac:(by rewrite length_key_path)). exact Hx.
Qed.

(** The root commits to the whole map.  Two histories with the same root hold
  the same key/value map, unless the strings they hash collide. *)
Theorem smt_root_binding (ops ops' : list op) :
no_break (run_hashed ops ++ run_hashed ops') → root (run ops) = root (run ops') → mrun ops = mrun ops'.
Proof.
intros Hb E. assert (no_break (run_hashed ops)) as Hb1 by exact (no_break_app_l _ _ Hb).
assert (no_break (run_hashed ops')) as Hb2 by exact (no_break_app_r _ _ Hb).
apply map_eq. intros k. rewrite <- (run_values ops').
eapply (verify_sound _ _ (prove (run ops) k) k); [by apply run_inv| |].
- eapply no_break_mono; [|exact Hb]. intros x [Hx|Hx]%elem_of_app; apply elem_of_app; [by right|left].
  revert Hx. by apply prove_hashed.
- rewrite <- E, <- run_values. by apply (prove_verifies _ _ _ (run_inv ops Hb1)).
Qed.
End smt.
End Smt.

(** ** A concrete history

    A digest that reads the left half of a node, for which the strings hashed by
    one insertion at the leftmost key are pairwise different: numbering the default
    hashes 0, 1, ... and the hashes on the path 1000, 1001, ... . *)
Module Smt_examples.
Import Smt.
Abbreviation hash_of := Toy.hash_of.

Definition left_val (x : bytes) : N := be_val (take 32 (tail x)).
Definition left_digest (x : bytes) : Hash := hash_of (left_val x + 1).
Instance left_blake3 : Blake3 := left_digest.

Definition v0 : bytes := [3; 231].
Definition h0 : list op := [Ins Hash_ZERO v0].

Lemma as_bytes_hash_of n : as_bytes (hash_of n) = to_be 32 n.
Proof. done. Qed.
Lemma left_node l r : left_val (node_preimage l r) = be_val (as_bytes l).
Proof.
  unfold left_val, node_preimage. cbn [tail].
  by rewrite take_app_length' by (symmetry; apply length_as_bytes).
Qed.
Lemma val_hash_of n : n < 2 ^ 256 → be_val (as_bytes (hash_of n)) = n.
Proof. intros Hn. rewrite as_bytes_hash_of, be_val_to_be. by apply N.mod_small. Qed.
Lemma hash_node_of n r : n < 2 ^ 256 → hash_node (hash_of n) r = hash_of (n + 1).
Proof.
  intros Hn. unfold hash_node. change (left_digest (node_preimage (hash_of n) r) = hash_of (n + 1)).
  unfold left_digest. rewrite left_node, val_hash_of by done. done.
Qed.

Lemma small n : n < 10000 → n < 2 ^ 256.
Proof. intros. etrans; [exact H|]. done. Qed.

Lemma default_at_of l : (l ≤ 300)%nat → default_at l = hash_of (N.of_nat l).
Proof.
  induction l as [|l IH]; intros Hl; [by apply as_bytes_inj|]. cbn [default_at].
  rewrite IH by lia. rewrite hash_node_of by (apply small; lia). f_equal. lia.
Qed.

(** The strings that can occur, by number. *)
Definition D (i : nat) : bytes := node_preimage (hash_of (N.of_nat i)) (hash_of (N.of_nat i)).
Definition P (i : nat) : bytes := node_preimage (hash_of (1000 + N.of_nat i)) (hash_of (N.of_nat i)).
Inductive numbered : N → bytes → Prop :=
| num_D i : (i < 256)%nat → numbered (N.of_nat i) (D i)
| num_leaf : numbered 999 (leaf_preimage v0)
| num_P i : (i < 256)%nat → numbered (1000 + N.of_nat i) (P i).

Lemma numbered_left n x : numbered n x → left_val x = n ∧ n < 2000.
Proof.
  destruct 1 as [i Hi| |i Hi]; (split; [|lia]).
  - unfold D. rewrite left_node. apply val_hash_of, small. lia.
  - done.
  - unfold P. rewrite left_node. apply val_hash_of, small. lia.
Qed.
Lemma numbered_fun n x y : numbered n x → numbered n y → x = y.
Proof. destruct 1; inversion 1; subst; try done; try lia; f_equal; lia. Qed.

Lemma numbered_no_break l : (∀ x, x ∈ l → ∃ n, numbered n x) → no_break l.
Proof.
  intros Hl.
  assert (∀ x n, numbered n x → be_val (as_bytes (digest x)) = n + 1) as Hd.
  { intros x n Hn. destruct (numbered_left n x Hn) as [E ?].
    change (be_val (as_bytes (hash_of (left_val x + 1))) = n + 1). rewrite E.
    apply val_hash_of, small. lia. }
  split.
  - intros x y [n Hn]%Hl [m Hm]%Hl E. pose proof (Hd _ _ Hn) as E1. rewrite E, (Hd _ _ Hm) in E1.
    assert (m = n) as -> by lia. by eapply numbered_fun.
  - intros x [n Hn]%Hl E. pose proof (Hd _ _ Hn) as E1. rewrite E in E1.
    change (0 = n + 1) in E1. lia.
Qed.

Lemma defaults_numbered n : ∀ j x, (j + n ≤ 256)%nat →
  x ∈ defaults_hashed n (default_at j) → ∃ n, numbered n x.
Proof.
  induction n as [|n IH]; intros j x Hj Hx; [inversion Hx|].
  cbn [defaults_hashed] in Hx. apply elem_of_cons in Hx as [->|Hx].
  - exists (N.of_nat j). rewrite default_at_of by lia. apply num_D. lia.
  - apply (IH (S j)); [lia|exact Hx].
Qed.

Lemma spec_sibs_empty n : ∀ p, spec_sibs ∅ p (replicate n false) = default_at <$> reverse (seq 0 n).
Proof.
  induction n as [|n IH]; intros p; [done|]. cbn [replicate spec_sibs].
  rewrite seq_S, reverse_snoc, fmap_cons. f_equal; [|apply IH].
  by rewrite length_replicate, subtree_empty.
Qed.

Lemma path_numbered n : (n ≤ 256)%nat →
  up (replicate n false) (default_at <$> reverse (seq 0 n)) (hash_leaf v0) = hash_of (1000 + N.of_nat n) ∧
  ∀ x, x ∈ up_hashed (replicate n false) (default_at <$> reverse (seq 0 n)) (hash_leaf v0) →
    ∃ n, numbered n x.
Proof.
  induction n as [|n IH]; intros Hn.
  { split; [by apply as_bytes_inj|]. intros x Hx. inversion Hx. }
  destruct (IH ltac:(lia)) as [E Hx]. clear IH. rewrite seq_S, reverse_snoc, fmap_cons.
  cbn [replicate]. rewrite up_hashed_cons. cbn [up]. rewrite E, default_at_of, Nat.add_0_l by lia. split.
  - rewrite hash_node_of by (apply small; lia). f_equal. lia.
  - intros x [->|Hin]%elem_of_cons; [|by apply Hx]. eexists. apply (num_P n). lia.
Qed.

Lemma key_path_zero : key_path Hash_ZERO = replicate 256 false.
Proof. reflexivity. Qed.

Lemma new_no_break : no_break (defaults_hashed TREE_HEIGHT Hash_ZERO).
Proof.
  apply numbered_no_break. intros x Hx. exact (defaults_numbered 256 0 x ltac:(lia) Hx).
Qed.
Lemma siblings_new : siblings_for new Hash_ZERO = default_at <$> reverse (seq 0 256).
Proof.
  rewrite (siblings_for_spec _ _ Hash_ZERO inv_new new_no_break), key_path_zero.
  unfold by_path. cbn [values new]. rewrite kmap_empty. apply spec_sibs_empty.
Qed.
Lemma h0_numbered x : x ∈ run_hashed h0 → ∃ n, numbered n x.
Proof.
  unfold run_hashed, h0. cbn [hashed_from step_hashed]. rewrite app_nil_r, siblings_new, key_path_zero.
  intros [Hx|[->|Hx]%elem_of_cons]%elem_of_app.
  - exact (defaults_numbered 256 0 x ltac:(lia) Hx).
  - eexists. apply num_leaf.
  - by apply (path_numbered 256).
Qed.
Lemma h0_no_break : no_break (run_hashed h0).
Proof. apply numbered_no_break, h0_numbered. Qed.

(** Removing an absent key hashes nothing. *)
Definition h1 : list op := [Rem (hash_of 5); Ins Hash_ZERO v0].
Lemma h1_hashed : run_hashed h1 = run_hashed h0.
Proof.
  assert (values new !! hash_of 5 = None) as Ev.
  { unfold new. cbn [values]. apply lookup_empty. }
  assert (remove new (hash_of 5) = (new, None)) as E by (unfold remove; by rewrite Ev).
  unfold run_hashed, h1, h0. cbn [hashed_from step_hashed step]. by rewrite E, Ev.
Qed.
Lemma h1_map : mrun h1 = mrun h0.
Proof. unfold mrun, h1, h0. cbn [foldl mstep]. by rewrite delete_empty. Qed.

Lemma smt_root_canonical_witness : root (run h1) = root (run h0).
Proof.
  refine (proj2 (smt_root_canonical h0 h0_no_break) h1 _ _).
  - rewrite h1_hashed. exact h0_no_break.
  - exact h1_map.
Defined.
Lemma smt_prove_complete_witness :
  verify (prove (run h0) (hash_of 5)) (root (run h0)) (hash_of 5) (mrun h0 !! hash_of 5) = true.
Proof. exact (smt_prove_complete h0 (hash_of 5) h0_no_break). Defined.
Lemma smt_proof_sound_witness : mrun h0 !! Hash_ZERO = mrun h0 !! Hash_ZERO.
Proof.
  refine (smt_proof_sound h0 (prove (run h0) Hash_ZERO) Hash_ZERO (mrun h0 !! Hash_ZERO) _ _).
  - apply numbered_no_break. intros x [Hx|Hx]%elem_of_app; apply h0_numbered; [done|].
    revert Hx. apply prove_hashed, h0_no_break.
  - rewrite <- run_values. exact (prove_verifies _ _ _ (run_inv h0 h0_no_break) h0_no_break).
Defined.
Lemma smt_root_binding_witness : mrun h1 = mrun h0.
Proof.
  refine (smt_root_binding h1 h0 _ _).
  - apply numbered_no_break. rewrite h1_hashed.
    intros x [Hx|Hx]%elem_of_app; by apply h0_numbered.
  - rewrite (inv_root _ _ (run_inv h0 h0_no_break)).
    assert (no_break (run_hashed h1)) as Hb by (rewrite h1_hashed; exact h0_no_break).
    rewrite (inv_root _ _ (run_inv h1 Hb)). rewrite !run_values. by rewrite h1_map.
Defined.
End Smt_examples.
