(* ===== verification/Types.v ===== *)
(** * Signing domains, intents, actions and transactions
    (crates/primitives/src/signing_domain.rs, crates/intents/src/lib.rs,
    crates/types/src/transaction.rs, receipt.rs)

    The data a node executes and the byte strings its signatures cover.  The
    Borsh encoders are interfaces; everything around them is written out. *)

From S2P Require Import Prelude Primitives Crypto Compliance.

(** [u64::to_le_bytes]. *)
Definition u64_le (n : N) : bytes := reverse (to_be 8 n).

(** ** Signing domains *)

Record SigningDomain := mkSigningDomain { chain_id : string; genesis : Hash }.
#[global] Instance SigningDomain_eq_dec : EqDecision SigningDomain.
Proof. solve_decision. Defined.

Definition frame (d : SigningDomain) (tag body : bytes) : bytes :=
  tag ++ [0] ++ string_bytes (chain_id d) ++ [0] ++ as_bytes (genesis d) ++ body.

Inductive TxDomainMode :=
| Legacy
| Grace (d : SigningDomain)
| Bound (d : SigningDomain).

Definition verifies (m : TxDomainMode) (verify : option SigningDomain → bool) : bool :=
  match m with
  | Legacy => verify None
  | Grace domain => verify (Some domain) || verify None
  | Bound domain => verify (Some domain)
  end.
Definition bound_domain (m : TxDomainMode) : option SigningDomain :=
  match m with
  | Legacy => None
  | Grace domain | Bound domain => Some domain
  end.

(** ** Intents *)

Inductive Asset := Sov | Token (id : Hash).
#[global] Instance Asset_eq_dec : EqDecision Asset.
Proof. solve_decision. Defined.

Record Intent := mkIntent {
  i_owner : AccountId;
  i_public_key : PublicKey;
  i_nonce : N;
  give_asset : Asset;
  give_amount : N;
  want_asset : Asset;
  min_receive : N;
  expiry_height : N;
}.
Record SignedIntent := mkSignedIntent { si_intent : Intent; si_signature : Signature }.
Record Settlement := mkSettlement { s_intent : SignedIntent; s_solver : AccountId; deliver_amount : N }.

Definition INTENT_SIGNING_DOMAIN_TAG : bytes := string_bytes "sov:intent:v1".

Section intents.
Context `{Blake3, SigScheme, Borsh Intent}.

Definition intent_signing_bytes_in (i : Intent) (domain : option SigningDomain) : bytes :=
  match domain with
  | None => to_vec i
  | Some d => frame d INTENT_SIGNING_DOMAIN_TAG (to_vec i)
  end.
Definition intent_id (i : Intent) : Hash := digest (to_vec i).
Definition intent_verify_in (s : SignedIntent) (domain : option SigningDomain) : bool :=
  verify (i_public_key (si_intent s)) (intent_signing_bytes_in (si_intent s) domain) (si_signature s).
Definition intent_verify_mode (s : SignedIntent) (m : TxDomainMode) : bool :=
  verifies m (intent_verify_in s).
End intents.

(** ** Actions *)

(** [sov_types::MultisigApproval]: a signer index and its signature. *)
Record ExecApproval := mkExecApproval { ap_signer : N; ap_signature : Signature }.

Module Action.
Inductive t :=
| Transfer (to : AccountId) (amount : Balance)
| ClaimVesting
| Deploy (code : bytes)
| Call (contract : AccountId) (gas_limit : N) (calldata : bytes)
| Shielded (bundle : bytes)
| HtlcLock (recipient : AccountId) (amount : Balance) (hashlock : Hash) (timeout_height : N)
| HtlcClaim (htlc_id : Hash) (preimage : bytes)
| HtlcRefund (htlc_id : Hash)
| TokenIssue (symbol : string) (amount : Balance) (to : AccountId)
| TokenTransfer (asset : Hash) (to : AccountId) (amount : Balance)
| TokenBurn (asset : Hash) (amount : Balance)
| TokenSetPolicy (asset : Hash) (policy : CompliancePolicy)
| IntentSettle (settlement : Settlement)
| IntentCancel (intent : Intent)
| RotateKey (new_key : PublicKey) (proof : Signature)
| RegisterName (name : string)
| TransferName (name : string) (to : AccountId)
| NftMint (symbol : string) (token_id : bytes) (to : AccountId) (metadata : bytes)
| NftTransfer (collection : Hash) (token_id : bytes) (to : AccountId)
| NftSetMeta (collection : Hash) (token_id : bytes) (metadata : bytes)
| SetMultisig (signers : list PublicKey) (threshold : N)
| MultisigExec (action : t) (approvals : list ExecApproval)
| ProposeMultisig (account : AccountId) (action : t)
| ApproveMultisig (account : AccountId) (proposal : Hash)
| CancelMultisig (account : AccountId) (proposal : Hash)
| VaultDeposit (amount : Balance)
| VaultMint (amount : Balance)
| VaultBurn (amount : Balance)
| VaultWithdraw (amount : Balance)
| OracleUpdate (price : N)
| Tipped (tip : Balance) (inner : t)
| ShieldedV2 (bundle : bytes)
| Timestamped (created_at_ms : N) (inner : t).
End Action.

Definition TX_TIMESTAMP_FUTURE_TOLERANCE_MS : N := 2 * 60 * 1000.
Definition TX_TIMESTAMP_MAX_AGE_MS : N := 30 * 60 * 1000.

(** ** Transactions *)

Record Transaction := mkTransaction {
  signer_id : AccountId;
  public_key : PublicKey;
  tx_nonce : N;
  action : Action.t;
}.
Record SignedTransaction := mkSignedTransaction { transaction : Transaction; signature : Signature }.

Definition TX_SIGNING_DOMAIN_TAG : bytes := string_bytes "sov:tx:v1".

Section transactions.
Context `{Blake3, SigScheme, Borsh Transaction, Borsh Action.t, Borsh PublicKey}.

Definition tx_signing_bytes_in (tx : Transaction) (domain : option SigningDomain) : bytes :=
  match domain with
  | None => to_vec tx
  | Some d => frame d TX_SIGNING_DOMAIN_TAG (to_vec tx)
  end.
Definition tx_id (stx : SignedTransaction) : Hash := digest (to_vec (transaction stx)).
Definition verify_signature_in (stx : SignedTransaction) (domain : option SigningDomain) : bool :=
  verify (public_key (transaction stx)) (tx_signing_bytes_in (transaction stx) domain) (signature stx).
Definition verify_signature_mode (stx : SignedTransaction) (m : TxDomainMode) : bool :=
  verifies m (verify_signature_in stx).

Definition multisig_signing_bytes (account : AccountId) (nonce : N) (a : Action.t) : bytes :=
  string_bytes "sov:multisig:v1" ++ [0] ++ acc_bytes account ++ [0] ++ u64_le nonce ++ to_vec a.
Definition rotation_signing_bytes (signer : AccountId) (nonce : N) (new_key : PublicKey) : bytes :=
  string_bytes "sov:rotate:v1" ++ [0] ++ acc_bytes signer ++ [0] ++ u64_le nonce ++ to_vec new_key.
End transactions.

(** ** Receipts *)

Inductive ExecutionStatus := Success | Failed (reason : string).
Record Event := mkEvent { topic : bytes; data : bytes }.
Record Receipt := mkReceipt {
  r_tx_id : Hash;
  status : ExecutionStatus;
  r_gas_used : N;
  r_return_data : bytes;
  r_events : list Event;
  timing : option N;
}.
Definition succeeded (r : Receipt) : bool :=
  match status r with Success => true | Failed _ => false end.

(** ** Framing is injective *)

(** A chain id is text without a NUL byte. *)
Definition no_nul (s : string) : bool := forallb (λ b, negb (b =? 0)) (string_bytes s).

(** Text before the first NUL determines the split. *)
Lemma split_at_nul (a b x y : bytes) :
  forallb (λ c, negb (c =? 0)) a = true → forallb (λ c, negb (c =? 0)) b = true →
  a ++ [0] ++ x = b ++ [0] ++ y → a = b ∧ x = y.
Proof.
  revert b. induction a as [|c a IH]; intros [|d b]; simpl; intros Ha Hb E.
  - naive_solver.
  - injection E as <- E. by simpl in Hb.
  - injection E as -> E. by simpl in Ha.
  - injection E as <- E. apply andb_true_iff in Ha as [_ Ha]. apply andb_true_iff in Hb as [_ Hb].
    destruct (IH _ Ha Hb E). naive_solver.
Qed.

Lemma frame_inj d1 d2 t1 t2 b1 b2 :
  forallb (λ c, negb (c =? 0)) t1 = true → forallb (λ c, negb (c =? 0)) t2 = true →
  no_nul (chain_id d1) = true → no_nul (chain_id d2) = true →
  frame d1 t1 b1 = frame d2 t2 b2 → d1 = d2 ∧ t1 = t2 ∧ b1 = b2.
Proof.
  intros H1 H2 C1 C2 E. unfold frame in E.
  apply split_at_nul in E as [-> E]; [|done..].
  apply split_at_nul in E as [Ec E]; [|done..].
  apply app_inj_1 in E as [Eg ->].
  - destruct d1, d2; simpl in *. apply string_bytes_inj in Ec as ->.
    apply as_bytes_inj in Eg as ->. done.
  - by rewrite !length_as_bytes.
Qed.

Section domains.
Context `{Blake3, SigScheme, Borsh Transaction}.

(** Replay protection across networks.  Once signatures are bound to a chain,
    what a signature covers determines the chain, the transaction and that it is a
    transaction: two framed preimages agree only if the domains, the kinds of
    object (the tags) and the encoded contents agree; and no framed transaction is
    a framed intent. *)
Theorem bound_preimage_inj (d1 d2 : SigningDomain) (tx1 tx2 : Transaction) :
  no_nul (chain_id d1) = true → no_nul (chain_id d2) = true →
  (tx_signing_bytes_in tx1 (Some d1) = tx_signing_bytes_in tx2 (Some d2) →
     d1 = d2 ∧ to_vec tx1 = to_vec tx2) ∧
  (∀ `{Borsh Intent} (i : Intent),
     tx_signing_bytes_in tx1 (Some d1) ≠ intent_signing_bytes_in i (Some d2)).
Proof.
  intros C1 C2. split.
  - intros E. apply frame_inj in E as (-> & _ & E); [|done..]. done.
  - intros ? i E. apply frame_inj in E as (_ & E & _); [|done..]. done.
Qed.
End domains.
