(* ===== verification/Block.v ===== *)
(** * Blocks, receipts and weights (crates/types/src/block.rs, receipt.rs, weight.rs)

    Block headers and the roots they commit to, the consensus encoding of receipts
    with its inclusion proofs, and the weight that bounds what a transaction or a
    block costs. *)

From S2P Require Import Prelude Primitives Crypto Merkle Types.

(** ** Receipts *)

(** A self-delimiting encoder: Borsh writes fixed-width integers, tagged enums and
    length-prefixed sequences, so no encoding is a prefix of another. *)
Class BorshPrefix (A : Type) `{Borsh A} :=
  to_vec_prefix : ∀ (a b : A) (r s : bytes), to_vec a ++ r = to_vec b ++ s → a = b ∧ r = s.

Section receipts.
Context `{Blake3, Borsh Hash, Borsh ExecutionStatus, Borsh N, Borsh bytes, Borsh (list Event)}.

Definition legacy_bytes (r : Receipt) : bytes :=
  to_vec (r_tx_id r) ++ to_vec (status r) ++ to_vec (r_gas_used r) ++ to_vec (r_return_data r)
  ++ to_vec (r_events r).
Definition consensus_bytes (r : Receipt) : bytes :=
  legacy_bytes r ++ match timing r with Some t => 1 :: to_vec t | None => [] end.
Definition receipt_hash (r : Receipt) : Hash := digest (consensus_bytes r).
Definition receipts_root (receipts : list Receipt) : option Hash :=
  merkle_root (receipt_hash <$> receipts).

Record ReceiptProof := mkReceiptProof { rp_index : N; rp_siblings : list MerkleStep }.
Definition receipt_proof (receipts : list Receipt) (index : nat) : option ReceiptProof :=
  siblings ← merkle_proof (receipt_hash <$> receipts) index;
  Some (mkReceiptProof (N.of_nat index mod 2 ^ 32) siblings).
Definition verify_receipt_proof (r : Receipt) (p : ReceiptProof) (root : Hash) : bool :=
  verify_merkle_proof (receipt_hash r) (rp_siblings p) root.

(** Every receipt of a block has an inclusion proof and it verifies under the
    receipts root of the block, which always exists. *)
Theorem receipt_proof_complete (receipts : list Receipt) (i : nat) (r : Receipt) :
  receipts !! i = Some r →
  ∃ root p, receipts_root receipts = Some root ∧ receipt_proof receipts i = Some p ∧
    rp_index p = N.of_nat i mod 2 ^ 32 ∧ verify_receipt_proof r p root = true.
Proof.
  intros Hi. destruct (merkle_complete (receipt_hash <$> receipts) i (receipt_hash r)) as
    (root & proof & Hr & Hp & Hv); [by rewrite list_lookup_fmap, Hi|].
  unfold receipts_root, receipt_proof. rewrite Hp. by exists root, (mkReceiptProof (N.of_nat i mod 2 ^ 32) proof).
Qed.

Context `{!BorshPrefix Hash, !BorshPrefix ExecutionStatus, !BorshPrefix N, !BorshPrefix bytes,
  !BorshPrefix (list Event)}.

Lemma legacy_bytes_prefix a b (x y : bytes) :
  legacy_bytes a ++ x = legacy_bytes b ++ y →
  r_tx_id a = r_tx_id b ∧ status a = status b ∧ r_gas_used a = r_gas_used b ∧
  r_return_data a = r_return_data b ∧ r_events a = r_events b ∧ x = y.
Proof.
  unfold legacy_bytes. rewrite <- !app_assoc. intros E.
  repeat match goal with E : to_vec _ ++ _ = to_vec _ ++ _ |- _ => apply to_vec_prefix in E as [? E] end.
  done.
Qed.

(** The encoding that is hashed determines the receipt, with or without a
    creation time, although the absent time is not marked in it. *)
Lemma consensus_bytes_inj a b : consensus_bytes a = consensus_bytes b → a = b.
Proof.
  unfold consensus_bytes. intros E.
  apply legacy_bytes_prefix in E as (? & ? & ? & ? & ? & E).
  assert (timing a = timing b); [|destruct a, b; simpl in *; congruence].
  destruct (timing a) as [t|], (timing b) as [u|]; [|done..]. injection E as E.
  f_equal. apply (proj1 (to_vec_prefix t u [] [] ltac:(by rewrite !app_nil_r))).
Qed.

(** A receipt that verifies under the root of a block's receipts is one of them,
    down to its gas, its events and its committed creation time, unless the strings
    hashed to build the tree and to check the proof collide. *)
Theorem receipt_proof_sound (receipts : list Receipt) (root : Hash) (r : Receipt) (p : ReceiptProof) :
  receipts_root receipts = Some root →
  no_break (merkle_hashed (receipt_hash <$> receipts)
            ++ proof_hashed (receipt_hash r) (rp_siblings p)
            ++ (consensus_bytes <$> r :: receipts)) →
  verify_receipt_proof r p root = true → r ∈ receipts.
Proof.
  intros Hr Hn Hv. rewrite app_assoc in Hn.
  pose proof (merkle_proof_sound _ _ _ _ Hr (no_break_app_l _ _ Hn) Hv) as Hin.
  apply list_elem_of_fmap in Hin as (r' & E & Hr'). apply no_break_app_r in Hn as [Hinj _].
  apply Hinj in E; [by apply consensus_bytes_inj in E as ->|..].
  - by left.
  - right. by apply list_elem_of_fmap_2.
Qed.
End receipts.

(** ** Blocks *)

Record BlockHeader := mkBlockHeader {
  h_height : N;
  h_prev_hash : Hash;
  tx_root : Hash;
  h_receipts_root : Hash;
  h_state_root : Hash;
  timestamp_ms : N;
  proposer : AccountId;
  version_bits : N;
  bits : N;
  h_nonce : N;
}.
Record Block := mkBlock { header : BlockHeader; transactions : list SignedTransaction }.

Section blocks.
Context `{Blake3, SigScheme, Borsh Transaction, Borsh BlockHeader}.

Definition header_hash (h : BlockHeader) : Hash := digest (to_vec h).
Definition pow_preimage (h : BlockHeader) : bytes := to_vec h.
Definition block_hash (b : Block) : Hash := header_hash (header b).

(** [None] when the Merkle loop had no root, which [merkle_complete] excludes. *)
Definition compute_tx_root (txs : list SignedTransaction) : option Hash := merkle_root (tx_id <$> txs).
Definition assemble (height : N) (prev_hash state_root receipts_root : Hash) (timestamp_ms : N)
    (proposer : AccountId) (txs : list SignedTransaction) : option Block :=
  root ← compute_tx_root txs;
  Some (mkBlock (mkBlockHeader height prev_hash root receipts_root state_root timestamp_ms proposer 0 0 0) txs).
Definition block_is_genesis (b : Block) : bool := BlockHeight.is_genesis (h_height (header b)).
Definition tx_root_matches (b : Block) : bool :=
  bool_decide (compute_tx_root (transactions b) = Some (tx_root (header b))).
Definition all_signatures_valid_mode (b : Block) (mode : TxDomainMode) : bool :=
  forallb (λ s, verify_signature_mode s mode) (transactions b).

Lemma merkle_root_total (leaves : list Hash) : ∃ root, merkle_root leaves = Some root.
Proof.
  destruct leaves as [|l leaves]; [by eexists|].
  destruct (merkle_complete (l :: leaves) 0 l eq_refl) as (root & _ & -> & _). by eexists.
Qed.
Lemma assemble_matches height prev sr rr t p txs :
  ∃ b, assemble height prev sr rr t p txs = Some b ∧ tx_root_matches b = true ∧ transactions b = txs.
Proof.
  unfold assemble, compute_tx_root. destruct (merkle_root_total (tx_id <$> txs)) as [root E].
  rewrite E. eexists. split; [done|]. split; [|done]. apply bool_decide_eq_true. exact E.
Qed.
End blocks.

(** ** Weights *)

Definition WEIGHT_UNITS_PER_VERIFY_MS : N := 512.
Definition SHIELDED_V2_VERIFY_WEIGHT : N := 16 * WEIGHT_UNITS_PER_VERIFY_MS.
Definition MAX_BLOCK_WEIGHT : N := 4 * 1024 * 1024.
Definition MAX_TX_WEIGHT : N := MAX_BLOCK_WEIGHT / 16.
Definition MAX_SUITE2_TX_WEIGHT : N := 2304 * 1024.
Definition SHIELDED_V2_SUITE2_VERIFY_WEIGHT : N := 128 * WEIGHT_UNITS_PER_VERIFY_MS.
Definition FEE_RATE_WEIGHT_SCALE : N := 1000.

Fixpoint is_suite2_action (a : Action.t) : bool :=
  match a with
  | Action.ShieldedV2 bundle => bool_decide (head bundle = Some 2)
  | Action.Tipped _ inner | Action.Timestamped _ inner => is_suite2_action inner
  | Action.MultisigExec inner _ | Action.ProposeMultisig _ inner => is_suite2_action inner
  | _ => false
  end.
Fixpoint verify_weight (a : Action.t) : N :=
  match a with
  | Action.ShieldedV2 bundle =>
      if bool_decide (head bundle = Some 2) then SHIELDED_V2_SUITE2_VERIFY_WEIGHT
      else SHIELDED_V2_VERIFY_WEIGHT
  | Action.Tipped _ inner => verify_weight inner
  | Action.Timestamped _ inner => verify_weight inner
  | Action.MultisigExec a _ => verify_weight a
  | Action.ProposeMultisig _ a => verify_weight a
  | _ => 0
  end.

(** The length of a Borsh encoding, [serialized_size] of the source. *)
Class SerializedSize (A : Type) := serialized_size : A → N.

Definition tx_weight `{SerializedSize SignedTransaction} (stx : SignedTransaction) : N :=
  saturating_add u64_max (serialized_size stx) (verify_weight (action (transaction stx))).
Definition block_weight `{SerializedSize Block} (b : Block) : N :=
  foldl (λ acc stx, saturating_add u64_max acc (verify_weight (action (transaction stx))))
    (serialized_size b) (transactions b).
Definition fee_rate (bid_grains weight : N) : N :=
  let w := N.max weight 1 in
  saturating_mul u128_max bid_grains FEE_RATE_WEIGHT_SCALE / w.

(** ** Concrete receipts *)
Module Receipt_examples.
Import Crypto.Toy.

(** Self-delimiting encoders: fixed width, tag, or length prefix. *)
#[local] Instance enc_hash : Borsh Hash := as_bytes.
#[local] Instance enc_N : Borsh N := λ n, [n].
#[local] Instance enc_bytes : Borsh bytes := λ l, N.of_nat (length l) :: l.
#[local] Instance enc_status : Borsh ExecutionStatus := λ s,
  match s with Success => [0] | Failed reason => 1 :: to_vec (string_bytes reason) end.
Fixpoint event_list (l : list Event) : bytes :=
  match l with [] => [0] | e :: l => 1 :: to_vec (topic e) ++ to_vec (data e) ++ event_list l end.
#[local] Instance enc_events : Borsh (list Event) := event_list.

Instance pre_hash : BorshPrefix Hash.
Proof.
  intros a b r s E. apply app_inj_1 in E as [E ->]; [by apply as_bytes_inj in E|].
  unfold to_vec, enc_hash. by rewrite !length_as_bytes.
Qed.
Instance pre_N : BorshPrefix N.
Proof. intros a b r s [= -> ->]. done. Qed.
Instance pre_bytes : BorshPrefix bytes.
Proof. intros a b r s [= El E]. apply Nat2N.inj in El. by apply app_inj_1 in E as [-> ->]. Qed.
Instance pre_status : BorshPrefix ExecutionStatus.
Proof.
  intros [|x] [|y] r s E; [by injection E as ->|done|done|].
  change (1 :: (to_vec (string_bytes x) ++ r) = 1 :: (to_vec (string_bytes y) ++ s)) in E.
  apply (f_equal tail) in E. apply to_vec_prefix in E as [E ->]. by apply string_bytes_inj in E as ->.
Qed.
Instance pre_events : BorshPrefix (list Event).
Proof.
  intros a. induction a as [|[t d] a IH]; intros [|[t' d'] b] r s E; [by injection E as ->|done|done|].
  change (1 :: ((to_vec t ++ to_vec d ++ to_vec a) ++ r)
    = 1 :: ((to_vec t' ++ to_vec d' ++ to_vec b) ++ s)) in E.
  apply (f_equal tail) in E. cbn [tail] in E. rewrite <- !app_assoc in E. apply to_vec_prefix in E as [-> E].
  apply to_vec_prefix in E as [-> E]. by apply IH in E as [-> ->].
Qed.

Definition paid : Receipt := mkReceipt (hash_of 1) Success 21000 [] [] None.
Definition late : Receipt := mkReceipt (hash_of 2) (Failed "insufficient balance") 21000 [] [] (Some 1700000000).
Definition both : list Receipt := [paid; late].
Definition both_root : Hash := default Hash_ZERO (receipts_root both).
Definition late_proof : ReceiptProof := default (mkReceiptProof 0 []) (receipt_proof both 1).

Lemma receipt_proof_complete_witness :
  ∃ root p, receipts_root both = Some root ∧ receipt_proof both 1 = Some p ∧
    rp_index p = 1 ∧ verify_receipt_proof late p root = true.
Proof. exact (receipt_proof_complete both 1 late eq_refl). Defined.
Lemma receipt_proof_sound_witness : late ∈ both.
Proof.
  refine (receipt_proof_sound both both_root late late_proof _ _ _).
  - by vm_compute.
  - apply no_breakb_sound. by vm_compute.
  - by vm_compute.
Defined.
End Receipt_examples.
