(* ===== verification/Gas.v ===== *)
(** * The gas schedule (crates/runtime/src/gas.rs)

    [u64] additions and multiplications wrap, as in the release build; the
    schedule is shown never to wrap for any transaction that fits in memory. *)

From S2P Require Import Prelude Primitives Crypto Compliance Types.

Definition u64_wrap (n : N) : N := n mod 2 ^ 64.
Definition wadd (a b : N) : N := u64_wrap (a + b).
Definition wmul (a b : N) : N := u64_wrap (a * b).

Definition INTRINSIC_GAS : N := 21000.
Definition BOOKKEEPING_GAS : N := 30000.
Definition DEPLOY_GAS_PER_BYTE : N := 200.
Definition CALLDATA_GAS_PER_BYTE : N := 16.
Definition SHIELDED_VERIFY_GAS : N := 500000.
Definition SHIELDED_V2_VERIFY_GAS : N := 500000.
Definition INTENT_VERIFY_GAS : N := 30000.
Definition ML_DSA_VERIFY_GAS : N := 60000.
Definition POLICY_GAS_PER_ENTRY : N := 2000.
Definition ML_DSA_65_PK_LEN : N := 1952.
Definition ML_DSA_65_SIG_LEN : N := 3309.

Definition len {A} (l : list A) : N := N.of_nat (length l).

Definition policy_entries (p : CompliancePolicy) : N :=
  match transfer_control p with
  | Unrestricted => 0
  | AllowList set | DenyList set => N.of_nat (size set)
  end.

Fixpoint gas_for (a : Action.t) : N :=
  match a with
  | Action.Transfer _ _ => INTRINSIC_GAS
  | Action.ClaimVesting => INTRINSIC_GAS
  | Action.Deploy code => wadd INTRINSIC_GAS (wmul (len code) DEPLOY_GAS_PER_BYTE)
  | Action.Call _ _ calldata => wadd INTRINSIC_GAS (wmul (len calldata) CALLDATA_GAS_PER_BYTE)
  | Action.Shielded _ => wadd INTRINSIC_GAS SHIELDED_VERIFY_GAS
  | Action.HtlcLock _ _ _ _ | Action.HtlcClaim _ _ | Action.HtlcRefund _ =>
      wadd INTRINSIC_GAS BOOKKEEPING_GAS
  | Action.TokenIssue _ _ _ | Action.TokenTransfer _ _ _ | Action.TokenBurn _ _ =>
      wadd INTRINSIC_GAS BOOKKEEPING_GAS
  | Action.TokenSetPolicy _ policy =>
      wadd (wadd INTRINSIC_GAS BOOKKEEPING_GAS) (wmul (policy_entries policy) POLICY_GAS_PER_ENTRY)
  | Action.IntentSettle _ => wadd (wadd INTRINSIC_GAS BOOKKEEPING_GAS) INTENT_VERIFY_GAS
  | Action.IntentCancel _ => wadd INTRINSIC_GAS BOOKKEEPING_GAS
  | Action.RotateKey _ _ => wadd (wadd INTRINSIC_GAS BOOKKEEPING_GAS) INTENT_VERIFY_GAS
  | Action.RegisterName _ | Action.TransferName _ _ => wadd INTRINSIC_GAS BOOKKEEPING_GAS
  | Action.NftMint _ token_id _ metadata =>
      wadd (wadd INTRINSIC_GAS BOOKKEEPING_GAS)
        (wmul (wadd (len token_id) (len metadata)) CALLDATA_GAS_PER_BYTE)
  | Action.NftTransfer _ _ _ => wadd INTRINSIC_GAS BOOKKEEPING_GAS
  | Action.NftSetMeta _ _ metadata =>
      wadd (wadd INTRINSIC_GAS BOOKKEEPING_GAS) (wmul (len metadata) CALLDATA_GAS_PER_BYTE)
  | Action.SetMultisig signers _ =>
      wadd (wadd INTRINSIC_GAS BOOKKEEPING_GAS) (wmul (len signers) POLICY_GAS_PER_ENTRY)
  | Action.MultisigExec action approvals =>
      let inner := match action with
                   | Action.MultisigExec _ _ => INTRINSIC_GAS
                   | _ => gas_for action
                   end in
      wadd (wadd INTRINSIC_GAS (wmul (len approvals) INTENT_VERIFY_GAS)) inner
  | Action.ProposeMultisig _ _ | Action.ApproveMultisig _ _ | Action.CancelMultisig _ _ =>
      wadd INTRINSIC_GAS BOOKKEEPING_GAS
  | Action.VaultDeposit _ | Action.VaultMint _ | Action.VaultBurn _ | Action.VaultWithdraw _
  | Action.OracleUpdate _ => wadd INTRINSIC_GAS BOOKKEEPING_GAS
  | Action.Tipped _ inner =>
      let g := match inner with
               | Action.Tipped _ _ => INTRINSIC_GAS
               | _ => gas_for inner
               end in
      saturating_add u64_max g BOOKKEEPING_GAS
  | Action.Timestamped _ inner =>
      let g := match inner with
               | Action.Timestamped _ _ => INTRINSIC_GAS
               | _ => gas_for inner
               end in
      saturating_add u64_max g BOOKKEEPING_GAS
  | Action.ShieldedV2 bundle =>
      saturating_add u64_max (saturating_add u64_max INTRINSIC_GAS SHIELDED_V2_VERIFY_GAS)
        (saturating_mul u64_max (len bundle) CALLDATA_GAS_PER_BYTE)
  end.

Definition hybrid_envelope_gas : N :=
  wadd (wmul (wadd ML_DSA_65_PK_LEN ML_DSA_65_SIG_LEN) CALLDATA_GAS_PER_BYTE) ML_DSA_VERIFY_GAS.
Definition envelope_gas (key : PublicKey) : N :=
  match key with
  | PkV1Ed25519 _ => 0
  | PkV2HybridMlDsa65 _ _ => hybrid_envelope_gas
  end.

(** ** The schedule never wraps *)

(** The schedule over unbounded integers. *)
Fixpoint gas_exact (a : Action.t) : N :=
  match a with
  | Action.Transfer _ _ | Action.ClaimVesting => 21000
  | Action.Deploy code => 21000 + 200 * len code
  | Action.Call _ _ calldata => 21000 + 16 * len calldata
  | Action.Shielded _ => 521000
  | Action.TokenSetPolicy _ policy => 51000 + 2000 * policy_entries policy
  | Action.IntentSettle _ | Action.RotateKey _ _ => 81000
  | Action.NftMint _ token_id _ metadata => 51000 + 16 * (len token_id + len metadata)
  | Action.NftSetMeta _ _ metadata => 51000 + 16 * len metadata
  | Action.SetMultisig signers _ => 51000 + 2000 * len signers
  | Action.MultisigExec action approvals =>
      21000 + 30000 * len approvals
      + match action with Action.MultisigExec _ _ => 21000 | _ => gas_exact action end
  | Action.Tipped _ inner =>
      match inner with Action.Tipped _ _ => 21000 | _ => gas_exact inner end + 30000
  | Action.Timestamped _ inner =>
      match inner with Action.Timestamped _ _ => 21000 | _ => gas_exact inner end + 30000
  | Action.ShieldedV2 bundle => 521000 + 16 * len bundle
  | _ => 51000
  end.

(** What an action carries: bytes, list entries and envelopes. *)
Fixpoint payload (a : Action.t) : N :=
  match a with
  | Action.Deploy code => len code
  | Action.Call _ _ calldata => len calldata
  | Action.TokenSetPolicy _ policy => policy_entries policy
  | Action.NftMint _ token_id _ metadata => len token_id + len metadata
  | Action.NftSetMeta _ _ metadata => len metadata
  | Action.SetMultisig signers _ => len signers
  | Action.MultisigExec action approvals => 1 + len approvals + payload action
  | Action.Tipped _ inner | Action.Timestamped _ inner => 1 + payload inner
  | Action.ShieldedV2 bundle => len bundle
  | _ => 0
  end.

Lemma u64_wrap_small n : n < 2 ^ 64 → u64_wrap n = n.
Proof. apply N.mod_small. Qed.

Lemma gas_exact_bounds a : 21000 ≤ gas_exact a ≤ 600000 + 30000 * payload a.
Proof. induction a; cbn [gas_exact payload]; repeat case_match; lia. Qed.

Ltac gas_consts :=
  unfold INTRINSIC_GAS, BOOKKEEPING_GAS, DEPLOY_GAS_PER_BYTE, CALLDATA_GAS_PER_BYTE,
    SHIELDED_VERIFY_GAS, SHIELDED_V2_VERIFY_GAS, INTENT_VERIFY_GAS, POLICY_GAS_PER_ENTRY in *.

(** Removes the wraps of in-range arguments, innermost first. *)
Ltac no_wrap :=
  repeat match goal with
  | |- context [u64_wrap ?n] =>
      lazymatch n with
      | context [u64_wrap _] => fail
      | _ => rewrite (u64_wrap_small n) by (change (2 ^ 64) with 18446744073709551616; lia)
      end
  end.

(** Gas accounting is exact.  For every action whose byte strings, lists and
    envelopes number below 2^40, the [u64] arithmetic of the schedule neither wraps
    nor saturates, the charge is at least the intrinsic 21,000 and at most linear
    in what the action carries. *)
Theorem gas_for_exact (a : Action.t) :
  payload a ≤ 2 ^ 40 →
  gas_for a = gas_exact a ∧ INTRINSIC_GAS ≤ gas_for a ≤ 600000 + 30000 * payload a.
Proof.
  assert (∀ a, payload a ≤ 2 ^ 40 → gas_for a = gas_exact a) as Hg.
  { clear a. change (2 ^ 40) with 1099511627776. induction a; intros Ha; try done;
      cbn [gas_for gas_exact payload] in *; unfold wadd, wmul, saturating_add, saturating_mul, u64_max;
      gas_consts; change (2 ^ 64) with 18446744073709551616;
      try (no_wrap; lia);
      pose proof (IHa ltac:(lia)) as E; pose proof (gas_exact_bounds a);
      clear IHa; destruct a; rewrite ?E; no_wrap; lia. }
  intros Ha. rewrite (Hg a Ha). split; [done|]. apply gas_exact_bounds.
Qed.
Lemma gas_for_exact_witness : gas_for (Action.Tipped 5 (Action.Deploy [1; 2; 3])) = 51600.
Proof. apply (proj1 (gas_for_exact (Action.Tipped 5 (Action.Deploy [1; 2; 3])) ltac:(done))). Defined.
