(* ===== verification/Vault.v ===== *)
(** * Accounts and xUSD vaults (crates/state/src/account.rs, vault.rs) *)

From S2P Require Import Prelude Primitives Crypto.

(** ** The account model *)

Record Account := mkAccount {
  nonce : N;
  balance : Balance;
  locked : Balance;
  unlock_height : N;
  key : option PublicKey;
  code : option bytes;
}.
#[global] Instance Account_eq_dec : EqDecision Account.
Proof. solve_decision. Defined.

Module Acct.
Definition default : Account := mkAccount 0 0 0 0 None None.
Definition new (k : PublicKey) (b : Balance) : Account := mkAccount 0 b 0 0 (Some k) None.
Definition with_balance (b : Balance) : Account := mkAccount 0 b 0 0 None None.
Definition total (a : Account) : option Balance := Bal.checked_add (balance a) (locked a).
Definition spendable (a : Account) : Balance := balance a.
Definition can_claim_vesting (a : Account) (height : N) : bool :=
  negb (locked a =? 0) && (unlock_height a <=? height).
Definition is_controlled_by (a : Account) (k : PublicKey) : bool := bool_decide (key a = Some k).
Definition is_contract (a : Account) : bool := match code a with Some _ => true | None => false end.
Definition is_empty (a : Account) : bool := bool_decide (a = default).

(** Functional record updates. *)
Definition set_nonce (n : N) (a : Account) : Account :=
  mkAccount n (balance a) (locked a) (unlock_height a) (key a) (code a).
Definition set_balance (b : Balance) (a : Account) : Account :=
  mkAccount (nonce a) b (locked a) (unlock_height a) (key a) (code a).
Definition set_locked (b : Balance) (a : Account) : Account :=
  mkAccount (nonce a) (balance a) b (unlock_height a) (key a) (code a).
Definition set_key (k : option PublicKey) (a : Account) : Account :=
  mkAccount (nonce a) (balance a) (locked a) (unlock_height a) k (code a).
Definition set_code (c : option bytes) (a : Account) : Account :=
  mkAccount (nonce a) (balance a) (locked a) (unlock_height a) (key a) c.
End Acct.

(** ** Collateralised debt positions *)

Definition SCALE : N := 100000000.
Definition SEED_XUS_USD_PRICE : N := 100000000.
Definition MIN_COLLATERAL_RATIO_PCT : N := 150.
Definition ORACLE_ACCOUNT : string := "96abb93854040db54394648061dcb1766d6f306de962a19ad3e7bdb5e19caa7f".
Definition XUSD_ISSUER : string := "xusd.reserve.sov".
Definition XUSD_SYMBOL : string := "xUSD".

Record Vault := mkVault { collateral : Balance; debt : Balance }.
#[global] Instance Vault_eq_dec : EqDecision Vault.
Proof. solve_decision. Defined.

Module Vlt.
Definition default : Vault := mkVault 0 0.
Definition is_empty (v : Vault) : bool := (collateral v =? 0) && (debt v =? 0).
End Vlt.

Definition collateral_usd (collateral : Balance) (price : N) : option N :=
  v ← checked_mul u128_max collateral price; Some (v / SCALE).
Definition max_debt (collateral : Balance) (price : N) : option N :=
  usd ← collateral_usd collateral price;
  v ← checked_mul u128_max usd 100;
  Some (v / MIN_COLLATERAL_RATIO_PCT).
Definition is_healthy (collateral debt : Balance) (price : N) : bool :=
  match max_debt collateral price with
  | Some max => debt <=? max
  | None => false
  end.
Definition collateral_ratio_pct (collateral debt : Balance) (price : N) : option N :=
  if debt =? 0 then None
  else
    usd ← collateral_usd collateral price;
    v ← checked_mul u128_max usd 100;
    Some (v / debt).

(** When the u128 products do not overflow, health is the exact rational test. *)
Lemma is_healthy_iff c d p :
  c * p ≤ u128_max → c * p / SCALE * 100 ≤ u128_max →
  is_healthy c d p = true ↔ d * MIN_COLLATERAL_RATIO_PCT ≤ c * p / SCALE * 100.
Proof.
  intros H1 H2. unfold is_healthy, max_debt, collateral_usd, checked_mul.
  rewrite (proj2 (N.leb_le _ _) H1). simpl. rewrite (proj2 (N.leb_le _ _) H2). simpl.
  rewrite N.leb_le. set (x := c * p / SCALE * 100). unfold MIN_COLLATERAL_RATIO_PCT. split.
  - intros Hd. pose proof (N.Div0.mul_div_le x 150). nia.
  - intros Hd. apply N.div_le_lower_bound; lia.
Qed.

(** A healthy position is over-collateralised: its collateral is worth at least
    one and a half times its debt at the oracle price, whatever the operands; an
    arithmetic overflow is never healthy; and adding collateral or repaying debt
    keeps a position healthy (short of overflow). *)
Theorem healthy_overcollateralised c d p :
  is_healthy c d p = true →
  d * 150 * SCALE ≤ c * p * 100 ∧ c * p ≤ u128_max ∧
  ∀ c' d', c ≤ c' → d' ≤ d → c' * p ≤ u128_max → c' * p / SCALE * 100 ≤ u128_max →
    is_healthy c' d' p = true.
Proof.
  intros Hh.
  assert (c * p ≤ u128_max ∧ c * p / SCALE * 100 ≤ u128_max) as [H1 H2].
  { revert Hh. unfold is_healthy, max_debt, collateral_usd.
    destruct (checked_mul u128_max c p) as [v|] eqn:E; simpl; [|done].
    apply checked_mul_Some in E as [-> E].
    destruct (checked_mul u128_max (c * p / SCALE) 100) as [w|] eqn:E2; simpl; [|done].
    by apply checked_mul_Some in E2 as [_ E2]. }
  rewrite is_healthy_iff in Hh by done. unfold MIN_COLLATERAL_RATIO_PCT in Hh.
  split_and!; [|done|].
  - pose proof (N.Div0.mul_div_le (c * p) SCALE). nia.
  - intros c' d' Hc Hd H1' H2'. apply is_healthy_iff; [done|done|]. unfold MIN_COLLATERAL_RATIO_PCT.
    assert (c * p / SCALE ≤ c' * p / SCALE) by (apply N.Div0.div_le_mono; nia). nia.
Qed.
Lemma healthy_overcollateralised_witness :
  100 * SCALE * 150 * SCALE ≤ 150 * SCALE * SEED_XUS_USD_PRICE * 100.
Proof.
  refine (proj1 (healthy_overcollateralised (150 * SCALE) (100 * SCALE) SEED_XUS_USD_PRICE _)).
  by vm_compute.
Defined.
