(* ===== verification/Ledger.v ===== *)
(** * The world state (crates/state/src/ledger.rs)

    The account ledger with its token, HTLC, NFT, multisig, vault and shielded-pool
    state, the sparse Merkle commitment kept in step with it, and the undo journal
    a reorganisation replays. *)

From S2P Require Import Prelude Primitives Crypto Compliance Smt Vault.

(** ** Ordered iteration

    A [BTreeMap] is a [gmap]; what iterates it (the committed encodings, the
    journal) uses its entries in key order. *)

Class BKey (K : Type) := key_leb : K → K → bool.
#[global] Instance BKey_bytes : BKey bytes := bytes_leb.
#[global] Instance BKey_Hash : BKey Hash := λ a b, bytes_leb (as_bytes a) (as_bytes b).
#[global] Instance BKey_AccountId : BKey AccountId := λ a b, bytes_leb (acc_bytes a) (acc_bytes b).
#[global] Instance BKey_pair {A B} `{EqDecision A, BKey A, BKey B} : BKey (A * B) := λ x y,
  if decide (x.1 = y.1) then key_leb x.2 y.2 else key_leb x.1 y.1.

Definition entry_le {K V} `{BKey K} (x y : K * V) : Prop := key_leb x.1 y.1 = true.
#[global] Instance entry_le_dec {K V} `{BKey K} : RelDecision (entry_le (K:=K) (V:=V)).
Proof. intros x y. unfold entry_le. apply _. Defined.

(** [map.iter().collect()]. *)
Definition entries {K V} `{BKey K} `{Countable K} (m : gmap K V) : list (K * V) :=
  merge_sort entry_le (map_to_list m).

Lemma entries_perm {K V} `{BKey K} `{Countable K} (m : gmap K V) : entries m ≡ₚ map_to_list m.
Proof. apply merge_sort_Permutation. Qed.
Lemma elem_of_entries {K V} `{BKey K} `{Countable K} (m : gmap K V) k v :
  (k, v) ∈ entries m ↔ m !! k = Some v.
Proof. rewrite entries_perm. apply elem_of_map_to_list. Qed.

(** ** Data *)

Definition ASSET_ID_DOMAIN : bytes := string_bytes "sov:asset:v1".
Definition NFT_CLASS_DOMAIN : bytes := string_bytes "sov:nft:v1".

Record TokenInfo := mkTokenInfo {
  t_issuer : AccountId; t_symbol : string; issued : Balance; burned : Balance }.
Definition token_supply (t : TokenInfo) : option Balance := Bal.checked_sub (issued t) (burned t).

Record Multisig := mkMultisig { ms_signers : list PublicKey; ms_threshold : N }.
Record MultisigProposal := mkMProposal {
  mpr_account : AccountId; mpr_action : bytes; mpr_approvers : list N }.
Record NftClass := mkNftClass { nc_issuer : AccountId; nc_symbol : string; minted : N }.
Record NftToken := mkNftToken { nt_owner : AccountId; nt_metadata : bytes; minted_height : N }.
Record NameRecord := mkNameRecord { nr_owner : AccountId; registered_height : N }.
Record Htlc := mkHtlc {
  locker : AccountId; recipient : AccountId; amount : Balance; hashlock : Hash; htlc_timeout : N }.

(** ** Interfaces

    A shielded pool as the ledger uses it: a bundle applied in place (the pool
    afterwards, beside the result: an error too may leave a changed pool),
    whether the pool is pristine, and its 32-byte commitment. *)
Class ShieldedPool (St Bundle E : Type) := {
  pool_default : St;
  pool_apply : St → Bundle → St * result E unit;
  pool_is_empty : St → bool;
  pool_commitment : St → bytes;
}.

(** What the pools document and the ledger relies on: "a rejected bundle leaves
    the state untouched".  Pool v2 keeps it always; pool v1 as long as its note
    commitment tree is not full, and not beyond (the instances are in
    [PoolSpend]). *)
Class Untorn {St Bundle E} (P : ShieldedPool St Bundle E) :=
  pool_untorn s b s' e : pool_apply s b = (s', Err e) → s' = s.

(** Everything the ledger takes from other crates: the digest, the Borsh
    encoders and the two shielded pools. *)
Class LedgerEnv := {
  env_blake3 :: Blake3;
  ShieldedState : Type;
  ShieldedBundle : Type;
  ShieldedError : Type;
  env_pool1 :: ShieldedPool ShieldedState ShieldedBundle ShieldedError;
  ShieldedV2State : Type;
  PqDigest : Type;
  ShieldedV2StateError : Type;
  env_pool2 :: ShieldedPool ShieldedV2State (list PqDigest * list PqDigest) ShieldedV2StateError;
  env_account :: Borsh Account;
  env_balance :: Borsh N;
  env_token :: Borsh TokenInfo;
  env_policy :: Borsh CompliancePolicy;
  env_window :: Borsh SpendWindow;
  env_counter_pair :: Borsh (N * N);
  env_htlcs :: Borsh (list (Hash * Htlc));
  env_classes :: Borsh (list (Hash * NftClass));
  env_nfts :: Borsh (list ((Hash * bytes) * NftToken));
  env_multisig :: Borsh (list (AccountId * Multisig));
  env_proposals :: Borsh (list (Hash * MultisigProposal));
  env_vaults :: Borsh (list (AccountId * Vault));
}.

(** The promise for both pools of a ledger. *)
Class UntornPools `{Env : LedgerEnv} := {
  untorn_v1 :: Untorn env_pool1;
  untorn_v2 :: Untorn env_pool2;
}.

Section ledger.
Context `{Env : LedgerEnv}.

Definition token_asset_id (issuer : AccountId) (symbol : string) : Hash :=
  digest (ASSET_ID_DOMAIN ++ acc_bytes issuer ++ [0] ++ string_bytes symbol).
Definition nft_class_id (issuer : AccountId) (symbol : string) : Hash :=
  digest (NFT_CLASS_DOMAIN ++ acc_bytes issuer ++ [0] ++ string_bytes symbol).
Definition sns_class : Hash := digest (string_bytes "sov:sns:v1").

(** The logical fields of [struct Ledger]. *)
Record Store := mkStore {
  accounts : gmap AccountId Account;
  contract_storage : gmap (AccountId * bytes) bytes;
  mined_emitted : Balance;
  shielded_value : Balance;
  shielded : ShieldedState;
  shielded_v2_value : Balance;
  shielded_v2 : ShieldedV2State;
  deshield_v2_window : N * Balance;
  htlcs : gmap Hash Htlc;
  htlc_locked : Balance;
  tokens : gmap Hash TokenInfo;
  token_balances : gmap (Hash * AccountId) Balance;
  token_policies : gmap Hash CompliancePolicy;
  token_windows : gmap (Hash * AccountId) SpendWindow;
  consumed_intents : gset Hash;
  deshield_window : N * Balance;
  nft_classes : gmap Hash NftClass;
  nfts : gmap (Hash * bytes) NftToken;
  multisig : gmap AccountId Multisig;
  proposals : gmap Hash MultisigProposal;
  vaults : gmap AccountId Vault;
  vault_collateral : Balance;
  oracle_price_opt : option N;
}.

(** [enum UndoOp]. *)
Inductive UndoOp :=
| UAccount (id : AccountId) (prev : option Account)
| UContract (id : AccountId) (key : bytes) (prev : option bytes)
| UToken (asset : Hash) (prev : option TokenInfo)
| UTokenBalance (asset : Hash) (holder : AccountId) (prev : option Balance)
| UTokenPolicy (asset : Hash) (prev : option CompliancePolicy)
| UTokenWindow (asset : Hash) (holder : AccountId) (prev : option SpendWindow)
| UHtlc (id : Hash) (prev : option Htlc)
| UNftClass (id : Hash) (prev : option NftClass)
| UNft (collection : Hash) (token_id : bytes) (prev : option NftToken)
| UMultisig (account : AccountId) (prev : option Multisig)
| UProposal (id : Hash) (prev : option MultisigProposal)
| UIntent (intent_id : Hash)
| UShielded (prev : ShieldedState)
| UMinedEmitted (prev : Balance)
| UShieldedValue (prev : Balance)
| UHtlcLocked (prev : Balance)
| UDeshieldWindow (start : N) (spent : Balance)
| UShieldedV2 (prev : ShieldedV2State)
| UShieldedV2Value (prev : Balance)
| UDeshieldV2Window (start : N) (spent : Balance)
| UVault (owner : AccountId) (prev : option Vault)
| UVaultCollateral (prev : Balance)
| UOraclePrice (prev : option N).

Record Ledger := mkLedger {
  undo : option (list UndoOp);
  st : Store;
  commitment : Smt.SparseMerkleTree;
}.

Definition new : Ledger :=
  mkLedger None
    (mkStore ∅ ∅ 0 0 pool_default 0 pool_default (0, 0) ∅ 0 ∅ ∅ ∅ ∅ ∅ (0, 0) ∅ ∅ ∅ ∅ ∅ 0 None)
    Smt.new.

(** ** Slots *)

Inductive Slot :=
| SAccount (id : AccountId)
| SContract (id : AccountId) (key : bytes)
| SReserved (name : bytes)
| SToken (asset : Hash)
| STokenBalance (asset : Hash) (holder : AccountId)
| STokenPolicy (asset : Hash)
| STokenWindow (asset : Hash) (holder : AccountId)
| SIntent (intent_id : Hash).
#[global] Instance Slot_eq_dec : EqDecision Slot.
Proof. solve_decision. Defined.

Definition slot_preimage (s : Slot) : bytes :=
  match s with
  | SAccount id => acc_bytes id
  | SContract id key => acc_bytes id ++ [1] ++ key
  | SReserved name => 2 :: name
  | SToken asset => 3 :: as_bytes asset
  | STokenBalance asset holder => 4 :: as_bytes asset ++ acc_bytes holder
  | STokenPolicy asset => 5 :: as_bytes asset
  | STokenWindow asset holder => 6 :: as_bytes asset ++ acc_bytes holder
  | SIntent intent_id => 7 :: as_bytes intent_id
  end.
Definition slot_hash (s : Slot) : Hash := digest (slot_preimage s).

Definition MINED_SLOT : bytes := string_bytes "sov:mined_emitted".
Definition SHIELDED_SLOT : bytes := string_bytes "sov:shielded".
Definition SHIELDED_VALUE_SLOT : bytes := string_bytes "sov:shielded_value".
Definition HTLC_SLOT : bytes := string_bytes "sov:htlcs".
Definition HTLC_LOCKED_SLOT : bytes := string_bytes "sov:htlc_locked".
Definition DESHIELD_WINDOW_SLOT : bytes := string_bytes "sov:deshield_window".
Definition SHIELDED_V2_SLOT : bytes := string_bytes "sov:shielded_v2".
Definition SHIELDED_V2_VALUE_SLOT : bytes := string_bytes "sov:shielded_v2_value".
Definition DESHIELD_V2_WINDOW_SLOT : bytes := string_bytes "sov:deshield_v2_window".
Definition NFT_CLASSES_SLOT : bytes := string_bytes "sov:nft_classes".
Definition NFTS_SLOT : bytes := string_bytes "sov:nfts".
Definition MULTISIG_SLOT : bytes := string_bytes "sov:multisig".
Definition PROPOSALS_SLOT : bytes := string_bytes "sov:multisig_proposals".
Definition VAULTS_SLOT : bytes := string_bytes "sov:vaults".
Definition VAULT_COLLATERAL_SLOT : bytes := string_bytes "sov:vault_collateral".
Definition ORACLE_PRICE_SLOT : bytes := string_bytes "sov:xus_oracle_price".

(** ** The commitment *)

Definition commit_insert (s : Slot) (v : bytes) (l : Ledger) : Ledger :=
  {| l with commitment := Smt.insert (commitment l) (slot_hash s) v |}.
Definition commit_remove (s : Slot) (l : Ledger) : Ledger :=
  {| l with commitment := (Smt.remove (commitment l) (slot_hash s)).1 |}.
Definition upd (f : Store → Store) (l : Ledger) : Ledger := {| l with st := f (st l) |}.

Definition commit_counter (name : bytes) (value : Balance) (l : Ledger) : Ledger :=
  if value =? 0 then commit_remove (SReserved name) l
  else commit_insert (SReserved name) (to_vec value) l.
Definition recommit_shielded (l : Ledger) : Ledger :=
  if pool_is_empty (shielded (st l)) then commit_remove (SReserved SHIELDED_SLOT) l
  else commit_insert (SReserved SHIELDED_SLOT) (pool_commitment (shielded (st l))) l.
Definition recommit_shielded_v2 (l : Ledger) : Ledger :=
  if pool_is_empty (shielded_v2 (st l)) then commit_remove (SReserved SHIELDED_V2_SLOT) l
  else commit_insert (SReserved SHIELDED_V2_SLOT) (pool_commitment (shielded_v2 (st l))) l.
(** The shape shared by the map-valued reserved slots: the digest of the
    encoded entries, absent when the map is empty. *)
Definition recommit_map {K V} `{BKey K} `{Countable K} `{Borsh (list (K * V))} (name : bytes) (m : gmap K V)
    (l : Ledger) : Ledger :=
  if bool_decide (m = ∅) then commit_remove (SReserved name) l
  else commit_insert (SReserved name) (as_bytes (digest (to_vec (entries m)))) l.
Definition recommit_htlcs (l : Ledger) : Ledger := recommit_map HTLC_SLOT (htlcs (st l)) l.
Definition recommit_nft_classes (l : Ledger) : Ledger :=
  recommit_map NFT_CLASSES_SLOT (nft_classes (st l)) l.
Definition recommit_nfts (l : Ledger) : Ledger := recommit_map NFTS_SLOT (nfts (st l)) l.
Definition recommit_multisig (l : Ledger) : Ledger := recommit_map MULTISIG_SLOT (multisig (st l)) l.
Definition recommit_proposals (l : Ledger) : Ledger := recommit_map PROPOSALS_SLOT (proposals (st l)) l.
Definition recommit_vaults (l : Ledger) : Ledger := recommit_map VAULTS_SLOT (vaults (st l)) l.
Definition recommit_oracle (l : Ledger) : Ledger :=
  match oracle_price_opt (st l) with
  | None => commit_remove (SReserved ORACLE_PRICE_SLOT) l
  | Some price => commit_insert (SReserved ORACLE_PRICE_SLOT) (to_vec price) l
  end.
Definition commit_window (name : bytes) (w : N * Balance) (l : Ledger) : Ledger :=
  if (w.1 =? 0) && (w.2 =? 0) then commit_remove (SReserved name) l
  else commit_insert (SReserved name) (to_vec w) l.

(** ** Queries *)

Definition account (l : Ledger) (id : AccountId) : Account := default Acct.default (accounts (st l) !! id).
Definition exists_ (l : Ledger) (id : AccountId) : bool := bool_decide (is_Some (accounts (st l) !! id)).
Definition contract_value (l : Ledger) (contract : AccountId) (key : bytes) : option bytes :=
  contract_storage (st l) !! (contract, key).
Definition state_root (l : Ledger) : Hash := Smt.root (commitment l).
Definition prove (l : Ledger) (id : AccountId) : Smt.MerkleProof := Smt.prove (commitment l) (slot_hash (SAccount id)).
Definition vault (l : Ledger) (owner : AccountId) : Vault := default Vlt.default (vaults (st l) !! owner).
Definition oracle_price (l : Ledger) : N := default SEED_XUS_USD_PRICE (oracle_price_opt (st l)).
Definition token_balance (l : Ledger) (asset : Hash) (holder : AccountId) : Balance :=
  default 0 (token_balances (st l) !! (asset, holder)).
Definition token_window (l : Ledger) (asset : Hash) (holder : AccountId) : SpendWindow :=
  default SpendWindow_new (token_windows (st l) !! (asset, holder)).
Definition intent_consumed (l : Ledger) (intent_id : Hash) : bool :=
  bool_decide (intent_id ∈ consumed_intents (st l)).
Definition name_record (l : Ledger) (name : string) : option NameRecord :=
  t ← nfts (st l) !! (sns_class, string_bytes name); Some (mkNameRecord (nt_owner t) (minted_height t)).
(** Byte strings that are not account ids also fail [from_utf8], or [AccountId::new]. *)
Definition resolve_name (l : Ledger) (name : string) : option AccountId :=
  token ← nfts (st l) !! (sns_class, string_bytes name);
  if bool_decide (nt_metadata token = []) then Some (nt_owner token)
  else Some (match AccountId_new (bytes_string (nt_metadata token)) with
             | Ok target => target
             | Err _ => nt_owner token
             end).
Definition name_taken (l : Ledger) (name : string) : bool :=
  bool_decide (is_Some (nfts (st l) !! (sns_class, string_bytes name))).

(** [total_supply]: checked sums over the accounts, then the four pools. *)
Definition total_supply (l : Ledger) : option Balance :=
  sum ← foldl (λ acc e, sum ← acc; t ← Acct.total e.2; Bal.checked_add sum t)
          (Some 0) (entries (accounts (st l)));
  s1 ← Bal.checked_add sum (shielded_value (st l));
  s2 ← Bal.checked_add s1 (shielded_v2_value (st l));
  s3 ← Bal.checked_add s2 (htlc_locked (st l));
  Bal.checked_add s3 (vault_collateral (st l)).

(** ** The undo journal *)

Definition begin_undo (l : Ledger) : Ledger := {| l with undo := Some [] |}.
Definition take_undo (l : Ledger) : list UndoOp * Ledger := (default [] (undo l), {| l with undo := None |}).
Definition is_recording_undo (l : Ledger) : bool := bool_decide (is_Some (undo l)).
Definition record (op : UndoOp) (l : Ledger) : Ledger :=
  match undo l with
  | Some j => {| l with undo := Some (j ++ [op]) |}
  | None => l
  end.

(** Insert or delete, as [match prev { Some(v) => insert, None => remove }]. *)
Definition restore {K V} `{Countable K} (k : K) (prev : option V) (m : gmap K V) : gmap K V :=
  match prev with Some v => <[k := v]> m | None => delete k m end.

Definition undo_one (l : Ledger) (op : UndoOp) : Ledger :=
  match op with
  | UAccount id prev =>
      match prev with
      | Some a =>
          if negb (Acct.is_empty a) then
            upd (λ s, {| s with accounts := <[id := a]> (accounts s) |})
              (commit_insert (SAccount id) (to_vec a) l)
          else commit_remove (SAccount id) (upd (λ s, {| s with accounts := delete id (accounts s) |}) l)
      | None => commit_remove (SAccount id) (upd (λ s, {| s with accounts := delete id (accounts s) |}) l)
      end
  | UContract contract key prev =>
      match prev with
      | Some v =>
          if negb (bool_decide (v = [])) then
            upd (λ s, {| s with contract_storage := <[(contract, key) := v]> (contract_storage s) |})
              (commit_insert (SContract contract key) v l)
          else commit_remove (SContract contract key)
                 (upd (λ s, {| s with contract_storage := delete (contract, key) (contract_storage s) |}) l)
      | None => commit_remove (SContract contract key)
                 (upd (λ s, {| s with contract_storage := delete (contract, key) (contract_storage s) |}) l)
      end
  | UToken asset prev =>
      match prev with
      | Some info => upd (λ s, {| s with tokens := <[asset := info]> (tokens s) |})
                       (commit_insert (SToken asset) (to_vec info) l)
      | None => commit_remove (SToken asset) (upd (λ s, {| s with tokens := delete asset (tokens s) |}) l)
      end
  | UTokenBalance asset holder prev =>
      match prev with
      | Some b =>
          if negb (b =? 0) then
            upd (λ s, {| s with token_balances := <[(asset, holder) := b]> (token_balances s) |})
              (commit_insert (STokenBalance asset holder) (to_vec b) l)
          else commit_remove (STokenBalance asset holder)
                 (upd (λ s, {| s with token_balances := delete (asset, holder) (token_balances s) |}) l)
      | None => commit_remove (STokenBalance asset holder)
                 (upd (λ s, {| s with token_balances := delete (asset, holder) (token_balances s) |}) l)
      end
  | UTokenPolicy asset prev =>
      match prev with
      | Some p => upd (λ s, {| s with token_policies := <[asset := p]> (token_policies s) |})
                    (commit_insert (STokenPolicy asset) (to_vec p) l)
      | None => commit_remove (STokenPolicy asset)
                  (upd (λ s, {| s with token_policies := delete asset (token_policies s) |}) l)
      end
  | UTokenWindow asset holder prev =>
      match prev with
      | Some w =>
          if negb (bool_decide (w = SpendWindow_new)) then
            upd (λ s, {| s with token_windows := <[(asset, holder) := w]> (token_windows s) |})
              (commit_insert (STokenWindow asset holder) (to_vec w) l)
          else commit_remove (STokenWindow asset holder)
                 (upd (λ s, {| s with token_windows := delete (asset, holder) (token_windows s) |}) l)
      | None => commit_remove (STokenWindow asset holder)
                 (upd (λ s, {| s with token_windows := delete (asset, holder) (token_windows s) |}) l)
      end
  | UHtlc id prev => recommit_htlcs (upd (λ s, {| s with htlcs := restore id prev (htlcs s) |}) l)
  | UNftClass id prev =>
      recommit_nft_classes (upd (λ s, {| s with nft_classes := restore id prev (nft_classes s) |}) l)
  | UNft collection token_id prev =>
      recommit_nfts (upd (λ s, {| s with nfts := restore (collection, token_id) prev (nfts s) |}) l)
  | UMultisig account prev =>
      recommit_multisig (upd (λ s, {| s with multisig := restore account prev (multisig s) |}) l)
  | UProposal id prev =>
      recommit_proposals (upd (λ s, {| s with proposals := restore id prev (proposals s) |}) l)
  | UIntent intent_id =>
      commit_remove (SIntent intent_id)
        (upd (λ s, {| s with consumed_intents := consumed_intents s ∖ {[intent_id]} |}) l)
  | UShielded prev => recommit_shielded (upd (λ s, {| s with shielded := prev |}) l)
  | UMinedEmitted prev => commit_counter MINED_SLOT prev (upd (λ s, {| s with mined_emitted := prev |}) l)
  | UShieldedValue prev =>
      commit_counter SHIELDED_VALUE_SLOT prev (upd (λ s, {| s with shielded_value := prev |}) l)
  | UHtlcLocked prev =>
      commit_counter HTLC_LOCKED_SLOT prev (upd (λ s, {| s with htlc_locked := prev |}) l)
  | UVault owner prev => recommit_vaults (upd (λ s, {| s with vaults := restore owner prev (vaults s) |}) l)
  | UVaultCollateral prev =>
      commit_counter VAULT_COLLATERAL_SLOT prev (upd (λ s, {| s with vault_collateral := prev |}) l)
  | UOraclePrice prev => recommit_oracle (upd (λ s, {| s with oracle_price_opt := prev |}) l)
  | UDeshieldWindow start spent =>
      commit_window DESHIELD_WINDOW_SLOT (start, spent)
        (upd (λ s, {| s with deshield_window := (start, spent) |}) l)
  | UShieldedV2 prev => recommit_shielded_v2 (upd (λ s, {| s with shielded_v2 := prev |}) l)
  | UShieldedV2Value prev =>
      commit_counter SHIELDED_V2_VALUE_SLOT prev (upd (λ s, {| s with shielded_v2_value := prev |}) l)
  | UDeshieldV2Window start spent =>
      commit_window DESHIELD_V2_WINDOW_SLOT (start, spent)
        (upd (λ s, {| s with deshield_v2_window := (start, spent) |}) l)
  end.

Definition apply_undo (l : Ledger) (log : list UndoOp) : Ledger :=
  let saved := undo l in
  let l' := foldl undo_one {| l with undo := None |} (reverse log) in
  {| l' with undo := saved |}.

(** ** Mutators *)

Definition set_account (l : Ledger) (id : AccountId) (a : Account) : Ledger :=
  let l := record (UAccount id (accounts (st l) !! id)) l in
  if Acct.is_empty a then
    commit_remove (SAccount id) (upd (λ s, {| s with accounts := delete id (accounts s) |}) l)
  else
    upd (λ s, {| s with accounts := <[id := a]> (accounts s) |})
      (commit_insert (SAccount id) (to_vec a) l).

Definition set_contract_value (l : Ledger) (contract : AccountId) (key value : bytes) : Ledger :=
  let l := record (UContract contract key (contract_value l contract key)) l in
  if bool_decide (value = []) then
    commit_remove (SContract contract key)
      (upd (λ s, {| s with contract_storage := delete (contract, key) (contract_storage s) |}) l)
  else
    upd (λ s, {| s with contract_storage := <[(contract, key) := value]> (contract_storage s) |})
      (commit_insert (SContract contract key) value l).

(** The pool is changed in place.  On an error [?] returns at once: whatever the
    pool became stays, without an undo record and without a new commitment. *)
Definition apply_shielded_bundle (l : Ledger) (bundle : ShieldedBundle) : Ledger * result ShieldedError unit :=
  let prev := shielded (st l) in
  let '(s', r) := pool_apply prev bundle in
  match r with
  | Err e => (upd (λ s, {| s with shielded := s' |}) l, Err e)
  | Ok _ => (recommit_shielded (upd (λ s, {| s with shielded := s' |}) (record (UShielded prev) l)), Ok ())
  end.

(** [self.shielded_value] replaced by [next], journalled and committed. *)
Definition set_shielded_value (next : Balance) (l : Ledger) : Ledger :=
  commit_counter SHIELDED_VALUE_SLOT next
    (upd (λ s, {| s with shielded_value := next |}) (record (UShieldedValue (shielded_value (st l))) l)).
Definition add_shielded_value (l : Ledger) (amount : Balance) : option Ledger :=
  next ← Bal.checked_add (shielded_value (st l)) amount; Some (set_shielded_value next l).
Definition sub_shielded_value (l : Ledger) (amount : Balance) : option Ledger :=
  next ← Bal.checked_sub (shielded_value (st l)) amount; Some (set_shielded_value next l).

Definition apply_shielded_v2 (l : Ledger) (nullifiers commitments : list PqDigest) :
    Ledger * result ShieldedV2StateError unit :=
  let prev := shielded_v2 (st l) in
  let '(s', r) := pool_apply prev (nullifiers, commitments) in
  match r with
  | Err e => (upd (λ s, {| s with shielded_v2 := s' |}) l, Err e)
  | Ok _ =>
      (recommit_shielded_v2 (upd (λ s, {| s with shielded_v2 := s' |}) (record (UShieldedV2 prev) l)), Ok ())
  end.
Definition set_shielded_v2_value (next : Balance) (l : Ledger) : Ledger :=
  commit_counter SHIELDED_V2_VALUE_SLOT next
    (upd (λ s, {| s with shielded_v2_value := next |})
      (record (UShieldedV2Value (shielded_v2_value (st l))) l)).
Definition add_shielded_v2_value (l : Ledger) (amount : Balance) : option Ledger :=
  next ← Bal.checked_add (shielded_v2_value (st l)) amount; Some (set_shielded_v2_value next l).
Definition sub_shielded_v2_value (l : Ledger) (amount : Balance) : option Ledger :=
  next ← Bal.checked_sub (shielded_v2_value (st l)) amount; Some (set_shielded_v2_value next l).

Definition set_deshield_v2_window (l : Ledger) (window_start : N) (spent : Balance) : Ledger :=
  commit_window DESHIELD_V2_WINDOW_SLOT (window_start, spent)
    (upd (λ s, {| s with deshield_v2_window := (window_start, spent) |})
      (record (UDeshieldV2Window (deshield_v2_window (st l)).1 (deshield_v2_window (st l)).2) l)).
Definition set_deshield_window (l : Ledger) (window_start : N) (spent : Balance) : Ledger :=
  commit_window DESHIELD_WINDOW_SLOT (window_start, spent)
    (upd (λ s, {| s with deshield_window := (window_start, spent) |})
      (record (UDeshieldWindow (deshield_window (st l)).1 (deshield_window (st l)).2) l)).

Definition lock_htlc (l : Ledger) (id : Hash) (htlc : Htlc) : option Ledger :=
  match htlcs (st l) !! id with
  | Some _ => None
  | None =>
      next_locked ← Bal.checked_add (htlc_locked (st l)) (amount htlc);
      let l := record (UHtlc id None) (record (UHtlcLocked (htlc_locked (st l))) l) in
      let l := upd (λ s, {| s with htlc_locked := next_locked |}) l in
      let l := commit_counter HTLC_LOCKED_SLOT next_locked l in
      Some (recommit_htlcs (upd (λ s, {| s with htlcs := <[id := htlc]> (htlcs s) |}) l))
  end.
Definition settle_htlc (l : Ledger) (id : Hash) : option (Htlc * Ledger) :=
  htlc ← htlcs (st l) !! id;
  let old_locked := htlc_locked (st l) in
  let l := upd (λ s, {| s with htlcs := delete id (htlcs s) |}) l in
  let l := record (UHtlc id (Some htlc)) (record (UHtlcLocked old_locked) l) in
  let next := default 0 (Bal.checked_sub old_locked (amount htlc)) in
  let l := commit_counter HTLC_LOCKED_SLOT next (upd (λ s, {| s with htlc_locked := next |}) l) in
  Some (htlc, recommit_htlcs l).

Definition set_oracle_price (l : Ledger) (price : N) : Ledger :=
  recommit_oracle (upd (λ s, {| s with oracle_price_opt := Some price |})
    (record (UOraclePrice (oracle_price_opt (st l))) l)).

(** [None] is the failed [expect] on the collateral counter. *)
Definition set_vault (l : Ledger) (owner : AccountId) (v : Vault) : option Ledger :=
  let prev := vaults (st l) !! owner in
  let prev_collateral := from_option collateral 0 prev in
  t ← Bal.checked_sub (vault_collateral (st l)) prev_collateral;
  next_total ← Bal.checked_add t (collateral v);
  let l := record (UVault owner prev) (record (UVaultCollateral (vault_collateral (st l))) l) in
  let l := commit_counter VAULT_COLLATERAL_SLOT next_total
             (upd (λ s, {| s with vault_collateral := next_total |}) l) in
  let l := upd (λ s, {| s with vaults :=
             if Vlt.is_empty v then delete owner (vaults s) else <[owner := v]> (vaults s) |}) l in
  Some (recommit_vaults l).

Definition set_multisig (l : Ledger) (account : AccountId) (policy : Multisig) : Ledger :=
  recommit_multisig (upd (λ s, {| s with multisig := <[account := policy]> (multisig s) |})
    (record (UMultisig account (multisig (st l) !! account)) l)).
Definition set_proposal (l : Ledger) (id : Hash) (p : MultisigProposal) : Ledger :=
  recommit_proposals (upd (λ s, {| s with proposals := <[id := p]> (proposals s) |})
    (record (UProposal id (proposals (st l) !! id)) l)).
Definition remove_proposal (l : Ledger) (id : Hash) : Ledger :=
  recommit_proposals (upd (λ s, {| s with proposals := delete id (proposals s) |})
    (record (UProposal id (proposals (st l) !! id)) l)).
(** One pass of the loop of [remove_proposals_for]. *)
Definition drop_proposal (l : Ledger) (id : Hash) : Ledger :=
  upd (λ s, {| s with proposals := delete id (proposals s) |})
    (record (UProposal id (proposals (st l) !! id)) l).
Definition remove_proposals_for (l : Ledger) (account : AccountId) : N * Ledger :=
  let ids := fst <$> filter (λ e : Hash * MultisigProposal, mpr_account e.2 = account)
               (entries (proposals (st l))) in
  if bool_decide (ids = []) then (0, l)
  else (N.of_nat (length ids), recommit_proposals (foldl drop_proposal l ids)).

Definition set_nft_class (l : Ledger) (id : Hash) (class : NftClass) : Ledger :=
  recommit_nft_classes (upd (λ s, {| s with nft_classes := <[id := class]> (nft_classes s) |})
    (record (UNftClass id (nft_classes (st l) !! id)) l)).
Definition mint_nft (l : Ledger) (collection : Hash) (token_id : bytes) (owner : AccountId)
    (metadata : bytes) (height : N) : option Ledger :=
  match nfts (st l) !! (collection, token_id) with
  | Some _ => None
  | None =>
      Some (recommit_nfts (upd (λ s, {| s with nfts :=
              <[(collection, token_id) := mkNftToken owner metadata height]> (nfts s) |})
        (record (UNft collection token_id None) l)))
  end.
Definition put_nft (l : Ledger) (collection : Hash) (token_id : bytes) (prev t : NftToken) : Ledger :=
  recommit_nfts (upd (λ s, {| s with nfts := <[(collection, token_id) := t]> (nfts s) |})
    (record (UNft collection token_id (Some prev)) l)).
Definition transfer_nft (l : Ledger) (collection : Hash) (token_id : bytes) (new_owner : AccountId) :
    option Ledger :=
  t ← nfts (st l) !! (collection, token_id);
  Some (put_nft l collection token_id t {| t with nt_owner := new_owner |}).
Definition set_nft_meta (l : Ledger) (collection : Hash) (token_id metadata : bytes) : option Ledger :=
  t ← nfts (st l) !! (collection, token_id);
  Some (put_nft l collection token_id t {| t with nt_metadata := metadata |}).
Definition register_name (l : Ledger) (name : string) (owner : AccountId) (height : N) : option Ledger :=
  mint_nft l sns_class (string_bytes name) owner [] height.
Definition transfer_name (l : Ledger) (name : string) (new_owner : AccountId) : option Ledger :=
  transfer_nft l sns_class (string_bytes name) new_owner.

Definition set_token (l : Ledger) (asset : Hash) (info : TokenInfo) : Ledger :=
  let l := record (UToken asset (tokens (st l) !! asset)) l in
  upd (λ s, {| s with tokens := <[asset := info]> (tokens s) |})
    (commit_insert (SToken asset) (to_vec info) l).
Definition set_token_balance (l : Ledger) (asset : Hash) (holder : AccountId) (b : Balance) : Ledger :=
  let l := record (UTokenBalance asset holder (token_balances (st l) !! (asset, holder))) l in
  if b =? 0 then
    commit_remove (STokenBalance asset holder)
      (upd (λ s, {| s with token_balances := delete (asset, holder) (token_balances s) |}) l)
  else
    upd (λ s, {| s with token_balances := <[(asset, holder) := b]> (token_balances s) |})
      (commit_insert (STokenBalance asset holder) (to_vec b) l).

(** One pass of the loop that clears a re-policied asset's stale windows. *)
Definition clear_window (l : Ledger) (k : Hash * AccountId) : Ledger :=
  upd (λ s, {| s with token_windows := delete k (token_windows s) |})
    (commit_remove (STokenWindow k.1 k.2) l).
Definition windows_of (s : Store) (asset : Hash) : list ((Hash * AccountId) * SpendWindow) :=
  filter (λ e : (Hash * AccountId) * SpendWindow, e.1.1 = asset) (entries (token_windows s)).
Definition set_token_policy (l : Ledger) (asset : Hash) (policy : CompliancePolicy) : Ledger :=
  let cleared := windows_of (st l) asset in
  let l := record (UTokenPolicy asset (token_policies (st l) !! asset)) l in
  let l := foldl (λ l e, record (UTokenWindow e.1.1 e.1.2 (Some e.2)) l) l cleared in
  let l := upd (λ s, {| s with token_policies := <[asset := policy]> (token_policies s) |})
             (commit_insert (STokenPolicy asset) (to_vec policy) l) in
  foldl clear_window l (windows_of (st l) asset).*1.
Definition set_token_window (l : Ledger) (asset : Hash) (holder : AccountId) (w : SpendWindow) : Ledger :=
  let l := record (UTokenWindow asset holder (token_windows (st l) !! (asset, holder))) l in
  if bool_decide (w = SpendWindow_new) then
    commit_remove (STokenWindow asset holder)
      (upd (λ s, {| s with token_windows := delete (asset, holder) (token_windows s) |}) l)
  else
    upd (λ s, {| s with token_windows := <[(asset, holder) := w]> (token_windows s) |})
      (commit_insert (STokenWindow asset holder) (to_vec w) l).

Definition consume_intent (l : Ledger) (intent_id : Hash) : Ledger :=
  let l := if intent_consumed l intent_id then l else record (UIntent intent_id) l in
  upd (λ s, {| s with consumed_intents := {[intent_id]} ∪ consumed_intents s |})
    (commit_insert (SIntent intent_id) [1] l).
Definition add_mined_emitted (l : Ledger) (amount : Balance) : option Ledger :=
  next ← Bal.checked_add (mined_emitted (st l)) amount;
  Some (commit_counter MINED_SLOT next
    (upd (λ s, {| s with mined_emitted := next |}) (record (UMinedEmitted (mined_emitted (st l))) l))).
End ledger.
