(* ===== verification/ShieldedPq.v ===== *)
(** * The post-quantum shielded pool (crates/shielded-pq)

    Digests over the Goldilocks field (hash.rs), the note-commitment tree and its
    witnesses (tree.rs), the consensus state with its Merkle frontier, anchor ring
    and nullifier set (state.rs) and notes (note.rs).  The Rescue-Prime permutation is
    third-party code and a parameter. *)

From stdpp Require Import vector.
From S2P Require Import Prelude Primitives Crypto Types Ledger.
#[local] Open Scope N_scope.

Module Pq.

(** ** Digests (hash.rs, domains.rs) *)

Definition MODULUS : N := 2 ^ 64 - 2 ^ 32 + 1.
Definition DIGEST_ELEMENTS : nat := 4.
(** The limbs are public [u64]s, canonical or not. *)
Definition PqDigest : Type := vec N DIGEST_ELEMENTS.
Definition ZERO : PqDigest := [# 0; 0; 0; 0].

Definition to_bytes (d : PqDigest) : bytes := vec_to_list d ≫= u64_le.
Definition is_canonical (d : PqDigest) : bool := forallb (λ limb, limb <? MODULUS) d.
(** [u64::from_le_bytes(bytes[i * 8..(i + 1) * 8])]. *)
Definition limb_at (l : bytes) (i : nat) : N := be_val (reverse (take 8 (drop (8 * i) l))).
Definition from_bytes (l : bytes) : option PqDigest :=
  let limbs : PqDigest := [# limb_at l 0; limb_at l 1; limb_at l 2; limb_at l 3] in
  if is_canonical limbs then Some limbs else None.

(** [Rp64_256::apply_permutation] on the twelve field elements of the sponge. *)
Class Rescue := apply_permutation : vec N 12 → vec N 12.
(** [Felt::new] and [as_int]: a field element is its residue. *)
Definition felt (x : N) : N := x mod MODULUS.

Definition RESCUE_DOMAIN_OWNER_TAG : N := 1.
Definition RESCUE_DOMAIN_COMMIT_STAGE1 : N := 2.
Definition RESCUE_DOMAIN_COMMIT_STAGE2 : N := 3.
Definition RESCUE_DOMAIN_MERKLE_NODE : N := 4.
Definition RESCUE_DOMAIN_NULLIFIER : N := 5.

Definition TREE_DEPTH : nat := 32.
Definition MAX_TREE_LEAVES : N := 2 ^ 32 - 1.
Definition MAX_V2_COMMITMENTS_PER_BLOCK : nat := 160.
Definition ANCHOR_HORIZON_BLOCKS : nat := 128.
Definition ANCHOR_RING_LEN : nat := MAX_V2_COMMITMENTS_PER_BLOCK * ANCHOR_HORIZON_BLOCKS.
Definition MAX_V2_NOTES : N := MAX_TREE_LEAVES.
Definition VALUE_BITS : N := 61.
Definition MAX_NOTE_VALUE : N := 2 ^ VALUE_BITS - 1.

Inductive ShieldedV2StateError :=
| TreeFull
| DoubleSpend
| ZeroDigest
| Decode (what : string).

(** A [BTreeSet] of byte strings in order. *)
Definition bytes_le (a b : bytes) : Prop := bytes_leb a b = true.
#[global] Instance bytes_le_dec : RelDecision bytes_le.
Proof. intros a b. unfold bytes_le. apply _. Defined.
Definition sorted (X : gset bytes) : list bytes := merge_sort bytes_le (elements X).

Section pool.
Context `{Rescue}.

Definition merge_domain_bound (domain bind : N) (left right : PqDigest) : PqDigest :=
  let state := apply_permutation
    ([# felt 8; felt domain; felt bind; 0] +++ (vmap felt left +++ vmap felt right)) in
  vmap felt [# state !!! 4%fin; state !!! 5%fin; state !!! 6%fin; state !!! 7%fin].
Definition merge_domain (domain : N) (left right : PqDigest) : PqDigest :=
  let state := apply_permutation
    ([# felt 8; felt domain; 0; 0] +++ (vmap felt left +++ vmap felt right)) in
  vmap felt [# state !!! 4%fin; state !!! 5%fin; state !!! 6%fin; state !!! 7%fin].
#[local] Abbreviation node := (merge_domain RESCUE_DOMAIN_MERKLE_NODE).

(** ** The reference tree (tree.rs) *)

(** The first [n + 1] empty subtrees, each the merge of the one below with itself. *)
Fixpoint empty_chain (n : nat) (e : PqDigest) : list PqDigest :=
  e :: match n with O => [] | S n => empty_chain n (node e e) end.
Definition empty_levels : list PqDigest := empty_chain TREE_DEPTH ZERO.

Record MerklePath := mkPath { position : N; siblings : list PqDigest }.
Fixpoint root_along (pos : N) (siblings : list PqDigest) (level : N) (acc : PqDigest) : PqDigest :=
  match siblings with
  | [] => acc
  | sib :: siblings =>
      root_along pos siblings (level + 1)
        (if N.testbit pos level then node sib acc else node acc sib)
  end.
Definition compute_root (p : MerklePath) (leaf : PqDigest) : PqDigest :=
  root_along (position p) (siblings p) 0 leaf.

Record CommitmentTree := mkTree { leaves : list PqDigest; marked : list N }.
Definition tree_new : CommitmentTree := mkTree [] [].
Definition tree_len (t : CommitmentTree) : nat := length (leaves t).
Definition append (t : CommitmentTree) (cm : PqDigest) : CommitmentTree * option N :=
  if MAX_TREE_LEAVES <=? N.of_nat (tree_len t) then (t, None)
  else (mkTree (leaves t ++ [cm]) (marked t), Some (N.of_nat (tree_len t))).
Definition mark (t : CommitmentTree) : CommitmentTree * option N :=
  match checked_sub (N.of_nat (tree_len t)) 1 with
  | Some pos => (mkTree (leaves t) (marked t ++ [pos]), Some pos)
  | None => (t, None)
  end.
(** The subtree of height [level] whose leftmost leaf is [index << level]. *)
Fixpoint subtree_hash (ls : list PqDigest) (level : nat) (index : N) : PqDigest :=
  let first := N.shiftl index (N.of_nat level) in
  if N.of_nat (length ls) <=? first then empty_levels !!! level
  else
    match level with
    | O => ls !!! N.to_nat first
    | S level => node (subtree_hash ls level (index * 2)) (subtree_hash ls level (index * 2 + 1))
    end.
Definition tree_root (t : CommitmentTree) : PqDigest := subtree_hash (leaves t) TREE_DEPTH 0.
Fixpoint witness_path (ls : list PqDigest) (levels : nat) (level : nat) (index : N) : list PqDigest :=
  match levels with
  | O => []
  | S levels =>
      subtree_hash ls level (N.lxor index 1) :: witness_path ls levels (S level) (N.shiftr index 1)
  end.
Definition witness (t : CommitmentTree) (pos : N) : option (MerklePath * PqDigest) :=
  if N.of_nat (tree_len t) <=? pos then None
  else Some (mkPath pos (witness_path (leaves t) TREE_DEPTH 0 pos), tree_root t).

(** ** The consensus state (state.rs) *)

Fixpoint root_from (level : nat) (ommers empty : list PqDigest) (size : N) (acc : PqDigest) : PqDigest :=
  match ommers with
  | [] => acc
  | ommer :: ommers =>
      root_from (S level) ommers empty size
        (if N.testbit size (N.of_nat level) then node ommer acc else node acc (empty !!! level))
  end.
Definition frontier_root (ommers empty : list PqDigest) (size : N) : PqDigest :=
  root_from 0 ommers empty size (empty !!! 0%nat).

(** [None] is the [false] of a frontier with no free slot, which mutates nothing. *)
Fixpoint frontier_append (ommers : list PqDigest) (idx : N) (acc : PqDigest) : option (list PqDigest) :=
  match ommers with
  | [] => None
  | slot :: ommers =>
      if N.even idx then Some (acc :: ommers)
      else cons slot <$> frontier_append ommers (N.shiftr idx 1) (node slot acc)
  end.

Record ShieldedV2State := mkState {
  ommers : list PqDigest;
  size : N;
  anchor_ring : list bytes;
  nullifiers : gset bytes;
  commitments : list bytes }.

Definition new : ShieldedV2State :=
  mkState (replicate TREE_DEPTH ZERO) 0 [to_bytes (empty_levels !!! TREE_DEPTH)] ∅ [].
Definition root (s : ShieldedV2State) : PqDigest := frontier_root (ommers s) empty_levels (size s).
Definition anchor_is_known (s : ShieldedV2State) (anchor : PqDigest) : bool :=
  existsb (λ a, bool_decide (a = to_bytes anchor)) (anchor_ring s).
Definition nullifier_seen (s : ShieldedV2State) (nf : PqDigest) : bool :=
  bool_decide (to_bytes nf ∈ nullifiers s).
Definition note_count (s : ShieldedV2State) : N := size s.
Definition nullifier_count (s : ShieldedV2State) : N := N.of_nat (base.size (nullifiers s)).
Definition is_empty (s : ShieldedV2State) : bool :=
  bool_decide (commitments s = []) && bool_decide (nullifiers s = ∅).

(** [while ring.len() > ANCHOR_RING_LEN { ring.pop_front() }]. *)
Definition trim (ring : list bytes) : list bytes := drop (length ring - ANCHOR_RING_LEN) ring.
Definition append_commitment (s : ShieldedV2State) (cm : PqDigest) :
    result ShieldedV2StateError ShieldedV2State :=
  if MAX_V2_NOTES <=? size s then Err TreeFull
  else
    match frontier_append (ommers s) (size s) cm with
    | None => Err TreeFull
    | Some om =>
        let s := mkState om (size s + 1) (anchor_ring s) (nullifiers s) (commitments s ++ [to_bytes cm]) in
        Ok (mkState (ommers s) (size s) (trim (anchor_ring s ++ [to_bytes (root s)])) (nullifiers s)
              (commitments s))
    end.
Fixpoint append_all (s : ShieldedV2State) (cms : list PqDigest) : result ShieldedV2StateError ShieldedV2State :=
  match cms with
  | [] => Ok s
  | cm :: cms => s ← append_commitment s cm; append_all s cms
  end.

Fixpoint check_nullifiers (s : ShieldedV2State) (batch : gset bytes) (nfs : list PqDigest) :
    result ShieldedV2StateError unit :=
  match nfs with
  | [] => Ok ()
  | nf :: nfs =>
      if bool_decide (nf = ZERO) then Err ZeroDigest
      else if negb (is_canonical nf) then Err (Decode "nullifier")
      else if bool_decide (to_bytes nf ∈ nullifiers s) || bool_decide (to_bytes nf ∈ batch) then Err DoubleSpend
      else check_nullifiers s ({[to_bytes nf]} ∪ batch) nfs
  end.
(** The outer [option] is [None] when the [expect] of the mutating loop fails. *)
Definition apply (s : ShieldedV2State) (nfs cms : list PqDigest) :
    option (result ShieldedV2StateError ShieldedV2State) :=
  match checked_add u64_max (size s) (N.of_nat (length cms)) with
  | None => Some (Err TreeFull)
  | Some new_size =>
      if MAX_V2_NOTES <? new_size then Some (Err TreeFull)
      else if bool_decide (ZERO ∈ cms) then Some (Err ZeroDigest)
      else if negb (forallb is_canonical cms) then Some (Err (Decode "commitment"))
      else
        match check_nullifiers s ∅ nfs with
        | Err e => Some (Err e)
        | Ok _ =>
            let s := mkState (ommers s) (size s) (anchor_ring s)
                       (list_to_set (to_bytes <$> nfs) ∪ nullifiers s) (commitments s) in
            match append_all s cms with Ok s => Some (Ok s) | Err _ => None end
        end
  end.

Definition snapshot (s : ShieldedV2State) : list bytes * list bytes := (commitments s, sorted (nullifiers s)).

Fixpoint restore_commitments (s : ShieldedV2State) (cs : list bytes) :
    result ShieldedV2StateError ShieldedV2State :=
  match cs with
  | [] => Ok s
  | c :: cs =>
      match from_bytes c with
      | None => Err (Decode "commitment")
      | Some cm =>
          if bool_decide (cm = ZERO) then Err ZeroDigest
          else s ← append_commitment s cm; restore_commitments s cs
      end
  end.
Fixpoint restore_nullifiers (s : ShieldedV2State) (ns : list bytes) :
    result ShieldedV2StateError ShieldedV2State :=
  match ns with
  | [] => Ok s
  | n :: ns =>
      match from_bytes n with
      | None => Err (Decode "nullifier")
      | Some nf =>
          if bool_decide (nf = ZERO) then Err ZeroDigest
          else restore_nullifiers
                 (mkState (ommers s) (size s) (anchor_ring s) ({[to_bytes nf]} ∪ nullifiers s) (commitments s)) ns
      end
  end.
Definition restore (commitments nullifiers : list bytes) : result ShieldedV2StateError ShieldedV2State :=
  s ← restore_commitments new commitments; restore_nullifiers s nullifiers.

Definition commitment_preimage (s : ShieldedV2State) : bytes :=
  string_bytes "sov-shielded-v2-state-v1" ++ u64_le (size s) ++ to_bytes (root s) ++
  u64_le (N.of_nat (length (anchor_ring s))) ++ concat (anchor_ring s) ++
  u64_le (N.of_nat (base.size (nullifiers s))) ++ concat (sorted (nullifiers s)).
Definition commitment `{Blake3} (s : ShieldedV2State) : bytes := as_bytes (digest (commitment_preimage s)).

(** ** Notes (note.rs) *)

Record Note := mkNote { value_grains : N; owner_tag : PqDigest; rho : PqDigest }.
Definition Note_new (value : N) (tag rho : PqDigest) : option Note :=
  if MAX_NOTE_VALUE <? value then None else Some (mkNote value tag rho).
Definition note_commitment (n : Note) : PqDigest :=
  let value_pad : PqDigest := [# value_grains n; 0; 0; 0] in
  merge_domain RESCUE_DOMAIN_COMMIT_STAGE2
    (merge_domain RESCUE_DOMAIN_COMMIT_STAGE1 value_pad (owner_tag n)) (rho n).
Definition key_owner_tag (nsk : PqDigest) : PqDigest := merge_domain RESCUE_DOMAIN_OWNER_TAG nsk ZERO.
Definition nullifier (nsk rho : PqDigest) (position : N) : PqDigest :=
  merge_domain_bound RESCUE_DOMAIN_NULLIFIER position nsk rho.
Definition to_plaintext (n : Note) : bytes :=
  u64_le (value_grains n) ++ to_bytes (owner_tag n) ++ to_bytes (rho n).
Definition from_plaintext (l : bytes) : option Note :=
  owner_tag ← from_bytes (take 32 (drop 8 l));
  rho ← from_bytes (take 32 (drop 40 l));
  Note_new (limb_at l 0) owner_tag rho.
End pool.
End Pq.
