(* ===== verification/ShieldedPqSpec.v ===== *)
(** * The post-quantum pool keeps its promises

    The frontier refines the full tree, the state's invariant, atomic application,
    snapshots, witnesses, the anchor window and the binding of the commitment. *)

From stdpp Require Import vector.
From S2P Require Import Prelude Primitives Crypto Types Ledger ShieldedPq.
#[local] Open Scope N_scope.

Module PqSpec.
Import Pq.

(** ** Positions in the tree *)

(** The ancestor, [l] levels up, of position [s]. *)
Definition up (s : N) (l : nat) : N := N.shiftr s (N.of_nat l).
Lemma up_S s l : up s l = 2 * up s (S l) + N.b2n (N.testbit s (N.of_nat l)).
Proof.
  unfold up. rewrite Nat2N.inj_succ, N.shiftr_succ_r, N.testbit_odd.
  apply N.div2_odd.
Qed.
Lemma up_bounds s l : up s l * 2 ^ N.of_nat l ≤ s < (up s l + 1) * 2 ^ N.of_nat l.
Proof.
  unfold up. rewrite N.shiftr_div_pow2. assert (2 ^ N.of_nat l ≠ 0) as Hp by (by apply N.pow_nonzero).
  pose proof (N.div_mod s _ Hp) as Hd. pose proof (N.mod_lt s _ Hp) as Hm.
  generalize dependent (s / 2 ^ N.of_nat l). generalize dependent (s mod 2 ^ N.of_nat l).
  generalize dependent (2 ^ N.of_nat l). intros. nia.
Qed.
Lemma pow_S l : 2 ^ N.of_nat (S l) = 2 * 2 ^ N.of_nat l.
Proof. by rewrite Nat2N.inj_succ, N.pow_succ_r'. Qed.
Lemma pow_pos l : 0 < 2 ^ N.of_nat l.
Proof. apply N.neq_0_lt_0. by apply N.pow_nonzero. Qed.
Lemma up_add s l k : up s (l + k) = up (up s l) k.
Proof. unfold up. by rewrite N.shiftr_shiftr, Nat2N.inj_add. Qed.
Lemma bit_up s l : N.testbit s (N.of_nat l) = N.odd (up s l).
Proof. apply N.testbit_odd. Qed.
(** When the low [l] bits of [s] are all set, [s + 1] carries into level [l]. *)
Lemma up_carry s l : (up s l + 1) * 2 ^ N.of_nat l = s + 1 → up (s + 1) l = up s l + 1.
Proof. intros <-. unfold up at 1. rewrite N.shiftr_div_pow2. apply N.div_mul. by apply N.pow_nonzero. Qed.
(** The carry stops at a clear bit: nothing changes above it. *)
Lemma up_above s l k : (up s l + 1) * 2 ^ N.of_nat l = s + 1 → N.testbit s (N.of_nat l) = false →
  (l < k)%nat → up (s + 1) k = up s k.
Proof.
  intros Hc Hb Hk. replace k with (S l + (k - S l))%nat by lia. rewrite !(up_add _ (S l)). f_equal.
  pose proof (up_carry _ _ Hc). pose proof (up_S s l) as E. rewrite Hb in E. cbn [N.b2n] in E.
  pose proof (up_S (s + 1) l). destruct (N.testbit (s + 1) (N.of_nat l)); cbn [N.b2n] in *; lia.
Qed.

(** ** Bytes of a digest *)

Lemma length_u64_le x : length (u64_le x) = 8%nat.
Proof. unfold u64_le. by rewrite length_reverse, length_to_be. Qed.
Lemma u64_le_ok x : Forall byte_ok (u64_le x).
Proof. unfold u64_le. apply Forall_reverse, to_be_ok. Qed.
Lemma limb_at_0 x l : x < 2 ^ 64 → limb_at (u64_le x ++ l) 0 = x.
Proof.
  intros Hx. unfold limb_at. change (8 * 0)%nat with 0%nat. rewrite drop_0, (take_app_length' (u64_le x)) by (by rewrite length_u64_le).
  unfold u64_le. rewrite reverse_involutive, be_val_to_be. by apply N.mod_small.
Qed.
Lemma limb_at_S x l i : limb_at (u64_le x ++ l) (S i) = limb_at l i.
Proof.
  unfold limb_at. replace (8 * S i)%nat with (length (u64_le x) + 8 * i)%nat by (rewrite length_u64_le; lia).
  by rewrite drop_app_add.
Qed.
Lemma limbs_of (d : PqDigest) : ∃ a b c e, d = [# a; b; c; e].
Proof. inv_vec d. intros a b c e. by exists a, b, c, e. Qed.
Lemma to_bytes_limbs a b c d : to_bytes [# a; b; c; d] = u64_le a ++ u64_le b ++ u64_le c ++ u64_le d.
Proof. unfold to_bytes. cbn [vec_to_list mbind list_bind]. by rewrite app_nil_r. Qed.
Lemma length_to_bytes d : length (to_bytes d) = 32%nat.
Proof. destruct (limbs_of d) as (a & b & c & e & ->). by rewrite to_bytes_limbs, !length_app, !length_u64_le. Qed.
Lemma to_bytes_ok d : Forall byte_ok (to_bytes d).
Proof.
  destruct (limbs_of d) as (a & b & c & e & ->). rewrite to_bytes_limbs, !Forall_app.
  split_and!; apply u64_le_ok.
Qed.
Lemma canonical_limbs a b c e : is_canonical [# a; b; c; e] = true →
  a < MODULUS ∧ b < MODULUS ∧ c < MODULUS ∧ e < MODULUS.
Proof. unfold is_canonical. cbn [vec_to_list forallb]. rewrite !andb_true_iff, !N.ltb_lt. tauto. Qed.
Lemma from_to_bytes d : is_canonical d = true → from_bytes (to_bytes d) = Some d.
Proof.
  destruct (limbs_of d) as (a & b & c & e & ->). intros Hc.
  assert (MODULUS < 2 ^ 64) as Hm by done. pose proof (canonical_limbs _ _ _ _ Hc) as (Ha & Hb & Hc' & He).
  unfold from_bytes. rewrite to_bytes_limbs. rewrite <- (app_nil_r (u64_le e)).
  rewrite !limb_at_S, !limb_at_0 by (eapply N.lt_trans; eassumption). by rewrite Hc.
Qed.
Lemma to_bytes_inj d d' : is_canonical d = true → is_canonical d' = true → to_bytes d = to_bytes d' → d = d'.
Proof. intros H1 H2 E. apply (f_equal from_bytes) in E. rewrite !from_to_bytes in E by done. by injection E. Qed.
(** What the sponge returns is reduced. *)
Lemma felt_canonical (d : PqDigest) : is_canonical (vmap felt d) = true.
Proof.
  destruct (limbs_of d) as (a & b & c & e & ->). unfold is_canonical. cbn [vmap vec_to_list forallb].
  rewrite !andb_true_iff, !N.ltb_lt. split_and!; try done; by apply N.mod_lt.
Qed.

Section pool.
Context `{Rescue}.
#[local] Abbreviation node := (merge_domain RESCUE_DOMAIN_MERKLE_NODE).

Lemma empty_chain_S n : ∀ e l, (l < n)%nat →
  empty_chain n e !!! S l = node (empty_chain n e !!! l) (empty_chain n e !!! l).
Proof.
  induction n as [|n IH]; intros e l Hl; [lia|].
  destruct l as [|l]; [by destruct n|]. cbn [empty_chain]. apply (IH (node e e) l). lia.
Qed.
Lemma empty_S l : (l < TREE_DEPTH)%nat →
  empty_levels !!! S l = node (empty_levels !!! l) (empty_levels !!! l).
Proof. apply empty_chain_S. Qed.

(** ** Subtrees *)

Lemma empty_subtree ls l i : N.of_nat (length ls) ≤ i * 2 ^ N.of_nat l → subtree_hash ls l i = empty_levels !!! l.
Proof.
  intros Hi. destruct l as [|l]; cbn [subtree_hash]; rewrite N.shiftl_mul_pow2;
    by rewrite (proj2 (N.leb_le _ _) Hi).
Qed.
(** The empty subtrees make the early exit invisible. *)
Lemma subtree_S ls l i : (l < TREE_DEPTH)%nat →
  subtree_hash ls (S l) i = node (subtree_hash ls l (i * 2)) (subtree_hash ls l (i * 2 + 1)).
Proof.
  intros Hl. cbn [subtree_hash]. rewrite N.shiftl_mul_pow2, pow_S. destruct (N.leb_spec (N.of_nat (length ls)) (i * (2 * 2 ^ N.of_nat l))); [|done].
  rewrite empty_S by done. rewrite !empty_subtree; [done|lia..].
Qed.
Lemma subtree_app ls cm l : ∀ i, (i + 1) * 2 ^ N.of_nat l ≤ N.of_nat (length ls) →
  subtree_hash (ls ++ [cm]) l i = subtree_hash ls l i.
Proof.
  induction l as [|l IH]; intros i Hi; cbn [subtree_hash]; rewrite N.shiftl_mul_pow2, length_app; cbn [length].
  - change (2 ^ N.of_nat 0) with 1 in *. rewrite !(proj2 (N.leb_gt _ _)) by lia.
    rewrite !list_lookup_total_alt, lookup_app_l by lia. done.
  - rewrite pow_S in Hi |- *. pose proof (pow_pos l). rewrite !(proj2 (N.leb_gt _ _)) by nia.
    rewrite !IH by nia. done.
Qed.

(** ** The frontier *)

Definition frontier_ok (ls om : list PqDigest) : Prop :=
  ∀ l, (l < length om)%nat → N.testbit (N.of_nat (length ls)) (N.of_nat l) = true →
    om !! l = Some (subtree_hash ls l (up (N.of_nat (length ls)) l - 1)).

Lemma root_from_ok ls om : frontier_ok ls om → (length om ≤ TREE_DEPTH)%nat → ∀ n level acc,
  (level + n = length om)%nat → acc = subtree_hash ls level (up (N.of_nat (length ls)) level) →
  root_from level (drop level om) empty_levels (N.of_nat (length ls)) acc =
  subtree_hash ls (length om) (up (N.of_nat (length ls)) (length om)).
Proof.
  intros Hf Hd. induction n as [|n IH]; intros level acc Hn ->.
  { rewrite drop_ge by lia. cbn [root_from]. by replace level with (length om) by lia. }
  destruct (lookup_lt_is_Some_2 om level) as [o Ho]; [lia|].
  rewrite (drop_S _ _ _ Ho). cbn [root_from]. apply IH; [lia|].
  rewrite subtree_S by lia. set (s := N.of_nat (length ls)) in *.
  pose proof (up_S s level) as Hu. pose proof (up_bounds s level) as Hb. pose proof (pow_pos level).
  specialize (Hf level ltac:(lia)). destruct (N.testbit s (N.of_nat level)) eqn:Et; cbn [N.b2n] in Hu.
  - specialize (Hf Et). rewrite Ho in Hf. injection Hf as ->. fold s.
    replace (up s (S level) * 2) with (up s level - 1) by lia. by replace (up s level - 1 + 1) with (up s level) by lia.
  - replace (up s (S level) * 2) with (up s level) by lia. f_equal. symmetry. apply empty_subtree. fold s. lia.
Qed.
Lemma frontier_root_ok ls om : frontier_ok ls om → length om = TREE_DEPTH → N.of_nat (length ls) < 2 ^ 32 →
  frontier_root om empty_levels (N.of_nat (length ls)) = subtree_hash ls TREE_DEPTH 0.
Proof.
  intros Hf Hd Hs. unfold frontier_root.
  rewrite <- (drop_0 om), (root_from_ok ls om Hf ltac:(lia) (length om) 0); [|done|].
  - assert (up (N.of_nat (length ls)) TREE_DEPTH = 0) as E.
    { unfold up. rewrite N.shiftr_div_pow2. apply N.div_small. exact Hs. }
    rewrite Hd, E. reflexivity.
  - symmetry. apply empty_subtree. unfold up. rewrite N.shiftr_0_r. lia.
Qed.

Lemma frontier_append_from ls cm om : frontier_ok ls om → (length om ≤ TREE_DEPTH)%nat → ∀ n level acc,
  let s := N.of_nat (length ls) in
  (level + n = length om)%nat → acc = subtree_hash (ls ++ [cm]) level (up s level) →
  (up s level + 1) * 2 ^ N.of_nat level = s + 1 →
  match frontier_append (drop level om) (up s level) acc with
  | Some om1 => length om1 = n ∧
      ∀ l, (level ≤ l < length om)%nat → N.testbit (s + 1) (N.of_nat l) = true →
        om1 !! (l - level)%nat = Some (subtree_hash (ls ++ [cm]) l (up (s + 1) l - 1))
  | None => 2 ^ N.of_nat (length om) ≤ s + 1
  end.
Proof.
  intros Hf Hd n. induction n as [|n IH]; intros level acc s Hn -> Hc.
  { rewrite drop_ge by lia. cbn [frontier_append]. replace (length om) with level by lia. nia. }
  destruct (lookup_lt_is_Some_2 om level) as [o Ho]; [lia|].
  rewrite (drop_S _ _ _ Ho). cbn [frontier_append]. pose proof (up_S s level) as Hu.
  pose proof (bit_up s level) as Hb. rewrite <- N.negb_odd, <- Hb.
  destruct (N.testbit s (N.of_nat level)) eqn:Et; cbn [N.b2n negb] in *.
  - pose proof (Hf level ltac:(lia) Et) as E. rewrite Ho in E. injection E as ->. fold s in Hc, Hu |- *.
    pose proof (up_bounds s level). pose proof (pow_pos level).
    replace (N.shiftr (up s level) 1) with (up s (S level))
      by (unfold up; by rewrite N.shiftr_shiftr, Nat2N.inj_succ, N.add_1_r).
    specialize (IH (S level) (subtree_hash (ls ++ [cm]) (S level) (up s (S level))) ltac:(lia) eq_refl).
    assert ((up s (S level) + 1) * 2 ^ N.of_nat (S level) = s + 1) as Hc' by (rewrite pow_S; nia).
    specialize (IH Hc'). rewrite subtree_S in IH by lia.
    replace (up s (S level) * 2) with (up s level - 1) in IH by lia.
    replace (up s level - 1 + 1) with (up s level) in IH by lia.
    rewrite (subtree_app ls cm level (up s level - 1)) in IH by (fold s; nia). fold s in IH.
    destruct (frontier_append (drop (S level) om) _ _) as [om1|]; cbn [fmap option_fmap option_map]; [|done].
    destruct IH as [Hl IH]. split; [cbn; lia|]. intros l Hl1 Hl2.
    destruct (decide (l = level)) as [->|].
    { rewrite bit_up, (up_carry _ _ Hc), Hu, <- N.add_assoc in Hl2. change (1 + 1) with (2 * 1) in Hl2.
      by rewrite <- N.mul_add_distr_l, N.odd_mul in Hl2. }
    replace (l - level)%nat with (S (l - S level)) by lia. apply IH; [lia|done].
  - split; [cbn; rewrite length_drop; lia|]. intros l Hl1 Hl2.
    destruct (decide (l = level)) as [->|].
    { rewrite Nat.sub_diag. cbn. by rewrite (up_carry _ _ Hc), N.add_sub. }
    replace (l - level)%nat with (S (l - S level)) by lia.
    etrans; [apply (lookup_drop om (S level))|]. replace (S level + (l - S level))%nat with l by lia.
    pose proof (up_above s level l Hc Et ltac:(lia)) as Eu. rewrite Eu.
    rewrite bit_up, Eu, <- bit_up in Hl2. rewrite (Hf l ltac:(lia) Hl2). f_equal. fold s.
    pose proof (up_bounds s l). pose proof (up_S s l) as E. rewrite Hl2 in E. cbn [N.b2n] in E.
    symmetry. apply subtree_app. fold s. nia.
Qed.
Lemma frontier_append_ok ls cm om : frontier_ok ls om → (length om ≤ TREE_DEPTH)%nat →
  N.of_nat (length ls) + 1 < 2 ^ N.of_nat (length om) →
  ∃ om', frontier_append om (N.of_nat (length ls)) cm = Some om' ∧ length om' = length om ∧
    frontier_ok (ls ++ [cm]) om'.
Proof.
  intros Hf Hd Hs. pose proof (frontier_append_from ls cm om Hf Hd (length om) 0 cm) as Hi. cbn zeta in Hi.
  assert (up (N.of_nat (length ls)) 0 = N.of_nat (length ls)) as E0 by apply N.shiftr_0_r.
  rewrite drop_0, E0 in Hi. specialize (Hi eq_refl).
  destruct (frontier_append om _ cm) as [om'|].
  - destruct Hi as [Hl Hi].
    + cbn [subtree_hash]. rewrite N.shiftl_0_r, length_app. cbn [length].
      rewrite (proj2 (N.leb_gt _ _)) by lia. rewrite Nat2N.id, list_lookup_total_alt.
      by rewrite list_lookup_middle.
    + rewrite N.mul_1_r. done.
    + exists om'. split_and!; [done|done|]. intros l Hl1. rewrite length_app. cbn [length].
      replace (N.of_nat (length ls + 1)) with (N.of_nat (length ls) + 1) by lia. intros Hl2.
      rewrite <- (Hi l); [|lia|done]. by rewrite Nat.sub_0_r.
  - exfalso. assert (2 ^ N.of_nat (length om) ≤ N.of_nat (length ls) + 1); [|lia]. apply Hi; [|by rewrite N.mul_1_r].
    cbn [subtree_hash]. rewrite N.shiftl_0_r, length_app. cbn [length].
    rewrite (proj2 (N.leb_gt _ _)) by lia. rewrite Nat2N.id, list_lookup_total_alt.
    by rewrite list_lookup_middle.
Qed.

#[local] Opaque subtree_hash empty_levels.

(** ** The state and the notes it has taken in *)

Definition tree_of (cms : list PqDigest) : CommitmentTree := mkTree cms [].
(** The roots the tree has had, from the empty one to the current one. *)
Definition anchors_of (cms : list PqDigest) : list bytes :=
  (λ k, to_bytes (tree_root (tree_of (take k cms)))) <$> seq 0 (S (length cms)).
Definition with_nullifiers (s : ShieldedV2State) (X : gset bytes) : ShieldedV2State :=
  mkState (ommers s) (size s) (anchor_ring s) X (commitments s).

(** [cms] are the notes of [s]: the frontier stands for their tree, and the ring
    holds the last of its roots. *)
Record holds (cms : list PqDigest) (s : ShieldedV2State) : Prop := {
  h_size : size s = N.of_nat (length cms);
  h_room : size s ≤ MAX_V2_NOTES;
  h_depth : length (ommers s) = TREE_DEPTH;
  h_frontier : frontier_ok cms (ommers s);
  h_commitments : commitments s = to_bytes <$> cms;
  h_ring : anchor_ring s = trim (anchors_of cms);
}.
Lemma holds_root cms s : holds cms s → root s = tree_root (tree_of cms).
Proof.
  intros [Es Hr Hd Hf _ _]. unfold root, tree_root. rewrite Es. apply frontier_root_ok; [done..|].
  cbn [tree_of leaves]; rewrite <- Es. unfold MAX_V2_NOTES, MAX_TREE_LEAVES in Hr. lia.
Qed.
Lemma holds_nullifiers cms s X : holds cms s → holds cms (with_nullifiers s X).
Proof. by intros []. Qed.

Lemma anchors_snoc cms cm : anchors_of (cms ++ [cm]) = anchors_of cms ++ [to_bytes (tree_root (tree_of (cms ++ [cm])))].
Proof.
  unfold anchors_of. rewrite length_app, Nat.add_1_r, (seq_S (S (length cms))), fmap_app. apply (f_equal2 app).
  - apply list_fmap_ext. intros i k [-> Hk]%lookup_seq. rewrite take_app_le by lia. reflexivity.
  - cbn [fmap list_fmap]. rewrite take_ge by (rewrite length_app; cbn; lia). reflexivity.
Qed.
Lemma trim_snoc ring x : trim (trim ring ++ [x]) = trim (ring ++ [x]).
Proof.
  unfold trim. rewrite !length_app, length_drop. cbn [length].
  rewrite !drop_app_le, drop_drop by (rewrite ?length_drop; unfold ANCHOR_RING_LEN, MAX_V2_COMMITMENTS_PER_BLOCK, ANCHOR_HORIZON_BLOCKS; lia).
  f_equal. f_equal. lia.
Qed.

Lemma append_commitment_ok cms s cm : holds cms s → size s < MAX_V2_NOTES →
  ∃ s', append_commitment s cm = Ok s' ∧ holds (cms ++ [cm]) s' ∧ nullifiers s' = nullifiers s.
Proof.
  intros [Es Hr Hd Hf Hc Hg] Hs. unfold append_commitment. rewrite (proj2 (N.leb_gt _ _)) by done.
  destruct (frontier_append_ok cms cm (ommers s) Hf) as (om & E & El & Hf'); [lia| |].
  { rewrite Hd, <- Es. unfold MAX_V2_NOTES, MAX_TREE_LEAVES in Hs. change (2 ^ N.of_nat TREE_DEPTH) with (2 ^ 32). lia. }
  rewrite Es, E. cbn [ommers size anchor_ring nullifiers commitments]. eexists. split; [done|].
  assert (N.of_nat (length cms) + 1 = N.of_nat (length (cms ++ [cm]))) as Es' by (rewrite length_app; cbn; lia).
  split; [|done]. split; cbn [ommers size anchor_ring nullifiers commitments]; [done|lia|congruence|done| |].
  - by rewrite Hc, fmap_app.
  - rewrite Hg, trim_snoc, anchors_snoc. apply (f_equal (λ r, trim (anchors_of cms ++ [to_bytes r]))).
    unfold root. cbn [ommers size]. rewrite Es'. apply frontier_root_ok; [done|congruence|]. rewrite <- Es', <- Es.
    unfold MAX_V2_NOTES, MAX_TREE_LEAVES in Hs. lia.
Qed.
Lemma append_all_ok cs : ∀ cms s, holds cms s → size s + N.of_nat (length cs) ≤ MAX_V2_NOTES →
  ∃ s', append_all s cs = Ok s' ∧ holds (cms ++ cs) s' ∧ nullifiers s' = nullifiers s.
Proof.
  induction cs as [|c cs IH]; intros cms s Hh Hs; cbn [append_all length] in *.
  { exists s. by rewrite app_nil_r. }
  destruct (append_commitment_ok cms s c Hh) as (s1 & E1 & H1 & N1); [lia|]. rewrite E1. cbn [mbind].
  destruct (IH _ _ H1) as (s2 & E2 & H2 & N2).
  { rewrite (h_size _ _ H1), length_app. rewrite (h_size _ _ Hh) in Hs. cbn. lia. }
  exists s2. rewrite <- app_assoc in H2. split_and!; [done|done|congruence].
Qed.
Lemma holds_new : holds [] new.
Proof.
  split; [reflexivity|apply N.le_0_l|reflexivity| |reflexivity|].
  - intros l Hl Hb. by rewrite N.bits_0 in Hb.
  - unfold trim, anchors_of, tree_root, tree_of, new, anchor_ring. cbn [length seq fmap list_fmap take leaves].
    rewrite empty_subtree by apply N.le_0_l. reflexivity.
Qed.

(** ** Applying a bundle *)

(** A real digest: neither the dummy nor out of the field. *)
Definition real (d : PqDigest) : Prop := d ≠ ZERO ∧ is_canonical d = true.

Lemma check_nullifiers_ok s nfs : ∀ batch,
  check_nullifiers s batch nfs = Ok () ↔
  Forall real nfs ∧ NoDup nfs ∧ (∀ nf, nf ∈ nfs → (to_bytes nf ∉ nullifiers s) ∧ to_bytes nf ∉ batch).
Proof.
  induction nfs as [|nf nfs IH]; intros batch; cbn [check_nullifiers].
  { split; [|done]. intros _. split_and!; [constructor..|]. intros nf Hn. inversion Hn. }
  destruct (decide (real nf)) as [[Hz Hc]|Hr].
  2: { split.
    - intros Hk. exfalso. apply Hr. split; intros; [intros ->|]; [by rewrite bool_decide_true in Hk|].
      destruct (bool_decide _); [done|]. by destruct (is_canonical nf).
    - intros [[Hr' _]%Forall_cons _]. done. }
  rewrite bool_decide_false, Hc by done. cbn [negb].
  destruct (decide (to_bytes nf ∈ nullifiers s ∨ to_bytes nf ∈ batch)) as [Hs|Hs].
  { replace (_ || _) with true by (symmetry; rewrite orb_true_iff, !bool_decide_eq_true; done).
    split; [done|]. intros (_ & _ & Hn). destruct (Hn nf) as [H1 H2]; [left|tauto]. }
  replace (_ || _) with false by (symmetry; rewrite orb_false_iff, !bool_decide_eq_false; tauto).
  rewrite IH, Forall_cons, NoDup_cons. split.
  - intros (Hf & Hd & Hn). split_and!; [done|done| |done|].
    + intros Hin. destruct (Hn nf Hin) as [_ H2]. set_solver.
    + intros x [->|Hx]%elem_of_cons; [tauto|]. destruct (Hn x Hx). set_solver.
  - intros ([_ Hf] & [Hni Hd] & Hn). split_and!; [done..|]. intros x Hx. split; [apply Hn; by right|].
    intros [E%elem_of_singleton|Hb]%elem_of_union; [|revert Hb; apply Hn; by right].
    rewrite Forall_forall in Hf. destruct (Hf x Hx). apply to_bytes_inj in E; [|done..]. by subst.
Qed.

(** The notes taken in and the nullifiers spent, in order, by a history of bundles. *)
Inductive reached : list PqDigest → list PqDigest → ShieldedV2State → Prop :=
| reached_new : reached [] [] new
| reached_apply cms spent s nfs cs s' :
    reached cms spent s → apply s nfs cs = Some (Ok s') → reached (cms ++ cs) (spent ++ nfs) s'.

(** What a bundle must satisfy, said of the notes alone. *)
Definition admissible (cms spent nfs cs : list PqDigest) : Prop :=
  N.of_nat (length cms + length cs) ≤ MAX_V2_NOTES ∧ Forall real cs ∧ Forall real nfs ∧
  NoDup nfs ∧ ∀ nf, nf ∈ nfs → nf ∉ spent.

(** The state is the one that takes the notes in, one by one, and then the nullifiers. *)
Record models (cms spent : list PqDigest) (s : ShieldedV2State) : Prop := {
  m_grown : append_all new cms = Ok (with_nullifiers s ∅);
  m_holds : holds cms s;
  m_spent : nullifiers s = list_to_set (to_bytes <$> spent);
  m_notes : Forall real cms;
  m_real : Forall real spent;
  m_once : NoDup spent;
}.

Lemma append_all_app s cs cs' : append_all s (cs ++ cs') = (s ← append_all s cs; append_all s cs').
Proof.
  revert s. induction cs as [|c cs IH]; intros s; cbn [append_all app]; [done|].
  destruct (append_commitment s c); [|done]. apply IH.
Qed.
Lemma append_commitment_nullifiers s X cm :
  append_commitment (with_nullifiers s X) cm = (λ s, with_nullifiers s X) <$> append_commitment s cm.
Proof.
  unfold append_commitment. cbn [with_nullifiers ommers size anchor_ring nullifiers commitments].
  destruct (_ <=? _); [done|]. by destruct (frontier_append _ _ _).
Qed.
Lemma append_all_nullifiers X cs : ∀ s,
  append_all (with_nullifiers s X) cs = (λ s, with_nullifiers s X) <$> append_all s cs.
Proof.
  induction cs as [|c cs IH]; intros s; cbn [append_all]; [done|].
  rewrite append_commitment_nullifiers. destruct (append_commitment s c); [|done]. cbn [fmap mbind]. apply IH.
Qed.

Lemma spent_seen spent (s : ShieldedV2State) nf :
  nullifiers s = list_to_set (to_bytes <$> spent) → Forall real spent → real nf →
  to_bytes nf ∈ nullifiers s ↔ nf ∈ spent.
Proof.
  intros -> Hr [_ Hc]. rewrite elem_of_list_to_set, list_elem_of_fmap. split.
  - intros (x & E & Hx). rewrite Forall_forall in Hr. destruct (Hr x Hx). apply to_bytes_inj in E; [|done..]. by subst.
  - intros Hn. by exists nf.
Qed.

Lemma apply_spec cms spent s nfs cs : models cms spent s →
  (admissible cms spent nfs cs ∧ ∃ s', apply s nfs cs = Some (Ok s') ∧ models (cms ++ cs) (spent ++ nfs) s') ∨
  (¬ admissible cms spent nfs cs ∧ ∃ e, apply s nfs cs = Some (Err e)).
Proof.
  intros M. pose proof (m_holds _ _ _ M) as Hh. pose proof (h_size _ _ Hh) as Es. unfold apply.
  assert (MAX_V2_NOTES < u64_max) as Hm by done.
  destruct (checked_add _ _ _) as [n|] eqn:En.
  2: { right. apply checked_add_None in En. split; [|eauto]. intros [Hl _]. lia. }
  apply checked_add_Some in En as [-> Hn].
  destruct (N.ltb_spec MAX_V2_NOTES (size s + N.of_nat (length cs))) as [Hl|Hl].
  { right. split; [|eauto]. intros [Hl' _]. lia. }
  destruct (bool_decide (ZERO ∈ cs)) eqn:Ez.
  { right. split; [|eauto]. apply bool_decide_eq_true in Ez. intros (_ & Hc & _).
    rewrite Forall_forall in Hc. by destruct (Hc _ Ez). }
  apply bool_decide_eq_false in Ez. destruct (forallb is_canonical cs) eqn:Ec; cbn [negb].
  2: { right. split; [|eauto]. intros (_ & Hc & _). apply not_true_iff_false in Ec. apply Ec, forallb_forall. intros x Hx%list_elem_of_In. rewrite Forall_forall in Hc. by apply Hc. }
  assert (Forall real cs) as Hcs.
  { rewrite forallb_forall in Ec. apply Forall_forall. intros x Hx. split; [by intros ->|].
    by apply Ec, list_elem_of_In. }
  destruct (check_nullifiers s ∅ nfs) as [[]|e] eqn:Ek.
  - apply check_nullifiers_ok in Ek as (Hr & Hd & Hu). left.
    assert (∀ nf, nf ∈ nfs → nf ∉ spent) as Hf.
    { intros nf Hin Hs. destruct (Hu nf Hin) as [Hu1 _]. apply Hu1. rewrite Forall_forall in Hr.
      eapply spent_seen; [apply (m_spent _ _ _ M)|apply (m_real _ _ _ M)|by apply Hr|done]. }
    split; [split_and!; [lia|done..]|].
    set (X := list_to_set (to_bytes <$> nfs) ∪ nullifiers s). fold (with_nullifiers s X).
    destruct (append_all_ok cs cms (with_nullifiers s X)) as (s' & E & Hh' & En'); [by apply holds_nullifiers|exact Hl|].
    rewrite E. exists s'. split; [done|]. split.
    + rewrite append_all_app, (m_grown _ _ _ M). transitivity (append_all (with_nullifiers s ∅) cs); [reflexivity|].
      assert (with_nullifiers s ∅ = with_nullifiers (with_nullifiers s X) ∅) as -> by done.
      rewrite append_all_nullifiers, E. done.
    + done.
    + rewrite En'. cbn. unfold X. rewrite (m_spent _ _ _ M), fmap_app, list_to_set_app_L. set_solver.
    + apply Forall_app. split; [apply (m_notes _ _ _ M)|done].
    + apply Forall_app. split; [apply (m_real _ _ _ M)|done].
    + apply NoDup_app. split_and!; [apply (m_once _ _ _ M)| |done]. intros x Hx Hx'. by apply (Hf x).
  - right. split; [|eauto]. intros (_ & _ & Hr & Hd & Hu).
    assert (check_nullifiers s ∅ nfs = Ok ()) as E; [|congruence].
    apply check_nullifiers_ok. split_and!; [done..|]. intros nf Hin. split; [|set_solver].
    rewrite Forall_forall in Hr. rewrite spent_seen; [by apply Hu|apply (m_spent _ _ _ M)|apply (m_real _ _ _ M)|by apply Hr].
Qed.
Lemma models_new : models [] [] new.
Proof. split; [reflexivity|apply holds_new|reflexivity|constructor..]. Qed.
Lemma reached_models cms spent s : reached cms spent s → models cms spent s.
Proof.
  induction 1 as [|cms spent s nfs cs s' _ IH E]; [apply models_new|].
  destruct (apply_spec _ _ _ nfs cs IH) as [(_ & s1 & E1 & M)|(_ & e & E1)]; [|congruence].
  rewrite E1 in E. by injection E as <-.
Qed.

(** ** Witnesses *)

Lemma lxor_1 k : N.lxor (2 * k) 1 = 2 * k + 1 ∧ N.lxor (2 * k + 1) 1 = 2 * k.
Proof. by destruct k. Qed.
Lemma witness_root ls pos : ∀ n level, (level + n = TREE_DEPTH)%nat →
  root_along pos (witness_path ls n level (up pos level)) (N.of_nat level) (subtree_hash ls level (up pos level)) =
  subtree_hash ls TREE_DEPTH (up pos TREE_DEPTH).
Proof.
  induction n as [|n IH]; intros level Hl; cbn [witness_path root_along].
  { by replace level with TREE_DEPTH by lia. }
  replace (N.shiftr (up pos level) 1) with (up pos (S level))
    by (unfold up; by rewrite N.shiftr_shiftr, Nat2N.inj_succ, N.add_1_r).
  replace (N.of_nat level + 1) with (N.of_nat (S level)) by lia. rewrite <- (IH (S level)) by lia. f_equal.
  rewrite subtree_S by lia. pose proof (up_S pos level) as E. destruct (lxor_1 (up pos (S level))) as [X0 X1].
  rewrite (N.mul_comm (up pos (S level))).
  destruct (N.testbit pos (N.of_nat level)); cbn [N.b2n] in E; [|rewrite N.add_0_r in E]; by rewrite E, ?X0, ?X1.
Qed.
Lemma subtree_leaf ls pos : pos < N.of_nat (length ls) → subtree_hash ls 0 pos = ls !!! N.to_nat pos.
Proof.
  intros Hp. rewrite (eq_refl : subtree_hash ls 0 pos =
    if N.of_nat (length ls) <=? N.shiftl pos 0 then empty_levels !!! 0%nat else ls !!! N.to_nat (N.shiftl pos 0)).
  rewrite N.shiftl_0_r. by rewrite (proj2 (N.leb_gt _ _)).
Qed.
Lemma witness_ok ls pos : pos < N.of_nat (length ls) → N.of_nat (length ls) ≤ MAX_TREE_LEAVES →
  ∃ path, witness (tree_of ls) pos = Some (path, tree_root (tree_of ls)) ∧
    compute_root path (ls !!! N.to_nat pos) = tree_root (tree_of ls).
Proof.
  intros Hp Hm. unfold witness, tree_len. cbn [tree_of leaves]. rewrite (proj2 (N.leb_gt _ _)) by done.
  eexists. split; [reflexivity|]. unfold compute_root. cbn [position siblings].
  pose proof (witness_root ls pos TREE_DEPTH 0 eq_refl) as E.
  assert (up pos TREE_DEPTH = 0) as E0.
  { unfold up. rewrite N.shiftr_div_pow2. apply N.div_small. unfold MAX_TREE_LEAVES in Hm.
    change (2 ^ N.of_nat TREE_DEPTH) with (2 ^ 32). lia. }
  assert (up pos 0 = pos) as E1 by apply N.shiftr_0_r. rewrite E0, E1, subtree_leaf in E by done. exact E.
Qed.

(** ** Snapshots *)

Lemma restore_commitments_ok cms : ∀ s, Forall real cms →
  restore_commitments s (to_bytes <$> cms) = append_all s cms.
Proof.
  induction cms as [|cm cms IH]; intros s Hr; [done|]. apply Forall_cons in Hr as [[Hz Hc] Hr].
  cbn [fmap list_fmap restore_commitments append_all]. rewrite from_to_bytes, bool_decide_false by done.
  destruct (append_commitment s cm); [|done]. apply (IH _ Hr).
Qed.
Lemma restore_nullifiers_ok ns : ∀ s, (∀ b, b ∈ ns → ∃ d, real d ∧ b = to_bytes d) →
  restore_nullifiers s ns = Ok (with_nullifiers s (list_to_set ns ∪ nullifiers s)).
Proof.
  induction ns as [|n ns IH]; intros s Hr; cbn [restore_nullifiers].
  { destruct s. unfold with_nullifiers. cbn. by rewrite (left_id_L ∅ (∪)). }
  destruct (Hr n) as (d & [Hz Hc] & ->); [left|]. rewrite from_to_bytes, bool_decide_false by done.
  rewrite IH by (intros; apply Hr; by right). unfold with_nullifiers. cbn [ommers size anchor_ring nullifiers commitments list_to_set].
  do 2 f_equal. set_solver.
Qed.
Lemma elem_of_sorted X b : b ∈ sorted X ↔ b ∈ X.
Proof. unfold sorted. rewrite merge_sort_Permutation. apply elem_of_elements. Qed.
Lemma restore_snapshot cms spent s : models cms spent s → restore (snapshot s).1 (snapshot s).2 = Ok s.
Proof.
  intros M. unfold restore, snapshot. cbn [fst snd]. rewrite (h_commitments _ _ (m_holds _ _ _ M)).
  rewrite restore_commitments_ok, (m_grown _ _ _ M) by apply (m_notes _ _ _ M).
  transitivity (restore_nullifiers (with_nullifiers s ∅) (sorted (nullifiers s))); [reflexivity|].
  rewrite restore_nullifiers_ok.
  - f_equal. destruct s as [om sz ring X cs]. unfold with_nullifiers. cbn. f_equal. apply set_eq. intros b.
    rewrite elem_of_union, elem_of_list_to_set, elem_of_sorted. set_solver.
  - intros b. rewrite elem_of_sorted, (m_spent _ _ _ M), elem_of_list_to_set, list_elem_of_fmap.
    intros (d & -> & Hd). exists d. split; [|done]. pose proof (m_real _ _ _ M) as Hr. rewrite Forall_forall in Hr. by apply Hr.
Qed.

(** ** The anchor window *)

Lemma anchor_known cms more s s' spent' : root s = tree_root (tree_of cms) → models (cms ++ more) spent' s' →
  (length more < ANCHOR_RING_LEN)%nat → anchor_is_known s' (root s) = true.
Proof.
  intros Er M Hl. unfold anchor_is_known. rewrite existsb_exists. exists (to_bytes (root s)).
  split; [|by rewrite bool_decide_true]. apply list_elem_of_In. rewrite (h_ring _ _ (m_holds _ _ _ M)), Er.
  set (k := length cms). apply list_elem_of_lookup. unfold trim.
  set (d := (length (anchors_of (cms ++ more)) - ANCHOR_RING_LEN)%nat). exists (k - d)%nat.
  assert (length (anchors_of (cms ++ more)) = S (k + length more)) as El.
  { unfold anchors_of. by rewrite length_fmap, length_seq, length_app. }
  rewrite lookup_drop. replace (d + (k - d))%nat with k by (subst d; lia).
  unfold anchors_of. rewrite list_lookup_fmap, lookup_seq_lt by (rewrite length_app; fold k; lia).
  cbn [fmap option_fmap option_map]. rewrite Nat.add_0_l. unfold k. by rewrite take_app_length.
Qed.

(** ** The committed preimage and the note plaintext *)

Lemma u64_le_inj a b : a < 2 ^ 64 → b < 2 ^ 64 → u64_le a = u64_le b → a = b.
Proof.
  intros Ha Hb E. apply (f_equal (λ l, limb_at (l ++ []) 0)) in E. by rewrite !limb_at_0 in E.
Qed.
Lemma concat_inj (n : nat) (ls ls' : list bytes) : length ls = length ls' →
  Forall (λ l, length l = n) ls → Forall (λ l, length l = n) ls' → concat ls = concat ls' → ls = ls'.
Proof.
  revert ls'. induction ls as [|l ls IH]; intros [|l' ls']; try done. cbn [length concat].
  intros Hl [H1 F1]%Forall_cons [H2 F2]%Forall_cons E. apply app_inj_1 in E as [-> E]; [|congruence].
  f_equal. apply IH; [lia|done..].
Qed.
Lemma sorted_lengths cms spent s : models cms spent s → Forall (λ b, length b = 32%nat) (sorted (nullifiers s)).
Proof.
  intros M. apply Forall_forall. intros b. rewrite elem_of_sorted, (m_spent _ _ _ M), elem_of_list_to_set, list_elem_of_fmap.
  intros (d & -> & _). apply length_to_bytes.
Qed.
Lemma ring_lengths cms spent s : models cms spent s → Forall (λ b, length b = 32%nat) (anchor_ring s).
Proof.
  intros M. rewrite (h_ring _ _ (m_holds _ _ _ M)). unfold trim, anchors_of. apply Forall_drop, Forall_fmap, Forall_forall.
  intros k _. apply length_to_bytes.
Qed.
Lemma length_sorted X : length (sorted X) = base.size X.
Proof. unfold sorted. by rewrite merge_sort_Permutation. Qed.
(** The state commitment hashes different pools from different strings, as long as
    their counters are [u64]s. *)
Lemma commitment_preimage_inj cms spent s cms' spent' s' :
  models cms spent s → models cms' spent' s' →
  N.of_nat (base.size (nullifiers s)) < 2 ^ 64 → N.of_nat (base.size (nullifiers s')) < 2 ^ 64 →
  commitment_preimage s = commitment_preimage s' →
  size s = size s' ∧ to_bytes (root s) = to_bytes (root s') ∧ anchor_ring s = anchor_ring s' ∧
  nullifiers s = nullifiers s'.
Proof.
  intros M M' Hn Hn' E. unfold commitment_preimage in E. apply app_inv_head in E.
  assert (∀ t : ShieldedV2State, size t ≤ MAX_V2_NOTES → size t < 2 ^ 64) as Hsz
    by (intros t Ht; eapply N.le_lt_trans; [exact Ht|done]).
  assert (∀ t c p, models c p t → N.of_nat (length (anchor_ring t)) < 2 ^ 64) as Hrg.
  { intros t c p Mt. rewrite (h_ring _ _ (m_holds _ _ _ Mt)). unfold trim. rewrite length_drop.
    assert (ANCHOR_RING_LEN = 160 * 128)%nat as -> by reflexivity. lia. }
  apply app_inj_1 in E as [E1 E]; [|by rewrite !length_u64_le].
  apply u64_le_inj in E1; [|apply Hsz, (h_room _ _ (m_holds _ _ _ M))|apply Hsz, (h_room _ _ (m_holds _ _ _ M'))].
  apply app_inj_1 in E as [E2 E]; [|by rewrite !length_to_bytes].
  apply app_inj_1 in E as [E3 E]; [|by rewrite !length_u64_le].
  apply u64_le_inj in E3; [|by eapply Hrg..].
  assert (∀ ls : list bytes, Forall (λ b, length b = 32%nat) ls → length (concat ls) = (32 * length ls)%nat) as Hcl.
  { induction 1 as [|l ls Hl _ IH]; [done|]. cbn [concat length]. rewrite length_app, IH. lia. }
  pose proof (ring_lengths _ _ _ M) as R. pose proof (ring_lengths _ _ _ M') as R'.
  apply app_inj_1 in E as [E4 E]; [|rewrite !Hcl by done; lia].
  apply concat_inj with (n := 32%nat) in E4; [|lia|done..].
  apply app_inj_1 in E as [E5 E]; [|by rewrite !length_u64_le].
  apply u64_le_inj in E5; [|done..]. apply concat_inj with (n := 32%nat) in E;
    [|rewrite !length_sorted; lia|by eapply sorted_lengths..].
  split_and!; [done..|]. apply set_eq. intros b. rewrite <- !elem_of_sorted. by rewrite E.
Qed.

Lemma plaintext_roundtrip n : value_grains n ≤ MAX_NOTE_VALUE → is_canonical (owner_tag n) = true →
  is_canonical (rho n) = true → from_plaintext (to_plaintext n) = Some n.
Proof.
  intros Hv Ht Hr. unfold from_plaintext, to_plaintext.
  rewrite (drop_app_length' (u64_le _) _ 8) by (by rewrite length_u64_le).
  rewrite (take_app_length' (to_bytes _) _ 32) by (by rewrite length_to_bytes). rewrite from_to_bytes by done.
  cbn [mbind option_bind]. rewrite app_assoc, (drop_app_length' (u64_le _ ++ _) _ 40)
    by (by rewrite length_app, length_u64_le, length_to_bytes).
  rewrite (firstn_all2 (n := 32)) by (by rewrite length_to_bytes). rewrite from_to_bytes by done.
  cbn [mbind option_bind]. rewrite <- app_assoc, limb_at_0 by (eapply N.le_lt_trans; [exact Hv|done]).
  unfold Note_new. rewrite (proj2 (N.ltb_ge _ _)) by done. by destruct n.
Qed.

(** ** What the pool promises *)

(** C29: the incremental pool implements the notes it stands for.  After any history
    of bundles the frontier's root is the root of the full depth-32 tree over the notes
    in order, the counter counts them, the recorded nullifiers are exactly those
    spent and no nullifier was ever spent twice; and the next bundle never panics and
    is accepted exactly when it fits the tree, all its digests are real, and its
    nullifiers are distinct and unspent. *)
Theorem pool_refines_notes cms spent s nfs cs : reached cms spent s →
  root s = tree_root (tree_of cms) ∧ note_count s = N.of_nat (length cms) ∧
  NoDup spent ∧ (∀ nf, real nf → nullifier_seen s nf = true ↔ nf ∈ spent) ∧
  is_Some (apply s nfs cs) ∧
  ((∃ s', apply s nfs cs = Some (Ok s')) ↔ admissible cms spent nfs cs).
Proof.
  intros R. pose proof (reached_models _ _ _ R) as M. pose proof (m_holds _ _ _ M) as Hh.
  split_and!; [by apply holds_root|apply (h_size _ _ Hh)|apply (m_once _ _ _ M)| | |].
  - intros nf Hn. unfold nullifier_seen. rewrite bool_decide_eq_true.
    eapply spent_seen; [apply (m_spent _ _ _ M)|apply (m_real _ _ _ M)|done].
  - destruct (apply_spec _ _ _ nfs cs M) as [(_ & s1 & E1 & _)|(_ & e & E1)]; rewrite E1; eauto.
  - destruct (apply_spec _ _ _ nfs cs M) as [(A & s1 & E1 & _)|(A & e & E1)]; rewrite E1; [naive_solver|].
    split; [by intros [? [=]]|done].
Qed.

(** A pool comes back from its snapshot unchanged, frontier, anchor ring,
    nullifiers and all. *)
Theorem snapshot_restores cms spent s : reached cms spent s → restore (snapshot s).1 (snapshot s).2 = Ok s.
Proof. intros R. by eapply restore_snapshot, reached_models. Qed.

(** A spend in flight survives other traffic.  The witness of any note against
    the current root verifies, and that root stays an accepted anchor while fewer
    than [ANCHOR_RING_LEN] further notes arrive, which is 128 full blocks. *)
Theorem spend_in_flight cms spent s more spent' s' pos :
  reached cms spent s → reached (cms ++ more) spent' s' → (length more < ANCHOR_RING_LEN)%nat →
  pos < N.of_nat (length cms) →
  ∃ path, witness (tree_of cms) pos = Some (path, root s) ∧
    compute_root path (cms !!! N.to_nat pos) = root s ∧ anchor_is_known s' (root s) = true.
Proof.
  intros R R' Hl Hp. pose proof (reached_models _ _ _ R) as M. pose proof (m_holds _ _ _ M) as Hh.
  pose proof (holds_root _ _ Hh) as Er. destruct (witness_ok cms pos Hp) as (path & Ew & Ec).
  { pose proof (h_room _ _ Hh) as Hr. by rewrite (h_size _ _ Hh) in Hr. }
  exists path. rewrite Er. split_and!; [done..|]. rewrite <- Er.
  eapply (anchor_known cms more _ _ spent'); [done|by apply reached_models|done].
Qed.
End pool.

(** ** A concrete pool *)

Module Pq_examples.
(** A linear stand-in for the permutation: each output limb mixes one limb of either
    half of the rate with the capacity. *)
Definition toy_permutation (v : vec N 12) : vec N 12 :=
  let out i j := felt (3 * v !!! i + 5 * v !!! j + v !!! 1%fin + 7 * v !!! 2%fin + 1) in
  [# 0; 0; 0; 0; out 4%fin 8%fin; out 5%fin 9%fin; out 6%fin 10%fin; out 7%fin 11%fin; 0; 0; 0; 0].
Definition toy_rescue : Rescue := toy_permutation.
#[local] Existing Instance toy_rescue.

Definition cm1 : PqDigest := [# 1; 2; 3; 4].
Definition cm2 : PqDigest := [# 5; 6; 7; 8].
Definition nf1 : PqDigest := [# 9; 9; 9; 9].
Definition after (s : ShieldedV2State) (nfs cs : list PqDigest) : ShieldedV2State :=
  match apply s nfs cs with Some (Ok s') => s' | _ => s end.
Definition pool1 : ShieldedV2State := after new [] [cm1].
Definition pool2 : ShieldedV2State := after pool1 [nf1] [cm2].

Lemma reached_after cms spent s nfs cs : reached cms spent s → admissible cms spent nfs cs →
  reached (cms ++ cs) (spent ++ nfs) (after s nfs cs).
Proof.
  intros R A. unfold after. destruct (apply_spec _ _ _ nfs cs (reached_models _ _ _ R)) as [(_ & s' & E & _)|[]]; [|done].
  rewrite E. by eapply reached_apply.
Qed.
Lemma real_1 : real cm1 ∧ real cm2 ∧ real nf1.
Proof. split_and!; split; done. Qed.
Lemma reached1 : reached [cm1] [] pool1.
Proof.
  apply (reached_after [] [] new [] [cm1] reached_new).
  split_and!; [done|repeat constructor; apply real_1|constructor|constructor|]. intros nf Hn. inversion Hn.
Qed.
Lemma admissible2 : admissible [cm1] [] [nf1] [cm2].
Proof.
  split_and!; [done|repeat constructor; apply real_1|repeat constructor; apply real_1|apply NoDup_singleton|].
  intros nf _ Hn. inversion Hn.
Qed.
Lemma reached2 : reached [cm1; cm2] [nf1] pool2.
Proof. apply (reached_after [cm1] [] pool1 [nf1] [cm2] reached1 admissible2). Qed.

(** A repeated nullifier is refused, the first time it is not. *)
Lemma pool_refines_notes_witness :
  (∃ s', apply pool1 [nf1] [cm2] = Some (Ok s')) ∧ ¬ (∃ s', apply pool2 [nf1] [] = Some (Ok s')).
Proof.
  split.
  - apply (pool_refines_notes [cm1] [] pool1 [nf1] [cm2] reached1), admissible2.
  - intros Hs%(pool_refines_notes [cm1; cm2] [nf1] pool2 [nf1] [] reached2).
    destruct Hs as (_ & _ & _ & _ & Hn). apply (Hn nf1); left.
Defined.
Lemma snapshot_restores_witness : restore (snapshot pool2).1 (snapshot pool2).2 = Ok pool2.
Proof. exact (snapshot_restores [cm1; cm2] [nf1] pool2 reached2). Defined.
Lemma spend_in_flight_witness :
  ∃ path, witness (tree_of [cm1]) 0 = Some (path, root pool1) ∧
    compute_root path cm1 = root pool1 ∧ anchor_is_known pool2 (root pool1) = true.
Proof.
  apply (spend_in_flight [cm1] [] pool1 [cm2] [nf1] pool2 0 reached1 reached2); [|reflexivity].
  apply Nat.ltb_lt. reflexivity.
Defined.
End Pq_examples.
End PqSpec.
