(* ===== verification/ShieldedV1.v ===== *)
(** * The first shielded pool's consensus state (crates/shielded/src/state.rs)

    The note-commitment tree, the anchors it has had and the spent nullifiers.  The
    Orchard types and the Merkle frontier are third-party code and parameters. *)

From S2P Require Import Prelude Primitives Crypto Types Ledger ShieldedPq.

Module V1.

(** What the pool calls of [orchard] and [incrementalmerkletree]; a byte form stands
    for an [Anchor] or a [Nullifier].  [frontier_append] is [None] where [append]
    returns [false] and leaves the frontier as it is. *)
Class Orchard := {
  Frontier : Type;
  frontier_empty : Frontier;
  ExtractedNoteCommitment : Type;
  frontier_append : Frontier → ExtractedNoteCommitment → option Frontier;
  frontier_root : Frontier → bytes;
  cmx_to_bytes : ExtractedNoteCommitment → bytes;
  cmx_from_bytes : bytes → option ExtractedNoteCommitment;
}.

(** The errors of the state; building, proving and the codec have their own. *)
Inductive ShieldedError :=
| TreeFull
| DoubleSpend
| Decode (what : string).

Section pool.
Context `{Orchard}.

(** What the state reads of a bundle: its nullifiers and its note commitments. *)
Record ShieldedBundle := mkBundle { nullifiers_of : list bytes; commitments_of : list ExtractedNoteCommitment }.

Record ShieldedState := mkState {
  tree : Frontier;
  anchors : gset bytes;
  nullifiers : gset bytes;
  commitments : list bytes }.

Definition new : ShieldedState := mkState frontier_empty {[frontier_root frontier_empty]} ∅ [].
Definition anchor (s : ShieldedState) : bytes := frontier_root (tree s).
Definition anchor_is_known (s : ShieldedState) (a : bytes) : bool := bool_decide (a ∈ anchors s).
Definition nullifier_seen (s : ShieldedState) (nf : bytes) : bool := bool_decide (nf ∈ nullifiers s).
Definition note_count (s : ShieldedState) : N := N.of_nat (length (commitments s)).
Definition is_empty (s : ShieldedState) : bool :=
  bool_decide (commitments s = []) && bool_decide (nullifiers s = ∅).

Definition add_commitment (s : ShieldedState) (cmx : ExtractedNoteCommitment) :
    ShieldedState * result ShieldedError unit :=
  match frontier_append (tree s) cmx with
  | None => (s, Err TreeFull)
  | Some t => (mkState t ({[frontier_root t]} ∪ anchors s) (nullifiers s) (commitments s ++ [cmx_to_bytes cmx]), Ok ())
  end.
Fixpoint add_commitments (s : ShieldedState) (cs : list ExtractedNoteCommitment) :
    ShieldedState * result ShieldedError unit :=
  match cs with
  | [] => (s, Ok ())
  | c :: cs =>
      match add_commitment s c with
      | (s, Ok _) => add_commitments s cs
      | (s, Err e) => (s, Err e)
      end
  end.
Definition add_nullifier (s : ShieldedState) (nf : bytes) : ShieldedState * result ShieldedError unit :=
  if bool_decide (nf ∈ nullifiers s) then (s, Err DoubleSpend)
  else (mkState (tree s) (anchors s) ({[nf]} ∪ nullifiers s) (commitments s), Ok ()).

Fixpoint check_bundle (s : ShieldedState) (within : gset bytes) (nfs : list bytes) : result ShieldedError unit :=
  match nfs with
  | [] => Ok ()
  | nf :: nfs =>
      if bool_decide (nf ∈ nullifiers s) || bool_decide (nf ∈ within) then Err DoubleSpend
      else check_bundle s ({[nf]} ∪ within) nfs
  end.
(** The state is mutated in place, so it is returned beside the result. *)
Definition apply_bundle (s : ShieldedState) (b : ShieldedBundle) : ShieldedState * result ShieldedError unit :=
  match check_bundle s ∅ (nullifiers_of b) with
  | Err e => (s, Err e)
  | Ok _ =>
      add_commitments
        (mkState (tree s) (anchors s) (list_to_set (nullifiers_of b) ∪ nullifiers s) (commitments s))
        (commitments_of b)
  end.

Definition snapshot (s : ShieldedState) : list bytes * list bytes := (commitments s, Pq.sorted (nullifiers s)).
Fixpoint restore_commitments (s : ShieldedState) (cs : list bytes) : result ShieldedError ShieldedState :=
  match cs with
  | [] => Ok s
  | c :: cs =>
      match cmx_from_bytes c with
      | None => Err (Decode "commitment")
      | Some cmx =>
          match add_commitment s cmx with
          | (s, Ok _) => restore_commitments s cs
          | (_, Err e) => Err e
          end
      end
  end.
Definition restore (cs ns : list bytes) : result ShieldedError ShieldedState :=
  s ← restore_commitments new cs;
  Ok (mkState (tree s) (anchors s) (list_to_set ns ∪ nullifiers s) (commitments s)).

Definition commitment `{Blake3} (s : ShieldedState) : bytes :=
  as_bytes (digest (string_bytes "sov-shielded-state-v1" ++ anchor s ++
    u64_le (N.of_nat (size (nullifiers s))) ++ concat (Pq.sorted (nullifiers s)) ++
    u64_le (N.of_nat (size (anchors s))) ++ concat (Pq.sorted (anchors s)))).
End pool.
End V1.
