(* ===== verification/ShieldedV2.v ===== *)
(** * Pool v2 consensus checks (crates/runtime/src/shielded_v2.rs)

    A bundle is verified against the ledger before anything is written: encoding,
    structure, carrier authorisation, proof, anchors, nullifiers, capacity, the
    turnstile and the drain limit.  Decoding, the STARK verifier and the pool's
    own data structure are an interface. *)

From stdpp Require Import vector finite.
From S2P Require Import Prelude Primitives Mining Crypto Compliance Types Smt Vault Ledger.

Definition NUM_SLOTS : nat := 4.
Definition PROOF_VERSION_V2 : N := 2.
Definition MAX_V2_NOTES : N := 2 ^ 32 - 1.

(** [sov_shielded_pq::air::BundlePublicInputs]. *)
Record BundlePublicInputs (Digest : Type) := mkPublicInputs {
  anchors : vec Digest NUM_SLOTS;
  nullifiers : vec Digest NUM_SLOTS;
  input_dummy : vec bool NUM_SLOTS;
  output_commitments : vec Digest NUM_SLOTS;
  output_dummy : vec bool NUM_SLOTS;
  transparent_in : N;
  transparent_out : N;
  fee_grains : N;
}.
Arguments mkPublicInputs {Digest}.
Arguments anchors {Digest}.
Arguments nullifiers {Digest}.
Arguments input_dummy {Digest}.
Arguments output_commitments {Digest}.
Arguments output_dummy {Digest}.
Arguments transparent_in {Digest}.
Arguments transparent_out {Digest}.
Arguments fee_grains {Digest}.

(** [sov_shielded_pq::WireError], as the verifier distinguishes it. *)
Inductive WireError := WUnknownProofVersion (v : N) | WOther (msg : string).

Inductive ShieldedV2Error :=
| UnknownProofVersion (v : N)
| MalformedBundle (msg : string)
| MalformedStructure (msg : string)
| NoEffect
| FeeLegNotZero (fee : N)
| CarrierAuth
| InvalidProof (msg : string)
| UnknownAnchor (slot : N)
| NullifierAlreadySpent (slot : N)
| TreeFull
| InsufficientBalance (v : N)
| Turnstile (out pool : N)
| ValueOverflow
| DrainLimit.

Record CarrierContext := mkCarrier {
  c_chain_id : bytes; c_genesis : bytes; c_signer : bytes; c_nonce : N }.

(** The [sov-shielded-pq] crate as the runtime calls it. *)
Class V2Env `{LedgerEnv} := {
  (** the cargo feature [zk-suite2] *)
  zk_suite2 : bool;
  SpendBundle : Type;
  public_inputs : SpendBundle → BundlePublicInputs PqDigest;
  decode_bundle : bytes → result WireError SpendBundle;
  decode_bundle_suite2 : bytes → result WireError SpendBundle;
  input_nullifiers : bytes → result string (list (PqDigest * bool));
  check_structure : SpendBundle → result string unit;
  verify_carrier_auth : SpendBundle → CarrierContext → bool;
  verify_spend : SpendBundle → result string unit;
  verify_spend_suite2 : SpendBundle → CarrierContext → result string unit;
  anchor_is_known_v2 : ShieldedV2State → PqDigest → bool;
  nullifier_seen : ShieldedV2State → PqDigest → bool;
  note_count : ShieldedV2State → N;
  v2_state_error_display : ShieldedV2StateError → string;
}.

Section shielded_v2.
Context `{LE : LedgerEnv, !V2Env}.

Record V2Effects := mkEffects {
  e_nullifiers : list PqDigest;
  e_commitments : list PqDigest;
  shield_in : Balance;
  deshield_out : Balance;
  window_update : option (N * Balance);
}.

(** The loop of [reject_spent_inputs] over the enumerated inputs. *)
Fixpoint first_spent (pool : ShieldedV2State) (slot : N) (inputs : list (PqDigest * bool)) :
    result ShieldedV2Error unit :=
  match inputs with
  | [] => Ok ()
  | (nf, dummy) :: inputs =>
      if negb dummy && nullifier_seen pool nf then Err (NullifierAlreadySpent slot)
      else first_spent pool (slot + 1) inputs
  end.
Fixpoint reject_spent_inputs (a : Action.t) (l : Ledger) : result ShieldedV2Error unit :=
  match a with
  | Action.Tipped _ inner | Action.Timestamped _ inner | Action.MultisigExec inner _
  | Action.ProposeMultisig _ inner => reject_spent_inputs inner l
  | Action.ShieldedV2 bundle =>
      inputs ← map_err MalformedBundle (input_nullifiers bundle);
      first_spent (shielded_v2 (st l)) 0 inputs
  | _ => Ok ()
  end.

(** [(0..NUM_SLOTS).filter(|&i| !dummy[i])]. *)
Definition real_slots (dummy : vec bool NUM_SLOTS) : list (fin NUM_SLOTS) :=
  filter (λ i, dummy !!! i = false) (enum (fin NUM_SLOTS)).
Definition slot_N (i : fin NUM_SLOTS) : N := N.of_nat (fin_to_nat i).

Definition is_suite2 (bundle_bytes : bytes) : bool :=
  bool_decide (head bundle_bytes = Some PROOF_VERSION_V2).

(** The rolling drain limiter: the window after a de-shield of [out], or [None]
    when it would exceed the limit. *)
Definition drain_window (w : N * Balance) (height window_blocks limit : N) (out : Balance) :
    option (N * Balance) :=
  let elapsed := window_blocks <=? saturating_sub height w.1 in
  let base := if elapsed then (height, 0) else w in
  new_spent ← Bal.checked_add base.2 out;
  if new_spent <=? limit then Some (base.1, new_spent) else None.

Definition verify_bundle_for_carrier_with_suite2 (bundle_bytes : bytes) (l : Ledger)
    (mining : MiningPolicy) (height : N) (domain : SigningDomain) (signer : AccountId) (nonce : N)
    (signer_balance : Balance) (suite2_active : bool) : result ShieldedV2Error V2Effects :=
  let suite2 := is_suite2 bundle_bytes in
  if suite2_active && negb suite2 then Err (UnknownProofVersion (default 0 (head bundle_bytes)))
  else if suite2 && negb (suite2_active && zk_suite2) then Err (UnknownProofVersion 2)
  else
    bundle ← map_err (λ e, match e with
                           | WUnknownProofVersion v => UnknownProofVersion v
                           | WOther msg => MalformedBundle msg
                           end)
               (if suite2 then decode_bundle_suite2 bundle_bytes else decode_bundle bundle_bytes);
    let pi := public_inputs bundle in
    _ ← map_err MalformedStructure (check_structure bundle);
    if negb (fee_grains pi =? 0) then Err (FeeLegNotZero (fee_grains pi))
    else
      let real_inputs := real_slots (input_dummy pi) in
      let real_outputs := real_slots (output_dummy pi) in
      let nfs := (λ i, nullifiers pi !!! i) <$> real_inputs in
      let cms := (λ j, output_commitments pi !!! j) <$> real_outputs in
      if bool_decide (nfs = []) && bool_decide (cms = []) then Err NoEffect
      else
        let carrier := mkCarrier (string_bytes (chain_id domain)) (as_bytes (genesis domain))
                         (acc_bytes signer) nonce in
        if negb (verify_carrier_auth bundle carrier) then Err CarrierAuth
        else
          _ ← map_err InvalidProof
                (if suite2 then verify_spend_suite2 bundle carrier else verify_spend bundle);
          let pool := shielded_v2 (st l) in
          match find (λ i, negb (anchor_is_known_v2 pool (anchors pi !!! i))) real_inputs with
          | Some i => Err (UnknownAnchor (slot_N i))
          | None =>
              match find (λ i, nullifier_seen pool (nullifiers pi !!! i)) real_inputs with
              | Some i => Err (NullifierAlreadySpent (slot_N i))
              | None =>
                  if match checked_add u64_max (note_count pool) (N.of_nat (length cms)) with
                     | Some n => negb (n <=? MAX_V2_NOTES)
                     | None => true
                     end
                  then Err TreeFull
                  else
                    let shield_in := transparent_in pi in
                    let deshield_out := transparent_out pi in
                    match Bal.checked_sub signer_balance shield_in with
                    | None => Err (InsufficientBalance shield_in)
                    | Some _ =>
                        after_shield ←
                          ok_or (Bal.checked_add (shielded_v2_value (st l)) shield_in) ValueOverflow;
                        match Bal.checked_sub after_shield deshield_out with
                        | None => Err (Turnstile deshield_out after_shield)
                        | Some _ =>
                            if negb (deshield_out =? 0) && negb (deshield_window_blocks mining =? 0) then
                              match drain_window (deshield_v2_window (st l)) height
                                      (deshield_window_blocks mining) (deshield_limit_grains mining)
                                      deshield_out with
                              | Some w => Ok (mkEffects nfs cms shield_in deshield_out (Some w))
                              | None => Err DrainLimit
                              end
                            else Ok (mkEffects nfs cms shield_in deshield_out None)
                        end
                    end
              end
          end.
End shielded_v2.
