(* ===== verification/PqWire.v ===== *)
(** * Post-quantum bundles on the wire (crates/shielded-pq)

    The structural check of an embedded proof (proof_frame.rs), the bundle and its
    rules (bundle.rs), the binding to its carrier (carrier.rs) and the codec (wire.rs).
    A reader takes the bytes not yet read and returns a value and the rest.  The
    proof system's own encodings, the suite-2 proof decoder, BLAKE3's key derivation
    mode and ML-DSA are parameters. *)

From stdpp Require Import vector.
From S2P Require Import Prelude Primitives Mining Crypto Compliance Types Smt Vault Ledger ShieldedPq ShieldedV2.
#[local] Open Scope N_scope.

Module Wire.
Import Pq(PqDigest, ZERO, to_bytes, from_bytes, is_canonical, MAX_NOTE_VALUE).

Abbreviation PublicInputs := (BundlePublicInputs PqDigest).

(** ** Readers *)

Definition reader (E A : Type) : Type := bytes → result E (A * bytes).
Definition ret {E A} (a : A) : reader E A := λ r, Ok (a, r).
Definition bind {E A B} (m : reader E A) (k : A → reader E B) : reader E B := λ r,
  match m r with Ok (a, r) => k a r | Err e => Err e end.
Definition fail {E A} (e : E) : reader E A := λ _, Err e.
Declare Scope reader_scope.
#[local] Notation "x <- m ;; k" := (bind m (λ x, k)) (at level 100, m at next level, right associativity) : reader_scope.
#[local] Notation "m ;;; k" := (bind m (λ _, k)) (at level 100, right associativity) : reader_scope.
#[local] Open Scope reader_scope.

(** [len] bytes, or an error if fewer remain. *)
Definition bytes_or {E} (e : E) (len : nat) : reader E bytes := λ r,
  if bool_decide (length r < len)%nat then Err e else Ok (take len r, drop len r).

(** ** The frame of a proof (proof_frame.rs) *)

Definition MAX_PROOF_LEN : N := 128 * 1024.
Inductive ProofFrameError :=
| TooLong (len : N)
| Truncated (section : string)
| ContextMismatch
| QueryCount (unique limit : N)
| LengthOverrun (section : string) (declared remaining : N)
| EmptyFriLayer (layer : N)
| MerkleDepth (depth expected : N)
| FriLayers (got expected : N)
| FriPartitions (got depth : N)
| FrameTrailing (n : N).

(** The shape of the circuit and of its proofs (air.rs, prover.rs). *)
Definition TRACE_LENGTH : N := 2048.
Definition FRI_NUM_QUERIES : N := 64.
Definition FRI_BLOWUP_FACTOR : N := 16.
Definition FRI_FOLDING_FACTOR : N := 4.
(** winterfell's encoding of the proof context and its count of FRI layers. *)
Class FrameEnv := {
  expected_context_bytes : PublicInputs → bytes;
  num_fri_layers : N → N;
}.

Definition remaining (r : bytes) : N := N.of_nat (length r).
Definition f_take (len : N) (section : string) : reader ProofFrameError unit := λ r,
  if remaining r <? len then Err (LengthOverrun section len (remaining r)) else Ok ((), drop (N.to_nat len) r).
Definition f_section (len : N) (section : string) : reader ProofFrameError bytes := λ r,
  if remaining r <? len then Err (LengthOverrun section len (remaining r))
  else Ok (take (N.to_nat len) r, drop (N.to_nat len) r).
Definition f_bytes (len : nat) (section : string) : reader ProofFrameError bytes := bytes_or (Truncated section) len.
Definition f_u8 (section : string) : reader ProofFrameError N := b <- f_bytes 1 section ;; ret (hd 0 b).
Definition f_u16 (section : string) : reader ProofFrameError N := b <- f_bytes 2 section ;; ret (le_val b).
Definition f_u32 (section : string) : reader ProofFrameError N := b <- f_bytes 4 section ;; ret (le_val b).
(** [u8::trailing_zeros]: eight for zero. *)
Fixpoint zeros_from (n : nat) (b : N) : nat :=
  match n with O => O | S n => if N.odd b then O else S (zeros_from n (b / 2)) end.
Definition trailing_zeros (b : N) : nat := zeros_from 8 b.
(** winterfell's variable-length integer: the low bits of the first byte give the length. *)
Definition vint (section : string) : reader ProofFrameError N := λ r,
  match r with
  | [] => Err (Truncated section)
  | first :: _ =>
      let len := S (trailing_zeros first) in
      (if bool_decide (len = 9%nat) then b <- f_bytes 9 section ;; ret (le_val (drop 1 b))
       else b <- f_bytes len section ;; ret (N.shiftr (le_val b) (N.of_nat len))) r
  end.

Fixpoint digest_vectors (n : nat) : reader ProofFrameError unit :=
  match n with
  | O => ret ()
  | S n =>
      digests <- vint "Merkle digests" ;;
      (λ r, if remaining r / 32 <? digests then Err (LengthOverrun "Merkle digests" digests (remaining r))
            else Ok ((), r)) ;;;
      f_take (digests * 32) "Merkle digests" ;;;
      digest_vectors n
  end.
Definition no_more : reader ProofFrameError unit := λ r,
  if bool_decide (r = []) then Ok ((), r) else Err (FrameTrailing (remaining r)).
Definition merkle_opening (expected_depth : N) : reader ProofFrameError unit :=
  depth <- f_u8 "Merkle depth" ;;
  if negb (depth =? expected_depth) then fail (MerkleDepth depth expected_depth)
  else
    vectors <- vint "Merkle node vectors" ;;
    (λ r, if remaining r <? vectors then Err (LengthOverrun "Merkle node vectors" vectors (remaining r))
          else digest_vectors (N.to_nat vectors) r) ;;;
    no_more.
Definition validate_merkle_opening (l : bytes) (expected_depth : N) : result ProofFrameError unit :=
  match merkle_opening expected_depth l with Ok _ => Ok () | Err e => Err e end.
(** An opening is checked in the section that holds it. *)
Definition opening (len : N) (section : string) (depth : N) : reader ProofFrameError unit :=
  s <- f_section len section ;;
  λ r, match validate_merkle_opening s depth with Ok _ => Ok ((), r) | Err e => Err e end.

Section frame.
Context `{FrameEnv}.
Definition queries (values proof : string) (depth : N) : reader ProofFrameError unit :=
  len <- vint values ;;
  f_take len values ;;;
  len <- vint proof ;;
  opening len proof depth.
(** The layers from number [layer] on, over a domain that shrinks at each. *)
Fixpoint fri_layers (n : nat) (layer fri_domain : N) : reader ProofFrameError N :=
  match n with
  | O => ret fri_domain
  | S n =>
      let fri_domain := fri_domain / FRI_FOLDING_FACTOR in
      values_len <- f_u32 "fri layer values length" ;;
      if values_len =? 0 then fail (EmptyFriLayer layer)
      else
        f_take values_len "fri layer values" ;;;
        paths_len <- f_u32 "fri layer paths length" ;;
        opening paths_len "fri layer paths" (N.log2 fri_domain) ;;;
        fri_layers n (layer + 1) fri_domain
  end.
Definition frame_body : reader ProofFrameError unit :=
  unique <- f_u8 "num_unique_queries" ;;
  if (unique =? 0) || (FRI_NUM_QUERIES <? unique) then fail (QueryCount unique FRI_NUM_QUERIES)
  else
    commitments_len <- f_u16 "commitments length" ;;
    f_take commitments_len "commitments" ;;;
    let domain_size := TRACE_LENGTH * FRI_BLOWUP_FACTOR in
    let domain_depth := N.log2 domain_size in
    queries "trace query values" "trace query proof" domain_depth ;;;
    queries "constraint query values" "constraint query proof" domain_depth ;;;
    trace_states_len <- f_u16 "ood trace-states length" ;;
    f_take trace_states_len "ood trace states" ;;;
    quotient_len <- f_u16 "ood quotient-states length" ;;
    f_take quotient_len "ood quotient states" ;;;
    num_layers <- f_u8 "fri layer count" ;;
    let expected_layers := num_fri_layers domain_size in
    if negb (num_layers =? expected_layers) then fail (FriLayers num_layers expected_layers)
    else
      fri_domain <- fri_layers (N.to_nat num_layers) 0 domain_size ;;
      remainder_len <- f_u16 "fri remainder length" ;;
      f_take remainder_len "fri remainder" ;;;
      partitions <- f_u8 "fri partition count" ;;
      let partition_depth := N.log2 fri_domain in
      if partition_depth <? partitions then fail (FriPartitions partitions partition_depth)
      else f_bytes 8 "pow nonce" ;;; no_more.
Definition validate_proof_frame (proof_bytes : bytes) (pi : PublicInputs) : result ProofFrameError unit :=
  if MAX_PROOF_LEN <? remaining proof_bytes then Err (TooLong (remaining proof_bytes))
  else
    let expected := expected_context_bytes pi in
    if bool_decide (length proof_bytes < length expected)%nat then Err (Truncated "context")
    else if negb (bool_decide (take (length expected) proof_bytes = expected)) then Err ContextMismatch
    else match frame_body (drop (length expected) proof_bytes) with Ok _ => Ok () | Err e => Err e end.
End frame.

(** ** Bundles (bundle.rs, encrypt.rs, auth.rs) *)

Definition KEM_CT_LEN : nat := 1088.
Definition AUTH_PK_LEN : nat := 1952.
Definition AUTH_SIG_LEN : nat := 3309.
Record NoteCiphertext := mkCiphertext { kem_ct : bytes; detection_tag : bytes; aead_ct : bytes }.
Record SpendBundle := mkBundle {
  public_inputs : PublicInputs;
  proof_bytes : bytes;
  output_ciphertexts : vec (option NoteCiphertext) NUM_SLOTS;
  auth_pk : bytes;
  auth_sig : bytes }.

Inductive BundleError :=
| PublicValue | Anchor (slot : N) | DummySlot (slot : N) | RealSlot (slot : N) | DuplicateNullifier | Proof (e : string) | Auth.

Fixpoint check_inputs (i : N) (slots : list (bool * (PqDigest * PqDigest))) : result BundleError unit :=
  match slots with
  | [] => Ok ()
  | (dummy, (anchor, nf)) :: slots =>
      if dummy then
        if negb (bool_decide (anchor = ZERO)) || negb (bool_decide (nf = ZERO)) then Err (DummySlot i)
        else check_inputs (i + 1) slots
      else if bool_decide (nf = ZERO) then Err (RealSlot i)
      else check_inputs (i + 1) slots
  end.
Fixpoint check_outputs (j : N) (slots : list (bool * (PqDigest * option NoteCiphertext))) : result BundleError unit :=
  match slots with
  | [] => Ok ()
  | (dummy, (cm, ct)) :: slots =>
      if dummy then
        if negb (bool_decide (cm = ZERO)) || bool_decide (is_Some ct) then Err (DummySlot j)
        else check_outputs (j + 1) slots
      else if bool_decide (cm = ZERO) || negb (bool_decide (is_Some ct)) then Err (RealSlot j)
      else check_outputs (j + 1) slots
  end.
Definition real_nullifiers (pi : PublicInputs) : list PqDigest :=
  snd <$> filter (λ e, e.1 = false) (zip (input_dummy pi) (nullifiers pi)).
(** Digests are ordered by their limbs. *)
Definition digest_le (a b : PqDigest) : Prop := bytes_leb a b = true.
#[global] Instance digest_le_dec : RelDecision digest_le.
Proof. intros a b. unfold digest_le. apply _. Defined.
Fixpoint adjacent_equal (l : list PqDigest) : bool :=
  match l with
  | a :: ((b :: _) as l) => bool_decide (a = b) || adjacent_equal l
  | _ => false
  end.
Definition has_repeats (nfs : list PqDigest) : bool := adjacent_equal (merge_sort digest_le nfs).
Definition check_structure (b : SpendBundle) : result BundleError unit :=
  let pi := public_inputs b in
  if (MAX_NOTE_VALUE <? transparent_in pi) || (MAX_NOTE_VALUE <? transparent_out pi)
     || (MAX_NOTE_VALUE <? fee_grains pi) then Err PublicValue
  else
    _ ← check_inputs 0 (zip (input_dummy pi) (zip (anchors pi) (nullifiers pi)));
    _ ← check_outputs 0 (zip (output_dummy pi) (zip (output_commitments pi) (output_ciphertexts b)));
    if has_repeats (real_nullifiers pi) then Err DuplicateNullifier else Ok ().

(** ** What the authorisation signs (bundle.rs, carrier.rs) *)

Class AuthEnv := {
  (** [blake3::Hasher::new_derive_key] *)
  derive_key : string → bytes → bytes;
  (** a key that parses and a signature that verifies, in a signing context *)
  ml_dsa_verify : bytes → bytes → bytes → bytes → bool;
}.
Definition flag_byte (f : bool) : N := if f then 1 else 0.
Definition input_preimage (e : bool * (PqDigest * PqDigest)) : bytes :=
  to_bytes e.2.1 ++ to_bytes e.2.2 ++ [flag_byte e.1].
Definition output_preimage (e : bool * (PqDigest * option NoteCiphertext)) : bytes :=
  to_bytes e.2.1 ++ [flag_byte e.1] ++
  match e.2.2 with
  | Some ct => [1] ++ kem_ct ct ++ detection_tag ct ++ u64_le (N.of_nat (length (aead_ct ct))) ++ aead_ct ct
  | None => [0]
  end.
Definition bundle_preimage (pi : PublicInputs) (cts : vec (option NoteCiphertext) NUM_SLOTS) (pk : bytes) : bytes :=
  (zip (input_dummy pi) (zip (anchors pi) (nullifiers pi)) ≫= input_preimage) ++
  (zip (output_dummy pi) (zip (output_commitments pi) cts) ≫= output_preimage) ++
  u64_le (transparent_in pi) ++ u64_le (transparent_out pi) ++ u64_le (fee_grains pi) ++
  u64_le (N.of_nat AUTH_PK_LEN) ++ pk.
Definition SCHEME_DOMAIN_SIGNER_NONCE : N := 2.
Definition carrier_preimage (digest : bytes) (ctx : CarrierContext) : bytes :=
  [SCHEME_DOMAIN_SIGNER_NONCE] ++ u64_le (N.of_nat (length (c_chain_id ctx))) ++ c_chain_id ctx ++ c_genesis ctx ++
  u64_le (N.of_nat (length (c_signer ctx))) ++ c_signer ctx ++ u64_le (c_nonce ctx) ++ digest.

Section auth.
Context `{AuthEnv}.
Definition bundle_digest (pi : PublicInputs) (cts : vec (option NoteCiphertext) NUM_SLOTS) (pk : bytes) : bytes :=
  derive_key "sov-shielded-pq:bundle:v2" (bundle_preimage pi cts pk).
Definition carrier_sighash (digest : bytes) (ctx : CarrierContext) : bytes :=
  derive_key "sov-shielded-pq:carrier-binding:v2" (carrier_preimage digest ctx).
Definition authorization_message (b : SpendBundle) (ctx : CarrierContext) : bytes :=
  carrier_sighash (bundle_digest (public_inputs b) (output_ciphertexts b) (auth_pk b)) ctx.
Definition verify_auth (pk digest sig : bytes) : bool :=
  ml_dsa_verify pk digest sig (string_bytes "sov-shielded-pq:auth:v2").
Definition verify_carrier_auth (b : SpendBundle) (ctx : CarrierContext) : bool :=
  verify_auth (auth_pk b) (authorization_message b ctx) (auth_sig b).
End auth.

(** ** The codec (wire.rs) *)

Definition PROOF_VERSION_V1 : N := 1.
Definition AEAD_CT_LEN : nat := 88.
Definition MAX_CANDIDATE_PROOF_BYTES : N := 2 * 1024 * 1024.
Inductive WireError :=
| UnexpectedEnd (field : string)
| UnknownProofVersion (v : N)
| InvalidFlag (field : string) (value : N)
| NonCanonicalDigest (field : string)
| ProofLength (n : N)
| CiphertextLength (n : N)
| ProofFrame (e : ProofFrameError)
| Suite2ProofFrame (msg : string)
| TrailingBytes (n : N).

Definition r_bytes (len : nat) (field : string) : reader WireError bytes := bytes_or (UnexpectedEnd field) len.
Definition u8 (field : string) : reader WireError N := b <- r_bytes 1 field ;; ret (hd 0 b).
Definition uint (n : nat) (field : string) : reader WireError N := b <- r_bytes n field ;; ret (le_val b).
Definition flag (field : string) : reader WireError bool :=
  v <- u8 field ;;
  if v =? 0 then ret false else if v =? 1 then ret true else fail (InvalidFlag field v).
Definition digest (field : string) : reader WireError PqDigest :=
  raw <- r_bytes 32 field ;;
  match from_bytes raw with Some d => ret d | None => fail (NonCanonicalDigest field) end.
(** One value per slot, in order. *)
Fixpoint slots {A} (n : nat) (m : reader WireError A) : reader WireError (vec A n) :=
  match n with
  | O => ret [#]
  | S n => x <- m ;; xs <- slots n m ;; ret (x ::: xs)
  end.

Definition input_nullifiers (l : bytes) : result WireError (list (PqDigest * bool)) :=
  fst <$> ((version <- u8 "proof_version" ;;
    if negb ((version =? PROOF_VERSION_V1) || (version =? PROOF_VERSION_V2)) then fail (UnknownProofVersion version)
    else
      slots NUM_SLOTS (digest "anchor") ;;;
      nfs <- slots NUM_SLOTS (digest "nullifier") ;;
      dummies <- slots NUM_SLOTS (flag "input_dummy") ;;
      ret (zip nfs dummies)) l).

Definition encode_ciphertext_fields (ct : NoteCiphertext) : bytes :=
  kem_ct ct ++ detection_tag ct ++ to_le 2 (N.min (N.of_nat (length (aead_ct ct))) 65535) ++ aead_ct ct.
Definition encode_slot (ct : option NoteCiphertext) : bytes :=
  match ct with Some ct => 1 :: encode_ciphertext_fields ct | None => [0] end.
Definition encode_with (version : N) (b : SpendBundle) : bytes :=
  let pi := public_inputs b in
  [version] ++ (vec_to_list (anchors pi) ≫= to_bytes) ++ (vec_to_list (nullifiers pi) ≫= to_bytes) ++
  (flag_byte <$> vec_to_list (input_dummy pi)) ++ (vec_to_list (output_commitments pi) ≫= to_bytes) ++
  (flag_byte <$> vec_to_list (output_dummy pi)) ++
  u64_le (transparent_in pi) ++ u64_le (transparent_out pi) ++ u64_le (fee_grains pi) ++
  to_le 4 (N.min (N.of_nat (length (proof_bytes b))) 4294967295) ++ proof_bytes b ++
  (vec_to_list (output_ciphertexts b) ≫= encode_slot) ++ auth_pk b ++ auth_sig b.
Definition encode_bundle (b : SpendBundle) : bytes := encode_with PROOF_VERSION_V1 b.

Definition decode_ciphertext_fields : reader WireError NoteCiphertext :=
  kem <- r_bytes KEM_CT_LEN "kem_ct" ;;
  tag <- r_bytes 4 "detection_tag" ;;
  aead_len <- uint 2 "aead_len" ;;
  if negb (aead_len =? N.of_nat AEAD_CT_LEN) then fail (CiphertextLength aead_len)
  else
    aead <- r_bytes AEAD_CT_LEN "aead_ct" ;;
    ret (mkCiphertext kem tag aead).
Definition decode_slot : reader WireError (option NoteCiphertext) :=
  present <- flag "ciphertext present" ;;
  if present then ct <- decode_ciphertext_fields ;; ret (Some ct) else ret None.
Definition at_end {A} (a : A) : reader WireError A := λ r,
  if bool_decide (r = []) then Ok (a, r) else Err (TrailingBytes (remaining r)).
Definition decode_note_ciphertext (l : bytes) : result WireError NoteCiphertext :=
  fst <$> (ct <- decode_ciphertext_fields ;; at_end ct) l.
Definition encode_note_ciphertext (ct : NoteCiphertext) : bytes := encode_ciphertext_fields ct.

(** The cargo feature [zk-suite2] and the suite-2 proof decoder. *)
Class SuiteEnv := { suite2_enabled : bool; suite2_frame : bytes → result string unit }.

Section codec.
Context `{FrameEnv, SuiteEnv}.

Definition max_proof_len (version : N) : N :=
  if suite2_enabled && (version =? PROOF_VERSION_V2) then MAX_CANDIDATE_PROOF_BYTES else MAX_PROOF_LEN.
Definition check_frame (version : N) (proof : bytes) (pi : PublicInputs) : result WireError unit :=
  _ ← (if version =? PROOF_VERSION_V1 then map_err ProofFrame (validate_proof_frame proof pi) else Ok ());
  if suite2_enabled && (version =? PROOF_VERSION_V2) then map_err Suite2ProofFrame (suite2_frame proof) else Ok ().
Definition decode_public_inputs : reader WireError PublicInputs :=
  anchors <- slots NUM_SLOTS (digest "anchor") ;;
  nullifiers <- slots NUM_SLOTS (digest "nullifier") ;;
  input_dummy <- slots NUM_SLOTS (flag "input_dummy") ;;
  output_commitments <- slots NUM_SLOTS (digest "output_commitment") ;;
  output_dummy <- slots NUM_SLOTS (flag "output_dummy") ;;
  transparent_in <- uint 8 "transparent_in" ;;
  transparent_out <- uint 8 "transparent_out" ;;
  fee_grains <- uint 8 "fee_grains" ;;
  ret (mkPublicInputs anchors nullifiers input_dummy output_commitments output_dummy transparent_in transparent_out
         fee_grains).
Definition decode_proof (version : N) (pi : PublicInputs) : reader WireError bytes :=
  proof_len <- uint 4 "proof_len" ;;
  if (proof_len =? 0) || (max_proof_len version <? proof_len) then fail (ProofLength proof_len)
  else
    proof <- r_bytes (N.to_nat proof_len) "proof" ;;
    match check_frame version proof pi with Ok _ => ret proof | Err e => fail e end.
Definition decode_bundle_inner (expected_version : N) : reader WireError SpendBundle :=
  version <- u8 "proof_version" ;;
  if negb (version =? expected_version) then fail (UnknownProofVersion version)
  else
    pi <- decode_public_inputs ;;
    proof <- decode_proof version pi ;;
    cts <- slots NUM_SLOTS decode_slot ;;
    pk <- r_bytes AUTH_PK_LEN "auth_pk" ;;
    sig <- r_bytes AUTH_SIG_LEN "auth_sig" ;;
    at_end (mkBundle pi proof cts pk sig).
Definition decode_bundle (l : bytes) : result WireError SpendBundle := fst <$> decode_bundle_inner PROOF_VERSION_V1 l.
Definition decode_bundle_for_suite (version : N) (l : bytes) : result WireError SpendBundle :=
  if negb (version =? PROOF_VERSION_V1) && negb (suite2_enabled && (version =? PROOF_VERSION_V2))
  then Err (UnknownProofVersion version)
  else fst <$> decode_bundle_inner version l.
(** The bytes of suite 1 with another version byte. *)
Definition encode_bundle_for_suite (version : N) (b : SpendBundle) : result WireError bytes :=
  if version =? PROOF_VERSION_V1 then Ok (encode_bundle b)
  else if suite2_enabled && (version =? PROOF_VERSION_V2) then
    _ ← map_err Suite2ProofFrame (suite2_frame (proof_bytes b));
    let l := <[0%nat := version]> (encode_bundle b) in
    _ ← decode_bundle_for_suite version l;
    Ok l
  else Err (UnknownProofVersion version).
End codec.
End Wire.
