(* ===== verification/PqWireSpec.v ===== *)
(** * The bundle codec is exact (crates/shielded-pq/src/wire.rs, bundle.rs, carrier.rs)

    A reader and an encoding form a [codec] when the reader takes back exactly what the
    encoding writes.  The codecs of the fields compose to that of a bundle: every
    accepted byte string is the one encoding of the bundle it decodes to. *)

From stdpp Require Import vector.
From S2P Require Import Prelude Primitives Mining Crypto Compliance Types Smt Vault Ledger.
From S2P Require Import ShieldedPq ShieldedPqSpec ShieldedV2 PqWire.
#[local] Open Scope N_scope.

Module WireSpec.
Import Wire.
Import Pq(PqDigest, ZERO, to_bytes, from_bytes, is_canonical, MAX_NOTE_VALUE).

(** ** Codecs *)

Record codec {E A} (m : reader E A) (enc : A → bytes) (P : A → Prop) : Prop := {
  cd_complete a rest : P a → m (enc a ++ rest) = Ok (a, rest);
  cd_sound l a rest : Forall byte_ok l → m l = Ok (a, rest) → P a ∧ l = enc a ++ rest }.
Arguments cd_complete {E A m enc P}.
Arguments cd_sound {E A m enc P}.

Lemma bind_complete {E A B} (m : reader E A) enc P (k : A → reader E B) a rest :
  codec m enc P → P a → bind m k (enc a ++ rest) = k a rest.
Proof. intros C Ha. unfold bind. by rewrite (cd_complete C). Qed.
Lemma bind_sound {E A B} (m : reader E A) enc P (k : A → reader E B) l b rest :
  codec m enc P → Forall byte_ok l → bind m k l = Ok (b, rest) →
  ∃ a l', P a ∧ l = enc a ++ l' ∧ Forall byte_ok l' ∧ k a l' = Ok (b, rest).
Proof.
  intros C Hl E1. unfold bind in E1. destruct (m l) as [[a l']|e] eqn:Em; [|done].
  destruct (cd_sound C l a l' Hl Em) as [Pa ->]. apply Forall_app in Hl as [_ Hl]. by exists a, l'.
Qed.

(** *** Bytes and integers *)

Lemma codec_bytes n field :
  codec (r_bytes n field) (λ l, l) (λ l, length l = n ∧ Forall byte_ok l).
Proof.
  unfold r_bytes, bytes_or. split.
  - intros a rest [<- _]. rewrite bool_decide_false by (rewrite length_app; lia). by rewrite take_app_length, drop_app_length.
  - intros l a rest Hl E. case_bool_decide as Hn; [done|]. injection E as <- <-. rewrite length_take, take_drop.
    split_and!; [lia|by apply Forall_take|done].
Qed.
Lemma codec_uint n field : codec (uint n field) (to_le n) (λ v, v < 256 ^ N.of_nat n).
Proof.
  split.
  - intros v rest Hv. unfold uint. rewrite (bind_complete _ _ _ _ (to_le n v) _ (codec_bytes n field)).
    + unfold ret. by rewrite le_to_le.
    + split; [apply length_to_le|]. apply Forall_reverse, to_be_ok.
  - intros l v rest Hl E. apply (bind_sound _ _ _ _ _ _ _ (codec_bytes n field) Hl) in E as (a & l' & [Ha Ho] & -> & _ & E).
    injection E as <- <-. subst n. rewrite to_le_val by done. split; [|done].
    unfold le_val. rewrite <- (length_reverse a). by apply be_val_bound, Forall_reverse.
Qed.
Lemma codec_u8 field : codec (u8 field) (λ v, [v]) (λ v, v < 256).
Proof.
  split.
  - intros v rest Hv. unfold u8. rewrite (bind_complete _ _ _ _ [v] _ (codec_bytes 1 field)); [done|].
    split; [done|]. by repeat constructor.
  - intros l v rest Hl E. apply (bind_sound _ _ _ _ _ _ _ (codec_bytes 1 field) Hl) in E as (a & l' & [Ha Ho] & -> & _ & E).
    destruct a as [|x [|]]; [done| |done]. injection E as <- <-. split; [|done]. by apply Forall_cons in Ho as [? _].
Qed.
Lemma codec_flag field : codec (flag field) (λ b, [flag_byte b]) (λ _, True).
Proof.
  split.
  - intros [] rest _; unfold flag; by rewrite (bind_complete _ _ _ _ _ _ (codec_u8 field)).
  - intros l b rest Hl E. apply (bind_sound _ _ _ _ _ _ _ (codec_u8 field) Hl) in E as (v & l' & _ & -> & _ & E).
    destruct (N.eqb_spec v 0) as [->|]; [by injection E as <- <-|].
    destruct (N.eqb_spec v 1) as [->|]; [by injection E as <- <-|done].
Qed.
Lemma to_from_bytes l d : length l = 32%nat → Forall byte_ok l → from_bytes l = Some d →
  is_canonical d = true ∧ to_bytes d = l.
Proof.
  intros Hl Ho E. unfold from_bytes in E. destruct (is_canonical _) eqn:Ec; [|done]. injection E as <-. split; [done|].
  rewrite PqSpec.to_bytes_limbs.
  assert (∀ i, (8 * i + 8 ≤ 32)%nat → u64_le (Pq.limb_at l i) = take 8 (drop (8 * i) l)) as Hi.
  { intros i Hi. unfold Pq.limb_at. change (u64_le ?x) with (to_le 8 x). fold (le_val (take 8 (drop (8 * i) l))).
    assert (length (take 8 (drop (8 * i) l)) = 8%nat) as Hk by (rewrite length_take, length_drop; lia).
    rewrite <- Hk at 1. apply to_le_val. by apply Forall_take, Forall_drop. }
  rewrite !Hi by lia. change (8 * 0)%nat with 0%nat. change (8 * 1)%nat with 8%nat. change (8 * 2)%nat with 16%nat.
  change (8 * 3)%nat with 24%nat. rewrite (firstn_all2 (n := 8) (drop 24 l)) by (rewrite length_drop; lia).
  rewrite drop_0. replace (drop 24 l) with (drop 8 (drop 16 l)) by (by rewrite drop_drop). rewrite take_drop.
  replace (drop 16 l) with (drop 8 (drop 8 l)) by (by rewrite drop_drop). by rewrite !take_drop.
Qed.
Lemma codec_digest field : codec (digest field) to_bytes (λ d, is_canonical d = true).
Proof.
  split.
  - intros d rest Hd. unfold digest. rewrite (bind_complete _ _ _ _ (to_bytes d) _ (codec_bytes 32 field)).
    + by rewrite PqSpec.from_to_bytes.
    + split; [apply PqSpec.length_to_bytes|apply PqSpec.to_bytes_ok].
  - intros l d rest Hl E. apply (bind_sound _ _ _ _ _ _ _ (codec_bytes 32 field) Hl) in E as (raw & l' & [Hr Ho] & -> & _ & E).
    destruct (from_bytes raw) as [d'|] eqn:Ef; [|done]. injection E as <- <-.
    by destruct (to_from_bytes raw d' Hr Ho Ef) as [? ->].
Qed.
Lemma codec_slots {A} (m : reader WireError A) enc P n : codec m enc P →
  codec (slots n m) (λ v, vec_to_list v ≫= enc) (λ v, Forall P (vec_to_list v)).
Proof.
  intros C. induction n as [|n IH]; split.
  - intros v rest _. by inv_vec v.
  - intros l v rest _ E. injection E as <- <-. by split.
  - intros v rest. inv_vec v. intros x v. cbn [vec_to_list slots mbind list_bind]. intros [Hx Hv]%Forall_cons.
    rewrite <- app_assoc, (bind_complete _ _ _ _ _ _ C) by done. by rewrite (bind_complete _ _ _ _ _ _ IH).
  - intros l v rest Hl E. cbn [slots] in E. apply (bind_sound _ _ _ _ _ _ _ C Hl) in E as (x & l1 & Hx & -> & H1 & E).
    apply (bind_sound _ _ _ _ _ _ _ IH H1) in E as (xs & l2 & Hxs & -> & _ & E). injection E as <- <-.
    cbn [vec_to_list mbind list_bind]. split; [by constructor|by rewrite app_assoc].
Qed.

(** One reader of a sequence, forwards and backwards. *)
Ltac read_back C := rewrite (bind_complete _ _ _ _ _ _ C).
Ltac read_off C E Hl x P := let l := fresh "l" in let H := fresh "H" in
  apply (bind_sound _ _ _ _ _ _ _ C Hl) in E as (x & l & P & -> & H & E); clear Hl; rename H into Hl.

(** *** Ciphertexts *)

Definition ct_ok (ct : NoteCiphertext) : Prop :=
  (length (kem_ct ct) = KEM_CT_LEN ∧ Forall byte_ok (kem_ct ct)) ∧
  (length (detection_tag ct) = 4%nat ∧ Forall byte_ok (detection_tag ct)) ∧
  (length (aead_ct ct) = AEAD_CT_LEN ∧ Forall byte_ok (aead_ct ct)).
#[local] Opaque KEM_CT_LEN AUTH_PK_LEN AUTH_SIG_LEN.
Lemma codec_ciphertext : codec decode_ciphertext_fields encode_ciphertext_fields ct_ok.
Proof.
  unfold decode_ciphertext_fields, encode_ciphertext_fields. split.
  - intros [kem tag aead] rest (Hk & Ht & Ha). cbn [kem_ct detection_tag aead_ct] in *. rewrite <- !app_assoc.
    read_back (codec_bytes KEM_CT_LEN "kem_ct"); [|done]. read_back (codec_bytes 4 "detection_tag"); [|done].
    destruct Ha as [Ha Ho]. rewrite Ha. rewrite N.min_l by done. read_back (codec_uint 2 "aead_len"); [|done].
    rewrite N.eqb_refl. cbn [negb]. by read_back (codec_bytes AEAD_CT_LEN "aead_ct").
  - intros l ct rest Hl E. read_off (codec_bytes KEM_CT_LEN "kem_ct") E Hl kem Hk.
    read_off (codec_bytes 4 "detection_tag") E Hl tag Ht. read_off (codec_uint 2 "aead_len") E Hl len Hn.
    destruct (N.eqb_spec len (N.of_nat AEAD_CT_LEN)) as [->|]; [|done]. cbn [negb] in E.
    read_off (codec_bytes AEAD_CT_LEN "aead_ct") E Hl aead Ha. injection E as <- <-. split; [done|].
    cbn [kem_ct detection_tag aead_ct]. destruct Ha as [Ha _]. rewrite Ha, N.min_l by done. by rewrite <- !app_assoc.
Qed.
Definition slot_ok (ct : option NoteCiphertext) : Prop := match ct with Some ct => ct_ok ct | None => True end.
Lemma codec_slot : codec decode_slot encode_slot slot_ok.
Proof.
  unfold decode_slot. split.
  - intros [ct|] rest Hc; cbn [encode_slot].
    + change (1 :: ?x) with ([flag_byte true] ++ x). rewrite <- app_assoc. read_back (codec_flag "ciphertext present"); [|done].
      cbn beta iota. by read_back codec_ciphertext.
    + change [0] with [flag_byte false]. by read_back (codec_flag "ciphertext present").
  - intros l ct rest Hl E. read_off (codec_flag "ciphertext present") E Hl present Hp. destruct present.
    + read_off codec_ciphertext E Hl c Hc. injection E as <- <-. by split.
    + by injection E as <- <-.
Qed.

(** *** Bundles *)

Definition canonical_slots (v : vec PqDigest NUM_SLOTS) : Prop := Forall (λ d, is_canonical d = true) (vec_to_list v).
Definition inputs_ok (pi : PublicInputs) : Prop :=
  canonical_slots (anchors pi) ∧ canonical_slots (nullifiers pi) ∧ canonical_slots (output_commitments pi) ∧
  transparent_in pi < 2 ^ 64 ∧ transparent_out pi < 2 ^ 64 ∧ fee_grains pi < 2 ^ 64.
Definition encode_inputs (pi : PublicInputs) : bytes :=
  (vec_to_list (anchors pi) ≫= to_bytes) ++ (vec_to_list (nullifiers pi) ≫= to_bytes) ++
  (vec_to_list (input_dummy pi) ≫= λ b, [flag_byte b]) ++ (vec_to_list (output_commitments pi) ≫= to_bytes) ++
  (vec_to_list (output_dummy pi) ≫= λ b, [flag_byte b]) ++
  to_le 8 (transparent_in pi) ++ to_le 8 (transparent_out pi) ++ to_le 8 (fee_grains pi).
Lemma flags_bytes n (v : vec bool n) : (vec_to_list v ≫= λ b, [flag_byte b]) = flag_byte <$> vec_to_list v.
Proof. induction v as [|b n v IH]; [done|]. cbn [vec_to_list mbind list_bind fmap list_fmap app]. by f_equal. Qed.
Lemma any_flags (v : vec bool NUM_SLOTS) : Forall (λ _, True) (vec_to_list v).
Proof. by apply Forall_forall. Qed.
Lemma codec_inputs : codec decode_public_inputs encode_inputs inputs_ok.
Proof.
  unfold decode_public_inputs, encode_inputs. split.
  - intros pi rest (H1 & H2 & H3 & H4 & H5 & H6). rewrite <- !app_assoc.
    read_back (codec_slots _ _ _ NUM_SLOTS (codec_digest "anchor")); [|done].
    read_back (codec_slots _ _ _ NUM_SLOTS (codec_digest "nullifier")); [|done].
    read_back (codec_slots _ _ _ NUM_SLOTS (codec_flag "input_dummy")); [|apply any_flags].
    read_back (codec_slots _ _ _ NUM_SLOTS (codec_digest "output_commitment")); [|done].
    read_back (codec_slots _ _ _ NUM_SLOTS (codec_flag "output_dummy")); [|apply any_flags].
    read_back (codec_uint 8 "transparent_in"); [|done]. read_back (codec_uint 8 "transparent_out"); [|done].
    read_back (codec_uint 8 "fee_grains"); [|done]. by destruct pi.
  - intros l pi rest Hl E.
    read_off (codec_slots _ _ _ NUM_SLOTS (codec_digest "anchor")) E Hl x1 P1.
    read_off (codec_slots _ _ _ NUM_SLOTS (codec_digest "nullifier")) E Hl x2 P2.
    read_off (codec_slots _ _ _ NUM_SLOTS (codec_flag "input_dummy")) E Hl x3 P3.
    read_off (codec_slots _ _ _ NUM_SLOTS (codec_digest "output_commitment")) E Hl x4 P4.
    read_off (codec_slots _ _ _ NUM_SLOTS (codec_flag "output_dummy")) E Hl x5 P5.
    read_off (codec_uint 8 "transparent_in") E Hl x6 P6. read_off (codec_uint 8 "transparent_out") E Hl x7 P7.
    read_off (codec_uint 8 "fee_grains") E Hl x8 P8. injection E as <- <-.
    split; [by repeat split|]. cbn [anchors nullifiers input_dummy output_commitments output_dummy
      transparent_in transparent_out fee_grains]. by rewrite <- !app_assoc.
Qed.

Section bundles.
Context `{FE : FrameEnv, SE : SuiteEnv}.

Definition proof_ok (version : N) (pi : PublicInputs) (proof : bytes) : Prop :=
  proof ≠ [] ∧ N.of_nat (length proof) ≤ max_proof_len version ∧ Forall byte_ok proof ∧
  check_frame version proof pi = Ok ().
Definition encode_proof (proof : bytes) : bytes := to_le 4 (N.of_nat (length proof)) ++ proof.
Lemma max_proof_u32 version : max_proof_len version < 256 ^ N.of_nat 4.
Proof. unfold max_proof_len. by destruct (_ && _). Qed.
Lemma codec_proof version pi : codec (decode_proof version pi) encode_proof (proof_ok version pi).
Proof.
  pose proof (max_proof_u32 version) as Hm. unfold decode_proof, encode_proof. split.
  - intros proof rest (Hn & Hl & Ho & Hf). rewrite <- app_assoc.
    read_back (codec_uint 4 "proof_len"); [|by eapply N.le_lt_trans].
    rewrite (proj2 (N.eqb_neq _ 0)) by (destruct proof; [done|cbn; lia]). rewrite (proj2 (N.ltb_ge _ _)) by done. cbn [orb].
    rewrite Nat2N.id. read_back (codec_bytes (length proof) "proof"); [|done]. by rewrite Hf.
  - intros l proof rest Hl E. read_off (codec_uint 4 "proof_len") E Hl n Hn.
    destruct (N.eqb_spec n 0) as [|Hz]; [done|]. destruct (N.ltb_spec (max_proof_len version) n) as [|Hle]; [done|]. cbn [orb] in E.
    read_off (codec_bytes (N.to_nat n) "proof") E Hl p Hp. destruct Hp as [Hp Ho].
    destruct (check_frame version p pi) as [[]|] eqn:Ef; [|done]. injection E as <- <-.
    assert (N.of_nat (length p) = n) as En by lia. rewrite En, <- app_assoc. split; [|done].
    split_and!; [intros ->; cbn in *; lia|by rewrite En|done|done].
Qed.

(** What a bundle must satisfy to have an encoding under a version. *)
Definition bundle_ok (version : N) (b : SpendBundle) : Prop :=
  inputs_ok (public_inputs b) ∧ proof_ok version (public_inputs b) (proof_bytes b) ∧
  Forall slot_ok (vec_to_list (output_ciphertexts b)) ∧
  (length (auth_pk b) = AUTH_PK_LEN ∧ Forall byte_ok (auth_pk b)) ∧
  (length (auth_sig b) = AUTH_SIG_LEN ∧ Forall byte_ok (auth_sig b)).
Lemma encode_with_parts version b : bundle_ok version b →
  encode_with version b = [version] ++ encode_inputs (public_inputs b) ++ encode_proof (proof_bytes b) ++
    (vec_to_list (output_ciphertexts b) ≫= encode_slot) ++ auth_pk b ++ auth_sig b.
Proof.
  intros (_ & (_ & Hl & _) & _). unfold encode_with, encode_inputs, encode_proof. rewrite !flags_bytes, <- !app_assoc.
  rewrite N.min_l; [done|]. pose proof (max_proof_u32 version). lia.
Qed.
Lemma decode_inner_complete version b : version < 256 → bundle_ok version b →
  decode_bundle_inner version (encode_with version b) = Ok (b, []).
Proof.
  intros Hv B. rewrite encode_with_parts by done. destruct B as (H1 & H2 & H3 & H4 & H5). unfold decode_bundle_inner.
  read_back (codec_u8 "proof_version"); [|done]. rewrite N.eqb_refl. cbn [negb]. read_back codec_inputs; [|done].
  read_back (codec_proof version (public_inputs b)); [|done]. read_back (codec_slots _ _ _ NUM_SLOTS codec_slot); [|done].
  read_back (codec_bytes AUTH_PK_LEN "auth_pk"); [|done]. rewrite <- (app_nil_r (auth_sig b)) at 1.
  read_back (codec_bytes AUTH_SIG_LEN "auth_sig"); [|done]. by destruct b.
Qed.
Lemma decode_inner_sound version l b rest : Forall byte_ok l → decode_bundle_inner version l = Ok (b, rest) →
  rest = [] ∧ bundle_ok version b ∧ l = encode_with version b.
Proof.
  intros Hl E. unfold decode_bundle_inner in E. read_off (codec_u8 "proof_version") E Hl v Hv.
  destruct (N.eqb_spec v version) as [->|]; [|done]. cbn [negb] in E. read_off codec_inputs E Hl pi P1.
  read_off (codec_proof version pi) E Hl proof P2. read_off (codec_slots _ _ _ NUM_SLOTS codec_slot) E Hl cts P3.
  read_off (codec_bytes AUTH_PK_LEN "auth_pk") E Hl pk P4. read_off (codec_bytes AUTH_SIG_LEN "auth_sig") E Hl sg P5.
  unfold at_end in E. case_bool_decide as En; [|done]. injection E as <- <-. split; [done|].
  assert (bundle_ok version (mkBundle pi proof cts pk sg)) as B by exact (conj P1 (conj P2 (conj P3 (conj P4 P5)))). split; [done|].
  rewrite (encode_with_parts version) by done. cbn [public_inputs proof_bytes output_ciphertexts auth_pk auth_sig].
  subst. by rewrite app_nil_r.
Qed.

(** The versions this build decodes. *)
Definition supported (version : N) : Prop :=
  version = PROOF_VERSION_V1 ∨ suite2_enabled = true ∧ version = PROOF_VERSION_V2.
Lemma supported_dec version :
  negb (version =? PROOF_VERSION_V1) && negb (suite2_enabled && (version =? PROOF_VERSION_V2)) = false ↔ supported version.
Proof.
  unfold supported. rewrite andb_false_iff, !negb_false_iff, andb_true_iff, !N.eqb_eq. done.
Qed.

(** C25: the wire format is exact.  A byte string decodes to a bundle under a version
    exactly when the build supports the version, the bundle is well formed under it
    (canonical digests, an accepted proof frame, fixed-size fields) and the string is
    the bundle's encoding: every well-formed bundle survives the round trip, and no
    two byte strings decode to one bundle. *)
Theorem wire_exact version l b : Forall byte_ok l →
  decode_bundle_for_suite version l = Ok b ↔
  supported version ∧ bundle_ok version b ∧ l = encode_with version b.
Proof.
  intros Hl. unfold decode_bundle_for_suite. rewrite <- supported_dec.
  destruct (negb _ && _) eqn:Es; [by split; [|intros (? & _)]|]. apply supported_dec in Es. split.
  - intros E. destruct (decode_bundle_inner version l) as [[b' rest]|] eqn:Ed; [|done]. injection E as <-.
    by destruct (decode_inner_sound _ _ _ _ Hl Ed) as (_ & ? & ?).
  - intros (_ & B & ->). rewrite decode_inner_complete; [done| |done].
    destruct Es as [->|[_ ->]]; done.
Qed.

(** ** The prefix the pool reads *)

Lemma prefix_reads l version b : Forall byte_ok l → supported version →
  decode_bundle_inner version l = Ok (b, []) →
  input_nullifiers l = Ok (zip (nullifiers (public_inputs b)) (input_dummy (public_inputs b))).
Proof.
  intros Hl Hs E. destruct (decode_inner_sound _ _ _ _ Hl E) as (_ & B & ->). rewrite encode_with_parts by done.
  destruct B as ((H1 & H2 & _) & _). unfold encode_inputs. rewrite <- !app_assoc. unfold input_nullifiers.
  read_back (codec_u8 "proof_version"); [|by destruct Hs as [->|[_ ->]]].
  assert ((version =? PROOF_VERSION_V1) || (version =? PROOF_VERSION_V2) = true) as -> by (by destruct Hs as [->|[_ ->]]). cbn [negb].
  read_back (codec_slots _ _ _ NUM_SLOTS (codec_digest "anchor")); [|done].
  read_back (codec_slots _ _ _ NUM_SLOTS (codec_digest "nullifier")); [|done].
  by read_back (codec_slots _ _ _ NUM_SLOTS (codec_flag "input_dummy")); [|apply any_flags].
Qed.
End bundles.

(** ** The structural rules *)

#[global] Instance digest_le_trans : Transitive digest_le.
Proof. intros a b c. apply bytes_leb_trans. Qed.
#[global] Instance digest_le_total : Total digest_le.
Proof. intros a b. apply bytes_leb_total. Qed.
Lemma sorted_adjacent l : StronglySorted digest_le l → adjacent_equal l = false ↔ NoDup l.
Proof.
  induction 1 as [|a l Hs IH Hf]; [by split; [constructor|]|]. destruct l as [|b l].
  { split; [intros _; apply NoDup_singleton|done]. }
  cbn [adjacent_equal]. rewrite orb_false_iff, bool_decide_eq_false, NoDup_cons, IH. apply and_iff_compat_r.
  split; [|intros Hn ->; apply Hn; left]. intros Hne Hin. apply Hne. apply elem_of_cons in Hin as [|Hin]; [done|].
  apply Forall_cons in Hf as [Hab _]. apply StronglySorted_inv in Hs as [_ Hf']. rewrite Forall_forall in Hf'.
  apply vec_to_list_inj2, bytes_leb_antisym; [exact Hab|by apply Hf'].
Qed.
Lemma has_repeats_spec nfs : has_repeats nfs = false ↔ NoDup nfs.
Proof.
  unfold has_repeats. rewrite sorted_adjacent by (apply StronglySorted_merge_sort; apply _).
  by rewrite merge_sort_Permutation.
Qed.

Definition input_rule (e : bool * (PqDigest * PqDigest)) : Prop :=
  if e.1 then e.2.1 = ZERO ∧ e.2.2 = ZERO else e.2.2 ≠ ZERO.
Definition output_rule (e : bool * (PqDigest * option NoteCiphertext)) : Prop :=
  if e.1 then e.2.1 = ZERO ∧ e.2.2 = None else e.2.1 ≠ ZERO ∧ is_Some e.2.2.
Lemma check_inputs_ok l : ∀ i, check_inputs i l = Ok () ↔ Forall input_rule l.
Proof.
  induction l as [|[dummy [a nf]] l IH]; intros i; cbn [check_inputs]; [by split; [constructor|]|].
  rewrite Forall_cons. unfold input_rule at 1. cbn [fst snd]. destruct dummy.
  - do 2 case_bool_decide; cbn [negb orb]; rewrite ?IH; naive_solver.
  - case_bool_decide; rewrite ?IH; naive_solver.
Qed.
Lemma check_outputs_ok l : ∀ i, check_outputs i l = Ok () ↔ Forall output_rule l.
Proof.
  induction l as [|[dummy [cm ct]] l IH]; intros i; cbn [check_outputs]; [by split; [constructor|]|].
  rewrite Forall_cons. unfold output_rule at 1. cbn [fst snd].
  destruct dummy, ct as [ct|]; repeat case_bool_decide; cbn [negb orb]; rewrite ?IH; naive_solver.
Qed.
Definition structure_ok (b : SpendBundle) : Prop :=
  let pi := public_inputs b in
  (transparent_in pi ≤ MAX_NOTE_VALUE ∧ transparent_out pi ≤ MAX_NOTE_VALUE ∧ fee_grains pi ≤ MAX_NOTE_VALUE) ∧
  Forall input_rule (zip (input_dummy pi) (zip (anchors pi) (nullifiers pi))) ∧
  Forall output_rule (zip (output_dummy pi) (zip (output_commitments pi) (output_ciphertexts b))) ∧
  NoDup (real_nullifiers pi).
Lemma check_structure_ok b : check_structure b = Ok () ↔ structure_ok b.
Proof.
  unfold check_structure, structure_ok. set (pi := public_inputs b).
  destruct (N.ltb_spec MAX_NOTE_VALUE (transparent_in pi)), (N.ltb_spec MAX_NOTE_VALUE (transparent_out pi)),
    (N.ltb_spec MAX_NOTE_VALUE (fee_grains pi)); cbn [orb]; try (split; [done|intros ((?&?&?)&_); lia]).
  rewrite <- (check_inputs_ok _ 0), <- (check_outputs_ok _ 0), <- has_repeats_spec.
  unfold mbind, result_bind. destruct (check_inputs _ _) as [[]|]; [|split; [done|naive_solver]].
  destruct (check_outputs _ _) as [[]|]; [|split; [done|naive_solver]].
  destruct (has_repeats _); split; naive_solver.
Qed.

(** ** What an authorisation covers *)

(** Two strings that start with codewords of a prefix code. *)
Definition prefix_code {A} (f : A → bytes) (P : A → Prop) : Prop :=
  ∀ a a' r r', P a → P a' → f a ++ r = f a' ++ r' → a = a' ∧ r = r'.
Lemma prefix_list {A} (f : A → bytes) P l l' r r' : prefix_code f P → length l = length l' → Forall P l → Forall P l' →
  (l ≫= f) ++ r = (l' ≫= f) ++ r' → l = l' ∧ r = r'.
Proof.
  intros Hf Hl HP. revert l' Hl. induction HP as [|a l Ha _ IH]; intros [|a' l'] Hl HP' E; [done..|].
  apply Forall_cons in HP' as [Ha' HP']. cbn [mbind list_bind] in E. rewrite <- !app_assoc in E.
  apply Hf in E as [-> E]; [|done..]. apply IH in E as [-> ->]; [done|by injection Hl|done].
Qed.
Lemma fixed_size {A} (f : A → bytes) n (P : A → Prop) :
  (∀ a, P a → length (f a) = n) → (∀ a a', P a → P a' → f a = f a' → a = a') → prefix_code f P.
Proof.
  intros Hn Hi a a' r r' Ha Ha' E. apply app_inj_1 in E as [E ->]; [|rewrite !Hn by done; done]. split; [by apply Hi|done].
Qed.
Lemma digest_prefix : prefix_code to_bytes (λ d, is_canonical d = true).
Proof. apply (fixed_size _ 32); [intros; apply PqSpec.length_to_bytes|]. intros. by apply PqSpec.to_bytes_inj. Qed.
Lemma u64_prefix : prefix_code u64_le (λ x, x < 2 ^ 64).
Proof. apply (fixed_size _ 8); [intros; apply PqSpec.length_u64_le|]. intros. by apply PqSpec.u64_le_inj. Qed.
Lemma raw_prefix n : prefix_code (λ l : bytes, l) (λ l, length l = n).
Proof. by apply (fixed_size _ n). Qed.
Lemma flag_prefix : prefix_code (λ b, [flag_byte b]) (λ _, True).
Proof. apply (fixed_size _ 1); [done|]. by intros [] []. Qed.

Definition canon2 (e : bool * (PqDigest * PqDigest)) : Prop := is_canonical e.2.1 = true ∧ is_canonical e.2.2 = true.
Lemma input_prefix : prefix_code input_preimage canon2.
Proof.
  intros [d [a n]] [d' [a' n']] r r' [Ha Hn] [Ha' Hn']. unfold input_preimage. cbn [fst snd]. rewrite <- !app_assoc.
  intros E. apply digest_prefix in E as [-> E]; [|done..]. apply digest_prefix in E as [-> E]; [|done..].
  by apply flag_prefix in E as [-> ->].
Qed.
Definition canon_out (e : bool * (PqDigest * option NoteCiphertext)) : Prop := is_canonical e.2.1 = true ∧ slot_ok e.2.2.
Lemma output_prefix : prefix_code output_preimage canon_out.
Proof.
  intros [d [c ct]] [d' [c' ct']] r r' [Hc Hs] [Hc' Hs']. unfold output_preimage. cbn [fst snd] in *. rewrite <- !app_assoc.
  intros E. apply digest_prefix in E as [-> E]; [|done..]. apply flag_prefix in E as [-> E]; [|done..].
  destruct ct as [[k t a]|], ct' as [[k' t' a']|]; cbn [slot_ok kem_ct detection_tag aead_ct] in *; [|done..|].
  2:{ by injection E as ->. }
  destruct Hs as ((Hk & _) & (Ht & _) & (Ha & _)), Hs' as ((Hk' & _) & (Ht' & _) & (Ha' & _)). cbn [kem_ct detection_tag aead_ct] in *.
  rewrite <- !app_assoc in E. apply app_inv_head in E. apply (raw_prefix KEM_CT_LEN) in E as [-> E]; [|done..].
  apply (raw_prefix 4) in E as [-> E]; [|done..]. rewrite Ha, Ha' in E. apply app_inv_head in E.
  by apply (raw_prefix AEAD_CT_LEN) in E as [-> ->].
Qed.
Lemma zip_inj {A B} (l l' : list A) (k k' : list B) : length l = length k → length l' = length k' →
  zip l k = zip l' k' → l = l' ∧ k = k'.
Proof.
  intros H1 H2 E. split.
  - apply (f_equal (fmap fst)) in E. rewrite !fst_zip in E by lia. done.
  - apply (f_equal (fmap snd)) in E. rewrite !snd_zip in E by lia. done.
Qed.

Definition signed_ok (b : SpendBundle) : Prop :=
  inputs_ok (public_inputs b) ∧ Forall slot_ok (vec_to_list (output_ciphertexts b)) ∧ length (auth_pk b) = AUTH_PK_LEN.
Lemma zipped_inputs pi : inputs_ok pi → Forall canon2 (zip (input_dummy pi) (zip (anchors pi) (nullifiers pi))).
Proof.
  intros (Ha & Hn & _). apply Forall_forall. intros [d [a n]] Hin. apply elem_of_zip_r in Hin.
  pose proof (elem_of_zip_l _ _ _ _ Hin) as Ha'. apply elem_of_zip_r in Hin. unfold canonical_slots in *. rewrite Forall_forall in Ha, Hn.
  split; [by apply Ha|by apply Hn].
Qed.
Lemma zipped_outputs pi (cts : vec (option NoteCiphertext) NUM_SLOTS) : inputs_ok pi → Forall slot_ok (vec_to_list cts) →
  Forall canon_out (zip (output_dummy pi) (zip (output_commitments pi) cts)).
Proof.
  intros (_ & _ & Hc & _) Hs. apply Forall_forall. intros [d [c ct]] Hin. apply elem_of_zip_r in Hin.
  pose proof (elem_of_zip_l _ _ _ _ Hin) as Hc'. apply elem_of_zip_r in Hin. unfold canonical_slots in Hc. rewrite Forall_forall in Hc.
  split; [by apply Hc|]. exact (proj1 (Forall_forall _ _) Hs _ Hin).
Qed.
#[local] Ltac vec_lengths := repeat (rewrite length_zip_with || rewrite length_vec_to_list); done.
Lemma bundle_preimage_inj b b' : signed_ok b → signed_ok b' →
  bundle_preimage (public_inputs b) (output_ciphertexts b) (auth_pk b)
  = bundle_preimage (public_inputs b') (output_ciphertexts b') (auth_pk b') →
  public_inputs b = public_inputs b' ∧ output_ciphertexts b = output_ciphertexts b' ∧ auth_pk b = auth_pk b'.
Proof.
  intros (Hi & Hs & Hk) (Hi' & Hs' & Hk') E. unfold bundle_preimage in E.
  apply (prefix_list _ _ _ _ _ _ input_prefix) in E as [E1 E]; [|vec_lengths|by apply zipped_inputs..].
  apply (prefix_list _ _ _ _ _ _ output_prefix) in E as [E2 E]; [|vec_lengths|by apply zipped_outputs..].
  apply zip_inj in E1 as [Ed E1]; [|vec_lengths..]. apply zip_inj in E1 as [Ea En]; [|vec_lengths..].
  apply zip_inj in E2 as [Eo E2]; [|vec_lengths..]. apply zip_inj in E2 as [Ec Et]; [|vec_lengths..].
  destruct Hi as (_ & _ & _ & B1 & B2 & B3), Hi' as (_ & _ & _ & B1' & B2' & B3').
  apply u64_prefix in E as [E4 E]; [|done..]. apply u64_prefix in E as [E5 E]; [|done..]. apply u64_prefix in E as [E6 E]; [|done..].
  apply app_inv_head in E. apply vec_to_list_inj2 in Ed, Ea, En, Eo, Ec, Et.
  split_and!; [|done|done]. destruct (public_inputs b), (public_inputs b'); cbn in *. by subst.
Qed.

Definition carrier_ok (ctx : CarrierContext) : Prop :=
  N.of_nat (length (c_chain_id ctx)) < 2 ^ 64 ∧ length (c_genesis ctx) = 32%nat ∧
  N.of_nat (length (c_signer ctx)) < 2 ^ 64 ∧ c_nonce ctx < 2 ^ 64.
Lemma carrier_preimage_inj d d' ctx ctx' : carrier_ok ctx → carrier_ok ctx' →
  carrier_preimage d ctx = carrier_preimage d' ctx' → d = d' ∧ ctx = ctx'.
Proof.
  intros (H1 & H2 & H3 & H4) (H1' & H2' & H3' & H4') E. unfold carrier_preimage in E. apply app_inv_head in E.
  apply u64_prefix in E as [El E]; [|done..]. apply (raw_prefix (length (c_chain_id ctx))) in E as [Ec E]; [|lia..].
  apply (raw_prefix 32) in E as [Eg E]; [|done..]. apply u64_prefix in E as [Em E]; [|done..].
  apply (raw_prefix (length (c_signer ctx))) in E as [Es E]; [|lia..]. apply u64_prefix in E as [En E]; [|done..].
  split; [done|]. destruct ctx, ctx'. cbn in *. by subst.
Qed.

(** C26: an authorisation covers the bundle and its carrier.  If two well-formed
    bundles in two carriers ask for a signature over the same message, and BLAKE3 does
    not collide on the two pairs of strings hashed, then they agree in every public
    input, every ciphertext, the authorising key, the network, the signer and the
    nonce: a signature cannot be lifted to another bundle, transaction or chain. *)
Theorem authorization_binds `{AuthEnv} b b' ctx ctx' :
  signed_ok b → signed_ok b' → carrier_ok ctx → carrier_ok ctx' →
  let pre x := bundle_preimage (public_inputs x) (output_ciphertexts x) (auth_pk x) in
  let dig x := bundle_digest (public_inputs x) (output_ciphertexts x) (auth_pk x) in
  (dig b = dig b' → pre b = pre b') →
  (carrier_sighash (dig b) ctx = carrier_sighash (dig b') ctx' →
   carrier_preimage (dig b) ctx = carrier_preimage (dig b') ctx') →
  authorization_message b ctx = authorization_message b' ctx' →
  public_inputs b = public_inputs b' ∧ output_ciphertexts b = output_ciphertexts b' ∧
  auth_pk b = auth_pk b' ∧ ctx = ctx'.
Proof.
  intros Hb Hb' Hc Hc' pre dig Hd Hs E. apply Hs, carrier_preimage_inj in E as [E ->]; [|done..].
  apply Hd, bundle_preimage_inj in E as (-> & -> & ->); [|done..]. done.
Qed.

(** ** A concrete bundle *)

Module Wire_examples.
(** An empty proof context and no FRI layers; keys and digests stand for themselves. *)
#[local] Instance frame_env : FrameEnv := {| expected_context_bytes _ := []; num_fri_layers _ := 0 |}.
#[local] Instance suite_env : SuiteEnv := {| suite2_enabled := false; suite2_frame _ := Ok () |}.
#[local] Instance auth_env : AuthEnv := {| derive_key _ x := x; ml_dsa_verify _ _ _ _ := true |}.

(** One query, two openings of depth 15, no layers. *)
Definition frame : bytes :=
  [1; 0; 0; 1; 5; 15; 1; 1; 5; 15; 1; 0; 0; 0; 0; 0; 0; 0; 0; 0; 0; 0; 0; 0; 0; 0; 0].
Definition ct : NoteCiphertext := mkCiphertext (replicate KEM_CT_LEN 3) [1; 2; 3; 4] (replicate AEAD_CT_LEN 5).
Definition note : PqDigest := [# 1; 2; 3; 4].
(** Nothing spent, one note received. *)
Definition sample : SpendBundle := mkBundle
  (mkPublicInputs [# ZERO; ZERO; ZERO; ZERO] [# ZERO; ZERO; ZERO; ZERO] [# true; true; true; true]
     [# note; ZERO; ZERO; ZERO] [# false; true; true; true] 0 0 0)
  frame [# Some ct; None; None; None] (replicate AUTH_PK_LEN 0) (replicate AUTH_SIG_LEN 0).
Lemma replicate_ok n x : x < 256 → length (replicate n x) = n ∧ Forall byte_ok (replicate n x).
Proof. intros Hx. split; [apply length_replicate|by apply Forall_replicate]. Qed.
Lemma sample_inputs : inputs_ok (public_inputs sample).
Proof. split_and!; [repeat constructor|repeat constructor|repeat constructor|done..]. Qed.
Lemma sample_slots : Forall slot_ok (vec_to_list (output_ciphertexts sample)).
Proof.
  cbn [vec_to_list output_ciphertexts sample]. apply Forall_cons. split; [|by repeat constructor].
  split; [by apply replicate_ok|]. split; [split; [done|by repeat constructor]|by apply replicate_ok].
Qed.
Lemma sample_ok : bundle_ok PROOF_VERSION_V1 sample.
Proof.
  split; [exact sample_inputs|]. split; [|split; [exact sample_slots|split; by apply replicate_ok]].
  split_and!; [done|done|repeat constructor|by vm_compute].
Qed.
Lemma encode_sample_ok : Forall byte_ok (encode_with PROOF_VERSION_V1 sample).
Proof.
  assert (forallb (λ b, b <? 256) (encode_with PROOF_VERSION_V1 sample) = true) as E by (by vm_compute).
  rewrite forallb_forall in E. apply Forall_forall. intros b Hb. apply N.ltb_lt, E, list_elem_of_In, Hb.
Qed.
Lemma wire_exact_witness : decode_bundle_for_suite PROOF_VERSION_V1 (encode_with PROOF_VERSION_V1 sample) = Ok sample.
Proof.
  apply (wire_exact PROOF_VERSION_V1 (encode_with PROOF_VERSION_V1 sample) sample encode_sample_ok).
  split; [left; reflexivity|]. split; [exact sample_ok|reflexivity].
Defined.

Lemma sample_signed : signed_ok sample.
Proof. split; [exact sample_inputs|]. split; [exact sample_slots|apply length_replicate]. Qed.
Definition home : CarrierContext := mkCarrier [1] (replicate 32 0) [2; 3] 7.
Lemma home_ok : carrier_ok home.
Proof. by split_and!. Qed.
Lemma authorization_binds_witness : public_inputs sample = public_inputs sample ∧
  output_ciphertexts sample = output_ciphertexts sample ∧ auth_pk sample = auth_pk sample ∧ home = home.
Proof.
  apply (authorization_binds sample sample home home sample_signed sample_signed home_ok home_ok); reflexivity || (intros; reflexivity).
Defined.
End Wire_examples.
End WireSpec.
