(* ===== verification/Execution.v ===== *)
(** * Transaction execution (crates/runtime/src/execution.rs)

    One transaction against the ledger: the checks that reject it, the fee and
    nonce, the tip and multisig envelopes, every action, and the write-back.  The
    code threads a mutable ledger and a local copy of the signer's account; the
    monad [M] threads the same two, so the order of the writes is the code's. *)

From stdpp Require Import pretty.
From S2P Require Import Prelude Primitives Mining Crypto Compliance Types Gas Smt Vault Ledger.
From S2P Require Import ShieldedV2.

(** ** Errors and context *)

Inductive ExecutionError :=
| InvalidSignature
| Unauthorized (account : AccountId)
| BadNonce (expected got : N)
| Overflow
| CannotAffordFee (account : AccountId)
| DataTooLarge (limit got : N)
| PqRotationRequired (account : AccountId)
| PqSunset (account : AccountId)
| PqShieldedV1DepositsClosed
| PqShieldedV1Sunset
| FeatureInactive (feature : string)
| NestedTip
| TipInnerNotAllowed
| MisplacedTimestamp
| TimestampInnerNotAllowed
| TxTimestampInFuture (created_at_ms block_time_ms tolerance_ms : N)
| TxTimestampExpired (created_at_ms block_time_ms max_age_ms : N)
| PqShieldedV2Unreviewed
| EShieldedV2 (e : ShieldedV2Error).

(** How a run ends early: an error value, or a panic. *)
Inductive Exn := Throw (e : ExecutionError) | Panic.

Record BlockContext := mkBlockContext {
  height : N;
  prev_hash : Hash;
  block_time_ms : N;
  mining : MiningPolicy;
  gas_price : Balance;
  miner : AccountId;
  pq : option PqSchedule;
  tx_domain : TxDomainMode;
  fee_auction_active : bool;
  shielded_v2_active : bool;
  shielded_v2_suite2_active : bool;
  tx_timestamp_active : bool;
  chain_domain : SigningDomain;
}.

(** ** The contract VM and the shielded pools, as the runtime calls them *)

Record ExecContext := mkExecContext {
  vm_block_height : N; vm_caller : string; vm_contract : string; vm_calldata : bytes;
  vm_token_balances : gmap Hash N }.
Record VmEvent := mkVmEvent { ve_topic : bytes; ve_data : bytes }.
Record TokenTransferCmd := mkTokenTransferCmd { tc_asset : Hash; tc_to : string; tc_amount : N }.
Record VmOutcome := mkVmOutcome {
  vo_status : Z; vo_gas_used : N; vo_return_data : bytes; vo_events : list VmEvent;
  token_transfers : list TokenTransferCmd }.
Inductive VmError :=
| Compile (msg : string) | Instantiate (msg : string) | MissingEntry (msg : string) | OutOfGas
| Trap (msg : string).
Definition vm_error_display (e : VmError) : string :=
  match e with
  | Compile msg => "contract failed to compile: " +:+ msg
  | Instantiate msg => "contract failed to instantiate: " +:+ msg
  | MissingEntry msg => "entry point '" +:+ msg +:+ "' not found or has the wrong signature"
  | OutOfGas => "contract ran out of gas"
  | Trap msg => "contract trapped: " +:+ msg
  end.
Definition compliance_display (e : ComplianceError) : string :=
  match e with
  | Frozen => "account is frozen: outgoing transfers are blocked"
  | CounterpartyBlocked to =>
      "counterparty " +:+ as_str to +:+ " is not permitted by the account's transfer control"
  | SpendLimitExceeded limit window_spent attempted =>
      "spend limit exceeded: limit " +:+ pretty limit +:+ ", already spent " +:+ pretty window_spent
      +:+ ", attempted " +:+ pretty attempted +:+ " (grains) this window"
  | ComplianceOverflow => "spend accounting overflow"
  end.

Class ExecEnv := {
  x_ledger :: LedgerEnv;
  x_v2 :: V2Env;
  x_sig :: SigScheme;
  x_pk :: Borsh PublicKey;
  x_intent :: Borsh Intent;
  x_tx :: Borsh Transaction;
  x_action :: Borsh Action.t;
  action_from_slice : bytes → option Action.t;
  sha256 : bytes → Hash;
  (** [sov_vm::execute]: code, entry point, gas limit, context, storage *)
  vm_execute : bytes → string → N → ExecContext → gmap bytes bytes →
    result VmError VmOutcome * gmap bytes bytes;
  bundle_from_bytes : bytes → option ShieldedBundle;
  verify_for_carrier : ShieldedBundle → SigningDomain → AccountId → N → bool;
  verify_proof_only_legacy : ShieldedBundle → bool;
  anchor_is_known : ShieldedState → ShieldedBundle → bool;
  value_balance : ShieldedBundle → Z;
}.

Definition XUSD_ISSUER_ID : AccountId := mkAccountId XUSD_ISSUER eq_refl.
Definition ORACLE_ID : AccountId := mkAccountId ORACLE_ACCOUNT eq_refl.
Definition MAX_POLICY_ENTRIES : N := 1024.
Definition NAME_REGISTRATION_FEE_GRAINS : N := 100000000.
Definition MAX_MULTISIG_SIGNERS : N := 32.
Definition MAX_ORACLE_MOVE : N := 10.

(** ** Admission checks on the action tree *)

Definition dormant_feature (a : Action.t) (ctx : BlockContext) : option string :=
  match a with
  | Action.Tipped _ _ => if negb (fee_auction_active ctx) then Some "fee-auction" else None
  | Action.ShieldedV2 _ => if negb (shielded_v2_active ctx) then Some "shielded-v2" else None
  | Action.Timestamped _ _ => if negb (tx_timestamp_active ctx) then Some "tx-timestamp" else None
  | _ => None
  end.
Fixpoint find_inactive_feature (a : Action.t) (ctx : BlockContext) : option string :=
  match dormant_feature a ctx with
  | Some feature => Some feature
  | None =>
      match a with
      | Action.MultisigExec a _ | Action.ProposeMultisig _ a
      | Action.Tipped _ a | Action.Timestamped _ a => find_inactive_feature a ctx
      | _ => None
      end
  end.

(** The loop of [has_nested_timestamp]. *)
Fixpoint timestamp_below (node : Action.t) : bool :=
  match node with
  | Action.Timestamped _ _ => true
  | Action.MultisigExec a _ | Action.ProposeMultisig _ a | Action.Tipped _ a => timestamp_below a
  | _ => false
  end.
Definition has_nested_timestamp (a : Action.t) : bool :=
  match a with
  | Action.MultisigExec a _ | Action.ProposeMultisig _ a
  | Action.Tipped _ a | Action.Timestamped _ a => timestamp_below a
  | _ => false
  end.

Definition pq_requires_hybrid_authority (a : Account) (ctx : BlockContext) : bool :=
  match pq ctx with
  | None => false
  | Some pq =>
      (sunset_height pq <=? height ctx)
      || ((rotation_only_height pq <=? height ctx)
          && match Acct.total a with Some total => threshold_grains pq <=? total | None => true end)
  end.
Definition is_hybrid_key (k : PublicKey) : bool :=
  match k with PkV2HybridMlDsa65 _ _ => true | PkV1Ed25519 _ => false end.
Definition is_pq_multisig_migration (a : Action.t) (ctx : BlockContext) : bool :=
  match pq ctx with Some pq => height ctx <? sunset_height pq | None => false end
  && match a with
     | Action.SetMultisig signers _ => negb (bool_decide (signers = [])) && forallb is_hybrid_key signers
     | _ => false
     end.

Definition is_proposable (a : Action.t) : bool :=
  match a with Action.Transfer _ _ => true | _ => false end.
Definition valid_token_symbol (symbol : string) : bool :=
  let b := string_bytes symbol in
  (1 <=? len b) && (len b <=? 16) && forallb is_ascii_alphanumeric b.
Definition nft_symbol_ok (symbol : string) : bool :=
  let b := string_bytes symbol in
  (1 <=? len b) && (len b <=? 32) && forallb is_ascii_graphic b.

Section retirement.
Context `{V2Env}.

(** The loop of [check_shielded_retirement]. *)
Fixpoint retirement_loop (node : Action.t) (pq : PqSchedule) (ctx : BlockContext) :
    result ExecutionError unit :=
  match node with
  | Action.ShieldedV2 bundle =>
      if zk_suite2 && shielded_v2_suite2_active ctx && is_suite2 bundle then Ok ()
      else Err PqShieldedV2Unreviewed
  | Action.Shielded bundle =>
      if sunset_height pq <=? height ctx then Err PqShieldedV1Sunset
      else if (9 <=? len bundle) && (2 ^ 63 <=? be_val (reverse (take 8 (drop 1 bundle)))) then
        Err PqShieldedV1DepositsClosed
      else Ok ()
  | Action.MultisigExec a _ | Action.ProposeMultisig _ a
  | Action.Tipped _ a | Action.Timestamped _ a => retirement_loop a pq ctx
  | _ => Ok ()
  end.
Definition check_shielded_retirement (a : Action.t) (ctx : BlockContext) : result ExecutionError unit :=
  match pq ctx with
  | None => Ok ()
  | Some pq =>
      if (height ctx <? rotation_only_height pq) && (height ctx <? sunset_height pq) then Ok ()
      else retirement_loop a pq ctx
  end.
End retirement.

Inductive SettleLeg := LegNative | LegToken (asset : Hash).

Section helpers.
Context `{XE : ExecEnv}.
Implicit Types (l : Ledger) (ctx : BlockContext).

Definition xusd_asset_id : Hash := token_asset_id XUSD_ISSUER_ID XUSD_SYMBOL.

Definition verify_shielded_v1_for_context (b : ShieldedBundle) (account : AccountId) (nonce : N) ctx :
    bool :=
  if match pq ctx with Some pq => rotation_only_height pq <=? height ctx | None => false end
  then verify_for_carrier b (chain_domain ctx) account nonce
  else verify_proof_only_legacy b.

Definition verify_direct_suite2_withdrawal_for_fee (a : Action.t) l ctx (signer : AccountId) (nonce : N)
    (signer_balance : Balance) : result ExecutionError (option V2Effects) :=
  if negb (zk_suite2 && shielded_v2_active ctx && shielded_v2_suite2_active ctx) then Ok None
  else
    match a with
    | Action.ShieldedV2 bundle =>
        if negb (is_suite2 bundle) then Ok None
        else
          effects ← map_err EShieldedV2
            (verify_bundle_for_carrier_with_suite2 bundle l (mining ctx) (height ctx) (chain_domain ctx)
               signer nonce signer_balance true);
          if negb (shield_in effects =? 0) || (deshield_out effects =? 0) then Ok None
          else Ok (Some effects)
    | _ => Ok None
    end.

Definition credit l (id : AccountId) (amount : Balance) : result Exn Ledger :=
  if amount =? 0 then Ok l
  else
    let a := account l id in
    b ← ok_or (Bal.checked_add (balance a) amount) (Throw Overflow);
    Ok (set_account l id (Acct.set_balance b a)).
Definition distribute_fee l ctx (fee : Balance) : result Exn Ledger := credit l (miner ctx) fee.

Definition resolve_recipient l (to : AccountId) : AccountId :=
  if negb (is_implicit to) then
    match resolve_name l (as_str to) with
    | Some target => target
    | None => to
    end
  else to.

(** The ledger and the debited account; nothing is written on an error. *)
Definition do_transfer l (from : AccountId) (from_acct : Account) (to : AccountId) (amount : Balance) :
    result Exn (Ledger * Account * ExecutionStatus) :=
  let to := resolve_recipient l to in
  match Bal.checked_sub (balance from_acct) amount with
  | None => Ok (l, from_acct, Failed "insufficient balance")
  | Some remaining =>
      if bool_decide (to = from) then Ok (l, from_acct, Success)
      else
        let recipient := account l to in
        match Bal.checked_add (balance recipient) amount with
        | None => Err (Throw Overflow)
        | Some credited =>
            Ok (set_account l to (Acct.set_balance credited recipient),
                Acct.set_balance remaining from_acct, Success)
        end
  end.

Definition proposal_id (account : AccountId) (proposer_key : bytes) (proposer_nonce : N)
    (action_bytes : bytes) : Hash :=
  digest (string_bytes "sov:msprop:v1" ++ [0] ++ acc_bytes account ++ [0] ++ proposer_key
          ++ u64_le proposer_nonce ++ action_bytes).

Definition execute_proposal_action l (acc : AccountId) (a : Action.t) :
    result Exn (Ledger * ExecutionStatus) :=
  match a with
  | Action.Transfer to amount =>
      '(l, vault, status) ← do_transfer l acc (account l acc) to amount;
      Ok (set_account l acc vault, status)
  | _ => Ok (l, Failed "multisig: proposal carries an unsupported action")
  end.

Definition check_token_outgoing l (asset : Hash) (from counterparty : AccountId) (amount : Balance)
    (height : N) : result string (option SpendWindow) :=
  match token_policies (st l) !! asset with
  | None => Ok None
  | Some policy =>
      if negb (permits (transfer_control policy) from) then
        Err ("compliance: account " +:+ as_str from +:+ " is blocked for this asset")
      else
        map_err (λ e, "compliance: " +:+ compliance_display e)
          (Some <$> check_transfer policy counterparty amount height (token_window l asset from))
  end.

Definition settle_leg l (asset : Asset) : result string SettleLeg :=
  match asset with
  | Sov => Ok LegNative
  | Token id =>
      match tokens (st l) !! id with
      | None => Err "intent names a nonexistent asset"
      | Some _ => Ok (LegToken id)
      end
  end.

(** [if let Some(..) = o { l.write(..) }]. *)
Definition if_some {A B} (o : option A) (f : A → B → B) (b : B) : B :=
  match o with Some a => f a b | None => b end.

(** Settlement fails hard (the function's [Err]) or soft (its [Ok(Err(reason))]). *)
Definition LegError : Type := Exn + string.
Definition soft {A} (r : result string A) : result LegError A := map_err inr r.
Definition or_soft {A} (o : option A) (reason : string) : result LegError A := ok_or o (inr reason).
Definition or_hard {A} (o : option A) (e : ExecutionError) : result LegError A :=
  ok_or o (inl (Throw e)).

(** [match leg { Native => Some(..), Token(_) => None }] and its converse. *)
Definition on_native {A} (leg : SettleLeg) (m : result LegError A) : result LegError (option A) :=
  match leg with LegNative => Some <$> m | LegToken _ => Ok None end.
Definition on_token {A} (leg : SettleLeg) (m : Hash → result LegError A) :
    result LegError (option (Hash * A)) :=
  match leg with LegNative => Ok None | LegToken asset => (λ a, Some (asset, a)) <$> m asset end.

(** Nothing is written on an error. *)
Definition settle_intent_legs l (signer : Account) (solver : AccountId) (s : Settlement) (height : N) :
    result LegError (Ledger * Account) :=
  let intent := si_intent (s_intent s) in
  let owner := i_owner intent in
  let give := give_amount intent in
  let deliver := deliver_amount s in
  give_leg ← soft (settle_leg l (give_asset intent));
  want_leg ← soft (settle_leg l (want_asset intent));
  owner_window ← on_token give_leg (λ asset,
    soft (check_token_outgoing l asset owner solver give height));
  solver_window ← on_token want_leg (λ asset,
    soft (check_token_outgoing l asset solver owner deliver height));
  let owner_acct := account l owner in
  owner_native_debited ← on_native give_leg
    (or_soft (Bal.checked_sub (balance owner_acct) give) "owner cannot cover the given amount");
  owner_token_debited ← on_token give_leg (λ asset,
    or_soft (Bal.checked_sub (token_balance l asset owner) give) "owner cannot cover the given amount");
  solver_native_debited ← on_native want_leg
    (or_soft (Bal.checked_sub (balance signer) deliver) "solver cannot cover the delivered amount");
  solver_token_debited ← on_token want_leg (λ asset,
    or_soft (Bal.checked_sub (token_balance l asset solver) deliver)
      "solver cannot cover the delivered amount");
  solver_native_credited ← on_native give_leg
    (or_hard (Bal.checked_add (balance signer) give) Overflow);
  solver_token_credited ← on_token give_leg (λ asset,
    or_soft (Bal.checked_add (token_balance l asset solver) give) "token balance overflow");
  owner_native_credited ← on_native want_leg
    (or_hard (Bal.checked_add (balance owner_acct) deliver) Overflow);
  owner_token_credited ← on_token want_leg (λ asset,
    or_soft (Bal.checked_add (token_balance l asset owner) deliver) "token balance overflow");
  let owner_acct := if_some owner_native_credited Acct.set_balance
                      (if_some owner_native_debited Acct.set_balance owner_acct) in
  let signer := if_some solver_native_credited Acct.set_balance
                  (if_some solver_native_debited Acct.set_balance signer) in
  let put who := λ (p : Hash * Balance) l, set_token_balance l p.1 who p.2 in
  let window who := λ (p : Hash * option SpendWindow) l,
    if_some p.2 (λ w l, set_token_window l p.1 who w) l in
  let l := set_account l owner owner_acct in
  let l := if_some owner_token_debited (put owner) l in
  let l := if_some solver_token_credited (put solver) l in
  let l := if_some solver_token_debited (put solver) l in
  let l := if_some owner_token_credited (put owner) l in
  let l := if_some owner_window (window owner) l in
  let l := if_some solver_window (window solver) l in
  Ok (l, signer).

(** The scratch balances and windows of [settle_contract_token_transfers]. *)
Definition balance_of (scratch : gmap (Hash * AccountId) N) l (asset : Hash) (who : AccountId) : N :=
  default (token_balance l asset who) (scratch !! (asset, who)).
Definition contract_cmd l (contract : AccountId) (height : N)
    (acc : gmap (Hash * AccountId) N * gmap Hash SpendWindow) (cmd : TokenTransferCmd) :
    result string (gmap (Hash * AccountId) N * gmap Hash SpendWindow) :=
  let '(scratch, windows) := acc in
  let asset := tc_asset cmd in
  match tokens (st l) !! asset with
  | None => Err "contract token transfer names no such asset"
  | Some _ =>
      to ← map_err (λ _, "contract token transfer names an invalid account") (AccountId_new (tc_to cmd));
      windows ←
        match token_policies (st l) !! asset with
        | Some policy =>
            if negb (permits (transfer_control policy) contract) then
              Err ("compliance: account " +:+ as_str contract +:+ " is blocked for this asset")
            else
              let window := default (token_window l asset contract) (windows !! asset) in
              updated ← map_err (λ e, "compliance: " +:+ compliance_display e)
                (check_transfer policy to (tc_amount cmd) height window);
              Ok (<[asset := updated]> windows)
        | None => Ok windows
        end;
      remaining ← ok_or (checked_sub (balance_of scratch l asset contract) (tc_amount cmd))
                    "contract token balance insufficient";
      let scratch := <[(asset, contract) := remaining]> scratch in
      credited ← ok_or (checked_add u128_max (balance_of scratch l asset to) (tc_amount cmd))
                   "token balance overflow";
      Ok (<[(asset, to) := credited]> scratch, windows)
  end.
Fixpoint contract_cmds l (contract : AccountId) (height : N)
    (acc : gmap (Hash * AccountId) N * gmap Hash SpendWindow) (cmds : list TokenTransferCmd) :
    result string (gmap (Hash * AccountId) N * gmap Hash SpendWindow) :=
  match cmds with
  | [] => Ok acc
  | cmd :: cmds => acc ← contract_cmd l contract height acc cmd; contract_cmds l contract height acc cmds
  end.
Definition settle_contract_token_transfers l (contract : AccountId) (cmds : list TokenTransferCmd)
    (height : N) : result string Ledger :=
  if bool_decide (length cmds = 0%nat) then Ok l
  else
    '(scratch, windows) ← contract_cmds l contract height (∅, ∅) cmds;
    let l := foldl (λ l e, set_token_balance l e.1.1 e.1.2 e.2) l (entries scratch) in
    Ok (foldl (λ l e, set_token_window l e.1 contract e.2) l (entries windows)).
End helpers.

(** ** The execution monad

    The mutable locals of [apply_transaction]: the ledger, the signer's account,
    the gas and fee accumulators, the return data and the events.  Writes made
    before an error stay, as they do behind [&mut Ledger]. *)

Section monad.
Context `{XE : ExecEnv}.

Record Locals := mkLocals {
  ledger : Ledger;
  signer : Account;
  gas_used : N;
  fee_paid : Balance;
  return_data : bytes;
  events : list Event;
}.

Definition M (A : Type) : Type := Locals → Locals * result Exn A.
#[global] Instance M_ret : MRet M := λ A a s, (s, Ok a).
#[global] Instance M_bind : MBind M := λ A B f m s,
  let '(s', r) := m s in
  match r with Ok a => f a s' | Err e => (s', Err e) end.

Definition get : M Locals := λ s, (s, Ok s).
Definition throw {A} (e : Exn) : M A := λ s, (s, Err e).
Definition lift {A} (r : result Exn A) : M A := λ s, (s, r).
Definition or_throw {A} (o : option A) (e : ExecutionError) : M A := lift (ok_or o (Throw e)).
Definition or_panic {A} (o : option A) : M A := lift (ok_or o Panic).
Definition put_ledger (l : Ledger) : M unit := λ s, ({| s with ledger := l |}, Ok ()).
Definition put_signer (a : Account) : M unit := λ s, ({| s with signer := a |}, Ok ()).
Definition put_balance (b : Balance) : M unit := λ s,
  ({| s with signer := Acct.set_balance b (signer s) |}, Ok ()).
Definition put_fee (b : Balance) : M unit := λ s, ({| s with fee_paid := b |}, Ok ()).
Definition put_output (g : N) (ret : bytes) (ev : list Event) : M unit := λ s,
  ({| s with gas_used := g; return_data := ret; events := ev |}, Ok ()).
Definition put_gas (g : N) : M unit := λ s, ({| s with gas_used := g |}, Ok ()).
Definition done_ : M ExecutionStatus := mret Success.
Definition fail (reason : string) : M ExecutionStatus := mret (Failed reason).
End monad.

(** ** The actions *)

Section actions.
Context `{XE : ExecEnv}.
Variables (stx : SignedTransaction) (ctx : BlockContext).
Abbreviation tx := (transaction stx).
Abbreviation me := (signer_id (transaction stx)).

Definition exec_transfer (to : AccountId) (amount : Balance) : M ExecutionStatus :=
  s ← get;
  '(l, a, status) ← lift (do_transfer (ledger s) me (signer s) to amount);
  _ ← put_ledger l; _ ← put_signer a; mret status.

Definition exec_claim_vesting : M ExecutionStatus :=
  s ← get;
  if negb (Acct.can_claim_vesting (signer s) (height ctx)) then fail "no vested funds to claim yet"
  else
    b ← or_throw (Bal.checked_add (balance (signer s)) (locked (signer s))) Overflow;
    _ ← put_signer {| (signer s) with balance := b; locked := 0; unlock_height := 0 |};
    done_.

Definition exec_deploy (code : bytes) : M ExecutionStatus :=
  if bool_decide (code = []) then fail "empty contract code"
  else s ← get; _ ← put_signer (Acct.set_code (Some code) (signer s)); done_.

(** [contract_entries] and the holder's slice of [token_balance_iter]. *)
Definition contract_map (l : Ledger) (contract : AccountId) : gmap bytes bytes :=
  list_to_map (omap (λ e : (AccountId * bytes) * bytes,
    if bool_decide (e.1.1 = contract) then Some (e.1.2, e.2) else None) (entries (contract_storage (st l)))).
Definition holdings (l : Ledger) (who : AccountId) : gmap Hash N :=
  list_to_map (omap (λ e : (Hash * AccountId) * Balance,
    if bool_decide (e.1.2 = who) then Some (e.1.1, e.2) else None) (entries (token_balances (st l)))).

Definition exec_call (contract : AccountId) (gas_limit : N) (calldata : bytes) : M ExecutionStatus :=
  s ← get;
  match code (account (ledger s) contract) with
  | None => fail "target account is not a contract"
  | Some code =>
      let vm_ctx := mkExecContext (height ctx) (as_str me) (as_str contract) calldata
                      (holdings (ledger s) contract) in
      match vm_execute code "call" gas_limit vm_ctx (contract_map (ledger s) contract) with
      | (Ok outcome, storage) =>
          vm_fee ← or_throw (checked_mul u128_max (vo_gas_used outcome) (gas_price ctx)) Overflow;
          match Bal.checked_sub (balance (signer s)) vm_fee with
          | None => fail "cannot afford gas fee"
          | Some remaining =>
              _ ← put_balance remaining;
              fee ← or_throw (Bal.checked_add (fee_paid s) vm_fee) Overflow;
              _ ← put_fee fee;
              let g := saturating_add u64_max (gas_used s) (vo_gas_used outcome) in
              _ ← put_gas g;
              match settle_contract_token_transfers (ledger s) contract (token_transfers outcome)
                      (height ctx) with
              | Err reason => fail reason
              | Ok l =>
                  _ ← put_ledger (foldl (λ l e, set_contract_value l contract e.1 e.2) l (entries storage));
                  _ ← put_output g (vo_return_data outcome)
                        ((λ e, mkEvent (ve_topic e) (ve_data e)) <$> vo_events outcome);
                  done_
              end
          end
      | (Err OutOfGas, _) => fail "contract ran out of gas"
      | (Err e, _) => fail ("contract trap: " +:+ vm_error_display e)
      end
  end.

(** The value legs of a verified v1 bundle. *)
Definition shielded_legs (sb : ShieldedBundle) (vb : Z) (mag : Balance)
    (window : option (N * Balance)) : M ExecutionStatus :=
  s ← get;
  let '(l, applied) := apply_shielded_bundle (ledger s) sb in
  _ ← put_ledger l;
  match applied with
  | Err _ => fail "shielded double-spend"
  | Ok _ =>
      if (vb <? 0)%Z then
        b ← or_throw (Bal.checked_sub (balance (signer s)) mag) Overflow;
        _ ← put_balance b;
        l ← or_throw (add_shielded_value l mag) Overflow;
        _ ← put_ledger l; done_
      else if (0 <? vb)%Z then
        l ← or_throw (sub_shielded_value l mag) Overflow;
        _ ← put_ledger l;
        b ← or_throw (Bal.checked_add (balance (signer s)) mag) Overflow;
        _ ← put_balance b;
        match window with
        | Some (start, spent) => _ ← put_ledger (set_deshield_window l start spent); done_
        | None => done_
        end
      else done_
  end.
Definition exec_shielded (bundle : bytes) : M ExecutionStatus :=
  s ← get;
  match bundle_from_bytes bundle with
  | None => fail "malformed shielded bundle"
  | Some sb =>
      if negb (verify_shielded_v1_for_context sb me (tx_nonce tx) ctx) then
        fail (if match pq ctx with Some pq => rotation_only_height pq <=? height ctx | None => false end
              then "invalid shielded authorization or proof" else "invalid shielded proof")
      else if negb (anchor_is_known (shielded (st (ledger s))) sb) then fail "unknown shielded anchor"
      else
        let vb := value_balance sb in
        let mag := Z.to_N (Z.abs vb) in
        let affordable :=
          if (vb <? 0)%Z then bool_decide (is_Some (Bal.checked_sub (balance (signer s)) mag))
          else if (0 <? vb)%Z then bool_decide (is_Some (Bal.checked_sub (shielded_value (st (ledger s))) mag))
          else true in
        let window :=
          if (0 <? vb)%Z && negb (deshield_window_blocks (mining ctx) =? 0) then
            Some <$> drain_window (deshield_window (st (ledger s))) (height ctx)
              (deshield_window_blocks (mining ctx)) (deshield_limit_grains (mining ctx)) mag
          else Some None in
        match window with
        | None => fail "de-shield rate limit exceeded for this window"
        | Some window =>
            if negb affordable then fail "insufficient balance for shielded value"
            else shielded_legs sb vb mag window
        end
  end.

(** [deferred]: the effects of a withdrawal that funds its own fee. *)
Definition exec_shielded_v2 (deferred : option V2Effects) (intrinsic_fee : Balance) (bundle : bytes) :
    M ExecutionStatus :=
  if negb (shielded_v2_active ctx) then throw (Throw (FeatureInactive "shielded-v2"))
  else
    s ← get;
    effects ←
      match deferred with
      | Some effects => mret effects
      | None =>
          lift (map_err (Throw ∘ EShieldedV2)
            (verify_bundle_for_carrier_with_suite2 bundle (ledger s) (mining ctx) (height ctx)
               (chain_domain ctx) me (tx_nonce tx) (balance (signer s)) (shielded_v2_suite2_active ctx)))
      end;
    let '(l, applied) := apply_shielded_v2 (ledger s) (e_nullifiers effects) (e_commitments effects) in
    _ ← put_ledger l;
    _ ← lift (map_err (λ e, Throw (EShieldedV2 (MalformedStructure (v2_state_error_display e)))) applied);
    _ ← (if negb (shield_in effects =? 0) then
           s ← get;
           b ← or_throw (Bal.checked_sub (balance (signer s)) (shield_in effects)) Overflow;
           _ ← put_balance b;
           l ← or_throw (add_shielded_v2_value (ledger s) (shield_in effects)) Overflow;
           put_ledger l
         else mret ());
    if negb (deshield_out effects =? 0) then
      s ← get;
      l ← or_throw (sub_shielded_v2_value (ledger s) (deshield_out effects)) Overflow;
      _ ← put_ledger l;
      b ← or_throw (Bal.checked_add (balance (signer s)) (deshield_out effects)) Overflow;
      _ ← put_balance b;
      _ ← (if bool_decide (is_Some deferred) then
             b ← or_throw (Bal.checked_sub b intrinsic_fee) Overflow; put_balance b
           else mret ());
      match window_update effects with
      | Some (start, spent) => _ ← put_ledger (set_deshield_v2_window l start spent); done_
      | None => done_
      end
    else done_.

Definition exec_htlc_lock (recipient : AccountId) (amount : Balance) (hashlock : Hash)
    (timeout_height : N) : M ExecutionStatus :=
  s ← get;
  match Bal.checked_sub (balance (signer s)) amount with
  | None => fail "insufficient balance"
  | Some remaining =>
      match lock_htlc (ledger s) (tx_id stx) (mkHtlc me recipient amount hashlock timeout_height) with
      | None => fail "duplicate HTLC or escrow overflow"
      | Some l => _ ← put_ledger l; _ ← put_balance remaining; done_
      end
  end.
(** The common tail of a claim and a refund. *)
Definition pay_htlc (id : Hash) (htlc : Htlc) : M ExecutionStatus :=
  s ← get;
  _ ← put_ledger (match settle_htlc (ledger s) id with Some (_, l) => l | None => ledger s end);
  b ← or_throw (Bal.checked_add (balance (signer s)) (amount htlc)) Overflow;
  _ ← put_balance b; done_.
Definition exec_htlc_claim (id : Hash) (preimage : bytes) : M ExecutionStatus :=
  s ← get;
  match htlcs (st (ledger s)) !! id with
  | None => fail "no such HTLC"
  | Some htlc =>
      if negb (bool_decide (me = recipient htlc)) then fail "only the recipient may claim"
      else if htlc_timeout htlc <=? height ctx then fail "HTLC has timed out"
      else if negb (bool_decide (sha256 preimage = hashlock htlc)) then
        fail "preimage does not match hashlock"
      else pay_htlc id htlc
  end.
Definition exec_htlc_refund (id : Hash) : M ExecutionStatus :=
  s ← get;
  match htlcs (st (ledger s)) !! id with
  | None => fail "no such HTLC"
  | Some htlc =>
      if negb (bool_decide (me = locker htlc)) then fail "only the locker may refund"
      else if height ctx <? htlc_timeout htlc then fail "HTLC has not timed out yet"
      else pay_htlc id htlc
  end.

Definition issue_block (l : Ledger) (asset : Hash) (to : AccountId) : option string :=
  policy ← token_policies (st l) !! asset;
  if frozen policy then Some "compliance: asset is paused"
  else if negb (permits (transfer_control policy) to) then
    Some ("compliance: account " +:+ as_str to +:+ " is blocked for this asset")
  else None.
Definition exec_token_issue (symbol : string) (amount : Balance) (to : AccountId) : M ExecutionStatus :=
  if negb (valid_token_symbol symbol) then fail "invalid token symbol (1-16 ASCII alphanumeric bytes)"
  else if amount =? 0 then fail "cannot issue zero"
  else if bool_decide (token_asset_id me symbol = xusd_asset_id) then
    fail "xUSD is a reserved protocol asset"
  else
    s ← get;
    let l := ledger s in
    let asset := token_asset_id me symbol in
    let info := default (mkTokenInfo me symbol 0 0) (tokens (st l) !! asset) in
    if negb (bool_decide (t_issuer info = me)) then fail "asset is bound to a different issuer"
    else
      match issue_block l asset to with
      | Some reason => fail reason
      | None =>
          match Bal.checked_add (issued info) amount, Bal.checked_add (token_balance l asset to) amount with
          | Some issued, Some credited =>
              _ ← put_ledger (set_token_balance (set_token l asset {| info with issued := issued |})
                    asset to credited);
              done_
          | _, _ => fail "token supply overflow"
          end
      end.

Definition exec_token_transfer (asset : Hash) (to : AccountId) (amount : Balance) : M ExecutionStatus :=
  s ← get;
  let l := ledger s in
  let to := resolve_recipient l to in
  match tokens (st l) !! asset with
  | None => fail "no such asset"
  | Some _ =>
      match check_token_outgoing l asset me to amount (height ctx) with
      | Err reason => fail reason
      | Ok window =>
          match Bal.checked_sub (token_balance l asset me) amount with
          | None => fail "insufficient token balance"
          | Some remaining =>
              if bool_decide (to = me) then done_
              else
                match Bal.checked_add (token_balance l asset to) amount with
                | None => fail "token balance overflow"
                | Some credited =>
                    let l := set_token_balance l asset me remaining in
                    let l := set_token_balance l asset to credited in
                    _ ← put_ledger (if_some window (λ w l, set_token_window l asset me w) l);
                    done_
                end
          end
      end
  end.
Definition exec_token_burn (asset : Hash) (amount : Balance) : M ExecutionStatus :=
  s ← get;
  let l := ledger s in
  match tokens (st l) !! asset with
  | None => fail "no such asset"
  | Some info =>
      match check_token_outgoing l asset me me amount (height ctx) with
      | Err reason => fail reason
      | Ok window =>
          match Bal.checked_sub (token_balance l asset me) amount with
          | None => fail "insufficient token balance"
          | Some remaining =>
              match Bal.checked_add (burned info) amount with
              | None => fail "token burn overflow"
              | Some burned =>
                  let l := set_token l asset {| info with burned := burned |} in
                  let l := set_token_balance l asset me remaining in
                  _ ← put_ledger (if_some window (λ w l, set_token_window l asset me w) l);
                  done_
              end
          end
      end
  end.
Definition exec_token_set_policy (asset : Hash) (policy : CompliancePolicy) : M ExecutionStatus :=
  s ← get;
  match tokens (st (ledger s)) !! asset with
  | None => fail "no such asset"
  | Some info =>
      if negb (bool_decide (t_issuer info = me)) then
        fail "only the asset's issuer may set its compliance policy"
      else if MAX_POLICY_ENTRIES <? policy_entries policy then
        fail ("compliance policy exceeds " +:+ pretty MAX_POLICY_ENTRIES +:+ " list entries")
      else _ ← put_ledger (set_token_policy (ledger s) asset policy); done_
  end.

Definition exec_intent_settle (s' : Settlement) : M ExecutionStatus :=
  s ← get;
  let l := ledger s in
  let intent := si_intent (s_intent s') in
  let id := intent_id intent in
  if negb (bool_decide (s_solver s' = me)) then fail "only the settlement's named solver may submit it"
  else if bool_decide (i_owner intent = me) then fail "an owner cannot fill their own intent"
  else if bool_decide (is_Some (multisig (st l) !! i_owner intent)) then
    fail "intent owner is a multisig account; single-key intent settlement is not authorized"
  else if negb (bool_decide (key (account l (i_owner intent)) = Some (i_public_key intent))) then
    fail "intent key is not the owner account's registered key"
  else if negb (is_hybrid_key (i_public_key intent))
          && pq_requires_hybrid_authority (account l (i_owner intent)) ctx then
    fail "post-quantum policy: intent owner's legacy key cannot authorize settlement"
  else if negb (intent_verify_mode (s_intent s') (tx_domain ctx)) then fail "invalid intent signature"
  else if expiry_height intent <? height ctx then fail "intent has expired"
  else if intent_consumed l id then fail "intent already settled or cancelled"
  else if bool_decide (give_asset intent = want_asset intent) then
    fail "degenerate swap: give and want assets are identical"
  else if deliver_amount s' <? min_receive intent then fail "delivery is below the intent's minimum"
  else
    match settle_intent_legs l (signer s) me s' (height ctx) with
    | Err (inl e) => throw e
    | Err (inr reason) => fail reason
    | Ok (l, a) => _ ← put_signer a; _ ← put_ledger (consume_intent l id); done_
    end.
Definition exec_intent_cancel (intent : Intent) : M ExecutionStatus :=
  s ← get;
  if negb (bool_decide (i_owner intent = me)) then fail "only the intent's owner may cancel it"
  else if intent_consumed (ledger s) (intent_id intent) then fail "intent already settled or cancelled"
  else _ ← put_ledger (consume_intent (ledger s) (intent_id intent)); done_.

Definition exec_rotate_key (requires_hybrid : bool) (new_key : PublicKey) (proof : Signature) :
    M ExecutionStatus :=
  let msg := rotation_signing_bytes me (tx_nonce tx) new_key in
  if requires_hybrid && negb (is_hybrid_key new_key) then
    fail "post-quantum policy: rotation must install a hybrid key"
  else if negb (verify new_key msg proof) then fail "rotation proof does not verify under the new key"
  else s ← get; _ ← put_signer (Acct.set_key (Some new_key) (signer s)); done_.

Definition exec_register_name (name : string) : M ExecutionStatus :=
  s ← get;
  match AccountId_new name with
  | Err _ => fail "invalid name"
  | Ok id =>
      if negb (is_registrable_name id) then fail "name must be a *.sov id, not a 64-hex implicit id"
      else if name_taken (ledger s) name then fail "name already registered"
      else if exists_ (ledger s) id then fail "name shadows an existing account"
      else
        match Bal.checked_sub (balance (signer s)) NAME_REGISTRATION_FEE_GRAINS with
        | None => fail "cannot afford the name registration fee"
        | Some remaining =>
            _ ← put_balance remaining;
            fee ← or_throw (Bal.checked_add (fee_paid s) NAME_REGISTRATION_FEE_GRAINS) Overflow;
            _ ← put_fee fee;
            _ ← put_ledger (default (ledger s) (register_name (ledger s) name me (height ctx)));
            done_
        end
  end.
Definition exec_transfer_name (name : string) (to : AccountId) : M ExecutionStatus :=
  s ← get;
  match nr_owner <$> name_record (ledger s) name with
  | None => fail "no such registered name"
  | Some owner =>
      if negb (bool_decide (owner = me)) then fail "only the name's owner may transfer it"
      else _ ← put_ledger (default (ledger s) (transfer_name (ledger s) name to)); done_
  end.

Definition exec_nft_mint (symbol : string) (token_id : bytes) (to : AccountId) (metadata : bytes) :
    M ExecutionStatus :=
  if negb (nft_symbol_ok symbol) then fail "nft collection symbol must be 1–32 printable ASCII bytes"
  else
    s ← get;
    let class_id := nft_class_id me symbol in
    let existing := nft_classes (st (ledger s)) !! class_id in
    if match existing with Some c => negb (bool_decide (nc_issuer c = me)) | None => false end then
      fail "only the collection's issuer may mint into it"
    else
      match mint_nft (ledger s) class_id token_id to metadata (height ctx) with
      | None => fail "nft item already exists"
      | Some l =>
          let class := default (mkNftClass me symbol 0) existing in
          _ ← put_ledger (set_nft_class l class_id
                {| class with minted := saturating_add u64_max (minted class) 1 |});
          done_
      end.
Definition nft_owner (l : Ledger) (collection : Hash) (token_id : bytes) : option AccountId :=
  nt_owner <$> nfts (st l) !! (collection, token_id).
Definition exec_nft_transfer (collection : Hash) (token_id : bytes) (to : AccountId) : M ExecutionStatus :=
  s ← get;
  match nft_owner (ledger s) collection token_id with
  | None => fail "no such nft"
  | Some owner =>
      if negb (bool_decide (owner = me)) then fail "only the nft's owner may transfer it"
      else _ ← put_ledger (default (ledger s) (transfer_nft (ledger s) collection token_id to)); done_
  end.
Definition exec_nft_set_meta (collection : Hash) (token_id metadata : bytes) : M ExecutionStatus :=
  s ← get;
  match nft_owner (ledger s) collection token_id with
  | None => fail "no such nft"
  | Some owner =>
      if negb (bool_decide (owner = me)) then fail "only the nft's owner may set its metadata"
      else _ ← put_ledger (default (ledger s) (set_nft_meta (ledger s) collection token_id metadata)); done_
  end.

(** [(0..n).all(|i| !signers[..i].contains(&signers[i]))]. *)
Definition distinct_keys (signers : list PublicKey) : bool :=
  forallb (λ i, match signers !! i with
                | Some k => negb (bool_decide (k ∈ take i signers))
                | None => true
                end) (seq 0 (length signers)).
Definition exec_set_multisig (requires_hybrid : bool) (signers : list PublicKey) (threshold : N) :
    M ExecutionStatus :=
  let n := len signers in
  if (n =? 0) || (MAX_MULTISIG_SIGNERS <? n) then
    fail ("multisig: signer count " +:+ pretty n +:+ " out of range 1..=" +:+ pretty MAX_MULTISIG_SIGNERS)
  else if negb (distinct_keys signers) then fail "multisig: signer keys must be distinct"
  else if (threshold =? 0) || (n <? threshold) then
    fail ("multisig: threshold " +:+ pretty threshold +:+ " out of range 1..=" +:+ pretty n)
  else if requires_hybrid && negb (forallb is_hybrid_key signers) then
    fail "post-quantum policy: multisig must install only hybrid keys"
  else
    s ← get;
    let l := set_multisig (ledger s) me (mkMultisig signers threshold) in
    _ ← put_ledger (remove_proposals_for l me).2;
    done_.

(** [as u16]. *)
Definition u16_of (n : nat) : N := N.of_nat n mod 2 ^ 16.
(** A member whose key may no longer act for this vault. *)
Definition legacy_member (l : Ledger) (acc : AccountId) : bool :=
  negb (is_hybrid_key (public_key tx)) && pq_requires_hybrid_authority (account l acc) ctx.
Definition member (policy : Multisig) : option nat :=
  fst <$> list_find (λ k, k = public_key tx) (ms_signers policy).

Definition exec_propose (acc : AccountId) (inner : Action.t) : M ExecutionStatus :=
  s ← get;
  let l := ledger s in
  match multisig (st l) !! acc with
  | None => fail "multisig: account has no multisig policy"
  | Some policy =>
      match member policy with
      | None => fail "multisig: signer is not a policy member"
      | Some idx =>
          if negb (is_proposable inner) then fail "multisig: only a Transfer can be proposed"
          else if legacy_member l acc then
            fail "post-quantum policy: legacy member cannot authorize this vault"
          else
            let action_bytes := to_vec inner in
            let id := proposal_id acc (to_vec (public_key tx)) (tx_nonce tx) action_bytes in
            let prop := mkMProposal acc action_bytes [u16_of idx] in
            if ms_threshold policy <=? u16_of (length (mpr_approvers prop)) then
              '(l, status) ← lift (execute_proposal_action l acc inner);
              _ ← put_ledger l; mret status
            else _ ← put_ledger (set_proposal l id prop); done_
      end
  end.

(** The approvers counted after this approval. *)
Definition approvers_after (l : Ledger) (acc : AccountId) (policy : Multisig) (idx : nat) (old : list N) :
    list N :=
  let kept :=
    if pq_requires_hybrid_authority (account l acc) ctx then
      filter (λ i, from_option is_hybrid_key false (ms_signers policy !! N.to_nat i) = true) old
    else old in
  if bool_decide (u16_of idx ∈ kept) then kept else kept ++ [u16_of idx].
Definition exec_approve (acc : AccountId) (proposal : Hash) : M ExecutionStatus :=
  s ← get;
  let l := ledger s in
  match multisig (st l) !! acc with
  | None => fail "multisig: account has no multisig policy"
  | Some policy =>
      match member policy, proposals (st l) !! proposal with
      | None, _ => fail "multisig: signer is not a policy member"
      | _, None => fail "multisig: no such pending proposal"
      | Some idx, Some prop =>
          if negb (bool_decide (mpr_account prop = acc)) then
            fail "multisig: proposal does not belong to this account"
          else if legacy_member l acc then
            fail "post-quantum policy: legacy member cannot authorize this vault"
          else
            let approvers := approvers_after l acc policy idx (mpr_approvers prop) in
            if ms_threshold policy <=? u16_of (length approvers) then
              match action_from_slice (mpr_action prop) with
              | Some inner =>
                  '(l, status) ← lift (execute_proposal_action l acc inner);
                  _ ← put_ledger (remove_proposal l proposal); mret status
              | None => fail "multisig: corrupt stored proposal"
              end
            else _ ← put_ledger (set_proposal l proposal {| prop with mpr_approvers := approvers |}); done_
      end
  end.
Definition exec_cancel (acc : AccountId) (proposal : Hash) : M ExecutionStatus :=
  s ← get;
  let l := ledger s in
  let is_member := match multisig (st l) !! acc with
                   | Some p => bool_decide (public_key tx ∈ ms_signers p)
                   | None => false
                   end in
  let belongs := match proposals (st l) !! proposal with
                 | Some p => bool_decide (mpr_account p = acc)
                 | None => false
                 end in
  if negb is_member then fail "multisig: signer is not a policy member"
  else if legacy_member l acc then fail "post-quantum policy: legacy member cannot authorize this vault"
  else if negb belongs then fail "multisig: no such pending proposal"
  else _ ← put_ledger (remove_proposal l proposal); done_.

Definition exec_vault_deposit (amount : Balance) : M ExecutionStatus :=
  if amount =? 0 then fail "cannot deposit zero"
  else
    s ← get;
    match Bal.checked_sub (balance (signer s)) amount with
    | None => fail "insufficient balance"
    | Some remaining =>
        let v := vault (ledger s) me in
        match Bal.checked_add (collateral v) amount with
        | None => fail "vault collateral overflow"
        | Some c =>
            _ ← put_balance remaining;
            l ← or_panic (set_vault (ledger s) me {| v with collateral := c |});
            _ ← put_ledger l; done_
        end
    end.
Definition exec_vault_withdraw (amount : Balance) : M ExecutionStatus :=
  if amount =? 0 then fail "cannot withdraw zero"
  else
    s ← get;
    let v := vault (ledger s) me in
    match Bal.checked_sub (collateral v) amount with
    | None => fail "vault holds less collateral than requested"
    | Some remaining =>
        if negb (is_healthy remaining (debt v) (oracle_price (ledger s))) then
          fail "withdrawal would under-collateralize the vault"
        else
          match Bal.checked_add (balance (signer s)) amount with
          | None => fail "balance overflow"
          | Some b =>
              _ ← put_balance b;
              l ← or_panic (set_vault (ledger s) me {| v with collateral := remaining |});
              _ ← put_ledger l; done_
          end
    end.
Definition exec_vault_mint (amount : Balance) : M ExecutionStatus :=
  if amount =? 0 then fail "cannot mint zero"
  else
    s ← get;
    let l := ledger s in
    let v := vault l me in
    match Bal.checked_add (debt v) amount with
    | None => fail "vault debt overflow"
    | Some new_debt =>
        if negb (is_healthy (collateral v) new_debt (oracle_price l)) then
          fail "insufficient collateral: mint would breach the 150% ratio"
        else
          let asset := xusd_asset_id in
          let info := default (mkTokenInfo XUSD_ISSUER_ID XUSD_SYMBOL 0 0) (tokens (st l) !! asset) in
          match Bal.checked_add (issued info) amount, Bal.checked_add (token_balance l asset me) amount with
          | Some issued, Some credited =>
              let l := set_token l asset {| info with issued := issued |} in
              let l := set_token_balance l asset me credited in
              _ ← put_ledger l;
              l ← or_panic (set_vault l me {| v with debt := new_debt |});
              _ ← put_ledger l; done_
          | _, _ => fail "xUSD supply overflow"
          end
    end.
Definition exec_vault_burn (amount : Balance) : M ExecutionStatus :=
  if amount =? 0 then fail "cannot burn zero"
  else
    s ← get;
    let l := ledger s in
    let asset := xusd_asset_id in
    let v := vault l me in
    match Bal.checked_sub (token_balance l asset me) amount, Bal.checked_sub (debt v) amount with
    | None, _ => fail "insufficient xUSD balance to burn"
    | _, None => fail "repaying more than the vault's debt"
    | Some remaining_bal, Some new_debt =>
        match tokens (st l) !! asset with
        | None => fail "no xUSD outstanding"
        | Some info =>
            match Bal.checked_add (burned info) amount with
            | None => fail "xUSD burn overflow"
            | Some burned =>
                let l := set_token l asset {| info with burned := burned |} in
                let l := set_token_balance l asset me remaining_bal in
                _ ← put_ledger l;
                l ← or_panic (set_vault l me {| v with debt := new_debt |});
                _ ← put_ledger l; done_
            end
        end
    end.
Definition exec_oracle_update (price : N) : M ExecutionStatus :=
  if negb (bool_decide (me = ORACLE_ID)) then fail "oracle: only the authorized price feed may publish"
  else if price =? 0 then fail "oracle: price must be positive"
  else
    s ← get;
    let current := oracle_price (ledger s) in
    let too_high := saturating_mul u128_max current MAX_ORACLE_MOVE <? price in
    let too_low := price <? current / MAX_ORACLE_MOVE in
    if (0 <? current) && (too_high || too_low) then
      fail "oracle: update exceeds the max per-update move (10x)"
    else _ ← put_ledger (set_oracle_price (ledger s) price); done_.
End actions.

(** ** The transaction *)

Section apply.
Context `{XE : ExecEnv}.

(** What the checks and the envelope leave for the action. *)
Record Ready := mkReady {
  rd_signer : Account;
  rd_gas : N;
  rd_intrinsic_fee : Balance;
  rd_tip : Balance;
  rd_requires_hybrid : bool;
  rd_deferred : option V2Effects;
  rd_ms_error : option string;
  rd_action : Action.t;
  rd_timing : option N;
}.

(** Who may act for the account; a keyless account binds its key. *)
Definition authorize (l : Ledger) (tx : Transaction) : result Exn Account :=
  let unauthorized := Err (Throw (Unauthorized (signer_id tx))) in
  let a := account l (signer_id tx) in
  match multisig (st l) !! signer_id tx with
  | Some policy =>
      let is_member := bool_decide (public_key tx ∈ ms_signers policy) in
      let is_exec := match action tx with Action.MultisigExec _ _ => true | _ => false end in
      if negb (is_member && is_exec) then unauthorized else Ok a
  | None =>
      match key a with
      | Some k => if bool_decide (k = public_key tx) then Ok a else unauthorized
      | None =>
          let bound := Ok (Acct.set_key (Some (public_key tx)) a) in
          if is_implicit (signer_id tx) then
            match implicit_account_id (public_key tx) with
            | Some id => if negb (bool_decide (id = signer_id tx)) then unauthorized else bound
            | None => Err Panic
            end
          else match action tx with Action.RotateKey _ _ => bound | _ => unauthorized end
      end
  end.

(** The post-quantum schedule: legacy keys after the sunset, or for a large
    balance in the rotation phase. *)
Definition check_pq (tx : Transaction) (ctx : BlockContext) (requires_hybrid : bool) : result Exn unit :=
  match pq ctx with
  | None => Ok ()
  | Some pq =>
      let legacy := negb (is_hybrid_key (public_key tx)) in
      if legacy && (sunset_height pq <=? height ctx) then Err (Throw (PqSunset (signer_id tx)))
      else if legacy && requires_hybrid then
        let rotating_to_hybrid :=
          match action tx with
          | Action.RotateKey new_key _ => is_hybrid_key new_key
          | Action.MultisigExec a _ => is_pq_multisig_migration a ctx
          | _ => false
          end in
        if negb rotating_to_hybrid then Err (Throw (PqRotationRequired (signer_id tx))) else Ok ()
      else Ok ()
  end.

(** The timestamp envelope: the wrapped action and the declared time. *)
Definition check_timestamp (a : Action.t) (ctx : BlockContext) : result Exn (Action.t * option N) :=
  match a with
  | Action.Timestamped created_at_ms inner =>
      match inner with
      | Action.MultisigExec _ _ | Action.RotateKey _ _ => Err (Throw TimestampInnerNotAllowed)
      | _ =>
          if saturating_add u64_max (block_time_ms ctx) TX_TIMESTAMP_FUTURE_TOLERANCE_MS <? created_at_ms
          then Err (Throw (TxTimestampInFuture created_at_ms (block_time_ms ctx)
                             TX_TIMESTAMP_FUTURE_TOLERANCE_MS))
          else if created_at_ms <? saturating_sub (block_time_ms ctx) TX_TIMESTAMP_MAX_AGE_MS
          then Err (Throw (TxTimestampExpired created_at_ms (block_time_ms ctx) TX_TIMESTAMP_MAX_AGE_MS))
          else Ok (inner, if tx_timestamp_active ctx then Some created_at_ms else None)
      end
  | other => Ok (other, None)
  end.

Definition check_data (a : Action.t) (ctx : BlockContext) : result Exn unit :=
  let limit := max_code_bytes (mining ctx) in
  match a with
  | Action.Deploy d | Action.Call _ _ d =>
      if negb (limit =? 0) && (limit <? len d) then Err (Throw (DataTooLarge limit (len d))) else Ok ()
  | _ => Ok ()
  end.

(** The valid approvals of a multisig execution, by signer index. *)
Definition approved_by (policy : Multisig) (msg : bytes) (requires_hybrid migration : bool)
    (approvals : list ExecApproval) : gset N :=
  foldl (λ approved ap,
    match ms_signers policy !! N.to_nat (ap_signer ap) with
    | Some pk =>
        if (negb requires_hybrid || is_hybrid_key pk || migration) && verify pk msg (ap_signature ap)
        then {[ap_signer ap]} ∪ approved else approved
    | None => approved
    end) ∅ approvals.
Definition multisig_error (l : Ledger) (tx : Transaction) (ctx : BlockContext) (requires_hybrid : bool)
    (inner : Action.t) (approvals : list ExecApproval) : option string :=
  match inner with
  | Action.MultisigExec _ _ | Action.RotateKey _ _ =>
      Some "multisig: inner action may not be MultisigExec or RotateKey"
  | _ =>
      match multisig (st l) !! signer_id tx with
      | Some policy =>
          let approved := approved_by policy (multisig_signing_bytes (signer_id tx) (tx_nonce tx) inner)
                            requires_hybrid (is_pq_multisig_migration inner ctx) approvals in
          if u16_of (size approved) <? ms_threshold policy then
            Some ("multisig: " +:+ pretty (N.of_nat (size approved)) +:+ " valid approval(s), need "
                  +:+ pretty (ms_threshold policy))
          else None
      | None => Some "multisig: account has no multisig policy"
      end
  end.

(** The tip and multisig envelopes: the action to run, the multisig verdict, the
    signer after the tip, and the tip. *)
Definition unwrap_envelope (l : Ledger) (tx : Transaction) (ctx : BlockContext) (requires_hybrid : bool)
    (a : Account) (act : Action.t) : result Exn (Action.t * option string * Account * Balance) :=
  match act with
  | Action.Tipped tip inner =>
      if fee_auction_active ctx then
        match inner with
        | Action.Tipped _ _ => Err (Throw NestedTip)
        | Action.MultisigExec _ _ | Action.RotateKey _ _ => Err (Throw TipInnerNotAllowed)
        | _ =>
            if negb (tip =? 0) then
              b ← ok_or (Bal.checked_sub (balance a) tip) (Throw (CannotAffordFee (signer_id tx)));
              Ok (inner, None, Acct.set_balance b a, tip)
            else Ok (inner, None, a, 0)
        end
      else Ok (act, None, a, 0)
  | Action.MultisigExec inner approvals =>
      Ok (inner, multisig_error l tx ctx requires_hybrid inner approvals, a, 0)
  | other => Ok (other, None, a, 0)
  end.

(** Everything before the first write to the ledger. *)
Definition preflight (l : Ledger) (stx : SignedTransaction) (ctx : BlockContext) : result Exn Ready :=
  if negb (verify_signature_mode stx (tx_domain ctx)) then Err (Throw InvalidSignature)
  else
    let tx := transaction stx in
    a ← authorize l tx;
    if negb (tx_nonce tx =? nonce a) then Err (Throw (BadNonce (nonce a) (tx_nonce tx)))
    else
      let requires_hybrid := pq_requires_hybrid_authority a ctx in
      _ ← check_pq tx ctx requires_hybrid;
      _ ← map_err Throw (check_shielded_retirement (action tx) ctx);
      match find_inactive_feature (action tx) ctx with
      | Some feature => Err (Throw (FeatureInactive feature))
      | None =>
          if has_nested_timestamp (action tx) then Err (Throw MisplacedTimestamp)
          else
            '(timestamped_inner, timing) ← check_timestamp (action tx) ctx;
            _ ← check_data timestamped_inner ctx;
            let gas := wadd (gas_for (action tx)) (envelope_gas (public_key tx)) in
            intrinsic_fee ←
              (if negb (gas_price ctx =? 0) then
                 ok_or (checked_mul u128_max gas (gas_price ctx)) (Throw Overflow)
               else Ok 0);
            deferred ←
              (if negb (intrinsic_fee =? 0) && bool_decide (Bal.checked_sub (balance a) intrinsic_fee = None)
               then
                 effects ← map_err Throw
                   (verify_direct_suite2_withdrawal_for_fee (action tx) l ctx (signer_id tx) (tx_nonce tx)
                      (balance a));
                 available ←
                   match effects with
                   | Some e => ok_or (Bal.checked_add (balance a) (deshield_out e)) (Throw Overflow)
                   | None => Ok (balance a)
                   end;
                 match Bal.checked_sub available intrinsic_fee with
                 | None => Err (Throw (CannotAffordFee (signer_id tx)))
                 | Some _ => Ok effects
                 end
               else Ok None);
            n ← ok_or (checked_add u64_max (nonce a) 1) (Throw Overflow);
            let a := Acct.set_nonce n a in
            b ←
              (if negb (intrinsic_fee =? 0) && negb (bool_decide (is_Some deferred)) then
                 ok_or (Bal.checked_sub (balance a) intrinsic_fee) (Throw Overflow)
               else Ok (balance a));
            let a := Acct.set_balance b a in
            '(act, ms_error, a, tip) ← unwrap_envelope l tx ctx requires_hybrid a timestamped_inner;
            Ok (mkReady a gas intrinsic_fee tip requires_hybrid deferred ms_error act timing)
      end.

(** [match effective_action]. *)
Definition run_action (stx : SignedTransaction) (ctx : BlockContext) (r : Ready) : M ExecutionStatus :=
  match rd_action r with
  | Action.Tipped _ _ =>
      throw (Throw (if fee_auction_active ctx then TipInnerNotAllowed else FeatureInactive "fee-auction"))
  | Action.Timestamped _ _ =>
      throw (Throw (if tx_timestamp_active ctx then MisplacedTimestamp else FeatureInactive "tx-timestamp"))
  | Action.ShieldedV2 bundle => exec_shielded_v2 stx ctx (rd_deferred r) (rd_intrinsic_fee r) bundle
  | Action.Transfer to amount => exec_transfer stx to amount
  | Action.ClaimVesting => exec_claim_vesting ctx
  | Action.Deploy code => exec_deploy code
  | Action.Call contract gas_limit calldata => exec_call stx ctx contract gas_limit calldata
  | Action.Shielded bundle => exec_shielded stx ctx bundle
  | Action.HtlcLock recipient amount hashlock timeout =>
      exec_htlc_lock stx recipient amount hashlock timeout
  | Action.HtlcClaim id preimage => exec_htlc_claim stx ctx id preimage
  | Action.HtlcRefund id => exec_htlc_refund stx ctx id
  | Action.TokenIssue symbol amount to => exec_token_issue stx symbol amount to
  | Action.TokenTransfer asset to amount => exec_token_transfer stx ctx asset to amount
  | Action.TokenBurn asset amount => exec_token_burn stx ctx asset amount
  | Action.IntentSettle settlement => exec_intent_settle stx ctx settlement
  | Action.IntentCancel intent => exec_intent_cancel stx intent
  | Action.RotateKey new_key proof => exec_rotate_key stx (rd_requires_hybrid r) new_key proof
  | Action.TokenSetPolicy asset policy => exec_token_set_policy stx asset policy
  | Action.RegisterName name => exec_register_name stx ctx name
  | Action.TransferName name to => exec_transfer_name stx name to
  | Action.NftMint symbol token_id to metadata => exec_nft_mint stx ctx symbol token_id to metadata
  | Action.NftTransfer collection token_id to => exec_nft_transfer stx collection token_id to
  | Action.NftSetMeta collection token_id metadata => exec_nft_set_meta stx collection token_id metadata
  | Action.SetMultisig signers threshold => exec_set_multisig stx (rd_requires_hybrid r) signers threshold
  | Action.MultisigExec _ _ => fail "multisig: nested MultisigExec is not allowed"
  | Action.ProposeMultisig acc inner => exec_propose stx ctx acc inner
  | Action.ApproveMultisig acc proposal => exec_approve stx ctx acc proposal
  | Action.CancelMultisig acc proposal => exec_cancel stx ctx acc proposal
  | Action.VaultDeposit amount => exec_vault_deposit stx amount
  | Action.VaultWithdraw amount => exec_vault_withdraw stx amount
  | Action.VaultMint amount => exec_vault_mint stx amount
  | Action.VaultBurn amount => exec_vault_burn stx amount
  | Action.OracleUpdate price => exec_oracle_update stx price
  end.

Definition start (l : Ledger) (r : Ready) : Locals :=
  mkLocals l (rd_signer r) (rd_gas r) (rd_intrinsic_fee r) [] [].

(** The write-back of the signer, the fee and the tip. *)
Definition epilogue (stx : SignedTransaction) (ctx : BlockContext) (r : Ready) (status : ExecutionStatus) :
    M Receipt :=
  s ← get;
  _ ← put_ledger (set_account (ledger s) (signer_id (transaction stx)) (signer s));
  s ← get;
  l ← lift (distribute_fee (ledger s) ctx (fee_paid s));
  _ ← put_ledger l;
  l ← lift (credit l (miner ctx) (rd_tip r));
  _ ← put_ledger l;
  mret (mkReceipt (tx_id stx) status (gas_used s) (return_data s) (events s) (rd_timing r)).

Definition apply_transaction (l : Ledger) (stx : SignedTransaction) (ctx : BlockContext) :
    Ledger * result Exn Receipt :=
  match preflight l stx ctx with
  | Err e => (l, Err e)
  | Ok r =>
      let body : M Receipt :=
        status ← match rd_ms_error r with
                 | Some reason => fail reason
                 | None => run_action stx ctx r
                 end;
        epilogue stx ctx r status in
      let '(s, res) := body (start l r) in (ledger s, res)
  end.

(** ** Blocks *)

Definition apply_coinbase (l : Ledger) (ctx : BlockContext) : Ledger * result Exn Balance :=
  let reward := Emission.reward_at (mining ctx) (height ctx) (mined_emitted (st l)) in
  if reward =? 0 then (l, Ok 0)
  else
    match credit l (miner ctx) reward with
    | Err e => (l, Err e)
    | Ok l1 =>
        match add_mined_emitted l1 reward with
        | None => (l1, Err (Throw Overflow))
        | Some l2 => (l2, Ok reward)
        end
    end.

(** The loop of [apply_transactions]; an error carries the transaction's index. *)
Fixpoint apply_from (index : N) (l : Ledger) (txs : list SignedTransaction) (ctx : BlockContext) :
    Ledger * result (N * Exn) (list Receipt) :=
  match txs with
  | [] => (l, Ok [])
  | stx :: txs =>
      match apply_transaction l stx ctx with
      | (l, Err e) => (l, Err (index, e))
      | (l, Ok receipt) =>
          let '(l, r) := apply_from (index + 1) l txs ctx in (l, cons receipt <$> r)
      end
  end.
Definition apply_transactions (l : Ledger) (txs : list SignedTransaction) (ctx : BlockContext) :
    Ledger * result (N * Exn) (list Receipt) := apply_from 0 l txs ctx.
End apply.
