(* ===== verification/LedgerUndo.v ===== *)
(** * Undoing a block (crates/state/src/ledger.rs, begin_undo to apply_undo)

    Every mutator of the ledger journals what it overwrites; replaying a journal
    backwards restores the state before the block exactly.  The mutators are
    collected in the step relation [mutates]. *)

From S2P Require Import Prelude Primitives Crypto Compliance Smt Vault Ledger.

Create Rewrite HintDb ledger.

Section undo.
Context `{Env : LedgerEnv}.
Implicit Types (l : Ledger) (s : Store) (op : UndoOp).

(** ** Committing touches neither the store nor the journal *)

Lemma st_commit_insert sl v l : st (commit_insert sl v l) = st l.
Proof. done. Qed.
Lemma st_commit_remove sl l : st (commit_remove sl l) = st l.
Proof. done. Qed.
Lemma st_upd f l : st (upd f l) = f (st l).
Proof. done. Qed.
Lemma st_record op l : st (record op l) = st l.
Proof. unfold record. by destruct (undo l). Qed.
Lemma st_commit_counter n v l : st (commit_counter n v l) = st l.
Proof. unfold commit_counter. by case_match. Qed.
Lemma st_commit_window n w l : st (commit_window n w l) = st l.
Proof. unfold commit_window. by case_match. Qed.
Lemma st_recommit_map {K V} `{BKey K, Countable K, Borsh (list (K * V))} n (m : gmap K V) l :
  st (recommit_map n m l) = st l.
Proof. unfold recommit_map. by case_match. Qed.
Lemma st_recommit_oracle l : st (recommit_oracle l) = st l.
Proof. unfold recommit_oracle. by case_match. Qed.
Lemma st_recommit_shielded l : st (recommit_shielded l) = st l.
Proof. unfold recommit_shielded. by case_match. Qed.
Lemma st_recommit_shielded_v2 l : st (recommit_shielded_v2 l) = st l.
Proof. unfold recommit_shielded_v2. by case_match. Qed.

Lemma undo_commit_insert sl v l : undo (commit_insert sl v l) = undo l.
Proof. done. Qed.
Lemma undo_commit_remove sl l : undo (commit_remove sl l) = undo l.
Proof. done. Qed.
Lemma undo_upd f l : undo (upd f l) = undo l.
Proof. done. Qed.
Lemma undo_record op l : undo (record op l) = (λ j, j ++ [op]) <$> undo l.
Proof. unfold record. destruct (undo l) eqn:E; [done|]. by rewrite E. Qed.
Lemma undo_commit_counter n v l : undo (commit_counter n v l) = undo l.
Proof. unfold commit_counter. by case_match. Qed.
Lemma undo_commit_window n w l : undo (commit_window n w l) = undo l.
Proof. unfold commit_window. by case_match. Qed.
Lemma undo_recommit_map {K V} `{BKey K, Countable K, Borsh (list (K * V))} n (m : gmap K V) l :
  undo (recommit_map n m l) = undo l.
Proof. unfold recommit_map. by case_match. Qed.
Lemma undo_recommit_oracle l : undo (recommit_oracle l) = undo l.
Proof. unfold recommit_oracle. by case_match. Qed.
Lemma undo_recommit_shielded l : undo (recommit_shielded l) = undo l.
Proof. unfold recommit_shielded. by case_match. Qed.
Lemma undo_recommit_shielded_v2 l : undo (recommit_shielded_v2 l) = undo l.
Proof. unfold recommit_shielded_v2. by case_match. Qed.
End undo.

#[export] Hint Rewrite @st_commit_insert @st_commit_remove @st_upd @st_record @st_commit_counter
  @st_commit_window @st_recommit_map @st_recommit_oracle @st_recommit_shielded
  @st_recommit_shielded_v2 @undo_commit_insert @undo_commit_remove @undo_upd @undo_record
  @undo_commit_counter @undo_commit_window @undo_recommit_map @undo_recommit_oracle
  @undo_recommit_shielded @undo_recommit_shielded_v2 : ledger.

Ltac unfold_recommit :=
  unfold recommit_htlcs, recommit_nft_classes, recommit_nfts, recommit_multisig,
    recommit_proposals, recommit_vaults in *.
Ltac ledger_simpl := unfold_recommit; autorewrite with ledger.

Section undo2.
Context `{Env : LedgerEnv}.
Implicit Types (l : Ledger) (s : Store) (op : UndoOp).

(** The effect of [undo_one] on the store. *)
Definition keep {A} (empty : A → bool) (prev : option A) : option A :=
  prev ≫= λ a, if empty a then None else Some a.
Definition undo_st s op : Store :=
  match op with
  | UAccount id prev => {| s with accounts := restore id (keep Acct.is_empty prev) (accounts s) |}
  | UContract c k prev =>
      {| s with contract_storage :=
           restore (c, k) (keep (λ v, bool_decide (v = [])) prev) (contract_storage s) |}
  | UToken a prev => {| s with tokens := restore a prev (tokens s) |}
  | UTokenBalance a h prev =>
      {| s with token_balances := restore (a, h) (keep (λ b, b =? 0) prev) (token_balances s) |}
  | UTokenPolicy a prev => {| s with token_policies := restore a prev (token_policies s) |}
  | UTokenWindow a h prev =>
      {| s with token_windows :=
           restore (a, h) (keep (λ w, bool_decide (w = SpendWindow_new)) prev) (token_windows s) |}
  | UHtlc id prev => {| s with htlcs := restore id prev (htlcs s) |}
  | UNftClass id prev => {| s with nft_classes := restore id prev (nft_classes s) |}
  | UNft c t prev => {| s with nfts := restore (c, t) prev (nfts s) |}
  | UMultisig a prev => {| s with multisig := restore a prev (multisig s) |}
  | UProposal id prev => {| s with proposals := restore id prev (proposals s) |}
  | UIntent i => {| s with consumed_intents := consumed_intents s ∖ {[i]} |}
  | UShielded prev => {| s with shielded := prev |}
  | UMinedEmitted prev => {| s with mined_emitted := prev |}
  | UShieldedValue prev => {| s with shielded_value := prev |}
  | UHtlcLocked prev => {| s with htlc_locked := prev |}
  | UVault o prev => {| s with vaults := restore o prev (vaults s) |}
  | UVaultCollateral prev => {| s with vault_collateral := prev |}
  | UOraclePrice prev => {| s with oracle_price_opt := prev |}
  | UDeshieldWindow a b => {| s with deshield_window := (a, b) |}
  | UShieldedV2 prev => {| s with shielded_v2 := prev |}
  | UShieldedV2Value prev => {| s with shielded_v2_value := prev |}
  | UDeshieldV2Window a b => {| s with deshield_v2_window := (a, b) |}
  end.

Lemma undo_one_st l op : st (undo_one l op) = undo_st (st l) op ∧ undo (undo_one l op) = undo l.
Proof.
  destruct op; unfold undo_one, undo_st, keep; repeat case_match; subst; ledger_simpl; simpl;
    repeat match goal with H : negb _ = _ |- _ => apply (f_equal negb) in H; rewrite negb_involutive in H; simpl in H; rewrite ?H end;
    done.
Qed.

Lemma apply_undo_st l log :
  st (apply_undo l log) = foldl undo_st (st l) (reverse log) ∧ undo (apply_undo l log) = undo l.
Proof.
  unfold apply_undo. cbn [st undo]. split; [|done].
  set (l0 := {| l with undo := None |}). change (st l) with (st l0). clearbody l0.
  generalize (reverse log) as ops. intros ops. revert l0.
  induction ops as [|op ops IH]; intros l0; cbn [foldl]; [done|].
  rewrite IH. by rewrite (proj1 (undo_one_st l0 op)).
Qed.
End undo2.

(** ** The journal of each mutator *)

Section journal.
Context `{Env : LedgerEnv}.
Implicit Types (l : Ledger) (s : Store) (op : UndoOp).

(** No map holds an entry that means "absent". *)
Record canonical s : Prop := {
  can_accounts : ∀ id a, accounts s !! id = Some a → Acct.is_empty a = false;
  can_storage : ∀ k v, contract_storage s !! k = Some v → v ≠ [];
  can_balances : ∀ k b, token_balances s !! k = Some b → b ≠ 0;
  can_windows : ∀ k w, token_windows s !! k = Some w → w ≠ SpendWindow_new;
}.

(** [l'] follows [l], journalling [ops]; replaying them backwards undoes it. *)
Definition journals l l' (ops : list UndoOp) : Prop :=
  undo l' = (λ j, j ++ ops) <$> undo l ∧
  (canonical (st l) → canonical (st l') ∧ foldl undo_st (st l') (reverse ops) = st l).

Lemma journals_refl l : journals l l [].
Proof.
  split; [|done]. destruct (undo l); simpl; [|done]. by rewrite app_nil_r.
Qed.
Lemma journals_trans l1 l2 l3 ops1 ops2 :
  journals l1 l2 ops1 → journals l2 l3 ops2 → journals l1 l3 (ops1 ++ ops2).
Proof.
  intros [U1 R1] [U2 R2]. split.
  - rewrite U2, U1. destruct (undo l1); simpl; [|done]. by rewrite (assoc_L (++)).
  - intros [C2 E1]%R1. destruct (R2 C2) as [C3 E2]. split; [done|].
    by rewrite reverse_app, foldl_app, E2.
Qed.

Lemma restore_insert {K V} `{Countable K} k v (m : gmap K V) : restore k (m !! k) (<[k := v]> m) = m.
Proof.
  unfold restore. destruct (m !! k) eqn:E.
  - by rewrite insert_insert_eq, insert_id.
  - by rewrite delete_insert_id.
Qed.
Lemma restore_delete {K V} `{Countable K} k (m : gmap K V) : restore k (m !! k) (delete k m) = m.
Proof.
  unfold restore. destruct (m !! k) eqn:E.
  - by rewrite insert_delete_id.
  - by rewrite delete_delete_eq, delete_id.
Qed.
Lemma keep_lookup {K V} `{Countable K} (empty : V → bool) k (m : gmap K V) :
  (∀ k v, m !! k = Some v → empty v = false) → keep empty (m !! k) = m !! k.
Proof. intros Hm. unfold keep. destruct (m !! k) eqn:E; simpl; [|done]. by rewrite (Hm _ _ E). Qed.

(** Shape of a journalled change of one field. *)
Lemma journals_one l l' op :
  undo l' = (λ j, j ++ [op]) <$> undo l →
  (canonical (st l) → canonical (st l') ∧ undo_st (st l') op = st l) →
  journals l l' [op].
Proof. intros; by split. Qed.
Lemma journals_two l l' op1 op2 :
  undo l' = (λ j, j ++ [op1; op2]) <$> undo l →
  (canonical (st l) → canonical (st l') ∧ undo_st (undo_st (st l') op2) op1 = st l) →
  journals l l' [op1; op2].
Proof. intros; by split. Qed.
End journal.

(** Closes the side conditions of a one-field change. *)
Ltac journal_canonical :=
  let C := fresh "C" in
  intros C; split;
  [ destruct C; split; simpl; try done; intros *;
    try (rewrite ?lookup_insert_Some, ?lookup_delete_Some; naive_solver)
  | ].
Ltac store_eq := match goal with |- _ = ?s => destruct s; simpl in *; f_equal end.

Section mutators.
Context `{Env : LedgerEnv}.
Implicit Types (l : Ledger) (s : Store) (op : UndoOp).

Lemma set_account_journals l id a :
  journals l (set_account l id a) [UAccount id (accounts (st l) !! id)].
Proof.
  apply journals_one; unfold set_account; destruct (Acct.is_empty a) eqn:Ea; ledger_simpl; try done.
  - journal_canonical. simpl. rewrite keep_lookup by apply C. rewrite restore_delete. by destruct (st l).
  - journal_canonical. simpl. rewrite keep_lookup by apply C. rewrite restore_insert. by destruct (st l).
Qed.

Lemma set_contract_value_journals l c k v :
  journals l (set_contract_value l c k v) [UContract c k (contract_storage (st l) !! (c, k))].
Proof.
  apply journals_one; unfold set_contract_value, contract_value;
    destruct (bool_decide_reflect (v = [])) as [Ev|Ev]; ledger_simpl; try done;
    journal_canonical; simpl; rewrite keep_lookup
      by (intros ? ? ?%(can_storage _ C); by apply bool_decide_false);
    rewrite ?restore_delete, ?restore_insert; by destruct (st l).
Qed.

Lemma set_token_balance_journals l a h b :
  journals l (set_token_balance l a h b) [UTokenBalance a h (token_balances (st l) !! (a, h))].
Proof.
  apply journals_one; unfold set_token_balance; destruct (N.eqb_spec b 0) as [Ev|Ev];
    ledger_simpl; try done; journal_canonical; simpl; rewrite keep_lookup
      by (intros ? ? ?%(can_balances _ C); by apply N.eqb_neq);
    rewrite ?restore_delete, ?restore_insert; by destruct (st l).
Qed.

Lemma set_token_window_journals l a h w :
  journals l (set_token_window l a h w) [UTokenWindow a h (token_windows (st l) !! (a, h))].
Proof.
  apply journals_one; unfold set_token_window; destruct (bool_decide_reflect (w = SpendWindow_new));
    ledger_simpl; try done; journal_canonical; simpl; rewrite keep_lookup
      by (intros ? ? ?%(can_windows _ C); by apply bool_decide_false);
    rewrite ?restore_delete, ?restore_insert; by destruct (st l).
Qed.

(** A mutator that records one operation and changes one field. *)
Ltac one_field l :=
  apply journals_one; ledger_simpl; [done|]; journal_canonical; simpl;
  rewrite ?restore_insert, ?restore_delete; by destruct (st l).
Ltac two_fields l :=
  apply journals_two; ledger_simpl;
  [ by destruct (undo l) as [j|]; simpl; rewrite <- ?(assoc_L (++))
  | journal_canonical; simpl; rewrite ?restore_insert, ?restore_delete; by destruct (st l) ].

Lemma set_shielded_value_journals v l :
  journals l (set_shielded_value v l) [UShieldedValue (shielded_value (st l))].
Proof. unfold set_shielded_value. one_field l. Qed.
Lemma set_shielded_v2_value_journals v l :
  journals l (set_shielded_v2_value v l) [UShieldedV2Value (shielded_v2_value (st l))].
Proof. unfold set_shielded_v2_value. one_field l. Qed.
Lemma apply_shielded_bundle_journals l b l' :
  apply_shielded_bundle l b = (l', Ok ()) → journals l l' [UShielded (shielded (st l))].
Proof. unfold apply_shielded_bundle. destruct (pool_apply _ _) as [p []]; intros [= <-]. one_field l. Qed.
Lemma apply_shielded_v2_journals l ns cs l' :
  apply_shielded_v2 l ns cs = (l', Ok ()) → journals l l' [UShieldedV2 (shielded_v2 (st l))].
Proof. unfold apply_shielded_v2. destruct (pool_apply _ _) as [p []]; intros [= <-]. one_field l. Qed.

(** Where the pools keep their promise, a refused bundle leaves the ledger as it was. *)
Lemma shielded_refused `{!UntornPools} l b l' e : apply_shielded_bundle l b = (l', Err e) → l' = l.
Proof.
  unfold apply_shielded_bundle. destruct (pool_apply _ _) as [p []] eqn:E; intros [= <- _].
  rewrite (pool_untorn _ _ _ _ E). by destruct l as [? [] ?].
Qed.
Lemma shielded_v2_refused `{!UntornPools} l ns cs l' e : apply_shielded_v2 l ns cs = (l', Err e) → l' = l.
Proof.
  unfold apply_shielded_v2. destruct (pool_apply _ _) as [p []] eqn:E; intros [= <- _].
  rewrite (pool_untorn _ _ _ _ E). by destruct l as [? [] ?].
Qed.
Lemma set_deshield_window_journals l a b :
  journals l (set_deshield_window l a b)
    [UDeshieldWindow (deshield_window (st l)).1 (deshield_window (st l)).2].
Proof.
  apply journals_one; unfold set_deshield_window; ledger_simpl; [done|]. journal_canonical. simpl.
  rewrite <- (surjective_pairing (deshield_window (st l))). by destruct (st l).
Qed.
Lemma set_deshield_v2_window_journals l a b :
  journals l (set_deshield_v2_window l a b)
    [UDeshieldV2Window (deshield_v2_window (st l)).1 (deshield_v2_window (st l)).2].
Proof.
  apply journals_one; unfold set_deshield_v2_window; ledger_simpl; [done|]. journal_canonical. simpl.
  rewrite <- (surjective_pairing (deshield_v2_window (st l))). by destruct (st l).
Qed.
Lemma set_oracle_price_journals l p :
  journals l (set_oracle_price l p) [UOraclePrice (oracle_price_opt (st l))].
Proof. unfold set_oracle_price. one_field l. Qed.
Lemma set_multisig_journals l a p : journals l (set_multisig l a p) [UMultisig a (multisig (st l) !! a)].
Proof. unfold set_multisig. one_field l. Qed.
Lemma set_proposal_journals l i p : journals l (set_proposal l i p) [UProposal i (proposals (st l) !! i)].
Proof. unfold set_proposal. one_field l. Qed.
Lemma remove_proposal_journals l i : journals l (remove_proposal l i) [UProposal i (proposals (st l) !! i)].
Proof. unfold remove_proposal. one_field l. Qed.
Lemma drop_proposal_journals l i : journals l (drop_proposal l i) [UProposal i (proposals (st l) !! i)].
Proof. unfold drop_proposal. one_field l. Qed.
Lemma set_nft_class_journals l i c : journals l (set_nft_class l i c) [UNftClass i (nft_classes (st l) !! i)].
Proof. unfold set_nft_class. one_field l. Qed.
Lemma set_token_journals l a t : journals l (set_token l a t) [UToken a (tokens (st l) !! a)].
Proof. unfold set_token. one_field l. Qed.
Lemma mint_nft_journals l c t o m h l' :
  mint_nft l c t o m h = Some l' → journals l l' [UNft c t (nfts (st l) !! (c, t))].
Proof.
  unfold mint_nft. destruct (nfts (st l) !! (c, t)) eqn:E; [done|]. intros [= <-].
  rewrite <- E. one_field l.
Qed.
Lemma put_nft_journals l c t p t' :
  nfts (st l) !! (c, t) = Some p → journals l (put_nft l c t p t') [UNft c t (nfts (st l) !! (c, t))].
Proof. intros E. unfold put_nft. rewrite <- E. one_field l. Qed.
Lemma add_mined_emitted_journals l a l' :
  add_mined_emitted l a = Some l' → journals l l' [UMinedEmitted (mined_emitted (st l))].
Proof.
  unfold add_mined_emitted. destruct (Bal.checked_add _ _); simpl; [|done]. intros [= <-]. one_field l.
Qed.

Lemma lock_htlc_journals l id h l' :
  lock_htlc l id h = Some l' → journals l l' [UHtlcLocked (htlc_locked (st l)); UHtlc id (htlcs (st l) !! id)].
Proof.
  unfold lock_htlc. destruct (htlcs (st l) !! id) eqn:E; [done|].
  destruct (Bal.checked_add _ _) as [n|]; simpl; [|done]. intros [= <-]. rewrite <- E.
  two_fields l.
Qed.
Lemma settle_htlc_journals l id h l' :
  settle_htlc l id = Some (h, l') →
  journals l l' [UHtlcLocked (htlc_locked (st l)); UHtlc id (htlcs (st l) !! id)].
Proof.
  unfold settle_htlc. destruct (htlcs (st l) !! id) as [h0|] eqn:E; simpl; [|done]. intros [= _ <-].
  rewrite <- E. two_fields l.
Qed.
Lemma set_vault_journals l o v l' :
  set_vault l o v = Some l' →
  journals l l' [UVaultCollateral (vault_collateral (st l)); UVault o (vaults (st l) !! o)].
Proof.
  unfold set_vault. destruct (Bal.checked_sub _ _) as [t|]; simpl; [|done].
  destruct (Bal.checked_add _ _) as [n|]; simpl; [|done]. intros [= <-].
  destruct (Vlt.is_empty v); two_fields l.
Qed.
Lemma consume_intent_journals l i :
  journals l (consume_intent l i) (if intent_consumed l i then [] else [UIntent i]).
Proof.
  unfold consume_intent, intent_consumed. destruct (bool_decide_reflect (i ∈ consumed_intents (st l))).
  - split; ledger_simpl; [by destruct (undo l); simpl; rewrite ?app_nil_r|].
    journal_canonical. simpl. replace ({[i]} ∪ consumed_intents (st l)) with (consumed_intents (st l)) by set_solver.
    by destruct (st l).
  - apply journals_one; ledger_simpl; [done|]. journal_canonical. simpl.
    replace (({[i]} ∪ consumed_intents (st l)) ∖ {[i]}) with (consumed_intents (st l)) by set_solver.
    by destruct (st l).
Qed.
End mutators.

Section bulk.
Context `{Env : LedgerEnv}.
Implicit Types (l : Ledger) (s : Store) (op : UndoOp).

Lemma journals_ext l l' l'' ops :
  st l'' = st l' → undo l'' = undo l' → journals l l' ops → journals l l'' ops.
Proof. unfold journals. by intros -> ->. Qed.

(** Re-inserting deleted entries. *)
Lemma refill {K V} `{Countable K} (m : gmap K V) es : ∀ m1,
  (∀ k v, (k, v) ∈ es → m !! k = Some v) →
  (∀ k, k ∉ es.*1 → m1 !! k = m !! k) →
  foldl (λ m e, <[e.1 := e.2]> m) m1 es = m.
Proof.
  induction es as [|[k v] es IH]; intros m1 Hin Hoff; cbn [foldl].
  - apply map_eq. intros k. apply Hoff. apply not_elem_of_nil.
  - apply IH; [intros; apply Hin; by right|]. intros k' Hk'. cbn [fst snd].
    destruct (decide (k' = k)) as [->|Hne].
    + rewrite lookup_insert_eq. symmetry. apply Hin. left.
    + rewrite lookup_insert_ne by done. apply Hoff. rewrite fmap_cons, not_elem_of_cons. done.
Qed.
Lemma deletes_lookup {K V} `{Countable K} (ks : list K) k : ∀ m : gmap K V,
  k ∉ ks → foldl (λ m k, delete k m) m ks !! k = m !! k.
Proof.
  induction ks as [|k' ks IH]; intros m Hk; cbn [foldl]; [done|].
  rewrite not_elem_of_cons in Hk. rewrite IH by naive_solver. apply lookup_delete_ne. naive_solver.
Qed.
Lemma deletes_Some {K V} `{Countable K} (ks : list K) k v : ∀ m : gmap K V,
  foldl (λ m k, delete k m) m ks !! k = Some v → m !! k = Some v.
Proof.
  induction ks as [|k' ks IH]; intros m Hk; cbn [foldl] in Hk; [done|].
  apply IH in Hk. by apply lookup_delete_Some in Hk as [_ ?].
Qed.

Lemma clear_windows_st ks : ∀ l,
  undo (foldl clear_window l ks) = undo l ∧
  st (foldl clear_window l ks)
  = {| (st l) with token_windows := foldl (λ m k, delete k m) (token_windows (st l)) ks |}.
Proof.
  induction ks as [|k ks IH]; intros l; cbn [foldl]; [split; [done|by destruct (st l)]|].
  destruct (IH (clear_window l k)) as [-> ->]. done.
Qed.
Lemma record_windows (es : list ((Hash * AccountId) * SpendWindow)) : ∀ l,
  let l' := foldl (λ l e, record (UTokenWindow e.1.1 e.1.2 (Some e.2)) l) l es in
  st l' = st l ∧ undo l' = (λ j, j ++ ((λ e, UTokenWindow e.1.1 e.1.2 (Some e.2)) <$> es)) <$> undo l.
Proof.
  induction es as [|e es IH]; intros l; cbn zeta; cbn [foldl].
  - split; [done|]. destruct (undo l); simpl; by rewrite ?app_nil_r.
  - destruct (IH (record (UTokenWindow e.1.1 e.1.2 (Some e.2)) l)) as [-> ->].
    autorewrite with ledger. split; [done|]. destruct (undo l); simpl; [|done].
    by rewrite <- (assoc_L (++)).
Qed.
Lemma undo_windows es : ∀ s, (∀ e, e ∈ es → e.2 ≠ SpendWindow_new) →
  foldl undo_st s ((λ e, UTokenWindow e.1.1 e.1.2 (Some e.2)) <$> es)
  = {| s with token_windows := foldl (λ m e, <[e.1 := e.2]> m) (token_windows s) es |}.
Proof.
  induction es as [|[[a h] w] es IH]; intros s Hne; [by destruct s|]. rewrite fmap_cons. cbn [foldl].
  rewrite IH by (intros; apply Hne; by right).
  cbn [undo_st keep mbind option_bind fst snd]. rewrite bool_decide_false by (apply (Hne (a, h, w)); left).
  done.
Qed.

Lemma set_token_policy_journals l asset p :
  journals l (set_token_policy l asset p)
    (UTokenPolicy asset (token_policies (st l) !! asset)
       :: ((λ e, UTokenWindow e.1.1 e.1.2 (Some e.2)) <$> windows_of (st l) asset)).
Proof.
  unfold set_token_policy. set (es := windows_of (st l) asset).
  set (l0 := record (UTokenPolicy asset (token_policies (st l) !! asset)) l).
  destruct (record_windows es l0) as [Es Eu].
  set (l1 := foldl _ l0 es) in *. assert (st l1 = st l) as Es'
    by (rewrite Es; unfold l0; by autorewrite with ledger).
  assert (∀ k w, (k, w) ∈ es → token_windows (st l) !! k = Some w) as Hin.
  { intros k w Hk. unfold es, windows_of in Hk. apply list_elem_of_filter in Hk as [_ Hk].
    by apply elem_of_entries in Hk. }
  set (l2 := upd _ _).
  assert (st l2 = {| (st l) with token_policies := <[asset := p]> (token_policies (st l)) |}) as E2
    by (unfold l2; autorewrite with ledger; by rewrite Es').
  assert (windows_of (st l2) asset = es) as Ew by (by rewrite E2).
  rewrite Ew. destruct (clear_windows_st es.*1 l2) as [Uc Sc].
  split.
  - rewrite Uc. unfold l2. autorewrite with ledger. rewrite Eu. unfold l0. autorewrite with ledger.
    destruct (undo l); simpl; [|done]. by rewrite <- (assoc_L (++)).
  - intros C. rewrite Sc, E2. cbn [token_windows]. split.
    + destruct C. split; simpl; try done. intros k w Hw%deletes_Some. by apply (can_windows0 k).
    + rewrite reverse_cons, foldl_app, <- fmap_reverse, undo_windows.
      2: { intros [k w] Hk. apply (can_windows _ C k). apply Hin. by rewrite elem_of_reverse in Hk. }
      cbn [token_windows]. rewrite (refill (token_windows (st l))).
      * simpl. rewrite restore_insert. by destruct (st l).
      * intros k w Hk. apply Hin. by rewrite elem_of_reverse in Hk.
      * intros k Hk. apply deletes_lookup. intros Hk'. apply Hk.
        apply list_elem_of_fmap in Hk' as (e & -> & He). apply list_elem_of_fmap. exists e.
        split; [done|]. by apply elem_of_reverse.
Qed.
End bulk.

(** ** One mutation of the ledger, by any of its public mutators *)

Section steps.
Context `{Env : LedgerEnv}.
Implicit Types (l : Ledger) (op : UndoOp) (T : list Slot).

(** The slot an undo step rewrites. *)
Definition op_slot op : Slot :=
  match op with
  | UAccount id _ => SAccount id
  | UContract c k _ => SContract c k
  | UToken a _ => SToken a
  | UTokenBalance a h _ => STokenBalance a h
  | UTokenPolicy a _ => STokenPolicy a
  | UTokenWindow a h _ => STokenWindow a h
  | UHtlc _ _ => SReserved HTLC_SLOT
  | UNftClass _ _ => SReserved NFT_CLASSES_SLOT
  | UNft _ _ _ => SReserved NFTS_SLOT
  | UMultisig _ _ => SReserved MULTISIG_SLOT
  | UProposal _ _ => SReserved PROPOSALS_SLOT
  | UIntent i => SIntent i
  | UShielded _ => SReserved SHIELDED_SLOT
  | UMinedEmitted _ => SReserved MINED_SLOT
  | UShieldedValue _ => SReserved SHIELDED_VALUE_SLOT
  | UHtlcLocked _ => SReserved HTLC_LOCKED_SLOT
  | UDeshieldWindow _ _ => SReserved DESHIELD_WINDOW_SLOT
  | UShieldedV2 _ => SReserved SHIELDED_V2_SLOT
  | UShieldedV2Value _ => SReserved SHIELDED_V2_VALUE_SLOT
  | UDeshieldV2Window _ _ => SReserved DESHIELD_V2_WINDOW_SLOT
  | UVault _ _ => SReserved VAULTS_SLOT
  | UVaultCollateral _ => SReserved VAULT_COLLATERAL_SLOT
  | UOraclePrice _ => SReserved ORACLE_PRICE_SLOT
  end.

(** [writes l T l']: one mutator takes [l] to [l'], rewriting the slots [T]; a
    bundle the pool refuses counts too, whatever it did to the pool. *)
Inductive writes : Ledger → list Slot → Ledger → Prop :=
| m_account l id a : writes l [SAccount id] (set_account l id a)
| m_contract l c k v : writes l [SContract c k] (set_contract_value l c k v)
| m_shield l b l' r : apply_shielded_bundle l b = (l', r) → writes l [SReserved SHIELDED_SLOT] l'
| m_shield_add l a l' : add_shielded_value l a = Some l' → writes l [SReserved SHIELDED_VALUE_SLOT] l'
| m_shield_sub l a l' : sub_shielded_value l a = Some l' → writes l [SReserved SHIELDED_VALUE_SLOT] l'
| m_shield_v2 l ns cs l' r :
    apply_shielded_v2 l ns cs = (l', r) → writes l [SReserved SHIELDED_V2_SLOT] l'
| m_shield_v2_add l a l' :
    add_shielded_v2_value l a = Some l' → writes l [SReserved SHIELDED_V2_VALUE_SLOT] l'
| m_shield_v2_sub l a l' :
    sub_shielded_v2_value l a = Some l' → writes l [SReserved SHIELDED_V2_VALUE_SLOT] l'
| m_window_v2 l a b : writes l [SReserved DESHIELD_V2_WINDOW_SLOT] (set_deshield_v2_window l a b)
| m_window l a b : writes l [SReserved DESHIELD_WINDOW_SLOT] (set_deshield_window l a b)
| m_lock l id h l' :
    lock_htlc l id h = Some l' → writes l [SReserved HTLC_LOCKED_SLOT; SReserved HTLC_SLOT] l'
| m_settle l id h l' :
    settle_htlc l id = Some (h, l') → writes l [SReserved HTLC_LOCKED_SLOT; SReserved HTLC_SLOT] l'
| m_oracle l p : writes l [SReserved ORACLE_PRICE_SLOT] (set_oracle_price l p)
| m_vault l o v l' :
    set_vault l o v = Some l' → writes l [SReserved VAULT_COLLATERAL_SLOT; SReserved VAULTS_SLOT] l'
| m_multisig l a p : writes l [SReserved MULTISIG_SLOT] (set_multisig l a p)
| m_proposal l i p : writes l [SReserved PROPOSALS_SLOT] (set_proposal l i p)
| m_unpropose l i : writes l [SReserved PROPOSALS_SLOT] (remove_proposal l i)
| m_unpropose_all l a : writes l [SReserved PROPOSALS_SLOT] (remove_proposals_for l a).2
| m_class l i c : writes l [SReserved NFT_CLASSES_SLOT] (set_nft_class l i c)
| m_mint l c t o m h l' : mint_nft l c t o m h = Some l' → writes l [SReserved NFTS_SLOT] l'
| m_nft_transfer l c t o l' : transfer_nft l c t o = Some l' → writes l [SReserved NFTS_SLOT] l'
| m_nft_meta l c t m l' : set_nft_meta l c t m = Some l' → writes l [SReserved NFTS_SLOT] l'
| m_token l a t : writes l [SToken a] (set_token l a t)
| m_token_balance l a h b : writes l [STokenBalance a h] (set_token_balance l a h b)
| m_token_policy l a p :
    writes l (STokenPolicy a :: ((λ e, STokenWindow e.1.1 e.1.2) <$> windows_of (st l) a))
      (set_token_policy l a p)
| m_token_window l a h w : writes l [STokenWindow a h] (set_token_window l a h w)
| m_intent l i : writes l [SIntent i] (consume_intent l i)
| m_mined l a l' : add_mined_emitted l a = Some l' → writes l [SReserved MINED_SLOT] l'.

Definition mutates l l' : Prop := ∃ T, writes l T l'.

(** Journals whose undo steps rewrite slots of [T] only. *)
Definition journals_in T l l' : Prop :=
  ∃ ops, journals l l' ops ∧ ∀ op, op ∈ ops → op_slot op ∈ T.

Lemma journals_in_one T l l' ops :
  journals l l' ops → (∀ op, op ∈ ops → op_slot op ∈ T) → journals_in T l l'.
Proof. intros; by exists ops. Qed.

Lemma drop_proposals_journals ids : ∀ l,
  journals_in [SReserved PROPOSALS_SLOT] l (foldl drop_proposal l ids).
Proof.
  induction ids as [|i ids IH]; intros l; cbn [foldl].
  - exists []. split; [apply journals_refl|]. intros op Hop. inversion Hop.
  - destruct (IH (drop_proposal l i)) as (ops & Hops & Hs). eexists. split.
    + eapply journals_trans; [apply drop_proposal_journals|exact Hops].
    + intros op [Hop|Hop]%elem_of_app; [|by apply Hs]. apply list_elem_of_singleton in Hop as ->. left.
Qed.
Lemma remove_proposals_for_journals l a :
  journals_in [SReserved PROPOSALS_SLOT] l (remove_proposals_for l a).2.
Proof.
  unfold remove_proposals_for. set (ids := fst <$> _).
  destruct (bool_decide (ids = [])); cbn [snd].
  - exists []. split; [apply journals_refl|]. intros op Hop. inversion Hop.
  - destruct (drop_proposals_journals ids l) as (ops & Hops & Hs).
    exists ops. split; [|done]. eapply journals_ext; [| |exact Hops]; by ledger_simpl.
Qed.

Ltac slot_in := intros ? Hop; repeat (apply elem_of_cons in Hop as [->|Hop]; [set_solver|]);
  inversion Hop.

Lemma writes_journals `{!UntornPools} l T l' : writes l T l' → journals_in T l l'.
Proof.
  destruct 1;
    try match goal with r : result _ unit |- _ => destruct r as [[]|] end;
    try (match goal with H : _ = (_, Err _) |- _ =>
      first [apply shielded_refused in H | apply shielded_v2_refused in H] end; subst;
      exists []; split; [apply journals_refl|]; by intros ? ?%elem_of_nil);
    try (by eapply journals_in_one; [first
      [ apply set_account_journals | apply set_contract_value_journals
      | apply set_deshield_v2_window_journals | apply set_deshield_window_journals
      | apply set_oracle_price_journals | apply set_multisig_journals
      | apply set_proposal_journals | apply remove_proposal_journals
      | apply set_nft_class_journals | apply set_token_journals
      | apply set_token_balance_journals
      | apply set_token_window_journals
      | by eapply apply_shielded_bundle_journals | by eapply apply_shielded_v2_journals
      | by eapply lock_htlc_journals | by eapply settle_htlc_journals
      | by eapply set_vault_journals | by eapply mint_nft_journals
      | by eapply add_mined_emitted_journals ]|slot_in]).
  - unfold add_shielded_value in *. destruct (Bal.checked_add _ _); simplify_eq/=.
    eapply journals_in_one; [apply set_shielded_value_journals|slot_in].
  - unfold sub_shielded_value in *. destruct (Bal.checked_sub _ _); simplify_eq/=.
    eapply journals_in_one; [apply set_shielded_value_journals|slot_in].
  - unfold add_shielded_v2_value in *. destruct (Bal.checked_add _ _); simplify_eq/=.
    eapply journals_in_one; [apply set_shielded_v2_value_journals|slot_in].
  - unfold sub_shielded_v2_value in *. destruct (Bal.checked_sub _ _); simplify_eq/=.
    eapply journals_in_one; [apply set_shielded_v2_value_journals|slot_in].
  - apply remove_proposals_for_journals.
  - unfold transfer_nft in *. destruct (nfts (st l) !! (c, t)) eqn:E; simplify_eq/=.
    eapply journals_in_one; [by apply put_nft_journals|slot_in].
  - unfold set_nft_meta in *. destruct (nfts (st l) !! (c, t)) eqn:E; simplify_eq/=.
    eapply journals_in_one; [by apply put_nft_journals|slot_in].
  - eapply journals_in_one; [apply set_token_policy_journals|].
    intros op [->|(e & -> & He)%list_elem_of_fmap]%elem_of_cons; [left|right].
    apply list_elem_of_fmap. by exists e.
  - eapply journals_in_one; [apply consume_intent_journals|].
    destruct (intent_consumed l i); slot_in.
Qed.

(** A run of mutators whose slots all satisfy [U]. *)
Definition mutates_in (U : Slot → Prop) l l' : Prop := ∃ T, writes l T l' ∧ ∀ sl, sl ∈ T → U sl.

Lemma run_journals `{!UntornPools} (U : Slot → Prop) l l' : rtc (mutates_in U) l l' →
  ∃ ops, journals l l' ops ∧ ∀ op, op ∈ ops → U (op_slot op).
Proof.
  induction 1 as [l|l l1 l2 (T & Hw & HT) _ (ops & IH & Hs)].
  - exists []. split; [apply journals_refl|]. intros op Hop. inversion Hop.
  - destruct (writes_journals _ _ _ Hw) as (ops1 & Hj & Hs1). eexists.
    split; [by eapply journals_trans|]. intros op [Hop|Hop]%elem_of_app; eauto.
Qed.

(** Start recording, run any sequence of ledger mutations, take the journal and
    apply it: every field of the store is what it was, recording is off again, and
    no mutation ever leaves an entry that means "absent" (an empty account, an
    empty value, a zero balance). *)
Lemma run_undo `{!UntornPools} (l l' : Ledger) :
  canonical (st l) → rtc mutates (begin_undo l) l' →
  let '(log, l1) := take_undo l' in
  canonical (st l') ∧ st (apply_undo l1 log) = st l ∧ undo (apply_undo l1 log) = None.
Proof.
  intros C Hm. destruct (run_journals (λ _, True) (begin_undo l) l') as (ops & [Hu Hj] & _).
  { eapply rtc_subrel; [|exact Hm]. intros ? ? [T Hw]. by exists T. }
  cbn [undo begin_undo fmap option_fmap option_map] in Hu. unfold take_undo.
  destruct (Hj C) as [C' Hr]. rewrite Hu.
  change (default [] (Some ([] ++ ops))) with ops.
  destruct (apply_undo_st {| l' with undo := None |} ops) as [-> ->]. done.
Qed.
End steps.

(** Closes [writes l T l' → π (st l') = π (st l)] for a part [π] of the store that the
    mutators do not touch; the two mutators with loops are left. *)
Ltac open_write :=
  try match goal with H : _ = Some _ |- _ => revert H end;
  try match goal with H : _ = (_, _) |- _ => revert H end;
  unfold set_account, set_contract_value, apply_shielded_bundle, add_shielded_value, sub_shielded_value,
    set_shielded_value, apply_shielded_v2, add_shielded_v2_value, sub_shielded_v2_value,
    set_shielded_v2_value, set_deshield_v2_window, set_deshield_window, set_oracle_price, set_multisig,
    set_proposal, remove_proposal, set_nft_class, mint_nft, transfer_nft, set_nft_meta, put_nft, set_token,
    set_token_balance, set_token_window, consume_intent, add_mined_emitted, lock_htlc, settle_htlc, set_vault;
  repeat case_match; try (by ledger_simpl);
  repeat (match goal with |- ?m ≫= _ = _ → _ => destruct m end; [|done]; cbn [mbind option_bind]);
  try (intros [= <-]; by ledger_simpl); try (intros; simplify_eq; by ledger_simpl).
