(* ===== verification/LedgerCommit.v ===== *)
(** * The state root commits to the store (crates/state/src/ledger.rs)

    Slot encodings are separated from one another; every mutator, and every undo
    step, keeps the sparse Merkle map equal to the leaves the store determines; so
    equal stores have equal roots, and undoing a block restores the root. *)

From S2P Require Import Prelude Primitives Crypto Compliance Smt Vault Ledger LedgerUndo.

Section slots.
Context `{Env : LedgerEnv}.

Lemma acc_bytes_no_tag id x y (k : bytes) : acc_bytes id = x ++ [1] ++ y → False.
Proof.
  intros E. pose proof (acc_bytes_range id) as R. rewrite E in R.
  apply Forall_app in R as [_ R]. inversion_clear R. lia.
Qed.
Lemma acc_bytes_app_tag x y k1 k2 :
  acc_bytes x ++ [1] ++ k1 = acc_bytes y ++ [1] ++ k2 → x = y ∧ k1 = k2.
Proof.
  intros E. destruct (app_eq_inv _ _ _ _ E) as [(k & E1 & E2)|(k & E1 & E2)];
    (destruct k as [|b k]; [rewrite app_nil_r in E1; simpl in E2; split; [by apply acc_bytes_inj|by injection E2]|]);
    injection E2 as <- E2.
  - exfalso. by eapply (acc_bytes_no_tag x (acc_bytes y) k k).
  - exfalso. by eapply (acc_bytes_no_tag y (acc_bytes x) k k).
Qed.

Lemma hash_acc_inj a1 h1 a2 h2 :
  as_bytes a1 ++ acc_bytes h1 = as_bytes a2 ++ acc_bytes h2 → a1 = a2 ∧ h1 = h2.
Proof.
  intros E. apply app_inj_1 in E as [E1 E2]; [|by rewrite !length_as_bytes].
  split; [by apply as_bytes_inj|by apply acc_bytes_inj].
Qed.

(** Domain separation.  Different pieces of state (accounts, contract
    storage, counters, assets, balances, policies, windows, intents) are hashed
    from different strings, so two of them share a slot only by a collision of
    the hash function itself. *)
Theorem slot_preimage_inj (s1 s2 : Slot) : slot_preimage s1 = slot_preimage s2 → s1 = s2.
Proof.
  assert (∀ id n (r : bytes), n < 45 → acc_bytes id ≠ n :: r) as Htag.
  { intros id n r Hn E. destruct (acc_bytes_nonempty id) as (b & l & E' & Hb).
    rewrite E' in E. injection E as -> _. lia. }
  assert (∀ id n (k r : bytes), n < 45 → acc_bytes id ++ [1] ++ k ≠ n :: r) as Htag'.
  { intros id n k r Hn E. destruct (acc_bytes_nonempty id) as (b & l & E' & Hb).
    rewrite E' in E. injection E as -> _. lia. }
  destruct s1, s2; simpl; intros E;
    try (exfalso; by eapply Htag; [|exact E]);
    try (exfalso; by eapply Htag; [|symmetry; exact E]);
    try (exfalso; by eapply Htag'; [|exact E]);
    try (exfalso; by eapply Htag'; [|symmetry; exact E]);
    try (discriminate E).
  - f_equal. by apply acc_bytes_inj.
  - exfalso. by eapply (acc_bytes_no_tag id (acc_bytes id0) key key).
  - exfalso. by eapply (acc_bytes_no_tag id0 (acc_bytes id) key key).
  - apply acc_bytes_app_tag in E as [-> ->]. done.
  - by injection E as ->.
  - injection E as E. f_equal. by apply as_bytes_inj.
  - injection E as E. apply hash_acc_inj in E as [-> ->]. done.
  - injection E as E. f_equal. by apply as_bytes_inj.
  - injection E as E. apply hash_acc_inj in E as [-> ->]. done.
  - injection E as E. f_equal. by apply as_bytes_inj.
Qed.
End slots.

(** ** The leaf each slot must hold *)

Section leaves.
Context `{Env : LedgerEnv}.
Implicit Types (l : Ledger) (s : Store).

Definition counter_leaf (v : Balance) : option bytes := if v =? 0 then None else Some (to_vec v).
Definition window_leaf (w : N * Balance) : option bytes :=
  if (w.1 =? 0) && (w.2 =? 0) then None else Some (to_vec w).
Definition map_leaf {K V} `{BKey K} `{Countable K} `{Borsh (list (K * V))} (m : gmap K V) : option bytes :=
  if bool_decide (m = ∅) then None else Some (as_bytes (digest (to_vec (entries m)))).
Definition pool_leaf {St B E} `{ShieldedPool St B E} (p : St) : option bytes :=
  if pool_is_empty p then None else Some (pool_commitment p).

(** The reserved slots and their leaves. *)
Definition reserved_leaves s : list (bytes * option bytes) :=
  [ (MINED_SLOT, counter_leaf (mined_emitted s));
    (SHIELDED_SLOT, pool_leaf (shielded s));
    (SHIELDED_VALUE_SLOT, counter_leaf (shielded_value s));
    (HTLC_SLOT, map_leaf (htlcs s));
    (HTLC_LOCKED_SLOT, counter_leaf (htlc_locked s));
    (DESHIELD_WINDOW_SLOT, window_leaf (deshield_window s));
    (SHIELDED_V2_SLOT, pool_leaf (shielded_v2 s));
    (SHIELDED_V2_VALUE_SLOT, counter_leaf (shielded_v2_value s));
    (DESHIELD_V2_WINDOW_SLOT, window_leaf (deshield_v2_window s));
    (NFT_CLASSES_SLOT, map_leaf (nft_classes s));
    (NFTS_SLOT, map_leaf (nfts s));
    (MULTISIG_SLOT, map_leaf (multisig s));
    (PROPOSALS_SLOT, map_leaf (proposals s));
    (VAULTS_SLOT, map_leaf (vaults s));
    (VAULT_COLLATERAL_SLOT, counter_leaf (vault_collateral s));
    (ORACLE_PRICE_SLOT, to_vec <$> oracle_price_opt s) ].
Fixpoint assoc (name : bytes) (t : list (bytes * option bytes)) : option bytes :=
  match t with
  | [] => None
  | (n, v) :: t => if decide (name = n) then v else assoc name t
  end.
Definition leaf_of s (sl : Slot) : option bytes :=
  match sl with
  | SAccount id => to_vec <$> accounts s !! id
  | SContract c k => contract_storage s !! (c, k)
  | SReserved name => assoc name (reserved_leaves s)
  | SToken a => to_vec <$> tokens s !! a
  | STokenBalance a h => to_vec <$> token_balances s !! (a, h)
  | STokenPolicy a => to_vec <$> token_policies s !! a
  | STokenWindow a h => to_vec <$> token_windows s !! (a, h)
  | SIntent i => if decide (i ∈ consumed_intents s) then Some [1] else None
  end.

(** ** The commitment invariant

    [U] is the set of slots in use, on which the slot hash must not collide. *)
Context (U : Slot → Prop).
Definition slots_ok : Prop := ∀ x y, U x → U y → slot_hash x = slot_hash y → x = y.
Record committed l : Prop := {
  com_leaf : ∀ sl, U sl → Smt.get (commitment l) (slot_hash sl) = leaf_of (st l) sl;
  com_dom : ∀ h, is_Some (Smt.get (commitment l) h) → ∃ sl, U sl ∧ h = slot_hash sl;
  com_used : ∀ sl, is_Some (leaf_of (st l) sl) → U sl;
}.

Lemma committed_values l1 l2 :
  committed l1 → committed l2 → st l1 = st l2 →
  Smt.values (commitment l1) = Smt.values (commitment l2).
Proof.
  intros C1 C2 E.
  assert (∀ l1 l2 h v, committed l1 → committed l2 → st l1 = st l2 →
    Smt.values (commitment l1) !! h = Some v → Smt.values (commitment l2) !! h = Some v) as Hle.
  { clear. intros l1 l2 h v C1 C2 E Hv. destruct (com_dom _ C1 h) as (sl & HU & ->); [by eexists|].
    rewrite <- Hv. transitivity (leaf_of (st l2) sl); [by apply (com_leaf _ C2)|].
    rewrite <- E. symmetry. by apply (com_leaf _ C1). }
  apply map_eq. intros h. apply option_eq. intros v. split; intros; [by apply (Hle l1)|by apply (Hle l2)].
Qed.

(** Writing one leaf in step with the store. *)
Definition put (sl : Slot) (o : option bytes) l : Ledger :=
  match o with Some v => commit_insert sl v l | None => commit_remove sl l end.

Lemma get_put sl o l h :
  Smt.get (commitment (put sl o l)) h
  = if decide (h = slot_hash sl) then o else Smt.get (commitment l) h.
Proof.
  unfold Smt.get, put. destruct o as [v|]; cbn [commitment commit_insert commit_remove].
  - rewrite (Smt.step_values (commitment l) (Smt.Ins (slot_hash sl) v) : Smt.values (Smt.insert _ _ _) = _).
    cbn [Smt.mstep]. destruct (decide (h = slot_hash sl)) as [->|].
    + apply lookup_insert_eq.
    + by apply lookup_insert_ne.
  - rewrite (Smt.step_values (commitment l) (Smt.Rem (slot_hash sl)) : Smt.values (Smt.remove _ _).1 = _).
    cbn [Smt.mstep]. destruct (decide (h = slot_hash sl)) as [->|].
    + apply lookup_delete_eq.
    + by apply lookup_delete_ne.
Qed.

Lemma put_committed sl o l l' :
  slots_ok → committed l → U sl →
  commitment l' = commitment (put sl o l) →
  leaf_of (st l') sl = o →
  (∀ sl', sl' ≠ sl → leaf_of (st l') sl' = leaf_of (st l) sl') →
  committed l'.
Proof.
  intros Hok C HU Ec Ho Hoff. split.
  - intros sl' HU'. rewrite Ec, get_put. destruct (decide _) as [E|E].
    + apply Hok in E as ->; [|done|done]. by rewrite Ho.
    + rewrite (com_leaf _ C) by done. symmetry. apply Hoff. by intros ->.
  - intros h. rewrite Ec, get_put. destruct (decide (h = slot_hash sl)) as [->|]; [eauto|].
    apply (com_dom _ C).
  - intros sl' Hs. destruct (decide (sl' = sl)) as [->|Hne]; [done|]. apply (com_used _ C).
    by rewrite <- Hoff.
Qed.

Lemma committed_ext l l' : st l' = st l → commitment l' = commitment l → committed l → committed l'.
Proof. intros Es Ec C. destruct C. split; rewrite ?Es, ?Ec; done. Qed.
End leaves.

(** Commit functions as one [put]. *)
Section puts.
Context `{Env : LedgerEnv}.
Lemma commit_counter_put n v l : commit_counter n v l = put (SReserved n) (counter_leaf v) l.
Proof. unfold commit_counter, counter_leaf. by case_match. Qed.
Lemma commit_window_put n w l : commit_window n w l = put (SReserved n) (window_leaf w) l.
Proof. unfold commit_window, window_leaf. by case_match. Qed.
Lemma recommit_map_put {K V} `{BKey K} `{Countable K} `{Borsh (list (K * V))} n (m : gmap K V) l :
  recommit_map n m l = put (SReserved n) (map_leaf m) l.
Proof. unfold recommit_map, map_leaf. by case_match. Qed.
Lemma recommit_shielded_put l :
  recommit_shielded l = put (SReserved SHIELDED_SLOT) (pool_leaf (shielded (st l))) l.
Proof. unfold recommit_shielded, pool_leaf. by case_match. Qed.
Lemma recommit_shielded_v2_put l :
  recommit_shielded_v2 l = put (SReserved SHIELDED_V2_SLOT) (pool_leaf (shielded_v2 (st l))) l.
Proof. unfold recommit_shielded_v2, pool_leaf. by case_match. Qed.
Lemma recommit_oracle_put l :
  recommit_oracle l = put (SReserved ORACLE_PRICE_SLOT) (to_vec <$> oracle_price_opt (st l)) l.
Proof. unfold recommit_oracle. by case_match. Qed.
Lemma st_put sl o l : st (put sl o l) = st l.
Proof. by destruct o. Qed.
Lemma commitment_record op l : commitment (record op l) = commitment l.
Proof. unfold record. by destruct (undo l). Qed.
Lemma commitment_put_ext sl o l l' :
  commitment l = commitment l' → commitment (put sl o l) = commitment (put sl o l').
Proof. intros E. unfold put. destruct o; cbn; by rewrite E. Qed.
End puts.

(** ** Every mutator and every undo step keeps the commitment in step *)

Section sync.
Context `{Env : LedgerEnv} (U : Slot → Prop) (Hok : slots_ok U).
Implicit Types (l : Ledger) (s : Store).

Lemma reserved_names_NoDup s : NoDup (reserved_leaves s).*1.
Proof. apply (bool_decide_unpack _). by vm_compute. Qed.

Lemma assoc_in n o t : NoDup t.*1 → (n, o) ∈ t → assoc n t = o.
Proof.
  induction t as [|[n' o'] t IH]; intros Hn Hin; [inversion Hin|]. cbn [assoc].
  rewrite fmap_cons in Hn. inversion_clear Hn as [|?? Hnin Hn']. destruct (decide (n = n')) as [->|Hne].
  - apply elem_of_cons in Hin as [E|Hin]; [by injection E|]. destruct Hnin.
    apply list_elem_of_fmap. by exists (n', o).
  - apply elem_of_cons in Hin as [E|Hin]; [by injection E|]. by apply IH.
Qed.
Lemma assoc_off n name t t' :
  name ≠ n → Forall2 (λ x y, x.1 = y.1 ∧ (x.1 = n ∨ x.2 = y.2)) t t' → assoc name t' = assoc name t.
Proof.
  intros Hne. induction 1 as [|[n1 o1] [n2 o2] t t' [E1 E2] _ IH]; [done|]. cbn in *. subst n2.
  rewrite IH. destruct (decide (name = n1)) as [->|]; [|done]. destruct E2 as [-> | ->]; done.
Qed.

(** One reserved slot. *)
Lemma reserved_committed n o l l' :
  committed U l → U (SReserved n) →
  commitment l' = commitment (put (SReserved n) o l) →
  (n, o) ∈ reserved_leaves (st l') →
  Forall2 (λ x y, x.1 = y.1 ∧ (x.1 = n ∨ x.2 = y.2)) (reserved_leaves (st l)) (reserved_leaves (st l')) →
  (∀ sl, match sl with SReserved _ => True | _ => leaf_of (st l') sl = leaf_of (st l) sl end) →
  committed U l'.
Proof.
  intros C HU Ec Hin Hoff Hs. eapply (put_committed U (SReserved n) o l l'); try done.
  - cbn [leaf_of]. apply assoc_in; [apply reserved_names_NoDup|done].
  - intros sl' Hne. specialize (Hs sl'). destruct sl'; try done. cbn [leaf_of].
    apply (assoc_off n); [congruence|done].
Qed.
End sync.

#[local] Opaque MINED_SLOT SHIELDED_SLOT SHIELDED_VALUE_SLOT HTLC_SLOT HTLC_LOCKED_SLOT
  DESHIELD_WINDOW_SLOT SHIELDED_V2_SLOT SHIELDED_V2_VALUE_SLOT DESHIELD_V2_WINDOW_SLOT
  NFT_CLASSES_SLOT NFTS_SLOT MULTISIG_SLOT PROPOSALS_SLOT VAULTS_SLOT VAULT_COLLATERAL_SLOT
  ORACLE_PRICE_SLOT.
Ltac commit_simpl :=
  unfold_recommit;
  rewrite ?recommit_map_put, ?commit_counter_put, ?commit_window_put, ?recommit_shielded_put,
    ?recommit_shielded_v2_put, ?recommit_oracle_put;
  rewrite ?st_put; autorewrite with ledger.
(** Membership in, and agreement of, the reserved table. *)
Ltac in_table := unfold reserved_leaves; autorewrite with ledger; rewrite ?st_put; autorewrite with ledger; simpl;
  repeat first [ by left | right ].
Ltac off_table := unfold reserved_leaves; autorewrite with ledger; rewrite ?st_put; autorewrite with ledger; simpl;
  repeat (apply List.Forall2_cons; [split; [done|first [by right | by left]]|]); apply List.Forall2_nil.

Section sync2.
Context `{Env : LedgerEnv} (U : Slot → Prop) (Hok : slots_ok U).
Implicit Types (l : Ledger) (s : Store).

Lemma record_committed op l : committed U l → committed U (record op l).
Proof. apply committed_ext; [apply st_record|apply commitment_record]. Qed.

(** A change of the store followed by rewriting one reserved slot. *)
Lemma upd_reserved_committed n o f l :
  committed U l → U (SReserved n) →
  (n, o) ∈ reserved_leaves (f (st l)) →
  Forall2 (λ x y, x.1 = y.1 ∧ (x.1 = n ∨ x.2 = y.2)) (reserved_leaves (st l)) (reserved_leaves (f (st l))) →
  (∀ sl, match sl with SReserved _ => True | _ => leaf_of (f (st l)) sl = leaf_of (st l) sl end) →
  committed U (put (SReserved n) o (upd f l)).
Proof.
  intros. eapply (reserved_committed U Hok n o l); rewrite ?st_put; autorewrite with ledger; try done.
  by apply commitment_put_ext.
Qed.

(** A change of the store and of one other slot, as the mutators write them. *)
Lemma insert_committed sl v f l :
  committed U l → U sl → leaf_of (f (st l)) sl = Some v →
  (∀ sl', sl' ≠ sl → leaf_of (f (st l)) sl' = leaf_of (st l) sl') →
  committed U (upd f (commit_insert sl v l)).
Proof. intros C HU Ho Hoff. by eapply (put_committed U sl (Some v) l _ Hok). Qed.
Lemma remove_committed sl f l :
  committed U l → U sl → leaf_of (f (st l)) sl = None →
  (∀ sl', sl' ≠ sl → leaf_of (f (st l)) sl' = leaf_of (st l) sl') →
  committed U (commit_remove sl (upd f l)).
Proof. intros C HU Ho Hoff. by eapply (put_committed U sl None l _ Hok). Qed.
End sync2.

Ltac reserved_step :=
  apply upd_reserved_committed; [done| |done| | |];
  [ try done; by apply record_committed | in_table | off_table | by intros [] ].
(** Other slots are untouched by a change of one map entry. *)
Ltac slot_off :=
  let sl := fresh "sl" in let Hne := fresh "Hne" in
  intros sl Hne; destruct sl; cbn [leaf_of]; try reflexivity;
  simpl; first [rewrite lookup_insert_ne | rewrite lookup_delete_ne]; [reflexivity|]; intros ?; by simplify_eq.

Ltac slot_step :=
  repeat match goal with |- committed _ (match ?o with _ => _ end) => destruct o eqn:? end;
  (first [apply insert_committed | apply remove_committed]; autorewrite with ledger; try done;
   try (by apply record_committed);
   [ cbn [leaf_of]; simpl; by rewrite ?lookup_insert_eq, ?lookup_delete_eq | slot_off ]).

Section sync3.
Context `{Env : LedgerEnv} (U : Slot → Prop) (Hok : slots_ok U).
Implicit Types (l : Ledger) (s : Store).

Lemma undo_one_committed l op : committed U l → U (op_slot op) → committed U (undo_one l op).
Proof.
  intros C HU. destruct op; cbn [op_slot] in HU; cbn [undo_one].
  all: try (commit_simpl; reserved_step).
  all: try (by slot_step).
  apply remove_committed; [done..| |].
  - cbn [leaf_of]; simpl. rewrite decide_False by set_solver. done.
  - intros sl' Hne. destruct sl'; cbn [leaf_of]; try reflexivity. simpl.
    apply decide_ext. set_solver.
Qed.

Lemma apply_undo_committed l log :
  committed U l → (∀ op, op ∈ log → U (op_slot op)) → committed U (apply_undo l log).
Proof.
  intros C HU. unfold apply_undo.
  eapply (committed_ext U (foldl undo_one {| l with undo := None |} (reverse log))); [done|done|].
  assert (∀ op, op ∈ reverse log → U (op_slot op)) as HU' by (intros op Hop; apply HU; by apply elem_of_reverse).
  revert HU'. generalize (reverse log) as ops. intros ops.
  assert (committed U {| l with undo := None |}) as C0 by (by eapply committed_ext; [| |exact C]).
  revert C0. generalize {| l with undo := None |} as l0. clear C.
  induction ops as [|op ops IH]; intros l0 C0 HU'; cbn [foldl]; [done|].
  apply IH; [apply undo_one_committed; [done|apply HU'; left]|intros; apply HU'; by right].
Qed.
End sync3.

Section sync4.
Context `{Env : LedgerEnv} (U : Slot → Prop) (Hok : slots_ok U).
Implicit Types (l : Ledger) (s : Store).

Lemma consume_intent_committed l i : committed U l → U (SIntent i) → committed U (consume_intent l i).
Proof.
  intros C HU. unfold consume_intent.
  set (l0 := if intent_consumed l i then l else record (UIntent i) l).
  assert (committed U l0) as C0 by (unfold l0; case_match; [done|by apply record_committed]).
  apply insert_committed; [done..| |].
  - cbn [leaf_of]; simpl. by rewrite decide_True by set_solver.
  - intros sl' Hne. destruct sl'; cbn [leaf_of]; try reflexivity. simpl. apply decide_ext. set_solver.
Qed.

Lemma drop_proposals_ext ids : ∀ l,
  commitment (foldl drop_proposal l ids) = commitment l ∧
  ∃ m, st (foldl drop_proposal l ids) = {| (st l) with proposals := m |}.
Proof.
  induction ids as [|i ids IH]; intros l; cbn [foldl].
  - split; [done|]. exists (proposals (st l)). by destruct (st l).
  - destruct (IH (drop_proposal l i)) as [-> [m ->]]. unfold drop_proposal. cbn [commitment upd].
    rewrite commitment_record. split; [done|]. exists m. simpl. by rewrite st_record.
Qed.
Lemma remove_proposals_for_committed l a :
  committed U l → U (SReserved PROPOSALS_SLOT) → committed U (remove_proposals_for l a).2.
Proof.
  intros C HU. unfold remove_proposals_for. set (ids := fst <$> _).
  destruct (bool_decide (ids = [])); cbn [snd]; [done|].
  destruct (drop_proposals_ext ids l) as [Ec [m Es]]. commit_simpl.
  eapply (reserved_committed U Hok PROPOSALS_SLOT); [exact C|exact HU|by apply commitment_put_ext| | |];
    rewrite ?st_put, Es; [in_table|off_table|by intros []].
Qed.

Lemma clear_windows_committed ks : ∀ l,
  committed U l → (∀ k, k ∈ ks → U (STokenWindow k.1 k.2)) → committed U (foldl clear_window l ks).
Proof.
  induction ks as [|[a h] ks IH]; intros l C HU; cbn [foldl]; [done|].
  apply IH; [|intros; apply HU; by right]. unfold clear_window. cbn [fst snd].
  eapply (put_committed U (STokenWindow a h) None l _ Hok C); [apply (HU (a, h)); left|done|..].
  - cbn [leaf_of]; simpl. by rewrite lookup_delete_eq.
  - slot_off.
Qed.
Lemma set_token_policy_committed l a p :
  committed U l → U (STokenPolicy a) →
  (∀ e, e ∈ windows_of (st l) a → U (STokenWindow e.1.1 e.1.2)) →
  committed U (set_token_policy l a p).
Proof.
  intros C HU HW. unfold set_token_policy. set (es := windows_of (st l) a) in *.
  set (l0 := record _ l). set (l1 := foldl _ l0 es).
  assert (committed U l1 ∧ st l1 = st l) as [C1 E1].
  { destruct (record_windows es l0) as [Es _]. fold l1 in Es. split; [|rewrite Es; apply st_record].
    eapply committed_ext; [rewrite Es; apply st_record| |exact C].
    unfold l1. assert (∀ es l, commitment (foldl (λ l e,
      record (UTokenWindow e.1.1 e.1.2 (Some e.2)) l) l es) = commitment l) as Hc.
    { clear. induction es as [|e es IH]; intros l; cbn [foldl]; [done|].
      by rewrite IH, commitment_record. }
    rewrite Hc. apply commitment_record. }
  set (l2 := upd _ _). assert (committed U l2) as C2.
  { apply insert_committed; [done..| |].
    - cbn [leaf_of]; simpl. by rewrite lookup_insert_eq.
    - slot_off. }
  assert (windows_of (st l2) a = es) as Ew
    by (unfold l2; autorewrite with ledger; by rewrite E1).
  rewrite Ew. apply clear_windows_committed; [done|].
  intros k (e & -> & He)%list_elem_of_fmap. by apply HW.
Qed.

(** The single-slot mutators. *)
Lemma set_account_committed l id a : committed U l → U (SAccount id) → committed U (set_account l id a).
Proof. intros. unfold set_account. slot_step. Qed.
Lemma set_contract_value_committed l c k v :
  committed U l → U (SContract c k) → committed U (set_contract_value l c k v).
Proof. intros. unfold set_contract_value. slot_step. Qed.
Lemma set_token_committed l a t : committed U l → U (SToken a) → committed U (set_token l a t).
Proof. intros. unfold set_token. slot_step. Qed.
Lemma set_token_balance_committed l a h b :
  committed U l → U (STokenBalance a h) → committed U (set_token_balance l a h b).
Proof. intros. unfold set_token_balance. slot_step. Qed.
Lemma set_token_window_committed l a h w :
  committed U l → U (STokenWindow a h) → committed U (set_token_window l a h w).
Proof. intros. unfold set_token_window. slot_step. Qed.

(** The reserved-slot mutators. *)
Lemma apply_shielded_bundle_committed l b l' :
  committed U l → U (SReserved SHIELDED_SLOT) → apply_shielded_bundle l b = (l', Ok ()) → committed U l'.
Proof.
  unfold apply_shielded_bundle. destruct (pool_apply _ _) as [p []]; intros ? ? [= <-].
  commit_simpl. reserved_step.
Qed.
Lemma apply_shielded_v2_committed l ns cs l' :
  committed U l → U (SReserved SHIELDED_V2_SLOT) → apply_shielded_v2 l ns cs = (l', Ok ()) → committed U l'.
Proof.
  unfold apply_shielded_v2. destruct (pool_apply _ _) as [p []]; intros ? ? [= <-].
  commit_simpl. reserved_step.
Qed.
Lemma set_shielded_value_committed v l :
  committed U l → U (SReserved SHIELDED_VALUE_SLOT) → committed U (set_shielded_value v l).
Proof. intros. unfold set_shielded_value. commit_simpl. reserved_step. Qed.
Lemma set_shielded_v2_value_committed v l :
  committed U l → U (SReserved SHIELDED_V2_VALUE_SLOT) → committed U (set_shielded_v2_value v l).
Proof. intros. unfold set_shielded_v2_value. commit_simpl. reserved_step. Qed.
Lemma set_deshield_window_committed l a b :
  committed U l → U (SReserved DESHIELD_WINDOW_SLOT) → committed U (set_deshield_window l a b).
Proof. intros. unfold set_deshield_window. commit_simpl. reserved_step. Qed.
Lemma set_deshield_v2_window_committed l a b :
  committed U l → U (SReserved DESHIELD_V2_WINDOW_SLOT) → committed U (set_deshield_v2_window l a b).
Proof. intros. unfold set_deshield_v2_window. commit_simpl. reserved_step. Qed.
Lemma set_oracle_price_committed l p :
  committed U l → U (SReserved ORACLE_PRICE_SLOT) → committed U (set_oracle_price l p).
Proof. intros. unfold set_oracle_price. commit_simpl. reserved_step. Qed.
Lemma set_multisig_committed l a p :
  committed U l → U (SReserved MULTISIG_SLOT) → committed U (set_multisig l a p).
Proof. intros. unfold set_multisig. commit_simpl. reserved_step. Qed.
Lemma set_proposal_committed l i p :
  committed U l → U (SReserved PROPOSALS_SLOT) → committed U (set_proposal l i p).
Proof. intros. unfold set_proposal. commit_simpl. reserved_step. Qed.
Lemma remove_proposal_committed l i :
  committed U l → U (SReserved PROPOSALS_SLOT) → committed U (remove_proposal l i).
Proof. intros. unfold remove_proposal. commit_simpl. reserved_step. Qed.
Lemma set_nft_class_committed l i c :
  committed U l → U (SReserved NFT_CLASSES_SLOT) → committed U (set_nft_class l i c).
Proof. intros. unfold set_nft_class. commit_simpl. reserved_step. Qed.
Lemma mint_nft_committed l c t o m h l' :
  committed U l → U (SReserved NFTS_SLOT) → mint_nft l c t o m h = Some l' → committed U l'.
Proof.
  unfold mint_nft. intros. destruct (nfts (st l) !! _); simplify_eq. commit_simpl. reserved_step.
Qed.
Lemma put_nft_committed l c t p t' :
  committed U l → U (SReserved NFTS_SLOT) → committed U (put_nft l c t p t').
Proof. intros. unfold put_nft. commit_simpl. reserved_step. Qed.
Lemma add_mined_emitted_committed l a l' :
  committed U l → U (SReserved MINED_SLOT) → add_mined_emitted l a = Some l' → committed U l'.
Proof.
  unfold add_mined_emitted. intros. destruct (Bal.checked_add _ _); simplify_eq/=.
  commit_simpl. reserved_step.
Qed.

(** The two-slot mutators. *)
Ltac reserved_more := apply upd_reserved_committed; [done| |done|in_table|off_table|by intros []].
(** First the inner write, then the outer one over an arbitrary ledger. *)
Ltac inner_first :=
  match goal with
  | |- committed U (?recommit (upd ?f ?inner)) =>
      cut (committed U inner);
      [ generalize inner; intros l1 C1; commit_simpl; reserved_more; done
      | commit_simpl; reserved_more; by apply record_committed, record_committed ]
  end.
Lemma lock_htlc_committed l id h l' :
  committed U l → U (SReserved HTLC_LOCKED_SLOT) → U (SReserved HTLC_SLOT) →
  lock_htlc l id h = Some l' → committed U l'.
Proof.
  unfold lock_htlc. intros C H1 H2 E. destruct (htlcs (st l) !! id); [done|].
  destruct (Bal.checked_add _ _) as [n|]; [|done]. injection E as <-. inner_first.
Qed.
Lemma set_vault_committed l o v l' :
  committed U l → U (SReserved VAULT_COLLATERAL_SLOT) → U (SReserved VAULTS_SLOT) →
  set_vault l o v = Some l' → committed U l'.
Proof.
  unfold set_vault. intros C H1 H2 E. destruct (Bal.checked_sub _ _) as [t|]; [|done]. cbn in E.
  destruct (Bal.checked_add _ _) as [n|]; [|done]. injection E as <-. inner_first.
Qed.
Lemma settle_htlc_committed l id h l' :
  committed U l → U (SReserved HTLC_LOCKED_SLOT) → U (SReserved HTLC_SLOT) →
  settle_htlc l id = Some (h, l') → committed U l'.
Proof.
  unfold settle_htlc. intros C H1 H2 E. destruct (htlcs (st l) !! id) as [h0|]; [|done]. cbn in E.
  set (n := default 0 _) in E. injection E as _ <-.
  (* the same two writes with the counter first *)
  set (l1 := commit_counter HTLC_LOCKED_SLOT n (upd (λ s, {| s with htlc_locked := n |}) l)).
  assert (committed U l1) as C1 by (unfold l1; commit_simpl; reserved_more; done).
  set (l2 := recommit_htlcs (upd (λ s, {| s with htlcs := delete id (htlcs s) |}) l1)).
  assert (committed U l2) as C2
    by (unfold l2; clearbody l1; commit_simpl; reserved_more; done).
  eapply committed_ext; [| |exact C2].
  - unfold l2, l1. by ledger_simpl.
  - unfold l2, l1, recommit_htlcs. autorewrite with ledger. rewrite !recommit_map_put, !commit_counter_put.
    simpl. apply commitment_put_ext. cbn [commitment upd]. apply commitment_put_ext. cbn [commitment upd].
    by rewrite !commitment_record.
Qed.

Lemma writes_committed `{!UntornPools} l T l' :
  committed U l → writes l T l' → (∀ sl, sl ∈ T → U sl) → committed U l'.
Proof.
  intros C Hw HU. assert (∀ sl T', T = sl :: T' → U sl) as H1 by (intros sl T' ->; apply HU; left).
  assert (∀ sl sl' T', T = sl :: sl' :: T' → U sl') as H2 by (intros sl sl' T' ->; apply HU; right; left).
  destruct Hw.
  - eapply set_account_committed; eauto.
  - eapply set_contract_value_committed; eauto.
  - destruct r as [[]|]; [eapply apply_shielded_bundle_committed; eauto|].
    by erewrite shielded_refused.
  - unfold add_shielded_value in *. destruct (Bal.checked_add _ _); simplify_eq/=.
    eapply set_shielded_value_committed; eauto.
  - unfold sub_shielded_value in *. destruct (Bal.checked_sub _ _); simplify_eq/=.
    eapply set_shielded_value_committed; eauto.
  - destruct r as [[]|]; [eapply apply_shielded_v2_committed; eauto|].
    by erewrite shielded_v2_refused.
  - unfold add_shielded_v2_value in *. destruct (Bal.checked_add _ _); simplify_eq/=.
    eapply set_shielded_v2_value_committed; eauto.
  - unfold sub_shielded_v2_value in *. destruct (Bal.checked_sub _ _); simplify_eq/=.
    eapply set_shielded_v2_value_committed; eauto.
  - eapply set_deshield_v2_window_committed; eauto.
  - eapply set_deshield_window_committed; eauto.
  - eapply lock_htlc_committed; eauto.
  - eapply settle_htlc_committed; eauto.
  - eapply set_oracle_price_committed; eauto.
  - eapply set_vault_committed; eauto.
  - eapply set_multisig_committed; eauto.
  - eapply set_proposal_committed; eauto.
  - eapply remove_proposal_committed; eauto.
  - eapply remove_proposals_for_committed; eauto.
  - eapply set_nft_class_committed; eauto.
  - eapply mint_nft_committed; eauto.
  - unfold transfer_nft in *. destruct (nfts (st l) !! _); simplify_eq/=. eapply put_nft_committed; eauto.
  - unfold set_nft_meta in *. destruct (nfts (st l) !! _); simplify_eq/=. eapply put_nft_committed; eauto.
  - eapply set_token_committed; eauto.
  - eapply set_token_balance_committed; eauto.
  - apply set_token_policy_committed; [done|by eauto|]. intros e He. apply HU. right.
    apply list_elem_of_fmap. by exists e.
  - eapply set_token_window_committed; eauto.
  - eapply consume_intent_committed; eauto.
  - eapply add_mined_emitted_committed; eauto.
Qed.
End sync4.

(** ** What the state root means *)

(** What the ledger relies on: a pristine pool counts as empty. *)
Class PoolLaws `{Env : LedgerEnv} := {
  pool1_default_empty : pool_is_empty (pool_default : ShieldedState) = true;
  pool2_default_empty : pool_is_empty (pool_default : ShieldedV2State) = true;
}.

Section root.
Context `{Env : LedgerEnv} `{UP : !UntornPools}.
Implicit Types (l : Ledger) (U : Slot → Prop).

(** A tree built by a history whose hashes do not collide. *)
Definition sound_tree (t : Smt.SparseMerkleTree) : Prop := ∃ T, Smt.inv T t ∧ no_break T.

Lemma leaf_of_new `{!PoolLaws} sl : leaf_of (st new) sl = None.
Proof.
  destruct sl as [| |name| | | | |]; try reflexivity. cbn [leaf_of].
  unfold reserved_leaves, pool_leaf. simpl st. cbn [shielded shielded_v2].
  rewrite pool1_default_empty, pool2_default_empty. simpl. by repeat case_decide.
Qed.
Lemma new_committed `{!PoolLaws} U : committed U new.
Proof.
  split.
  - intros sl _. rewrite leaf_of_new. unfold Smt.get, new. cbn [commitment]. apply lookup_empty.
  - intros h. unfold Smt.get, new. cbn [commitment]. intros [v Hv].
    rewrite (lookup_empty h : Smt.values Smt.new !! h = None) in Hv. done.
  - intros sl. rewrite leaf_of_new. by intros [? ?].
Qed.
Lemma new_canonical : canonical (st new).
Proof. split; simpl; intros ? ? Hl; by rewrite lookup_empty in Hl. Qed.

Lemma run_committed U l l' :
  slots_ok U → committed U l → rtc (mutates_in U) l l' → committed U l'.
Proof.
  intros Hok C. induction 1 as [|l l1 l2 (T & Hw & HT) _ IH]; [done|]. apply IH.
  by eapply writes_committed.
Qed.

(** C32: the commitment is in step with the state, over pools that leave nothing
    behind when they refuse a bundle (pool v1 while its note tree is not full).
    However the ledger is built up from empty by its mutators, writing slots no two of
    which have the same hash, the committed map holds for every slot in use exactly
    the leaf that the logical state determines, and nothing else; so two ledgers with
    the same state have the same committed map and, as long as no hash collided while
    their trees were built, the same state root, whatever their histories. *)
Theorem commitment_in_step `{!PoolLaws} (U : Slot → Prop) (l1 l2 : Ledger) :
  slots_ok U → rtc (mutates_in U) new l1 → rtc (mutates_in U) new l2 →
  (∀ sl, U sl → Smt.get (commitment l1) (slot_hash sl) = leaf_of (st l1) sl) ∧
  (st l1 = st l2 →
   Smt.values (commitment l1) = Smt.values (commitment l2) ∧
   (sound_tree (commitment l1) → sound_tree (commitment l2) → state_root l1 = state_root l2)).
Proof.
  intros Hok R1 R2.
  pose proof (run_committed U _ _ Hok (new_committed U) R1) as C1.
  pose proof (run_committed U _ _ Hok (new_committed U) R2) as C2.
  split; [apply (com_leaf _ _ C1)|]. intros E.
  pose proof (committed_values U l1 l2 C1 C2 E) as Ev. split; [done|].
  intros (T1 & I1 & _) (T2 & I2 & _). unfold state_root.
  by rewrite (Smt.inv_root _ _ I1), (Smt.inv_root _ _ I2), Ev.
Qed.

(** Undoing a block restores the state root.  After recording, mutating and
    applying the journal, the committed map is exactly what it was before the
    block, and so is the root (as long as no hash collided while the tree was
    built). *)
Theorem undo_restores_root (U : Slot → Prop) (l l' : Ledger) :
  slots_ok U → committed U l → canonical (st l) → rtc (mutates_in U) (begin_undo l) l' →
  let '(log, l1) := take_undo l' in
  let l2 := apply_undo l1 log in
  Smt.values (commitment l2) = Smt.values (commitment l) ∧
  (sound_tree (commitment l) → sound_tree (commitment l2) → state_root l2 = state_root l).
Proof.
  intros Hok C Can R.
  assert (committed U (begin_undo l)) as C0 by (by eapply committed_ext; [| |exact C]).
  pose proof (run_committed U _ _ Hok C0 R) as C'.
  destruct (run_journals U _ _ R) as (ops & [Hu Hj] & Hs).
  cbn [undo begin_undo fmap option_fmap option_map] in Hu. unfold take_undo. rewrite Hu.
  change (default [] (Some ([] ++ ops))) with ops. cbv zeta.
  set (l1 := {| l' with undo := None |}). destruct (Hj Can) as [_ Hr].
  assert (committed U l1) as C1 by (by eapply committed_ext; [| |exact C']).
  pose proof (apply_undo_committed U Hok l1 ops C1 Hs) as C2.
  assert (st (apply_undo l1 ops) = st l) as Es by (rewrite (proj1 (apply_undo_st l1 ops)); exact Hr).
  pose proof (committed_values U _ l C2 C Es) as Ev. split; [done|].
  intros (T1 & I1 & _) (T2 & I2 & _). unfold state_root.
  by rewrite (Smt.inv_root _ _ I1), (Smt.inv_root _ _ I2), Ev.
Qed.
End root.

(** ** A concrete ledger *)
Module Ledger_examples.
Import Crypto.Toy.
Instance unit_pool {B} : ShieldedPool unit B unit := {|
  pool_default := tt; pool_apply := λ _ _, (tt, Ok ()); pool_is_empty := λ _, true; pool_commitment := λ _, [] |}.
Instance unit_untorn {B} : Untorn (unit_pool (B := B)).
Proof. by intros [] b [] e. Qed.
Instance env : LedgerEnv := {|
  env_blake3 := blake3; env_pool1 := unit_pool (B := unit); PqDigest := unit; env_pool2 := unit_pool;
  env_account := λ a, [nonce a; balance a; locked a]; env_balance := λ b, [b];
  env_token := λ t, acc_bytes (t_issuer t) ++ [issued t; burned t];
  env_policy := λ p, [if frozen p then 1 else 0]; env_window := λ w, [window_start w; spent w];
  env_counter_pair := λ p, [p.1; p.2]; env_htlcs := λ es, es ≫= λ e, as_bytes e.1 ++ [amount e.2];
  env_classes := λ es, es ≫= λ e, as_bytes e.1; env_nfts := λ es, es ≫= λ e, as_bytes e.1.1 ++ e.1.2;
  env_multisig := λ es, es ≫= λ e, acc_bytes e.1; env_proposals := λ es, es ≫= λ e, as_bytes e.1;
  env_vaults := λ es, es ≫= λ e, acc_bytes e.1 |}.
Instance laws : PoolLaws. Proof. by split. Qed.
Instance untorn : UntornPools. Proof. split; apply unit_untorn. Qed.

Definition alice : AccountId := mkAccountId "alice.sov" eq_refl.
Definition bob : AccountId := mkAccountId "bob.sov" eq_refl.
Definition used (sl : Slot) : Prop := sl = SAccount alice ∨ sl = SReserved MINED_SLOT.
Lemma used_ok : slots_ok used.
Proof. intros x y [-> | ->] [-> | ->] E; try done; by vm_compute in E. Qed.

Definition l1 : Ledger := set_account new alice (Acct.with_balance 70).
Definition l2 : Ledger := set_account (set_account new alice (Acct.with_balance 5)) alice (Acct.with_balance 70).
Definition after (l : Ledger) : Ledger := set_account l alice (Acct.with_balance 9).

Lemma step_used l a : mutates_in used l (set_account l alice a).
Proof. exists [SAccount alice]. split; [constructor|]. intros sl ->%list_elem_of_singleton. by left. Qed.
Lemma l1_run : rtc (mutates_in used) new l1.
Proof. eapply rtc_once, step_used. Qed.
Lemma l2_run : rtc (mutates_in used) new l2.
Proof. eapply rtc_l; [apply step_used|]. eapply rtc_once, step_used. Qed.
Lemma after_run l : rtc (mutates_in used) (begin_undo l) (after (begin_undo l)).
Proof. eapply rtc_once, step_used. Qed.

Lemma slot_preimage_inj_witness : SAccount alice = SAccount alice.
Proof. exact (slot_preimage_inj (SAccount alice) (SAccount alice) eq_refl). Defined.
Lemma commitment_in_step_witness : Smt.values (commitment l1) = Smt.values (commitment l2).
Proof.
  refine (proj1 (proj2 (commitment_in_step used l1 l2 used_ok l1_run l2_run) _)).
  assert (∀ l n, st (set_account l alice (Acct.with_balance (N.pos n)))
    = {| (st l) with accounts := <[alice := Acct.with_balance (N.pos n)]> (accounts (st l)) |}) as E.
  { intros l n. unfold set_account. change (Acct.is_empty (Acct.with_balance (N.pos n))) with false.
    cbv iota. by autorewrite with ledger. }
  unfold l1, l2. rewrite !E. cbn [accounts]. by rewrite insert_insert_eq.
Defined.
Lemma undo_restores_root_witness : Smt.values (commitment (apply_undo (take_undo (after (begin_undo new))).2
  (take_undo (after (begin_undo new))).1)) = Smt.values (commitment new).
Proof.
  exact (proj1 (undo_restores_root used new (after (begin_undo new)) used_ok (new_committed used)
    new_canonical (after_run new))).
Defined.
End Ledger_examples.
