(* ===== verification/ExecSteps.v ===== *)
(** * Every run of a transaction is a sequence of ledger mutations
    (crates/runtime/src/execution.rs over crates/state/src/ledger.rs)

    Whatever a transaction does, and however it ends, it changes the ledger only
    through its mutators; so what holds of sequences of mutations (exact undo, a
    commitment in step, backed escrow) holds of transactions and blocks. *)

From S2P Require Import Prelude Primitives Mining Crypto Compliance Types Gas Smt Vault Ledger.
From S2P Require Import ShieldedV2 Execution LedgerUndo LedgerCommit.

Create HintDb steps.

(** Symbolic execution of [M] programs: unfold the monad, split every branch. *)
Ltac exec_unfold :=
  cbv beta delta [M_ret M_bind mret mbind get throw lift or_throw or_panic put_ledger put_signer
    put_balance put_fee put_output put_gas done_ fail] in *.
Ltac exec_norm := cbn beta iota in *;
  cbn [fst snd ledger signer gas_used fee_paid return_data events] in *.
Ltac exec_cases :=
  repeat (exec_norm; first
    [ progress simplify_eq
    | match goal with
      | H : ok_or _ _ = Ok _ |- _ => apply ok_or_Ok in H
      | H : map_err _ _ = Ok _ |- _ => apply map_err_Ok in H
      end
    | case_match ]);
  exec_norm.

(** No emission slot among the written ones. *)
Ltac no_mined := repeat (apply List.Forall_cons || apply List.Forall_nil);
  let H := fresh in intros H; first [discriminate H
  | apply (f_equal (λ s, match s with SReserved n => n | _ => [] end)) in H; vm_compute in H; discriminate H].

Section steps.
Context `{XE : ExecEnv}.
Implicit Types (l : Ledger) (s : Locals).

(** A transaction never writes the emission counter. *)
Definition not_mined (sl : Slot) : Prop := sl ≠ SReserved MINED_SLOT.
Definition steps l l' : Prop := rtc (mutates_in not_mined) l l'.

Lemma steps_mutates l l' : steps l l' → rtc mutates l l'.
Proof. apply rtc_subrel. intros ? ? (T & Hw & _). by exists T. Qed.

Lemma steps_refl l : steps l l.
Proof. apply rtc_refl. Qed.
Lemma steps_trans l1 l2 l3 : steps l1 l2 → steps l2 l3 → steps l1 l3.
Proof. apply rtc_trans. Qed.
Lemma steps_one l l1 T l2 : steps l l1 → writes l1 T l2 → Forall not_mined T → steps l l2.
Proof. intros H Hw HT. eapply rtc_r; [exact H|]. exists T. by rewrite <- Forall_forall. Qed.
Lemma steps_fold {A} (f : Ledger → A → Ledger) (xs : list A) l l1 :
  (∀ l x, steps l (f l x)) → steps l l1 → steps l (foldl f l1 xs).
Proof.
  intros Hf. revert l1. induction xs as [|x xs IH]; intros l1 H; [done|]. cbn [foldl].
  apply IH. eapply steps_trans; [exact H|apply Hf].
Qed.

Lemma steps_account l l1 id a : steps l l1 → steps l (set_account l1 id a).
Proof. intros H. eapply steps_one; [exact H|constructor|no_mined]. Qed.
Lemma steps_contract l l1 c k v : steps l l1 → steps l (set_contract_value l1 c k v).
Proof. intros H. eapply steps_one; [exact H|constructor|no_mined]. Qed.
Lemma steps_token l l1 a t : steps l l1 → steps l (set_token l1 a t).
Proof. intros H. eapply steps_one; [exact H|constructor|no_mined]. Qed.
Lemma steps_token_balance l l1 a h b : steps l l1 → steps l (set_token_balance l1 a h b).
Proof. intros H. eapply steps_one; [exact H|constructor|no_mined]. Qed.
Lemma steps_token_policy l l1 a p : steps l l1 → steps l (set_token_policy l1 a p).
Proof.
  intros H. eapply steps_one; [exact H|constructor|]. constructor; [done|].
  apply Forall_fmap, Forall_true. done.
Qed.
Lemma steps_token_window l l1 a h w : steps l l1 → steps l (set_token_window l1 a h w).
Proof. intros H. eapply steps_one; [exact H|constructor|no_mined]. Qed.
Lemma steps_intent l l1 i : steps l l1 → steps l (consume_intent l1 i).
Proof. intros H. eapply steps_one; [exact H|constructor|no_mined]. Qed.
Lemma steps_class l l1 i c : steps l l1 → steps l (set_nft_class l1 i c).
Proof. intros H. eapply steps_one; [exact H|constructor|no_mined]. Qed.
Lemma steps_multisig l l1 a p : steps l l1 → steps l (set_multisig l1 a p).
Proof. intros H. eapply steps_one; [exact H|constructor|no_mined]. Qed.
Lemma steps_proposal l l1 i p : steps l l1 → steps l (set_proposal l1 i p).
Proof. intros H. eapply steps_one; [exact H|constructor|no_mined]. Qed.
Lemma steps_unpropose l l1 i : steps l l1 → steps l (remove_proposal l1 i).
Proof. intros H. eapply steps_one; [exact H|constructor|no_mined]. Qed.
Lemma steps_unpropose_all l l1 a : steps l l1 → steps l (remove_proposals_for l1 a).2.
Proof. intros H. eapply steps_one; [exact H|constructor|no_mined]. Qed.
Lemma steps_oracle l l1 p : steps l l1 → steps l (set_oracle_price l1 p).
Proof. intros H. eapply steps_one; [exact H|constructor|no_mined]. Qed.
Lemma steps_window l l1 a b : steps l l1 → steps l (set_deshield_window l1 a b).
Proof. intros H. eapply steps_one; [exact H|constructor|no_mined]. Qed.
Lemma steps_window_v2 l l1 a b : steps l l1 → steps l (set_deshield_v2_window l1 a b).
Proof. intros H. eapply steps_one; [exact H|constructor|no_mined]. Qed.
Lemma steps_shield l l1 b l2 r : steps l l1 → apply_shielded_bundle l1 b = (l2, r) → steps l l2.
Proof. intros H E. eapply steps_one; [exact H|by eapply m_shield|no_mined]. Qed.
Lemma steps_shield_add l l1 a l2 : steps l l1 → add_shielded_value l1 a = Some l2 → steps l l2.
Proof. intros H E. eapply steps_one; [exact H|by eapply m_shield_add|no_mined]. Qed.
Lemma steps_shield_sub l l1 a l2 : steps l l1 → sub_shielded_value l1 a = Some l2 → steps l l2.
Proof. intros H E. eapply steps_one; [exact H|by eapply m_shield_sub|no_mined]. Qed.
Lemma steps_shield_v2 l l1 ns cs l2 r : steps l l1 → apply_shielded_v2 l1 ns cs = (l2, r) → steps l l2.
Proof. intros H E. eapply steps_one; [exact H|by eapply m_shield_v2|no_mined]. Qed.
Lemma steps_shield_v2_add l l1 a l2 : steps l l1 → add_shielded_v2_value l1 a = Some l2 → steps l l2.
Proof. intros H E. eapply steps_one; [exact H|by eapply m_shield_v2_add|no_mined]. Qed.
Lemma steps_shield_v2_sub l l1 a l2 : steps l l1 → sub_shielded_v2_value l1 a = Some l2 → steps l l2.
Proof. intros H E. eapply steps_one; [exact H|by eapply m_shield_v2_sub|no_mined]. Qed.
Lemma steps_lock l l1 id h l2 : steps l l1 → lock_htlc l1 id h = Some l2 → steps l l2.
Proof. intros H E. eapply steps_one; [exact H|by eapply m_lock|no_mined]. Qed.
Lemma steps_settle l l1 id h l2 : steps l l1 → settle_htlc l1 id = Some (h, l2) → steps l l2.
Proof. intros H E. eapply steps_one; [exact H|by eapply m_settle|no_mined]. Qed.
Lemma steps_vault l l1 o v l2 : steps l l1 → set_vault l1 o v = Some l2 → steps l l2.
Proof. intros H E. eapply steps_one; [exact H|by eapply m_vault|no_mined]. Qed.
Lemma steps_mint l l1 c t o m h l2 : steps l l1 → mint_nft l1 c t o m h = Some l2 → steps l l2.
Proof. intros H E. eapply steps_one; [exact H|by eapply m_mint|no_mined]. Qed.
Lemma steps_default l l1 o : steps l l1 → (∀ l2, o = Some l2 → steps l l2) → steps l (default l1 o).
Proof. destruct o; simpl; auto. Qed.
Lemma steps_nft_transfer l l1 c t o : steps l l1 → steps l (default l1 (transfer_nft l1 c t o)).
Proof. intros H. apply steps_default; [done|]. intros l2 E. eapply steps_one; [exact H|by eapply m_nft_transfer|no_mined]. Qed.
Lemma steps_nft_meta l l1 c t m : steps l l1 → steps l (default l1 (set_nft_meta l1 c t m)).
Proof. intros H. apply steps_default; [done|]. intros l2 E. eapply steps_one; [exact H|by eapply m_nft_meta|no_mined]. Qed.
Lemma steps_register l l1 n o h : steps l l1 → steps l (default l1 (register_name l1 n o h)).
Proof. intros H. apply steps_default; [done|]. intros l2 E. by eapply steps_mint. Qed.
Lemma steps_transfer_name l l1 n o : steps l l1 → steps l (default l1 (transfer_name l1 n o)).
Proof. apply steps_nft_transfer. Qed.
Lemma steps_if_some {A} l l1 (o : option A) f :
  (∀ l1 a, steps l l1 → steps l (f a l1)) → steps l l1 → steps l (if_some o f l1).
Proof. intros Hf H. destruct o; simpl; auto. Qed.
End steps.

#[export] Hint Resolve steps_refl steps_account steps_contract steps_token steps_token_balance
  steps_token_policy steps_token_window steps_intent steps_class steps_multisig steps_proposal
  steps_unpropose steps_unpropose_all steps_oracle steps_window steps_window_v2 steps_nft_transfer
  steps_nft_meta steps_register steps_transfer_name steps_if_some : steps.
(** The fallible mutators, by the equation that produced the ledger. *)
Ltac step_back := first
  [ eapply steps_shield; [|eassumption]
  | eapply steps_shield_add; [|eassumption]
  | eapply steps_shield_sub; [|eassumption]
  | eapply steps_shield_v2; [|eassumption]
  | eapply steps_shield_v2_add; [|eassumption]
  | eapply steps_shield_v2_sub; [|eassumption]
  | eapply steps_lock; [|eassumption]
  | eapply steps_settle; [|eassumption]
  | eapply steps_vault; [|eassumption]
  | eapply steps_mint; [|eassumption]
  ].
#[export] Hint Extern 2 (steps _ ?l) => is_var l; step_back : steps.

Section runs.
Context `{XE : ExecEnv} `{UP : !UntornPools}.
Implicit Types (l : Ledger) (s : Locals) (ctx : BlockContext).

(** ** The helpers *)

Lemma credit_steps l id b l' : credit l id b = Ok l' → steps l l'.
Proof. unfold credit. intros E. repeat case_match; sov_simpl; eauto with steps. Qed.
Lemma do_transfer_steps l from a to b l' a' status :
  do_transfer l from a to b = Ok (l', a', status) → steps l l'.
Proof. unfold do_transfer. intros E. repeat case_match; simplify_eq; eauto with steps. Qed.
Lemma execute_proposal_steps l acc a l' status :
  execute_proposal_action l acc a = Ok (l', status) → steps l l'.
Proof.
  unfold execute_proposal_action. intros E. destruct a; simplify_eq; eauto with steps.
  sov_simpl. destruct x as [[l1 v] st1]. sov_simpl.
  apply steps_account. by eapply do_transfer_steps.
Qed.
Lemma settle_intent_steps l a solver sm h l' a' :
  settle_intent_legs l a solver sm h = Ok (l', a') → steps l l'.
Proof.
  unfold settle_intent_legs. intros E. sov_simpl.
  repeat (apply steps_if_some; [by eauto 6 with steps|]). eauto with steps.
Qed.
Lemma settle_contract_steps l c cmds h l' :
  settle_contract_token_transfers l c cmds h = Ok l' → steps l l'.
Proof.
  unfold settle_contract_token_transfers. case_match; intros E; simplify_eq; [eauto with steps|].
  sov_simpl. destruct x as [scratch windows]. sov_simpl.
  apply steps_fold; [eauto with steps|]. apply steps_fold; eauto with steps.
Qed.

(** ** The actions *)

Ltac leaf := eauto 8 with steps.
Ltac arm f := intros; unfold f; exec_unfold; exec_cases; leaf.

Lemma exec_transfer_steps stx to b s : steps (ledger s) (ledger (exec_transfer stx to b s).1).
Proof.
  unfold exec_transfer; exec_unfold; exec_cases; leaf.
  all: by eapply do_transfer_steps.
Qed.
Lemma exec_call_steps stx ctx c g d s : steps (ledger s) (ledger (exec_call stx ctx c g d s).1).
Proof.
  unfold exec_call; exec_unfold; exec_cases; leaf.
  apply steps_fold; [eauto with steps|]. by eapply settle_contract_steps.
Qed.
Lemma exec_shielded_steps stx ctx b s : steps (ledger s) (ledger (exec_shielded stx ctx b s).1).
Proof. arm (@exec_shielded). all: unfold shielded_legs; exec_unfold; exec_cases; leaf. Qed.
Lemma exec_shielded_v2_steps stx ctx d f b s :
  steps (ledger s) (ledger (exec_shielded_v2 stx ctx d f b s).1).
Proof. arm (@exec_shielded_v2). Qed.

Lemma exec_htlc_steps stx ctx s :
  (∀ r b h t, steps (ledger s) (ledger (exec_htlc_lock stx r b h t s).1)) ∧
  (∀ i p, steps (ledger s) (ledger (exec_htlc_claim stx ctx i p s).1)) ∧
  (∀ i, steps (ledger s) (ledger (exec_htlc_refund stx ctx i s).1)).
Proof.
  split_and!; intros; [arm (@exec_htlc_lock)|arm (@exec_htlc_claim)|arm (@exec_htlc_refund)];
    unfold pay_htlc; exec_unfold; exec_cases; leaf.
Qed.
Lemma exec_token_steps stx ctx s :
  (∀ y b t, steps (ledger s) (ledger (exec_token_issue stx y b t s).1)) ∧
  (∀ a t b, steps (ledger s) (ledger (exec_token_transfer stx ctx a t b s).1)) ∧
  (∀ a b, steps (ledger s) (ledger (exec_token_burn stx ctx a b s).1)) ∧
  (∀ a p, steps (ledger s) (ledger (exec_token_set_policy stx a p s).1)).
Proof.
  split_and!; intros; [arm (@exec_token_issue)|arm (@exec_token_transfer)|arm (@exec_token_burn)
    |arm (@exec_token_set_policy)].
Qed.
Lemma exec_intent_steps stx ctx s :
  (∀ x, steps (ledger s) (ledger (exec_intent_settle stx ctx x s).1)) ∧
  (∀ i, steps (ledger s) (ledger (exec_intent_cancel stx i s).1)).
Proof.
  split; intros; [arm (@exec_intent_settle)|arm (@exec_intent_cancel)].
  apply steps_intent. by eapply settle_intent_steps.
Qed.
Lemma exec_name_steps stx ctx s :
  (∀ n, steps (ledger s) (ledger (exec_register_name stx ctx n s).1)) ∧
  (∀ n t, steps (ledger s) (ledger (exec_transfer_name stx n t s).1)).
Proof. split; intros; [arm (@exec_register_name)|arm (@exec_transfer_name)]. Qed.
Lemma exec_nft_steps stx ctx s :
  (∀ y i t m, steps (ledger s) (ledger (exec_nft_mint stx ctx y i t m s).1)) ∧
  (∀ c i t, steps (ledger s) (ledger (exec_nft_transfer stx c i t s).1)) ∧
  (∀ c i m, steps (ledger s) (ledger (exec_nft_set_meta stx c i m s).1)).
Proof.
  split_and!; intros; [arm (@exec_nft_mint)|arm (@exec_nft_transfer)|arm (@exec_nft_set_meta)].
Qed.
Lemma exec_multisig_steps stx ctx s :
  (∀ h k t, steps (ledger s) (ledger (exec_set_multisig stx h k t s).1)) ∧
  (∀ c a, steps (ledger s) (ledger (exec_propose stx ctx c a s).1)) ∧
  (∀ c p, steps (ledger s) (ledger (exec_approve stx ctx c p s).1)) ∧
  (∀ c p, steps (ledger s) (ledger (exec_cancel stx ctx c p s).1)).
Proof.
  split_and!; intros; [arm (@exec_set_multisig)|arm (@exec_propose)|arm (@exec_approve)
    |arm (@exec_cancel)]; try apply steps_unpropose; by eapply execute_proposal_steps.
Qed.
Lemma exec_vault_steps stx s :
  (∀ b, steps (ledger s) (ledger (exec_vault_deposit stx b s).1)) ∧
  (∀ b, steps (ledger s) (ledger (exec_vault_withdraw stx b s).1)) ∧
  (∀ b, steps (ledger s) (ledger (exec_vault_mint stx b s).1)) ∧
  (∀ b, steps (ledger s) (ledger (exec_vault_burn stx b s).1)) ∧
  (∀ p, steps (ledger s) (ledger (exec_oracle_update stx p s).1)).
Proof.
  split_and!; intros; [arm (@exec_vault_deposit)|arm (@exec_vault_withdraw)|arm (@exec_vault_mint)
    |arm (@exec_vault_burn)|arm (@exec_oracle_update)].
Qed.

Lemma run_action_steps stx ctx r s : steps (ledger s) (ledger (run_action stx ctx r s).1).
Proof.
  destruct (exec_htlc_steps stx ctx s) as (? & ? & ?), (exec_token_steps stx ctx s) as (? & ? & ? & ?),
    (exec_intent_steps stx ctx s) as (? & ?), (exec_name_steps stx ctx s) as (? & ?),
    (exec_nft_steps stx ctx s) as (? & ? & ?), (exec_multisig_steps stx ctx s) as (? & ? & ? & ?),
    (exec_vault_steps stx s) as (? & ? & ? & ? & ?).
  unfold run_action. destruct (rd_action r); try done;
    first [ apply exec_transfer_steps | apply exec_call_steps | apply exec_shielded_steps
          | apply exec_shielded_v2_steps | solve [arm (@exec_claim_vesting)] | solve [arm (@exec_deploy)]
          | solve [arm (@exec_rotate_key)] | exec_unfold; exec_norm; leaf ].
Qed.
Lemma epilogue_steps stx ctx r status s : steps (ledger s) (ledger (epilogue stx ctx r status s).1).
Proof.
  unfold epilogue; exec_unfold; exec_cases; leaf;
    repeat match goal with H : _ = Ok _ |- _ => apply credit_steps in H end;
    repeat (eapply steps_trans; [|eassumption]); leaf.
Qed.

(** A transaction, whatever its outcome, is a sequence of ledger mutations. *)
Lemma apply_transaction_steps l stx ctx : steps l (apply_transaction l stx ctx).1.
Proof.
  unfold apply_transaction. destruct (preflight l stx ctx) as [r|e]; [|apply steps_refl].
  set (m := match rd_ms_error r with Some _ => _ | None => _ end).
  assert (steps l (ledger (m (start l r)).1)) as Hm.
  { subst m. destruct (rd_ms_error r); [apply steps_refl|]. apply (run_action_steps stx ctx r (start l r)). }
  clearbody m. exec_unfold. destruct (m (start l r)) as [s [status|e]]; exec_norm; [|done].
  pose proof (epilogue_steps stx ctx r status s). destruct (epilogue _ _ _ _ s).
  by eapply steps_trans.
Qed.
Lemma apply_coinbase_mutates l ctx : rtc mutates l (apply_coinbase l ctx).1.
Proof.
  unfold apply_coinbase. case_match; [apply rtc_refl|].
  destruct (credit _ _ _) as [l1|] eqn:Ec; [|apply rtc_refl]. apply credit_steps, steps_mutates in Ec.
  destruct (add_mined_emitted l1 _) eqn:Em; cbn [fst]; [|done].
  eapply rtc_r; [exact Ec|]. eexists. by eapply m_mined.
Qed.
Lemma apply_from_steps i l txs ctx : steps l (apply_from i l txs ctx).1.
Proof.
  revert i l. induction txs as [|stx txs IH]; intros i l; [apply steps_refl|]. cbn [apply_from].
  pose proof (apply_transaction_steps l stx ctx) as Ht.
  destruct (apply_transaction l stx ctx) as [l1 [rc|e]]; [|done].
  specialize (IH (i + 1) l1). destruct (apply_from (i + 1) l1 txs ctx) as [l2 r].
  by eapply steps_trans.
Qed.

(** The body of a block, as the node runs it: coinbase, then the transactions. *)
Definition run_block l (txs : list SignedTransaction) ctx : Ledger :=
  (apply_transactions (apply_coinbase l ctx).1 txs ctx).1.

(** C2: any block can be taken back, over pools that leave nothing behind when they
    refuse a bundle.  On a store without entries that mean "absent" (as every run from
    genesis leaves it), record a journal, run the coinbase and the transactions (through
    to the end, or up to the one that is invalid and leaves its partial writes behind),
    apply the journal: the store is bit for bit what it was before the block.  Pool v1
    is such a pool while its note tree is not full; a full tree breaks it
    ([torn_pool_survives_undo]). *)
Theorem block_undo_exact (l : Ledger) (txs : list SignedTransaction) ctx :
  canonical (st l) →
  let '(log, l1) := take_undo (run_block (begin_undo l) txs ctx) in
  st (apply_undo l1 log) = st l ∧ undo (apply_undo l1 log) = None.
Proof.
  intros C. pose proof (apply_coinbase_mutates (begin_undo l) ctx) as H1.
  pose proof (steps_mutates _ _ (apply_from_steps 0 (apply_coinbase (begin_undo l) ctx).1 txs ctx)) as H2.
  destruct (take_undo (run_block (begin_undo l) txs ctx)) as [log l1] eqn:E.
  pose proof (run_undo l _ C (rtc_trans _ _ _ H1 H2)) as Hu. unfold run_block, apply_transactions in E.
  rewrite E in Hu. tauto.
Qed.
End runs.
