(* ===== verification/PoolSpend.v ===== *)
(** * The pools as the ledger uses them

    What a pool owes the ledger ([SpendOnce]), that both pools of the source pay it,
    and what follows for every history of blocks. *)

From stdpp Require Import vector.
From S2P Require Import Prelude Primitives Mining Crypto Types Vault Ledger ShieldedPq ShieldedPqSpec ShieldedV1.
From S2P Require Import ShieldedV2 Execution LedgerUndo ExecSteps.

(** ** The interface *)

Class SpendOnce {St B E : Type} (P : ShieldedPool St B E) (Nf : Type) := {
  spent : St → Nf → Prop;
  spends : B → list Nf;
  spend_distinct s b s' : pool_apply s b = (s', Ok ()) → NoDup (spends b);
  spend_fresh s b s' nf : pool_apply s b = (s', Ok ()) → nf ∈ spends b → ¬ spent s nf;
  spend_records s b s' nf : pool_apply s b = (s', Ok ()) → nf ∈ spends b → spent s' nf;
  (** also when the bundle is refused and the pool torn *)
  spend_keeps s b s' r nf : pool_apply s b = (s', r) → spent s nf → spent s' nf;
}.

(** ** The ledger only moves its pools through bundles *)

Section ledger.
Context `{Env : LedgerEnv}.

Definition pools (s : Store) : ShieldedState * ShieldedV2State := (shielded s, shielded_v2 s).
Lemma pools_policies s m : pools {| s with token_policies := m |} = pools s.
Proof. done. Qed.
Lemma pools_fold {A} (f : Ledger → A → Ledger) (xs : list A) l :
  (∀ l x, pools (st (f l x)) = pools (st l)) → pools (st (foldl f l xs)) = pools (st l).
Proof. intros Hf. revert l. induction xs as [|x xs IH]; intros l; [done|]. cbn [foldl]. by rewrite IH, Hf. Qed.
Lemma writes_pools l T l' : writes l T l' →
  (∃ b r, apply_shielded_bundle l b = (l', r)) ∨ (∃ ns cs r, apply_shielded_v2 l ns cs = (l', r)) ∨
  pools (st l') = pools (st l).
Proof.
  destruct 1; [right; right|right; right|by eauto 10|right; right|right; right|by eauto 10|right; right..]; open_write.
  - unfold remove_proposals_for. case_match; [done|]. cbn [snd]. ledger_simpl.
    apply pools_fold. intros. unfold drop_proposal. by ledger_simpl.
  - unfold set_token_policy. rewrite pools_fold by (intros; unfold clear_window; by ledger_simpl).
    ledger_simpl. rewrite pools_policies, pools_fold; [|intros]; by ledger_simpl.
Qed.
Lemma apply_shielded_bundle_pools l b l' r : apply_shielded_bundle l b = (l', r) →
  pool_apply (shielded (st l)) b = (shielded (st l'), r) ∧ shielded_v2 (st l') = shielded_v2 (st l).
Proof.
  unfold apply_shielded_bundle. destruct (pool_apply _ _) as [p [[]|]]; intros [= <- <-]; by ledger_simpl.
Qed.
Lemma apply_shielded_v2_pools l ns cs l' r : apply_shielded_v2 l ns cs = (l', r) →
  pool_apply (shielded_v2 (st l)) (ns, cs) = (shielded_v2 (st l'), r) ∧ shielded (st l') = shielded (st l).
Proof.
  unfold apply_shielded_v2. destruct (pool_apply _ _) as [p [[]|]]; intros [= <- <-]; by ledger_simpl.
Qed.

(** What is spent stays spent, whatever is done to the ledger short of undoing it. *)
Lemma mutates_keep_v1 `{!SpendOnce env_pool1 Nf} l l' nf :
  rtc mutates l l' → spent (shielded (st l)) nf → spent (shielded (st l')) nf.
Proof.
  induction 1 as [|l l1 l2 [T [(b & r & E)|[(ns & cs & r & E)|[= E _]]]%writes_pools] _ IH]; [done|intros; apply IH..].
  - apply apply_shielded_bundle_pools in E as [E _]. by eapply spend_keeps.
  - apply apply_shielded_v2_pools in E as [_ ->]. done.
  - by rewrite E.
Qed.
Lemma mutates_keep_v2 `{!SpendOnce env_pool2 Nf} l l' nf :
  rtc mutates l l' → spent (shielded_v2 (st l)) nf → spent (shielded_v2 (st l')) nf.
Proof.
  induction 1 as [|l l1 l2 [T [(b & r & E)|[(ns & cs & r & E)|[= _ E]]]%writes_pools] _ IH]; [done|intros; apply IH..].
  - apply apply_shielded_bundle_pools in E as [_ ->]. done.
  - apply apply_shielded_v2_pools in E as [E _]. by eapply spend_keeps.
  - by rewrite E.
Qed.
End ledger.

(** ** Both pools of the source keep the interface *)

Section pq.
Context `{Pq.Rescue, Blake3}.
Import Pq.

(** [apply]'s [expect] does not fail on a pool that bundles have built
    ([pool_refines_notes]). *)
#[global] Instance pq_pool : ShieldedPool ShieldedV2State (list PqDigest * list PqDigest) ShieldedV2StateError := {|
  pool_default := new;
  pool_apply s b :=
    match apply s b.1 b.2 with
    | Some (Ok s') => (s', Ok ())
    | Some (Err e) => (s, Err e)
    | None => (s, Err TreeFull)
    end;
  pool_is_empty := is_empty;
  pool_commitment := commitment;
|}.

Lemma append_all_keeps cs : ∀ s s', append_all s cs = Ok s' → nullifiers s' = nullifiers s.
Proof.
  induction cs as [|c cs IH]; intros s s'; cbn [append_all]; [by intros [= ->]|].
  intros (s1 & E1 & E2)%bind_Ok. rewrite (IH _ _ E2). unfold append_commitment in E1.
  destruct (_ <=? _); [done|]. destruct (frontier_append _ _ _); [|done]. by injection E1 as <-.
Qed.
#[global] Instance pq_untorn : Untorn pq_pool.
Proof. intros s b s' e. cbn. destruct (apply s b.1 b.2) as [[]|]; by intros [= -> _]. Qed.
Lemma pq_apply_Ok s nfs cs s' : pool_apply s (nfs, cs) = (s', Ok ()) →
  NoDup (to_bytes <$> nfs) ∧ (∀ nf, nf ∈ to_bytes <$> nfs → nf ∉ nullifiers s) ∧
  nullifiers s' = list_to_set (to_bytes <$> nfs) ∪ nullifiers s.
Proof.
  cbn [pool_apply pq_pool fst snd]. unfold apply.
  destruct (checked_add _ _ _); [|done]. repeat (destruct (_ <? _) || destruct (bool_decide _) || destruct (negb _); [done|]).
  destruct (check_nullifiers s ∅ nfs) as [[]|] eqn:Ek; [|done].
  destruct (append_all _ cs) as [s1|] eqn:Ea; [|done]. intros [= <-].
  apply PqSpec.check_nullifiers_ok in Ek as (Hr & Hd & Hn). rewrite (append_all_keeps _ _ _ Ea). split_and!; [|set_solver|done].
  apply NoDup_fmap_2_strong; [|done]. rewrite Forall_forall in Hr. intros x y Hx Hy. apply PqSpec.to_bytes_inj; by apply Hr.
Qed.
#[global] Program Instance pq_spend_once : SpendOnce pq_pool bytes := {|
  spent s nf := nf ∈ nullifiers s;
  spends b := to_bytes <$> b.1;
|}.
Next Obligation. intros s [nfs cs] s' E. apply (pq_apply_Ok _ _ _ _ E). Qed.
Next Obligation. intros s [nfs cs] s' nf E. apply (pq_apply_Ok _ _ _ _ E). Qed.
Next Obligation. intros s [nfs cs] s' nf E. destruct (pq_apply_Ok _ _ _ _ E) as (_ & _ & ->). cbn. set_solver. Qed.
Next Obligation.
  intros s [nfs cs] s' [[]|e] nf E; [|by rewrite (pq_untorn _ _ _ _ E)].
  destruct (pq_apply_Ok _ _ _ _ E) as (_ & _ & ->). set_solver.
Qed.
End pq.

Section v1.
Context `{V1.Orchard, Blake3}.
Import V1.

(** The pool is changed in place: on an error too, what [apply_bundle] made of it is
    the pool from then on. *)
#[global] Instance v1_pool : ShieldedPool ShieldedState ShieldedBundle ShieldedError := {|
  pool_default := new;
  pool_apply := apply_bundle;
  pool_is_empty := is_empty;
  pool_commitment := commitment;
|}.

Lemma check_bundle_ok s nfs : ∀ within, check_bundle s within nfs = Ok () ↔
  NoDup nfs ∧ (∀ nf, nf ∈ nfs → (nf ∉ nullifiers s) ∧ nf ∉ within).
Proof.
  induction nfs as [|nf nfs IH]; intros within; cbn [check_bundle].
  { split; [|done]. intros _. split; [constructor|]. intros nf Hn. inversion Hn. }
  destruct (decide (nf ∈ nullifiers s ∨ nf ∈ within)) as [Hs|Hs].
  { replace (_ || _) with true by (symmetry; rewrite orb_true_iff, !bool_decide_eq_true; done).
    split; [done|]. intros (_ & Hn). destruct (Hn nf) as [H1 H2]; [left|tauto]. }
  replace (_ || _) with false by (symmetry; rewrite orb_false_iff, !bool_decide_eq_false; tauto).
  rewrite IH, NoDup_cons. set_solver.
Qed.
Lemma add_commitments_keeps cs : ∀ s s' r, add_commitments s cs = (s', r) →
  nullifiers s' = nullifiers s ∧ (r = Ok () ∨ r = Err TreeFull).
Proof.
  induction cs as [|c cs IH]; intros s s' r; cbn [add_commitments]; [intros [= <- <-]; eauto|].
  unfold add_commitment. destruct (frontier_append _ _); [|intros [= <- <-]; eauto].
  intros E. destruct (IH _ _ _ E). done.
Qed.
(** A bundle is taken in, refused with the pool untouched, or, when the tree is full,
    refused with its nullifiers already recorded. *)
Lemma apply_bundle_outcomes s b s' r : apply_bundle s b = (s', r) →
  (r = Ok () ∧ NoDup (nullifiers_of b) ∧ (∀ nf, nf ∈ nullifiers_of b → nf ∉ nullifiers s) ∧
   nullifiers s' = list_to_set (nullifiers_of b) ∪ nullifiers s) ∨
  (r = Err DoubleSpend ∧ s' = s) ∨
  (r = Err TreeFull ∧ nullifiers s' = list_to_set (nullifiers_of b) ∪ nullifiers s).
Proof.
  unfold apply_bundle. destruct (check_bundle s ∅ (nullifiers_of b)) as [[]|e] eqn:Ek.
  - apply check_bundle_ok in Ek as [Hd Hn]. intros E. destruct (add_commitments_keeps _ _ _ _ E) as [-> [->| ->]]; [left|by eauto].
    split_and!; [done..| |done]. intros nf Hin. by apply Hn.
  - intros [= <- <-]. right; left. split; [|done]. f_equal. clear -Ek. revert Ek. generalize (∅ : gset bytes).
    induction (nullifiers_of b) as [|nf nfs IH]; intros X; cbn [check_bundle]; [done|].
    destruct (_ || _); [by intros [= <-]|apply IH].
Qed.
(** A refused bundle leaves the pool untouched as long as the note commitment tree
    takes every note; a full tree tears it ([apply_bundle_torn]). *)
Lemma v1_untorn : (∀ t c, is_Some (frontier_append t c)) → Untorn v1_pool.
Proof.
  intros Hroom s b s' e E. cbn [pool_apply v1_pool] in E. unfold apply_bundle in E.
  destruct (check_bundle s ∅ (nullifiers_of b)) as [[]|]; [|by injection E as <- _]. exfalso.
  revert E. generalize (mkState (tree s) (anchors s) (list_to_set (nullifiers_of b) ∪ nullifiers s) (commitments s)).
  induction (commitments_of b) as [|c cs IH]; intros s1; cbn [add_commitments]; [done|]. unfold add_commitment.
  destruct (Hroom (tree s1) c) as [t ->]. apply IH.
Qed.
#[global] Program Instance v1_spend_once : SpendOnce v1_pool bytes := {|
  spent s nf := nf ∈ nullifiers s;
  spends := nullifiers_of;
|}.
Next Obligation. intros s b s' E%apply_bundle_outcomes. naive_solver. Qed.
Next Obligation. intros s b s' nf E%apply_bundle_outcomes. naive_solver. Qed.
Next Obligation.
  intros s b s' nf E%apply_bundle_outcomes Hin.
  destruct E as [(_ & _ & _ & ->)|[[[=] _]|[[=] _]]]. set_solver.
Qed.
Next Obligation.
  intros s b s' r nf E%apply_bundle_outcomes Hin.
  destruct E as [(_ & _ & _ & ->)|[[_ ->]|[_ ->]]]; set_solver.
Qed.
End v1.

(** A tree with room for one note: the second bundle is refused, and yet its
    nullifier is from then on spent. *)
Module V1_examples.
Import V1.
Definition one_note : Orchard := {|
  Frontier := nat; frontier_empty := 0%nat; ExtractedNoteCommitment := bytes;
  frontier_append n _ := if decide (n = 0%nat) then Some 1%nat else None;
  frontier_root n := [N.of_nat n]; cmx_to_bytes c := c; cmx_from_bytes c := Some c |}.
#[local] Existing Instance one_note.
Definition full : ShieldedState := (apply_bundle new (mkBundle [] [[1]])).1.
Definition late : ShieldedBundle := mkBundle [[7]] [[2]].
Lemma apply_bundle_torn :
  (apply_bundle full late).2 = Err TreeFull ∧ nullifier_seen full [7] = false ∧
  nullifier_seen (apply_bundle full late).1 [7] = true.
Proof. split_and!; by vm_compute. Qed.
End V1_examples.

(** A pool comes back from its snapshot, given that the codec of note commitments
    does. *)
Section v1_snapshot.
Context `{V1.Orchard}.
Import V1.

Definition with_nullifiers (s : ShieldedState) (X : gset bytes) : ShieldedState :=
  mkState (tree s) (anchors s) X (commitments s).
Inductive reached : ShieldedState → Prop :=
| reached_new : reached new
| reached_apply s b s' : reached s → apply_bundle s b = (s', Ok ()) → reached s'.
(** The notes of [s], added one by one to the empty pool. *)
Definition grown (s : ShieldedState) : Prop :=
  ∃ cs, add_commitments new cs = (with_nullifiers s ∅, Ok ()) ∧ commitments s = cmx_to_bytes <$> cs.

Lemma add_commitments_nullifiers cs : ∀ s X s' r, add_commitments s cs = (s', r) →
  add_commitments (with_nullifiers s X) cs = (with_nullifiers s' X, r).
Proof.
  induction cs as [|c cs IH]; intros s X s' r; cbn [add_commitments]; [by intros [= <- <-]|].
  unfold add_commitment. cbn [with_nullifiers tree]. destruct (frontier_append _ _); [|by intros [= <- <-]].
  apply (IH (mkState _ _ _ _)).
Qed.
Lemma add_commitments_app cs cs' : ∀ s s1, add_commitments s cs = (s1, Ok ()) →
  add_commitments s (cs ++ cs') = add_commitments s1 cs'.
Proof.
  induction cs as [|c cs IH]; intros s s1; cbn [add_commitments app]; [by intros [= <-]|].
  destruct (add_commitment s c) as [s2 [u|]]; [|done]. apply IH.
Qed.
Lemma add_commitments_bytes cs : ∀ s s', add_commitments s cs = (s', Ok ()) →
  commitments s' = commitments s ++ (cmx_to_bytes <$> cs).
Proof.
  induction cs as [|c cs IH]; intros s s'; cbn [add_commitments]; [intros [= <-]; by rewrite app_nil_r|].
  unfold add_commitment. destruct (frontier_append _ _); [|done]. intros E. rewrite (IH _ _ E). cbn. by rewrite <- app_assoc.
Qed.
Lemma reached_grown s : reached s → grown s.
Proof.
  induction 1 as [|s b s' _ (cs & E1 & E2) E]; [by exists []|]. unfold apply_bundle in E.
  destruct (check_bundle _ _ _) as [[]|]; [|done]. exists (cs ++ commitments_of b).
  rewrite (add_commitments_app _ _ _ _ E1), (add_commitments_bytes _ _ _ E), fmap_app, <- E2. split; [|done].
  by apply (add_commitments_nullifiers _ _ ∅) in E.
Qed.
Lemma v1_restore_commitments_ok cs : (∀ c, cmx_from_bytes (cmx_to_bytes c) = Some c) → ∀ s s',
  add_commitments s cs = (s', Ok ()) → restore_commitments s (cmx_to_bytes <$> cs) = Ok s'.
Proof.
  intros Hc. induction cs as [|c cs IH]; intros s s'; cbn [add_commitments fmap list_fmap restore_commitments];
    [by intros [= <-]|]. rewrite Hc. destruct (add_commitment s c) as [s1 [u|]]; [|done]. apply IH.
Qed.
Lemma v1_snapshot_restores s : (∀ c, cmx_from_bytes (cmx_to_bytes c) = Some c) → reached s →
  restore (snapshot s).1 (snapshot s).2 = Ok s.
Proof.
  intros Hc (cs & E1 & E2)%reached_grown. unfold restore, snapshot. cbn [fst snd].
  rewrite E2, (v1_restore_commitments_ok cs Hc _ _ E1). cbn [mbind]. destruct s as [t a X l].
  unfold with_nullifiers. cbn. do 2 f_equal. apply set_eq. intros b. unfold Pq.sorted.
  rewrite elem_of_union, elem_of_list_to_set, merge_sort_Permutation, elem_of_elements. set_solver.
Qed.
End v1_snapshot.

