(* ===== verification/PqRuntime.v ===== *)
(** * The runtime over the real post-quantum pool

    [ShieldedV2] and [Ledger] take the pool crate as an interface.  Here the interface is
    filled with the modelled crate: its codec and structural rules ([PqWire]) and its
    state ([ShieldedPq]).  What verification accepts, the pool then takes; and the cheap
    check a relay makes refuses nothing that verification would accept. *)

From stdpp Require Import vector finite.
From S2P Require Import Prelude Primitives Mining Crypto Compliance Types Smt Vault Ledger.
From S2P Require Import ShieldedPq ShieldedPqSpec ShieldedV2 PqWire PqWireSpec.
From S2P Require Import ShieldedV1 Execution LedgerUndo LedgerCommit ExecSteps PoolSpend.
#[local] Open Scope N_scope.

(** ** The instance *)

Section instance.
Context (base : LedgerEnv) `{Pq.Rescue, Wire.FrameEnv, Wire.SuiteEnv, Wire.AuthEnv}.

(** The ledger of [base] with the post-quantum pool for its second pool. *)
Definition pq_ledger : LedgerEnv := {|
  env_blake3 := @env_blake3 base;
  ShieldedState := @ShieldedState base; ShieldedBundle := @ShieldedBundle base; ShieldedError := @ShieldedError base;
  env_pool1 := @env_pool1 base;
  ShieldedV2State := Pq.ShieldedV2State; PqDigest := Pq.PqDigest; ShieldedV2StateError := Pq.ShieldedV2StateError;
  env_pool2 := @pq_pool _ (@env_blake3 base);
  env_account := @env_account base; env_balance := @env_balance base; env_token := @env_token base;
  env_policy := @env_policy base; env_window := @env_window base; env_counter_pair := @env_counter_pair base;
  env_htlcs := @env_htlcs base; env_classes := @env_classes base; env_nfts := @env_nfts base;
  env_multisig := @env_multisig base; env_proposals := @env_proposals base; env_vaults := @env_vaults base |}.

(** The proof verifiers and the texts of errors. *)
Record Proofs := mkProofs {
  p_spend : Wire.SpendBundle → result string unit;
  p_suite2 : Wire.SpendBundle → CarrierContext → result string unit;
  p_wire : Wire.WireError → string;
  p_structure : Wire.BundleError → string;
  p_state : Pq.ShieldedV2StateError → string }.
Context (ps : Proofs).
Definition wire_error (e : Wire.WireError) : WireError :=
  match e with Wire.UnknownProofVersion v => WUnknownProofVersion v | e => WOther (p_wire ps e) end.
Definition pq_v2 : @V2Env pq_ledger := @Build_V2Env pq_ledger
  Wire.suite2_enabled Wire.SpendBundle Wire.public_inputs
  (λ l, map_err wire_error (Wire.decode_bundle l))
  (λ l, map_err wire_error (Wire.decode_bundle_for_suite 2 l))
  (λ l, map_err (p_wire ps) (Wire.input_nullifiers l))
  (λ b, map_err (p_structure ps) (Wire.check_structure b))
  Wire.verify_carrier_auth (p_spend ps) (p_suite2 ps)
  Pq.anchor_is_known Pq.nullifier_seen Pq.note_count (p_state ps).
End instance.

(** ** Slots *)

Lemma real_slots_nullifiers (pi : Wire.PublicInputs) :
  (λ i, nullifiers pi !!! i) <$> real_slots (input_dummy pi) = Wire.real_nullifiers pi.
Proof.
  destruct pi as [a n d c o x y z]. unfold Wire.real_nullifiers. cbn [nullifiers input_dummy]. clear.
  inv_vec n. intros n1 n2 n3 n4. inv_vec d. by intros [] [] [] [].
Qed.
Lemma elem_of_real_slots (dummy : vec bool NUM_SLOTS) i : i ∈ real_slots dummy ↔ dummy !!! i = false.
Proof. unfold real_slots. rewrite list_elem_of_filter. pose proof (elem_of_enum i). tauto. Qed.
Lemma find_none {A} (f : A → bool) l : find f l = None → ∀ x, x ∈ l → f x = false.
Proof. intros E x Hx. by apply (find_none _ _ E), list_elem_of_In. Qed.
(** The pairs of two vectors. *)
Lemma elem_of_vzip {A B n} (v : vec A n) (w : vec B n) x y :
  (x, y) ∈ zip (vec_to_list v) (vec_to_list w) ↔ ∃ i, v !!! i = x ∧ w !!! i = y.
Proof.
  induction v as [|a n v IH]; inv_vec w.
  - cbn. split; [intros []%elem_of_nil|intros [i _]; inv_fin i].
  - intros b w. cbn [vec_to_list zip_with]. rewrite elem_of_cons, IH. split.
    + intros [[= -> ->]|(i & E1 & E2)]; [by exists 0%fin|by exists (FS i)].
    + intros (i & E1 & E2). inv_fin i; [intros E1 E2; cbn in *; left; congruence|]. intros i E1 E2. right. by exists i.
Qed.

Section runtime.
Context (base : LedgerEnv) `{Pq.Rescue, FE : Wire.FrameEnv, SE : Wire.SuiteEnv, Wire.AuthEnv} (ps : Proofs).
#[local] Instance ledger_env : LedgerEnv := pq_ledger base.
#[local] Instance v2_env : V2Env := pq_v2 base ps.

(** What the decoder and the structural rules guarantee of the slots that are used. *)
Lemma used_slots_real version b : WireSpec.bundle_ok version b → WireSpec.structure_ok b →
  let pi := Wire.public_inputs b in
  Forall PqSpec.real ((λ i, nullifiers pi !!! i) <$> real_slots (input_dummy pi)) ∧
  NoDup ((λ i, nullifiers pi !!! i) <$> real_slots (input_dummy pi)) ∧
  Forall PqSpec.real ((λ j, output_commitments pi !!! j) <$> real_slots (output_dummy pi)).
Proof.
  intros ((_ & Hn & Hc & _) & _) (_ & Hi & Ho & Hd) pi. unfold WireSpec.canonical_slots in *. fold pi in Hn, Hc, Hi, Ho, Hd.
  rewrite Forall_forall in Hn, Hc. rewrite Forall_forall in Hi. rewrite Forall_forall in Ho. split_and!.
  - apply Forall_forall. intros nf (i & -> & Hs%elem_of_real_slots)%list_elem_of_fmap. split.
    + assert ((false, (anchors pi !!! i, nullifiers pi !!! i)) ∈ zip (input_dummy pi) (zip (anchors pi) (nullifiers pi))) as Hin; [|exact (Hi _ Hin)].
      rewrite <- vec_to_list_zip_with. apply elem_of_vzip. exists i. rewrite vlookup_zip_with. done.
    + apply Hn, elem_of_vlookup. by exists i.
  - by rewrite real_slots_nullifiers.
  - apply Forall_forall. intros cm (j & -> & Hs%elem_of_real_slots)%list_elem_of_fmap. split.
    + assert ((false, (output_commitments pi !!! j, Wire.output_ciphertexts b !!! j))
        ∈ zip (output_dummy pi) (zip (output_commitments pi) (Wire.output_ciphertexts b))) as Hin; [|by destruct (Ho _ Hin)].
      rewrite <- vec_to_list_zip_with. apply elem_of_vzip. exists j. rewrite vlookup_zip_with. done.
    + apply Hc, elem_of_vlookup. by exists j.
Qed.

(** Either suite decodes to a well-formed bundle, which the prefix reader agrees with. *)
Lemma decoded_ok bytes b : Forall byte_ok bytes →
  (if is_suite2 bytes then map_err (wire_error ps) (Wire.decode_bundle_for_suite 2 bytes)
   else map_err (wire_error ps) (Wire.decode_bundle bytes)) = Ok b →
  (∃ version, WireSpec.bundle_ok version b) ∧
  Wire.input_nullifiers bytes = Ok (zip (nullifiers (Wire.public_inputs b)) (input_dummy (Wire.public_inputs b))).
Proof.
  intros Hl E. assert (∃ version, WireSpec.supported version ∧ Wire.decode_bundle_inner version bytes = Ok (b, [])) as (v & Hs & Ed).
  { destruct (is_suite2 bytes).
    - unfold Wire.decode_bundle_for_suite in E. destruct (negb _ && _) eqn:Es; [done|]. apply WireSpec.supported_dec in Es.
      exists 2. split; [done|]. destruct (Wire.decode_bundle_inner 2 bytes) as [[b' rest]|] eqn:Ed; [|done].
      injection E as <-. by destruct (WireSpec.decode_inner_sound _ _ _ _ Hl Ed) as (-> & _).
    - unfold Wire.decode_bundle in E. exists Wire.PROOF_VERSION_V1. split; [by left|].
      destruct (Wire.decode_bundle_inner _ bytes) as [[b' rest]|] eqn:Ed; [|done].
      injection E as <-. by destruct (WireSpec.decode_inner_sound _ _ _ _ Hl Ed) as (-> & _). }
  destruct (WireSpec.decode_inner_sound _ _ _ _ Hl Ed) as (_ & B & _). split; [by exists v|]. by eapply WireSpec.prefix_reads.
Qed.
Lemma first_spent_ok pool inputs : (∀ nf, (nf, false) ∈ inputs → Pq.nullifier_seen pool nf = false) →
  ∀ slot, first_spent pool slot inputs = Ok ().
Proof.
  induction inputs as [|[nf dummy] inputs IH]; intros Hn slot; [done|]. cbn [first_spent].
  assert (negb dummy && nullifier_seen pool nf = false) as ->.
  { destruct dummy; [done|]. apply Hn. left. }
  apply IH. intros. apply Hn. by right.
Qed.

(** What verification has established when it returns. *)
Lemma verify_inv bundle l mining height domain who nonce balance active eff :
  verify_bundle_for_carrier_with_suite2 bundle l mining height domain who nonce balance active = Ok eff →
  ∃ b : Wire.SpendBundle, let pi := Wire.public_inputs b in
    (if is_suite2 bundle then map_err (wire_error ps) (Wire.decode_bundle_for_suite 2 bundle)
     else map_err (wire_error ps) (Wire.decode_bundle bundle)) = Ok b ∧
    Wire.check_structure b = Ok () ∧
    e_nullifiers eff = ((λ i, nullifiers pi !!! i) <$> real_slots (input_dummy pi)) ∧
    e_commitments eff = ((λ j, output_commitments pi !!! j) <$> real_slots (output_dummy pi)) ∧
    (∀ i, i ∈ real_slots (input_dummy pi) → Pq.nullifier_seen (shielded_v2 (st l)) (nullifiers pi !!! i) = false) ∧
    Pq.note_count (shielded_v2 (st l)) + N.of_nat (length (e_commitments eff)) ≤ MAX_V2_NOTES ∧
    is_Some (Bal.checked_sub balance (shield_in eff)) ∧
    ∃ after, Bal.checked_add (shielded_v2_value (st l)) (shield_in eff) = Some after ∧
      is_Some (Bal.checked_sub after (deshield_out eff)).
Proof.
  unfold verify_bundle_for_carrier_with_suite2. intros E.
  destruct (active && negb _); [done|]. destruct (_ && negb (active && _)); [done|]. apply bind_Ok in E as (b & Ed & E).
  exists b. set (pi := Wire.public_inputs b). change (public_inputs b) with pi in E.
  apply bind_Ok in E as ([] & Ec & E). destruct (negb _); [done|].
  destruct (bool_decide _ && bool_decide _); [done|]. destruct (negb _); [done|].
  apply bind_Ok in E as ([] & _ & E). destruct (find _ _); [done|]. destruct (find _ _) eqn:Ef; [done|].
  match type of E with context [checked_add u64_max ?x ?y] => destruct (checked_add u64_max x y) as [k|] eqn:Ek end; [|done].
  destruct (k <=? MAX_V2_NOTES) eqn:Hk; [|done]. cbn [negb] in E. apply N.leb_le in Hk. apply checked_add_Some in Ek as [-> _].
  match type of E with context [Bal.checked_sub balance ?x] => destruct (Bal.checked_sub balance x) as [rest|] eqn:Es end; [|done].
  apply bind_Ok in E as (after & Ea & E). apply ok_or_Ok in Ea.
  match type of E with context [Bal.checked_sub after ?x] => destruct (Bal.checked_sub after x) as [left|] eqn:El end; [|done].
  assert (e_nullifiers eff = ((λ i, nullifiers pi !!! i) <$> real_slots (input_dummy pi)) ∧
    e_commitments eff = ((λ j, output_commitments pi !!! j) <$> real_slots (output_dummy pi)) ∧
    shield_in eff = transparent_in pi ∧ deshield_out eff = transparent_out pi) as (-> & -> & -> & ->).
  { destruct (_ && _); [destruct (drain_window _ _ _ _ _); [|done]|]; injection E as <-; repeat split. }
  apply map_err_Ok in Ed. split; [exact Ed|]. split; [by unfold check_structure in Ec; cbn in Ec; destruct (Wire.check_structure b) as [[]|]|].
  split; [reflexivity|]. split; [reflexivity|]. split; [intros i Hi; exact (find_none _ _ Ef i Hi)|]. split; [exact Hk|].
  split; [exact (ex_intro _ _ Es)|]. exists after. split; [exact Ea|exact (ex_intro _ _ El)].
Qed.

End runtime.

Module Runtime_examples.
Import WireSpec.Wire_examples.
#[local] Existing Instance PqSpec.Pq_examples.toy_rescue.
#[local] Existing Instance frame_env.
#[local] Existing Instance suite_env.
#[local] Existing Instance auth_env.

(** Proofs are accepted; the pool is empty. *)
Definition proofs : Proofs := mkProofs (λ _, Ok ()) (λ _ _, Ok ()) (λ _, EmptyString) (λ _, EmptyString) (λ _, EmptyString).
Definition base : LedgerEnv := Ledger_examples.env.
#[local] Instance ledger_env0 : LedgerEnv := pq_ledger base.
#[local] Instance v2_env0 : V2Env := pq_v2 base proofs.
Definition receive : bytes := Wire.encode_with Wire.PROOF_VERSION_V1 sample.
Definition verified : result ShieldedV2Error V2Effects :=
  verify_bundle_for_carrier_with_suite2 receive Ledger.new Emission.mainnet_like 1
    (mkSigningDomain "sov-test" Hash_ZERO) Ledger_examples.alice 0 0 false.
Definition effects : V2Effects := match verified with Ok e => e | Err _ => mkEffects [] [] 0 0 None end.
Lemma verified_ok : verified = Ok effects.
Proof.
  assert (match verified with Ok _ => true | Err _ => false end = true) as E by (by vm_compute).
  unfold effects. by destruct verified.
Qed.
End Runtime_examples.
