(* ===== verification/Supply.v ===== *)
(** * Conservation of the native supply
    (crates/runtime/src/execution.rs, crates/state/src/ledger.rs total_supply)

    Where the native coin sits: account balances, vesting locks, the two shielded
    pools, HTLC escrow and vault collateral.  Every action moves it; none but the
    coinbase creates it. *)

From S2P Require Import Prelude Primitives Mining Crypto Compliance Types Gas Smt Vault Ledger.
From S2P Require Import ShieldedV2 Execution LedgerUndo LedgerCommit ExecSteps.

Create Rewrite HintDb money.

Section money.
Context `{LE : LedgerEnv}.
Implicit Types (l : Ledger) (s : Store).

(** The native coin of an account, and the fields that hold native coin. *)
Definition tot (a : Account) : N := balance a + locked a.
Definition pools s : N :=
  shielded_value s + shielded_v2_value s + htlc_locked s + vault_collateral s.
Definition native s : N := map_sum tot (accounts s) + pools s.
(** All but one account: the one whose live copy is outside the ledger. *)
Definition native_but (me : AccountId) s : N := map_sum tot (delete me (accounts s)) + pools s.
Definition money s := (accounts s, shielded_value s, shielded_v2_value s, htlc_locked s, vault_collateral s).

Lemma money_native me s s' :
  money s' = money s → native s' = native s ∧ native_but me s' = native_but me s.
Proof. unfold money, native, native_but, pools. intros [= -> -> -> -> ->]. done. Qed.

(** ** Mutators that move no coin *)
Lemma money_record op l : money (st (record op l)) = money (st l).
Proof. by ledger_simpl. Qed.
Lemma money_set_contract l c k v : money (st (set_contract_value l c k v)) = money (st l).
Proof. unfold set_contract_value. repeat case_match; by ledger_simpl. Qed.
Lemma money_set_token l a t : money (st (set_token l a t)) = money (st l).
Proof. unfold set_token. by ledger_simpl. Qed.
Lemma money_set_token_balance l a h b : money (st (set_token_balance l a h b)) = money (st l).
Proof. unfold set_token_balance. case_match; by ledger_simpl. Qed.
Lemma money_set_token_window l a h w : money (st (set_token_window l a h w)) = money (st l).
Proof. unfold set_token_window. case_match; by ledger_simpl. Qed.
Lemma money_fold {A} (f : Ledger → A → Ledger) (xs : list A) l :
  (∀ l x, money (st (f l x)) = money (st l)) → money (st (foldl f l xs)) = money (st l).
Proof. intros Hf. revert l. induction xs as [|x xs IH]; intros l; [done|]. cbn [foldl]. by rewrite IH, Hf. Qed.
Lemma money_set_token_policy l a p : money (st (set_token_policy l a p)) = money (st l).
Proof.
  unfold set_token_policy. rewrite money_fold by (intros; unfold clear_window; by ledger_simpl).
  ledger_simpl. unfold money. cbn [accounts shielded_value shielded_v2_value htlc_locked vault_collateral].
  change (money (st (foldl (λ l e, record (UTokenWindow e.1.1 e.1.2 (Some e.2)) l)
    (record (UTokenPolicy a (token_policies (st l) !! a)) l) (windows_of (st l) a))) = money (st l)).
  rewrite money_fold by (intros; apply money_record). apply money_record.
Qed.
Lemma money_consume_intent l i : money (st (consume_intent l i)) = money (st l).
Proof. unfold consume_intent. case_match; by ledger_simpl. Qed.
Lemma money_set_nft_class l i c : money (st (set_nft_class l i c)) = money (st l).
Proof. unfold set_nft_class. by ledger_simpl. Qed.
Lemma money_mint_nft l c t o m h l' : mint_nft l c t o m h = Some l' → money (st l') = money (st l).
Proof. unfold mint_nft. case_match; intros; simplify_eq. by ledger_simpl. Qed.
Lemma money_transfer_nft l c t o : money (st (default l (transfer_nft l c t o))) = money (st l).
Proof. unfold transfer_nft, put_nft. destruct (nfts _ !! _); [|done]. simpl. by ledger_simpl. Qed.
Lemma money_set_nft_meta l c t m : money (st (default l (set_nft_meta l c t m))) = money (st l).
Proof. unfold set_nft_meta, put_nft. destruct (nfts _ !! _); [|done]. simpl. by ledger_simpl. Qed.
Lemma money_register_name l n o h : money (st (default l (register_name l n o h))) = money (st l).
Proof. destruct (register_name _ _ _ _) eqn:E; [|done]. by eapply money_mint_nft. Qed.
Lemma money_transfer_name l n o : money (st (default l (transfer_name l n o))) = money (st l).
Proof. apply money_transfer_nft. Qed.
Lemma money_set_multisig l a p : money (st (set_multisig l a p)) = money (st l).
Proof. unfold set_multisig. by ledger_simpl. Qed.
Lemma money_set_proposal l i p : money (st (set_proposal l i p)) = money (st l).
Proof. unfold set_proposal. by ledger_simpl. Qed.
Lemma money_remove_proposal l i : money (st (remove_proposal l i)) = money (st l).
Proof. unfold remove_proposal. by ledger_simpl. Qed.
Lemma money_remove_proposals_for l a : money (st (remove_proposals_for l a).2) = money (st l).
Proof.
  unfold remove_proposals_for. case_match; [done|]. cbn [snd]. ledger_simpl.
  rewrite money_fold; [done|]. intros. unfold drop_proposal. by ledger_simpl.
Qed.
Lemma money_set_oracle_price l p : money (st (set_oracle_price l p)) = money (st l).
Proof. unfold set_oracle_price. by ledger_simpl. Qed.
Lemma money_set_deshield_window l a b : money (st (set_deshield_window l a b)) = money (st l).
Proof. unfold set_deshield_window. by ledger_simpl. Qed.
Lemma money_set_deshield_v2_window l a b : money (st (set_deshield_v2_window l a b)) = money (st l).
Proof. unfold set_deshield_v2_window. by ledger_simpl. Qed.
Lemma money_apply_shielded_bundle l b l' r : apply_shielded_bundle l b = (l', r) → money (st l') = money (st l).
Proof. unfold apply_shielded_bundle. destruct (pool_apply _ _) as [p []]; intros [= <- _]; by ledger_simpl. Qed.
Lemma money_apply_shielded_v2 l ns cs l' r : apply_shielded_v2 l ns cs = (l', r) → money (st l') = money (st l).
Proof. unfold apply_shielded_v2. destruct (pool_apply _ _) as [p []]; intros [= <- _]; by ledger_simpl. Qed.
End money.

#[export] Hint Rewrite @money_set_contract @money_set_token @money_set_token_balance
  @money_set_token_window @money_set_token_policy @money_consume_intent @money_set_nft_class
  @money_transfer_nft @money_set_nft_meta @money_register_name @money_transfer_name
  @money_set_multisig @money_set_proposal @money_remove_proposal @money_remove_proposals_for
  @money_set_oracle_price @money_set_deshield_window @money_set_deshield_v2_window : money.

Section moves.
Context `{LE : LedgerEnv}.
Implicit Types (l : Ledger) (s : Store) (me : AccountId).

(** ** Mutators that move coin *)

Lemma map_sum_set (m : gmap AccountId Account) id a :
  map_sum tot (if Acct.is_empty a then delete id m else <[id := a]> m) = tot a + map_sum tot (delete id m).
Proof.
  destruct (Acct.is_empty a) eqn:E; [|by rewrite map_sum_insert].
  unfold Acct.is_empty in E. apply bool_decide_eq_true in E as ->. done.
Qed.
Lemma accounts_set_account l id a :
  accounts (st (set_account l id a))
  = if Acct.is_empty a then delete id (accounts (st l)) else <[id := a]> (accounts (st l)).
Proof. unfold set_account. by case_match; ledger_simpl. Qed.
Lemma pools_set_account l id a : pools (st (set_account l id a)) = pools (st l).
Proof. unfold set_account. by case_match; ledger_simpl. Qed.

Lemma tot_account l id : tot (account l id) = at_or_0 tot (accounts (st l) !! id).
Proof. unfold account. by destruct (accounts (st l) !! id). Qed.

Lemma native_split me l : native (st l) = tot (account l me) + native_but me (st l).
Proof. unfold native, native_but. rewrite (map_sum_split tot _ me), tot_account. lia. Qed.
Lemma native_set_account l id a : native (st (set_account l id a)) = tot a + native_but id (st l).
Proof.
  unfold native, native_but. rewrite pools_set_account, accounts_set_account, map_sum_set. lia.
Qed.
Lemma native_but_set_me l me a : native_but me (st (set_account l me a)) = native_but me (st l).
Proof.
  unfold native_but. rewrite pools_set_account, accounts_set_account.
  case_match; by rewrite ?delete_delete_eq, ?delete_insert_eq.
Qed.
Lemma native_but_set_account l me id a :
  id ≠ me → native_but me (st (set_account l id a)) + tot (account l id) = native_but me (st l) + tot a.
Proof.
  intros Hne. unfold native_but. rewrite pools_set_account, accounts_set_account.
  assert (delete me (if Acct.is_empty a then delete id (accounts (st l)) else <[id := a]> (accounts (st l)))
    = (if Acct.is_empty a then delete id (delete me (accounts (st l)))
       else <[id := a]> (delete me (accounts (st l))))) as ->.
  { case_match; [apply delete_delete|]. by rewrite delete_insert_ne. }
  rewrite map_sum_set. rewrite (map_sum_split tot (delete me (accounts (st l))) id).
  rewrite lookup_delete_ne by done. rewrite tot_account. lia.
Qed.
Lemma account_set_account l id a id' :
  account (set_account l id a) id' = if decide (id = id') then a else account l id'.
Proof.
  unfold account. rewrite accounts_set_account. destruct (Acct.is_empty a) eqn:E.
  - unfold Acct.is_empty in E. apply bool_decide_eq_true in E as ->.
    case_decide; subst; [by rewrite lookup_delete_eq|by rewrite lookup_delete_ne].
  - case_decide; subst; [by rewrite lookup_insert_eq|by rewrite lookup_insert_ne].
Qed.

Lemma native_add_shielded l b l' me :
  add_shielded_value l b = Some l' →
  accounts (st l') = accounts (st l) ∧ native_but me (st l') = native_but me (st l) + b.
Proof.
  unfold add_shielded_value, set_shielded_value, Bal.checked_add. intros E.
  destruct (checked_add _ _ _) eqn:Ec; simplify_eq/=. sov_simpl. unfold native_but, pools.
  ledger_simpl. simpl. split; [done|lia].
Qed.
Lemma native_sub_shielded l b l' me :
  sub_shielded_value l b = Some l' →
  accounts (st l') = accounts (st l) ∧ native_but me (st l') + b = native_but me (st l).
Proof.
  unfold sub_shielded_value, set_shielded_value, Bal.checked_sub. intros E.
  destruct (checked_sub _ _) eqn:Ec; simplify_eq/=. sov_simpl. unfold native_but, pools.
  ledger_simpl. simpl. split; [done|lia].
Qed.
Lemma native_add_shielded_v2 l b l' me :
  add_shielded_v2_value l b = Some l' →
  accounts (st l') = accounts (st l) ∧ native_but me (st l') = native_but me (st l) + b.
Proof.
  unfold add_shielded_v2_value, set_shielded_v2_value, Bal.checked_add. intros E.
  destruct (checked_add _ _ _) eqn:Ec; simplify_eq/=. sov_simpl. unfold native_but, pools.
  ledger_simpl. simpl. split; [done|lia].
Qed.
Lemma native_sub_shielded_v2 l b l' me :
  sub_shielded_v2_value l b = Some l' →
  accounts (st l') = accounts (st l) ∧ native_but me (st l') + b = native_but me (st l).
Proof.
  unfold sub_shielded_v2_value, set_shielded_v2_value, Bal.checked_sub. intros E.
  destruct (checked_sub _ _) eqn:Ec; simplify_eq/=. sov_simpl. unfold native_but, pools.
  ledger_simpl. simpl. split; [done|lia].
Qed.
Lemma native_lock_htlc l id h l' me :
  lock_htlc l id h = Some l' → native_but me (st l') = native_but me (st l) + amount h.
Proof.
  unfold lock_htlc. destruct (htlcs _ !! _); [done|]. unfold Bal.checked_add.
  destruct (checked_add _ _ _) eqn:Ec; [|done]. intros E; simplify_eq/=. sov_simpl.
  unfold native_but, pools. ledger_simpl. simpl. lia.
Qed.
Lemma native_settle_htlc l id h l' me :
  settle_htlc l id = Some (h, l') → amount h ≤ htlc_locked (st l) →
  native_but me (st l') + amount h = native_but me (st l).
Proof.
  unfold settle_htlc. destruct (htlcs _ !! _) as [h0|]; [|done]. intros E Hle; simplify_eq/=.
  unfold Bal.checked_sub, native_but, pools. ledger_simpl. simpl.
  destruct (checked_sub _ _) eqn:Ec; sov_simpl; simpl; lia.
Qed.
Lemma native_set_vault l o v l' me :
  set_vault l o v = Some l' →
  native_but me (st l') + collateral (vault l o) = native_but me (st l) + collateral v.
Proof.
  unfold set_vault, vault. unfold Bal.checked_sub, Bal.checked_add. intros E.
  destruct (checked_sub _ _) eqn:E1; [|done]; simpl in E.
  destruct (checked_add _ _ _) eqn:E2; [|done]. simplify_eq/=. sov_simpl.
  unfold native_but, pools. ledger_simpl. simpl.
  destruct (vaults (st l) !! o); simpl in *; lia.
Qed.
Lemma native_add_mined l b l' me :
  add_mined_emitted l b = Some l' →
  accounts (st l') = accounts (st l) ∧ native_but me (st l') = native_but me (st l).
Proof.
  unfold add_mined_emitted. destruct (Bal.checked_add _ _); [|done]. intros E; simplify_eq/=.
  unfold native_but, pools. ledger_simpl. done.
Qed.

Lemma vault_set_token l a t o : vault (set_token l a t) o = vault l o.
Proof. unfold vault, set_token. by ledger_simpl. Qed.
Lemma vault_set_token_balance l a h b o : vault (set_token_balance l a h b) o = vault l o.
Proof. unfold vault, set_token_balance. case_match; by ledger_simpl. Qed.
End moves.
#[export] Hint Rewrite @vault_set_token @vault_set_token_balance : money.
