(* ===== verification/Conservation.v ===== *)
(** * Transactions conserve the native supply
    (crates/runtime/src/execution.rs apply_transaction, apply_coinbase) *)

From S2P Require Import Prelude Primitives Mining Crypto Compliance Types Gas Smt Vault Ledger.
From S2P Require Import ShieldedV2 Execution LedgerUndo LedgerCommit ExecSteps Supply.

(** ** Escrow counters

    [htlc_locked] is the sum of the open HTLCs and [vault_collateral] the sum of the
    vaults' collateral: an invariant of every mutator. *)

Section backed.
Context `{LE : LedgerEnv}.
Implicit Types (l : Ledger) (s : Store).

Definition escrow s := (htlcs s, htlc_locked s, vaults s, vault_collateral s).
Definition backed s : Prop :=
  htlc_locked s = map_sum amount (htlcs s) ∧ vault_collateral s = map_sum collateral (vaults s).

Lemma escrow_backed s s' : escrow s' = escrow s → backed s → backed s'.
Proof. unfold escrow, backed. by intros [= -> -> -> ->]. Qed.
Lemma escrow_fold {A} (f : Ledger → A → Ledger) (xs : list A) l :
  (∀ l x, escrow (st (f l x)) = escrow (st l)) → escrow (st (foldl f l xs)) = escrow (st l).
Proof. intros Hf. revert l. induction xs as [|x xs IH]; intros l; [done|]. cbn [foldl]. by rewrite IH, Hf. Qed.
Lemma escrow_set_token_policy l a p : escrow (st (set_token_policy l a p)) = escrow (st l).
Proof.
  unfold set_token_policy. rewrite escrow_fold by (intros; unfold clear_window; by ledger_simpl).
  ledger_simpl. change (escrow (st (foldl (λ l e, record (UTokenWindow e.1.1 e.1.2 (Some e.2)) l)
    (record (UTokenPolicy a (token_policies (st l) !! a)) l) (windows_of (st l) a))) = escrow (st l)).
  rewrite escrow_fold; [|intros]; by ledger_simpl.
Qed.

Lemma lock_backed l id h l' : lock_htlc l id h = Some l' → backed (st l) → backed (st l').
Proof.
  unfold lock_htlc, Bal.checked_add. destruct (htlcs _ !! _) eqn:E; [done|].
  destruct (checked_add _ _ _) eqn:Ec; [|done]. intros E' [B1 B2]; simplify_eq/=. sov_simpl.
  unfold backed. ledger_simpl. simpl. rewrite map_sum_insert_None by done. split; [lia|done].
Qed.
Lemma settle_amount l id h l' :
  settle_htlc l id = Some (h, l') → backed (st l) → amount h ≤ htlc_locked (st l).
Proof.
  unfold settle_htlc. destruct (htlcs _ !! _) eqn:E; [|done]. intros ? [-> _]; simplify_eq/=.
  by eapply map_sum_lookup_le.
Qed.
Lemma settle_backed l id h l' : settle_htlc l id = Some (h, l') → backed (st l) → backed (st l').
Proof.
  intros Es B. pose proof (settle_amount _ _ _ _ Es B) as Hle. destruct B as [B1 B2].
  unfold settle_htlc in Es. destruct (htlcs _ !! _) eqn:E; [|done]. simplify_eq/=.
  unfold backed, Bal.checked_sub. ledger_simpl. simpl. split; [|done].
  rewrite (map_sum_delete _ _ _ _ E) in B1.
  destruct (checked_sub _ _) eqn:Ec; sov_simpl; simpl; lia.
Qed.
Lemma vault_backed l o v l' : set_vault l o v = Some l' → backed (st l) → backed (st l').
Proof.
  unfold set_vault, Bal.checked_sub, Bal.checked_add. intros E [B1 B2].
  destruct (checked_sub _ _) eqn:E1; [|done]; simpl in E.
  destruct (checked_add _ _ _) eqn:E2; [|done]. simplify_eq/=. sov_simpl.
  unfold backed. ledger_simpl. simpl. split; [done|].
  rewrite B2 in *. pose proof (map_sum_split collateral (vaults (st l)) o). unfold Vlt.is_empty.
  destruct (collateral v =? 0) eqn:Ev; simpl;
    [apply N.eqb_eq in Ev; destruct (debt v =? 0)|]; rewrite ?map_sum_insert;
    destruct (vaults (st l) !! o); simpl in *; lia.
Qed.

Lemma writes_backed l T l' : writes l T l' → backed (st l) → backed (st l').
Proof.
  destruct 1; try (by eapply lock_backed); try (by eapply settle_backed); try (by eapply vault_backed);
    apply escrow_backed; try apply escrow_set_token_policy.
  all: open_write.
  unfold remove_proposals_for. case_match; [done|]. cbn [snd]. ledger_simpl.
  apply escrow_fold. intros. unfold drop_proposal. by ledger_simpl.
Qed.

(** Only the emission slot holds the emission counter. *)
Lemma mined_fold {A} (f : Ledger → A → Ledger) (xs : list A) l :
  (∀ l x, mined_emitted (st (f l x)) = mined_emitted (st l)) →
  mined_emitted (st (foldl f l xs)) = mined_emitted (st l).
Proof. intros Hf. revert l. induction xs as [|x xs IH]; intros l; [done|]. cbn [foldl]. by rewrite IH, Hf. Qed.
Lemma writes_mined l T l' :
  writes l T l' → SReserved MINED_SLOT ∉ T → mined_emitted (st l') = mined_emitted (st l).
Proof.
  destruct 1; intros HT; try (by exfalso; apply HT; left);
    clear HT; open_write.
  - unfold remove_proposals_for. case_match; [done|]. cbn [snd]. ledger_simpl.
    apply mined_fold. intros. unfold drop_proposal. by ledger_simpl.
  - unfold set_token_policy. rewrite mined_fold by (intros; unfold clear_window; by ledger_simpl).
    ledger_simpl. cbn [mined_emitted]. rewrite mined_fold; [|intros]; by ledger_simpl.
Qed.
Lemma run_backed l l' : rtc mutates l l' → backed (st l) → backed (st l').
Proof. induction 1 as [|? ? ? [T Hw] _ IH]; [done|]. intros. apply IH. by eapply writes_backed. Qed.
End backed.

(** ** The value of a running transaction *)

Section value.
Context `{XE : ExecEnv}.
Implicit Types (l : Ledger) (s : Locals) (me : AccountId).

(** The ledger without the signer, the live copy of the signer, and the fee. *)
Definition value me s : N := native_but me (st (ledger s)) + tot (signer s) + fee_paid s.

Definition nb me (m : gmap AccountId Account * N * N * N * N) : N :=
  let '(a, s1, s2, h, v) := m in map_sum tot (delete me a) + (s1 + s2 + h + v).
Lemma native_but_nb me (s : Store) : native_but me s = nb me (money s).
Proof. done. Qed.

Lemma tot_set_balance b a : tot (Acct.set_balance b a) = b + locked a.
Proof. done. Qed.
Lemma tot_set_key k a : tot (Acct.set_key k a) = tot a.
Proof. done. Qed.
Lemma tot_set_code c a : tot (Acct.set_code c a) = tot a.
Proof. done. Qed.
Lemma tot_set_nonce n a : tot (Acct.set_nonce n a) = tot a.
Proof. done. Qed.

Lemma native_but_fold {A} (f : Ledger → A → Ledger) (xs : list A) l me :
  (∀ l x, money (st (f l x)) = money (st l)) →
  native_but me (st (foldl f l xs)) = native_but me (st l).
Proof. intros Hf. by rewrite !native_but_nb, money_fold. Qed.
End value.

Lemma add_fits a b c : Bal.checked_add a b = Some c → c = a + b ∧ a + b ≤ u128_max.
Proof. apply Bal.add_Some. Qed.
Lemma sub_fits a b c : Bal.checked_sub a b = Some c → c = a - b ∧ b ≤ a.
Proof. apply Bal.sub_Some. Qed.

(** Turns the equations of a finished run into arithmetic. *)
Ltac bal_facts :=
  repeat match goal with
  | H : Bal.checked_add _ _ = Some _ |- _ => apply add_fits in H as [? ?]
  | H : Bal.checked_sub _ _ = Some _ |- _ => apply sub_fits in H as [? ?]
  end; subst.
Ltac coin_facts me :=
  repeat match goal with
  | H : add_shielded_value _ _ = Some _ |- _ => apply (native_add_shielded _ _ _ me) in H as [? ?]
  | H : sub_shielded_value _ _ = Some _ |- _ => apply (native_sub_shielded _ _ _ me) in H as [? ?]
  | H : add_shielded_v2_value _ _ = Some _ |- _ => apply (native_add_shielded_v2 _ _ _ me) in H as [? ?]
  | H : sub_shielded_v2_value _ _ = Some _ |- _ => apply (native_sub_shielded_v2 _ _ _ me) in H as [? ?]
  | H : lock_htlc _ _ _ = Some _ |- _ => apply (native_lock_htlc _ _ _ _ me) in H
  | H : set_vault _ _ _ = Some _ |- _ => apply (native_set_vault _ _ _ _ me) in H
  | H : mint_nft _ _ _ _ _ _ = Some _ |- _ => apply money_mint_nft in H
  | H : apply_shielded_bundle _ _ = (_, _) |- _ => apply money_apply_shielded_bundle in H
  | H : apply_shielded_v2 _ _ _ = (_, _) |- _ => apply money_apply_shielded_v2 in H
  end.
Ltac money_simpl :=
  rewrite ?native_but_nb in *; autorewrite with money in *;
  repeat match goal with H : money _ = money _ |- _ => rewrite ?H in *; clear H end;
  rewrite <- ?native_but_nb in *; rewrite ?tot_set_balance, ?tot_set_key, ?tot_set_code in *.
Ltac conserve me :=
  unfold value; cbn [ledger signer fee_paid]; coin_facts me; bal_facts; money_simpl;
  unfold tot, Acct.set_balance in *; cbn [amount collateral debt balance locked from_option] in *; lia.

Section arms.
Context `{XE : ExecEnv}.
Variables (stx : SignedTransaction) (ctx : BlockContext).
Abbreviation me := (signer_id (transaction stx)).
Implicit Types (l : Ledger) (s : Locals).

Definition conserves {A} (m : M A) : Prop :=
  ∀ s s' a, backed (st (ledger s)) → m s = (s', Ok a) → value me s' = value me s.

Ltac cons := let m := constr:(signer_id (transaction stx)) in conserve m.
Ltac arm f := intros s s' ret B; unfold f; exec_unfold; intros; exec_cases; try cons.

Lemma transfer_conserves to b : conserves (exec_transfer stx to b).
Proof.
  arm (@exec_transfer). unfold do_transfer in *. exec_cases; try cons.
  match goal with H : bool_decide _ = false |- _ => apply bool_decide_eq_false in H as Hne end.
  pose proof (native_but_set_account (ledger s) me _
    (Acct.set_balance n0 (account (ledger s) (resolve_recipient (ledger s) to))) Hne).
  cons.
Qed.
Lemma vesting_conserves : conserves (exec_claim_vesting ctx).
Proof. arm (@exec_claim_vesting). Qed.
Lemma deploy_conserves c : conserves (exec_deploy c).
Proof. arm (@exec_deploy). Qed.
Lemma rotate_conserves h k p : conserves (exec_rotate_key stx h k p).
Proof. arm (@exec_rotate_key). Qed.
Lemma shielded_conserves b : conserves (exec_shielded stx ctx b).
Proof. arm (@exec_shielded). all: unfold shielded_legs in *; exec_unfold; exec_cases; cons. Qed.
Lemma htlc_lock_conserves r b h t : conserves (exec_htlc_lock stx r b h t).
Proof. arm (@exec_htlc_lock). Qed.
Lemma tokens_conserve :
  (∀ y b t, conserves (exec_token_issue stx y b t)) ∧ (∀ a t b, conserves (exec_token_transfer stx ctx a t b)) ∧
  (∀ a b, conserves (exec_token_burn stx ctx a b)) ∧ (∀ a p, conserves (exec_token_set_policy stx a p)) ∧
  (∀ i, conserves (exec_intent_cancel stx i)).
Proof.
  split_and!; intros; [arm (@exec_token_issue)|arm (@exec_token_transfer)|arm (@exec_token_burn)
    |arm (@exec_token_set_policy)|arm (@exec_intent_cancel)].
  all: unfold if_some; exec_cases; cons.
Qed.
Lemma names_conserve :
  (∀ n, conserves (exec_register_name stx ctx n)) ∧ (∀ n t, conserves (exec_transfer_name stx n t)) ∧
  (∀ y i t m, conserves (exec_nft_mint stx ctx y i t m)) ∧ (∀ c i t, conserves (exec_nft_transfer stx c i t)) ∧
  (∀ c i m, conserves (exec_nft_set_meta stx c i m)).
Proof.
  split_and!; intros; [arm (@exec_register_name)|arm (@exec_transfer_name)|arm (@exec_nft_mint)
    |arm (@exec_nft_transfer)|arm (@exec_nft_set_meta)].
Qed.
Lemma vaults_conserve :
  (∀ b, conserves (exec_vault_deposit stx b)) ∧ (∀ b, conserves (exec_vault_withdraw stx b)) ∧
  (∀ b, conserves (exec_vault_mint stx b)) ∧ (∀ b, conserves (exec_vault_burn stx b)) ∧
  (∀ p, conserves (exec_oracle_update stx p)).
Proof.
  split_and!; intros; [arm (@exec_vault_deposit)|arm (@exec_vault_withdraw)|arm (@exec_vault_mint)
    |arm (@exec_vault_burn)|arm (@exec_oracle_update)].
Qed.

Lemma settle_contract_money l c cmds h l' :
  settle_contract_token_transfers l c cmds h = Ok l' → money (st l') = money (st l).
Proof.
  unfold settle_contract_token_transfers. case_match; intros E; simplify_eq; [done|].
  sov_simpl. destruct x as [scratch windows]. sov_simpl.
  rewrite money_fold by (intros; apply money_set_token_window).
  by rewrite money_fold by (intros; apply money_set_token_balance).
Qed.
Lemma call_conserves c g d : conserves (exec_call stx ctx c g d).
Proof.
  arm (@exec_call). match goal with H : settle_contract_token_transfers _ _ _ _ = Ok _ |- _ =>
    apply settle_contract_money in H end.
  unfold value; cbn [ledger signer fee_paid]. rewrite native_but_fold by (intros; apply money_set_contract).
  cons.
Qed.

Lemma pay_htlc_conserves id h :
  ∀ s s' ret, backed (st (ledger s)) → htlcs (st (ledger s)) !! id = Some h →
  pay_htlc id h s = (s', Ok ret) → value me s' = value me s.
Proof.
  intros s s' ret B Hh. unfold pay_htlc; exec_unfold; intros; exec_cases.
  - match goal with H : settle_htlc _ _ = Some (?h', _) |- _ =>
      assert (h' = h) as -> by (unfold settle_htlc in H; rewrite Hh in H; by simplify_eq/=);
      pose proof (settle_amount _ _ _ _ H B); apply (native_settle_htlc _ _ _ _ me) in H; [|done] end.
    cons.
  - exfalso. match goal with H : settle_htlc _ _ = None |- _ =>
      unfold settle_htlc in H; by rewrite Hh in H end.
Qed.
Lemma htlc_settle_conserves :
  (∀ i p, conserves (exec_htlc_claim stx ctx i p)) ∧ (∀ i, conserves (exec_htlc_refund stx ctx i)).
Proof.
  split; intros; [arm (@exec_htlc_claim)|arm (@exec_htlc_refund)]; by eapply pay_htlc_conserves.
Qed.

Lemma money_if_some {A} (o : option A) (f : A → Ledger → Ledger) l :
  (∀ a l, money (st (f a l)) = money (st l)) → money (st (if_some o f l)) = money (st l).
Proof. intros Hf. destruct o; simpl; auto. Qed.

(** The owner's and the solver's native legs cancel. *)
Lemma settle_legs_conserve l a sm h l' a' :
  settle_intent_legs l a me sm h = Ok (l', a') →
  give_asset (si_intent (s_intent sm)) ≠ want_asset (si_intent (s_intent sm)) →
  ∃ oa, money (st l') = money (st (set_account l (i_owner (si_intent (s_intent sm))) oa)) ∧
    tot oa + tot a' = tot (account l (i_owner (si_intent (s_intent sm)))) + tot a.
Proof.
  intros E Hga. unfold settle_intent_legs, soft, settle_leg, or_soft, or_hard in E.
  destruct (give_asset _) as [|g], (want_asset _) as [|w]; [done|..]; sov_simpl;
    repeat (case_match; sov_simpl); cbn [on_native on_token if_some fmap result_fmap ok_or] in *;
    repeat match goal with H : Some <$> ok_or ?o _ = Ok _ |- _ => destruct o eqn:?; simplify_eq/= end;
    repeat match goal with H : (λ a, Some (_, a)) <$> ok_or ?o _ = Ok _ |- _ => destruct o eqn:?; simplify_eq/= end;
    repeat match goal with H : Ok _ = Ok _ |- _ => injection H as <- end.
  all: eexists; split;
    [repeat (rewrite money_if_some; [|by intros; first [apply money_if_some; intros|idtac]; autorewrite with money]);
     autorewrite with money; reflexivity|].
  all: cbn [if_some]; bal_facts; rewrite ?tot_set_balance; unfold tot; lia.
Qed.
Lemma intent_conserves sm : conserves (exec_intent_settle stx ctx sm).
Proof.
  arm (@exec_intent_settle).
  match goal with H : settle_intent_legs _ _ _ _ _ = Ok _ |- _ => apply settle_legs_conserve in H as (oa & Em & Et) end;
    [|by eapply bool_decide_eq_false].
  assert (i_owner (si_intent (s_intent sm)) ≠ me) as Hne by (by eapply bool_decide_eq_false).
  pose proof (native_but_set_account (ledger s) me _ oa Hne).
  unfold value; cbn [ledger signer fee_paid]. rewrite !native_but_nb, money_consume_intent, Em, <- !native_but_nb. lia.
Qed.

(** *** Multisig proposals

    A proposal runs on the ledger, not on the live copy of the signer. *)

(** Does executing [a] for the vault [acc] read or write the account [me]? *)
Definition touches l (who acc : AccountId) (a : Action.t) : bool :=
  bool_decide (acc = who)
  || match a with Action.Transfer to _ => bool_decide (resolve_recipient l to = who) | _ => false end.
Definition aliased l (who : AccountId) (a : Action.t) : bool :=
  match a with
  | Action.ProposeMultisig acc inner => touches l who acc inner
  | Action.ApproveMultisig acc proposal =>
      match proposals (st l) !! proposal ≫= λ p, action_from_slice (mpr_action p) with
      | Some inner => touches l who acc inner
      | None => false
      end
  | _ => false
  end.

Lemma execute_proposal_conserves l acc a l' status :
  execute_proposal_action l acc a = Ok (l', status) → touches l me acc a = false →
  native_but me (st l') = native_but me (st l).
Proof.
  unfold execute_proposal_action, touches. intros E Ht.
  destruct a; simplify_eq; try done. apply orb_false_iff in Ht as [Ha Hr].
  apply bool_decide_eq_false in Ha, Hr. sov_simpl. destruct x as [[l1 v] st1]. sov_simpl.
  unfold do_transfer in *. set (dst := resolve_recipient l to) in *.
  assert (native_but me (st (set_account l acc (account l acc))) = native_but me (st l)) as Hid.
  { pose proof (native_but_set_account l me acc (account l acc) Ha). lia. }
  destruct (Bal.checked_sub _ _) as [rem|] eqn:Es; [|by simplify_eq].
  destruct (bool_decide (dst = acc)) eqn:Ed; [by simplify_eq|]. apply bool_decide_eq_false in Ed.
  destruct (Bal.checked_add _ _) as [cr|] eqn:Ec; simplify_eq.
  pose proof (native_but_set_account l me dst (Acct.set_balance cr (account l dst)) Hr) as H1.
  pose proof (native_but_set_account (set_account l dst (Acct.set_balance cr (account l dst))) me acc
    (Acct.set_balance rem (account l acc)) Ha) as H2.
  rewrite account_set_account in H2. destruct (decide (dst = acc)); [done|]. cons.
Qed.
Lemma propose_conserves acc a s s' ret :
  exec_propose stx ctx acc a s = (s', Ok ret) →
  aliased (ledger s) me (Action.ProposeMultisig acc a) = false → value me s' = value me s.
Proof.
  unfold exec_propose; exec_unfold; intros; exec_cases; try cons.
  match goal with H : execute_proposal_action _ _ _ = Ok _ |- _ => apply execute_proposal_conserves in H; [|done] end.
  cons.
Qed.
Lemma approve_conserves acc p s s' ret :
  exec_approve stx ctx acc p s = (s', Ok ret) →
  aliased (ledger s) me (Action.ApproveMultisig acc p) = false → value me s' = value me s.
Proof.
  unfold exec_approve; exec_unfold; intros E Ha. unfold aliased in Ha. exec_cases; try cons.
  all: match goal with H : execute_proposal_action _ _ _ = Ok _ |- _ =>
    apply execute_proposal_conserves in H; [|simplify_eq/=; congruence] end; cons.
Qed.
Lemma multisig_conserve :
  (∀ h k t, conserves (exec_set_multisig stx h k t)) ∧ (∀ c p, conserves (exec_cancel stx ctx c p)).
Proof. split; intros; [arm (@exec_set_multisig)|arm (@exec_cancel)]. Qed.

(** *** Pool v2: a withdrawal may pay the fee it deferred. *)
Lemma shielded_v2_conserves d fee b s s' ret :
  exec_shielded_v2 stx ctx d fee b s = (s', Ok ret) → (∀ e, d = Some e → deshield_out e ≠ 0) →
  value me s' + from_option (λ _, fee) 0 d = value me s.
Proof.
  unfold exec_shielded_v2; exec_unfold; intros E Hd. destruct d as [e|]; exec_cases;
    rewrite ?negb_false_iff, ?N.eqb_eq in *; try cons; try (exfalso; by eapply Hd).
Qed.
End arms.
