(* ===== verification/Transaction.v ===== *)
(** * What a transaction must satisfy to run, and what running it preserves
    (crates/runtime/src/execution.rs apply_transaction, apply_coinbase, apply_transactions)

    The checks before the first write, then the theorems on whole transactions and
    blocks: conservation of the supply, nonces, authorisation. *)

From S2P Require Import Prelude Primitives Mining Crypto Compliance Types Gas Smt Vault Ledger.
From S2P Require Import ShieldedV2 Execution LedgerUndo LedgerCommit ExecSteps Supply Conservation.

(** ** What the checks establish *)

Section preflight.
Context `{XE : ExecEnv}.
Implicit Types (l : Ledger) (stx : SignedTransaction) (ctx : BlockContext).

Lemma authorize_account l tx a :
  authorize l tx = Ok a →
  a = account l (signer_id tx) ∨
  key (account l (signer_id tx)) = None ∧ a = Acct.set_key (Some (public_key tx)) (account l (signer_id tx)).
Proof.
  unfold authorize. intros E. repeat case_match; simplify_eq; auto.
Qed.

Lemma direct_withdrawal_spec a l ctx me n b e :
  verify_direct_suite2_withdrawal_for_fee a l ctx me n b = Ok (Some e) →
  deshield_out e ≠ 0 ∧ ∃ bundle, a = Action.ShieldedV2 bundle.
Proof.
  unfold verify_direct_suite2_withdrawal_for_fee. case_match; [done|]. destruct a; try done.
  case_match; [done|]. intros. sov_simpl. case_match; sov_simpl.
  match goal with H : _ || _ = false |- _ => apply orb_false_iff in H as [_ H]; apply N.eqb_neq in H end.
  eauto.
Qed.

Lemma unwrap_envelope_spec l tx ctx h a act act' err a' tip :
  unwrap_envelope l tx ctx h a act = Ok (act', err, a', tip) →
  tot a' + tip = tot a ∧ nonce a' = nonce a ∧ key a' = key a ∧
  (∀ b, act = Action.ShieldedV2 b → act' = act ∧ err = None).
Proof.
  unfold unwrap_envelope. intros E.
  destruct act; repeat (case_match; sov_simpl); simplify_eq; try (split_and!; (lia || done)).
  all: bal_facts; split_and!; try done; rewrite tot_set_balance; unfold tot; lia.
Qed.

(** The signer after the checks: one nonce on, the fee and the tip paid. *)
Record prepared l stx ctx (r : Ready) (a : Account) : Prop := {
  pre_signed : verify_signature_mode stx (tx_domain ctx) = true;
  pre_auth : authorize l (transaction stx) = Ok a;
  pre_nonce : tx_nonce (transaction stx) = nonce a;
  pre_next : nonce (rd_signer r) = nonce a + 1;
  pre_key : key (rd_signer r) = key a;
  pre_value : tot (rd_signer r) + rd_tip r + rd_intrinsic_fee r
              = tot a + from_option (λ _, rd_intrinsic_fee r) 0 (rd_deferred r);
  pre_deferred : ∀ e, rd_deferred r = Some e → deshield_out e ≠ 0 ∧ rd_ms_error r = None ∧
                 ∃ bundle, rd_action r = Action.ShieldedV2 bundle;
}.

Lemma check_timestamp_direct a ctx b x : a = Action.ShieldedV2 b → check_timestamp a ctx = Ok x → x = (a, None).
Proof. intros ->. simpl. by intros [= <-]. Qed.

Lemma preflight_spec l stx ctx r : preflight l stx ctx = Ok r → ∃ a, prepared l stx ctx r a.
Proof.
  unfold preflight. set (tx := transaction stx).
  destruct (verify_signature_mode stx (tx_domain ctx)) eqn:Hsig; [|done]. cbn [negb].
  intros E. sov_simpl. exists x.
  destruct (tx_nonce tx =? nonce x) eqn:Hn; [|done]. cbn [negb] in *. apply N.eqb_eq in Hn.
  sov_simpl. destruct (find_inactive_feature _ _); [done|]. destruct (has_nested_timestamp _); [done|].
  sov_simpl. destruct x2 as [inner timing]. sov_simpl. destruct x7 as [[[act err] a'] tip]. sov_simpl.
  match goal with H : unwrap_envelope _ _ _ _ _ _ = _ |- _ => apply unwrap_envelope_spec in H as (Hv & Hn' & Hk & Hsv2) end.
  constructor; cbn [rd_signer rd_tip rd_intrinsic_fee rd_deferred rd_ms_error rd_action]; try done.
  - rewrite Hv, tot_set_balance. cbn [locked Acct.set_nonce]. unfold tot.
    destruct x4 as [e|]; cbn [from_option].
    + rewrite andb_false_r in H7. simplify_eq. lia.
    + rewrite andb_true_r in H7. destruct (x3 =? 0) eqn:E0; [apply N.eqb_eq in E0|]; cbn [negb] in H7;
        sov_simpl; bal_facts; lia.
  - intros e ->. clear H7. destruct (negb _ && _); [|done]. sov_simpl.
    destruct (Bal.checked_sub _ _); sov_simpl.
    match goal with H : verify_direct_suite2_withdrawal_for_fee _ _ _ _ _ _ = _ |- _ =>
      apply direct_withdrawal_spec in H as (Hd & b & Ha) end.
    pose proof (check_timestamp_direct _ _ _ _ Ha H2) as [= -> ->].
    destruct (Hsv2 b Ha) as [-> ->]. eauto.
Qed.
End preflight.

(** ** Supply *)

Section supply.
Context `{XE : ExecEnv}.
Implicit Types (l : Ledger) (stx : SignedTransaction) (ctx : BlockContext).

Definition entry_sum (es : list (AccountId * Account)) : N := foldr (λ e acc, tot e.2 + acc) 0 es.
Lemma entry_sum_map (m : gmap AccountId Account) : entry_sum (entries m) = map_sum tot m.
Proof.
  trans (entry_sum (map_to_list m)).
  - induction (entries_perm m); simpl; lia.
  - unfold map_sum. rewrite map_fold_foldr. unfold entry_sum.
    induction (map_to_list m) as [|[k a] es IH]; simpl; [done|]. by rewrite IH.
Qed.
(** The checked sum over the accounts. *)
Lemma supply_loop es acc v : acc ≤ u128_max →
  foldl (λ acc (e : AccountId * Account), sum ← acc; t ← Acct.total e.2; Bal.checked_add sum t)
    (Some acc) es = Some v ↔ v = acc + entry_sum es ∧ v ≤ u128_max.
Proof.
  set (f := λ (acc : option N) (e : AccountId * Account), _).
  assert (∀ es, foldl f None es = None) as HN by (induction es0; done).
  assert (∀ acc k a, f (Some acc) (k, a) = if acc + tot a <=? u128_max then Some (acc + tot a) else None) as Hf.
  { intros acc' k a. subst f. unfold Acct.total, Bal.checked_add, checked_add, tot. cbn [mbind option_bind snd].
    destruct (N.leb_spec (balance a + locked a) u128_max); cbn [option_bind]; [done|].
    by rewrite (proj2 (N.leb_gt _ _)) by lia. }
  clearbody f. revert acc. induction es as [|[k a] es IH]; intros acc Hacc; cbn [foldl entry_sum foldr snd].
  { rewrite N.add_0_r. split; [intros [= <-]; done|intros [-> _]; done]. }
  change (foldr _ 0 es) with (entry_sum es). rewrite Hf.
  destruct (N.leb_spec (acc + tot a) u128_max); [rewrite IH by done; split; lia|].
  rewrite HN. split; [done|lia].
Qed.

(** [total_supply] is the sum, or [None] when the sum leaves 128 bits. *)
Lemma total_supply_native l v :
  total_supply l = Some v ↔ v = native (st l) ∧ native (st l) ≤ u128_max.
Proof.
  unfold total_supply, native, pools. rewrite <- entry_sum_map.
  destruct (foldl _ _ _) as [sum|] eqn:Ef.
  - apply supply_loop in Ef as [-> Hle]; [|done]. cbn [mbind option_bind].
    unfold Bal.checked_add, checked_add.
    repeat (case_match; cbn [option_bind mbind]; rewrite ?N.leb_le, ?N.leb_gt in * );
      (split; [intros [= <-]|intros [-> ?]; f_equal]); lia.
  - split; [done|]. intros [-> Hle]. exfalso.
    assert (foldl (λ acc (e : AccountId * Account), sum ← acc; t ← Acct.total e.2; Bal.checked_add sum t)
      (Some 0) (entries (accounts (st l))) = Some (entry_sum (entries (accounts (st l))))) as E.
    { apply supply_loop; [done|]. split; lia. }
    congruence.
Qed.

Lemma credit_native l id b l' : credit l id b = Ok l' → native (st l') = native (st l) + b.
Proof.
  unfold credit. case_match; [rewrite N.eqb_eq in *; intros; simplify_eq; lia|]. intros. sov_simpl.
  bal_facts. rewrite native_set_account, tot_set_balance, (native_split id l). unfold tot. lia.
Qed.
Lemma epilogue_native stx ctx r status s s' rc :
  epilogue stx ctx r status s = (s', Ok rc) →
  native (st (ledger s')) = value (signer_id (transaction stx)) s + rd_tip r.
Proof.
  unfold epilogue, distribute_fee; exec_unfold; intros; exec_cases.
  repeat match goal with H : credit _ _ _ = Ok _ |- _ => apply credit_native in H end.
  rewrite native_set_account in *. unfold value. lia.
Qed.

Lemma run_action_value stx ctx r s s' status :
  run_action stx ctx r s = (s', Ok status) → backed (st (ledger s)) →
  aliased (ledger s) (signer_id (transaction stx)) (rd_action r) = false →
  (∀ e, rd_deferred r = Some e → deshield_out e ≠ 0 ∧ ∃ b, rd_action r = Action.ShieldedV2 b) →
  value (signer_id (transaction stx)) s' + from_option (λ _, rd_intrinsic_fee r) 0 (rd_deferred r)
  = value (signer_id (transaction stx)) s.
Proof.
  intros E B Ha Hd. unfold run_action in E.
  destruct (htlc_settle_conserves stx ctx) as (? & ?), (tokens_conserve stx ctx) as (? & ? & ? & ? & ?),
    (names_conserve stx ctx) as (? & ? & ? & ? & ?), (multisig_conserve stx ctx) as (? & ?),
    (vaults_conserve stx) as (? & ? & ? & ? & ?).
  assert ((∀ b, rd_action r ≠ Action.ShieldedV2 b) → rd_deferred r = None) as Hn.
  { intros Hn. destruct (rd_deferred r) as [e|]; [|done]. destruct (Hd e eq_refl) as (_ & b & ?).
    by edestruct Hn. }
  destruct (rd_action r) eqn:Er;
    try (by eapply shielded_v2_conserves; [exact E|intros e He; by destruct (Hd e He)]);
    rewrite Hn by done; cbn [from_option]; rewrite N.add_0_r; try (by exec_unfold; simplify_eq);
    try (match goal with H : context [conserves] |- _ => by eapply H end).
  all: first [ by eapply transfer_conserves | by eapply vesting_conserves | by eapply deploy_conserves
    | by eapply call_conserves | by eapply shielded_conserves | by eapply htlc_lock_conserves
    | by eapply intent_conserves | by eapply rotate_conserves | by eapply propose_conserves
    | by eapply approve_conserves ].
Qed.

(** No proposal executed by the transaction touches the signer's own account. *)
Definition unaliased l stx ctx : Prop :=
  ∀ r, preflight l stx ctx = Ok r → aliased l (signer_id (transaction stx)) (rd_action r) = false.

Lemma transaction_native l stx ctx l' rc :
  apply_transaction l stx ctx = (l', Ok rc) → backed (st l) → unaliased l stx ctx →
  native (st l') = native (st l).
Proof.
  unfold apply_transaction, unaliased. intros E B Ha. set (me := signer_id (transaction stx)) in *.
  destruct (preflight l stx ctx) as [r|] eqn:Ep; [|done]. specialize (Ha r eq_refl).
  destruct (preflight_spec _ _ _ _ Ep) as [a [_ Hauth _ _ _ Hv Hd]].
  assert (tot a = tot (account l me)) as Ht by (by destruct (authorize_account _ _ _ Hauth) as [-> |[_ ->]]).
  set (m := match rd_ms_error r with Some _ => _ | None => _ end) in E. exec_unfold.
  destruct (m (start l r)) as [s [status|]] eqn:Em; [|by simplify_eq].
  destruct (epilogue stx ctx r status s) as [s' res] eqn:Ee. simplify_eq.
  apply epilogue_native in Ee. rewrite Ee, (native_split me l).
  assert (value me s + from_option (λ _, rd_intrinsic_fee r) 0 (rd_deferred r) = value me (start l r)) as Hr.
  { subst m. destruct (rd_ms_error r) eqn:Er.
    - exec_unfold. simplify_eq. destruct (rd_deferred r) as [e|] eqn:Eq; cbn [from_option]; [|lia].
      by destruct (Hd e eq_refl) as (_ & ? & _).
    - eapply run_action_value; [exact Em|done|done|]. intros e He. destruct (Hd e He) as (? & _ & ?). done. }
  unfold value, start in *. cbn [ledger signer fee_paid] in *. fold me. lia.
Qed.
Lemma total_supply_eq l l' : native (st l') = native (st l) → total_supply l' = total_supply l.
Proof.
  intros E. apply option_eq. intros v. rewrite !total_supply_native, E. done.
Qed.

(** C1: a transaction neither creates nor destroys coin.  Whatever its action and
    whether it succeeds or fails, a transaction that is accepted leaves the total
    supply (balances, vesting locks, both shielded pools, HTLC escrow, vault
    collateral) exactly as it was: the fee and the tip reach the miner, escrow
    moves out of and into balances.  The one exclusion is a multisig proposal that
    executes against the account signing the transaction. *)
Theorem supply_conserved (l : Ledger) (stx : SignedTransaction) (ctx : BlockContext) (l' : Ledger) rc :
  apply_transaction l stx ctx = (l', Ok rc) → backed (st l) → unaliased l stx ctx →
  total_supply l' = total_supply l ∧ native (st l') = native (st l).
Proof.
  intros E B Ha. pose proof (transaction_native _ _ _ _ _ E B Ha). split; [by apply total_supply_eq|done].
Qed.

Lemma coinbase_spec l ctx l' reward :
  apply_coinbase l ctx = (l', Ok reward) →
  reward = Emission.reward_at (mining ctx) (height ctx) (mined_emitted (st l)) ∧
  native (st l') = native (st l) + reward ∧ mined_emitted (st l') = mined_emitted (st l) + reward.
Proof.
  unfold apply_coinbase. set (w := Emission.reward_at _ _ _). destruct (w =? 0) eqn:Ew.
  { apply N.eqb_eq in Ew. intros [= <- <-]. rewrite Ew. lia. }
  destruct (credit l (miner ctx) w) as [l1|] eqn:Ec; [|done].
  assert (mined_emitted (st l1) = mined_emitted (st l)) as Hm.
  { unfold credit in Ec. rewrite Ew in Ec. sov_simpl. unfold set_account. case_match; by ledger_simpl. }
  apply credit_native in Ec. destruct (add_mined_emitted l1 w) as [l2|] eqn:Em; [|done].
  intros [= <- <-]. split; [done|]. pose proof (native_add_mined _ _ _ (miner ctx) Em) as [Ea En].
  unfold add_mined_emitted in Em. destruct (Bal.checked_add _ _) eqn:Eb; [|done]. apply add_fits in Eb as [-> _].
  injection Em as <-. split.
  - rewrite <- Ec, (native_split (miner ctx) l1), (native_split (miner ctx)).
    rewrite En. unfold account. by rewrite Ea.
  - ledger_simpl. simpl. lia.
Qed.

(** One accepted coinbase or transaction under a fixed emission policy. *)
Inductive chain_step (p : MiningPolicy) : Ledger → Ledger → Prop :=
| cs_coinbase l ctx l' reward :
    mining ctx = p → apply_coinbase l ctx = (l', Ok reward) → chain_step p l l'
| cs_transaction l stx ctx l' rc :
    apply_transaction l stx ctx = (l', Ok rc) → unaliased l stx ctx → chain_step p l l'.

Lemma transaction_mined l stx ctx : mined_emitted (st (apply_transaction l stx ctx).1) = mined_emitted (st l).
Proof.
  induction (apply_transaction_steps l stx ctx) as [|? ? ? (T & Hw & HT) _ IH]; [done|].
  rewrite IH. eapply writes_mined; [exact Hw|]. intros Hin. by apply (HT _ Hin).
Qed.

Lemma chain_step_inv p l l' :
  chain_step p l l' → backed (st l) →
  backed (st l') ∧ native (st l') + mined_emitted (st l) = native (st l) + mined_emitted (st l') ∧
  (mined_emitted (st l) ≤ mining_budget_grains p → mined_emitted (st l') ≤ mining_budget_grains p).
Proof.
  destruct 1 as [l ctx l' reward Hp E|l stx ctx l' rc E Ha]; intros B.
  - split; [eapply run_backed; [|exact B]; pose proof (apply_coinbase_mutates l ctx) as Hc; by rewrite E in Hc|].
    apply coinbase_spec in E as (-> & -> & ->). rewrite Hp. split; [lia|].
    intros. pose proof (Emission.reward_le p (height ctx) (mined_emitted (st l))). lia.
  - split.
    { eapply run_backed; [|exact B]. pose proof (apply_transaction_steps l stx ctx) as Hs. rewrite E in Hs.
      by apply steps_mutates. }
    pose proof (transaction_mined l stx ctx) as Hm. rewrite E in Hm. cbn [fst] in Hm.
    rewrite (transaction_native _ _ _ _ _ E B Ha), Hm. done.
Qed.

(** The supply is what genesis allocated plus what was mined, and mining never
    passes its budget.  Along any sequence of accepted coinbases and transactions
    the total supply grows by exactly the growth of the emission counter, the
    counter stays within the policy's budget, and the escrow counters stay equal to
    the sums they stand for. *)
Theorem issuance_bounded (p : MiningPolicy) (l0 l : Ledger) :
  rtc (chain_step p) l0 l → backed (st l0) → mined_emitted (st l0) ≤ mining_budget_grains p →
  native (st l) + mined_emitted (st l0) = native (st l0) + mined_emitted (st l) ∧
  mined_emitted (st l) ≤ mining_budget_grains p ∧
  native (st l) ≤ native (st l0) + mining_budget_grains p ∧ backed (st l).
Proof.
  intros Hr. induction Hr as [l|l l1 l2 Hs _ IH]; intros B Hb; [split_and!; (lia || done)|].
  destruct (chain_step_inv _ _ _ Hs B) as (B1 & He & Hb1).
  destruct (IH B1 (Hb1 Hb)) as (? & ? & ? & ?). split_and!; (lia || done).
Qed.
End supply.

(** ** Nonces *)

Section nonces.
Context `{XE : ExecEnv}.
Implicit Types (l : Ledger) (s : Locals) (stx : SignedTransaction) (ctx : BlockContext).

(** Everything of an account but its balance. *)
Definition core (a : Account) : Account := Acct.set_balance 0 a.
Definition same_cores l l' : Prop := ∀ id, core (account l' id) = core (account l id).
(** Whatever the outcome, accounts change only in their balances, and the live
    signer keeps its nonce. *)
Definition quiet {A} (m : M A) : Prop :=
  ∀ s, same_cores (ledger s) (ledger (m s).1) ∧ nonce (signer (m s).1) = nonce (signer s).

(** Stronger: no account changes at all. *)
Definition still {A} (m : M A) : Prop :=
  ∀ s, accounts (st (ledger (m s).1)) = accounts (st (ledger s)) ∧ nonce (signer (m s).1) = nonce (signer s).

Lemma accounts_money (s : Store) : accounts s = (money s).1.1.1.1.
Proof. done. Qed.
Lemma accounts_lock l id h l' : lock_htlc l id h = Some l' → accounts (st l') = accounts (st l).
Proof.
  unfold lock_htlc. destruct (htlcs _ !! _); [done|]. destruct (Bal.checked_add _ _); [|done].
  intros E; simplify_eq/=. by ledger_simpl.
Qed.
Lemma accounts_settle l id h l' : settle_htlc l id = Some (h, l') → accounts (st l') = accounts (st l).
Proof. unfold settle_htlc. destruct (htlcs _ !! _); [|done]. intros E; simplify_eq/=. by ledger_simpl. Qed.
Lemma accounts_vault l o v l' : set_vault l o v = Some l' → accounts (st l') = accounts (st l).
Proof.
  unfold set_vault. destruct (Bal.checked_sub _ _); [|done]. cbn [mbind option_bind].
  destruct (Bal.checked_add _ _); [|done]. intros E; simplify_eq/=. by ledger_simpl.
Qed.
Lemma same_cores_accounts l l' : accounts (st l') = accounts (st l) → same_cores l l'.
Proof. intros E id. unfold account. by rewrite E. Qed.
Lemma still_quiet {A} (m : M A) : still m → quiet m.
Proof. intros Hm s. destruct (Hm s). split; [by apply same_cores_accounts|done]. Qed.
Lemma same_cores_trans l1 l2 l3 : same_cores l1 l2 → same_cores l2 l3 → same_cores l1 l3.
Proof. intros H1 H2 id. by rewrite H2. Qed.
Lemma same_cores_set l id a : core a = core (account l id) → same_cores l (set_account l id a).
Proof. intros E id'. rewrite account_set_account. by case_decide; subst. Qed.
End nonces.

Ltac core_facts :=
  repeat match goal with
  | H : add_shielded_value _ _ = Some _ |- _ => apply (native_add_shielded _ _ _ XUSD_ISSUER_ID) in H as [H _]
  | H : sub_shielded_value _ _ = Some _ |- _ => apply (native_sub_shielded _ _ _ XUSD_ISSUER_ID) in H as [H _]
  | H : add_shielded_v2_value _ _ = Some _ |- _ => apply (native_add_shielded_v2 _ _ _ XUSD_ISSUER_ID) in H as [H _]
  | H : sub_shielded_v2_value _ _ = Some _ |- _ => apply (native_sub_shielded_v2 _ _ _ XUSD_ISSUER_ID) in H as [H _]
  | H : lock_htlc _ _ _ = Some _ |- _ => apply accounts_lock in H
  | H : settle_htlc _ _ = Some _ |- _ => apply accounts_settle in H
  | H : set_vault _ _ _ = Some _ |- _ => apply accounts_vault in H
  | H : mint_nft _ _ _ _ _ _ = Some _ |- _ => apply money_mint_nft in H
  | H : apply_shielded_bundle _ _ = (_, _) |- _ => apply money_apply_shielded_bundle in H
  | H : apply_shielded_v2 _ _ _ = (_, _) |- _ => apply money_apply_shielded_v2 in H
  | H : settle_contract_token_transfers _ _ _ _ = Ok _ |- _ => apply settle_contract_money in H
  end.
Ltac still_leaf :=
  split; [|reflexivity]; core_facts;
  rewrite ?accounts_money in *; rewrite ?money_fold by (intros; autorewrite with money; reflexivity);
  autorewrite with money in *; congruence.

Ltac quiet_leaf := split; [apply same_cores_accounts|reflexivity]; core_facts;
  rewrite ?accounts_money in *; autorewrite with money in *; congruence.

Section quiet.
Context `{XE : ExecEnv}.
Implicit Types (l : Ledger) (s : Locals) (stx : SignedTransaction) (ctx : BlockContext).

Ltac arm f := intros s; unfold f; exec_unfold; exec_cases; unfold if_some; exec_cases;
  try still_leaf; try quiet_leaf.

Lemma transfer_quiet stx to b : quiet (exec_transfer stx to b).
Proof.
  arm (@exec_transfer). all: unfold do_transfer in *; exec_cases; try quiet_leaf.
  split; [|done]. by apply same_cores_set.
Qed.
Lemma htlc_still stx ctx :
  (∀ r b h t, still (exec_htlc_lock stx r b h t)) ∧ (∀ i p, still (exec_htlc_claim stx ctx i p)) ∧
  (∀ i, still (exec_htlc_refund stx ctx i)).
Proof.
  split_and!; intros; [arm (@exec_htlc_lock)|arm (@exec_htlc_claim)|arm (@exec_htlc_refund)];
    unfold pay_htlc; exec_unfold; exec_cases; still_leaf.
Qed.
Lemma shielded_still stx ctx :
  (∀ b, still (exec_shielded stx ctx b)) ∧ (∀ d f b, still (exec_shielded_v2 stx ctx d f b)).
Proof.
  split; intros; [arm (@exec_shielded)|arm (@exec_shielded_v2)].
  all: unfold shielded_legs; exec_unfold; exec_cases; still_leaf.
Qed.
Lemma token_still stx ctx :
  (∀ y b t, still (exec_token_issue stx y b t)) ∧ (∀ a t b, still (exec_token_transfer stx ctx a t b)) ∧
  (∀ a b, still (exec_token_burn stx ctx a b)) ∧ (∀ a p, still (exec_token_set_policy stx a p)) ∧
  (∀ i, still (exec_intent_cancel stx i)) ∧ (∀ c g d, still (exec_call stx ctx c g d)).
Proof.
  split_and!; intros; [arm (@exec_token_issue)|arm (@exec_token_transfer)|arm (@exec_token_burn)
    |arm (@exec_token_set_policy)|arm (@exec_intent_cancel)|arm (@exec_call)].
Qed.
Lemma name_still stx ctx :
  (∀ n, still (exec_register_name stx ctx n)) ∧ (∀ n t, still (exec_transfer_name stx n t)) ∧
  (∀ y i t m, still (exec_nft_mint stx ctx y i t m)) ∧ (∀ c i t, still (exec_nft_transfer stx c i t)) ∧
  (∀ c i m, still (exec_nft_set_meta stx c i m)).
Proof.
  split_and!; intros; [arm (@exec_register_name)|arm (@exec_transfer_name)|arm (@exec_nft_mint)
    |arm (@exec_nft_transfer)|arm (@exec_nft_set_meta)].
Qed.
Lemma vault_still stx :
  (∀ b, still (exec_vault_deposit stx b)) ∧ (∀ b, still (exec_vault_withdraw stx b)) ∧
  (∀ b, still (exec_vault_mint stx b)) ∧ (∀ b, still (exec_vault_burn stx b)) ∧
  (∀ p, still (exec_oracle_update stx p)).
Proof.
  split_and!; intros; [arm (@exec_vault_deposit)|arm (@exec_vault_withdraw)|arm (@exec_vault_mint)
    |arm (@exec_vault_burn)|arm (@exec_oracle_update)].
Qed.
Lemma local_still stx ctx :
  still (exec_claim_vesting ctx) ∧ (∀ c, still (exec_deploy c)) ∧ (∀ h k p, still (exec_rotate_key stx h k p)) ∧
  (∀ h k t, still (exec_set_multisig stx h k t)) ∧ (∀ c p, still (exec_cancel stx ctx c p)).
Proof.
  split_and!; intros; [arm (@exec_claim_vesting)|arm (@exec_deploy)|arm (@exec_rotate_key)
    |arm (@exec_set_multisig)|arm (@exec_cancel)].
Qed.

Lemma execute_proposal_cores l acc a l' status :
  execute_proposal_action l acc a = Ok (l', status) → same_cores l l'.
Proof.
  unfold execute_proposal_action, do_transfer. intros E. destruct a; sov_simpl; try done.
  set (dst := resolve_recipient l to) in *.
  destruct (Bal.checked_sub _ _) as [rem|]; sov_simpl; [|by apply same_cores_set].
  destruct (bool_decide (dst = acc)) eqn:Ed; sov_simpl; [by apply same_cores_set|].
  apply bool_decide_eq_false in Ed.
  destruct (Bal.checked_add _ _) as [cr|]; sov_simpl.
  eapply same_cores_trans; [by apply (same_cores_set l dst (Acct.set_balance cr (account l dst)))|].
  apply same_cores_set. rewrite account_set_account. by case_decide.
Qed.
Lemma proposal_quiet stx ctx :
  (∀ c a, quiet (exec_propose stx ctx c a)) ∧ (∀ c p, quiet (exec_approve stx ctx c p)).
Proof.
  split; intros; [arm (@exec_propose)|arm (@exec_approve)]; (split; [|done]);
    match goal with H : execute_proposal_action _ _ _ = Ok _ |- _ => apply execute_proposal_cores in H end;
    [done|]. eapply same_cores_trans; [eassumption|]. apply same_cores_accounts.
  rewrite !accounts_money. by autorewrite with money.
Qed.
Lemma intent_quiet stx ctx sm : quiet (exec_intent_settle stx ctx sm).
Proof.
  arm (@exec_intent_settle).
  match goal with H : settle_intent_legs _ _ _ _ _ = Ok _ |- _ => rename H into E end.
  unfold settle_intent_legs, soft, settle_leg, or_soft, or_hard in E. sov_simpl.
  set (owner := i_owner _) in *.
  assert (∀ o1 o2 a, core (if_some o1 Acct.set_balance (if_some o2 Acct.set_balance a)) = core a) as Hc
    by (intros [] [] ?; done).
  split; [|by match goal with |- context [if_some ?o1 Acct.set_balance (if_some ?o2 Acct.set_balance ?a)] =>
    pose proof (f_equal nonce (Hc o1 o2 a)) end].
  match goal with |- context [set_account ?l owner ?o] => eapply (same_cores_trans _ (set_account l owner o));
    [apply same_cores_set, Hc|] end.
  apply same_cores_accounts. rewrite !accounts_money, money_consume_intent.
  repeat (rewrite money_if_some; [|by intros; first [apply money_if_some; intros|idtac]; autorewrite with money]).
  done.
Qed.

(** The actions that may touch an account other than the signer's. *)
Definition moves_accounts (a : Action.t) : bool :=
  match a with
  | Action.Transfer _ _ | Action.IntentSettle _ | Action.ProposeMultisig _ _
  | Action.ApproveMultisig _ _ => true
  | _ => false
  end.
Lemma run_action_still stx ctx r : moves_accounts (rd_action r) = false → still (run_action stx ctx r).
Proof.
  destruct (htlc_still stx ctx) as (? & ? & ?), (shielded_still stx ctx) as (? & ?),
    (token_still stx ctx) as (? & ? & ? & ? & ? & ?), (name_still stx ctx) as (? & ? & ? & ? & ?),
    (vault_still stx) as (? & ? & ? & ? & ?), (local_still stx ctx) as (? & ? & ? & ? & ?).
  unfold run_action. destruct (rd_action r); try done; intros _ ?; by split.
Qed.
Lemma run_action_quiet stx ctx r : quiet (run_action stx ctx r).
Proof.
  destruct (moves_accounts (rd_action r)) eqn:Em; [|by apply still_quiet, run_action_still].
  destruct (proposal_quiet stx ctx) as (? & ?). unfold run_action.
  destruct (rd_action r); try done; first [apply transfer_quiet | apply intent_quiet].
Qed.

Lemma credit_cores l id b l' : credit l id b = Ok l' → same_cores l l'.
Proof. unfold credit. case_match; intros; sov_simpl; [done|]. by apply same_cores_set. Qed.
Lemma epilogue_cores stx ctx r status s :
  same_cores (set_account (ledger s) (signer_id (transaction stx)) (signer s))
    (ledger (epilogue stx ctx r status s).1).
Proof.
  unfold epilogue, distribute_fee; exec_unfold; exec_cases; try done;
    repeat match goal with H : credit _ _ _ = Ok _ |- _ => apply credit_cores in H end; try done.
  by eapply same_cores_trans.
Qed.

(** What a transaction does to nonces, on every path. *)
Lemma transaction_nonces l stx ctx id :
  let l' := (apply_transaction l stx ctx).1 in
  let me := signer_id (transaction stx) in
  nonce (account l id) ≤ nonce (account l' id) ∧
  (id ≠ me → core (account l' id) = core (account l id)) ∧
  (∀ rc, (apply_transaction l stx ctx).2 = Ok rc →
     tx_nonce (transaction stx) = nonce (account l me) ∧ nonce (account l' me) = nonce (account l me) + 1).
Proof.
  cbv zeta. set (me := signer_id (transaction stx)). unfold apply_transaction.
  destruct (preflight l stx ctx) as [r|] eqn:Ep; [|by split_and!].
  destruct (preflight_spec _ _ _ _ Ep) as [a [_ Hauth Hn Hn1 _ _ _]].
  assert (nonce a = nonce (account l me)) as Ha by (by destruct (authorize_account _ _ _ Hauth) as [-> |[_ ->]]).
  set (m := match rd_ms_error r with Some _ => _ | None => _ end).
  assert (quiet m) as Hq by (subst m; destruct (rd_ms_error r); [intros ?; by split|apply run_action_quiet]).
  clearbody m. destruct (Hq (start l r)) as [Hc Hs]. exec_unfold.
  change (ledger (start l r)) with l in Hc. change (signer (start l r)) with (rd_signer r) in Hs.
  assert (∀ id, nonce (account (ledger (m (start l r)).1) id) = nonce (account l id)) as Hcn.
  { intros i. pose proof (f_equal nonce (Hc i)) as Hx. exact Hx. }
  destruct (m (start l r)) as [s [status|]] eqn:Em; cbn [fst snd] in *; [|split_and!; [rewrite Hcn; lia|intros; apply Hc|done]].
  pose proof (epilogue_cores stx ctx r status s) as He. destruct (epilogue stx ctx r status s) as [s' res].
  cbn [fst snd] in *. pose proof (f_equal nonce (He id)) as Hid. pose proof (f_equal nonce (He me)) as Hme.
  cbn [nonce core Acct.set_balance] in Hid, Hme. fold me in Hid, Hme.
  rewrite account_set_account in Hid, Hme. rewrite decide_True in Hme by done.
  split_and!.
  - rewrite Hid. case_decide; subst; rewrite ?Hcn; lia.
  - intros Hne. rewrite (He id), account_set_account. fold me. rewrite decide_False by done. apply Hc.
  - intros rc ->. rewrite Hme, Hs, Hn1, Hn, Ha. done.
Qed.

(** One transaction or coinbase, however it ends. *)
Definition any_step l l' : Prop :=
  ∃ ctx, l' = (apply_coinbase l ctx).1 ∨ ∃ stx, l' = (apply_transaction l stx ctx).1.

Lemma coinbase_cores l ctx : same_cores l (apply_coinbase l ctx).1.
Proof.
  unfold apply_coinbase. case_match; [done|]. destruct (credit _ _ _) as [l1|] eqn:Ec; [|done].
  apply credit_cores in Ec. destruct (add_mined_emitted l1 _) eqn:Em; [|done]. cbn [fst].
  eapply same_cores_trans; [exact Ec|]. apply same_cores_accounts.
  apply (native_add_mined _ _ _ (miner ctx) Em).
Qed.
Lemma nonce_mono l l' id : rtc any_step l l' → nonce (account l id) ≤ nonce (account l' id).
Proof.
  induction 1 as [|l l1 l2 (ctx & [-> |[stx ->]]) _ IH]; [done| |].
  - pose proof (f_equal nonce (coinbase_cores l ctx id)) as Hn. cbn [core nonce Acct.set_balance] in Hn. lia.
  - destruct (transaction_nonces l stx ctx id) as [? _]. lia.
Qed.

End quiet.
