(* ===== verification/Authority.v ===== *)
(** * Who may move what (crates/runtime/src/execution.rs)

    The authority an accepted transaction carried, and the consent behind every
    account that loses coin. *)

From S2P Require Import Prelude Primitives Mining Crypto Compliance Types Gas Smt Vault Ledger.
From S2P Require Import ShieldedV2 Execution LedgerUndo LedgerCommit ExecSteps Supply Conservation.
From S2P Require Import Transaction.

Section authority.
Context `{XE : ExecEnv}.
Implicit Types (l : Ledger) (s : Locals) (stx : SignedTransaction) (ctx : BlockContext) (id : AccountId).

(** The signature covers the transaction, in a domain the chain accepts. *)
Definition signed_in_domain stx (m : TxDomainMode) : Prop :=
  ∃ d, verify (public_key (transaction stx)) (tx_signing_bytes_in (transaction stx) d) (signature stx) = true ∧
    match m with
    | Legacy => d = None
    | Grace dom => d = None ∨ d = Some dom
    | Bound dom => d = Some dom
    end.
Lemma signed_in_domain_iff stx m : verify_signature_mode stx m = true ↔ signed_in_domain stx m.
Proof.
  unfold verify_signature_mode, signed_in_domain, verifies, verify_signature_in.
  destruct m as [|dom|dom]; rewrite ?orb_true_iff; split.
  - intros. by exists None.
  - by intros (? & ? & ->).
  - intros [?|?]; [exists (Some dom)|exists None]; auto.
  - intros (? & ? & [-> | ->]); auto.
  - intros. by exists (Some dom).
  - by intros (? & ? & ->).
Qed.

(** The approvals counted for a multisig execution. *)
Lemma approved_by_valid policy msg h m aps i :
  i ∈ approved_by policy msg h m aps →
  ∃ pk sig, ms_signers policy !! N.to_nat i = Some pk ∧ mkExecApproval i sig ∈ aps ∧ verify pk msg sig = true.
Proof.
  unfold approved_by.
  assert (∀ acc : gset N, i ∈ foldl (λ approved ap, match ms_signers policy !! N.to_nat (ap_signer ap) with
    | Some pk => if (negb h || is_hybrid_key pk || m) && verify pk msg (ap_signature ap)
                 then {[ap_signer ap]} ∪ approved else approved | None => approved end) acc aps →
    i ∈ acc ∨ ∃ pk sig, ms_signers policy !! N.to_nat i = Some pk ∧ mkExecApproval i sig ∈ aps ∧
      verify pk msg sig = true) as Hf.
  { induction aps as [|ap aps IH]; intros acc Hi; cbn [foldl] in Hi; [by left|].
    destruct (IH _ Hi) as [Hin|(pk & sig & ? & ? & ?)];
      [|right; exists pk, sig; split_and!; [done|apply elem_of_cons; by right|done]].
    destruct (ms_signers policy !! N.to_nat (ap_signer ap)) as [pk|] eqn:Ek; [|by left].
    destruct (_ && _) eqn:Ev; [|by left]. apply elem_of_union in Hin as [->%elem_of_singleton|]; [|by left].
    right. exists pk, (ap_signature ap). apply andb_true_iff in Ev as [_ Ev].
    split_and!; [done| |done]. destruct ap. apply elem_of_cons. by left. }
  intros Hi. destruct (Hf ∅ Hi) as [?%elem_of_empty|]; done.
Qed.

(** A quorum of distinct members signed [a] for [acc] at this nonce. *)
Definition quorum_signed (policy : Multisig) (acc : AccountId) (n : N) (a : Action.t)
    (aps : list ExecApproval) : Prop :=
  ∃ who : gset N, ms_threshold policy ≤ N.of_nat (size who) ∧
    ∀ i, i ∈ who → ∃ pk sig, ms_signers policy !! N.to_nat i = Some pk ∧ mkExecApproval i sig ∈ aps ∧
      verify pk (multisig_signing_bytes acc n a) sig = true.

Definition authority l stx (status : ExecutionStatus) : Prop :=
  let tx := transaction stx in
  match multisig (st l) !! signer_id tx with
  | Some policy =>
      public_key tx ∈ ms_signers policy ∧
      ∃ inner aps, action tx = Action.MultisigExec inner aps ∧
        (status = Success → quorum_signed policy (signer_id tx) (tx_nonce tx) inner aps)
  | None =>
      key (account l (signer_id tx)) = Some (public_key tx) ∨
      key (account l (signer_id tx)) = None ∧
      if is_implicit (signer_id tx) then implicit_account_id (public_key tx) = Some (signer_id tx)
      else ∃ k p, action tx = Action.RotateKey k p
  end.

Lemma preflight_multisig l stx ctx r inner aps :
  preflight l stx ctx = Ok r → action (transaction stx) = Action.MultisigExec inner aps →
  rd_ms_error r = multisig_error l (transaction stx) ctx (rd_requires_hybrid r) inner aps.
Proof.
  unfold preflight. intros E Ha. rewrite Ha in E. destruct (verify_signature_mode _ _); [|done]. cbn [negb] in E.
  sov_simpl. destruct (_ =? _); [|done]. cbn [negb] in *. sov_simpl.
  destruct (find_inactive_feature _ _); [done|]. destruct (timestamp_below _); [done|]. sov_simpl. done.
Qed.

Lemma multisig_error_None l tx ctx h inner aps policy :
  multisig (st l) !! signer_id tx = Some policy → multisig_error l tx ctx h inner aps = None →
  quorum_signed policy (signer_id tx) (tx_nonce tx) inner aps.
Proof.
  unfold multisig_error. intros Hp Hm.
  assert ((u16_of (size (approved_by policy (multisig_signing_bytes (signer_id tx) (tx_nonce tx) inner) h
    (is_pq_multisig_migration inner ctx) aps)) <? ms_threshold policy) = false) as Ht.
  { destruct inner; rewrite ?Hp in Hm; try done; by destruct (_ <? _). }
  apply N.ltb_ge in Ht. eexists. split; [|intros i Hi; by eapply approved_by_valid].
  etransitivity; [exact Ht|]. apply N.Div0.mod_le.
Qed.

Lemma epilogue_status stx ctx r status s rc : (epilogue stx ctx r status s).2 = Ok rc → Types.status rc = status.
Proof. unfold epilogue; exec_unfold; intros; exec_cases; done. Qed.

(** C3: nothing runs without authority.  A transaction is accepted only with a
    signature over exactly its contents, in a domain the chain accepts, by a key
    that speaks for the signer: its registered key; for an unregistered implicit
    account the key its id is derived from; for an unregistered named account any
    key, but only to register one; and for a multisig account a member's key on a
    multisig execution, which succeeds only with a quorum of distinct members'
    signatures over the account, the nonce and the inner action. *)
Theorem accepted_is_authorized (l : Ledger) (stx : SignedTransaction) ctx (l' : Ledger) rc :
  apply_transaction l stx ctx = (l', Ok rc) →
  signed_in_domain stx (tx_domain ctx) ∧ authority l stx (status rc).
Proof.
  unfold apply_transaction. destruct (preflight l stx ctx) as [r|] eqn:Ep; [|done].
  destruct (preflight_spec _ _ _ _ Ep) as [a [Hs Hauth _ _ _ _ _]]. intros E.
  split; [by apply signed_in_domain_iff|]. unfold authority.
  assert (∀ reason, rd_ms_error r = Some reason → status rc = Failed reason) as Hfail.
  { intros reason Er. rewrite Er in E. exec_unfold. exec_norm. destruct (epilogue _ _ _ _ _) as [s' res] eqn:Ee.
    simplify_eq. apply (epilogue_status stx ctx r _ (start l r)). by rewrite Ee. }
  clear E. unfold authorize in Hauth.
  destruct (multisig (st l) !! signer_id (transaction stx)) as [policy|] eqn:Em.
  - destruct (_ && _) eqn:Ea; [|done]. apply andb_true_iff in Ea as [Hmem Hex].
    apply bool_decide_eq_true in Hmem. split; [done|].
    destruct (action (transaction stx)) as [| | | | | | | | | | | | | | | | | | | | |inner aps| | | | | | | | | | |] eqn:Ha; try done.
    exists inner, aps. split; [done|]. intros Hok. apply (preflight_multisig _ _ _ _ _ _ Ep) in Ha.
    destruct (rd_ms_error r) as [reason|]; [by rewrite (Hfail _ eq_refl) in Hok|].
    by eapply multisig_error_None.
  - destruct (key (account l _)) as [k|]; [left; case_bool_decide; congruence|right; split; [done|]].
    destruct (is_implicit _).
    + destruct (implicit_account_id _); [|done]. by case_bool_decide; simplify_eq/=.
    + destruct (action _); naive_solver.
Qed.
End authority.

(** ** Consent *)

Section consent.
Context `{XE : ExecEnv}.
Variables (stx : SignedTransaction) (ctx : BlockContext).
Abbreviation me := (signer_id (transaction stx)).
Implicit Types (l : Ledger) (s : Locals) (id : AccountId).

(** What [id] agreed to, for the action [a] to take its coin. *)
Definition consent l (a : Action.t) id : Prop :=
  match a with
  | Action.IntentSettle sm =>
      let i := si_intent (s_intent sm) in
      i_owner i = id ∧ s_solver sm = me ∧ multisig (st l) !! id = None ∧
      key (account l id) = Some (i_public_key i) ∧ intent_verify_mode (s_intent sm) (tx_domain ctx) = true ∧
      (height ctx ≤ expiry_height i) ∧ (intent_id i ∉ consumed_intents (st l)) ∧
      min_receive i ≤ deliver_amount sm
  | Action.ProposeMultisig acc _ =>
      acc = id ∧ ∃ policy, multisig (st l) !! id = Some policy ∧
        public_key (transaction stx) ∈ ms_signers policy ∧ ms_threshold policy ≤ 1
  | Action.ApproveMultisig acc p =>
      acc = id ∧ ∃ policy prop idx, multisig (st l) !! id = Some policy ∧
        ms_signers policy !! idx = Some (public_key (transaction stx)) ∧
        proposals (st l) !! p = Some prop ∧ mpr_account prop = id ∧
        ms_threshold policy ≤ N.of_nat (length (approvers_after ctx l id policy idx (mpr_approvers prop)))
  | _ => False
  end.

Definition keeps l l' id : Prop := balance (account l id) ≤ balance (account l' id).

Lemma keeps_accounts l l' id : accounts (st l') = accounts (st l) → keeps l l' id.
Proof. intros E. unfold keeps, account. by rewrite E. Qed.
Lemma keeps_trans l1 l2 l3 id : keeps l1 l2 id → keeps l2 l3 id → keeps l1 l3 id.
Proof. unfold keeps. lia. Qed.
Lemma keeps_set l id' a id : id' = id → balance (account l id) ≤ balance a → keeps l (set_account l id' a) id.
Proof. intros -> H. unfold keeps. rewrite account_set_account. by rewrite decide_True. Qed.
Lemma keeps_set_ne l id' a id : id' ≠ id → keeps l (set_account l id' a) id.
Proof. intros H. unfold keeps. rewrite account_set_account. by rewrite decide_False. Qed.

Lemma credit_keeps l id' b l' id : credit l id' b = Ok l' → keeps l l' id.
Proof.
  unfold credit. case_match; intros; sov_simpl; [unfold keeps; lia|]. bal_facts.
  destruct (decide (id' = id)); [apply keeps_set; [done|]; subst; simpl; lia|by apply keeps_set_ne].
Qed.
Lemma do_transfer_keeps l from a to b l' a' status id :
  do_transfer l from a to b = Ok (l', a', status) → keeps l l' id.
Proof.
  unfold do_transfer. intros E. repeat case_match; simplify_eq; try (unfold keeps; lia). bal_facts.
  destruct (decide (resolve_recipient l to = id)) as [Heq|]; [|by apply keeps_set_ne].
  apply keeps_set; [done|]. rewrite Heq. simpl. lia.
Qed.
Lemma execute_proposal_keeps l acc a l' status id :
  execute_proposal_action l acc a = Ok (l', status) → id ≠ acc → keeps l l' id.
Proof.
  unfold execute_proposal_action. intros E Hne. destruct a; sov_simpl; try (unfold keeps; lia).
  destruct x as [[l1 v] st1]. sov_simpl. eapply keeps_trans; [by eapply do_transfer_keeps|].
  by apply keeps_set_ne.
Qed.
Lemma settle_intent_keeps l a sm h l' a' id :
  settle_intent_legs l a me sm h = Ok (l', a') → id ≠ i_owner (si_intent (s_intent sm)) → keeps l l' id.
Proof.
  unfold settle_intent_legs. intros E Hne. sov_simpl.
  match goal with |- context [set_account l ?o ?a] => eapply (keeps_trans _ (set_account l o a)); [by apply keeps_set_ne|] end.
  apply keeps_accounts. rewrite !accounts_money.
  repeat (rewrite money_if_some; [|by intros; first [apply money_if_some; intros|idtac]; autorewrite with money]).
  done.
Qed.

Lemma member_lookup policy idx : member stx policy = Some idx →
  ms_signers policy !! idx = Some (public_key (transaction stx)).
Proof.
  unfold member. destruct (list_find _ _) as [[i k]|] eqn:E; [|done]. intros [= <-].
  apply list_find_Some in E as (? & -> & _). done.
Qed.

Lemma run_action_consent r s s' st' id :
  run_action stx ctx r s = (s', Ok st') → id ≠ me →
  keeps (ledger s) (ledger s') id ∨ consent (ledger s) (rd_action r) id.
Proof.
  intros E Hne. destruct (moves_accounts (rd_action r)) eqn:Em.
  2:{ left. apply keeps_accounts. destruct (run_action_still stx ctx r Em s) as [Ha _]. by rewrite E in Ha. }
  unfold run_action in E. destruct (rd_action r) eqn:Ea; try done; clear Em.
  - left. unfold exec_transfer in E. exec_unfold. exec_cases. by eapply do_transfer_keeps.
  - destruct (decide (id = i_owner (si_intent (s_intent settlement)))) as [->|Ho].
    + unfold exec_intent_settle in E. exec_unfold. unfold intent_consumed in *.
      exec_cases; try (left; by apply keeps_accounts). right.
      rewrite ?negb_false_iff, ?bool_decide_eq_false, ?bool_decide_eq_true, ?N.ltb_ge in *.
      unfold consent. split_and!; try done. by apply eq_None_not_Some.
    + left. unfold exec_intent_settle in E. exec_unfold. exec_cases; try by apply keeps_accounts.
      eapply keeps_trans; [by eapply settle_intent_keeps|]. apply keeps_accounts.
      rewrite !accounts_money. by autorewrite with money.
  - destruct (decide (id = account)) as [->|Ho].
    + unfold exec_propose in E. exec_unfold. exec_cases; try (left; apply keeps_accounts;
        rewrite ?accounts_money; by autorewrite with money). right.
      match goal with H : member _ _ = Some _ |- _ => apply member_lookup in H end.
      split; [done|]. eexists. split_and!; [done|by eapply list_elem_of_lookup_2|].
      rewrite N.leb_le in *. done.
    + left. unfold exec_propose in E. exec_unfold. exec_cases; try (apply keeps_accounts;
        rewrite ?accounts_money; by autorewrite with money). by eapply execute_proposal_keeps.
  - destruct (decide (id = account)) as [->|Ho].
    + unfold exec_approve in E. exec_unfold. exec_cases; try (left; apply keeps_accounts;
        rewrite ?accounts_money; by autorewrite with money). right.
      match goal with H : member _ _ = Some _ |- _ => apply member_lookup in H end.
      rewrite ?negb_false_iff, ?bool_decide_eq_false, ?bool_decide_eq_true, ?N.leb_le in *.
      split; [done|]. eexists _, _, _. split_and!; [done..|].
      etransitivity; [eassumption|]. apply N.Div0.mod_le.
    + left. unfold exec_approve in E. exec_unfold. exec_cases; try (apply keeps_accounts;
        rewrite ?accounts_money; by autorewrite with money).
      eapply keeps_trans; [by eapply execute_proposal_keeps|]. apply keeps_accounts.
      rewrite !accounts_money. by autorewrite with money.
Qed.

Lemma epilogue_keeps r status s s' rc id :
  epilogue stx ctx r status s = (s', Ok rc) → id ≠ me → keeps (ledger s) (ledger s') id.
Proof.
  unfold epilogue, distribute_fee; exec_unfold; intros; exec_cases.
  repeat match goal with H : credit _ _ _ = Ok _ |- _ => apply (credit_keeps _ _ _ _ id) in H end.
  eapply keeps_trans; [by eapply (keeps_set_ne _ me)|].
  eapply keeps_trans; eassumption.
Qed.

(** C31: no account loses coin without consent.  If an accepted transaction lowers
    the balance of an account other than its signer, then either it settles an
    intent that account's owner signed with its registered key (unexpired, never
    used before, for at least the amount asked), or the account is a multisig and
    a member executed a proposal that reached its threshold. *)
Theorem debit_needs_consent (l l' : Ledger) rc id :
  apply_transaction l stx ctx = (l', Ok rc) → id ≠ me →
  balance (account l' id) < balance (account l id) →
  ∃ r, preflight l stx ctx = Ok r ∧ rd_ms_error r = None ∧ consent l (rd_action r) id.
Proof.
  unfold apply_transaction. intros E Hne Hlt. destruct (preflight l stx ctx) as [r|] eqn:Ep; [|done].
  exists r. split; [done|]. set (m := match rd_ms_error r with Some _ => _ | None => _ end) in E.
  exec_unfold. destruct (m (start l r)) as [s [status|]] eqn:Em; [|by simplify_eq].
  destruct (epilogue stx ctx r status s) as [s' res] eqn:Ee. simplify_eq.
  apply epilogue_keeps with (id := id) in Ee; [|done]. subst m. destruct (rd_ms_error r).
  - exec_unfold. simplify_eq. unfold keeps in Ee. change (ledger (start l r)) with l in Ee. lia.
  - split; [done|]. destruct (run_action_consent _ _ _ _ id Em Hne) as [Hk|Hc]; [|done].
    exfalso. pose proof (keeps_trans _ _ _ _ Hk Ee) as Hk'. unfold keeps in Hk'.
    change (ledger (start l r)) with l in Hk'. lia.
Qed.
End consent.
