(* ===== verification/ExecExamples.v ===== *)
(** * Concrete runs

    An environment whose parameters are concrete functions, a ledger with two
    accounts, and the transactions that instantiate the theorems on execution. *)

From S2P Require Import Prelude Primitives Mining Crypto Compliance Types Gas Smt Vault Ledger.
From S2P Require Import ShieldedV2 Execution LedgerUndo LedgerCommit ExecSteps Supply Conservation.
From S2P Require Import Transaction Authority.

Module Run.
Import LedgerCommit.Ledger_examples.

#[global] Instance v2env : V2Env := {|
  zk_suite2 := false; SpendBundle := BundlePublicInputs unit; public_inputs := λ b, b;
  decode_bundle := λ _, Err (WOther "no decoder"); decode_bundle_suite2 := λ _, Err (WOther "no decoder");
  input_nullifiers := λ _, Ok []; check_structure := λ _, Ok (); verify_carrier_auth := λ _ _, true;
  verify_spend := λ _, Ok (); verify_spend_suite2 := λ _ _, Ok (); anchor_is_known_v2 := λ _ _, true;
  nullifier_seen := λ _ _, false; note_count := λ _, 0; v2_state_error_display := λ _, "" |}.

(** Signatures are the signed bytes. *)
#[global] Instance sigs : SigScheme := {|
  verify_ed25519 := λ k m s, bool_decide (s = k ++ m); verify_ml_dsa := λ k m s, bool_decide (s = k ++ m) |}.

Definition key_bytes (k : PublicKey) : bytes :=
  match k with PkV1Ed25519 a => 0 :: a | PkV2HybridMlDsa65 a b => 1 :: a ++ b end.
Fixpoint action_bytes (a : Action.t) : bytes :=
  match a with
  | Action.Transfer to amount => 0 :: acc_bytes to ++ [amount]
  | Action.MultisigExec a _ => 21 :: action_bytes a
  | Action.ProposeMultisig acc a => 22 :: acc_bytes acc ++ action_bytes a
  | _ => [255]
  end.

#[global] Instance exec_env : ExecEnv := {|
  x_ledger := env; x_v2 := v2env; x_sig := sigs; x_pk := key_bytes;
  x_intent := λ i, acc_bytes (i_owner i) ++ [i_nonce i];
  x_tx := λ tx, acc_bytes (signer_id tx) ++ [0] ++ key_bytes (public_key tx) ++ [tx_nonce tx]
                ++ action_bytes (action tx);
  x_action := action_bytes; action_from_slice := λ _, None; sha256 := λ b, Toy.digest b;
  vm_execute := λ _ _ _ _ s, (Err OutOfGas, s); bundle_from_bytes := λ _, None;
  verify_for_carrier := λ _ _ _ _, true; verify_proof_only_legacy := λ _, true;
  anchor_is_known := λ _ _, true; value_balance := λ _, 0%Z |}.

Definition k1 : PublicKey := PkV1Ed25519 [7].
Definition miner_id : AccountId := mkAccountId "miner.sov" eq_refl.
Definition ctx : BlockContext :=
  mkBlockContext 1 Hash_ZERO 0 Emission.mainnet_like 0 miner_id None Legacy false false false false
    (mkSigningDomain "sov-mainnet" Hash_ZERO).

Definition sign (tx : Transaction) : SignedTransaction :=
  mkSignedTransaction tx (SigV1Ed25519 ([7] ++ to_vec tx)).

(** Alice holds 100 grains, Bob holds none; both are controlled by one key. *)
Definition funded : Ledger :=
  set_account (set_account new alice (Acct.new k1 100)) bob (Acct.new k1 0).
Definition pay : SignedTransaction := sign (mkTransaction alice k1 0 (Action.Transfer bob 30)).

(** Alice's account is a one-of-one multisig. *)
Definition vaulted : Ledger := set_multisig funded alice (mkMultisig [k1] 1).
Definition payout (to : AccountId) : Action.t := Action.ProposeMultisig alice (Action.Transfer to 50).
(** The vault itself submits the proposal ... *)
Definition self_signed : SignedTransaction :=
  sign (mkTransaction alice k1 0 (Action.MultisigExec (payout bob)
    [mkExecApproval 0 (SigV1Ed25519 ([7] ++ multisig_signing_bytes alice 0 (payout bob)))])).
(** ... or a member proposes a payout to its own account. *)
Definition self_paid : SignedTransaction := sign (mkTransaction bob k1 0 (payout bob)).

Definition outcome (l : Ledger) (stx : SignedTransaction) : option (ExecutionStatus * option Balance) :=
  match apply_transaction l stx ctx with
  | (l', Ok rc) => Some (status rc, total_supply l')
  | (_, Err _) => None
  end.

(** The one exclusion of the conservation theorem is real.  With one hundred
    grains in existence, a one-of-one multisig account that executes a proposal to
    pay Bob fifty grains ends with all of its hundred while Bob has fifty: the
    supply grows to one hundred and fifty.  And when Bob, a member of Alice's
    multisig, executes a proposal paying fifty grains to himself, the fifty leave
    Alice and never reach Bob: the supply shrinks to fifty.  In both runs the
    proposal writes the signer's account in the ledger and the signer's stale copy
    is written back over it. *)
Theorem proposal_writeback_bug :
  total_supply vaulted = Some 100 ∧
  outcome vaulted self_signed = Some (Success, Some 150) ∧
  outcome vaulted self_paid = Some (Success, Some 50).
Proof. split_and!; vm_compute; reflexivity. Qed.

(** ** Instances of the theorems on execution *)

Definition receipt_of (l : Ledger) (stx : SignedTransaction) : Receipt :=
  match (apply_transaction l stx ctx).2 with
  | Ok rc => rc
  | Err _ => mkReceipt Hash_ZERO Success 0 [] [] None
  end.
Lemma runs l stx :
  is_ok (apply_transaction l stx ctx).2 = true →
  apply_transaction l stx ctx = ((apply_transaction l stx ctx).1, Ok (receipt_of l stx)).
Proof. unfold receipt_of. by destruct (apply_transaction l stx ctx) as [? []]. Qed.
Lemma pay_ok : is_ok (apply_transaction funded pay ctx).2 = true.
Proof. by vm_compute. Qed.
Lemma funded_backed : backed (st funded).
Proof. split; by vm_compute. Qed.
Lemma pay_unaliased : unaliased funded pay ctx.
Proof.
  assert (match preflight funded pay ctx with Ok r => aliased funded alice (rd_action r) | Err _ => false end
    = false) as Ha by (by vm_compute).
  intros r E. by rewrite E in Ha.
Qed.

Lemma supply_conserved_witness : total_supply (apply_transaction funded pay ctx).1 = total_supply funded.
Proof.
  exact (proj1 (supply_conserved funded pay ctx _ _ (runs _ _ pay_ok) funded_backed pay_unaliased)).
Defined.
Lemma issuance_bounded_witness :
  native (st (apply_transaction funded pay ctx).1) ≤ native (st funded) + 2100000000000000.
Proof.
  refine (proj1 (proj2 (proj2 (issuance_bounded Emission.mainnet_like funded _
    (rtc_once _ _ (cs_transaction _ _ _ _ _ _ (runs _ _ pay_ok) pay_unaliased)) funded_backed _)))).
  by vm_compute.
Defined.
Lemma block_undo_exact_witness :
  let '(log, l1) := take_undo (run_block (begin_undo new) [pay] ctx) in
  st (apply_undo l1 log) = st new ∧ undo (apply_undo l1 log) = None.
Proof. exact (block_undo_exact new [pay] ctx new_canonical). Defined.

Lemma self_signed_ok : is_ok (apply_transaction vaulted self_signed ctx).2 = true.
Proof. by vm_compute. Qed.
Lemma accepted_is_authorized_witness : authority vaulted self_signed (status (receipt_of vaulted self_signed)).
Proof. exact (proj2 (accepted_is_authorized _ _ _ _ _ (runs _ _ self_signed_ok))). Defined.

(** Bob, a member of Alice's multisig, pays the miner from it. *)
Definition third_paid : SignedTransaction := sign (mkTransaction bob k1 0 (payout miner_id)).
Lemma third_paid_ok : is_ok (apply_transaction vaulted third_paid ctx).2 = true.
Proof. by vm_compute. Qed.
Lemma debit_needs_consent_witness :
  ∃ r, preflight vaulted third_paid ctx = Ok r ∧ rd_ms_error r = None ∧ consent third_paid ctx vaulted (rd_action r) alice.
Proof.
  refine (debit_needs_consent third_paid ctx vaulted _ _ alice (runs _ _ third_paid_ok) _ _).
  - by vm_compute.
  - by vm_compute.
Defined.

(** One transaction, signed for the main network, is not signed for a test network. *)
Lemma bound_preimage_inj_witness :
  tx_signing_bytes_in (transaction pay) (Some (mkSigningDomain "sov-mainnet" Hash_ZERO)) ≠
  tx_signing_bytes_in (transaction pay) (Some (mkSigningDomain "sov-testnet" Hash_ZERO)).
Proof.
  intros E. destruct (proj1 (bound_preimage_inj (mkSigningDomain "sov-mainnet" Hash_ZERO)
    (mkSigningDomain "sov-testnet" Hash_ZERO) (transaction pay) (transaction pay) eq_refl eq_refl) E) as [Ed _].
  discriminate Ed.
Defined.
End Run.
