(* ===== verification/DoubleSpend.v ===== *)
(** * No shielded note is spent twice
    (crates/runtime/src/execution.rs over the pools of crates/state/src/ledger.rs)

    From the bundle a transaction carries, through its execution, to the nullifiers
    its pool records: over any pools that keep the interface [SpendOnce]. *)

From S2P Require Import Prelude Primitives Mining Crypto Types Vault Ledger ShieldedV1 ShieldedV2 Execution.
From S2P Require Import LedgerUndo LedgerCommit ExecSteps Supply Conservation Transaction Authority PoolSpend ExecExamples.

Section spending.
Context `{XE : ExecEnv} `{!SpendOnce env_pool1 Nf1, !SpendOnce env_pool2 Nf2}.
Implicit Types (l : Ledger) (s : Locals) (ctx : BlockContext) (a : Action.t).

(** The action inside whatever envelopes. *)
Fixpoint effective a : Action.t :=
  match a with
  | Action.Tipped _ inner | Action.Timestamped _ inner | Action.MultisigExec inner _ => effective inner
  | _ => a
  end.
(** The real slots of a pool-v2 bundle, as the pool is given them. *)
Definition bundle_v2 (bundle : bytes) : result WireError (list PqDigest * list PqDigest) :=
  b ← (if is_suite2 bundle then decode_bundle_suite2 bundle else decode_bundle bundle);
  let pi := public_inputs b in
  Ok ((λ i, nullifiers pi !!! i) <$> real_slots (input_dummy pi),
      (λ j, output_commitments pi !!! j) <$> real_slots (output_dummy pi)).
(** The nullifiers a transaction asks to spend. *)
Definition spends_v1 a : list Nf1 :=
  match effective a with
  | Action.Shielded bundle => from_option spends [] (bundle_from_bytes bundle)
  | _ => []
  end.
Definition spends_v2 a : list Nf2 :=
  match effective a with
  | Action.ShieldedV2 bundle => match bundle_v2 bundle with Ok b => spends b | Err _ => [] end
  | _ => []
  end.

(** ** From the transaction to its bundle *)

Lemma verify_bundle_v2 bundle l mining h d who n b act e :
  verify_bundle_for_carrier_with_suite2 bundle l mining h d who n b act = Ok e →
  bundle_v2 bundle = Ok (e_nullifiers e, e_commitments e).
Proof.
  unfold verify_bundle_for_carrier_with_suite2, bundle_v2. cbv zeta.
  destruct (_ && _); [done|]. destruct (_ && _); [done|].
  destruct (if is_suite2 bundle then _ else _) as [sb|]; [|done]. cbn [map_err mbind result_bind].
  destruct (check_structure sb); [|done]. cbn [map_err mbind result_bind].
  repeat (destruct (negb _); [done|]). destruct (_ && _); [done|]. destruct (negb _); [done|].
  match goal with |- context [map_err InvalidProof ?v] => destruct v; [|done] end. cbn [map_err mbind result_bind].
  destruct (find _ _); [done|]. destruct (find _ _); [done|].
  match goal with |- context [if ?c then Err TreeFull else _] => destruct c; [done|] end.
  destruct (Bal.checked_sub _ _); [|done]. destruct (Bal.checked_add _ _); [|done]. cbn [ok_or mbind result_bind].
  destruct (Bal.checked_sub _ _); [|done]. destruct (_ && _); [destruct (drain_window _ _ _ _ _); [|done]|];
    by intros [= <-].
Qed.
Lemma direct_withdrawal_bundle a l ctx me n b e :
  verify_direct_suite2_withdrawal_for_fee a l ctx me n b = Ok (Some e) →
  ∃ bundle, a = Action.ShieldedV2 bundle ∧ bundle_v2 bundle = Ok (e_nullifiers e, e_commitments e).
Proof.
  unfold verify_direct_suite2_withdrawal_for_fee. destruct (negb _); [done|]. destruct a; try done.
  destruct (negb _); [done|]. intros (e' & Ev & E)%bind_Ok. destruct (_ || _); [done|]. injection E as ->.
  apply map_err_Ok, verify_bundle_v2 in Ev. eauto.
Qed.

Lemma check_timestamp_effective a ctx a' t : check_timestamp a ctx = Ok (a', t) → effective a' = effective a.
Proof.
  destruct a; cbn [check_timestamp]; try by intros [= <- _].
  all: repeat (case_match; try done); by intros [= <- _].
Qed.
Lemma unwrap_envelope_effective l tx ctx h ac a a' err ac' tip :
  unwrap_envelope l tx ctx h ac a = Ok (a', err, ac', tip) → effective a' = effective a.
Proof.
  unfold unwrap_envelope. destruct a; try by intros [= <- _].
  all: repeat (case_match; try done); intros E; sov_simpl; by simplify_eq.
Qed.
Lemma preflight_effective l stx ctx r : preflight l stx ctx = Ok r →
  effective (rd_action r) = effective (action (transaction stx)) ∧
  ∀ e, rd_deferred r = Some e → ∃ bundle,
    action (transaction stx) = Action.ShieldedV2 bundle ∧ bundle_v2 bundle = Ok (e_nullifiers e, e_commitments e).
Proof.
  unfold preflight. destruct (negb _); [done|]. intros (ac & _ & E)%bind_Ok. destruct (negb _); [done|].
  apply bind_Ok in E as (_ & _ & (_ & _ & E)%bind_Ok). destruct (find_inactive_feature _ _); [done|].
  destruct (has_nested_timestamp _); [done|]. apply bind_Ok in E as ([inner t] & Et & (_ & _ & E)%bind_Ok).
  apply bind_Ok in E as (fee & _ & (d & Ed & E)%bind_Ok).
  apply bind_Ok in E as (n & _ & (bal & _ & E)%bind_Ok). apply bind_Ok in E as ([[[act err] ac'] tip] & Eu & [= <-]).
  cbn [rd_action rd_deferred]. split.
  - by rewrite (unwrap_envelope_effective _ _ _ _ _ _ _ _ _ _ Eu), (check_timestamp_effective _ _ _ _ Et).
  - intros e ->. destruct (_ && _); [|done]. apply bind_Ok in Ed as (eff & Ew & (av & _ & Ed)%bind_Ok).
    destruct (Bal.checked_sub _ _); [|done]. injection Ed as ->. apply map_err_Ok in Ew. by apply direct_withdrawal_bundle in Ew.
Qed.

(** ** From the bundle to the pool *)

Lemma shielded_legs_success sb vb mag w s s' :
  shielded_legs sb vb mag w s = (s', Ok Success) →
  ∃ l', apply_shielded_bundle (ledger s) sb = (l', Ok ()) ∧ rtc mutates l' (ledger s').
Proof.
  unfold shielded_legs. exec_unfold. exec_norm. destruct (apply_shielded_bundle (ledger s) sb) as [l' [[]|e]]; [|done].
  intros E. exists l'. split; [done|]. revert E. exec_cases; intros; exec_cases; try done; apply steps_mutates; eauto with steps.
Qed.
Lemma exec_shielded_success stx ctx b s s' : exec_shielded stx ctx b s = (s', Ok Success) →
  ∃ sb l', bundle_from_bytes b = Some sb ∧ apply_shielded_bundle (ledger s) sb = (l', Ok ()) ∧
           rtc mutates l' (ledger s').
Proof.
  unfold exec_shielded. cbv beta delta [mbind M_bind get fail mret M_ret] iota. cbv beta iota.
  destruct (bundle_from_bytes b) as [sb|]; [|done]. intros E. exists sb. setoid_rewrite (inj_iff Some).
  destruct (negb _); [done|]. destruct (negb _); [done|]. cbv zeta in E.
  match type of E with context [match ?w with Some _ => _ | None => _ end] => destruct w as [window|]; [|done] end.
  match type of E with context [if negb ?c then _ else _] => destruct c; [|done] end. cbn [negb] in E.
  apply shielded_legs_success in E as (l' & ? & ?). eauto.
Qed.
Lemma exec_shielded_v2_success stx ctx d fee b s s' :
  (∀ e, d = Some e → bundle_v2 b = Ok (e_nullifiers e, e_commitments e)) →
  exec_shielded_v2 stx ctx d fee b s = (s', Ok Success) →
  ∃ ns cs l', bundle_v2 b = Ok (ns, cs) ∧ apply_shielded_v2 (ledger s) ns cs = (l', Ok ()) ∧
              rtc mutates l' (ledger s').
Proof.
  intros Hd. unfold exec_shielded_v2. destruct (negb _); [done|]. exec_unfold. exec_norm. intros E.
  assert (∃ e, bundle_v2 b = Ok (e_nullifiers e, e_commitments e) ∧
    match d with
    | Some e' => e' = e
    | None => verify_bundle_for_carrier_with_suite2 b (ledger s) (mining ctx) (height ctx) (chain_domain ctx)
        (signer_id (transaction stx)) (tx_nonce (transaction stx)) (balance (signer s))
        (shielded_v2_suite2_active ctx) = Ok e
    end) as (e & Eb & Ee).
  { destruct d as [e|]; [eauto|]. destruct (verify_bundle_for_carrier_with_suite2 _ _ _ _ _ _ _ _ _) as [e|] eqn:Ev;
      [|done]. exists e. split; [by eapply verify_bundle_v2|done]. }
  exists (e_nullifiers e), (e_commitments e). clear Hd.
  destruct d as [e'|]; [subst e'|rewrite Ee in E; cbn [map_err] in E]; exec_norm;
    destruct (apply_shielded_v2 (ledger s) _ _) as [l' [[]|x]]; cbn [map_err] in E; exec_norm; try done;
    exists l'; (split_and!; [done..|]); revert E; exec_cases; intros; exec_cases; try done; apply steps_mutates; eauto with steps.
Qed.
Lemma epilogue_mutates stx ctx r status s : rtc mutates (ledger s) (ledger (epilogue stx ctx r status s).1).
Proof. apply steps_mutates, epilogue_steps. Qed.

(** What a successful transaction asks to spend was unspent, without repetition, and
    is spent. *)
Definition took (l l' : Ledger) a : Prop :=
  (NoDup (spends_v1 a) ∧ ∀ nf, nf ∈ spends_v1 a → ¬ spent (shielded (st l)) nf ∧ spent (shielded (st l')) nf) ∧
  (NoDup (spends_v2 a) ∧ ∀ nf, nf ∈ spends_v2 a → ¬ spent (shielded_v2 (st l)) nf ∧ spent (shielded_v2 (st l')) nf).
Lemma took_nothing l l' a : spends_v1 a = [] → spends_v2 a = [] → took l l' a.
Proof. unfold took. intros -> ->. repeat split; try constructor; set_solver. Qed.
Lemma run_action_took stx ctx r l s' l' :
  (∀ e b, rd_deferred r = Some e → rd_action r = Action.ShieldedV2 b →
     bundle_v2 b = Ok (e_nullifiers e, e_commitments e)) →
  run_action stx ctx r (start l r) = (s', Ok Success) → rtc mutates (ledger s') l' → took l l' (rd_action r).
Proof.
  intros Hd E R. unfold run_action in E. destruct (rd_action r) as [] eqn:Ea; try by apply took_nothing.
  all: try done.
  - apply exec_shielded_success in E as (sb & l1 & Eb & Ep & R1). cbn [ledger start] in Ep.
    apply apply_shielded_bundle_pools in Ep as [Ep _]. unfold took, spends_v1, spends_v2. cbn [effective].
    rewrite Eb. cbn [from_option].
    split; [|repeat split; try constructor; set_solver]. split; [by eapply spend_distinct|].
    intros nf Hn. split; [by eapply spend_fresh|]. eapply (mutates_keep_v1 l1); [by eapply rtc_trans|].
    by eapply spend_records.
  - apply exec_shielded_v2_success in E as (ns & cs & l1 & Eb & Ep & R1); [|by eauto]. cbn [ledger start] in Ep.
    apply apply_shielded_v2_pools in Ep as [Ep _]. unfold took, spends_v1, spends_v2. cbn [effective]. rewrite Eb.
    split; [repeat split; try constructor; set_solver|]. split; [by eapply spend_distinct|].
    intros nf Hn. split; [by eapply spend_fresh|]. eapply (mutates_keep_v2 l1); [by eapply rtc_trans|].
    by eapply spend_records.
Qed.
Lemma accepted_took l stx ctx l' rc : apply_transaction l stx ctx = (l', Ok rc) → status rc = Success →
  took l l' (action (transaction stx)).
Proof.
  unfold apply_transaction. destruct (preflight l stx ctx) as [r|] eqn:Ep; [|done].
  destruct (preflight_effective _ _ _ _ Ep) as [Ee Hd]. intros E Hok.
  unfold took, spends_v1, spends_v2. rewrite <- Ee. change (took l l' (rd_action r)).
  exec_unfold. destruct (rd_ms_error r) as [reason|].
  { exec_norm. destruct (epilogue _ _ _ _ _) as [s1 res] eqn:Ef. injection E as <- ->.
    pose proof (epilogue_status stx ctx r (Failed reason) (start l r) rc) as Hs. rewrite Ef in Hs.
    by rewrite (Hs eq_refl) in Hok. }
  destruct (run_action stx ctx r (start l r)) as [s1 [status|]] eqn:Er; exec_norm; [|done].
  destruct (epilogue _ _ _ _ _) as [s2 res] eqn:Ef. injection E as <- ->.
  pose proof (epilogue_status stx ctx r status s1 rc) as Hs. rewrite Ef in Hs. rewrite (Hs eq_refl) in Hok. subst status.
  eapply run_action_took; [|exact Er|].
  - intros e b He Hb. destruct (Hd e He) as (b' & Ha & Eb). rewrite Hb, Ha in Ee. cbn [effective] in Ee. congruence.
  - pose proof (epilogue_steps stx ctx r Success s1) as R. rewrite Ef in R. by apply steps_mutates.
Qed.

(** C28: no shielded note is spent twice.  A transaction that succeeds, in whatever
    envelope, spends each nullifier of its bundle once, none of them spent before and
    all of them afterwards; and whatever is done to the ledger in between short of
    undoing it (other transactions and blocks, failed bundles and torn pools
    included), no later transaction that succeeds spends any of them again. *)
Theorem shielded_spends_once (l : Ledger) stx ctx (l1 : Ledger) rc (l2 : Ledger) stx' ctx' (l3 : Ledger) rc' :
  apply_transaction l stx ctx = (l1, Ok rc) → status rc = Success →
  rtc mutates l1 l2 →
  apply_transaction l2 stx' ctx' = (l3, Ok rc') → status rc' = Success →
  took l l1 (action (transaction stx)) ∧
  (∀ nf, nf ∈ spends_v1 (action (transaction stx)) → nf ∉ spends_v1 (action (transaction stx'))) ∧
  (∀ nf, nf ∈ spends_v2 (action (transaction stx)) → nf ∉ spends_v2 (action (transaction stx'))).
Proof.
  intros E1 H1 R E2 H2. pose proof (accepted_took _ _ _ _ _ E1 H1) as T1.
  destruct T1 as [[D1 T1] [D2 T2]], (accepted_took _ _ _ _ _ E2 H2) as [[_ T3] [_ T4]].
  split; [split; by split|split].
  - intros nf Hn Hn'. destruct (T1 nf Hn) as [_ Hs]. by apply (T3 nf Hn'), (mutates_keep_v1 l1).
  - intros nf Hn Hn'. destruct (T2 nf Hn) as [_ Hs]. by apply (T4 nf Hn'), (mutates_keep_v2 l1).
Qed.
End spending.

(** ** The first pool of the source on a small tree *)

Module Spend_examples.
Import Run.

Section env.
Variable capacity : nat.
(** A note commitment tree with room for [capacity] notes. *)
Definition orchard : V1.Orchard := {|
  V1.Frontier := nat; V1.frontier_empty := 0%nat; V1.ExtractedNoteCommitment := bytes;
  V1.frontier_append n _ := if decide (n < capacity)%nat then Some (S n) else None;
  V1.frontier_root n := [N.of_nat n]; V1.cmx_to_bytes c := c; V1.cmx_from_bytes c := Some c |}.
#[local] Existing Instance orchard.
Definition base : LedgerEnv := Ledger_examples.env.
Definition ledger_env : LedgerEnv := {|
  env_blake3 := @env_blake3 base;
  ShieldedState := V1.ShieldedState; ShieldedBundle := V1.ShieldedBundle; ShieldedError := V1.ShieldedError;
  env_pool1 := @v1_pool _ (@env_blake3 base);
  ShieldedV2State := @ShieldedV2State base; PqDigest := @PqDigest base; ShieldedV2StateError := @ShieldedV2StateError base;
  env_pool2 := @env_pool2 base;
  env_account := @env_account base; env_balance := @env_balance base; env_token := @env_token base;
  env_policy := @env_policy base; env_window := @env_window base; env_counter_pair := @env_counter_pair base;
  env_htlcs := @env_htlcs base; env_classes := @env_classes base; env_nfts := @env_nfts base;
  env_multisig := @env_multisig base; env_proposals := @env_proposals base; env_vaults := @env_vaults base |}.
Definition v2 : @V2Env ledger_env := @Build_V2Env ledger_env
  false (BundlePublicInputs unit) (λ b, b) (λ _, Err (WOther "no decoder")) (λ _, Err (WOther "no decoder"))
  (λ _, Ok []) (λ _, Ok ()) (λ _ _, true) (λ _, Ok ()) (λ _ _, Ok ()) (λ _ _, true) (λ _ _, false) (λ _, 0)
  (λ _, EmptyString).
(** The bundle [nf; cm] spends one note and makes one. *)
Definition xenv : ExecEnv := {|
  x_ledger := ledger_env; x_v2 := v2; x_sig := sigs; x_pk := key_bytes;
  x_intent := λ i, acc_bytes (i_owner i) ++ [i_nonce i];
  x_tx := @x_tx exec_env;
  x_action := action_bytes; action_from_slice := λ _, None; sha256 := λ b, Crypto.Toy.digest b;
  vm_execute := λ _ _ _ _ s, (Err OutOfGas, s);
  bundle_from_bytes := λ b, match b with [nf; cm] => Some (V1.mkBundle [[nf]] [[cm]]) | _ => None end;
  verify_for_carrier := λ _ _ _ _, true; verify_proof_only_legacy := λ _, true;
  anchor_is_known := λ _ _, true; value_balance := λ _, 0%Z |}.
#[local] Existing Instance xenv.

Definition funded : Ledger := set_account new Ledger_examples.alice (Acct.new k1 100).
Definition spend (nonce : N) (bundle : bytes) : SignedTransaction :=
  sign (mkTransaction Ledger_examples.alice k1 nonce (Action.Shielded bundle)).
Definition first : Ledger * result Exn Receipt := apply_transaction funded (spend 0 [7; 1]) ctx.
Definition second (bundle : bytes) : Ledger * result Exn Receipt := apply_transaction first.1 (spend 1 bundle) ctx.
Definition seen (l : Ledger) (nf : bytes) : bool := V1.nullifier_seen (shielded (st l)) nf.
End env.

Lemma spend_runs : (status <$> (first 2).2, status <$> (second 2 [8; 2]).2, status <$> (second 2 [7; 2]).2)
  = (Ok Success, Ok Success, Ok (Failed "shielded double-spend")).
Proof. by vm_compute. Qed.

(** A tree with room for one note: the second transaction's receipt says it failed,
    its nullifier is recorded all the same, and undoing the block does not take that
    back. *)
Lemma torn_pool_survives_undo :
  status <$> (second 1 [8; 2]).2 = Ok (Failed "shielded double-spend") ∧
  seen 1 (first 1).1 [8] = false ∧ seen 1 (second 1 [8; 2]).1 [8] = true ∧
  let '(log, l1) := @take_undo (ledger_env 1)
    (@run_block (xenv 1) (@begin_undo (ledger_env 1) (first 1).1) [spend 1 [8; 2]] ctx) in
  seen 1 (@apply_undo (ledger_env 1) l1 log) [8] = true.
Proof. split_and!; by vm_compute. Qed.

Definition receipt (r : result Exn Receipt) : Receipt :=
  match r with Ok rc => rc | Err _ => mkReceipt Hash_ZERO Success 0 [] [] None end.
Lemma first_ok : first 2 = ((first 2).1, Ok (receipt (first 2).2)).
Proof. assert (is_ok (first 2).2 = true) by (by vm_compute). by destruct (first 2) as [? []]. Qed.
Lemma second_ok : second 2 [8; 2] = ((second 2 [8; 2]).1, Ok (receipt (second 2 [8; 2]).2)).
Proof.
  assert (is_ok (second 2 [8; 2]).2 = true) by (by vm_compute). by destruct (second 2 [8; 2]) as [? []].
Qed.
#[local] Program Instance unit_spends : SpendOnce (@env_pool2 (ledger_env 2)) unit := {|
  spent _ _ := False; spends _ := [] |}.
Solve Obligations with (intros; by constructor || set_solver).
Lemma shielded_spends_once_witness :
  V1.nullifier_seen (@shielded (ledger_env 2) (st (first 2).1)) [7] = true.
Proof.
  apply bool_decide_eq_true.
  refine (proj2 (proj2 (proj1 (proj1 (@shielded_spends_once (xenv 2) bytes v1_spend_once unit unit_spends
    (funded 2) (spend 0 [7; 1]) ctx _ _ _ (spend 1 [8; 2]) ctx _ _
    first_ok _ (rtc_refl _ _) second_ok _))) [7] _)).
  - by vm_compute.
  - by vm_compute.
  - left.
Defined.
End Spend_examples.
