(* ===== verification/LedgerEquiv.v ===== *)
(** * Ledgers with the same store (crates/state/src/ledger.rs)

    Two ledgers are equivalent when their logical states are equal, whatever their
    commitments and journals; every mutator respects the equivalence. *)

From S2P Require Import Prelude Primitives Crypto Compliance Smt Vault Ledger LedgerUndo.

Section equiv.
Context `{Env : LedgerEnv}.

#[global] Instance ledger_equiv : Equiv Ledger := λ l1 l2, st l1 = st l2.
#[global] Instance ledger_equivalence : Equivalence (≡@{Ledger}).
Proof. split; unfold equiv, ledger_equiv; red; congruence. Qed.
#[global] Instance st_proper : Proper ((≡) ==> (=)) (st (Env:=Env)).
Proof. by intros l1 l2. Qed.

(** ** The mutators *)

Ltac store_op op := intros l1 l2 E; unfold equiv, ledger_equiv in *; repeat intros ? ? ->;
  unfold op; ledger_simpl; rewrite ?E; repeat case_match; ledger_simpl; by rewrite ?E.

#[global] Instance set_account_proper : Proper ((≡) ==> (=) ==> (=) ==> (≡)) set_account.
Proof. store_op (@set_account). Qed.
#[global] Instance set_contract_value_proper : Proper ((≡) ==> (=) ==> (=) ==> (=) ==> (≡)) set_contract_value.
Proof. store_op (@set_contract_value). Qed.
#[global] Instance set_shielded_value_proper : Proper ((=) ==> (≡) ==> (≡)) set_shielded_value.
Proof. intros ? v -> l1 l2 E. unfold equiv, ledger_equiv, set_shielded_value in *. ledger_simpl. by rewrite E. Qed.
#[global] Instance set_shielded_v2_value_proper : Proper ((=) ==> (≡) ==> (≡)) set_shielded_v2_value.
Proof. intros ? v -> l1 l2 E. unfold equiv, ledger_equiv, set_shielded_v2_value in *. ledger_simpl. by rewrite E. Qed.
#[global] Instance set_deshield_window_proper : Proper ((≡) ==> (=) ==> (=) ==> (≡)) set_deshield_window.
Proof. store_op (@set_deshield_window). Qed.
#[global] Instance set_deshield_v2_window_proper : Proper ((≡) ==> (=) ==> (=) ==> (≡)) set_deshield_v2_window.
Proof. store_op (@set_deshield_v2_window). Qed.
#[global] Instance set_oracle_price_proper : Proper ((≡) ==> (=) ==> (≡)) set_oracle_price.
Proof. store_op (@set_oracle_price). Qed.
#[global] Instance set_multisig_proper : Proper ((≡) ==> (=) ==> (=) ==> (≡)) set_multisig.
Proof. store_op (@set_multisig). Qed.
#[global] Instance set_proposal_proper : Proper ((≡) ==> (=) ==> (=) ==> (≡)) set_proposal.
Proof. store_op (@set_proposal). Qed.
#[global] Instance remove_proposal_proper : Proper ((≡) ==> (=) ==> (≡)) remove_proposal.
Proof. store_op (@remove_proposal). Qed.
#[global] Instance drop_proposal_proper : Proper ((≡) ==> (=) ==> (≡)) drop_proposal.
Proof. store_op (@drop_proposal). Qed.
#[global] Instance set_nft_class_proper : Proper ((≡) ==> (=) ==> (=) ==> (≡)) set_nft_class.
Proof. store_op (@set_nft_class). Qed.
#[global] Instance put_nft_proper : Proper ((≡) ==> (=) ==> (=) ==> (=) ==> (=) ==> (≡)) put_nft.
Proof. store_op (@put_nft). Qed.
#[global] Instance set_token_proper : Proper ((≡) ==> (=) ==> (=) ==> (≡)) set_token.
Proof. store_op (@set_token). Qed.
#[global] Instance set_token_balance_proper : Proper ((≡) ==> (=) ==> (=) ==> (=) ==> (≡)) set_token_balance.
Proof. store_op (@set_token_balance). Qed.
#[global] Instance set_token_window_proper : Proper ((≡) ==> (=) ==> (=) ==> (=) ==> (≡)) set_token_window.
Proof. store_op (@set_token_window). Qed.
#[global] Instance clear_window_proper : Proper ((≡) ==> (=) ==> (≡)) clear_window.
Proof. store_op (@clear_window). Qed.
#[global] Instance consume_intent_proper : Proper ((≡) ==> (=) ==> (≡)) consume_intent.
Proof. store_op (@consume_intent). Qed.

(** Folding a mutator. *)
Lemma foldl_equiv {A} (f : Ledger → A → Ledger) (xs : list A) :
  Proper ((≡) ==> (=) ==> (≡)) f → Proper ((≡) ==> (≡)) (λ l, foldl f l xs).
Proof.
  intros Hf l1 l2 E. revert l1 l2 E. induction xs as [|x xs IH]; intros l1 l2 E; simpl; [done|].
  apply IH. by apply Hf.
Qed.
#[global] Instance remove_proposals_for_proper :
  Proper ((≡) ==> (=) ==> prod_relation (=) (≡)) remove_proposals_for.
Proof.
  intros l1 l2 E ? a ->. unfold remove_proposals_for. rewrite E. case_match; [done|].
  split; [done|]. cbn [snd]. unfold equiv, ledger_equiv. ledger_simpl.
  by apply (foldl_equiv drop_proposal _ _).
Qed.
#[global] Instance set_token_policy_proper : Proper ((≡) ==> (=) ==> (=) ==> (≡)) set_token_policy.
Proof.
  intros l1 l2 E ? a -> ? p ->. unfold set_token_policy. cbv zeta.
  assert (∀ xs l1 l2, l1 ≡ l2 → foldl (λ l e, record (UTokenWindow e.1.1 e.1.2 (Some e.2)) l) l1 xs
    ≡ foldl (λ l e, record (UTokenWindow e.1.1 e.1.2 (Some e.2)) l) l2 xs) as Hr.
  { induction xs as [|x xs IH]; intros m1 m2 Em; cbn [foldl]; [done|]. apply IH.
    unfold equiv, ledger_equiv in *. by rewrite !st_record. }
  assert (∀ f l, st (upd f l) = f (st l)) as Hu by done.
  rewrite E.
  match goal with |- foldl clear_window (upd ?f (commit_insert ?s ?v ?m1)) _ ≡ foldl _ (upd _ (commit_insert _ _ ?m2)) _ =>
    assert (m1 ≡ m2) as Em end.
  { apply Hr. unfold equiv, ledger_equiv. by rewrite !st_record. }
  rewrite !Hu, !st_commit_insert. rewrite Em.
  apply (foldl_equiv clear_window _ _). unfold equiv, ledger_equiv. rewrite !Hu, !st_commit_insert. by rewrite Em.
Qed.

(** The fallible ones: both fail, or both succeed with equivalent ledgers. *)
Ltac store_opt op := intros l1 l2 E; unfold equiv at 1, ledger_equiv in E; repeat intros ? ? ->;
  unfold op, set_shielded_value, set_shielded_v2_value, put_nft; cbv zeta; rewrite ?E;
  unfold mbind, option_bind; repeat case_match; constructor;
  unfold equiv, ledger_equiv; ledger_simpl; by rewrite ?E.

#[global] Instance add_shielded_value_proper : Proper ((≡) ==> (=) ==> (≡)) add_shielded_value.
Proof. store_opt (@add_shielded_value). Qed.
#[global] Instance sub_shielded_value_proper : Proper ((≡) ==> (=) ==> (≡)) sub_shielded_value.
Proof. store_opt (@sub_shielded_value). Qed.
#[global] Instance add_shielded_v2_value_proper : Proper ((≡) ==> (=) ==> (≡)) add_shielded_v2_value.
Proof. store_opt (@add_shielded_v2_value). Qed.
#[global] Instance sub_shielded_v2_value_proper : Proper ((≡) ==> (=) ==> (≡)) sub_shielded_v2_value.
Proof. store_opt (@sub_shielded_v2_value). Qed.
#[global] Instance lock_htlc_proper : Proper ((≡) ==> (=) ==> (=) ==> (≡)) lock_htlc.
Proof. store_opt (@lock_htlc). Qed.
#[global] Instance set_vault_proper : Proper ((≡) ==> (=) ==> (=) ==> (≡)) set_vault.
Proof. store_opt (@set_vault). Qed.
#[global] Instance mint_nft_proper : Proper ((≡) ==> (=) ==> (=) ==> (=) ==> (=) ==> (=) ==> (≡)) mint_nft.
Proof. store_opt (@mint_nft). Qed.
#[global] Instance transfer_nft_proper : Proper ((≡) ==> (=) ==> (=) ==> (=) ==> (≡)) transfer_nft.
Proof. store_opt (@transfer_nft). Qed.
#[global] Instance set_nft_meta_proper : Proper ((≡) ==> (=) ==> (=) ==> (=) ==> (≡)) set_nft_meta.
Proof. store_opt (@set_nft_meta). Qed.
#[global] Instance add_mined_emitted_proper : Proper ((≡) ==> (=) ==> (≡)) add_mined_emitted.
Proof. store_opt (@add_mined_emitted). Qed.
Lemma settle_htlc_equiv l1 l2 id : l1 ≡ l2 →
  option_Forall2 (prod_relation (=) (≡)) (settle_htlc l1 id) (settle_htlc l2 id).
Proof.
  intros E. unfold equiv, ledger_equiv in E. unfold settle_htlc. rewrite E. destruct (htlcs (st l2) !! id); constructor. split; [done|].
  cbn [snd]. unfold equiv, ledger_equiv. ledger_simpl. by rewrite E.
Qed.
End equiv.

(** ** Normal form of a ledger under a mutator

    [bare s] stands for any ledger with the store [s]; a mutator applied to a
    ledger with that store has the store it gives [bare s]. *)

Section bare.
Context `{Env : LedgerEnv}.
Implicit Types (l : Ledger) (s : Store).

Definition bare s : Ledger := mkLedger None s Smt.new.
Definition retag (u : option (list UndoOp)) (c : Smt.SparseMerkleTree) l : Ledger := mkLedger u (st l) c.

Lemma bare_total (f : Ledger → Ledger) u s c :
  (∀ l1 l2, l1 ≡ l2 → f l1 ≡ f l2) →
  ∃ u' c', f (mkLedger u s c) = mkLedger u' (st (f (bare s))) c'.
Proof.
  intros Hf. exists (undo (f (mkLedger u s c))), (commitment (f (mkLedger u s c))).
  rewrite (Hf (bare s) (mkLedger u s c) eq_refl). by destruct (f (mkLedger u s c)).
Qed.
Lemma bare_partial (f : Ledger → option Ledger) u s c :
  (∀ l1 l2, l1 ≡ l2 → f l1 ≡ f l2) →
  ∃ u' c', f (mkLedger u s c) = retag u' c' <$> f (bare s).
Proof.
  intros Hf. specialize (Hf (mkLedger u s c) (bare s) eq_refl).
  inversion Hf as [l1 l2 E E1 E2|E1 E2]; [|by exists None, Smt.new].
  exists (undo l1), (commitment l1). simpl. unfold retag. rewrite <- E. by destruct l1.
Qed.
Lemma bare_result {Er} (f : Ledger → result Er Ledger) u s c :
  (∀ l1 l2, l1 ≡ l2 →
    match f l1, f l2 with Ok a, Ok b => a ≡ b | Err a, Err b => a = b | _, _ => False end) →
  ∃ u' c', f (mkLedger u s c) = retag u' c' <$> f (bare s).
Proof.
  intros Hf. specialize (Hf (mkLedger u s c) (bare s) eq_refl).
  destruct (f (mkLedger u s c)) as [l1|e1], (f (bare s)) as [l2|e2]; try done.
  - exists (undo l1), (commitment l1). cbv [fmap result_fmap]. unfold retag. rewrite <- Hf. by destruct l1.
  - exists None, Smt.new. by subst.
Qed.
Lemma bare_beside {R} (f : Ledger → Ledger * R) u s c :
  (∀ l1 l2, l1 ≡ l2 → (f l1).1 ≡ (f l2).1 ∧ (f l1).2 = (f l2).2) →
  ∃ u' c', f (mkLedger u s c) = (mkLedger u' (st (f (bare s)).1) c', (f (bare s)).2).
Proof.
  intros Hf. destruct (Hf (mkLedger u s c) (bare s) eq_refl) as [E E2]. rewrite <- E2.
  exists (undo (f (mkLedger u s c)).1), (commitment (f (mkLedger u s c)).1). unfold equiv, ledger_equiv in E.
  rewrite <- E. by destruct (f (mkLedger u s c)) as [[] ?].
Qed.
Lemma bare_shielded u s c b : ∃ u' c', apply_shielded_bundle (mkLedger u s c) b =
  (mkLedger u' (st (apply_shielded_bundle (bare s) b).1) c', (apply_shielded_bundle (bare s) b).2).
Proof.
  apply (bare_beside (λ l, apply_shielded_bundle l b)). intros l1 l2 E. unfold apply_shielded_bundle.
  unfold equiv, ledger_equiv in *. rewrite E. destruct (pool_apply _ _) as [p []]; cbn [fst snd];
    split; try done; ledger_simpl; by rewrite E.
Qed.
Lemma bare_shielded_v2 u s c ns cs : ∃ u' c', apply_shielded_v2 (mkLedger u s c) ns cs =
  (mkLedger u' (st (apply_shielded_v2 (bare s) ns cs).1) c', (apply_shielded_v2 (bare s) ns cs).2).
Proof.
  apply (bare_beside (λ l, apply_shielded_v2 l ns cs)). intros l1 l2 E. unfold apply_shielded_v2.
  unfold equiv, ledger_equiv in *. rewrite E. destruct (pool_apply _ _) as [p []]; cbn [fst snd];
    split; try done; ledger_simpl; by rewrite E.
Qed.
Lemma bare_settle u s c id :
  ∃ u' c', settle_htlc (mkLedger u s c) id = (λ p, (p.1, retag u' c' p.2)) <$> settle_htlc (bare s) id.
Proof.
  pose proof (settle_htlc_equiv (mkLedger u s c) (bare s) id eq_refl) as Hf.
  inversion Hf as [[h1 l1] [h2 l2] [Eh E] E1 E2|E1 E2]; [|by exists None, Smt.new].
  exists (undo l1), (commitment l1). simpl in *. subst h2. unfold retag. rewrite <- E. by destruct l1.
Qed.
End bare.

(** Rewrite one mutator applied to a ledger in normal form. *)
Ltac bare_with H := destruct H as (? & ? & ->).
Ltac bare_fun f u s c :=
  let H := fresh in
  assert (∀ l1 l2, l1 ≡ l2 → f l1 ≡ f l2) as H by (intros ? ? ->; reflexivity);
  let P := fresh in
  first [ pose proof (bare_total f u s c H) as P | pose proof (bare_partial f u s c H) as P ];
  cbv beta in P; clear H; bare_with P.
Ltac bare_step :=
  match goal with
  | |- context [set_account (mkLedger ?u ?s ?c) ?a ?b] => bare_fun (λ l, set_account l a b) u s c
  | |- context [set_contract_value (mkLedger ?u ?s ?c) ?a ?b ?d] => bare_fun (λ l, set_contract_value l a b d) u s c
  | |- context [set_deshield_window (mkLedger ?u ?s ?c) ?a ?b] => bare_fun (λ l, set_deshield_window l a b) u s c
  | |- context [set_deshield_v2_window (mkLedger ?u ?s ?c) ?a ?b] => bare_fun (λ l, set_deshield_v2_window l a b) u s c
  | |- context [set_oracle_price (mkLedger ?u ?s ?c) ?a] => bare_fun (λ l, set_oracle_price l a) u s c
  | |- context [set_multisig (mkLedger ?u ?s ?c) ?a ?b] => bare_fun (λ l, set_multisig l a b) u s c
  | |- context [set_proposal (mkLedger ?u ?s ?c) ?a ?b] => bare_fun (λ l, set_proposal l a b) u s c
  | |- context [remove_proposal (mkLedger ?u ?s ?c) ?a] => bare_fun (λ l, remove_proposal l a) u s c
  | |- context [(remove_proposals_for (mkLedger ?u ?s ?c) ?a).2] => bare_fun (λ l, (remove_proposals_for l a).2) u s c
  | |- context [set_nft_class (mkLedger ?u ?s ?c) ?a ?b] => bare_fun (λ l, set_nft_class l a b) u s c
  | |- context [set_token (mkLedger ?u ?s ?c) ?a ?b] => bare_fun (λ l, set_token l a b) u s c
  | |- context [set_token_balance (mkLedger ?u ?s ?c) ?a ?b ?d] => bare_fun (λ l, set_token_balance l a b d) u s c
  | |- context [set_token_window (mkLedger ?u ?s ?c) ?a ?b ?d] => bare_fun (λ l, set_token_window l a b d) u s c
  | |- context [set_token_policy (mkLedger ?u ?s ?c) ?a ?b] => bare_fun (λ l, set_token_policy l a b) u s c
  | |- context [consume_intent (mkLedger ?u ?s ?c) ?a] => bare_fun (λ l, consume_intent l a) u s c
  | |- context [add_shielded_value (mkLedger ?u ?s ?c) ?a] => bare_fun (λ l, add_shielded_value l a) u s c
  | |- context [sub_shielded_value (mkLedger ?u ?s ?c) ?a] => bare_fun (λ l, sub_shielded_value l a) u s c
  | |- context [add_shielded_v2_value (mkLedger ?u ?s ?c) ?a] => bare_fun (λ l, add_shielded_v2_value l a) u s c
  | |- context [sub_shielded_v2_value (mkLedger ?u ?s ?c) ?a] => bare_fun (λ l, sub_shielded_v2_value l a) u s c
  | |- context [lock_htlc (mkLedger ?u ?s ?c) ?a ?b] => bare_fun (λ l, lock_htlc l a b) u s c
  | |- context [set_vault (mkLedger ?u ?s ?c) ?a ?b] => bare_fun (λ l, set_vault l a b) u s c
  | |- context [mint_nft (mkLedger ?u ?s ?c) ?a ?b ?d ?e ?f] => bare_fun (λ l, mint_nft l a b d e f) u s c
  | |- context [register_name (mkLedger ?u ?s ?c) ?a ?b ?d] => unfold register_name
  | |- context [transfer_name (mkLedger ?u ?s ?c) ?a ?b] => unfold transfer_name
  | |- context [transfer_nft (mkLedger ?u ?s ?c) ?a ?b ?d] => bare_fun (λ l, transfer_nft l a b d) u s c
  | |- context [set_nft_meta (mkLedger ?u ?s ?c) ?a ?b ?d] => bare_fun (λ l, set_nft_meta l a b d) u s c
  | |- context [add_mined_emitted (mkLedger ?u ?s ?c) ?a] => bare_fun (λ l, add_mined_emitted l a) u s c
  | |- context [apply_shielded_bundle (mkLedger ?u ?s ?c) ?b] => bare_with (bare_shielded u s c b)
  | |- context [apply_shielded_v2 (mkLedger ?u ?s ?c) ?a ?b] => bare_with (bare_shielded_v2 u s c a b)
  | |- context [settle_htlc (mkLedger ?u ?s ?c) ?a] => bare_with (bare_settle u s c a)
  end.
