(* ===== verification/ExecStore.v ===== *)
(** * Execution is determined by the store (crates/runtime/src/execution.rs)

    The Merkle commitment and the undo journal of a ledger are written by
    execution and never read by it: on ledgers with equal stores every transaction
    and block has the same receipts and errors and leaves equal stores.  This is
    what lets a node undo and redo blocks. *)

From S2P Require Import Prelude Primitives Mining Crypto Compliance Types Gas Smt Vault Ledger.
From S2P Require Import ShieldedV2 Execution LedgerUndo LedgerEquiv ExecSteps.

(** A query reads the store only: put it in terms of [bare]. *)
Ltac bare_query :=
  match goal with
  | |- context [account (mkLedger ?u ?s ?c) ?a] => change (account (mkLedger u s c) a) with (account (bare s) a)
  | |- context [exists_ (mkLedger ?u ?s ?c) ?a] => change (exists_ (mkLedger u s c) a) with (exists_ (bare s) a)
  | |- context [contract_value (mkLedger ?u ?s ?c) ?a ?b] => change (contract_value (mkLedger u s c) a b) with (contract_value (bare s) a b)
  | |- context [vault (mkLedger ?u ?s ?c) ?a] => change (vault (mkLedger u s c) a) with (vault (bare s) a)
  | |- context [oracle_price (mkLedger ?u ?s ?c)] => change (oracle_price (mkLedger u s c)) with (oracle_price (bare s))
  | |- context [token_balance (mkLedger ?u ?s ?c) ?a ?b] => change (token_balance (mkLedger u s c) a b) with (token_balance (bare s) a b)
  | |- context [token_window (mkLedger ?u ?s ?c) ?a ?b] => change (token_window (mkLedger u s c) a b) with (token_window (bare s) a b)
  | |- context [intent_consumed (mkLedger ?u ?s ?c) ?a] => change (intent_consumed (mkLedger u s c) a) with (intent_consumed (bare s) a)
  | |- context [name_record (mkLedger ?u ?s ?c) ?a] => change (name_record (mkLedger u s c) a) with (name_record (bare s) a)
  | |- context [resolve_name (mkLedger ?u ?s ?c) ?a] => change (resolve_name (mkLedger u s c) a) with (resolve_name (bare s) a)
  | |- context [name_taken (mkLedger ?u ?s ?c) ?a] => change (name_taken (mkLedger u s c) a) with (name_taken (bare s) a)
  | |- context [resolve_recipient (mkLedger ?u ?s ?c) ?a] => change (resolve_recipient (mkLedger u s c) a) with (resolve_recipient (bare s) a)
  | |- context [check_token_outgoing (mkLedger ?u ?s ?c) ?a ?b ?d ?e ?f] => change (check_token_outgoing (mkLedger u s c) a b d e f) with (check_token_outgoing (bare s) a b d e f)
  | |- context [settle_leg (mkLedger ?u ?s ?c) ?a] => change (settle_leg (mkLedger u s c) a) with (settle_leg (bare s) a)
  | |- context [nft_owner (mkLedger ?u ?s ?c) ?a ?b] => change (nft_owner (mkLedger u s c) a b) with (nft_owner (bare s) a b)
  | |- context [issue_block (mkLedger ?u ?s ?c) ?a ?b] => change (issue_block (mkLedger u s c) a b) with (issue_block (bare s) a b)
  | |- context [contract_map (mkLedger ?u ?s ?c) ?a] => change (contract_map (mkLedger u s c) a) with (contract_map (bare s) a)
  | |- context [holdings (mkLedger ?u ?s ?c) ?a] => change (holdings (mkLedger u s c) a) with (holdings (bare s) a)
  | |- context [legacy_member ?stx ?ctx (mkLedger ?u ?s ?c) ?a] =>
      change (legacy_member stx ctx (mkLedger u s c) a) with (legacy_member stx ctx (bare s) a)
  | |- context [approvers_after ?ctx (mkLedger ?u ?s ?c) ?a ?b ?d ?e] =>
      change (approvers_after ctx (mkLedger u s c) a b d e) with (approvers_after ctx (bare s) a b d e)
  | |- context [verify_bundle_for_carrier_with_suite2 ?x1 (mkLedger ?u ?s ?c) ?x2 ?x3 ?x4 ?x5 ?x6 ?x7 ?x8] =>
      change (verify_bundle_for_carrier_with_suite2 x1 (mkLedger u s c) x2 x3 x4 x5 x6 x7 x8)
        with (verify_bundle_for_carrier_with_suite2 x1 (bare s) x2 x3 x4 x5 x6 x7 x8)
  end.

(** ** The helpers *)

Section helpers.
Context `{XE : ExecEnv}.
Implicit Types (l : Ledger) (s : Store).

(** Both fail alike, or both succeed with related values. *)
Definition res_equiv {Er A} (R : A → A → Prop) (x y : result Er A) : Prop :=
  match x, y with Ok a, Ok b => R a b | Err a, Err b => a = b | _, _ => False end.

Lemma bare_pair {Er A} (f : Ledger → result Er (Ledger * A)) u s c :
  (∀ l1 l2, l1 ≡ l2 → res_equiv (prod_relation (≡) (=)) (f l1) (f l2)) →
  ∃ u' c', f (mkLedger u s c) = (λ p, (retag u' c' p.1, p.2)) <$> f (bare s).
Proof.
  intros Hf. specialize (Hf (mkLedger u s c) (bare s) eq_refl).
  destruct (f (mkLedger u s c)) as [[l1 a1]|e1], (f (bare s)) as [[l2 a2]|e2]; try done.
  - destruct Hf as [El Ea]. simpl in *. subst a2. exists (undo l1), (commitment l1).
    cbv [fmap result_fmap]. unfold retag. simpl. rewrite <- El. by destruct l1.
  - exists None, Smt.new. cbv [res_equiv] in Hf. by subst.
Qed.

Lemma resolve_recipient_equiv l1 l2 to : l1 ≡ l2 → resolve_recipient l1 to = resolve_recipient l2 to.
Proof. intros E. unfold resolve_recipient, resolve_name. by rewrite E. Qed.
Lemma do_transfer_equiv l1 l2 from a to b : l1 ≡ l2 →
  res_equiv (prod_relation (prod_relation (≡) (=)) (=)) (do_transfer l1 from a to b) (do_transfer l2 from a to b).
Proof.
  intros E. unfold do_transfer. rewrite (resolve_recipient_equiv _ _ _ E). cbv zeta. unfold account.
  rewrite E. repeat case_match; cbn [res_equiv]; try done. repeat split; cbn [fst snd]. by rewrite E.
Qed.
Lemma bare_transfer u s c from a to b :
  ∃ u' c', do_transfer (mkLedger u s c) from a to b
    = (λ p, (retag u' c' p.1.1, p.1.2, p.2)) <$> do_transfer (bare s) from a to b.
Proof.
  pose proof (do_transfer_equiv (mkLedger u s c) (bare s) from a to b eq_refl) as Hf.
  destruct (do_transfer (mkLedger u s c) from a to b) as [[[l1 a1] b1]|e1],
    (do_transfer (bare s) from a to b) as [[[l2 a2] b2]|e2]; try done.
  - destruct Hf as [[El Ea] Eb]. simpl in *. subst a2 b2. exists (undo l1), (commitment l1).
    cbv [fmap result_fmap]. unfold retag. simpl. rewrite <- El. by destruct l1.
  - exists None, Smt.new. cbv [res_equiv] in Hf. by subst.
Qed.
Lemma bare_proposal u s c acc a :
  ∃ u' c', execute_proposal_action (mkLedger u s c) acc a
    = (λ p, (retag u' c' p.1, p.2)) <$> execute_proposal_action (bare s) acc a.
Proof.
  apply (bare_pair (λ l, execute_proposal_action l acc a)). intros l1 l2 E. unfold execute_proposal_action.
  destruct a; try done. unfold account. rewrite E.
  pose proof (do_transfer_equiv l1 l2 acc (default Acct.default (accounts (st l2) !! acc)) to amount E) as Hf.
  destruct (do_transfer l1 _ _ _ _) as [[[m1 a1] b1]|e1], (do_transfer l2 _ _ _ _) as [[[m2 a2] b2]|e2]; try done.
  destruct Hf as [[El Ea] Eb]. simpl in *. subst. split; [|done]. simpl. by rewrite El.
Qed.
Lemma credit_equiv l1 l2 id b : l1 ≡ l2 → res_equiv (≡) (credit l1 id b) (credit l2 id b).
Proof.
  intros E. unfold credit, account. rewrite E. case_match; [done|].
  destruct (Bal.checked_add _ _); [|done]. cbv [ok_or mbind result_bind res_equiv]. by rewrite E.
Qed.
Lemma bare_credit u s c id b : ∃ u' c', credit (mkLedger u s c) id b = retag u' c' <$> credit (bare s) id b.
Proof. apply (bare_result (λ l, credit l id b)). intros l1 l2 E. by apply credit_equiv. Qed.

Lemma if_some_equiv {A} (o : option A) (f : A → Ledger → Ledger) l1 l2 :
  (∀ a l1 l2, l1 ≡ l2 → f a l1 ≡ f a l2) → l1 ≡ l2 → if_some o f l1 ≡ if_some o f l2.
Proof. intros Hf E. destruct o; simpl; auto. Qed.
Lemma bare_intent u s c a solver sm h :
  ∃ u' c', settle_intent_legs (mkLedger u s c) a solver sm h
    = (λ p, (retag u' c' p.1, p.2)) <$> settle_intent_legs (bare s) a solver sm h.
Proof.
  apply (bare_pair (λ l, settle_intent_legs l a solver sm h)). intros l1 l2 E. unfold settle_intent_legs.
  assert (st l1 = st l2) as Es by exact E.
  assert (∀ x, settle_leg l1 x = settle_leg l2 x) as H1 by (intros; unfold settle_leg; by rewrite Es).
  assert (∀ w x y z t, check_token_outgoing l1 w x y z t = check_token_outgoing l2 w x y z t) as H2
    by (intros; unfold check_token_outgoing, token_window; by rewrite Es).
  assert (∀ x y, token_balance l1 x y = token_balance l2 x y) as H3 by (intros; unfold token_balance; by rewrite Es).
  assert (∀ x, account l1 x = account l2 x) as H4 by (intros; unfold account; by rewrite Es).
  cbv zeta. rewrite !H1, !H4. unfold mbind, result_bind.
  destruct (soft (settle_leg l2 (give_asset _))) as [give|]; [|done].
  destruct (soft (settle_leg l2 (want_asset _))) as [want|]; [|done].
  assert (∀ {B} leg (f g : Hash → result LegError B), (∀ x, f x = g x) → on_token leg f = on_token leg g) as Ho
    by (intros B [|] f g Hfg; simpl; [done|by rewrite Hfg]).
  repeat match goal with
  | |- context [on_token ?leg (λ x, @?f x)] =>
      match f with context [l1] =>
        let g := eval pattern l1 in f in
        match g with ?F _ => rewrite (Ho _ leg f (F l2)) by (intros; cbv beta; by rewrite ?H2, ?H3) end; cbv beta
      end
  end.
  repeat (case_match; [|done]). split; [|done]. cbn [fst].
  repeat apply if_some_equiv; try (intros; by repeat apply if_some_equiv; intros; try match goal with H : _ ≡ _ |- _ => rewrite H end).
Qed.
Lemma contract_cmds_equiv l1 l2 k h cmds : l1 ≡ l2 →
  ∀ acc, contract_cmds l1 k h acc cmds = contract_cmds l2 k h acc cmds.
Proof.
  intros E. induction cmds as [|cmd cmds IH]; intros acc; [done|]. cbn [contract_cmds].
  assert (contract_cmd l1 k h acc cmd = contract_cmd l2 k h acc cmd) as ->.
  { assert (st l1 = st l2) as Es by exact E. unfold contract_cmd, balance_of, token_window, token_balance. by rewrite Es. }
  unfold mbind, result_bind. case_match; [apply IH|done].
Qed.
Lemma bare_contract u s c k cmds h :
  ∃ u' c', settle_contract_token_transfers (mkLedger u s c) k cmds h
    = retag u' c' <$> settle_contract_token_transfers (bare s) k cmds h.
Proof.
  apply (bare_result (λ l, settle_contract_token_transfers l k cmds h)). intros l1 l2 E.
  unfold settle_contract_token_transfers. destruct (bool_decide _); [exact E|]. rewrite (contract_cmds_equiv l1 l2) by done.
  unfold mbind, result_bind. destruct (contract_cmds _ _ _ _ _) as [[scratch windows]|]; [|done].
  apply (foldl_equiv (λ l e, set_token_window l e.1 k e.2)); [intros m1 m2 Em ? ? ->; by apply set_token_window_proper|].
  apply (foldl_equiv (λ l e, set_token_balance l e.1.1 e.1.2 e.2)); [intros m1 m2 Em ? ? ->; by apply set_token_balance_proper|done].
Qed.
Lemma bare_storage u s c k (es : list (bytes * bytes)) :
  ∃ u' c', foldl (λ l e, set_contract_value l k e.1 e.2) (mkLedger u s c) es
    = mkLedger u' (st (foldl (λ l e, set_contract_value l k e.1 e.2) (bare s) es)) c'.
Proof.
  apply (bare_total (λ l, foldl (λ l e, set_contract_value l k e.1 e.2) l es)).
  apply foldl_equiv. intros m1 m2 Em ? ? ->. by apply set_contract_value_proper.
Qed.
End helpers.

Ltac bare_helper :=
  match goal with
  | |- context [do_transfer (mkLedger ?u ?s ?c) ?a ?b ?d ?e] => bare_with (bare_transfer u s c a b d e)
  | |- context [execute_proposal_action (mkLedger ?u ?s ?c) ?a ?b] => bare_with (bare_proposal u s c a b)
  | |- context [credit (mkLedger ?u ?s ?c) ?a ?b] => bare_with (bare_credit u s c a b)
  | |- context [settle_intent_legs (mkLedger ?u ?s ?c) ?a ?b ?d ?e] => bare_with (bare_intent u s c a b d e)
  | |- context [settle_contract_token_transfers (mkLedger ?u ?s ?c) ?a ?b ?d] => bare_with (bare_contract u s c a b d)
  | |- context [foldl (λ l e, set_contract_value l ?k e.1 e.2) (mkLedger ?u ?s ?c) ?es] => bare_with (bare_storage u s c k es)
  end.

(** ** The actions *)

Section runs.
Context `{XE : ExecEnv}.
Implicit Types (l : Ledger) (s : Locals) (ctx : BlockContext).

(** Equal locals, up to the ledger's commitment and journal. *)
Record same_locals s1 s2 : Prop := {
  sl_ledger : ledger s1 ≡ ledger s2;
  sl_signer : signer s1 = signer s2;
  sl_gas : gas_used s1 = gas_used s2;
  sl_fee : fee_paid s1 = fee_paid s2;
  sl_return : return_data s1 = return_data s2;
  sl_events : events s1 = events s2;
}.
Definition same_run {A} (x y : Locals * result Exn A) : Prop := same_locals x.1 y.1 ∧ x.2 = y.2.
Definition respects {A} (m : M A) : Prop := ∀ s1 s2, same_locals s1 s2 → same_run (m s1) (m s2).

Lemma respects_bind {A B} (m : M A) (f : A → M B) :
  respects m → (∀ a, respects (f a)) → respects (m ≫= f).
Proof.
  intros Hm Hf s1 s2 E. destruct (Hm s1 s2 E) as [Es Er]. unfold mbind, M_bind.
  destruct (m s1) as [s1' r1], (m s2) as [s2' r2]. simpl in *. subst r2.
  destruct r1; [by apply Hf|by split].
Qed.

Ltac run_start := intros [[u1 s0 c1] a0 g0 f0 r0 e0] [[u2 s9 c2] a9 g9 f9 r9 e9] [El E1 E2 E3 E4 E5];
  unfold equiv, ledger_equiv in El; cbn [ledger signer gas_used fee_paid return_data events st] in *; subst.
(** Split on a scrutinee that holds no other. *)
Ltac inner_case :=
  match goal with
  | |- context [match ?x with _ => _ end] =>
      lazymatch x with context [match _ with _ => _ end] => fail | _ => destruct x eqn:? end
  end.
Ltac run_cases := repeat (exec_norm; unfold retag in *; first
  [ progress simplify_eq
  | progress cbn [st]
  | bare_query
  | bare_step
  | bare_helper
  | progress (cbv beta delta [fmap option_fmap option_map result_fmap ok_or map_err if_some]; cbn beta iota)
  | inner_case ]).
Ltac run_done := split; [split; cbn [ledger signer gas_used fee_paid return_data events st fst snd];
  reflexivity|reflexivity].
Ltac congr f := intros; run_start; unfold f; exec_unfold; run_cases; try run_done.

Lemma exec_claim_vesting_respects ctx : respects (exec_claim_vesting ctx).
Proof. congr (@exec_claim_vesting). Qed.
Lemma exec_deploy_respects code : respects (exec_deploy code).
Proof. congr (@exec_deploy). Qed.
Lemma exec_rotate_respects stx h k p : respects (exec_rotate_key stx h k p).
Proof. congr (@exec_rotate_key). Qed.
Lemma exec_htlc_respects stx ctx :
  (∀ r b h t, respects (exec_htlc_lock stx r b h t)) ∧
  (∀ i p, respects (exec_htlc_claim stx ctx i p)) ∧
  (∀ i, respects (exec_htlc_refund stx ctx i)).
Proof.
  split_and!; [congr (@exec_htlc_lock)|congr (@exec_htlc_claim)|congr (@exec_htlc_refund)];
    unfold pay_htlc; exec_unfold; run_cases; try run_done.
Qed.
Lemma exec_token_respects stx ctx :
  (∀ y b t, respects (exec_token_issue stx y b t)) ∧
  (∀ a t b, respects (exec_token_transfer stx ctx a t b)) ∧
  (∀ a b, respects (exec_token_burn stx ctx a b)) ∧
  (∀ a p, respects (exec_token_set_policy stx a p)).
Proof.
  split_and!; [congr (@exec_token_issue)|congr (@exec_token_transfer)|congr (@exec_token_burn)
    |congr (@exec_token_set_policy)].
Qed.
Lemma exec_name_respects stx ctx :
  (∀ n, respects (exec_register_name stx ctx n)) ∧
  (∀ n t, respects (exec_transfer_name stx n t)).
Proof. split; [congr (@exec_register_name)|congr (@exec_transfer_name)]. Qed.
Lemma exec_nft_respects stx ctx :
  (∀ y i t m, respects (exec_nft_mint stx ctx y i t m)) ∧
  (∀ c i t, respects (exec_nft_transfer stx c i t)) ∧
  (∀ c i m, respects (exec_nft_set_meta stx c i m)).
Proof. split_and!; [congr (@exec_nft_mint)|congr (@exec_nft_transfer)|congr (@exec_nft_set_meta)]. Qed.
Lemma exec_vault_respects stx :
  (∀ b, respects (exec_vault_deposit stx b)) ∧
  (∀ b, respects (exec_vault_withdraw stx b)) ∧
  (∀ b, respects (exec_vault_mint stx b)) ∧
  (∀ b, respects (exec_vault_burn stx b)) ∧
  (∀ p, respects (exec_oracle_update stx p)).
Proof.
  split_and!; [congr (@exec_vault_deposit)|congr (@exec_vault_withdraw)|congr (@exec_vault_mint)
    |congr (@exec_vault_burn)|congr (@exec_oracle_update)].
Qed.
Lemma exec_shielded_respects stx ctx b : respects (exec_shielded stx ctx b).
Proof. congr (@exec_shielded). all: unfold shielded_legs; exec_unfold; run_cases; try run_done. Qed.
Lemma exec_shielded_v2_respects stx ctx d f b : respects (exec_shielded_v2 stx ctx d f b).
Proof. congr (@exec_shielded_v2). Qed.
Lemma exec_transfer_respects stx to b : respects (exec_transfer stx to b).
Proof. congr (@exec_transfer). Qed.
Lemma exec_call_respects stx ctx c g d : respects (exec_call stx ctx c g d).
Proof. congr (@exec_call). Qed.
Lemma exec_intent_respects stx ctx :
  (∀ x, respects (exec_intent_settle stx ctx x)) ∧ (∀ i, respects (exec_intent_cancel stx i)).
Proof. split; [congr (@exec_intent_settle)|congr (@exec_intent_cancel)]. Qed.
Lemma exec_multisig_respects stx ctx :
  (∀ h k t, respects (exec_set_multisig stx h k t)) ∧
  (∀ c a, respects (exec_propose stx ctx c a)) ∧
  (∀ c p, respects (exec_approve stx ctx c p)) ∧
  (∀ c p, respects (exec_cancel stx ctx c p)).
Proof.
  split_and!; [congr (@exec_set_multisig)|congr (@exec_propose)|congr (@exec_approve)|congr (@exec_cancel)].
Qed.

Lemma throw_respects {A} e : respects (A:=A) (throw e).
Proof. intros s1 s2 E. by split. Qed.
Lemma fail_respects reason : respects (fail reason).
Proof. intros s1 s2 E. by split. Qed.
Lemma run_action_respects stx ctx r : respects (run_action stx ctx r).
Proof.
  destruct (exec_htlc_respects stx ctx) as (? & ? & ?), (exec_token_respects stx ctx) as (? & ? & ? & ?),
    (exec_intent_respects stx ctx) as (? & ?), (exec_name_respects stx ctx) as (? & ?),
    (exec_nft_respects stx ctx) as (? & ? & ?), (exec_multisig_respects stx ctx) as (? & ? & ? & ?),
    (exec_vault_respects stx) as (? & ? & ? & ? & ?).
  unfold run_action. destruct (rd_action r); auto using @throw_respects, fail_respects, exec_transfer_respects,
    exec_call_respects, exec_shielded_respects, exec_shielded_v2_respects, exec_claim_vesting_respects,
    exec_deploy_respects, exec_rotate_respects.
Qed.
Lemma epilogue_respects stx ctx r status : respects (epilogue stx ctx r status).
Proof. run_start. unfold epilogue, distribute_fee. exec_unfold. run_cases; run_done. Qed.

(** ** Transactions and blocks *)

Lemma preflight_equiv l1 l2 stx ctx : l1 ≡ l2 → preflight l1 stx ctx = preflight l2 stx ctx.
Proof.
  intros E. assert (st l1 = st l2) as Es by exact E. unfold preflight.
  assert (∀ tx, authorize l1 tx = authorize l2 tx) as H1 by (intros; unfold authorize, account; by rewrite Es).
  assert (∀ a si n b, verify_direct_suite2_withdrawal_for_fee a l1 ctx si n b
    = verify_direct_suite2_withdrawal_for_fee a l2 ctx si n b) as H2.
  { intros. unfold verify_direct_suite2_withdrawal_for_fee, verify_bundle_for_carrier_with_suite2. by rewrite Es. }
  assert (∀ tx h a act, unwrap_envelope l1 tx ctx h a act = unwrap_envelope l2 tx ctx h a act) as H3
    by (intros; unfold unwrap_envelope, multisig_error; by rewrite Es).
  destruct (verify_signature_mode _ _); [|done]. cbv zeta. rewrite H1. unfold mbind, result_bind.
  repeat (rewrite ?H2, ?H3; first [reflexivity | inner_case]).
Qed.

(** The same outcome on an equivalent ledger. *)
Definition same_outcome {B} (x y : Ledger * B) : Prop := x.1 ≡ y.1 ∧ x.2 = y.2.

Lemma apply_transaction_equiv l1 l2 stx ctx : l1 ≡ l2 →
  same_outcome (apply_transaction l1 stx ctx) (apply_transaction l2 stx ctx).
Proof.
  intros E. unfold apply_transaction. rewrite (preflight_equiv _ _ _ _ E).
  destruct (preflight l2 stx ctx) as [r|e]; [|by split].
  match goal with |- context [?m (start l1 r)] => assert (respects m) as Hm end.
  { apply respects_bind; [|intros; apply epilogue_respects].
    destruct (rd_ms_error r); [apply fail_respects|apply run_action_respects]. }
  destruct (Hm (start l1 r) (start l2 r)) as [Hl Hr]; [by split|].
  match goal with |- context [?m (start l1 r)] => destruct (m (start l1 r)), (m (start l2 r)) end.
  split; [apply Hl|done].
Qed.
Lemma apply_coinbase_equiv l1 l2 ctx : l1 ≡ l2 → same_outcome (apply_coinbase l1 ctx) (apply_coinbase l2 ctx).
Proof.
  intros E. assert (st l1 = st l2) as Es by exact E. unfold apply_coinbase. cbv zeta. rewrite Es. case_match; [by split|].
  pose proof (credit_equiv l1 l2 (miner ctx) (Emission.reward_at (mining ctx) (height ctx) (mined_emitted (st l2))) E) as Hc.
  destruct (credit l1 _ _) as [m1|e1], (credit l2 _ _) as [m2|e2]; try done; [|simpl in Hc; subst; by split].
  simpl in Hc. pose proof (add_mined_emitted_proper m1 m2 Hc _ _ eq_refl :
    add_mined_emitted m1 (Emission.reward_at (mining ctx) (height ctx) (mined_emitted (st l2))) ≡ add_mined_emitted m2 _) as Ha.
  inversion Ha; by split.
Qed.
Lemma apply_from_equiv txs ctx : ∀ i l1 l2, l1 ≡ l2 →
  same_outcome (apply_from i l1 txs ctx) (apply_from i l2 txs ctx).
Proof.
  induction txs as [|stx txs IH]; intros i l1 l2 E; [by split|]. cbn [apply_from].
  destruct (apply_transaction_equiv l1 l2 stx ctx E) as [Hl Hr].
  destruct (apply_transaction l1 stx ctx) as [m1 r1], (apply_transaction l2 stx ctx) as [m2 r2].
  simpl in Hl, Hr. subst r2. destruct r1 as [rc|e]; [|by split].
  destruct (IH (i + 1) m1 m2 Hl) as [Hl' Hr'].
  destruct (apply_from (i + 1) m1 txs ctx), (apply_from (i + 1) m2 txs ctx). simpl in *. by subst.
Qed.
End runs.
