(* ===== verification/Verify.v ===== *)
(** * The invariant backstop (crates/verify/src/invariants.rs)

    What a node re-checks of the ledger after executing a block, independently of
    the execution that produced it: the supply cap, the mining budget, the
    conservation of every native asset, and what one block may change. *)

From S2P Require Import Prelude Primitives Mining Crypto Compliance Smt Vault Ledger.

Inductive Counter := CIssued | CBurned.
Inductive Orphan := PolicyWithoutAsset | WindowWithoutPolicy.

(** The violated invariant with its quantities; assets by hash, not by its hex. *)
Inductive InvariantViolation :=
| SupplyCapExceeded (supply cap : N)
| MiningBudgetExceeded (mined budget : N)
| SupplyOverflow
| EmissionRegressed (before after : N)
| ValueNotConserved (supply_before supply_after minted_delta : N)
| TokenNotConserved (asset : Hash) (sum issued burned : N)
| TokenBurnExceedsIssued (asset : Hash) (issued burned : N)
| TokenCounterRegressed (asset : Hash) (kind : Counter) (before after : N)
| TokenIdentityMutated (asset : Hash)
| TokenSupplyOverflow
| TokenComplianceOrphaned (asset : Hash) (kind : Orphan).

Record TokenPre := mkTokenPre {
  tp_issuer : AccountId; tp_symbol : string; tp_issued : Balance; tp_burned : Balance }.
Record TransitionPre := mkTransitionPre {
  tp_supply : N; tp_mined : N; tp_tokens : gmap Hash TokenPre }.

Section checks.
Context `{Env : LedgerEnv}.
Implicit Types (l : Ledger).

Definition capture l : result InvariantViolation TransitionPre :=
  supply ← ok_or (total_supply l) SupplyOverflow;
  Ok (mkTransitionPre supply (mined_emitted (st l))
        ((λ i, mkTokenPre (t_issuer i) (t_symbol i) (issued i) (burned i)) <$> tokens (st l))).

(** The loop over [token_balance_iter]. *)
Definition token_sums l : result InvariantViolation (gmap Hash N) :=
  foldl (λ acc e,
      sums ← acc;
      total ← ok_or (checked_add u128_max (default 0 (sums !! e.1.1)) e.2) TokenSupplyOverflow;
      Ok (<[e.1.1 := total]> sums))
    (Ok ∅) (entries (token_balances (st l))).
(** One asset of the loop over [token_iter]; [sums] loses its entry. *)
Definition check_asset (sums : gmap Hash N) (e : Hash * TokenInfo) : result InvariantViolation (gmap Hash N) :=
  let issued := issued e.2 in
  let burned := burned e.2 in
  if issued <? burned then Err (TokenBurnExceedsIssued e.1 issued burned)
  else
    let sum := default 0 (sums !! e.1) in
    if negb (sum =? issued - burned) then Err (TokenNotConserved e.1 sum issued burned)
    else Ok (delete e.1 sums).
Fixpoint check_assets (sums : gmap Hash N) (es : list (Hash * TokenInfo)) :
    result InvariantViolation (gmap Hash N) :=
  match es with
  | [] => Ok sums
  | e :: es => sums ← check_asset sums e; check_assets sums es
  end.
Definition check_token_conservation l : result InvariantViolation unit :=
  sums ← token_sums l;
  sums ← check_assets sums (entries (tokens (st l)));
  match entries sums with
  | (asset, sum) :: _ => Err (TokenNotConserved asset sum 0 0)
  | [] =>
      match filter (λ e : Hash * CompliancePolicy, tokens (st l) !! e.1 = None)
              (entries (token_policies (st l))) with
      | e :: _ => Err (TokenComplianceOrphaned e.1 PolicyWithoutAsset)
      | [] =>
          match filter (λ e : (Hash * AccountId) * SpendWindow, token_policies (st l) !! e.1.1 = None)
                  (entries (token_windows (st l))) with
          | e :: _ => Err (TokenComplianceOrphaned e.1.1 WindowWithoutPolicy)
          | [] => Ok ()
          end
      end
  end.

Definition check_ledger l (mining : MiningPolicy) : result InvariantViolation unit :=
  supply ← ok_or (total_supply l) SupplyOverflow;
  if MAX_SUPPLY_GRAINS <? supply then Err (SupplyCapExceeded supply MAX_SUPPLY_GRAINS)
  else
    let mined := mined_emitted (st l) in
    if mining_budget_grains mining <? mined then
      Err (MiningBudgetExceeded mined (mining_budget_grains mining))
    else check_token_conservation l.

(** One asset of the last loop of [check_transition_pre]. *)
Definition check_token_step l (e : Hash * TokenPre) : result InvariantViolation unit :=
  match tokens (st l) !! e.1 with
  | None => Err (TokenIdentityMutated e.1)
  | Some after =>
      if negb (bool_decide (t_issuer after = tp_issuer e.2 ∧ t_symbol after = tp_symbol e.2)) then
        Err (TokenIdentityMutated e.1)
      else if issued after <? tp_issued e.2 then
        Err (TokenCounterRegressed e.1 CIssued (tp_issued e.2) (issued after))
      else if burned after <? tp_burned e.2 then
        Err (TokenCounterRegressed e.1 CBurned (tp_burned e.2) (burned after))
      else Ok ()
  end.
Fixpoint check_token_steps l (es : list (Hash * TokenPre)) : result InvariantViolation unit :=
  match es with
  | [] => Ok ()
  | e :: es => _ ← check_token_step l e; check_token_steps l es
  end.
Definition check_transition_pre (before : TransitionPre) (after : Ledger) : result InvariantViolation unit :=
  supply_after ← ok_or (total_supply after) SupplyOverflow;
  let mined_after := mined_emitted (st after) in
  if mined_after <? tp_mined before then Err (EmissionRegressed (tp_mined before) mined_after)
  else
    let minted_delta := mined_after - tp_mined before in
    expected_after ← ok_or (checked_add u128_max (tp_supply before) minted_delta) SupplyOverflow;
    if negb (supply_after =? expected_after) then
      Err (ValueNotConserved (tp_supply before) supply_after minted_delta)
    else check_token_steps after (map_to_list (tp_tokens before)).
Definition check_transition (before after : Ledger) : result InvariantViolation unit :=
  pre ← capture before; check_transition_pre pre after.
End checks.
