(* ===== verification/VerifySpec.v ===== *)
(** * What the invariant backstop accepts (crates/verify/src/invariants.rs)

    [check_ledger] is a handful of loops over the ledger's maps; here it is
    proved to accept exactly the ledgers that satisfy the declared invariants. *)

From S2P Require Import Prelude Primitives Mining Crypto Compliance Smt Vault Ledger Verify.

Section spec.
Context `{Env : LedgerEnv}.
Implicit Types (l : Ledger) (a : Hash).
Abbreviation Entry := ((Hash * AccountId) * Balance)%type.

(** The balances of [a] in a list of entries. *)
Definition holds (a : Hash) (es : list Entry) : N :=
  foldr N.add 0 ((λ e : Entry, if decide (e.1.1 = a) then e.2 else 0) <$> es).
(** All of an asset in existence. *)
Definition asset_total (s : Store) (a : Hash) : N := holds a (map_to_list (token_balances s)).

Lemma holds_cons a e es : holds a (e :: es) = (if decide (e.1.1 = a) then e.2 else 0) + holds a es.
Proof. done. Qed.
Lemma holds_perm a es es' : es ≡ₚ es' → holds a es = holds a es'.
Proof.
  induction 1 as [|e es es' _ IH|e e' es|es1 es2 es3 _ IH1 _ IH2]; [done| | |congruence].
  - by rewrite !holds_cons, IH.
  - rewrite !holds_cons. apply N.add_shuffle3.
Qed.
Lemma holds_absent a es : a ∉ (λ e : Entry, e.1.1) <$> es → holds a es = 0.
Proof.
  induction es as [|e es IH]; [done|]. rewrite fmap_cons, not_elem_of_cons, holds_cons. intros [Hne Hn].
  rewrite decide_False by congruence. by apply IH.
Qed.

(** One step of the summing loop. *)
Definition add_balance (acc : result InvariantViolation (gmap Hash N)) (e : Entry) :
    result InvariantViolation (gmap Hash N) :=
  sums ← acc;
  total ← ok_or (checked_add u128_max (default 0 (sums !! e.1.1)) e.2) TokenSupplyOverflow;
  Ok (<[e.1.1 := total]> sums).
Lemma sums_err es v : foldl add_balance (Err v) es = Err v.
Proof. induction es; [done|]. by simpl. Qed.
Lemma checked_add_cases m x y : ok_or (checked_add m x y) TokenSupplyOverflow =
  if m <? x + y then Err TokenSupplyOverflow else Ok (x + y).
Proof. unfold checked_add, ok_or. destruct (N.leb_spec (x + y) m), (N.ltb_spec m (x + y)); done || lia. Qed.

Lemma sums_spec es : ∀ sums,
  match foldl add_balance (Ok sums) es with
  | Ok sums' =>
      (∀ a, default 0 (sums' !! a) = default 0 (sums !! a) + holds a es) ∧
      (∀ a, is_Some (sums' !! a) ↔ is_Some (sums !! a) ∨ a ∈ (λ e : Entry, e.1.1) <$> es) ∧
      (∀ a, a ∈ (λ e : Entry, e.1.1) <$> es → default 0 (sums !! a) + holds a es ≤ u128_max)
  | Err _ => ∃ a, u128_max < default 0 (sums !! a) + holds a es
  end.
Proof.
  induction es as [|e es IH]; intros sums.
  { simpl. split_and!; intros a.
    - unfold holds. simpl. lia.
    - rewrite elem_of_nil. tauto.
    - by rewrite elem_of_nil. }
  cbn [foldl]. unfold add_balance at 2. cbv [mbind result_bind]. rewrite checked_add_cases.
  destruct (N.ltb_spec u128_max (default 0 (sums !! e.1.1) + e.2)) as [Hov|Hle].
  { rewrite sums_err. exists e.1.1. rewrite holds_cons, decide_True by done. lia. }
  set (sums1 := <[e.1.1 := default 0 (sums !! e.1.1) + e.2]> sums).
  assert (∀ a, default 0 (sums1 !! a) = default 0 (sums !! a) + (if decide (e.1.1 = a) then e.2 else 0)) as H1.
  { intros a. unfold sums1. destruct (decide (e.1.1 = a)) as [<-|Hne].
    - by rewrite lookup_insert_eq.
    - rewrite lookup_insert_ne by done. lia. }
  specialize (IH sums1). destruct (foldl add_balance (Ok sums1) es) as [sums'|v].
  - destruct IH as (IH1 & IH2 & IH3). split_and!; intros a.
    + rewrite IH1, H1, holds_cons. lia.
    + rewrite IH2, fmap_cons, elem_of_cons. unfold sums1.
      destruct (decide (e.1.1 = a)) as [<-|Hne]; [rewrite lookup_insert_eq|rewrite lookup_insert_ne by done]; naive_solver.
    + rewrite fmap_cons, elem_of_cons, holds_cons. intros Ha.
      destruct (decide (a ∈ (λ e : Entry, e.1.1) <$> es)) as [Hin|Hout].
      * specialize (IH3 a Hin). rewrite H1 in IH3. lia.
      * rewrite (holds_absent _ _ Hout). destruct Ha as [->|]; [|done]. rewrite decide_True by done. lia.
  - destruct IH as [a Ha]. exists a. rewrite H1 in Ha. rewrite holds_cons. lia.
Qed.

(** What the asset loop accepts, and what it leaves. *)
Lemma check_assets_spec es : ∀ sums, NoDup es.*1 →
  match check_assets sums es with
  | Ok rest => (∀ e, e ∈ es → burned e.2 ≤ issued e.2 ∧ default 0 (sums !! e.1) = issued e.2 - burned e.2) ∧
      ∀ a, rest !! a = if decide (a ∈ es.*1) then None else sums !! a
  | Err _ => ∃ e, e ∈ es ∧ ¬ (burned e.2 ≤ issued e.2 ∧ default 0 (sums !! e.1) = issued e.2 - burned e.2)
  end.
Proof.
  induction es as [|e es IH]; intros sums Hn; cbn [check_assets].
  { split; [intros e He; by apply elem_of_nil in He|]. intros a. by rewrite decide_False by (apply not_elem_of_nil). }
  rewrite fmap_cons, NoDup_cons in Hn. destruct Hn as [Hnin Hn]. unfold check_asset. cbv [mbind result_bind].
  destruct (N.ltb_spec (issued e.2) (burned e.2)) as [Hlt|Hle]; [exists e; split; [left|lia]|].
  destruct (N.eqb_spec (default 0 (sums !! e.1)) (issued e.2 - burned e.2)) as [Heq|Hne]; cbn [negb]; [|exists e; split; [left|tauto]].
  assert (∀ x, x ∈ es → delete e.1 sums !! x.1 = sums !! x.1) as Hd.
  { intros x Hx. apply lookup_delete_ne. intros E. apply Hnin. rewrite E. by apply list_elem_of_fmap_2. }
  specialize (IH (delete e.1 sums) Hn). destruct (check_assets (delete e.1 sums) es) as [rest|v].
  - destruct IH as [IH1 IH2]. split.
    + intros x [->|Hx]%elem_of_cons; [done|]. rewrite <- (Hd x Hx). by apply IH1.
    + intros a. rewrite IH2. destruct (decide (a = e.1)) as [->|Hne].
      * rewrite (decide_True (P := e.1 ∈ (e :: es).*1)) by (rewrite fmap_cons; left). case_decide; [done|apply lookup_delete_eq].
      * rewrite lookup_delete_ne by done. apply decide_ext. rewrite fmap_cons, elem_of_cons. naive_solver.
  - destruct IH as (x & Hx & Hbad). exists x. split; [by right|]. by rewrite <- (Hd x Hx).
Qed.

(** The invariants of a ledger. *)
Definition tokens_conserved (s : Store) : Prop :=
  (∀ a info, tokens s !! a = Some info → burned info ≤ issued info ∧ asset_total s a = issued info - burned info) ∧
  (∀ a who v, token_balances s !! (a, who) = Some v → is_Some (tokens s !! a)).
Definition compliance_attached (s : Store) : Prop :=
  (∀ a p, token_policies s !! a = Some p → is_Some (tokens s !! a)) ∧
  (∀ a who w, token_windows s !! (a, who) = Some w → is_Some (token_policies s !! a)).

Lemma entries_nodup {V} (m : gmap Hash V) : NoDup (entries m).*1.
Proof. rewrite (fmap_Permutation fst _ _ (entries_perm m)). apply NoDup_fst_map_to_list. Qed.
Lemma elem_keys {V} (m : gmap Hash V) a : a ∈ (entries m).*1 ↔ is_Some (m !! a).
Proof.
  rewrite list_elem_of_fmap. split.
  - intros ([k v] & -> & He). apply elem_of_entries in He. by exists v.
  - intros [v Hv]. exists (a, v). split; [done|]. by apply elem_of_entries.
Qed.
Lemma filter_none {K V} `{BKey K} `{Countable K} (m : gmap K V) (P : K * V → Prop) `{∀ x, Decision (P x)} :
  filter P (entries m) = [] ↔ ∀ k v, m !! k = Some v → ¬ P (k, v).
Proof.
  split.
  - intros E k v Hk HP. apply elem_of_entries in Hk. assert ((k, v) ∈ filter P (entries m)) as Hin by (by apply list_elem_of_filter).
    rewrite E in Hin. by apply elem_of_nil in Hin.
  - intros Hno. destruct (filter P (entries m)) as [|[k v] r] eqn:E; [done|].
    assert ((k, v) ∈ filter P (entries m)) as [HP Hk]%list_elem_of_filter by (rewrite E; left).
    apply elem_of_entries in Hk. by destruct (Hno k v Hk).
Qed.
Lemma compliance_check l :
  match filter (λ e : Hash * CompliancePolicy, tokens (st l) !! e.1 = None) (entries (token_policies (st l))) with
  | e :: _ => Err (TokenComplianceOrphaned e.1 PolicyWithoutAsset)
  | [] =>
      match filter (λ e : (Hash * AccountId) * SpendWindow, token_policies (st l) !! e.1.1 = None)
              (entries (token_windows (st l))) with
      | e :: _ => Err (TokenComplianceOrphaned e.1.1 WindowWithoutPolicy)
      | [] => Ok ()
      end
  end = Ok () ↔ compliance_attached (st l).
Proof.
  unfold compliance_attached. set (f1 := filter _ (entries (token_policies _))). set (f2 := filter _ (entries (token_windows _))).
  assert (f1 = [] ↔ ∀ a p, token_policies (st l) !! a = Some p → is_Some (tokens (st l) !! a)) as H1.
  { unfold f1. rewrite filter_none. by setoid_rewrite <- not_eq_None_Some. }
  assert (f2 = [] ↔ ∀ a who w, token_windows (st l) !! (a, who) = Some w → is_Some (token_policies (st l) !! a)) as H2.
  { unfold f2. rewrite filter_none. setoid_rewrite <- not_eq_None_Some. split; [eauto|]. intros Hall [a who] w. eauto. }
  rewrite <- H1, <- H2. clear H1 H2. clearbody f1 f2. destruct f1, f2; naive_solver.
Qed.
Lemma entries_nil {V} (m : gmap Hash V) : entries m = [] ↔ ∀ a, m !! a = None.
Proof.
  split.
  - intros E a. destruct (m !! a) as [v|] eqn:Ea; [|done]. apply elem_of_entries in Ea. rewrite E in Ea. by apply elem_of_nil in Ea.
  - intros Hn. destruct (entries m) as [|[a v] r] eqn:E; [done|].
    assert ((a, v) ∈ entries m) as Ha%elem_of_entries by (rewrite E; left). by rewrite Hn in Ha.
Qed.
Lemma token_check l :
  check_token_conservation l = Ok () ↔
  tokens_conserved (st l) ∧ compliance_attached (st l) ∧ ∀ a, asset_total (st l) a ≤ u128_max.
Proof.
  unfold check_token_conservation, token_sums. fold add_balance.
  pose proof (sums_spec (entries (token_balances (st l))) ∅) as Hs.
  assert (∀ a, holds a (entries (token_balances (st l))) = asset_total (st l) a) as Ht
    by (intros a; apply holds_perm, entries_perm).
  change (foldl _ (Ok ∅) _) with (foldl add_balance (Ok ∅) (entries (token_balances (st l)))).
  destruct (foldl add_balance (Ok ∅) _) as [sums|v].
  2:{ destruct Hs as [a Ha]. rewrite lookup_empty, Ht in Ha. split; [done|]. intros (_ & _ & Hb). specialize (Hb a). simpl in Ha. lia. }
  destruct Hs as (H1 & H2 & H3). cbv [mbind result_bind].
  pose proof (check_assets_spec (entries (tokens (st l))) sums (entries_nodup _)) as Hc.
  destruct (check_assets sums (entries (tokens (st l)))) as [rest|v].
  2:{ destruct Hc as ([a info] & Hin%elem_of_entries & Hbad). split; [done|]. intros ([Hok _] & _). destruct Hbad.
      cbn [fst snd]. rewrite H1, lookup_empty, Ht. destruct (Hok a info Hin). split; [done|]. simpl. lia. }
  destruct Hc as [C1 C2].
  assert (∀ a info, tokens (st l) !! a = Some info → burned info ≤ issued info ∧ asset_total (st l) a = issued info - burned info) as Hok.
  { intros a info Ha%elem_of_entries. destruct (C1 _ Ha) as [? E]. split; [done|]. cbn [fst snd] in E.
    rewrite H1, lookup_empty, Ht in E. exact E. }
  assert (entries rest = [] ↔ ∀ a who v, token_balances (st l) !! (a, who) = Some v → is_Some (tokens (st l) !! a)) as Hrest.
  { rewrite entries_nil. split.
    - intros Hn a who v Hv. specialize (Hn a). rewrite C2 in Hn. destruct (decide (a ∈ _)) as [Hin|Hout]; [by apply elem_keys|].
      apply eq_None_not_Some in Hn. destruct Hn. apply H2. right. apply list_elem_of_fmap. exists ((a, who), v).
      split; [done|]. by apply elem_of_entries.
    - intros Hall a. rewrite C2. destruct (decide (a ∈ _)) as [|Hout]; [done|]. apply eq_None_not_Some. intros Hs.
      apply H2 in Hs as [Hs|([[a' who] v] & -> & Hv%elem_of_entries)%list_elem_of_fmap].
      + rewrite lookup_empty in Hs. by destruct Hs.
      + apply Hout, elem_keys. cbn [fst]. eauto. }
  assert (∀ a, asset_total (st l) a ≤ u128_max) as Hmax.
  { intros a. rewrite <- Ht. destruct (decide (a ∈ (λ e : Entry, e.1.1) <$> entries (token_balances (st l)))) as [Hin|Hout].
    - specialize (H3 a Hin). rewrite lookup_empty in H3. exact H3.
    - rewrite (holds_absent _ _ Hout). lia. }
  destruct (entries rest) as [|[a sum] r] eqn:Er.
  - rewrite compliance_check. unfold tokens_conserved. naive_solver.
  - split; [done|]. intros ([_ Hb] & _). by apply Hrest in Hb.
Qed.

Lemma check_ledger_iff l mining :
  check_ledger l mining = Ok () ↔
  (∃ supply, total_supply l = Some supply ∧ supply ≤ MAX_SUPPLY_GRAINS) ∧
  mined_emitted (st l) ≤ mining_budget_grains mining ∧
  tokens_conserved (st l) ∧ compliance_attached (st l) ∧ ∀ a, asset_total (st l) a ≤ u128_max.
Proof.
  unfold check_ledger, ok_or. rewrite <- token_check. cbv [mbind result_bind].
  destruct (total_supply l) as [supply|]; [|naive_solver].
  destruct (N.ltb_spec MAX_SUPPLY_GRAINS supply).
  { split; [done|]. intros ((s & [= <-] & ?) & _). lia. }
  destruct (N.ltb_spec (mining_budget_grains mining) (mined_emitted (st l))).
  { split; [done|]. lia. }
  split; [|tauto]. intros E. split_and!; [by exists supply|done|done].
Qed.

(** The backstop accepts exactly the sound ledgers.  [check_ledger] succeeds
    iff the native supply exists and is within the cap, the mined coins are within
    the budget, of every asset the balances held add up to what was issued less what
    was burned and no balance is of an unknown asset, and every compliance policy
    and spending window belongs to something that exists. *)
Theorem check_ledger_exact l mining :
  check_ledger l mining = Ok () ↔
  (∃ supply, total_supply l = Some supply ∧ supply ≤ MAX_SUPPLY_GRAINS) ∧
  mined_emitted (st l) ≤ mining_budget_grains mining ∧
  tokens_conserved (st l) ∧ compliance_attached (st l) ∧ ∀ a, asset_total (st l) a ≤ u128_max.
Proof. apply check_ledger_iff. Qed.
End spec.
