(* ===== verification/BlockLog.v ===== *)
(** * The block log (crates/rpc/src/daemon.rs)

    The append-only file a node replays when it starts: framed, checksummed records,
    written at once and flushed to the disk later.  A file is the bytes written so far
    and how many of them are known to be on the disk; a crash may lose any of the
    others from the end. *)

From S2P Require Import Prelude Primitives Crypto Types Block.
#[local] Open Scope N_scope.

Module BlockLog.

Definition MAX_RECORD : N := 16 * 1024 * 1024.
(** A length on four bytes and a checksum. *)
Definition HEADER : nat := 36.

Section log.
Context `{Blake3} `{Borsh Block} (from_slice : bytes → option Block).

(** ** Records *)

Definition record (payload : bytes) : bytes :=
  to_le 4 (N.of_nat (length payload)) ++ as_bytes (digest payload) ++ payload.
(** The records from here on; one turn per record, each longer than its header. *)
Fixpoint read_from (fuel : nat) (data : bytes) : list bytes :=
  match fuel with
  | O => []
  | S fuel =>
      if bool_decide (length data < HEADER)%nat then []
      else
        let len := le_val (take 4 data) in
        if (len =? 0) || (MAX_RECORD <? len) || (N.of_nat (length data) <? N.of_nat HEADER + len) then []
        else
          let checksum := take 32 (drop 4 data) in
          let payload := take (N.to_nat len) (drop HEADER data) in
          if negb (bool_decide (as_bytes (digest payload) = checksum)) then []
          else payload :: read_from fuel (drop (HEADER + N.to_nat len) data)
  end.
Definition read_records (data : bytes) : list bytes := read_from (length data) data.

(** ** The log *)

Record t := mkLog { file : bytes; on_disk : nat; unsynced : bool }.
(** Opening appends at the end of what is there. *)
Definition open (data : bytes) (durable : nat) : t := mkLog data durable false.
(** [write_all]: [Some k] if the device fails after [k] bytes. *)
Definition write_all (l : t) (io : option nat) (data : bytes) : t * bool :=
  match io with
  | None => (mkLog (file l ++ data) (on_disk l) (unsynced l), true)
  | Some k => (mkLog (file l ++ take k data) (on_disk l) (unsynced l), false)
  end.
Definition write_record (l : t) (io : option nat) (payload : bytes) : t * bool := write_all l io (record payload).
Definition append_unsynced (l : t) (io : option nat) (b : Block) : t * bool :=
  let '(l, ok) := write_record l io (to_vec b) in
  if ok then (mkLog (file l) (on_disk l) true, true) else (l, false).
(** [flush] and [sync_all], which succeed together or not. *)
Definition sync_all (l : t) (io : bool) : t * bool :=
  if io then (mkLog (file l) (length (file l)) (unsynced l), true) else (l, false).
Definition append_record (l : t) (io : option nat) (io_sync : bool) (payload : bytes) : t * bool :=
  let '(l, ok) := write_record l io payload in
  if ok then sync_all l io_sync else (l, false).
Definition append (l : t) (io : option nat) (io_sync : bool) (b : Block) : t * bool :=
  let '(l, ok) := append_record l io io_sync (to_vec b) in
  if ok then (mkLog (file l) (on_disk l) false, true) else (l, false).
Definition sync (l : t) (io : bool) : t * bool :=
  if unsynced l then sync_all (mkLog (file l) (on_disk l) false) io else (l, true).

(** [None] if a record with a good checksum is not a block. *)
Definition load_blocks (data : bytes) : option (list Block) := mapM from_slice (read_records data).

(** ** Reading back what was written *)

Definition payload_ok (p : bytes) : Prop := 0 < N.of_nat (length p) ∧ N.of_nat (length p) ≤ MAX_RECORD.
Definition records (ps : list bytes) : bytes := ps ≫= record.

Lemma length_digest x : length (as_bytes (digest x)) = 32%nat.
Proof. destruct (digest x) as [h Hh]. cbn. unfold hash_wf in Hh. apply andb_true_iff in Hh as [Hh _]. by apply Nat.eqb_eq. Qed.
Lemma length_record p : length (record p) = (HEADER + length p)%nat.
Proof. unfold record. rewrite !length_app, length_to_le, length_digest. unfold HEADER. lia. Qed.
(** One turn of the reader, on data that holds a header. *)
Lemma read_turn fuel l d rest : (length l = 4)%nat → (length d = 32)%nat →
  read_from (S fuel) (l ++ d ++ rest) =
    if (le_val l =? 0) || (MAX_RECORD <? le_val l) || (N.of_nat (length rest) <? le_val l) then []
    else if negb (bool_decide (as_bytes (digest (take (N.to_nat (le_val l)) rest)) = d)) then []
    else take (N.to_nat (le_val l)) rest :: read_from fuel (drop (N.to_nat (le_val l)) rest).
Proof.
  intros Hl Hd. cbn [read_from]. rewrite bool_decide_false by (rewrite !length_app; unfold HEADER; lia).
  rewrite (take_app_length' l _ 4), (drop_app_length' l _ 4), (take_app_length' d _ 32) by done.
  assert (∀ k, drop (HEADER + k) (l ++ d ++ rest) = drop k rest) as Hdrop.
  { intros k. rewrite app_assoc, drop_app_ge by (rewrite length_app; unfold HEADER; lia). f_equal. rewrite length_app. unfold HEADER. lia. }
  pose proof (Hdrop 0%nat) as Hd0. rewrite Nat.add_0_r, drop_0 in Hd0. rewrite Hd0, Hdrop.
  replace (N.of_nat (length (l ++ d ++ rest)) <? N.of_nat HEADER + le_val l) with (N.of_nat (length rest) <? le_val l); [done|].
  rewrite !length_app, Hl, Hd. unfold HEADER. destruct (N.ltb_spec (N.of_nat (length rest)) (le_val l)); symmetry;
    [apply N.ltb_lt|apply N.ltb_ge]; lia.
Qed.
Lemma len_field p : payload_ok p → le_val (to_le 4 (N.of_nat (length p))) = N.of_nat (length p).
Proof. intros [_ Hp]. unfold MAX_RECORD in Hp. apply le_to_le. change (256 ^ N.of_nat 4) with 4294967296. lia. Qed.
Lemma len_checks p : payload_ok p → (N.of_nat (length p) =? 0) || (MAX_RECORD <? N.of_nat (length p)) = false.
Proof. intros [H1 H2]. apply orb_false_iff. split; [apply N.eqb_neq; lia|by apply N.ltb_ge]. Qed.
(** A whole record is read and the reader goes on behind it. *)
Lemma read_record fuel p rest : payload_ok p → read_from (S fuel) (record p ++ rest) = p :: read_from fuel rest.
Proof.
  intros Hp. unfold record. rewrite <- !app_assoc, read_turn by (apply length_to_le || apply length_digest).
  rewrite len_field, len_checks by done. cbn [orb].
  assert ((N.of_nat (length (p ++ rest)) <? N.of_nat (length p)) = false) as -> by (apply N.ltb_ge; rewrite length_app; lia).
  rewrite Nat2N.id, take_app_length, drop_app_length. by rewrite bool_decide_true.
Qed.
(** A cut record is not. *)
Lemma read_cut fuel p k : payload_ok p → (k < length (record p))%nat → read_from fuel (take k (record p)) = [].
Proof.
  intros Hp Hk. destruct fuel as [|fuel]; [done|]. rewrite length_record in Hk. destruct (decide (k < HEADER)%nat) as [Hs|Hs].
  { cbn [read_from]. rewrite bool_decide_true; [done|]. rewrite length_take. lia. }
  assert (take k (record p) = to_le 4 (N.of_nat (length p)) ++ as_bytes (digest p) ++ take (k - HEADER) p) as ->.
  { unfold record, HEADER in *. rewrite take_app_ge, take_app_ge by (rewrite ?length_to_le, ?length_digest; lia).
    rewrite length_to_le, length_digest. do 3 f_equal. lia. }
  rewrite read_turn by (apply length_to_le || apply length_digest). rewrite len_field, len_checks by done. cbn [orb].
  assert ((N.of_nat (length (take (k - HEADER) p)) <? N.of_nat (length p)) = true) as ->; [|done].
  apply N.ltb_lt. rewrite length_take. lia.
Qed.
(** Of a file cut anywhere, exactly the records before the cut are read. *)
Lemma read_prefix ps : ∀ fuel k, Forall payload_ok ps → (length (take k (records ps)) ≤ fuel)%nat →
  ∃ m, (m ≤ length ps)%nat ∧ read_from fuel (take k (records ps)) = take m ps ∧
    (length (records (take m ps)) ≤ k)%nat ∧ ∀ j, (j ≤ length ps)%nat → (length (records (take j ps)) ≤ k → j ≤ m)%nat.
Proof.
  induction ps as [|p ps IH]; intros fuel k Hps Hf.
  { exists 0%nat. cbn [records mbind list_bind take]. rewrite take_nil. split_and!; [done|by destruct fuel|cbn; lia|cbn; lia]. }
  apply Forall_cons in Hps as [Hp Hps]. change (records (p :: ps)) with (record p ++ records ps) in *.
  destruct (decide (k < length (record p))%nat) as [Hk|Hk].
  - exists 0%nat. rewrite take_app_le by lia. split_and!; [lia|by apply read_cut|cbn; lia|].
    intros [|j] _ Hj; [done|]. exfalso. cbn [take] in Hj. change (records (p :: take j ps)) with (record p ++ records (take j ps)) in Hj.
    rewrite length_app in Hj. lia.
  - rewrite take_app_ge in Hf |- * by lia. destruct fuel as [|fuel]; [exfalso; rewrite length_app, length_record in Hf; unfold HEADER in Hf; lia|].
    rewrite read_record by done. destruct (IH fuel (k - length (record p))%nat Hps) as (m & H1 & H2 & H3 & H4).
    { rewrite length_app, length_record in Hf. rewrite length_record. unfold HEADER in *. lia. }
    exists (S m). rewrite H2. cbn [take length]. change (records (p :: take m ps)) with (record p ++ records (take m ps)).
    split_and!; [lia|done|rewrite length_app; lia|]. intros [|j] Hj Hk'; [lia|]. cbn [take] in Hk'.
    change (records (p :: take j ps)) with (record p ++ records (take j ps)) in Hk'. rewrite length_app in Hk'.
    cbn [length] in Hj. pose proof (H4 j). lia.
Qed.
(** Behind intact records the reader continues with what follows. *)
Lemma read_behind ps rest : ∀ fuel, Forall payload_ok ps → (length (records ps ++ rest) ≤ fuel)%nat →
  ∃ fuel', (length rest ≤ fuel')%nat ∧ read_from fuel (records ps ++ rest) = ps ++ read_from fuel' rest.
Proof.
  induction ps as [|p ps IH]; intros fuel Hps Hf; [exists fuel; split; [done|by cbn]|].
  apply Forall_cons in Hps as [Hp Hps]. change (records (p :: ps)) with (record p ++ records ps) in *.
  rewrite <- app_assoc in Hf |- *. destruct fuel as [|fuel]; [rewrite length_app, length_record in Hf; unfold HEADER in Hf; lia|].
  rewrite read_record by done. destruct (IH fuel Hps) as (f' & Hf' & E).
  { rewrite length_app, length_record in Hf. unfold HEADER in Hf. lia. }
  exists f'. split; [done|]. by rewrite E.
Qed.

(** ** What survives a crash *)

Definition block_ok (b : Block) : Prop := payload_ok (to_vec b) ∧ from_slice (to_vec b) = Some b.
Definition written_as (bs : list Block) : bytes := records (to_vec <$> bs).
(** The device failed, if it did, before the end of the record. *)
Definition fails_inside (io : option nat) (b : Block) : Prop :=
  match io with None => True | Some k => (k < length (record (to_vec b)))%nat end.
(** ... and left nothing of it behind. *)
Definition leaves_whole (io : option nat) : bool := match io with None | Some O => true | Some _ => false end.
Definition written_one (io : option nat) (bs : list Block) (b : Block) : list Block :=
  match io with None => bs ++ [b] | Some _ => bs end.
(** [m] is the number of whole records among the first [k] bytes. *)
Definition whole_records (bs : list Block) (k m : nat) : Prop :=
  (m ≤ length bs)%nat ∧ (length (written_as (take m bs)) ≤ k)%nat ∧
  ((m < length bs)%nat → (k < length (written_as (take (S m) bs)))%nat).

(** The life of a log, over any number of failed writes, failed flushes, crashes and
    restarts.  [written l bs n w]: [bs] are the blocks appended while the file was whole
    records, [n] of them are known to be on the disk, and [w] says that the file is
    whole records still.  A write that fails inside a record, or a crash that cuts one,
    leaves torn bytes; the log goes on appending behind them, and what it appends from
    then on is not in [bs].  A crash loses any bytes that are not on the disk, and the
    next run finds [d] of the rest there. *)
Inductive written : t → list Block → nat → bool → Prop :=
| w_new : written (open [] 0) [] 0 true
| w_write l bs n io b l' ok : written l bs n true → block_ok b → fails_inside io b →
    append_unsynced l io b = (l', ok) → written l' (written_one io bs b) n (leaves_whole io)
| w_append l bs n io io_sync b l' ok : written l bs n true → block_ok b → fails_inside io b →
    append l io io_sync b = (l', ok) →
    written l' (written_one io bs b) (if ok then length (bs ++ [b]) else n) (leaves_whole io)
| w_write_behind l bs n io b l' ok : written l bs n false → append_unsynced l io b = (l', ok) → written l' bs n false
| w_append_behind l bs n io io_sync b l' ok : written l bs n false → append l io io_sync b = (l', ok) →
    written l' bs n false
| w_sync l bs n w io l' ok : written l bs n w → sync l io = (l', ok) →
    written l' bs (if unsynced l && io then length bs else n) w
| w_crash l bs n w k m d n' : written l bs n w → (on_disk l ≤ k)%nat → whole_records bs k m →
    (on_disk l ≤ d ≤ length (take k (file l)))%nat → (n' ≤ m)%nat → (length (written_as (take n' bs)) ≤ d)%nat →
    written (open (take k (file l)) d) (take m bs) n'
      (w && bool_decide (length (take k (file l)) = length (written_as (take m bs)))).

Lemma records_app ps qs : records (ps ++ qs) = records ps ++ records qs.
Proof. apply bind_app. Qed.
Lemma written_as_app bs bs' : written_as (bs ++ bs') = written_as bs ++ written_as bs'.
Proof. unfold written_as. by rewrite fmap_app, records_app. Qed.
Lemma written_as_snoc bs b : written_as (bs ++ [b]) = written_as bs ++ record (to_vec b).
Proof. rewrite written_as_app. f_equal. exact (app_nil_r _). Qed.
Lemma written_as_take bs m : (length (written_as (take m bs)) ≤ length (written_as bs))%nat.
Proof. rewrite <- (take_drop m bs) at 2. rewrite written_as_app, length_app. lia. Qed.

(** The blocks, then whatever is torn. *)
Definition log_inv (l : t) (bs : list Block) (n : nat) (w : bool) : Prop :=
  (∃ tail, file l = written_as bs ++ tail ∧ (w = true → tail = [])) ∧ Forall block_ok bs ∧ (n ≤ length bs)%nat ∧
  (length (written_as (take n bs)) ≤ on_disk l)%nat ∧ (on_disk l ≤ length (file l))%nat.
Lemma log_inv_write l bs n io b l' : log_inv l bs n true → block_ok b → fails_inside io b →
  (write_record l io (to_vec b)).1 = l' → log_inv l' (written_one io bs b) n (leaves_whole io).
Proof.
  intros ((tail & E & Ht) & Ho & Hn & Hd & Hl) Hb Hio <-. rewrite (Ht eq_refl), app_nil_r in E. clear Ht.
  destruct io as [k|]; cbn [write_record write_all fst written_one leaves_whole file on_disk].
  - split_and!; try done; [|cbn; rewrite length_app; lia]. exists (take k (record (to_vec b))). cbn [file].
    split; [by rewrite E|]. by destruct k.
  - split_and!.
    + exists []. split; [|done]. cbn [file]. by rewrite E, written_as_snoc, app_nil_r.
    + apply Forall_app. split; [done|by constructor].
    + rewrite length_app. lia.
    + by rewrite take_app_le.
    + cbn [file on_disk]. rewrite length_app. lia.
Qed.
Lemma log_inv_behind l bs n io p l' : log_inv l bs n false → (write_record l io p).1 = l' → log_inv l' bs n false.
Proof.
  intros ((tail & E & _) & Ho & Hn & Hd & Hl) <-.
  destruct io as [k|]; cbn [write_record write_all fst file on_disk]; (split_and!; try done; [|cbn; rewrite length_app; lia]);
    eexists; cbn [file]; (split; [rewrite E; symmetry; apply app_assoc|done]).
Qed.
Lemma log_inv_flushed l bs n w u d : log_inv l bs n w → (on_disk l ≤ d ≤ length (file l))%nat →
  log_inv (mkLog (file l) d u) bs n w.
Proof. intros (Ht & Ho & Hn & Hd & Hl) Hf. split_and!; cbn; try done; lia. Qed.
Lemma log_inv_all l bs n w u : log_inv l bs n w → log_inv (mkLog (file l) (length (file l)) u) bs (length bs) w.
Proof.
  intros ((tail & E & Ht) & Ho & Hn & Hd & Hl). split_and!; cbn [file on_disk]; try done; [by exists tail|].
  rewrite firstn_all, E, length_app. lia.
Qed.
Lemma log_inv_cut l bs n w k m d n' : log_inv l bs n w → whole_records bs k m →
  (on_disk l ≤ d ≤ length (take k (file l)))%nat → (n' ≤ m)%nat → (length (written_as (take n' bs)) ≤ d)%nat →
  log_inv (open (take k (file l)) d) (take m bs) n'
    (w && bool_decide (length (take k (file l)) = length (written_as (take m bs)))).
Proof.
  intros ((tail & E & Ht) & Ho & _) (Hm & Hk & Hnext) Hd Hn' Hd'. split_and!; cbn [open file on_disk].
  - assert (∃ tail', take k (file l) = written_as (take m bs) ++ tail') as [tail' E'].
    { assert (written_as bs = written_as (take m bs) ++ written_as (drop m bs)) as Eb
        by (by rewrite <- written_as_app, take_drop).
      rewrite E, Eb, <- app_assoc, take_app_ge by done. by eexists. }
    exists tail'. split; [done|]. intros [_ He%bool_decide_eq_true]%andb_true_iff. rewrite E', length_app in He.
    apply length_zero_iff_nil. lia.
  - by apply Forall_take.
  - rewrite length_take. lia.
  - by rewrite take_take, Nat.min_l.
  - lia.
Qed.
Lemma written_inv l bs n w : written l bs n w → log_inv l bs n w.
Proof.
  induction 1 as [|l bs n io b l' ok _ IH Hb Hio E|l bs n io io_sync b l' ok _ IH Hb Hio E|l bs n io b l' ok _ IH E
    |l bs n io io_sync b l' ok _ IH E|l bs n w io l' ok _ IH E|l bs n w k m d n' _ IH].
  - split_and!; cbn; try done; by exists [].
  - pose proof (log_inv_write _ _ _ io b _ IH Hb Hio eq_refl) as H1. unfold append_unsynced in E.
    destruct (write_record l io (to_vec b)) as [l1 []]; injection E as <- <-; [|done].
    apply (log_inv_flushed _ _ _ _ true (on_disk l1) H1). destruct H1 as (_ & _ & _ & _ & Hl). cbn [fst] in *. lia.
  - pose proof (log_inv_write _ _ _ io b _ IH Hb Hio eq_refl) as H1. unfold append, append_record in E.
    destruct io as [k|]; cbn [write_record write_all fst] in *; [by injection E as <- <-|].
    destruct io_sync; cbn [sync_all] in E; injection E as <- <-; [|done]. exact (log_inv_all _ _ _ _ false H1).
  - pose proof (log_inv_behind _ _ _ io (to_vec b) _ IH eq_refl) as H1. unfold append_unsynced in E.
    destruct (write_record l io (to_vec b)) as [l1 []]; injection E as <- <-; [|done].
    apply (log_inv_flushed _ _ _ _ true (on_disk l1) H1). destruct H1 as (_ & _ & _ & _ & Hl). cbn [fst] in *. lia.
  - pose proof (log_inv_behind _ _ _ io (to_vec b) _ IH eq_refl) as H1. unfold append, append_record in E.
    destruct (write_record l io (to_vec b)) as [l1 []]; cbn [fst] in H1; [|by injection E as <- <-].
    destruct io_sync; cbn [sync_all] in E; injection E as <- <-; [|done].
    apply (log_inv_flushed _ _ _ _ false (length (file l1)) H1). destruct H1 as (_ & _ & _ & _ & Hl). lia.
  - unfold sync in E. destruct (unsynced l); [|by injection E as <- <-]. destruct io; cbn in E; injection E as <- <-; cbn [andb].
    + exact (log_inv_all _ _ _ _ false IH).
    + apply (log_inv_flushed _ _ _ _ false (on_disk l) IH). destruct IH as (_ & _ & _ & _ & Hl). lia.
  - by apply log_inv_cut with n.
Qed.
(** More fuel than bytes changes nothing. *)
Lemma read_fuel data : ∀ fuel, (length data ≤ fuel)%nat → read_from fuel data = read_records data.
Proof.
  unfold read_records. induction data as [data IH] using (induction_ltof1 _ (@length N)). unfold ltof in IH.
  intros [|fuel] Hf; [by replace (length data) with 0%nat by lia|].
  destruct (length data) as [|m] eqn:El. { cbn [read_from]. rewrite bool_decide_true by (unfold HEADER; lia). done. }
  cbn [read_from]. destruct (bool_decide _); [done|]. destruct (_ || _) eqn:Eb; [done|]. destruct (negb _); [done|]. f_equal.
  apply orb_false_iff in Eb as [Eb Hlen%N.ltb_ge]. apply orb_false_iff in Eb as [Hz%N.eqb_neq _].
  set (rest := drop (HEADER + N.to_nat (le_val (take 4 data))) data).
  assert (length rest ≤ m)%nat as Hs by (unfold rest; rewrite length_drop; unfold HEADER in *; lia).
  rewrite (IH rest ltac:(lia) fuel), (IH rest ltac:(lia) m) by lia. done.
Qed.
Lemma mapM_blocks bs : Forall block_ok bs → mapM from_slice (to_vec <$> bs) = Some bs.
Proof. induction 1 as [|b l [_ Eb] _ IH]; [done|]. cbn [fmap list_fmap mapM]. rewrite Eb. cbn. by rewrite IH. Qed.
Lemma load_prefix bs k : Forall block_ok bs → ∃ m, (m ≤ length bs)%nat ∧
  load_blocks (take k (written_as bs)) = Some (take m bs) ∧
  ∀ j, (j ≤ length bs)%nat → (length (written_as (take j bs)) ≤ k → j ≤ m)%nat.
Proof.
  intros Ho. destruct (read_prefix (to_vec <$> bs) (length (take k (written_as bs))) k) as (m & H1 & H2 & H3 & H4).
  { rewrite Forall_fmap. eapply Forall_impl; [done|]. by intros b []. }
  { done. }
  rewrite length_fmap in H1, H4. exists m. split_and!; [done| |].
  - unfold load_blocks, read_records. unfold written_as in *. rewrite H2. clear H2 H3 H4. rewrite <- fmap_take.
    by apply mapM_blocks, Forall_take.
  - intros j Hj Hk. apply H4; [done|]. unfold written_as in Hk. by rewrite fmap_take in Hk.
Qed.


(** C24: the log survives crashes.  Over any history of failed writes, failed flushes,
    crashes and restarts, cut the file anywhere behind what is on the disk: reading it
    returns a prefix, in order, of the blocks appended while the file was whole records,
    with at least every such block known to be flushed, and uncut all of them.  Where
    the file has torn bytes, the one exception is that a record with a good checksum
    happens to begin there.  Blocks appended behind torn bytes are not covered:
    [torn_tail_hides] shows that they are lost. *)
Theorem log_survives_crash l bs n w k : written l bs n w → (on_disk l ≤ k)%nat →
  ∃ m, (n ≤ m ≤ length bs)%nat ∧ ((length (file l) ≤ k)%nat → m = length bs) ∧
    (load_blocks (take k (file l)) = Some (take m bs) ∨
     w = false ∧ m = length bs ∧ read_records (drop (length (written_as bs)) (take k (file l))) ≠ []).
Proof.
  intros ((tail & E & Ht) & Ho & Hn & Hd & Hl)%written_inv Hk.
  destruct (decide (k ≤ length (written_as bs))%nat) as [Hcut|Hcut].
  - rewrite E in *. rewrite length_app in *. rewrite take_app_le by done.
    destruct (load_prefix bs k Ho) as (m & Hm & El & Hj). exists m. split_and!; [apply Hj; lia|done| |by left].
    intros Hf. enough (length bs ≤ m)%nat by lia. apply Hj; [done|]. rewrite firstn_all. lia.
  - exists (length bs). split_and!; [done|done|done|]. rewrite E, take_app_ge by lia. rewrite drop_app_length.
    set (rest := take _ tail). destruct (decide (read_records rest = [])) as [Er|Hr].
    + left. rewrite firstn_all. unfold load_blocks, read_records, written_as.
      edestruct (read_behind (to_vec <$> bs) rest) as (f & Hf & ->).
      { rewrite Forall_fmap. eapply Forall_impl; [done|]. by intros ? []. }
      { done. }
      rewrite (read_fuel _ _ Hf), Er, app_nil_r. by apply mapM_blocks.
    + right. split_and!; [|done|done]. destruct w; [|done]. subst rest. rewrite (Ht eq_refl), take_nil in Hr. done.
Qed.

(** ** After a torn record *)

Definition append_all (l : t) (bs : list Block) : t := foldl (λ l b, (append l None true b).1) l bs.
Lemma append_all_file bs : ∀ l, file (append_all l bs) = file l ++ written_as bs.
Proof.
  induction bs as [|b bs IH]; intros l; [cbn; by rewrite app_nil_r|]. cbn [append_all foldl]. fold (append_all (append l None true b).1 bs).
  rewrite IH. cbn. by rewrite <- app_assoc.
Qed.
Lemma read_torn p j more : payload_ok p → (HEADER ≤ j < length (record p))%nat →
  (∀ fuel, read_from fuel (take j (record p) ++ more) = []) ∨ (∃ q, q ≠ p ∧ digest q = digest p) ∨ drop (j - HEADER) p `prefix_of` more.
Proof.
  intros Hp [Hj Hlt]. rewrite length_record in Hlt. set (rest := take (j - HEADER) p ++ more).
  assert (take j (record p) ++ more = to_le 4 (N.of_nat (length p)) ++ as_bytes (digest p) ++ rest) as ->.
  { unfold record, HEADER, rest in *. rewrite take_app_ge, take_app_ge by (rewrite ?length_to_le, ?length_digest; lia).
    rewrite length_to_le, length_digest, <- !app_assoc. do 4 f_equal.
    replace (j - 4 - 32)%nat with (j - 36)%nat by lia. done. }
  destruct (decide (digest (take (length p) rest) = digest p)) as [Ed|Ed].
  - destruct (decide (take (length p) rest = p)) as [Eq|Hne]; [|right; left; by eexists]. right. right.
    apply (f_equal (drop (j - HEADER))) in Eq. rewrite <- Eq. unfold rest. rewrite take_app_ge by (rewrite length_take; lia).
    rewrite drop_app_ge by (rewrite length_take; lia). rewrite length_take.
    replace (j - HEADER - (j - HEADER) `min` length p)%nat with 0%nat by lia. rewrite drop_0. apply prefix_take.
  - left. intros [|fuel]; [done|]. rewrite read_turn by (apply length_to_le || apply length_digest). rewrite len_field, len_checks by done.
    cbn [orb]. destruct (_ <? _); [done|]. rewrite Nat2N.id, bool_decide_false; [done|]. intros E. by apply Ed, as_bytes_inj.
Qed.

(** A torn record hides everything behind it.  Suppose the last write of a run was
    cut inside a block's payload.  The next run reads the blocks before it, opens the log
    and appends behind the torn bytes; then no later run reads any block appended since,
    however many were appended and flushed, unless those bytes happen to continue the
    torn payload or another string has its digest. *)
Theorem torn_tail_hides bs b j later : Forall block_ok bs → payload_ok (to_vec b) →
  (HEADER ≤ j < length (record (to_vec b)))%nat →
  let torn := written_as bs ++ take j (record (to_vec b)) in
  load_blocks torn = Some bs ∧
  (load_blocks (file (append_all (open torn (length torn)) later)) = Some bs ∨
   (∃ q, q ≠ to_vec b ∧ digest q = digest (to_vec b)) ∨ drop (j - HEADER) (to_vec b) `prefix_of` written_as later).
Proof.
  intros Ho Hp Hj torn. assert (Forall payload_ok (to_vec <$> bs)) as Hps by (rewrite Forall_fmap; eapply Forall_impl; [done|]; by intros ? []).
  assert (∀ more, (∀ fuel, read_from fuel (take j (record (to_vec b)) ++ more) = []) →
    load_blocks (torn ++ more) = Some bs) as Hload.
  { intros more Hr. unfold load_blocks, read_records, torn. rewrite <- app_assoc. unfold written_as.
    edestruct read_behind as (f & _ & ->); [done|done|]. rewrite Hr, app_nil_r. destruct (load_prefix bs (length (written_as bs)) Ho) as (m & Hm & El & Hk).
    assert (m = length bs) as -> by (enough (length bs ≤ m)%nat by lia; apply Hk; [done|by rewrite firstn_all]).
    rewrite !firstn_all in El. unfold load_blocks, read_records in El. unfold written_as in El.
    edestruct (read_behind (to_vec <$> bs) []) as (f' & _ & Er); [done|by rewrite app_nil_r|]. rewrite app_nil_r in Er. rewrite Er in El.
    destruct f'; cbn [read_from] in El; [by rewrite app_nil_r in El|]. rewrite bool_decide_true in El by (cbn; unfold HEADER; lia). by rewrite app_nil_r in El. }
  split.
  - rewrite <- (app_nil_r torn). apply Hload. intros fuel. rewrite app_nil_r. apply read_cut; [done|lia].
  - rewrite append_all_file. cbn [open file]. destruct (read_torn _ j (written_as later) Hp Hj) as [Hr|[Hc|Hc]]; [left; by apply Hload|by right; left|by right; right].
Qed.
End log.

Module Log_examples.
#[local] Existing Instance Toy.blake3.
Definition miner : AccountId := mkAccountId "miner.sov" eq_refl.
Definition block (height nonce : N) : Block :=
  mkBlock (mkBlockHeader height Hash_ZERO Hash_ZERO Hash_ZERO Hash_ZERO 0 miner 0 0 nonce) [].
#[local] Instance encode : Borsh Block := λ b, [h_height (header b); h_nonce (header b); 7; 9].
Definition decode (l : bytes) : option Block :=
  match l with [height; nonce; 7; 9] => Some (block height nonce) | _ => None end.
Definition l3 : t := (append_unsynced (append (append_unsynced (open [] 0) None (block 1 5)).1 None true (block 2 6)).1 None (block 3 7)).1.

(** Three blocks, the third not flushed and cut by a crash; the next run appends
    behind what is left of it. *)
Definition reopened : t := open (take 119 (file l3)) 119.
Definition behind : t := (append reopened None true (block 3 8)).1.
Lemma log_survives_crash_witness :
  ∃ m, (2 ≤ m ≤ 2)%nat ∧ ((159 ≤ 159)%nat → m = 2%nat) ∧
    (load_blocks decode (take 159 (file behind)) = Some (take m [block 1 5; block 2 6]) ∨
     false = false ∧ m = 2%nat ∧ read_records (drop 80 (take 159 (file behind))) ≠ []).
Proof.
  assert (∀ h n, block_ok decode (block h n)) as Hb by (intros; split; [split; vm_compute; done|reflexivity]).
  assert (written decode l3 [block 1 5; block 2 6; block 3 7] 2 true) as W.
  { change [block 1 5; block 2 6; block 3 7] with (written_one None [block 1 5; block 2 6] (block 3 7)).
    eapply w_write; [|apply Hb|done|reflexivity].
    change [block 1 5; block 2 6] with (written_one None [block 1 5] (block 2 6)).
    refine (w_append _ _ _ 0 None true _ _ true _ _ _ _); [|apply Hb|done|reflexivity].
    change [block 1 5] with (written_one None [] (block 1 5)). eapply w_write; [apply w_new|apply Hb|done|reflexivity]. }
  assert (written decode reopened [block 1 5; block 2 6] 2 false) as W2.
  { refine (w_crash _ _ _ _ _ 119 2 119 2 W _ _ _ _ _); [vm_compute; lia|split_and!; vm_compute; lia|split; vm_compute; lia|lia|vm_compute; lia]. }
  assert (written decode behind [block 1 5; block 2 6] 2 false) as W3 by (by eapply (w_append_behind _ _ _ _ None true (block 3 8))).
  assert (on_disk behind ≤ 159)%nat as Hd by (vm_compute; lia).
  exact (log_survives_crash decode behind _ 2 false 159 W3 Hd).
Defined.

(** Two blocks are appended and flushed behind the torn one, and not read again. *)
Definition torn : bytes := written_as [block 1 5] ++ take 38 (record (to_vec (block 2 6))).
Definition after : t := append_all (open torn (length torn)) [block 2 6; block 3 7].
Example after_restart : load_blocks decode (file after) = Some [block 1 5].
Proof. vm_compute. reflexivity. Qed.
Lemma torn_tail_hides_witness :
  load_blocks decode torn = Some [block 1 5] ∧
  (load_blocks decode (file after) = Some [block 1 5] ∨
   (∃ q, q ≠ to_vec (block 2 6) ∧ digest q = digest (to_vec (block 2 6))) ∨
   drop 2 (to_vec (block 2 6)) `prefix_of` written_as [block 2 6; block 3 7]).
Proof.
  apply (torn_tail_hides decode [block 1 5] (block 2 6) 38 [block 2 6; block 3 7]).
  - constructor; [|constructor]. split; [split; vm_compute; done|reflexivity].
  - split; vm_compute; done.
  - split; vm_compute; lia.
Defined.
End Log_examples.
End BlockLog.
