(* ===== verification/Network.v ===== *)
(** * Peer messages (crates/network/src/message.rs)

    The messages nodes exchange, and the handshake: a peer is known by a key that signed
    the chain, the account it claims and this very channel. *)

From S2P Require Import Prelude Primitives Crypto Types Block.
#[local] Open Scope N_scope.

Module Net.

Inductive NetMessage :=
| Status (height : N) (head : Hash) (chain_work : bytes)
| NewTransaction (stx : SignedTransaction)
| NewBlock (b : Block)
| GetBlock (height : N)
| BlockResponse (b : option Block)
| GetBlocks (start count : N)
| BlocksResponse (bs : list Block)
| Peers (addrs : list string)
| Hello (chain_id : string) (genesis_hash : Hash) (account : AccountId) (public_key : PublicKey)
    (channel_binding : bytes) (signature : Signature)
| Version (protocol_version : N) (agent : string) (height : N)
| GetAddr
| GetHeaders (locator : list Hash) (stop : Hash)
| Headers (hs : list BlockHeader).

Definition PROTOCOL_VERSION : N := 3.
Definition MIN_SUPPORTED_PROTOCOL : N := 0.
Definition version (agent : string) (height : N) : NetMessage := Version PROTOCOL_VERSION agent height.

(** A field behind its length. *)
Definition field (l : bytes) : bytes := u64_le (N.of_nat (length l)) ++ l.
Definition hello_signing_bytes (chain_id : string) (genesis_hash : Hash) (account : AccountId) (binding : bytes) : bytes :=
  string_bytes "sov:p2p:hello:v3" ++ [0] ++ field (string_bytes chain_id) ++ field (acc_bytes account) ++
  field binding ++ as_bytes genesis_hash.

Section hello.
Context `{Blake3, SigScheme, Borsh PublicKey}.

(** [sign] is the node's key pair at work. *)
Definition hello (chain_id : string) (genesis_hash : Hash) (account : AccountId) (binding : bytes) (key : PublicKey)
    (sign : bytes → Signature) : NetMessage :=
  Hello chain_id genesis_hash account key binding (sign (hello_signing_bytes chain_id genesis_hash account binding)).
(** [None] where deriving the id of a key would panic. *)
Definition implicit_account_spoofed (account : AccountId) (key : PublicKey) : option bool :=
  if is_implicit account then id ← implicit_account_id key; Some (negb (bool_decide (account = id)))
  else Some false.
Definition authenticated_account (m : NetMessage) (chain_id : string) (genesis : Hash) (binding : bytes) :
    option (option AccountId) :=
  match m with
  | Hello cid gen account key b sig =>
      if bool_decide (cid = chain_id) && bool_decide (gen = genesis) && bool_decide (b = binding)
         && verify key (hello_signing_bytes cid gen account b) sig then
        spoofed ← implicit_account_spoofed account key; Some (if (spoofed : bool) then None else Some account)
      else Some None
  | _ => Some None
  end.
Definition implicit_account_mismatch (m : NetMessage) : option bool :=
  match m with Hello _ _ account key _ _ => implicit_account_spoofed account key | _ => Some false end.
End hello.

(** ** What a handshake signs *)

Lemma len_field_inj a b l r : a < 2 ^ 64 → b < 2 ^ 64 → u64_le a ++ l = u64_le b ++ r → a = b ∧ l = r.
Proof.
  intros Ha Hb E. apply app_inj_1 in E as [E ->]; [|by rewrite !length_to_le || (unfold u64_le; rewrite !length_reverse, !length_to_be)].
  split; [|done]. apply (f_equal le_val) in E. change (u64_le a) with (to_le 8 a) in E. change (u64_le b) with (to_le 8 b) in E.
  rewrite !le_to_le in E by (change (256 ^ N.of_nat 8) with (2 ^ 64); done). done.
Qed.
Lemma field_inj a b l r : N.of_nat (length a) < 2 ^ 64 → N.of_nat (length b) < 2 ^ 64 →
  field a ++ l = field b ++ r → a = b ∧ l = r.
Proof.
  unfold field. rewrite <- !app_assoc. intros Ha Hb E. apply len_field_inj in E as [El E]; [|done..]. apply app_inj_1 in E; [done|lia].
Qed.
(** Different chains, accounts, channels or forks are different messages to sign. *)
Lemma hello_signing_bytes_inj c1 g1 a1 b1 c2 g2 a2 b2 :
  Forall (λ l, N.of_nat (length l) < 2 ^ 64) [string_bytes c1; string_bytes c2; b1; b2] →
  hello_signing_bytes c1 g1 a1 b1 = hello_signing_bytes c2 g2 a2 b2 →
  c1 = c2 ∧ g1 = g2 ∧ a1 = a2 ∧ b1 = b2.
Proof.
  intros [Hc1 [Hc2 [Hb1 [Hb2 _]%Forall_cons]%Forall_cons]%Forall_cons]%Forall_cons E. unfold hello_signing_bytes in E.
  apply app_inv_head in E. apply app_inv_head in E.
  assert (∀ a : AccountId, N.of_nat (length (acc_bytes a)) < 2 ^ 64) as Ha.
  { intros a. pose proof (as_str_valid a) as Hv. unfold validate in Hv. fold (acc_bytes a) in Hv. destruct (negb _) eqn:Hl; [done|].
    apply negb_false_iff, andb_true_iff in Hl as [_ Hl%N.leb_le]. unfold MAX_LEN in Hl. lia. }
  apply field_inj in E as [Ec E]; [|done..]. apply field_inj in E as [Ea E]; [|apply Ha..].
  apply field_inj in E as [Eb E]; [|done..]. split_and!; [by apply string_bytes_inj|by apply as_bytes_inj|by apply acc_bytes_inj|done].
Qed.
End Net.
