(* ===== verification/Chain.v ===== *)
(** * The chain: genesis, validation, fork choice and reorganisation
    (crates/chain/src/genesis.rs, blockchain.rs)

    A node's chain is a record [Blockchain]; every method that changes it is a
    function returning the new chain.  [None] is a failed [expect] (the process
    dies); an error the method returns is an [Err]. *)

From S2P Require Import Prelude Primitives Pow Mining Governance Crypto Compliance Smt Types Block.
From S2P Require Import Gas Vault Ledger ShieldedV2 Execution Verify.

(** What the chain takes from other crates besides execution: the proof-of-work
    seal (with the variant of the mining loop), the encoders of headers and
    receipts and the encoded sizes. *)
Class ChainEnv := {
  ch_exec :: ExecEnv;
  ch_header :: Borsh BlockHeader;
  ch_block_size :: SerializedSize Block;
  ch_tx_size :: SerializedSize SignedTransaction;
  ch_hash : Borsh Hash;
  ch_status : Borsh ExecutionStatus;
  ch_gas : Borsh N;
  ch_bytes : Borsh bytes;
  ch_events : Borsh (list Event);
  pow_seal : PowAlgo → bytes → bytes → Hash;
  pow_seal_mining : PowAlgo → bytes → bytes → Hash;
}.

Module Chain.

(** ** Genesis (genesis.rs) *)

Record GenesisAccount := mkGenesisAccount { ga_account : AccountId; ga_key : PublicKey; ga_balance : Balance }.
Record VestingGrant := mkVestingGrant { vg_account : AccountId; vg_amount : Balance; vg_unlock_height : N }.
Record GenesisConfig := mkGenesisConfig {
  gc_chain_id : string;
  gc_timestamp_ms : N;
  gc_accounts : list GenesisAccount;
  gc_mining : MiningPolicy;
  gc_vesting : list VestingGrant;
}.
Inductive GenesisError :=
| VestingUnknownAccount (account : AccountId)
| GenesisCapExceeded (total cap : N)
| GenesisOverflow.

Inductive BlockExecutionError :=
| InvalidTransaction (index : N) (source : ExecutionError)
| CoinbaseError (source : ExecutionError).

Inductive ChainError :=
| BlockTooHeavy (weight limit : N)
| GenesisFailed (e : GenesisError)
| PowInsufficient
| BadDifficultyBits (expected got : N)
| PowNotFound
| HeightMismatch (expected got : N)
| PrevHashMismatch
| BlockTooLarge (size limit : N)
| NonMonotonicTimestamp
| TimestampNotAfterMedian (mtp got : N)
| TxRootMismatch
| BadSignatures
| StateRootMismatch
| ReceiptsRootMismatch
| ExecutionFailed (e : BlockExecutionError)
| CheckpointMismatch (height : N)
| InvariantBroken (e : InvariantViolation).

(** ** Constants *)

Definition DIFFICULTY_WINDOW : N := 60.
Definition BLOCK_SIZE_WINDOW : N := 100.
Definition BLOCK_SIZE_GROWTH : N := 2.
Definition BLOCK_SIZE_FLOOR : N := 1024 * 1024.
Definition BLOCK_SIZE_CEILING : N := 4 * 1024 * 1024.
Definition BLOCK_HEADER_SIZE_RESERVE : N := 4096.
Definition FINALITY_DEPTH : N := 6.
Definition EDA_ACTIVATION_MS : N := 1784239200000.
Definition REORG_UNDO_WINDOW : nat := 256.
Definition TX_DOMAIN_GRACE_BLOCKS : N := 576.
Definition MAX_MINING_ITERS : N := N.shiftl 1 32.

Definition canonical_target (target : Target.t) : option Target.t :=
  Target.from_compact (Target.to_compact target).
(** [sizes[sizes.len() / 2]] of the sorted sizes; [None] only for no size at all. *)
Definition elastic_block_cap (sizes : list N) : option N :=
  median ← merge_sort N.le sizes !! (length sizes / 2)%nat;
  Some (clamp BLOCK_SIZE_FLOOR BLOCK_SIZE_CEILING (saturating_mul u64_max median BLOCK_SIZE_GROWTH)).

Record PqDeploymentConfig := mkPqDeploymentConfig {
  pd_deployment : Deployment; sunset_delay_blocks : N; pd_threshold_grains : N }.
Record MinerStats := mkMinerStats {
  m_account : AccountId; first_seen_height : N; first_seen_timestamp_ms : N; blocks_mined : N;
  last_seen_height : N }.

(** The first window boundary up to the one governing [height] at which the
    deployment is active; the genesis window is skipped. *)
Fixpoint boundary_loop (fuel : nat) (d : Deployment) (log : gmap N N) (governing boundary : N) : option N :=
  match fuel with
  | O => None
  | S fuel =>
      if boundary <=? governing then
        if bool_decide (state_at d boundary log = Some Active) then Some boundary
        else boundary_loop fuel d log governing (boundary + period d)
      else None
  end.
Definition activation_boundary (d : Deployment) (height : N) (log : gmap N N) : option N :=
  let governing := height - height mod period d in
  boundary_loop (N.to_nat (governing / period d)) d log governing (period d).
Definition deployment_active_at (d : option Deployment) (height : N) (log : gmap N N) : bool :=
  match d with
  | None => false
  | Some d => bool_decide (is_Some (activation_boundary d height log))
  end.

Section chain.
Context `{CE : ChainEnv}.
Implicit Types (b : Block).

Record BlockIndexEntry := mkEntry {
  e_block : Block; e_sha_target : Target.t; e_chain_work : N; e_height : N; e_size : N }.
Record Candidate := mkCandidate { cd_sha_target : Target.t; cd_new_work : N; cd_height : N }.
Record Imported := mkImported { im_receipts : list Receipt; im_reverted_txs : list SignedTransaction }.
Definition Imported_empty : Imported := mkImported [] [].

(** Fields whose names the runtime already uses end in an underscore. *)
Record Blockchain := mkBlockchain {
  chain_id_ : string;
  ledger_ : Ledger;
  mining_ : MiningPolicy;
  sha256d_difficulty : N;
  blocks : list Block;
  index_ : gmap Hash BlockIndexEntry;
  head_ : Hash;
  genesis_ledger : Ledger;
  genesis_hash : Hash;
  checkpoints : gmap N Hash;
  linked_to_checkpoint : gset Hash;
  linkage_pending : list Hash;
  linkage_next_height : N;
  linkage_prev : option Hash;
  signal_mask : N;
  coinbase_account : option AccountId;
  default_coinbase : AccountId;
  signals_ : gmap N N;
  pq_deployment : option PqDeploymentConfig;
  tx_domain_deployment : option Deployment;
  tx_domain_grace_blocks : N;
  fee_auction_deployment : option Deployment;
  shielded_v2_deployment : option Deployment;
  shielded_v2_suite2_deployment : option Deployment;
  shielded_v2_suite2_recovery_deployment : option Deployment;
  tx_timestamp_deployment : option Deployment;
  active_receipts : gmap N (list Receipt);
  tx_height : gmap Hash N;
  undo_ring : list (N * Hash * list UndoOp);
}.
Implicit Types (c : Blockchain) (e : BlockIndexEntry).

Definition block_height b : N := h_height (header b).
Definition receipts_root_ : list Receipt → option Hash :=
  @receipts_root _ ch_hash ch_status ch_gas ch_bytes ch_events.

(** [GenesisConfig::build], with the coinbase account. *)
Definition checked_total (start : N) (amounts : list N) : result GenesisError N :=
  foldl (λ acc a, total ← acc; ok_or (checked_add u128_max total a) GenesisOverflow) (Ok start) amounts.
Definition apply_vesting (acc : result GenesisError Ledger) (v : VestingGrant) : result GenesisError Ledger :=
  l ← acc;
  if negb (exists_ l (vg_account v)) then Err (VestingUnknownAccount (vg_account v))
  else
    let a := account l (vg_account v) in
    locked ← ok_or (Bal.checked_add (locked a) (vg_amount v)) GenesisOverflow;
    Ok (set_account l (vg_account v) {| a with locked := locked; unlock_height := vg_unlock_height v |}).
Definition GENESIS_LABEL : AccountId := mkAccountId "genesis.sov" eq_refl.
Definition build (g : GenesisConfig) : option (result GenesisError (Ledger * Block * AccountId)) :=
  let checked :=
    total ← checked_total 0 (ga_balance <$> gc_accounts g);
    total ← checked_total total (vg_amount <$> gc_vesting g);
    total ← ok_or (checked_add u128_max total (mining_budget_grains (gc_mining g))) GenesisOverflow;
    if MAX_SUPPLY_GRAINS <? total then Err (GenesisCapExceeded total MAX_SUPPLY_GRAINS)
    else
      let l := foldl (λ l a, set_account l (ga_account a) (Acct.new (ga_key a) (ga_balance a)))
                 Ledger.new (gc_accounts g) in
      foldl apply_vesting (Ok l) (gc_vesting g) in
  match checked with
  | Err e => Some (Err e)
  | Ok l =>
      let coinbase := match gc_accounts g with a :: _ => ga_account a | [] => GENESIS_LABEL end in
      root ← receipts_root_ [];
      b ← assemble 0 Hash_ZERO (state_root l) root (gc_timestamp_ms g) coinbase [];
      let h := {| (header b) with bits := Target.to_compact (sha256d_target (gc_mining g)) |} in
      Some (Ok (l, mkBlock h (transactions b), coinbase))
  end.

(** [Blockchain::new]; [None] if the configured target does not survive its
    compact form, which [canonical_target_total] excludes. *)
Definition new (g : GenesisConfig) : option (result ChainError Blockchain) :=
  built ← build g;
  match built with
  | Err e => Some (Err (GenesisFailed e))
  | Ok (l, b, coinbase) =>
      match check_ledger l (gc_mining g) with
      | Err v => Some (Err (InvariantBroken v))
      | Ok _ =>
          target ← canonical_target (sha256d_target (gc_mining g));
          let e := mkEntry b target (Work.saturating_add Work.zero (Work.of_target target)) 0 (serialized_size b) in
          Some (Ok {|
            chain_id_ := gc_chain_id g; ledger_ := l; mining_ := gc_mining g;
            sha256d_difficulty := Difficulty.from_target target; blocks := [b];
            index_ := {[block_hash b := e]}; head_ := block_hash b; genesis_ledger := l;
            genesis_hash := block_hash b; checkpoints := ∅; linked_to_checkpoint := ∅;
            linkage_pending := []; linkage_next_height := 0; linkage_prev := None; signal_mask := 0;
            coinbase_account := None; default_coinbase := coinbase; signals_ := ∅; pq_deployment := None;
            tx_domain_deployment := None; tx_domain_grace_blocks := TX_DOMAIN_GRACE_BLOCKS;
            fee_auction_deployment := None; shielded_v2_deployment := None;
            shielded_v2_suite2_deployment := None; shielded_v2_suite2_recovery_deployment := None;
            tx_timestamp_deployment := None; active_receipts := ∅; tx_height := ∅; undo_ring := [] |})
      end
  end.

(** ** Read access *)

Definition head_block c : option Block := last (blocks c).
Definition height_ c : option N := block_height <$> head_block c.
Definition block_by_height c (h : N) : option Block := blocks c !! N.to_nat h.
Definition block_by_hash c (hash : Hash) : option Block :=
  snd <$> list_find (λ b, block_hash b = hash) (blocks c).
Definition receipt c (id : Hash) : option (N * Receipt) :=
  h ← tx_height c !! id;
  rs ← active_receipts c !! h;
  r ← snd <$> list_find (λ r, r_tx_id r = id) rs;
  Some (h, r).
Definition receipts_at_height c (h : N) : option (list Receipt) :=
  top ← height_ c;
  if top <? h then None else Some (default [] (active_receipts c !! h)).
Definition contains_block c (hash : Hash) : bool := bool_decide (is_Some (index_ c !! hash)).
Definition chain_work c : option N := e_chain_work <$> index_ c !! head_ c.
Definition confirmations c (hash : Hash) : option N :=
  b ← block_by_hash c hash;
  top ← height_ c;
  Some (top - block_height b + 1).
Definition is_final c (hash : Hash) : bool :=
  bool_decide (hash = genesis_hash c)
  || match confirmations c hash with Some n => FINALITY_DEPTH <=? n | None => false end.
(** The values of the [BTreeMap], in key order. *)
Definition count_miner (acc : gmap AccountId MinerStats) b : gmap AccountId MinerStats :=
  let who := proposer (header b) in
  <[who := match acc !! who with
           | Some s => {| s with blocks_mined := blocks_mined s + 1; last_seen_height := block_height b |}
           | None => mkMinerStats who (block_height b) (timestamp_ms (header b)) 1 (block_height b)
           end]> acc.
Definition miner_registry c : list MinerStats := (entries (foldl count_miner ∅ (drop 1 (blocks c)))).*2.

(** ** Checkpoints *)

Definition newest_checkpoint_height c : N := foldr N.max 0 (map_to_list (checkpoints c)).*1.
Definition newest_checkpoint c : option (N * Hash) :=
  let h := newest_checkpoint_height c in
  hash ← checkpoints c !! h; Some (h, hash).
Definition checkpoint_linkage_ready c : bool :=
  bool_decide (checkpoints c = ∅) || negb (bool_decide (linked_to_checkpoint c = ∅)).
Definition linkage_progress c : N * option Hash := (linkage_next_height c, linkage_prev c).
Definition is_linked_to_checkpoint c (hash : Hash) : bool := bool_decide (hash ∈ linked_to_checkpoint c).
Definition checkpoint_satisfied c : bool :=
  if bool_decide (checkpoints c = ∅) then true
  else
    let newest := newest_checkpoint_height c in
    match checkpoints c !! newest with
    | None => true
    | Some expected =>
        match block_by_height c newest with
        | Some b => bool_decide (block_hash b = expected)
        | None => false
        end
    end.
Definition reset_linkage_progress c : Blockchain :=
  {| c with linkage_pending := []; linkage_next_height := 0; linkage_prev := None |}.
Definition set_checkpoints c (pins : list (N * Hash)) : Blockchain :=
  reset_linkage_progress {| c with checkpoints := foldl (λ m p, <[p.1 := p.2]> m) ∅ pins;
                                   linked_to_checkpoint := ∅ |}.

(** The loop of [install_checkpoint_linkage], until the pin is reached: the
    hashes proven, or the height that failed. *)
Fixpoint link_loop (newest : N) (pinned : Hash) (i : N) (prev : option Hash) (headers : list BlockHeader) :
    result N (list Hash) :=
  match headers with
  | [] => Err newest
  | h :: headers =>
      if negb (h_height h =? i) then Err (h_height h)
      else if match prev with Some p => negb (bool_decide (h_prev_hash h = p)) | None => false end then
        Err (h_height h)
      else
        let hash := header_hash h in
        if h_height h =? newest then
          if negb (bool_decide (hash = pinned)) then Err newest else Ok [hash]
        else cons hash <$> link_loop newest pinned (i + 1) (Some hash) headers
  end.
Definition install_checkpoint_linkage c (headers : list BlockHeader) : Blockchain * result ChainError N :=
  let newest := newest_checkpoint_height c in
  match checkpoints c !! newest with
  | None => (c, Ok 0)
  | Some pinned =>
      match headers with
      | [] => (c, Err (CheckpointMismatch newest))
      | first :: _ =>
          match block_by_height c 0 with
          | None => (c, Err (CheckpointMismatch 0))
          | Some genesis =>
              if negb (h_height first =? 0) || negb (bool_decide (header_hash first = block_hash genesis)) then
                (c, Err (CheckpointMismatch 0))
              else
                match link_loop newest pinned 0 None headers with
                | Err height => (c, Err (CheckpointMismatch height))
                | Ok proven =>
                    ({| c with linked_to_checkpoint := list_to_set proven |}, Ok (N.of_nat (length proven)))
                end
          end
      end
  end.
Definition relink_checkpoint_from_local c : option (Blockchain * N) :=
  let newest := newest_checkpoint_height c in
  if bool_decide (checkpoints c = ∅) then Some (c, 0)
  else
    top ← height_ c;
    if top <? newest then Some (c, 0)
    else
      let headers := omap (λ h, header <$> block_by_height c (N.of_nat h)) (seq 0 (S (N.to_nat newest))) in
      if negb (N.of_nat (length headers) =? newest + 1) then Some (c, 0)
      else let '(c, r) := install_checkpoint_linkage c headers in
           Some (c, match r with Ok n => n | Err _ => 0 end).
Definition add_checkpoints c (pins : list (N * Hash)) : option Blockchain :=
  fst <$> relink_checkpoint_from_local
    {| c with checkpoints := foldl (λ m p, <[p.1 := p.2]> m) (checkpoints c) pins;
              linked_to_checkpoint := ∅ |}.

(** The loop of [extend_checkpoint_linkage]. *)
Fixpoint extend_loop (newest : N) (pinned : Hash) c (headers : list BlockHeader) :
    Blockchain * result ChainError bool :=
  match headers with
  | [] => (c, Ok false)
  | h :: headers =>
      let height := h_height h in
      let refuse height := (reset_linkage_progress c, Err (CheckpointMismatch height)) in
      if negb (height =? linkage_next_height c) then refuse height
      else
        let hash := header_hash h in
        if negb (match linkage_prev c with None => false | Some prev => bool_decide (h_prev_hash h = prev) end)
        then refuse height
        else if height =? newest then
          if negb (bool_decide (hash = pinned)) then refuse newest
          else
            (reset_linkage_progress
               {| c with linked_to_checkpoint := list_to_set (linkage_pending c ++ [hash]) |}, Ok true)
        else
          extend_loop newest pinned
            {| c with linkage_pending := linkage_pending c ++ [hash];
                      linkage_next_height := height + 1; linkage_prev := Some hash |} headers
  end.
Definition extend_checkpoint_linkage c (headers : list BlockHeader) : Blockchain * result ChainError bool :=
  match newest_checkpoint c with
  | None => (c, Ok false)
  | Some (newest, pinned) =>
      if checkpoint_linkage_ready c then (c, Ok true)
      else
        match block_by_height c 0 with
        | None => (c, Err (CheckpointMismatch 0))
        | Some genesis =>
            let genesis := block_hash genesis in
            match linkage_prev c with
            | Some _ => extend_loop newest pinned c headers
            | None =>
                let c := {| c with linkage_pending := linkage_pending c ++ [genesis];
                                   linkage_next_height := 1; linkage_prev := Some genesis |} in
                if newest =? 0 then
                  if negb (bool_decide (genesis = pinned)) then
                    (reset_linkage_progress c, Err (CheckpointMismatch 0))
                  else
                    (reset_linkage_progress {| c with linked_to_checkpoint := list_to_set (linkage_pending c) |},
                     Ok true)
                else extend_loop newest pinned c headers
            end
        end
  end.
Definition adopt_local_finalized_checkpoint c (depth : N) : option (Blockchain * option (N * Hash)) :=
  if bool_decide (checkpoints c = ∅) || negb (checkpoint_satisfied c) then Some (c, None)
  else
    top ← height_ c;
    match checked_sub top (N.max depth FINALITY_DEPTH) with
    | None => Some (c, None)
    | Some height =>
        if height <=? newest_checkpoint_height c then Some (c, None)
        else
          match block_by_height c height with
          | None => Some (c, None)
          | Some b =>
              let hash := block_hash b in
              c ← add_checkpoints c [(height, hash)];
              Some (c, Some (height, hash))
          end
    end.

(** ** Miner-signalled deployments *)

Definition set_signal_mask c (mask : N) : Blockchain := {| c with signal_mask := mask |}.
Definition set_coinbase c (account : AccountId) : Blockchain := {| c with coinbase_account := Some account |}.
Definition set_pq_deployment c (d : PqDeploymentConfig) : Blockchain := {| c with pq_deployment := Some d |}.
Definition set_tx_domain_deployment c (d : Deployment) : Blockchain :=
  {| c with tx_domain_deployment := Some d |}.
Definition set_tx_domain_grace_blocks c (n : N) : Blockchain := {| c with tx_domain_grace_blocks := n |}.
Definition set_fee_auction_deployment c (d : Deployment) : Blockchain :=
  {| c with fee_auction_deployment := Some d |}.
Definition set_shielded_v2_deployment c (d : Deployment) : Blockchain :=
  {| c with shielded_v2_deployment := Some d |}.
Definition set_shielded_v2_suite2_deployment c (d : Deployment) : Blockchain :=
  {| c with shielded_v2_suite2_deployment := Some d |}.
Definition set_shielded_v2_suite2_recovery_deployment c (d : Deployment) : Blockchain :=
  {| c with shielded_v2_suite2_recovery_deployment := Some d |}.
Definition set_tx_timestamp_deployment c (d : Deployment) : Blockchain :=
  {| c with tx_timestamp_deployment := Some d |}.

Definition chain_domain_ c : SigningDomain := mkSigningDomain (chain_id_ c) (genesis_hash c).
Definition resolved_pq_with c (height : N) (log : gmap N N) : option PqSchedule :=
  cfg ← pq_deployment c;
  boundary ← activation_boundary (pd_deployment cfg) height log;
  Some (mkPqSchedule boundary (saturating_add u64_max boundary (sunset_delay_blocks cfg))
          (pd_threshold_grains cfg)).
Definition tx_domain_activation_with c (height : N) (log : gmap N N) : option N :=
  d ← tx_domain_deployment c; activation_boundary d height log.
Definition resolved_tx_domain_with c (height : N) (log : gmap N N) : option SigningDomain :=
  _ ← tx_domain_activation_with c height log; Some (chain_domain_ c).
Definition resolved_tx_domain_mode_with c (height : N) (log : gmap N N) : TxDomainMode :=
  match tx_domain_activation_with c height log with
  | None => Legacy
  | Some activation =>
      if height <? saturating_add u64_max activation (tx_domain_grace_blocks c) then Grace (chain_domain_ c)
      else Bound (chain_domain_ c)
  end.
Definition fee_auction_active_with c (height : N) (log : gmap N N) : bool :=
  deployment_active_at (fee_auction_deployment c) height log.
Definition shielded_v2_active_with c (height : N) (log : gmap N N) : bool :=
  deployment_active_at (shielded_v2_deployment c) height log.
Definition shielded_v2_suite2_active_with c (height : N) (log : gmap N N) : bool :=
  (deployment_active_at (shielded_v2_suite2_deployment c) height log
   || deployment_active_at (shielded_v2_suite2_recovery_deployment c) height log)
  && shielded_v2_active_with c height log.
Definition tx_timestamp_active_with c (height : N) (log : gmap N N) : bool :=
  deployment_active_at (tx_timestamp_deployment c) height log.

(** Whether [hash] is the active block at height [h]. *)
Definition is_active_at c (h : N) (hash : Hash) : bool :=
  bool_decide (block_hash <$> block_by_height c h = Some hash).
(** The walk of [branch_signals_from]: the fork height and the branch's bits
    above it, newest first.  An index of [n] blocks is left after [n] links. *)
Fixpoint branch_walk (fuel : nat) c (hash : Hash) : N * list (N * N) :=
  match fuel with
  | O => (0, [])
  | S fuel =>
      match index_ c !! hash with
      | None => (0, [])
      | Some e =>
          if is_active_at c (e_height e) hash then (e_height e, [])
          else
            let '(fork, bits) := branch_walk fuel c (h_prev_hash (header (e_block e))) in
            (fork, (block_height (e_block e), version_bits (header (e_block e))) :: bits)
      end
  end.
Definition branch_signals_from c (parent : Hash) : option (gmap N N) :=
  top ← height_ c;
  let '(fork, bits) := branch_walk (S (size (index_ c))) c parent in
  let log := foldl (λ log i, (SignalLogOps.remove log (fork + N.of_nat i)).1) (signals_ c)
               (seq 1 (N.to_nat (top - fork))) in
  Some (foldl (λ log p, (SignalLogOps.record log p.1 p.2).1) log (reverse bits)).
Definition branch_signals_of c b : option (gmap N N) := branch_signals_from c (h_prev_hash (header b)).
Definition branch_tx_domain_mode c b : option TxDomainMode :=
  match tx_domain_deployment c with
  | None => Some Legacy
  | Some _ =>
      if bool_decide (h_prev_hash (header b) = head_ c) then
        Some (resolved_tx_domain_mode_with c (block_height b) (signals_ c))
      else
        log ← branch_signals_of c b;
        Some (resolved_tx_domain_mode_with c (block_height b) log)
  end.
Definition branch_shielded_v2_active c b : option bool :=
  match shielded_v2_deployment c with
  | None => Some false
  | Some _ =>
      if bool_decide (h_prev_hash (header b) = head_ c) then
        Some (shielded_v2_active_with c (block_height b) (signals_ c))
      else
        log ← branch_signals_of c b;
        Some (shielded_v2_active_with c (block_height b) log)
  end.

(** ** Difficulty, size limit and time *)

Definition policy_with c (sha_target : Target.t) : MiningPolicy :=
  {| (mining_ c) with sha256d_target := sha_target |}.

(** [entry] and up to [n - 1] of its ancestors, newest first. *)
Fixpoint ancestry (n : nat) c e : list BlockIndexEntry :=
  match n with
  | O => []
  | S n =>
      e :: match index_ c !! h_prev_hash (header (e_block e)) with
           | Some prev => ancestry n c prev
           | None => []
           end
  end.
Definition block_size_limit c (parent : BlockIndexEntry) : option N :=
  normal ← elastic_block_cap (e_size <$> ancestry (N.to_nat BLOCK_SIZE_WINDOW) c parent);
  match shielded_v2_suite2_deployment c, shielded_v2_suite2_recovery_deployment c with
  | None, None => Some normal
  | _, _ =>
      let height := saturating_add u64_max (e_height parent) 1 in
      active ←
        (if bool_decide (block_hash (e_block parent) = head_ c) then
           Some (shielded_v2_suite2_active_with c height (signals_ c))
         else
           log ← branch_signals_from c (block_hash (e_block parent));
           Some (shielded_v2_suite2_active_with c height log));
      Some (if (active : bool) then N.max normal (2560 * 1024) else normal)
  end.

(** The first loop of [base_target]: the window's entries, newest first, and the
    block before it; each step's [expect] may fail. *)
Fixpoint window_loop (n : nat) c (cur : BlockIndexEntry) : option (list BlockIndexEntry * BlockIndexEntry) :=
  match n with
  | O => Some ([], cur)
  | S n =>
      prev ← index_ c !! h_prev_hash (header (e_block cur));
      '(es, last) ← window_loop n c prev;
      Some (cur :: es, last)
  end.
(** The second loop, over the oldest first: solve times and difficulties. *)
Fixpoint solvetimes (prev_ts : N) (es : list BlockIndexEntry) : list N :=
  match es with
  | [] => []
  | e :: es =>
      let ts := timestamp_ms (header (e_block e)) in
      saturating_sub ts prev_ts :: solvetimes ts es
  end.
Definition base_target c (parent : BlockIndexEntry) : option Target.t :=
  let height := e_height parent + 1 in
  if height <=? DIFFICULTY_WINDOW then canonical_target (sha256d_target (mining_ c))
  else
    '(es, before) ← window_loop (N.to_nat DIFFICULTY_WINDOW) c parent;
    let es := reverse es in
    let diffs := (λ e, Difficulty.from_target (e_sha_target e)) <$> es in
    canonical_target (Difficulty.to_target
      (Difficulty.lwma diffs (solvetimes (timestamp_ms (header (e_block before))) es)
         (target_block_ms (mining_ c)))).
Definition expected_target c (parent : BlockIndexEntry) (ts : N) : option Target.t :=
  base ← base_target c parent;
  if ts <? EDA_ACTIVATION_MS then Some base
  else
    let elapsed := saturating_sub ts (timestamp_ms (header (e_block parent))) in
    if Difficulty.eda_halvings elapsed (target_block_ms (mining_ c)) =? 0 then Some base
    else canonical_target (Difficulty.to_target
           (Difficulty.eda (Difficulty.from_target base) elapsed (target_block_ms (mining_ c)))).
Definition sync_active_difficulty c : option Blockchain :=
  head ← index_ c !! head_ c;
  sha ← base_target c head;
  Some {| c with sha256d_difficulty := Difficulty.from_target sha |}.

Definition seal c (h : BlockHeader) : Hash :=
  pow_seal (pow_algo (mining_ c)) (as_bytes (genesis_hash c)) (pow_preimage h).
Definition mint_reward c : option Balance :=
  top ← height_ c;
  Some (Emission.reward_at (mining_ c) (top + 1) (mined_emitted (st (ledger_ c)))).
Definition coinbase_reward_at c (height : N) : Balance :=
  if height =? 0 then 0
  else Emission.reward_at (mining_ c) height (mined_emitted (st (ledger_ c))).

(** The walk of [median_time_past_of]. *)
Fixpoint past_times (n : nat) c e : list N :=
  match n with
  | O => []
  | S n =>
      timestamp_ms (header (e_block e))
      :: (if bool_decide (n = 0%nat) || (e_height e =? 0) then []
          else match index_ c !! h_prev_hash (header (e_block e)) with
               | Some prev => past_times n c prev
               | None => []
               end)
  end.
Definition median_time_past_of c (tip : BlockIndexEntry) : option N :=
  let times := past_times 11 c tip in
  merge_sort N.le times !! (length times / 2)%nat.
Definition median_time_past c : option N := head ← index_ c !! head_ c; median_time_past_of c head.

(** ** Validation without execution *)

Definition validate_candidate c b : option (result ChainError Candidate) :=
  match index_ c !! h_prev_hash (header b) with
  | None => Some (Err PrevHashMismatch)
  | Some parent =>
      let size := serialized_size b in
      size_limit ← block_size_limit c parent;
      if size_limit <? size then Some (Err (BlockTooLarge size size_limit))
      else
        sha_target ← expected_target c parent (timestamp_ms (header b));
        let expected_height := e_height parent + 1 in
        if negb (block_height b =? expected_height) then
          Some (Err (HeightMismatch expected_height (block_height b)))
        else if match checkpoints c !! block_height b with
                | Some expected => negb (bool_decide (block_hash b = expected))
                | None => false
                end then Some (Err (CheckpointMismatch (block_height b)))
        else if timestamp_ms (header b) <? timestamp_ms (header (e_block parent)) then
          Some (Err NonMonotonicTimestamp)
        else
          mtp ← median_time_past_of c parent;
          if timestamp_ms (header b) <=? mtp then
            Some (Err (TimestampNotAfterMedian mtp (timestamp_ms (header b))))
          else
            let required_bits := Target.to_compact sha_target in
            if negb (bits (header b) =? required_bits) then
              Some (Err (BadDifficultyBits required_bits (bits (header b))))
            else
              weighed ← branch_shielded_v2_active c b;
              if weighed && (MAX_BLOCK_WEIGHT <? block_weight b) then
                Some (Err (BlockTooHeavy (block_weight b) MAX_BLOCK_WEIGHT))
              else if negb (is_linked_to_checkpoint c (block_hash b))
                      && negb (Target.is_met_by sha_target (as_bytes (seal c (header b)))) then
                Some (Err PowInsufficient)
              else if negb (tx_root_matches b) then Some (Err TxRootMismatch)
              else
                mode ← branch_tx_domain_mode c b;
                if negb (all_signatures_valid_mode b mode) then Some (Err BadSignatures)
                else
                  Some (Ok (mkCandidate sha_target
                    (Work.saturating_add (e_chain_work parent) (Work.of_target sha_target)) expected_height))
  end.

(** ** Execution *)

(** The context a block executes in, over a signal history. *)
Definition block_context c (height : N) (prev : Hash) (miner : AccountId) (ts : N) (sha_target : Target.t)
    (log : gmap N N) : BlockContext := {|
  height := height;
  prev_hash := prev;
  block_time_ms := ts;
  mining := policy_with c sha_target;
  gas_price := mp_gas_price (policy_with c sha_target);
  miner := miner;
  pq := resolved_pq_with c height log;
  tx_domain := resolved_tx_domain_mode_with c height log;
  fee_auction_active := fee_auction_active_with c height log;
  shielded_v2_active := shielded_v2_active_with c height log;
  shielded_v2_suite2_active := shielded_v2_suite2_active_with c height log;
  tx_timestamp_active := tx_timestamp_active_with c height log;
  chain_domain := chain_domain_ c |}.
Definition context_of c b (sha_target : Target.t) (log : gmap N N) : BlockContext :=
  block_context c (block_height b) (h_prev_hash (header b)) (proposer (header b)) (timestamp_ms (header b))
    sha_target log.

(** [None] when execution panics. *)
Definition execute_block_on c (l : Ledger) b (sha_target : Target.t) (log : gmap N N) :
    option (Ledger * result ChainError (list Receipt)) :=
  let ctx := context_of c b sha_target log in
  match apply_coinbase l ctx with
  | (l, Err (Throw e)) => Some (l, Err (ExecutionFailed (CoinbaseError e)))
  | (_, Err Panic) => None
  | (l, Ok _) =>
      match apply_transactions l (transactions b) ctx with
      | (l, Err (i, Throw e)) => Some (l, Err (ExecutionFailed (InvalidTransaction i e)))
      | (_, Err (_, Panic)) => None
      | (l, Ok receipts) => Some (l, Ok receipts)
      end
  end.

Definition roots_match (l : Ledger) (receipts : list Receipt) b : result ChainError unit :=
  if negb (bool_decide (state_root l = h_state_root (header b))) then Err StateRootMismatch
  else if negb (bool_decide (receipts_root_ receipts = Some (h_receipts_root (header b)))) then
    Err ReceiptsRootMismatch
  else Ok ().
Definition try_connect_block c (l : Ledger) b (sha_target : Target.t) (pre : TransitionPre) :
    option (Ledger * result ChainError (list Receipt)) :=
  '(l, r) ← execute_block_on c l b sha_target (signals_ c);
  Some (l,
    receipts ← r;
    _ ← roots_match l receipts b;
    _ ← map_err InvariantBroken (check_transition_pre pre l);
    _ ← map_err InvariantBroken (check_ledger l (policy_with c sha_target));
    Ok receipts).

Definition remember_undo c (height : N) (hash : Hash) (log : list UndoOp) : Blockchain :=
  let ring := undo_ring c ++ [(height, hash, log)] in
  {| c with undo_ring := drop (length ring - REORG_UNDO_WINDOW) ring |}.

Definition connect_to_active c b (sha_target : Target.t) :
    option (Blockchain * result ChainError (list Receipt)) :=
  match capture (ledger_ c) with
  | Err v => Some (c, Err (InvariantBroken v))
  | Ok pre =>
      '(l, r) ← try_connect_block c (begin_undo (ledger_ c)) b sha_target pre;
      let '(log, l) := take_undo l in
      match r with
      | Ok receipts =>
          let c := {| c with ledger_ := l;
                     signals_ := (SignalLogOps.record (signals_ c) (block_height b) (version_bits (header b))).1;
                     blocks := blocks c ++ [b] |} in
          Some (remember_undo c (block_height b) (block_hash b) log, Ok receipts)
      | Err e => Some ({| c with ledger_ := apply_undo l log |}, Err e)
      end
  end.

Definition index_block_receipts c (height : N) (receipts : list Receipt) : Blockchain :=
  match receipts with
  | [] => c
  | _ =>
      {| c with tx_height := foldl (λ m r, <[r_tx_id r := height]> m) (tx_height c) receipts;
                active_receipts := <[height := receipts]> (active_receipts c) |}
  end.
Definition rebuild_receipt_index c (branch : list (N * list Receipt)) : Blockchain :=
  foldl (λ c p, index_block_receipts c p.1 p.2) {| c with active_receipts := ∅; tx_height := ∅ |} branch.
Definition insert_entry c b (cand : Candidate) : Blockchain :=
  {| c with index_ := <[block_hash b := mkEntry b (cd_sha_target cand) (cd_new_work cand) (cd_height cand)
                                          (serialized_size b)]> (index_ c) |}.

(** ** Reorganisation *)

(** Above the fork, oldest first and ending with the tip.  [None] for a missing
    parent link; the fuel is the number of indexed blocks. *)
Fixpoint locate_loop (fuel : nat) c (hash : Hash) (new_blocks : list Block) : option (N * list Block) :=
  match fuel with
  | O => None
  | S fuel =>
      e ← index_ c !! hash;
      if is_active_at c (e_height e) hash then Some (e_height e, new_blocks)
      else locate_loop fuel c (h_prev_hash (header (e_block e))) (e_block e :: new_blocks)
  end.
Definition locate_fork c (tip : Block) : option (N * list Block) :=
  locate_loop (S (size (index_ c))) c (h_prev_hash (header tip)) [tip].

Definition drop_receipts c (height : N) : Blockchain :=
  match active_receipts c !! height with
  | None => c
  | Some rs =>
      {| c with active_receipts := delete height (active_receipts c);
                tx_height := foldl (λ m r, delete (r_tx_id r) m) (tx_height c) rs |}
  end.
(** One turn of [disconnect_to]: the last undo log and the last active block. *)
Definition disconnect_one c : option (Blockchain * Block) :=
  '(rh, _, log) ← last (undo_ring c);
  b ← last (blocks c);
  let c := {| c with undo_ring := take (length (undo_ring c) - 1) (undo_ring c);
                     blocks := take (length (blocks c) - 1) (blocks c);
                     ledger_ := apply_undo (ledger_ c) log;
                     signals_ := (SignalLogOps.remove (signals_ c) (block_height b)).1 |} in
  Some (drop_receipts c rh, b).
(** The blocks come back newest first; every turn takes one block. *)
Fixpoint disconnect_loop (fuel : nat) c (target_height : N) (disconnected : list Block) :
    option (Blockchain * list Block) :=
  top ← height_ c;
  if target_height <? top then
    match fuel with
    | O => None
    | S fuel =>
        '(c, b) ← disconnect_one c;
        disconnect_loop fuel c target_height (disconnected ++ [b])
    end
  else Some (c, disconnected).
Definition disconnect_to c (target_height : N) : option (Blockchain * list Block) :=
  '(c, disconnected) ← disconnect_loop (length (blocks c)) c target_height [];
  head ← head_block c;
  Some ({| c with head_ := block_hash head |}, disconnected).

Fixpoint reconnect_loop c (oldest_first : list Block) : option Blockchain :=
  match oldest_first with
  | [] => Some c
  | b :: bs =>
      e ← index_ c !! block_hash b;
      '(c, r) ← connect_to_active c b (e_sha_target e);
      match r with
      | Err _ => None
      | Ok receipts => reconnect_loop (index_block_receipts c (block_height b) receipts) bs
      end
  end.
Definition reconnect c (newest_first : list Block) : option Blockchain :=
  c ← reconnect_loop c (reverse newest_first);
  head ← head_block c;
  Some {| c with head_ := block_hash head |}.

(** How the connecting loop of a branch ends. *)
Inductive Connected :=
| CnDone (receipts : list Receipt)
| CnUnindexed
| CnInvalid (e : ChainError).
(** The loop over the new branch; [record] says whether receipts are indexed. *)
Fixpoint connect_branch c (record : bool) (cand : Candidate) (new_blocks : list Block) :
    option (Blockchain * Connected) :=
  match new_blocks with
  | [] => Some (c, CnDone [])
  | b :: bs =>
      match (match bs with [] => Some (cd_sha_target cand) | _ => e_sha_target <$> index_ c !! block_hash b end) with
      | None => Some (c, CnUnindexed)
      | Some target =>
          '(c, r) ← connect_to_active c b target;
          match r with
          | Err e => Some (c, CnInvalid e)
          | Ok receipts =>
              let c := if record then index_block_receipts c (block_height b) receipts else c in
              match bs with
              | [] => Some (c, CnDone receipts)
              | _ => connect_branch c record cand bs
              end
          end
      end
  end.
(** [disconnect_to(fork_height); reconnect(old)]. *)
Definition roll_back c (fork_height : N) (old : list Block) : option Blockchain :=
  '(c, _) ← disconnect_to c fork_height; reconnect c old.

(** The inner [None] defers to the replay from genesis. *)
Definition try_incremental_reorg c (tip : Block) (cand : Candidate) :
    option (Blockchain * option (result ChainError Imported)) :=
  match locate_fork c tip with
  | None => Some (c, None)
  | Some (fork_height, new_blocks) =>
      top ← height_ c;
      let depth := saturating_sub top fork_height in
      if (depth =? 0) || (N.of_nat (length (undo_ring c)) <? depth) then Some (c, None)
      else
        '(c, old) ← disconnect_to c fork_height;
        '(c, outcome) ← connect_branch c true cand new_blocks;
        match outcome with
        | CnUnindexed => c ← roll_back c fork_height old; Some (c, None)
        | CnInvalid e =>
            c ← roll_back c fork_height old;
            c ← sync_active_difficulty c;
            Some (c, Some (Err e))
        | CnDone tip_receipts =>
            let c := insert_entry c tip cand in
            c ← sync_active_difficulty {| c with head_ := block_hash tip |};
            let new_tx_ids := tx_id <$> (new_blocks ≫= transactions) in
            let reverted := filter (λ t, tx_id t ∉ new_tx_ids) (old ≫= transactions) in
            Some (c, Some (Ok (mkImported tip_receipts reverted)))
        end
  end.
Definition try_incremental_side_branch c b (cand : Candidate) :
    option (Blockchain * option (result ChainError unit)) :=
  match locate_fork c b with
  | None => Some (c, None)
  | Some (fork_height, new_blocks) =>
      top ← height_ c;
      let depth := saturating_sub top fork_height in
      if (depth =? 0) || (N.of_nat (length (undo_ring c)) <? depth) then Some (c, None)
      else
        '(c, old) ← disconnect_to c fork_height;
        '(c, outcome) ← connect_branch c false cand new_blocks;
        c ← roll_back c fork_height old;
        c ← sync_active_difficulty c;
        Some (c, match outcome with
                 | CnUnindexed => None
                 | CnInvalid e => Some (Err e)
                 | CnDone _ => Some (Ok ())
                 end)
  end.

(** ** Replay from genesis *)

Record Rebuilt := mkRebuilt {
  rb_ledger : Ledger; rb_blocks : list Block; rb_signals : gmap N N; rb_tip_receipts : list Receipt;
  rb_receipts : list (N * list Receipt) }.

(** The ancestors of the tip above genesis, oldest first. *)
Fixpoint ancestors_loop (fuel : nat) c (cursor : Hash) (acc : list Block) :
    option (result ChainError (list Block)) :=
  if bool_decide (cursor = genesis_hash c) then Some (Ok acc)
  else
    match fuel with
    | O => None
    | S fuel =>
        match index_ c !! cursor with
        | None => Some (Err PrevHashMismatch)
        | Some e => ancestors_loop fuel c (h_prev_hash (header (e_block e))) (e_block e :: acc)
        end
    end.
(** One replayed block: executed, roots compared, invariants checked. *)
Definition replay_block c (l : Ledger) b (sha_target : Target.t) (log : gmap N N) :
    option (result ChainError (Ledger * list Receipt)) :=
  '(l', r) ← execute_block_on c l b sha_target log;
  Some (
    receipts ← r;
    _ ← roots_match l' receipts b;
    _ ← map_err InvariantBroken (check_transition l l');
    _ ← map_err InvariantBroken (check_ledger l' (policy_with c sha_target));
    Ok (l', receipts)).
Definition replay_step c (rb : Rebuilt) b (sha_target : Target.t) : option (result ChainError Rebuilt) :=
  r ← replay_block c (rb_ledger rb) b sha_target (rb_signals rb);
  Some (
    '(l, receipts) ← r;
    Ok (mkRebuilt l (rb_blocks rb ++ [b])
          (SignalLogOps.record (rb_signals rb) (block_height b) (version_bits (header b))).1 receipts
          (rb_receipts rb ++ [(block_height b, receipts)]))).
Fixpoint replay_loop c (rb : Rebuilt) (ancestors : list Block) : option (result ChainError Rebuilt) :=
  match ancestors with
  | [] => Some (Ok rb)
  | b :: bs =>
      e ← index_ c !! block_hash b;
      r ← replay_step c rb b (e_sha_target e);
      match r with
      | Err e => Some (Err e)
      | Ok rb => replay_loop c rb bs
      end
  end.
Definition rebuild_branch c (tip : Block) (cand : Candidate) : option (result ChainError Rebuilt) :=
  r ← ancestors_loop (S (size (index_ c))) c (h_prev_hash (header tip)) [];
  match r with
  | Err e => Some (Err e)
  | Ok ancestors =>
      genesis ← blocks c !! 0%nat;
      r ← replay_loop c (mkRebuilt (genesis_ledger c) [genesis] ∅ [] []) ancestors;
      match r with
      | Err e => Some (Err e)
      | Ok rb => replay_step c rb tip (cd_sha_target cand)
      end
  end.

(** ** Import *)

Definition Hash_ltb (x y : Hash) : bool := negb (key_leb y x).
Definition import_block_tracked c b : option (Blockchain * result ChainError Imported) :=
  let hash := block_hash b in
  if bool_decide (is_Some (index_ c !! hash)) then Some (c, Ok Imported_empty)
  else
    v ← validate_candidate c b;
    match v with
    | Err e => Some (c, Err e)
    | Ok cand =>
        head_work ← chain_work c;
        if bool_decide (h_prev_hash (header b) = head_ c) then
          '(c, r) ← connect_to_active c b (cd_sha_target cand);
          match r with
          | Err e => Some (c, Err e)
          | Ok receipts =>
              let c := insert_entry c b cand in
              c ← sync_active_difficulty {| c with head_ := hash |};
              Some (index_block_receipts c (cd_height cand) receipts, Ok (mkImported receipts []))
          end
        else if (head_work <? cd_new_work cand)
                || ((cd_new_work cand =? head_work) && Hash_ltb hash (head_ c)) then
          '(c, incremental) ← try_incremental_reorg c b cand;
          match incremental with
          | Some r => Some (c, r)
          | None =>
              r ← rebuild_branch c b cand;
              match r with
              | Err e => Some (c, Err e)
              | Ok rb =>
                  let new_hashes := block_hash <$> rb_blocks rb in
                  let reverted := filter (λ b, block_hash b ∉ new_hashes) (blocks c) ≫= transactions in
                  let c := insert_entry c b cand in
                  c ← sync_active_difficulty
                        {| c with ledger_ := rb_ledger rb; blocks := rb_blocks rb;
                                  signals_ := rb_signals rb; head_ := hash |};
                  let c := rebuild_receipt_index c (rb_receipts rb) in
                  Some ({| c with undo_ring := [] |}, Ok (mkImported (rb_tip_receipts rb) reverted))
              end
          end
        else
          '(c, incremental) ← try_incremental_side_branch c b cand;
          match incremental with
          | Some (Err e) => Some (c, Err e)
          | Some (Ok _) => Some (insert_entry c b cand, Ok Imported_empty)
          | None =>
              r ← rebuild_branch c b cand;
              match r with
              | Err e => Some (c, Err e)
              | Ok _ => Some (insert_entry c b cand, Ok Imported_empty)
              end
          end
    end.
Definition import_block c b : option (Blockchain * result ChainError (list Receipt)) :=
  match import_block_tracked c b with
  | Some (c, r) => Some (c, im_receipts <$> r)
  | None => None
  end.
End chain.
End Chain.
