(* ===== verification/Produce.v ===== *)
(** * Producing blocks and booting from a log (crates/chain/src/blockchain.rs)

    The mining side of the chain (building a candidate, grinding and sealing it)
    and the ways a node rebuilds its chain from its own block log: heaviest-chain
    reconstruction, trusted and verified replay, resuming from a snapshot. *)

From S2P Require Import Prelude Primitives Pow Mining Governance Crypto Compliance Smt Types Block.
From S2P Require Import Gas Vault Ledger ShieldedV2 Execution Verify Chain.

Module Produce.
Import Chain.

Section produce.
Context `{CE : ChainEnv}.
Implicit Types (c : Blockchain) (b : Block).

Record MiningCandidate := mkMiningCandidate {
  mc_block : Block; mc_target : Target.t; mc_pow_algo : PowAlgo; mc_pow_key : Hash }.
Implicit Types (m : MiningCandidate).

(** ** Sealing *)

Definition with_nonce b (nonce : N) : Block :=
  mkBlock {| (header b) with h_nonce := nonce |} (transactions b).
Definition met m (seal_fn : PowAlgo → bytes → bytes → Hash) (h : BlockHeader) : bool :=
  Target.is_met_by (mc_target m) (as_bytes (seal_fn (mc_pow_algo m) (as_bytes (mc_pow_key m)) (pow_preimage h))).

(** [for nonce in start..start + count]. *)
Fixpoint grind m (seal_fn : PowAlgo → bytes → bytes → Hash) (nonce : N) (count : nat) : option Block :=
  match count with
  | O => None
  | S count =>
      let b := with_nonce (mc_block m) nonce in
      if met m seal_fn (header b) then Some b else grind m seal_fn (nonce + 1) count
  end.
Definition into_sealed_block m : result ChainError Block :=
  ok_or (grind m pow_seal 0 (N.to_nat MAX_MINING_ITERS)) PowNotFound.
(** The candidate keeps the last nonce tried. *)
Definition try_seal_batch m (start count : N) : option Block * MiningCandidate :=
  let stop := saturating_add u64_max start count in
  match grind m pow_seal_mining start (N.to_nat (stop - start)) with
  | Some b => (Some b, {| m with mc_block := b |})
  | None => (None, if start <? stop then {| m with mc_block := with_nonce (mc_block m) (stop - 1) |} else m)
  end.
Definition seal_with_nonce m (nonce : N) (ts : option N) : option Block :=
  let b := with_nonce (mc_block m) nonce in
  let b := match ts with
           | Some ts => mkBlock {| (header b) with timestamp_ms := ts |} (transactions b)
           | None => b
           end in
  if met m pow_seal (header b) then Some b else None.
Definition seal_from_header m (h : BlockHeader) : option Block :=
  if negb (bool_decide (tx_root h = tx_root (header (mc_block m)))) then None
  else if negb (met m pow_seal h) then None
  else Some (mkBlock h (transactions (mc_block m))).

(** ** Building a candidate *)

Record Selection := mkSelection {
  probe : Ledger; size_acc : N; weight_acc : N; included : list SignedTransaction;
  excluded : list (SignedTransaction * ExecutionError) }.

(** One transaction of the selection loop.  The probe keeps what a rejected
    transaction wrote, as behind the source's [&mut]; [None] is a panic. *)
Definition select_one (ctx : BlockContext) (tx_budget : N) (s : Selection) (stx : SignedTransaction) :
    option Selection :=
  let tx_size := serialized_size stx in
  if tx_budget <? saturating_add u64_max (size_acc s) tx_size then Some s
  else
    let tx_weight := saturating_add u64_max (verify_weight (action (transaction stx))) tx_size in
    if MAX_BLOCK_WEIGHT <? saturating_add u64_max (weight_acc s) tx_weight then Some s
    else
      match apply_transaction (probe s) stx ctx with
      | (l, Ok _) =>
          Some (mkSelection l (saturating_add u64_max (size_acc s) tx_size)
                  (saturating_add u64_max (weight_acc s) tx_weight) (included s ++ [stx]) (excluded s))
      | (l, Err (Throw e)) =>
          Some (mkSelection l (size_acc s) (weight_acc s) (included s) (excluded s ++ [(stx, e)]))
      | (_, Err Panic) => None
      end.
Definition select_txs (ctx : BlockContext) (tx_budget : N) (s : Selection) (txs : list SignedTransaction) :
    option Selection :=
  foldl (λ acc stx, s ← acc; select_one ctx tx_budget s stx) (Some s) txs.

Definition coinbase_on (l : Ledger) (ctx : BlockContext) : option (result ChainError Ledger) :=
  match apply_coinbase l ctx with
  | (l, Ok _) => Some (Ok l)
  | (_, Err (Throw e)) => Some (Err (ExecutionFailed (CoinbaseError e)))
  | (_, Err Panic) => None
  end.
(** The second pass, and the block around its roots. *)
Definition finish_candidate c (ctx : BlockContext) (sha_target : Target.t) (s : Selection) :
    option (result ChainError (MiningCandidate * list (SignedTransaction * ExecutionError))) :=
  r ← coinbase_on (ledger_ c) ctx;
  match r with
  | Err e => Some (Err e)
  | Ok scratch =>
      match apply_transactions scratch (included s) ctx with
      | (_, Err (i, Throw e)) => Some (Err (ExecutionFailed (InvalidTransaction i e)))
      | (_, Err (_, Panic)) => None
      | (scratch, Ok receipts) =>
          root ← receipts_root_ receipts;
          b ← assemble (height ctx) (prev_hash ctx) (state_root scratch) root (block_time_ms ctx) (miner ctx)
                (included s);
          let h := {| (header b) with version_bits := signal_mask c; bits := Target.to_compact sha_target |} in
          Some (Ok (mkMiningCandidate (mkBlock h (transactions b)) sha_target (pow_algo (mining_ c))
                      (genesis_hash c), excluded s))
      end
  end.
Definition build_candidate_for c (txs : list SignedTransaction) (ts : N) (proposer : AccountId) :
    option (result ChainError (MiningCandidate * list (SignedTransaction * ExecutionError))) :=
  top ← height_ c;
  let next_height := top + 1 in
  head ← index_ c !! head_ c;
  sha_target ← expected_target c head ts;
  size_limit ← block_size_limit c head;
  let tx_budget := saturating_sub size_limit BLOCK_HEADER_SIZE_RESERVE in
  prev ← block_hash <$> head_block c;
  let ctx := block_context c next_height prev proposer ts sha_target (signals_ c) in
  r ← coinbase_on (ledger_ c) ctx;
  match r with
  | Err e => Some (Err e)
  | Ok probe =>
      empty ← assemble next_height prev Hash_ZERO Hash_ZERO ts proposer [];
      s ← select_txs ctx tx_budget (mkSelection probe 0 (serialized_size empty) [] []) txs;
      finish_candidate c ctx sha_target s
  end.
Definition build_candidate c (txs : list SignedTransaction) (ts : N) :
    option (result ChainError (MiningCandidate * list (SignedTransaction * ExecutionError))) :=
  build_candidate_for c txs ts (default (default_coinbase c) (coinbase_account c)).
Definition produce_block c (txs : list SignedTransaction) (ts : N) : option (result ChainError Block) :=
  r ← build_candidate c txs ts;
  Some ('(m, _) ← r; into_sealed_block m).

(** ** Boot *)

(** The heaviest work first; a tie goes to the smaller hash. *)
Definition better (x y : Hash * N) : bool :=
  (y.2 <? x.2) || ((x.2 =? y.2) && Hash_ltb x.1 y.1).
Definition cumulate (genesis : Hash) (genesis_work : N) (cum : gmap Hash N) b : option (gmap Hash N) :=
  let parent := h_prev_hash (header b) in
  match (if bool_decide (parent = genesis) then Some genesis_work else cum !! parent) with
  | None => Some cum
  | Some pw =>
      match Target.from_compact (bits (header b)) with
      | None => Some cum
      | Some target =>
          target ← canonical_target target;
          Some (<[block_hash b := Work.saturating_add pw (Work.of_target target)]> cum)
      end
  end.
Fixpoint walk_back (fuel : nat) (by_hash : gmap Hash Block) (genesis cur : Hash) (acc : list Block) :
    Hash * list Block :=
  match fuel with
  | O => (cur, acc)
  | S fuel =>
      if bool_decide (cur = genesis) then (cur, acc)
      else
        match by_hash !! cur with
        | None => (cur, acc)
        | Some b => walk_back fuel by_hash genesis (h_prev_hash (header b)) (b :: acc)
        end
  end.
Definition height_le (x y : Block) : Prop := block_height x ≤ block_height y.
#[global] Instance height_le_dec : RelDecision height_le.
Proof. intros x y. unfold height_le. apply _. Defined.
Definition heaviest_chain c (log : list Block) : option (list Block) :=
  let by_hash : gmap Hash Block := foldl (λ (acc : gmap Hash Block) b, <[block_hash b := b]> acc) ∅ log in
  let genesis_work := from_option e_chain_work Work.zero (index_ c !! genesis_hash c) in
  cum ← foldl (λ acc b, cum ← acc; cumulate (genesis_hash c) genesis_work cum b) (Some ∅)
          (merge_sort height_le log);
  let best := foldl (λ best x, match best with
                               | None => Some x
                               | Some y => if better x y then Some x else best
                               end) None (map_to_list cum) in
  match best with
  | None => Some []
  | Some (tip, _) =>
      let '(cur, chain) := walk_back (S (length log)) by_hash (genesis_hash c) tip [] in
      Some (if negb (bool_decide (cur = genesis_hash c)) && (length log <? length chain)%nat then [] else chain)
  end.

Definition extend_trusted c b : option (Blockchain * result ChainError unit) :=
  if negb (bool_decide (h_prev_hash (header b) = head_ c)) then Some (c, Err PrevHashMismatch)
  else
    match Target.from_compact (bits (header b)) with
    | None => Some (c, Err (BadDifficultyBits (bits (header b)) (bits (header b))))
    | Some target =>
        sha_target ← canonical_target target;
        parent_work ← chain_work c;
        let new_work := Work.saturating_add parent_work (Work.of_target sha_target) in
        '(l, r) ← execute_block_on c (ledger_ c) b sha_target (signals_ c);
        let c := {| c with ledger_ := l |} in
        match r with
        | Err e => Some (c, Err e)
        | Ok receipts =>
            let c := {| c with
              signals_ := (SignalLogOps.record (signals_ c) (block_height b) (version_bits (header b))).1;
              blocks := blocks c ++ [b]; head_ := block_hash b |} in
            let c := index_block_receipts c (block_height b) receipts in
            c ← sync_active_difficulty (insert_entry c b (mkCandidate sha_target new_work (block_height b)));
            Some (c, Ok ())
        end
    end.
Definition replayed_state_matches_head c : option bool :=
  b ← head_block c; Some (bool_decide (state_root (ledger_ c) = h_state_root (header b))).

(** Import or extend block by block, up to the first error. *)
Fixpoint each_block {A} (f : Blockchain → Block → option (Blockchain * result ChainError A)) c (bs : list Block) :
    option (Blockchain * result ChainError unit) :=
  match bs with
  | [] => Some (c, Ok ())
  | b :: bs =>
      match f c b with
      | None => None
      | Some (c, Err e) => Some (c, Err e)
      | Some (c, Ok _) => each_block f c bs
      end
  end.
Definition replay_log_trusted c (log : list Block) : option (Blockchain * result ChainError bool) :=
  match log with
  | [] => Some (c, Ok true)
  | _ =>
      chain ← heaviest_chain c log;
      match each_block extend_trusted c chain with
      | None => None
      | Some (c, Err e) => Some (c, Err e)
      | Some (c, Ok _) => ok ← replayed_state_matches_head c; Some (c, Ok ok)
      end
  end.
Definition replay_log_verified c (log : list Block) : option (Blockchain * result ChainError unit) :=
  chain ← heaviest_chain c log; each_block import_block c chain.

(** The header-only prefix of [resume_from_snapshot]; [false] gives up. *)
Fixpoint resume_prefix c (bs : list Block) : option (Blockchain * bool) :=
  match bs with
  | [] => Some (c, true)
  | b :: bs =>
      if negb (bool_decide (h_prev_hash (header b) = head_ c)) then Some (c, false)
      else
        match Target.from_compact (bits (header b)) with
        | None => Some (c, false)
        | Some target =>
            target ← canonical_target target;
            parent_work ← chain_work c;
            let cand := mkCandidate target (Work.saturating_add parent_work (Work.of_target target))
                          (block_height b) in
            let c := {| c with
              signals_ := (SignalLogOps.record (signals_ c) (block_height b) (version_bits (header b))).1;
              blocks := blocks c ++ [b]; head_ := block_hash b |} in
            resume_prefix (insert_entry c b cand) bs
        end
  end.
Definition resume_from_snapshot c (l : Ledger) (receipts : list (N * list Receipt)) (snapshot_head : Hash)
    (snapshot_height : N) (log : list Block) : option (Blockchain * result ChainError bool) :=
  top ← height_ c;
  if negb (top =? 0) then Some (c, Ok false)
  else
    chain ← heaviest_chain c log;
    if (snapshot_height =? 0) || (N.of_nat (length chain) <? snapshot_height) then Some (c, Ok false)
    else
      let n := N.to_nat snapshot_height in
      at_ ← chain !! (n - 1)%nat;
      if negb (bool_decide (block_hash at_ = snapshot_head)) || negb (block_height at_ =? snapshot_height)
      then Some (c, Ok false)
      else
        '(c, linked) ← resume_prefix c (take n chain);
        if negb linked then Some (c, Ok false)
        else
          c ← sync_active_difficulty (rebuild_receipt_index {| c with ledger_ := l |} receipts);
          verified ← replayed_state_matches_head c;
          if negb verified then Some (c, Ok false)
          else
            match each_block extend_trusted c (drop n chain) with
            | None => None
            | Some (c, Err e) => Some (c, Err e)
            | Some (c, Ok _) => ok ← replayed_state_matches_head c; Some (c, Ok ok)
            end.
End produce.
End Produce.
