(* ===== verification/ChainReplay.v ===== *)
(** * The active chain is a replay from genesis (crates/chain/src/blockchain.rs)

    A node never stores a state per block: it executes forward, keeps undo logs
    for the last blocks and, when fork choice demands it, takes blocks back and
    connects others.  The reference is the replay: [replayed] says which store,
    signal history and undo ring a list of blocks has when it is executed from
    genesis.  The primitives (connect, disconnect, reconnect, rebuild) are proved
    against it here; [ChainInv] composes them. *)

From S2P Require Import Prelude Primitives Pow Mining Governance Crypto Compliance Smt Types Block.
From S2P Require Import Gas Vault Ledger ShieldedV2 Execution LedgerUndo LedgerEquiv ExecSteps ExecStore.
From S2P Require Import Verify Chain.

Module ChainReplay.
Import Chain.

Section replay.
Context `{CE : ChainEnv} `{UP : !UntornPools}.
Implicit Types (c : Blockchain) (b : Block) (l : Ledger) (idx : gmap Hash BlockIndexEntry).

(** What execution depends on besides the block: fixed once the chain runs. *)
Definition rules c :=
  (chain_id_ c, mining_ c, genesis_ledger c, genesis_hash c,
   (pq_deployment c, tx_domain_deployment c, tx_domain_grace_blocks c, fee_auction_deployment c,
    shielded_v2_deployment c, shielded_v2_suite2_deployment c, shielded_v2_suite2_recovery_deployment c,
    tx_timestamp_deployment c)).

Lemma context_rules c c' b t log : rules c = rules c' → context_of c b t log = context_of c' b t log.
Proof.
  unfold rules. intros [= H1 H2 H3 H4 H5 H6 H7 H8 H9 H10 H11 H12].
  unfold context_of, block_context, policy_with, resolved_pq_with, resolved_tx_domain_mode_with,
    tx_domain_activation_with, fee_auction_active_with, shielded_v2_suite2_active_with,
    shielded_v2_active_with, tx_timestamp_active_with, chain_domain_.
  by rewrite H1, H2, H4, H5, H6, H7, H8, H9, H10, H11, H12.
Qed.
Lemma execute_rules c c' l b t log : rules c = rules c' →
  execute_block_on c l b t log = execute_block_on c' l b t log.
Proof. intros E. unfold execute_block_on. by rewrite (context_rules c c'). Qed.

(** Executing a block, up to what the ledger does not show. *)
Lemma execute_equiv c l1 l2 b t log : l1 ≡ l2 →
  match execute_block_on c l1 b t log, execute_block_on c l2 b t log with
  | Some x, Some y => same_outcome x y
  | None, None => True
  | _, _ => False
  end.
Proof.
  intros E. unfold execute_block_on. destruct (apply_coinbase_equiv l1 l2 (context_of c b t log) E) as [El Er].
  destruct (apply_coinbase l1 _) as [m1 r1], (apply_coinbase l2 _) as [m2 r2]. simpl in El, Er. subst r2.
  destruct r1 as [a|[e|]]; [|by split|done]. unfold apply_transactions.
  destruct (apply_from_equiv (transactions b) (context_of c b t log) 0 m1 m2 El) as [El' Er'].
  destruct (apply_from 0 m1 _ _) as [n1 q1], (apply_from 0 m2 _ _) as [n2 q2]. simpl in El', Er'. subst q2.
  by destruct q1 as [rs|[i [e|]]].
Qed.

(** The checks read the store only. *)
Lemma check_transition_store l1 l2 : check_transition (bare (st l1)) (bare (st l2)) = check_transition l1 l2.
Proof.
  assert (∀ es, check_token_steps (bare (st l2)) es = check_token_steps l2 es) as H.
  { induction es as [|e es IH]; [done|]. cbn [check_token_steps]. rewrite IH.
    by change (check_token_step (bare (st l2)) e) with (check_token_step l2 e). }
  unfold check_transition. change (capture (bare (st l1))) with (capture l1).
  destruct (capture l1) as [pre|]; [|done]. cbv [mbind result_bind]. unfold check_transition_pre.
  change (total_supply (bare (st l2))) with (total_supply l2). by rewrite H.
Qed.

(** The block takes store [s] to [s'] with these receipts, and passes what a node
    checks of it: the receipts root and the invariants. *)
Definition block_step c (s : Store) b (t : Target.t) (log : gmap N N) (s' : Store) (rs : list Receipt) : Prop :=
  (∃ l', execute_block_on c (bare s) b t log = Some (l', Ok rs) ∧ st l' = s') ∧
  receipts_root_ rs = Some (h_receipts_root (header b)) ∧
  check_transition (bare s) (bare s') = Ok () ∧ check_ledger (bare s') (policy_with c t) = Ok ().
Lemma block_step_of c l b t log l' rs :
  execute_block_on c l b t log = Some (l', Ok rs) → roots_match l' rs b = Ok () →
  check_transition l l' = Ok () → check_ledger l' (policy_with c t) = Ok () →
  block_step c (st l) b t log (st l') rs.
Proof.
  intros E Hr Ht Hl. split; [|split; [|split; [by rewrite check_transition_store|exact Hl]]].
  - pose proof (execute_equiv c l (bare (st l)) b t log eq_refl) as Hx. rewrite E in Hx.
    destruct (execute_block_on c (bare (st l)) b t log) as [[l2 r2]|] eqn:E2; [|done].
    destruct Hx as [El Er]. simpl in El, Er. subst r2. by exists l2.
  - unfold roots_match in Hr. destruct (negb (bool_decide (state_root _ = _))); [done|].
    destruct (bool_decide (receipts_root_ rs = _)) eqn:Er; [|done]. by apply bool_decide_eq_true in Er.
Qed.
Lemma block_step_rules c c' s b t log s' rs : rules c = rules c' →
  block_step c s b t log s' rs → block_step c' s b t log s' rs.
Proof.
  intros E ((l' & Hx & Hs) & Hr & Ht & Hl). split_and!; try done.
  - exists l'. by rewrite <- (execute_rules c c').
  - unfold policy_with in *. unfold rules in E. injection E as _ E2 _ _ _ _ _ _ _ _ _ _. by rewrite <- E2.
Qed.
Lemma block_step_det c s b t log s1 rs1 s2 rs2 :
  block_step c s b t log s1 rs1 → block_step c s b t log s2 rs2 → s1 = s2 ∧ rs1 = rs2.
Proof. intros [(l1 & E1 & <-) _] [(l2 & E2 & <-) _]. rewrite E1 in E2. by simplify_eq. Qed.

(** Execution is a run of mutators, so it keeps the store canonical and its
    journal takes it back. *)
Lemma execute_mutates c l b t log l' r :
  execute_block_on c l b t log = Some (l', r) → rtc mutates l l'.
Proof.
  unfold execute_block_on, apply_transactions. intros E.
  pose proof (apply_coinbase_mutates l (context_of c b t log)) as H1.
  destruct (apply_coinbase l _) as [m1 [a|[e|]]]; simplify_eq; [|done]. simpl in H1.
  pose proof (steps_mutates _ _ (apply_from_steps 0 m1 (transactions b) (context_of c b t log))) as H2.
  destruct (apply_from 0 m1 _ _) as [m2 [rs|[i [e|]]]]; simplify_eq; by etrans.
Qed.
(** [undo] takes store [s'] back to [s]. *)
Definition undoes (ops : list UndoOp) (s' s : Store) : Prop := foldl undo_st s' (reverse ops) = s.

(** ** The replay of a list of blocks *)

Abbreviation Ring := (list (N * Hash * list UndoOp)).

(** The index holds [b] under its hash. *)
Definition indexed idx b : Prop := ∃ e, idx !! block_hash b = Some e ∧ e_block e = b.

(** The replay of [blocks], with targets from the index [idx]: the store, the
    signal history and the receipts it ends with, and an undo ring that covers
    some of its last blocks. *)
Inductive replayed c idx : list Block → Store → gmap N N → list (N * list Receipt) → Ring → Prop :=
| replayed_genesis g :
    block_hash g = genesis_hash c → block_height g = 0 → canonical (st (genesis_ledger c)) →
    indexed idx g →
    replayed c idx [g] (st (genesis_ledger c)) ∅ [] []
| replayed_block bs p b e s log rss ring s' rs ring' :
    replayed c idx (bs ++ [p]) s log rss ring →
    idx !! block_hash b = Some e → e_block e = b →
    h_prev_hash (header b) = block_hash p → block_height b = block_height p + 1 →
    block_step c s b (e_sha_target e) log s' rs → canonical s' →
    (ring' = [] ∨ ∃ k ops, ring' = drop k ring ++ [(block_height b, block_hash b, ops)] ∧ undoes ops s' s) →
    replayed c idx ((bs ++ [p]) ++ [b]) s' (<[block_height b := version_bits (header b)]> log)
      (rss ++ [(block_height b, rs)]) ring'.

Lemma replayed_rules c c' idx bs s log rss ring : rules c = rules c' →
  replayed c idx bs s log rss ring → replayed c' idx bs s log rss ring.
Proof.
  intros E. induction 1 as [g Hg H0 Hc Hi|]; [|econstructor; eauto using block_step_rules].
  pose proof E as E'. unfold rules in E'. injection E' as _ _ E3 E4 _ _ _ _ _ _ _ _.
  rewrite E3. rewrite E3 in Hc. constructor; congruence.
Qed.
Lemma replayed_index c idx idx' bs s log rss ring :
  (∀ b e, b ∈ bs → idx !! block_hash b = Some e → idx' !! block_hash b = Some e) →
  replayed c idx bs s log rss ring → replayed c idx' bs s log rss ring.
Proof.
  intros Hi H. induction H as [g Hg H0 Hc [e [He Hb]]|bs p b e s log rss ring s' rs ring' Hr IH He].
  - constructor; try done. exists e. split; [|done]. apply Hi; [left|done].
  - econstructor; eauto.
    + apply IH. intros b' e' Hb'. apply Hi. by apply elem_of_app; left.
    + apply Hi; [|done]. apply elem_of_app; right; left.
Qed.
Lemma replayed_drop c idx bs s log rss ring k :
  replayed c idx bs s log rss ring → replayed c idx bs s log rss (drop k ring).
Proof.
  intros H. destruct H as [g Hg H0 Hc Hi|bs p b e s log rss ring s' rs ring' Hr He Hb Hp Hh Hs Hc Hring].
  - rewrite drop_nil. by constructor.
  - econstructor; eauto. destruct Hring as [->|(k' & ops & -> & Hu)]; [left; apply drop_nil|].
    destruct (decide (k ≤ length (drop k' ring))%nat) as [Hk|Hk].
    + right. exists (k' + k)%nat, ops. rewrite drop_app_le by done. by rewrite drop_drop.
    + left. apply drop_ge. rewrite length_app. simpl. lia.
Qed.
Lemma replayed_head c idx bs s log rss ring : replayed c idx bs s log rss ring →
  ∃ g, bs !! 0%nat = Some g ∧ block_hash g = genesis_hash c.
Proof.
  induction 1 as [g|bs p b e s log rss ring s' rs ring' Hr IH]; [by exists g|].
  destruct IH as (g & Hl & Hg). exists g. split; [|done]. by apply lookup_app_l_Some.
Qed.
Lemma replayed_heights c idx bs s log rss ring : replayed c idx bs s log rss ring →
  ∀ i b, bs !! i = Some b → block_height b = N.of_nat i ∧ indexed idx b.
Proof.
  induction 1 as [g ? H0 ? Hi|bs p b e s log rss ring s' rs ring' Hr IH He Hb Hp Hh]; intros i b' Hl.
  - destruct i; simplify_eq/=. by rewrite H0.
  - rewrite lookup_app in Hl. destruct ((bs ++ [p]) !! i) eqn:El; simplify_eq; [by apply IH|].
    apply list_lookup_singleton_Some in Hl as [Hi <-]. apply lookup_ge_None in El.
    destruct (IH (length bs) p) as [Hhp _]; [by apply list_lookup_middle|].
    rewrite length_app in Hi, El. simpl in Hi, El. split; [lia|by exists e].
Qed.
Lemma replayed_log c idx bs s log rss ring : replayed c idx bs s log rss ring →
  ∀ h, N.of_nat (length bs) ≤ h → log !! h = None.
Proof.
  induction 1 as [g|bs p b e s log rss ring s' rs ring' Hr IH He Hb Hp Hh]; intros h Hlen; [apply lookup_empty|].
  destruct (replayed_heights _ _ _ _ _ _ _ Hr (length bs) p) as [Hhp _]; [by apply list_lookup_middle|].
  rewrite !length_app in *. simpl in *. rewrite lookup_insert_ne by lia. apply IH. lia.
Qed.
Lemma replayed_canonical c idx bs s log rss ring : replayed c idx bs s log rss ring → canonical s.
Proof. by destruct 1. Qed.

(** The last block of a replay. *)
Lemma replayed_inv c idx bs p b s' log' rss' ring' :
  replayed c idx ((bs ++ [p]) ++ [b]) s' log' rss' ring' →
  ∃ e s log rss ring rs, replayed c idx (bs ++ [p]) s log rss ring ∧
    idx !! block_hash b = Some e ∧ e_block e = b ∧
    h_prev_hash (header b) = block_hash p ∧ block_height b = block_height p + 1 ∧
    block_step c s b (e_sha_target e) log s' rs ∧
    log' = <[block_height b := version_bits (header b)]> log ∧ rss' = rss ++ [(block_height b, rs)] ∧
    (ring' = [] ∨ ∃ k ops, ring' = drop k ring ++ [(block_height b, block_hash b, ops)] ∧ undoes ops s' s).
Proof.
  intros H. remember ((bs ++ [p]) ++ [b]) as all eqn:E. destruct H as [g|].
  - apply (f_equal length) in E. rewrite !length_app in E. simpl in E. lia.
  - apply app_inj_tail in E as [E ->]. apply app_inj_tail in E as [-> ->]. eauto 20.
Qed.
Lemma replayed_length c idx bs s log rss ring : replayed c idx bs s log rss ring →
  length bs = S (length rss) ∧ (length ring ≤ length rss)%nat.
Proof.
  induction 1 as [g|bs p b e s log rss ring s' rs ring' Hr IH He Hb Hp Hh Hs Hc Hring]; [done|].
  rewrite !length_app in *. simpl in *. split; [lia|].
  destruct Hring as [->|(k & ops & -> & _)]; simpl; [lia|]. rewrite length_app, length_drop. simpl. lia.
Qed.
Lemma replayed_nonempty c idx bs s log rss ring : replayed c idx bs s log rss ring → ∃ bs' p, bs = bs' ++ [p].
Proof. destruct 1 as [g|bs p b]; [by exists [], g|by eexists _, b]. Qed.

(** A replay is a function of the blocks. *)
Lemma replayed_det c idx bs s1 log1 rss1 ring1 :
  replayed c idx bs s1 log1 rss1 ring1 → ∀ s2 log2 rss2 ring2,
  replayed c idx bs s2 log2 rss2 ring2 → s1 = s2 ∧ log1 = log2 ∧ rss1 = rss2.
Proof.
  induction 1 as [g|bs p b e s log rss ring s' rs ring' Hr IH He Hb Hp Hh Hs]; intros s2 log2 rss2 ring2 HR.
  - remember [g] as all eqn:E. destruct HR as [|bs p b]; [done|].
    apply (f_equal length) in E. rewrite !length_app in E. simpl in E. lia.
  - apply replayed_inv in HR as (e' & s0 & log0 & rss0 & ring0 & rs0 & Hr' & He' & _ & _ & _ & Hs' & -> & -> & _).
    destruct (IH _ _ _ _ Hr') as (<- & <- & <-). rewrite He in He'. simplify_eq.
    destruct (block_step_det _ _ _ _ _ _ _ _ _ Hs Hs') as [<- <-]. done.
Qed.

(** The store [s] taken back through the undo logs [es], the newest first. *)
Definition unwind (s : Store) (es : Ring) : Store := foldl (λ s e, foldl undo_st s (reverse e.2)) s es.
(** What the ring covers can be taken back: its newest [m] logs lead to the replay
    without the last [m] blocks. *)
Lemma replayed_unwinds c idx bs s log rss ring : replayed c idx bs s log rss ring →
  ∀ m, (m ≤ length ring)%nat → ∃ log' rss' ring',
    replayed c idx (take (length bs - m) bs) (unwind s (take m (reverse ring))) log' rss' ring'.
Proof.
  induction 1 as [g Hg H0 Hc Hi|bs p b e s log rss ring s' rs ring' Hr IH He Hb Hp Hh Hs Hc Hring]; intros m Hm.
  - destruct m; [|simpl in Hm; lia]. exists ∅, [], []. by constructor.
  - destruct m as [|m].
    { rewrite Nat.sub_0_r, firstn_all. do 3 eexists. econstructor; eauto. }
    destruct Hring as [->|(k & ops & -> & Hu)]; [simpl in Hm; lia|].
    rewrite length_app, length_drop in Hm. simpl in Hm. destruct (IH m) as (log' & rss' & ring' & IH'); [lia|].
    exists log', rss', ring'. rewrite reverse_app, reverse_singleton. cbn [app take]. unfold unwind in *. cbn [foldl snd]. unfold undoes in Hu. rewrite Hu.
    replace (take m (reverse (drop k ring))) with (take m (reverse ring)).
    2: { rewrite <- (take_drop k ring) at 1. rewrite reverse_app. apply take_app_le. rewrite length_reverse, length_drop. lia. }
    rewrite length_app. cbn [length]. rewrite take_app_le by lia.
    by replace (length (bs ++ [p]) + 1 - S m)%nat with (length (bs ++ [p]) - m)%nat by lia.
Qed.
Lemma replayed_ring_labels c idx bs s log rss ring : replayed c idx bs s log rss ring →
  ring.*1 = drop (length bs - length ring) ((λ b, (block_height b, block_hash b)) <$> bs).
Proof.
  induction 1 as [g|bs p b e s log rss ring s' rs ring' Hr IH He Hb Hp Hh Hs Hc Hring]; [done|].
  apply replayed_length in Hr as [Hl1 Hl2].
  destruct Hring as [->|(k & ops & -> & _)].
  { rewrite Nat.sub_0_r, drop_ge; [done|]. by rewrite length_fmap. }
  revert Hl1 IH. generalize (bs ++ [p]) as all. intros all Hl1 IH. rewrite fmap_app, (fmap_app _ all [b]), fmap_drop, IH, drop_drop.
  rewrite !length_app, length_drop. cbn [length fmap list_fmap fst].
  rewrite drop_app_le by (rewrite length_fmap; lia). f_equal.
  destruct (decide (k ≤ length ring)%nat) as [Hk|Hk]; [f_equal; lia|].
  rewrite !drop_ge; [done|..]; rewrite length_fmap; lia.
Qed.

(** ** Connecting a block *)

(** The live chain is at the replay of its blocks, with these receipts. *)
Definition live c idx (rss : list (N * list Receipt)) : Prop :=
  replayed c idx (blocks c) (st (ledger_ c)) (signals_ c) rss (undo_ring c) ∧ undo (ledger_ c) = None.

(** Everything no connection or disconnection touches. *)
Definition fixed c :=
  (rules c, index_ c, checkpoints c, linked_to_checkpoint c,
   (linkage_pending c, linkage_next_height c, linkage_prev c, signal_mask c, coinbase_account c,
    default_coinbase c)).
Lemma fixed_rules c c' : fixed c' = fixed c → rules c' = rules c ∧ index_ c' = index_ c.
Proof. intros E. split; [exact (f_equal (λ x, x.1.1.1.1) E)|exact (f_equal (λ x, x.1.1.1.2) E)]. Qed.
(** ... nor these, which only a head change or a receipt update touches. *)
Definition tracked c := (fixed c, head_ c, active_receipts c, tx_height c).

Lemma tracked_inv c c' : tracked c' = tracked c →
  fixed c' = fixed c ∧ head_ c' = head_ c ∧ active_receipts c' = active_receipts c ∧ tx_height c' = tx_height c.
Proof.
  intros E. split_and!.
  - exact (f_equal (λ x, x.1.1.1) E).
  - exact (f_equal (λ x, x.1.1.2) E).
  - exact (f_equal (λ x, x.1.2) E).
  - exact (f_equal snd E).
Qed.

Lemma try_connect_spec c l b t pre l' r :
  try_connect_block c l b t pre = Some (l', r) →
  rtc mutates l l' ∧
  match r with
  | Ok rs => execute_block_on c l b t (signals_ c) = Some (l', Ok rs) ∧ roots_match l' rs b = Ok () ∧
      check_transition_pre pre l' = Ok () ∧ check_ledger l' (policy_with c t) = Ok ()
  | Err _ => True
  end.
Proof.
  unfold try_connect_block. intros E.
  destruct (execute_block_on c l b t (signals_ c)) as [[m q]|] eqn:Ex; [|done].
  cbn [mbind option_bind] in E. injection E as <- <-. split; [by eapply execute_mutates|].
  destruct q as [rs|e]; [|done]. unfold mbind, result_bind.
  destruct (roots_match m rs b) as [[]|] eqn:Er; [|done].
  destruct (check_transition_pre pre m) as [[]|]; [|done].
  by destruct (check_ledger m (policy_with c t)) as [[]|].
Qed.

Lemma connect_spec c idx rss bs p b e c' r :
  live c idx rss → blocks c = bs ++ [p] → idx !! block_hash b = Some e → e_block e = b →
  h_prev_hash (header b) = block_hash p → block_height b = block_height p + 1 →
  connect_to_active c b (e_sha_target e) = Some (c', r) →
  tracked c' = tracked c ∧
  match r with
  | Ok rs => blocks c' = blocks c ++ [b] ∧ live c' idx (rss ++ [(block_height b, rs)]) ∧
      length (undo_ring c') = (S (length (undo_ring c)) `min` REORG_UNDO_WINDOW)%nat
  | Err _ => blocks c' = blocks c ∧ live c' idx rss ∧ undo_ring c' = undo_ring c ∧ st (ledger_ c') = st (ledger_ c) ∧
      signals_ c' = signals_ c
  end.
Proof.
  intros [Hr Hu] Hb He Heb Hp Hh E. unfold connect_to_active in E.
  destruct (capture (ledger_ c)) as [pre|v] eqn:Ec; [|by simplify_eq].
  destruct (try_connect_block c (begin_undo (ledger_ c)) b (e_sha_target e) pre) as [[l' q]|] eqn:Et; [|done].
  cbn [mbind option_bind] in E. apply try_connect_spec in Et as [Hm Hq].
  pose proof (run_undo _ _ (replayed_canonical _ _ _ _ _ _ _ Hr) Hm) as Hundo.
  unfold take_undo in *. set (ops := default [] (undo l')) in *. destruct Hundo as (Hcan & Hback & Hnone).
  destruct q as [rs|er]; simplify_eq; (split; [done|]).
  - destruct Hq as (Hx & Hroots & Htr & Hck). split; [done|]. split; [|simpl; rewrite length_drop, length_app; simpl; unfold REORG_UNDO_WINDOW; lia].
    split; [|done]. cbn [remember_undo blocks ledger_ signals_ undo_ring st]. rewrite Hb.
    apply (replayed_rules c); [done|]. eapply replayed_block; rewrite <- ?Hb; eauto.
    + apply (block_step_of c (begin_undo (ledger_ c)) (e_block e)) in Hx; [exact Hx|done| |done].
      unfold check_transition. by change (capture (begin_undo (ledger_ c))) with (capture (ledger_ c)); rewrite Ec.
    + right. eexists _, ops. split; [|].
      * rewrite drop_app_le; [done|]. rewrite length_app. simpl. unfold REORG_UNDO_WINDOW. lia.
      * unfold undoes. rewrite <- Hback. by rewrite (proj1 (apply_undo_st _ _)).
  - cbn [blocks ledger_ undo_ring signals_]. split_and!; try done. split; cbn [blocks ledger_ undo_ring signals_]; [|done].
    rewrite Hback. by apply (replayed_rules c).
Qed.

(** ** Receipts *)

(** The receipt index of a replay: the blocks that had transactions. *)
Definition recs (rss : list (N * list Receipt)) : gmap N (list Receipt) :=
  foldl (λ m x, match x.2 with [] => m | _ => <[x.1 := x.2]> m end) ∅ rss.
Lemma recs_snoc rss h rs : recs (rss ++ [(h, rs)]) = match rs with [] => recs rss | _ => <[h := rs]> (recs rss) end.
Proof. unfold recs. rewrite foldl_app. by destruct rs. Qed.
Lemma replayed_recs c idx bs s log rss ring : replayed c idx bs s log rss ring →
  ∀ h, N.of_nat (length bs) ≤ h → recs rss !! h = None.
Proof.
  induction 1 as [g|bs p b e s log rss ring s' rs ring' Hr IH He Hb Hp Hh]; intros h Hlen; [apply lookup_empty|].
  destruct (replayed_heights _ _ _ _ _ _ _ Hr (length bs) p) as [Hhp _]; [by apply list_lookup_middle|].
  rewrite !length_app in *. simpl in *. rewrite recs_snoc.
  assert (recs rss !! h = None) by (apply IH; lia). destruct rs; [done|]. by rewrite lookup_insert_ne by lia.
Qed.
Lemma recs_take_back c idx bs s log rss ring h rs : replayed c idx bs s log rss ring →
  N.of_nat (length bs) ≤ h → delete h (recs (rss ++ [(h, rs)])) = recs rss.
Proof.
  intros Hr Hh. rewrite recs_snoc. pose proof (replayed_recs _ _ _ _ _ _ _ Hr h Hh) as Hn.
  destruct rs; [by apply delete_id|]. by rewrite delete_insert_id.
Qed.

(** ** Disconnecting blocks *)

Lemma live_height c idx rss bs p : live c idx rss → blocks c = bs ++ [p] →
  height_ c = Some (N.of_nat (length bs)) ∧ block_height p = N.of_nat (length bs).
Proof.
  intros [Hr _] Hb. rewrite Hb in Hr.
  destruct (replayed_heights _ _ _ _ _ _ _ Hr (length bs) p) as [Hh _]; [by apply list_lookup_middle|].
  unfold height_, head_block. rewrite Hb, last_snoc. simpl. by rewrite Hh.
Qed.

Lemma disconnect_one_spec c idx rss bs p b :
  live c idx rss → blocks c = (bs ++ [p]) ++ [b] → undo_ring c ≠ [] →
  ∃ c' rss' rs, disconnect_one c = Some (c', b) ∧ rss = rss' ++ [(block_height b, rs)] ∧
    fixed c' = fixed c ∧ head_ c' = head_ c ∧ blocks c' = bs ++ [p] ∧ live c' idx rss' ∧
    length (undo_ring c') = pred (length (undo_ring c)) ∧
    active_receipts c' = delete (block_height b) (active_receipts c).
Proof.
  intros HL Hb Hne. pose proof HL as [Hr Hu]. rewrite Hb in Hr.
  destruct (live_height _ _ _ _ _ HL Hb) as [_ Hhb].
  apply replayed_inv in Hr as (e & s & log & rss' & ring & rs & Hr & He & _ & _ & Hh & Hs & Elog & -> & [E|Hring]); [done|].
  destruct Hring as (k & ops & Ering & Hops). unfold disconnect_one.
  rewrite Ering, last_snoc. cbn [mbind option_bind]. rewrite Hb, last_snoc. cbn [mbind option_bind].
  assert (∀ {A} (xs : list A) x, take (length (xs ++ [x]) - 1) (xs ++ [x]) = xs) as Htake.
  { intros A xs x. rewrite length_app. simpl. rewrite Nat.add_sub. apply take_app_length. }
  match goal with |- context [drop_receipts ?x ?h] => set (c1 := x) end.
  assert (live (drop_receipts c1 (block_height b)) idx rss') as Hlive.
  { assert (live c1 idx rss') as [H1 H2].
    { split; [|by unfold c1; cbn [ledger_]; rewrite (proj2 (apply_undo_st _ _))].
      unfold c1. cbn [blocks ledger_ signals_ undo_ring]. rewrite (proj1 (apply_undo_st _ _)), Hops, !Htake.
      rewrite Elog. unfold SignalLogOps.remove. cbn [fst]. rewrite delete_insert_id.
      - apply (replayed_rules c); [done|]. by apply replayed_drop.
      - apply (replayed_log _ _ _ _ _ _ _ Hr). rewrite Hhb, !length_app. simpl. lia. }
    unfold drop_receipts. destruct (active_receipts c1 !! _); [|by split]. split; [|done].
    by apply (replayed_rules c1). }
  eexists _, rss', rs. split; [done|].
  assert (fixed (drop_receipts c1 (block_height b)) = fixed c ∧ head_ (drop_receipts c1 (block_height b)) = head_ c ∧
    blocks (drop_receipts c1 (block_height b)) = blocks c1 ∧ undo_ring (drop_receipts c1 (block_height b)) = undo_ring c1 ∧
    active_receipts (drop_receipts c1 (block_height b)) = delete (block_height b) (active_receipts c)) as (? & ? & Eb & Er & ?).
  { unfold drop_receipts. destruct (active_receipts c1 !! _) eqn:Ea; [done|]. split_and!; try done.
    by rewrite delete_id. }
  split_and!; try done.
  - rewrite Eb. unfold c1. cbn [blocks]. apply Htake.
  - rewrite Er. unfold c1. cbn [undo_ring]. rewrite Htake. rewrite length_app. simpl. lia.
Qed.

(** [suf] is taken back when the ring covers it, and the process dies when it
    does not. *)
Lemma disconnect_loop_spec idx bs p suf : ∀ c rss fuel acc,
  live c idx rss → blocks c = (bs ++ [p]) ++ suf → (length suf ≤ fuel)%nat →
  if decide (length suf ≤ length (undo_ring c))%nat then
    ∃ c' rss' rss2, disconnect_loop fuel c (block_height p) acc = Some (c', acc ++ reverse suf) ∧
      fixed c' = fixed c ∧ head_ c' = head_ c ∧ blocks c' = bs ++ [p] ∧ live c' idx rss' ∧
      rss = rss' ++ rss2 ∧ rss2.*1 = block_height <$> suf ∧
      active_receipts c' = foldr (λ b m, delete (block_height b) m) (active_receipts c) suf
  else disconnect_loop fuel c (block_height p) acc = None.
Proof.
  induction suf as [|b suf IH] using rev_ind; intros c rss fuel acc HL Hb Hf.
  - rewrite decide_True by (simpl; lia). rewrite app_nil_r in Hb.
    destruct (live_height _ _ _ _ _ HL Hb) as [Hh Hp]. exists c, rss, [].
    split_and!; try done; [|by rewrite app_nil_r].
    destruct fuel; simpl; rewrite Hh; cbn [mbind option_bind]; rewrite Hp, N.ltb_irrefl; by rewrite app_nil_r.
  - rewrite length_app in *. simpl in *. destruct fuel as [|fuel]; [lia|].
    assert (∃ bs' p', bs ++ [p] ++ suf = bs' ++ [p']) as (bs' & p' & Ep).
    { destruct suf as [|x suf] using rev_ind; [by exists bs, p|]. exists (bs ++ [p] ++ suf), x. by rewrite !app_assoc. }
    rewrite app_assoc, <- (app_assoc bs), Ep in Hb.
    destruct (live_height _ _ _ _ _ HL Hb) as [Hh Hpb].
    assert (block_height p < N.of_nat (length (bs' ++ [p']))) as Hlt.
    { destruct HL as [Hr _]. rewrite Hb in Hr.
      destruct (replayed_heights _ _ _ _ _ _ _ Hr (length bs) p) as [-> _].
      - rewrite <- Ep. rewrite <- app_assoc. by apply list_lookup_middle.
      - rewrite <- Ep, !length_app. simpl. lia. }
    cbn [disconnect_loop]. rewrite Hh. cbn [mbind option_bind]. apply N.ltb_lt in Hlt. rewrite Hlt.
    destruct (decide (undo_ring c = [])) as [En|Hne].
    { rewrite decide_False by (rewrite En; simpl; lia). unfold disconnect_one. by rewrite En. }
    destruct (disconnect_one_spec _ _ _ _ _ _ HL Hb Hne) as (c1 & rss1 & rs & -> & -> & Hfix & Hhead & Hb1 & HL1 & Hlen & Hact).
    cbn [mbind option_bind]. rewrite <- Ep, app_assoc in Hb1.
    assert (length (undo_ring c) ≠ 0%nat) by (by destruct (undo_ring c)).
    specialize (IH c1 rss1 fuel (acc ++ [b]) HL1 Hb1 ltac:(lia)). destruct (decide _) as [Hd|Hd]; destruct (decide _) as [Hd'|Hd'];
      try lia; [|done].
    destruct IH as (c' & rss' & rss2 & E & Hfix' & Hhead' & Hb' & HL' & -> & Hrss & Hact').
    exists c', rss', (rss2 ++ [(block_height b, rs)]). split_and!; try done; [| | |by rewrite app_assoc| |].
    + rewrite E, reverse_app. simpl. by rewrite <- app_assoc.
    + congruence.
    + congruence.
    + by rewrite !fmap_app, Hrss.
    + rewrite Hact', Hact, foldr_app. done.
Qed.

Lemma disconnect_to_spec c idx rss bs p suf :
  live c idx rss → blocks c = (bs ++ [p]) ++ suf →
  if decide (length suf ≤ length (undo_ring c))%nat then
    ∃ c' rss' rss2, disconnect_to c (block_height p) = Some (c', reverse suf) ∧
      fixed c' = fixed c ∧ head_ c' = block_hash p ∧ blocks c' = bs ++ [p] ∧ live c' idx rss' ∧
      rss = rss' ++ rss2 ∧ rss2.*1 = block_height <$> suf ∧
      active_receipts c' = foldr (λ b m, delete (block_height b) m) (active_receipts c) suf
  else disconnect_to c (block_height p) = None.
Proof.
  intros HL Hb. assert (length suf ≤ length (blocks c))%nat as Hf by (rewrite Hb, !length_app; lia).
  pose proof (disconnect_loop_spec idx bs p suf c rss (length (blocks c)) [] HL Hb Hf) as Hd. unfold disconnect_to.
  destruct (decide _); [|by rewrite Hd].
  destruct Hd as (c' & rss' & rss2 & -> & Hfix & Hhead & Hb' & HL' & Hrest).
  cbn [mbind option_bind]. unfold head_block. rewrite Hb', last_snoc. cbn [mbind option_bind].
  eexists _, rss', rss2. split; [done|]. split; [exact Hfix|]. split; [done|]. split; [done|]. split; [|exact Hrest].
  destruct HL' as [Hr Hu]. rewrite Hb' in Hr. split; [|done]. by apply (replayed_rules c').
Qed.

(** ** Connecting a branch *)

(** [bs] continues the chain from [p], block by block. *)
Fixpoint linked (p : Block) (bs : list Block) : Prop :=
  match bs with
  | [] => True
  | b :: bs => h_prev_hash (header b) = block_hash p ∧ block_height b = block_height p + 1 ∧ linked b bs
  end.
Definition indexed_in idx (bs : list Block) : Prop := ∀ b, b ∈ bs → indexed idx b.

Lemma index_receipts_frame c h rs :
  fixed (index_block_receipts c h rs) = fixed c ∧ head_ (index_block_receipts c h rs) = head_ c ∧
  blocks (index_block_receipts c h rs) = blocks c ∧ undo_ring (index_block_receipts c h rs) = undo_ring c ∧
  (∀ idx rss, live c idx rss → live (index_block_receipts c h rs) idx rss) ∧
  active_receipts (index_block_receipts c h rs) = match rs with [] => active_receipts c | _ => <[h := rs]> (active_receipts c) end.
Proof. destruct rs; split_and!; try done. intros idx rss [Hr Hu]. split; [|done]. by apply (replayed_rules c). Qed.

Lemma reconnect_loop_spec idx bs : ∀ c rss pre p c',
  live c idx rss → blocks c = pre ++ [p] → linked p bs → indexed_in idx bs →
  (∀ b, b ∈ bs → index_ c !! block_hash b = idx !! block_hash b) → active_receipts c = recs rss →
  reconnect_loop c bs = Some c' →
  ∃ rss', fixed c' = fixed c ∧ blocks c' = (pre ++ [p]) ++ bs ∧ live c' idx rss' ∧ active_receipts c' = recs rss'.
Proof.
  induction bs as [|b bs IH]; intros c rss pre p c' HL Hb Hl Hi Hx Ha E; simpl in E.
  { simplify_eq. exists rss. by rewrite app_nil_r. }
  destruct Hl as (Hp & Hh & Hl). destruct (Hi b) as (e & He & Heb); [left|].
  rewrite (Hx b), He in E by left. cbn [mbind option_bind] in E.
  destruct (connect_to_active c b (e_sha_target e)) as [[c1 r]|] eqn:Ec; [|done]. cbn [mbind option_bind] in E.
  destruct r as [rs|]; [|done].
  destruct (connect_spec _ _ _ _ _ _ _ _ _ HL Hb He Heb Hp Hh Ec) as (Htr & Hb1 & HL1 & _).
  apply tracked_inv in Htr as (Hfix & Hhd & Hac & Htx).
  destruct (index_receipts_frame c1 (block_height b) rs) as (Hfix2 & _ & Hb2 & _ & HL2 & Ha2).
  rewrite Hb in Hb1. apply (IH _ (rss ++ [(block_height b, rs)]) (pre ++ [p]) b) in E as (rss' & F1 & F2 & F3 & F4).
  - exists rss'. split_and!; try done; [by rewrite F1, Hfix2|]. rewrite F2. by rewrite <- !app_assoc.
  - by apply HL2.
  - by rewrite Hb2.
  - done.
  - intros b' Hb'. apply Hi. by right.
  - intros b' Hb'. rewrite <- (Hx b') by (by right).
    by rewrite (proj2 (fixed_rules _ _ Hfix2)), (proj2 (fixed_rules _ _ Hfix)).
  - rewrite Ha2, recs_snoc, Hac, Ha. done.
Qed.
Lemma reconnect_spec idx bs c rss pre p c' :
  live c idx rss → blocks c = pre ++ [p] → linked p bs → indexed_in idx bs →
  (∀ b, b ∈ bs → index_ c !! block_hash b = idx !! block_hash b) → active_receipts c = recs rss →
  reconnect c (reverse bs) = Some c' →
  ∃ rss', fixed c' = fixed c ∧ blocks c' = (pre ++ [p]) ++ bs ∧ live c' idx rss' ∧ active_receipts c' = recs rss' ∧
    Some (head_ c') = block_hash <$> last (blocks c').
Proof.
  intros HL Hb Hl Hi Hx Ha E. unfold reconnect in E. rewrite reverse_involutive in E.
  destruct (reconnect_loop c bs) as [c1|] eqn:Er; [|done]. cbn [mbind option_bind] in E.
  apply (reconnect_loop_spec idx bs c rss pre p) in Er as (rss' & F1 & F2 & F3 & F4); try done.
  unfold head_block in E. destruct (last (blocks c1)) as [h|] eqn:Eh; [|done]. cbn [mbind option_bind] in E.
  injection E as <-. exists rss'. split; [exact F1|]. split; [exact F2|]. split; [|split; [exact F4|by change (Some (block_hash h) = block_hash <$> last (blocks c1)); rewrite Eh]].
  destruct F3 as [Hr Hu]. split; [|done]. by apply (replayed_rules c1).
Qed.

(** How a branch connects: all of it, or a prefix up to the invalid block; an
    unindexed interior block cannot occur. *)
Lemma connect_branch_spec idx record cand bs : ∀ c rss pre p c' out,
  live c idx rss → blocks c = pre ++ [p] → linked p bs → bs ≠ [] → indexed_in idx bs →
  (∀ h e, index_ c !! h = Some e → idx !! h = Some e) →
  (∀ b bs', bs = bs' ++ [b] → e_sha_target <$> idx !! block_hash b = Some (cd_sha_target cand)) →
  (∀ b bs' bs'', bs = bs' ++ b :: bs'' → bs'' ≠ [] → is_Some (index_ c !! block_hash b)) →
  connect_branch c record cand bs = Some (c', out) →
  ∃ k rss2, (k ≤ length bs)%nat ∧ fixed c' = fixed c ∧ head_ c' = head_ c ∧ blocks c' = (pre ++ [p]) ++ take k bs ∧
    live c' idx (rss ++ rss2) ∧
    length (undo_ring c') = (if decide (k = 0)%nat then length (undo_ring c)
                             else (k + length (undo_ring c)) `min` REORG_UNDO_WINDOW)%nat ∧
    (if record then active_receipts c = recs rss → active_receipts c' = recs (rss ++ rss2)
     else active_receipts c' = active_receipts c ∧ tx_height c' = tx_height c) ∧
    match out with
    | CnDone rs => k = length bs ∧ ∃ h, last rss2 = Some (h, rs)
    | CnInvalid _ => (k < length bs)%nat
    | CnUnindexed => False
    end.
Proof.
  induction bs as [|b bs IH]; intros c rss pre p c' out HL Hb Hl Hne Hi Hsub Htip Hmid E; [done|].
  destruct Hl as (Hp & Hh & Hl). destruct (Hi b) as (e & He & Heb); [left|].
  cbn [connect_branch] in E.
  assert (match bs with [] => Some (cd_sha_target cand) | _ => e_sha_target <$> index_ c !! block_hash b end
    = Some (e_sha_target e)) as Ht.
  { destruct bs as [|b' bs]; [rewrite <- (Htip b []) by done; by rewrite He|].
    destruct (Hmid b [] (b' :: bs)) as [e' He']; [done..|]. rewrite He'. apply Hsub in He'. simpl. congruence. }
  rewrite Ht in E. destruct (connect_to_active c b (e_sha_target e)) as [[c1 r]|] eqn:Ec; [|done].
  cbn [mbind option_bind] in E.
  destruct (connect_spec _ _ _ _ _ _ _ _ _ HL Hb He Heb Hp Hh Ec) as (Htr & Hr).
  apply tracked_inv in Htr as (Hfix & Hhd & Hac & Htx).
  destruct r as [rs|er].
  2:{ destruct Hr as (Hb1 & HL1 & Hring & _). injection E as <- <-. exists 0%nat, []. rewrite !app_nil_r. simpl.
      split_and!; try done; [lia|congruence|congruence| |lia]. destruct record; [congruence|done]. }
  destruct Hr as (Hb1 & HL1 & Hring). rewrite Hb in Hb1.
  set (c2 := if record then index_block_receipts c1 (block_height b) rs else c1) in E.
  assert (fixed c2 = fixed c ∧ head_ c2 = head_ c ∧ blocks c2 = (pre ++ [p]) ++ [b] ∧ live c2 idx (rss ++ [(block_height b, rs)]) ∧
    undo_ring c2 = undo_ring c1 ∧
    if record then active_receipts c = recs rss → active_receipts c2 = recs (rss ++ [(block_height b, rs)])
    else active_receipts c2 = active_receipts c ∧ tx_height c2 = tx_height c) as (G1 & G2 & G3 & G4 & G5 & G6).
  { destruct (index_receipts_frame c1 (block_height b) rs) as (F1 & F2 & F3 & F4 & F5 & F6).
    unfold c2. destruct record; split_and!; try congruence; auto. intros Ha. rewrite F6, recs_snoc. by rewrite Hac, Ha. }
  destruct bs as [|b' bs].
  { injection E as <- <-. exists 1%nat, [(block_height b, rs)]. simpl. split_and!; try done; [|by eexists].
    by rewrite G5, Hring. }
  apply (IH c2 (rss ++ [(block_height b, rs)]) (pre ++ [p]) b) in E as (k & rss2 & Hk & F1 & F2 & F3 & F4 & F5 & F6 & F7); try done.
  - exists (S k), ((block_height b, rs) :: rss2). rewrite (app_assoc rss [_] rss2 : rss ++ (block_height b, rs) :: rss2 = _).
    split; [simpl in *; lia|]. split; [congruence|]. split; [congruence|]. split; [|split; [exact F4|split; [|split]]].
    + rewrite F3. simpl. by rewrite <- !app_assoc.
    + rewrite F5, G5, Hring. repeat destruct (decide _); lia.
    + destruct record; [tauto|]. destruct F6 as [-> ->]. done.
    + destruct out; [|done|simpl in *; lia]. destruct F7 as [-> [h Hlast]]. split; [done|].
      exists h. rewrite last_cons, Hlast. done.
  - intros x Hx. apply Hi. by right.
  - intros x ex Hex. apply Hsub. by rewrite <- (proj2 (fixed_rules _ _ G1)).
  - intros x bs' E'. apply (Htip x (b :: bs')). by rewrite E'.
  - intros x bs' bs'' E'. rewrite (proj2 (fixed_rules _ _ G1)). apply (Hmid x (b :: bs')). by rewrite E'.
Qed.
End replay.
End ChainReplay.
