(* ===== verification/ChainInv.v ===== *)
(** * What every reachable chain satisfies (crates/chain/src/blockchain.rs)

    The invariant of a node's chain, kept by every import whatever it decides:
    the live state is the replay of the active blocks from genesis, every block
    of the index has a valid branch down to genesis, and the head is the tip fork
    choice prefers among them. *)

From S2P Require Import Prelude Primitives Pow Mining Governance Crypto Compliance Smt Types Block.
From S2P Require Import Gas Vault Ledger ShieldedV2 Execution LedgerUndo LedgerEquiv ExecSteps ExecStore.
From S2P Require Import Verify Chain ChainReplay.

Module ChainInv.
Import Chain ChainReplay.

Section inv.
Context `{CE : ChainEnv} `{UP : !UntornPools}.
Implicit Types (c : Blockchain) (b : Block) (l : Ledger) (e : BlockIndexEntry) (idx : gmap Hash BlockIndexEntry).

(** ** Targets that are their header's bits *)

Lemma to_compact_canonical x : Target.wf x → be_val x ≠ 0 → Target.canonical (Target.to_compact x).
Proof.
  intros Hw Hv. destruct (Target.to_compact_enc x Hw Hv) as (s & Hs & Hb & ->).
  pose proof (Target.top3_bounds s (be_val x) Hs Hb) as [Hlo Hhi]. unfold Target.canonical, Target.pack.
  destruct (N.ltb_spec (Target.top3 s (be_val x)) (2 ^ 23)) as [Hlt|Hge].
  - destruct (Target.fields s _ Hlt) as (-> & -> & ->). split_and!; [done|lia|]. intros Hs3.
    unfold Target.top3. destruct (N.leb_spec s 3); [|lia]. by rewrite N.Div0.mod_mul.
  - assert (Target.top3 s (be_val x) / 256 < 2 ^ 23) as Hm by (apply N.Div0.div_lt_upper_bound; by etransitivity).
    destruct (Target.fields (s + 1) _ Hm) as (-> & -> & ->). split_and!; [done|by apply N.div_le_lower_bound|].
    intros Hs3. unfold Target.top3. destruct (N.leb_spec s 3); [|lia].
    replace (256 ^ (3 - s)) with (256 ^ (3 - (s + 1)) * 256).
    + rewrite N.mul_assoc, N.div_mul by done. by rewrite N.Div0.mod_mul.
    + replace (3 - s) with (N.succ (3 - (s + 1))) by lia. rewrite N.pow_succ_r'. lia.
Qed.
Lemma be_val_inj (l1 l2 : bytes) : length l1 = length l2 → Forall byte_ok l1 → Forall byte_ok l2 →
  be_val l1 = be_val l2 → l1 = l2.
Proof.
  revert l2. induction l1 as [|a l1 IH]; intros [|b l2] Hl H1 H2 E; try done. injection Hl as Hl.
  apply Forall_cons in H1 as [Ha H1], H2 as [Hb H2]. rewrite !be_val_cons, Hl in E.
  pose proof (be_val_bound l1 H1) as B1. pose proof (be_val_bound l2 H2) as B2. rewrite Hl in B1.
  assert (a = b) as -> by nia. f_equal. apply IH; try done. lia.
Qed.
(** A target the chain computes is the one its compact form denotes. *)
Lemma canonical_target_sound x t : Target.wf x → canonical_target x = Some t →
  Target.from_compact (Target.to_compact t) = Some t.
Proof.
  unfold canonical_target. intros Hw E. destruct (decide (be_val x = 0)) as [E0|Hv].
  - destruct (Target.decode_encode x Hw) as (x' & k & E' & Hw' & Hval & _). rewrite E in E'. injection E' as <-.
    rewrite E0 in Hval. simpl in Hval.
    destruct Hw as [L1 W1], Hw' as [L2 W2]. assert (t = x) as ->; [|done]. apply be_val_inj; try done; [congruence|]. by rewrite Hval, E0.
  - by rewrite (Target.compact_canonical_roundtrip _ _ (to_compact_canonical x Hw Hv) E).
Qed.
Lemma base_target_sound c pe t : Target.wf (sha256d_target (mining_ c)) → base_target c pe = Some t →
  Target.from_compact (Target.to_compact t) = Some t.
Proof.
  unfold base_target. intros Hw E. destruct (_ <=? _); [by eapply canonical_target_sound|].
  destruct (window_loop _ _ _) as [[es before]|]; [|done]. cbn [mbind option_bind] in E.
  eapply canonical_target_sound; [|exact E]. apply Difficulty.to_target_wf.
Qed.
Lemma expected_target_sound c pe ts t : Target.wf (sha256d_target (mining_ c)) → expected_target c pe ts = Some t →
  Target.from_compact (Target.to_compact t) = Some t.
Proof.
  unfold expected_target. intros Hw E. destruct (base_target c pe) as [b|] eqn:Eb; [|done]. cbn [mbind option_bind] in E.
  pose proof (base_target_sound _ _ _ Hw Eb). destruct (_ <? _); [by simplify_eq|]. destruct (_ =? _); [by simplify_eq|].
  eapply canonical_target_sound; [|exact E]. apply Difficulty.to_target_wf.
Qed.

(** ** The branch of a block *)

Lemma indexed_eq idx b b' : indexed idx b → indexed idx b' → block_hash b = block_hash b' → b = b'.
Proof. intros (e & He & <-) (e' & He' & <-) E. rewrite E in He. congruence. Qed.

Lemma replayed_prefix c idx bs p suf s log rss ring :
  replayed c idx ((bs ++ [p]) ++ suf) s log rss ring →
  ∃ s' log' rss' ring', replayed c idx (bs ++ [p]) s' log' rss' ring'.
Proof.
  revert s log rss ring. induction suf as [|b suf IH] using rev_ind; intros s log rss ring Hr.
  { rewrite app_nil_r in Hr. eauto. }
  destruct (exists_last (l := (bs ++ [p]) ++ suf)) as (bs' & p' & Ep); [by destruct bs, suf|].
  rewrite app_assoc, Ep in Hr. apply replayed_inv in Hr as (e & s0 & log0 & rss0 & ring0 & rs & Hr & _).
  rewrite <- Ep in Hr. eauto.
Qed.
Lemma replayed_first c idx g s log rss ring :
  replayed c idx [g] s log rss ring → replayed c idx [g] (st (genesis_ledger c)) ∅ [] [].
Proof.
  intros Hr. remember [g] as all eqn:E. destruct Hr as [|bs p b]; [by constructor|].
  apply (f_equal length) in E. rewrite !length_app in E. simpl in E. lia.
Qed.
Lemma replayed_linked c idx bs p suf s log rss ring :
  replayed c idx ((bs ++ [p]) ++ suf) s log rss ring → linked p suf.
Proof.
  revert bs p. induction suf as [|b suf IH]; intros bs p Hr; [done|].
  pose proof Hr as Hr0. rewrite (app_assoc (bs ++ [p]) [b] suf : (bs ++ [p]) ++ b :: suf = _) in Hr.
  destruct (replayed_prefix _ _ _ _ _ _ _ _ _ Hr) as (s' & log' & rss' & ring' & Hp).
  apply replayed_inv in Hp as (e & s0 & log0 & rss0 & ring0 & rs & _ & _ & _ & H1 & H2 & _).
  split; [done|]. split; [done|]. by apply (IH (bs ++ [p])).
Qed.
Lemma replayed_indexed c idx bs s log rss ring : replayed c idx bs s log rss ring → indexed_in idx bs.
Proof. intros Hr b [i Hi]%list_elem_of_lookup. by apply (replayed_heights _ _ _ _ _ _ _ Hr i). Qed.
Lemma replayed_eq_at c idx bs s log rss ring i j b b' : replayed c idx bs s log rss ring →
  bs !! i = Some b → bs !! j = Some b' → block_hash b = block_hash b' → i = j.
Proof.
  intros Hr Hi Hj E. destruct (replayed_heights _ _ _ _ _ _ _ Hr _ _ Hi) as [Hh Hx].
  destruct (replayed_heights _ _ _ _ _ _ _ Hr _ _ Hj) as [Hh' Hx'].
  assert (b = b') as <- by (by eapply indexed_eq). lia.
Qed.
Lemma replayed_size c idx bs s log rss ring : replayed c idx bs s log rss ring → (length bs ≤ size idx)%nat.
Proof.
  intros Hr. rewrite <- (length_fmap block_hash bs), <- size_dom.
  assert (NoDup (block_hash <$> bs)) as Hn.
  { apply NoDup_alt. intros i j h Hi Hj. rewrite list_lookup_fmap in Hi, Hj.
    destruct (bs !! i) as [b|] eqn:Ei; [|done]. destruct (bs !! j) as [b'|] eqn:Ej; [|done].
    eapply replayed_eq_at; [exact Hr|exact Ei|exact Ej|]. apply (inj Some). by etrans. }
  rewrite <- (size_list_to_set (C := gset Hash)) by done. apply subseteq_size.
  intros h Hh. apply elem_of_list_to_set, list_elem_of_fmap in Hh as (b & -> & Hb).
  destruct (replayed_indexed _ _ _ _ _ _ _ Hr b Hb) as (e & He & _). by apply elem_of_dom.
Qed.
(** Only the genesis block has the genesis hash. *)
Lemma replayed_not_genesis c idx bs p b s log rss ring :
  replayed c idx ((bs ++ [p]) ++ [b]) s log rss ring → block_hash b ≠ genesis_hash c.
Proof.
  intros Hr E. destruct (replayed_head _ _ _ _ _ _ _ Hr) as (g & Hg & Eg).
  assert (0%nat = length (bs ++ [p])) as E0.
  { eapply replayed_eq_at; [exact Hr|exact Hg|by apply list_lookup_middle|congruence]. }
  rewrite length_app in E0. simpl in E0. lia.
Qed.

(** A block has one branch. *)
Lemma branch_unique c idx bs1 b s1 log1 rss1 ring1 :
  replayed c idx (bs1 ++ [b]) s1 log1 rss1 ring1 → ∀ bs2 s2 log2 rss2 ring2,
  replayed c idx (bs2 ++ [b]) s2 log2 rss2 ring2 → bs1 = bs2.
Proof.
  revert b s1 log1 rss1 ring1. induction bs1 as [|p1 bs1 IH] using rev_ind; intros b s1 log1 rss1 ring1 H1 bs2 s2 log2 rss2 ring2 H2.
  - destruct (replayed_heights _ _ _ _ _ _ _ H1 0%nat b) as [H0 _]; [done|].
    destruct (replayed_heights _ _ _ _ _ _ _ H2 (length bs2) b) as [Hh _]; [by apply list_lookup_middle|].
    destruct bs2; [done|]. simpl in Hh. lia.
  - destruct bs2 as [|p2 bs2 _] using rev_ind.
    { destruct (replayed_heights _ _ _ _ _ _ _ H2 0%nat b) as [H0 _]; [done|].
      destruct (replayed_heights _ _ _ _ _ _ _ H1 (length (bs1 ++ [p1])) b) as [Hh _]; [by apply list_lookup_middle|].
      rewrite length_app in Hh. simpl in Hh. lia. }
    apply replayed_inv in H1 as (e1 & ? & ? & ? & ? & ? & H1 & _ & _ & P1 & _).
    apply replayed_inv in H2 as (e2 & ? & ? & ? & ? & ? & H2 & _ & _ & P2 & _).
    assert (p1 = p2) as <-.
    { eapply (indexed_eq idx); [eapply replayed_indexed; [exact H1|set_solver]|
        eapply replayed_indexed; [exact H2|set_solver]|congruence]. }
    by rewrite (IH _ _ _ _ _ H1 _ _ _ _ _ H2).
Qed.

(** ** Where a branch leaves the active chain *)

Lemma active_at_spec c idx rss h hash : live c idx rss →
  is_active_at c h hash = true ↔ ∃ bs p suf, blocks c = (bs ++ [p]) ++ suf ∧ block_height p = h ∧ block_hash p = hash.
Proof.
  intros [Hr _]. unfold is_active_at, block_by_height. rewrite bool_decide_eq_true. split.
  - destruct (blocks c !! N.to_nat h) as [p|] eqn:E; intros [=<-]. pose proof E as E'.
    apply (replayed_heights _ _ _ _ _ _ _ Hr) in E' as [Hh _]. apply take_drop_middle in E.
    exists (take (N.to_nat h) (blocks c)), p, (drop (S (N.to_nat h)) (blocks c)).
    split; [by rewrite <- app_assoc|]. split; [lia|done].
  - intros (bs & p & suf & E & <- & <-).
    assert (blocks c !! length bs = Some p) as El by (rewrite E, <- app_assoc; by apply list_lookup_middle).
    destruct (replayed_heights _ _ _ _ _ _ _ Hr _ _ El) as [-> _]. by rewrite Nat2N.id, El.
Qed.

(** The block index: entries under their hash, at their block's height. *)
Definition keyed idx : Prop := ∀ h e, idx !! h = Some e → h = block_hash (e_block e) ∧ e_height e = block_height (e_block e).

(** ... and with the target its header's bits denote. *)
Definition at_bits b (t : Target.t) : Prop :=
  Target.from_compact (bits (header b)) = Some t ∧ canonical_target t = Some t.
Definition sealed idx : Prop := ∀ h e, idx !! h = Some e → at_bits (e_block e) (e_sha_target e).

Lemma locate_loop_spec c rss bs b s log rss' ring fuel acc :
  live c (index_ c) rss → keyed (index_ c) → replayed c (index_ c) (bs ++ [b]) s log rss' ring →
  (length (bs ++ [b]) ≤ fuel)%nat →
  ∃ pre p nb suf, bs ++ [b] = (pre ++ [p]) ++ nb ∧ blocks c = (pre ++ [p]) ++ suf ∧
    locate_loop fuel c (block_hash b) acc = Some (block_height p, nb ++ acc) ∧
    branch_walk fuel c (block_hash b) =
      (block_height p, reverse ((λ b, (block_height b, version_bits (header b))) <$> nb)) ∧
    (nb = [] ∨ is_active_at c (block_height b) (block_hash b) = false).
Proof.
  intros HL Hk. revert b s log rss' ring fuel acc.
  induction bs as [|p0 bs IH] using rev_ind; intros b s log rss' ring fuel acc Hr Hf;
    (destruct fuel as [|fuel]; [rewrite length_app in Hf; simpl in Hf; lia|]);
    (destruct (replayed_indexed _ _ _ _ _ _ _ Hr b) as (e & He & Eb); [set_solver|]);
    destruct (Hk _ _ He) as [_ Hh]; cbn [locate_loop branch_walk]; rewrite He; cbn [mbind option_bind]; rewrite Hh, Eb.
  - assert (is_active_at c (block_height b) (block_hash b) = true) as Ha.
    { pose proof HL as [Hl _]. destruct (replayed_head _ _ _ _ _ _ _ Hr) as (g & Hg & Eg). injection Hg as ->.
      destruct (replayed_head _ _ _ _ _ _ _ Hl) as (g' & Hg' & Eg'). apply (active_at_spec _ _ _ _ _ HL).
      destruct (replayed_heights _ _ _ _ _ _ _ Hr 0%nat g) as [H0 _]; [done|].
      destruct (replayed_heights _ _ _ _ _ _ _ Hl 0%nat g' Hg') as [H0' _].
      exists [], g', (drop 1 (blocks c)). destruct (blocks c) as [|x xs] eqn:Ec; [done|]. injection Hg' as ->.
      simpl. rewrite drop_0. split_and!; [done|congruence|congruence]. }
    rewrite Ha. apply (active_at_spec _ _ _ _ _ HL) in Ha as (pre & p & suf & E & E1 & E2).
    pose proof HL as [Hl _]. rewrite E in Hl. destruct (replayed_prefix _ _ _ _ _ _ _ _ _ Hl) as (? & ? & ? & ? & Hp).
    assert (p = b) as ->.
    { eapply (indexed_eq (index_ c)); [eapply replayed_indexed; [exact Hp|set_solver]|
        eapply replayed_indexed; [exact Hr|set_solver]|done]. }
    rewrite <- (branch_unique _ _ _ _ _ _ _ _ Hr _ _ _ _ _ Hp) in E.
    exists [], b, [], suf. split_and!; try done. by left.
  - destruct (is_active_at c (block_height b) (block_hash b)) eqn:Ha.
    + apply (active_at_spec _ _ _ _ _ HL) in Ha as (pre & p & suf & E & E1 & E2).
      pose proof HL as [Hl _]. rewrite E in Hl. destruct (replayed_prefix _ _ _ _ _ _ _ _ _ Hl) as (? & ? & ? & ? & Hp).
      assert (p = b) as ->.
      { eapply (indexed_eq (index_ c)); [eapply replayed_indexed; [exact Hp|set_solver]|
          eapply replayed_indexed; [exact Hr|set_solver]|done]. }
      rewrite <- (branch_unique _ _ _ _ _ _ _ _ Hr _ _ _ _ _ Hp) in E.
      exists (bs ++ [p0]), b, [], suf. split_and!; try done; [by rewrite app_nil_r|by left].
    + pose proof Hr as Hr0. apply replayed_inv in Hr as (e' & s0 & log0 & rss0 & ring0 & rs & Hr & _ & _ & Hp & _).
      rewrite Hp. destruct (IH p0 s0 log0 rss0 ring0 fuel (b :: acc) Hr) as (pre & p & nb & suf & E1 & E2 & E3 & E4 & _).
      { rewrite !length_app in *. simpl in *. lia. }
      exists pre, p, (nb ++ [b]), suf. rewrite E3, E4. split_and!; try done.
      * by rewrite E1, <- app_assoc.
      * by rewrite <- app_assoc.
      * by rewrite fmap_app, reverse_app.
      * by right.
Qed.

(** ** Rebuilding a branch from genesis *)

Lemma ancestors_spec c bs b s log rss ring fuel acc :
  replayed c (index_ c) (bs ++ [b]) s log rss ring → (length bs ≤ fuel)%nat →
  ancestors_loop fuel c (block_hash b) acc = Some (Ok (drop 1 (bs ++ [b]) ++ acc)).
Proof.
  revert b s log rss ring fuel acc. induction bs as [|p bs IH] using rev_ind; intros b s log rss ring fuel acc Hr Hf.
  - destruct (replayed_head _ _ _ _ _ _ _ Hr) as (g & Hg & Eg). injection Hg as ->.
    destruct fuel; simpl; by rewrite bool_decide_true.
  - pose proof (replayed_not_genesis _ _ _ _ _ _ _ _ _ Hr) as Hn.
    apply replayed_inv in Hr as (e & s0 & log0 & rss0 & ring0 & rs & Hr & He & Eb & Hp & _).
    rewrite length_app in Hf. simpl in Hf. destruct fuel as [|fuel]; [lia|].
    cbn [ancestors_loop]. rewrite bool_decide_false by done. rewrite He, Eb, Hp, (IH _ _ _ _ _ _ _ Hr) by lia.
    rewrite <- (app_assoc _ [p] [b]), !drop_app. f_equal. f_equal. rewrite <- !app_assoc. f_equal. 
    by destruct bs as [|x [|]].
Qed.

Definition rebuilt c idx (bs : list Block) (rb : Rebuilt) : Prop :=
  replayed c idx bs (st (rb_ledger rb)) (rb_signals rb) (rb_receipts rb) [] ∧
  undo (rb_ledger rb) = None ∧ rb_blocks rb = bs.

Lemma run_plain l l' : canonical (st l) → undo l = None → rtc mutates l l' → canonical (st l') ∧ undo l' = None.
Proof.
  intros C U Hm. destruct (run_journals (λ _, True) l l') as (ops & [Hu Hj] & _).
  { eapply rtc_subrel; [|exact Hm]. intros ? ? [T Hw]. by exists T. }
  split; [by apply Hj|]. by rewrite Hu, U.
Qed.

Lemma replay_step_spec c idx bs p rb b e rb' :
  rebuilt c idx (bs ++ [p]) rb → idx !! block_hash b = Some e → e_block e = b →
  h_prev_hash (header b) = block_hash p → block_height b = block_height p + 1 →
  replay_step c rb b (e_sha_target e) = Some (Ok rb') → rebuilt c idx ((bs ++ [p]) ++ [b]) rb'.
Proof.
  intros (Hr & Hu & Hb) He Eb Hp Hh E. unfold replay_step, replay_block in E.
  destruct (execute_block_on c (rb_ledger rb) b (e_sha_target e) (rb_signals rb)) as [[l' r]|] eqn:Ex; [|done].
  pose proof (execute_mutates _ _ _ _ _ _ _ Ex) as Hm. cbn [mbind option_bind] in E. injection E as E.
  destruct r as [rs|]; [|done]. unfold mbind, result_bind in E.
  destruct (roots_match l' rs b) as [[]|] eqn:Er; [|done].
  destruct (check_transition (rb_ledger rb) l') as [[]|] eqn:Et; [|done].
  destruct (check_ledger l' (policy_with c (e_sha_target e))) as [[]|] eqn:El; [|done]. injection E as <-.
  destruct (run_plain _ _ (replayed_canonical _ _ _ _ _ _ _ Hr) Hu Hm) as [C' U'].
  split; [|split; [done|by cbn [rb_blocks]; rewrite Hb]]. cbn [rb_ledger rb_signals rb_receipts].
  eapply replayed_block; eauto. by apply block_step_of.
Qed.
Lemma replay_loop_spec c anc : ∀ bs p rb rb',
  rebuilt c (index_ c) (bs ++ [p]) rb → linked p anc → indexed_in (index_ c) anc →
  replay_loop c rb anc = Some (Ok rb') → rebuilt c (index_ c) ((bs ++ [p]) ++ anc) rb'.
Proof.
  induction anc as [|b anc IH]; intros bs p rb rb' Hr Hl Hi E; cbn [replay_loop] in E.
  { injection E as <-. by rewrite app_nil_r. }
  destruct Hl as (Hp & Hh & Hl). destruct (Hi b) as (e & He & Eb); [left|].
  rewrite He in E. cbn [mbind option_bind] in E.
  destruct (replay_step c rb b (e_sha_target e)) as [[rb1|]|] eqn:E1; [|done..]. cbn [mbind option_bind] in E.
  rewrite (app_assoc _ [b] anc : _ ++ b :: anc = _). eapply (IH _ _ rb1); [|done| |done].
  - by eapply replay_step_spec.
  - intros x Hx. apply Hi. by right.
Qed.

(** Rebuilding the branch of a block whose parent is known. *)
Lemma rebuild_spec c rss bs p s log rss' ring b cand e idx rb :
  live c (index_ c) rss → undo (genesis_ledger c) = None →
  replayed c (index_ c) (bs ++ [p]) s log rss' ring →
  index_ c ⊆ idx → idx !! block_hash b = Some e → e_block e = b → e_sha_target e = cd_sha_target cand →
  h_prev_hash (header b) = block_hash p → block_height b = block_height p + 1 →
  rebuild_branch c b cand = Some (Ok rb) → rebuilt c idx ((bs ++ [p]) ++ [b]) rb.
Proof.
  intros HL HG Hr Hsub He Eb Et Hp Hh E. unfold rebuild_branch in E. rewrite Hp in E.
  rewrite (ancestors_spec _ _ _ _ _ _ _ _ _ Hr) in E.
  2:{ apply replayed_size in Hr. rewrite length_app in Hr. simpl in Hr. lia. }
  cbn [mbind option_bind] in E. rewrite app_nil_r in E.
  destruct (replayed_head _ _ _ _ _ _ _ Hr) as (g & Hg & Eg).
  assert (∃ tl, bs ++ [p] = ([] ++ [g]) ++ tl) as (tl & Etl).
  { destruct (bs ++ [p]) as [|x xs]; [done|]. injection Hg as ->. by exists xs. }
  assert (blocks c !! 0%nat = Some g) as Hg0.
  { pose proof HL as [Hl _]. destruct (replayed_head _ _ _ _ _ _ _ Hl) as (g' & Hg' & Eg'). rewrite Hg'. f_equal.
    eapply (indexed_eq (index_ c)); [by eapply (replayed_indexed _ _ _ _ _ _ _ Hl), list_elem_of_lookup_2|
      by eapply (replayed_indexed _ _ _ _ _ _ _ Hr), list_elem_of_lookup_2|congruence]. }
  rewrite Hg0 in E. cbn [mbind option_bind] in E. rewrite Etl in Hr, E |- *.
  change (drop 1 (([] ++ [g]) ++ tl)) with (drop 0 tl) in E. rewrite drop_0 in E.
  assert (∀ x, x ∈ tl → indexed (index_ c) x) as Htl.
  { intros x Hx. apply (replayed_indexed _ _ _ _ _ _ _ Hr). apply elem_of_app. by right. }
  destruct (replay_loop c _ _) as [[rb1|]|] eqn:E1; [|done..]. cbn [mbind option_bind] in E.
  apply (replay_loop_spec c _ [] g) in E1.
  - rewrite <- Et in E. rewrite <- Etl in E1 |- *. eapply replay_step_spec; [|done..].
    destruct E1 as (H1 & H2 & H3). split_and!; try done. eapply replayed_index; [|exact H1].
    intros x ex _ Hx. by eapply lookup_weaken.
  - destruct (replayed_prefix _ _ _ _ _ _ _ _ _ Hr) as (s0 & log0 & rss0 & ring0 & H0).
    split_and!; try done. by eapply replayed_first.
  - by apply (replayed_linked _ _ _ _ _ _ _ _ _ Hr).
  - done.
Qed.
End inv.
End ChainInv.
