(* ===== verification/ChainImport.v ===== *)
(** * Importing a block keeps the chain's invariant (crates/chain/src/blockchain.rs)

    [chain_ok] and its preservation by [import_block_tracked], whichever way the
    block goes: rejected, appended, adopted by a reorganisation (incremental or by
    a rebuild) or kept on a lighter branch. *)

From S2P Require Import Prelude Primitives Pow Mining Governance Crypto Compliance Smt Types Block.
From S2P Require Import Gas Vault Ledger ShieldedV2 Execution LedgerUndo LedgerEquiv ExecSteps ExecStore.
From S2P Require Import Verify Chain ChainReplay ChainInv.

Module ChainImport.
Import Chain ChainReplay ChainInv.

Section import.
Context `{CE : ChainEnv} `{UP : !UntornPools}.
Implicit Types (c : Blockchain) (b : Block) (l : Ledger) (e : BlockIndexEntry) (idx : gmap Hash BlockIndexEntry).

(** ** The invariant *)

(** The work of a branch: the saturating sum over its blocks' targets. *)
Definition add_work idx (w : N) b : N :=
  match idx !! block_hash b with
  | Some e => Work.saturating_add w (Work.of_target (e_sha_target e))
  | None => w
  end.
Definition branch_work idx (bs : list Block) : N := foldl (add_work idx) Work.zero bs.

(** The entry's block has a valid branch, whose work it records. *)
Definition known c e : Prop := ∃ bs s log rss,
  replayed c (index_ c) (bs ++ [e_block e]) s log rss [] ∧
  e_chain_work e = branch_work (index_ c) (bs ++ [e_block e]).

(** Fork choice: no known block is heavier than the head and, below saturation,
    none as heavy has a smaller hash. *)
Definition preferred idx (head : Hash) : Prop := ∀ he h e,
  idx !! head = Some he → idx !! h = Some e →
  e_chain_work e ≤ e_chain_work he ∧
  (e_chain_work e = e_chain_work he → e_chain_work he < u256_max → Hash_ltb h head = false).

Record chain_ok c (rss : list (N * list Receipt)) : Prop := {
  ok_live : live c (index_ c) rss;
  ok_keyed : keyed (index_ c);
  ok_known : ∀ h e, index_ c !! h = Some e → known c e;
  ok_receipts : active_receipts c = recs rss;
  ok_head : block_hash <$> last (blocks c) = Some (head_ c);
  ok_plain : undo (genesis_ledger c) = None;
  ok_target : Target.wf (sha256d_target (mining_ c));
  ok_sealed : sealed (index_ c);
  ok_best : preferred (index_ c) (head_ c);
}.

(** What the invariant reads of a chain. *)
Definition core c :=
  (rules c, index_ c, head_ c, blocks c, st (ledger_ c), undo (ledger_ c), signals_ c, undo_ring c, active_receipts c).
Lemma core_inv c c' : core c' = core c →
  rules c' = rules c ∧ index_ c' = index_ c ∧ head_ c' = head_ c ∧ blocks c' = blocks c ∧
  active_receipts c' = active_receipts c ∧ genesis_ledger c' = genesis_ledger c ∧ mining_ c' = mining_ c ∧
  ∀ idx rss, live c idx rss → live c' idx rss.
Proof.
  intros E. assert (rules c' = rules c) as E1 by exact (f_equal (λ x, x.1.1.1.1.1.1.1.1) E).
  assert (blocks c' = blocks c) as E4 by exact (f_equal (λ x, x.1.1.1.1.1.2) E).
  assert (st (ledger_ c') = st (ledger_ c)) as E5 by exact (f_equal (λ x, x.1.1.1.1.2) E).
  assert (undo (ledger_ c') = undo (ledger_ c)) as E6 by exact (f_equal (λ x, x.1.1.1.2) E).
  assert (signals_ c' = signals_ c) as E7 by exact (f_equal (λ x, x.1.1.2) E).
  assert (undo_ring c' = undo_ring c) as E8 by exact (f_equal (λ x, x.1.2) E).
  split; [done|]. split; [exact (f_equal (λ x, x.1.1.1.1.1.1.1.2) E)|].
  split; [exact (f_equal (λ x, x.1.1.1.1.1.1.2) E)|]. split; [done|]. split; [exact (f_equal snd E)|].
  split; [exact (f_equal (λ x, x.1.1.2) E1)|]. split; [exact (f_equal (λ x, x.1.1.1.2) E1)|].
  intros idx rss [Hr Hu]. split; rewrite ?E4, ?E5, ?E6, ?E7, ?E8; [|done]. by apply (replayed_rules c).
Qed.
Lemma chain_ok_core c c' rss : core c' = core c → chain_ok c rss → chain_ok c' rss.
Proof.
  intros (E1 & E2 & E3 & E4 & E5 & E6 & E7 & HL)%core_inv [H1 H3 H4 H5 H6 H7 H8 H9 H10].
  constructor; rewrite ?E2, ?E3, ?E4, ?E5, ?E6, ?E7; try done; [by apply HL|].
  intros h e He. destruct (H4 h e He) as (bs & s & log & rss' & Hr & Hw).
  exists bs, s, log, rss'. rewrite E2. split; [by apply (replayed_rules c)|done].
Qed.
Lemma sync_core c c' : sync_active_difficulty c = Some c' →
  core c' = core c ∧ fixed c' = fixed c ∧ tx_height c' = tx_height c.
Proof.
  unfold sync_active_difficulty. intros E. destruct (index_ c !! head_ c) as [e|]; [|done]. cbn [mbind option_bind] in E.
  destruct (base_target c e) as [t|]; [|done]. cbn [mbind option_bind] in E. injection E as <-. done.
Qed.

(** ** A new entry *)

Definition entry_of b (cand : Candidate) : BlockIndexEntry :=
  mkEntry b (cd_sha_target cand) (cd_new_work cand) (cd_height cand) (serialized_size b).

(** What validation establishes of an accepted candidate. *)
Definition candidate_ok idx b (cand : Candidate) : Prop := ∃ pe,
  idx !! h_prev_hash (header b) = Some pe ∧ block_height b = e_height pe + 1 ∧ cd_height cand = block_height b ∧
  cd_new_work cand = Work.saturating_add (e_chain_work pe) (Work.of_target (cd_sha_target cand)) ∧
  at_bits b (cd_sha_target cand).
Lemma validate_spec c b cand : Target.wf (sha256d_target (mining_ c)) → validate_candidate c b = Some (Ok cand) → candidate_ok (index_ c) b cand.
Proof.
  unfold validate_candidate. intros Hw.
  destruct (index_ c !! h_prev_hash (header b)) as [pe|] eqn:Ep; [|done]. intros E.
  exists pe. repeat (match type of E with
    | context [if ?x then _ else _] => destruct x eqn:?; [try done|]
    | (?x ≫= _) = _ => destruct x eqn:?; [cbn [mbind option_bind] in E|done]
    end; try done).
  all: repeat match goal with
       | H : negb (_ =? _) = false |- _ => apply negb_false_iff, N.eqb_eq in H
       | H : expected_target _ _ _ = Some _ |- _ => apply expected_target_sound in H; [|done]
       end.
  all: injection E as <-; unfold at_bits, canonical_target; split_and!; cbn [cd_height cd_sha_target cd_new_work]; congruence.
Qed.

Lemma branch_work_snoc idx bs b :
  branch_work idx (bs ++ [b]) = add_work idx (branch_work idx bs) b.
Proof. unfold branch_work. by rewrite foldl_app. Qed.
Lemma branch_work_sub idx idx' bs : idx ⊆ idx' → indexed_in idx bs → branch_work idx' bs = branch_work idx bs.
Proof.
  intros Hs. induction bs as [|b bs IH] using rev_ind; intros Hi; [done|].
  rewrite !branch_work_snoc, IH by (intros x Hx; apply Hi, elem_of_app; by left).
  destruct (Hi b) as (e & He & _); [apply elem_of_app; right; left|].
  unfold add_work. rewrite He. by rewrite (lookup_weaken _ _ _ _ He Hs).
Qed.
Lemma replayed_sub c idx idx' bs s log rss ring : idx ⊆ idx' →
  replayed c idx bs s log rss ring → replayed c idx' bs s log rss ring.
Proof. intros Hs. apply replayed_index. intros b e _ He. by eapply lookup_weaken. Qed.
Lemma replayed_forget c idx bs s log rss ring : replayed c idx bs s log rss ring → replayed c idx bs s log rss [].
Proof. intros Hr. rewrite <- (drop_all ring). by apply replayed_drop. Qed.

(** A block whose branch replays under the grown index keeps the index sound. *)
Lemma insert_known c rss b cand c' bs p s log rss' ring :
  chain_ok c rss → candidate_ok (index_ c) b cand → index_ c !! block_hash b = None →
  rules c' = rules c → index_ c' = <[block_hash b := entry_of b cand]> (index_ c) →
  replayed c (index_ c') ((bs ++ [p]) ++ [b]) s log rss' ring →
  keyed (index_ c') ∧ sealed (index_ c') ∧ ∀ h e, index_ c' !! h = Some e → known c' e.
Proof.
  intros OK (pe & Hpe & Hh & Hch & Hw & Hbits) Hn Er Ei Hr.
  assert (index_ c ⊆ index_ c') as Hsub by (rewrite Ei; by apply insert_subseteq).
  split; [|split].
  - intros h e. rewrite Ei, lookup_insert_Some. intros [[<- <-]|[_ He]]; [done|by apply (ok_keyed _ _ OK)].
  - intros h e. rewrite Ei, lookup_insert_Some. intros [[<- <-]|[_ He]]; [done|by eapply (ok_sealed _ _ OK)].
  - intros h e. rewrite Ei at 1. rewrite lookup_insert_Some. intros [[<- <-]|[_ He]].
    + exists (bs ++ [p]), s, log, rss'. cbn [entry_of e_block e_chain_work]. split.
      { apply (replayed_rules c); [done|]. by eapply replayed_forget. }
      pose proof Hr as Hr0. apply replayed_inv in Hr as (e' & s0 & log0 & rss0 & ring0 & rs & Hr & He' & _ & Hp & _).
      destruct (ok_known _ _ OK _ _ Hpe) as (bs' & s1 & log1 & rss1 & Hrp & Hwp).
      destruct (ok_keyed _ _ OK _ _ Hpe) as [Ehash _].
      pose proof (replayed_sub _ _ _ _ _ _ _ _ Hsub Hrp) as Hrp'.
      assert (p = e_block pe) as ->.
      { eapply (indexed_eq (index_ c')); [eapply replayed_indexed; [exact Hr|set_solver]|
          eapply replayed_indexed; [exact Hrp'|set_solver]|congruence]. }
      rewrite (branch_unique _ _ _ _ _ _ _ _ Hr _ _ _ _ _ Hrp').
      rewrite branch_work_snoc, (branch_work_sub (index_ c)) by (done || by eapply replayed_indexed).
      unfold add_work. rewrite Ei, lookup_insert_eq. cbn [entry_of e_sha_target]. by rewrite <- Hwp.
    + destruct (ok_known _ _ OK _ _ He) as (bs' & s1 & log1 & rss1 & Hrp & Hwp).
      exists bs', s1, log1, rss1. split.
      * apply (replayed_rules c); [done|]. by eapply replayed_sub.
      * rewrite (branch_work_sub (index_ c)); [done|done|]. by eapply replayed_indexed.
Qed.

(** Fork choice after a new entry. *)
Lemma preferred_stay idx head he b cand :
  preferred idx head → idx !! head = Some he → idx !! block_hash b = None →
  cd_new_work cand ≤ e_chain_work he → (cd_new_work cand = e_chain_work he → Hash_ltb (block_hash b) head = false) →
  preferred (<[block_hash b := entry_of b cand]> idx) head.
Proof.
  intros Hp Hhe Hn Hle Htie he' h e Hhe' He. rewrite lookup_insert_ne in Hhe' by congruence. simplify_eq.
  rewrite lookup_insert_Some in He. destruct He as [[<- <-]|[_ He]]; [by split; [|eauto]|by apply Hp].
Qed.
Lemma Hash_ltb_val (x y : Hash) : Hash_ltb x y = (be_val (as_bytes x) <? be_val (as_bytes y)).
Proof.
  unfold Hash_ltb, key_leb, BKey_Hash. rewrite bytes_leb_val by (apply as_bytes_ok || by rewrite !length_as_bytes).
  by rewrite N.ltb_antisym.
Qed.
Lemma preferred_move idx head he b cand :
  preferred idx head → idx !! head = Some he → idx !! block_hash b = None → e_chain_work he ≤ cd_new_work cand →
  (cd_new_work cand = e_chain_work he → cd_new_work cand < u256_max → Hash_ltb (block_hash b) head = true) →
  preferred (<[block_hash b := entry_of b cand]> idx) (block_hash b).
Proof.
  intros Hp Hhe Hn Hle Htie he' h e Hhe' He. rewrite lookup_insert_eq in Hhe'. injection Hhe' as <-.
  cbn [entry_of e_chain_work]. rewrite lookup_insert_Some in He. destruct He as [[<- <-]|[Hne He]].
  - split; [done|]. intros _ _. rewrite Hash_ltb_val. apply N.ltb_irrefl.
  - destruct (Hp _ _ _ Hhe He) as [H1 H2]. split; [lia|]. intros E Hlt.
    assert (e_chain_work e = e_chain_work he) as E1 by lia.
    specialize (H2 E1 ltac:(lia)). specialize (Htie ltac:(lia) Hlt). rewrite Hash_ltb_val in *.
    apply N.ltb_lt in Htie. apply N.ltb_ge in H2. apply N.ltb_ge. lia.
Qed.

(** ** Taking blocks back *)

Lemma recs_disconnect c idx bs p suf s log rss ring s' log' rss' ring' :
  replayed c idx ((bs ++ [p]) ++ suf) s log rss ring → replayed c idx (bs ++ [p]) s' log' rss' ring' →
  foldr (λ b m, delete (block_height b) m) (recs rss) suf = recs rss'.
Proof.
  revert s log rss ring. induction suf as [|b suf IH] using rev_ind; intros s log rss ring H1 H2.
  - rewrite app_nil_r in H1. simpl. by destruct (replayed_det _ _ _ _ _ _ _ H1 _ _ _ _ H2) as (_ & _ & ->).
  - destruct (exists_last (l := (bs ++ [p]) ++ suf)) as (bs' & p' & Ep); [by destruct bs, suf|].
    rewrite app_assoc, Ep in H1.
    destruct (replayed_heights _ _ _ _ _ _ _ H1 (length (bs' ++ [p'])) b) as [Hh _]; [by apply list_lookup_middle|].
    apply replayed_inv in H1 as (e & s0 & log0 & rss0 & ring0 & rs & H1 & _ & _ & _ & _ & _ & _ & -> & _).
    rewrite foldr_app. cbn [foldr]. rewrite (recs_take_back _ _ _ _ _ _ _ _ _ H1) by lia.
    rewrite <- Ep in H1. by eapply IH.
Qed.
Lemma linked_above p suf b : linked p suf → b ∈ suf → block_height p < block_height b.
Proof.
  revert p. induction suf as [|x suf IH]; intros p Hl Hb; [by apply elem_of_nil in Hb|].
  destruct Hl as (_ & Hh & Hl). apply elem_of_cons in Hb as [->|Hb]; [lia|]. specialize (IH _ Hl Hb). lia.
Qed.
Lemma recs_absent c idx bs p suf s log rss ring :
  replayed c idx (bs ++ [p]) s log rss ring → linked p suf →
  foldr (λ b m, delete (block_height b) m) (recs rss) suf = recs rss.
Proof.
  intros Hr Hl. assert (∀ b, b ∈ suf → recs rss !! block_height b = None) as Hn.
  { intros b Hb. apply (replayed_recs _ _ _ _ _ _ _ Hr). pose proof (linked_above _ _ _ Hl Hb).
    destruct (replayed_heights _ _ _ _ _ _ _ Hr (length bs) p) as [Hh _]; [by apply list_lookup_middle|].
    rewrite length_app. simpl. lia. }
  clear Hr Hl. induction suf as [|b suf IH]; [done|]. cbn [foldr].
  rewrite IH by (intros x Hx; apply Hn; by right). apply delete_id, Hn. left.
Qed.

Lemma disconnect_ok c idx rss bs p suf c1 old :
  live c idx rss → blocks c = (bs ++ [p]) ++ suf → disconnect_to c (block_height p) = Some (c1, old) →
  old = reverse suf ∧ fixed c1 = fixed c ∧ blocks c1 = bs ++ [p] ∧ ∃ rss', live c1 idx rss' ∧
    (active_receipts c = recs rss ∨ active_receipts c = recs rss' → active_receipts c1 = recs rss').
Proof.
  intros HL Hb E. pose proof (disconnect_to_spec _ _ _ _ _ _ HL Hb) as Hd. destruct (decide _); [|congruence].
  destruct Hd as (c' & rss' & rss2 & E' & Hf & _ & Hb' & HL' & _ & _ & Ha). rewrite E in E'. injection E' as -> ->.
  split_and!; try done. exists rss'. split; [done|]. rewrite Ha.
  pose proof HL as [Hr _]. pose proof HL' as [Hr' _]. rewrite Hb in Hr. rewrite Hb' in Hr'.
  apply (replayed_rules _ c) in Hr'; [|by apply fixed_rules].
  intros [->| ->]; [by eapply recs_disconnect|]. eapply recs_absent; [exact Hr'|]. by eapply replayed_linked.
Qed.

Lemma live_sub c idx idx' rss : idx ⊆ idx' → live c idx rss → live c idx' rss.
Proof. intros Hs [Hr Hu]. split; [by eapply replayed_sub|done]. Qed.
Lemma live_restrict c idx idx' rss : idx ⊆ idx' → indexed_in idx (blocks c) → live c idx' rss → live c idx rss.
Proof.
  intros Hs Hi [Hr Hu]. split; [|done]. eapply replayed_index; [|exact Hr]. intros b e Hb He.
  destruct (Hi b Hb) as (e' & He' & _). rewrite He'. by rewrite (lookup_weaken _ _ _ _ He' Hs) in He.
Qed.

(** Back to the branch that was active: only the undo ring may be shorter. *)
Lemma roll_back_ok c1 idx' rss1 bs p nb suf c2 :
  live c1 idx' rss1 → index_ c1 ⊆ idx' → blocks c1 = (bs ++ [p]) ++ nb →
  indexed_in (index_ c1) (bs ++ [p]) → linked p suf → indexed_in (index_ c1) suf →
  (active_receipts c1 = recs rss1 ∨
   ∃ s log rss ring, replayed c1 idx' (bs ++ [p]) s log rss ring ∧ active_receipts c1 = recs rss) →
  roll_back c1 (block_height p) (reverse suf) = Some c2 →
  fixed c2 = fixed c1 ∧ blocks c2 = (bs ++ [p]) ++ suf ∧ Some (head_ c2) = block_hash <$> last (blocks c2) ∧
  ∃ rss2, live c2 (index_ c1) rss2 ∧ active_receipts c2 = recs rss2.
Proof.
  intros HL Hs Hb Hi Hl Hi2 Ha E. unfold roll_back in E.
  destruct (disconnect_to c1 (block_height p)) as [[c old]|] eqn:Ed; [|done]. cbn [mbind option_bind] in E.
  destruct (disconnect_ok _ _ _ _ _ _ _ _ HL Hb Ed) as (_ & Hf & Hb' & rss' & HL' & Ha').
  destruct (fixed_rules _ _ Hf) as [Hru Hix].
  assert (active_receipts c = recs rss') as Hac.
  { apply Ha'. destruct Ha as [Ha|(s & log & rss & ring & Hr & Ha)]; [by left|right]. rewrite Ha.
    destruct HL' as [Hr' _]. rewrite Hb' in Hr'. apply (replayed_rules _ c1) in Hr'; [|done].
    by destruct (replayed_det _ _ _ _ _ _ _ Hr _ _ _ _ Hr') as (_ & _ & ->). }
  apply (live_restrict _ (index_ c1)) in HL'; [|done|by rewrite Hb'].
  destruct (reconnect_spec (index_ c1) suf c rss' bs p c2) as (rss2 & F1 & F2 & F3 & F4 & F5); try done.
  { intros b _. by rewrite Hix. }
  split_and!; try done; [congruence|]. by exists rss2.
Qed.

(** ** Trying a branch *)

(** Everything but the undo ring, the transaction locator and the difficulty cache. *)
Definition view c := (fixed c, head_ c, blocks c, st (ledger_ c), signals_ c, active_receipts c).

Lemma restored c rss c' rss' :
  chain_ok c rss → fixed c' = fixed c → blocks c' = blocks c → Some (head_ c') = block_hash <$> last (blocks c') →
  live c' (index_ c) rss' → active_receipts c' = recs rss' → view c' = view c ∧ chain_ok c' rss.
Proof.
  intros [HL Hk Hkn Ha Hh Hp Htg Hse Hbest] Ef Eb Eh HL' Ha'. destruct (fixed_rules _ _ Ef) as [Er Ei].
  pose proof HL as [Hr Hu]. pose proof HL' as [Hr' Hu']. rewrite Eb in Hr'.
  destruct (replayed_det _ _ _ _ _ _ _ Hr _ _ _ _ (replayed_rules _ c _ _ _ _ _ _ Er Hr')) as (Es & El & <-).
  assert (head_ c' = head_ c) as Ehd by (rewrite Eb, Hh in Eh; congruence).
  assert (active_receipts c' = active_receipts c) as Eact by congruence. split.
  { unfold view. by rewrite Ef, Ehd, Eb, Es, El, Eact. }
  constructor; rewrite ?Ei, ?Ehd, ?Eb, ?Eact; try done.
  - intros h e He. destruct (Hkn h e He) as (bs & s & log & rss' & Hx & Hw). exists bs, s, log, rss'.
    rewrite Ei. split; [by apply (replayed_rules c)|done].
  - assert (genesis_ledger c' = genesis_ledger c) as -> by exact (f_equal (λ x, x.1.1.2) Er). done.
  - assert (mining_ c' = mining_ c) as -> by exact (f_equal (λ x, x.1.1.1.2) Er). done.
Qed.

Lemma linked_snoc p nb q b : linked p nb → last (p :: nb) = Some q →
  h_prev_hash (header b) = block_hash q → block_height b = block_height q + 1 → linked p (nb ++ [b]).
Proof.
  revert p. induction nb as [|x nb IH]; intros p Hl Hq Hp Hh; [by simplify_eq/=|].
  destruct Hl as (? & ? & Hl). split_and!; try done. apply IH; try done.
Qed.

(** The fork of a block whose parent is known: always found. *)
Lemma locate_ok c rss b cand : chain_ok c rss → candidate_ok (index_ c) b cand →
  ∃ bs p nb suf, locate_fork c b = Some (block_height p, nb ++ [b]) ∧ blocks c = (bs ++ [p]) ++ suf ∧
    linked p (nb ++ [b]) ∧ indexed_in (index_ c) nb.
Proof.
  intros OK (pe & Hpe & Hh & _). destruct (ok_known _ _ OK _ _ Hpe) as (bs & s & log & rss' & Hr & _).
  destruct (ok_keyed _ _ OK _ _ Hpe) as [Ek Eh].
  destruct (locate_loop_spec c rss bs (e_block pe) s log rss' [] (S (size (index_ c))) [b] (ok_live _ _ OK) (ok_keyed _ _ OK) Hr)
    as (pre & p & nb & suf & E1 & E2 & E3 & _); [apply replayed_size in Hr; lia|].
  exists pre, p, nb, suf. unfold locate_fork. rewrite Ek. split_and!; try done.
  - rewrite E1 in Hr. eapply linked_snoc; [by eapply replayed_linked| |exact Ek|congruence].
    apply (f_equal last) in E1. rewrite last_snoc in E1. rewrite E1. rewrite <- app_assoc, last_app.
    change ([p] ++ nb) with (p :: nb). by rewrite last_cons; destruct (last nb).
  - rewrite E1 in Hr. intros x Hx. apply (replayed_indexed _ _ _ _ _ _ _ Hr). set_solver.
Qed.

(** The first half of both incremental paths: blocks back to the fork, then the
    branch forward. *)
Lemma branch_tried c rss b cand bs p nb suf record c1 old c2 out :
  chain_ok c rss → index_ c !! block_hash b = None →
  blocks c = (bs ++ [p]) ++ suf → linked p (nb ++ [b]) → indexed_in (index_ c) nb →
  disconnect_to c (block_height p) = Some (c1, old) → connect_branch c1 record cand (nb ++ [b]) = Some (c2, out) →
  let idx := <[block_hash b := entry_of b cand]> (index_ c) in
  old = reverse suf ∧ fixed c2 = fixed c ∧ ∃ k rss1 rss2, (k ≤ length (nb ++ [b]))%nat ∧
  (∃ s log ring, replayed c (index_ c) (bs ++ [p]) s log rss1 ring) ∧
  blocks c2 = (bs ++ [p]) ++ take k (nb ++ [b]) ∧ live c2 idx (rss1 ++ rss2) ∧
  ((k ≠ 0)%nat → (length (undo_ring c2) ≤ REORG_UNDO_WINDOW)%nat) ∧
  active_receipts c2 = recs (if record then rss1 ++ rss2 else rss1) ∧
  match out with
  | CnDone _ => k = length (nb ++ [b])
  | CnInvalid _ => True
  | CnUnindexed => False
  end.
Proof.
  intros OK Hn Hb Hl Hi Ed Ec idx. pose proof (ok_live _ _ OK) as HL.
  destruct (disconnect_ok _ _ _ _ _ _ _ _ HL Hb Ed) as (-> & Hf1 & Hb1 & rss1 & HL1 & Ha1).
  specialize (Ha1 (or_introl (ok_receipts _ _ OK))). destruct (fixed_rules _ _ Hf1) as [Hr1 Hi1].
  assert (index_ c ⊆ idx) as Hsub by (by apply insert_subseteq).
  destruct (connect_branch_spec idx record cand (nb ++ [b]) c1 rss1 bs p c2 out)
    as (k & rss2 & Hk & Hf2 & _ & Hb2 & HL2 & Hring & Ha2 & Hout); try done.
  { by eapply live_sub. }
  { by destruct nb. }
  { intros x [Hx| ->%list_elem_of_singleton]%elem_of_app.
    - destruct (Hi x Hx) as (e & He & Ee). exists e. split; [by eapply lookup_weaken|done].
    - exists (entry_of b cand). split; [apply lookup_insert_eq|done]. }
  { intros h e. rewrite Hi1. intros He. by eapply lookup_weaken. }
  { intros x bs' [_ <-]%app_inj_tail. unfold idx. by rewrite lookup_insert_eq. }
  { intros x bs' bs'' E Hne. rewrite Hi1. destruct (Hi x) as (e & -> & _); [|done].
    destruct bs'' as [|y bs'' _] using rev_ind; [done|]. rewrite app_comm_cons, app_assoc in E.
    apply app_inj_tail in E as [-> _]. apply elem_of_app. right. left. }
  split; [done|]. split; [by rewrite Hf2|]. exists k, rss1, rss2. split_and!; try done.
  - destruct HL1 as [Hp1 _]. rewrite Hb1 in Hp1. eexists _, _, _. by apply (replayed_rules c1).
  - intros Hk0. rewrite Hring, decide_False by done. lia.
  - destruct record; [by apply Ha2|]. destruct Ha2 as [-> _]. done.
  - destruct out; [apply Hout|done..].
Qed.
Lemma attempt c rss b cand bs p nb suf record c1 old c2 out :
  chain_ok c rss → index_ c !! block_hash b = None →
  blocks c = (bs ++ [p]) ++ suf → linked p (nb ++ [b]) → indexed_in (index_ c) nb →
  disconnect_to c (block_height p) = Some (c1, old) → connect_branch c1 record cand (nb ++ [b]) = Some (c2, out) →
  let idx := <[block_hash b := entry_of b cand]> (index_ c) in
  old = reverse suf ∧ fixed c2 = fixed c ∧
  (match out with
   | CnDone _ => blocks c2 = (bs ++ [p]) ++ (nb ++ [b]) ∧
       ∃ rss2, live c2 idx rss2 ∧ (record = true → active_receipts c2 = recs rss2)
   | CnInvalid _ => True
   | CnUnindexed => False
   end) ∧
  ∀ c3, roll_back c2 (block_height p) old = Some c3 → view c3 = view c ∧ chain_ok c3 rss.
Proof.
  intros OK Hn Hb Hl Hi Ed Ec idx.
  destruct (branch_tried _ _ _ _ _ _ _ _ _ _ _ _ _ OK Hn Hb Hl Hi Ed Ec)
    as (-> & Hf & k & rss1 & rss2 & _ & (s & log & ring & Hp) & Hb2 & HL2 & _ & Ha2 & Hout).
  assert (index_ c ⊆ idx) as Hsub by (by apply insert_subseteq). destruct (fixed_rules _ _ Hf) as [Hr2 Ei].
  pose proof (ok_live _ _ OK) as [Hr _]. rewrite Hb in Hr. pose proof (replayed_indexed _ _ _ _ _ _ _ Hr) as Hall.
  split; [done|]. split; [done|]. split.
  - destruct out; [|done..]. subst k. rewrite take_ge in Hb2 by done. split; [done|].
    exists (rss1 ++ rss2). split; [done|]. by intros ->.
  - intros c3 E3.
    destruct (roll_back_ok c2 idx (rss1 ++ rss2) bs p (take k (nb ++ [b])) suf c3) as (G1 & G2 & G3 & rss3 & G4 & G5); rewrite ?Ei; try done.
    + intros x Hx. apply Hall, elem_of_app. by left.
    + by eapply replayed_linked.
    + intros x Hx. apply Hall, elem_of_app. by right.
    + destruct record; [by left|right]. eexists s, log, rss1, ring. split; [|done]. eapply replayed_sub; [done|].
      by apply (replayed_rules c).
    + rewrite Ei in G4. eapply restored; try done; congruence.
Qed.

(** A side branch longer than the undo window kills the node: validating it pushes
    its own undo logs through the ring, and the way back to the fork finds the ring
    empty.  The check on the depth of the fork counts the active blocks only. *)
Lemma long_side_branch_panics c rss b cand fork nb c1 old c2 rs :
  chain_ok c rss → candidate_ok (index_ c) b cand → index_ c !! block_hash b = None →
  locate_fork c b = Some (fork, nb) → disconnect_to c fork = Some (c1, old) →
  connect_branch c1 false cand nb = Some (c2, CnDone rs) → (REORG_UNDO_WINDOW < length nb)%nat →
  roll_back c2 fork old = None ∧
  ∀ top, height_ c = Some top → fork < top → top - fork ≤ N.of_nat (length (undo_ring c)) →
    try_incremental_side_branch c b cand = None.
Proof.
  intros OK Hc Hn El Ed Ec Hlong. destruct (locate_ok _ _ _ _ OK Hc) as (bs & p & nb' & suf & El' & Eb & Hl & Hi).
  rewrite El in El'. injection El' as -> ->.
  destruct (branch_tried _ _ _ _ _ _ _ _ _ _ _ _ _ OK Hn Eb Hl Hi Ed Ec)
    as (-> & _ & k & rss1 & rss2 & _ & _ & Hb2 & HL2 & Hring & _ & ->).
  rewrite take_ge in Hb2 by done. pose proof (disconnect_to_spec _ _ _ _ _ _ HL2 Hb2) as Hd.
  rewrite decide_False in Hd by lia.
  assert (roll_back c2 (block_height p) (reverse suf) = None) as Hback by (unfold roll_back; by rewrite Hd).
  split; [done|]. intros top Ht Hlt Hle. unfold try_incremental_side_branch. rewrite El, Ht. cbn [mbind option_bind].
  unfold saturating_sub. destruct (N.eqb_spec (top - block_height p) 0); [lia|].
  destruct (N.ltb_spec (N.of_nat (length (undo_ring c))) (top - block_height p)); [lia|]. cbn [orb].
  rewrite Ed. cbn [mbind option_bind]. rewrite Ec. cbn [mbind option_bind]. by rewrite Hback.
Qed.

(** ** The three ways a block enters the index *)

Lemma add_work_bounds idx w b : w ≤ u256_max → w ≤ add_work idx w b ≤ u256_max.
Proof.
  intros Hw. unfold add_work, Work.saturating_add, saturating_add. destruct (idx !! _); lia.
Qed.
Lemma branch_work_bound idx bs : branch_work idx bs ≤ u256_max.
Proof.
  induction bs as [|b bs IH] using rev_ind; [done|]. rewrite branch_work_snoc. by apply add_work_bounds.
Qed.
Lemma of_target_pos t : 1 ≤ Work.of_target t.
Proof. unfold Work.of_target. destruct (_ =? _); [done|apply N.le_add_l]. Qed.
Lemma work_grows w t : w ≤ u256_max →
  let w' := Work.saturating_add w (Work.of_target t) in w ≤ w' ∧ (w' = w → w' = u256_max).
Proof. intros Hw. pose proof (of_target_pos t). unfold Work.saturating_add, saturating_add. lia. Qed.

Lemma head_entry c rss : chain_ok c rss → ∃ bs p he, blocks c = bs ++ [p] ∧ block_hash p = head_ c ∧
  index_ c !! head_ c = Some he ∧ e_block he = p ∧ e_chain_work he ≤ u256_max.
Proof.
  intros OK. pose proof (ok_live _ _ OK) as [Hr _]. destruct (replayed_nonempty _ _ _ _ _ _ _ Hr) as (bs & p & Eb).
  pose proof (ok_head _ _ OK) as Hh. rewrite Eb, last_snoc in Hh. injection Hh as Hh.
  destruct (replayed_indexed _ _ _ _ _ _ _ Hr p) as (he & He & Ee); [rewrite Eb; set_solver|].
  rewrite Hh in He. exists bs, p, he. split_and!; try done.
  destruct (ok_known _ _ OK _ _ He) as (? & ? & ? & ? & _ & ->). apply branch_work_bound.
Qed.

(** The new block becomes the head. *)
Lemma adopt_ok c rss b cand c' bs p rss' he :
  chain_ok c rss → candidate_ok (index_ c) b cand → index_ c !! block_hash b = None →
  rules c' = rules c → index_ c' = <[block_hash b := entry_of b cand]> (index_ c) → head_ c' = block_hash b →
  blocks c' = (bs ++ [p]) ++ [b] → live c' (index_ c') rss' → active_receipts c' = recs rss' →
  index_ c !! head_ c = Some he → e_chain_work he ≤ cd_new_work cand →
  (cd_new_work cand = e_chain_work he → cd_new_work cand < u256_max → Hash_ltb (block_hash b) (head_ c) = true) →
  chain_ok c' rss'.
Proof.
  intros OK Hc Hn Er Ei Eh Eb HL Ha Hhe Hle Htie. pose proof HL as [Hr _]. rewrite Eb in Hr.
  destruct (insert_known c rss b cand c' bs p _ _ _ _ OK Hc Hn Er Ei (replayed_rules _ c _ _ _ _ _ _ Er Hr)) as (H1 & H2 & H3).
  constructor; try done.
  - by rewrite Eb, last_snoc, Eh.
  - assert (genesis_ledger c' = genesis_ledger c) as -> by exact (f_equal (λ x, x.1.1.2) Er). apply (ok_plain _ _ OK).
  - assert (mining_ c' = mining_ c) as -> by exact (f_equal (λ x, x.1.1.1.2) Er). apply (ok_target _ _ OK).
  - rewrite Ei, Eh. by eapply preferred_move; [apply (ok_best _ _ OK)|..].
Qed.
(** The new block stays on the side: [c'] is [c] up to bookkeeping. *)
Lemma store_ok c rss b cand c' bs p s log rss' ring he :
  chain_ok c rss → chain_ok c' rss → view c' = view c → candidate_ok (index_ c) b cand → index_ c !! block_hash b = None →
  replayed c (<[block_hash b := entry_of b cand]> (index_ c)) ((bs ++ [p]) ++ [b]) s log rss' ring →
  index_ c !! head_ c = Some he → cd_new_work cand ≤ e_chain_work he →
  (cd_new_work cand = e_chain_work he → Hash_ltb (block_hash b) (head_ c) = false) →
  chain_ok (insert_entry c' b cand) rss.
Proof.
  intros OK OK' Ev Hc Hn Hr Hhe Hle Htie. assert (fixed c' = fixed c) as Ef by exact (f_equal (λ x, x.1.1.1.1.1) Ev).
  destruct (fixed_rules _ _ Ef) as [Er Ei]. assert (head_ c' = head_ c) as Eh by exact (f_equal (λ x, x.1.1.1.1.2) Ev).
  destruct (insert_known c rss b cand (insert_entry c' b cand) bs p s log rss' ring) as (H1 & H2 & H3); try done.
  { unfold insert_entry. cbn [index_]. by rewrite Ei. }
  { unfold insert_entry. cbn [index_]. by rewrite Ei. }
  destruct OK' as [HL' Hk' Hkn' Ha' Hh' Hp' Htg' Hse' Hb']. constructor; try done.
  - destruct HL' as [Hx Hu]. split; [|done]. apply (replayed_rules c'); [done|]. eapply replayed_sub; [|exact Hx].
    unfold insert_entry. cbn [index_]. apply insert_subseteq. by rewrite Ei.
  - unfold insert_entry. cbn [index_ head_]. rewrite Ei, Eh. eapply preferred_stay; try done. apply (ok_best _ _ OK).
Qed.

(** ** Import *)

(** What one import does. *)
Inductive outcome c b c' : result ChainError Imported → Prop :=
| o_known : is_Some (index_ c !! block_hash b) → c' = c → outcome c b c' (Ok Imported_empty)
| o_rejected er : index_ c !! block_hash b = None → view c' = view c → outcome c b c' (Err er)
| o_stored cand : index_ c !! block_hash b = None → validate_candidate c b = Some (Ok cand) →
    view c' = view (insert_entry c b cand) → outcome c b c' (Ok Imported_empty)
| o_adopted cand im : index_ c !! block_hash b = None → validate_candidate c b = Some (Ok cand) →
    index_ c' = <[block_hash b := entry_of b cand]> (index_ c) → head_ c' = block_hash b →
    outcome c b c' (Ok im).

Lemma append_ok c rss b cand c1 rs c2 :
  chain_ok c rss → candidate_ok (index_ c) b cand → index_ c !! block_hash b = None →
  h_prev_hash (header b) = head_ c → connect_to_active c b (cd_sha_target cand) = Some (c1, Ok rs) →
  sync_active_difficulty {| (insert_entry c1 b cand) with head_ := block_hash b |} = Some c2 →
  let c' := index_block_receipts c2 (cd_height cand) rs in
  rules c' = rules c ∧ index_ c' = <[block_hash b := entry_of b cand]> (index_ c) ∧ head_ c' = block_hash b ∧
  chain_ok c' (rss ++ [(block_height b, rs)]).
Proof.
  intros OK Hc Hn Hp Ec Es c'. set (idx := <[block_hash b := entry_of b cand]> (index_ c)).
  assert (index_ c ⊆ idx) as Hsub by (by apply insert_subseteq).
  destruct (head_entry _ _ OK) as (bs & p & he & Eb & Ep & Hhe & Ehe & Hw).
  pose proof Hc as (pe & Hpe & Hh & Hch & Hnw & _). rewrite Hp, Hhe in Hpe. injection Hpe as <-.
  destruct (ok_keyed _ _ OK _ _ Hhe) as [_ Ehh].
  destruct (connect_spec c idx rss bs p b (entry_of b cand) c1 (Ok rs)) as (Htr & Hb1 & HL1 & _); try done.
  { eapply live_sub; [done|]. apply (ok_live _ _ OK). }
  { apply lookup_insert_eq. }
  { congruence. }
  { congruence. }
  apply tracked_inv in Htr as (Hf & Hhd & Hac & _). destruct (fixed_rules _ _ Hf) as [Hr1 Hi1].
  apply sync_core in Es as (Ecore & _ & _). apply core_inv in Ecore as (F1 & F2 & F3 & F4 & F5 & _ & _ & F7).
  destruct (index_receipts_frame c2 (cd_height cand) rs) as (G1 & G2 & G3 & _ & G5 & G6). fold c' in G1, G2, G3, G5, G6.
  destruct (fixed_rules _ _ G1) as [G7 G8].
  assert (index_ c' = idx) as Ei by (rewrite G8, F2; unfold insert_entry; cbn [index_]; by rewrite Hi1).
  assert (rules c' = rules c) as Er by (rewrite G7, F1; exact Hr1).
  assert (head_ c' = block_hash b) as Ehd by (rewrite G2, F3; done).
  split_and!; try done. destruct (work_grows (e_chain_work he) (cd_sha_target cand) Hw) as [Hle Heq]. rewrite <- Hnw in *.
  eapply (adopt_ok c rss b cand c' bs p _ he); try done.
  - rewrite G3, F4. cbn [blocks insert_entry]. by rewrite Hb1, Eb.
  - rewrite Ei. apply G5, F7. destruct HL1 as [H1 H2]. split; [|exact H2]. by apply (replayed_rules c1).
  - rewrite G6, F5, recs_snoc, Hch. cbn [active_receipts insert_entry]. by rewrite Hac, (ok_receipts _ _ OK).
  - intros E Hlt. specialize (Heq E). lia.
Qed.

Lemma branch_shape (bs : list Block) p nb b : ∃ bs' p', (bs ++ [p]) ++ (nb ++ [b]) = (bs' ++ [p']) ++ [b].
Proof.
  destruct (exists_last (l := (bs ++ [p]) ++ nb)) as (bs' & p' & E); [by destruct bs, nb|].
  exists bs', p'. by rewrite app_assoc, E.
Qed.

Lemma reorg_ok c rss b cand he c' r :
  chain_ok c rss → candidate_ok (index_ c) b cand → index_ c !! block_hash b = None →
  index_ c !! head_ c = Some he → e_chain_work he ≤ cd_new_work cand →
  (cd_new_work cand = e_chain_work he → Hash_ltb (block_hash b) (head_ c) = true) →
  try_incremental_reorg c b cand = Some (c', r) →
  match r with
  | None => c' = c
  | Some (Err _) => view c' = view c ∧ chain_ok c' rss
  | Some (Ok _) => rules c' = rules c ∧ index_ c' = <[block_hash b := entry_of b cand]> (index_ c) ∧
      head_ c' = block_hash b ∧ ∃ rss', chain_ok c' rss'
  end.
Proof.
  intros OK Hc Hn Hhe Hle Htie E. destruct (locate_ok _ _ _ _ OK Hc) as (bs & p & nb & suf & El & Eb & Hl & Hi).
  unfold try_incremental_reorg in E. rewrite El in E.
  destruct (height_ c) as [top|]; [|done]. cbn [mbind option_bind] in E.
  destruct (_ || _); [by injection E as <- <-|].
  destruct (disconnect_to c (block_height p)) as [[c1 old]|] eqn:Ed; [|done]. cbn [mbind option_bind] in E.
  destruct (connect_branch c1 true cand (nb ++ [b])) as [[c2 out]|] eqn:Ec; [|done]. cbn [mbind option_bind] in E.
  destruct (attempt _ _ _ _ _ _ _ _ _ _ _ _ _ OK Hn Eb Hl Hi Ed Ec) as (-> & Hf & Hout & Hback).
  destruct out as [rs| |er]; [|done|].
  - destruct Hout as (Hb2 & rss2 & HL2 & Ha2). destruct (fixed_rules _ _ Hf) as [Hr2 Hi2].
    destruct (sync_active_difficulty _) as [c3|] eqn:Es; [|done]. cbn [mbind option_bind] in E. injection E as <- <-.
    apply sync_core in Es as (Ecore & _ & _). apply core_inv in Ecore as (F1 & F2 & F3 & F4 & F5 & _ & _ & F7).
    assert (index_ c3 = <[block_hash b := entry_of b cand]> (index_ c)) as Ei
      by (rewrite F2; unfold insert_entry; cbn [index_]; by rewrite Hi2).
    assert (rules c3 = rules c) as Er by (rewrite F1; exact Hr2). split_and!; try done.
    exists rss2. destruct (branch_shape bs p nb b) as (bs' & p' & Eshape).
    eapply (adopt_ok c rss b cand c3 bs' p' rss2 he); try done.
    + by rewrite F4, <- Eshape.
    + rewrite Ei. apply F7. destruct HL2 as [H1 H2]. split; [|exact H2]. by apply (replayed_rules c2).
    + rewrite F5. by apply Ha2.
    + eauto.
  - destruct (roll_back c2 (block_height p) (reverse suf)) as [c3|] eqn:Eb3; [|done]. cbn [mbind option_bind] in E.
    destruct (sync_active_difficulty c3) as [c4|] eqn:Es; [|done]. cbn [mbind option_bind] in E. injection E as <- <-.
    destruct (Hback _ eq_refl) as [Hv HOK]. apply sync_core in Es as (Ecore & Hfix & _). split; [|by eapply chain_ok_core].
    rewrite <- Hv. unfold view. rewrite Hfix. unfold core in Ecore. congruence.
Qed.

Lemma side_ok c rss b cand c' r :
  chain_ok c rss → candidate_ok (index_ c) b cand → index_ c !! block_hash b = None →
  try_incremental_side_branch c b cand = Some (c', r) →
  match r with
  | None => c' = c
  | Some q => view c' = view c ∧ chain_ok c' rss ∧
      (q = Ok () → ∃ bs p s log rss' ring,
         replayed c (<[block_hash b := entry_of b cand]> (index_ c)) ((bs ++ [p]) ++ [b]) s log rss' ring)
  end.
Proof.
  intros OK Hc Hn E. destruct (locate_ok _ _ _ _ OK Hc) as (bs & p & nb & suf & El & Eb & Hl & Hi).
  unfold try_incremental_side_branch in E. rewrite El in E.
  destruct (height_ c) as [top|]; [|done]. cbn [mbind option_bind] in E.
  destruct (_ || _); [by injection E as <- <-|].
  destruct (disconnect_to c (block_height p)) as [[c1 old]|] eqn:Ed; [|done]. cbn [mbind option_bind] in E.
  destruct (connect_branch c1 false cand (nb ++ [b])) as [[c2 out]|] eqn:Ec; [|done]. cbn [mbind option_bind] in E.
  destruct (attempt _ _ _ _ _ _ _ _ _ _ _ _ _ OK Hn Eb Hl Hi Ed Ec) as (-> & Hf & Hout & Hback).
  destruct (roll_back c2 (block_height p) (reverse suf)) as [c3|] eqn:Eb3; [|done]. cbn [mbind option_bind] in E.
  destruct (sync_active_difficulty c3) as [c4|] eqn:Es; [|done]. cbn [mbind option_bind] in E.
  destruct (Hback _ eq_refl) as [Hv HOK]. apply sync_core in Es as (Ecore & Hfix & _).
  assert (view c4 = view c ∧ chain_ok c4 rss) as [Hv4 HOK4].
  { split; [|by eapply chain_ok_core]. rewrite <- Hv. unfold view. rewrite Hfix. unfold core in Ecore. congruence. }
  destruct out as [rs| |er]; [|done|]; injection E as <- <-; split_and!; try done. intros _.
  destruct Hout as (Hb2 & rss2 & [Hr2 _] & _). destruct (branch_shape bs p nb b) as (bs' & p' & Eshape).
  rewrite Hb2, Eshape in Hr2. exists bs', p'. eexists _, _, _, _.
  by apply (replayed_rules c2 c); [apply fixed_rules|].
Qed.

Lemma rebuild_index_frame c branch : let c' := rebuild_receipt_index c branch in
  fixed c' = fixed c ∧ head_ c' = head_ c ∧ blocks c' = blocks c ∧ ledger_ c' = ledger_ c ∧ signals_ c' = signals_ c ∧
  active_receipts c' = recs branch.
Proof.
  unfold rebuild_receipt_index, recs. set (c0 := {| c with active_receipts := ∅; tx_height := ∅ |}).
  change (∅ : gmap N (list Receipt)) with (active_receipts c0).
  change (fixed c) with (fixed c0). change (head_ c) with (head_ c0). change (blocks c) with (blocks c0).
  change (ledger_ c) with (ledger_ c0). change (signals_ c) with (signals_ c0). generalize c0. clear c c0.
  induction branch as [|[h rs] branch IH]; intros c; [done|]. cbn [foldl fst snd].
  destruct (IH (index_block_receipts c h rs)) as (-> & -> & -> & -> & -> & ->). by destruct rs.
Qed.

Lemma view_rules c c' : view c' = view c → rules c' = rules c.
Proof. intros E. apply fixed_rules. exact (f_equal (λ x, x.1.1.1.1.1) E). Qed.

(** The next block is invalid: nothing happened. *)
Lemma append_rejected c rss b cand c1 er :
  chain_ok c rss → candidate_ok (index_ c) b cand → index_ c !! block_hash b = None →
  h_prev_hash (header b) = head_ c → connect_to_active c b (cd_sha_target cand) = Some (c1, Err er) →
  view c1 = view c ∧ chain_ok c1 rss.
Proof.
  intros OK (pe & Hpe & Hh & _) Hn Ehead Ec.
  destruct (head_entry _ _ OK) as (bs & p & he & Eb & Ep & Hhe & Ehe & Hw). rewrite Ehead, Hhe in Hpe. injection Hpe as <-.
  destruct (ok_keyed _ _ OK _ _ Hhe) as [_ Ehh]. set (idx := <[block_hash b := entry_of b cand]> (index_ c)).
  assert (index_ c ⊆ idx) as Hsub by (by apply insert_subseteq).
  destruct (connect_spec c idx rss bs p b (entry_of b cand) c1 (Err er)) as (Htr & Hb1 & HL1 & _ & Hst & Hsig); try done.
  { eapply live_sub; [done|]. apply (ok_live _ _ OK). }
  { apply lookup_insert_eq. }
  { congruence. }
  { congruence. }
  apply tracked_inv in Htr as (Hf & Hhd & Hac & _). eapply restored; try done.
  - by rewrite Hb1, Hhd, (ok_head _ _ OK).
  - eapply (live_restrict _ _ idx); [done| |done]. rewrite Hb1. eapply replayed_indexed. apply (ok_live _ _ OK).
  - by rewrite Hac, (ok_receipts _ _ OK).
Qed.

Lemma rebuild_ok c rss b cand rb :
  chain_ok c rss → candidate_ok (index_ c) b cand → index_ c !! block_hash b = None →
  rebuild_branch c b cand = Some (Ok rb) →
  ∃ bs p, rebuilt c (<[block_hash b := entry_of b cand]> (index_ c)) ((bs ++ [p]) ++ [b]) rb.
Proof.
  intros OK (pe & Hpe & Hh & _) Hn E. destruct (ok_known _ _ OK _ _ Hpe) as (bs & s & log & rss' & Hr & _).
  destruct (ok_keyed _ _ OK _ _ Hpe) as [Ek Ekh]. exists bs, (e_block pe).
  eapply (rebuild_spec c rss bs (e_block pe) s log rss' [] b cand (entry_of b cand)); try done.
  - apply (ok_live _ _ OK).
  - apply (ok_plain _ _ OK).
  - by apply insert_subseteq.
  - apply lookup_insert_eq.
  - congruence.
Qed.

(** Adopting the branch a rebuild executed. *)
Lemma rebuild_adopt_ok c rss b cand he rb c2 :
  chain_ok c rss → candidate_ok (index_ c) b cand → index_ c !! block_hash b = None →
  index_ c !! head_ c = Some he → e_chain_work he ≤ cd_new_work cand →
  (cd_new_work cand = e_chain_work he → Hash_ltb (block_hash b) (head_ c) = true) →
  rebuild_branch c b cand = Some (Ok rb) →
  sync_active_difficulty {| (insert_entry c b cand) with ledger_ := rb_ledger rb; blocks := rb_blocks rb;
                              signals_ := rb_signals rb; head_ := block_hash b |} = Some c2 →
  let c' := {| (rebuild_receipt_index c2 (rb_receipts rb)) with undo_ring := [] |} in
  rules c' = rules c ∧ index_ c' = <[block_hash b := entry_of b cand]> (index_ c) ∧ head_ c' = block_hash b ∧
  chain_ok c' (rb_receipts rb).
Proof.
  intros OK Hc Hn Hhe Hle Htie Er Es c'. destruct (rebuild_ok _ _ _ _ _ OK Hc Hn Er) as (bs & p & R1 & R2 & R3).
  apply sync_core in Es as (Ecore & _ & _). pose proof Ecore as (F1 & F2 & F3 & F4 & F5 & F6 & _)%core_inv.
  destruct (rebuild_index_frame c2 (rb_receipts rb)) as (G1 & G2 & G3 & G4 & G5 & G6). destruct (fixed_rules _ _ G1) as [G7 G8].
  assert (rules c' = rules c) as Hru by (etrans; [exact G7|exact F1]).
  assert (index_ c' = <[block_hash b := entry_of b cand]> (index_ c)) as Eidx by (etrans; [exact G8|exact F2]).
  assert (head_ c' = block_hash b) as Eh by (etrans; [exact G2|exact F3]).
  assert (blocks c' = (bs ++ [p]) ++ [b]) as Ebl by (etrans; [exact G3|etrans; [exact F4|exact R3]]).
  split_and!; try done. eapply (adopt_ok c rss b cand c' bs p _ he); try done; [|by eauto].
  rewrite Eidx. split; [|unfold c'; cbn [ledger_]; rewrite G4; etrans; [exact (f_equal (λ x, x.1.1.1.2) Ecore)|exact R2]].
  apply (replayed_rules c); [done|]. rewrite Ebl. unfold c'. cbn [ledger_ signals_ undo_ring]. rewrite G4, G5.
  assert (st (ledger_ c2) = st (rb_ledger rb)) as -> by exact (f_equal (λ x, x.1.1.1.1.2) Ecore).
  assert (signals_ c2 = rb_signals rb) as -> by exact (f_equal (λ x, x.1.1.2) Ecore). done.
Qed.

(** Every import keeps the invariant and is one of the four outcomes. *)
Definition imports_ok c b c' (r : result ChainError Imported) : Prop :=
  (∃ rss', chain_ok c' rss') ∧ rules c' = rules c ∧ outcome c b c' r.

Lemma rejects_ok c rss b c' er : index_ c !! block_hash b = None →
  view c' = view c → chain_ok c' rss → imports_ok c b c' (Err er).
Proof. intros Hn Hv HOK. split_and!; [by eexists|by apply view_rules|by apply o_rejected]. Qed.
Lemma adopts_ok c rss b cand c' im : index_ c !! block_hash b = None → validate_candidate c b = Some (Ok cand) →
  rules c' = rules c ∧ index_ c' = <[block_hash b := entry_of b cand]> (index_ c) ∧ head_ c' = block_hash b ∧
  chain_ok c' rss → imports_ok c b c' (Ok im).
Proof. intros Hn Ev (H1 & H2 & H3 & H4). split_and!; [by eexists|done|by eapply o_adopted]. Qed.
Lemma stores_ok c rss b cand he c1 bs p s log rss' ring :
  chain_ok c rss → index_ c !! block_hash b = None → validate_candidate c b = Some (Ok cand) →
  index_ c !! head_ c = Some he →
  (e_chain_work he <? cd_new_work cand) || ((cd_new_work cand =? e_chain_work he) && Hash_ltb (block_hash b) (head_ c)) = false →
  chain_ok c1 rss → view c1 = view c →
  replayed c (<[block_hash b := entry_of b cand]> (index_ c)) ((bs ++ [p]) ++ [b]) s log rss' ring →
  imports_ok c b (insert_entry c1 b cand) (Ok Imported_empty).
Proof.
  intros OK Hn Ev Hhe [Hge%N.ltb_ge Hno]%orb_false_iff HOK Hv Hr. pose proof (view_rules _ _ Hv) as Hru.
  assert (cd_new_work cand = e_chain_work he → Hash_ltb (block_hash b) (head_ c) = false) as Htie.
  { intros Heq. by rewrite Heq, N.eqb_refl in Hno. }
  split_and!; [|exact Hru|].
  - exists rss. pose proof (validate_spec _ _ _ (ok_target _ _ OK) Ev). by eapply (store_ok c rss b cand c1 bs p s log rss' ring he).
  - eapply o_stored; try done. unfold view, fixed, rules, insert_entry in *. cbn. congruence.
Qed.

(** The heavier branch, incrementally or by a rebuild. *)
Lemma import_heavier c rss b cand he c' r :
  chain_ok c rss → index_ c !! block_hash b = None → validate_candidate c b = Some (Ok cand) →
  index_ c !! head_ c = Some he →
  (e_chain_work he <? cd_new_work cand) || ((cd_new_work cand =? e_chain_work he) && Hash_ltb (block_hash b) (head_ c)) = true →
  ('(c, incremental) ← try_incremental_reorg c b cand;
   match incremental with
   | Some r => Some (c, r)
   | None =>
       r ← rebuild_branch c b cand;
       match r with
       | Err e => Some (c, Err e)
       | Ok rb =>
           let new_hashes := block_hash <$> rb_blocks rb in
           let reverted := filter (λ b, block_hash b ∉ new_hashes) (blocks c) ≫= transactions in
           let c := insert_entry c b cand in
           c ← sync_active_difficulty
                 {| c with ledger_ := rb_ledger rb; blocks := rb_blocks rb;
                           signals_ := rb_signals rb; head_ := block_hash b |};
           let c := rebuild_receipt_index c (rb_receipts rb) in
           Some ({| c with undo_ring := [] |}, Ok (mkImported (rb_tip_receipts rb) reverted))
       end
   end) = Some (c', r) →
  imports_ok c b c' r.
Proof.
  intros OK Hn Ev Hhe Heavy E. pose proof (validate_spec _ _ _ (ok_target _ _ OK) Ev) as Hc.
  assert (e_chain_work he ≤ cd_new_work cand ∧
    (cd_new_work cand = e_chain_work he → Hash_ltb (block_hash b) (head_ c) = true)) as [Hle Htie].
  { apply orb_true_iff in Heavy as [Hlt%N.ltb_lt|[Heq%N.eqb_eq Hlt]%andb_true_iff]; split; intros; done || lia. }
  destruct (try_incremental_reorg c b cand) as [[c1 q]|] eqn:Ei; [|done]. cbn [mbind option_bind] in E.
  pose proof (reorg_ok _ _ _ _ _ _ _ OK Hc Hn Hhe Hle Htie Ei) as Hre. destruct q as [[im|er]|].
  - injection E as <- <-. destruct Hre as (H1 & H2 & H3 & rss' & H4). by eapply adopts_ok.
  - injection E as <- <-. destruct Hre as [H1 H2]. by eapply rejects_ok.
  - subst c1. destruct (rebuild_branch c b cand) as [[rb|er]|] eqn:Er; [|injection E as <- <-; by eapply rejects_ok|done].
    cbn [mbind option_bind] in E. destruct (sync_active_difficulty _) as [c2|] eqn:Es; [|done].
    cbn [mbind option_bind] in E. injection E as <- <-. eapply adopts_ok; [done..|]. by eapply rebuild_adopt_ok.
Qed.

Lemma import_ok c rss b c' r :
  chain_ok c rss → import_block_tracked c b = Some (c', r) → imports_ok c b c' r.
Proof.
  intros OK E. unfold import_block_tracked in E.
  destruct (decide (is_Some (index_ c !! block_hash b))) as [Hs|Hn].
  { rewrite bool_decide_true in E by done. injection E as <- <-. split_and!; [by eexists|done|by apply o_known]. }
  rewrite bool_decide_false in E by done. apply eq_None_not_Some in Hn.
  destruct (validate_candidate c b) as [[cand|er]|] eqn:Ev; [|injection E as <- <-; by eapply rejects_ok|done].
  cbn [mbind option_bind] in E. pose proof (validate_spec _ _ _ (ok_target _ _ OK) Ev) as Hc.
  destruct (head_entry _ _ OK) as (bs & p & he & Eb & Ep & Hhe & Ehe & Hw).
  unfold chain_work in E. rewrite Hhe in E. cbn [fmap option_fmap option_map mbind option_bind] in E.
  destruct (bool_decide (h_prev_hash (header b) = head_ c)) eqn:Ehead.
  { apply bool_decide_eq_true in Ehead.
    destruct (connect_to_active c b (cd_sha_target cand)) as [[c1 [rs|er]]|] eqn:Ec; [| |done]; cbn [mbind option_bind] in E.
    - destruct (sync_active_difficulty _) as [c2|] eqn:Es; [|done]. cbn [mbind option_bind] in E. injection E as <- <-.
      eapply adopts_ok; [done..|]. by eapply append_ok.
    - injection E as <- <-. destruct (append_rejected _ _ _ _ _ _ OK Hc Hn Ehead Ec). by eapply rejects_ok. }
  clear Ehead. destruct (_ || _) eqn:Eheavy; [eapply import_heavier; [exact OK|exact Hn|exact Ev|exact Hhe|exact Eheavy|exact E]|].
  destruct (try_incremental_side_branch c b cand) as [[c1 q]|] eqn:Ei; [|done]. cbn [mbind option_bind] in E.
  pose proof (side_ok _ _ _ _ _ _ OK Hc Hn Ei) as Hsi. destruct q as [[[]|er]|].
  - injection E as <- <-. destruct Hsi as (H1 & H2 & H3). destruct (H3 eq_refl) as (bs' & p' & s & log & rss' & ring & Hr).
    by eapply stores_ok.
  - injection E as <- <-. destruct Hsi as (H1 & H2 & _). by eapply rejects_ok.
  - subst c1. destruct (rebuild_branch c b cand) as [[rb|er]|] eqn:Er; [|injection E as <- <-; by eapply rejects_ok|done].
    cbn [mbind option_bind] in E. injection E as <- <-. destruct (rebuild_ok _ _ _ _ _ OK Hc Hn Er) as (bs' & p' & R1 & _).
    by eapply stores_ok.
Qed.
End import.
End ChainImport.
