(* ===== verification/ChainSafety.v ===== *)
(** * What a node's chain guarantees (crates/chain/src/blockchain.rs, genesis.rs)

    The chains a node can reach from its genesis configuration, and what holds of
    all of them: the state is the execution of the active blocks, nodes that know
    the same blocks agree, fork choice, and that a rejected block changes nothing. *)

From S2P Require Import Prelude Primitives Pow Mining Governance Crypto Compliance Smt Types Block.
From S2P Require Import Gas Vault Ledger ShieldedV2 Execution LedgerUndo LedgerCommit LedgerEquiv ExecSteps ExecStore.
From S2P Require Import Verify VerifySpec Chain ChainReplay ChainInv ChainImport.

Module ChainSafety.
Import Chain ChainReplay ChainInv ChainImport.

Section safety.
Context `{CE : ChainEnv} `{UP : !UntornPools}.
Implicit Types (c : Blockchain) (b : Block) (l : Ledger) (e : BlockIndexEntry) (idx : gmap Hash BlockIndexEntry).

(** ** Reachable chains *)

(** What is set once, before the first block. *)
Inductive configures : Blockchain → Blockchain → Prop :=
| cf_pq c d : configures c (set_pq_deployment c d)
| cf_domain c d : configures c (set_tx_domain_deployment c d)
| cf_grace c n : configures c (set_tx_domain_grace_blocks c n)
| cf_fees c d : configures c (set_fee_auction_deployment c d)
| cf_v2 c d : configures c (set_shielded_v2_deployment c d)
| cf_suite2 c d : configures c (set_shielded_v2_suite2_deployment c d)
| cf_recovery c d : configures c (set_shielded_v2_suite2_recovery_deployment c d)
| cf_timestamp c d : configures c (set_tx_timestamp_deployment c d).
(** What a running node does to its chain. *)
Inductive chain_step : Blockchain → Blockchain → Prop :=
| st_import c b c' r : import_block_tracked c b = Some (c', r) → chain_step c c'
| st_mask c mask : chain_step c (set_signal_mask c mask)
| st_coinbase c a : chain_step c (set_coinbase c a)
| st_pins c pins : chain_step c (set_checkpoints c pins)
| st_add c pins c' : add_checkpoints c pins = Some c' → chain_step c c'
| st_relink c c' n : relink_checkpoint_from_local c = Some (c', n) → chain_step c c'
| st_install c hs c' r : install_checkpoint_linkage c hs = (c', r) → chain_step c c'
| st_extend c hs c' r : extend_checkpoint_linkage c hs = (c', r) → chain_step c c'
| st_adopt c depth c' r : adopt_local_finalized_checkpoint c depth = Some (c', r) → chain_step c c'.

Definition reachable (g : GenesisConfig) c : Prop :=
  ∃ c0 c1, new g = Some (Ok c0) ∧ rtc configures c0 c1 ∧ rtc chain_step c1 c.
(** The target of the mining policy is an array of 32 bytes. *)
Definition config_wf (g : GenesisConfig) : Prop := Target.wf (sha256d_target (gc_mining g)).

(** ** The start *)

Lemma build_ledger g l b a : build g = Some (Ok (l, b, a)) → rtc mutates Ledger.new l.
Proof.
  unfold build. intros E. match type of E with match ?x with _ => _ end = _ => destruct x as [l'|] eqn:Ec; [|done] end.
  destruct (receipts_root_ []) as [root|]; [|done]. cbn [mbind option_bind] in E.
  destruct (assemble _ _ _ _ _ _ _) as [b'|]; [|done]. cbn [mbind option_bind] in E. injection E as -> _ _.
  unfold mbind, result_bind in Ec. destruct (checked_total 0 _) as [t1|]; [|done].
  destruct (checked_total t1 _) as [t2|]; [|done]. destruct (ok_or (checked_add u128_max t2 _) _) as [t3|]; [|done].
  destruct (MAX_SUPPLY_GRAINS <? t3); [done|].
  set (l0 := foldl _ Ledger.new (gc_accounts g)) in Ec. assert (rtc mutates Ledger.new l0) as H0.
  { clear Ec. unfold l0. clear l0. generalize Ledger.new. induction (gc_accounts g) as [|x xs IH]; intros m; [done|]. cbn [foldl].
    eapply rtc_l; [|apply IH]. eexists. apply LedgerUndo.m_account. }
  etrans; [exact H0|]. clear H0 t1 t2 t3. clearbody l0. revert l0 Ec. induction (gc_vesting g) as [|v vs IH]; intros l0 Ec.
  { by injection Ec as ->. }
  cbn [foldl] in Ec. destruct (apply_vesting (Ok l0) v) as [l1|er] eqn:Ev.
  - eapply rtc_l; [|by apply IH]. unfold apply_vesting, mbind, result_bind in Ev.
    destruct (negb _); [done|]. destruct (ok_or _ _); [|done]. injection Ev as <-. eexists. apply LedgerUndo.m_account.
  - exfalso. clear IH Ev l0. induction vs as [|w vs IH]; [done|]. by apply IH.
Qed.
Lemma build_block g l b a : build g = Some (Ok (l, b, a)) →
  block_height b = 0 ∧ bits (header b) = Target.to_compact (sha256d_target (gc_mining g)).
Proof.
  unfold build. intros E. match type of E with match ?x with _ => _ end = _ => destruct x as [l'|]; [|done] end.
  destruct (receipts_root_ []) as [root|]; [|done]. cbn [mbind option_bind] in E. unfold assemble in E.
  destruct (compute_tx_root []) as [tr|]; [|done]. cbn [mbind option_bind] in E. injection E as <- <- <-. done.
Qed.

(** Right after [new], only genesis is known. *)
Definition fresh c : Prop := chain_ok c [] ∧ ∃ b e, blocks c = [b] ∧ index_ c = {[block_hash b := e]}.

Lemma new_fresh g c : config_wf g → new g = Some (Ok c) → fresh c.
Proof.
  intros Hwf E. unfold new in E. destruct (build g) as [[[[l b] a]|]|] eqn:Eb; [|done..]. cbn [mbind option_bind] in E.
  destruct (check_ledger l _) as [[]|]; [|done].
  destruct (canonical_target _) as [t|] eqn:Et; [|done]. cbn [mbind option_bind] in E. injection E as <-.
  destruct (run_plain _ _ (new_canonical) eq_refl (build_ledger _ _ _ _ Eb)) as [Hcan Hun].
  destruct (build_block _ _ _ _ Eb) as [Hh Hbits]. split; [|by eexists b, _].
  set (e := mkEntry _ _ _ _ _). match goal with |- chain_ok ?x _ => set (c := x) end.
  assert (replayed c {[block_hash b := e]} [b] (st l) ∅ [] []) as Hr.
  { apply (replayed_genesis c); try done. exists e. split; [apply lookup_singleton_eq|done]. }
  assert (∀ h e', index_ c !! h = Some e' → block_hash b = h ∧ e = e') as Hidx.
  { intros h e' He. by apply (lookup_singleton_Some (M := gmap Hash) _ _ e e'). }
  constructor; try done.
  - intros h e' [<- <-]%Hidx. done.
  - intros h e' [<- <-]%Hidx. exists [], (st l), ∅, []. split; [exact Hr|].
    unfold branch_work, add_work. simpl. unfold c. cbn [index_]. by rewrite lookup_singleton_eq.
  - intros h e' [<- <-]%Hidx. cbn [e_block e_sha_target e].
    split; [by rewrite Hbits|]. by eapply canonical_target_sound.
  - intros he h e' [_ <-]%Hidx [<- <-]%Hidx. split; [done|].
    intros _ _. rewrite Hash_ltb_val. apply N.ltb_irrefl.
Qed.

(** The genesis block alone replays under any rules. *)
Lemma fresh_configures c c' : configures c c' → fresh c → fresh c'.
Proof.
  intros Hc (OK & b & e & Eb & Ei).
  assert (genesis_ledger c' = genesis_ledger c ∧ genesis_hash c' = genesis_hash c ∧ index_ c' = index_ c ∧
    head_ c' = head_ c ∧ blocks c' = blocks c ∧ ledger_ c' = ledger_ c ∧ signals_ c' = signals_ c ∧
    undo_ring c' = undo_ring c ∧ active_receipts c' = active_receipts c ∧ mining_ c' = mining_ c)
    as (F1 & F2 & F3 & F4 & F5 & F6 & F7 & F8 & F9 & F10) by (by destruct Hc).
  assert (∀ s log rss ring, replayed c (index_ c) [b] s log rss ring → replayed c' (index_ c') [b] s log rss ring) as Hrep.
  { intros s log rss ring Hr. remember [b] as all eqn:E. destruct Hr as [g H1 H2 H3 H4|bs p x].
    - rewrite <- F1. apply replayed_genesis; congruence.
    - apply (f_equal length) in E. rewrite !length_app in E. simpl in E. lia. }
  split; [|by exists b, e; rewrite F5, F3].
  destruct OK as [[H1 H2] H3 H4 H5 H6 H7 H8 H9 H10]. rewrite Eb in H1.
  constructor; rewrite ?F1, ?F3, ?F4, ?F5, ?F9, ?F10; try done.
  - rewrite F3 in Hrep. split; rewrite ?F5, ?F6, ?F7, ?F8, ?Eb; [by apply Hrep|done].
  - intros h e' He. pose proof He as He'. rewrite Ei in He'. apply (lookup_singleton_Some (M := gmap Hash) _ _ e e') in He' as [_ <-].
    destruct (H4 _ _ He) as (bs & s & log & rss & Hr & Hw).
    assert (e_block e = b) as Ee.
    { destruct (replayed_indexed _ _ _ _ _ _ _ H1 b) as (e' & He'' & Ee'); [left|]. rewrite Ei in He''.
      apply (lookup_singleton_Some (M := gmap Hash) _ _ e e') in He'' as [_ <-]. done. }
    rewrite Ee in *. assert (bs = []) as ->.
    { by eapply (branch_unique _ _ bs b _ _ _ _ Hr []). }
    exists [], s, log, rss. rewrite Ee. split; [by apply Hrep|by rewrite F3].
Qed.

Lemma relink_core c c' n : relink_checkpoint_from_local c = Some (c', n) → core c' = core c.
Proof.
  unfold relink_checkpoint_from_local. intros E. destruct (bool_decide _); [by injection E as <- _|].
  destruct (height_ c) as [top|]; [|done]. cbn [mbind option_bind] in E. destruct (_ <? _); [by injection E as <- _|].
  destruct (negb _); [by injection E as <- _|].
  destruct (install_checkpoint_linkage c _) as [c1 r] eqn:Ei. injection E as <- _. unfold install_checkpoint_linkage in Ei.
  repeat case_match; by simplify_eq.
Qed.
Lemma extend_loop_core newest pinned hs : ∀ c c' r, extend_loop newest pinned c hs = (c', r) → core c' = core c.
Proof.
  induction hs as [|h hs IH]; intros c c' r E; cbn [extend_loop] in E; [by simplify_eq|].
  repeat case_match; simplify_eq; try done. by apply IH in E.
Qed.
Lemma step_core c c' : chain_step c c' → (∃ b r, import_block_tracked c b = Some (c', r)) ∨ core c' = core c.
Proof.
  destruct 1 as [c b c' r E| | | |c pins c' E|c c' n E|c hs c' r E|c hs c' r E|c depth c' r E]; try (right; done).
  - left; eauto.
  - right. unfold add_checkpoints in E.
    destruct (relink_checkpoint_from_local _) as [[c1 n]|] eqn:Er; [|done]. injection E as <-. by apply relink_core in Er.
  - right. by eapply relink_core.
  - right. unfold install_checkpoint_linkage in E. repeat case_match; by simplify_eq.
  - right. unfold extend_checkpoint_linkage in E. repeat case_match; simplify_eq; try done; by apply extend_loop_core in E.
  - right. unfold adopt_local_finalized_checkpoint, add_checkpoints in E.
    destruct (_ || _); [by injection E as <- _|]. destruct (height_ c) as [top|]; [|done]. cbn [mbind option_bind] in E.
    destruct (checked_sub _ _) as [h|]; [|by injection E as <- _]. destruct (_ <=? _); [by injection E as <- _|].
    destruct (block_by_height c h) as [b|]; [|by injection E as <- _].
    destruct (relink_checkpoint_from_local _) as [[c1 n]|] eqn:Er; [|done]. injection E as <- _. by apply relink_core in Er.
Qed.

Lemma steps_ok c c' rss : rtc chain_step c c' → chain_ok c rss → ∃ rss', chain_ok c' rss' ∧ rules c' = rules c.
Proof.
  intros Hs. revert rss. induction Hs as [c|c c1 c' Hs _ IH]; intros rss OK; [by exists rss|].
  apply step_core in Hs as [(b & r & E)|E].
  - destruct (import_ok _ _ _ _ _ OK E) as ((rss1 & OK1) & Er & _). destruct (IH _ OK1) as (rss' & ? & ?).
    exists rss'. split; [done|congruence].
  - destruct (IH rss) as (rss' & ? & ?); [by eapply chain_ok_core|]. apply core_inv in E as (Er & _).
    exists rss'. split; [done|congruence].
Qed.
(** Blocks are never forgotten. *)
Lemma outcome_index c b c' r : outcome c b c' r → index_ c ⊆ index_ c'.
Proof.
  destruct 1 as [_ ->|er Hn Hv|cand Hn _ Hv|cand im Hn _ Hi _]; [done|..].
  - assert (index_ c' = index_ c) as -> by (apply fixed_rules; exact (f_equal (λ x, x.1.1.1.1.1) Hv)). done.
  - assert (index_ c' = index_ (insert_entry c b cand)) as -> by (apply fixed_rules; exact (f_equal (λ x, x.1.1.1.1.1) Hv)).
    by apply insert_subseteq.
  - rewrite Hi. by apply insert_subseteq.
Qed.
Lemma steps_index c c' rss : rtc chain_step c c' → chain_ok c rss → index_ c ⊆ index_ c'.
Proof.
  intros Hs. revert rss. induction Hs as [c|c c1 c' Hs _ IH]; intros rss OK; [done|].
  apply step_core in Hs as [(b & r & E)|E].
  - destruct (import_ok _ _ _ _ _ OK E) as ((rss1 & OK1) & _ & Ho). etrans; [by eapply outcome_index|by eapply IH].
  - pose proof E as (_ & <- & _)%core_inv. eapply IH. by eapply chain_ok_core.
Qed.
Lemma reachable_ok g c : config_wf g → reachable g c → ∃ rss, chain_ok c rss.
Proof.
  intros Hw (c0 & c1 & E & Hc & Hs). pose proof (new_fresh _ _ Hw E) as Hf.
  assert (fresh c1) as [OK _] by (clear E Hs; induction Hc; eauto using fresh_configures).
  destruct (steps_ok _ _ _ Hs OK) as (rss & ? & _). by exists rss.
Qed.

(** The first block is the one [new] built. *)
Lemma reachable_genesis g c n : config_wf g → reachable g c → new g = Some (Ok n) → blocks c !! 0%nat = blocks n !! 0%nat.
Proof.
  intros Hw R En. destruct (reachable_ok _ _ Hw R) as (rss & OK). destruct R as (c0 & c1 & E & Hc & Hs). rewrite En in E.
  injection E as <-. pose proof (new_fresh _ _ Hw En) as Hf. 
  assert (fresh c1 ∧ blocks c1 = blocks n ∧ genesis_hash c1 = genesis_hash n) as ((OK1 & _) & Eb & _).
  { clear En Hs. induction Hc as [|n c2 c1 Hc _ IH]; [done|]. destruct IH as (H1 & H2 & H3); [by eapply fresh_configures|].
    rewrite H2, H3. by destruct Hc. }
  rewrite <- Eb. pose proof (ok_live _ _ OK) as [L _]. pose proof (ok_live _ _ OK1) as [L1 _].
  destruct (replayed_head _ _ _ _ _ _ _ L) as (x & Hx & Ex). destruct (replayed_head _ _ _ _ _ _ _ L1) as (y & Hy & Ey).
  destruct (steps_ok _ _ _ Hs OK1) as (_ & _ & Er). rewrite Hx, Hy. f_equal.
  assert (genesis_hash c = genesis_hash c1) as Egh by exact (f_equal (λ x, x.1.2) Er).
  eapply (indexed_eq (index_ c)); [by eapply (replayed_indexed _ _ _ _ _ _ _ L), list_elem_of_lookup_2| |congruence].
  destruct (replayed_indexed _ _ _ _ _ _ _ L1 y) as (e & He & Ee); [by eapply list_elem_of_lookup_2|].
  exists e. split; [|done]. eapply lookup_weaken; [done|]. by eapply steps_index.
Qed.

(** ** The reference: execute the blocks from genesis *)

(** Every block at the target its bits denote, with the signals of the blocks
    before it; no checks, no undo, no caches. *)
Definition run_block c (acc : Ledger * gmap N N * list (N * list Receipt)) b :
    option (Ledger * gmap N N * list (N * list Receipt)) :=
  let '(l, log, rss) := acc in
  target ← Target.from_compact (bits (header b));
  '(l, r) ← execute_block_on c l b target log;
  match r with
  | Ok rs => Some (l, <[block_height b := version_bits (header b)]> log, rss ++ [(block_height b, rs)])
  | Err _ => None
  end.
Definition run_blocks c (bs : list Block) : option (Ledger * gmap N N * list (N * list Receipt)) :=
  foldl (λ acc b, x ← acc; run_block c x b) (Some (genesis_ledger c, ∅, [])) bs.

Lemma replayed_run c idx bs s log rss ring : sealed idx → replayed c idx bs s log rss ring →
  ∃ l, run_blocks c (drop 1 bs) = Some (l, log, rss) ∧ st l = s.
Proof.
  intros Hse. induction 1 as [g Hg H0 Hc Hi|bs p b e s log rss ring s' rs ring' Hr IH He Hb Hp Hh Hs].
  { by exists (genesis_ledger c). }
  destruct IH as (l & El & Est). destruct Hs as [(l' & Ex & Es') _].
  assert (drop 1 ((bs ++ [p]) ++ [b]) = drop 1 (bs ++ [p]) ++ [b]) as ->.
  { rewrite drop_app_le; [done|]. rewrite length_app. simpl. lia. }
  unfold run_blocks in *. rewrite foldl_app, El. cbn [foldl mbind option_bind run_block].
  destruct (Hse _ _ He) as [Ht _]. rewrite Hb in Ht. rewrite Ht. cbn [mbind option_bind].
  assert (l ≡ bare s) as Eq by exact Est.
  pose proof (execute_equiv c l (bare s) b (e_sha_target e) log Eq) as Hx. rewrite Ex in Hx.
  destruct (execute_block_on c l b (e_sha_target e) log) as [[l2 r2]|]; [|done]. destruct Hx as [E2 Er]. simpl in E2, Er.
  subst r2. exists l2. split; [done|]. rewrite <- Es'. exact E2.
Qed.

(** C4: the live state of a node is the plain execution of its active blocks from
    genesis.  Whatever sequence of imports, reorganisations (with undo logs or by
    rebuilding), rejected blocks and rollbacks brought the node there, its ledger,
    its signal history and its receipts are those of running the active blocks in
    order, each at the target its header's bits denote. *)
Theorem live_state_is_replay g c :
  config_wf g → reachable g c →
  ∃ l rss, run_blocks c (drop 1 (blocks c)) = Some (l, signals_ c, rss) ∧
    st l = st (ledger_ c) ∧ active_receipts c = recs rss.
Proof.
  intros Hw Hr. destruct (reachable_ok _ _ Hw Hr) as (rss & OK). pose proof (ok_live _ _ OK) as [HL _].
  destruct (replayed_run _ _ _ _ _ _ _ (ok_sealed _ _ OK) HL) as (l & E & Es).
  exists l, rss. split_and!; [done|done|apply (ok_receipts _ _ OK)].
Qed.

(** ** Nodes that know the same blocks *)

(** The blocks of an index. *)
Definition known_blocks c : gmap Hash Block := e_block <$> index_ c.

Lemma known_entry c1 c2 h e1 : known_blocks c1 = known_blocks c2 → sealed (index_ c1) → sealed (index_ c2) →
  index_ c1 !! h = Some e1 → ∃ e2, index_ c2 !! h = Some e2 ∧ e_block e2 = e_block e1 ∧ e_sha_target e2 = e_sha_target e1.
Proof.
  intros Ek S1 S2 He. assert (known_blocks c2 !! h = Some (e_block e1)) as Hk.
  { rewrite <- Ek. unfold known_blocks. by rewrite lookup_fmap, He. }
  unfold known_blocks in Hk. rewrite lookup_fmap in Hk. destruct (index_ c2 !! h) as [e2|] eqn:E2; [|done].
  injection Hk as Eb. exists e2. split_and!; try done. destruct (S1 _ _ He) as [T1 _], (S2 _ _ E2) as [T2 _]. rewrite Eb in T2. congruence.
Qed.
Lemma replayed_known c1 c2 bs s log rss ring :
  rules c1 = rules c2 → known_blocks c1 = known_blocks c2 → sealed (index_ c1) → sealed (index_ c2) →
  replayed c1 (index_ c1) bs s log rss ring →
  replayed c2 (index_ c2) bs s log rss ring ∧ branch_work (index_ c2) bs = branch_work (index_ c1) bs.
Proof.
  intros Er Ek S1 S2 Hr. apply (replayed_rules _ c2) in Hr; [|done].
  induction Hr as [g Hg H0 Hc (e & He & Eb)|bs p b e s log rss ring s' rs ring' Hr [IH IW] He Hb Hp Hh Hs Hc Hring].
  - destruct (known_entry _ _ _ _ Ek S1 S2 He) as (e2 & E2 & Eb2 & Et2). split.
    + constructor; try done. exists e2. split; [done|congruence].
    + unfold branch_work, add_work. simpl. by rewrite He, E2, Et2.
  - destruct (known_entry _ _ _ _ Ek S1 S2 He) as (e2 & E2 & Eb2 & Et2). split.
    + econstructor; [exact IH|exact E2|congruence|done|done|by rewrite Et2|done|done].
    + rewrite !(branch_work_snoc _ (bs ++ [p])), IW. unfold add_work. by rewrite He, E2, Et2.
Qed.
Lemma known_work c1 c2 rss1 rss2 h e1 e2 :
  rules c1 = rules c2 → known_blocks c1 = known_blocks c2 → chain_ok c1 rss1 → chain_ok c2 rss2 →
  index_ c1 !! h = Some e1 → index_ c2 !! h = Some e2 → e_chain_work e1 = e_chain_work e2.
Proof.
  intros Er Ek OK1 OK2 E1 E2. destruct (ok_known _ _ OK1 _ _ E1) as (bs & s & log & rss & Hr & ->).
  destruct (ok_known _ _ OK2 _ _ E2) as (bs' & s' & log' & rss' & Hr' & ->).
  destruct (known_entry _ _ _ _ Ek (ok_sealed _ _ OK1) (ok_sealed _ _ OK2) E1) as (e2' & E2' & Eb & _).
  rewrite E2 in E2'. injection E2' as <-. rewrite <- Eb in *.
  destruct (replayed_known _ _ _ _ _ _ _ Er Ek (ok_sealed _ _ OK1) (ok_sealed _ _ OK2) Hr) as [Hr2 <-].
  by rewrite (branch_unique _ _ _ _ _ _ _ _ Hr2 _ _ _ _ _ Hr').
Qed.

Lemma Hash_ltb_total (x y : Hash) : Hash_ltb x y = false → Hash_ltb y x = false → x = y.
Proof.
  rewrite !Hash_ltb_val, !N.ltb_ge. intros H1 H2. apply as_bytes_inj, be_val_inj; [|apply as_bytes_ok..|lia].
  by rewrite !length_as_bytes.
Qed.

(** C5: nodes converge.  Two nodes on the same genesis and rules that know the
    same blocks have the same head, the same active chain, the same ledger, the
    same signal history and the same receipts, in whatever order the blocks
    arrived and whatever reorganisations each went through (as long as cumulative
    work is below the 256-bit saturation point). *)
Theorem nodes_converge g c1 c2 :
  config_wf g → reachable g c1 → reachable g c2 → rules c1 = rules c2 → known_blocks c1 = known_blocks c2 →
  (∀ w, chain_work c1 = Some w → w < u256_max) →
  head_ c1 = head_ c2 ∧ blocks c1 = blocks c2 ∧ st (ledger_ c1) = st (ledger_ c2) ∧
  signals_ c1 = signals_ c2 ∧ active_receipts c1 = active_receipts c2.
Proof.
  intros Hw R1 R2 Er Ek Hlt. destruct (reachable_ok _ _ Hw R1) as (rss1 & OK1). destruct (reachable_ok _ _ Hw R2) as (rss2 & OK2).
  destruct (head_entry _ _ OK1) as (bs1 & p1 & h1 & B1 & P1 & H1 & E1 & _).
  destruct (head_entry _ _ OK2) as (bs2 & p2 & h2 & B2 & P2 & H2 & E2 & _).
  specialize (Hlt (e_chain_work h1)). unfold chain_work in Hlt. rewrite H1 in Hlt. specialize (Hlt eq_refl).
  destruct (known_entry _ _ _ _ Ek (ok_sealed _ _ OK1) (ok_sealed _ _ OK2) H1) as (x2 & X2 & Xb2 & _).
  destruct (known_entry _ _ _ _ (eq_sym Ek) (ok_sealed _ _ OK2) (ok_sealed _ _ OK1) H2) as (x1 & X1 & Xb1 & _).
  destruct (ok_best _ _ OK1 _ _ _ H1 X1) as [W1 T1]. destruct (ok_best _ _ OK2 _ _ _ H2 X2) as [W2 T2].
  pose proof (known_work _ _ _ _ _ _ _ Er Ek OK1 OK2 H1 X2) as K1.
  pose proof (known_work _ _ _ _ _ _ _ Er Ek OK1 OK2 X1 H2) as K2.
  assert (head_ c1 = head_ c2) as Eh by (apply Hash_ltb_total; [apply T2|apply T1]; lia).
  pose proof (ok_live _ _ OK1) as [L1 _]. pose proof (ok_live _ _ OK2) as [L2 _]. rewrite B1 in L1. rewrite B2 in L2.
  destruct (replayed_known _ _ _ _ _ _ _ Er Ek (ok_sealed _ _ OK1) (ok_sealed _ _ OK2) L1) as [L1' _].
  assert (p1 = p2) as <-.
  { eapply (indexed_eq (index_ c2)); [eapply replayed_indexed; [exact L1'|set_solver]|
      eapply replayed_indexed; [exact L2|set_solver]|congruence]. }
  pose proof (branch_unique _ _ _ _ _ _ _ _ L1' _ _ _ _ _ L2) as Ebs. subst bs2.
  destruct (replayed_det _ _ _ _ _ _ _ L1' _ _ _ _ L2) as (-> & -> & Erss).
  split_and!; try done; [congruence|]. by rewrite (ok_receipts _ _ OK1), (ok_receipts _ _ OK2), Erss.
Qed.

(** C6: fork choice.  The head is a known block of maximal cumulative work, ties
    going to the smaller hash; the work recorded for every known block is the
    saturating sum of the work of its branch down to genesis, and that branch is
    valid: it executes from genesis and ends in that block. *)
Theorem fork_choice g c :
  config_wf g → reachable g c →
  ∃ he, index_ c !! head_ c = Some he ∧
  ∀ h e, index_ c !! h = Some e →
    e_chain_work e ≤ e_chain_work he ∧
    (e_chain_work e = e_chain_work he → e_chain_work he < u256_max → Hash_ltb h (head_ c) = false) ∧
    ∃ bs, block_hash <$> (bs ++ [e_block e]) !! 0%nat = Some (genesis_hash c) ∧
      e_chain_work e = branch_work (index_ c) (bs ++ [e_block e]) ∧
      is_Some (run_blocks c (drop 1 (bs ++ [e_block e]))).
Proof.
  intros Hw R. destruct (reachable_ok _ _ Hw R) as (rss & OK). destruct (head_entry _ _ OK) as (_ & _ & he & _ & _ & He & _).
  exists he. split; [done|]. intros h e E. destruct (ok_best _ _ OK _ _ _ He E) as [H1 H2].
  split_and!; [done|done|]. destruct (ok_known _ _ OK _ _ E) as (bs & s & log & rss' & Hr & Hwk). exists bs.
  destruct (replayed_head _ _ _ _ _ _ _ Hr) as (g0 & G0 & G1). rewrite G0. split_and!; [by simpl; rewrite G1|done|].
  destruct (replayed_run _ _ _ _ _ _ _ (ok_sealed _ _ OK) Hr) as (l & -> & _). by eexists.
Qed.

(** The undo ring holds the logs of the newest active blocks, in order, and the
    newest [m] of them take the ledger back to the execution of the blocks below. *)
Definition ring_covers c : Prop :=
  (undo_ring c).*1 = drop (length (blocks c) - length (undo_ring c))
    ((λ b, (block_height b, block_hash b)) <$> blocks c) ∧
  ∀ m, (m ≤ length (undo_ring c))%nat → ∃ l log rss,
    run_blocks c (drop 1 (take (length (blocks c) - m) (blocks c))) = Some (l, log, rss) ∧
    st l = unwind (st (ledger_ c)) (take m (reverse (undo_ring c))).
Lemma chain_ring c rss : chain_ok c rss → ring_covers c.
Proof.
  intros OK. destruct (ok_live _ _ OK) as [HL _]. split; [by eapply replayed_ring_labels|].
  intros m Hm. destruct (replayed_unwinds _ _ _ _ _ _ _ HL m Hm) as (log' & rss' & ring' & Hr).
  destruct (replayed_run _ _ _ _ _ _ _ (ok_sealed _ _ OK) Hr) as (l & E & Es). by exists l, log', rss'.
Qed.

(** C7: an import that returns has one of four outcomes.  The block was known and
    nothing changes; it is rejected, and the active chain, the head, the index, the
    configuration, the ledger's store, the signals and the receipts are untouched,
    however far a reorganisation had got before it failed; it is stored on a lighter
    branch, and of these only the index changes, by its entry; or it is adopted as
    the head.  Trying a branch may shorten the undo ring; whatever the outcome, the
    ring is the logs of the newest active blocks, any number of which take the ledger
    back to the execution of the blocks below.  The cached difficulty and the
    transaction locator are not compared. *)
Theorem import_classified g c b c' r :
  config_wf g → reachable g c → import_block_tracked c b = Some (c', r) → outcome c b c' r ∧ ring_covers c'.
Proof.
  intros Hw R E. destruct (reachable_ok _ _ Hw R) as (rss & OK).
  destruct (import_ok _ _ _ _ _ OK E) as ((rss' & OK') & _ & Ho). split; [done|by eapply chain_ring].
Qed.

(** ** The ledger of a reachable chain *)

Lemma steps_rules g c : config_wf g → reachable g c → ∃ c0, new g = Some (Ok c0) ∧
  genesis_ledger c = genesis_ledger c0 ∧ mining_ c = mining_ c0 ∧ genesis_hash c = genesis_hash c0.
Proof.
  intros Hw (c0 & c1 & E & Hc & Hs). exists c0. split; [done|]. pose proof (new_fresh _ _ Hw E) as Hf.
  assert (fresh c1 ∧ genesis_ledger c1 = genesis_ledger c0 ∧ mining_ c1 = mining_ c0 ∧ genesis_hash c1 = genesis_hash c0)
    as ((OK & _) & E1 & E2 & E3).
  { clear E Hs. induction Hc as [|c0 c2 c1 Hc _ IH]; [done|]. destruct IH as (H1 & H2 & H3 & H4); [by eapply fresh_configures|].
    rewrite H2, H3, H4. by destruct Hc. }
  destruct (steps_ok _ _ _ Hs OK) as (rss & _ & Er). rewrite <- E1, <- E2, <- E3.
  split_and!; [exact (f_equal (λ x, x.1.1.2) Er)|exact (f_equal (λ x, x.1.1.1.2) Er)|exact (f_equal (λ x, x.1.2) Er)].
Qed.

(** C10: every ledger a node ever stands on is sound: the native supply is within
    the cap, the mined coins within the budget of the genesis policy, every asset
    conserved, and no compliance record orphaned. *)
Theorem reachable_sound g c :
  config_wf g → reachable g c →
  (∃ supply, total_supply (ledger_ c) = Some supply ∧ supply ≤ MAX_SUPPLY_GRAINS) ∧
  mined_emitted (st (ledger_ c)) ≤ mining_budget_grains (gc_mining g) ∧
  tokens_conserved (st (ledger_ c)) ∧ compliance_attached (st (ledger_ c)).
Proof.
  intros Hw R. destruct (reachable_ok _ _ Hw R) as (rss & OK). destruct (steps_rules _ _ Hw R) as (c0 & En & Eg & Em & _).
  unfold new in En. destruct (build g) as [[[[l b] a]|]|]; [|done..]. cbn [mbind option_bind] in En.
  destruct (check_ledger l _) as [[]|] eqn:Ec; [|done].
  destruct (canonical_target _) as [t|]; [|done]. cbn [mbind option_bind] in En. injection En as <-. cbn in Eg, Em.
  assert (check_ledger (ledger_ c) (gc_mining g) = Ok ()) as Hck.
  { pose proof (ok_live _ _ OK) as [HL _].
    change (check_ledger (ledger_ c) (gc_mining g)) with (check_ledger (bare (st (ledger_ c))) (gc_mining g)).
    destruct HL as [|bs p x e s log rss' ring s' rs ring' _ _ _ _ _ (_ & _ & _ & Hx)]; [by rewrite Eg|].
    unfold check_ledger, policy_with in *. cbn in Hx. by rewrite Em in Hx. }
  apply check_ledger_iff in Hck. tauto.
Qed.
End safety.
End ChainSafety.
