(* ===== verification/ChainGates.v ===== *)
(** * Activation gates of a branch (crates/chain/src/blockchain.rs)

    Validation resolves the upgrade gates of a block before executing it, from the
    signals of the block's own branch; execution resolves them from the history it
    replays.  Both agree, for every block whose parent is known. *)

From S2P Require Import Prelude Primitives Pow Mining Governance Crypto Compliance Smt Types Block.
From S2P Require Import Gas Vault Ledger ShieldedV2 Execution LedgerUndo LedgerEquiv ExecSteps ExecStore.
From S2P Require Import Verify Chain ChainReplay ChainInv ChainImport ChainSafety.

Module ChainGates.
Import Chain ChainReplay ChainInv ChainImport ChainSafety.

(** ** When a deployment is active *)

Section boundary.
Context (d : Deployment) (log : gmap N N) (Hp : 0 < period d).

Lemma boundary_loop_spec fuel k n B : (n + 1 - k ≤ fuel)%nat →
  boundary_loop fuel d log (N.of_nat n * period d) (N.of_nat k * period d) = Some B ↔
  ∃ j, (k ≤ j ≤ n)%nat ∧ B = N.of_nat j * period d ∧ state_win d log j = Active ∧
    ∀ i, (k ≤ i < j)%nat → state_win d log i ≠ Active.
Proof.
  revert k. induction fuel as [|fuel IH]; intros k Hf; cbn [boundary_loop].
  { split; [done|]. intros (j & ? & _). lia. }
  destruct (N.leb_spec (N.of_nat k * period d) (N.of_nat n * period d)) as [Hle|Hgt].
  2:{ split; [done|]. intros (j & Hj & _). apply N.mul_lt_mono_pos_r in Hgt; [|done]. lia. }
  apply N.mul_le_mono_pos_r in Hle; [|done].
  rewrite (state_at_win d Hp), N.div_mul, Nat2N.id by lia. case_bool_decide as Ha.
  - injection Ha as Ha. split.
    + intros [= <-]. exists k. split_and!; [lia|lia|done|done|]. intros i Hi. lia.
    + intros (j & Hj & -> & _ & Hmin). destruct (decide (k = j)) as [->|]; [done|]. exfalso. apply (Hmin k); [lia|done].
  - replace (N.of_nat k * period d + period d) with (N.of_nat (S k) * period d) by lia.
    rewrite IH by lia. split; intros (j & Hj & E & Hact & Hmin); exists j; split_and!; try done; try lia.
    + intros i Hi. destruct (decide (i = k)) as [->|]; [congruence|]. apply Hmin. lia.
    + destruct (decide (k = j)) as [->|]; [congruence|lia].
    + intros i Hi. apply Hmin. lia.
Qed.
Lemma activation_spec h B :
  activation_boundary d h log = Some B ↔
  ∃ j, (j ≤ N.to_nat (h / period d))%nat ∧ B = N.of_nat j * period d ∧ state_win d log j = Active ∧
    ∀ i, (i < j)%nat → state_win d log i ≠ Active.
Proof.
  unfold activation_boundary. fold (Governance.window_start d h). rewrite (window_start_mul d Hp), N.div_mul by lia.
  set (n := N.to_nat (h / period d)). replace (h / period d) with (N.of_nat n) by (by unfold n; rewrite N2Nat.id).
  rewrite <- (N.mul_1_l (period d)) at 2. change 1 with (N.of_nat 1). rewrite boundary_loop_spec by lia.
  split; intros (j & Hj & E & Hact & Hmin); exists j; split_and!; try done; try lia.
  - intros i Hi. destruct i; [done|]. apply Hmin. lia.
  - destruct j; [done|lia].
  - intros i Hi. apply Hmin. lia.
Qed.
Lemma active_stays i j : (i ≤ j)%nat → state_win d log i = Active → state_win d log j = Active.
Proof.
  intros Hij Hi. pose proof (state_win_lifecycle d log i j Hij) as Hr. rewrite Hi in Hr.
  inversion Hr as [|? y ? Hs _]; [done|]. inversion Hs.
Qed.
Lemma first_active n : state_win d log n = Active → ∃ j, (j ≤ n)%nat ∧ state_win d log j = Active ∧
  ∀ i, (i < j)%nat → state_win d log i ≠ Active.
Proof.
  induction n as [|n IH]; intros Ha.
  - exists 0%nat. split_and!; [done|done|]. intros i Hi. lia.
  - destruct (decide (state_win d log n = Active)) as [Hn|Hn].
    + destruct (IH Hn) as (j & ? & ? & ?). exists j. split_and!; [lia|done|done].
    + exists (S n). split_and!; [done|done|]. intros i Hi Hai. apply Hn. apply (active_stays i); [lia|done].
Qed.
End boundary.

(** An upgrade gate is open exactly when the threshold machine says Active.
    The boundary walk finds the first window of the active phase: the gate at a
    height is open iff the machine is Active there, the boundary it reports is the
    first block of an active window with no active block before it, and once
    reported it never moves, however far the chain grows. *)
Theorem activation_exact (d : Deployment) (log : gmap N N) (h : N) :
  0 < period d →
  deployment_active_at (Some d) h log = bool_decide (state_at d h log = Some Active) ∧
  ∀ B, activation_boundary d h log = Some B →
    B ≤ h ∧ B mod period d = 0 ∧ state_at d B log = Some Active ∧
    (∀ h', h' < B → state_at d h' log ≠ Some Active) ∧
    ∀ h', h ≤ h' → activation_boundary d h' log = Some B.
Proof.
  intros Hp. split.
  - cbn [deployment_active_at]. apply bool_decide_ext. rewrite (state_at_win d Hp). split.
    + intros [B HB]. apply (activation_spec d log Hp) in HB as (j & Hj & _ & Ha & _). f_equal. by eapply active_stays.
    + intros [= Ha]. destruct (first_active d log Hp _ Ha) as (j & Hj & Haj & Hmin).
      exists (N.of_nat j * period d). apply (activation_spec d log Hp). by exists j.
  - intros B HB. apply (activation_spec d log Hp) in HB as (j & Hj & -> & Ha & Hmin).
    assert (N.of_nat j * period d ≤ h) as Hle.
    { etrans; [|apply (N.Div0.mul_div_le h (period d))]. rewrite N.mul_comm. apply N.mul_le_mono_l. lia. }
    split_and!; [done|apply N.Div0.mod_mul|by rewrite (state_at_win d Hp), N.div_mul, Nat2N.id, Ha by lia|..].
    + intros h' Hh'. rewrite (state_at_win d Hp). intros [= Ha']. apply (Hmin (N.to_nat (h' / period d))); [|done].
      rewrite N.mul_comm in Hh'. apply N.Div0.div_lt_upper_bound in Hh'. lia.
    + intros h' Hh'. apply (activation_spec d log Hp). exists j. split_and!; try done.
      pose proof (N.Div0.div_le_mono h h' (period d) Hh'). lia.
Qed.

Section gates.
Context `{CE : ChainEnv} `{UP : !UntornPools}.
Implicit Types (c : Blockchain) (b : Block) (idx : gmap Hash BlockIndexEntry).

Definition signal_of (log : gmap N N) b : gmap N N := <[block_height b := version_bits (header b)]> log.

(** A replay continues the signals of its prefix. *)
Lemma replayed_signals c idx bs p suf s log rss ring s' log' rss' ring' :
  replayed c idx ((bs ++ [p]) ++ suf) s log rss ring → replayed c idx (bs ++ [p]) s' log' rss' ring' →
  log = foldl signal_of log' suf.
Proof.
  revert s log rss ring. induction suf as [|b suf IH] using rev_ind; intros s log rss ring H1 H2.
  - rewrite app_nil_r in H1. by destruct (replayed_det _ _ _ _ _ _ _ H1 _ _ _ _ H2) as (_ & -> & _).
  - destruct (exists_last (l := (bs ++ [p]) ++ suf)) as (bs' & p' & Ep); [by destruct bs, suf|].
    rewrite app_assoc, Ep in H1.
    apply replayed_inv in H1 as (e & s0 & log0 & rss0 & ring0 & rs & H1 & _ & _ & _ & _ & _ & -> & _).
    rewrite <- Ep in H1. rewrite foldl_app, <- (IH _ _ _ _ H1 H2). done.
Qed.

Lemma removes_lookup (log : gmap N N) fork n h :
  foldl (λ log i, (SignalLogOps.remove log (fork + N.of_nat i)).1) log (seq 1 n) !! h =
  if bool_decide (fork < h ≤ fork + N.of_nat n) then None else log !! h.
Proof.
  induction n as [|n IH]; [simpl; case_bool_decide; [lia|done]|].
  rewrite seq_S, foldl_app. cbn [foldl]. unfold SignalLogOps.remove at 1. cbn [fst].
  destruct (decide (h = fork + N.of_nat (1 + n))) as [->|Hne].
  - rewrite lookup_delete_eq, bool_decide_true by lia. done.
  - rewrite lookup_delete_ne by done. rewrite IH. repeat case_bool_decide; try done; lia.
Qed.
Lemma signals_lookup p suf : ∀ log h, linked p suf → h ≤ block_height p → foldl signal_of log suf !! h = log !! h.
Proof.
  revert p. induction suf as [|b suf IH]; intros p log h Hl Hh; [done|]. destruct Hl as (_ & Hb & Hl). cbn [foldl].
  rewrite (IH b) by (done || lia). unfold signal_of. apply lookup_insert_ne. lia.
Qed.

(** The signals validation gives the branch of a known parent. *)
Lemma branch_signals_spec c rss bs q s log rss' ring :
  chain_ok c rss → replayed c (index_ c) (bs ++ [q]) s log rss' ring →
  branch_signals_from c (block_hash q) = Some log.
Proof.
  intros OK Hr. unfold branch_signals_from. pose proof (ok_live _ _ OK) as HL.
  destruct (head_entry _ _ OK) as (abs & t & he & Eb & _).
  destruct (live_height _ _ _ _ _ HL Eb) as [-> _]. cbn [mbind option_bind].
  destruct (locate_loop_spec c rss bs q s log rss' ring (S (size (index_ c))) [] HL (ok_keyed _ _ OK) Hr)
    as (pre & p & nb & suf & E1 & E2 & _ & -> & _); [apply replayed_size in Hr; lia|].
  rewrite reverse_involutive. f_equal. rewrite E1 in Hr. pose proof HL as [Hl _]. rewrite E2 in Hl.
  destruct (replayed_prefix _ _ _ _ _ _ _ _ _ Hr) as (s0 & log0 & rss0 & ring0 & H0).
  rewrite (replayed_signals _ _ _ _ _ _ _ _ _ _ _ _ _ Hr H0).
  pose proof (replayed_signals _ _ _ _ _ _ _ _ _ _ _ _ _ Hl H0) as Hs.
  pose proof (replayed_linked _ _ _ _ _ _ _ _ _ Hl) as Hlk.
  destruct (replayed_heights _ _ _ _ _ _ _ H0 (length pre) p) as [Hp _]; [by apply list_lookup_middle|].
  assert (foldl (λ log i, (SignalLogOps.remove log (block_height p + N.of_nat i)).1) (signals_ c)
    (seq 1 (N.to_nat (N.of_nat (length abs) - block_height p))) = log0) as ->.
  { apply map_eq. intros h. rewrite removes_lookup. case_bool_decide as Hh.
    - symmetry. apply (replayed_log _ _ _ _ _ _ _ H0). rewrite length_app. simpl. lia.
    - destruct (decide (h ≤ block_height p)) as [Hle|Hgt].
      + rewrite Hs. by apply (signals_lookup p).
      + rewrite (replayed_log _ _ _ _ _ _ _ Hl), (replayed_log _ _ _ _ _ _ _ H0); [done|..].
        * rewrite length_app. simpl. lia.
        * rewrite <- E2, Eb, length_app. simpl.
          assert (length abs ≥ length pre)%nat; [|lia]. apply (f_equal length) in E2. rewrite Eb, !length_app in E2. simpl in E2. lia. }
  clear. revert log0. induction nb as [|b nb IH]; intros log0; [done|]. cbn [fmap list_fmap foldl]. apply IH.
Qed.

(** C9: a branch's gates are those of its own history.  For every block whose
    parent is known, on the active chain or on any fork, the signing rules and the
    weight rule that validation applies are the ones execution will use when it
    replays that branch from genesis: both come from the signals of the branch, and
    never from the chain that happens to be active. *)
Theorem branch_gates_agree g c b pe target :
  config_wf g → reachable g c → index_ c !! h_prev_hash (header b) = Some pe →
  ∃ bs l log rss, run_blocks c (drop 1 (bs ++ [e_block pe])) = Some (l, log, rss) ∧
    branch_signals_of c b = Some log ∧
    branch_tx_domain_mode c b = Some (tx_domain (context_of c b target log)) ∧
    branch_shielded_v2_active c b = Some (shielded_v2_active (context_of c b target log)).
Proof.
  intros Hw R Hpe. destruct (reachable_ok _ _ Hw R) as (rss & OK).
  destruct (ok_known _ _ OK _ _ Hpe) as (bs & s & log & rss' & Hr & _). destruct (ok_keyed _ _ OK _ _ Hpe) as [Ek _].
  destruct (replayed_run _ _ _ _ _ _ _ (ok_sealed _ _ OK) Hr) as (l & Erun & _).
  assert (branch_signals_of c b = Some log) as Es.
  { unfold branch_signals_of. rewrite Ek. by eapply branch_signals_spec. }
  assert (h_prev_hash (header b) = head_ c → signals_ c = log) as Ehead.
  { intros Eh. pose proof (ok_live _ _ OK) as [HL _]. destruct (head_entry _ _ OK) as (abs & t & he & Eb & _ & He & Et & _).
    rewrite Eh, He in Hpe. injection Hpe as <-. rewrite Et in Hr. rewrite Eb in HL.
    rewrite (branch_unique _ _ _ _ _ _ _ _ HL _ _ _ _ _ Hr) in HL.
    by destruct (replayed_det _ _ _ _ _ _ _ HL _ _ _ _ Hr) as (_ & -> & _). }
  exists bs, l, log, rss'. split_and!; try done.
  - unfold branch_tx_domain_mode. destruct (tx_domain_deployment c) as [d|] eqn:Ed.
    + case_bool_decide as Eh; [by rewrite (Ehead Eh)|]. by rewrite Es.
    + cbn. unfold resolved_tx_domain_mode_with, tx_domain_activation_with. by rewrite Ed.
  - unfold branch_shielded_v2_active. destruct (shielded_v2_deployment c) as [d|] eqn:Ed.
    + case_bool_decide as Eh; [by rewrite (Ehead Eh)|]. by rewrite Es.
    + cbn. unfold shielded_v2_active_with. by rewrite Ed.
Qed.
End gates.
End ChainGates.
