(* ===== verification/ChainLinkage.v ===== *)
(** * Checkpoint linkage (crates/chain/src/blockchain.rs)

    A block whose hash was proven to be an ancestor of the newest pinned
    checkpoint is imported without a proof-of-work check.  Only header chains that
    lead from genesis to the pin ever enter that set, however the headers arrive. *)

From S2P Require Import Prelude Primitives Pow Mining Governance Crypto Compliance Smt Types Block.
From S2P Require Import Gas Vault Ledger ShieldedV2 Execution LedgerUndo LedgerEquiv ExecSteps ExecStore.
From S2P Require Import Verify Chain ChainReplay ChainInv ChainImport ChainSafety.

Module ChainLinkage.
Import Chain ChainReplay ChainInv ChainImport ChainSafety.

Section linkage.
Context `{CE : ChainEnv} `{UP : !UntornPools}.
Implicit Types (c : Blockchain) (b : Block) (h : BlockHeader) (hs : list BlockHeader).

(** ** Imports do not touch the pins *)

Definition pins c :=
  (checkpoints c, linked_to_checkpoint c, linkage_pending c, linkage_next_height c, linkage_prev c).

Lemma pins_connect c b t c' r : connect_to_active c b t = Some (c', r) → pins c' = pins c.
Proof.
  unfold connect_to_active. intros E. destruct (capture _); [|by simplify_eq].
  destruct (try_connect_block _ _ _ _ _) as [[l q]|]; [|done]. cbn [mbind option_bind] in E. destruct q; by injection E as <- _.
Qed.
Lemma pins_index c n rs : pins (index_block_receipts c n rs) = pins c.
Proof. by destruct rs. Qed.
Lemma pins_disconnect fuel : ∀ c t acc c' old, disconnect_loop fuel c t acc = Some (c', old) → pins c' = pins c.
Proof.
  induction fuel as [|fuel IH]; intros c t acc c' old E; cbn [disconnect_loop] in E;
    (destruct (height_ c) as [top|]; [|done]); cbn [mbind option_bind] in E; (destruct (t <? top); [|by simplify_eq]); [done|].
  destruct (disconnect_one c) as [[c1 b]|] eqn:E1; [|done]. cbn [mbind option_bind] in E. apply IH in E as ->.
  unfold disconnect_one in E1. destruct (last (undo_ring c)) as [[[rh ?] log]|]; [|done]. cbn [mbind option_bind] in E1.
  destruct (last (blocks c)); [|done]. cbn [mbind option_bind] in E1. injection E1 as <- _.
  unfold drop_receipts. by case_match.
Qed.
Lemma pins_disconnect_to c t c' old : disconnect_to c t = Some (c', old) → pins c' = pins c.
Proof.
  unfold disconnect_to. intros E. destruct (disconnect_loop _ _ _ _) as [[c1 o]|] eqn:E1; [|done]. cbn [mbind option_bind] in E.
  destruct (head_block c1); [|done]. cbn [mbind option_bind] in E. injection E as <- _. by apply pins_disconnect in E1.
Qed.
Lemma pins_reconnect bs : ∀ c c', reconnect_loop c bs = Some c' → pins c' = pins c.
Proof.
  induction bs as [|b bs IH]; intros c c' E; cbn [reconnect_loop] in E; [by simplify_eq|].
  destruct (index_ c !! _); [|done]. cbn [mbind option_bind] in E.
  destruct (connect_to_active _ _ _) as [[c1 [rs|]]|] eqn:Ec; [|done..]. cbn [mbind option_bind] in E.
  apply IH in E as ->. rewrite pins_index. by eapply pins_connect.
Qed.
Lemma pins_roll_back c t old c' : roll_back c t old = Some c' → pins c' = pins c.
Proof.
  unfold roll_back, reconnect. intros E. destruct (disconnect_to c t) as [[c1 o]|] eqn:E1; [|done]. cbn [mbind option_bind] in E.
  destruct (reconnect_loop c1 _) as [c2|] eqn:E2; [|done]. cbn [mbind option_bind] in E.
  destruct (head_block c2); [|done]. cbn [mbind option_bind] in E. injection E as <-.
  apply pins_reconnect in E2. apply pins_disconnect_to in E1. by rewrite <- E1.
Qed.
Lemma pins_branch record cand bs : ∀ c c' out, connect_branch c record cand bs = Some (c', out) → pins c' = pins c.
Proof.
  induction bs as [|b bs IH]; intros c c' out E; cbn [connect_branch] in E; [by simplify_eq|].
  destruct (match bs with [] => _ | _ => _ end) as [t|]; [|by simplify_eq].
  destruct (connect_to_active _ _ _) as [[c1 r]|] eqn:Ec; [|done]. cbn [mbind option_bind] in E. apply pins_connect in Ec as <-.
  destruct r as [rs|]; [|by simplify_eq].
  assert (pins (if record then index_block_receipts c1 (block_height b) rs else c1) = pins c1) as <- by (destruct record; [apply pins_index|done]).
  destruct bs; [by simplify_eq|]. by apply IH in E.
Qed.
Lemma pins_sync c c' : sync_active_difficulty c = Some c' → pins c' = pins c.
Proof.
  unfold sync_active_difficulty. intros E. destruct (index_ c !! _) as [e|]; [|done]. cbn [mbind option_bind] in E.
  destruct (base_target c e); [|done]. by simplify_eq/=.
Qed.
Lemma pins_reorg c b cand c' r : try_incremental_reorg c b cand = Some (c', r) → pins c' = pins c.
Proof.
  unfold try_incremental_reorg. intros E. destruct (locate_fork c b) as [[fork nb]|]; [|by simplify_eq].
  destruct (height_ c); [|done]. cbn [mbind option_bind] in E. destruct (_ || _); [by simplify_eq|].
  destruct (disconnect_to c fork) as [[c1 old]|] eqn:E1; [|done]. cbn [mbind option_bind] in E.
  destruct (connect_branch _ _ _ _) as [[c2 out]|] eqn:E2; [|done]. cbn [mbind option_bind] in E.
  apply pins_disconnect_to in E1 as <-. apply pins_branch in E2 as <-. destruct out.
  - destruct (sync_active_difficulty _) as [c3|] eqn:E3; [|done]. cbn [mbind option_bind] in E. injection E as <- _.
    by apply pins_sync in E3.
  - destruct (roll_back _ _ _) as [c3|] eqn:E3; [|done]. cbn [mbind option_bind] in E. injection E as <- _. by eapply pins_roll_back.
  - destruct (roll_back _ _ _) as [c3|] eqn:E3; [|done]. cbn [mbind option_bind] in E.
    destruct (sync_active_difficulty _) as [c4|] eqn:E4; [|done]. cbn [mbind option_bind] in E. injection E as <- _.
    apply pins_sync in E4 as ->. by eapply pins_roll_back.
Qed.
Lemma pins_side c b cand c' r : try_incremental_side_branch c b cand = Some (c', r) → pins c' = pins c.
Proof.
  unfold try_incremental_side_branch. intros E. destruct (locate_fork c b) as [[fork nb]|]; [|by simplify_eq].
  destruct (height_ c); [|done]. cbn [mbind option_bind] in E. destruct (_ || _); [by simplify_eq|].
  destruct (disconnect_to c fork) as [[c1 old]|] eqn:E1; [|done]. cbn [mbind option_bind] in E.
  destruct (connect_branch _ _ _ _) as [[c2 out]|] eqn:E2; [|done]. cbn [mbind option_bind] in E.
  destruct (roll_back _ _ _) as [c3|] eqn:E3; [|done]. cbn [mbind option_bind] in E.
  destruct (sync_active_difficulty _) as [c4|] eqn:E4; [|done]. cbn [mbind option_bind] in E. injection E as <- _.
  apply pins_sync in E4 as ->. apply pins_roll_back in E3 as ->. apply pins_branch in E2 as ->. by apply pins_disconnect_to in E1.
Qed.
Lemma pins_rebuild_index c branch : pins (rebuild_receipt_index c branch) = pins c.
Proof.
  unfold rebuild_receipt_index. set (c0 := {| c with active_receipts := ∅; tx_height := ∅ |}).
  change (pins c) with (pins c0). generalize c0. clear. induction branch as [|x branch IH]; intros c; [done|].
  cbn [foldl]. rewrite IH. apply pins_index.
Qed.
Lemma pins_import c b c' r : import_block_tracked c b = Some (c', r) → pins c' = pins c.
Proof.
  unfold import_block_tracked. intros E. destruct (bool_decide (is_Some _)); [by injection E as <- _|].
  destruct (validate_candidate c b) as [[cand|]|]; [|by injection E as <- _|done]. cbn [mbind option_bind] in E.
  destruct (chain_work c); [|done]. cbn [mbind option_bind] in E. destruct (bool_decide (h_prev_hash _ = _)).
  { destruct (connect_to_active _ _ _) as [[c1 [rs|]]|] eqn:Ec; [| |done]; cbn [mbind option_bind] in E;
      apply pins_connect in Ec as <-; [|by injection E as <- _].
    destruct (sync_active_difficulty _) as [c2|] eqn:Es; [|done]. cbn [mbind option_bind] in E. injection E as <- _.
    rewrite pins_index. by apply pins_sync in Es. }
  destruct (_ || _).
  - destruct (try_incremental_reorg c b cand) as [[c1 [q|]]|] eqn:E1; [| |done]; cbn [mbind option_bind] in E;
      apply pins_reorg in E1 as <-; [by injection E as <- _|].
    destruct (rebuild_branch _ _ _) as [[rb|]|]; [|by injection E as <- _|done]. cbn [mbind option_bind] in E.
    destruct (sync_active_difficulty _) as [c2|] eqn:Es; [|done]. cbn [mbind option_bind] in E. injection E as <- _.
    apply pins_sync in Es. etrans; [exact (pins_rebuild_index c2 (rb_receipts rb))|exact Es].
  - destruct (try_incremental_side_branch c b cand) as [[c1 [[]|]]|] eqn:E1; [| | |done]; cbn [mbind option_bind] in E;
      apply pins_side in E1 as <-; [by injection E as <- _..|].
    destruct (rebuild_branch _ _ _) as [[rb|]|]; [by injection E as <- _|by injection E as <- _|done].
Qed.

(** ** Header chains *)

(** Consecutive heights from [i], each header naming the one before it. *)
Fixpoint chain_from (prev : option Hash) (i : N) hs : Prop :=
  match hs with
  | [] => True
  | h :: hs => h_height h = i ∧ (∀ p, prev = Some p → h_prev_hash h = p) ∧ chain_from (Some (header_hash h)) (i + 1) hs
  end.
(** A header chain from the genesis block to the pin at height [newest]. *)
Definition proves c hs (newest : N) (pin : Hash) : Prop :=
  chain_from None 0 hs ∧ header_hash <$> hs !! 0%nat = Some (genesis_hash c) ∧
  N.of_nat (length hs) = newest + 1 ∧ header_hash <$> last hs = Some pin.

Lemma chain_from_snoc hs : ∀ prev i h, chain_from prev i hs → h_height h = i + N.of_nat (length hs) →
  (∀ p, (match hs with [] => prev | _ => header_hash <$> last hs end) = Some p → h_prev_hash h = p) →
  chain_from prev i (hs ++ [h]).
Proof.
  induction hs as [|x hs IH]; intros prev i h Hc Hh Hp.
  - simpl in *. split_and!; [lia|done|done].
  - destruct Hc as (H1 & H2 & H3). split_and!; try done. apply IH; [done|simpl in Hh; lia|].
    intros p Ep. apply Hp. rewrite last_cons. destruct hs as [|y hs]; [by simplify_eq/=|]. destruct (last (y :: hs)) eqn:El; [done|].
    by apply last_None in El.
Qed.
Lemma link_loop_spec newest pinned hs : ∀ i prev proven, link_loop newest pinned i prev hs = Ok proven →
  ∃ us, chain_from prev i us ∧ us `prefix_of` hs ∧ proven = header_hash <$> us ∧
    i + N.of_nat (length us) = newest + 1 ∧ header_hash <$> last us = Some pinned.
Proof.
  induction hs as [|h hs IH]; intros i prev proven E; cbn [link_loop] in E; [done|].
  destruct (N.eqb_spec (h_height h) i) as [Hh|]; [cbn [negb] in E|done].
  destruct (match prev with Some p => negb (bool_decide (h_prev_hash h = p)) | None => false end) eqn:Ep; [done|].
  assert (∀ p, prev = Some p → h_prev_hash h = p) as Hp.
  { intros p ->. apply negb_false_iff, bool_decide_eq_true in Ep. done. }
  destruct (N.eqb_spec (h_height h) newest) as [Hn|Hn].
  - destruct (decide (header_hash h = pinned)) as [Eq|Ne]; [|by rewrite bool_decide_false in E].
    rewrite bool_decide_true in E by done. injection E as <-. exists [h]. split_and!; try done.
    + by exists hs.
    + simpl. lia.
    + simpl. by rewrite Eq.
  - destruct (link_loop newest pinned (i + 1) (Some (header_hash h)) hs) as [pr|] eqn:El; [|done].
    cbn in E. injection E as <-. apply IH in El as (us & H1 & H2 & -> & H4 & H5).
    exists (h :: us). split_and!; try done; [by apply prefix_cons|simpl; lia|].
    rewrite last_cons. by destruct (last us).
Qed.

(** The linkage part of the chain's invariant. *)
Definition linkage_ok c : Prop :=
  (linked_to_checkpoint c = ∅ ∨ ∃ hs newest pin, newest_checkpoint c = Some (newest, pin) ∧ proves c hs newest pin ∧
     linked_to_checkpoint c = list_to_set (header_hash <$> hs)) ∧
  match linkage_prev c with
  | None => linkage_pending c = []
  | Some p => ∃ hs, chain_from None 0 hs ∧ header_hash <$> hs !! 0%nat = Some (genesis_hash c) ∧
      linkage_pending c = header_hash <$> hs ∧ linkage_next_height c = N.of_nat (length hs) ∧ header_hash <$> last hs = Some p
  end.
Lemma linkage_pins c c' : pins c' = pins c → genesis_hash c' = genesis_hash c → linkage_ok c → linkage_ok c'.
Proof.
  intros E Eg. assert (checkpoints c' = checkpoints c) as E1 by exact (f_equal (λ x, x.1.1.1.1) E).
  assert (linked_to_checkpoint c' = linked_to_checkpoint c) as E2 by exact (f_equal (λ x, x.1.1.1.2) E).
  assert (linkage_pending c' = linkage_pending c) as E3 by exact (f_equal (λ x, x.1.1.2) E).
  assert (linkage_next_height c' = linkage_next_height c) as E4 by exact (f_equal (λ x, x.1.2) E).
  assert (linkage_prev c' = linkage_prev c) as E5 by exact (f_equal snd E).
  unfold linkage_ok, newest_checkpoint, newest_checkpoint_height, proves. by rewrite E1, E2, E3, E4, E5, Eg.
Qed.

(** The first block, as the linkage operations read it. *)
Lemma genesis_at c rss : chain_ok c rss → ∃ b, block_by_height c 0 = Some b ∧ block_hash b = genesis_hash c ∧ h_height (header b) = 0.
Proof.
  intros OK. pose proof (ok_live _ _ OK) as [L _]. destruct (replayed_head _ _ _ _ _ _ _ L) as (b & Hb & Eb).
  exists b. split_and!; try done. by apply (replayed_heights _ _ _ _ _ _ _ L 0%nat).
Qed.
Lemma linkage_install c rss hs c' r : chain_ok c rss → linkage_ok c → install_checkpoint_linkage c hs = (c', r) → linkage_ok c'.
Proof.
  intros OK [H1 H2] E. unfold install_checkpoint_linkage in E. destruct (genesis_at _ _ OK) as (b & Eb & Ebh & _).
  destruct (checkpoints c !! newest_checkpoint_height c) as [pinned|] eqn:Ep; [|by simplify_eq].
  destruct hs as [|first hs]; [by simplify_eq|]. rewrite Eb in E. destruct (_ || _) eqn:Ef; [by simplify_eq|].
  apply orb_false_iff in Ef as [_ Eg%negb_false_iff%bool_decide_eq_true].
  destruct (link_loop _ _ _ _ _) as [proven|] eqn:El; [|by simplify_eq]. injection E as <- _.
  apply link_loop_spec in El as (us & U1 & U2 & -> & U4 & U5). split; [right|exact H2].
  exists us, (newest_checkpoint_height c), pinned. split_and!; [|split_and!|]; try done.
  - unfold newest_checkpoint. change (newest_checkpoint_height {| c with linked_to_checkpoint := _ |}) with (newest_checkpoint_height c).
    cbn [checkpoints]. by rewrite Ep.
  - destruct us as [|u us]; [by simplify_eq/=|]. destruct U2 as [r2 [= <- _]]. simpl. by rewrite Eg, Ebh.
Qed.
Lemma linkage_reset c : linkage_ok c → linkage_ok (reset_linkage_progress c).
Proof. intros [H1 _]. split; [exact H1|done]. Qed.
Lemma linkage_extend_loop newest pinned hs : ∀ c c' r, newest_checkpoint c = Some (newest, pinned) →
  linkage_ok c → is_Some (linkage_prev c) → extend_loop newest pinned c hs = (c', r) → linkage_ok c'.
Proof.
  induction hs as [|h hs IH]; intros c c' r En OK Hs E; cbn [extend_loop] in E; [by simplify_eq|].
  destruct Hs as [p Ep]. pose proof OK as [H1 H2]. rewrite Ep in E, H2. destruct H2 as (us & U1 & U2 & U3 & U4 & U5).
  destruct (N.eqb_spec (h_height h) (linkage_next_height c)) as [Hh|]; cbn [negb] in E; [|injection E as <- _; by apply linkage_reset].
  destruct (decide (h_prev_hash h = p)) as [Hp|Hp]; [rewrite bool_decide_true in E by done|
    rewrite bool_decide_false in E by done; injection E as <- _; by apply linkage_reset]. cbn [negb] in E.
  assert (us ≠ []) as Hne by (by destruct us).
  assert (chain_from None 0 (us ++ [h])) as Hch.
  { apply chain_from_snoc; [done|lia|]. intros q Eq. destruct us; [done|]. rewrite U5 in Eq. congruence. }
  assert (header_hash <$> (us ++ [h]) !! 0%nat = Some (genesis_hash c)) as H0 by (by destruct us).
  assert (linkage_pending c ++ [header_hash h] = header_hash <$> (us ++ [h])) as Hpend by (by rewrite U3, fmap_app).
  destruct (N.eqb_spec (h_height h) newest) as [Hn|Hn].
  - destruct (decide (header_hash h = pinned)) as [Eq|Ne].
    + rewrite bool_decide_true in E by done. cbn [negb] in E. injection E as <- _. split; [right|done].
      exists (us ++ [h]), newest, pinned. split_and!; [exact En| |by cbn; rewrite Hpend].
      split_and!; [done|exact H0|rewrite length_app; simpl; lia|by rewrite last_snoc; simpl; rewrite Eq].
    + rewrite bool_decide_false in E by done. injection E as <- _. by apply linkage_reset.
  - eapply IH in E; [exact E|exact En| |by eexists]. split; [exact H1|]. cbn [linkage_prev linkage_pending linkage_next_height genesis_hash].
    exists (us ++ [h]). split_and!; [done|exact H0|done|rewrite length_app; simpl; lia|by rewrite last_snoc].
Qed.
Lemma linkage_extend c rss hs c' r : chain_ok c rss → linkage_ok c → extend_checkpoint_linkage c hs = (c', r) → linkage_ok c'.
Proof.
  intros OK L E. unfold extend_checkpoint_linkage in E.
  destruct (newest_checkpoint c) as [[newest pinned]|] eqn:En; [|by simplify_eq].
  destruct (checkpoint_linkage_ready c); [by simplify_eq|]. destruct (genesis_at _ _ OK) as (b & Eb & Ebh & Eh). rewrite Eb in E.
  destruct (linkage_prev c) as [p|] eqn:Ep; [by eapply linkage_extend_loop|].
  pose proof L as [H1 H2]. rewrite Ep in H2. rewrite H2 in E. cbn [app] in E.
  set (c1 := {| c with linkage_pending := _; linkage_next_height := _; linkage_prev := _ |}) in E.
  assert (linkage_ok c1) as L1.
  { split; [exact H1|]. exists [header b]. split_and!; try done. simpl. f_equal. exact Ebh. }
  destruct (N.eqb_spec newest 0) as [->|].
  - destruct (decide (block_hash b = pinned)) as [Eq|Ne].
    + rewrite bool_decide_true in E by done. cbn [negb] in E. injection E as <- _. split; [right|done].
      exists [header b], 0, pinned. split_and!; [exact En| |done].
      split_and!; [done|simpl; f_equal; exact Ebh|done|simpl; f_equal; exact Eq].
    + rewrite bool_decide_false in E by done. cbn [negb] in E. injection E as <- _. by apply linkage_reset.
  - apply (linkage_extend_loop newest pinned hs c1 c' r); [exact En|exact L1|by eexists|exact E].
Qed.
Lemma linkage_relink c rss c' n : chain_ok c rss → linkage_ok c → relink_checkpoint_from_local c = Some (c', n) → linkage_ok c'.
Proof.
  intros OK L E. unfold relink_checkpoint_from_local in E. destruct (bool_decide _); [by injection E as <- _|].
  destruct (height_ c) as [top|]; [|done]. cbn [mbind option_bind] in E. destruct (_ <? _); [by injection E as <- _|].
  destruct (negb _); [by injection E as <- _|].
  destruct (install_checkpoint_linkage c _) as [c1 r] eqn:Ei. injection E as <- _. by eapply linkage_install.
Qed.
Lemma linkage_add c rss ps c' : chain_ok c rss → linkage_ok c → add_checkpoints c ps = Some c' → linkage_ok c'.
Proof.
  intros OK [_ L] E. unfold add_checkpoints in E. set (c1 := {| c with checkpoints := _; linked_to_checkpoint := _ |}) in E.
  destruct (relink_checkpoint_from_local c1) as [[c2 n]|] eqn:Er; [|done]. injection E as <-.
  apply (linkage_relink c1 rss c2 n); [by apply (chain_ok_core c)| |exact Er]. split; [by left|exact L].
Qed.
Lemma linkage_step c rss c' : chain_step c c' → chain_ok c rss → linkage_ok c → linkage_ok c'.
Proof.
  destruct 1 as [c b c' r E| | | |c ps c' E|c c' n E|c hs c' r E|c hs c' r E|c depth c' r E]; intros OK L; try exact L.
  - destruct (import_ok _ _ _ _ _ OK E) as (_ & Er & _). eapply linkage_pins; [by eapply pins_import| |done].
    exact (f_equal (λ x, x.1.2) Er).
  - split; [by left|done].
  - by eapply linkage_add.
  - by eapply linkage_relink.
  - by eapply linkage_install.
  - by eapply linkage_extend.
  - unfold adopt_local_finalized_checkpoint in E.
    destruct (_ || _); [by injection E as <- _|]. destruct (height_ c) as [top|]; [|done]. cbn [mbind option_bind] in E.
    destruct (checked_sub _ _) as [hh|]; [|by injection E as <- _]. destruct (_ <=? _); [by injection E as <- _|].
    destruct (block_by_height c hh) as [b|]; [|by injection E as <- _].
    destruct (add_checkpoints c _) as [c1|] eqn:Ea; [|done]. cbn [mbind option_bind] in E. injection E as <- _. by eapply linkage_add.
Qed.

(** C8: proof of work is waived only for proven ancestors of the pin.  In every
    reachable chain, a hash that validation exempts is the hash of a header on a
    chain of headers, of consecutive heights and each naming the one before it, that
    starts at this chain's genesis block and ends in the newest pinned checkpoint,
    whether the headers came in one piece, in batches or from local blocks. *)
Theorem exempt_is_ancestor g c hash :
  config_wf g → reachable g c → is_linked_to_checkpoint c hash = true →
  ∃ hs newest pin, newest_checkpoint c = Some (newest, pin) ∧ proves c hs newest pin ∧
    hash ∈ header_hash <$> hs.
Proof.
  intros Hw (c0 & c1 & En & Hc & Hs) Hin. pose proof (new_fresh _ _ Hw En) as Hf.
  assert (fresh c1 ∧ linkage_ok c1) as [[OK _] L].
  { assert (linkage_ok c0) as L0.
    { unfold new in En. destruct (build g) as [[[[l b] a]|]|]; [|done..]. cbn [mbind option_bind] in En.
      destruct (check_ledger l _) as [[]|]; [|done]. destruct (canonical_target _); [|done].
      cbn [mbind option_bind] in En. injection En as <-. split; [by left|done]. }
    clear En Hs. induction Hc as [|c0 c2 c1 Hc _ IH]; [done|]. apply IH; [by eapply fresh_configures|].
    by destruct Hc. }
  assert (linkage_ok c) as [Hl _].
  { clear En Hc Hf Hin. generalize dependent (@nil (N * list Receipt)). intros rss OK. revert rss OK.
    induction Hs as [|c1 c2 c Hs _ IH]; intros rss OK; [done|].
    pose proof (linkage_step _ _ _ Hs OK L) as L2. destruct (steps_ok _ _ _ (rtc_once _ _ Hs) OK) as (rss2 & OK2 & _).
    by eapply IH. }
  unfold is_linked_to_checkpoint in Hin. apply bool_decide_eq_true in Hin.
  destruct Hl as [E|(hs & newest & pin & H1 & H2 & E)]; [by rewrite E in Hin|].
  rewrite E in Hin. apply elem_of_list_to_set in Hin. eauto 10.
Qed.
End linkage.
End ChainLinkage.
