(* ===== verification/ProduceSpec.v ===== *)
(** * Produced blocks and booted chains (crates/chain/src/blockchain.rs)

    A block the node builds and seals carries the roots its own execution yields;
    a chain booted from its trusted log stands where the importing node stood. *)

From S2P Require Import Prelude Primitives Pow Mining Governance Crypto Compliance Smt Types Block.
From S2P Require Import Gas Vault Ledger ShieldedV2 Execution LedgerUndo LedgerEquiv ExecSteps ExecStore.
From S2P Require Import Verify Chain ChainReplay ChainInv ChainImport ChainSafety Produce.

Module ProduceSpec.
Import Chain ChainReplay ChainInv ChainImport ChainSafety Produce.

Section produce.
Context `{CE : ChainEnv} `{UP : !UntornPools}.
Implicit Types (c : Blockchain) (b : Block) (m : MiningCandidate).

Lemma grind_spec m f n k b : grind m f n k = Some b →
  ∃ nonce, b = with_nonce (mc_block m) nonce ∧ met m f (header b) = true ∧ n ≤ nonce < n + N.of_nat k.
Proof.
  revert n. induction k as [|k IH]; intros n E; [done|]. cbn [grind] in E.
  destruct (met m f (header (with_nonce (mc_block m) n))) eqn:Em.
  - injection E as <-. exists n. split_and!; [done|done|lia|lia].
  - apply IH in E as (nonce & ? & ? & ?). exists nonce. split_and!; [done|done|lia|lia].
Qed.

Lemma sealed_spec m b : into_sealed_block m = Ok b →
  ∃ nonce, b = with_nonce (mc_block m) nonce ∧ met m pow_seal (header b) = true.
Proof.
  unfold into_sealed_block. generalize (N.to_nat MAX_MINING_ITERS). intros k E.
  destruct (grind m pow_seal 0 k) as [b'|] eqn:Eg; [|done]. injection E as <-.
  apply grind_spec in Eg as (nonce & ? & ? & _). eauto.
Qed.

(** The nonce space is not to be unfolded. *)
#[local] Opaque into_sealed_block.

Lemma select_sublist ctx budget txs : ∀ s s', select_txs ctx budget s txs = Some s' →
  ∃ more, included s' = included s ++ more ∧ more `sublist_of` txs.
Proof.
  unfold select_txs. induction txs as [|stx txs IH]; intros s s' E; cbn [foldl] in E.
  { injection E as <-. exists []. split; [by rewrite app_nil_r|done]. }
  cbn [mbind option_bind] in E. destruct (select_one ctx budget s stx) as [s1|] eqn:E1.
  - apply IH in E as (more & E2 & Hs). unfold select_one in E1. repeat case_match; simplify_eq; cbn [included] in E2.
    1,2,4: exists more; split; [done|by constructor].
    exists (stx :: more). split; [by rewrite E2, <- app_assoc|by constructor].
  - exfalso. clear IH E1. induction txs as [|x txs IH]; [done|]. by apply IH.
Qed.

(** The candidate of [finish_candidate]: what its block commits to. *)
Definition commits c m (top : N) (prev : Hash) (ts : N) (txs : list SignedTransaction) : Prop := ∀ nonce, let b := with_nonce (mc_block m) nonce in
    block_height b = top + 1 ∧ h_prev_hash (header b) = prev ∧ timestamp_ms (header b) = ts ∧
    bits (header b) = Target.to_compact (mc_target m) ∧
    transactions b = txs ∧ tx_root_matches b = true ∧
    ∃ l rs, execute_block_on c (ledger_ c) b (mc_target m) (signals_ c) = Some (l, Ok rs) ∧ roots_match l rs b = Ok ().

Lemma coinbase_on_spec l ctx l' : coinbase_on l ctx = Some (Ok l') → ∃ r, apply_coinbase l ctx = (l', Ok r).
Proof. unfold coinbase_on. destruct (apply_coinbase l ctx) as [l1 [r|[e|]]]; intros E; simplify_eq. by eexists. Qed.

Lemma finish_spec c top prev who ts target s m ex :
  finish_candidate c (block_context c (top + 1) prev who ts target (signals_ c)) target s = Some (Ok (m, ex)) →
  mc_target m = target ∧ mc_pow_algo m = pow_algo (mining_ c) ∧ mc_pow_key m = genesis_hash c ∧ commits c m top prev ts (included s).
Proof.
  intros E. set (ctx := block_context _ _ _ _ _ _ _) in E. unfold finish_candidate in E.
  destruct (coinbase_on (ledger_ c) ctx) as [[l1|]|] eqn:Ec; [|done..]. cbn [mbind option_bind] in E.
  apply coinbase_on_spec in Ec as [r Ec].
  destruct (apply_transactions l1 (included s) ctx) as [l2 [rs|[i [er|]]]] eqn:Et; [|done..].
  destruct (receipts_root_ rs) as [root|] eqn:Er; [|done]. cbn [mbind option_bind] in E. unfold assemble in E.
  destruct (compute_tx_root (included s)) as [tr|] eqn:Etr; [|done]. cbn [mbind option_bind] in E. injection E as <- <-.
  split_and!; try done. intros nonce b. split_and!; try done.
  - unfold tx_root_matches. cbn. rewrite Etr. by apply bool_decide_true.
  - exists l2, rs. split.
    + unfold execute_block_on. change (context_of c b _ (signals_ c)) with ctx. rewrite Ec. cbn [transactions b with_nonce mc_block].
      by rewrite Et.
    + unfold roots_match. cbn. rewrite Er. by rewrite !bool_decide_true by done.
Qed.

(** C11: a produced block is one the producer's own chain executes to the roots it
    committed.  It extends the head by one height, carries the bits of the target
    fork choice expects at its timestamp, its seal meets that target, its
    transactions are a subsequence of those offered, in order, its transaction root
    is theirs, and executing it on the live ledger succeeds with exactly the
    state root and receipts root of its header. *)
Theorem produced_block_valid c txs ts b :
  produce_block c txs ts = Some (Ok b) →
  ∃ top head target l rs,
    height_ c = Some top ∧ index_ c !! head_ c = Some head ∧ expected_target c head ts = Some target ∧
    block_height b = top + 1 ∧ Some (h_prev_hash (header b)) = block_hash <$> head_block c ∧
    timestamp_ms (header b) = ts ∧ bits (header b) = Target.to_compact target ∧
    Target.is_met_by target (as_bytes (seal c (header b))) = true ∧
    transactions b `sublist_of` txs ∧ tx_root_matches b = true ∧
    execute_block_on c (ledger_ c) b target (signals_ c) = Some (l, Ok rs) ∧ roots_match l rs b = Ok ().
Proof.
  unfold produce_block, build_candidate, build_candidate_for. intros E.
  destruct (height_ c) as [top|] eqn:Eh; [|done]. cbn [mbind option_bind] in E.
  destruct (index_ c !! head_ c) as [head|] eqn:Ei; [|done]. cbn [mbind option_bind] in E.
  destruct (expected_target c head ts) as [target|] eqn:Et; [|done]. cbn [mbind option_bind] in E.
  destruct (block_size_limit c head) as [limit|]; [|done]. cbn [mbind option_bind] in E.
  destruct (block_hash <$> head_block c) as [prev|] eqn:Ep; [|done]. cbn [mbind option_bind] in E.
  destruct (coinbase_on _ _) as [[probe|]|]; [|done..]. cbn [mbind option_bind] in E.
  destruct (assemble _ _ _ _ _ _ _) as [empty|]; [|done]. cbn [mbind option_bind] in E.
  destruct (select_txs _ _ _ txs) as [s|] eqn:Es; [|done]. cbn [mbind option_bind] in E.
  destruct (finish_candidate _ _ _ _) as [[[m ex]|]|] eqn:Ef; [|done..]. cbn [mbind option_bind] in E.
  apply finish_spec in Ef as (Em & Ea & Ek & Hc).
  apply (inj Some) in E. apply sealed_spec in E as (nonce & -> & Hmet). destruct (Hc nonce) as (H1 & H2 & H3 & H5 & H6 & H7 & l & rs & H8 & H9).
  apply select_sublist in Es as (more & Einc & Hsub). exists top, head, target, l, rs. rewrite <- Em.
  unfold met in Hmet. rewrite Ea, Ek in Hmet.
  split_and!; try done; [congruence|congruence|]. rewrite H6, Einc. done.
Qed.

(** ** Booting from the node's own log *)

(** [bs] is a chain, and the index holds its blocks. *)
Definition chained (bs : list Block) : Prop :=
  (∀ i b, bs !! i = Some b → block_height b = N.of_nat i) ∧
  ∀ i b b', bs !! i = Some b → bs !! S i = Some b' → h_prev_hash (header b') = block_hash b.
Definition held (idx : gmap Hash BlockIndexEntry) (bs : list Block) : Prop := ∀ b, b ∈ bs →
  ∃ e, idx !! block_hash b = Some e ∧ e_block e = b ∧ e_height e = block_height b.

Lemma canonical_target_total x : Target.wf x → is_Some (canonical_target x).
Proof. intros Hw. destruct (Target.decode_encode x Hw) as (x' & k & E & _). by exists x'. Qed.
Lemma window_total c bs n : chained bs → held (index_ c) bs → ∀ i b e, bs !! i = Some b → (n ≤ i)%nat →
  e_block e = b → is_Some (window_loop n c e).
Proof.
  intros [Hh Hl] Hi. induction n as [|n IH]; intros i b e Hb Hn Ee; [by eexists|]. cbn [window_loop].
  destruct i as [|i]; [lia|]. destruct (lookup_lt_is_Some_2 bs i) as [p Hp]; [apply lookup_lt_Some in Hb; lia|].
  rewrite Ee, (Hl _ _ _ Hp Hb). destruct (Hi p) as (e' & He' & Ee' & _); [by eapply list_elem_of_lookup_2|].
  rewrite He'. cbn [mbind option_bind]. destruct (IH i p e' Hp ltac:(lia) Ee') as [[es last] ->]. by eexists.
Qed.
Lemma sync_total c bs b : Target.wf (sha256d_target (mining_ c)) → chained (bs ++ [b]) → held (index_ c) (bs ++ [b]) →
  head_ c = block_hash b → is_Some (sync_active_difficulty c).
Proof.
  intros Hw Hc Hi Eh. destruct (Hi b) as (e & He & Ee & Eeh); [set_solver|]. unfold sync_active_difficulty, base_target.
  rewrite Eh, He. cbn [mbind option_bind]. destruct (N.leb_spec (e_height e + 1) DIFFICULTY_WINDOW) as [Hle|Hgt].
  - destruct (canonical_target_total _ Hw) as [t ->]. by eexists.
  - assert ((bs ++ [b]) !! length bs = Some b) as Hb by (by apply list_lookup_middle).
    rewrite Eeh, (proj1 Hc _ _ Hb) in Hgt. unfold DIFFICULTY_WINDOW in *.
    destruct (window_total c _ 60 Hc Hi _ _ e Hb ltac:(lia) Ee) as [[es before] E].
    change (N.to_nat 60) with 60%nat. rewrite E. cbn [mbind option_bind].
    destruct (canonical_target_total (Difficulty.to_target (Difficulty.lwma
      ((λ e, Difficulty.from_target (e_sha_target e)) <$> reverse es)
      (solvetimes (timestamp_ms (header (e_block before))) (reverse es)) (target_block_ms (mining_ c))))) as [t Et];
      [apply Difficulty.to_target_wf|].
    rewrite Et. by eexists.
Qed.

(** A chain booted up to [bs], against a chain [c] that imported them. *)
Definition booted c c1 (bs : list Block) : Prop :=
  rules c1 = rules c ∧ blocks c1 = bs ∧ block_hash <$> last bs = Some (head_ c1) ∧ held (index_ c1) bs ∧
  ∃ l rss, run_blocks c (drop 1 bs) = Some (l, signals_ c1, rss) ∧ st l = st (ledger_ c1) ∧ active_receipts c1 = recs rss.

Lemma replayed_chained c idx bs s log rss ring : replayed c idx bs s log rss ring → chained bs.
Proof.
  intros Hr. split; [intros i b Hb; by apply (replayed_heights _ _ _ _ _ _ _ Hr)|].
  intros i b b' Hb Hb'. pose proof (take_drop_middle _ _ _ Hb) as E. rewrite <- (take_drop_middle bs (S i) b' Hb') in Hr.
  rewrite (take_S_r _ _ _ Hb) in Hr. apply (replayed_linked _ _ _ _ _ _ _ _ _ Hr).
Qed.
Lemma run_blocks_snoc c bs b : run_blocks c (bs ++ [b]) = x ← run_blocks c bs; run_block c x b.
Proof. unfold run_blocks. by rewrite foldl_app. Qed.

Lemma held_insert idx bs b e : held idx bs → b ∉ bs → (∀ x, x ∈ bs → block_hash x ≠ block_hash b) →
  e_block e = b → e_height e = block_height b → held (<[block_hash b := e]> idx) (bs ++ [b]).
Proof.
  intros Hi Hn Hne E1 E2 x [Hx| ->%list_elem_of_singleton]%elem_of_app.
  - rewrite lookup_insert_ne by (intros E; by apply (Hne x)). by apply Hi.
  - exists e. by rewrite lookup_insert_eq.
Qed.

(** One more block of an importing chain [c] goes onto the booted one. *)
Lemma boot_step c rss c1 bs p b s log rss' ring : chain_ok c rss →
  replayed c (index_ c) ((bs ++ [p]) ++ [b]) s log rss' ring → booted c c1 (bs ++ [p]) →
  ∃ c2, extend_trusted c1 b = Some (c2, Ok ()) ∧ booted c c2 ((bs ++ [p]) ++ [b]).
Proof.
  intros OK Hr (Er & Eb & Eh & Hi & l & rs1 & Erun & Est & Eact).
  pose proof (replayed_chained _ _ _ _ _ _ _ Hr) as Hch.
  destruct (replayed_run _ _ _ _ _ _ _ (ok_sealed _ _ OK) Hr) as (l2 & Erun2 & _).
  assert (drop 1 ((bs ++ [p]) ++ [b]) = drop 1 (bs ++ [p]) ++ [b]) as Ed.
  { rewrite drop_app_le; [done|]. rewrite length_app. simpl. lia. }
  rewrite last_snoc in Eh. injection Eh as Eh. pose proof Hr as Hr0.
  apply replayed_inv in Hr as (e & s0 & log0 & rss0 & ring0 & rs & _ & He & Ee & Hprev & Hh & _).
  destruct (ok_sealed _ _ OK _ _ He) as [Hbits Hcan]. rewrite Ee in Hbits.
  pose proof Erun2 as Erun2'. rewrite Ed, run_blocks_snoc, Erun in Erun2. cbn [mbind option_bind run_block] in Erun2.
  rewrite Hbits in Erun2. cbn [mbind option_bind] in Erun2.
  assert (l ≡ ledger_ c1) as Eq by exact Est.
  pose proof (execute_equiv c l (ledger_ c1) b (e_sha_target e) (signals_ c1) Eq) as Hx.
  destruct (execute_block_on c l b (e_sha_target e) (signals_ c1)) as [[l3 [rs3|]]|]; [|done..].
  cbn [mbind option_bind] in Erun2. injection Erun2 as -> <- <-.
  destruct (execute_block_on c (ledger_ c1) b (e_sha_target e) (signals_ c1)) as [[l4 r4]|] eqn:Ex; [|done].
  destruct Hx as [El4 Er4]. simpl in El4, Er4. subst r4. rewrite (execute_rules c c1) in Ex by done.
  unfold extend_trusted. rewrite Hprev, Eh, bool_decide_true by done. cbn [negb]. rewrite Hbits, Hcan. cbn [mbind option_bind].
  unfold chain_work. destruct (Hi p) as (pe & Hpe & _); [set_solver|]. rewrite Eh in Hpe. rewrite Hpe.
  cbn [fmap option_fmap option_map mbind option_bind]. rewrite Ex. cbn [mbind option_bind].
  match goal with |- context [index_block_receipts ?x (block_height b) rs3] => set (c3 := x) end.
  set (cand := mkCandidate _ _ _). set (c4 := insert_entry (index_block_receipts c3 (block_height b) rs3) b cand).
  destruct (index_receipts_frame c3 (block_height b) rs3) as (G1 & G2 & G3 & _ & _ & G6). destruct (fixed_rules _ _ G1) as [G7 G8].
  assert (held (index_ c4) ((bs ++ [p]) ++ [b])) as Hheld.
  { unfold c4, insert_entry. cbn [index_]. rewrite G8. apply held_insert; try done.
    - intros Hin. apply list_elem_of_lookup in Hin as [i Hi0].
      assert (i = length (bs ++ [p])) as ->; [|by apply lookup_lt_Some in Hi0; lia].
      eapply (replayed_eq_at _ _ _ _ _ _ _ _ _ b b Hr0); [by apply lookup_app_l_Some|by apply list_lookup_middle|done].
    - intros x Hin E. apply list_elem_of_lookup in Hin as [i Hi0].
      assert (i = length (bs ++ [p])) as ->; [|by apply lookup_lt_Some in Hi0; lia].
      eapply (replayed_eq_at _ _ _ _ _ _ _ _ _ x b Hr0); [by apply lookup_app_l_Some|by apply list_lookup_middle|done]. }
  assert (rules c4 = rules c) as Er4 by (etrans; [exact G7|exact Er]).
  destruct (sync_total c4 (bs ++ [p]) b) as [c5 Es]; try done.
  { assert (mining_ c4 = mining_ c) as -> by exact (f_equal (λ x, x.1.1.1.2) Er4). apply (ok_target _ _ OK). }
  rewrite Es. cbn [mbind option_bind]. exists c5. split; [done|].
  apply sync_core in Es as (Ec & _ & _). pose proof Ec as (F1 & F2 & F3 & F4 & F5 & _)%core_inv.
  split_and!.
  - by rewrite F1.
  - rewrite F4. etrans; [exact G3|]. unfold c3. cbn [blocks]. by rewrite Eb.
  - rewrite last_snoc, F3. cbn. f_equal. symmetry. exact G2.
  - by rewrite F2.
  - exists l2, (rs1 ++ [(block_height b, rs3)]). split_and!.
    + rewrite Erun2'. do 2 f_equal. f_equal. symmetry. etrans; [exact (f_equal (λ x, x.1.1.2) Ec)|].
      unfold c4, insert_entry. by destruct rs3.
    + transitivity (st l4); [exact El4|]. symmetry. etrans; [exact (f_equal (λ x, x.1.1.1.1.2) Ec)|].
      unfold c4, insert_entry. by destruct rs3.
    + rewrite F5. etrans; [exact G6|]. rewrite recs_snoc. unfold c3. cbn [active_receipts]. by rewrite Eact.
Qed.
Lemma boot_loop c rss suf : ∀ c1 bs p, chain_ok c rss → blocks c = (bs ++ [p]) ++ suf → booted c c1 (bs ++ [p]) →
  ∃ c2, each_block extend_trusted c1 suf = Some (c2, Ok ()) ∧ booted c c2 ((bs ++ [p]) ++ suf).
Proof.
  induction suf as [|b suf IH]; intros c1 bs p OK Eb Hb; [exists c1; by rewrite app_nil_r|].
  pose proof (ok_live _ _ OK) as [Hr _]. rewrite Eb, (app_assoc _ [b] suf : _ ++ b :: suf = _) in Hr.
  destruct (replayed_prefix _ _ _ _ _ _ _ _ _ Hr) as (s & log & rss' & ring & Hp).
  destruct (boot_step _ _ _ _ _ _ _ _ _ _ OK Hp Hb) as (c2 & E & Hb2).
  destruct (IH c2 (bs ++ [p]) b OK) as (c3 & E3 & Hb3); [by rewrite <- app_assoc|done|].
  exists c3. cbn [each_block]. rewrite E. split; [done|]. by rewrite (app_assoc _ [b] suf : _ ++ b :: suf = _).
Qed.

(** Booting from the log rebuilds the node.  Take any chain a node can be in;
    a freshly configured chain of the same genesis and rules that replays the active
    blocks the trusted way (no proof of work, no roots, no invariants, no undo logs)
    succeeds and ends with the same blocks, head, ledger, signal history and
    receipts. *)
Theorem trusted_boot_rebuilds g c n c0 :
  config_wf g → reachable g c → new g = Some (Ok n) → rtc configures n c0 → rules c0 = rules c →
  ∃ c', each_block extend_trusted c0 (drop 1 (blocks c)) = Some (c', Ok ()) ∧
    blocks c' = blocks c ∧ head_ c' = head_ c ∧ st (ledger_ c') = st (ledger_ c) ∧
    signals_ c' = signals_ c ∧ active_receipts c' = active_receipts c.
Proof.
  intros Hw R En Hcf Er. destruct (reachable_ok _ _ Hw R) as (rss & OK). pose proof (ok_live _ _ OK) as [Hr _].
  assert (fresh c0) as (OK0 & g0 & e0 & Eb0 & Ei0).
  { pose proof (new_fresh _ _ Hw En) as Hf. clear En Er. induction Hcf; eauto using fresh_configures. }
  pose proof (ok_live _ _ OK0) as [Hr0 _]. rewrite Eb0 in Hr0.
  assert (blocks c0 = blocks n) as Ebn by (clear -Hcf; induction Hcf as [|a b d Hc _ IH]; [done|]; rewrite IH; by destruct Hc).
  pose proof (reachable_genesis _ _ _ Hw R En) as Eg. rewrite <- Ebn, Eb0 in Eg.
  assert (∃ tl, blocks c = ([] ++ [g0]) ++ tl) as (tl & Ec).
  { destruct (blocks c) as [|x xs]; [done|]. injection Eg as ->. by exists xs. }
  destruct (boot_loop c rss tl c0 [] g0 OK Ec) as (c' & E & B1 & B2 & B3 & _ & l & rss' & B4 & B5 & B6).
  { pose proof (ok_head _ _ OK0) as Hh0. rewrite Eb0 in Hh0. split_and!; [done|done|exact Hh0| |].
    - intros b ->%list_elem_of_singleton. destruct (replayed_indexed _ _ _ _ _ _ _ Hr0 g0) as (e & He & Ee); [left|].
      exists e. split_and!; try done. rewrite <- Ee. by apply (ok_keyed _ _ OK0 _ _ He).
    - destruct (replayed_run _ _ _ _ _ _ _ (ok_sealed _ _ OK0) Hr0) as (l & E1 & E2). simpl in E1.
      exists l, []. injection E1 as El Es. split_and!; [|done|apply (ok_receipts _ _ OK0)]. rewrite <- Es.
      assert (genesis_ledger c0 = genesis_ledger c) as Egl by exact (f_equal (λ x, x.1.1.2) Er). by rewrite <- El, Egl. }
  destruct (replayed_run _ _ _ _ _ _ _ (ok_sealed _ _ OK) Hr) as (l' & E1 & E2). rewrite Ec in E1. rewrite B4 in E1.
  injection E1 as -> Es ->. exists c'. rewrite Ec. split; [exact E|].
  split_and!; [done| |congruence|done|by rewrite B6, (ok_receipts _ _ OK)].
  pose proof (ok_head _ _ OK) as Hh. rewrite Ec in Hh. rewrite Hh in B3. by injection B3 as ->.
Qed.
End produce.
End ProduceSpec.
