(* ===== verification/ChainExamples.v ===== *)
(** * Concrete chains

    A chain with concrete parameters, two rival blocks on its genesis, and the
    instances of the theorems about chains. *)

From S2P Require Import Prelude Primitives Pow Mining Governance Crypto Compliance Smt Types Block.
From S2P Require Import Gas Vault Ledger ShieldedV2 Execution LedgerUndo LedgerCommit ExecExamples.
From S2P Require Import Verify VerifySpec Chain Produce ChainReplay ChainInv ChainImport ChainSafety.
From S2P Require Import ChainGates ChainLinkage ProduceSpec.

Module ChainRun.
Import LedgerCommit.Ledger_examples Run Chain Produce ChainReplay ChainInv ChainImport.
Import ChainSafety ChainGates ChainLinkage ProduceSpec.

Definition header_bytes (h : BlockHeader) : bytes :=
  [h_height h; timestamp_ms h; h_nonce h] ++ as_bytes (h_prev_hash h) ++ [version_bits h; bits h]
  ++ as_bytes (tx_root h) ++ as_bytes (h_receipts_root h) ++ as_bytes (h_state_root h) ++ acc_bytes (proposer h).
(** Every seal meets every target. *)
#[global] Instance chain_env : ChainEnv := {|
  ch_exec := exec_env; ch_header := header_bytes; ch_block_size := λ b, 200 + N.of_nat (length (transactions b));
  ch_tx_size := λ _, 100; ch_hash := as_bytes; ch_status := λ _, [0]; ch_gas := λ g, [g]; ch_bytes := λ b, b;
  ch_events := λ _, []; pow_seal := λ _ _ _, Hash_ZERO; pow_seal_mining := λ _ _ _, Hash_ZERO |}.

Definition gen : GenesisConfig := mkGenesisConfig "sov-test" 0 [mkGenesisAccount alice k1 0]
  {| Emission.mainnet_like with base_reward := 0 |} [].
Lemma gen_wf : config_wf gen.
Proof. split; [done|]. vm_compute. repeat constructor. Qed.

(** The chain [new] returns; [nowhere] stands for a failure that does not occur. *)
Definition nowhere : Blockchain :=
  mkBlockchain "" Ledger.new Emission.mainnet_like 0 [] ∅ Hash_ZERO Ledger.new Hash_ZERO ∅ ∅ [] 0 None 0 None alice ∅
    None None 0 None None None None None ∅ ∅ [].
Definition started (o : option (result ChainError Blockchain)) : bool :=
  match o with Some (Ok _) => true | _ => false end.
Definition chain_of (o : option (result ChainError Blockchain)) : Blockchain :=
  match o with Some (Ok c) => c | _ => nowhere end.
Lemma started_eq o : started o = true → o = Some (Ok (chain_of o)).
Proof. by destruct o as [[]|]. Qed.
Definition chain0 : Blockchain := chain_of (new gen).
Lemma chain0_new : new gen = Some (Ok chain0).
Proof. apply started_eq. by vm_compute. Qed.

(** The block a miner finds at its first nonce. *)
Definition mine (c : Blockchain) (ts : N) : option Block :=
  match build_candidate c [] ts with Some (Ok (m, _)) => grind m pow_seal 0 1 | _ => None end.
Definition genesis_block : Block := default (mkBlock (mkBlockHeader 0 Hash_ZERO Hash_ZERO Hash_ZERO Hash_ZERO 0 alice 0 0 0) []) (head (blocks chain0)).
Definition blockA : Block := default genesis_block (mine chain0 10).
Definition blockB : Block := default genesis_block (mine chain0 20).

Definition imported (c : Blockchain) (b : Block) : Blockchain :=
  match import_block_tracked c b with Some (c', _) => c' | None => c end.
Definition accepts (c : Blockchain) (b : Block) : bool :=
  match import_block_tracked c b with Some (_, Ok _) => true | _ => false end.
Lemma imports c b : accepts c b = true → ∃ im, import_block_tracked c b = Some (imported c b, Ok im).
Proof. unfold accepts, imported. destruct (import_block_tracked c b) as [[c' [im|]]|]; [|done..]. by exists im. Qed.

Abbreviation chainA := (imported chain0 blockA).
Abbreviation chainB := (imported chain0 blockB).
(** A then B, and B then A: a side branch in one case, a reorganisation in the other. *)
Abbreviation chainAB := (imported chainA blockB).
Abbreviation chainBA := (imported chainB blockA).
Lemma accepts_A : accepts chain0 blockA = true.
Proof. by vm_compute. Qed.
Lemma accepts_B : accepts chain0 blockB = true.
Proof. by vm_compute. Qed.
Lemma accepts_AB : accepts chainA blockB = true.
Proof. by vm_compute. Qed.
Lemma accepts_BA : accepts chainB blockA = true.
Proof. by vm_compute. Qed.

(** ** Reachability *)

Lemma reach_import c b : reachable gen c → accepts c b = true → reachable gen (imported c b).
Proof.
  intros (c0 & c1 & H1 & H2 & H3) Ha. destruct (imports c b Ha) as [im E]. exists c0, c1. split; [exact H1|]. split; [exact H2|].
  eapply rtc_r; [exact H3|]. eapply st_import. exact E.
Qed.
Lemma reach0 : reachable gen chain0.
Proof. exists chain0, chain0. split; [exact chain0_new|]. split; apply rtc_refl. Qed.
Lemma reachA : reachable gen chainA.
Proof. exact (reach_import _ _ reach0 accepts_A). Qed.
Lemma reachAB : reachable gen chainAB.
Proof. exact (reach_import _ _ reachA accepts_AB). Qed.
Lemma reachBA : reachable gen chainBA.
Proof. exact (reach_import _ _ (reach_import _ _ reach0 accepts_B) accepts_BA). Qed.

Lemma imported_rules c b : reachable gen c → accepts c b = true → rules (imported c b) = rules c.
Proof.
  intros R Ha. destruct (reachable_ok _ _ gen_wf R) as (rss & OK). destruct (imports c b Ha) as [im E].
  by destruct (import_ok _ _ _ _ _ OK E) as (_ & Er & _).
Qed.
(** A new block that is accepted is known afterwards. *)
Lemma imported_known c b : reachable gen c → accepts c b = true → contains_block c (block_hash b) = false →
  known_blocks (imported c b) = <[block_hash b := b]> (known_blocks c).
Proof.
  intros R Ha Hn. destruct (reachable_ok _ _ gen_wf R) as (rss & OK). destruct (imports c b Ha) as [im E].
  destruct (import_ok _ _ _ _ _ OK E) as (_ & _ & Ho). unfold contains_block in Hn. apply bool_decide_eq_false in Hn.
  inversion Ho as [Hk|er|cand _ _ Hv|cand im' _ _ Hi _]; [done|..]; unfold known_blocks.
  - assert (index_ (imported c b) = index_ (insert_entry c b cand)) as ->
      by (apply fixed_rules; exact (f_equal (λ x, x.1.1.1.1.1) Hv)).
    unfold insert_entry. cbn [index_]. by rewrite fmap_insert.
  - rewrite Hi. by rewrite fmap_insert.
Qed.

(** ** Instances *)

Lemma live_state_is_replay_witness : ∃ l rss, run_blocks chainAB (drop 1 (blocks chainAB)) = Some (l, signals_ chainAB, rss) ∧
  st l = st (ledger_ chainAB) ∧ active_receipts chainAB = recs rss.
Proof. exact (live_state_is_replay gen chainAB gen_wf reachAB). Defined.

Lemma reachB : reachable gen chainB.
Proof. exact (reach_import _ _ reach0 accepts_B). Qed.
Lemma rules_A : rules chainA = rules chain0.
Proof. exact (imported_rules _ _ reach0 accepts_A). Qed.
Lemma same_rules : rules chainAB = rules chainBA.
Proof.
  rewrite (imported_rules _ _ reachA accepts_AB), (imported_rules _ _ reachB accepts_BA).
  rewrite rules_A. symmetry. exact (imported_rules _ _ reach0 accepts_B).
Qed.
(** Two new blocks, in either order. *)
Lemma known_commutes c b1 b2 : reachable gen c →
  accepts c b1 = true → accepts c b2 = true →
  accepts (imported c b1) b2 = true → accepts (imported c b2) b1 = true →
  contains_block c (block_hash b1) = false → contains_block c (block_hash b2) = false →
  contains_block (imported c b1) (block_hash b2) = false → contains_block (imported c b2) (block_hash b1) = false →
  bool_decide (block_hash b2 = block_hash b1) = false →
  known_blocks (imported (imported c b1) b2) = known_blocks (imported (imported c b2) b1).
Proof.
  intros R A1 A2 A12 A21 N1 N2 N12 N21 Hne. apply bool_decide_eq_false in Hne.
  rewrite (imported_known _ _ (reach_import _ _ R A1) A12 N12), (imported_known _ _ (reach_import _ _ R A2) A21 N21).
  rewrite (imported_known _ _ R A1 N1), (imported_known _ _ R A2 N2). by apply insert_insert_ne.
Qed.
Lemma new_A : contains_block chain0 (block_hash blockA) = false.
Proof. by vm_compute. Qed.
Lemma new_B : contains_block chain0 (block_hash blockB) = false.
Proof. by vm_compute. Qed.
Lemma new_AB : contains_block chainA (block_hash blockB) = false.
Proof. by vm_compute. Qed.
Lemma new_BA : contains_block chainB (block_hash blockA) = false.
Proof. by vm_compute. Qed.
Lemma rivals : bool_decide (block_hash blockB = block_hash blockA) = false.
Proof. by vm_compute. Qed.
Lemma same_known : known_blocks chainAB = known_blocks chainBA.
Proof.
  exact (known_commutes chain0 blockA blockB reach0 accepts_A accepts_B accepts_AB accepts_BA new_A new_B new_AB new_BA rivals).
Qed.
Lemma work_fits : match chain_work chainAB with Some w => w <? u256_max | None => true end = true.
Proof. by vm_compute. Qed.
Lemma nodes_converge_witness : head_ chainAB = head_ chainBA ∧ blocks chainAB = blocks chainBA ∧
  st (ledger_ chainAB) = st (ledger_ chainBA) ∧ signals_ chainAB = signals_ chainBA ∧
  active_receipts chainAB = active_receipts chainBA.
Proof.
  refine (nodes_converge gen chainAB chainBA gen_wf reachAB reachBA same_rules same_known _).
  intros w E. pose proof work_fits as Hw. rewrite E in Hw. by apply N.ltb_lt.
Defined.

Lemma fork_choice_witness : ∃ he, index_ chainAB !! head_ chainAB = Some he.
Proof. destruct (fork_choice gen chainAB gen_wf reachAB) as (he & H & _). by exists he. Defined.

Lemma import_classified_witness : ∃ im, outcome chainA blockB chainAB (Ok im).
Proof.
  destruct (imports chainA blockB accepts_AB) as [im E]. exists im.
  exact (proj1 (import_classified gen chainA blockB chainAB (Ok im) gen_wf reachA E)).
Defined.

Lemma parent_B : is_Some (index_ chainA !! h_prev_hash (header blockB)).
Proof.
  assert (contains_block chainA (h_prev_hash (header blockB)) = true) as H by (by vm_compute).
  unfold contains_block in H. by apply bool_decide_eq_true in H.
Qed.
(** B forks off below the head of the chain that has A. *)
Lemma branch_gates_agree_witness : ∃ log, branch_signals_of chainA blockB = Some log.
Proof.
  destruct parent_B as [pe Hpe].
  destruct (branch_gates_agree gen chainA blockB pe Target.ZERO gen_wf reachA Hpe) as (bs & l & log & rss & _ & H & _).
  by exists log.
Defined.
Lemma activation_exact_witness :
  deployment_active_at (Some Example_run.d0) 35 Example_run.log8 = bool_decide (state_at Example_run.d0 35 Example_run.log8 = Some Active).
Proof. exact (proj1 (activation_exact Example_run.d0 Example_run.log8 35 eq_refl)). Defined.
Lemma reachable_sound_witness : mined_emitted (st (ledger_ chainAB)) ≤ mining_budget_grains (gc_mining gen).
Proof. exact (proj1 (proj2 (reachable_sound gen chainAB gen_wf reachAB))). Defined.

(** The first nonce meets the target, so the miner stops there. *)
Lemma grind_more m f n k k' b : grind m f n k = Some b → (k ≤ k')%nat → grind m f n k' = Some b.
Proof.
  revert n k'. induction k as [|k IH]; intros n [|k'] E Hk; try done; [lia|]. cbn [grind] in *.
  destruct (met m f (header (with_nonce (mc_block m) n))); [done|]. apply IH; [done|lia].
Qed.
Definition candidateA : option (result ChainError (MiningCandidate * list (SignedTransaction * ExecutionError))) :=
  build_candidate chain0 [] 10.
Lemma sealed_first m k b : grind m pow_seal 0 1 = Some b → (1 ≤ k)%nat → ok_or (grind m pow_seal 0 k) PowNotFound = Ok b.
Proof. intros E Hk. by rewrite (grind_more _ _ _ _ _ _ E Hk). Qed.
Lemma nonces : (1 ≤ N.to_nat MAX_MINING_ITERS)%nat.
Proof. assert (1 ≤ MAX_MINING_ITERS) as H by (by vm_compute). revert H. generalize MAX_MINING_ITERS. intros n Hn. lia. Qed.
Lemma produced_block_valid_witness : ∃ b, block_height b = 1 ∧ tx_root_matches b = true.
Proof.
  assert (match candidateA with Some (Ok (m, _)) => bool_decide (is_Some (grind m pow_seal 0 1)) | _ => false end = true) as H
    by (by vm_compute).
  destruct candidateA as [[[m ex]|]|] eqn:E; [|discriminate H..]. apply bool_decide_eq_true in H as [b Hb].
  assert (produce_block chain0 [] 10 = Some (Ok b)) as Hp.
  { unfold produce_block. fold candidateA. rewrite E. cbn [mbind option_bind]. f_equal. cbn [result_bind].
    exact (sealed_first m _ b Hb nonces). }
  destruct (produced_block_valid chain0 [] 10 b Hp) as (top & head & t & l & rs & Ht & _ & _ & Hh & _ & _ & _ & _ & _ & Hr & _).
  exists b. split; [|exact Hr]. rewrite Hh.
  assert (height_ chain0 = Some 0) as H0 by (by vm_compute). rewrite H0 in Ht. by injection Ht as <-.
Defined.

Lemma trusted_boot_rebuilds_witness : ∃ c', each_block extend_trusted chain0 (drop 1 (blocks chainA)) = Some (c', Ok ()) ∧
  st (ledger_ c') = st (ledger_ chainA).
Proof.
  destruct (trusted_boot_rebuilds gen chainA chain0 chain0 gen_wf reachA chain0_new (rtc_refl _ _)
    (eq_sym rules_A)) as (c' & E & _ & _ & Hs & _).
  exists c'. exact (conj E Hs).
Defined.

(** A is pinned, and its header chain is installed. *)
Definition pinned : Blockchain := set_checkpoints chainA [(1, block_hash blockA)].
Definition linked_chain : Blockchain := (install_checkpoint_linkage pinned [header genesis_block; header blockA]).1.
Lemma reach_linked : reachable gen linked_chain.
Proof.
  destruct reachA as (c0 & c1 & H1 & H2 & H3). exists c0, c1. split; [exact H1|]. split; [exact H2|].
  eapply rtc_r; [eapply rtc_r; [exact H3|apply (st_pins chainA [(1, block_hash blockA)])]|].
  eapply st_install. apply surjective_pairing.
Qed.
Lemma exempt_is_ancestor_witness : ∃ hs newest pin, newest_checkpoint linked_chain = Some (newest, pin) ∧
  proves linked_chain hs newest pin ∧ block_hash genesis_block ∈ header_hash <$> hs.
Proof.
  apply (exempt_is_ancestor gen linked_chain (block_hash genesis_block) gen_wf reach_linked). by vm_compute.
Defined.
End ChainRun.
