(* ===== verification/Mempool.v ===== *)
(** * The transaction pool (crates/mempool/src/lib.rs)

    The staging area between a client and a block: a READY region of mineable
    transactions indexed by id and by (signer, nonce), a QUEUED region of
    future-nonce transactions, replace-by-fee, the capacity auction, promotion,
    pruning and block-template selection.

    [None] is a panic of the source (an index or [expect] that fails); an operation
    that returns [Some (p, Err e)] is refused with [e] and leaves the pool [p].  The
    wall clock is an argument [now], read once per operation. *)

From S2P Require Import Prelude Primitives Crypto Types Block Ledger.

#[global] Instance BKey_N : BKey N := N.leb.

Module Pool.

(** ** Data *)

Definition STRANDED_TTL_MS : N := 30 * 60 * 1000.
Definition MAX_QUEUED_PER_SENDER : N := 16.
Definition DEFAULT_MAX_POOL_WEIGHT : N := 64 * 1024 * 1024.
Definition MIN_RBF_BUMP_GRAINS : N := 1000.
Definition default_queued_capacity (capacity : N) : N := N.max (capacity / 16) 64.
Definition default_per_sender (capacity : N) : N := N.max (capacity / 64) 16.

(** The source's enum [Admitted]. *)
Inductive Admission := Ready | Queued.
Inductive MempoolError :=
| TooLarge (weight limit : N)
| WeightLimit (weight limit : N)
| InvalidSignature
| Stale (current got : N)
| Duplicate
| Full (capacity : N)
| BelowFloor (floor : Balance)
| RbfUnderpriced (required : Balance)
| NonceGap (expected got : N)
| NonceTaken (signer : AccountId) (nonce : N)
| SenderLimit (signer : AccountId) (limit : N)
| QueuedSenderLimit (signer : AccountId) (limit : N)
| QueuedFull (limit : N)
| Insufficient (available committed : N).

Record EvictionVictim := mkVictim { v_id : Hash; v_tip : N; v_rate : N; v_sender_count : N }.
Record QueuedTx := mkQueuedTx { q_stx : SignedTransaction; queued_at_ms : N; queued_at_height : N }.
Record FirstSeen := mkFirstSeen { at_ms : N; at_height : N }.

Record Mempool := mkMempool {
  by_id : gmap Hash SignedTransaction;
  by_sender : gmap (AccountId * N) Hash;
  inserted_at : gmap Hash N;
  inserted_at_height : gmap Hash N;
  chain_height : N;
  capacity : N;
  max_per_sender : N;
  queued : gmap (AccountId * N) QueuedTx;
  queued_weight_total : N;
  queued_capacity : N;
  max_queued_per_sender : N;
  max_weight : N;
  weight_total : N;
  mode : TxDomainMode;
  suite2_active : bool;
}.

Fixpoint base_outflow (a : Action.t) : N :=
  match a with
  | Action.Transfer _ amount => amount
  | Action.Tipped tip inner => saturating_add u128_max tip (base_outflow inner)
  | Action.Timestamped _ inner => base_outflow inner
  | Action.MultisigExec a _ => base_outflow a
  | _ => 0
  end.
Definition effective_tip (stx : SignedTransaction) : Balance :=
  match action (transaction stx) with Action.Tipped tip _ => tip | _ => 0 end.
Definition outflow (stx : SignedTransaction) : N := base_outflow (action (transaction stx)).
Definition slot_of (stx : SignedTransaction) : AccountId * N :=
  (signer_id (transaction stx), tx_nonce (transaction stx)).

Section pool.
Context `{Blake3, SigScheme, Borsh Transaction, SerializedSize SignedTransaction}.

(** ** Construction *)

Definition with_limits (capacity max_per_sender : N) : Mempool :=
  mkMempool ∅ ∅ ∅ ∅ 0 capacity (N.max max_per_sender 1) ∅ 0 (default_queued_capacity capacity)
    MAX_QUEUED_PER_SENDER DEFAULT_MAX_POOL_WEIGHT 0 Legacy false.
Definition new (capacity : N) : Mempool := with_limits capacity (default_per_sender capacity).
Definition with_queue_limits (p : Mempool) (queued_capacity max_queued_per_sender : N) : Mempool :=
  {| p with queued_capacity := N.max queued_capacity 1;
            max_queued_per_sender := N.max max_queued_per_sender 1 |}.
Definition set_mode (p : Mempool) (m : TxDomainMode) : Mempool := {| p with mode := m |}.
Definition set_suite2_active (p : Mempool) (b : bool) : Mempool := {| p with suite2_active := b |}.
Definition set_chain_height (p : Mempool) (h : N) : Mempool := {| p with chain_height := h |}.

(** ** Reading *)

(** [map.range((s, 0)..=(s, u64::MAX))]. *)
Definition slots_of {V} (m : gmap (AccountId * N) V) (s : AccountId) : list ((AccountId * N) * V) :=
  filter (λ e, e.1.1 = s) (entries m).
(** The signers of an index, in id order. *)
Definition senders {V} (m : gmap (AccountId * N) V) : list AccountId :=
  remove_dups ((λ e, e.1.1) <$> entries m).

Definition len (p : Mempool) : N := N.of_nat (size (by_id p)).
Definition contains (p : Mempool) (id : Hash) : bool := bool_decide (is_Some (by_id p !! id)).
Definition sender_count (p : Mempool) (s : AccountId) : N := N.of_nat (length (slots_of (by_sender p) s)).
Definition queued_count (p : Mempool) (s : AccountId) : N := N.of_nat (length (slots_of (queued p) s)).
Definition total_weight (p : Mempool) : N :=
  saturating_add u64_max (weight_total p) (queued_weight_total p).

Definition first_seen (p : Mempool) (id : Hash) : option FirstSeen :=
  match inserted_at p !! id with
  | Some t => Some (mkFirstSeen t (default 0 (inserted_at_height p !! id)))
  | None =>
      (λ e : nat * ((AccountId * N) * QueuedTx),
         mkFirstSeen (queued_at_ms e.2.2) (queued_at_height e.2.2))
      <$> list_find (λ e, tx_id (q_stx e.2) = id) (entries (queued p))
  end.

Fixpoint next_nonce_loop (fuel : nat) (p : Mempool) (s : AccountId) (n : N) : N :=
  match fuel with
  | O => n
  | S fuel =>
      if bool_decide (by_sender p !! (s, n) = None) then n
      else next_nonce_loop fuel p s (saturating_add u64_max n 1)
  end.
Definition next_nonce (p : Mempool) (s : AccountId) (on_chain_nonce : N) : N :=
  next_nonce_loop (S (N.to_nat (max_per_sender p))) p s on_chain_nonce.

Definition pending_outflow (p : Mempool) (s : AccountId) : N :=
  foldl (λ acc out, saturating_add u128_max acc out) 0
    (omap (λ e, outflow <$> by_id p !! e.2) (slots_of (by_sender p) s)).
Definition queued_outflow (p : Mempool) (s : AccountId) : N :=
  foldl (λ acc out, saturating_add u128_max acc out) 0
    ((λ e, outflow (q_stx e.2)) <$> slots_of (queued p) s).

(** ** The auction's marginal slot *)

Fixpoint victim_from (p : Mempool) (exclude : AccountId) (best : option EvictionVictim)
    (signers : list AccountId) : option (option EvictionVictim) :=
  match signers with
  | [] => Some best
  | s :: signers =>
      if bool_decide (s = exclude) then victim_from p exclude best signers
      else
        match last (slots_of (by_sender p) s) with
        | None => victim_from p exclude best signers
        | Some (_, id) =>
            stx ← by_id p !! id;
            let tip := effective_tip stx in
            let rate := fee_rate tip (tx_weight stx) in
            let count := sender_count p s in
            let better :=
              match best with
              | None => true
              | Some b => (rate <? v_rate b) || ((rate =? v_rate b) && (v_sender_count b <? count))
              end in
            victim_from p exclude (if better then Some (mkVictim id tip rate count) else best) signers
        end
  end.
Definition eviction_victim (p : Mempool) (exclude : AccountId) : option (option EvictionVictim) :=
  victim_from p exclude None (senders (by_sender p)).

(** ** The only writers of the two regions *)

Definition remove (p : Mempool) (id : Hash) : Mempool * option SignedTransaction :=
  match by_id p !! id with
  | None => (p, None)
  | Some stx =>
      ({| p with by_id := delete id (by_id p);
                 weight_total := saturating_sub (weight_total p) (tx_weight stx);
                 by_sender := delete (slot_of stx) (by_sender p);
                 inserted_at := delete id (inserted_at p);
                 inserted_at_height := delete id (inserted_at_height p) |}, Some stx)
  end.
Definition admit_ready (p : Mempool) (slot : AccountId * N) (id : Hash) (stx : SignedTransaction) (now : N) :
    Mempool :=
  {| p with weight_total := saturating_add u64_max (weight_total p) (tx_weight stx);
            by_sender := <[slot := id]> (by_sender p);
            by_id := <[id := stx]> (by_id p);
            inserted_at := <[id := now]> (inserted_at p);
            inserted_at_height := <[id := chain_height p]> (inserted_at_height p) |}.
Definition admit_queued (p : Mempool) (slot : AccountId * N) (q : QueuedTx) : Mempool :=
  {| p with queued_weight_total := saturating_add u64_max (queued_weight_total p) (tx_weight (q_stx q));
            queued := <[slot := q]> (queued p) |}.
Definition remove_queued (p : Mempool) (slot : AccountId * N) : Mempool * option QueuedTx :=
  match queued p !! slot with
  | None => (p, None)
  | Some q =>
      ({| p with queued := delete slot (queued p);
                 queued_weight_total := saturating_sub (queued_weight_total p) (tx_weight (q_stx q)) |}, Some q)
  end.
(** [BTreeMap::retain] visits the entries in key order. *)
Definition retain_queued (p : Mempool) (keep : AccountId * N → QueuedTx → bool) : Mempool :=
  foldl (λ p e, if keep e.1 e.2 then p else (remove_queued p e.1).1) p (entries (queued p)).

Definition check_total_weight (p : Mempool) (weight : N) : result MempoolError unit :=
  if max_weight p <? weight then Err (WeightLimit weight (max_weight p)) else Ok ().
Definition check_queued_weight (p : Mempool) (weight : N) : result MempoolError unit :=
  let limit := max_weight p / 4 in
  if limit <? weight then Err (WeightLimit weight limit)
  else check_total_weight p (saturating_add u64_max (weight_total p) weight).

(** ** Admission *)

Definition refuse (p : Mempool) (e : MempoolError) : option (Mempool * result MempoolError Admission) :=
  Some (p, Err e).

(** [is_none_or]-style fold of the source: the last of the cheapest. *)
Definition cheaper (best : option (N * (AccountId * N))) (cand : N * (AccountId * N)) :
    option (N * (AccountId * N)) :=
  match best with
  | Some b => if b.1 <? cand.1 then Some b else Some cand
  | None => Some cand
  end.

(** The displacements a full queue needs: the slots to remove and the projected
    queued weight, or a refusal. *)
Definition plan_sender (p : Mempool) (s : AccountId) (nonce : N) :
    option (result MempoolError (list (AccountId * N) * N)) :=
  if max_queued_per_sender p <=? queued_count p s then
    e ← last (slots_of (queued p) s);
    let furthest := e.1.2 in
    if furthest <=? nonce then Some (Err (QueuedSenderLimit s (max_queued_per_sender p)))
    else
      q ← queued p !! (s, furthest);
      Some (Ok ([(s, furthest)], saturating_sub (queued_weight_total p) (tx_weight (q_stx q))))
  else Some (Ok ([], queued_weight_total p)).
Definition plan_global (p : Mempool) (new_tip : N) (displaced : list (AccountId * N)) (projected : N) :
    option (result MempoolError (list (AccountId * N) * N)) :=
  if queued_capacity p <=? saturating_sub (N.of_nat (size (queued p))) (N.of_nat (length displaced)) then
    victim ← foldl cheaper None
      ((λ e, (effective_tip (q_stx e.2), e.1)) <$> filter (λ e, e.1 ∉ displaced) (entries (queued p)));
    if new_tip <=? victim.1 then Some (Err (QueuedFull (queued_capacity p)))
    else
      q ← queued p !! victim.2;
      Some (Ok (displaced ++ [victim.2], saturating_sub projected (tx_weight (q_stx q))))
  else Some (Ok (displaced, projected)).

Definition insert_queued (p : Mempool) (stx : SignedTransaction) (balance : Balance) (now : N) :
    option (Mempool * result MempoolError Admission) :=
  let s := signer_id (transaction stx) in
  let nonce := tx_nonce (transaction stx) in
  let slot := (s, nonce) in
  let entry := mkQueuedTx stx now (chain_height p) in
  if bool_decide (is_Some (by_sender p !! slot)) then refuse p (NonceTaken s nonce)
  else
    match queued p !! slot with
    | Some old =>
        if bool_decide (tx_id (q_stx old) = tx_id stx) then refuse p Duplicate
        else
          let old_tip := effective_tip (q_stx old) in
          let new_tip := effective_tip stx in
          if new_tip <=? old_tip then refuse p (NonceTaken s nonce)
          else
            let required := saturating_add u128_max old_tip MIN_RBF_BUMP_GRAINS in
            if new_tip <? required then refuse p (RbfUnderpriced required)
            else
              let committed := saturating_add u128_max
                (saturating_sub (saturating_add u128_max (pending_outflow p s) (queued_outflow p s))
                   (outflow (q_stx old))) (outflow stx) in
              if balance <? committed then refuse p (Insufficient balance committed)
              else
                match check_queued_weight p (saturating_add u64_max
                        (saturating_sub (queued_weight_total p) (tx_weight (q_stx old))) (tx_weight stx)) with
                | Err e => refuse p e
                | Ok _ => Some (admit_queued (remove_queued p slot).1 slot entry, Ok Queued)
                end
    | None =>
        let committed := saturating_add u128_max
          (saturating_add u128_max (pending_outflow p s) (queued_outflow p s)) (outflow stx) in
        if balance <? committed then refuse p (Insufficient balance committed)
        else
          plan ← plan_sender p s nonce;
          match plan with
          | Err e => refuse p e
          | Ok (displaced, projected) =>
              plan ← plan_global p (effective_tip stx) displaced projected;
              match plan with
              | Err e => refuse p e
              | Ok (displaced, projected) =>
                  match check_queued_weight p (saturating_add u64_max projected (tx_weight stx)) with
                  | Err e => refuse p e
                  | Ok _ =>
                      Some (admit_queued (foldl (λ p v, (remove_queued p v).1) p displaced) slot entry,
                            Ok Queued)
                  end
              end
          end
    end.

(** The capacity auction over both bounds. *)
Fixpoint auction (budget : nat) (p : Mempool) (s : AccountId) (new_rate weight : N) :
    option (Mempool * result MempoolError unit) :=
  if (capacity p <=? len p) || (max_weight p <? saturating_add u64_max (total_weight p) weight) then
    match budget with
    | S (S _ as budget) =>
        victim ← eviction_victim p s;
        match victim with
        | Some v =>
            if (v_rate v <? new_rate)
               || ((new_rate =? v_rate v) && (v_rate v =? 0) && (1 <? v_sender_count v))
            then auction budget (remove p (v_id v)).1 s new_rate weight
            else if 0 <? v_rate v then Some (p, Err (BelowFloor (v_tip v)))
            else Some (p, Err (Full (capacity p)))
        | None => Some (p, Err (Full (capacity p)))
        end
    | _ => Some (p, Err (Full (capacity p)))
    end
  else Some (p, Ok ()).

Definition insert_inner (p : Mempool) (stx : SignedTransaction) (current_nonce : N) (balance : Balance)
    (now : N) : option (Mempool * result MempoolError Admission) :=
  if negb (verify_signature_mode stx (mode p)) then refuse p InvalidSignature
  else
    let weight := tx_weight stx in
    let s := signer_id (transaction stx) in
    let nonce := tx_nonce (transaction stx) in
    if nonce <? current_nonce then refuse p (Stale current_nonce nonce)
    else
      let id := tx_id stx in
      if contains p id then refuse p Duplicate
      else
        let slot := (s, nonce) in
        match by_sender p !! slot with
        | Some old_id =>
            old ← by_id p !! old_id;
            let old_tip := effective_tip old in
            let new_tip := effective_tip stx in
            if new_tip <=? old_tip then refuse p (NonceTaken s nonce)
            else
              let required := saturating_add u128_max old_tip MIN_RBF_BUMP_GRAINS in
              if new_tip <? required then refuse p (RbfUnderpriced required)
              else
                let committed := saturating_add u128_max
                  (saturating_sub (pending_outflow p s) (outflow old)) (outflow stx) in
                if balance <? committed then refuse p (Insufficient balance committed)
                else
                  match check_total_weight p (saturating_add u64_max
                          (saturating_sub (total_weight p) (tx_weight old)) weight) with
                  | Err e => refuse p e
                  | Ok _ => Some (admit_ready (remove p old_id).1 slot id stx now, Ok Ready)
                  end
        | None =>
            let expected := saturating_add u64_max current_nonce (sender_count p s) in
            if expected <? nonce then insert_queued p stx balance now
            else
              let committed := saturating_add u128_max (pending_outflow p s) (outflow stx) in
              if balance <? committed then refuse p (Insufficient balance committed)
              else if max_per_sender p <=? sender_count p s then refuse p (SenderLimit s (max_per_sender p))
              else
                let new_rate := fee_rate (effective_tip stx) weight in
                '(p, r) ← auction (S (size (by_id p))) p s new_rate weight;
                match r with
                | Err e => refuse p e
                | Ok _ => Some (admit_ready p slot id stx now, Ok Ready)
                end
        end.

Definition transient (e : MempoolError) : bool :=
  match e with Full _ | WeightLimit _ _ | BelowFloor _ | SenderLimit _ _ => true | _ => false end.

(** Every turn takes one entry out of the queued region for good or stops, so
    one turn per queued entry and a last one are enough. *)
Fixpoint promote_loop (fuel : nat) (p : Mempool) (s : AccountId) (current_nonce : N) (balance : Balance)
    (now : N) : option Mempool :=
  match fuel with
  | O => Some p
  | S fuel =>
      let expected := saturating_add u64_max current_nonce (sender_count p s) in
      match remove_queued p (s, expected) with
      | (p, None) => Some p
      | (p, Some q) =>
          '(p, r) ← insert_inner p (q_stx q) current_nonce balance now;
          match r with
          | Ok Ready => promote_loop fuel p s current_nonce balance now
          | Ok Queued => Some p
          | Err e => if transient e then Some (admit_queued p (s, expected) q) else Some p
          end
      end
  end.
Definition promote (p : Mempool) (s : AccountId) (current_nonce : N) (balance : Balance) (now : N) :
    option Mempool :=
  promote_loop (S (size (queued p))) p s current_nonce balance now.

Definition tx_limit (p : Mempool) (stx : SignedTransaction) : N :=
  if suite2_active p && is_suite2_action (action (transaction stx)) then MAX_SUITE2_TX_WEIGHT
  else MAX_TX_WEIGHT.
Definition insert (p : Mempool) (stx : SignedTransaction) (current_nonce : N) (balance : Balance) (now : N) :
    option (Mempool * result MempoolError Admission) :=
  let weight := tx_weight stx in
  if tx_limit p stx <? weight then refuse p (TooLarge weight (tx_limit p stx))
  else
    '(p, r) ← insert_inner p stx current_nonce balance now;
    match r with
    | Ok Ready =>
        p ← promote p (signer_id (transaction stx)) current_nonce balance now;
        Some (p, Ok Ready)
    | _ => Some (p, r)
    end.

(** ** Maintenance *)

Definition remove_all (p : Mempool) (ids : list Hash) : Mempool := foldl (λ p id, (remove p id).1) p ids.
Definition evict_highest_nonce (p : Mempool) (s : AccountId) : Mempool :=
  match last (slots_of (by_sender p) s) with
  | Some (_, id) => (remove p id).1
  | None => p
  end.
Definition prune_stale (p : Mempool) (current_nonce : AccountId → N) : Mempool :=
  let stale := (λ e, e.2) <$> filter (λ e, e.1.2 < current_nonce e.1.1) (entries (by_sender p)) in
  retain_queued (remove_all p stale) (λ slot _, current_nonce slot.1 <=? slot.2).
(** One turn per pooled transaction and a last one are enough. *)
Fixpoint fit_balance (fuel : nat) (p : Mempool) (s : AccountId) (cap : N) : Mempool :=
  match fuel with
  | O => p
  | S fuel =>
      if cap <? pending_outflow p s then
        let p' := evict_highest_nonce p s in
        if len p' =? len p then p' else fit_balance fuel p' s cap
      else p
  end.
Definition prune (p : Mempool) (current_nonce : AccountId → N) (balance : AccountId → Balance) (now : N) :
    option Mempool :=
  let p := prune_stale p current_nonce in
  let p := foldl (λ p s, fit_balance (S (size (by_id p))) p s (balance s)) p (senders (by_sender p)) in
  foldl (λ acc s, p ← acc; promote p s (current_nonce s) (balance s) now) (Some p) (senders (queued p)).

(** The contiguous run of a signer from a nonce on: the [while let] loops of
    [select] and [evict_stranded].  One turn per index entry and a last one are
    enough. *)
Fixpoint run_from (fuel : nat) (p : Mempool) (s : AccountId) (nonce : N) : list Hash :=
  match fuel with
  | O => []
  | S fuel =>
      match by_sender p !! (s, nonce) with
      | Some id => id :: run_from fuel p s (nonce + 1)
      | None => []
      end
  end.
Definition mineable_run (p : Mempool) (s : AccountId) (nonce : N) : list Hash :=
  run_from (S (size (by_sender p))) p s nonce.

Definition stranded (p : Mempool) (current_nonce : AccountId → N) (ttl_millis now : N) : list Hash :=
  senders (by_sender p) ≫= λ s,
    let gap := current_nonce s + N.of_nat (length (mineable_run p s (current_nonce s))) in
    (λ e, e.2) <$> filter (λ e, gap ≤ e.1.2 ∧
        ttl_millis ≤ saturating_sub now (default now (inserted_at p !! e.2)))
      (slots_of (by_sender p) s).
Definition evict_stranded (p : Mempool) (current_nonce : AccountId → N) (ttl_millis now : N) :
    Mempool * nat :=
  let ids := stranded p current_nonce ttl_millis now in
  let p1 := remove_all p ids in
  let p2 := retain_queued p1 (λ _ q, saturating_sub now (queued_at_ms q) <? ttl_millis) in
  (p2, (length ids + (size (queued p1) - size (queued p2)))%nat).

Definition find_queued (p : Mempool) (id : Hash) : option ((AccountId * N) * QueuedTx) :=
  snd <$> list_find (λ e, tx_id (q_stx e.2) = id) (entries (queued p)).
Definition remove_pending (p : Mempool) (id : Hash) : Mempool * option SignedTransaction :=
  match remove p id with
  | (p, Some stx) => (p, Some stx)
  | (p, None) =>
      match find_queued p id with
      | Some (slot, _) => let '(p, q) := remove_queued p slot in (p, q_stx <$> q)
      | None => (p, None)
      end
  end.

(** Whether a pooled transaction is reachable from the account's nonce. *)
Fixpoint reach (fuel : nat) (p : Mempool) (s : AccountId) (next target : N) : N :=
  match fuel with
  | O => next
  | S fuel =>
      if (next <? target) && bool_decide (is_Some (by_sender p !! (s, next)))
      then reach fuel p s (saturating_add u64_max next 1) target
      else next
  end.
Definition transaction_status (p : Mempool) (id : Hash) (current_nonce : AccountId → N) :
    option (SignedTransaction * bool) :=
  stx ← match by_id p !! id with
        | Some stx => Some stx
        | None => (λ e, q_stx e.2) <$> find_queued p id
        end;
  let s := signer_id (transaction stx) in
  let nonce := tx_nonce (transaction stx) in
  let next := reach (S (size (by_sender p))) p s (current_nonce s) nonce in
  Some (stx, contains p id && (next =? nonce)).

Definition snapshot (p : Mempool) : list SignedTransaction :=
  omap (λ e, by_id p !! e.2) (entries (by_sender p)) ++ ((λ e, q_stx e.2) <$> entries (queued p)).
Definition restore (p : Mempool) (txs : list SignedTransaction) (current_nonce : AccountId → N)
    (balance : AccountId → Balance) (now : N) : option Mempool :=
  foldl (λ acc stx, p ← acc;
      fst <$> insert p stx (current_nonce (signer_id (transaction stx)))
                (balance (signer_id (transaction stx))) now) (Some p) txs.

(** ** The block template *)

Definition best_head (queues : list (AccountId * list SignedTransaction)) : option (AccountId * N) :=
  foldl (λ best e,
    match head e.2 with
    | Some stx =>
        let tip := effective_tip stx in
        match best with
        | Some (_, t) => if t <? tip then Some (e.1, tip) else best
        | None => Some (e.1, tip)
        end
    | None => best
    end) None queues.
(** Take the winner's head; a signer whose run is used up leaves. *)
Fixpoint pop_queue (winner : AccountId) (queues : list (AccountId * list SignedTransaction)) :
    option (SignedTransaction * list (AccountId * list SignedTransaction)) :=
  match queues with
  | [] => None
  | (s, q) :: queues =>
      if bool_decide (s = winner) then
        match q with
        | [] => None
        | stx :: q => Some (stx, if bool_decide (q = []) then queues else (s, q) :: queues)
        end
      else '(stx, queues) ← pop_queue winner queues; Some (stx, (s, q) :: queues)
  end.
(** [max] bounds the number of turns. *)
Fixpoint select_loop (max : nat) (queues : list (AccountId * list SignedTransaction)) :
    option (list SignedTransaction) :=
  match max with
  | O => Some []
  | S max =>
      if bool_decide (queues = []) then Some []
      else
        '(winner, _) ← best_head queues;
        '(stx, queues) ← pop_queue winner queues;
        out ← select_loop max queues;
        Some (stx :: out)
  end.
Definition queue_of (p : Mempool) (s : AccountId) (nonce : N) : option (list SignedTransaction) :=
  mapM (λ id, by_id p !! id) (mineable_run p s nonce).
Definition queues_of (p : Mempool) (current_nonce : AccountId → N) :
    option (list (AccountId * list SignedTransaction)) :=
  qs ← mapM (λ s, q ← queue_of p s (current_nonce s); Some (s, q)) (senders (by_sender p));
  Some (filter (λ e, e.2 ≠ []) qs).
Definition select (p : Mempool) (current_nonce : AccountId → N) (max : nat) :
    option (list SignedTransaction) :=
  queues ← queues_of p current_nonce; select_loop max queues.

(** ** Prices *)

Definition nth_highest_tip (p : Mempool) (n : nat) : option N :=
  if (n =? 0)%nat || (len p <? N.of_nat n) then None
  else reverse (merge_sort N.le ((λ e, effective_tip e.2) <$> map_to_list (by_id p))) !! (n - 1)%nat.
Definition pool_floor_grains (p : Mempool) : option N :=
  if len p <? capacity p then Some 0
  else
    tips ← mapM (λ s, match last (slots_of (by_sender p) s) with
                      | Some (_, id) => Some ∘ effective_tip <$> by_id p !! id
                      | None => Some None
                      end) (senders (by_sender p));
    Some (default 0 (foldl (λ m t, match m with Some m => Some (N.min m t) | None => Some t end)
                       None (omap (λ t, t) tips))).
End pool.
End Pool.
