(* ===== verification/MempoolInv.v ===== *)
(** * The pool's invariant

    The two indexes of the READY region agree, the weight counters are the sums they
    stand for, every bound holds, and no operation panics: for every pool that can
    arise from an empty one. *)

From S2P Require Import Prelude Primitives Crypto Types Block Ledger Mempool.

Module PoolInv.
Import Pool.

(** ** Counting the slots of a signer *)

Section counting.
Context {V : Type}.
Implicit Types (m : gmap (AccountId * N) V).

Lemma slots_of_perm m s : slots_of m s ≡ₚ filter (λ e, e.1.1 = s) (map_to_list m).
Proof. unfold slots_of. by rewrite entries_perm. Qed.
Lemma elem_of_slots m s k v : (k, v) ∈ slots_of m s ↔ k.1 = s ∧ m !! k = Some v.
Proof. unfold slots_of. rewrite list_elem_of_filter, elem_of_entries. done. Qed.
Lemma elem_of_senders m s : s ∈ senders m ↔ ∃ n v, m !! (s, n) = Some v.
Proof.
  unfold senders. rewrite elem_of_remove_dups, list_elem_of_fmap. split.
  - intros ([[s' n] v] & -> & Hin). apply elem_of_entries in Hin. eauto.
  - intros (n & v & E). exists ((s, n), v). split; [done|]. by apply elem_of_entries.
Qed.

Definition own (s : AccountId) (e : (AccountId * N) * V) : Prop := e.1.1 = s.
#[local] Instance own_dec s e : Decision (own s e) := decide (e.1.1 = s).
Definition count m s : nat := size (filter (own s) m).

Lemma count_slots m s : length (slots_of m s) = count m s.
Proof.
  unfold count. rewrite slots_of_perm, map_filter_alt.
  rewrite <- length_map_to_list, map_to_list_to_map; [done|].
  eapply sublist_NoDup; [apply (NoDup_fst_map_to_list m)|]. apply fmap_sublist, sublist_filter.
Qed.
Lemma count_insert m k v s :
  m !! k = None → count (<[k := v]> m) s = ((if decide (k.1 = s) then 1 else 0) + count m s)%nat.
Proof.
  intros Hk. unfold count. destruct (decide (k.1 = s)) as [E|E].
  - rewrite map_filter_insert_True by done. rewrite map_size_insert_None; [done|].
    apply map_lookup_filter_None. by left.
  - rewrite map_filter_insert_False by done. by rewrite delete_id.
Qed.
Lemma count_delete m k v s :
  m !! k = Some v → count m s = ((if decide (k.1 = s) then 1 else 0) + count (delete k m) s)%nat.
Proof.
  intros Hk. rewrite <- (insert_delete_id m k v Hk) at 1. apply count_insert, lookup_delete_eq.
Qed.
Lemma count_mono m m' s : m ⊆ m' → (count m s ≤ count m' s)%nat.
Proof. intros Hs. by apply map_subseteq_size, map_filter_subseteq_mono. Qed.
End counting.

(** ** The invariant *)

Section inv.
Context `{Blake3, SigScheme, Borsh Transaction, SerializedSize SignedTransaction}.
Implicit Types (p : Mempool) (stx : SignedTransaction) (s : AccountId) (q : QueuedTx).

Record indexed p : Prop := {
  ix_slot slot id : by_sender p !! slot = Some id → ∃ stx, by_id p !! id = Some stx ∧ slot_of stx = slot;
  ix_id id stx : by_id p !! id = Some stx → tx_id stx = id ∧ by_sender p !! slot_of stx = Some id;
  ix_time : dom (inserted_at p) = dom (by_id p);
  ix_height : dom (inserted_at_height p) = dom (by_id p);
  ix_queue slot q : queued p !! slot = Some q → slot_of (q_stx q) = slot;
  ix_weight : weight_total p = map_sum tx_weight (by_id p);
  ix_qweight : queued_weight_total p = map_sum (tx_weight ∘ q_stx) (queued p);
}.
Record bounded p : Prop := {
  bd_weight : weight_total p + queued_weight_total p ≤ max_weight p;
  bd_max : max_weight p < u64_max;
  bd_qweight : queued_weight_total p ≤ max_weight p / 4;
  bd_len : len p ≤ capacity p;
  bd_sender s : sender_count p s ≤ max_per_sender p;
  bd_qlen : N.of_nat (size (queued p)) ≤ queued_capacity p;
  bd_qsender s : queued_count p s ≤ max_queued_per_sender p;
  bd_qpos : 1 ≤ queued_capacity p ∧ 1 ≤ max_queued_per_sender p;
}.
Definition pool_ok p : Prop := indexed p ∧ bounded p.

(** The configuration no operation changes. *)
Definition limits p := (capacity p, max_per_sender p, queued_capacity p, max_queued_per_sender p, max_weight p).

(** [p'] is [p] with some entries gone. *)
Record shrinks p p' : Prop := {
  sh_id : by_id p' ⊆ by_id p;
  sh_sender : by_sender p' ⊆ by_sender p;
  sh_queued : queued p' ⊆ queued p;
  sh_weight : weight_total p' ≤ weight_total p;
  sh_qweight : queued_weight_total p' ≤ queued_weight_total p;
  sh_limits : limits p' = limits p;
}.
#[global] Instance shrinks_po : PreOrder shrinks.
Proof.
  split; [by split|]. intros p1 p2 p3 [] []. split; [by etrans..|lia|lia|congruence].
Qed.

Lemma sender_count_le p p' s : by_sender p' ⊆ by_sender p → sender_count p' s ≤ sender_count p s.
Proof. intros Hs. unfold sender_count. rewrite !count_slots. pose proof (count_mono _ _ s Hs). lia. Qed.
Lemma queued_count_le p p' s : queued p' ⊆ queued p → queued_count p' s ≤ queued_count p s.
Proof. intros Hs. unfold queued_count. rewrite !count_slots. pose proof (count_mono _ _ s Hs). lia. Qed.
Lemma len_le p p' : by_id p' ⊆ by_id p → len p' ≤ len p.
Proof. intros Hs%map_subseteq_size. unfold len. lia. Qed.

Lemma shrinks_bounded p p' : bounded p → shrinks p p' → bounded p'.
Proof.
  intros B [Hi Hs Hq ? ? E]. unfold limits in E. injection E as E1 E2 E3 E4 E5. destruct B.
  pose proof (len_le p p' Hi). pose proof (map_subseteq_size _ _ Hq).
  split; rewrite ?E1, ?E2, ?E3, ?E4, ?E5; try lia.
  - intros s. etrans; [by apply (sender_count_le p)|done].
  - intros s. etrans; [by apply (queued_count_le p)|done].
Qed.

(** ** The writers *)

Lemma weight_exact p id stx : indexed p → by_id p !! id = Some stx →
  saturating_sub (weight_total p) (tx_weight stx) = map_sum tx_weight (delete id (by_id p)).
Proof. intros I E. rewrite (ix_weight _ I), (map_sum_delete _ _ _ _ E). unfold saturating_sub. lia. Qed.
Lemma qweight_exact p slot q : indexed p → queued p !! slot = Some q →
  saturating_sub (queued_weight_total p) (tx_weight (q_stx q))
  = map_sum (tx_weight ∘ q_stx) (delete slot (queued p)).
Proof. intros I E. rewrite (ix_qweight _ I), (map_sum_delete _ _ _ _ E). unfold saturating_sub. simpl. lia. Qed.

Lemma slot_inj p id1 id2 stx1 stx2 : indexed p →
  by_id p !! id1 = Some stx1 → by_id p !! id2 = Some stx2 → slot_of stx1 = slot_of stx2 → id1 = id2.
Proof. intros I E1%(ix_id _ I) E2%(ix_id _ I) E. destruct E1 as [_ E1], E2 as [_ E2]. congruence. Qed.

Lemma remove_indexed p id : indexed p → indexed (remove p id).1.
Proof.
  intros I. unfold remove. destruct (by_id p !! id) as [stx|] eqn:E; [|done]. simpl.
  split; simpl.
  - intros slot id' [Hne Hs]%lookup_delete_Some. destruct (ix_slot _ I _ _ Hs) as (stx' & E' & <-).
    exists stx'. split; [|done]. apply lookup_delete_Some. split; [|done]. intros <-. congruence.
  - intros id' stx' [Hne E']%lookup_delete_Some. destruct (ix_id _ I _ _ E') as [Ht Hs].
    split; [done|]. apply lookup_delete_Some. split; [|done]. intros Es. by apply Hne, (slot_inj p _ _ _ _ I E E').
  - by rewrite !dom_delete_L, (ix_time _ I).
  - by rewrite !dom_delete_L, (ix_height _ I).
  - apply (ix_queue _ I).
  - by apply weight_exact.
  - apply (ix_qweight _ I).
Qed.
Lemma remove_shrinks p id : shrinks p (remove p id).1.
Proof.
  unfold remove. destruct (by_id p !! id); [|done]. split; simpl; try done; try apply delete_subseteq.
  unfold saturating_sub. lia.
Qed.
Lemma remove_queued_indexed p slot : indexed p → indexed (remove_queued p slot).1.
Proof.
  intros I. unfold remove_queued. destruct (queued p !! slot) as [q|] eqn:E; [|done].
  split; simpl; try apply I; [|by apply qweight_exact].
  intros slot' q' [_ Hq]%lookup_delete_Some. by apply (ix_queue _ I).
Qed.
Lemma remove_queued_shrinks p slot : shrinks p (remove_queued p slot).1.
Proof.
  unfold remove_queued. destruct (queued p !! slot); [|done]. split; simpl; try done; try apply delete_subseteq.
  unfold saturating_sub. lia.
Qed.

(** A pool from which only entries were taken. *)
Definition trims p p' : Prop := shrinks p p' ∧ (indexed p → indexed p').
#[global] Instance trims_po : PreOrder trims.
Proof.
  split; [by split|]. intros p1 p2 p3 [S1 I1] [S2 I2]. split; [by etrans|auto].
Qed.
Lemma trims_ok p p' : trims p p' → pool_ok p → pool_ok p'.
Proof. intros [S I] [Ip Bp]. split; [auto|by eapply shrinks_bounded]. Qed.
Lemma remove_trims p id : trims p (remove p id).1.
Proof. split; [apply remove_shrinks|apply remove_indexed]. Qed.
Lemma remove_queued_trims p slot : trims p (remove_queued p slot).1.
Proof. split; [apply remove_queued_shrinks|apply remove_queued_indexed]. Qed.
Lemma foldl_trims {A} (f : Mempool → A → Mempool) l p :
  (∀ p x, trims p (f p x)) → trims p (foldl f p l).
Proof. intros Hf. revert p. induction l as [|x l IH]; intros p; [done|]. simpl. etrans; [apply Hf|apply IH]. Qed.
Lemma retain_trims p keep : trims p (retain_queued p keep).
Proof. apply foldl_trims. intros p' e. case_match; [done|]. apply remove_queued_trims. Qed.
Lemma remove_all_trims p ids : trims p (remove_all p ids).
Proof. apply foldl_trims. intros. apply remove_trims. Qed.
Lemma evict_highest_trims p s : trims p (evict_highest_nonce p s).
Proof. unfold evict_highest_nonce. destruct (last _) as [[]|]; [apply remove_trims|done]. Qed.
Lemma fit_balance_trims n p s cap : trims p (fit_balance n p s cap).
Proof.
  revert p. induction n as [|n IH]; intros p; simpl; [done|]. case_match; [|done].
  case_match; [apply evict_highest_trims|]. etrans; [apply evict_highest_trims|apply IH].
Qed.

Lemma admit_ready_indexed p stx now :
  indexed p → by_id p !! tx_id stx = None → by_sender p !! slot_of stx = None →
  weight_total p + tx_weight stx ≤ u64_max → indexed (admit_ready p (slot_of stx) (tx_id stx) stx now).
Proof.
  intros I Hid Hs Hw. split; simpl.
  - intros slot id [[<- <-]|[Hne E]]%lookup_insert_Some; [exists stx; by simplify_map_eq|].
    destruct (ix_slot _ I _ _ E) as (stx' & E' & <-). exists stx'. split; [|done].
    rewrite lookup_insert_ne; [done|]. intros <-. congruence.
  - intros id stx' [[<- <-]|[Hne E]]%lookup_insert_Some; [by simplify_map_eq|].
    destruct (ix_id _ I _ _ E) as [Ht Es]. split; [done|]. rewrite lookup_insert_ne; [done|]. congruence.
  - by rewrite !dom_insert_L, (ix_time _ I).
  - by rewrite !dom_insert_L, (ix_height _ I).
  - apply (ix_queue _ I).
  - rewrite map_sum_insert_None by done. rewrite <- (ix_weight _ I). unfold saturating_add. lia.
  - apply (ix_qweight _ I).
Qed.
Lemma admit_queued_indexed p q :
  indexed p → queued p !! slot_of (q_stx q) = None →
  queued_weight_total p + tx_weight (q_stx q) ≤ u64_max → indexed (admit_queued p (slot_of (q_stx q)) q).
Proof.
  intros I Hn Hw. split; simpl; try apply I.
  - intros slot q' [[<- <-]|[_ E]]%lookup_insert_Some; [done|by apply (ix_queue _ I)].
  - rewrite map_sum_insert_None by done. rewrite <- (ix_qweight _ I). unfold saturating_add. simpl. lia.
Qed.

Lemma sender_count_insert p p' slot id s :
  by_sender p' = <[slot := id]> (by_sender p) → by_sender p !! slot = None →
  sender_count p' s = (if decide (slot.1 = s) then 1 else 0) + sender_count p s.
Proof.
  intros E Hn. unfold sender_count. rewrite !count_slots, E, count_insert by done. case_decide; lia.
Qed.
Lemma queued_count_insert p p' slot q s :
  queued p' = <[slot := q]> (queued p) → queued p !! slot = None →
  queued_count p' s = (if decide (slot.1 = s) then 1 else 0) + queued_count p s.
Proof.
  intros E Hn. unfold queued_count. rewrite !count_slots, E, count_insert by done. case_decide; lia.
Qed.
Lemma remove_sizes p id stx :
  indexed p → by_id p !! id = Some stx →
  len p = len (remove p id).1 + 1 ∧
  weight_total p = weight_total (remove p id).1 + tx_weight stx ∧
  (∀ s, sender_count p s
     = (if decide (signer_id (transaction stx) = s) then 1 else 0) + sender_count (remove p id).1 s).
Proof.
  intros I E. pose proof (weight_exact _ _ _ I E) as Hw. pose proof (map_sum_delete tx_weight _ _ _ E) as Hm.
  pose proof (ix_weight _ I) as Ht. unfold remove. rewrite E. simpl.
  unfold len, sender_count. simpl. rewrite map_size_delete_Some by done.
  assert (size (by_id p) ≠ 0%nat) by (intros Hz%map_size_empty_inv; by rewrite Hz, lookup_empty in E).
  split_and!; [lia|lia|]. intros s. rewrite !count_slots.
  rewrite (count_delete (by_sender p) _ _ s (proj2 (ix_id _ I _ _ E))). 
  change ((slot_of stx).1) with (signer_id (transaction stx)). case_decide; lia.
Qed.

Lemma admit_ready_bounded p slot id stx now :
  bounded p → by_id p !! id = None → by_sender p !! slot = None →
  len p < capacity p → sender_count p slot.1 < max_per_sender p →
  weight_total p + queued_weight_total p + tx_weight stx ≤ max_weight p →
  bounded (admit_ready p slot id stx now).
Proof.
  intros [] Hid Hs Hl Hc Hw. split; simpl; try done.
  - unfold saturating_add. lia.
  - unfold len in *. simpl. rewrite map_size_insert_None by done. lia.
  - intros s. rewrite (sender_count_insert p _ slot id s) by done. specialize (bd_sender0 s).
    case_decide; subst; lia.
Qed.
Lemma admit_queued_bounded p slot q :
  bounded p → queued p !! slot = None →
  N.of_nat (size (queued p)) < queued_capacity p → queued_count p slot.1 < max_queued_per_sender p →
  queued_weight_total p + tx_weight (q_stx q) ≤ max_weight p / 4 →
  weight_total p + queued_weight_total p + tx_weight (q_stx q) ≤ max_weight p →
  bounded (admit_queued p slot q).
Proof.
  intros [] Hq Hl Hc Hw4 Hw. split; simpl; try done.
  - unfold saturating_add. lia.
  - unfold saturating_add. lia.
  - rewrite map_size_insert_None by done. lia.
  - intros s. rewrite (queued_count_insert p _ slot q s) by done. specialize (bd_qsender0 s).
    case_decide; subst; lia.
Qed.

(** ** The marginal slot *)

(** The tail of a signer other than [exclude], as the auction prices it. *)
Definition tail_victim p (exclude s : AccountId) (v : EvictionVictim) : Prop :=
  s ≠ exclude ∧ ∃ slot stx, last (slots_of (by_sender p) s) = Some (slot, v_id v) ∧
    by_id p !! v_id v = Some stx ∧
    v = mkVictim (v_id v) (effective_tip stx) (fee_rate (effective_tip stx) (tx_weight stx)) (sender_count p s).
(** Cheaper, or as cheap and of a signer that holds at least as many slots. *)
Definition no_dearer (v b : EvictionVictim) : Prop :=
  v_rate v < v_rate b ∨ v_rate v = v_rate b ∧ v_sender_count b ≤ v_sender_count v.

Lemma tail_indexed p s slot id :
  indexed p → last (slots_of (by_sender p) s) = Some (slot, id) →
  ∃ stx, by_id p !! id = Some stx ∧ slot_of stx = slot ∧ slot.1 = s.
Proof.
  intros I Hl. apply last_Some_elem_of in Hl. apply elem_of_slots in Hl as [Hs Hl].
  destruct (ix_slot _ I _ _ Hl) as (stx & ? & ?). eauto.
Qed.

Lemma victim_from_spec p exclude l : ∀ best, indexed p →
  ∃ r, victim_from p exclude best l = Some r ∧
    (r = best ∨ ∃ s v, r = Some v ∧ tail_victim p exclude s v) ∧
    (∀ b, best = Some b → ∃ v, r = Some v ∧ no_dearer v b) ∧
    (∀ s b, s ∈ l → tail_victim p exclude s b → ∃ v, r = Some v ∧ no_dearer v b).
Proof.
  induction l as [|s l IH]; intros best I; simpl.
  { exists best. split_and!; [done|by left| |intros ? ? ?%not_elem_of_nil; done].
    intros b ->. exists b. split; [done|]. right. lia. }
  assert (∀ best', (∀ b, tail_victim p exclude s b → ∃ v, best' = Some v ∧ no_dearer v b) →
      (best' = best ∨ ∃ v, best' = Some v ∧ tail_victim p exclude s v) →
      (∀ b, best = Some b → ∃ v, best' = Some v ∧ no_dearer v b) →
      ∃ r, victim_from p exclude best' l = Some r ∧
        (r = best ∨ ∃ s v, r = Some v ∧ tail_victim p exclude s v) ∧
        (∀ b, best = Some b → ∃ v, r = Some v ∧ no_dearer v b) ∧
        (∀ s' b, s' ∈ s :: l → tail_victim p exclude s' b → ∃ v, r = Some v ∧ no_dearer v b)) as Hstep.
  { intros best' Hcov Hfrom Hmono. destruct (IH best' I) as (r & -> & Hr & Hm & Hl).
    assert (∀ b, (∃ v, best' = Some v ∧ no_dearer v b) → ∃ v, r = Some v ∧ no_dearer v b) as Htr.
    { intros b (v & Ev & Hv). destruct (Hm v Ev) as (w & -> & Hw). exists w. split; [done|].
      unfold no_dearer in *. lia. }
    exists r. split_and!; [done|..].
    - destruct Hr as [->|Hr]; [|by right]. destruct Hfrom as [->|(v & -> & Hv)]; [by left|right]. eauto.
    - intros b Hb. apply Htr, Hmono, Hb.
    - intros s' b [->|Hin]%elem_of_cons Hv; [by apply Htr, Hcov|by apply (Hl s')]. }
  case_bool_decide as Hex.
  { apply Hstep; [|by left|intros b ->; exists b; split; [done|right; lia]]. intros b [Hne _]. done. }
  destruct (last (slots_of (by_sender p) s)) as [[slot id]|] eqn:El.
  2:{ apply Hstep; [|by left|intros b ->; exists b; split; [done|right; lia]].
      intros b (_ & slot & stx & El' & _). congruence. }
  destruct (tail_indexed p s slot id I El) as (stx & E & Hslot & Hs). rewrite E. simpl.
  set (v := mkVictim id _ _ _).
  assert (tail_victim p exclude s v) as Hv by (split; [done|]; by exists slot, stx).
  assert (∀ b, tail_victim p exclude s b → b = v) as Huniq.
  { intros [id' t r c] (_ & slot' & stx' & El' & E' & Eb). simpl in *. rewrite El in El'. simplify_eq.
    done. }
  apply Hstep.
  - intros b ->%Huniq. destruct best as [b|]; [|exists v; split; [done|right; lia]].
    destruct (_ || _) eqn:Hb; [exists v; split; [done|right; lia]|]. exists b. split; [done|].
    rewrite orb_false_iff, andb_false_iff, !N.ltb_ge, N.eqb_neq in Hb. unfold no_dearer, v. simpl. lia.
  - destruct best as [b|]; [|eauto]. destruct (_ || _); eauto.
  - intros b ->. destruct (_ || _) eqn:Hb; [|exists b; split; [done|right; lia]]. exists v. split; [done|].
    rewrite orb_true_iff, andb_true_iff, !N.ltb_lt, N.eqb_eq in Hb. unfold no_dearer, v. simpl. lia.
Qed.

Lemma eviction_victim_spec p exclude : indexed p →
  ∃ r, eviction_victim p exclude = Some r ∧
    match r with
    | Some v => (∃ s, tail_victim p exclude s v) ∧ ∀ s b, tail_victim p exclude s b → no_dearer v b
    | None => ∀ s b, ~ tail_victim p exclude s b
    end.
Proof.
  intros I. destruct (victim_from_spec p exclude (senders (by_sender p)) None I) as (r & E & Hr & _ & Hl).
  exists r. split; [exact E|].
  assert (∀ s b, tail_victim p exclude s b → ∃ v, r = Some v ∧ no_dearer v b) as Hall.
  { intros s b Hb. apply (Hl s); [|done]. destruct Hb as (_ & slot & stx & El & _).
    apply last_Some_elem_of, elem_of_slots in El as [<- El]. apply elem_of_senders. destruct slot. eauto. }
  destruct r as [v|].
  - split; [|intros s b Hb; destruct (Hall s b Hb) as (? & ? & ?); by simplify_eq].
    destruct Hr as [|(s & ? & ? & ?)]; [done|]. simplify_eq. eauto.
  - intros s b Hb. by destruct (Hall s b Hb) as (? & ? & ?).
Qed.

(** ** The auction *)

(** [p'] is [p] after evictions from the READY region of signers other than [s]. *)
Record evicts s p p' : Prop := {
  ev_trims : trims p p';
  ev_queued : queued p' = queued p;
  ev_qweight : queued_weight_total p' = queued_weight_total p;
  ev_own n : by_sender p' !! (s, n) = by_sender p !! (s, n);
}.
#[global] Instance evicts_po s : PreOrder (evicts s).
Proof.
  split; [by split|]. intros p1 p2 p3 [] []. split; [by etrans|congruence|congruence|].
  intros n. by rewrite ev_own1.
Qed.
Lemma remove_evicts s p id stx :
  by_id p !! id = Some stx → signer_id (transaction stx) ≠ s → evicts s p (remove p id).1.
Proof.
  intros E Hne. split; [apply remove_trims|..]; unfold remove; rewrite E; simpl; try done.
  intros n. rewrite lookup_delete_ne; [done|]. unfold slot_of. congruence.
Qed.

(** One turn of the loop, with budget left. *)
Lemma auction_turn s rate w budget p :
  auction (S (S budget)) p s rate w =
  if (capacity p <=? len p) || (max_weight p <? saturating_add u64_max (total_weight p) w) then
    victim ← eviction_victim p s;
    match victim with
    | Some v =>
        if (v_rate v <? rate) || ((rate =? v_rate v) && (v_rate v =? 0) && (1 <? v_sender_count v))
        then auction (S budget) (remove p (v_id v)).1 s rate w
        else if 0 <? v_rate v then Some (p, Err (BelowFloor (v_tip v)))
        else Some (p, Err (Full (capacity p)))
    | None => Some (p, Err (Full (capacity p)))
    end
  else Some (p, Ok ()).
Proof. done. Qed.
Lemma auction_last s rate w budget p : (budget < 2)%nat →
  auction budget p s rate w =
  if (capacity p <=? len p) || (max_weight p <? saturating_add u64_max (total_weight p) w)
  then Some (p, Err (Full (capacity p))) else Some (p, Ok ()).
Proof. intros. by destruct budget as [|[|]]; [..|lia]. Qed.

Definition auction_done p (r : result MempoolError unit) w : Prop :=
  match r with
  | Ok _ => len p < capacity p ∧ saturating_add u64_max (total_weight p) w ≤ max_weight p
  | Err e => transient e = true
  end.
Lemma auction_done_Ok p w :
  (capacity p <=? len p) || (max_weight p <? saturating_add u64_max (total_weight p) w) = false →
  auction_done p (Ok ()) w.
Proof. rewrite orb_false_iff, N.leb_gt, N.ltb_ge. done. Qed.

Lemma auction_spec s rate w : ∀ budget p, indexed p →
  ∃ p' r, auction budget p s rate w = Some (p', r) ∧ evicts s p p' ∧ auction_done p' r w.
Proof.
  induction budget as [|budget IH]; intros p I; [|destruct budget as [|budget]].
  - rewrite auction_last by lia. destruct (_ || _) eqn:Hc; [by eexists _, _|].
    eexists _, _. split; [done|]. split; [done|by apply auction_done_Ok].
  - rewrite auction_last by lia. destruct (_ || _) eqn:Hc; [by eexists _, _|].
    eexists _, _. split; [done|]. split; [done|by apply auction_done_Ok].
  - rewrite auction_turn. destruct ((_ <=? _) || _) eqn:Hc.
    2:{ eexists _, _. split; [done|]. split; [done|by apply auction_done_Ok]. }
    destruct (eviction_victim_spec p s I) as (r & -> & Hr). cbn [mbind option_bind].
    destruct r as [v|]; [|by eexists _, _]. destruct Hr as [(s' & Hne & slot & stx & El & E & _) _].
    destruct ((v_rate v <? rate) || _).
    2:{ destruct (0 <? _); by eexists _, _. }
    destruct (IH (remove p (v_id v)).1) as (p' & r & Ea & Hev & Hr); [by apply remove_indexed|].
    exists p', r. split; [exact Ea|]. split; [|done]. etrans; [|exact Hev].
    destruct (tail_indexed p s' slot (v_id v) I El) as (stx' & E' & Hs & Hs'). simplify_eq.
    eapply remove_evicts; [done|]. intros <-. by apply Hne.
Qed.

(** ** Parking *)

Lemma sat_le a b M : saturating_add u64_max a b ≤ M → M < u64_max → a + b ≤ M.
Proof. unfold saturating_add. lia. Qed.

Lemma remove_queued_sizes p slot q :
  indexed p → queued p !! slot = Some q →
  size (queued p) = S (size (queued (remove_queued p slot).1)) ∧
  queued_weight_total p = queued_weight_total (remove_queued p slot).1 + tx_weight (q_stx q) ∧
  (∀ s, queued_count p s
     = (if decide (slot.1 = s) then 1 else 0) + queued_count (remove_queued p slot).1 s).
Proof.
  intros I E. pose proof (qweight_exact _ _ _ I E) as Hw.
  pose proof (map_sum_delete (tx_weight ∘ q_stx) _ _ _ E) as Hm. pose proof (ix_qweight _ I) as Ht.
  unfold remove_queued. rewrite E. cbn [fst queued queued_weight_total].
  assert (size (queued p) ≠ 0%nat) by (intros Hz%map_size_empty_inv; by rewrite Hz, lookup_empty in E).
  rewrite map_size_delete_Some by done. split_and!; [lia|simpl in *; lia|]. intros s.
  unfold queued_count. rewrite !count_slots. cbn [queued]. rewrite (count_delete (queued p) _ _ s E).
  case_decide; lia.
Qed.
Lemma remove_queued_lookup p slot k :
  queued (remove_queued p slot).1 !! k = if decide (k = slot) then None else queued p !! k.
Proof.
  unfold remove_queued. destruct (queued p !! slot) eqn:E; simpl; case_decide; subst;
    by rewrite ?lookup_delete_eq, ?lookup_delete_ne by done.
Qed.
Lemma remove_queued_ready p slot :
  by_id (remove_queued p slot).1 = by_id p ∧ by_sender (remove_queued p slot).1 = by_sender p ∧
  weight_total (remove_queued p slot).1 = weight_total p.
Proof. unfold remove_queued. by destruct (queued p !! slot). Qed.

Definition cleared p (d : list (AccountId * N)) : Mempool := foldl (λ p v, (remove_queued p v).1) p d.
Lemma cleared_snoc p d v : cleared p (d ++ [v]) = (remove_queued (cleared p d) v).1.
Proof. unfold cleared. by rewrite foldl_app. Qed.
Lemma cleared_trims p d : trims p (cleared p d).
Proof. apply foldl_trims. intros. apply remove_queued_trims. Qed.
Lemma cleared_ready p d :
  by_id (cleared p d) = by_id p ∧ by_sender (cleared p d) = by_sender p ∧
  weight_total (cleared p d) = weight_total p.
Proof.
  revert p. induction d as [|v d IH]; intros p; [done|]. simpl.
  destruct (IH (remove_queued p v).1) as (-> & -> & ->). apply remove_queued_ready.
Qed.
Lemma cleared_lookup p d k : k ∉ d → queued (cleared p d) !! k = queued p !! k.
Proof.
  revert p. induction d as [|v d IH]; intros p Hk; [done|]. simpl. rewrite IH by set_solver.
  rewrite remove_queued_lookup. case_decide; [set_solver|done].
Qed.
Lemma limits_eq p p' : limits p' = limits p →
  capacity p' = capacity p ∧ max_per_sender p' = max_per_sender p ∧ queued_capacity p' = queued_capacity p ∧
  max_queued_per_sender p' = max_queued_per_sender p ∧ max_weight p' = max_weight p.
Proof. unfold limits. by intros [= -> -> -> -> ->]. Qed.

(** A plan: slots to clear and the queued weight that leaves. *)
Definition plan_ok p (d : list (AccountId * N)) (w : N) : Prop :=
  w = queued_weight_total (cleared p d) ∧ (size (queued (cleared p d)) + length d = size (queued p))%nat.

Lemma plan_sender_spec p s nonce : pool_ok p →
  ∃ r, plan_sender p s nonce = Some r ∧
    ∀ d w, r = Ok (d, w) → plan_ok p d w ∧ queued_count (cleared p d) s < max_queued_per_sender p.
Proof.
  intros [I B]. unfold plan_sender. destruct (N.leb_spec (max_queued_per_sender p) (queued_count p s)) as [Hc|Hc].
  2:{ eexists. split; [done|]. intros d w [= <- <-]. split; [|done]. split; simpl; [done|lia]. }
  pose proof (bd_qpos _ B). destruct (last (slots_of (queued p) s)) as [[[s' n] q]|] eqn:El.
  2:{ apply last_None in El. unfold queued_count in Hc. rewrite El in Hc. simpl in Hc. lia. }
  apply last_Some_elem_of, elem_of_slots in El as [Hs E]. simpl in Hs. subst s'. cbn.
  destruct (n <=? nonce); [by eexists|]. rewrite E. cbn. eexists. split; [done|].
  intros d w [= <- <-]. destruct (remove_queued_sizes p (s, n) q I E) as (Hz & Hw & Hn).
  split; [split; simpl; [unfold saturating_sub; lia|lia]|]. simpl. specialize (Hn s). simpl in Hn.
  rewrite decide_True in Hn by done. pose proof (bd_qsender _ B s). lia.
Qed.

Lemma cheaper_in l : ∀ best c, foldl cheaper best l = Some c → best = Some c ∨ c ∈ l.
Proof.
  induction l as [|x l IH]; intros best c E; [by left|]. simpl in E. apply IH in E as [E|E]; [|right; by right].
  unfold cheaper in E. destruct best as [b|]; [destruct (_ <? _)|]; simplify_eq; auto; right; by left.
Qed.
Lemma cheaper_some l best : best ≠ None ∨ l ≠ [] → foldl cheaper best l ≠ None.
Proof.
  revert best. induction l as [|x l IH]; intros best [Hb|Hb]; try done; simpl; apply IH; left;
    unfold cheaper; destruct best as [b|]; try done; by destruct (_ <? _).
Qed.

Lemma plan_global_spec p tip d w : pool_ok p → plan_ok p d w →
  ∃ r, plan_global p tip d w = Some r ∧
    ∀ d' w', r = Ok (d', w') → plan_ok p d' w' ∧ N.of_nat (size (queued (cleared p d'))) < queued_capacity p ∧
      ∃ e, d' = d ++ e.
Proof.
  intros [I B] [Hw Hz]. unfold plan_global. pose proof (bd_qlen _ B). pose proof (bd_qpos _ B).
  destruct (N.leb_spec (queued_capacity p) (saturating_sub (N.of_nat (size (queued p))) (N.of_nat (length d))))
    as [Hc|Hc]; unfold saturating_sub in Hc.
  2:{ eexists. split; [done|]. intros d' w' [= <- <-]. split; [done|]. split; [lia|]. exists []. by rewrite app_nil_r. }
  set (cands := fmap _ (filter _ _)).
  destruct (foldl cheaper None cands) as [[t v]|] eqn:Ef.
  2:{ exfalso. eapply cheaper_some, Ef. right. unfold cands. intros Hn%fmap_nil_inv.
      assert (∀ k q, queued p !! k = Some q → k ∈ d) as Hall.
      { intros k q E. destruct (decide (k ∈ d)) as [|Hk]; [done|].
        assert ((k, q) ∈ filter (λ e, e.1 ∉ d) (entries (queued p))) as Hin
          by (apply list_elem_of_filter; split; [done|by apply elem_of_entries]).
        rewrite Hn in Hin. by apply not_elem_of_nil in Hin. }
      assert ((map_to_list (queued p)).*1 ⊆+ d) as Hsub%submseteq_length.
      { apply NoDup_submseteq; [apply NoDup_fst_map_to_list|]. intros k ([k' q] & -> & Hk)%list_elem_of_fmap.
        apply elem_of_map_to_list in Hk. by eapply Hall. }
      rewrite length_fmap, length_map_to_list in Hsub. lia. }
  assert ((v ∉ d) ∧ ∃ q, queued p !! v = Some q) as [Hv (q & E)].
  { apply cheaper_in in Ef as [|Hin]; [done|]. apply list_elem_of_fmap in Hin as ([k q] & Hk & Hin).
    simpl in Hk. apply list_elem_of_filter in Hin as [Hd Hin]. apply elem_of_entries in Hin. simplify_eq. eauto. }
  cbn. destruct (tip <=? t); [by eexists|]. rewrite E. cbn. eexists. split; [done|].
  intros d' w' [= <- <-]. rewrite <- (cleared_lookup p d v Hv) in E.
  destruct (remove_queued_sizes (cleared p d) v q) as (Hz' & Hw' & _); [by apply cleared_trims|done|].
  split; [|split; [|by eexists]].
  - split; rewrite cleared_snoc; [unfold saturating_sub; lia|]. rewrite length_app. simpl. lia.
  - rewrite cleared_snoc. lia.
Qed.

Lemma check_queued_weight_Ok p w u : check_queued_weight p w = Ok u → max_weight p < u64_max →
  w ≤ max_weight p / 4 ∧ weight_total p + w ≤ max_weight p.
Proof.
  unfold check_queued_weight, check_total_weight. destruct (N.ltb_spec (max_weight p / 4) w); [done|].
  destruct (N.ltb_spec (max_weight p) (saturating_add u64_max (weight_total p) w)); [done|].
  intros _ Hm. split; [done|by apply sat_le].
Qed.

(** Parking after a plan. *)
Lemma park_ok p d stx now :
  let slot := slot_of stx in
  let q := mkQueuedTx stx now (chain_height p) in
  pool_ok p → queued (cleared p d) !! slot = None →
  N.of_nat (size (queued (cleared p d))) < queued_capacity p →
  queued_count (cleared p d) slot.1 < max_queued_per_sender p →
  queued_weight_total (cleared p d) + tx_weight stx ≤ max_weight p / 4 →
  weight_total p + (queued_weight_total (cleared p d) + tx_weight stx) ≤ max_weight p →
  pool_ok (admit_queued (cleared p d) slot q).
Proof.
  intros slot q [I B] Hn Hz Hc H4 Hm. destruct (cleared_trims p d) as [S Hi].
  destruct (limits_eq _ _ (sh_limits _ _ S)) as (_ & _ & El1 & El2 & El3).
  destruct (cleared_ready p d) as (_ & _ & Ew). pose proof (bd_max _ B).
  split; [apply admit_queued_indexed; [auto|done|simpl; lia]|].
  apply admit_queued_bounded; simpl; [by eapply shrinks_bounded|done|..]; rewrite ?El1, ?El2, ?El3, ?Ew; (exact Hc || lia).
Qed.

Lemma insert_queued_spec p stx balance now : pool_ok p →
  ∃ p' r, insert_queued p stx balance now = Some (p', r) ∧ pool_ok p' ∧
    by_id p' = by_id p ∧ by_sender p' = by_sender p ∧
    match r with Ok a => a = Queued | Err _ => p' = p end.
Proof.
  intros P. pose proof P as [I B]. pose proof (bd_max _ B) as Hmax.
  assert (∀ e, ∃ p' r, refuse p e = Some (p', r) ∧ pool_ok p' ∧ by_id p' = by_id p ∧ by_sender p' = by_sender p ∧
    match r with Ok a => a = Queued | Err _ => p' = p end) as Hrefuse by (intros e; by exists p, (Err e)).
  unfold insert_queued. case_bool_decide as Hs; [apply Hrefuse|].
  change (signer_id (transaction stx), tx_nonce (transaction stx)) with (slot_of stx).
  destruct (queued p !! slot_of stx) as [old|] eqn:Eq.
  - case_bool_decide; [apply Hrefuse|]. do 3 (case_match; [apply Hrefuse|]).
    match goal with |- context [check_queued_weight p ?w] => destruct (check_queued_weight p w) as [u|e] eqn:Ec end;
      [|apply Hrefuse].
    apply check_queued_weight_Ok in Ec as [Hw4 Hm]; [|done].
    destruct (remove_queued_sizes p (slot_of stx) old I Eq) as (Hz & Hw & Hn). specialize (Hn (slot_of stx).1).
    rewrite decide_True in Hn by done. pose proof (bd_qlen _ B). pose proof (bd_qsender _ B (slot_of stx).1).
    assert (saturating_add u64_max (saturating_sub (queued_weight_total p) (tx_weight (q_stx old))) (tx_weight stx)
      = queued_weight_total (cleared p [slot_of stx]) + tx_weight stx) as Esat.
    { simpl. unfold saturating_add, saturating_sub in *. lia. }
    rewrite Esat in Hw4, Hm. eexists _, _. split; [done|]. split.
    + apply (park_ok p [slot_of stx] stx now P); simpl; try lia; [|simpl in *; lia..].
      rewrite remove_queued_lookup. by rewrite decide_True.
    + simpl. destruct (remove_queued_ready p (slot_of stx)) as (-> & -> & _). done.
  - case_match; [apply Hrefuse|].
    destruct (plan_sender_spec p (slot_of stx).1 (slot_of stx).2 P) as (r1 & E1 & Hr1).
    simpl in E1. rewrite E1. cbn [mbind option_bind]. destruct r1 as [[d1 w1]|e]; [|apply Hrefuse].
    destruct (Hr1 d1 w1 eq_refl) as [Hp1 Hc1].
    destruct (plan_global_spec p (effective_tip stx) d1 w1 P Hp1) as (r2 & E2 & Hr2). rewrite E2.
    cbn [mbind option_bind]. destruct r2 as [[d2 w2]|e]; [|apply Hrefuse].
    destruct (Hr2 d2 w2 eq_refl) as ([Hw2 Hz2] & Hcap & e & ->).
    match goal with |- context [check_queued_weight p ?w] => destruct (check_queued_weight p w) as [u|err] eqn:Ec end;
      [|apply Hrefuse].
    apply check_queued_weight_Ok in Ec as [Hw4 Hm]; [|done]. subst w2.
    assert (saturating_add u64_max (queued_weight_total (cleared p (d1 ++ e))) (tx_weight stx)
      = queued_weight_total (cleared p (d1 ++ e)) + tx_weight stx) as Esat.
    { unfold saturating_add in *. lia. }
    rewrite Esat in Hw4, Hm. eexists _, _. split; [done|]. split.
    + apply (park_ok p (d1 ++ e) stx now P); try done.
      * destruct (queued (cleared p (d1 ++ e)) !! slot_of stx) as [q|] eqn:E; [|done].
        eapply lookup_weaken in E; [|apply (sh_queued _ _ (proj1 (cleared_trims p (d1 ++ e))))]. congruence.
      * eapply N.le_lt_trans; [|exact Hc1]. unfold cleared. rewrite foldl_app. apply (queued_count_le (cleared p d1)).
        apply (sh_queued _ _ (proj1 (cleared_trims (cleared p d1) e))).
    + destruct (cleared_ready p (d1 ++ e)) as (Ei & Es & _). unfold cleared in Ei, Es. simpl. by rewrite Ei, Es.
Qed.

(** ** Admission *)

Lemma check_total_weight_Ok p w u : check_total_weight p w = Ok u → w ≤ max_weight p.
Proof. unfold check_total_weight. by destruct (N.ltb_spec (max_weight p) w). Qed.

(** Admission to the READY region of a pool with room. *)
Lemma admit_ok p stx now :
  pool_ok p → by_id p !! tx_id stx = None → by_sender p !! slot_of stx = None → len p < capacity p →
  sender_count p (signer_id (transaction stx)) < max_per_sender p →
  weight_total p + queued_weight_total p + tx_weight stx ≤ max_weight p →
  pool_ok (admit_ready p (slot_of stx) (tx_id stx) stx now).
Proof.
  intros [I B] Hid Hs Hl Hc Hw. pose proof (bd_max _ B).
  split; [apply admit_ready_indexed; auto; lia|by apply admit_ready_bounded].
Qed.

(** What an admission attempt leaves behind. *)
Definition attempt p stx p' (r : result MempoolError Admission) : Prop :=
  pool_ok p' ∧
  match r with
  | Ok Ready => queued p' = queued p ∧ by_id p' !! tx_id stx = Some stx
  | Ok Queued => by_id p' = by_id p ∧ by_sender p' = by_sender p
  | Err _ => evicts (signer_id (transaction stx)) p p'
  end.

Lemma insert_inner_spec p stx current balance now : pool_ok p →
  ∃ p' r, insert_inner p stx current balance now = Some (p', r) ∧ attempt p stx p' r.
Proof.
  intros P. pose proof P as [I B]. pose proof (bd_max _ B) as Hmax.
  assert (∀ e, ∃ p' r, refuse p e = Some (p', r) ∧ attempt p stx p' r) as Hrefuse by (intros e; by exists p, (Err e)).
  unfold insert_inner. case_match; [apply Hrefuse|]. case_match; [apply Hrefuse|].
  unfold contains. case_bool_decide as Hid; [apply Hrefuse|]. apply eq_None_not_Some in Hid.
  change (signer_id (transaction stx), tx_nonce (transaction stx)) with (slot_of stx).
  destruct (by_sender p !! slot_of stx) as [old_id|] eqn:Es.
  - destruct (ix_slot _ I _ _ Es) as (old & Eo & Hso). rewrite Eo. cbn [mbind option_bind].
    do 3 (case_match; [apply Hrefuse|]).
    match goal with |- context [check_total_weight p ?w] => destruct (check_total_weight p w) as [u|e] eqn:Ec end;
      [|apply Hrefuse].
    apply check_total_weight_Ok in Ec. destruct (remove_sizes p old_id old I Eo) as (Hl & Hw & Hn).
    specialize (Hn (signer_id (transaction stx))).
    assert (signer_id (transaction old) = signer_id (transaction stx)) as Hsig by (by injection Hso).
    rewrite decide_True in Hn by done.
    destruct (remove_trims p old_id) as [S Hi]. destruct (limits_eq _ _ (sh_limits _ _ S)) as (E1 & E2 & _ & _ & E3).
    pose proof (bd_len _ B). pose proof (bd_sender _ B (signer_id (transaction stx))). pose proof (bd_weight _ B).
    assert (queued (remove p old_id).1 = queued p ∧ queued_weight_total (remove p old_id).1 = queued_weight_total p)
      as [Eq Eqw] by (unfold remove; by rewrite Eo).
    eexists _, _. split; [done|]. split; [|by split; [|simpl; simplify_map_eq]].
    apply admit_ok; rewrite ?E1, ?E2, ?E3, ?Eqw; try lia.
    + by apply (trims_ok p); [apply remove_trims|].
    + unfold remove. rewrite Eo. simpl. rewrite lookup_delete_None. by right.
    + unfold remove. rewrite Eo. simpl. rewrite <- Hso. apply lookup_delete_eq.
    + apply sat_le in Ec; [|done]. unfold total_weight, saturating_sub, saturating_add in Ec. lia.
  - case_match.
    { destruct (insert_queued_spec p stx balance now P) as (p' & r & E & Hp & ? & ? & Hr).
      exists p', r. split; [done|]. split; [done|]. by destruct r as [[]|]; subst. }
    case_match; [apply Hrefuse|]. case_match eqn:Hcap; [apply Hrefuse|]. apply N.leb_gt in Hcap.
    match goal with |- context [auction ?b p ?s ?r ?w] =>
      destruct (auction_spec s r w b p I) as (p1 & res & Ea & Hev & Hd) end.
    rewrite Ea. cbn [mbind option_bind]. pose proof Hev as [Ht Eq Eqw Hown].
    pose proof (trims_ok _ _ Ht P) as P1. destruct Ht as [S Hi].
    destruct (limits_eq _ _ (sh_limits _ _ S)) as (E1 & E2 & _ & _ & E3).
    destruct res as [u|e]; [|by exists p1, (Err e)]. destruct Hd as [Hl Hw].
    eexists _, _. split; [done|]. split; [|by split; [|simpl; simplify_map_eq]].
    apply admit_ok; [done|..].
    + destruct (by_id p1 !! tx_id stx) eqn:E; [|done]. eapply lookup_weaken in E; [|apply S]. congruence.
    + unfold slot_of in *. by rewrite Hown.
    + done.
    + rewrite E2. eapply N.le_lt_trans; [|exact Hcap]. apply sender_count_le, S.
    + rewrite E3 in *. apply sat_le in Hw; [|done]. unfold total_weight, saturating_add in Hw. lia.
Qed.

(** ** Promotion *)

Lemma put_back_ok p slot q p2 :
  pool_ok p → queued p !! slot = Some q → pool_ok p2 → trims (remove_queued p slot).1 p2 →
  queued p2 = queued (remove_queued p slot).1 →
  queued_weight_total p2 = queued_weight_total (remove_queued p slot).1 → pool_ok (admit_queued p2 slot q).
Proof.
  intros [I B] E P2 [S _] Eq Eqw. destruct (remove_queued_sizes p slot q I E) as (Hz & Hw & Hn).
  destruct (remove_queued_trims p slot) as [S0 _].
  destruct (limits_eq _ _ (sh_limits _ _ S)) as (_ & _ & E1 & E2 & E3).
  destruct (limits_eq _ _ (sh_limits _ _ S0)) as (_ & _ & F1 & F2 & F3).
  destruct (remove_queued_ready p slot) as (_ & _ & Ewt). pose proof (sh_weight _ _ S). destruct B.
  specialize (Hn slot.1). rewrite decide_True in Hn by done. specialize (bd_qsender0 slot.1).
  assert (queued p2 !! slot = None) as Hfree by (rewrite Eq, remove_queued_lookup; by rewrite decide_True).
  pose proof (ix_queue _ I _ _ E) as <-. split.
  - apply admit_queued_indexed; [apply P2|done|]. lia.
  - apply admit_queued_bounded; [apply P2|done|..]; rewrite ?E1, ?E2, ?E3, ?F1, ?F2, ?F3, ?Eqw, ?Eq; try lia.
    unfold queued_count in *. rewrite Eq. simpl in *. lia.
Qed.

Lemma promote_loop_ok fuel p s current balance now : pool_ok p →
  ∃ p', promote_loop fuel p s current balance now = Some p' ∧ pool_ok p'.
Proof.
  revert p. induction fuel as [|fuel IH]; intros p P; simpl; [by eexists|].
  set (slot := (s, _)). destruct (queued p !! slot) as [q|] eqn:E.
  2:{ unfold remove_queued. rewrite E. by eexists. }
  pose proof (trims_ok _ _ (remove_queued_trims p slot) P) as P1.
  destruct (remove_queued p slot) as [p1 o] eqn:Er.
  assert (o = Some q) as -> by (unfold remove_queued in Er; rewrite E in Er; by simplify_eq).
  change p1 with (p1, Some q).1 in P1. rewrite <- Er in P1.
  destruct (insert_inner_spec _ (q_stx q) current balance now P1) as (p2 & r & Ei & P2 & Hr).
  rewrite Er in Ei. simpl in Ei. rewrite Ei. cbn [mbind option_bind].
  destruct r as [[]|e]; [by apply IH|by eexists|]. destruct Hr as [Ht Eq Eqw _].
  destruct (transient e); [|by eexists]. eexists. split; [done|]. by apply (put_back_ok p slot q p2).
Qed.

(** The fuel is enough: with any more the loop ends the same way. *)
Lemma promote_loop_fuel fuel p s current balance now : pool_ok p →
  (size (queued p) < fuel)%nat →
  promote_loop fuel p s current balance now = promote p s current balance now.
Proof.
  unfold promote.
  assert (∀ n p, pool_ok p → (size (queued p) < n)%nat → ∀ m, (size (queued p) < m)%nat →
    promote_loop n p s current balance now = promote_loop m p s current balance now) as Hn.
  2:{ intros P Hf. apply Hn; auto with lia. }
  induction n as [|n IH]; intros p0 P Hlt [|m] Hm; try lia. simpl.
  set (slot := (s, _)). destruct (queued p0 !! slot) as [q|] eqn:E.
  2:{ unfold remove_queued. by rewrite E. }
  pose proof (trims_ok _ _ (remove_queued_trims p0 slot) P) as P1.
  destruct (remove_queued_sizes p0 slot q (proj1 P) E) as (Hz & _).
  destruct (insert_inner_spec _ (q_stx q) current balance now P1) as (p2 & r & Ei & P2 & Hr).
  destruct (remove_queued p0 slot) as [p1 o] eqn:Er.
  assert (o = Some q) as -> by (unfold remove_queued in Er; rewrite E in Er; by simplify_eq).
  simpl in Ei, Hz, Hr. rewrite Ei. cbn [mbind option_bind]. destruct r as [[]|e]; [|done..].
  destruct Hr as [Hq _]. apply IH; [done|rewrite Hq; lia..].
Qed.

(** ** Every operation *)

Lemma insert_ok p stx current balance now : pool_ok p →
  ∃ p' r, insert p stx current balance now = Some (p', r) ∧ pool_ok p'.
Proof.
  intros P. unfold insert. case_match; [by eexists p, _|].
  destruct (insert_inner_spec p stx current balance now P) as (p1 & r & -> & P1 & _). cbn [mbind option_bind].
  destruct r as [[]|e]; [|by eexists _, _..].
  destruct (promote_loop_ok (S (size (queued p1))) p1 (signer_id (transaction stx)) current balance now P1)
    as (p2 & E & P2). unfold promote. rewrite E. by eexists _, _.
Qed.
Lemma prune_stale_trims p f : trims p (prune_stale p f).
Proof. etrans; [apply remove_all_trims|apply retain_trims]. Qed.
Lemma prune_ok p f g now : pool_ok p → ∃ p', prune p f g now = Some p' ∧ pool_ok p'.
Proof.
  intros P. unfold prune.
  set (p1 := foldl _ (prune_stale p f) _).
  assert (pool_ok p1) as P1.
  { eapply trims_ok; [|exact P]. etrans; [apply (prune_stale_trims p f)|]. apply foldl_trims.
    intros. apply fit_balance_trims. }
  generalize (senders (queued p1)) as l. intros l. clearbody p1. clear P p. revert p1 P1.
  induction l as [|s l IH]; intros p1 P1; [by eexists|]. simpl. unfold promote at 2.
  destruct (promote_loop_ok (S (size (queued p1))) p1 s (f s) (g s) now P1) as (p2 & E & P2).
  rewrite E. by apply IH.
Qed.
Lemma restore_ok txs p f g now : pool_ok p → ∃ p', restore p txs f g now = Some p' ∧ pool_ok p'.
Proof.
  unfold restore. revert p. induction txs as [|stx txs IH]; intros p P; [by eexists|]. simpl.
  destruct (insert_ok p stx (f (signer_id (transaction stx))) (g (signer_id (transaction stx))) now P)
    as (p1 & r & E & P1). rewrite E. by apply IH.
Qed.
Lemma evict_stranded_trims p f ttl now : trims p (evict_stranded p f ttl now).1.
Proof. unfold evict_stranded. simpl. etrans; [apply remove_all_trims|apply retain_trims]. Qed.
Lemma remove_pending_trims p id : trims p (remove_pending p id).1.
Proof.
  unfold remove_pending. pose proof (remove_trims p id) as Hr. destruct (remove p id) as [p1 [stx|]]; [done|].
  destruct (find_queued p1 id) as [[slot q]|]; [|done].
  pose proof (remove_queued_trims p1 slot) as Hq. destruct (remove_queued p1 slot). simpl in *. by etrans.
Qed.

(** The operations a node calls, in any order, with any arguments. *)
Inductive pool_step : Mempool → Mempool → Prop :=
| ps_insert p stx current balance now p' r :
    insert p stx current balance now = Some (p', r) → pool_step p p'
| ps_remove p id : pool_step p (remove p id).1
| ps_remove_pending p id : pool_step p (remove_pending p id).1
| ps_prune_stale p f : pool_step p (prune_stale p f)
| ps_prune p f g now p' : prune p f g now = Some p' → pool_step p p'
| ps_evict_stranded p f ttl now : pool_step p (evict_stranded p f ttl now).1
| ps_restore p txs f g now p' : restore p txs f g now = Some p' → pool_step p p'
| ps_set_mode p m : pool_step p (set_mode p m)
| ps_set_suite2_active p b : pool_step p (set_suite2_active p b)
| ps_set_chain_height p h : pool_step p (set_chain_height p h).

Lemma reconfigured p p' : pool_ok p →
  by_id p' = by_id p → by_sender p' = by_sender p → inserted_at p' = inserted_at p →
  inserted_at_height p' = inserted_at_height p → queued p' = queued p → weight_total p' = weight_total p →
  queued_weight_total p' = queued_weight_total p → limits p' = limits p → pool_ok p'.
Proof.
  intros [I B] E1 E2 E3 E4 E5 E6 E7 E8. split.
  - split; rewrite ?E1, ?E2, ?E3, ?E4, ?E5, ?E6, ?E7; apply I.
  - eapply shrinks_bounded; [exact B|]. split; rewrite ?E1, ?E2, ?E5, ?E6, ?E7; done || lia.
Qed.
Lemma pool_step_ok p p' : pool_step p p' → pool_ok p → pool_ok p'.
Proof.
  destruct 1; intros P.
  - destruct (insert_ok p stx current balance now P) as (? & ? & ? & ?). by simplify_eq.
  - by eapply trims_ok; [apply remove_trims|].
  - by eapply trims_ok; [apply remove_pending_trims|].
  - by eapply trims_ok; [apply prune_stale_trims|].
  - destruct (prune_ok p f g now P) as (? & ? & ?). by simplify_eq.
  - by eapply trims_ok; [apply evict_stranded_trims|].
  - destruct (restore_ok txs p f g now P) as (? & ? & ?). by simplify_eq.
  - by apply (reconfigured p).
  - by apply (reconfigured p).
  - by apply (reconfigured p).
Qed.
Lemma pool_run_ok p p' : rtc pool_step p p' → pool_ok p → pool_ok p'.
Proof. induction 1; [done|]. eauto using pool_step_ok. Qed.

Lemma empty_ok c m qc qm : pool_ok (with_queue_limits (with_limits c m) qc qm).
Proof.
  split; split; simpl; try done; try set_solver; try lia.
  - unfold len. simpl. rewrite map_size_empty. lia.
  - intros s. unfold sender_count. rewrite count_slots. unfold count. simpl. rewrite map_filter_empty, map_size_empty. lia.
  - rewrite map_size_empty. lia.
  - intros s. unfold queued_count. rewrite count_slots. unfold count. simpl. rewrite map_filter_empty, map_size_empty. lia.
Qed.
Lemma with_limits_ok c m : pool_ok (with_limits c m).
Proof.
  assert (with_limits c m = with_queue_limits (with_limits c m) (default_queued_capacity c) MAX_QUEUED_PER_SENDER)
    as -> by (unfold with_queue_limits, with_limits, default_queued_capacity; simpl; f_equal; lia).
  apply empty_ok.
Qed.

(** C33: the pool never lies about itself and never panics.  Whatever sequence of
    submissions, removals, prunings, evictions and restores brings it about, a pool
    is consistently indexed by id and by (signer, nonce), its weight counters are
    exactly the weights of what it holds, and it respects its transaction count, its
    total weight, the quarter of it given to future nonces and the per-sender limits
    of both regions; and no submission, pruning or restore can panic. *)
Theorem pool_invariant (c m qc qm : N) (p : Mempool) :
  rtc pool_step (with_queue_limits (with_limits c m) qc qm) p →
  pool_ok p ∧
  (∀ stx current balance now, insert p stx current balance now ≠ None) ∧
  (∀ f g now, prune p f g now ≠ None) ∧ (∀ txs f g now, restore p txs f g now ≠ None).
Proof.
  intros Hr. pose proof (pool_run_ok _ _ Hr (empty_ok _ _ _ _)) as P.
  split; [done|]. split_and!.
  - intros stx cn bal now. destruct (insert_ok p stx cn bal now P) as (? & ? & -> & _). done.
  - intros f g now. destruct (prune_ok p f g now P) as (? & -> & _). done.
  - intros txs f g now. destruct (restore_ok txs p f g now P) as (? & -> & _). done.
Qed.
End inv.
End PoolInv.
