(* ===== verification/MempoolAdmit.v ===== *)
(** * Admission to the pool

    What a successful submission guarantees (a valid signature, a nonce that is not
    stale, an affordable pool, replacement only at the price of the minimum bump),
    where the next transaction of an account goes, and two runs in which the pool
    does not do what its documentation says. *)

From S2P Require Import Prelude Primitives Crypto Types Block Ledger Mempool MempoolInv.

Module PoolAdmit.
Import Pool PoolInv.

Section admission.
Context `{Blake3, SigScheme, Borsh Transaction, SerializedSize SignedTransaction}.
Implicit Types (p : Mempool) (s : AccountId) (stx : SignedTransaction).

(** ** Outflow as a sum *)

Definition sum_N (l : list N) : N := foldr N.add 0 l.
Lemma sum_N_perm l l' : l ≡ₚ l' → sum_N l = sum_N l'.
Proof. induction 1; simpl; lia. Qed.
Lemma sat_sum max l a : a ≤ max → foldl (λ acc out, saturating_add max acc out) a l = N.min max (a + sum_N l).
Proof.
  revert a. induction l as [|x l IH]; intros a Ha; simpl; [lia|].
  rewrite IH; unfold saturating_add; [simpl; lia|lia].
Qed.

Definition own_slots p s : gmap (AccountId * N) Hash := filter (λ e, e.1.1 = s) (by_sender p).
Definition out_at p (id : Hash) : N := from_option outflow 0 (by_id p !! id).
Definition pend p s : N := map_sum (out_at p) (own_slots p s).

Lemma pending_outflow_eq p s : pending_outflow p s = N.min u128_max (pend p s).
Proof.
  unfold pending_outflow. rewrite sat_sum by lia. f_equal. rewrite N.add_0_l.
  unfold pend, map_sum. rewrite map_fold_foldr.
  trans (sum_N ((λ e, out_at p e.2) <$> map_to_list (own_slots p s))).
  2:{ unfold sum_N. induction (map_to_list (own_slots p s)) as [|[k v] l IH]; [done|]. simpl. f_equal. exact IH. }
  trans (sum_N ((λ e, out_at p e.2) <$> slots_of (by_sender p) s)).
  - unfold sum_N. induction (slots_of (by_sender p) s) as [|[k v] l IH]; [done|]. simpl.
    unfold out_at at 1. destruct (by_id p !! v); simpl; [f_equal|]; exact IH.
  - apply sum_N_perm. f_equiv. rewrite slots_of_perm. unfold own_slots. rewrite map_filter_alt.
    rewrite map_to_list_to_map; [done|].
    eapply sublist_NoDup; [apply (NoDup_fst_map_to_list (by_sender p))|]. apply fmap_sublist, sublist_filter.
Qed.

Lemma map_sum_ext {K V} `{Countable K} (f h : V → N) (m : gmap K V) :
  (∀ k v, m !! k = Some v → f v = h v) → map_sum f m = map_sum h m.
Proof.
  intros Hf. unfold map_sum. rewrite !map_fold_foldr.
  assert (∀ k v, (k, v) ∈ map_to_list m → f v = h v) as Hl by (intros k v Hi%elem_of_map_to_list; eauto).
  induction (map_to_list m) as [|[k v] l IH]; [done|]. simpl. rewrite (Hl k v) by (by left).
  f_equal. apply IH. intros k' v' Hi. eapply Hl. by right.
Qed.

Lemma pend_evicts p p' s : indexed p → evicts s p p' → pend p' s = pend p s.
Proof.
  intros I [[S Hi] _ _ Hown]. unfold pend, own_slots.
  assert (filter (λ e : AccountId * N * Hash, e.1.1 = s) (by_sender p')
    = filter (λ e : AccountId * N * Hash, e.1.1 = s) (by_sender p)) as ->.
  { apply map_eq. intros [s' n]. apply option_eq. intros id. rewrite !map_lookup_filter_Some. simpl.
    split; intros [E <-]; (split; [|done]). - by rewrite <- Hown. - by rewrite Hown. }
  apply map_sum_ext. intros [s' n] id [E Es]%map_lookup_filter_Some. simpl in Es. subst s'. rewrite <- Hown in E.
  destruct (ix_slot _ (Hi I) _ _ E) as (stx & Ei & _). unfold out_at.
  by rewrite Ei, (lookup_weaken _ _ _ _ Ei (sh_id _ _ S)).
Qed.
Lemma pend_admit p stx now : indexed p → by_id p !! tx_id stx = None → by_sender p !! slot_of stx = None →
  pend (admit_ready p (slot_of stx) (tx_id stx) stx now) (signer_id (transaction stx))
  = pend p (signer_id (transaction stx)) + outflow stx.
Proof.
  intros I Hid Hs. unfold pend, own_slots. cbn [admit_ready by_sender].
  rewrite map_filter_insert_True by done. rewrite map_sum_insert_None by (apply map_lookup_filter_None; by left).
  rewrite N.add_comm. f_equal.
  - apply map_sum_ext. intros k id [E _]%map_lookup_filter_Some. destruct (ix_slot _ I _ _ E) as (stx' & Ei & _).
    unfold out_at. cbn [by_id admit_ready]. rewrite lookup_insert_ne; [done|]. congruence.
  - unfold out_at. cbn [by_id admit_ready]. by rewrite lookup_insert_eq.
Qed.
Lemma pend_remove p id stx : indexed p → by_id p !! id = Some stx →
  pend p (signer_id (transaction stx)) = outflow stx + pend (remove p id).1 (signer_id (transaction stx)).
Proof.
  intros I E. unfold pend, own_slots, remove. rewrite E. cbn [fst by_sender].
  rewrite (map_sum_delete _ (filter _ (by_sender p)) (slot_of stx) id).
  2:{ apply map_lookup_filter_Some. split; [apply (ix_id _ I _ _ E)|done]. }
  rewrite <- map_filter_delete. unfold out_at at 1. rewrite E. simpl. f_equal.
  apply map_sum_ext. intros k id' [[Hne E']%lookup_delete_Some _]%map_lookup_filter_Some.
  unfold out_at. simpl. rewrite lookup_delete_ne; [done|]. intros <-.
  destruct (ix_slot _ I _ _ E') as (stx' & Ei & <-). congruence.
Qed.

(** ** What an admission guarantees *)

(** A transaction entered the READY region: over a free slot, or in place of one
    whose tip it raises by the minimum bump. *)
Definition admitted p stx (balance now : N) p' : Prop :=
  let s := signer_id (transaction stx) in
  by_id p !! tx_id stx = None ∧
  ((∃ p1, evicts s p p1 ∧ by_sender p !! slot_of stx = None ∧
      saturating_add u128_max (pending_outflow p s) (outflow stx) ≤ balance ∧
      p' = admit_ready p1 (slot_of stx) (tx_id stx) stx now) ∨
   (∃ old_id old, by_sender p !! slot_of stx = Some old_id ∧ by_id p !! old_id = Some old ∧
      effective_tip old < effective_tip stx ∧
      N.min u128_max (effective_tip old + MIN_RBF_BUMP_GRAINS) ≤ effective_tip stx ∧
      saturating_add u128_max (saturating_sub (pending_outflow p s) (outflow old)) (outflow stx) ≤ balance ∧
      p' = admit_ready (remove p old_id).1 (slot_of stx) (tx_id stx) stx now)).

Lemma insert_inner_ready p stx current balance now p' :
  pool_ok p → insert_inner p stx current balance now = Some (p', Ok Ready) →
  verify_signature_mode stx (mode p) = true ∧ current ≤ tx_nonce (transaction stx) ∧ admitted p stx balance now p'.
Proof.
  intros P. pose proof P as [I B]. unfold insert_inner, refuse.
  destruct (verify_signature_mode stx (mode p)); [|done]. cbn [negb].
  destruct (N.ltb_spec (tx_nonce (transaction stx)) current); [done|].
  unfold contains. case_bool_decide as Hid; [done|]. apply eq_None_not_Some in Hid.
  change (signer_id (transaction stx), tx_nonce (transaction stx)) with (slot_of stx).
  destruct (by_sender p !! slot_of stx) as [old_id|] eqn:Es.
  - destruct (ix_slot _ I _ _ Es) as (old & Eo & Hso). rewrite Eo. cbn [mbind option_bind].
    case_match eqn:E1; [done|]. case_match eqn:E2; [done|]. case_match eqn:E3; [done|].
    rewrite N.leb_gt in E1. rewrite N.ltb_ge in E2, E3. destruct (check_total_weight p _); [|done].
    intros [= <-]. split_and!; [done|done|]. split; [done|]. right. by exists old_id, old.
  - case_match eqn:E1.
    { destruct (insert_queued_spec p stx balance now P) as (p1 & r & E & _ & _ & _ & Hr). rewrite E.
      intros; simplify_eq. }
    case_match eqn:E2; [done|]. rewrite N.ltb_ge in E2. case_match; [done|].
    match goal with |- context [auction ?b p ?s ?r ?w] =>
      destruct (auction_spec s r w b p I) as (p1 & res & Ea & Hev & Hd) end.
    rewrite Ea. cbn [mbind option_bind]. destruct res; intros E; [|done]. injection E as <-.
    split_and!; [done|done|]. split; [done|]. left. by exists p1.
Qed.

Lemma admitted_pending p stx balance now p' :
  pool_ok p → admitted p stx balance now p' → balance < u128_max →
  pending_outflow p (signer_id (transaction stx)) < u128_max →
  pending_outflow p' (signer_id (transaction stx)) ≤ balance.
Proof.
  intros [I B] (Hid & Hcases) Hb. rewrite !pending_outflow_eq. intros Hp.
  assert (pend p (signer_id (transaction stx)) < u128_max) as Hp' by lia. clear Hp.
  destruct Hcases as [(p1 & Hev & Hs & Hc & ->)|(old_id & old & Hs & Eo & _ & _ & Hc & ->)].
  - pose proof Hev as [[S Hi] _ _ Hown]. rewrite pend_admit.
    + rewrite (pend_evicts p p1 _ I Hev). rewrite pending_outflow_eq in Hc. unfold saturating_add in Hc. lia.
    + auto.
    + destruct (by_id p1 !! tx_id stx) eqn:E; [|done]. eapply lookup_weaken in E; [|apply S]. congruence.
    + unfold slot_of in *. by rewrite Hown.
  - destruct (ix_slot _ I _ _ Hs) as (old' & Eo' & Hso). rewrite Eo in Eo'. injection Eo' as <-.
    assert (signer_id (transaction old) = signer_id (transaction stx)) as Hsig by (by injection Hso).
    pose proof (pend_remove p old_id old I Eo) as Hr. rewrite Hsig in Hr. rewrite pend_admit.
    + rewrite pending_outflow_eq in Hc. unfold saturating_add, saturating_sub in Hc. lia.
    + by apply remove_indexed.
    + unfold remove. rewrite Eo. simpl. apply lookup_delete_None. by right.
    + unfold remove. rewrite Eo. simpl. rewrite <- Hso. apply lookup_delete_eq.
Qed.

Lemma pending_queued p slot s : pending_outflow (remove_queued p slot).1 s = pending_outflow p s.
Proof. unfold pending_outflow. by destruct (remove_queued_ready p slot) as (-> & -> & _). Qed.

Lemma promote_affordable fuel p s current balance now p' :
  pool_ok p → promote_loop fuel p s current balance now = Some p' → balance < u128_max →
  pending_outflow p s ≤ balance → pending_outflow p' s ≤ balance.
Proof.
  revert p. induction fuel as [|fuel IH]; intros p P E Hb Hp; simpl in E; [by simplify_eq|].
  set (slot := (s, _)) in E. pose proof (trims_ok _ _ (remove_queued_trims p slot) P) as P1.
  rewrite <- (pending_queued p slot s) in Hp.
  destruct (remove_queued p slot) as [p1 [q|]] eqn:Er; simpl in *; [|by simplify_eq].
  assert (signer_id (transaction (q_stx q)) = s) as Hs.
  { unfold remove_queued in Er. destruct (queued p !! slot) eqn:Eq; simplify_eq.
    apply (ix_queue _ (proj1 P)) in Eq. by injection Eq. }
  destruct (insert_inner_spec p1 (q_stx q) current balance now P1) as (p2 & r & Ei & P2 & Hr).
  rewrite Ei in E. cbn [mbind option_bind] in E. destruct r as [[]|e].
  - apply (IH p2); [done|done|done|].
    apply insert_inner_ready in Ei as (_ & _ & Ha); [|done]. rewrite <- Hs.
    apply (admitted_pending p1 _ _ _ _ P1 Ha Hb). rewrite Hs. lia.
  - simplify_eq. unfold pending_outflow in *. by destruct Hr as [-> ->].
  - rewrite Hs in Hr. assert (pending_outflow p2 s ≤ balance) as Hp2
      by (rewrite pending_outflow_eq in *; by rewrite (pend_evicts p1 p2 s (proj1 P1) Hr)).
    destruct (transient e); by simplify_eq.
Qed.

Lemma insert_ready p stx current balance now p' : insert p stx current balance now = Some (p', Ok Ready) →
  tx_weight stx ≤ tx_limit p stx ∧ ∃ p1, insert_inner p stx current balance now = Some (p1, Ok Ready) ∧
    promote p1 (signer_id (transaction stx)) current balance now = Some p'.
Proof.
  unfold insert. destruct (N.ltb_spec (tx_limit p stx) (tx_weight stx)) as [|Hw]; [done|].
  destruct (insert_inner p stx current balance now) as [[p1 r]|]; [|done]. cbn [mbind option_bind].
  destruct r as [[]|e]; [|intros; simplify_eq..].
  destruct (promote p1 _ current balance now) as [p2|] eqn:Ep; [|done]. intros [= <-]. split; [done|]. by exists p1.
Qed.

(** Everything mineable is paid for.  A submission that reaches the READY region
    carries a valid signature, a nonce the account has not used and a weight some
    block can hold; it takes a free slot or pays the minimum bump over the
    transaction it replaces; and afterwards everything the signer has in the READY
    region, promoted transactions included, moves no more coin than the signer has. *)
Theorem admission_sound p stx current balance now p' :
  pool_ok p → insert p stx current balance now = Some (p', Ok Ready) →
  verify_signature_mode stx (mode p) = true ∧ current ≤ tx_nonce (transaction stx) ∧
  tx_weight stx ≤ tx_limit p stx ∧ (∃ p1, admitted p stx balance now p1) ∧
  (balance < u128_max → pending_outflow p (signer_id (transaction stx)) < u128_max →
   pending_outflow p' (signer_id (transaction stx)) ≤ balance).
Proof.
  intros P (Hw & p1 & Ei & Ep)%insert_ready. destruct (insert_inner_spec p stx current balance now P) as (? & ? & E & P1 & _).
  rewrite Ei in E. injection E as <- <-.
  apply insert_inner_ready in Ei as (Hs & Hn & Ha); [|done]. split_and!; [done|done|done|by eexists|].
  intros Hb Hp. eapply promote_affordable; [exact P1|exact Ep|done|].
  by apply (admitted_pending p stx balance now p1).
Qed.

(** ** The next nonce of an account *)

Lemma next_nonce_loop_spec p s fuel : ∀ n, n + N.of_nat fuel ≤ u64_max →
  let m := next_nonce_loop fuel p s n in
  n ≤ m ≤ n + N.of_nat fuel ∧ (∀ k, n ≤ k < m → is_Some (by_sender p !! (s, k))) ∧
  (m < n + N.of_nat fuel → by_sender p !! (s, m) = None).
Proof.
  induction fuel as [|fuel IH]; intros n Hn; cbn [next_nonce_loop]; [split_and!; intros; lia|].
  case_bool_decide as E; [split_and!; intros; (lia || done)|].
  assert (saturating_add u64_max n 1 = n + 1) as -> by (unfold saturating_add; lia).
  destruct (IH (n + 1) ltac:(lia)) as (? & Hk & Hf). split_and!; [lia|lia|..].
  - intros k Hle. destruct (decide (k = n)) as [->|]; [by apply not_eq_None_Some|]. apply Hk. lia.
  - intros. apply Hf. lia.
Qed.

Lemma run_counted p s n (k : nat) :
  (∀ i, n ≤ i < n + N.of_nat k → is_Some (by_sender p !! (s, i))) → N.of_nat k ≤ sender_count p s.
Proof.
  intros Hi. unfold sender_count.
  assert (((λ i, (s, n + N.of_nat i)) <$> seq 0 k) ⊆+ (slots_of (by_sender p) s).*1) as Hs%submseteq_length.
  2:{ rewrite !length_fmap, length_seq in Hs. lia. }
  apply NoDup_submseteq.
  - apply NoDup_fmap_2; [|apply NoDup_seq]. intros i j [= E]. lia.
  - intros x (i & -> & Hx%elem_of_seq)%list_elem_of_fmap. destruct (Hi (n + N.of_nat i)) as [id E]; [lia|].
    apply list_elem_of_fmap. exists ((s, n + N.of_nat i), id). split; [done|]. by apply elem_of_slots.
Qed.

(** The nonce offered to a wallet is the first free one at or above the account's,
    the hole if there is one; the bounded walk always reaches it. *)
Theorem next_nonce_first_free p s (on_chain : N) :
  pool_ok p → on_chain + max_per_sender p < u64_max →
  let m := next_nonce p s on_chain in
  by_sender p !! (s, m) = None ∧ on_chain ≤ m ≤ on_chain + max_per_sender p ∧
  ∀ k, on_chain ≤ k < m → is_Some (by_sender p !! (s, k)).
Proof.
  intros [I B] Hb. cbv zeta. unfold next_nonce. set (fuel := S (N.to_nat (max_per_sender p))).
  destruct (next_nonce_loop_spec p s fuel on_chain) as (Hr & Hk & Hf); [unfold fuel; lia|].
  set (m := next_nonce_loop fuel p s on_chain) in *. pose proof (bd_sender _ B s) as Hs.
  pose proof (run_counted p s on_chain (N.to_nat (m - on_chain))) as Hc.
  assert (N.of_nat (N.to_nat (m - on_chain)) ≤ sender_count p s) as Hle by (apply Hc; intros; apply Hk; lia).
  split_and!; [apply Hf; unfold fuel; lia|lia|lia|done].
Qed.
End admission.

(** ** Concrete pools *)
Module Pool_examples.
Import Crypto.Toy.

#[export] Instance any_signature : SigScheme := {| verify_ed25519 := λ _ _ _, true; verify_ml_dsa := λ _ _ _, true |}.
#[export] Instance tx_bytes : Borsh Transaction := λ tx,
  acc_bytes (signer_id tx) ++ [0; tx_nonce tx] ++
  match action tx with Action.Tipped tip _ => [tip] | _ => [] end.
(** The size of a transaction is the size of its bundle, carried in it. *)
#[export] Instance tx_size : SerializedSize SignedTransaction := λ stx,
  match action (transaction stx) with
  | Action.Tipped _ (Action.ShieldedV2 (_ :: size :: _)) => size
  | _ => 300
  end.

Definition alice : AccountId := mkAccountId "alice.sov" eq_refl.
Definition bob : AccountId := mkAccountId "bob.sov" eq_refl.
Definition carol : AccountId := mkAccountId "carol.sov" eq_refl.
Definition key : PublicKey := PkV1Ed25519 [7].
Definition bid (who : AccountId) (nonce tip : N) (a : Action.t) : SignedTransaction :=
  mkSignedTransaction (mkTransaction who key nonce (Action.Tipped tip a)) (SigV1Ed25519 []).
Definition submit (p : option Mempool) (stx : SignedTransaction) (current : N) : option Mempool :=
  p ← p; fst <$> insert p stx current 100000000000 0.

(** Twenty-eight suite-2 bundles of alice, tipping ten million grains each, and
    three cheap transactions of bob fill the pool's 64 MiB. *)
Definition bundle (version size : N) : Action.t := Action.ShieldedV2 [version; size].
Definition filled : option Mempool :=
  foldl (λ p stx, submit p stx 0) (Some (set_suite2_active (new 16384) true))
    (((λ i, bid alice (N.of_nat i) 10000000 (bundle 2 2293760)) <$> seq 0 28)
     ++ ((λ i, bid bob (N.of_nat i) 1000 (bundle 1 253952)) <$> seq 0 3)).
Definition newcomer : SignedTransaction := bid carol 0 1000000 (bundle 2 2293760).
Definition refused : option (Mempool * result MempoolError Admission) :=
  p ← filled; insert p newcomer 0 100000000000 0.

(** A refused bid can empty the pool of others.  With the pool full, carol's bundle
    outbids bob's three transactions but not alice's: bob's are evicted one after
    the other, the space they free is not enough, and the bid is refused with a
    floor it had beaten when it came in.  Nothing was admitted and bob's
    transactions are gone. *)
Theorem refused_bid_evicts :
  (λ p, (len p, sender_count p bob, v_rate <$> (eviction_victim p carol ≫= id),
         fee_rate (effective_tip newcomer) (tx_weight newcomer))) <$> filled
    = Some (31, 3, Some 3, 423) ∧
  (λ e, (len e.1, sender_count e.1 bob, e.2)) <$> refused = Some (28, 0, Err (BelowFloor 10000000)).
Proof. split; vm_compute; reflexivity. Qed.

(** A pool of one slot, taken by bob; alice's nonce 1 is parked, cannot be promoted
    when the chain catches up with her (the pool is full), and is submitted again
    once bob's transaction is mined. *)
Definition parked : option Mempool :=
  p ← submit (submit (Some (new 1)) (bid bob 0 10 (Action.Transfer carol 5)) 0)
        (bid alice 1 0 (Action.Transfer carol 5)) 0;
  prune p (λ s, if decide (s = alice) then 1 else 0) (λ _, 100) 0.
Definition resubmitted : option (Mempool * result MempoolError Admission) :=
  p ← parked;
  insert (remove p (tx_id (bid bob 0 10 (Action.Transfer carol 5)))).1
    (bid alice 1 0 (Action.Transfer carol 5)) 1 100 0.

(** One transaction in both regions.  A parked transaction that is submitted again
    after its gap has closed is not refused as a duplicate: it is admitted to the
    READY region and stays parked as well, and counts twice towards the pool's
    weight. *)
Theorem resubmission_duplicates :
  (λ e, (e.2, by_sender e.1 !! (alice, 1), tx_id ∘ q_stx <$> queued e.1 !! (alice, 1),
         weight_total e.1, queued_weight_total e.1)) <$> resubmitted
  = Some (Ok Ready, Some (tx_id (bid alice 1 0 (Action.Transfer carol 5))),
          Some (tx_id (bid alice 1 0 (Action.Transfer carol 5))), 300, 300).
Proof. vm_compute. reflexivity. Qed.

(** ** Instances of the theorems *)

Definition one : option Mempool := submit (Some (new 64)) (bid bob 0 10 (Action.Transfer carol 5)) 0.
Definition the_pool : Mempool := default (new 64) one.
Lemma submit_ok p p0 stx current : pool_ok p → pool_ok p0 → pool_ok (default p0 (submit (Some p) stx current)).
Proof.
  intros P P0. unfold submit. cbn [mbind option_bind].
  destruct (insert_ok p stx current 100000000000 0 P) as (p1 & r & -> & P1). done.
Qed.
Lemma the_pool_ok : pool_ok the_pool.
Proof. unfold the_pool, one. apply submit_ok; unfold new; apply with_limits_ok. Qed.
Definition next_bid : SignedTransaction := bid bob 1 10 (Action.Transfer carol 5).
Definition after : Mempool := default the_pool (fst <$> insert the_pool next_bid 0 100 0).
Lemma next_bid_ready : insert the_pool next_bid 0 100 0 = Some (after, Ok Ready).
Proof.
  assert (snd <$> insert the_pool next_bid 0 100 0 = Some (Ok Ready)) as E by (vm_compute; reflexivity).
  unfold after. destruct (insert the_pool next_bid 0 100 0) as [[p r]|]; [|done].
  cbn in E |- *. by injection E as ->.
Qed.

Lemma admission_sound_witness : pending_outflow after bob ≤ 100.
Proof.
  refine (proj2 (proj2 (proj2 (proj2
    (admission_sound the_pool next_bid 0 100 0 after the_pool_ok next_bid_ready)))) _ _).
  - vm_compute. reflexivity.
  - vm_compute. reflexivity.
Defined.
Lemma next_nonce_first_free_witness : by_sender the_pool !! (bob, next_nonce the_pool bob 0) = None.
Proof. refine (proj1 (next_nonce_first_free the_pool bob 0 the_pool_ok _)). by vm_compute. Defined.
Lemma pool_invariant_witness : pool_ok (remove (with_queue_limits (with_limits 64 16) 8 4) Hash_ZERO).1.
Proof.
  refine (proj1 (pool_invariant 64 16 8 4 _ (rtc_once _ _ _))). apply ps_remove.
Defined.
End Pool_examples.
End PoolAdmit.
