(* ===== verification/MempoolSelect.v ===== *)
(** * The block template

    [select] refines the auction it documents: an abstract schedule that at every
    turn takes, among the next mineable transactions of all signers, one that bids
    highest, and stops only when the block is full or nothing is mineable. *)

From S2P Require Import Prelude Primitives Crypto Types Block Ledger Mempool MempoolInv MempoolAdmit.

Module PoolSelect.
Import Pool PoolInv.

Section select.
Context `{Blake3, SigScheme, Borsh Transaction, SerializedSize SignedTransaction}.
Implicit Types (p : Mempool) (s : AccountId) (stx : SignedTransaction) (g : AccountId → N).

(** ** The abstract schedule *)

(** The next nonces after a transaction of [s]. *)
Definition advance g s : AccountId → N := λ x, if decide (x = s) then g x + 1 else g x.
(** The next mineable transaction of [s]. *)
Definition head_of p g s stx : Prop := by_sender p !! (s, g s) = Some (tx_id stx) ∧ by_id p !! tx_id stx = Some stx.

Inductive auction_run p : (AccountId → N) → nat → list SignedTransaction → Prop :=
| ar_full g : auction_run p g 0 []
| ar_idle g n : (∀ s, by_sender p !! (s, g s) = None) → auction_run p g n []
| ar_pick g n stx out :
    head_of p g (signer_id (transaction stx)) stx →
    (∀ s stx', head_of p g s stx' → effective_tip stx' ≤ effective_tip stx) →
    auction_run p (advance g (signer_id (transaction stx))) n out →
    auction_run p g (S n) (stx :: out).

(** ** Runs *)

Fixpoint is_run p s (n : N) (q : list SignedTransaction) : Prop :=
  match q with
  | [] => by_sender p !! (s, n) = None
  | stx :: q =>
      (slot_of stx = (s, n) ∧ by_sender p !! (s, n) = Some (tx_id stx) ∧ by_id p !! tx_id stx = Some stx) ∧
      is_run p s (n + 1) q
  end.

Lemma run_from_lookup p s fuel : ∀ n i, (i < length (run_from fuel p s n))%nat →
  is_Some (by_sender p !! (s, n + N.of_nat i)).
Proof.
  induction fuel as [|fuel IH]; intros n i; simpl; [lia|].
  destruct (by_sender p !! (s, n)) eqn:E; simpl; [|lia].
  destruct i as [|i]; intros Hi; [by rewrite N.add_0_r, E|].
  replace (n + N.of_nat (S i)) with (n + 1 + N.of_nat i) by lia. apply IH. lia.
Qed.
Lemma run_from_length p s fuel n : (length (run_from fuel p s n) ≤ size (by_sender p))%nat.
Proof.
  set (k := length (run_from fuel p s n)).
  assert (((λ i, (s, n + N.of_nat i)) <$> seq 0 k) ⊆+ (map_to_list (by_sender p)).*1) as Hs%submseteq_length.
  2:{ rewrite !length_fmap, length_seq, length_map_to_list in Hs. done. }
  apply NoDup_submseteq.
  - apply NoDup_fmap_2; [|apply NoDup_seq]. intros i j [= E]. lia.
  - intros x (i & -> & Hi%elem_of_seq)%list_elem_of_fmap.
    destruct (run_from_lookup p s fuel n i) as [id E]; [fold k; lia|].
    apply list_elem_of_fmap. exists ((s, n + N.of_nat i), id). split; [done|]. by apply elem_of_map_to_list.
Qed.
Lemma run_from_queue p s fuel : ∀ n, indexed p → (length (run_from fuel p s n) < fuel)%nat →
  ∃ q, mapM (λ id, by_id p !! id) (run_from fuel p s n) = Some q ∧ is_run p s n q.
Proof.
  induction fuel as [|fuel IH]; intros n I; cbn [run_from]; [lia|].
  destruct (by_sender p !! (s, n)) as [id|] eqn:E; simpl; [|intros _; by exists []].
  intros Hl. destruct (IH (n + 1) I) as (q & Eq & Hq); [lia|]. destruct (ix_slot _ I _ _ E) as (stx & Ei & Hs).
  destruct (ix_id _ I _ _ Ei) as [Ht _]. rewrite Ei. simpl. rewrite Eq. exists (stx :: q). split; [done|].
  split; [|done]. by rewrite Ht.
Qed.
Lemma queue_of_spec p s n : indexed p → ∃ q, queue_of p s n = Some q ∧ is_run p s n q.
Proof.
  intros I. apply run_from_queue; [done|]. pose proof (run_from_length p s (S (size (by_sender p))) n). lia.
Qed.

(** ** Queues *)

Record queues_ok p g (qs : list (AccountId * list SignedTransaction)) : Prop := {
  qo_nodup : NoDup qs.*1;
  qo_run s q : (s, q) ∈ qs → q ≠ [] ∧ is_run p s (g s) q;
  qo_rest s : s ∉ qs.*1 → by_sender p !! (s, g s) = None;
}.

Lemma senders_NoDup {V} (m : gmap (AccountId * N) V) : NoDup (senders m).
Proof. apply NoDup_remove_dups. Qed.

Lemma queues_of_spec p g : indexed p → ∃ qs, queues_of p g = Some qs ∧ queues_ok p g qs.
Proof.
  intros I. unfold queues_of.
  assert (∀ l, ∃ qs, mapM (λ s, q ← queue_of p s (g s); Some (s, q)) l = Some qs ∧ qs.*1 = l ∧
    ∀ s q, (s, q) ∈ qs → is_run p s (g s) q) as Hm.
  { induction l as [|s l (qs & E & <- & Hq)]; [exists []; split_and!; [done..|]; intros ? ? ?%not_elem_of_nil; done|].
    destruct (queue_of_spec p s (g s) I) as (q & Eq & Hr). exists ((s, q) :: qs).
    simpl. rewrite Eq. simpl. rewrite E. split_and!; [done|done|].
    intros s' q' [?|?]%elem_of_cons; [by simplify_eq|by apply Hq]. }
  destruct (Hm (senders (by_sender p))) as (qs & E & Ek & Hq). rewrite E. simpl. eexists. split; [done|].
  pose proof (senders_NoDup (by_sender p)) as Hnd. rewrite <- Ek in Hnd. split.
  - eapply sublist_NoDup; [exact Hnd|]. apply fmap_sublist, sublist_filter.
  - intros s q [Hne Hin]%list_elem_of_filter. by split; [|apply Hq].
  - intros s Hs. destruct (by_sender p !! (s, g s)) as [id|] eqn:Ei; [|done]. exfalso. apply Hs.
    assert (s ∈ qs.*1) as ([s' q] & -> & Hin)%list_elem_of_fmap by (rewrite Ek; apply elem_of_senders; eauto).
    apply list_elem_of_fmap. exists (s', q). split; [done|]. apply list_elem_of_filter. split; [|done].
    simpl in Ei |- *. intros ->. apply Hq in Hin. simpl in Hin. congruence.
Qed.

Lemma best_head_spec (qs : list (AccountId * list SignedTransaction)) :
  qs ≠ [] → (∀ s q, (s, q) ∈ qs → q ≠ []) →
  ∃ s stx q, best_head qs = Some (s, effective_tip stx) ∧ (s, stx :: q) ∈ qs ∧
    ∀ s' stx' q', (s', stx' :: q') ∈ qs → effective_tip stx' ≤ effective_tip stx.
Proof.
  intros Hne Hq. unfold best_head. set (f := λ best _, _).
  assert (∀ l l0 s stx q, (∀ s q, (s, q) ∈ l → q ≠ []) → (s, stx :: q) ∈ l0 →
    (∀ s' stx' q', (s', stx' :: q') ∈ l0 → effective_tip stx' ≤ effective_tip stx) →
    ∃ s1 stx1 q1, foldl f (Some (s, effective_tip stx)) l = Some (s1, effective_tip stx1) ∧ (s1, stx1 :: q1) ∈ l0 ++ l ∧
      ∀ s' stx' q', (s', stx' :: q') ∈ l0 ++ l → effective_tip stx' ≤ effective_tip stx1) as Hgen.
  { induction l as [|[s' q'] l IH]; intros l0 s stx q Hl Hin Hmax.
    { exists s, stx, q. rewrite app_nil_r. done. }
    destruct q' as [|stx' q']; [by destruct (Hl s' []); [left|]|]. rewrite (cons_middle _ l0 l), (assoc_L (++) l0).
    cbn [foldl].
    assert (∀ s q, (s, q) ∈ l → q ≠ []) as Hl' by (intros; eapply Hl; by right).
    unfold f at 2. cbn [head fst snd]. destruct (N.ltb_spec (effective_tip stx) (effective_tip stx')) as [Hlt|Hge].
    - apply (IH _ s' stx' q' Hl'); [apply elem_of_app; right; by left|].
      intros s2 stx2 q2 [Hi|Hi]%elem_of_app; [apply Hmax in Hi; lia|].
      apply list_elem_of_singleton in Hi. by simplify_eq.
    - apply (IH _ s stx q Hl'); [apply elem_of_app; by left|].
      intros s2 stx2 q2 [Hi|Hi]%elem_of_app; [by apply Hmax in Hi|].
      apply list_elem_of_singleton in Hi. by simplify_eq. }
  destruct qs as [|[s q] l]; [done|]. destruct q as [|stx q]; [by destruct (Hq s []); [left|]|]. simpl.
  apply (Hgen l [(s, stx :: q)] s stx q).
  - intros; eapply Hq; by right.
  - by left.
  - intros s' stx' q' Hi%list_elem_of_singleton. by simplify_eq.
Qed.

Lemma pop_queue_spec s stx q (qs : list (AccountId * list SignedTransaction)) :
  NoDup qs.*1 → (s, stx :: q) ∈ qs →
  ∃ qs', pop_queue s qs = Some (stx, qs') ∧ NoDup qs'.*1 ∧
    ∀ s' q', (s', q') ∈ qs' ↔ if decide (s' = s) then q' = q ∧ q ≠ [] else (s', q') ∈ qs.
Proof.
  induction qs as [|[s1 q1] qs IH]; intros Hnd Hin; [by apply not_elem_of_nil in Hin|].
  simpl in Hnd. apply NoDup_cons in Hnd as [Hn Hnd]. cbn [pop_queue].
  assert (∀ q', (s1, q') ∉ qs) as Hn' by (intros q' Hi; apply Hn, list_elem_of_fmap; by exists (s1, q')).
  apply elem_of_cons in Hin as [Hin|Hin].
  - simplify_eq. rewrite bool_decide_true by done. eexists. split; [done|].
    case_bool_decide as Hq; subst.
    + split; [done|]. intros s' q'. case_decide; subst; [naive_solver|]. rewrite elem_of_cons. naive_solver.
    + split; [by apply NoDup_cons|]. intros s' q'. rewrite elem_of_cons. case_decide; subst; [naive_solver|].
      rewrite elem_of_cons. naive_solver.
  - assert (s ≠ s1) as Hne by (intros ->; by eapply Hn').
    rewrite bool_decide_false by done. destruct (IH Hnd Hin) as (qs' & -> & Hnd' & Hiff). simpl.
    eexists. split; [done|]. split.
    + apply NoDup_cons. split; [|done]. intros ([s2 q2] & Es & Hi)%list_elem_of_fmap. simpl in *. subst s2.
      apply Hiff in Hi. rewrite decide_False in Hi by done. by eapply Hn'.
    + intros s' q'. rewrite elem_of_cons, Hiff. destruct (decide (s' = s)); subst; [naive_solver|].
      rewrite elem_of_cons. done.
Qed.

Lemma queues_ok_pop p g s stx q qs qs' :
  queues_ok p g qs → (s, stx :: q) ∈ qs → NoDup qs'.*1 →
  (∀ s' q', (s', q') ∈ qs' ↔ if decide (s' = s) then q' = q ∧ q ≠ [] else (s', q') ∈ qs) →
  queues_ok p (advance g s) qs'.
Proof.
  intros [Hnd Hrun Hrest] Hin Hnd' Hiff. destruct (Hrun _ _ Hin) as [_ [_ Hq]]. split; [done|..].
  - intros s' q' Hi%Hiff. unfold advance. case_decide; [subst|by apply Hrun]. destruct Hi as [-> ?]. done.
  - intros s' Hs'. unfold advance. case_decide as Es.
    + subst. destruct q as [|x q]; [done|]. exfalso. apply Hs', list_elem_of_fmap.
      exists (s, x :: q). split; [done|]. apply Hiff. by rewrite decide_True.
    + apply Hrest. intros ([s2 q2] & -> & Hi)%list_elem_of_fmap. apply Hs', list_elem_of_fmap.
      exists (s2, q2). split; [done|]. apply Hiff. by rewrite decide_False.
Qed.

Lemma head_of_queue p g qs s stx : indexed p → queues_ok p g qs → head_of p g s stx →
  ∃ q, (s, stx :: q) ∈ qs.
Proof.
  intros I [_ Hrun Hrest] [Hs Hi]. destruct (decide (s ∈ qs.*1)) as [Hin|Hn].
  2:{ by rewrite Hrest in Hs. }
  apply list_elem_of_fmap in Hin as ([s' q] & -> & Hin). destruct (Hrun _ _ Hin) as [Hne Hr].
  destruct q as [|stx' q]; [done|]. destruct Hr as [(_ & Hs' & Hi') _]. simpl in *.
  assert (tx_id stx = tx_id stx') as Eid by congruence. rewrite Eid in Hi. simplify_eq. eauto.
Qed.

Lemma select_loop_spec p n : ∀ g qs, indexed p → queues_ok p g qs →
  ∃ out, select_loop n qs = Some out ∧ auction_run p g n out.
Proof.
  induction n as [|n IH]; intros g qs I Q; cbn [select_loop]; [exists []; split; [done|apply ar_full]|].
  case_bool_decide as Hq.
  { subst. exists []. split; [done|]. apply ar_idle. intros s. apply (qo_rest _ _ _ Q). by apply not_elem_of_nil. }
  destruct (best_head_spec qs Hq) as (s & stx & q & -> & Hin & Hmax); [intros s q Hi; by apply (qo_run _ _ _ Q _ _ Hi)|].
  destruct (pop_queue_spec s stx q qs (qo_nodup _ _ _ Q) Hin) as (qs' & Ep & Hnd & Hiff).
  cbn [mbind option_bind]. rewrite Ep. cbn [mbind option_bind].
  destruct (qo_run _ _ _ Q _ _ Hin) as [_ [(Hslot & Hs & Hi) _]]. injection Hslot as Hsig Hnonce.
  destruct (IH (advance g s) qs' I) as (out & -> & Hout); [by eapply queues_ok_pop|].
  exists (stx :: out). split; [done|]. apply ar_pick; rewrite ?Hsig; [done| |done].
  intros s' stx' Hh. destruct (head_of_queue p g qs s' stx' I Q Hh) as (q' & Hi'). by eapply Hmax.
Qed.

(** ** What a schedule guarantees *)

Definition from_signer s (out : list SignedTransaction) : list SignedTransaction :=
  filter (λ stx, signer_id (transaction stx) = s) out.

Lemma auction_run_nonces p g n out s : indexed p → auction_run p g n out →
  (tx_nonce ∘ transaction <$> from_signer s out)
  = (λ i, g s + N.of_nat i) <$> seq 0 (length (from_signer s out)).
Proof.
  intros I. induction 1 as [|g n|g n stx out [Hs Hi] _ _ IH]; [done..|]. unfold from_signer in *.
  destruct (ix_slot _ I _ _ Hs) as (stx' & Ei & Hslot). rewrite Hi in Ei. injection Ei as <-.
  injection Hslot as Hn. unfold advance in IH. destruct (decide (signer_id (transaction stx) = s)) as [Es|Es].
  - rewrite filter_cons_True by done. rewrite decide_True in IH by done.
    rewrite fmap_cons, IH. cbn [length seq fmap list_fmap]. f_equal; [simpl; rewrite <- Es; lia|].
    rewrite <- fmap_S_seq, <- list_fmap_compose. apply list_fmap_ext. intros; simpl; lia.
  - rewrite filter_cons_False by done. rewrite IH, decide_False by done. done.
Qed.
Lemma auction_run_pooled p g n out : auction_run p g n out →
  Forall (λ stx, by_id p !! tx_id stx = Some stx) out ∧ (length out ≤ n)%nat.
Proof.
  induction 1 as [|g n|g n stx out [_ Hi] _ _ [IH ?]]; simpl; (split; [by try constructor|lia]).
Qed.
Lemma auction_run_later p g n out stx : indexed p → auction_run p g n out → stx ∈ out →
  g (signer_id (transaction stx)) ≤ tx_nonce (transaction stx).
Proof.
  intros I Hr Hin. pose proof (auction_run_nonces p g n out (signer_id (transaction stx)) I Hr) as E.
  assert (tx_nonce (transaction stx) ∈ tx_nonce ∘ transaction <$> from_signer (signer_id (transaction stx)) out) as Hn.
  { apply list_elem_of_fmap. exists stx. split; [done|]. by apply list_elem_of_filter. }
  rewrite E in Hn. apply list_elem_of_fmap in Hn as (i & -> & _). lia.
Qed.
Lemma auction_run_NoDup p g n out : indexed p → auction_run p g n out → NoDup out.
Proof.
  intros I. induction 1 as [|g n|g n stx out [Hs Hi] _ Hr IH]; [constructor..|]. constructor; [|done]. intros Hin.
  apply (auction_run_later _ _ _ _ _ I Hr) in Hin. unfold advance in Hin. rewrite decide_True in Hin by done.
  destruct (ix_slot _ I _ _ Hs) as (stx' & Ei & Hslot). rewrite Hi in Ei. simplify_eq. injection Hslot as Hn. lia.
Qed.

Lemma select_runs p g (max : nat) : indexed p → ∃ out, select p g max = Some out ∧ auction_run p g max out.
Proof.
  intros I. destruct (queues_of_spec p g I) as (qs & Eq & Q). destruct (select_loop_spec p max g qs I Q) as (out & Eo & Hr).
  exists out. split; [unfold select; by rewrite Eq|done].
Qed.

(** C34: the block template is the auction.  Selection never panics and returns a
    schedule of at most [max] distinct pooled transactions in which every pick bids
    at least as much as the next mineable transaction of every other signer, each
    signer's transactions are consecutive nonces from its account's nonce on (so no
    pick can be rejected for a nonce gap), and which is short only when nothing
    mineable is left. *)
Theorem select_is_auction p (current_nonce : AccountId → N) (max : nat) :
  pool_ok p →
  ∃ out, select p current_nonce max = Some out ∧ auction_run p current_nonce max out ∧
    NoDup out ∧ (length out ≤ max)%nat ∧ Forall (λ stx, by_id p !! tx_id stx = Some stx) out ∧
    ∀ s, (tx_nonce ∘ transaction <$> from_signer s out)
         = (λ i, current_nonce s + N.of_nat i) <$> seq 0 (length (from_signer s out)).
Proof.
  intros [I _]. destruct (select_runs p current_nonce max I) as (out & E & Hr). exists out. split; [done|]. split; [done|].
  destruct (auction_run_pooled _ _ _ _ Hr). split_and!; [by eapply auction_run_NoDup|done|done|].
  intros s. by eapply auction_run_nonces.
Qed.
End select.

Module Select_examples.
Import Crypto.Toy PoolAdmit.Pool_examples.
Lemma select_is_auction_witness :
  ∃ out, select the_pool (λ _, 0) 4 = Some out ∧ auction_run the_pool (λ _, 0) 4 out.
Proof.
  destruct (select_is_auction the_pool (λ _, 0) 4 the_pool_ok) as (out & E & Hr & _).
  exists out. split; [exact E|exact Hr].
Defined.
End Select_examples.
End PoolSelect.
