(* ===== verification/MempoolFresh.v ===== *)
(** * The pool against a ledger (crates/mempool/src/lib.rs)

    What the pool promises its node: the READY region holds nothing the ledger has
    already passed and moves no more coin than the ledger holds, [prune] restores that
    against a new ledger whatever the pool held, and the rules of admission change
    only where the node sets them. *)

From S2P Require Import Prelude Primitives Crypto Types Block Ledger Mempool MempoolInv MempoolAdmit.

Module PoolFresh.
Import Pool PoolInv PoolAdmit.

Section fresh.
Context `{Blake3, SigScheme, Borsh Transaction, SerializedSize SignedTransaction}.
Implicit Types (p : Mempool) (stx : SignedTransaction) (s : AccountId) (f g : AccountId → N).

(** ** The rules of admission *)

Definition settings p := (mode p, suite2_active p, chain_height p).

Lemma remove_settings p id : settings (remove p id).1 = settings p.
Proof. unfold remove. by destruct (by_id p !! id). Qed.
Lemma remove_queued_settings p slot : settings (remove_queued p slot).1 = settings p.
Proof. unfold remove_queued. by destruct (queued p !! slot). Qed.
Lemma foldl_settings {A} (step : Mempool → A → Mempool) l : (∀ p x, settings (step p x) = settings p) →
  ∀ p, settings (foldl step p l) = settings p.
Proof. intros Hs. induction l as [|x l IH]; intros p; [done|]. simpl. by rewrite IH. Qed.
Lemma retain_settings p keep : settings (retain_queued p keep) = settings p.
Proof. apply foldl_settings. intros q x. case_match; [done|apply remove_queued_settings]. Qed.
Lemma remove_all_settings p ids : settings (remove_all p ids) = settings p.
Proof. apply foldl_settings, remove_settings. Qed.
Lemma remove_pending_settings p id : settings (remove_pending p id).1 = settings p.
Proof.
  unfold remove_pending. pose proof (remove_settings p id) as Hr. destruct (remove p id) as [p1 [stx|]]; [done|].
  destruct (find_queued p1 id) as [[slot q]|]; [|done].
  pose proof (remove_queued_settings p1 slot) as Hq. destruct (remove_queued p1 slot). simpl in *. congruence.
Qed.
Lemma evict_stranded_settings p f ttl now : settings (evict_stranded p f ttl now).1 = settings p.
Proof. unfold evict_stranded. cbn [fst]. by rewrite retain_settings, remove_all_settings. Qed.
Lemma fit_balance_settings n s cap : ∀ p, settings (fit_balance n p s cap) = settings p.
Proof.
  induction n as [|n IH]; intros p; [done|]. simpl. case_match; [|done].
  assert (settings (evict_highest_nonce p s) = settings p) as He.
  { unfold evict_highest_nonce. destruct (last _) as [[]|]; [apply remove_settings|done]. }
  case_match; [done|]. by rewrite IH.
Qed.
Lemma auction_settings s rate w budget : ∀ p p' r, auction budget p s rate w = Some (p', r) → settings p' = settings p.
Proof.
  induction budget as [|budget IH]; intros p p' r E; cbn [auction] in E; (destruct (_ || _); [|by injection E as <- _]).
  { by injection E as <- _. }
  destruct budget as [|budget]; [by injection E as <- _|].
  destruct (eviction_victim p s) as [[v|]|]; [|by injection E as <- _|done]. cbn [mbind option_bind] in E.
  destruct (_ || _); [|by destruct (0 <? _); injection E as <- _]. apply IH in E. by rewrite E, remove_settings.
Qed.
Lemma insert_queued_settings p stx balance now p' r : insert_queued p stx balance now = Some (p', r) →
  settings p' = settings p.
Proof.
  unfold insert_queued, refuse, mbind, option_bind. intros E. repeat case_match; simplify_eq; try done.
  - apply remove_queued_settings.
  - apply (foldl_settings (λ p v, (remove_queued p v).1)). intros. apply remove_queued_settings.
Qed.
Lemma insert_inner_settings p stx current balance now p' r :
  insert_inner p stx current balance now = Some (p', r) → settings p' = settings p.
Proof.
  unfold insert_inner, refuse. intros E. destruct (negb _); [by injection E as <- _|].
  destruct (_ <? current); [by injection E as <- _|]. destruct (contains _ _); [by injection E as <- _|].
  destruct (by_sender p !! _) as [old_id|].
  - destruct (by_id p !! old_id) as [old|]; [|done]. cbn [mbind option_bind] in E.
    destruct (_ <=? _); [by injection E as <- _|]. destruct (_ <? _); [by injection E as <- _|].
    destruct (_ <? _); [by injection E as <- _|]. destruct (check_total_weight _ _); injection E as <- _; [|done].
    apply (remove_settings p old_id).
  - destruct (_ <? _); [by eapply insert_queued_settings|]. destruct (_ <? _); [by injection E as <- _|].
    destruct (_ <=? _); [by injection E as <- _|].
    destruct (auction _ _ _ _ _) as [[p1 r1]|] eqn:Ea; [|done]. cbn [mbind option_bind] in E.
    apply auction_settings in Ea. by destruct r1; injection E as <- _.
Qed.
Lemma promote_settings n s current balance now : ∀ p p',
  promote_loop n p s current balance now = Some p' → settings p' = settings p.
Proof.
  induction n as [|n IH]; intros p p' E; simpl in E; [by injection E as <-|].
  pose proof (remove_queued_settings p (s, saturating_add u64_max current (sender_count p s))) as Hr.
  destruct (remove_queued p _) as [p1 [q|]]; cbn [fst] in Hr; [|by injection E as <-].
  destruct (insert_inner p1 _ _ _ _) as [[p2 r]|] eqn:Ei; [|done]. cbn [mbind option_bind] in E.
  apply insert_inner_settings in Ei. rewrite <- Hr, <- Ei.
  destruct r as [[]|e]; [by apply IH in E|by injection E as <-|]. by destruct (transient e); injection E as <-.
Qed.
Lemma insert_settings p stx current balance now p' r :
  insert p stx current balance now = Some (p', r) → settings p' = settings p.
Proof.
  unfold insert, refuse. destruct (_ <? _); [by intros [= <- _]|].
  destruct (insert_inner p stx current balance now) as [[p1 r1]|] eqn:Ei; [|done]. cbn [mbind option_bind].
  apply insert_inner_settings in Ei. destruct r1 as [[]|]; [|by intros [= <- _]..].
  destruct (promote p1 _ _ _ _) as [p2|] eqn:Ep; [|done]. intros [= <- <-]. apply promote_settings in Ep. congruence.
Qed.
Lemma prune_settings p f g now p' : prune p f g now = Some p' → settings p' = settings p.
Proof.
  unfold prune. set (p1 := foldl _ (prune_stale p f) _).
  assert (settings p1 = settings p) as <-.
  { unfold p1. rewrite foldl_settings by (intros; apply fit_balance_settings).
    unfold prune_stale. by rewrite retain_settings, remove_all_settings. }
  generalize (senders (queued p1)). intros l. clearbody p1. revert p1.
  induction l as [|s l IH]; intros p1 E; [by injection E as <-|]. cbn [foldl mbind option_bind] in E.
  destruct (promote p1 s (f s) (g s) now) as [p2|] eqn:Ep.
  - apply IH in E. apply promote_settings in Ep. congruence.
  - exfalso. clear -E. induction l as [|x l IH]; [done|by apply IH].
Qed.

(** ** Nothing stale, everything funded *)

Definition fresh f p : Prop := ∀ slot id, by_sender p !! slot = Some id → f slot.1 ≤ slot.2.
Definition funded g p : Prop := ∀ s, g s < u128_max → pending_outflow p s ≤ g s.
Definition sound f g p : Prop := pool_ok p ∧ fresh f p ∧ funded g p.

Lemma fresh_sub f p p' : by_sender p' ⊆ by_sender p → fresh f p → fresh f p'.
Proof. intros Hs F slot id E. eapply F. by eapply lookup_weaken. Qed.

(** Removing entries of a map removes their summands. *)
Lemma map_sum_sub {K V} `{Countable K} (h : V → N) (m m' : gmap K V) : m' ⊆ m → map_sum h m' ≤ map_sum h m.
Proof.
  revert m. induction m' as [|k v m' Hk IH] using map_ind; intros m Hs; [unfold map_sum at 1; rewrite map_fold_empty; lia|].
  rewrite map_sum_insert_None by done.
  rewrite (map_sum_delete h m k v) by (eapply lookup_weaken; [apply lookup_insert_eq|done]).
  apply N.add_le_mono_l, IH. rewrite <- (delete_insert_id m' k v Hk). by apply delete_mono.
Qed.
(** The outflow of an account whose slots only went. *)
Lemma pend_sub p p' s :
  (∀ n id, by_sender p' !! (s, n) = Some id → by_sender p !! (s, n) = Some id ∧ by_id p' !! id = by_id p !! id) →
  pend p' s ≤ pend p s.
Proof.
  intros Hs. unfold pend. trans (map_sum (out_at p) (own_slots p' s)).
  - apply N.eq_le_incl, map_sum_ext. intros [s' n] id [E <-]%map_lookup_filter_Some. unfold out_at.
    by destruct (Hs n id E) as [_ ->].
  - apply map_sum_sub. unfold own_slots. apply map_subseteq_spec. intros [s' n] id [E <-]%map_lookup_filter_Some.
    apply map_lookup_filter_Some. split; [by apply Hs|done].
Qed.
Lemma funded_pend g p p' : (∀ s, pend p' s ≤ pend p s) → funded g p → funded g p'.
Proof. intros Hp F s Hg. specialize (F s Hg). rewrite pending_outflow_eq in *. specialize (Hp s). lia. Qed.
Lemma pend_trims p p' s : indexed p → trims p p' → pend p' s ≤ pend p s.
Proof.
  intros I [S Hi]. apply pend_sub. intros n id E. destruct (ix_slot _ (Hi I) _ _ E) as (stx & Ei & _).
  split; [by eapply lookup_weaken; [|apply S]|]. by rewrite Ei, (lookup_weaken _ _ _ _ Ei (sh_id _ _ S)).
Qed.
Lemma trims_sound f g p p' : trims p p' → sound f g p → sound f g p'.
Proof.
  intros T (P & F & G). split_and!; [by eapply trims_ok|by eapply fresh_sub, F; apply T|].
  eapply funded_pend, G. intros s. by apply pend_trims; [apply P|].
Qed.
(** An admission for one account leaves the others' outflows. *)
Lemma pend_admit_other p stx now s : indexed p → by_id p !! tx_id stx = None → s ≠ signer_id (transaction stx) →
  pend (admit_ready p (slot_of stx) (tx_id stx) stx now) s ≤ pend p s.
Proof.
  intros I Hid Hne. apply pend_sub. intros n id. cbn [admit_ready by_sender by_id].
  rewrite lookup_insert_ne by (unfold slot_of; congruence). intros E. split; [done|].
  destruct (ix_slot _ I _ _ E) as (stx' & Ei & _). rewrite lookup_insert_ne; [done|]. congruence.
Qed.
Lemma admitted_sound f g p stx now p' : sound f g p → pool_ok p' →
  f (signer_id (transaction stx)) ≤ tx_nonce (transaction stx) →
  admitted p stx (g (signer_id (transaction stx))) now p' → sound f g p'.
Proof.
  intros (P & F & G) P' Hn Ha. split_and!; [done|..].
  - assert (∀ p1, by_sender p1 ⊆ by_sender p → fresh f (admit_ready p1 (slot_of stx) (tx_id stx) stx now)) as Hf.
    { intros p1 Hs slot id. cbn [admit_ready by_sender]. intros [[<- _]|[_ E]]%lookup_insert_Some; [done|]. eapply F. by eapply lookup_weaken. }
    destruct Ha as (_ & [(p1 & [[S _] _ _ _] & _ & _ & ->)|(old_id & old & _ & _ & _ & _ & _ & ->)]).
    + apply Hf, S.
    + apply Hf. apply (remove_trims p old_id).
  - intros s Hg. destruct (decide (s = signer_id (transaction stx))) as [->|Hne].
    { eapply admitted_pending; [exact P|exact Ha|done|]. specialize (G _ Hg). lia. }
    specialize (G s Hg). rewrite pending_outflow_eq in *. eenough (pend p' s ≤ pend p s) by lia.
    destruct Ha as (Hid & [(p1 & [T _ _ _] & _ & _ & ->)|(old_id & old & _ & _ & _ & _ & _ & ->)]).
    + pose proof T as [S Hi]. etrans; [apply pend_admit_other|by apply pend_trims; [apply P|]]; [by apply Hi, P| |done].
      destruct (by_id p1 !! tx_id stx) eqn:E; [|done]. eapply lookup_weaken in E; [|apply S]. congruence.
    + pose proof (remove_trims p old_id) as T. pose proof T as [S Hi].
      etrans; [apply pend_admit_other|by apply pend_trims; [apply P|]]; [by apply Hi, P| |done].
      destruct (by_id (remove p old_id).1 !! tx_id stx) eqn:E; [|done]. eapply lookup_weaken in E; [|apply S]. congruence.
Qed.

(** A pool with the same READY region. *)
Lemma ready_sound f g p p' : by_id p' = by_id p → by_sender p' = by_sender p → pool_ok p' → sound f g p → sound f g p'.
Proof.
  intros E1 E2 P' (_ & F & G). split_and!; [done|by unfold fresh; rewrite E2|].
  unfold funded, pending_outflow in *. by rewrite E1, E2.
Qed.
Lemma attempt_sound f g p stx now p' r : sound f g p →
  insert_inner p stx (f (signer_id (transaction stx))) (g (signer_id (transaction stx))) now = Some (p', r) → sound f g p'.
Proof.
  intros S E. pose proof S as (P & _).
  destruct (insert_inner_spec p stx (f (signer_id (transaction stx))) (g (signer_id (transaction stx))) now P)
    as (p1 & r1 & E1 & P1 & Hr). rewrite E in E1. injection E1 as <- <-.
  destruct r as [[]|e].
  - destruct (insert_inner_ready _ _ _ _ _ _ P E) as (_ & Hn & Ha). by eapply admitted_sound.
  - destruct Hr as [E1 E2]. by eapply (ready_sound f g p).
  - destruct Hr as [T _ _ _]. by eapply trims_sound.
Qed.
Lemma promote_sound f g n s now : ∀ p p', sound f g p →
  promote_loop n p s (f s) (g s) now = Some p' → sound f g p'.
Proof.
  induction n as [|n IH]; intros p p' S E; [by injection E as <-|]. pose proof S as (P & _).
  destruct (promote_loop_ok (Datatypes.S n) p s (f s) (g s) now P) as (p0 & E0 & P0). rewrite E in E0. injection E0 as <-.
  simpl in E. set (slot := (s, _)) in E. pose proof (trims_sound _ _ _ _ (remove_queued_trims p slot) S) as S1.
  destruct (remove_queued p slot) as [p1 [q|]] eqn:Er; simpl in S1; [|by injection E as <-].
  assert (signer_id (transaction (q_stx q)) = s) as Hs.
  { unfold remove_queued in Er. destruct (queued p !! slot) eqn:Eq; simplify_eq.
    apply (ix_queue _ (proj1 P)) in Eq. by injection Eq. }
  destruct (insert_inner p1 _ _ _ _) as [[p2 r]|] eqn:Ei; [|done]. cbn [mbind option_bind] in E.
  rewrite <- Hs in Ei. pose proof (attempt_sound f g p1 (q_stx q) now _ _ S1 Ei) as S2.
  destruct r as [[]|e]; [by eapply IH|by injection E as <-|].
  destruct (transient e); injection E as <-; [|done]. by apply (ready_sound f g p2).
Qed.
Lemma insert_sound f g p stx now p' r : sound f g p →
  insert p stx (f (signer_id (transaction stx))) (g (signer_id (transaction stx))) now = Some (p', r) → sound f g p'.
Proof.
  intros S. unfold insert, refuse. destruct (_ <? _); [by intros [= <- _]|].
  destruct (insert_inner p stx _ _ now) as [[p1 r1]|] eqn:Ei; [|done]. cbn [mbind option_bind].
  pose proof (attempt_sound _ _ _ _ _ _ _ S Ei) as S1. destruct r1 as [[]|]; [|by intros [= <- _]..].
  destruct (promote p1 _ _ _ now) as [p2|] eqn:Ep; [|done]. intros [= <- _]. by eapply promote_sound.
Qed.

(** ** [prune] restores it *)

Lemma remove_all_gone ids : ∀ p slot id, indexed p → id ∈ ids → by_sender p !! slot = Some id →
  by_sender (remove_all p ids) !! slot = None.
Proof.
  induction ids as [|i ids IH]; intros p slot id I Hin E; [by apply elem_of_nil in Hin|].
  cbn [remove_all foldl]. fold (remove_all (remove p i).1 ids). pose proof (remove_trims p i) as [S Hi].
  destruct (by_sender (remove p i).1 !! slot) as [id'|] eqn:E'.
  - pose proof (lookup_weaken _ _ _ _ E' (sh_sender _ _ S)) as Eid. rewrite E in Eid. injection Eid as <-.
    eapply (IH (remove p i).1 slot id); [by apply Hi| |done]. apply elem_of_cons in Hin as [->|]; [|done].
    exfalso. destruct (ix_slot _ (Hi I) _ _ E') as (stx & Ei & _). unfold remove in Ei.
    destruct (by_id p !! i) eqn:Eb; cbn in Ei; [by rewrite lookup_delete_eq in Ei|congruence].
  - destruct (remove_all_trims (remove p i).1 ids) as [S' _].
    destruct (by_sender (remove_all _ ids) !! slot) eqn:E''; [|done]. eapply lookup_weaken in E''; [|apply S']. congruence.
Qed.
Lemma prune_stale_fresh p f : indexed p → fresh f (prune_stale p f).
Proof.
  intros I. unfold prune_stale. set (ids := _ <$> _). apply (fresh_sub _ (remove_all p ids)); [apply retain_trims|].
  intros slot id E. destruct (remove_all_trims p ids) as [S _]. pose proof (lookup_weaken _ _ _ _ E (sh_sender _ _ S)) as E0.
  apply N.le_ngt. intros Hlt. assert (id ∈ ids) as Hin.
  { apply list_elem_of_fmap. exists (slot, id). split; [done|]. apply list_elem_of_filter. split; [done|].
    by apply elem_of_entries. }
  by rewrite (remove_all_gone ids p slot id I Hin E0) in E.
Qed.

(** One turn of [fit_balance] takes a transaction out while there is one. *)
Lemma evict_highest_progress p s : indexed p → 0 < pend p s → (size (by_id (evict_highest_nonce p s)) < size (by_id p))%nat.
Proof.
  intros I Hp. unfold evict_highest_nonce. destruct (last (slots_of (by_sender p) s)) as [[slot id]|] eqn:El.
  - apply last_Some_elem_of, elem_of_slots in El as [_ E]. destruct (ix_slot _ I _ _ E) as (stx & Ei & _).
    unfold remove. rewrite Ei. cbn. rewrite map_size_delete_Some by done. assert (size (by_id p) ≠ 0)%nat; [|lia].
    intros Hz%map_size_empty_inv. by rewrite Hz, lookup_empty in Ei.
  - exfalso. apply last_None in El. unfold pend in Hp. assert (own_slots p s = ∅) as Hz.
    { apply map_eq. intros k. rewrite lookup_empty. apply eq_None_not_Some. intros [id [E Hk]%map_lookup_filter_Some].
      assert ((k, id) ∈ slots_of (by_sender p) s) as Hi by (by apply elem_of_slots). rewrite El in Hi.
      by apply elem_of_nil in Hi. }
    rewrite Hz, map_sum_empty in Hp. lia.
Qed.
Lemma fit_balance_fits fuel s cap : ∀ p, indexed p → (size (by_id p) < fuel)%nat →
  pending_outflow (fit_balance fuel p s cap) s ≤ cap.
Proof.
  induction fuel as [|fuel IH]; intros p I Hf; [lia|]. simpl. case_match eqn:Ec; [|by apply N.ltb_ge in Ec].
  apply N.ltb_lt in Ec. rewrite pending_outflow_eq in Ec.
  pose proof (evict_highest_progress p s I ltac:(lia)) as Hp. unfold len.
  rewrite (proj2 (N.eqb_neq _ _)) by lia. apply IH; [by apply evict_highest_trims|lia].
Qed.
Lemma prune_sound p f g now p' : pool_ok p → prune p f g now = Some p' → sound f g p'.
Proof.
  intros P. unfold prune. set (p0 := prune_stale p f).
  assert (pool_ok p0 ∧ fresh f p0) as [P0 F0].
  { split; [by eapply trims_ok; [apply prune_stale_trims|]|by apply prune_stale_fresh, P]. }
  set (p1 := foldl _ p0 _). assert (trims p0 p1 ∧ ∀ s, s ∈ senders (by_sender p0) → pending_outflow p1 s ≤ g s) as [T1 G1].
  { unfold p1. clear p1 F0. generalize (senders (by_sender p0)). intros l. clearbody p0. revert p0 P0.
    induction l as [|x l IH] using rev_ind; intros p0 P0; [split; [done|intros s []%elem_of_nil]|]. rewrite foldl_app. cbn [foldl].
    destruct (IH p0 P0) as [T G]. set (q := foldl _ p0 l) in *. pose proof (trims_ok _ _ T P0) as [Iq _].
    pose proof (fit_balance_trims (S (size (by_id q))) q x (g x)) as T'. split; [by etrans|]. intros s [Hs|Hs]%elem_of_app.
    - specialize (G s Hs). pose proof (pend_trims _ _ s Iq T'). rewrite pending_outflow_eq in *. lia.
    - apply list_elem_of_singleton in Hs as ->. apply fit_balance_fits; [done|lia]. }
  assert (sound f g p1) as S1.
  { split_and!; [by eapply trims_ok|by eapply fresh_sub, F0; apply T1|]. intros s _.
    destruct (decide (s ∈ senders (by_sender p0))) as [|Hs]; [by apply G1|].
    rewrite pending_outflow_eq. assert (pend p1 s ≤ 0); [|lia]. etrans; [apply pend_trims, T1; apply P0|].
    unfold pend. assert (own_slots p0 s = ∅) as ->; [|by rewrite map_sum_empty].
    apply map_eq. intros [s' n]. rewrite lookup_empty. apply eq_None_not_Some. intros [id [E <-]%map_lookup_filter_Some].
    apply Hs, elem_of_senders. by exists n, id. }
  generalize (senders (queued p1)). intros l. clearbody p1. clear T1 G1. revert p1 S1.
  induction l as [|s l IH]; intros p1 S1 E; [by injection E as <-|]. cbn [foldl mbind option_bind] in E.
  destruct (promote p1 s (f s) (g s) now) as [p2|] eqn:Ep.
  - eapply IH; [|exact E]. by eapply promote_sound.
  - exfalso. clear -E. induction l as [|x l IH]; [done|by apply IH].
Qed.
End fresh.
End PoolFresh.
