(* ===== verification/Timing.v ===== *)
(** * The transaction timing index (crates/node/src/timing.rs)

    How long each mined transaction waited, as one node saw it: a bounded map from
    transaction ids to their inclusion, filed by inclusion height. *)

From S2P Require Import Prelude Primitives Crypto Types Vault Ledger Mempool.

Module Timing.

Definition DEFAULT_RETENTION_BLOCKS : N := 4320.
Definition DEFAULT_MAX_ENTRIES : N := 200000.

Record TxTiming := mkTiming {
  first_seen_ms : option N;
  first_seen_height : option N;
  included_height : N;
  included_timestamp_ms : N }.
Definition observed (ms seen height ts : N) : TxTiming := mkTiming (Some ms) (Some seen) height ts.
Definition unobserved (height ts : N) : TxTiming := mkTiming None None height ts.
Definition is_observed (t : TxTiming) : bool := bool_decide (is_Some (first_seen_ms t)).
Definition waited_ms (t : TxTiming) : option N :=
  (λ seen, saturating_sub (included_timestamp_ms t) seen) <$> first_seen_ms t.
Definition waited_blocks (t : TxTiming) : option N :=
  (λ h, saturating_sub (included_height t) h) <$> first_seen_height t.

Record TxTimingIndex := mkIndex {
  rows : gmap Hash TxTiming;
  by_height : gmap N (list Hash);
  retention_blocks : N;
  max_entries : N }.
Definition with_limits (retention_blocks max_entries : N) : TxTimingIndex :=
  mkIndex ∅ ∅ (N.max retention_blocks 1) (N.max max_entries 1).
Definition new : TxTimingIndex := with_limits DEFAULT_RETENTION_BLOCKS DEFAULT_MAX_ENTRIES.
Definition len (x : TxTimingIndex) : N := N.of_nat (size (rows x)).
Definition get (x : TxTimingIndex) (id : Hash) : option TxTiming := rows x !! id.
(** The first key of the ordered map. *)
Definition lowest_height (x : TxTimingIndex) : option N := fst <$> head (entries (by_height x)).

Definition detach_from_height (x : TxTimingIndex) (height : N) (id : Hash) : TxTimingIndex :=
  match by_height x !! height with
  | None => x
  | Some ids =>
      let ids := filter (λ h, h ≠ id) ids in
      mkIndex (rows x)
        (if bool_decide (ids = []) then delete height (by_height x) else <[height := ids]> (by_height x))
        (retention_blocks x) (max_entries x)
  end.
(** A row is dropped only if it still points to this height. *)
Definition drop_row (height : N) (rs : gmap Hash TxTiming) (id : Hash) : gmap Hash TxTiming :=
  if bool_decide (included_height <$> rs !! id = Some height) then delete id rs else rs.
Definition drop_height (x : TxTimingIndex) (height : N) : TxTimingIndex :=
  match by_height x !! height with
  | None => x
  | Some ids =>
      mkIndex (foldl (drop_row height) (rows x) ids) (delete height (by_height x))
        (retention_blocks x) (max_entries x)
  end.

(** Each turn of either loop drops one height, so the heights held are fuel enough. *)
Fixpoint drop_below (fuel : nat) (x : TxTimingIndex) (cutoff : N) : TxTimingIndex :=
  match fuel with
  | O => x
  | S fuel =>
      match lowest_height x with
      | Some h => if cutoff <=? h then x else drop_below fuel (drop_height x h) cutoff
      | None => x
      end
  end.
Fixpoint drop_excess (fuel : nat) (x : TxTimingIndex) : TxTimingIndex :=
  match fuel with
  | O => x
  | S fuel =>
      if max_entries x <? len x then
        match lowest_height x with
        | Some h => drop_excess fuel (drop_height x h)
        | None => x
        end
      else x
  end.
Definition enforce_bounds (x : TxTimingIndex) (tip_height : N) : TxTimingIndex :=
  let cutoff := saturating_sub (saturating_add u64_max tip_height 1) (retention_blocks x) in
  let x := drop_below (size (by_height x)) x cutoff in
  drop_excess (size (by_height x)) x.

(** [by_height.entry(height).or_default().push(id)]. *)
Definition file_at (x : TxTimingIndex) (height : N) (id : Hash) : TxTimingIndex :=
  mkIndex (rows x) (<[height := default [] (by_height x !! height) ++ [id]]> (by_height x))
    (retention_blocks x) (max_entries x).
Definition put_row (x : TxTimingIndex) (id : Hash) (t : TxTiming) : TxTimingIndex :=
  mkIndex (<[id := t]> (rows x)) (by_height x) (retention_blocks x) (max_entries x).
Definition record (x : TxTimingIndex) (id : Hash) (t : TxTiming) : TxTimingIndex :=
  let old := rows x !! id in
  let x := put_row x id t in
  let x := match old with Some old => detach_from_height x (included_height old) id | None => x end in
  enforce_bounds (file_at x (included_height t) id) (included_height t).
Definition remove (x : TxTimingIndex) (id : Hash) : TxTimingIndex * option TxTiming :=
  match rows x !! id with
  | None => (x, None)
  | Some old =>
      (detach_from_height (mkIndex (delete id (rows x)) (by_height x) (retention_blocks x) (max_entries x))
         (included_height old) id, Some old)
  end.

(** Rows by height, then by id. *)
Definition row_le (a b : Hash * TxTiming) : Prop :=
  included_height a.2 < included_height b.2 ∨
  included_height a.2 = included_height b.2 ∧ key_leb a.1 b.1 = true.
#[global] Instance row_le_dec : RelDecision row_le.
Proof. intros a b. unfold row_le. apply _. Defined.
Definition snapshot (x : TxTimingIndex) : list (Hash * TxTiming) := merge_sort row_le (map_to_list (rows x)).
(** A repeated id overwrites its row and is filed once, under its first height. *)
Definition restore_row (x : TxTimingIndex) (r : Hash * TxTiming) : TxTimingIndex :=
  let fresh := bool_decide (rows x !! r.1 = None) in
  let x := put_row x r.1 r.2 in
  if fresh then file_at x (included_height r.2) r.1 else x.
Definition restore (x : TxTimingIndex) (rs : list (Hash * TxTiming)) : TxTimingIndex :=
  let x := foldl restore_row (mkIndex ∅ ∅ (retention_blocks x) (max_entries x)) rs in
  match (λ r : Hash * TxTiming, included_height r.2) <$> rs with
  | [] => x
  | h :: hs => enforce_bounds x (foldl N.max h hs)
  end.
End Timing.
