(* ===== verification/TimingSpec.v ===== *)
(** * The timing index holds what it should

    Rows and height buckets stay in lockstep, and an insertion evicts exactly the
    oldest heights that the two bounds require. *)

From S2P Require Import Prelude Primitives Crypto Types Vault Ledger Mempool Timing.

Module TimingSpec.
Import Timing.

Record lockstep (x : TxTimingIndex) : Prop := {
  ls_filed id t : rows x !! id = Some t → ∃ ids, by_height x !! included_height t = Some ids ∧ id ∈ ids;
  ls_bucket h ids : by_height x !! h = Some ids →
    ids ≠ [] ∧ NoDup ids ∧ ∀ id, id ∈ ids → included_height <$> rows x !! id = Some h;
}.
Definition limits (x : TxTimingIndex) : N * N := (retention_blocks x, max_entries x).

(** ** The lowest height *)

Lemma entries_head {V} (m : gmap N V) :
  match head (entries m) with
  | Some (h, v) => m !! h = Some v ∧ ∀ h' v', m !! h' = Some v' → h ≤ h'
  | None => m = ∅
  end.
Proof.
  assert (StronglySorted entry_le (entries m)) as Hs.
  { assert (Transitive (entry_le (K:=N) (V:=V))).
    { intros [a ?] [b ?] [c ?]. unfold entry_le, key_leb, BKey_N. cbn. rewrite !N.leb_le. lia. }
    assert (Total (entry_le (K:=N) (V:=V))).
    { intros [a ?] [b ?]. unfold entry_le, key_leb, BKey_N. cbn. rewrite !N.leb_le. lia. }
    apply StronglySorted_merge_sort; apply _. }
  pose proof (entries_perm m) as Hp. destruct (entries m) as [|[h v] es] eqn:E; cbn [head].
  - apply map_to_list_empty_iff. symmetry. by apply Permutation_nil_l.
  - assert (∀ k w, m !! k = Some w ↔ (k, w) ∈ (h, v) :: es) as Hin
      by (intros; rewrite Hp; symmetry; apply elem_of_map_to_list).
    split; [apply Hin; left|]. intros h' v' [[= -> ->]|Hv]%Hin%elem_of_cons; [done|].
    apply StronglySorted_inv in Hs as [_ Hf]. rewrite Forall_forall in Hf. specialize (Hf _ Hv).
    unfold entry_le, key_leb, BKey_N in Hf. cbn in Hf. by apply N.leb_le.
Qed.
Lemma lowest_spec x :
  match lowest_height x with
  | Some h => is_Some (by_height x !! h) ∧ ∀ h', is_Some (by_height x !! h') → h ≤ h'
  | None => by_height x = ∅
  end.
Proof.
  unfold lowest_height. pose proof (entries_head (by_height x)) as Hh.
  destruct (head (entries (by_height x))) as [[h v]|]; [|done]. destruct Hh as [E Hm]. cbn.
  split; [eauto|]. intros h' [v' E']. eauto.
Qed.

(** ** Dropping heights *)

Definition from_height (k : N) (rs : gmap Hash TxTiming) : gmap Hash TxTiming :=
  filter (λ e, k ≤ included_height e.2) rs.
Lemma from_height_from k k' rs : k' ≤ k → from_height k (from_height k' rs) = from_height k rs.
Proof.
  intros Hk. apply map_eq. intros id. unfold from_height. apply option_eq. intros t.
  rewrite !map_lookup_filter_Some. cbn. naive_solver lia.
Qed.
Lemma from_height_0 rs : from_height 0 rs = rs.
Proof. apply map_filter_id. intros. apply N.le_0_l. Qed.

Lemma drop_rows_lookup h ids : ∀ rs id,
  foldl (drop_row h) rs ids !! id =
  if bool_decide (id ∈ ids ∧ included_height <$> rs !! id = Some h) then None else rs !! id.
Proof.
  induction ids as [|i ids IH]; intros rs id; cbn [foldl].
  { rewrite bool_decide_false; [done|]. intros [Hn _]. inversion Hn. }
  rewrite IH. unfold drop_row. destruct (decide (included_height <$> rs !! i = Some h)) as [Ei|Ei].
  - rewrite (bool_decide_true _ Ei). destruct (decide (id = i)) as [->|Hne].
    + rewrite lookup_delete_eq. rewrite bool_decide_false by (by intros [_ [=]]).
      rewrite bool_decide_true; [done|]. split; [left|done].
    + rewrite lookup_delete_ne by done. erewrite bool_decide_ext; [reflexivity|]. set_solver.
  - rewrite (bool_decide_false _ Ei). erewrite bool_decide_ext; [reflexivity|]. rewrite elem_of_cons. naive_solver.
Qed.
(** Dropping the lowest height keeps everything above it. *)
Lemma drop_lowest x h : lockstep x → lowest_height x = Some h →
  lockstep (drop_height x h) ∧ rows (drop_height x h) = from_height (h + 1) (rows x) ∧
  by_height (drop_height x h) = delete h (by_height x) ∧ limits (drop_height x h) = limits x ∧
  rows x = from_height h (rows x) ∧ (size (by_height (drop_height x h)) < size (by_height x))%nat.
Proof.
  intros L El. pose proof (lowest_spec x) as Hl. rewrite El in Hl. destruct Hl as [[ids Eh] Hm].
  assert (∀ id t, rows x !! id = Some t → h ≤ included_height t) as Hge.
  { intros id t E. destruct (ls_filed _ L _ _ E) as (ids' & E' & _). apply Hm. eauto. }
  unfold drop_height. rewrite Eh. cbn [rows by_height].
  assert (foldl (drop_row h) (rows x) ids = from_height (h + 1) (rows x)) as Er.
  { apply map_eq. intros id. rewrite drop_rows_lookup. destruct (rows x !! id) as [t|] eqn:E.
    - pose proof (Hge _ _ E). destruct (decide (included_height t = h)) as [Ht|Ht].
      + destruct (ls_filed _ L _ _ E) as (ids' & E' & Hin). rewrite Ht, Eh in E'. injection E' as <-.
        rewrite bool_decide_true by (split; [done|cbn; congruence]). symmetry. apply map_lookup_filter_None_2. right.
        intros t' E''. cbn. rewrite E in E''. injection E'' as <-. lia.
      + rewrite bool_decide_false by (cbn; naive_solver). symmetry. apply map_lookup_filter_Some_2; [done|]. cbn. lia.
    - rewrite bool_decide_false by (by intros [_ [=]]). symmetry. apply map_lookup_filter_None_2. by left. }
  split_and!; [|done|done|done| |].
  - split; cbn [rows by_height]; rewrite Er.
    + intros id t [E Hk]%map_lookup_filter_Some. cbn in Hk. destruct (ls_filed _ L _ _ E) as (ids' & E' & Hin).
      exists ids'. split; [|done]. rewrite lookup_delete_ne by lia. done.
    + intros h' ids' [Hne E']%lookup_delete_Some. destruct (ls_bucket _ L _ _ E') as (H1 & H2 & H3).
      split_and!; [done..|]. intros id Hin. specialize (H3 id Hin). destruct (rows x !! id) as [t|] eqn:E; [|done].
      injection H3 as Ht. pose proof (Hge _ _ E). assert (from_height (h + 1) (rows x) !! id = Some t) as ->; [|by cbn; rewrite Ht].
      apply map_lookup_filter_Some_2; [done|]. cbn. lia.
  - symmetry. apply map_filter_id. intros id t E. by eapply Hge.
  - rewrite map_size_delete_Some by eauto. assert (size (by_height x) ≠ 0%nat); [|lia].
    apply map_size_ne_0_lookup. eauto.
Qed.

Lemma lowest_None x : lockstep x → lowest_height x = None → rows x = ∅.
Proof.
  intros L El. pose proof (lowest_spec x) as Hl. rewrite El in Hl. apply map_eq. intros id. rewrite lookup_empty.
  destruct (rows x !! id) as [t|] eqn:E; [|done]. destruct (ls_filed _ L _ _ E) as (ids & E' & _).
  by rewrite Hl, lookup_empty in E'.
Qed.
Lemma drop_below_spec cutoff fuel : ∀ x, lockstep x → (size (by_height x) ≤ fuel)%nat →
  lockstep (drop_below fuel x cutoff) ∧ rows (drop_below fuel x cutoff) = from_height cutoff (rows x) ∧
  limits (drop_below fuel x cutoff) = limits x.
Proof.
  induction fuel as [|fuel IH]; intros x L Hf; cbn [drop_below].
  - split_and!; [done| |done]. assert (lowest_height x = None) as E.
    { unfold lowest_height. assert (by_height x = ∅) as -> by (apply map_size_empty_inv; lia). done. }
    rewrite (lowest_None x L E). symmetry. apply map_filter_empty.
  - destruct (lowest_height x) as [h|] eqn:E.
    2: { split_and!; [done| |done]. rewrite (lowest_None x L E). symmetry. apply map_filter_empty. }
    destruct (drop_lowest x h L E) as (L' & Er & Eb & El & Ef & Hs).
    destruct (N.leb_spec cutoff h) as [Hc|Hc].
    + split_and!; [done| |done]. symmetry. apply map_filter_id.
      intros id t Et. rewrite Ef in Et. apply map_lookup_filter_Some in Et as [_ Ht]. cbn in *. lia.
    + destruct (IH (drop_height x h) L') as (L2 & R2 & M2); [lia|]. split_and!; [done| |congruence].
      rewrite R2, Er. apply from_height_from. lia.
Qed.
(** The excess goes height by height, and no further than needed. *)
Lemma drop_excess_spec fuel : ∀ x, lockstep x → (size (by_height x) ≤ fuel)%nat →
  ∃ k, lockstep (drop_excess fuel x) ∧ rows (drop_excess fuel x) = from_height k (rows x) ∧
    limits (drop_excess fuel x) = limits x ∧ len (drop_excess fuel x) ≤ max_entries x ∧
    (k = 0 ∨ max_entries x < N.of_nat (size (from_height (k - 1) (rows x)))).
Proof.
  assert (∀ x, lockstep x → lowest_height x = None → len x ≤ max_entries x) as Hlow.
  { intros x L E. unfold len. rewrite (lowest_None x L E), map_size_empty. lia. }
  induction fuel as [|fuel IH]; intros x L Hf; cbn [drop_excess].
  - exists 0. rewrite from_height_0. split_and!; [done..| |by left]. apply Hlow; [done|].
    unfold lowest_height. assert (by_height x = ∅) as -> by (apply map_size_empty_inv; lia). done.
  - destruct (N.ltb_spec (max_entries x) (len x)) as [Hl|Hl]; [|exists 0; rewrite from_height_0; by eauto 10].
    destruct (lowest_height x) as [h|] eqn:E; [|specialize (Hlow x L E); lia].
    destruct (drop_lowest x h L E) as (L' & Er & Eb & El & Ef & Hs). unfold limits in El. injection El as _ El.
    destruct (IH (drop_height x h) L') as (k & L2 & R2 & M2 & B2 & K2); [lia|]. rewrite El in *.
    exists (N.max k (h + 1)). split_and!; [done| | |done|right].
    + rewrite R2, Er. apply map_eq. intros id. apply option_eq. intros t. unfold from_height.
      rewrite !map_lookup_filter_Some. cbn. naive_solver lia.
    + rewrite M2. unfold limits. rewrite El. unfold drop_height. by case_match.
    + destruct (N.le_ge_cases k (h + 1)) as [Hk|Hk].
      * rewrite N.max_r by done. rewrite N.add_sub, <- Ef. done.
      * rewrite N.max_l by done. destruct K2 as [->|K2]; [lia|]. rewrite Er in K2.
        destruct (decide (k = h + 1)) as [->|]; [rewrite N.add_sub, <- Ef; done|].
        rewrite from_height_from in K2 by lia. done.
Qed.
Lemma enforce_spec x tip : lockstep x →
  let cutoff := saturating_sub (saturating_add u64_max tip 1) (retention_blocks x) in
  ∃ k, lockstep (enforce_bounds x tip) ∧ rows (enforce_bounds x tip) = from_height k (rows x) ∧
    limits (enforce_bounds x tip) = limits x ∧ len (enforce_bounds x tip) ≤ max_entries x ∧ cutoff ≤ k ∧
    (k = cutoff ∨ max_entries x < N.of_nat (size (from_height (k - 1) (rows x)))).
Proof.
  intros L cutoff. unfold enforce_bounds. fold cutoff.
  destruct (drop_below_spec cutoff (size (by_height x)) x L ltac:(lia)) as (L1 & R1 & M1).
  set (y := drop_below _ x cutoff) in *.
  destruct (drop_excess_spec (size (by_height y)) y L1 ltac:(lia)) as (k & L2 & R2 & M2 & B2 & K2).
  assert (max_entries y = max_entries x) as Em by (unfold limits in M1; congruence).
  exists (N.max k cutoff). rewrite Em in *. split_and!; [done| |congruence|done|lia|].
  - rewrite R2, R1. apply map_eq. intros id. apply option_eq. intros t. unfold from_height.
    rewrite !map_lookup_filter_Some. cbn. naive_solver lia.
  - destruct (N.le_ge_cases k cutoff) as [Hk|Hk]; [left; lia|]. rewrite N.max_l by done.
    destruct K2 as [->|K2]; [left; lia|]. destruct (decide (k = cutoff)) as [->|]; [by left|right].
    rewrite R1, from_height_from in K2 by lia. done.
Qed.

(** ** Filing and withdrawing a row *)

(** The buckets once [id] is taken out of them. *)
Definition without (x : TxTimingIndex) (id : Hash) : gmap N (list Hash) :=
  match rows x !! id with
  | Some old => by_height (detach_from_height x (included_height old) id)
  | None => by_height x
  end.
Lemma without_spec x id : lockstep x →
  (∀ h ids, without x id !! h = Some ids →
     ids ≠ [] ∧ NoDup ids ∧ (id ∉ ids) ∧ ∀ i, i ∈ ids → included_height <$> rows x !! i = Some h) ∧
  (∀ i t, i ≠ id → rows x !! i = Some t → ∃ ids, without x id !! included_height t = Some ids ∧ i ∈ ids).
Proof.
  intros L. unfold without. destruct (rows x !! id) as [old|] eqn:E.
  2: { split; [|intros i t _; apply (ls_filed _ L)]. intros h ids Eh. destruct (ls_bucket _ L _ _ Eh) as (H1 & H2 & H3).
    split_and!; [done..| |done]. intros Hin. specialize (H3 id Hin). by rewrite E in H3. }
  destruct (ls_filed _ L _ _ E) as (ids0 & E0 & Hin0). unfold detach_from_height. rewrite E0. cbn [by_height].
  set (ids1 := filter (λ h, h ≠ id) ids0). destruct (ls_bucket _ L _ _ E0) as (_ & Hd0 & Hr0).
  assert (∀ h ids, by_height x !! h = Some ids → h ≠ included_height old → id ∉ ids) as Hother.
  { intros h ids Eh Hne Hin. destruct (ls_bucket _ L _ _ Eh) as (_ & _ & H3). specialize (H3 id Hin). rewrite E in H3.
    injection H3 as H3. done. }
  split.
  - intros h ids. destruct (decide (h = included_height old)) as [->|Hne].
    + case_bool_decide as Hn; [by rewrite lookup_delete_eq|]. rewrite lookup_insert_eq. intros [= <-].
      split_and!; [done|by apply NoDup_filter| |]; intros; unfold ids1 in *; rewrite ?list_elem_of_filter in *; naive_solver.
    + intros Eh. assert (by_height x !! h = Some ids) as Eh'.
      { case_bool_decide; [by rewrite lookup_delete_ne in Eh|by rewrite lookup_insert_ne in Eh]. }
      destruct (ls_bucket _ L _ _ Eh') as (H1 & H2 & H3). eauto.
  - intros i t Hne Ei. destruct (ls_filed _ L _ _ Ei) as (ids & Eh & Hin).
    destruct (decide (included_height t = included_height old)) as [Ht|Ht].
    + rewrite Ht, E0 in Eh. injection Eh as <-. assert (i ∈ ids1) as Hi by (by apply list_elem_of_filter).
      exists ids1. split; [|done]. rewrite Ht. case_bool_decide as Hn; [rewrite Hn in Hi; inversion Hi|]. apply lookup_insert_eq.
    + exists ids. split; [|done]. case_bool_decide; [by rewrite lookup_delete_ne|by rewrite lookup_insert_ne].
Qed.
(** The index with [id] filed anew, before the bounds apply. *)
Definition refiled (x : TxTimingIndex) (id : Hash) (t : TxTiming) : TxTimingIndex :=
  file_at (mkIndex (<[id := t]> (rows x)) (without x id) (retention_blocks x) (max_entries x)) (included_height t) id.
Lemma record_refiled x id t : record x id t = enforce_bounds (refiled x id t) (included_height t).
Proof.
  unfold record, refiled, without. destruct (rows x !! id) as [old|]; [|done].
  unfold detach_from_height. cbn [by_height put_row]. by case_match.
Qed.
Lemma refiled_lockstep x id t : lockstep x → lockstep (refiled x id t).
Proof.
  intros L. destruct (without_spec x id L) as [Hb Hf]. split; cbn [refiled file_at rows by_height].
  - intros i t' [[<- <-]|[Hne E]]%lookup_insert_Some.
    { eexists. rewrite lookup_insert_eq. split; [done|]. set_solver. }
    destruct (Hf i t') as (ids & Eh & Hin); [done..|].
    destruct (decide (included_height t' = included_height t)) as [Ht|Ht].
    + rewrite Ht, lookup_insert_eq. rewrite Ht in Eh. rewrite Eh. eexists. split; [done|]. cbn. set_solver.
    + rewrite lookup_insert_ne by done. eauto.
  - intros h ids [[<- <-]|[Hne Eh]]%lookup_insert_Some.
    + destruct (without x id !! included_height t) as [ids0|] eqn:E0; cbn [default].
      * destruct (Hb _ _ E0) as (H1 & H2 & H3 & H4). split_and!; [by destruct ids0| |].
        { apply NoDup_app. split_and!; [done|set_solver|apply NoDup_singleton]. }
        intros i [Hi| ->%list_elem_of_singleton]%elem_of_app; [|by rewrite lookup_insert_eq].
        rewrite lookup_insert_ne by (intros ->; done). by apply H4.
      * split_and!; [done|apply NoDup_singleton|]. intros i Hi. apply list_elem_of_singleton in Hi as ->.
        by rewrite lookup_insert_eq.
    + destruct (Hb _ _ Eh) as (H1 & H2 & H3 & H4). split_and!; [done..|]. intros i Hi.
      rewrite lookup_insert_ne by (intros ->; done). by apply H4.
Qed.
Lemma remove_lockstep x id : lockstep x →
  lockstep (remove x id).1 ∧ rows (remove x id).1 = delete id (rows x) ∧ limits (remove x id).1 = limits x.
Proof.
  intros L. destruct (without_spec x id L) as [Hb Hf]. unfold remove. unfold without in Hb, Hf.
  destruct (rows x !! id) as [old|] eqn:E; cbn [fst].
  2: { split_and!; [done| |done]. by rewrite delete_id. }
  unfold detach_from_height in *. cbn [by_height] in *. destruct (by_height x !! included_height old); cbn [by_height rows] in *.
  - split_and!; [|done|done]. split; cbn [rows by_height].
    + intros i t [Hne Ei]%lookup_delete_Some. by apply Hf.
    + intros h ids Eh. destruct (Hb _ _ Eh) as (H1 & H2 & H3 & H4). split_and!; [done..|]. intros i Hi.
      rewrite lookup_delete_ne by (intros ->; done). by apply H4.
  - split_and!; [|done|done]. split; cbn [rows by_height].
    + intros i t [Hne Ei]%lookup_delete_Some. by apply Hf.
    + intros h ids Eh. destruct (Hb _ _ Eh) as (H1 & H2 & H3 & H4). split_and!; [done..|]. intros i Hi.
      rewrite lookup_delete_ne by (intros ->; done). by apply H4.
Qed.

Lemma new_lockstep r m : lockstep (with_limits r m).
Proof. split; cbn; intros; by rewrite lookup_empty in *. Qed.

(** ** The file on disk *)

Lemma restore_rows rs : ∀ x, NoDup rs.*1 → lockstep x → (∀ id, id ∈ rs.*1 → rows x !! id = None) →
  lockstep (foldl restore_row x rs) ∧ rows (foldl restore_row x rs) = list_to_map rs ∪ rows x ∧
  limits (foldl restore_row x rs) = limits x.
Proof.
  induction rs as [|[id t] rs IH]; intros x Hd L Hn; cbn [foldl fmap list_fmap fst] in *.
  { split_and!; [done| |done]. cbn. by rewrite (left_id_L ∅ (∪)). }
  apply NoDup_cons in Hd as [Hni Hd]. assert (rows x !! id = None) as En by (apply Hn; left).
  assert (restore_row x (id, t) = refiled x id t) as ->.
  { unfold restore_row, refiled, without. cbn [fst snd]. rewrite En, bool_decide_true by done. done. }
  destruct (IH (refiled x id t) Hd (refiled_lockstep x id t L)) as (L' & Er & El).
  { intros i Hi. cbn [refiled file_at rows]. rewrite lookup_insert_ne by (intros ->; done). apply Hn. by right. }
  split_and!; [done| |done]. rewrite Er. cbn [refiled file_at rows list_to_map fst snd foldr].
  rewrite <- insert_union_l. rewrite <- insert_union_r; [done|]. by apply not_elem_of_list_to_map_1.
Qed.
(** An index that fits the configured bounds survives its snapshot. *)
Lemma restore_snapshot_rows x y : lockstep x → len x ≤ max_entries y →
  (∀ i j t u, rows x !! i = Some t → rows x !! j = Some u → included_height t < included_height u + retention_blocks y) →
  (∀ i t, rows x !! i = Some t → included_height t < u64_max) →
  lockstep (restore y (snapshot x)) ∧ rows (restore y (snapshot x)) = rows x.
Proof.
  intros L Hl Hd Hu. unfold restore. set (e := mkIndex ∅ ∅ _ _).
  assert (snapshot x ≡ₚ map_to_list (rows x)) as Hp by apply merge_sort_Permutation.
  destruct (restore_rows (snapshot x) e) as (L' & Er & El).
  { rewrite Hp. apply NoDup_fst_map_to_list. }
  { split; cbn; intros; by rewrite lookup_empty in *. }
  { done. }
  assert (rows (foldl restore_row e (snapshot x)) = rows x) as Er'.
  { rewrite Er. cbn. rewrite (right_id_L ∅ (∪)).
    assert (NoDup (snapshot x).*1) as Hn by (rewrite Hp; apply NoDup_fst_map_to_list).
    by rewrite (list_to_map_proper (M := gmap Hash) _ _ Hn Hp), list_to_map_to_list. }
  destruct ((λ r : Hash * TxTiming, included_height r.2) <$> snapshot x) as [|h hs] eqn:Eh; [done|].
  set (tip := foldl N.max h hs).
  assert (∃ i t, rows x !! i = Some t ∧ included_height t = tip) as (i & t & Ei & Et).
  { assert (∀ hs h, foldl N.max h hs ∈ h :: hs) as Hmax.
    { clear. induction hs as [|a hs IH]; intros h; cbn [foldl]; [left|]. specialize (IH (N.max h a)).
      destruct (N.max_spec h a) as [[_ E]|[_ E]]; rewrite E in *; set_solver. }
    specialize (Hmax hs h). rewrite <- Eh in Hmax. apply list_elem_of_fmap in Hmax as ([i t] & E & Hin).
    rewrite Hp in Hin. apply elem_of_map_to_list in Hin. by exists i, t. }
  set (z := foldl restore_row e (snapshot x)) in *.
  destruct (enforce_spec z tip L') as (k & L2 & R2 & _ & _ & Hc & Hk).
  assert (limits z = (retention_blocks y, max_entries y)) as Hz by (rewrite El; done). injection Hz as Hz1 Hz2.
  split; [done|]. rewrite R2, Er'. rewrite Er', Hz1, Hz2 in *. apply map_filter_id. intros j u Ej. cbn.
  specialize (Hd _ _ _ _ Ei Ej). specialize (Hu _ _ Ei). unfold saturating_sub, saturating_add in *.
  destruct Hk as [-> |Hk]; [lia|]. exfalso. unfold len in Hl.
  assert (size (from_height (k - 1) (rows x)) ≤ size (rows x))%nat; [|lia].
  apply map_subseteq_size, map_filter_subseteq.
Qed.

(** Recording a row evicts exactly what the bounds require.  What remains is what
    was there, with the row put in, from some height up: at or above the retention
    depth measured from the row's height, within the row limit, and no higher than
    necessary, for keeping one more height would break one of the bounds. *)
Theorem record_evicts_oldest x id t : lockstep x →
  let cutoff := saturating_sub (saturating_add u64_max (included_height t) 1) (retention_blocks x) in
  let kept := <[id := t]> (rows x) in
  lockstep (record x id t) ∧ len (record x id t) ≤ max_entries x ∧
  ∃ k, cutoff ≤ k ∧ rows (record x id t) = from_height k kept ∧
    (k = cutoff ∨ max_entries x < N.of_nat (size (from_height (k - 1) kept))).
Proof.
  intros L cutoff kept. rewrite record_refiled.
  destruct (enforce_spec (refiled x id t) (included_height t) (refiled_lockstep x id t L)) as (k & L' & Er & _ & Hl & Hc & Hk).
  split_and!; [done|exact Hl|]. exists k. done.
Qed.

Module Timing_examples.
Definition a : Hash := Toy.hash_of 1.
Definition b : Hash := Toy.hash_of 2.
(** Room for one row: the second, ten blocks later, replaces the first. *)
Definition one_row : TxTimingIndex := record (with_limits 5 1) a (unobserved 10 0).
Lemma one_row_ok : lockstep one_row.
Proof.
  unfold one_row. rewrite record_refiled. destruct (enforce_spec (refiled (with_limits 5 1) a (unobserved 10 0)) 10) as (k & L & _); [|done].
  apply refiled_lockstep, new_lockstep.
Qed.
Lemma record_evicts_oldest_witness :
  len (record one_row b (observed 3 8 20 9)) ≤ 1 ∧ get (record one_row b (observed 3 8 20 9)) b = Some (observed 3 8 20 9).
Proof.
  split; [|by vm_compute]. apply (record_evicts_oldest one_row b (observed 3 8 20 9) one_row_ok).
Defined.
End Timing_examples.
End TimingSpec.
