(* ===== verification/Node.v ===== *)
(** * The node engine (crates/node/src/node.rs)

    A node owns a chain, a transaction pool and a timing index, and keeps the three in
    step: submissions, mined blocks, blocks from peers, reorganisations.  The outer
    [option] is [None] where the source would panic.  Wall-clock time is an argument,
    read once per operation. *)

From S2P Require Import Prelude Primitives Pow Mining Governance Crypto Compliance Smt Types Block.
From S2P Require Import Gas Vault Ledger ShieldedV2 Execution Verify Chain Produce Mempool Timing.

Module Node.
Import Chain.

Section node.
Context `{CE : ChainEnv}.

(** The characters a value is displayed as. *)
Class Display (E : Type) := display : E → list N.

Inductive NodeError :=
| NMempool (e : Pool.MempoolError)
| NSpentV2 (e : ShieldedV2Error)
| NSuite2FeeFunding (e : ExecutionError)
| NChain (e : ChainError)
| NUnauthorized (account : AccountId)
| NTimestampTooFarInFuture (got now : N).

Record TxRejection := mkRejection { r_tx_id : Hash; r_height : N; r_head : Hash; reason : list N }.
Record t := mkNode {
  chain : Blockchain;
  mempool : Pool.Mempool;
  max_block_txs : nat;
  timing : Timing.TxTimingIndex;
  rejections : list TxRejection }.
Record Produced := mkProduced { p_block : Block; p_receipts : list Receipt }.

Definition with_chain (n : t) (c : Blockchain) : t :=
  mkNode c (mempool n) (max_block_txs n) (timing n) (rejections n).
Definition with_mempool (n : t) (p : Pool.Mempool) : t :=
  mkNode (chain n) p (max_block_txs n) (timing n) (rejections n).
Definition with_timing (n : t) (x : Timing.TxTimingIndex) : t :=
  mkNode (chain n) (mempool n) (max_block_txs n) x (rejections n).

(** [self.chain.ledger().account(a).nonce] and [.balance]. *)
Definition nonce_of (c : Blockchain) (a : AccountId) : N := nonce (account (ledger_ c) a).
Definition balance_of (c : Blockchain) (a : AccountId) : Balance := balance (account (ledger_ c) a).

(** The rules the pool admits under are those of the next block. *)
Definition refresh_mempool_domain (n : t) : option t :=
  let c := chain n in
  top ← height_ c;
  let p := Pool.set_mode (mempool n) (resolved_tx_domain_mode_with c (top + 1) (signals_ c)) in
  let p := Pool.set_suite2_active p (zk_suite2 && shielded_v2_suite2_active_with c (top + 1) (signals_ c)) in
  Some (with_mempool n (Pool.set_chain_height p top)).
Definition new (c : Blockchain) (mempool_capacity : N) (max_block_txs : nat) : option t :=
  refresh_mempool_domain (mkNode c (Pool.new mempool_capacity) max_block_txs Timing.new []).
Definition set_tx_timing_limits (n : t) (retention_blocks max_entries : N) : t :=
  with_timing n (Timing.with_limits retention_blocks max_entries).
Definition set_coinbase (n : t) (a : AccountId) : t := with_chain n (Chain.set_coinbase (chain n) a).
Definition set_checkpoints (n : t) (pins : list (N * Hash)) : t :=
  with_chain n (Chain.set_checkpoints (chain n) pins).
Definition add_checkpoints (n : t) (pins : list (N * Hash)) : option t :=
  c ← Chain.add_checkpoints (chain n) pins; Some (with_chain n c).

(** ** Timing *)

Definition tx_timing (n : t) (id : Hash) : option Timing.TxTiming := Timing.get (timing n) id.
Definition tx_timing_snapshot (n : t) : list (Hash * Timing.TxTiming) := Timing.snapshot (timing n).
Definition restore_tx_timing (n : t) (rs : list (Hash * Timing.TxTiming)) : t :=
  with_timing n (Timing.restore (timing n) rs).

(** READY stamps by id, else the parked region's. *)
Definition first_seen_batch (p : Pool.Mempool) (ids : list Hash) : list (option Pool.FirstSeen) :=
  let parked : gmap Hash Pool.FirstSeen :=
    foldl (λ m e, <[tx_id (Pool.q_stx e.2) :=
                      Pool.mkFirstSeen (Pool.queued_at_ms e.2) (Pool.queued_at_height e.2)]> m)
      ∅ (entries (Pool.queued p)) in
  (λ id, match Pool.inserted_at p !! id with
         | Some t => Some (Pool.mkFirstSeen t (default 0 (Pool.inserted_at_height p !! id)))
         | None => parked !! id
         end) <$> ids.
Definition record_block_timing (n : t) (b : Block) : t :=
  let height := block_height b in
  if negb (bool_decide (block_hash <$> block_by_height (chain n) height = Some (block_hash b))) then n
  else
    let ids := tx_id <$> transactions b in
    let record x (e : Hash * option Pool.FirstSeen) :=
      Timing.record x e.1
        match e.2 with
        | Some s => Timing.observed (Pool.at_ms s) (Pool.at_height s) height (timestamp_ms (header b))
        | None => Timing.unobserved height (timestamp_ms (header b))
        end in
    with_timing n (foldl record (timing n) (zip ids (first_seen_batch (mempool n) ids))).
(** Withdraw the rows of the reverted transactions; the lowest height withdrawn. *)
Fixpoint withdraw (x : Timing.TxTimingIndex) (from : option N) (ids : list Hash) :
    Timing.TxTimingIndex * option N :=
  match ids with
  | [] => (x, from)
  | id :: ids =>
      match Timing.remove x id with
      | (x, Some old) =>
          withdraw x (Some (match from with
                            | Some f => N.min f (Timing.included_height old)
                            | None => Timing.included_height old
                            end)) ids
      | (x, None) => withdraw x from ids
      end
  end.
Definition repair_timing_after_reorg (n : t) (reverted : list SignedTransaction) : option t :=
  if bool_decide (reverted = []) then Some n
  else
    let '(x, from) := withdraw (timing n) None (tx_id <$> reverted) in
    let n := with_timing n x in
    match from with
    | None => Some n
    | Some from =>
        top ← height_ (chain n);
        Some (foldl (λ n i, match block_by_height (chain n) (from + N.of_nat i) with
                            | Some b => record_block_timing n b
                            | None => n
                            end) n (seq 0 (N.to_nat (top + 1 - from))))
    end.

(** ** Submitting *)

Definition next_nonce (n : t) (signer : AccountId) : N :=
  Pool.next_nonce (mempool n) signer (nonce_of (chain n) signer).
(** Who may act for the account, as execution decides it. *)
Definition authorized (l : Ledger) (tx : Transaction) : option bool :=
  match multisig (st l) !! signer_id tx with
  | Some policy =>
      Some (bool_decide (public_key tx ∈ ms_signers policy) &&
            match action tx with Action.MultisigExec _ _ => true | _ => false end)
  | None =>
      match key (account l (signer_id tx)) with
      | Some k => Some (bool_decide (k = public_key tx))
      | None =>
          if is_implicit (signer_id tx) then
            id ← implicit_account_id (public_key tx); Some (bool_decide (id = signer_id tx))
          else Some (match action tx with Action.RotateKey _ _ => true | _ => false end)
      end
  end.
Definition suite2_bundle (a : Action.t) : bool :=
  match a with Action.ShieldedV2 bundle => bool_decide (head bundle = Some 2) | _ => false end.
(** The context in which the funding of a fee is verified. *)
Definition funding_context (c : Blockchain) (top : N) (head : Block) (signer : AccountId) : BlockContext := {|
  height := top + 1;
  prev_hash := block_hash head;
  block_time_ms := timestamp_ms (header head);
  mining := mining_ c;
  gas_price := mp_gas_price (mining_ c);
  miner := signer;
  pq := resolved_pq_with c (top + 1) (signals_ c);
  tx_domain := resolved_tx_domain_mode_with c (top + 1) (signals_ c);
  fee_auction_active := fee_auction_active_with c (top + 1) (signals_ c);
  shielded_v2_active := true;
  shielded_v2_suite2_active := true;
  tx_timestamp_active := tx_timestamp_active_with c (top + 1) (signals_ c);
  chain_domain := chain_domain_ c |}.
(** A wallet that cannot pay the fee of a withdrawal may pay it from the withdrawal. *)
Definition fund_fee (n : t) (top : N) (head : Block) (stx : SignedTransaction) : result NodeError unit :=
  let c := chain n in
  let tx := transaction stx in
  let a := account (ledger_ c) (signer_id tx) in
  let gas := wadd (gas_for (action tx)) (envelope_gas (public_key tx)) in
  fee ← ok_or (checked_mul u128_max gas (mp_gas_price (mining_ c))) (NSuite2FeeFunding Overflow);
  if negb (bool_decide (Bal.checked_sub (balance a) fee = None)) then Ok ()
  else if MAX_SUITE2_TX_WEIGHT <? tx_weight stx then
    Err (NMempool (Pool.TooLarge (tx_weight stx) MAX_SUITE2_TX_WEIGHT))
  else if tx_nonce tx <? nonce a then Err (NMempool (Pool.Stale (nonce a) (tx_nonce tx)))
  else if Pool.contains (mempool n) (tx_id stx) then Err (NMempool Pool.Duplicate)
  else if negb (verify_signature_mode stx (resolved_tx_domain_mode_with c (top + 1) (signals_ c))) then
    Err (NMempool Pool.InvalidSignature)
  else
    effects ← map_err NSuite2FeeFunding
      (verify_direct_suite2_withdrawal_for_fee (action tx) (ledger_ c)
         (funding_context c top head (signer_id tx)) (signer_id tx) (tx_nonce tx) (balance a));
    available ← match effects with
                | Some e => ok_or (Bal.checked_add (balance a) (deshield_out e)) (NSuite2FeeFunding Overflow)
                | None => Ok (balance a)
                end;
    match Bal.checked_sub available fee with
    | None => Err (NSuite2FeeFunding (CannotAffordFee (signer_id tx)))
    | Some _ => Ok ()
    end.
Definition submit (n : t) (stx : SignedTransaction) (now : N) :
    option (t * result NodeError Pool.Admission) :=
  let c := chain n in
  let tx := transaction stx in
  ok ← authorized (ledger_ c) tx;
  if negb ok then Some (n, Err (NUnauthorized (signer_id tx)))
  else
    match reject_spent_inputs (action tx) (ledger_ c) with
    | Err e => Some (n, Err (NSpentV2 e))
    | Ok _ =>
        top ← height_ c;
        head ← head_block c;
        let funded :=
          if zk_suite2 && shielded_v2_active_with c (top + 1) (signals_ c) &&
             shielded_v2_suite2_active_with c (top + 1) (signals_ c) && suite2_bundle (action tx)
          then fund_fee n top head stx else Ok () in
        match funded with
        | Err e => Some (n, Err e)
        | Ok _ =>
            '(p, r) ← Pool.insert (mempool n) stx (nonce_of c (signer_id tx)) (balance_of c (signer_id tx)) now;
            Some (with_mempool n p, map_err NMempool r)
        end
    end.

(** ** Rejections *)

Definition MAX_REJECTIONS : nat := 4096.
Definition reject_tx (n : t) (id : Hash) (why : list N) : option t :=
  let p := (Pool.remove_pending (mempool n) id).1 in
  top ← height_ (chain n);
  head ← head_block (chain n);
  let rs := filter (λ r, r_tx_id r ≠ id) (rejections n) ++ [mkRejection id top (block_hash head) (take 512 why)] in
  Some (mkNode (chain n) p (max_block_txs n) (timing n) (drop (length rs - MAX_REJECTIONS) rs)).
Definition tx_rejection (n : t) (id : Hash) : option TxRejection :=
  snd <$> list_find (λ r, r_tx_id r = id) (reverse (rejections n)).
Definition restore_rejections (n : t) (rs : list TxRejection) : t :=
  mkNode (chain n) (mempool n) (max_block_txs n) (timing n)
    (reverse ((λ r, mkRejection (r_tx_id r) (r_height r) (r_head r) (take 512 (reason r))) <$>
       take MAX_REJECTIONS (reverse rs))).

Definition pending_status (n : t) (id : Hash) : option (SignedTransaction * bool) :=
  Pool.transaction_status (mempool n) id (nonce_of (chain n)).
Definition reject_all (n : t) (ids : list (Hash * list N)) : option t :=
  foldl (λ acc e, n ← acc; reject_tx n e.1 e.2) (Some n) ids.
(** All pending transactions; the READY region's order is that of a hash map, taken
    here as the order of ids. *)
Definition pending (p : Pool.Mempool) : list SignedTransaction :=
  (snd <$> entries (Pool.by_id p)) ++ ((λ e, Pool.q_stx e.2) <$> entries (Pool.queued p)).
Definition prune_spent_v2 `{Display ShieldedV2Error} (n : t) : option t :=
  reject_all n
    (omap (λ stx, match reject_spent_inputs (action (transaction stx)) (ledger_ (chain n)) with
                  | Err e => Some (tx_id stx, string_bytes "shielded-v2: " ++ display e)
                  | Ok _ => None
                  end) (pending (mempool n))).
Definition restore_mempool `{Display NodeError} (n : t) (txs : list SignedTransaction) (now : N) : option t :=
  foldl (λ acc stx,
    n ← acc;
    '(n, r) ← submit n stx now;
    match r with
    | Ok _ => Some n
    | Err e => reject_tx n (tx_id stx) (display e)
    end) (Some n) txs.

(** ** Blocks *)

Definition batch (n : t) : option (list SignedTransaction) :=
  Pool.select (mempool n) (nonce_of (chain n)) (max_block_txs n).
Definition build_candidate (n : t) (ts : N) :
    option (result NodeError (Produce.MiningCandidate * list (SignedTransaction * ExecutionError))) :=
  txs ← batch n; r ← Produce.build_candidate (chain n) txs ts; Some (map_err NChain r).
Definition build_candidate_for (n : t) (ts : N) (coinbase : AccountId) :
    option (result NodeError (Produce.MiningCandidate * list (SignedTransaction * ExecutionError))) :=
  txs ← batch n; r ← Produce.build_candidate_for (chain n) txs ts coinbase; Some (map_err NChain r).
Definition drop_tx (n : t) (id : Hash) : t := with_mempool n (Pool.remove (mempool n) id).1.

(** Whether an import made [b] part of the active chain. *)
Definition joined (c : Blockchain) (old_head : Hash) (b : Block) : option bool :=
  head ← head_block c;
  Some (negb (bool_decide (block_hash head = old_head)) &&
        bool_decide (block_hash <$> block_by_height c (block_height b) = Some (block_hash b))).
Definition forget_block (n : t) (b : Block) : t :=
  with_mempool n (foldl (λ p stx, (Pool.remove p (tx_id stx)).1) (mempool n) (transactions b)).
(** Transactions of the blocks a reorganisation dropped come back; refusals are ignored. *)
Definition readmit (n : t) (reverted : list SignedTransaction) (now : N) : option t :=
  p ← foldl (λ acc stx,
        p ← acc;
        '(p, _) ← Pool.insert p stx (nonce_of (chain n) (signer_id (transaction stx)))
                    (balance_of (chain n) (signer_id (transaction stx))) now;
        Some p) (Some (mempool n)) reverted;
  Some (with_mempool n p).
Definition settle_pool (n : t) (now : N) : option t :=
  p ← Pool.prune (mempool n) (nonce_of (chain n)) (balance_of (chain n)) now;
  Some (with_mempool n (Pool.evict_stranded p (nonce_of (chain n)) Pool.STRANDED_TTL_MS now).1).

Definition commit_mined `{Display ShieldedV2Error} (n : t) (b : Block) (now : N) :
    option (t * result NodeError Produced) :=
  old_head ← head_block (chain n);
  '(c, r) ← import_block_tracked (chain n) b;
  let n := with_chain n c in
  match r with
  | Err e => Some (n, Err (NChain e))
  | Ok imported =>
      let produced := Ok (mkProduced b (im_receipts imported)) in
      active ← joined c (block_hash old_head) b;
      if negb active then Some (n, produced)
      else
        n ← repair_timing_after_reorg n (im_reverted_txs imported);
        let n := forget_block (record_block_timing n b) b in
        n ← refresh_mempool_domain n;
        n ← readmit n (im_reverted_txs imported) now;
        n ← settle_pool n now;
        n ← prune_spent_v2 n;
        Some (n, produced)
  end.
Definition MAX_FUTURE_DRIFT_MS : N := 2 * 60 * 60 * 1000.
Definition import_block `{Display ShieldedV2Error} (n : t) (b : Block) (now : N) :
    option (t * result NodeError (list Receipt)) :=
  if saturating_add u64_max now MAX_FUTURE_DRIFT_MS <? timestamp_ms (header b) then
    Some (n, Err (NTimestampTooFarInFuture (timestamp_ms (header b)) now))
  else
    old_head ← head_block (chain n);
    '(c, r) ← import_block_tracked (chain n) b;
    let n := with_chain n c in
    match r with
    | Err e => Some (n, Err (NChain e))
    | Ok imported =>
        active ← joined c (block_hash old_head) b;
        if negb active then Some (n, Ok (im_receipts imported))
        else
          n ← repair_timing_after_reorg n (im_reverted_txs imported);
          let n := record_block_timing n b in
          n ← refresh_mempool_domain n;
          let n := forget_block n b in
          n ← readmit n (im_reverted_txs imported) now;
          n ← settle_pool n now;
          n ← prune_spent_v2 n;
          Some (n, Ok (im_receipts imported))
    end.
Definition produce `{Display ShieldedV2Error} (n : t) (ts now : N) : option (t * result NodeError Produced) :=
  r ← build_candidate n ts;
  match r with
  | Err e => Some (n, Err e)
  | Ok (candidate, _) =>
      match Produce.into_sealed_block candidate with
      | Err e => Some (n, Err (NChain e))
      | Ok b => commit_mined n b now
      end
  end.
Definition account_nonce (n : t) (a : AccountId) : N := nonce_of (chain n) a.
End node.
End Node.
