(* ===== verification/NodeInv.v ===== *)
(** * The node keeps its parts in step (crates/node/src/node.rs)

    [node_ok]: the chain is one its genesis configuration can reach, the READY pool
    holds nothing the chain's ledger has passed and nothing it cannot pay, the pool
    admits under the rules of the next block, and the timing index and the list of
    rejections are within their bounds.  Every operation of a node preserves it. *)

From S2P Require Import Prelude Primitives Pow Mining Governance Crypto Compliance Smt Types Block.
From S2P Require Import Gas Vault Ledger ShieldedV2 Execution Verify Chain ChainReplay ChainInv ChainImport ChainSafety.
From S2P Require Import Produce Mempool MempoolInv MempoolAdmit MempoolFresh Timing TimingSpec Node.

Module NodeInv.
Import Chain ChainReplay ChainInv ChainImport ChainSafety Node.

Section inv.
Context `{CE : ChainEnv} `{UP : !UntornPools} `{Display ShieldedV2Error} `{Display NodeError}.
Context (g : GenesisConfig) (Hg : config_wf g).
Implicit Types (n : Node.t) (c : Blockchain) (b : Block) (x : Timing.TxTimingIndex).

(** ** What a node reads of its chain *)

(** Two chains with the same active blocks and the same state. *)
Definition agrees c c' : Prop :=
  rules c' = rules c ∧ blocks c' = blocks c ∧ signals_ c' = signals_ c ∧ st (ledger_ c') = st (ledger_ c).
Lemma view_agrees c c' : view c' = view c → agrees c c'.
Proof.
  intros Hv. split_and!; [|exact (f_equal (λ v, v.1.1.1.2) Hv)|exact (f_equal (λ v, v.1.2) Hv)|exact (f_equal (λ v, v.1.1.2) Hv)].
  exact (proj1 (fixed_rules _ _ (f_equal (λ v, v.1.1.1.1.1) Hv))).
Qed.
Lemma core_agrees c c' : core c' = core c → agrees c c'.
Proof.
  intros E. split_and!; [exact (f_equal (λ v, v.1.1.1.1.1.1.1.1) E)|exact (f_equal (λ v, v.1.1.1.1.1.2) E)|
    exact (f_equal (λ v, v.1.1.2) E)|exact (f_equal (λ v, v.1.1.1.1.2) E)].
Qed.

(** The rules of the block after the top, as [refresh_mempool_domain] hands them over. *)
Definition next_rules c : option (TxDomainMode * bool * N) :=
  top ← height_ c;
  Some (resolved_tx_domain_mode_with c (top + 1) (signals_ c),
        zk_suite2 && shielded_v2_suite2_active_with c (top + 1) (signals_ c), top).
Lemma agrees_rules c c' : agrees c c' → next_rules c' = next_rules c.
Proof.
  intros (Er & Eb & Es & _). unfold next_rules, height_, head_block. rewrite Eb, Es.
  unfold rules in Er. injection Er as H1 H2 H3 H4 H5 H6 H7 H8 H9 H10 H11 H12.
  unfold resolved_tx_domain_mode_with, shielded_v2_suite2_active_with, shielded_v2_active_with,
    tx_domain_activation_with, chain_domain_. by rewrite H1, H4, H6, H7, H9, H10, H11.
Qed.
Lemma agrees_accounts c c' : agrees c c' →
  (∀ a, nonce_of c' a = nonce_of c a) ∧ (∀ a, balance_of c' a = balance_of c a).
Proof. intros (_ & _ & _ & Es). unfold nonce_of, balance_of, account. by rewrite Es. Qed.

(** An import that leaves the active chain alone is the only one that does not join. *)
Lemma joined_spec c b c' im old rss :
  chain_ok c rss → import_block_tracked c b = Some (c', Ok im) → head_block c = Some old →
  joined c' (block_hash old) b = Some false → agrees c c'.
Proof.
  intros OK E Hold. destruct (import_ok _ _ _ _ _ OK E) as ((rss' & OK') & Er & Ho).
  inversion Ho as [_ ->|er Hn Hv|cand Hn _ Hv|cand im' Hn _ Hi Hh]; subst; [done|..].
  { intros _. apply view_agrees in Hv. exact Hv. }
  unfold joined, head_block. pose proof (ok_head _ _ OK') as Eh. destruct (last (blocks c')) as [hb|] eqn:El; [|done].
  injection Eh as Eh. cbn [mbind option_bind]. rewrite Hh in Eh.
  pose proof (ok_live _ _ OK') as [L' _]. pose proof (ok_live _ _ OK) as [L _].
  rewrite (bool_decide_false (block_hash hb = block_hash old)).
  2:{ intros Ho'. unfold head_block in Hold. apply last_Some_elem_of in Hold.
      destruct (replayed_indexed _ _ _ _ _ _ _ L old Hold) as (e & He & _). congruence. }
  rewrite last_lookup in El. destruct (replayed_heights _ _ _ _ _ _ _ L' _ _ El) as [Hht (e & He & Ee)].
  rewrite Eh, Hi, lookup_insert_eq in He. injection He as <-. cbn in Ee. subst hb.
  unfold block_by_height. rewrite Hht, Nat2N.id, El. cbn. by rewrite bool_decide_true.
Qed.

(** ** The timing index *)

Definition timing_ok x : Prop := TimingSpec.lockstep x ∧ Timing.len x ≤ Timing.max_entries x.

Lemma enforce_ok x tip : TimingSpec.lockstep x → timing_ok (Timing.enforce_bounds x tip).
Proof.
  intros L. destruct (TimingSpec.enforce_spec x tip L) as (k & L' & _ & El & Hl & _). split; [done|].
  assert (Timing.max_entries (Timing.enforce_bounds x tip) = Timing.max_entries x) as -> by exact (f_equal snd El). done.
Qed.
Lemma record_timing_ok x id t : timing_ok x → timing_ok (Timing.record x id t).
Proof. intros [L _]. rewrite TimingSpec.record_refiled. by apply enforce_ok, TimingSpec.refiled_lockstep. Qed.
Lemma remove_timing_ok x id : timing_ok x → timing_ok (Timing.remove x id).1.
Proof.
  intros [L Hl]. destruct (TimingSpec.remove_lockstep x id L) as (L' & Er & El). split; [done|].
  assert (Timing.max_entries (Timing.remove x id).1 = Timing.max_entries x) as -> by exact (f_equal snd El).
  unfold Timing.len in *. rewrite Er. pose proof (map_subseteq_size _ _ (delete_subseteq (Timing.rows x) id)). lia.
Qed.
Lemma limits_timing_ok r m : timing_ok (Timing.with_limits r m).
Proof. split; [apply TimingSpec.new_lockstep|]. unfold Timing.len. cbn. rewrite map_size_empty. lia. Qed.
Lemma restore_timing_ok x rs : NoDup rs.*1 → timing_ok (Timing.restore x rs).
Proof.
  intros Hd. unfold Timing.restore. set (e := Timing.mkIndex ∅ ∅ _ _).
  assert (TimingSpec.lockstep e) as Le by (split; cbn; intros; by rewrite lookup_empty in *).
  destruct (TimingSpec.restore_rows rs e Hd Le) as (L & _ & _); [done|].
  destruct rs as [|r rs]; cbn [fmap list_fmap]; [|by apply enforce_ok].
  split; [done|]. unfold Timing.len. cbn. rewrite map_size_empty. lia.
Qed.
Lemma withdraw_ok ids : ∀ x from, timing_ok x → timing_ok (withdraw x from ids).1.
Proof.
  induction ids as [|id ids IH]; intros x from Hx; [done|]. cbn [withdraw].
  pose proof (remove_timing_ok x id Hx) as Hr. destruct (Timing.remove x id) as [x' [old|]]; by apply IH.
Qed.

(** ** The invariant *)

Record node_ok n : Prop := {
  no_chain : reachable g (chain n);
  no_pool : PoolFresh.sound (nonce_of (chain n)) (balance_of (chain n)) (mempool n);
  no_rules : next_rules (chain n) = Some (PoolFresh.settings (mempool n));
  no_timing : timing_ok (timing n);
  no_rejections : (length (rejections n) ≤ MAX_REJECTIONS)%nat }.

(** Between a change of the head and [settle_pool] the pool is only well formed. *)
Record unsettled n : Prop := {
  un_chain : reachable g (chain n);
  un_pool : PoolInv.pool_ok (mempool n);
  un_timing : timing_ok (timing n);
  un_rejections : (length (rejections n) ≤ MAX_REJECTIONS)%nat }.

Lemma with_mempool_ok n p : node_ok n → PoolFresh.sound (nonce_of (chain n)) (balance_of (chain n)) p →
  PoolFresh.settings p = PoolFresh.settings (mempool n) → node_ok (with_mempool n p).
Proof. intros [H1 H2 H3 H4 H5] S E. split; cbn; [done..|by rewrite E|done|done]. Qed.
Lemma with_timing_ok n x : node_ok n → timing_ok x → node_ok (with_timing n x).
Proof. by intros [] ?. Qed.
Lemma with_chain_ok n c' : node_ok n → reachable g c' → agrees (chain n) c' → node_ok (with_chain n c').
Proof.
  intros [H1 H2 H3 H4 H5] R A. destruct (agrees_accounts _ _ A) as [En Eb].
  split; cbn; [done| |by rewrite (agrees_rules _ _ A)|done|done].
  destruct H2 as (P & F & G). split_and!; [done|..].
  - intros slot id E. rewrite En. by eapply F.
  - intros s. rewrite Eb. apply G.
Qed.

Lemma reachable_step c c' : reachable g c → chain_step c c' → reachable g c'.
Proof. intros (c0 & c1 & E1 & E2 & E3) Hs. exists c0, c1. split_and!; [done|done|]. by eapply rtc_r. Qed.

(** ** Operations on the pool *)

Lemma new_ok c cap k n : reachable g c → new c cap k = Some n → node_ok n.
Proof.
  intros R E. unfold new, refresh_mempool_domain in E. cbn [chain mempool] in E.
  destruct (height_ c) as [top|] eqn:Et; [|done]. cbn [mbind option_bind] in E. injection E as <-.
  split; cbn; [done| |by unfold next_rules; rewrite Et|apply limits_timing_ok|lia].
  assert (∀ m s2 h, PoolInv.pool_ok (Pool.set_chain_height (Pool.set_suite2_active (Pool.set_mode (Pool.new cap) m) s2) h)) as P.
  { intros. eapply PoolInv.reconfigured; [apply PoolInv.with_limits_ok|reflexivity..]. }
  split_and!; [apply P|done|]. intros s _. rewrite PoolAdmit.pending_outflow_eq. unfold PoolAdmit.pend, PoolAdmit.own_slots. cbn.
  rewrite map_filter_empty, map_sum_empty. lia.
Qed.
Lemma submit_node_ok n stx now n' r : node_ok n → submit n stx now = Some (n', r) → node_ok n'.
Proof.
  intros N E. unfold submit in E. destruct (authorized _ _) as [ok|]; [|done]. cbn [mbind option_bind] in E.
  destruct ok; cbn [negb] in E; [|by injection E as <- _]. destruct (reject_spent_inputs _ _); [|by injection E as <- _].
  destruct (height_ _) as [top|]; [|done]. cbn [mbind option_bind] in E.
  destruct (head_block _) as [head|]; [|done]. cbn [mbind option_bind] in E.
  match type of E with match ?f with _ => _ end = _ => destruct f end; [|by injection E as <- _].
  destruct (Pool.insert _ _ _ _ _) as [[p r']|] eqn:Ei; [|done]. cbn [mbind option_bind] in E. injection E as <- _.
  apply with_mempool_ok; [done|by eapply PoolFresh.insert_sound, Ei; apply N|by eapply PoolFresh.insert_settings].
Qed.
Lemma trims_node_ok n p : node_ok n → PoolInv.trims (mempool n) p →
  PoolFresh.settings p = PoolFresh.settings (mempool n) → node_ok (with_mempool n p).
Proof. intros N T E. apply with_mempool_ok; [done| |done]. by eapply PoolFresh.trims_sound; [|apply N]. Qed.
Lemma drop_tx_ok n id : node_ok n → node_ok (drop_tx n id).
Proof. intros N. apply trims_node_ok; [done|apply PoolInv.remove_trims|apply PoolFresh.remove_settings]. Qed.
Lemma reject_tx_ok n id why n' : node_ok n → reject_tx n id why = Some n' → node_ok n'.
Proof.
  intros N E. unfold reject_tx in E. destruct (height_ _) as [top|]; [|done]. cbn [mbind option_bind] in E.
  destruct (head_block _) as [head|]; [|done]. cbn [mbind option_bind] in E.
  pose proof (trims_node_ok n (Pool.remove_pending (mempool n) id).1 N (PoolInv.remove_pending_trims _ _)
    (PoolFresh.remove_pending_settings _ _)) as [H1 H2 H3 H4 H5]. cbn [chain mempool timing with_mempool] in *.
  injection E as <-. split; cbn [chain mempool timing rejections]; try done. rewrite length_drop. lia.
Qed.
Lemma reject_all_ok ids : ∀ n n', node_ok n → reject_all n ids = Some n' → node_ok n'.
Proof.
  unfold reject_all. induction ids as [|e ids IH]; intros n n' N E; [by injection E as <-|]. cbn [foldl mbind option_bind] in E.
  destruct (reject_tx n e.1 e.2) as [n1|] eqn:Er; [by eapply IH; [eapply reject_tx_ok|]|].
  exfalso. clear -E. induction ids as [|y ids IH]; [done|by apply IH].
Qed.
Lemma restore_mempool_ok txs now : ∀ n n', node_ok n → restore_mempool n txs now = Some n' → node_ok n'.
Proof.
  unfold restore_mempool. induction txs as [|stx txs IH]; intros n n' N E; [by injection E as <-|]. cbn [foldl mbind option_bind] in E.
  match type of E with foldl _ ?x _ = _ => destruct x as [n1|] eqn:E1 end.
  - eapply IH, E. destruct (submit n stx now) as [[n2 r]|] eqn:Es; [|done]. cbn [mbind option_bind] in E1.
    apply submit_node_ok in Es; [|done]. destruct r; [by injection E1 as <-|by eapply reject_tx_ok].
  - exfalso. clear -E. induction txs as [|y txs IH]; [done|by apply IH].
Qed.

(** ** A change of the head *)

Lemma record_block_timing_parts n b : let n' := record_block_timing n b in
  chain n' = chain n ∧ mempool n' = mempool n ∧ rejections n' = rejections n ∧ (timing_ok (timing n) → timing_ok (timing n')).
Proof.
  unfold record_block_timing. destruct (negb _); [done|]. cbn. split_and!; try done.
  generalize (zip (tx_id <$> transactions b) (first_seen_batch (mempool n) (tx_id <$> transactions b))). intros l.
  generalize (timing n). induction l as [|e l IH]; intros x Hx; [done|]. cbn [foldl]. by apply IH, record_timing_ok.
Qed.
Lemma record_block_timing_unsettled n b : unsettled n → unsettled (record_block_timing n b).
Proof.
  destruct (record_block_timing_parts n b) as (E1 & E2 & E3 & Ht). intros [H1 H2 H3 H4].
  split; rewrite ?E1, ?E2, ?E3; auto.
Qed.
Lemma repair_unsettled n reverted n' : unsettled n → repair_timing_after_reorg n reverted = Some n' →
  unsettled n' ∧ chain n' = chain n.
Proof.
  intros U. unfold repair_timing_after_reorg. destruct (bool_decide _); [by intros [= <-]|].
  pose proof (withdraw_ok (tx_id <$> reverted) (timing n) None (un_timing _ U)) as Hw.
  destruct (withdraw _ _ _) as [x from]. cbn [fst] in Hw.
  assert (unsettled (with_timing n x)) as U1 by (by destruct U).
  destruct from as [from|]; [|by intros [= <-]]. destruct (height_ _) as [top|]; [|done]. cbn [mbind option_bind]. intros [= <-].
  change (chain n) with (chain (with_timing n x)). generalize dependent (with_timing n x). clear U Hw.
  induction (seq 0 (N.to_nat (top + 1 - from))) as [|i l IH]; intros m U; [done|]. cbn [foldl].
  destruct (block_by_height (chain m) _) as [b|]; [|by apply IH].
  destruct (IH _ (record_block_timing_unsettled m b U)) as [U' Ec]. split; [done|].
  rewrite Ec. apply record_block_timing_parts.
Qed.
Lemma forget_block_unsettled n b : unsettled n → unsettled (forget_block n b) ∧ chain (forget_block n b) = chain n ∧
  PoolFresh.settings (mempool (forget_block n b)) = PoolFresh.settings (mempool n).
Proof.
  intros [H1 H2 H3 H4]. unfold forget_block. split_and!; [split; cbn; try done|done|].
  - eapply PoolInv.trims_ok; [|exact H2]. apply PoolInv.foldl_trims. intros. apply PoolInv.remove_trims.
  - apply (PoolFresh.foldl_settings (λ p stx, (Pool.remove p (tx_id stx)).1)). intros. apply PoolFresh.remove_settings.
Qed.
Lemma refresh_unsettled n n' : unsettled n → refresh_mempool_domain n = Some n' →
  unsettled n' ∧ chain n' = chain n ∧ next_rules (chain n') = Some (PoolFresh.settings (mempool n')).
Proof.
  intros [H1 H2 H3 H4] E. unfold refresh_mempool_domain in E. destruct (height_ (chain n)) as [top|] eqn:Et; [|done].
  cbn [mbind option_bind] in E. injection E as <-. split_and!; [split; cbn; try done|done|by cbn; unfold next_rules; rewrite Et].
  by eapply PoolInv.reconfigured.
Qed.
Lemma readmit_unsettled n reverted now n' : unsettled n → readmit n reverted now = Some n' →
  unsettled n' ∧ chain n' = chain n ∧ PoolFresh.settings (mempool n') = PoolFresh.settings (mempool n).
Proof.
  intros [H1 H2 H3 H4]. unfold readmit. intros E.
  match type of E with mbind _ ?x = _ => destruct x as [p|] eqn:Ep end; [|done]. cbn [mbind option_bind] in E. injection E as <-.
  assert (PoolInv.pool_ok p ∧ PoolFresh.settings p = PoolFresh.settings (mempool n)) as [P E]; [|by split_and!; [split|..]].
  clear H3 H4. revert H2 Ep. generalize (mempool n). induction reverted as [|stx l IH]; intros q P Ep; [by injection Ep as <-|].
  cbn [foldl mbind option_bind] in Ep. match type of Ep with context [Pool.insert q stx ?u ?v now] =>
    destruct (PoolInv.insert_ok q stx u v now P) as (q1 & r & Ei & P1) end.
  rewrite Ei in Ep. cbn [mbind option_bind] in Ep. apply PoolFresh.insert_settings in Ei. rewrite <- Ei. by apply IH.
Qed.
Lemma settle_pool_ok n now n' : unsettled n → next_rules (chain n) = Some (PoolFresh.settings (mempool n)) →
  settle_pool n now = Some n' → node_ok n'.
Proof.
  intros [H1 H2 H3 H4] Hr E. unfold settle_pool in E. destruct (Pool.prune _ _ _ _) as [p|] eqn:Ep; [|done].
  cbn [mbind option_bind] in E. injection E as <-. split; cbn [with_mempool chain mempool timing rejections]; try done.
  - eapply PoolFresh.trims_sound; [apply PoolInv.evict_stranded_trims|]. by eapply PoolFresh.prune_sound.
  - rewrite PoolFresh.retain_settings, PoolFresh.remove_all_settings. by rewrite (PoolFresh.prune_settings _ _ _ _ _ Ep).
Qed.
(** The steps after a block joined: the two callers differ in where they refresh. *)
Lemma resettle_ok n reverted now n1 n2 n3 : unsettled n →
  next_rules (chain n) = Some (PoolFresh.settings (mempool n)) →
  readmit n reverted now = Some n1 → settle_pool n1 now = Some n2 → prune_spent_v2 n2 = Some n3 → node_ok n3.
Proof.
  intros U Hr E1 E2 E3. destruct (readmit_unsettled _ _ _ _ U E1) as (U1 & Ec & Es).
  eapply reject_all_ok, E3. eapply settle_pool_ok, E2; [done|]. by rewrite Ec, Es.
Qed.

(** The chain step of an import, whatever it returns. *)
Lemma imported_node n b c r : node_ok n → import_block_tracked (chain n) b = Some (c, r) →
  unsettled (with_chain n c) ∧
  match r with
  | Err _ => node_ok (with_chain n c)
  | Ok _ => ∀ old, head_block (chain n) = Some old → joined c (block_hash old) b = Some false → node_ok (with_chain n c)
  end.
Proof.
  intros N E. destruct (reachable_ok _ _ Hg (no_chain _ N)) as (rss & OK).
  pose proof (reachable_step _ _ (no_chain _ N) (st_import _ _ _ _ E)) as R. split.
  { destruct N as [H1 [H2 _] H3 H4 H5]. by split. }
  destruct r as [im|er].
  - intros old Ho Hj. apply with_chain_ok; [done..|]. by eapply joined_spec.
  - apply with_chain_ok; [done..|]. destruct (import_ok _ _ _ _ _ OK E) as (_ & _ & Hout).
    inversion Hout as [|er' Hn Hv| |]. by apply view_agrees.
Qed.
Lemma commit_mined_ok n b now n' r : node_ok n → commit_mined n b now = Some (n', r) → node_ok n'.
Proof.
  intros N E. unfold commit_mined in E. destruct (head_block (chain n)) as [old|] eqn:Eo; [|done]. cbn [mbind option_bind] in E.
  destruct (import_block_tracked (chain n) b) as [[c [im|er]]|] eqn:Ei; [| |done]; cbn [mbind option_bind] in E;
    destruct (imported_node _ _ _ _ N Ei) as [U Hn]; [|by injection E as <- _].
  destruct (joined c (block_hash old) b) as [[]|] eqn:Ej; [| |done]; cbn [mbind option_bind negb] in E;
    [|injection E as <- _; by apply (Hn old)]. clear Hn.
  destruct (repair_timing_after_reorg _ _) as [n1|] eqn:E1; [|done]. cbn [mbind option_bind] in E.
  apply repair_unsettled in E1 as [U1 _]; [|done]. apply (record_block_timing_unsettled _ b), (forget_block_unsettled _ b) in U1 as (U2 & _ & _).
  destruct (refresh_mempool_domain _) as [n2|] eqn:E2; [|done]. cbn [mbind option_bind] in E.
  apply refresh_unsettled in E2 as (U3 & _ & Hr); [|done].
  destruct (readmit n2 _ _) as [n3|] eqn:E3; [|done]. cbn [mbind option_bind] in E.
  destruct (settle_pool n3 now) as [n4|] eqn:E4; [|done]. cbn [mbind option_bind] in E.
  destruct (prune_spent_v2 n4) as [n5|] eqn:E5; [|done]. cbn [mbind option_bind] in E. injection E as <- _.
  exact (resettle_ok _ _ _ _ _ _ U3 Hr E3 E4 E5).
Qed.
Lemma import_block_ok n b now n' r : node_ok n → import_block n b now = Some (n', r) → node_ok n'.
Proof.
  intros N E. unfold import_block in E. destruct (_ <? _); [by injection E as <- _|].
  destruct (head_block (chain n)) as [old|] eqn:Eo; [|done]. cbn [mbind option_bind] in E.
  destruct (import_block_tracked (chain n) b) as [[c [im|er]]|] eqn:Ei; [| |done]; cbn [mbind option_bind] in E;
    destruct (imported_node _ _ _ _ N Ei) as [U Hn]; [|by injection E as <- _].
  destruct (joined c (block_hash old) b) as [[]|] eqn:Ej; [| |done]; cbn [mbind option_bind negb] in E;
    [|injection E as <- _; by apply (Hn old)]. clear Hn.
  destruct (repair_timing_after_reorg _ _) as [n1|] eqn:E1; [|done]. cbn [mbind option_bind] in E.
  apply repair_unsettled in E1 as [U1 _]; [|done]. apply (record_block_timing_unsettled _ b) in U1.
  destruct (refresh_mempool_domain _) as [n2|] eqn:E2; [|done]. cbn [mbind option_bind] in E.
  apply refresh_unsettled in E2 as (U2 & _ & Hr); [|done]. apply (forget_block_unsettled _ b) in U2 as (U3 & Ec & Es).
  rewrite <- Ec, <- Es in Hr.
  destruct (readmit _ _ _) as [n3|] eqn:E3; [|done]. cbn [mbind option_bind] in E.
  destruct (settle_pool n3 now) as [n4|] eqn:E4; [|done]. cbn [mbind option_bind] in E.
  destruct (prune_spent_v2 n4) as [n5|] eqn:E5; [|done]. cbn [mbind option_bind] in E. injection E as <- _.
  exact (resettle_ok _ _ _ _ _ _ U3 Hr E3 E4 E5).
Qed.
Lemma produce_ok n ts now n' r : node_ok n → produce n ts now = Some (n', r) → node_ok n'.
Proof.
  intros N. unfold produce. destruct (build_candidate n ts) as [[[m dropped]|]|]; cbn [mbind option_bind]; [|by intros [= <- _]|done].
  generalize (Produce.into_sealed_block m). intros [b|er] E; [exact (commit_mined_ok _ _ _ _ _ N E)|by injection E as <- _].
Qed.

(** ** Every operation of a node *)

Inductive node_step : Node.t → Node.t → Prop :=
| ns_submit n stx now n' r : submit n stx now = Some (n', r) → node_step n n'
| ns_commit n b now n' r : commit_mined n b now = Some (n', r) → node_step n n'
| ns_import n b now n' r : import_block n b now = Some (n', r) → node_step n n'
| ns_produce n ts now n' r : produce n ts now = Some (n', r) → node_step n n'
| ns_reject n id why n' : reject_tx n id why = Some n' → node_step n n'
| ns_drop n id : node_step n (drop_tx n id)
| ns_spent n n' : prune_spent_v2 n = Some n' → node_step n n'
| ns_pool n txs now n' : restore_mempool n txs now = Some n' → node_step n n'
| ns_rejections n rs : node_step n (restore_rejections n rs)
| ns_timing n rs : NoDup rs.*1 → node_step n (restore_tx_timing n rs)
| ns_limits n r m : node_step n (set_tx_timing_limits n r m)
| ns_coinbase n a : node_step n (set_coinbase n a)
| ns_pins n pins : node_step n (set_checkpoints n pins)
| ns_add n pins n' : add_checkpoints n pins = Some n' → node_step n n'
| ns_extend n hs c r : extend_checkpoint_linkage (chain n) hs = (c, r) → node_step n (with_chain n c).

Lemma configured_ok n c : node_ok n → chain_step (chain n) c → core c = core (chain n) → node_ok (with_chain n c).
Proof. intros N Hs E. apply with_chain_ok; [done|by eapply reachable_step; [apply N|]|by apply core_agrees]. Qed.
Lemma node_step_ok n n' : node_step n n' → node_ok n → node_ok n'.
Proof.
  destruct 1 as [n stx now n' r E|n b now n' r E|n b now n' r E|n ts now n' r E|n id why n' E|n id|n n' E|n txs now n' E|n rs|n rs Hd
    |n r m|n a|n pins|n pins n' E|n hs c r E]; intros N.
  - by eapply submit_node_ok.
  - by eapply commit_mined_ok.
  - by eapply import_block_ok.
  - by eapply produce_ok.
  - by eapply reject_tx_ok.
  - by apply drop_tx_ok.
  - by eapply reject_all_ok.
  - by eapply restore_mempool_ok.
  - destruct N as [H1 H2 H3 H4 H5]. split; cbn [restore_rejections chain mempool timing rejections]; try done.
    rewrite length_reverse, length_fmap, length_take. lia.
  - by apply with_timing_ok; [|apply restore_timing_ok].
  - by apply with_timing_ok; [|apply limits_timing_ok].
  - by apply configured_ok; [|apply st_coinbase|].
  - by apply configured_ok; [|apply st_pins|].
  - unfold add_checkpoints in E. destruct (Chain.add_checkpoints _ _) as [c|] eqn:Ea; [|done].
    cbn [mbind option_bind] in E. injection E as <-. apply configured_ok; [done|by eapply st_add|].
    unfold Chain.add_checkpoints in Ea. destruct (relink_checkpoint_from_local _) as [[c1 k]|] eqn:Er; [|done].
    injection Ea as <-. by apply relink_core in Er.
  - apply configured_ok; [done|by eapply st_extend|]. unfold extend_checkpoint_linkage in E.
    repeat case_match; simplify_eq; try done; by apply extend_loop_core in E.
Qed.
End inv.
End NodeInv.
