(* ===== verification/NodeSpec.v ===== *)
(** * What a node guarantees (crates/node/src/node.rs)

    For every node started on a chain its genesis configuration can reach, after any
    sequence of operations: its parts are in step, what it accepts passes the checks
    of execution that do not depend on the block, and what it hands a miner can be
    executed in that order and paid for. *)

From S2P Require Import Prelude Primitives Pow Mining Governance Crypto Compliance Smt Types Block.
From S2P Require Import Gas Vault Ledger ShieldedV2 Execution Verify Chain ChainReplay ChainInv ChainImport ChainSafety.
From S2P Require Import Produce Mempool MempoolInv MempoolAdmit MempoolSelect MempoolFresh Timing TimingSpec Node NodeInv.

Module NodeSpec.
Import Chain ChainSafety Node NodeInv.

Section spec.
Context `{CE : ChainEnv} `{UP : !UntornPools} `{Display ShieldedV2Error} `{Display NodeError}.
Implicit Types (n : Node.t) (g : GenesisConfig) (s : AccountId).

(** A node started on a chain of this genesis, after any operations. *)
Definition running g n : Prop :=
  ∃ c capacity max_block_txs n0, reachable g c ∧ Node.new c capacity max_block_txs = Some n0 ∧ rtc node_step n0 n.
Lemma running_ok g n : config_wf g → running g n → node_ok g n.
Proof.
  intros Hg (c & cap & k & n0 & R & En & Hs). pose proof (new_ok _ _ _ _ _ R En) as N. clear En.
  induction Hs as [|n n1 n2 H1 _ IH]; [done|]. eapply IH, node_step_ok; done.
Qed.

(** C12: the node's parts stay in step.  However transactions, mined blocks, peers'
    blocks and reorganisations were interleaved: the pool admits under the rules of
    the block after the chain's top; every transaction of the READY region has a nonce
    the account's ledger nonce has not passed; what the pool counts as an account's
    outflow (the amounts of its READY transfers and tips; not gas, locks, vaults or
    shielded deposits) is at most its balance in the ledger; the timing index files
    exactly its rows, no more than its row limit; and at most 4096 rejections are kept. *)
Theorem node_in_step g n : config_wf g → running g n →
  (∃ top, height_ (chain n) = Some top ∧ Pool.chain_height (mempool n) = top ∧
     Pool.mode (mempool n) = resolved_tx_domain_mode_with (chain n) (top + 1) (signals_ (chain n)) ∧
     Pool.suite2_active (mempool n)
       = zk_suite2 && shielded_v2_suite2_active_with (chain n) (top + 1) (signals_ (chain n))) ∧
  (∀ s nonce id, Pool.by_sender (mempool n) !! (s, nonce) = Some id → account_nonce n s ≤ nonce) ∧
  (∀ s, balance_of (chain n) s < u128_max → Pool.pending_outflow (mempool n) s ≤ balance_of (chain n) s) ∧
  PoolInv.pool_ok (mempool n) ∧
  TimingSpec.lockstep (timing n) ∧ Timing.len (timing n) ≤ Timing.max_entries (timing n) ∧
  (length (rejections n) ≤ 4096)%nat.
Proof.
  intros Hg [R (P & F & G) Hr [L Hl] Hj]%running_ok; [|done].
  split; [|split; [intros s nonce id E; exact (F (s, nonce) id E)|split_and!; [exact G|exact P|exact L|exact Hl|exact Hj]]].
  unfold next_rules in Hr. destruct (height_ (chain n)) as [top|]; [|done]. cbn [mbind option_bind] in Hr.
  unfold PoolFresh.settings in Hr. injection Hr as Hm H2 Ht. exists top. done.
Qed.

(** ** Submissions *)

(** The check at submission is the executor's. *)
Lemma authorized_mirrors l tx :
  authorized l tx = match authorize l tx with
                    | Ok _ => Some true
                    | Err (Throw _) => Some false
                    | Err Panic => None
                    end.
Proof.
  unfold authorized, authorize. destruct (multisig (st l) !! signer_id tx) as [policy|].
  { by destruct (bool_decide _ && _). }
  destruct (key (account l (signer_id tx))) as [k|]; [by destruct (bool_decide _)|].
  destruct (is_implicit _); [|by destruct (action tx)].
  destruct (implicit_account_id (public_key tx)) as [id|]; [|done]. cbn [mbind option_bind]. by destruct (bool_decide _).
Qed.

(** C13: a transaction that a node accepts as mineable passes the checks of execution.
    Its signature verifies in the mode of the next block, execution authorises the
    signer, its nonce is not below the account's, no pool-v2 input it carries is already
    spent (notes of the first pool are not looked at), its weight fits a block under the
    next block's rules, and with it in the pool the account's counted outflow (transfers
    and tips) is at most its balance. *)
Theorem submit_admits g n stx now n' : config_wf g → running g n →
  submit n stx now = Some (n', Ok Pool.Ready) →
  let c := chain n in
  let s := signer_id (transaction stx) in
  ∃ top, height_ c = Some top ∧
    verify_signature_mode stx (resolved_tx_domain_mode_with c (top + 1) (signals_ c)) = true ∧
    (∃ a, authorize (ledger_ c) (transaction stx) = Ok a) ∧
    nonce_of c s ≤ tx_nonce (transaction stx) ∧
    reject_spent_inputs (action (transaction stx)) (ledger_ c) = Ok () ∧
    tx_weight stx ≤
      (if zk_suite2 && shielded_v2_suite2_active_with c (top + 1) (signals_ c)
            && is_suite2_action (action (transaction stx))
       then MAX_SUITE2_TX_WEIGHT else MAX_TX_WEIGHT) ∧
    chain n' = c ∧
    (balance_of c s < u128_max → Pool.pending_outflow (mempool n') s ≤ balance_of c s).
Proof.
  intros Hg N%running_ok E c s; [|done]. pose proof (submit_node_ok _ _ _ _ _ _ N E) as N'.
  unfold submit in E. fold c in E. rewrite authorized_mirrors in E.
  destruct (authorize (ledger_ c) (transaction stx)) as [a|[e|]] eqn:Ea; [|done..]. cbn [mbind option_bind negb] in E.
  destruct (reject_spent_inputs _ _) as [[]|]; [|done].
  pose proof (no_rules _ _ N) as Hr. unfold next_rules in Hr. fold c in Hr.
  destruct (height_ c) as [top|]; [|done]. cbn [mbind option_bind] in E, Hr.
  unfold PoolFresh.settings in Hr. injection Hr as Hm H2 _. exists top. rewrite Hm, H2.
  destruct (head_block c) as [head|]; [|done]. cbn [mbind option_bind] in E.
  match type of E with match ?f with _ => _ end = _ => destruct f end; [|done].
  destruct (Pool.insert _ _ _ _ _) as [[p r]|] eqn:Ei; [|done]. cbn [mbind option_bind] in E. injection E as <- Er.
  destruct r as [r|]; [|done]. injection Er as ->. pose proof (no_pool _ _ N') as (_ & _ & G).
  destruct (PoolAdmit.insert_ready _ _ _ _ _ _ Ei) as (Hw & p1 & Ein & _). destruct (no_pool _ _ N) as (P & _).
  destruct (PoolAdmit.insert_inner_ready _ _ _ _ _ _ P Ein) as (Hs & Hn & _).
  split_and!; [done|done|by exists a|done|done|exact Hw|done|apply G].
Qed.

(** ** What a miner gets *)

(** Distinct pooled transactions of an account move no more than all it has pending. *)
Lemma picked_outflow p s l m : PoolInv.indexed p → NoDup l → m ⊆ PoolAdmit.own_slots p s →
  Forall (λ stx, m !! Pool.slot_of stx = Some (tx_id stx) ∧ Pool.by_id p !! tx_id stx = Some stx) l →
  PoolAdmit.sum_N (Pool.outflow <$> l) ≤ map_sum (PoolAdmit.out_at p) m.
Proof.
  intros I. revert m. induction l as [|stx l IH]; intros m Hd Hm Hl; [unfold PoolAdmit.sum_N; cbn; lia|].
  apply NoDup_cons in Hd as [Hni Hd]. apply Forall_cons in Hl as [[Es Ei] Hl].
  rewrite (map_sum_delete _ m _ _ Es). unfold PoolAdmit.out_at at 1. rewrite Ei. cbn [from_option].
  cbn [fmap list_fmap PoolAdmit.sum_N foldr]. apply N.add_le_mono_l. apply IH; [done| |].
  { etrans; [apply delete_subseteq|done]. }
  rewrite Forall_forall in Hl |- *. intros stx' Hin. destruct (Hl _ Hin) as [Es' Ei']. split; [|done].
  rewrite lookup_delete_ne; [done|]. intros E. rewrite E, Es' in Es. injection Es as Eid. rewrite Eid, Ei in Ei'. congruence.
Qed.

(** The batch a node mines can be executed in its order and paid for.  Building a
    batch never fails; it has at most the configured number of transactions, no two the
    same; the transactions of each account in it carry consecutive nonces from the
    account's nonce in the ledger on; and together they move no more than the account
    holds. *)
Theorem batch_payable g n : config_wf g → running g n →
  ∃ out, batch n = Some out ∧ NoDup out ∧ (length out ≤ max_block_txs n)%nat ∧
    ∀ s, let mine := PoolSelect.from_signer s out in
      (tx_nonce ∘ transaction <$> mine) = (λ i, account_nonce n s + N.of_nat i) <$> seq 0 (length mine) ∧
      (balance_of (chain n) s < u128_max → PoolAdmit.sum_N (Pool.outflow <$> mine) ≤ balance_of (chain n) s).
Proof.
  intros Hg [_ (P & _ & G) _ _ _]%running_ok; [|done]. pose proof P as [I _].
  destruct (PoolSelect.select_runs (mempool n) (nonce_of (chain n)) (max_block_txs n) I) as (out & E & Hr).
  destruct (PoolSelect.auction_run_pooled _ _ _ _ Hr) as [Hp Hl]. pose proof (PoolSelect.auction_run_NoDup _ _ _ _ I Hr) as Hd.
  exists out. split_and!; [done..|]. intros s mine. split; [by eapply PoolSelect.auction_run_nonces|]. intros Hb.
  specialize (G s Hb). rewrite PoolAdmit.pending_outflow_eq in G.
  eassert (PoolAdmit.sum_N (Pool.outflow <$> mine) ≤ PoolAdmit.pend (mempool n) s); [|lia].
  apply (picked_outflow _ s); [done|by apply NoDup_filter|done|]. apply Forall_forall.
  intros stx [Hs Hin]%list_elem_of_filter. rewrite Forall_forall in Hp. specialize (Hp _ Hin). split; [|done].
  apply map_lookup_filter_Some. split; [by apply (PoolInv.ix_id _ I)|done].
Qed.
End spec.
End NodeSpec.
