(* ===== verification/NodeExamples.v ===== *)
(** * A concrete node

    A node on the chain of [ChainExamples] that accepts a transaction and imports a
    block, and the instances of the theorems about nodes. *)

From S2P Require Import Prelude Primitives Pow Mining Governance Crypto Compliance Smt Types Block.
From S2P Require Import Gas Vault Ledger ShieldedV2 Execution LedgerCommit ExecExamples.
From S2P Require Import Verify Chain Produce ChainReplay ChainInv ChainImport ChainSafety ChainExamples.
From S2P Require Import Mempool MempoolInv MempoolAdmit MempoolSelect MempoolFresh Timing TimingSpec Node NodeInv NodeSpec.

Module NodeRun.
Import LedgerCommit.Ledger_examples Run ChainRun.
Import Chain ChainSafety Node NodeInv NodeSpec.
#[local] Instance show_v2 : Display ShieldedV2Error := λ _, [].
#[local] Instance show_node : Display NodeError := λ _, [].

Definition nobody : Node.t := mkNode nowhere (Pool.new 0) 0 Timing.new [].
(** A node with room for eight transactions, two to a block. *)
Definition node0 : Node.t := default nobody (Node.new chain0 8 2).
Definition first : SignedTransaction := sign (mkTransaction alice k1 0 (Action.Transfer bob 0)).
Definition node1 : Node.t := default node0 (fst <$> submit node0 first 5).
Definition mined : Node.t := default node1 (fst <$> import_block node1 blockA 5).
Definition accepted (o : option (Node.t * result NodeError Pool.Admission)) : bool :=
  match o with Some (_, Ok Pool.Ready) => true | _ => false end.
Definition went {E A} (o : option (Node.t * result E A)) : bool := match o with Some (_, Ok _) => true | _ => false end.

Lemma accepted_eq o n : accepted o = true → o = Some (default n (fst <$> o), Ok Pool.Ready).
Proof. by destruct o as [[? [[]|]]|]. Qed.
Lemma went_eq {E A} (o : option (Node.t * result E A)) n : went o = true → ∃ a, o = Some (default n (fst <$> o), Ok a).
Proof. destruct o as [[? [a|]]|]; [by exists a|done..]. Qed.
Lemma node0_new : Node.new chain0 8 2 = Some node0.
Proof.
  assert (bool_decide (is_Some (Node.new chain0 8 2)) = true) as [m E]%bool_decide_eq_true by (by vm_compute).
  unfold node0. by rewrite E.
Qed.
Lemma first_ready : submit node0 first 5 = Some (node1, Ok Pool.Ready).
Proof. apply (accepted_eq _ node0). by vm_compute. Qed.
Lemma running0 : running gen node0.
Proof. exists chain0, 8, 2%nat, node0. split; [exact reach0|]. split; [exact node0_new|apply rtc_refl]. Qed.
Lemma running_step n n' : running gen n → node_step n n' → running gen n'.
Proof.
  intros (c & cap & k & n0 & R & E & Hs) H. exists c, cap, k, n0. split; [exact R|]. split; [exact E|]. eapply rtc_r; [exact Hs|exact H].
Qed.
Lemma running1 : running gen node1.
Proof. apply (running_step node0); [exact running0|]. eapply ns_submit. exact first_ready. Qed.
Lemma running_mined : running gen mined.
Proof.
  apply (running_step node1); [exact running1|]. destruct (went_eq (import_block node1 blockA 5) node1) as [rs E]; [by vm_compute|].
  eapply ns_import. exact E.
Qed.

Lemma node_in_step_witness : (length (rejections mined) ≤ 4096)%nat.
Proof. apply (node_in_step gen mined gen_wf running_mined). Defined.
Lemma submit_admits_witness : nonce_of chain0 alice ≤ 0.
Proof. destruct (submit_admits gen node0 first 5 node1 gen_wf running0 first_ready) as (top & _ & _ & _ & Hn & _). exact Hn. Defined.
Lemma batch_payable_witness : ∃ out, batch node1 = Some out ∧ NoDup out.
Proof. destruct (batch_payable gen node1 gen_wf running1) as (out & E & Hd & _). exists out. split; [exact E|exact Hd]. Defined.

(** ** A reorganisation that keeps a transaction *)

(** The same genesis with free gas, so that an empty account can transact. *)
Definition free : GenesisConfig := mkGenesisConfig "sov-test" 0 [mkGenesisAccount alice k1 0]
  {| Emission.mainnet_like with base_reward := 0; mp_gas_price := 0 |} [].
Definition root : Blockchain := chain_of (Chain.new free).
Definition mine_with (c : Blockchain) (txs : list SignedTransaction) (ts : N) : Block :=
  match Produce.build_candidate c txs ts with
  | Some (Ok (m, _)) => default genesis_block (Produce.grind m pow_seal 0 1)
  | _ => genesis_block
  end.
(** One branch includes the transaction at height 1, the other at height 2. *)
Definition a1 : Block := mine_with root [first] 10.
Definition a2 : Block := mine_with (imported root a1) [] 20.
Definition b1 : Block := mine_with root [] 30.
Definition b2 : Block := mine_with (imported root b1) [first] 77.
Definition b3 : Block := mine_with (imported (imported root b1) b2) [] 90.
Definition feed (n : Node.t) (b : Block) : Node.t := default n (fst <$> import_block n b 100).
Definition pooled : Node.t :=
  let n := default nobody (Node.new root 8 2) in default n (fst <$> submit n first 5).
Definition reorganised : Node.t := foldl feed pooled [a1; a2; b1; b2; b3].
Definition txs_at (n : Node.t) (h : N) : option (list Hash) :=
  (λ b, tx_id <$> transactions b) <$> block_by_height (chain n) h.
Definition seen_in (n : Node.t) (id : Hash) : option (list Hash) * option (list Hash) * option N :=
  (txs_at n 1, txs_at n 2, Timing.included_height <$> tx_timing n id).
Lemma seen_in_reorganised : seen_in reorganised (tx_id first) = (Some [], Some [tx_id first], Some 1).
Proof. vm_compute. reflexivity. Qed.

(** A reorganisation can leave a stale timing row.  A transaction is mined at
    height 1; then a heavier branch takes over that has it at height 2 and ends in an
    empty block.  The transaction is on both branches, so it is not among the
    transactions the reorganisation reverted, the repair does nothing, and the index
    goes on reporting height 1, where the active chain has an empty block. *)
Theorem reorg_leaves_stale_row :
  txs_at reorganised 1 = Some [] ∧ txs_at reorganised 2 = Some [tx_id first] ∧
  Timing.included_height <$> tx_timing reorganised (tx_id first) = Some 1.
Proof.
  pose proof seen_in_reorganised as E. unfold seen_in in E.
  split; [exact (f_equal (λ x, x.1.1) E)|]. split; [exact (f_equal (λ x, x.1.2) E)|exact (f_equal (λ x, x.2) E)].
Qed.
End NodeRun.
