(* ===== verification/Sync.v ===== *)
(** * Peer-to-peer synchronisation (crates/rpc/src/p2p.rs)

    What a node does with its peers: the handshake that decides whom it listens to, block
    and header requests with their deadlines, verification on a thread of its own, and
    the sweeps that drop silent peers.  The transport is an argument of each operation:
    who is connected, over which channel, and whether a message can be sent; what an
    operation asks of it is returned as effects.  Instants and durations are in
    milliseconds and read once per operation.  The outer [option] is [None] where the
    source panics.  Diagnostics are left out. *)

From stdpp Require Import sorting.
From S2P Require Import Prelude Primitives Pow Mining Governance Crypto Compliance Smt Types Block BlockLog Network.
From S2P Require Import Gas Vault Ledger ShieldedV2 Execution Verify Chain Produce Mempool Timing Node.
#[local] Open Scope N_scope.

Module Sync.
Import Net(NetMessage, Status, NewTransaction, NewBlock, GetBlock, BlockResponse, GetBlocks, BlocksResponse, Peers,
  Hello, Version, GetAddr, GetHeaders, Headers).

(** An address: its octets and its port. *)
Definition SocketAddr : Type := bytes * N.
#[global] Instance SocketAddr_eq_dec : EqDecision SocketAddr.
Proof. unfold SocketAddr. apply _. Defined.
#[global] Instance SocketAddr_countable : Countable SocketAddr.
Proof. unfold SocketAddr. apply _. Defined.

Definition BLOCK_REQUEST_TIMEOUT : N := 2000.
Definition SYNC_BATCH : N := 256.
Definition SYNC_BATCH_MAX_BYTES : N := 6 * 1024 * 1024.
Definition BACKTRACK_CAP : N := 256.
Definition HEADERS_MIN_PROTOCOL : N := 2.
Definition HEADERS_BATCH : nat := 2000.
Definition LOCATOR_CAP : nat := 32.
Definition LOCATOR_MAX_ACCEPT : nat := 64.
Definition INVALID_BLOCK_PENALTY : N := 50.
Definition OVERSIZE_RESPONSE_PENALTY : N := 50.
Definition HELLO_TIMEOUT : N := 30000.
Definition PEER_INACTIVITY_TIMEOUT : N := 45000.
Definition STATUS_TTL : N := 30000.
Definition STATUS_MAX_STRIKES : N := 3.
Definition UNSUBSTANTIATED_CLAIM_PENALTY : N := 20.
Definition STRIKE_DISCONNECT : N := STATUS_MAX_STRIKES * 2.
Definition ANNOUNCE_INTERVAL : N := 320.
Definition RECONNECT_INTERVAL : N := 2000.
Definition SWEEP_INTERVAL : N := 1000.
Definition GETADDR_INTERVAL : N := 60000.
Definition VERIFY_QUEUE_DEPTH : nat := 8.
Definition LOOP_STALL_BUDGET : N := 500.
Definition MAX_STALL_CREDIT : N := 600000.
Definition PQ_REHEARSAL_CHAIN_PREFIX : string := "sov-pq-rehearsal-".
Definition SUITE2_REHEARSAL_CHAIN_PREFIX : string := "sov-suite2-rehearsal-".
(** crates/rpc/src/sync_status.rs *)
Definition MINING_GATE_LAG : N := 1.

(** ** Data *)

Inductive SyncRequest :=
| RBlock (height : N)
| RBlocks (start count : N)
| RHeaders (locator : list Hash)
| RLinkage (height : N).
Record InFlight := mkInFlight { f_peer : SocketAddr; f_since : N; f_request : SyncRequest }.
Inductive VerifyMode := Batch | Backtrack | Announced.
#[global] Instance VerifyMode_eq_dec : EqDecision VerifyMode.
Proof. solve_decision. Defined.
Inductive ImportOutcome := New | SideBranch | Known | Rejected | Invalid.
#[global] Instance ImportOutcome_eq_dec : EqDecision ImportOutcome.
Proof. solve_decision. Defined.
Record VerifyJob := mkJob { j_peer : SocketAddr; j_mode : VerifyMode; j_blocks : list Block }.
Record VerifyReport := mkReport {
  v_peer : SocketAddr; v_mode : VerifyMode; v_outcomes : list (N * ImportOutcome); v_announced : option Block }.
(** What the verifier thread is doing: the rest of its job and what it found so far. *)
Record Running := mkRunning { w_job : VerifyJob; w_outcomes : list (N * ImportOutcome); w_announced : option Block }.
(** The job queue, if a sender exists, what the thread is at, and the reports; [worker]
    is the thread, with whether it still runs. *)
Record VerifyChannel := mkChannel {
  job_tx : option (list VerifyJob); worker : option bool; running : option Running; reports : list VerifyReport;
  has_node : bool }.
Record BlockImporter := mkImporter { block_log : option BlockLog.t; durable_broken : bool }.
Record PeerStatus := mkStatus { p_height : N; p_head : Hash; p_chain_work : bytes; received_at : N }.
Record SyncState := mkSync {
  authenticated : gset SocketAddr;
  identity : gmap SocketAddr AccountId;
  peer_status : gmap SocketAddr PeerStatus;
  peer_agents : gmap SocketAddr (N * string);
  sync_next : gmap SocketAddr N;
  bt_step : gmap SocketAddr N;
  first_seen : gmap SocketAddr N;
  last_recv : gmap SocketAddr N;
  inflight : option InFlight;
  linkage_requests : gmap SocketAddr InFlight;
  no_progress_replies : gmap SocketAddr N;
  verified_sync_height : gmap SocketAddr N;
  verifying : option (SocketAddr * N);
  verify_ : VerifyChannel;
  importer : BlockImporter;
  stall_credit : N;
  resume_from : option N;
  sync_strikes : gmap SocketAddr N }.

(** ** The transport *)

Record Tcp := mkTcp {
  connected_peers : list SocketAddr;
  peer_handshake_hash : SocketAddr → option bytes;
  can_send : SocketAddr → NetMessage → bool }.
Inductive effect :=
| Sent (p : SocketAddr) (m : NetMessage)
| Broadcast (m : NetMessage)
| Penalized (p : SocketAddr) (points : N)
| Disconnected (p : SocketAddr)
| MarkedIncompatible (p : SocketAddr)
| MarkedSelf (p : SocketAddr)
| MarkedAuthenticated (p : SocketAddr)
| Reconnect (addr : string).
Record P2pConfig := mkConfig {
  c_chain_id : string; c_genesis_hash : Hash; c_account : AccountId; c_key : PublicKey; c_sign : bytes → Signature }.
Record Clock := mkClock { wall : N; mono : N }.
(** How the log's writes and its flush go. *)
Record Io := mkIo { io_append : Block → option nat; io_sync : bool }.
(** The order a hash map is walked in, and the name this build goes by. *)
Class SyncEnv := {
  walk : ∀ {V : Type}, gmap SocketAddr V → list (SocketAddr * V);
  walk_perm {V} (m : gmap SocketAddr V) : walk m ≡ₚ map_to_list m;
  walk_set : gset SocketAddr → list SocketAddr;
  walk_set_perm (X : gset SocketAddr) : walk_set X ≡ₚ elements X;
  AGENT : string;
}.

Fixpoint starts_with (prefix l : bytes) : bool :=
  match prefix, l with
  | [], _ => true
  | _, [] => false
  | a :: prefix, b :: l => (a =? b) && starts_with prefix l
  end.
Fixpoint contains_sub (sub l : bytes) : bool :=
  starts_with sub l || match l with [] => false | _ :: l => contains_sub sub l end.
Definition requires_hybrid_identity (cfg : P2pConfig) : bool :=
  let id := string_bytes (c_chain_id cfg) in
  contains_sub (string_bytes "mainnet") id || starts_with (string_bytes PQ_REHEARSAL_CHAIN_PREFIX) id
  || starts_with (string_bytes SUITE2_REHEARSAL_CHAIN_PREFIX) id.
Definition allows_identity (cfg : P2pConfig) (m : NetMessage) : bool :=
  negb (requires_hybrid_identity cfg) ||
  match m with Hello _ _ _ (PkV2HybridMlDsa65 _ _) _ (SigV2HybridMlDsa65 _ _) => true | _ => false end.

(** ** Pure helpers *)

(** How many blocks from [h] on one reply carries: the loop with [taken] blocks of
    [bytes] so far and room for [room] more. *)
Fixpoint batch_loop (room taken : nat) (bytes h : N) (size_at : N → option N) : nat :=
  match room with
  | O => taken
  | S room =>
      match size_at h with
      | None => taken
      | Some sz =>
          if (0 <? taken)%nat && (SYNC_BATCH_MAX_BYTES <? saturating_add u64_max bytes sz) then taken
          else batch_loop room (S taken) (saturating_add u64_max bytes sz) (h + 1) size_at
      end
  end.
Definition size_capped_batch_len (want : nat) (start : N) (size_at : N → option N) : nat :=
  batch_loop want 0 0 start size_at.
(** The first of the smallest. *)
Definition survivor (candidates : list (SocketAddr * bytes)) : option SocketAddr :=
  fst <$> foldl (λ best e, match best with
                           | None => Some e
                           | Some b => if bytes_leb b.2 e.2 then best else Some e
                           end) None candidates.
(** The heights of a locator above genesis; one turn per entry. *)
Fixpoint locator_loop (room : nat) (tip offset : N) : list N :=
  match room with
  | O => []
  | S room =>
      if tip <? offset then [] else
      let h := tip - offset in
      if h =? 0 then []
      else h :: locator_loop room tip (if offset =? 0 then 1 else saturating_mul u64_max offset 2)
  end.
Definition locator_heights (tip : N) : list N := locator_loop (LOCATOR_CAP - 1) tip 0 ++ [0].

Section sync.
Context `{CE : ChainEnv} `{Node.Display ShieldedV2Error} `{Borsh Block} `{SyncEnv}.
Import Chain Node.

Fixpoint linked (bs : list Block) : bool :=
  match bs with
  | a :: ((b :: _) as rest) =>
      (block_height b =? saturating_add u64_max (block_height a) 1)
      && bool_decide (h_prev_hash (header b) = block_hash a) && linked rest
  | _ => true
  end.
Definition matches (r : SyncRequest) (m : NetMessage) : bool :=
  match r, m with
  | RBlock height, BlockResponse b => match b with Some b => block_height b =? height | None => true end
  | RBlocks start count, BlocksResponse bs =>
      (N.of_nat (length bs) <=? count) && match head bs with Some b => block_height b =? start | None => true end
      && linked bs
  | RHeaders locator, Headers hs =>
      bool_decide (length hs ≤ HEADERS_BATCH)%nat
      && match head hs with Some h => bool_decide (h_prev_hash h ∈ locator) | None => true end
  | RLinkage height, Headers hs =>
      bool_decide (length hs ≤ HEADERS_BATCH)%nat
      && match head hs with Some h => h_height h =? height | None => false end
  | _, _ => false
  end.

Definition build_locator (n : Node.t) : option (list Hash) :=
  top ← height_ (chain n);
  Some (omap (λ h, block_hash <$> block_by_height (chain n) h) (locator_heights top)).
(** The height of the first locator hash on the active chain. *)
Fixpoint fork_of (c : Blockchain) (locator : list Hash) : N :=
  match locator with
  | [] => 0
  | h :: locator =>
      match block_by_hash c h with
      | Some b =>
          if bool_decide (block_hash <$> block_by_height c (block_height b) = Some h) then block_height b
          else fork_of c locator
      | None => fork_of c locator
      end
  end.
Fixpoint headers_loop (room : nat) (c : Blockchain) (h : N) (stop : Hash) : list BlockHeader :=
  match room with
  | O => []
  | S room =>
      match block_by_height c h with
      | None => []
      | Some b => header b :: (if bool_decide (block_hash b = stop) then [] else headers_loop room c (h + 1) stop)
      end
  end.
Definition headers_from_fork_point (c : Blockchain) (locator : list Hash) (stop : Hash) : list BlockHeader :=
  headers_loop HEADERS_BATCH c (fork_of c (take LOCATOR_MAX_ACCEPT locator) + 1) stop.
Fixpoint contiguous (height : N) (prev : Hash) (hs : list BlockHeader) : bool :=
  match hs with
  | [] => true
  | h :: hs =>
      if (h_height h =? height) && bool_decide (h_prev_hash h = prev) then
        match checked_add u64_max height 1 with
        | Some height => contiguous height (header_hash h) hs
        | None => false
        end
      else false
  end.
Definition headers_fork_point (n : Node.t) (hs : list BlockHeader) : option N :=
  first ← head hs;
  parent ← block_by_hash (chain n) (h_prev_hash first);
  height ← checked_add u64_max (block_height parent) 1;
  if contiguous height (h_prev_hash first) hs then Some (block_height parent) else None.
Definition local_status (n : Node.t) (clk : Clock) : option PeerStatus :=
  top ← height_ (chain n);
  head ← head_block (chain n);
  work ← chain_work (chain n);
  Some (mkStatus top (block_hash head) (to_be 32 work) (mono clk)).
Definition status (n : Node.t) : option NetMessage :=
  top ← height_ (chain n);
  head ← head_block (chain n);
  work ← chain_work (chain n);
  Some (Status top (block_hash head) (to_be 32 work)).
Definition hello (cfg : P2pConfig) (binding : bytes) : NetMessage :=
  Net.hello (c_chain_id cfg) (c_genesis_hash cfg) (c_account cfg) binding (c_key cfg) (c_sign cfg).
Definition version_msg (n : Node.t) : option NetMessage := top ← height_ (chain n); Some (Net.version AGENT top).
(** The account a handshake proves, derived from its key. *)
Definition authenticated_peer_identity (m : NetMessage) (cfg : P2pConfig) (binding : bytes) : option (option AccountId) :=
  if negb (allows_identity cfg m) then Some None
  else
    r ← Net.authenticated_account m (c_chain_id cfg) (c_genesis_hash cfg) binding;
    match r, m with
    | Some _, Hello _ _ _ key _ _ => id ← implicit_account_id key; Some (Some id)
    | _, _ => Some None
    end.
(** crates/rpc/src/lib.rs *)
Definition suite2_admission_allowed (c : Blockchain) : option bool :=
  top ← height_ c;
  let next := saturating_add u64_max top 1 in
  Some (zk_suite2 && shielded_v2_active_with c next (signals_ c) && shielded_v2_suite2_active_with c next (signals_ c)).
Fixpoint safe_new_transaction_for_suite2 (a : Action.t) (suite2 : bool) : bool :=
  match a with
  | Action.ShieldedV2 bundle => suite2 && bool_decide (head bundle = Some 2)
  | Action.MultisigExec a _ | Action.ProposeMultisig _ a => safe_new_transaction_for_suite2 a suite2
  | Action.Tipped _ inner | Action.Timestamped _ inner => safe_new_transaction_for_suite2 inner suite2
  | _ => true
  end.

(** ** Importing (on the verifier thread) *)

Definition sync_log (imp : BlockImporter) (io : Io) : BlockImporter :=
  match block_log imp with
  | None => imp
  | Some log => let '(log, ok) := BlockLog.sync log (io_sync io) in mkImporter (Some log) (durable_broken imp || negb ok)
  end.
Definition import_and_persist (imp : BlockImporter) (n : Node.t) (b : Block) (clk : Clock) (io : Io) :
    option (BlockImporter * Node.t * ImportOutcome) :=
  if durable_broken imp then Some (imp, n, Rejected)
  else if contains_block (chain n) (block_hash b) then Some (imp, n, Known)
  else
    '(n, r) ← Node.import_block n b (wall clk);
    match r with
    | Err (NChain PrevHashMismatch) | Err (NTimestampTooFarInFuture _ _) => Some (imp, n, Rejected)
    | Err _ => Some (imp, n, Invalid)
    | Ok _ =>
        let outcome := if bool_decide (block_hash <$> block_by_height (chain n) (block_height b) = Some (block_hash b))
                       then New else SideBranch in
        match block_log imp with
        | None => Some (imp, n, outcome)
        | Some log =>
            match BlockLog.append_unsynced log (io_append io b) b with
            | (log, false) => Some (mkImporter (Some log) true, n, Rejected)
            | (log, true) => Some (mkImporter (Some log) (durable_broken imp), n, outcome)
            end
        end
    end.
Definition stops (o : ImportOutcome) : bool := match o with Rejected | Invalid => true | _ => false end.
(** One block of a job. *)
Definition verify_one (imp : BlockImporter) (n : Node.t) (w : Running) (clk : Clock) (io : Io) :
    option (BlockImporter * Node.t * Running) :=
  match j_blocks (w_job w) with
  | [] => Some (imp, n, w)
  | b :: rest =>
      let announced := if bool_decide (j_mode (w_job w) = Announced) then Some b else w_announced w in
      '(imp, n, o) ← import_and_persist imp n b clk io;
      Some (imp, n, mkRunning (mkJob (j_peer (w_job w)) (j_mode (w_job w)) (if stops o then [] else rest))
                      (w_outcomes w ++ [(block_height b, o)]) announced)
  end.
Definition report_of (w : Running) : VerifyReport :=
  mkReport (j_peer (w_job w)) (j_mode (w_job w)) (w_outcomes w) (w_announced w).
(** A whole job; each turn takes at least one block off it. *)
Fixpoint run_job (turns : nat) (imp : BlockImporter) (n : Node.t) (w : Running) (clk : Clock) (io : Io) :
    option (BlockImporter * Node.t * VerifyReport) :=
  match turns with
  | O => Some (sync_log imp io, n, report_of w)
  | S turns => '(imp, n, w) ← verify_one imp n w clk io; run_job turns imp n w clk io
  end.
Definition run_verify_job (imp : BlockImporter) (n : Node.t) (job : VerifyJob) (clk : Clock) (io : Io) :
    option (BlockImporter * Node.t * VerifyReport) :=
  run_job (length (j_blocks job)) imp n (mkRunning job [] None) clk io.

(** ** The verifier thread *)

(** [spawned] is whether the thread could be started. *)
Definition attach_verifier (s : SyncState) (spawned : bool) : SyncState :=
  let v := verify_ s in
  {| s with verify_ := if spawned then mkChannel (Some []) (Some true) None (reports v) true
                       else mkChannel (job_tx v) None (running v) (reports v) true |}.
Definition submit_verify (s : SyncState) (n : Node.t) (job : VerifyJob) (clk : Clock) (io : Io) :
    option (SyncState * Node.t) :=
  let catch_up := negb (bool_decide (j_mode job = Announced)) in
  let s := if catch_up then {| s with verifying := Some (j_peer job, mono clk) |} else s in
  let v := verify_ s in
  let inline :=
    '(imp, n, r) ← run_verify_job (importer s) n job clk io;
    Some ({| s with importer := imp;
                    verify_ := mkChannel (job_tx v) (worker v) (running v) (reports v ++ [r]) (has_node v) |}, n) in
  match job_tx v, worker v with
  | Some queue, Some true =>
      if bool_decide (length queue < VERIFY_QUEUE_DEPTH)%nat then
        Some ({| s with verify_ := mkChannel (Some (queue ++ [job])) (worker v) (running v) (reports v) (has_node v) |}, n)
      else Some (if catch_up then {| s with verifying := None |} else s, n)
  | _, _ => inline
  end.

(** The thread's loop: take a job when idle, verify its blocks one by one, report. *)
Definition take_job (s : SyncState) : option SyncState :=
  let v := verify_ s in
  match job_tx v, worker v, running v with
  | Some (j :: queue), Some true, None =>
      Some {| s with verify_ := mkChannel (Some queue) (worker v) (Some (mkRunning j [] None)) (reports v) (has_node v) |}
  | _, _, _ => None
  end.
Definition verify_next (s : SyncState) (n : Node.t) (clk : Clock) (io : Io) : option (SyncState * Node.t) :=
  let v := verify_ s in
  w ← running v;
  '(imp, n, w) ← verify_one (importer s) n w clk io;
  Some ({| s with importer := imp; verify_ := mkChannel (job_tx v) (worker v) (Some w) (reports v) (has_node v) |}, n).
Definition send_report (s : SyncState) (io : Io) : option SyncState :=
  let v := verify_ s in
  w ← running v;
  if bool_decide (j_blocks (w_job w) = []) then
    Some {| s with importer := sync_log (importer s) io;
                   verify_ := mkChannel (job_tx v) (worker v) None (reports v ++ [report_of w]) (has_node v) |}
  else None.
(** The thread panics: its job and its queue are lost. *)
Definition thread_dies (s : SyncState) : SyncState :=
  let v := verify_ s in
  {| s with verify_ := mkChannel ((λ _, []) <$> job_tx v) ((λ _, false) <$> worker v) None (reports v) (has_node v) |}.
(** A node's start: [SyncState::new]. *)
Definition new (log : option BlockLog.t) : SyncState :=
  mkSync ∅ ∅ ∅ ∅ ∅ ∅ ∅ ∅ None ∅ ∅ ∅ None (mkChannel None None None [] false) (mkImporter log false) 0 None ∅.

(** ** Reports *)

Definition advance_or_done (s : SyncState) (peer : SocketAddr) (h : N) : SyncState :=
  let s := {| s with resume_from := Some (saturating_add u64_max h 1) |} in
  match peer_status s !! peer with
  | Some st => if h <? p_height st then {| s with sync_next := <[peer := h + 1]> (sync_next s) |}
               else {| s with sync_next := delete peer (sync_next s) |}
  | None => {| s with sync_next := delete peer (sync_next s) |}
  end.
Definition is_new (e : N * ImportOutcome) : bool := bool_decide (e.2 = New).
(** The highest verified block among the outcomes. *)
Definition verified_height (outcomes : list (N * ImportOutcome)) : option N :=
  foldl (λ m e, match e.2 with
                | New | SideBranch => Some (match m with Some m => N.max m e.1 | None => e.1 end)
                | _ => m
                end) None outcomes.
Definition note_progress (s : SyncState) (r : VerifyReport) : SyncState :=
  let peer := v_peer r in
  let s := if existsb is_new (v_outcomes r) then
             {| s with sync_strikes := delete peer (sync_strikes s);
                       no_progress_replies := delete peer (no_progress_replies s) |}
           else s in
  if bool_decide (v_mode r = Announced) then s
  else
    match verified_height (v_outcomes r) with
    | None => s
    | Some height =>
        let prior := default 0 (verified_sync_height s !! peer) in
        if prior <? height then
          {| s with verified_sync_height := <[peer := height]> (verified_sync_height s);
                    no_progress_replies := delete peer (no_progress_replies s) |}
        else {| s with verified_sync_height := <[peer := prior]> (verified_sync_height s) |}
    end.
Definition stop_syncing (s : SyncState) (peer : SocketAddr) : SyncState :=
  {| s with sync_next := delete peer (sync_next s); bt_step := delete peer (bt_step s) |}.
Definition apply_announced (s : SyncState) (r : VerifyReport) : SyncState * list effect :=
  match head (v_outcomes r) with
  | Some (_, New) | Some (_, SideBranch) =>
      (s, match v_announced r with Some b => [Broadcast (NewBlock b)] | None => [] end)
  | Some (_, Invalid) => (s, [Penalized (v_peer r) INVALID_BLOCK_PENALTY])
  | _ => (s, [])
  end.
Definition apply_backtrack (s : SyncState) (r : VerifyReport) : SyncState * list effect :=
  let peer := v_peer r in
  match head (v_outcomes r) with
  | None => (s, [])
  | Some (h, New) | Some (h, SideBranch) | Some (h, Known) =>
      (advance_or_done {| s with bt_step := delete peer (bt_step s) |} peer h, [])
  | Some (h, Rejected) =>
      let step := N.max (default 1 (bt_step s !! peer)) 1 in
      ({| s with sync_next := <[peer := N.max (saturating_sub h step) 1]> (sync_next s);
                 bt_step := <[peer := N.min (step * 2) BACKTRACK_CAP]> (bt_step s) |}, [])
  | Some (h, Invalid) => (stop_syncing s peer, [Penalized peer INVALID_BLOCK_PENALTY])
  end.
(** Of a batch: the last height that connected, the one that did not, and whether some
    block was invalid. *)
Definition summary (outcomes : list (N * ImportOutcome)) : option N * option N * bool :=
  foldl (λ acc e, match acc, e.2 with
                  | (ok, rej, inv), (New | SideBranch | Known) => (Some e.1, rej, inv)
                  | (ok, rej, inv), Rejected => (ok, Some e.1, inv)
                  | (ok, rej, inv), Invalid => (ok, rej, true)
                  end) (None, None, false) outcomes.
Definition apply_batch (tcp : Tcp) (s : SyncState) (n : Node.t) (r : VerifyReport) (clk : Clock) :
    option (SyncState * list effect) :=
  let peer := v_peer r in
  match summary (v_outcomes r) with
  | (_, _, true) => Some (stop_syncing s peer, [Penalized peer INVALID_BLOCK_PENALTY])
  | (Some h, _, _) => Some (advance_or_done {| s with bt_step := delete peer (bt_step s) |} peer h, [])
  | (None, Some h, _) =>
      let proto := default 0 (fst <$> peer_agents s !! peer) in
      locator ← (if HEADERS_MIN_PROTOCOL <=? proto then build_locator n else Some []);
      let ask := GetHeaders locator Hash_ZERO in
      if negb (bool_decide (locator = [])) && can_send tcp peer ask then
        Some ({| s with inflight := Some (mkInFlight peer (mono clk) (RHeaders locator)) |}, [Sent peer ask])
      else
        Some ({| s with sync_next := <[peer := N.max (saturating_sub h 1) 1]> (sync_next s);
                        bt_step := <[peer := 1]> (bt_step s) |}, [])
  | (None, None, _) => Some (s, [])
  end.
Definition apply_verify_report (tcp : Tcp) (s : SyncState) (n : Node.t) (r : VerifyReport) (clk : Clock) :
    option (SyncState * list effect) :=
  let s := note_progress s r in
  match v_mode r with
  | Announced => Some (apply_announced s r)
  | Backtrack => Some (apply_backtrack s r)
  | Batch => apply_batch tcp s n r clk
  end.
Definition next_report (s : SyncState) : option (VerifyReport * SyncState) :=
  let v := verify_ s in
  match reports v with
  | [] => None
  | r :: rest => Some (r, {| s with verify_ := mkChannel (job_tx v) (worker v) (running v) rest (has_node v) |})
  end.
(** The reports in the channel, in order. *)
Fixpoint apply_reports (tcp : Tcp) (s : SyncState) (n : Node.t) (turns : nat) (clk : Clock) : option (SyncState * list effect) :=
  match turns with
  | O => Some (s, [])
  | S turns =>
      match next_report s with
      | None => Some (s, [])
      | Some (r, s) =>
          let s := if bool_decide (v_mode r = Announced) then s else {| s with verifying := None |} in
          '(s, out) ← apply_verify_report tcp s n r clk;
          '(s, out') ← apply_reports tcp s n turns clk;
          Some (s, out ++ out')
      end
  end.
(** A thread that ended while a pass was marked is replaced. *)
Definition watchdog (s : SyncState) (spawned : bool) : SyncState :=
  match verifying s, worker (verify_ s) with
  | Some _, Some false =>
      let v := verify_ s in
      let s := {| s with verifying := None; verify_ := mkChannel None None None (reports v) (has_node v) |} in
      if has_node v then attach_verifier s spawned else s
  | _, _ => s
  end.
(** The verifier thread's steps are taken before the drain or after the test.  It can
    also end between the two; with the release profile ([panic = "abort"]) it ends with
    the process, so this differs only in builds whose panics unwind, where the thread
    may be replaced one call before its last report is read. *)
Definition collect_verify_reports (tcp : Tcp) (s : SyncState) (n : Node.t) (clk : Clock) (spawned : bool) :
    option (SyncState * list effect) :=
  '(s, out) ← apply_reports tcp s n (length (reports (verify_ s))) clk;
  Some (watchdog s spawned, out).

(** ** Stalls of our own *)

Definition credit_stall (s : SyncState) (iteration : N) : SyncState :=
  match checked_sub iteration LOOP_STALL_BUDGET with
  | Some excess => {| s with stall_credit := N.min (stall_credit s + excess) MAX_STALL_CREDIT |}
  | None => s
  end.
Definition decay_stall_credit (s : SyncState) (by_ : N) : SyncState :=
  {| s with stall_credit := saturating_sub (stall_credit s) by_ |}.

(** ** Peers *)

Definition retain {V} (connected : gset SocketAddr) (m : gmap SocketAddr V) : gmap SocketAddr V :=
  filter (λ e, e.1 ∈ connected) m.
Definition retain_connected (s : SyncState) (connected : gset SocketAddr) : SyncState :=
  {| s with authenticated := filter (λ p, p ∈ connected) (authenticated s);
            identity := retain connected (identity s); peer_status := retain connected (peer_status s);
            peer_agents := retain connected (peer_agents s); sync_next := retain connected (sync_next s);
            bt_step := retain connected (bt_step s); first_seen := retain connected (first_seen s);
            last_recv := retain connected (last_recv s); sync_strikes := retain connected (sync_strikes s);
            linkage_requests := retain connected (linkage_requests s);
            no_progress_replies := retain connected (no_progress_replies s);
            verified_sync_height := retain connected (verified_sync_height s) |}.
Definition drop_duplicate (s : SyncState) (p : SocketAddr) : SyncState :=
  {| s with identity := delete p (identity s); authenticated := authenticated s ∖ {[p]};
            peer_status := delete p (peer_status s); sync_next := delete p (sync_next s);
            bt_step := delete p (bt_step s); sync_strikes := delete p (sync_strikes s) |}.
Definition dedup_identity (tcp : Tcp) (s : SyncState) (account : AccountId) : SyncState * list effect :=
  let dupes := omap (λ e, if bool_decide (e.2 = account) then b ← peer_handshake_hash tcp e.1; Some (e.1, b) else None)
                 (walk (identity s)) in
  if bool_decide (length dupes < 2)%nat then (s, [])
  else
    let keep := survivor dupes in
    let gone := filter (λ e, Some e.1 ≠ keep) dupes in
    (foldl (λ s e, drop_duplicate s e.1) s gone, (λ e, Disconnected e.1) <$> gone).
Definition reap_dead_peers (tcp : Tcp) (s : SyncState) (clk : Clock) : list effect :=
  let dead p :=
    let last := default (mono clk) (match last_recv s !! p with Some t => Some t | None => first_seen s !! p end) in
    PEER_INACTIVITY_TIMEOUT + stall_credit s <=? saturating_sub (mono clk) last in
  Disconnected <$> filter (λ p, dead p = true) (connected_peers tcp).
Definition sweep_unauthenticated (tcp : Tcp) (s : SyncState) (clk : Clock) : SyncState * list effect :=
  foldl (λ acc p,
    let '(s, out) := acc in
    let first := default (mono clk) (first_seen s !! p) in
    let s := {| s with first_seen := <[p := first]> (first_seen s) |} in
    (s, out ++ (if negb (bool_decide (p ∈ authenticated s)) && (HELLO_TIMEOUT <=? saturating_sub (mono clk) first)
                then [Disconnected p] else []))) (s, []) (connected_peers tcp).

(** ** Messages *)

Definition forget_peer (s : SyncState) (p : SocketAddr) : SyncState :=
  {| s with authenticated := authenticated s ∖ {[p]}; identity := delete p (identity s);
            peer_status := delete p (peer_status s); peer_agents := delete p (peer_agents s);
            sync_next := delete p (sync_next s); bt_step := delete p (bt_step s);
            sync_strikes := delete p (sync_strikes s); last_recv := delete p (last_recv s);
            first_seen := delete p (first_seen s) |}.
Definition is_hello (m : NetMessage) : bool := match m with Hello _ _ _ _ _ _ => true | _ => false end.
Definition is_reply (m : NetMessage) : bool :=
  match m with BlockResponse _ | BlocksResponse _ | Headers _ => true | _ => false end.
(** A handshake that proved [account]. *)
Definition admit_peer (tcp : Tcp) (s : SyncState) (n : Node.t) (cfg : P2pConfig) (p : SocketAddr) (binding : option bytes)
    (account : AccountId) : option (SyncState * list effect) :=
  own ← implicit_account_id (c_key cfg);
  if bool_decide (account = own) then
    Some ({| s with last_recv := delete p (last_recv s) |}, [MarkedSelf p; Disconnected p])
  else
    let first_time := negb (bool_decide (p ∈ authenticated s)) in
    let s := {| s with authenticated := {[p]} ∪ authenticated s; identity := <[p := account]> (identity s) |} in
    if first_time then
      st ← status n;
      v ← version_msg n;
      let '(s, out) := dedup_identity tcp s account in
      Some (s, [MarkedAuthenticated p] ++ match binding with Some b => [Sent p (hello cfg b)] | None => [] end ++
               [Sent p st; Sent p v] ++ out)
    else Some (s, [MarkedAuthenticated p]).
(** Whether a reply answers what this peer was asked, and the state with that request
    closed. *)
Definition correlate (s : SyncState) (p : SocketAddr) (m : NetMessage) : option SyncState :=
  if match linkage_requests s !! p with Some f => matches (f_request f) m | None => false end then
    Some {| s with linkage_requests := delete p (linkage_requests s) |}
  else if match inflight s with Some f => bool_decide (f_peer f = p) && matches (f_request f) m | None => false end then
    Some {| s with inflight := None |}
  else None.
Definition on_status (s : SyncState) (n : Node.t) (p : SocketAddr) (height : N) (head : Hash) (work : bytes) (clk : Clock) :
    option SyncState :=
  let s := {| s with peer_status := <[p := mkStatus height head work (mono clk)]> (peer_status s) |} in
  local ← local_status n clk;
  Some (if bool_decide (head = p_head local) then {| s with sync_next := delete p (sync_next s) |}
        else if negb (bytes_leb work (p_chain_work local)) then
          let start := if p_height local <? height then p_height local + 1 else height in
          match sync_next s !! p with
          | Some _ => s
          | None => {| s with sync_next := <[p := N.max start 1]> (sync_next s) |}
          end
        else s).
Definition serve_blocks (s : SyncState) (n : Node.t) (start count : N) : list Block :=
  if durable_broken (importer s) then []
  else
    let take := size_capped_batch_len (N.to_nat (N.min count SYNC_BATCH)) start
                  (λ h, serialized_size <$> block_by_height (chain n) h) in
    omap (λ i, block_by_height (chain n) (start + N.of_nat i)) (seq 0 take).
Definition on_headers (s : SyncState) (n : Node.t) (p : SocketAddr) (hs : list BlockHeader) :
    SyncState * Node.t * list effect :=
  if bool_decide (HEADERS_BATCH < length hs)%nat then (s, n, [Penalized p OVERSIZE_RESPONSE_PENALTY])
  else if negb (checkpoint_linkage_ready (chain n))
          && match head hs with Some h => h_height h =? N.max (linkage_progress (chain n)).1 1 | None => false end then
    let '(c, r) := extend_checkpoint_linkage (chain n) hs in
    (s, with_chain n c, match r with Err _ => [Penalized p INVALID_BLOCK_PENALTY] | Ok _ => [] end)
  else
    match headers_fork_point n hs with
    | Some fork => ({| s with bt_step := delete p (bt_step s); sync_next := <[p := fork + 1]> (sync_next s) |}, n, [])
    | None =>
        match sync_next s !! p with
        | Some next => ({| s with sync_next := <[p := N.max (saturating_sub next 1) 1]> (sync_next s);
                                  bt_step := <[p := 1]> (bt_step s) |}, n, [])
        | None => (s, n, [])
        end
    end.
Definition on_transaction (n : Node.t) (stx : SignedTransaction) (clk : Clock) : option (Node.t * list effect) :=
  allowed ← suite2_admission_allowed (chain n);
  if negb (safe_new_transaction_for_suite2 (action (transaction stx)) allowed) then Some (n, [])
  else
    '(n, r) ← Node.submit n stx (wall clk);
    Some (n, match r with Ok _ => [Broadcast (NewTransaction stx)] | Err _ => [] end).
(** A message of an authenticated peer. *)
Definition dispatch (s : SyncState) (n : Node.t) (p : SocketAddr) (m : NetMessage) (clk : Clock) (io : Io) :
    option (SyncState * Node.t * list effect) :=
  match m with
  | Status height head work => s ← on_status s n p height head work clk; Some (s, n, [])
  | NewTransaction stx => '(n, out) ← on_transaction n stx clk; Some (s, n, out)
  | NewBlock b => '(s, n) ← submit_verify s n (mkJob p Announced [b]) clk io; Some (s, n, [])
  | GetBlock height =>
      let b := if durable_broken (importer s) then None else block_by_height (chain n) height in
      Some (s, n, [Sent p (BlockResponse b)])
  | GetBlocks start count => Some (s, n, [Sent p (BlocksResponse (serve_blocks s n start count))])
  | BlockResponse (Some b) => '(s, n) ← submit_verify s n (mkJob p Backtrack [b]) clk io; Some (s, n, [])
  | BlockResponse None => Some (s, n, [])
  | BlocksResponse bs =>
      if SYNC_BATCH <? N.of_nat (length bs) then Some (s, n, [Penalized p OVERSIZE_RESPONSE_PENALTY])
      else if bool_decide (bs = []) then Some ({| s with sync_next := delete p (sync_next s) |}, n, [])
      else '(s, n) ← submit_verify s n (mkJob p Batch bs) clk io; Some (s, n, [])
  | GetHeaders locator stop => Some (s, n, [Sent p (Headers (headers_from_fork_point (chain n) locator stop))])
  | Headers hs => Some (on_headers s n p hs)
  | Version protocol agent _ =>
      let s := {| s with peer_agents := <[p := (protocol, agent)]> (peer_agents s) |} in
      if protocol <? Net.MIN_SUPPORTED_PROTOCOL then
        Some ({| s with authenticated := authenticated s ∖ {[p]}; identity := delete p (identity s);
                        peer_agents := delete p (peer_agents s) |}, n, [MarkedIncompatible p; Disconnected p])
      else Some (s, n, [])
  | Peers _ | Hello _ _ _ _ _ _ | GetAddr => Some (s, n, [])
  end.
Definition handle (tcp : Tcp) (s : SyncState) (n : Node.t) (cfg : P2pConfig) (p : SocketAddr) (m : NetMessage)
    (clk : Clock) (io : Io) : option (SyncState * Node.t * list effect) :=
  let s := {| s with last_recv := <[p := mono clk]> (last_recv s) |} in
  let binding := peer_handshake_hash tcp p in
  account ← (match binding with Some b => authenticated_peer_identity m cfg b | None => Some None end);
  match account with
  | None =>
      if is_hello m then
        spoofed ← Net.implicit_account_mismatch m;
        Some (forget_peer s p, n, (if (spoofed : bool) then [Penalized p INVALID_BLOCK_PENALTY] else []) ++ [MarkedIncompatible p])
      else if negb (bool_decide (p ∈ authenticated s)) then Some (s, n, [])
      else if is_reply m then
        match correlate s p m with
        | None => Some (s, n, [])
        | Some s =>
            let replies := saturating_add u32_max (default 0 (no_progress_replies s !! p)) 1 in
            let s := {| s with no_progress_replies := <[p := replies]> (no_progress_replies s) |} in
            if 256 <? replies then Some (s, n, [Penalized p INVALID_BLOCK_PENALTY; Disconnected p])
            else dispatch s n p m clk io
        end
      else dispatch s n p m clk io
  | Some account => '(s, out) ← admit_peer tcp s n cfg p binding account; Some (s, n, out)
  end.

(** ** Requests *)

Definition request_timeout (s : SyncState) (p : SocketAddr) : N :=
  BLOCK_REQUEST_TIMEOUT * 2 ^ N.min (default 0 (sync_strikes s !! p)) 4.
Definition status_actionable (s : SyncState) (p : SocketAddr) (st : PeerStatus) (clk : Clock) : bool :=
  (saturating_sub (mono clk) (received_at st) <? STATUS_TTL + stall_credit s)
  && (default 0 (sync_strikes s !! p) <? STATUS_MAX_STRIKES).
(** Ask for the headers that prove the checkpoint, from one connected peer. *)
Definition request_linkage (tcp : Tcp) (s : SyncState) (n : Node.t) (connected : gset SocketAddr) (clk : Clock) :
    option (SyncState * list effect) :=
  match (if checkpoint_linkage_ready (chain n) then None else newest_checkpoint (chain n)) with
  | None => Some (s, [])
  | Some (_, pin_hash) =>
      locator ← (match (linkage_progress (chain n)).2 with
                 | Some h => Some [h]
                 | None => l ← build_locator n; Some (take 1 l)
                 end);
      match (if bool_decide (locator = []) then None else head (walk_set connected)) with
      | None => Some (s, [])
      | Some p =>
          if negb (bool_decide (p ∈ authenticated s))
             || match linkage_requests s !! p with
                | Some f => saturating_sub (mono clk) (f_since f) <? BLOCK_REQUEST_TIMEOUT
                | None => false
                end then Some (s, [])
          else
            let start := N.max (linkage_progress (chain n)).1 1 in
            let ask := GetHeaders locator pin_hash in
            if can_send tcp p ask then
              Some ({| s with linkage_requests := <[p := mkInFlight p (mono clk) (RLinkage start)]> (linkage_requests s) |},
                    [Sent p ask])
            else Some (s, [])
      end
  end.
(** The peer of an unanswered request is charged. *)
Definition strike (s : SyncState) (p : SocketAddr) : SyncState * list effect :=
  let strikes := saturating_add u32_max (default 0 (sync_strikes s !! p)) 1 in
  ({| s with sync_strikes := <[p := strikes]> (sync_strikes s) |},
   if strikes =? STATUS_MAX_STRIKES then [Penalized p UNSUBSTANTIATED_CLAIM_PENALTY]
   else if STRIKE_DISCONNECT <=? strikes then [Penalized p INVALID_BLOCK_PENALTY; Disconnected p]
   else []).
(** Peers with more work, most work first; the fallback puts the least struck first. *)
Definition more_work (a b : SocketAddr * PeerStatus) : Prop := bytes_leb (p_chain_work b.2) (p_chain_work a.2) = true.
#[global] Instance more_work_dec : RelDecision more_work.
Proof. intros a b. unfold more_work. apply _. Defined.
Definition claimants (s : SyncState) (connected : gset SocketAddr) (local : PeerStatus) : list (SocketAddr * PeerStatus) :=
  filter (λ e, bytes_leb (p_chain_work e.2) (p_chain_work local) = false ∧ e.1 ∈ authenticated s ∧ e.1 ∈ connected)
    (walk (peer_status s)).
Definition less_struck (s : SyncState) (a b : SocketAddr * PeerStatus) : Prop :=
  let x := default 0 (sync_strikes s !! a.1) in
  let y := default 0 (sync_strikes s !! b.1) in
  x < y ∨ (x = y ∧ more_work a b).
#[global] Instance less_struck_dec s : RelDecision (less_struck s).
Proof. intros a b. unfold less_struck. apply _. Defined.
Definition candidates (s : SyncState) (connected : gset SocketAddr) (local : PeerStatus) (clk : Clock) :
    list (SocketAddr * PeerStatus) :=
  let preferred := merge_sort more_work (filter (λ e, status_actionable s e.1 e.2 clk = true) (claimants s connected local)) in
  if bool_decide (preferred = []) then merge_sort (less_struck s) (claimants s connected local) else preferred.
(** Ask the best peer that did not just stall.  [u64::clamp] panics when its bounds cross. *)
Definition ask_best (tcp : Tcp) (s : SyncState) (local : PeerStatus) (cs : list (SocketAddr * PeerStatus))
    (stalled : option SocketAddr) (clk : Clock) : option (SyncState * list effect) :=
  match cs with
  | [] => Some ({| s with inflight := None |}, [])
  | best :: _ =>
      let '(p, st) := default best (snd <$> list_find (λ e, Some e.1 ≠ stalled) cs) in
      let tip := if p_height local <? p_height st then p_height local + 1 else p_height st in
      let cursor := default (default tip (resume_from s)) (sync_next s !! p) in
      if p_height st <? 1 then None
      else
        let height := clamp 1 (p_height st) cursor in
        let backtracking := 0 <? default 0 (bt_step s !! p) in
        let ask := if backtracking then GetBlock height else GetBlocks height SYNC_BATCH in
        if can_send tcp p ask then
          Some ({| s with inflight := Some (mkInFlight p (mono clk)
                            (if backtracking then RBlock height else RBlocks height SYNC_BATCH)) |}, [Sent p ask])
        else Some ({| s with inflight := None |}, [])
  end.
Definition request_missing (tcp : Tcp) (s : SyncState) (n : Node.t) (clk : Clock) : option (SyncState * list effect) :=
  local ← local_status n clk;
  let connected : gset SocketAddr := list_to_set (connected_peers tcp) in
  let s := retain_connected s connected in
  '(s, out) ← request_linkage tcp s n connected clk;
  match verifying s with
  | Some _ => Some (s, out)
  | None =>
      if match inflight s with
         | Some f => bool_decide (f_peer f ∈ connected)
                     && (saturating_sub (mono clk) (f_since f) <? request_timeout s (f_peer f))
         | None => false
         end then Some (s, out)
      else
        let stalled := f_peer <$> inflight s in
        let '(s, charged) := match stalled with Some p => strike s p | None => (s, []) end in
        '(s, asked) ← ask_best tcp s local (candidates s connected local clk) stalled clk;
        Some (s, out ++ charged ++ asked)
  end.

(** ** Telemetry *)

Definition telemetry (s : SyncState) (n : Node.t) (clk : Clock) : option (N * N * nat) :=
  local ← local_status n clk;
  let distinct : gset AccountId :=
    list_to_set (snd <$> filter (λ e, e.1 ∈ authenticated s) (map_to_list (identity s))) in
  let heights := (λ e, p_height e.2) <$> filter (λ e, e.1 ∈ authenticated s) (map_to_list (peer_status s)) in
  let best := match heights with [] => None | h :: hs => Some (foldr N.max h hs) end in
  let behind := match best with
                | Some b => saturating_sub b (p_height local)
                | None => if bool_decide (authenticated s = ∅) then 0 else u64_max
                end in
  Some (behind, default 0 best, size distinct).
Definition should_gate_mining (behind : N) : bool := MINING_GATE_LAG <? behind.
Definition request_peers (s : SyncState) : list effect :=
  (λ e, Sent e.1 GetAddr) <$>
    filter (λ e, Net.PROTOCOL_VERSION ≤ e.2.1 ∧ e.1 ∈ authenticated s) (walk (peer_agents s)).

(** ** The network thread *)

Definition announce (tcp : Tcp) (n : Node.t) (cfg : P2pConfig) : option (list effect) :=
  st ← status n;
  Some (p ← connected_peers tcp;
        match peer_handshake_hash tcp p with Some b => [Sent p (hello cfg b); Sent p st] | None => [] end).
(** When each periodic task last ran. *)
Record Timers := mkTimers { last_announce : N; last_reconnect : N; last_sweep : N; last_getaddr : N }.
Definition seeded (now : N) : Timers :=
  let past := default now (checked_sub now 3600000) in mkTimers past past past past.
(** One turn of the loop.  Each operation looks at the transport and at the clock itself:
    [inbox] is what was drained, with the view each message is handled under. *)
Definition view : Type := Tcp * Clock.
Record Turn := mkTurn {
  t_start : view; t_inbox : list (view * SocketAddr * NetMessage); t_collect : view; t_request : view; t_sweep : view; t_end : N;
  t_bootstrap : list string; t_spawned : bool }.
Fixpoint handle_all (s : SyncState) (n : Node.t) (cfg : P2pConfig) (inbox : list (view * SocketAddr * NetMessage)) (io : Io) :
    option (SyncState * Node.t * list effect) :=
  match inbox with
  | [] => Some (s, n, [])
  | ((tcp, clk), p, m) :: inbox =>
      '(s, n, out) ← handle tcp s n cfg p m clk io;
      '(s, n, out') ← handle_all s n cfg inbox io;
      Some (s, n, out ++ out')
  end.
Definition due (now last interval : N) : bool := interval <=? saturating_sub now last.
Definition poll (s : SyncState) (n : Node.t) (ts : Timers) (cfg : P2pConfig) (t : Turn) (io : Io) :
    option (SyncState * Node.t * Timers * (N * N * nat) * list effect) :=
  let now := mono (t_start t).2 in
  '(ts, out0) ← (if due now (last_announce ts) ANNOUNCE_INTERVAL
                 then out ← announce (t_start t).1 n cfg; Some ({| ts with last_announce := now |}, out)
                 else Some (ts, []));
  let '(ts, out1) := if due now (last_reconnect ts) RECONNECT_INTERVAL
                     then ({| ts with last_reconnect := now |}, Reconnect <$> t_bootstrap t) else (ts, []) in
  '(s, n, out2) ← handle_all s n cfg (t_inbox t) io;
  '(s, out3) ← collect_verify_reports (t_collect t).1 s n (t_collect t).2 (t_spawned t);
  '(s, out4) ← request_missing (t_request t).1 s n (t_request t).2;
  tele ← telemetry s n (t_request t).2;
  let '(tcp, clk) := t_sweep t in
  let '(s, ts, out5) :=
    if due (mono clk) (last_sweep ts) SWEEP_INTERVAL then
      let s := decay_stall_credit s (saturating_sub (mono clk) (last_sweep ts)) in
      let '(s, out) := sweep_unauthenticated tcp s clk in
      (s, {| ts with last_sweep := mono clk |}, out ++ reap_dead_peers tcp s clk)
    else (s, ts, []) in
  let '(ts, out6) := if due (mono clk) (last_getaddr ts) GETADDR_INTERVAL
                     then ({| ts with last_getaddr := mono clk |}, request_peers s) else (ts, []) in
  Some (credit_stall s (saturating_sub (t_end t) now), n, ts, tele, out0 ++ out1 ++ out2 ++ out3 ++ out4 ++ out5 ++ out6).

(** The thread finishes its job and what is queued, then ends. *)
Fixpoint finish_jobs (s : SyncState) (n : Node.t) (jobs : list VerifyJob) (clk : Clock) (io : Io) : option (SyncState * Node.t) :=
  match jobs with
  | [] => Some (s, n)
  | j :: jobs =>
      '(imp, n, r) ← run_verify_job (importer s) n j clk io;
      let v := verify_ s in
      finish_jobs {| s with importer := imp;
                            verify_ := mkChannel (job_tx v) (worker v) None (reports v ++ [r]) (has_node v) |} n jobs clk io
  end.
Definition finish_running (s : SyncState) (n : Node.t) (clk : Clock) (io : Io) : option (SyncState * Node.t) :=
  let v := verify_ s in
  match running v with
  | None => Some (s, n)
  | Some w =>
      '(imp, n, r) ← run_job (length (j_blocks (w_job w))) (importer s) n w clk io;
      Some ({| s with importer := imp; verify_ := mkChannel (job_tx v) (worker v) None (reports v ++ [r]) (has_node v) |}, n)
  end.
Definition shutdown_verifier (s : SyncState) (n : Node.t) (clk : Clock) (io : Io) : option (SyncState * Node.t) :=
  let queue := default [] (job_tx (verify_ s)) in
  let v := verify_ s in
  let s := {| s with verify_ := mkChannel None (worker v) (running v) (reports v) (has_node v) |} in
  '(s, n) ← finish_running s n clk io;
  '(s, n) ← finish_jobs s n queue clk io;
  let v := verify_ s in
  Some ({| s with verify_ := mkChannel None None None (reports v) (has_node v) |}, n).
(** A clean stop. *)
Definition stop (tcp : Tcp) (s : SyncState) (n : Node.t) (clk : Clock) (io : Io) (spawned : bool) :
    option (SyncState * Node.t * list effect) :=
  '(s, n) ← shutdown_verifier s n clk io;
  '(s, out) ← collect_verify_reports tcp s n clk spawned;
  Some ({| s with importer := sync_log (importer s) io |}, n, out).
End sync.
End Sync.
