(* ===== verification/SyncSpec.v ===== *)
(** * What two synchronising nodes exchange (crates/rpc/src/p2p.rs)

    Batches that fit a frame, and the locator exchange that finds where two chains part. *)

From S2P Require Import Prelude Primitives Pow Mining Governance Crypto Compliance Smt Types Block BlockLog Network.
From S2P Require Import Gas Vault Ledger ShieldedV2 Execution Verify Chain ChainReplay ChainInv ChainImport ChainSafety.
From S2P Require Import Produce Mempool Timing Node Sync.
#[local] Open Scope N_scope.

Module SyncSpec.
Import Sync.

(** ** Batches *)

(** The blocks from [h] on, as far as they go. *)
Fixpoint sizes (n : nat) (h : N) (size_at : N → option N) : list N :=
  match n with
  | O => []
  | S n => match size_at h with Some sz => sz :: sizes n (h + 1) size_at | None => [] end
  end.
Definition total (l : list N) : N := foldr N.add 0 l.

Lemma batch_loop_spec room : ∀ taken bytes h size_at, SYNC_BATCH_MAX_BYTES ≤ u64_max → bytes ≤ u64_max →
  ∃ k, batch_loop room taken bytes h size_at = (taken + k)%nat ∧ (k ≤ room)%nat ∧
    length (sizes k h size_at) = k ∧
    ((0 < taken)%nat → (0 < k)%nat → bytes + total (sizes k h size_at) ≤ SYNC_BATCH_MAX_BYTES) ∧
    (taken = 0%nat → (1 < k)%nat → bytes + total (sizes k h size_at) ≤ SYNC_BATCH_MAX_BYTES) ∧
    (taken = 0%nat → (0 < room)%nat → is_Some (size_at h) → (0 < k)%nat) ∧
    ((k < room)%nat → size_at (h + N.of_nat k) = None ∨
       (0 < taken + k)%nat ∧ ∃ sz, size_at (h + N.of_nat k) = Some sz ∧
         SYNC_BATCH_MAX_BYTES < bytes + total (sizes k h size_at) + sz).
Proof.
  induction room as [|room IH]; intros taken bytes h size_at Hm Hb; cbn [batch_loop].
  { exists 0%nat. split_and!; cbn; try lia. }
  destruct (size_at h) as [sz|] eqn:Es.
  2: { exists 0%nat. cbn [sizes length total foldr]. split_and!; try lia; [intros _ _ []; done|]. intros _. left. by rewrite N.add_0_r. }
  destruct ((0 <? taken)%nat && (SYNC_BATCH_MAX_BYTES <? saturating_add u64_max bytes sz)) eqn:Ec.
  { apply andb_true_iff in Ec as [Ht%Nat.ltb_lt Ho%N.ltb_lt]. unfold saturating_add in Ho.
    exists 0%nat. cbn [sizes length total foldr]. split_and!; try lia. intros _. right. split; [lia|]. exists sz. rewrite N.add_0_r. split; [done|lia]. }
  destruct (IH (S taken) (saturating_add u64_max bytes sz) (h + 1) size_at Hm) as (k & E & Hk & Hl & H1 & _ & _ & H2).
  { unfold saturating_add. lia. }
  exists (S k). rewrite E. cbn [sizes]. rewrite Es. cbn [length total foldr]. fold (total (sizes k (h + 1) size_at)).
  assert ((0 < taken)%nat → saturating_add u64_max bytes sz = bytes + sz ∧ bytes + sz ≤ SYNC_BATCH_MAX_BYTES) as Hfit.
  { intros Ht. apply andb_false_iff in Ec as [Ec%Nat.ltb_ge|Ec%N.ltb_ge]; [lia|].
    unfold saturating_add, SYNC_BATCH_MAX_BYTES, u64_max in *. lia. }
  assert ((0 < k)%nat → saturating_add u64_max bytes sz + total (sizes k (h + 1) size_at) ≤ SYNC_BATCH_MAX_BYTES) as Hrest by (apply H1; lia).
  assert ((0 < k)%nat → saturating_add u64_max bytes sz = bytes + sz) as Hns.
  { intros Hk0. specialize (Hrest Hk0). unfold saturating_add in *. unfold SYNC_BATCH_MAX_BYTES, u64_max in *. lia. }
  split_and!; [lia|lia|by rewrite Hl| | |intros; lia|].
  - intros Ht _. destruct (decide (k = 0%nat)) as [->|]; [cbn; destruct (Hfit Ht); lia|]. rewrite Hns in Hrest by lia. lia.
  - intros _ Hk1. rewrite Hns in Hrest by lia. lia.
  - intros Hk'. replace (h + N.of_nat (S k)) with (h + 1 + N.of_nat k) by lia. destruct H2 as [H2|(_ & sz' & E' & Ho)]; [lia|by left|].
    right. split; [lia|]. exists sz'. split; [done|]. unfold saturating_add in Ho. lia.
Qed.

Lemma sizes_present n : ∀ h size_at, length (sizes n h size_at) = n → ∀ i, (i < n)%nat → is_Some (size_at (h + N.of_nat i)).
Proof.
  induction n as [|n IH]; intros h size_at Hl i Hi; [lia|]. cbn [sizes] in Hl. destruct (size_at h) as [sz|] eqn:E; [|done].
  cbn [length] in Hl. destruct i as [|i]; [rewrite N.add_0_r; by eexists|].
  replace (h + N.of_nat (S i)) with (h + 1 + N.of_nat i) by lia. apply IH; lia.
Qed.
Lemma batch_present want start size_at : (0 < want)%nat → is_Some (size_at start) →
  let n := size_capped_batch_len want start size_at in
  (0 < n ≤ want)%nat ∧ ∀ i, (i < n)%nat → is_Some (size_at (start + N.of_nat i)).
Proof.
  intros Hw Hs. unfold size_capped_batch_len.
  destruct (batch_loop_spec want 0 0 start size_at) as (k & -> & Hk & Hl & _ & _ & H2 & _); [done|done|]. cbn [Nat.add].
  split; [split; [by apply H2|done]|by apply sizes_present].
Qed.
Lemma sorted_lookup {A} (R : A → A → Prop) l i j x y : StronglySorted R l → l !! i = Some x → l !! j = Some y → (i < j)%nat → R x y.
Proof.
  intros Hs. revert i j. induction Hs as [|a l Hs IH Ha]; intros [|i] [|j] Ei Ej Hij; try done; try lia.
  - injection Ei as <-. rewrite Forall_forall in Ha. apply Ha. by eapply list_elem_of_lookup_2.
  - apply (IH i j); [done|done|lia].
Qed.

(** A batch is as large as it may be.  Counting the blocks of one reply: at most as
    many as asked for, all of them present; if more than one, together within the byte
    budget; at least one if the first exists; and if fewer than asked for, the next block
    does not exist or would pass the budget. *)
Theorem batch_fits want start size_at :
  let n := size_capped_batch_len want start size_at in
  let sent := sizes n start size_at in
  (n ≤ want)%nat ∧ length sent = n ∧
  ((1 < n)%nat → total sent ≤ SYNC_BATCH_MAX_BYTES) ∧
  ((0 < want)%nat → is_Some (size_at start) → (0 < n)%nat) ∧
  ((n < want)%nat → size_at (start + N.of_nat n) = None ∨
     ∃ sz, size_at (start + N.of_nat n) = Some sz ∧ SYNC_BATCH_MAX_BYTES < total sent + sz).
Proof.
  intros n sent. unfold sent, n, size_capped_batch_len.
  destruct (batch_loop_spec want 0 0 start size_at) as (k & -> & Hk & Hl & _ & H1 & H2 & H3); [done|done|]. cbn [Nat.add].
  split_and!; [done|done|intros; rewrite <- (N.add_0_l (total _)); by apply H1|by apply H2|].
  intros Hlt. destruct (H3 Hlt) as [?|(_ & sz & E & Ho)]; [by left|]. right. exists sz. split; [done|lia].
Qed.

(** ** Locators *)

(** The first entry is the tip. *)
Lemma locator_heights_eq tip : locator_heights tip = if tip =? 0 then [0] else tip :: locator_loop 30 tip 1 ++ [0].
Proof.
  unfold locator_heights, LOCATOR_CAP. change (32 - 1)%nat with (S 30). generalize 30%nat. intros room. cbn [locator_loop].
  rewrite (proj2 (N.ltb_ge tip 0)) by lia. rewrite N.sub_0_r. by destruct (tip =? 0).
Qed.
Lemma double_small o : o < 2 ^ 31 → saturating_mul u64_max o 2 = o * 2.
Proof. intros Ho. apply N.min_r. change (2 ^ 31) with 2147483648 in Ho. change u64_max with 18446744073709551615. lia. Qed.
Lemma locator_loop_covers tip f d : tip < 2 ^ 30 → f + d = tip → 1 ≤ d → ∀ room o,
  1 ≤ o → o ≤ 2 * d → tip < o * 2 ^ N.of_nat room →
  ∃ h, h ∈ locator_loop room tip o ++ [0] ∧ h ≤ f ∧ tip - h ≤ 2 * d.
Proof.
  intros Ht Hd H1. assert (∀ l, 0 ∈ l ++ [0]) as Hz by (intros; apply elem_of_app; right; left).
  induction room as [|room IH]; intros o Ho Ho2 Hr; cbn [locator_loop].
  { exists 0. split; [apply Hz|]. cbn in Hr. lia. }
  destruct (N.ltb_spec tip o) as [Hlt|Hge]; [exists 0; split; [apply Hz|lia]|].
  destruct (N.eqb_spec (tip - o) 0); [exists 0; split; [apply Hz|lia]|].
  destruct (N.eqb_spec o 0); [lia|]. destruct (N.le_gt_cases d o) as [Hdo|Hdo].
  { exists (tip - o). split; [left|lia]. }
  rewrite double_small by (change (2 ^ 30) with 1073741824 in Ht; change (2 ^ 31) with 2147483648; lia).
  destruct (IH (o * 2)) as (h & Hh & Hrest); [lia|lia| |].
  { rewrite Nat2N.inj_succ, N.pow_succ_r' in Hr. lia. }
  exists h. split; [by right|done].
Qed.
(** Some entry is at or below any height, at most twice as far from the tip. *)
Lemma locator_covers tip f : tip < 2 ^ 30 → f ≤ tip →
  ∃ h, h ∈ locator_heights tip ∧ h ≤ f ∧ tip - h ≤ 2 * (tip - f).
Proof.
  intros Ht Hf. rewrite locator_heights_eq. destruct (N.eqb_spec tip 0) as [->|Hne]; [exists 0; split; [left|lia]|].
  destruct (N.eq_dec f tip) as [->|Hft]; [exists tip; split; [left|lia]|].
  destruct (locator_loop_covers tip f (tip - f) Ht ltac:(lia) ltac:(lia) 30 1) as (h & Hh & Hr); [lia|lia| |].
  { change (1 * 2 ^ N.of_nat 30) with (2 ^ 30). done. }
  exists h. split; [by right|done].
Qed.
Lemma locator_loop_below room : ∀ tip o, tip < 2 ^ 30 → 1 ≤ o → o < 2 ^ 31 →
  Forall (λ h, 0 < h ∧ h ≤ tip - o ∧ o ≤ tip) (locator_loop room tip o) ∧
  StronglySorted (λ a b, b < a) (locator_loop room tip o).
Proof.
  induction room as [|room IH]; intros tip o Ht H1 H2; cbn [locator_loop]; [split; constructor|].
  destruct (N.ltb_spec tip o); [split; constructor|]. destruct (N.eqb_spec (tip - o) 0); [split; constructor|].
  destruct (N.eqb_spec o 0); [lia|]. rewrite double_small by done.
  destruct (IH tip (o * 2)) as [Hf Hs]; [done|lia|change (2 ^ 30) with 1073741824 in Ht; change (2 ^ 31) with 2147483648; lia|]. split.
  - constructor; [lia|]. eapply Forall_impl; [exact Hf|]. cbn. intros; lia.
  - constructor; [done|]. eapply Forall_impl; [exact Hf|]. cbn. intros; lia.
Qed.
Lemma locator_sorted tip : tip < 2 ^ 30 →
  StronglySorted (λ a b, b < a) (locator_heights tip) ∧ Forall (λ h, h ≤ tip) (locator_heights tip) ∧
  (length (locator_heights tip) ≤ LOCATOR_CAP)%nat.
Proof.
  intros Ht.
  assert (∀ l, StronglySorted (λ a b, b < a) l → Forall (λ h, 0 < h) l → StronglySorted (λ a b, b < a) (l ++ [0])) as Hsnoc.
  { intros l. induction 1 as [|a l Hs IH Ha]; intros Hp; [repeat constructor|]. apply Forall_cons in Hp as [Hp Hpl].
    cbn. constructor; [by apply IH|]. apply Forall_app. split; [done|]. by constructor. }
  assert (∀ room o, (length (locator_loop room tip o) ≤ room)%nat) as Hlen.
  { induction room as [|room IH]; intros o; cbn [locator_loop]; [done|]. destruct (_ <? _); [cbn; lia|]. destruct (_ =? _); [cbn; lia|].
    cbn. specialize (IH (if o =? 0 then 1 else saturating_mul u64_max o 2)). lia. }
  split_and!; [| |unfold locator_heights; rewrite length_app; specialize (Hlen (LOCATOR_CAP - 1)%nat 0); unfold LOCATOR_CAP in *; cbn [length]; lia].
  all: clear Hlen; rewrite locator_heights_eq; destruct (N.eqb_spec tip 0) as [->|Hne];
    [repeat constructor; lia|]; destruct (locator_loop_below 30 tip 1 Ht ltac:(lia) ltac:(lia)) as [Hf Hs].
  - apply (Hsnoc (tip :: _)); constructor; [done| |lia|]; eapply Forall_impl; try exact Hf; cbn; intros; lia.
  - constructor; [lia|]. apply Forall_app. split; [eapply Forall_impl; [exact Hf|]; cbn; intros; lia|repeat constructor; lia].
Qed.

(** ** Two chains *)

Section exchange.
Context `{CE : ChainEnv} `{UP : !UntornPools} `{Node.Display ShieldedV2Error} `{Borsh Block} `{SyncEnv}.
Import Chain ChainReplay ChainImport ChainSafety.
Implicit Types (c : Blockchain) (b : Block).

Definition active_hash c (h : N) : option Hash := block_hash <$> block_by_height c h.
(** The active chain: blocks at their heights, each naming its parent, no hash twice. *)
Record active_ok c : Prop := {
  a_height : ∀ i b, block_by_height c i = Some b → block_height b = i;
  a_prev : ∀ i b b', block_by_height c i = Some b → block_by_height c (i + 1) = Some b' →
    h_prev_hash (header b') = block_hash b;
  a_hash : ∀ i j b b', block_by_height c i = Some b → block_by_height c j = Some b' →
    block_hash b = block_hash b' → i = j;
  a_top : ∃ top, height_ c = Some top ∧ ∀ i, is_Some (block_by_height c i) ↔ i ≤ top }.
Lemma reachable_active g c : config_wf g → reachable g c → active_ok c.
Proof.
  intros Hg [rss OK]%reachable_ok; [|done]. destruct (ok_live _ _ OK) as [Hr _]. split.
  - intros i b E. destruct (replayed_heights _ _ _ _ _ _ _ Hr _ _ E) as [Hh _]. lia.
  - intros i b b' E E'. pose proof (take_drop_middle _ _ _ E) as Ed. rewrite <- Ed in Hr.
    change (b :: drop (S (N.to_nat i)) (blocks c)) with ([b] ++ drop (S (N.to_nat i)) (blocks c)) in Hr.
    rewrite app_assoc in Hr. apply ChainInv.replayed_linked in Hr.
    assert (drop (S (N.to_nat i)) (blocks c) !! 0%nat = Some b') as E0.
    { rewrite lookup_drop. by replace (S (N.to_nat i) + 0)%nat with (N.to_nat (i + 1)) by lia. }
    destruct (drop (S (N.to_nat i)) (blocks c)) as [|x l]; [done|]. injection E0 as ->. by destruct Hr.
  - intros i j b b' E E' Eh. enough (N.to_nat i = N.to_nat j) by lia. by eapply ChainInv.replayed_eq_at.
  - destruct (head_entry _ _ OK) as (bs & p & he & Eb & _). exists (block_height p). unfold height_, head_block, block_by_height.
    rewrite Eb in Hr |- *. rewrite last_snoc. split; [done|]. intros i.
    destruct (replayed_heights _ _ _ _ _ _ _ Hr (length bs) p) as [Hp _]; [by apply list_lookup_middle|].
    rewrite lookup_lt_is_Some, length_app. cbn [length]. lia.
Qed.
Lemma find_active c i b : active_ok c → block_by_height c i = Some b → block_by_hash c (block_hash b) = Some b.
Proof.
  intros A E. unfold block_by_hash. destruct (list_find (λ b', block_hash b' = block_hash b) (blocks c)) as [[j b']|] eqn:Ef.
  - apply list_find_Some in Ef as (Ej & Eh & _). cbn. f_equal.
    assert (block_by_height c (N.of_nat j) = Some b') as Ej' by (unfold block_by_height; by rewrite Nat2N.id).
    pose proof (a_hash _ A _ _ _ _ Ej' E Eh) as <-. congruence.
  - exfalso. apply list_find_None in Ef. rewrite Forall_forall in Ef. by apply (Ef b); [eapply list_elem_of_lookup_2|].
Qed.
Lemma found_active c h b : active_ok c → block_by_hash c h = Some b →
  block_hash b = h ∧ block_by_height c (block_height b) = Some b.
Proof.
  intros A E. unfold block_by_hash in E. destruct (list_find _ _) as [[j b']|] eqn:Ef; [|done]. injection E as ->.
  apply list_find_Some in Ef as (Ej & Eh & _). split; [done|].
  assert (block_by_height c (N.of_nat j) = Some b) as Ej' by (unfold block_by_height; by rewrite Nat2N.id).
  by rewrite (a_height _ A _ _ Ej').
Qed.

(** *** Serving *)

Lemma headers_loop_spec c stop : ∀ room h, active_ok c →
  ∀ i x, headers_loop room c h stop !! i = Some x → ∃ b, block_by_height c (h + N.of_nat i) = Some b ∧ header b = x.
Proof.
  intros room. induction room as [|room IH]; intros h A i x E; [done|]. cbn [headers_loop] in E.
  destruct (block_by_height c h) as [b|] eqn:Eb; [|done]. destruct i as [|i].
  - injection E as <-. exists b. by rewrite N.add_0_r.
  - cbn in E. destruct (bool_decide (block_hash b = stop)); [done|]. destruct (IH _ A _ _ E) as (b' & Eb' & Ex).
    exists b'. by replace (h + N.of_nat (S i)) with (h + 1 + N.of_nat i) by lia.
Qed.
Lemma headers_loop_length room c h stop : (length (headers_loop room c h stop) ≤ room)%nat.
Proof.
  revert h. induction room as [|room IH]; intros h; cbn [headers_loop]; [done|]. destruct (block_by_height c h) as [b|]; [|cbn; lia].
  cbn. destruct (bool_decide _); cbn; [lia|]. specialize (IH (h + 1)). lia.
Qed.
Lemma headers_loop_head c h stop b : block_by_height c h = Some b → head (headers_loop HEADERS_BATCH c h stop) = Some (header b).
Proof. intros E. change HEADERS_BATCH with (S 1999). generalize 1999%nat. intros room. cbn [headers_loop]. by rewrite E. Qed.
Lemma served_contiguous c stop : ∀ room h prev b, active_ok c → block_by_height c h = Some b → prev = block_hash b →
  (∃ top, height_ c = Some top ∧ top < u64_max) → contiguous (h + 1) prev (headers_loop room c (h + 1) stop) = true.
Proof.
  intros room. induction room as [|room IH]; intros h prev b A Eb -> Ht; [done|]. cbn [headers_loop].
  destruct (block_by_height c (h + 1)) as [b'|] eqn:E'; [|done]. cbn [contiguous].
  assert (h_height (header b') = h + 1) as -> by exact (a_height _ A _ _ E').
  rewrite N.eqb_refl, bool_decide_true by exact (a_prev _ A _ _ _ Eb E'). cbn [andb].
  destruct Ht as (top & Et & Hb). destruct (a_top _ A) as (top' & Et' & Hi). rewrite Et in Et'. injection Et' as <-.
  assert (h + 1 ≤ top) by (apply Hi; by eexists).
  unfold checked_add. rewrite (proj2 (N.leb_le _ _)) by lia. change (header_hash (header b')) with (block_hash b').
  destruct (bool_decide (block_hash b' = stop)); [done|]. apply (IH (h + 1) _ b'); [done..|]. exact (ex_intro _ top (conj Et Hb)).
Qed.
(** The blocks at consecutive heights of an active chain are linked. *)
Lemma served_linked c k : ∀ h, active_ok c → (∃ top, height_ c = Some top ∧ top < u64_max) →
  (∀ i, (i < k)%nat → is_Some (block_by_height c (h + N.of_nat i))) →
  let bs := omap (λ i, block_by_height c (h + N.of_nat i)) (seq 0 k) in
  length bs = k ∧ Sync.linked bs = true ∧ match head bs with Some b => block_height b = h | None => k = 0%nat end.
Proof.
  intros h A (top & Et & Hb) Hs. set (blk i := block_by_height c (h + N.of_nat i)).
  assert (∀ j m, (j + m ≤ k)%nat → ∃ bs, omap blk (seq j m) = bs ∧ length bs = m ∧ Sync.linked bs = true ∧
    (∀ b, head bs = Some b → block_height b = h + N.of_nat j) ∧ (0 < m → is_Some (head bs))%nat) as Hgen.
  { intros j m. revert j. induction m as [|m IH]; intros j Hj; cbn [seq omap list_omap].
    { exists []. split_and!; [done..|lia]. }
    destruct (Hs j ltac:(lia)) as [b Eb]. unfold blk at 1. rewrite Eb. destruct (IH (S j)) as (bs & E & Hl & Hlk & Hh & Hsome); [lia|].
    exists (b :: bs). rewrite E. split_and!; [done|cbn; lia| |intros x [= <-]; exact (a_height _ A _ _ Eb)|by eexists].
    destruct bs as [|b' bs]; [done|]. 
    change (Sync.linked (b :: b' :: bs)) with ((block_height b' =? saturating_add u64_max (block_height b) 1)
      && bool_decide (h_prev_hash (header b') = block_hash b) && Sync.linked (b' :: bs)). rewrite Hlk, andb_true_r. specialize (Hh b' eq_refl).
    assert (block_by_height c (h + N.of_nat j + 1) = Some b') as Eb'.
    { destruct m as [|m]; [done|]. cbn [seq omap list_omap] in E. destruct (Hs (S j) ltac:(lia)) as [b2 E2]. unfold blk at 1 in E.
      rewrite E2 in E. injection E as -> _. by replace (h + N.of_nat j + 1) with (h + N.of_nat (S j)) by lia. }
    apply andb_true_iff. split; [|apply bool_decide_eq_true; exact (a_prev _ A _ _ _ Eb Eb')].
    apply N.eqb_eq. rewrite Hh, (a_height _ A _ _ Eb). destruct (a_top _ A) as (top' & Et' & Hi). rewrite Et in Et'. injection Et' as <-.
    assert (h + N.of_nat j + 1 ≤ top) by (apply Hi; by eexists). unfold saturating_add. lia. }
  destruct (Hgen 0%nat k) as (bs & -> & Hl & Hlk & Hh & Hsome); [lia|]. split_and!; [done..|].
  destruct bs as [|b bs]; [done|]. cbn. rewrite (Hh b eq_refl). lia.
Qed.

(** *** The exchange *)

(** No two headers of the two chains collide. *)
Definition no_collision c1 c2 : Prop := ∀ i j b b', block_by_height c1 i = Some b → block_by_height c2 j = Some b' →
  block_hash b = block_hash b' → header b = header b'.
Lemma shared_below c1 c2 i : active_ok c1 → active_ok c2 → no_collision c1 c2 → is_Some (active_hash c1 (i + 1)) →
  active_hash c1 (i + 1) = active_hash c2 (i + 1) → active_hash c1 i = active_hash c2 i.
Proof.
  intros A1 A2 Hc [x Ex] E. rewrite Ex in E. unfold active_hash in *.
  destruct (block_by_height c1 (i + 1)) as [b1|] eqn:E1; [|done]. destruct (block_by_height c2 (i + 1)) as [b2|] eqn:E2; [|done].
  injection Ex as <-. injection E as E. pose proof (Hc _ _ _ _ E1 E2 E) as Eh.
  destruct (a_top _ A1) as (t1 & _ & T1), (a_top _ A2) as (t2 & _ & T2).
  assert (i + 1 ≤ t1) by (apply T1; by eexists). assert (i + 1 ≤ t2) by (apply T2; by eexists).
  destruct (proj2 (T1 i) ltac:(lia)) as [p1 P1], (proj2 (T2 i) ltac:(lia)) as [p2 P2]. rewrite P1, P2. cbn. f_equal.
  rewrite <- (a_prev _ A1 _ _ _ P1 E1), <- (a_prev _ A2 _ _ _ P2 E2). by rewrite Eh.
Qed.
Lemma shared_down c1 c2 f : active_ok c1 → active_ok c2 → no_collision c1 c2 → is_Some (active_hash c1 f) →
  active_hash c1 f = active_hash c2 f → ∀ i, i ≤ f → active_hash c1 i = active_hash c2 i.
Proof.
  intros A1 A2 Hc Hs E i Hi. replace i with (f - (f - i)) by lia. generalize (f - i). clear i Hi. intros k.
  induction k as [|k IH] using N.peano_ind; [by rewrite N.sub_0_r|]. destruct (N.le_gt_cases f k); [by replace (f - N.succ k) with (f - k) by lia|].
  replace (f - k) with (f - N.succ k + 1) in IH by lia. apply shared_below; try done.
  destruct Hs as [x Ex]. unfold active_hash in *. destruct (a_top _ A1) as (t1 & _ & T1).
  apply fmap_is_Some, T1. enough (f ≤ t1) by lia. apply T1. destruct (block_by_height c1 f); [by eexists|done].
Qed.
Lemma fork_of_spec c1 c2 hs : active_ok c1 → active_ok c2 → no_collision c1 c2 →
  Forall (λ h, is_Some (block_by_height c1 h)) hs →
  fork_of c2 (omap (λ h, block_hash <$> block_by_height c1 h) hs)
    = match list_find (λ h, active_hash c1 h = active_hash c2 h) hs with Some (_, h) => h | None => 0 end.
Proof.
  intros A1 A2 Hc. induction 1 as [|h hs [b Eb] _ IH]; [done|]. cbn [omap list_omap]. rewrite Eb. cbn [fmap option_fmap option_map fork_of].
  cbn [list_find]. destruct (block_by_hash c2 (block_hash b)) as [b'|] eqn:Ef.
  - destruct (found_active _ _ _ A2 Ef) as [Eh Ea]. rewrite bool_decide_true by (rewrite Ea; cbn; congruence).
    assert (block_height b' = h) as Ebh.
    { rewrite <- (a_height _ A1 _ _ Eb). unfold block_height. by rewrite (Hc _ _ _ _ Eb Ea (eq_sym Eh)). }
    rewrite decide_True; [done|]. unfold active_hash. rewrite Ebh in Ea. rewrite Eb, Ea. cbn. congruence.
  - rewrite decide_False; [rewrite IH; by destruct (list_find _ hs) as [[]|]|]. unfold active_hash. rewrite Eb. intros E.
    destruct (block_by_height c2 h) as [b2|] eqn:E2; [|done]. injection E as E. rewrite E, (find_active _ _ _ A2 E2) in Ef. done.
Qed.

Lemma length_omap_le {A B} (g : A → option B) l : (length (omap g l) ≤ length l)%nat.
Proof. induction l as [|x l IH]; [done|]. cbn. destruct (g x); cbn; unfold omap in *; lia. Qed.
(** The first height of the locator at which both chains have the same block. *)
Lemma locator_fork c1 c2 tip f : active_ok c1 → active_ok c2 → no_collision c1 c2 →
  height_ c1 = Some tip → tip < 2 ^ 30 → f ≤ tip → active_hash c1 f = active_hash c2 f →
  ∃ k fork, list_find (λ h, active_hash c1 h = active_hash c2 h) (locator_heights tip) = Some (k, fork) ∧
    fork ≤ tip ∧ tip - fork ≤ 2 * (tip - f).
Proof.
  intros A1 A2 Hc Et Ht Hf Ef. destruct (a_top _ A1) as (t1 & Et1 & T1). rewrite Et in Et1. injection Et1 as <-.
  destruct (locator_sorted tip Ht) as (Hs & Hb & _). destruct (locator_covers tip f Ht Hf) as (h & Hh & Hhf & Hhd).
  assert (is_Some (active_hash c1 f)) as Hsf by (apply fmap_is_Some, T1; lia).
  pose proof (shared_down _ _ _ A1 A2 Hc Hsf Ef h Hhf) as Eh.
  destruct (list_find (λ h, active_hash c1 h = active_hash c2 h) (locator_heights tip)) as [[k fork]|] eqn:Efind.
  - exists k, fork. split; [done|]. apply list_find_Some in Efind as (Ek & _ & Hbefore).
    split; [rewrite Forall_forall in Hb; apply Hb; by eapply list_elem_of_lookup_2|].
    apply list_elem_of_lookup in Hh as [j Ej]. enough (h ≤ fork) by lia.
    destruct (Nat.lt_trichotomy j k) as [Hjk|[->|Hjk]]; [by destruct (Hbefore j h Ej Hjk)|rewrite Ek in Ej; injection Ej as <-; lia|].
    assert (h < fork) by exact (sorted_lookup _ _ _ _ _ _ Hs Ek Ej Hjk). lia.
  - apply list_find_None in Efind. rewrite Forall_forall in Efind. by destruct (Efind h Hh).
Qed.
(** A batch from a height the server has is accepted, and empty only behind the
    durability latch; above its top there is none. *)
Lemma serve_batch (s : SyncState) (sv : Node.t) top h : active_ok (Node.chain sv) → height_ (Node.chain sv) = Some top →
  top < u64_max → h ≤ top → let bs := serve_blocks s sv h SYNC_BATCH in
  matches (RBlocks h SYNC_BATCH) (Net.BlocksResponse bs) = true ∧ (bs = [] ↔ durable_broken (importer s) = true).
Proof.
  intros A2 Etop Htop Hh. set (c2 := Node.chain sv) in *. destruct (a_top _ A2) as (t2 & Et2 & T2). rewrite Etop in Et2. injection Et2 as <-.
  cbn zeta. unfold serve_blocks. destruct (durable_broken (importer s)); [done|]. fold c2. destruct (proj2 (T2 h) Hh) as [b1 Eb1].
  destruct (batch_present 256 h (λ h, serialized_size <$> block_by_height c2 h)) as [[Hn0 Hn1] Hnp]; [lia|rewrite Eb1; by eexists|].
  change (N.to_nat (N.min SYNC_BATCH SYNC_BATCH)) with 256%nat. set (n := size_capped_batch_len _ _ _) in *.
  destruct (served_linked c2 n h A2) as (Hblen & Hblk & Hbh).
  { exact (ex_intro _ top (conj Etop Htop)). }
  { intros i Hi. destruct (Hnp i Hi) as [z Ez]. destruct (block_by_height c2 (h + N.of_nat i)); [by eexists|done]. }
  set (batch := omap _ _) in *. clearbody n batch. split.
  - cbn [matches]. rewrite Hblk, andb_true_r. apply andb_true_iff. split; [apply N.leb_le; unfold SYNC_BATCH in *; lia|].
    destruct (head batch) as [x|]; [|done]. by apply N.eqb_eq.
  - split; [|done]. intros ->. cbn in Hblen. lia.
Qed.
Lemma serve_none (s : SyncState) (sv : Node.t) top : active_ok (Node.chain sv) → height_ (Node.chain sv) = Some top →
  serve_blocks s sv (top + 1) SYNC_BATCH = [] ∧ headers_loop HEADERS_BATCH (Node.chain sv) (top + 1) Hash_ZERO = [].
Proof.
  intros A2 Etop. destruct (a_top _ A2) as (t2 & Et2 & T2). rewrite Etop in Et2. injection Et2 as <-.
  assert (∀ h, top < h → block_by_height (Node.chain sv) h = None) as Hn.
  { intros h Hh. destruct (block_by_height (Node.chain sv) h) eqn:E; [|done]. assert (h ≤ top) by (apply T2; by eexists). lia. }
  split; [|change HEADERS_BATCH with (S 1999); cbn [headers_loop]; by rewrite Hn by lia].
  unfold serve_blocks. destruct (durable_broken (importer s)); [done|]. match goal with |- omap _ ?l = [] => generalize l end.
  intros hts. induction hts as [|i hts IH]; [done|]. cbn. rewrite Hn by lia. exact IH.
Qed.

(** C19: one exchange finds where two chains part.  Both chains are ones the genesis can
    reach, no two of their headers collide, the client has fewer than 2{^30} blocks, and
    they agree at height [f].  The client sends the locator of its chain.  Then there is
    a height [fork] at which both have the same block, at most twice as far below the
    client's top as [f], such that the server's reply answers the request and starts
    above [fork].  If the server's top is [fork] (it is merely behind), the reply and
    the batch above are empty.  Otherwise the client computes [fork] from the reply, and
    the server's batch from there on is accepted, and empty only if the server's
    durability latch is set. *)
Theorem locator_finds_fork g (cl sv : Node.t) (s : SyncState) tip top f :
  config_wf g → reachable g (Node.chain cl) → reachable g (Node.chain sv) → no_collision (Node.chain cl) (Node.chain sv) →
  height_ (Node.chain cl) = Some tip → tip < 2 ^ 30 → height_ (Node.chain sv) = Some top → top < u64_max →
  f ≤ tip → active_hash (Node.chain cl) f = active_hash (Node.chain sv) f →
  ∃ locator fork, build_locator cl = Some locator ∧
    let hs := headers_from_fork_point (Node.chain sv) locator Hash_ZERO in
    let bs := serve_blocks s sv (fork + 1) SYNC_BATCH in
    is_Some (active_hash (Node.chain cl) fork) ∧ active_hash (Node.chain cl) fork = active_hash (Node.chain sv) fork ∧
    tip - fork ≤ 2 * (tip - f) ∧ matches (RHeaders locator) (Net.Headers hs) = true ∧
    if fork =? top then hs = [] ∧ bs = []
    else headers_fork_point cl hs = Some fork ∧ matches (RBlocks (fork + 1) SYNC_BATCH) (Net.BlocksResponse bs) = true ∧
      (bs = [] ↔ durable_broken (importer s) = true).
Proof.
  intros Hg R1 R2 Hc Et Ht Etop Htop Hf Ef. pose proof (reachable_active _ _ Hg R1) as A1. pose proof (reachable_active _ _ Hg R2) as A2.
  set (c1 := Node.chain cl) in *. set (c2 := Node.chain sv) in *.
  destruct (a_top _ A1) as (t1 & Et1 & T1), (a_top _ A2) as (t2 & Et2 & T2). rewrite Et in Et1. injection Et1 as <-.
  rewrite Etop in Et2. injection Et2 as <-. destruct (locator_sorted tip Ht) as (_ & Hb & Hl).
  destruct (locator_fork c1 c2 tip f A1 A2 Hc Et Ht Hf Ef) as (k & fork & Efind & Hft & Hdist).
  set (hts := locator_heights tip) in *. set (locator := omap (λ h, block_hash <$> block_by_height c1 h) hts).
  assert (Forall (λ h, is_Some (block_by_height c1 h)) hts) as Hall by (eapply Forall_impl; [exact Hb|]; intros h; apply T1).
  pose proof Efind as Efind'. apply list_find_Some in Efind' as (Ek & Eshare & _).
  destruct (proj2 (T1 fork) Hft) as [bf Ebf]. pose proof Eshare as Eshare'. unfold active_hash in Eshare'. rewrite Ebf in Eshare'.
  destruct (block_by_height c2 fork) as [bs|] eqn:Ebs; [|done]. injection Eshare' as Ehash.
  assert (fork ≤ top) as Hle by (apply T2; by eexists).
  exists locator, fork. split; [unfold build_locator; fold c1; rewrite Et; done|].
  assert (take LOCATOR_MAX_ACCEPT locator = locator) as Etake.
  { apply take_ge. pose proof (length_omap_le (λ h, block_hash <$> block_by_height c1 h) hts) as Hol. fold locator in Hol.
    unfold LOCATOR_CAP, LOCATOR_MAX_ACCEPT in *. lia. }
  assert (headers_from_fork_point c2 locator Hash_ZERO = headers_loop HEADERS_BATCH c2 (fork + 1) Hash_ZERO) as Ehs.
  { unfold headers_from_fork_point. rewrite Etake. unfold locator. by rewrite fork_of_spec, Efind. }
  cbn zeta. rewrite Ehs. split_and!; [unfold active_hash; rewrite Ebf; by eexists|done|done|..].
  - cbn [matches]. rewrite bool_decide_true by apply headers_loop_length.
    destruct (block_by_height c2 (fork + 1)) as [b1|] eqn:Eb1; [|change HEADERS_BATCH with (S 1999); cbn [headers_loop]; by rewrite Eb1].
    rewrite (headers_loop_head _ _ _ _ Eb1), (a_prev _ A2 _ _ _ Ebs Eb1), <- Ehash, bool_decide_true; [done|].
    unfold locator. apply list_elem_of_omap. exists fork. split; [by eapply list_elem_of_lookup_2|by rewrite Ebf].
  - destruct (N.eqb_spec fork top) as [->|Hne]; [destruct (serve_none s sv top A2 Etop) as [X1 X2]; exact (conj X2 X1)|].
    destruct (proj2 (T2 (fork + 1)) ltac:(lia)) as [b1 Eb1]. split; [|by apply (serve_batch s sv top (fork + 1) A2 Etop Htop); lia].
    unfold headers_fork_point. rewrite (headers_loop_head _ _ _ _ Eb1). cbn [mbind option_bind]. fold c1.
    rewrite (a_prev _ A2 _ _ _ Ebs Eb1), <- Ehash, (find_active _ _ _ A1 Ebf). cbn [mbind option_bind].
    rewrite (a_height _ A1 _ _ Ebf). unfold checked_add. rewrite (proj2 (N.leb_le _ _)) by lia. cbn [mbind option_bind].
    rewrite (served_contiguous c2 Hash_ZERO HEADERS_BATCH fork _ bs); [done|done|done|done|exact (ex_intro _ top (conj Etop Htop))].
Qed.
End exchange.
End SyncSpec.
