(* ===== verification/SyncInv.v ===== *)
(** * The invariant of a synchronising node (crates/rpc/src/p2p.rs)

    Steps of the network thread, of the verifier thread and of the rest of the node, in
    any order.  Each takes the node through operations of its own and keeps the
    bookkeeping: one proven identity per trusted connection, one batch in the verifier's
    hands at a time and no request while it is, cursors and steps within their bounds. *)

From S2P Require Import Prelude Primitives Pow Mining Governance Crypto Compliance Smt Types Block BlockLog Network.
From S2P Require Import Gas Vault Ledger ShieldedV2 Execution Verify Chain ChainReplay ChainInv ChainImport ChainSafety.
From S2P Require Import Produce Mempool MempoolInv MempoolAdmit MempoolSelect MempoolFresh Timing TimingSpec Node NodeInv NodeSpec Sync.
#[local] Open Scope N_scope.

Module SyncInv.
Import Sync.

Section inv.
Context `{CE : ChainEnv} `{Node.Display ShieldedV2Error} `{Node.Display Node.NodeError} `{Borsh Block} `{SyncEnv}.
Import Chain NodeInv.
Implicit Types (s : SyncState) (n : Node.t) (p : SocketAddr).

(** ** What the node sees *)

Definition node_steps : Node.t → Node.t → Prop := rtc node_step.
Lemma import_steps imp n b clk io imp' n' o : import_and_persist imp n b clk io = Some (imp', n', o) → node_steps n n'.
Proof.
  unfold import_and_persist. intros E. destruct (durable_broken imp); [by simplify_eq|]. destruct (contains_block _ _); [by simplify_eq|].
  destruct (Node.import_block n b (wall clk)) as [[n1 r]|] eqn:Ei; [|done]. cbn [mbind option_bind] in E.
  assert (n' = n1) as ->; [|apply rtc_once; by eapply ns_import].
  destruct r as [rs|e]; [|destruct e as [| | |[]| |]; by simplify_eq]. destruct (block_log imp) as [log|]; [|by simplify_eq].
  destruct (BlockLog.append_unsynced _ _ _) as [log' []]; by simplify_eq.
Qed.
Lemma verify_one_steps imp n w clk io imp' n' w' : verify_one imp n w clk io = Some (imp', n', w') →
  node_steps n n' ∧ j_mode (w_job w') = j_mode (w_job w).
Proof.
  unfold verify_one. intros E. destruct (j_blocks (w_job w)) as [|b rest]; [by simplify_eq|].
  destruct (import_and_persist _ _ _ _ _) as [[[i m] o]|] eqn:Ei; [|done]. cbn [mbind option_bind] in E. simplify_eq.
  split; [by eapply import_steps|done].
Qed.
Lemma run_job_steps turns : ∀ imp n w clk io imp' n' r, run_job turns imp n w clk io = Some (imp', n', r) →
  node_steps n n' ∧ v_mode r = j_mode (w_job w).
Proof.
  induction turns as [|turns IH]; intros imp n w clk io imp' n' r E; cbn [run_job] in E; [by simplify_eq|].
  destruct (verify_one imp n w clk io) as [[[i m] w1]|] eqn:Ev; [|done]. cbn [mbind option_bind] in E.
  apply verify_one_steps in Ev as [Hn Hm]. apply IH in E as [Hn' Hm']. split; [by etrans|congruence].
Qed.

(** ** The bookkeeping *)

Definition catch_up_job (j : VerifyJob) : nat := if bool_decide (j_mode j = Announced) then 0 else 1.
Definition catch_up_report (r : VerifyReport) : nat := if bool_decide (v_mode r = Announced) then 0 else 1.
Definition sum_of {A} (f : A → nat) (l : list A) : nat := foldr (λ x acc, f x + acc)%nat 0%nat l.
(** How many requested batches are queued, being verified or reported. *)
Definition pipeline (v : VerifyChannel) : nat :=
  (sum_of catch_up_job (default [] (job_tx v)) +
   match running v with Some w => catch_up_job (w_job w) | None => 0 end + sum_of catch_up_report (reports v))%nat.
Record sync_ok s : Prop := {
  si_identity : dom (identity s) = authenticated s;
  si_linkage : map_Forall (λ _ f, ∃ h, f_request f = RLinkage h) (linkage_requests s);
  si_next : map_Forall (λ _ h, 1 ≤ h) (sync_next s);
  si_step : map_Forall (λ _ k, 1 ≤ k ∧ k ≤ BACKTRACK_CAP) (bt_step s);
  si_credit : stall_credit s ≤ MAX_STALL_CREDIT;
  si_queue : (length (default [] (job_tx (verify_ s))) ≤ VERIFY_QUEUE_DEPTH)%nat;
  si_one : (pipeline (verify_ s) ≤ 1)%nat;
  si_idle : verifying s = None → pipeline (verify_ s) = 0%nat;
  si_waits : is_Some (verifying s) → inflight s = None;
}.

Lemma sum_of_app {A} (f : A → nat) l l' : sum_of f (l ++ l') = (sum_of f l + sum_of f l')%nat.
Proof. induction l as [|x l IH]; [done|]. cbn. unfold sum_of in *. rewrite IH. lia. Qed.

Lemma sum_of_cons {A} (f : A → nat) x l : sum_of f (x :: l) = (f x + sum_of f l)%nat.
Proof. done. Qed.

Ltac maps := repeat first
  [ assumption
  | apply map_Forall_insert_2; [split; unfold BACKTRACK_CAP; lia || lia|]
  | apply map_Forall_insert_2; [lia|]
  | apply map_Forall_delete ].
Ltac keep := intros [?Hi ?Hl ?Hn ?Hs ?Hc ?Hq ?H1 ?H0 ?Hw]; split;
  cbn [identity authenticated linkage_requests sync_next bt_step stall_credit verify_ verifying inflight]; try assumption; try (by maps).

Lemma forget_ok s p : sync_ok s → sync_ok (forget_peer s p).
Proof. unfold forget_peer. keep. rewrite dom_delete_L. by rewrite Hi. Qed.
Lemma drop_duplicate_ok s p : sync_ok s → sync_ok (drop_duplicate s p).
Proof. unfold drop_duplicate. keep. rewrite dom_delete_L. by rewrite Hi. Qed.
Lemma dedup_ok tcp s a : sync_ok s → sync_ok (dedup_identity tcp s a).1.
Proof.
  intros S. unfold dedup_identity. set (l := omap _ _). clearbody l. destruct (bool_decide _); [done|]. cbn [fst].
  apply (foldl_keeps sync_ok); [done|]. intros s' e. apply drop_duplicate_ok.
Qed.
Lemma advance_ok s p h : sync_ok s → sync_ok (advance_or_done s p h).
Proof.
  unfold advance_or_done. cbn [peer_status]. destruct (peer_status s !! p) as [st|]; [destruct (h <? p_height st)|]; keep.
Qed.
Lemma stop_ok s p : sync_ok s → sync_ok (stop_syncing s p).
Proof. unfold stop_syncing. keep. Qed.
Lemma forward_ok s p : sync_ok s → sync_ok {| s with bt_step := delete p (bt_step s) |}.
Proof. keep. Qed.
Lemma backwards_ok s p next step : 1 ≤ next → 1 ≤ step ≤ BACKTRACK_CAP → sync_ok s →
  sync_ok {| s with sync_next := <[p := next]> (sync_next s); bt_step := <[p := step]> (bt_step s) |}.
Proof. intros Hx Hy. keep. Qed.
Lemma retain_Forall {V} (P : SocketAddr → V → Prop) connected m : map_Forall P m → map_Forall P (retain connected m).
Proof. intros Hm k x [Hx _]%map_lookup_filter_Some. by apply Hm. Qed.
Lemma retain_ok s connected : sync_ok s → sync_ok (retain_connected s connected).
Proof.
  unfold retain_connected. keep; try (by apply retain_Forall).
  unfold retain. apply set_eq. intros p. rewrite elem_of_dom, elem_of_filter, <- Hi, elem_of_dom. unfold is_Some. setoid_rewrite map_lookup_filter_Some. naive_solver.
Qed.
Lemma progress_ok s r : sync_ok s → sync_ok (note_progress s r).
Proof.
  intros S. unfold note_progress. set (s1 := if existsb _ _ then _ else _). assert (sync_ok s1) as S1.
  { unfold s1. destruct (existsb _ _); [|done]. revert S. keep. }
  clearbody s1. clear S. destruct (bool_decide _); [done|]. destruct (verified_height _) as [h|]; [|done].
  destruct (_ <? _); revert S1; keep.
Qed.

(** ** The verifier *)

Lemma sync_submit_ok s n job clk io s' n' : sync_ok s →
  (j_mode job ≠ Announced → verifying s = None ∧ inflight s = None) →
  submit_verify s n job clk io = Some (s', n') → sync_ok s' ∧ node_steps n n'.
Proof.
  intros S Hfree E. unfold submit_verify in E. set (cu := negb (bool_decide (j_mode job = Announced))) in E.
  set (s1 := if cu then _ else s) in E.
  assert (verify_ s1 = verify_ s) as Ev by (unfold s1; by destruct cu).
  assert (pipeline (verify_ s) + catch_up_job job ≤ 1 ∧ (verifying s1 = None → pipeline (verify_ s) + catch_up_job job = 0))%nat as [P1 P0].
  { unfold catch_up_job, s1, cu. destruct S as [Hi Hl Hn Hs Hc Hq H1' H0' Hw]. case_bool_decide as Em; cbn [negb].
    - split; [lia|]. intros Hv. rewrite (H0' Hv). lia.
    - destruct (Hfree Em) as [Hv Hf]. rewrite (H0' Hv). split; [lia|done]. }
  assert (∀ v imp, (length (default [] (job_tx v)) ≤ VERIFY_QUEUE_DEPTH)%nat → pipeline v = (pipeline (verify_ s) + catch_up_job job)%nat →
    sync_ok {| s1 with importer := imp; verify_ := v |}) as Hgo.
  { intros v imp Hqv Hpv. assert (is_Some (verifying s1) → inflight s1 = None) as Hw1.
    { unfold s1, cu. case_bool_decide as Em; cbn [negb]; [apply (si_waits _ S)|]. intros _. by apply Hfree. }
    destruct S as [Hi Hl Hn Hs Hc Hq H1' H0' Hw].
    assert (identity s1 = identity s ∧ authenticated s1 = authenticated s ∧ linkage_requests s1 = linkage_requests s ∧
      sync_next s1 = sync_next s ∧ bt_step s1 = bt_step s ∧ stall_credit s1 = stall_credit s) as (F1 & F2 & F3 & F4 & F5 & F6)
      by (unfold s1; by destruct cu).
    split; cbn [identity authenticated linkage_requests sync_next bt_step stall_credit verify_ verifying inflight];
      rewrite ?F1, ?F2, ?F3, ?F4, ?F5, ?F6; try done; rewrite Hpv; [done|]. exact P0. }
  destruct (job_tx (verify_ s1)) as [queue|] eqn:Eq, (worker (verify_ s1)) as [[]|] eqn:Ew.
  1: { destruct (bool_decide (length queue < VERIFY_QUEUE_DEPTH)%nat) eqn:Hlen; simplify_eq; (split; [|apply rtc_refl]).
    - apply bool_decide_eq_true in Hlen.
      eassert (sync_ok {| s1 with importer := importer s1; verify_ := _ |}) as Hx; [|exact Hx]. apply Hgo; cbn [job_tx from_option id].
      + rewrite length_app. cbn. unfold VERIFY_QUEUE_DEPTH in *. lia.
      + unfold pipeline. cbn [job_tx running reports from_option id]. rewrite Ev in Eq |- *. rewrite Eq. cbn [from_option id]. rewrite sum_of_app. cbn. lia.
    - clear Hlen. unfold s1, cu. case_bool_decide as Em; cbn [negb]; [done|]. destruct (Hfree Em) as [Hv Hf]. destruct S as [Hi Hl Hn Hs Hc Hq H1' H0' Hw].
      split; cbn [identity authenticated linkage_requests sync_next bt_step stall_credit verify_ verifying inflight]; try done.
      intros _. by apply H0'. }
  all: destruct (run_verify_job _ _ _ _ _) as [[[imp m] r]|] eqn:Er; [|done]; cbn [mbind option_bind] in E; simplify_eq;
    unfold run_verify_job in Er; apply run_job_steps in Er as [Hst Hm]; (split; [|done]); apply Hgo; cbn [job_tx];
    [rewrite Ev in *; try rewrite Eq in *; first [exact (si_queue _ S)|rewrite <- Eq; exact (si_queue _ S)|cbn; lia]|].
  all: unfold pipeline; cbn [job_tx running reports]; rewrite sum_of_app; cbn; unfold catch_up_report, catch_up_job; rewrite Hm; cbn;
    rewrite Ev in *; try rewrite Eq; cbn; lia.
Qed.

(** ** Reports *)

Lemma apply_batch_ok tcp s n r clk s' out : sync_ok s → verifying s = None →
  apply_batch tcp s n r clk = Some (s', out) → sync_ok s'.
Proof.
  intros S Hv E. unfold apply_batch in E. destruct (summary (v_outcomes r)) as [[[h|] [rej|]] []];
    try (simplify_eq; by apply stop_ok); try (simplify_eq; by apply advance_ok, forward_ok); [|by simplify_eq].
  match type of E with (mbind _ ?l) = _ => destruct l as [locator|]; [|done] end.
  cbn [mbind option_bind] in E. destruct (negb _ && _); injection E as <- <-.
  - revert S. keep. intros [x Hx]. congruence.
  - apply backwards_ok; [lia|unfold BACKTRACK_CAP; lia|done].
Qed.
Lemma report_ok tcp s n r clk s' out : sync_ok s → (v_mode r ≠ Announced → verifying s = None) →
  apply_verify_report tcp s n r clk = Some (s', out) → sync_ok s'.
Proof.
  intros S Hv E. unfold apply_verify_report in E. pose proof (progress_ok _ r S) as S1.
  assert (verifying (note_progress s r) = verifying s) as Ev.
  { unfold note_progress. repeat (case_match; try done). }
  destruct (v_mode r).
  - eapply apply_batch_ok; [exact S1|rewrite Ev; by apply Hv|exact E].
  - assert (s' = (apply_backtrack (note_progress s r) r).1) as -> by (injection E as E; by rewrite E). clear E. revert S1. generalize (note_progress s r). clear.
    intros s S. unfold apply_backtrack. destruct (head _) as [[h []]|]; cbn [fst]; try done; try (by apply advance_ok, forward_ok); [|by apply stop_ok].
    apply backwards_ok; [lia|unfold BACKTRACK_CAP; lia|done].
  - assert (s' = (apply_announced (note_progress s r) r).1) as -> by (injection E as E; by rewrite E). unfold apply_announced. by destruct (head _) as [[h []]|].
Qed.
Lemma next_report_ok s r s1 : sync_ok s → next_report s = Some (r, s1) →
  sync_ok (if bool_decide (v_mode r = Announced) then s1 else {| s1 with verifying := None |}) ∧
  (v_mode r ≠ Announced → verifying (if bool_decide (v_mode r = Announced) then s1 else {| s1 with verifying := None |}) = None).
Proof.
  intros S E. unfold next_report in E. destruct (reports (verify_ s)) as [|r0 rest] eqn:Er; [done|]. simplify_eq.
  destruct S as [Hi Hl Hn Hs Hc Hq P1 P0 Hw].
  assert (pipeline (verify_ s) = (catch_up_report r +
    pipeline (mkChannel (job_tx (verify_ s)) (worker (verify_ s)) (running (verify_ s)) rest (has_node (verify_ s))))%nat) as Ep.
  { unfold pipeline. cbn [job_tx running reports]. rewrite Er, sum_of_cons. lia. }
  unfold catch_up_report in Ep. split; [|by intros Hm; rewrite bool_decide_false].
  case_bool_decide; split; cbn [identity authenticated linkage_requests sync_next bt_step stall_credit verify_ verifying inflight];
    try done; try lia; try (intros Hv; specialize (P0 Hv); lia).
Qed.
Lemma apply_reports_ok tcp n clk turns : ∀ s s' out, sync_ok s → apply_reports tcp s n turns clk = Some (s', out) → sync_ok s'.
Proof.
  induction turns as [|turns IH]; intros s s' out S E; cbn [apply_reports] in E; [by simplify_eq|].
  destruct (next_report s) as [[r s1]|] eqn:En; [|by simplify_eq]. destruct (next_report_ok _ _ _ S En) as [S1 Hv].
  set (s2 := if bool_decide _ then s1 else _) in *. destruct (apply_verify_report tcp s2 n r clk) as [[s3 o1]|] eqn:Ea; [|done].
  cbn [mbind option_bind] in E. destruct (apply_reports tcp s3 n turns clk) as [[s4 o2]|] eqn:Eb; [|done].
  cbn [mbind option_bind] in E. simplify_eq. eapply IH; [|exact Eb]. by eapply report_ok.
Qed.
(** What is left in the channel was counted. *)
Lemma attach_ok s spawned : sync_ok s → job_tx (verify_ s) = None → running (verify_ s) = None → sync_ok (attach_verifier s spawned).
Proof.
  unfold attach_verifier. intros [Hi Hl Hn Hs Hc Hq P1 P0 Hw] Hj Hr.
  assert (pipeline (verify_ s) = sum_of catch_up_report (reports (verify_ s))) as Ep by (unfold pipeline; by rewrite Hj, Hr).
  destruct spawned; split; cbn [identity authenticated linkage_requests sync_next bt_step stall_credit verify_ verifying inflight job_tx]; try done;
    unfold pipeline; cbn [job_tx running reports from_option id]; rewrite ?Hj, ?Hr; cbn; rewrite <- ?Ep; try done; try lia.
Qed.
Lemma watchdog_ok s spawned : sync_ok s → reports (verify_ s) = [] → sync_ok (watchdog s spawned).
Proof.
  intros S Er. unfold watchdog. destruct (verifying s) as [v|] eqn:Ev; [|done]. destruct (worker (verify_ s)) as [[]|]; [done| |done].
  set (s1 := {| s with verifying := None |}). assert (sync_ok {| s1 with verify_ := mkChannel None None None (reports (verify_ s)) (has_node (verify_ s)) |}) as S1.
  { destruct S as [Hi Hl Hn Hs Hc Hq P1 P0 Hw]. split; cbn [identity authenticated linkage_requests sync_next bt_step stall_credit verify_ verifying inflight]; try done;
      unfold pipeline; cbn [job_tx running reports]; rewrite ?Er; cbn; try lia; try done; by intros []. }
  destruct (has_node _); [|exact S1]. by apply attach_ok.
Qed.
Lemma report_channel tcp s n r clk s' out : apply_verify_report tcp s n r clk = Some (s', out) → verify_ s' = verify_ s.
Proof.
  intros E. unfold apply_verify_report in E.
  assert (∀ s p h, verify_ (advance_or_done s p h) = verify_ s) as Ha by (intros; unfold advance_or_done; repeat (case_match; try done)).
  assert (verify_ (note_progress s r) = verify_ s) as <- by (unfold note_progress; repeat (case_match; try done)).
  generalize dependent (note_progress s r). intros s1 E. destruct (v_mode r).
  - unfold apply_batch in E. destruct (summary _) as [[[h|] [rej|]] []]; try (by simplify_eq); try (simplify_eq; by rewrite Ha).
    match type of E with (mbind _ ?l) = _ => destruct l as [locator|]; [|done] end.
    cbn [mbind option_bind] in E. destruct (negb _ && _); by simplify_eq.
  - unfold apply_backtrack in E. destruct (head _) as [[h []]|]; simplify_eq; rewrite ?Ha; done.
  - unfold apply_announced in E. by destruct (head _) as [[h []]|]; simplify_eq.
Qed.
Lemma apply_reports_drained tcp n clk turns : ∀ s s' out, apply_reports tcp s n turns clk = Some (s', out) →
  length (reports (verify_ s)) = turns → reports (verify_ s') = [].
Proof.
  induction turns as [|turns IH]; intros s s' out E Hl; cbn [apply_reports] in E; [simplify_eq; by apply length_zero_iff_nil|].
  destruct (next_report s) as [[r s1]|] eqn:En; [|unfold next_report in En; by destruct (reports (verify_ s))].
  set (s2 := if bool_decide _ then s1 else _) in *. destruct (apply_verify_report tcp s2 n r clk) as [[s3 o1]|] eqn:Ea; [|done].
  cbn [mbind option_bind] in E. destruct (apply_reports tcp s3 n turns clk) as [[s4 o2]|] eqn:Eb; [|done].
  cbn [mbind option_bind] in E. simplify_eq. eapply IH; [exact Eb|]. apply report_channel in Ea. rewrite Ea.
  assert (verify_ s2 = verify_ s1) as -> by (unfold s2; by destruct (bool_decide _)).
  unfold next_report in En. destruct (reports (verify_ s)); [done|]. injection En as <- <-. cbn in *. lia.
Qed.
Lemma collect_ok tcp s n clk spawned s' out : sync_ok s → collect_verify_reports tcp s n clk spawned = Some (s', out) → sync_ok s'.
Proof.
  intros S E. unfold collect_verify_reports in E. destruct (apply_reports _ _ _ _ _) as [[s1 o]|] eqn:Ea; [|done].
  cbn [mbind option_bind] in E. simplify_eq. apply watchdog_ok; [by eapply apply_reports_ok|]. by eapply apply_reports_drained.
Qed.

(** ** Messages *)

Definition carries_blocks (m : Net.NetMessage) : bool :=
  match m with Net.BlockResponse _ | Net.BlocksResponse _ => true | _ => false end.
Lemma correlate_ok s p m s1 : sync_ok s → correlate s p m = Some s1 →
  sync_ok s1 ∧ (carries_blocks m = true → verifying s1 = None ∧ inflight s1 = None).
Proof.
  intros S E. unfold correlate in E. destruct (match linkage_requests s !! p with Some f => _ | None => _ end) eqn:El.
  - simplify_eq. split; [revert S; keep|]. destruct (linkage_requests s !! p) as [f|] eqn:Ef; [|done].
    destruct (si_linkage _ S p f Ef) as [h Eh]. rewrite Eh in El. by destruct m.
  - destruct (inflight s) as [f|] eqn:Ef; [|done]. destruct (bool_decide _ && _); [|done]. simplify_eq.
    assert (verifying s = None) as Hv by (destruct (verifying s) eqn:Ev; [|done]; rewrite (si_waits _ S) in Ef by (by rewrite Ev; eexists); done).
    split; [revert S; keep|]. intros _. split; [exact Hv|done].
Qed.
Lemma dispatch_ok s n p m clk io s' n' out : sync_ok s →
  (carries_blocks m = true → verifying s = None ∧ inflight s = None) →
  dispatch s n p m clk io = Some (s', n', out) → sync_ok s' ∧ node_steps n n'.
Proof.
  intros S Hb E. assert (node_steps n n) as Hrefl by apply rtc_refl.
  destruct m as [height hd work|stx|b|h|b|start count|bs|addrs|cid gen acct key bind sig|proto agent h| |locator stop|hs];
    cbn [dispatch] in E; try (by simplify_eq).
  - destruct (on_status s n p height hd work clk) as [s1|] eqn:Es; [|done]. cbn [mbind option_bind] in E. injection E as <- <- <-. split; [|done].
    unfold on_status in Es. destruct (local_status n clk) as [local|]; [|done]. cbn [mbind option_bind] in Es. injection Es as <-.
    destruct (bool_decide _); [revert S; keep|]. destruct (negb _); [|revert S; keep]. cbn [sync_next].
    destruct (sync_next s !! p); revert S; keep.
  - destruct (on_transaction n stx clk) as [[n1 o]|] eqn:Et; [|done]. cbn [mbind option_bind] in E. injection E as <- <- <-. split; [done|].
    unfold on_transaction in Et. destruct (suite2_admission_allowed _) as [b|]; [|done]. cbn [mbind option_bind] in Et.
    destruct (negb _); [by simplify_eq|]. destruct (Node.submit n stx (wall clk)) as [[n2 r]|] eqn:Esub; [|done]. cbn [mbind option_bind] in Et.
    injection Et as <- <-. apply rtc_once. by eapply ns_submit.
  - destruct (submit_verify _ _ _ _ _) as [[s1 n1]|] eqn:Es; [|done]. cbn [mbind option_bind] in E. injection E as <- <- <-. by eapply sync_submit_ok; [exact S| |exact Es].
  - destruct b as [b|]; [|by simplify_eq]. destruct (submit_verify _ _ _ _ _) as [[s1 n1]|] eqn:Es; [|done]. cbn [mbind option_bind] in E.
    injection E as <- <- <-. eapply sync_submit_ok; [exact S| |exact Es]. intros _. by apply Hb.
  - destruct (_ <? _); [by simplify_eq|]. destruct (bool_decide _); [simplify_eq; split; [revert S; keep|done]|].
    destruct (submit_verify _ _ _ _ _) as [[s1 n1]|] eqn:Es; [|done]. cbn [mbind option_bind] in E.
    injection E as <- <- <-. eapply sync_submit_ok; [exact S| |exact Es]. intros _. by apply Hb.
  - destruct (_ <? _); simplify_eq; (split; [|done]); revert S; keep. rewrite dom_delete_L. by rewrite Hi.
  - injection E as E. unfold on_headers in E. destruct (bool_decide _); [by simplify_eq|].
    destruct (negb _ && _).
    + destruct (extend_checkpoint_linkage (Node.chain n) hs) as [c r] eqn:Ex. injection E as <- <- <-. split; [done|]. apply rtc_once. by eapply ns_extend.
    + destruct (headers_fork_point n hs) as [fork|]; [simplify_eq; split; [revert S; keep|done]|].
      destruct (sync_next s !! p); simplify_eq; (split; [|done]); [|done]. apply backwards_ok; [lia|unfold BACKTRACK_CAP; lia|done].
Qed.
Lemma sync_admit_ok tcp s n cfg p binding a s' out : sync_ok s → admit_peer tcp s n cfg p binding a = Some (s', out) → sync_ok s'.
Proof.
  intros S E. unfold admit_peer in E. destruct (implicit_account_id (c_key cfg)) as [own|]; [|done]. cbn [mbind option_bind] in E.
  destruct (bool_decide (a = own)); [simplify_eq; revert S; keep|].
  set (s1 := {| s with authenticated := {[p]} ∪ authenticated s |}) in E.
  assert (sync_ok {| s1 with identity := <[p := a]> (identity s) |}) as S1 by (unfold s1; revert S; keep; rewrite dom_insert_L; by rewrite Hi).
  destruct (negb _); [|by simplify_eq]. destruct (status n) as [x|]; [|done]. cbn [mbind option_bind] in E.
  destruct (version_msg n) as [v|]; [|done]. cbn [mbind option_bind] in E.
  pose proof (dedup_ok tcp _ a S1) as S2. destruct (dedup_identity tcp _ a) as [s2 o] in E, S2. by simplify_eq.
Qed.
Lemma handle_ok tcp s n cfg p m clk io s' n' out : sync_ok s → handle tcp s n cfg p m clk io = Some (s', n', out) →
  sync_ok s' ∧ node_steps n n'.
Proof.
  intros S E. unfold handle in E. set (s0 := {| s with last_recv := _ |}) in E. assert (sync_ok s0) as S0 by (unfold s0; revert S; keep). clearbody s0.
  match type of E with (mbind _ ?l) = _ => destruct l as [account|]; [|done] end. cbn [mbind option_bind] in E.
  destruct account as [a|].
  { destruct (admit_peer _ _ _ _ _ _ _) as [[s1 o]|] eqn:Ea; [|done]. cbn [mbind option_bind] in E. simplify_eq. split; [by eapply sync_admit_ok|apply rtc_refl]. }
  destruct (is_hello m).
  { destruct (Net.implicit_account_mismatch m) as [sp|]; [|done]. cbn [mbind option_bind] in E. simplify_eq. split; [by apply forget_ok|apply rtc_refl]. }
  destruct (negb _); [simplify_eq; split; [done|apply rtc_refl]|]. destruct (is_reply m) eqn:Er.
  - destruct (correlate s0 p m) as [s1|] eqn:Ec; [|simplify_eq; split; [done|apply rtc_refl]].
    destruct (correlate_ok _ _ _ _ S0 Ec) as [S1 Hb]. cbn zeta in E. set (s2 := {| s1 with no_progress_replies := _ |}) in E.
    assert (sync_ok s2) as S2 by (unfold s2; revert S1; keep).
    destruct (256 <? _); [simplify_eq; split; [done|apply rtc_refl]|]. by eapply dispatch_ok; [exact S2| |exact E].
  - eapply dispatch_ok; [exact S0| |exact E]. by destruct m.
Qed.

(** ** Requests *)

Lemma linkage_ok tcp s n connected clk s' out : sync_ok s → request_linkage tcp s n connected clk = Some (s', out) →
  sync_ok s' ∧ verifying s' = verifying s ∧ inflight s' = inflight s.
Proof.
  intros S E. unfold request_linkage in E. destruct (if checkpoint_linkage_ready _ then _ else _) as [[? pin]|]; [|by simplify_eq].
  match type of E with (mbind _ ?l) = _ => destruct l as [locator|]; [|done] end. cbn [mbind option_bind] in E.
  destruct (if bool_decide (locator = []) then _ else _) as [p|]; [|by simplify_eq]. destruct (negb _ || _); [by simplify_eq|].
  destruct (can_send _ _ _); simplify_eq; [|done]. split; [|done]. revert S. keep. apply map_Forall_insert_2; [by eexists|done].
Qed.
Lemma ask_best_ok tcp s local cs stalled clk s' out : sync_ok s → verifying s = None →
  ask_best tcp s local cs stalled clk = Some (s', out) → sync_ok s'.
Proof.
  intros S Hv E. assert (∀ f, sync_ok {| s with inflight := f |}) as Hset by (intros f; revert S; keep; intros [x Hx]; congruence).
  unfold ask_best in E. destruct cs as [|best cs]; [by simplify_eq|]. destruct (default best _) as [p st]. destruct (_ <? 1); [done|].
  destruct (can_send _ _ _); simplify_eq; apply Hset.
Qed.
Lemma request_ok tcp s n clk s' out : sync_ok s → request_missing tcp s n clk = Some (s', out) → sync_ok s'.
Proof.
  intros S E. unfold request_missing in E. destruct (local_status n clk) as [local|]; [|done]. cbn [mbind option_bind] in E.
  set (connected := list_to_set (connected_peers tcp)) in E. pose proof (retain_ok _ connected S) as S1.
  destruct (request_linkage _ _ _ _ _) as [[s2 o]|] eqn:El; [|done]. cbn [mbind option_bind] in E.
  destruct (linkage_ok _ _ _ _ _ _ _ S1 El) as [S2 _]. destruct (verifying s2) eqn:Ev; [by simplify_eq|].
  destruct (match inflight s2 with Some _ => _ | None => _ end); [by simplify_eq|].
  destruct (match f_peer <$> inflight s2 with Some p => strike s2 p | None => (s2, []) end) as [s3 charged] eqn:Es.
  assert (sync_ok s3 ∧ verifying s3 = None) as [S3 Ev3].
  { destruct (f_peer <$> inflight s2) as [p|]; [|by simplify_eq]. unfold strike in Es. simplify_eq. split; [revert S2; keep|done]. }
  destruct (ask_best _ _ _ _ _ _) as [[s4 asked]|] eqn:Ea; [|done]. cbn [mbind option_bind] in E. simplify_eq. by eapply ask_best_ok.
Qed.
Lemma sweep_ok tcp s clk : sync_ok s → sync_ok (sweep_unauthenticated tcp s clk).1.
Proof.
  intros S. unfold sweep_unauthenticated. apply (foldl_keeps (λ acc : SyncState * list effect, sync_ok acc.1)); [done|].
  intros [s1 o] p S1. cbn [fst] in *. revert S1. keep.
Qed.

(** ** The verifier thread and the clocks *)

Lemma take_ok s s' : sync_ok s → take_job s = Some s' → sync_ok s'.
Proof.
  intros [Hi Hl Hn Hs Hc Hq P1 P0 Hw] E. unfold take_job in E.
  destruct (job_tx (verify_ s)) as [[|j queue]|] eqn:Ej, (worker (verify_ s)) as [[]|], (running (verify_ s)) eqn:Er; try done. injection E as <-.
  match goal with |- sync_ok {| s with verify_ := ?v |} => assert (pipeline v = pipeline (verify_ s)) as Ep end.
  { unfold pipeline. cbn [job_tx running reports w_job]. rewrite Ej, Er. cbn [from_option id]. rewrite sum_of_cons. lia. }
  split; cbn [identity authenticated linkage_requests sync_next bt_step stall_credit verify_ verifying inflight job_tx from_option id]; try done;
    rewrite ?Ep; try done. cbn in Hq. lia.
Qed.
Lemma verify_next_ok s n clk io s' n' : sync_ok s → verify_next s n clk io = Some (s', n') → sync_ok s' ∧ node_steps n n'.
Proof.
  intros [Hi Hl Hn Hs Hc Hq P1 P0 Hw] E. unfold verify_next in E. destruct (running (verify_ s)) as [w|] eqn:Er; [|done]. cbn [mbind option_bind] in E.
  destruct (verify_one _ _ _ _ _) as [[[i m] w']|] eqn:Ev; [|done]. cbn [mbind option_bind] in E. injection E as <- <-.
  apply verify_one_steps in Ev as [Hst Hm]. split; [|done].
  match goal with |- sync_ok {| s with importer := _; verify_ := ?v |} => assert (pipeline v = pipeline (verify_ s)) as Ep end.
  { unfold pipeline. cbn [job_tx running reports]. rewrite Er. unfold catch_up_job. by rewrite Hm. }
  split; cbn [identity authenticated linkage_requests sync_next bt_step stall_credit verify_ verifying inflight job_tx]; try done; by rewrite Ep.
Qed.
Lemma send_report_ok s io s' : sync_ok s → send_report s io = Some s' → sync_ok s'.
Proof.
  intros [Hi Hl Hn Hs Hc Hq P1 P0 Hw] E. unfold send_report in E. destruct (running (verify_ s)) as [w|] eqn:Er; [|done]. cbn [mbind option_bind] in E.
  destruct (bool_decide _); [|done]. injection E as <-.
  match goal with |- sync_ok {| s with importer := _; verify_ := ?v |} => assert (pipeline v = pipeline (verify_ s)) as Ep end.
  { unfold pipeline. cbn [job_tx running reports]. rewrite Er, sum_of_app, sum_of_cons. cbn [sum_of foldr]. unfold catch_up_job, catch_up_report, report_of. cbn [v_mode]. lia. }
  split; cbn [identity authenticated linkage_requests sync_next bt_step stall_credit verify_ verifying inflight job_tx]; try done; by rewrite Ep.
Qed.
Lemma dies_ok s : sync_ok s → sync_ok (thread_dies s).
Proof.
  intros [Hi Hl Hn Hs Hc Hq P1 P0 Hw]. unfold thread_dies.
  match goal with |- sync_ok {| s with verify_ := ?v |} => assert (pipeline v ≤ pipeline (verify_ s))%nat as Ep end.
  { unfold pipeline. cbn [job_tx running reports]. destruct (job_tx (verify_ s)), (running (verify_ s)); cbn; lia. }
  split; cbn [identity authenticated linkage_requests sync_next bt_step stall_credit verify_ verifying inflight job_tx]; try done; try lia.
  - destruct (job_tx (verify_ s)); cbn; unfold VERIFY_QUEUE_DEPTH; lia.
  - intros Hv. specialize (P0 Hv). lia.
Qed.
Lemma credit_ok s k : sync_ok s → sync_ok (credit_stall s k).
Proof. unfold credit_stall. destruct (checked_sub _ _); [|done]. keep. lia. Qed.
Lemma decay_ok s k : sync_ok s → sync_ok (decay_stall_credit s k).
Proof. unfold decay_stall_credit. keep. unfold saturating_sub. lia. Qed.
Lemma new_sync_ok log spawned : sync_ok (attach_verifier (Sync.new log) spawned).
Proof. apply attach_ok; [|done..]. split; cbn; try done; try lia; try apply map_Forall_empty. Qed.

(** ** Every interleaving *)

(** The network thread's operations, the verifier thread's, its death, and the rest of
    the node (miner, wallet, restored state); labelled with the message, if one came. *)
Definition system : Type := SyncState * Node.t.
Definition event : Type := option (Tcp * SocketAddr * Net.NetMessage).
Inductive sync_step (cfg : P2pConfig) : event → system → system → Prop :=
| ss_handle tcp s n p m clk io s' n' out : handle tcp s n cfg p m clk io = Some (s', n', out) →
    sync_step cfg (Some (tcp, p, m)) (s, n) (s', n')
| ss_collect tcp s n clk spawned s' out : collect_verify_reports tcp s n clk spawned = Some (s', out) → sync_step cfg None (s, n) (s', n)
| ss_request tcp s n clk s' out : request_missing tcp s n clk = Some (s', out) → sync_step cfg None (s, n) (s', n)
| ss_sweep tcp s n clk : sync_step cfg None (s, n) ((sweep_unauthenticated tcp s clk).1, n)
| ss_credit s n iteration : sync_step cfg None (s, n) (credit_stall s iteration, n)
| ss_decay s n by_ : sync_step cfg None (s, n) (decay_stall_credit s by_, n)
| ss_take s n s' : take_job s = Some s' → sync_step cfg None (s, n) (s', n)
| ss_verify s n clk io s' n' : verify_next s n clk io = Some (s', n') → sync_step cfg None (s, n) (s', n')
| ss_report s n io s' : send_report s io = Some s' → sync_step cfg None (s, n) (s', n)
| ss_dies s n : sync_step cfg None (s, n) (thread_dies s, n)
| ss_node s n n' : node_step n n' → sync_step cfg None (s, n) (s, n').
Lemma sync_step_ok cfg e x y : sync_step cfg e x y → sync_ok x.1 → sync_ok y.1 ∧ node_steps x.2 y.2.
Proof.
  assert (∀ n, node_steps n n) as Hr by (intros; apply rtc_refl).
  destruct 1; cbn [fst snd]; intros S.
  - by eapply handle_ok.
  - split; [by eapply collect_ok|apply Hr].
  - split; [by eapply request_ok|apply Hr].
  - split; [by apply sweep_ok|apply Hr].
  - split; [by apply credit_ok|apply Hr].
  - split; [by apply decay_ok|apply Hr].
  - split; [by eapply take_ok|apply Hr].
  - by eapply verify_next_ok.
  - split; [by eapply send_report_ok|apply Hr].
  - split; [by apply dies_ok|apply Hr].
  - split; [done|by apply rtc_once].
Qed.
(** A node of this genesis that started to synchronise, after any steps. *)
Definition some_step (cfg : P2pConfig) (x y : system) : Prop := ∃ e, sync_step cfg e x y.
Definition syncing (g : GenesisConfig) (cfg : P2pConfig) (x : system) : Prop :=
  ∃ log spawned n0, NodeSpec.running g n0 ∧ rtc (some_step cfg) (attach_verifier (Sync.new log) spawned, n0) x.
Lemma syncing_ok g cfg x : syncing g cfg x → NodeSpec.running g x.2 ∧ sync_ok x.1.
Proof.
  intros (log & spawned & n0 & R & Hs). change n0 with (attach_verifier (Sync.new log) spawned, n0).2 in R. pose proof (new_sync_ok log spawned) as S.
  change (attach_verifier (Sync.new log) spawned) with (attach_verifier (Sync.new log) spawned, n0).1 in S. revert R S.
  induction Hs as [|x y z [e Hxy] _ IH]; [done|]. intros R S. destruct (sync_step_ok _ _ _ _ Hxy S) as [Sy Hn]. apply IH; [|done].
  destruct R as (c & cap & k & m & Hc & Hm & Hsteps). exists c, cap, k, m. split_and!; [done..|]. by etrans.
Qed.

(** A turn of the network thread is a sequence of these steps. *)
Lemma handle_all_steps cfg io inbox : ∀ s n s' n' out, handle_all s n cfg inbox io = Some (s', n', out) → rtc (some_step cfg) (s, n) (s', n').
Proof.
  induction inbox as [|[[[tcp clk] p] m] inbox IH]; intros s n s' n' out E; cbn [handle_all] in E; [by simplify_eq|].
  destruct (handle tcp s n cfg p m clk io) as [[[s1 n1] o1]|] eqn:Eh; [|done]. cbn [mbind option_bind] in E.
  destruct (handle_all s1 n1 cfg inbox io) as [[[s2 n2] o2]|] eqn:Ea; [|done]. cbn [mbind option_bind] in E. injection E as <- <- <-.
  eapply rtc_l; [|by eapply IH]. eexists. by eapply ss_handle.
Qed.
Lemma poll_steps s n ts cfg t io s' n' ts' tele out : poll s n ts cfg t io = Some (s', n', ts', tele, out) → rtc (some_step cfg) (s, n) (s', n').
Proof.
  unfold poll. intros E.
  match type of E with (mbind _ ?l) = _ => destruct l as [[ts1 o0]|]; [|done] end. cbn [mbind option_bind] in E.
  destruct (if due _ (last_reconnect ts1) _ then _ else _) as [ts2 o1].
  destruct (handle_all s n cfg (t_inbox t) io) as [[[s1 n1] o2]|] eqn:Eh; [|done]. cbn [mbind option_bind] in E.
  destruct (collect_verify_reports _ s1 n1 _ _) as [[s2 o3]|] eqn:Ec; [|done]. cbn [mbind option_bind] in E.
  destruct (request_missing _ s2 n1 _) as [[s3 o4]|] eqn:Er; [|done]. cbn [mbind option_bind] in E.
  destruct (telemetry s3 n1 _) as [tl|]; [|done]. cbn [mbind option_bind] in E. destruct (t_sweep t) as [tcp clk].
  etrans; [by eapply handle_all_steps|]. eapply rtc_l; [eexists; by eapply ss_collect|]. eapply rtc_l; [eexists; by eapply ss_request|].
  destruct (due (mono clk) (last_sweep ts2) SWEEP_INTERVAL).
  - set (s4 := decay_stall_credit s3 _) in E. eapply rtc_l; [eexists; apply ss_decay|]. fold s4.
    eapply rtc_l; [eexists; by apply (ss_sweep cfg tcp s4 n1 clk)|]. destruct (sweep_unauthenticated tcp s4 clk) as [s5 o5]. cbn [fst].
    destruct (if due (mono clk) (last_getaddr _) _ then _ else _) as [ts6 o6]. injection E as <- <- <- <- <-. apply rtc_once. eexists. apply ss_credit.
  - destruct (if due (mono clk) (last_getaddr _) _ then _ else _) as [ts6 o6]. injection E as <- <- <- <- <-. apply rtc_once. eexists. apply ss_credit.
Qed.

(** C14: whatever peers send and however the network thread, the verifier thread and
    the rest of the node are interleaved, a synchronising node is a running node of its
    genesis (so everything proved of one applies), and its bookkeeping holds: every
    trusted connection has exactly one proven account and no other connection has one;
    at most one requested batch is queued, being verified or reported, and then the node
    remembers that it waits and has no block request outstanding; the queue holds at
    most eight jobs; cursors are at least 1, backtracking steps at most 256 and the
    credit for its own stalls at most ten minutes.  A turn of the network thread's loop,
    in the source's order, is such a sequence of steps, so all of this holds after it. *)
Theorem sync_in_step g cfg s n : syncing g cfg (s, n) →
  NodeSpec.running g n ∧
  (∀ p, p ∈ authenticated s ↔ is_Some (identity s !! p)) ∧
  (pipeline (verify_ s) ≤ 1)%nat ∧
  (pipeline (verify_ s) = 1%nat → is_Some (verifying s) ∧ inflight s = None) ∧
  (length (default [] (job_tx (verify_ s))) ≤ VERIFY_QUEUE_DEPTH)%nat ∧
  (∀ p h, sync_next s !! p = Some h → 1 ≤ h) ∧
  (∀ p k, bt_step s !! p = Some k → 1 ≤ k ∧ k ≤ BACKTRACK_CAP) ∧
  stall_credit s ≤ MAX_STALL_CREDIT ∧
  (∀ ts t io s' n' ts' tele out, poll s n ts cfg t io = Some (s', n', ts', tele, out) → syncing g cfg (s', n')).
Proof.
  intros Hsync. destruct (syncing_ok _ _ _ Hsync) as [R [Hi Hl Hn Hs Hc Hq P1 P0 Hw]]. cbn [fst snd] in *. split_and!; try done.
  - intros p. by rewrite <- Hi, elem_of_dom.
  - intros Ep. assert (is_Some (verifying s)) as Hv; [|by split; [|apply Hw]].
    destruct (verifying s) as [v|]; [by eexists|]. rewrite P0 in Ep by done. done.
  - intros ts t io s' n' ts' tele out Ep%poll_steps. destruct Hsync as (log & sp & n0 & R0 & Hs0). exists log, sp, n0. split; [done|by etrans].
Qed.
End inv.
End SyncInv.
