(* ===== verification/SyncSafety.v ===== *)
(** * What a peer can do to a synchronising node (crates/rpc/src/p2p.rs)

    A message changes what the node keeps about its sender and about nobody else; trust
    comes only from a signed handshake over this channel; a reply counts only when it was
    asked for.  Two inputs the code does not survive or use are stated as well. *)

From stdpp Require Import sorting.
From S2P Require Import Prelude Primitives Pow Mining Governance Crypto Compliance Smt Types Block BlockLog Network.
From S2P Require Import Gas Vault Ledger ShieldedV2 Execution Verify Chain ChainReplay ChainInv ChainImport ChainSafety.
From S2P Require Import Produce Mempool MempoolInv MempoolAdmit MempoolSelect MempoolFresh Timing TimingSpec Node NodeInv NodeSpec.
From S2P Require Import Sync SyncSpec SyncInv.
#[local] Open Scope N_scope.

Module SyncSafety.
Import Sync SyncInv.

Section safety.
Context `{CE : ChainEnv} `{Node.Display ShieldedV2Error} `{Node.Display Node.NodeError} `{Borsh Block} `{SyncEnv}.
Import Chain NodeInv.
Implicit Types (s : SyncState) (n : Node.t) (p q : SocketAddr).

(** ** What is kept about one peer *)

Definition rows s q :=
  (bool_decide (q ∈ authenticated s), identity s !! q, peer_status s !! q, peer_agents s !! q, sync_next s !! q, bt_step s !! q,
   (first_seen s !! q, last_recv s !! q, linkage_requests s !! q, no_progress_replies s !! q, verified_sync_height s !! q,
    sync_strikes s !! q)).

Ltac other := unfold rows; cbn [authenticated identity peer_status peer_agents sync_next bt_step first_seen last_recv linkage_requests
    no_progress_replies verified_sync_height sync_strikes]; rewrite ?lookup_delete_ne, ?lookup_insert_ne by done;
  repeat (f_equal; try done); try (apply bool_decide_ext; set_solver).

Lemma forget_rows s p q : q ≠ p → rows (forget_peer s p) q = rows s q.
Proof. intros Hq. unfold forget_peer. other. Qed.
Lemma drop_rows s p q : q ≠ p → rows (drop_duplicate s p) q = rows s q.
Proof. intros Hq. unfold drop_duplicate. other. Qed.
Lemma dedup_rows tcp s a q : identity s !! q ≠ Some a → rows (dedup_identity tcp s a).1 q = rows s q.
Proof.
  intros Hq. unfold dedup_identity. set (l := omap _ _).
  assert (q ∉ l.*1) as Hl.
  { intros ([q' b] & -> & He)%list_elem_of_fmap. unfold l in He. apply list_elem_of_omap in He as ([q2 a2] & Hw & E).
    rewrite walk_perm in Hw. apply elem_of_map_to_list in Hw. cbn [fst snd] in *. case_bool_decide as Ea; [|done].
    destruct (peer_handshake_hash tcp q2); [|done]. cbn in E. injection E as -> ->. congruence. }
  destruct (bool_decide (length l < 2)%nat); [done|]. cbn [fst].
  assert (q ∉ (filter (λ e, Some e.1 ≠ survivor l) l).*1) as Hg.
  { intros (e & -> & [_ He]%list_elem_of_filter)%list_elem_of_fmap. apply Hl. by apply list_elem_of_fmap_2. }
  clear Hl. clearbody l. revert s Hg Hq. generalize (filter (λ e, Some e.1 ≠ survivor l) l). intros gone. induction gone as [|e gone IH]; intros s Hg Hq; [done|].
  cbn [fmap list_fmap] in Hg. apply not_elem_of_cons in Hg as [He Hg]. cbn [foldl]. rewrite IH; [by apply drop_rows|done|].
  unfold drop_duplicate. cbn [identity]. by rewrite lookup_delete_ne by done.
Qed.
Lemma submit_frame s n job clk io s' n' : submit_verify s n job clk io = Some (s', n') →
  (∀ q, rows s' q = rows s q) ∧ inflight s' = inflight s.
Proof.
  unfold submit_verify. intros E. set (s1 := if negb _ then _ else s) in E.
  assert ((∀ q, rows s1 q = rows s q) ∧ inflight s1 = inflight s) as H1' by (unfold s1; by destruct (negb _)). clearbody s1.
  destruct (job_tx (verify_ s1)) as [queue|], (worker (verify_ s1)) as [[]|];
    [destruct (bool_decide _); [by simplify_eq|destruct (negb _); by simplify_eq]| | | | |];
    destruct (run_verify_job _ _ _ _ _) as [[[imp m] r]|]; try done; cbn [mbind option_bind] in E; by simplify_eq.
Qed.
Lemma dispatch_frame s n p m clk io s' n' out : dispatch s n p m clk io = Some (s', n', out) →
  (∀ q, q ≠ p → rows s' q = rows s q) ∧ inflight s' = inflight s.
Proof.
  intros E. destruct m as [height hd work|stx|b|h|b|start count|bs|addrs|cid gen acct key bind sig|proto agent h| |locator stop|hs];
    cbn [dispatch] in E; try (by simplify_eq).
  - destruct (on_status s n p height hd work clk) as [s1|] eqn:Es; [|done]. cbn [mbind option_bind] in E. injection E as <- <- <-.
    unfold on_status in Es. destruct (local_status n clk) as [local|]; [|done]. cbn [mbind option_bind] in Es. injection Es as <-.
    cbn [sync_next]. destruct (bool_decide _); [|destruct (negb _); [destruct (sync_next s !! p)|]]; (split; [intros q Hq; other|done]).
  - destruct (on_transaction n stx clk) as [[n1 o]|]; [|done]. cbn [mbind option_bind] in E. by simplify_eq.
  - destruct (submit_verify _ _ _ _ _) as [[s1 n1]|] eqn:Es; [|done]. cbn [mbind option_bind] in E. injection E as <- <- <-.
    apply submit_frame in Es as [Hr Hi]. by split.
  - destruct b as [b|]; [|by simplify_eq]. destruct (submit_verify _ _ _ _ _) as [[s1 n1]|] eqn:Es; [|done]. cbn [mbind option_bind] in E.
    injection E as <- <- <-. apply submit_frame in Es as [Hr Hi]. by split.
  - destruct (_ <? _); [by simplify_eq|]. destruct (bool_decide _); [simplify_eq; split; [intros q Hq; other|done]|].
    destruct (submit_verify _ _ _ _ _) as [[s1 n1]|] eqn:Es; [|done]. cbn [mbind option_bind] in E.
    injection E as <- <- <-. apply submit_frame in Es as [Hr Hi]. by split.
  - destruct (_ <? _); simplify_eq; (split; [intros q Hq; other|done]).
  - injection E as E. unfold on_headers in E. destruct (bool_decide _); [by simplify_eq|].
    destruct (negb _ && _); [destruct (extend_checkpoint_linkage _ _); by simplify_eq|].
    destruct (headers_fork_point n hs) as [fork|]; [|destruct (sync_next s !! p)]; simplify_eq; (split; [intros q Hq; other|done]).
Qed.

(** ** Trust *)

(** The account a message proves on its channel. *)
Definition proven (tcp : Tcp) (cfg : P2pConfig) p (m : Net.NetMessage) : option AccountId :=
  match peer_handshake_hash tcp p with
  | Some b => match authenticated_peer_identity m cfg b with Some a => a | None => None end
  | None => None
  end.
Lemma proven_spec tcp cfg p m a : proven tcp cfg p m = Some a →
  ∃ claimed key b sig, m = Net.Hello (c_chain_id cfg) (c_genesis_hash cfg) claimed key b sig ∧
    peer_handshake_hash tcp p = Some b ∧
    verify key (Net.hello_signing_bytes (c_chain_id cfg) (c_genesis_hash cfg) claimed b) sig = true ∧
    implicit_account_id key = Some a ∧ (is_implicit claimed = true → claimed = a) ∧ allows_identity cfg m = true.
Proof.
  unfold proven, authenticated_peer_identity. destruct (peer_handshake_hash tcp p) as [b|]; [|done].
  destruct (allows_identity cfg m) eqn:Ea; [|done]. cbn [negb]. unfold Net.authenticated_account.
  destruct m as [| | | | | | | |cid gen claimed key b' sig| | | |]; try done.
  destruct (bool_decide (cid = _)) eqn:E1; [|done]. destruct (bool_decide (gen = _)) eqn:E2; [|done].
  destruct (bool_decide (b' = _)) eqn:E3; [|done]. apply bool_decide_eq_true in E1, E2, E3. subst. cbn [andb].
  destruct (verify _ _ _) eqn:Ev; [|done]. unfold Net.implicit_account_spoofed. intros E. exists claimed, key, b, sig.
  destruct (is_implicit claimed) eqn:Ei; [|cbn in E; destruct (implicit_account_id key); [|done]; by simplify_eq].
  destruct (implicit_account_id key) as [id|] eqn:Ek; [|done]. cbn in E. destruct (bool_decide (claimed = id)) eqn:Ec; [|done].
  apply bool_decide_eq_true in Ec as ->. cbn in E. by simplify_eq.
Qed.
Lemma submit_identity s n job clk io s' n' : submit_verify s n job clk io = Some (s', n') → identity s' = identity s.
Proof. intros [Hr _]%submit_frame. apply map_eq. intros q. specialize (Hr q). unfold rows in Hr. congruence. Qed.
Lemma dispatch_identity s n p m clk io s' n' out : dispatch s n p m clk io = Some (s', n', out) → identity s' ⊆ identity s.
Proof.
  intros E. destruct m as [height hd work|stx|b|h|b|start count|bs|addrs|cid gen acct key bind sig|proto agent h| |locator stop|hs];
    cbn [dispatch] in E; try (by simplify_eq).
  - unfold on_status in E. destruct (local_status n clk); [|done]. cbn [mbind option_bind] in E. injection E as <- <- <-.
    cbn [sync_next]. destruct (bool_decide _); [done|]. destruct (negb _); [|done]. by destruct (sync_next s !! p).
  - destruct (on_transaction n stx clk) as [[n1 o]|]; [|done]. cbn [mbind option_bind] in E. by simplify_eq.
  - destruct (submit_verify _ _ _ _ _) as [[s1 n1]|] eqn:Es; [|done]. cbn [mbind option_bind] in E. injection E as <- <- <-.
    by rewrite (submit_identity _ _ _ _ _ _ _ Es).
  - destruct b as [b|]; [|by simplify_eq]. destruct (submit_verify _ _ _ _ _) as [[s1 n1]|] eqn:Es; [|done]. cbn [mbind option_bind] in E.
    injection E as <- <- <-. by rewrite (submit_identity _ _ _ _ _ _ _ Es).
  - destruct (_ <? _); [by simplify_eq|]. destruct (bool_decide _); [by simplify_eq|].
    destruct (submit_verify _ _ _ _ _) as [[s1 n1]|] eqn:Es; [|done]. cbn [mbind option_bind] in E.
    injection E as <- <- <-. by rewrite (submit_identity _ _ _ _ _ _ _ Es).
  - destruct (_ <? _); simplify_eq; [|done]. cbn [identity]. apply delete_subseteq.
  - injection E as E. unfold on_headers in E. destruct (bool_decide _); [by simplify_eq|].
    destruct (negb _ && _); [destruct (extend_checkpoint_linkage _ _); by simplify_eq|].
    destruct (headers_fork_point n hs) as [fork|]; [|destruct (sync_next s !! p)]; by simplify_eq.
Qed.
Lemma dedup_identity_sub tcp s a : identity (dedup_identity tcp s a).1 ⊆ identity s.
Proof.
  unfold dedup_identity. set (l := omap _ _). clearbody l. destruct (bool_decide _); [done|]. cbn [fst].
  apply (foldl_keeps (λ s', identity s' ⊆ identity s)); [done|]. intros s' e Hs. etrans; [apply delete_subseteq|exact Hs].
Qed.
Lemma admit_spec tcp s n cfg p binding a s' out : admit_peer tcp s n cfg p binding a = Some (s', out) →
  inflight s' = inflight s ∧
  (∀ q, q ≠ p → identity s !! q ≠ Some a → rows s' q = rows s q) ∧
  (∀ q a', identity s' !! q = Some a' → identity s !! q = Some a' ∨ q = p ∧ a' = a ∧ implicit_account_id (c_key cfg) ≠ Some a).
Proof.
  unfold admit_peer. intros E. destruct (implicit_account_id (c_key cfg)) as [own|]; [|done]. cbn [mbind option_bind] in E.
  destruct (bool_decide (a = own)) eqn:Eo.
  { injection E as <- <-. split_and!; [done| |by left]. intros q Hq _. other. }
  apply bool_decide_eq_false in Eo. cbn zeta in E.
  set (s2 := {| s with authenticated := {[p]} ∪ authenticated s; identity := <[p := a]> (identity s) |}) in E.
  assert (∀ q, q ≠ p → rows s2 q = rows s q) as Hr by (intros q Hq; unfold s2; other).
  assert (∀ q a', identity s2 !! q = Some a' → identity s !! q = Some a' ∨ q = p ∧ a' = a ∧ Some own ≠ Some a) as Hid.
  { intros q a'. unfold s2. cbn [identity]. destruct (decide (q = p)) as [->|Hq]; [|rewrite lookup_insert_ne by done; by left].
    rewrite lookup_insert_eq. intros [= <-]. right. split_and!; [done..|congruence]. }
  destruct (negb _); [|by simplify_eq; split_and!; [done|intros q Hq _; by apply Hr|]].
  destruct (status n) as [st|]; [|done]. cbn [mbind option_bind] in E. destruct (version_msg n) as [v|]; [|done]. cbn [mbind option_bind] in E.
  pose proof (dedup_identity_sub tcp s2 a) as Hsub. pose proof (dedup_rows tcp s2 a) as Hdr.
  assert (inflight (dedup_identity tcp s2 a).1 = inflight s) as Hi.
  { change (inflight s) with (inflight s2). clearbody s2. clear. unfold dedup_identity. set (l := omap _ _). clearbody l. destruct (bool_decide _); [done|].
    cbn [fst]. by apply (foldl_keeps (λ s', inflight s' = inflight s2)). }
  destruct (dedup_identity tcp s2 a) as [s3 o]. cbn [fst] in *. injection E as <- <-. split_and!; [done| |].
  - intros q Hq Ha. rewrite Hdr; [by apply Hr|]. unfold s2. cbn [identity]. by rewrite lookup_insert_ne by done.
  - intros q a' Ea. apply Hid. by eapply lookup_weaken.
Qed.
Lemma correlate_frame s p m s1 : correlate s p m = Some s1 →
  (∀ q, q ≠ p → rows s1 q = rows s q) ∧ identity s1 = identity s ∧ (∀ f, inflight s = Some f → f_peer f ≠ p → inflight s1 = Some f).
Proof.
  unfold correlate. intros E. destruct (match linkage_requests s !! p with Some f => _ | None => _ end).
  { injection E as <-. split_and!; [intros q Hq; other|done..]. }
  destruct (inflight s) as [f|] eqn:Ei; [|done]. destruct (bool_decide _) eqn:Ep; [|done]. destruct (matches _ _); [|done]. injection E as <-.
  apply bool_decide_eq_true in Ep. split_and!; [done..|]. intros f' [= <-] Hf. congruence.
Qed.

(** The ways a message is handled. *)
Lemma handle_cases tcp s n cfg p m clk io s' n' out : handle tcp s n cfg p m clk io = Some (s', n', out) →
  let s0 := {| s with last_recv := <[p := mono clk]> (last_recv s) |} in
  (∃ a, proven tcp cfg p m = Some a ∧ n' = n ∧ admit_peer tcp s0 n cfg p (peer_handshake_hash tcp p) a = Some (s', out)) ∨
  (is_hello m = true ∧ n' = n ∧ s' = forget_peer s0 p) ∨
  (proven tcp cfg p m = None ∧ is_hello m = false ∧ n' = n ∧ s' = s0 ∧ out = [] ∧
     (p ∉ authenticated s ∨ is_reply m = true ∧ correlate s0 p m = None)) ∨
  (p ∈ authenticated s ∧ ∃ s1, (∀ q, q ≠ p → rows s1 q = rows s q) ∧ identity s1 = identity s ∧
     (∀ f, inflight s = Some f → f_peer f ≠ p → inflight s1 = Some f) ∧ (is_reply m = true → is_Some (correlate s0 p m)) ∧
     (s' = s1 ∧ n' = n ∨ dispatch s1 n p m clk io = Some (s', n', out))).
Proof.
  intros E. cbn zeta. unfold handle in E. set (s0 := {| s with last_recv := _ |}) in *.
  assert (∀ q, q ≠ p → rows s0 q = rows s q) as H0' by (intros q Hq; unfold s0; other).
  match type of E with (mbind _ ?l) = _ => destruct l as [account|] eqn:Ea; [|done] end. cbn [mbind option_bind] in E.
  assert (proven tcp cfg p m = account) as Ep by (unfold proven; destruct (peer_handshake_hash tcp p); [by rewrite Ea|by injection Ea as <-]).
  destruct account as [a|].
  { left. exists a. destruct (admit_peer _ _ _ _ _ _ _) as [[s1 o]|] eqn:Ed; [|done]. cbn [mbind option_bind] in E. by simplify_eq. }
  right. destruct (is_hello m) eqn:Eh.
  { left. destruct (Net.implicit_account_mismatch m) as [sp|]; [|done]. cbn [mbind option_bind] in E. by simplify_eq. }
  right. case_bool_decide as Hauth; cbn [negb] in E; [|left; injection E as <- <- <-; split_and!; try done; by left].
  change (authenticated s0) with (authenticated s) in Hauth. destruct (is_reply m) eqn:Er.
  - destruct (correlate s0 p m) as [s1|] eqn:Ec; [|left; injection E as <- <- <-; split_and!; try done; by right].
    right. split; [done|]. destruct (correlate_frame _ _ _ _ Ec) as (Hr & Hid & Hf).
    exists {| s1 with no_progress_replies := <[p := saturating_add u32_max (default 0 (no_progress_replies s1 !! p)) 1]> (no_progress_replies s1) |}.
    split_and!; [|done|done|by eexists|destruct (256 <? _); [left; by simplify_eq|by right]].
    intros q Hq. rewrite <- (H0' q Hq), <- (Hr q Hq). other.
  - right. split; [done|]. exists s0. split_and!; try done. by right.
Qed.

(** C16: a peer cannot reach past its own row.  Handling a message of [p] changes
    nothing kept about another connection - its trust, its account, what it advertised,
    its cursor, strikes and timers - unless the message proved the account that
    connection belongs to, in which case one of the two goes; a request outstanding to
    another peer stays outstanding.  Before [p] is trusted no message of it changes the
    node, and a block or header reply that answers neither request outstanding to [p] is
    dropped: nothing changes but the time [p] was heard from, and nothing is sent. *)
Theorem peer_confined tcp s n cfg p m clk io s' n' out : handle tcp s n cfg p m clk io = Some (s', n', out) →
  (∀ q, q ≠ p → (∀ a, proven tcp cfg p m = Some a → identity s !! q ≠ Some a) → rows s' q = rows s q) ∧
  (∀ f, inflight s = Some f → f_peer f ≠ p → inflight s' = Some f) ∧
  (p ∉ authenticated s → n' = n) ∧
  (is_reply m = true →
   (∀ f, linkage_requests s !! p = Some f → matches (f_request f) m = false) →
   (∀ f, inflight s = Some f → f_peer f = p → matches (f_request f) m = false) →
   s' = {| s with last_recv := <[p := mono clk]> (last_recv s) |} ∧ n' = n ∧ out = []).
Proof.
  intros E. set (s0 := {| s with last_recv := <[p := mono clk]> (last_recv s) |}).
  assert (∀ q, q ≠ p → rows s0 q = rows s q) as Hr0 by (intros q Hq; unfold s0; other).
  assert ((∀ f, linkage_requests s !! p = Some f → matches (f_request f) m = false) →
    (∀ f, inflight s = Some f → f_peer f = p → matches (f_request f) m = false) → correlate s0 p m = None) as Hc.
  { intros Hl Hf. unfold correlate, s0. cbn [linkage_requests inflight]. destruct (linkage_requests s !! p) as [f|]; [rewrite (Hl f eq_refl)|];
      (destruct (inflight s) as [f'|]; [|done]; case_bool_decide as Hp; [by rewrite (Hf f' eq_refl Hp)|done]). }
  destruct (handle_cases _ _ _ _ _ _ _ _ _ _ _ E) as [(a & Ep & -> & Ea)|[(Eh & -> & ->)|[(Ep & Eh & -> & -> & -> & _)|(Hauth & s1 & Hr & _ & Hf & Hco & Hd)]]].
  - apply admit_spec in Ea as (Hi & Hr & _). split_and!; [|by intros f Hf _; rewrite Hi|done|].
    + intros q Hq Ha. rewrite Hr; [by apply Hr0|done|]. by apply Ha.
    + apply proven_spec in Ep as (c & k & b & sg & -> & _). done.
  - split_and!; [|done|done|by destruct m]. intros q Hq _. rewrite forget_rows by done. by apply Hr0.
  - split_and!; try done. intros q Hq _. by apply Hr0.
  - split_and!; [| |done|intros Hre Hl Hx; destruct (Hco Hre) as [z Hz]; change (correlate s0 p m = Some z) in Hz; by rewrite (Hc Hl Hx) in Hz].
    + intros q Hq _. rewrite <- (Hr q Hq). destruct Hd as [[-> _]|Hd]; [done|]. by apply dispatch_frame in Hd as [Hd _]; apply Hd.
    + intros f Ef Hp. rewrite <- (Hf f Ef Hp). destruct Hd as [[-> _]|Hd]; [done|]. by apply dispatch_frame in Hd as [_ Hd].
Qed.

(** *** No other operation adds a peer *)

Lemma report_identity tcp s n r clk s' out : apply_verify_report tcp s n r clk = Some (s', out) → identity s' = identity s.
Proof.
  intros E. unfold apply_verify_report in E.
  assert (∀ s p h, identity (advance_or_done s p h) = identity s) as Ha by (intros; unfold advance_or_done; repeat (case_match; try done)).
  assert (identity (note_progress s r) = identity s) as <- by (unfold note_progress; repeat (case_match; try done)).
  generalize dependent (note_progress s r). intros s1 E. destruct (v_mode r).
  - unfold apply_batch in E. destruct (summary _) as [[[h|] [rej|]] []]; try (by simplify_eq); try (simplify_eq; by rewrite Ha).
    match type of E with (mbind _ ?l) = _ => destruct l as [locator|]; [|done] end.
    cbn [mbind option_bind] in E. destruct (negb _ && _); by simplify_eq.
  - unfold apply_backtrack in E. destruct (head _) as [[h []]|]; simplify_eq; rewrite ?Ha; done.
  - unfold apply_announced in E. by destruct (head _) as [[h []]|]; simplify_eq.
Qed.
Lemma apply_reports_identity tcp n clk turns : ∀ s s' out, apply_reports tcp s n turns clk = Some (s', out) → identity s' = identity s.
Proof.
  induction turns as [|turns IH]; intros s s' out E; cbn [apply_reports] in E; [by simplify_eq|].
  unfold next_report in E. destruct (reports (verify_ s)) as [|r rest]; [by simplify_eq|]. set (s1 := {| s with verify_ := _ |}) in E.
  set (s2 := if bool_decide _ then s1 else _) in E. assert (identity s2 = identity s) as <- by (unfold s2; by destruct (bool_decide _)).
  destruct (apply_verify_report tcp s2 n r clk) as [[s3 o1]|] eqn:Ea; [|done]. cbn [mbind option_bind] in E.
  destruct (apply_reports tcp s3 n turns clk) as [[s4 o2]|] eqn:Eb; [|done]. cbn [mbind option_bind] in E. injection E as <- <-.
  apply report_identity in Ea. apply IH in Eb. congruence.
Qed.
Lemma collect_identity tcp s n clk spawned s' out : collect_verify_reports tcp s n clk spawned = Some (s', out) → identity s' = identity s.
Proof.
  unfold collect_verify_reports. intros E. destruct (apply_reports _ _ _ _ _) as [[s1 o]|] eqn:Ea; [|done]. cbn [mbind option_bind] in E.
  injection E as <- <-. apply apply_reports_identity in Ea as <-. unfold watchdog, attach_verifier. repeat (case_match; try done).
Qed.
Lemma request_identity tcp s n clk s' out : request_missing tcp s n clk = Some (s', out) → identity s' ⊆ identity s.
Proof.
  intros E. unfold request_missing in E. destruct (local_status n clk) as [local|]; [|done]. cbn [mbind option_bind] in E.
  set (connected := list_to_set (connected_peers tcp)) in E.
  assert (identity (retain_connected s connected) ⊆ identity s) as Hs by apply map_filter_subseteq. revert Hs E.
  generalize (retain_connected s connected). intros s1 Hs E.
  destruct (request_linkage tcp s1 n connected clk) as [[s2 o]|] eqn:El; [|done]. cbn [mbind option_bind] in E.
  assert (identity s2 = identity s1) as E2.
  { unfold request_linkage in El. destruct (if checkpoint_linkage_ready _ then _ else _) as [[? pin]|]; [|by simplify_eq].
    match type of El with (mbind _ ?l) = _ => destruct l as [locator|]; [|done] end. cbn [mbind option_bind] in El.
    repeat (case_match; try done); by simplify_eq. }
  rewrite <- E2 in Hs. clear E2 El s1. destruct (verifying s2); [by simplify_eq|].
  destruct (match inflight s2 with Some _ => _ | None => _ end); [by simplify_eq|].
  destruct (match f_peer <$> inflight s2 with Some p => strike s2 p | None => (s2, []) end) as [s3 charged] eqn:Es.
  assert (identity s3 = identity s2) as E3 by (destruct (f_peer <$> inflight s2); [unfold strike in Es|]; by simplify_eq).
  rewrite <- E3 in Hs. clear E3 Es.
  destruct (ask_best _ _ _ _ _ _) as [[s4 asked]|] eqn:Ea; [|done]. cbn [mbind option_bind] in E. injection E as <- <-.
  unfold ask_best in Ea. destruct (candidates _ _ _ _) as [|best cs]; [by simplify_eq|]. destruct (default best _) as [p st].
  repeat (case_match; try done); by simplify_eq.
Qed.
Lemma sweep_identity tcp s clk : identity (sweep_unauthenticated tcp s clk).1 = identity s.
Proof.
  unfold sweep_unauthenticated. apply (foldl_keeps (λ acc : SyncState * list effect, identity acc.1 = identity s)); [done|].
  by intros [s1 o] p Hs.
Qed.

(** C15: trust comes only from a handshake.  If after a step of the system a connection
    is known by an account, either it was before, or the step handled a Hello received
    over that connection, for this chain and genesis, whose signature verifies under the
    key the account is derived from over bytes that name the account and this very
    channel; the account is not the node's own; an account claimed in implicit form is
    the derived one; and where the chain requires hybrid identities key and signature are
    hybrid.  The bytes signed determine chain, genesis, claimed account and channel, so
    what a peer signed for another channel does not serve on this one. *)
Theorem trust_needs_proof cfg e s n s' n' q a : sync_step cfg e (s, n) (s', n') →
  identity s' !! q = Some a → identity s !! q ≠ Some a →
  ∃ tcp claimed key b sig, e = Some (tcp, q, Net.Hello (c_chain_id cfg) (c_genesis_hash cfg) claimed key b sig) ∧
    peer_handshake_hash tcp q = Some b ∧
    verify key (Net.hello_signing_bytes (c_chain_id cfg) (c_genesis_hash cfg) claimed b) sig = true ∧
    implicit_account_id key = Some a ∧ implicit_account_id (c_key cfg) ≠ Some a ∧ (is_implicit claimed = true → claimed = a) ∧
    (requires_hybrid_identity cfg = true → ∃ k1 k2 g1 g2, key = PkV2HybridMlDsa65 k1 k2 ∧ sig = SigV2HybridMlDsa65 g1 g2) ∧
    (∀ chain' genesis' claimed' b', Forall (λ l, N.of_nat (length l) < 2 ^ 64) [string_bytes (c_chain_id cfg); string_bytes chain'; b; b'] →
       Net.hello_signing_bytes (c_chain_id cfg) (c_genesis_hash cfg) claimed b = Net.hello_signing_bytes chain' genesis' claimed' b' →
       chain' = c_chain_id cfg ∧ genesis' = c_genesis_hash cfg ∧ claimed' = claimed ∧ b' = b).
Proof.
  intros Hs E' E. assert (∀ m : gmap SocketAddr AccountId, m ⊆ identity s → m !! q = Some a → False) as Hsub
    by (intros m Hm Ea; by apply E, (lookup_weaken m)).
  inversion Hs as [tcp ? ? p m clk io ? ? out Eh|? ? ? ? ? ? ? Eh|? ? ? ? ? ? Eh| | | |? ? ? Eh|? ? ? ? ? ? Eh|? ? ? ? Eh| |]; subst.
  2: { apply collect_identity in Eh. destruct (Hsub (identity s')); [by rewrite Eh|done]. }
  2: { apply request_identity in Eh. by destruct (Hsub (identity s')). }
  2: { destruct (Hsub (identity s)); [done|]. by rewrite sweep_identity in E'. }
  2: { unfold credit_stall in E'. by destruct (checked_sub _ _). }
  2,6,7: done.
  2: { unfold take_job in Eh. repeat (case_match; try done). by simplify_eq. }
  2: { unfold verify_next in Eh. destruct (running _); [|done]. cbn [mbind option_bind] in Eh. destruct (verify_one _ _ _ _ _) as [[[]]|]; [|done].
       cbn [mbind option_bind] in Eh. by simplify_eq. }
  2: { unfold send_report in Eh. destruct (running _); [|done]. cbn [mbind option_bind] in Eh. destruct (bool_decide _); [|done]. by simplify_eq. }
  destruct (handle_cases _ _ _ _ _ _ _ _ _ _ _ Eh) as [(b & Ep & -> & Ea)|[(_ & _ & ->)|[(_ & _ & _ & -> & _)|(_ & s1 & _ & Hid & _ & _ & Hd)]]].
  - apply admit_spec in Ea as (_ & _ & Hid). destruct (Hid _ _ E') as [Hx|(-> & -> & Hown)]; [done|].
    destruct (proven_spec _ _ _ _ _ Ep) as (claimed & key & b' & sig & -> & Hb & Hv & Hk & Hi & Hal).
    exists tcp, claimed, key, b', sig. split_and!; try done.
    + intros Hreq. unfold allows_identity in Hal. rewrite Hreq in Hal. destruct key, sig; try done. by eexists _, _, _, _.
    + intros c' g' a' b2 Hl Eb. destruct (Net.hello_signing_bytes_inj _ _ _ _ _ _ _ _ Hl Eb) as (-> & -> & -> & ->). done.
  - destruct (Hsub (delete p (identity s))); [apply delete_subseteq|exact E'].
  - done.
  - destruct Hd as [[-> _]|Hd]; [by rewrite Hid in E'|]. apply dispatch_identity in Hd. rewrite Hid in Hd. by destruct (Hsub (identity s')).
Qed.

(** ** Whom the node asks *)

#[local] Instance more_work_trans : Transitive more_work.
Proof. intros a b c Hab Hbc. unfold more_work in *. by eapply bytes_leb_trans. Qed.
#[local] Instance more_work_total : Total more_work.
Proof. intros a b. unfold more_work. destruct (bytes_leb_total (p_chain_work a.2) (p_chain_work b.2)); [by right|by left]. Qed.
Lemma candidates_spec s connected local clk q st : (q, st) ∈ candidates s connected local clk →
  peer_status s !! q = Some st ∧ bytes_leb (p_chain_work st) (p_chain_work local) = false ∧ q ∈ authenticated s ∧ q ∈ connected.
Proof.
  intros Hq. assert ((q, st) ∈ claimants s connected local) as Hc.
  { unfold candidates in Hq. destruct (bool_decide _); rewrite merge_sort_Permutation in Hq; [done|]. by apply list_elem_of_filter in Hq as [_ Hq]. }
  unfold claimants in Hc. apply list_elem_of_filter in Hc as [(H1' & H2' & H3') Hw]. rewrite walk_perm, elem_of_map_to_list in Hw. done.
Qed.
Lemma actionable_candidate s connected local clk q st : peer_status s !! q = Some st →
  bytes_leb (p_chain_work st) (p_chain_work local) = false → q ∈ authenticated s → q ∈ connected →
  status_actionable s q st clk = true →
  (q, st) ∈ candidates s connected local clk ∧ StronglySorted more_work (candidates s connected local clk) ∧
  ∀ x stx, (x, stx) ∈ candidates s connected local clk → status_actionable s x stx clk = true.
Proof.
  intros Hs Hw Ha Hc Hact. unfold candidates. set (pref := merge_sort more_work _).
  assert ((q, st) ∈ pref) as Hin.
  { unfold pref. rewrite merge_sort_Permutation. apply list_elem_of_filter. split; [done|]. unfold claimants. apply list_elem_of_filter.
    split; [done|]. by rewrite walk_perm, elem_of_map_to_list. }
  rewrite bool_decide_false by (intros ->; by apply not_elem_of_nil in Hin).
  split_and!; [done|apply StronglySorted_merge_sort; apply _|]. intros x stx Hx. unfold pref in Hx.
  rewrite merge_sort_Permutation in Hx. by apply list_elem_of_filter in Hx as [Hx _].
Qed.
(** A fresh claim above all others is the first choice. *)
Lemma best_claim s connected local clk p st : peer_status s !! p = Some st →
  bytes_leb (p_chain_work st) (p_chain_work local) = false → p ∈ authenticated s → p ∈ connected →
  status_actionable s p st clk = true →
  (∀ q st', q ≠ p → peer_status s !! q = Some st' → bytes_leb (p_chain_work st) (p_chain_work st') = false) →
  ∃ cs, candidates s connected local clk = (p, st) :: cs.
Proof.
  intros Hp Hw Ha Hc Hact Hmax. destruct (actionable_candidate s connected local clk p st) as (Hin & Hsort & _); [done..|].
  destruct (candidates s connected local clk) as [|[q st'] cs] eqn:Ec; [by apply not_elem_of_nil in Hin|].
  destruct (candidates_spec s connected local clk q st') as (Hx & _); [rewrite Ec; left|]. exists cs.
  destruct (decide (q = p)) as [->|Hq]; [congruence|]. exfalso. apply elem_of_cons in Hin as [[= Hy _]|Hin]; [by destruct Hq|].
  inversion Hsort as [|? ? _ Hall]; subst. rewrite Forall_forall in Hall. specialize (Hall _ Hin). unfold more_work in Hall. cbn in Hall.
  by rewrite (Hmax q st' Hq Hx) in Hall.
Qed.
(** What [request_missing] reads and the linkage request leaves alone. *)
Lemma linkage_frame tcp s n connected clk s' out : request_linkage tcp s n connected clk = Some (s', out) →
  s' = {| s with linkage_requests := linkage_requests s' |}.
Proof.
  intros E. unfold request_linkage in E. destruct (if checkpoint_linkage_ready _ then _ else _) as [[? pin]|]; [|injection E as <- <-; by destruct s].
  match type of E with (mbind _ ?l) = _ => destruct l as [locator|]; [|done] end. cbn [mbind option_bind] in E.
  repeat (case_match; try done); injection E as <- <-; by destruct s.
Qed.

(** One message of a trusted peer stops the node.  A connected, trusted peer in good
    standing sends a Status with height 0 and more chain work than this node and every
    other peer has.  The message is accepted, and at the next request, if that comes while
    the claim is fresh and no request is outstanding, [clamp(1, 0)] panics. *)
Theorem status_zero_panics tcp s n cfg p hd work clk io s' n' out local clk' :
  p ∈ authenticated s → p ∈ connected_peers tcp → verifying s = None → inflight s = None → sync_strikes s !! p = None →
  local_status n clk = Some local → bytes_leb work (p_chain_work local) = false →
  (∀ q st, q ≠ p → peer_status s !! q = Some st → bytes_leb work (p_chain_work st) = false) →
  handle tcp s n cfg p (Net.Status 0 hd work) clk io = Some (s', n', out) →
  mono clk' < mono clk + STATUS_TTL →
  n' = n ∧ out = [] ∧ request_missing tcp s' n' clk' = None.
Proof.
  intros Ha Hc Hv Hi Hst Hl Hw Hmax E Hclk.
  assert (handle tcp s n cfg p (Net.Status 0 hd work) clk io =
    (s1 ← on_status {| s with last_recv := <[p := mono clk]> (last_recv s) |} n p 0 hd work clk; Some (s1, n, []))) as Eh.
  { unfold handle. assert (match peer_handshake_hash tcp p with Some b => authenticated_peer_identity (Net.Status 0 hd work) cfg b | None => Some None end
      = Some None) as -> by (destruct (peer_handshake_hash tcp p); [unfold authenticated_peer_identity; by destruct (negb _)|done]).
    cbn [mbind option_bind is_hello is_reply authenticated]. by rewrite bool_decide_true. }
  rewrite Eh in E. clear Eh. unfold on_status in E. rewrite Hl in E. cbn [mbind option_bind] in E. injection E as <- <- <-.
  split_and!; [done..|]. match goal with |- request_missing _ ?x _ _ = _ => set (s' := x) end.
  set (st0 := mkStatus 0 hd work (mono clk)).
  assert (peer_status s' = <[p := st0]> (peer_status s) ∧ authenticated s' = authenticated s ∧ verifying s' = None ∧ inflight s' = None ∧
    sync_strikes s' = sync_strikes s) as (Fp & Fa & Fv & Fi & Fs).
  { unfold s', st0. cbn [sync_next]. destruct (bool_decide _); [done|]. destruct (negb _); [|done]. by destruct (sync_next s !! p). }
  clearbody s'. unfold request_missing. destruct (local_status n clk') as [local'|] eqn:El; [|done]. cbn [mbind option_bind].
  assert (p_chain_work local' = p_chain_work local) as Ew.
  { unfold local_status in Hl, El. destruct (height_ _); [|done]. destruct (head_block _); [|done]. destruct (chain_work _); [|done].
    cbn in Hl, El. by simplify_eq. }
  set (connected := list_to_set (connected_peers tcp)). set (sr := retain_connected s' connected).
  assert (p ∈ connected) as Hcon by (unfold connected; by apply elem_of_list_to_set).
  destruct (request_linkage tcp sr n connected clk') as [[s2 o]|] eqn:Elk; [|done]. cbn [mbind option_bind].
  apply linkage_frame in Elk.
  assert (verifying s2 = None ∧ inflight s2 = None) as [-> ->] by (rewrite Elk; exact (conj Fv Fi)). cbn [fmap option_fmap option_map].
  assert (peer_status s2 = peer_status sr ∧ authenticated s2 = authenticated sr ∧ sync_strikes s2 = sync_strikes sr) as (Fp2 & Fa2 & Fs2)
    by (rewrite Elk; done). clear Elk.
  assert (peer_status s2 !! p = Some st0 ∧ p ∈ authenticated s2 ∧ sync_strikes s2 !! p = None) as (Gp & Ga & Gs).
  { rewrite Fp2, Fa2, Fs2. unfold sr, retain_connected, retain. cbn [peer_status authenticated sync_strikes]. rewrite Fp, Fa, Fs. split_and!.
    - apply map_lookup_filter_Some. split; [by rewrite lookup_insert_eq|done].
    - by apply elem_of_filter.
    - apply map_lookup_filter_None. by left. }
  assert (∀ q st, q ≠ p → peer_status s2 !! q = Some st → peer_status s !! q = Some st) as Gq.
  { intros q st Hq. rewrite Fp2. unfold sr, retain_connected, retain. cbn [peer_status]. rewrite Fp. intros [Hx _]%map_lookup_filter_Some.
    by rewrite lookup_insert_ne in Hx. }
  destruct (best_claim s2 connected local' clk' p st0) as [cs Ec]; [done|by rewrite Ew|done|done| |by intros q st Hq Hx; apply (Hmax q); [|apply Gq]|].
  { unfold status_actionable. rewrite Gs. cbn [default from_option]. apply andb_true_iff. split; [|done].
    change (received_at st0) with (mono clk). apply N.ltb_lt. unfold saturating_sub, STATUS_TTL in *. lia. }
  rewrite Ec. unfold ask_best. cbn [list_find]. rewrite decide_True by done. done.
Qed.

Lemma linkage_total tcp s n connected clk top : height_ (Node.chain n) = Some top → is_Some (request_linkage tcp s n connected clk).
Proof.
  intros Ht. unfold request_linkage. destruct (if checkpoint_linkage_ready _ then _ else _) as [[? pin]|]; [|by eexists].
  assert (is_Some (match (linkage_progress (Node.chain n)).2 with Some h => Some [h] | None => l ← build_locator n; Some (take 1 l) end)) as [l ->].
  { destruct (linkage_progress _).2; [by eexists|]. unfold build_locator. rewrite Ht. by eexists. }
  cbn [mbind option_bind]. destruct (if bool_decide (l = []) then _ else _); [|by eexists]. destruct (negb _ || _); [by eexists|].
  cbn zeta. destruct (can_send _ _ _); by eexists.
Qed.
(** What asking another peer comes to: its claim of height 0 panics; otherwise a
    request for blocks goes out, or the peer turns out to be gone. *)
Definition asks (tcp : Tcp) (s : SyncState) (q : SocketAddr) (st : PeerStatus) (clk : Clock)
    (r : option (SyncState * list effect)) : Prop :=
  if p_height st =? 0 then r = None
  else ∃ m, (∃ h, m = Net.GetBlock h ∨ ∃ k, m = Net.GetBlocks h k) ∧
    if can_send tcp q m then ∃ rq, r = Some ({| s with inflight := Some (mkInFlight q (mono clk) rq) |}, [Sent q m])
    else r = Some ({| s with inflight := None |}, []).
Lemma ask_best_asks tcp s local cs stalled clk q st : (q, st) ∈ cs → Some q ≠ stalled →
  ∃ q' st', Some q' ≠ stalled ∧ (q', st') ∈ cs ∧ asks tcp s q' st' clk (ask_best tcp s local cs stalled clk).
Proof.
  intros Hq Hne. unfold ask_best. destruct cs as [|best cs]; [by apply not_elem_of_nil in Hq|].
  destruct (list_find (λ e, Some e.1 ≠ stalled) (best :: cs)) as [[i [q' st']]|] eqn:Ef.
  - apply list_find_Some in Ef as (Ei & Hq' & _). exists q', st'. split_and!; [done|by eapply list_elem_of_lookup_2|].
    cbv beta iota zeta delta [fmap option_fmap option_map default from_option snd id]. unfold asks.
    destruct (N.ltb_spec (p_height st') 1); [by rewrite (proj2 (N.eqb_eq _ _)) by lia|]. rewrite (proj2 (N.eqb_neq _ _)) by lia.
    match goal with |- context [can_send tcp q' ?ask] => exists ask; split; [|destruct (can_send tcp q' ask); [by eexists|done]] end.
    destruct (0 <? _); eexists; [by left|right; by eexists].
  - apply list_find_None in Ef. rewrite Forall_forall in Ef. by destruct (Ef _ Hq).
Qed.

(** C18: a peer that withholds does not hold up catching up.  No batch is being verified
    and the request outstanding to a connected peer has passed its deadline; some other
    trusted connected peer has a fresh claim of more work than this node's and few
    strikes.  Then another trusted, connected peer with such a claim is chosen.  If that
    claim names a height of at least 1, the silent peer is charged one strike, which
    doubles its next deadline up to four times, and a request for blocks goes to the
    chosen peer and is recorded as the one outstanding with its own deadline, unless the
    peer has just gone, and then nothing is outstanding and the next turn chooses again.
    If it names height 0, the thread panics. *)
Theorem stall_moves_on tcp s n clk local f q st :
  verifying s = None → inflight s = Some f → f_peer f ∈ connected_peers tcp →
  request_timeout s (f_peer f) ≤ mono clk - f_since f →
  local_status n clk = Some local → q ≠ f_peer f → q ∈ authenticated s → q ∈ connected_peers tcp →
  peer_status s !! q = Some st → bytes_leb (p_chain_work st) (p_chain_work local) = false → status_actionable s q st clk = true →
  ∃ q' st', q' ≠ f_peer f ∧ q' ∈ authenticated s ∧ q' ∈ connected_peers tcp ∧ peer_status s !! q' = Some st' ∧
    bytes_leb (p_chain_work st') (p_chain_work local) = false ∧ status_actionable s q' st' clk = true ∧
    if p_height st' =? 0 then request_missing tcp s n clk = None
    else ∃ s' out m, request_missing tcp s n clk = Some (s', out) ∧
      sync_strikes s' !! f_peer f = Some (saturating_add u32_max (default 0 (sync_strikes s !! f_peer f)) 1) ∧
      (∃ h, m = Net.GetBlock h ∨ ∃ k, m = Net.GetBlocks h k) ∧
      if can_send tcp q' m then Sent q' m ∈ out ∧ ∃ f', inflight s' = Some f' ∧ f_peer f' = q' ∧ f_since f' = mono clk
      else inflight s' = None.
Proof.
  intros Hv Hi Hfc Hto Hl Hq Ha Hc Hp Hw Hact. unfold request_missing. rewrite Hl. cbn [mbind option_bind].
  set (connected := list_to_set (connected_peers tcp)). set (sr := retain_connected s connected).
  assert (∀ p, p ∈ connected ↔ p ∈ connected_peers tcp) as Hcon by (intros; apply elem_of_list_to_set).
  assert (is_Some (height_ (Node.chain n))) as [top Ht] by (unfold local_status in Hl; destruct (height_ _); [by eexists|done]).
  destruct (linkage_total tcp sr n connected clk top Ht) as [[s2 o] El]. rewrite El. cbn [mbind option_bind]. apply linkage_frame in El.
  assert (∀ p, p ∈ connected → sync_strikes s2 !! p = sync_strikes s !! p) as Fs.
  { intros p Hpc. rewrite El. cbn [sync_strikes]. unfold sr, retain_connected, retain. cbn [sync_strikes]. rewrite map_lookup_filter.
    destruct (sync_strikes s !! p); [|done]. cbn. by rewrite option_guard_True. }
  assert (∀ p st, peer_status s2 !! p = Some st ↔ peer_status s !! p = Some st ∧ p ∈ connected) as Fp.
  { intros p x. rewrite El. cbn [peer_status]. unfold sr, retain_connected, retain. cbn [peer_status]. by rewrite map_lookup_filter_Some. }
  assert (∀ p, p ∈ authenticated s2 ↔ p ∈ authenticated s ∧ p ∈ connected) as Fa.
  { intros p. rewrite El. cbn [authenticated]. unfold sr, retain_connected. cbn [authenticated]. rewrite elem_of_filter. tauto. }
  assert (verifying s2 = None ∧ inflight s2 = Some f ∧ stall_credit s2 = stall_credit s) as (-> & -> & Fc) by (rewrite El; done). clear El.
  assert (request_timeout s2 (f_peer f) = request_timeout s (f_peer f)) as -> by (unfold request_timeout; by rewrite Fs by (by apply Hcon)).
  rewrite (proj2 (N.ltb_ge _ _)) by (unfold saturating_sub; lia). rewrite andb_false_r. cbn [fmap option_fmap option_map]. unfold strike.
  rewrite Fs by (by apply Hcon). match goal with |- context [candidates ?x connected local clk] => set (s3 := x) end.
  assert (∀ x stx, x ∈ connected → x ≠ f_peer f → status_actionable s3 x stx clk = status_actionable s x stx clk) as Hsame.
  { intros x stx Hx Hne. unfold status_actionable, s3. cbn [stall_credit sync_strikes]. by rewrite Fc, lookup_insert_ne, Fs. }
  destruct (actionable_candidate s3 connected local clk q st) as (Hin & _ & Hfresh);
    [by apply Fp; rewrite Hcon|done|by apply Fa; rewrite Hcon|by apply Hcon|by rewrite Hsame by (done || by apply Hcon)|].
  destruct (ask_best_asks tcp s3 local (candidates s3 connected local clk) (Some (f_peer f)) clk q st) as (q' & st' & Hne & Hq' & Hask);
    [done|congruence|]. specialize (Hfresh _ _ Hq'). apply candidates_spec in Hq' as (Hx1 & Hx2 & Hx3 & Hx4).
  apply Fp in Hx1 as [Hx1 _]. apply Fa in Hx3 as [Hx3 _]. rewrite Hsame in Hfresh by (done || congruence).
  exists q', st'. split_and!; [congruence|done|by apply Hcon|done|done|done|]. unfold asks in Hask.
  destruct (p_height st' =? 0); [by rewrite Hask|]. destruct Hask as (m & Hm & Hask).
  destruct (can_send tcp q' m) eqn:Ec; [destruct Hask as [rq ->]|rewrite Hask]; cbn [mbind option_bind];
    eexists _, _, m; (split_and!; [reflexivity|unfold s3; cbn [sync_strikes]; by rewrite lookup_insert_eq|done|]); rewrite Ec; [|done].
  split; [rewrite !elem_of_app; right; right; left|]. by eexists.
Qed.

(** ** A request whose answer is not recognised *)

(** From a node that already has blocks, the headers that would prove its checkpoint
    do not arrive.  The proof has not started, so the locator is the node's tip and the
    reply is expected to start at height 1; a server whose active chain contains that tip
    answers with the headers above it, which do not match what was asked: the client
    drops the answer ([peer_confined]) and asks the same again. *)
Theorem linkage_unanswerable `{UP : !UntornPools} g tcp s (cl sv : Node.t) connected clk s' out p locator stop tip :
  ChainSafety.config_wf g → ChainSafety.reachable g (Node.chain cl) → ChainSafety.reachable g (Node.chain sv) →
  linkage_progress (Node.chain cl) = (0, None) → height_ (Node.chain cl) = Some tip → 1 ≤ tip →
  SyncSpec.active_hash (Node.chain cl) tip = SyncSpec.active_hash (Node.chain sv) tip →
  request_linkage tcp s cl connected clk = Some (s', out) → out = [Sent p (Net.GetHeaders locator stop)] →
  f_request <$> linkage_requests s' !! p = Some (RLinkage 1) ∧
  matches (RLinkage 1) (Net.Headers (headers_from_fork_point (Node.chain sv) locator stop)) = false.
Proof.
  intros Hg R1 R2 Hp Ht Htip Eh E ->. pose proof (SyncSpec.reachable_active _ _ Hg R1) as A1. pose proof (SyncSpec.reachable_active _ _ Hg R2) as A2.
  destruct (SyncSpec.a_top _ A1) as (t & Et & Hdom). rewrite Ht in Et. injection Et as <-. destruct (proj2 (Hdom tip) ltac:(lia)) as [b Eb].
  assert (∃ l, build_locator cl = Some (block_hash b :: l)) as [l El].
  { unfold build_locator. rewrite Ht. cbn [mbind option_bind]. unfold locator_heights. change (LOCATOR_CAP - 1)%nat with (S 30). generalize 30%nat. intros room. cbn [locator_loop].
    rewrite (proj2 (N.ltb_ge tip 0)), N.sub_0_r, (proj2 (N.eqb_neq tip 0)) by lia. cbn [app omap list_omap]. rewrite Eb. by eexists. }
  unfold request_linkage in E. destruct (if checkpoint_linkage_ready _ then _ else _) as [[? pin]|]; [|done].
  rewrite Hp in E. cbn [snd fst] in E. rewrite El in E. cbn [mbind option_bind take] in E. rewrite bool_decide_false in E by done.
  destruct (head (walk_set connected)) as [p'|]; [|done]. destruct (negb _ || _); [done|]. destruct (can_send _ _ _); [|done].
  injection E as <- -> <- <-. cbn [linkage_requests]. rewrite lookup_insert_eq. split; [done|].
  unfold headers_from_fork_point. change (take LOCATOR_MAX_ACCEPT (block_hash b :: take 0 l)) with [block_hash b].
  unfold SyncSpec.active_hash in Eh. rewrite Eb in Eh. destruct (block_by_height (Node.chain sv) tip) as [b'|] eqn:Eb'; [|done]. injection Eh as Eh.
  assert (fork_of (Node.chain sv) [block_hash b] = tip) as ->.
  { cbn [fork_of]. rewrite Eh, (SyncSpec.find_active _ _ _ A2 Eb'), (SyncSpec.a_height _ A2 _ _ Eb'), Eb'. cbn. by rewrite bool_decide_true. }
  cbn [matches]. change HEADERS_BATCH with (S 1999). generalize 1999%nat. intros room. cbn [headers_loop].
  destruct (block_by_height (Node.chain sv) (tip + 1)) as [b2|] eqn:E2; [|by rewrite andb_false_r]. cbn [head].
  assert (h_height (header b2) = tip + 1) as -> by exact (SyncSpec.a_height _ A2 _ _ E2). rewrite (proj2 (N.eqb_neq _ _)) by lia. by rewrite andb_false_r.
Qed.
End safety.
End SyncSafety.
