(* ===== verification/SyncDurable.v ===== *)
(** * Durability of what a node passes on (crates/rpc/src/p2p.rs, crates/rpc/src/daemon.rs)

    The verifier writes each block it imports to the log, flushes once per job and only
    then reports; the network thread re-broadcasts an announced block when it reads the
    report.  The miner and the RPC server append to the same log. *)

From S2P Require Import Prelude Primitives Pow Mining Governance Crypto Compliance Smt Types Block BlockLog Network.
From S2P Require Import Gas Vault Ledger ShieldedV2 Execution Verify Chain ChainReplay ChainInv ChainImport ChainSafety.
From S2P Require Import Produce Mempool MempoolInv MempoolAdmit MempoolSelect MempoolFresh Timing TimingSpec Node NodeInv NodeSpec.
From S2P Require Import Sync SyncInv.
#[local] Open Scope N_scope.

Module SyncDurable.
Import Sync SyncInv BlockLog.

Section durable.
Context `{CE : ChainEnv} `{Node.Display ShieldedV2Error} `{Node.Display Node.NodeError} `{Borsh Block} `{SyncEnv}.
Implicit Types (s : SyncState) (n : Node.t) (imp : BlockImporter) (l : BlockLog.t) (b : Block).

(** ** The importer *)

Definition good (o : ImportOutcome) : bool := match o with New | SideBranch => true | _ => false end.
(** The log is whole records, all flushed when none are pending; once a write or a flush
    failed nothing is claimed. *)
Definition log_ok imp : Prop := ∀ l, block_log imp = Some l → durable_broken imp = false →
  (∃ ps, file l = records ps) ∧ (on_disk l ≤ length (file l))%nat ∧ (unsynced l = false → on_disk l = length (file l)).
Definition wrote imp b : Prop := ∀ l, block_log imp = Some l → durable_broken imp = false →
  ∃ ps qs, file l = records (ps ++ [to_vec b] ++ qs).
Definition safe imp b : Prop := ∀ l, block_log imp = Some l → durable_broken imp = false →
  ∃ ps rest, take (on_disk l) (file l) = records (ps ++ [to_vec b]) ++ rest.
(** Later: the latch stays, the log only grows by whole records, and what is on disk
    stays there. *)
Definition later imp imp' : Prop := durable_broken imp' = false →
  durable_broken imp = false ∧ (∀ l', block_log imp' = Some l' →
    ∃ l ys, block_log imp = Some l ∧ file l' = file l ++ records ys ∧ (on_disk l ≤ on_disk l')%nat).

Lemma later_refl imp : later imp imp.
Proof. intros Hb. split; [done|]. intros l E. exists l, []. split_and!; [done|cbn; by rewrite app_nil_r|done]. Qed.
Lemma later_trans (x y z : BlockImporter) : later x y → later y z → later x z.
Proof.
  intros Hab Hbc Hc. destruct (Hbc Hc) as [Hb Hl]. destruct (Hab Hb) as [Ha Hl']. split; [done|]. intros l E.
  destruct (Hl l E) as (l1 & ys & E1 & F1 & D1). destruct (Hl' l1 E1) as (l2 & zs & E2 & F2 & D2).
  exists l2, (zs ++ ys). split_and!; [done|rewrite F1, F2, records_app; by rewrite app_assoc|lia].
Qed.
Lemma wrote_later imp imp' b : later imp imp' → wrote imp b → wrote imp' b.
Proof.
  intros Hl Hw l' E Hb. destruct (Hl Hb) as [Hb0 Hx]. destruct (Hx l' E) as (l & ys & El & F & _). destruct (Hw l El Hb0) as (ps & qs & Ef).
  exists ps, (qs ++ ys). rewrite F, Ef. rewrite !records_app. by rewrite <- !app_assoc.
Qed.
Lemma safe_later imp imp' b : log_ok imp → later imp imp' → safe imp b → safe imp' b.
Proof.
  intros Ho Hl Hs l' E Hb. destruct (Hl Hb) as [Hb0 Hx]. destruct (Hx l' E) as (l & ys & El & F & D).
  destruct (Hs l El Hb0) as (ps & rest & Ef). destruct (Ho l El Hb0) as (_ & Hd & _).
  exists ps, (rest ++ drop (on_disk l) (take (on_disk l') (file l'))). rewrite app_assoc, <- Ef, F.
  rewrite <- (take_drop (on_disk l) (take (on_disk l') (file l ++ records ys))) at 1. f_equal.
  rewrite take_take, Nat.min_l, take_app_le by lia. done.
Qed.

Lemma import_durable imp n b clk io imp' n' o : log_ok imp → import_and_persist imp n b clk io = Some (imp', n', o) →
  log_ok imp' ∧ later imp imp' ∧ (good o = true → wrote imp' b).
Proof.
  intros Ho E. unfold import_and_persist in E. pose proof (later_refl imp) as Hrefl.
  destruct (durable_broken imp) eqn:Eb; [injection E as <- <- <-; by split_and!|]. destruct (Chain.contains_block _ _); [injection E as <- <- <-; by split_and!|].
  destruct (Node.import_block n b (wall clk)) as [[n1 r]|]; [|done]. cbn [mbind option_bind] in E.
  destruct r as [rs|e]; [|destruct e as [| | |[]| |]; injection E as <- <- <-; by split_and!].
  set (o' := if bool_decide _ then New else SideBranch) in E. destruct (block_log imp) as [l|] eqn:El.
  2: { injection E as <- <- <-. split_and!; [done..|]. intros _ l E. congruence. }
  unfold append_unsynced, write_record, write_all in E. destruct (io_append io b) as [k|].
  { injection E as <- <- <-. split_and!; [intros ? ? [=]|intros [=]|done]. }
  injection E as <- <- <-. destruct (Ho l El Eb) as ((ps & Ef) & Hd & Hu).
  assert (file l ++ record (to_vec b) = records (ps ++ [to_vec b])) as Efile by (rewrite records_app, Ef; f_equal; cbn; by rewrite app_nil_r).
  split_and!.
  - intros l' [= <-] _. cbn [file on_disk unsynced]. split_and!; [by eexists|rewrite length_app; lia|done].
  - intros _. split; [done|]. intros l' [= <-]. exists l, [to_vec b]. split_and!; [done|cbn; by rewrite app_nil_r|done].
  - intros _ l' [= <-] _. exists ps, []. cbn [file]. by rewrite Efile.
Qed.
Lemma sync_durable imp io : log_ok imp → log_ok (sync_log imp io) ∧ later imp (sync_log imp io) ∧ ∀ b, wrote imp b → safe (sync_log imp io) b.
Proof.
  intros Ho. unfold sync_log. destruct (block_log imp) as [l|] eqn:El.
  2: { split_and!; [done|apply later_refl|]. intros b _ l E. congruence. }
  destruct (BlockLog.sync l (io_sync io)) as [l' ok] eqn:Es.
  assert (durable_broken imp || negb ok = false → durable_broken imp = false ∧ file l' = file l ∧ (on_disk l ≤ on_disk l')%nat ∧
    on_disk l' = length (file l) ∧ ∃ ps, file l = records ps) as Hgo.
  { intros [Hb Hk%negb_false_iff]%orb_false_iff. subst ok. destruct (Ho l El Hb) as (Hps & Hd & Hu). unfold BlockLog.sync, sync_all in Es.
    destruct (unsynced l); [|injection Es as <-; split_and!; try done; by rewrite Hu].
    destruct (io_sync io); [|discriminate]. injection Es as <-. cbn [file on_disk]. by split_and!. }
  split_and!.
  - intros l1 [= <-] Hb. destruct (Hgo Hb) as (_ & Ef & _ & Ed & Hps). rewrite Ef, Ed. split_and!; [done|lia|done].
  - intros Hb. cbn [durable_broken] in Hb. destruct (Hgo Hb) as (H1' & Ef & Hd & _). split; [done|]. intros l1 [= <-]. exists l, [].
    split_and!; [done|cbn; by rewrite app_nil_r|done].
  - intros b Hw l1 [= <-] Hb. cbn [durable_broken] in Hb. destruct (Hgo Hb) as (Hb0 & Ef & _ & Ed & _). destruct (Hw l El Hb0) as (ps & qs & Eb).
    exists ps, (records qs). rewrite Ed, Ef, firstn_all, Eb, app_assoc, records_app. done.
Qed.

(** ** Jobs and reports *)

Definition job_ok (j : VerifyJob) : Prop := j_mode j = Announced → (length (j_blocks j) ≤ 1)%nat.
Definition running_ok imp (w : Running) : Prop := j_mode (w_job w) = Announced →
  (w_outcomes w = [] ∧ (length (j_blocks (w_job w)) ≤ 1)%nat) ∨
  (∃ h o b, w_outcomes w = [(h, o)] ∧ w_announced w = Some b ∧ j_blocks (w_job w) = [] ∧ (good o = true → wrote imp b)).
Definition report_ok imp (r : VerifyReport) : Prop := v_mode r = Announced →
  ∀ h o b, head (v_outcomes r) = Some (h, o) → good o = true → v_announced r = Some b → safe imp b.

Lemma fresh_ok imp j : job_ok j → running_ok imp (mkRunning j [] None).
Proof. intros Hj Hm. left. by split; [|apply Hj]. Qed.
Lemma running_later imp imp' w : later imp imp' → running_ok imp w → running_ok imp' w.
Proof.
  intros Hl Hw Hm. destruct (Hw Hm) as [Hx|(h & o & b & H1' & H2' & H3' & Hg)]; [by left|right].
  exists h, o, b. split_and!; try done. intros Ho. by eapply wrote_later; [|apply Hg].
Qed.
Lemma report_later imp imp' r : log_ok imp → later imp imp' → report_ok imp r → report_ok imp' r.
Proof. intros Ho Hl Hr Hm h o b H1' H2' H3'. eapply safe_later; [done..|]. by eapply Hr. Qed.
Lemma verify_one_durable imp n w clk io imp' n' w' : log_ok imp → running_ok imp w → verify_one imp n w clk io = Some (imp', n', w') →
  log_ok imp' ∧ later imp imp' ∧ running_ok imp' w'.
Proof.
  intros Ho Hw E. unfold verify_one in E. destruct (j_blocks (w_job w)) as [|b rest] eqn:Eb.
  { injection E as <- <- <-. split_and!; [done|apply later_refl|done]. }
  destruct (import_and_persist imp n b clk io) as [[[i m] o]|] eqn:Ei; [|done]. cbn [mbind option_bind] in E. injection E as <- <- <-.
  destruct (import_durable _ _ _ _ _ _ _ _ Ho Ei) as (Ho' & Hl & Hg). split_and!; [done..|]. intros Hm. cbn [w_job j_mode] in Hm. right.
  destruct (Hw Hm) as [[E0 Hlen]|(h & o' & b' & _ & _ & E3 & _)]; [|congruence]. rewrite Eb in Hlen. destruct rest as [|x rest]; [|cbn in Hlen; lia].
  eexists _, o, b. cbn [w_outcomes w_announced w_job j_blocks]. rewrite E0, (bool_decide_true _ Hm). by destruct (stops o).
Qed.
Lemma report_of_ok imp w io : log_ok imp → running_ok imp w → report_ok (sync_log imp io) (report_of w).
Proof.
  intros Ho Hw Hm h o b Eh Hg Ea. cbn [report_of v_mode v_outcomes v_announced] in *. destruct (Hw Hm) as [[E0 _]|(h' & o' & b' & E1 & E2 & _ & Hx)].
  - by rewrite E0 in Eh.
  - rewrite E1 in Eh. injection Eh as <- <-. rewrite E2 in Ea. injection Ea as <-. apply (sync_durable _ io Ho). by apply Hx.
Qed.
Lemma run_job_durable turns : ∀ imp n w clk io imp' n' r, log_ok imp → running_ok imp w → run_job turns imp n w clk io = Some (imp', n', r) →
  log_ok imp' ∧ later imp imp' ∧ report_ok imp' r.
Proof.
  induction turns as [|turns IH]; intros imp n w clk io imp' n' r Ho Hw E; cbn [run_job] in E.
  - injection E as <- <- <-. destruct (sync_durable imp io Ho) as (Ho' & Hl & _). split_and!; [done..|]. by apply report_of_ok.
  - destruct (verify_one imp n w clk io) as [[[i m] w1]|] eqn:Ev; [|done]. cbn [mbind option_bind] in E.
    destruct (verify_one_durable _ _ _ _ _ _ _ _ Ho Hw Ev) as (Ho1 & Hl1 & Hw1). destruct (IH _ _ _ _ _ _ _ _ Ho1 Hw1 E) as (Ho2 & Hl2 & Hr).
    split_and!; [done|by eapply later_trans|done].
Qed.

(** ** The whole state *)

Record durable_ok s : Prop := {
  d_log : log_ok (importer s);
  d_jobs : Forall job_ok (default [] (job_tx (verify_ s)));
  d_running : ∀ w, running (verify_ s) = Some w → running_ok (importer s) w;
  d_reports : Forall (report_ok (importer s)) (reports (verify_ s));
}.
(** Operations that touch neither the importer nor the channel. *)
Lemma same_durable s s' : importer s' = importer s → verify_ s' = verify_ s → durable_ok s → durable_ok s'.
Proof. intros Ei Ev [H1' H2' H3' H4']. split; rewrite ?Ei, ?Ev; done. Qed.
Lemma submit_durable s n job clk io s' n' : durable_ok s → job_ok job → submit_verify s n job clk io = Some (s', n') → durable_ok s'.
Proof.
  intros D Hj E. unfold submit_verify in E. set (s1 := if negb _ then _ else s) in E.
  assert (durable_ok s1 ∧ importer s1 = importer s) as [D1 _] by (unfold s1; destruct (negb _); (split; [by apply (same_durable s)|done])). clearbody s1. clear D.
  destruct D1 as [Ho Hjobs Hrun Hrep].
  assert (∀ imp m r, run_verify_job (importer s1) n job clk io = Some (imp, m, r) →
    durable_ok {| s1 with importer := imp; verify_ := mkChannel (job_tx (verify_ s1)) (worker (verify_ s1)) (running (verify_ s1))
      (reports (verify_ s1) ++ [r]) (has_node (verify_ s1)) |}) as Hinline.
  { intros imp m r Er. unfold run_verify_job in Er. destruct (run_job_durable _ _ _ _ _ _ _ _ _ Ho (fresh_ok _ _ Hj) Er) as (Ho' & Hl & Hr).
    split; cbn [importer verify_ job_tx running reports]; [done..| |].
    - intros w Ew. eapply running_later; [exact Hl|by apply Hrun].
    - apply Forall_app. split; [|by constructor]. eapply Forall_impl; [exact Hrep|]. intros x. by apply report_later. }
  destruct (job_tx (verify_ s1)) as [queue|] eqn:Eq, (worker (verify_ s1)) as [[]|] eqn:Ew.
  1: { destruct (bool_decide _); [|destruct (negb _); injection E as <- <-; split; cbn [importer verify_]; rewrite ?Eq; done].
       injection E as <- <-. split; cbn [importer verify_ job_tx running reports from_option id]; try done.
       apply Forall_app. split; [exact Hjobs|by constructor]. }
  all: destruct (run_verify_job _ _ _ _ _) as [[[imp m] r]|]; [|done]; cbn [mbind option_bind] in E; injection E as <- <-; by eapply Hinline.
Qed.
Lemma take_durable s s' : durable_ok s → take_job s = Some s' → durable_ok s'.
Proof.
  intros [Ho Hjobs Hrun Hrep] E. unfold take_job in E.
  destruct (job_tx (verify_ s)) as [[|j queue]|] eqn:Ej, (worker (verify_ s)) as [[]|], (running (verify_ s)) eqn:Er; try done. injection E as <-.
  cbn [from_option id] in Hjobs. apply Forall_cons in Hjobs as [Hj Hq].
  split; cbn [importer verify_ job_tx running reports from_option id]; try done. intros w [= <-]. by apply fresh_ok.
Qed.
Lemma verify_next_durable s n clk io s' n' : durable_ok s → verify_next s n clk io = Some (s', n') → durable_ok s'.
Proof.
  intros [Ho Hjobs Hrun Hrep] E. unfold verify_next in E. destruct (running (verify_ s)) as [w|] eqn:Er; [|done]. cbn [mbind option_bind] in E.
  destruct (verify_one _ _ _ _ _) as [[[i m] w']|] eqn:Ev; [|done]. cbn [mbind option_bind] in E. injection E as <- <-.
  destruct (verify_one_durable _ _ _ _ _ _ _ _ Ho (Hrun w eq_refl) Ev) as (Ho' & Hl & Hw').
  split; cbn [importer verify_ job_tx running reports]; try done; [by intros w1 [= <-]|]. eapply Forall_impl; [exact Hrep|]. intros x. by apply report_later.
Qed.
Lemma send_report_durable s io s' : durable_ok s → send_report s io = Some s' → durable_ok s'.
Proof.
  intros [Ho Hjobs Hrun Hrep] E. unfold send_report in E. destruct (running (verify_ s)) as [w|] eqn:Er; [|done]. cbn [mbind option_bind] in E.
  destruct (bool_decide _); [|done]. injection E as <-. destruct (sync_durable (importer s) io Ho) as (Ho' & Hl & _).
  split; cbn [importer verify_ job_tx running reports]; try done. apply Forall_app. split; [|constructor; [|done]].
  - eapply Forall_impl; [exact Hrep|]. intros x. by apply report_later.
  - by apply report_of_ok; [|apply Hrun].
Qed.
Lemma dies_durable s : durable_ok s → durable_ok (thread_dies s).
Proof. intros [Ho Hjobs Hrun Hrep]. split; cbn [thread_dies importer verify_ job_tx running reports]; try done. by destruct (job_tx (verify_ s)). Qed.
Lemma attach_durable s spawned : durable_ok s → durable_ok (attach_verifier s spawned).
Proof. intros [Ho Hjobs Hrun Hrep]. unfold attach_verifier. destruct spawned; split; cbn [importer verify_ job_tx running reports from_option id]; done. Qed.
Lemma watchdog_durable s spawned : durable_ok s → durable_ok (watchdog s spawned).
Proof.
  intros D. unfold watchdog. destruct (verifying s); [|done]. destruct (worker (verify_ s)) as [[]|]; [done| |done].
  assert (∀ v, v = mkChannel None None None (reports (verify_ s)) (has_node (verify_ s)) →
    durable_ok {| s with verifying := None; verify_ := v |}) as Hv.
  { intros v ->. destruct D as [Ho Hjobs Hrun Hrep]. by split. }
  destruct (has_node _); [apply attach_durable|]; by apply Hv.
Qed.

(** ** Reports that are read *)

Lemma report_importer tcp s n r clk s' out : apply_verify_report tcp s n r clk = Some (s', out) → importer s' = importer s.
Proof.
  intros E. unfold apply_verify_report in E.
  assert (∀ s p h, importer (advance_or_done s p h) = importer s) as Ha by (intros; unfold advance_or_done; repeat (case_match; try done)).
  assert (importer (note_progress s r) = importer s) as <- by (unfold note_progress; repeat (case_match; try done)).
  generalize dependent (note_progress s r). intros s1 E. destruct (v_mode r).
  - unfold apply_batch in E. destruct (summary _) as [[[h|] [rej|]] []]; try (by simplify_eq); try (simplify_eq; by rewrite Ha).
    match type of E with (mbind _ ?l) = _ => destruct l as [locator|]; [|done] end.
    cbn [mbind option_bind] in E. destruct (negb _ && _); by simplify_eq.
  - unfold apply_backtrack in E. destruct (head _) as [[h []]|]; simplify_eq; rewrite ?Ha; done.
  - unfold apply_announced in E. by destruct (head _) as [[h []]|]; simplify_eq.
Qed.
Lemma report_broadcast tcp s n r clk s' out b : apply_verify_report tcp s n r clk = Some (s', out) → Broadcast (Net.NewBlock b) ∈ out →
  v_mode r = Announced ∧ ∃ h o, head (v_outcomes r) = Some (h, o) ∧ good o = true ∧ v_announced r = Some b.
Proof.
  intros E Hin. unfold apply_verify_report in E. generalize dependent (note_progress s r). intros s1 E. destruct (v_mode r).
  - exfalso. unfold apply_batch in E. destruct (summary _) as [[[h|] [rej|]] []]; try (injection E as <- <-; set_solver).
    match type of E with (mbind _ ?l) = _ => destruct l as [locator|]; [|done] end.
    cbn [mbind option_bind] in E. destruct (negb _ && _); injection E as <- <-; set_solver.
  - exfalso. unfold apply_backtrack in E. destruct (head _) as [[h []]|]; injection E as <- <-; set_solver.
  - split; [done|]. unfold apply_announced in E. destruct (head _) as [[h []]|]; try (injection E as <- <-; set_solver);
      (destruct (v_announced r) as [x|]; injection E as <- <-; [|set_solver]; apply list_elem_of_singleton in Hin; injection Hin as <-; by eexists _, _).
Qed.
Lemma apply_reports_durable tcp n clk turns : ∀ s s' out, durable_ok s → apply_reports tcp s n turns clk = Some (s', out) →
  durable_ok s' ∧ importer s' = importer s ∧ ∀ b, Broadcast (Net.NewBlock b) ∈ out → safe (importer s) b.
Proof.
  induction turns as [|turns IH]; intros s s' out D E; cbn [apply_reports] in E; [injection E as <- <-; split_and!; [done..|set_solver]|].
  destruct (next_report s) as [[r s1]|] eqn:En; [|injection E as <- <-; split_and!; [done..|set_solver]].
  unfold next_report in En. destruct (reports (verify_ s)) as [|r0 rest] eqn:Er; [done|]. injection En as <- <-.
  set (s2 := if bool_decide (v_mode r0 = Announced) then _ else _) in E.
  pose proof D as [Ho Hjobs Hrun Hrep]. rewrite Er in Hrep. apply Forall_cons in Hrep as [Hr Hrest].
  assert (durable_ok s2 ∧ importer s2 = importer s) as [D2 Ei2].
  { unfold s2. destruct (bool_decide _); (split; [by split|done]). }
  destruct (apply_verify_report tcp s2 n r0 clk) as [[s3 o1]|] eqn:Ea; [|done]. cbn [mbind option_bind] in E.
  destruct (apply_reports tcp s3 n turns clk) as [[s4 o2]|] eqn:Eb; [|done]. cbn [mbind option_bind] in E. injection E as <- <-.
  pose proof (report_importer _ _ _ _ _ _ _ Ea) as Ei3. pose proof (report_channel _ _ _ _ _ _ _ Ea) as Ev3.
  destruct (IH _ _ _ (same_durable s2 s3 Ei3 Ev3 D2) Eb) as (D4 & Ei4 & Hb4). split_and!; [done|congruence|].
  intros b [Hb|Hb]%elem_of_app; [|rewrite <- Ei2, <- Ei3; by apply Hb4].
  destruct (report_broadcast _ _ _ _ _ _ _ _ Ea Hb) as (Hm & h & o & Hh & Hg & Hx). by eapply Hr.
Qed.

(** ** Every step *)

Lemma dispatch_durable s n p m clk io s' n' out : durable_ok s → dispatch s n p m clk io = Some (s', n', out) → durable_ok s'.
Proof.
  intros D E. assert (∀ b mode, job_ok (mkJob p mode [b])) as Hone by (intros b mode _; cbn; lia).
  destruct m as [height hd work|stx|b|h|b|start count|bs|addrs|cid gen acct key bind sig|proto agent h| |locator stop|hs];
    cbn [dispatch] in E; try (by simplify_eq).
  - unfold on_status in E. destruct (local_status n clk); [|done]. cbn [mbind option_bind] in E. injection E as <- <- <-.
    cbn [sync_next]. destruct (bool_decide _); [by apply (same_durable s)|]. destruct (negb _); [|by apply (same_durable s)].
    destruct (sync_next s !! p); by apply (same_durable s).
  - destruct (on_transaction n stx clk) as [[n1 o]|]; [|done]. cbn [mbind option_bind] in E. by simplify_eq.
  - destruct (submit_verify _ _ _ _ _) as [[s1 n1]|] eqn:Es; [|done]. cbn [mbind option_bind] in E. injection E as <- <- <-. by eapply submit_durable.
  - destruct b as [b|]; [|by simplify_eq]. destruct (submit_verify _ _ _ _ _) as [[s1 n1]|] eqn:Es; [|done]. cbn [mbind option_bind] in E.
    injection E as <- <- <-. by eapply submit_durable.
  - destruct (_ <? _); [by simplify_eq|]. destruct (bool_decide _); [simplify_eq; by apply (same_durable s)|].
    destruct (submit_verify _ _ _ _ _) as [[s1 n1]|] eqn:Es; [|done]. cbn [mbind option_bind] in E. injection E as <- <- <-.
    by eapply submit_durable; [exact D| |exact Es].
  - destruct (_ <? _); simplify_eq; by apply (same_durable s).
  - injection E as E. unfold on_headers in E. destruct (bool_decide _); [by simplify_eq|].
    destruct (negb _ && _); [destruct (Chain.extend_checkpoint_linkage _ _); by simplify_eq|].
    destruct (headers_fork_point n hs) as [fork|]; [|destruct (sync_next s !! p)]; simplify_eq; by first [done|apply (same_durable s)].
Qed.
Lemma admit_durable tcp s n cfg p binding a s' out : durable_ok s → admit_peer tcp s n cfg p binding a = Some (s', out) → durable_ok s'.
Proof.
  intros D E. unfold admit_peer in E. destruct (implicit_account_id (c_key cfg)) as [own|]; [|done]. cbn [mbind option_bind] in E.
  destruct (bool_decide (a = own)); [injection E as <- <-; by apply (same_durable s)|]. cbn zeta in E.
  set (s2 := {| s with authenticated := {[p]} ∪ authenticated s; identity := <[p := a]> (identity s) |}) in E.
  assert (durable_ok s2) as D2 by by apply (same_durable s). clearbody s2. destruct (negb _); [|by simplify_eq].
  destruct (status n) as [st|]; [|done]. cbn [mbind option_bind] in E. destruct (version_msg n) as [v|]; [|done]. cbn [mbind option_bind] in E.
  assert (durable_ok (dedup_identity tcp s2 a).1) as D3.
  { unfold dedup_identity. set (l := omap _ _). clearbody l. destruct (bool_decide _); [done|]. cbn [fst].
    apply (foldl_keeps durable_ok); [done|]. intros s3 e. by apply same_durable. }
  destruct (dedup_identity tcp s2 a) as [s3 o]. by injection E as <- <-.
Qed.
Lemma handle_durable tcp s n cfg p m clk io s' n' out : durable_ok s → handle tcp s n cfg p m clk io = Some (s', n', out) → durable_ok s'.
Proof.
  intros D E. unfold handle in E. set (s0 := {| s with last_recv := _ |}) in E. assert (durable_ok s0) as D0 by by apply (same_durable s). clearbody s0.
  match type of E with (mbind _ ?l) = _ => destruct l as [account|]; [|done] end. cbn [mbind option_bind] in E.
  destruct account as [a|].
  { destruct (admit_peer _ _ _ _ _ _ _) as [[s1 o]|] eqn:Ea; [|done]. cbn [mbind option_bind] in E. injection E as <- <- <-. by eapply admit_durable. }
  destruct (is_hello m).
  { destruct (Net.implicit_account_mismatch m) as [sp|]; [|done]. cbn [mbind option_bind] in E. injection E as <- <- <-. by apply (same_durable s0). }
  destruct (negb _); [by injection E as <- <- <-|]. destruct (is_reply m) eqn:Er; [|by eapply dispatch_durable].
  destruct (correlate s0 p m) as [s1|] eqn:Ec; [|by injection E as <- <- <-].
  assert (durable_ok s1) as D1.
  { unfold correlate in Ec. destruct (match linkage_requests s0 !! p with Some f => _ | None => _ end); [injection Ec as <-; by apply (same_durable s0)|].
    destruct (match inflight s0 with Some f => _ | None => _ end); [|done]. injection Ec as <-. by apply (same_durable s0). }
  cbn zeta in E. set (s2 := {| s1 with no_progress_replies := _ |}) in E. assert (durable_ok s2) as D2 by by apply (same_durable s1).
  destruct (256 <? _); [by injection E as <- <- <-|]. by eapply dispatch_durable.
Qed.
Lemma request_durable tcp s n clk s' out : durable_ok s → request_missing tcp s n clk = Some (s', out) → durable_ok s'.
Proof.
  intros D E. unfold request_missing in E. destruct (local_status n clk) as [local|]; [|done]. cbn [mbind option_bind] in E.
  set (connected := list_to_set (connected_peers tcp)) in E. set (s1 := retain_connected s connected) in E.
  assert (durable_ok s1) as D1 by by apply (same_durable s). clearbody s1.
  destruct (request_linkage tcp s1 n connected clk) as [[s2 o]|] eqn:El; [|done]. cbn [mbind option_bind] in E.
  assert (durable_ok s2) as D2.
  { unfold request_linkage in El. destruct (if Chain.checkpoint_linkage_ready _ then _ else _) as [[? pin]|]; [|by injection El as <- <-].
    match type of El with (mbind _ ?l) = _ => destruct l as [locator|]; [|done] end. cbn [mbind option_bind] in El.
    destruct (if bool_decide (locator = []) then _ else _) as [q|]; [|by injection El as <- <-]. destruct (negb _ || _); [by injection El as <- <-|].
    cbn zeta in El. destruct (can_send _ _ _); injection El as <- <-; by apply (same_durable s1). }
  destruct (verifying s2); [by injection E as <- <-|]. destruct (match inflight s2 with Some _ => _ | None => _ end); [by injection E as <- <-|].
  destruct (match f_peer <$> inflight s2 with Some p => strike s2 p | None => (s2, []) end) as [s3 charged] eqn:Es.
  assert (durable_ok s3) as D3 by (destruct (f_peer <$> inflight s2); [unfold strike in Es|]; injection Es as <- <-; by apply (same_durable s2)).
  destruct (ask_best _ _ _ _ _ _) as [[s4 asked]|] eqn:Ea; [|done]. cbn [mbind option_bind] in E. injection E as <- <-.
  unfold ask_best in Ea. destruct (candidates _ _ _ _) as [|best cs]; [injection Ea as <- <-; by apply (same_durable s3)|].
  destruct (default best _) as [q st]. destruct (_ <? 1); [done|]. cbn zeta in Ea. destruct (can_send _ _ _); injection Ea as <- <-; by apply (same_durable s3).
Qed.

(** The miner and the RPC server append to the same log, each append flushed. *)
Inductive durable_step (cfg : P2pConfig) : system → system → Prop :=
| ds_sync x y : some_step cfg x y → durable_step cfg x y
| ds_append s n b l l' : block_log (importer s) = Some l → append l None true b = (l', true) →
    durable_step cfg (s, n) ({| s with importer := mkImporter (Some l') (durable_broken (importer s)) |}, n).
Lemma durable_step_ok cfg x y : durable_step cfg x y → durable_ok x.1 → durable_ok y.1.
Proof.
  destruct 1 as [x y [e Hs]|s n b l l' El Ea]; intros D.
  - destruct Hs as [tcp s n p m clk io s' n' out E|tcp s n clk spawned s' out E|tcp s n clk s' out E|tcp s n clk|s n k|s n k|s n s' E
      |s n clk io s' n' E|s n io s' E|s n|s n n' E]; cbn [fst] in *.
    + by eapply handle_durable.
    + unfold collect_verify_reports in E. destruct (apply_reports _ _ _ _ _) as [[s1 o]|] eqn:Ea; [|done]. cbn [mbind option_bind] in E.
      injection E as <- <-. apply watchdog_durable. by eapply apply_reports_durable.
    + by eapply request_durable.
    + unfold sweep_unauthenticated. apply (foldl_keeps (λ acc : SyncState * list effect, durable_ok acc.1)); [done|].
      intros [s1 o] p. by apply same_durable.
    + unfold credit_stall. destruct (checked_sub _ _); [by apply (same_durable s)|done].
    + by apply (same_durable s).
    + by eapply take_durable.
    + by eapply verify_next_durable.
    + by eapply send_report_durable.
    + by apply dies_durable.
    + done.
  - cbn [fst] in *. cbn in Ea. injection Ea as <-. destruct D as [Ho Hjobs Hrun Hrep].
    set (imp' := mkImporter _ _). assert (log_ok imp' ∧ later (importer s) imp') as [Ho' Hl].
    { unfold imp'. split.
      - intros l1 [= <-] Hb. cbn [durable_broken file on_disk unsynced] in *. destruct (Ho l El Hb) as ((ps & Ef) & _). split_and!; [|done|done].
        exists (ps ++ [to_vec b]). rewrite Ef, records_app. f_equal. cbn. by rewrite app_nil_r.
      - intros Hb. split; [done|]. intros l1 [= <-]. cbn [file on_disk]. exists l, [to_vec b]. cbn [durable_broken] in Hb.
        destruct (Ho l El Hb) as (_ & Hd & _). split_and!; [done|cbn; by rewrite app_nil_r|rewrite length_app; lia]. }
    split; cbn [importer verify_]; [done..| |].
    + intros w Ew. eapply running_later; [exact Hl|by apply Hrun].
    + eapply Forall_impl; [exact Hrep|]. intros x. by apply report_later.
Qed.

(** C17: a node started on a good log passes on no block it could lose.  Start on a log of
    whole records that is flushed (not on one that ends in a torn record, behind which
    everything is lost: [torn_tail_hides]), and run any interleaving of the network thread, the verifier thread (with its
    deaths and restarts), the node and other writers of the log whose appends succeed.  If
    reading the verifier's reports makes the node broadcast a block, then either a write
    or a flush has failed and the durability latch is set, or the block's record is in the
    part of the log that is on stable storage, behind whole records only: a restart reads
    it back. *)
Theorem broadcast_is_durable cfg ps0 spawned n0 s n tcp clk sp s' out b :
  let l0 := mkLog (records ps0) (length (records ps0)) false in
  rtc (durable_step cfg) (attach_verifier (Sync.new (Some l0)) spawned, n0) (s, n) →
  collect_verify_reports tcp s n clk sp = Some (s', out) → Broadcast (Net.NewBlock b) ∈ out →
  ∀ l, block_log (importer s) = Some l → durable_broken (importer s) = true ∨
    ∃ ps rest, take (on_disk l) (file l) = records (ps ++ [to_vec b]) ++ rest ∧
      (Forall payload_ok (ps ++ [to_vec b]) → to_vec b ∈ read_records (take (on_disk l) (file l))).
Proof.
  intros l0 Hs Ec Hb l El. assert (durable_ok (s, n).1) as D.
  { assert (durable_ok (attach_verifier (Sync.new (Some l0)) spawned, n0).1) as D0.
    { apply attach_durable. split; [|done|done|done]. intros l1 [= <-] _. cbn. split_and!; [by eexists|done|done]. }
    revert D0. induction Hs as [|x y z Hxy _ IH]; [done|]. intros D0. by eapply IH, durable_step_ok. }
  unfold collect_verify_reports in Ec. destruct (apply_reports _ _ _ _ _) as [[s1 o]|] eqn:Ea; [|done]. cbn [mbind option_bind] in Ec.
  injection Ec as <- <-. destruct (apply_reports_durable _ _ _ _ _ _ _ D Ea) as (_ & _ & Hsafe).
  destruct (durable_broken (importer s)) eqn:Ed; [by left|]. right. destruct (Hsafe b Hb l El Ed) as (ps & rest & Et).
  exists ps, rest. split; [done|]. intros Hp. rewrite Et. unfold read_records. edestruct (read_behind (ps ++ [to_vec b]) rest) as (f & _ & ->); [done|done|].
  apply elem_of_app. left. apply elem_of_app. right. by left.
Qed.
End durable.
End SyncDurable.
