(* ===== verification/SyncExamples.v ===== *)
(** * A concrete exchange between nodes

    Two nodes on the chains of [ChainExamples], a peer that completes the handshake and
    then misbehaves, and the instances of the theorems about synchronisation. *)

From S2P Require Import Prelude Primitives Pow Mining Governance Crypto Compliance Smt Types Block BlockLog Network.
From S2P Require Import Gas Vault Ledger ShieldedV2 Execution LedgerCommit ExecExamples.
From S2P Require Import Verify Chain Produce ChainReplay ChainInv ChainImport ChainSafety ChainExamples.
From S2P Require Import Mempool MempoolInv MempoolAdmit MempoolSelect MempoolFresh Timing TimingSpec Node NodeInv NodeSpec NodeExamples.
From S2P Require Import Sync SyncSpec SyncInv SyncSafety SyncDurable.
#[local] Open Scope N_scope.

Module SyncRun.
Import LedgerCommit.Ledger_examples Run ChainRun NodeRun.
Import Chain ChainSafety Node NodeInv NodeSpec Sync SyncInv SyncSafety SyncDurable.
#[local] Existing Instances show_v2 show_node.
#[local] Instance encode_block : Borsh Block := λ b, [h_height (header b); h_nonce (header b)].
#[local] Instance sync_env : SyncEnv :=
  {| walk := λ V m, map_to_list m; walk_perm := λ V m, Permutation_refl _; walk_set := elements;
     walk_set_perm := λ X, Permutation_refl _; AGENT := "sov" |}.

Definition peer1 : SocketAddr := ([10; 0; 0; 1], 8333).
Definition peer2 : SocketAddr := ([10; 0; 0; 2], 8333).
(** Everyone is reachable, over channels of their own. *)
Definition net : Tcp := mkTcp [peer1; peer2] (λ p, Some p.1) (λ _ _, true).
Definition cfg0 : P2pConfig := mkConfig "sov-test" (block_hash genesis_block) alice k1 (λ m, SigV1Ed25519 ([7] ++ m)).
Definition at_ (t : N) : Clock := mkClock t t.
Definition disk : Io := mkIo (λ _, None) true.
Definition fresh : SyncState := attach_verifier (Sync.new None) true.
(** The handshake of the owner of key [k] on the channel of [p]. *)
Definition hello_of (p : SocketAddr) (k : bytes) : Net.NetMessage :=
  Net.hello "sov-test" (block_hash genesis_block) bob p.1 (PkV1Ed25519 k) (λ m, SigV1Ed25519 (k ++ m)).
Definition result_of (x : system) (o : option (SyncState * Node.t * list effect)) : SyncState * Node.t * list effect :=
  default (x.1, x.2, []) o.
Definition heard (x : system) (p : SocketAddr) (m : Net.NetMessage) (t : N) : option (SyncState * Node.t * list effect) :=
  handle net x.1 x.2 cfg0 p m (at_ t) disk.
Definition after (x : system) (p : SocketAddr) (m : Net.NetMessage) (t : N) : system := (result_of x (heard x p m t)).1.
Definition requested (x : system) (t : N) : system :=
  (default x.1 (fst <$> request_missing net x.1 x.2 (at_ t)), x.2).

Definition answered {A} (o : option A) : bool := match o with Some _ => true | None => false end.
Lemma heard_eq x p m t : answered (heard x p m t) = true →
  handle net x.1 x.2 cfg0 p m (at_ t) disk = Some ((after x p m t).1, (after x p m t).2, (result_of x (heard x p m t)).2).
Proof. unfold after, heard. by destruct (handle _ _ _ _ _ _ _ _) as [[[s n] out]|]. Qed.
Lemma start_syncing : syncing gen cfg0 (fresh, node0).
Proof. exists None, true, node0. split; [exact running0|apply rtc_refl]. Qed.
Lemma extend x y : syncing gen cfg0 x → some_step cfg0 x y → syncing gen cfg0 y.
Proof. intros (log & sp & n0 & R & Hs) Hxy. exists log, sp, n0. split; [exact R|by eapply rtc_r]. Qed.
Lemma after_syncing x p m t : syncing gen cfg0 x → syncing gen cfg0 (after x p m t).
Proof.
  intros S. destruct x as [s n]. unfold after. destruct (heard (s, n) p m t) as [[[s' n'] out]|] eqn:E; [|exact S].
  apply (extend _ _ S). exists (Some (net, p, m)). eapply ss_handle. exact E.
Qed.
Lemma requested_syncing x t : syncing gen cfg0 x → syncing gen cfg0 (requested x t).
Proof.
  intros S. destruct x as [s n]. unfold requested. cbn [fst snd]. destruct (request_missing net s n (at_ t)) as [[s' out]|] eqn:E; [|exact S].
  apply (extend _ _ S). exists None. eapply ss_request. exact E.
Qed.

(** Both peers shake hands and advertise a block more than this node has; the better
    claim is asked. *)
Definition work_of (k : N) : bytes := repeat k 32.
Definition met1 : system := after (fresh, node0) peer1 (hello_of peer1 [8]) 5.
Definition met2 : system := after met1 peer2 (hello_of peer2 [9]) 6.
Definition told : system :=
  after (after met2 peer1 (Net.Status 1 Hash_ZERO (work_of 2)) 7) peer2 (Net.Status 1 Hash_ZERO (work_of 1)) 8.
Definition asked : system := requested told 9.
Lemma asked_syncing : syncing gen cfg0 (asked.1, asked.2).
Proof. rewrite <- surjective_pairing. exact (requested_syncing _ _ (after_syncing _ _ _ _ (after_syncing _ _ _ _ (after_syncing _ _ _ _ (after_syncing _ _ _ _ start_syncing))))). Qed.
Lemma asked_peer1 : f_peer <$> inflight asked.1 = Some peer1.
Proof. by vm_compute. Qed.

Lemma sync_in_step_witness : NodeSpec.running gen asked.2 ∧ stall_credit asked.1 ≤ MAX_STALL_CREDIT.
Proof.
  destruct (sync_in_step gen cfg0 asked.1 asked.2 asked_syncing) as (R & _ & _ & _ & _ & _ & _ & Hc & _). split; [exact R|exact Hc].
Defined.

(** ** A reply nobody asked for *)

Definition unasked : Net.NetMessage := Net.BlocksResponse [blockA].
Lemma unasked_heard : answered (heard asked peer2 unasked 10) = true.
Proof. by vm_compute. Qed.
Lemma no_linkage : bool_decide (linkage_requests asked.1 !! peer2 = None) = true.
Proof. by vm_compute. Qed.
Lemma peer_confined_witness : (result_of asked (heard asked peer2 unasked 10)).2 = [].
Proof.
  destruct (peer_confined net asked.1 asked.2 cfg0 peer2 unasked (at_ 10) disk _ _ _ (heard_eq asked peer2 unasked 10 unasked_heard)) as (_ & _ & _ & Hout).
  apply Hout; [reflexivity| |].
  - intros f Ef. pose proof no_linkage as E%bool_decide_eq_true. rewrite E in Ef. discriminate Ef.
  - intros f Ef Ep. pose proof asked_peer1 as E. rewrite Ef in E. cbn in E. rewrite Ep in E. discriminate E.
Defined.
Definition account8 : AccountId := default alice (implicit_account_id (PkV1Ed25519 [8])).
Lemma hello_heard : answered (heard (fresh, node0) peer1 (hello_of peer1 [8]) 5) = true.
Proof. by vm_compute. Qed.
Lemma greeted : identity met1.1 !! peer1 = Some account8.
Proof. apply (bool_decide_eq_true_1 _). by vm_compute. Qed.
Lemma trust_needs_proof_witness : ∃ tcp b, peer_handshake_hash tcp peer1 = Some b.
Proof.
  destruct (trust_needs_proof cfg0 (Some (net, peer1, hello_of peer1 [8])) fresh node0 met1.1 met1.2 peer1 account8) as (tcp & _ & _ & b & _ & _ & Hb & _).
  - eapply ss_handle. exact (heard_eq (fresh, node0) peer1 (hello_of peer1 [8]) 5 hello_heard).
  - exact greeted.
  - discriminate.
  - exists tcp, b. exact Hb.
Defined.

(** ** A claim of no blocks *)

Definition zero : Net.NetMessage := Net.Status 0 Hash_ZERO (work_of 255).
Definition local_of (x : system) (t : N) : PeerStatus := default (mkStatus 0 Hash_ZERO [] 0) (local_status x.2 (at_ t)).
Lemma local_eq x t : answered (local_status x.2 (at_ t)) = true → local_status x.2 (at_ t) = Some (local_of x t).
Proof. unfold local_of. by destruct (local_status x.2 (at_ t)). Qed.
Definition idle (s : SyncState) : bool :=
  match verifying s, inflight s with None, None => true | _, _ => false end.
Definition good_standing (s : SyncState) (p : SocketAddr) : bool :=
  bool_decide (p ∈ authenticated s) && negb (answered (sync_strikes s !! p)).
Definition tops (s : SyncState) (p : SocketAddr) (work : bytes) : bool :=
  forallb (λ e, bool_decide (e.1 = p) || negb (bytes_leb work (p_chain_work e.2))) (map_to_list (peer_status s)).
Lemma idle_eq s : idle s = true → verifying s = None ∧ inflight s = None.
Proof. unfold idle. by destruct (verifying s), (inflight s). Qed.
Lemma standing_eq s p : good_standing s p = true → p ∈ authenticated s ∧ sync_strikes s !! p = None.
Proof. unfold good_standing. intros [Ha%bool_decide_eq_true Hs]%andb_true_iff. split; [done|]. by destruct (sync_strikes s !! p). Qed.
Lemma tops_eq s p work q st : tops s p work = true → q ≠ p → peer_status s !! q = Some st → bytes_leb work (p_chain_work st) = false.
Proof.
  unfold tops. intros Ht Hq Hs. rewrite forallb_forall in Ht. specialize (Ht (q, st)). cbn [fst snd] in Ht.
  rewrite bool_decide_false in Ht by done. apply negb_true_iff, Ht, list_elem_of_In, elem_of_map_to_list, Hs.
Qed.
Lemma told_zero : idle told.1 && good_standing told.1 peer2 && answered (local_status told.2 (at_ 20)) && answered (heard told peer2 zero 20)
  && tops told.1 peer2 (work_of 255) && negb (bytes_leb (work_of 255) (p_chain_work (local_of told 20))) = true.
Proof. by vm_compute. Qed.
Lemma status_zero_panics_witness : request_missing net (after told peer2 zero 20).1 (after told peer2 zero 20).2 (at_ 21) = None.
Proof.
  pose proof told_zero as E. apply andb_prop in E as [E E6]. apply andb_prop in E as [E E5]. apply andb_prop in E as [E E4].
  apply andb_prop in E as [E E3]. apply andb_prop in E as [E1 E2].
  destruct (idle_eq _ E1) as [Hv Hi]. destruct (standing_eq _ _ E2) as [Ha Hs].
  apply (status_zero_panics net told.1 told.2 cfg0 peer2 Hash_ZERO (work_of 255) (at_ 20) disk _ _ _ (local_of told 20) (at_ 21) Ha
    ltac:(right; left) Hv Hi Hs (local_eq told 20 E3) (proj1 (negb_true_iff _) E6) (λ q st, tops_eq told.1 peer2 (work_of 255) q st E5)
    (heard_eq told peer2 zero 20 E4) ltac:(reflexivity)).
Defined.

(** ** A peer that does not answer *)

Definition late (x : system) (p : SocketAddr) (t : N) : bool :=
  match inflight x.1 with
  | Some f => bool_decide (f_peer f = p) && (request_timeout x.1 (f_peer f) <=? t - f_since f)
  | None => false
  end.
Lemma late_eq x p t : late x p t = true → ∃ f, inflight x.1 = Some f ∧ f_peer f = p ∧ request_timeout x.1 (f_peer f) ≤ t - f_since f.
Proof.
  unfold late. destruct (inflight x.1) as [f|]; [|done]. intros [Hp%bool_decide_eq_true Ht%N.leb_le]%andb_true_iff. by exists f.
Qed.
Definition above_genesis (s : SyncState) : bool := forallb (λ e, 1 <=? p_height e.2) (map_to_list (peer_status s)).
Lemma above_eq s : above_genesis s = true → map_Forall (λ _ st, 1 ≤ p_height st) (peer_status s).
Proof.
  unfold above_genesis. intros Ha k x Hx. rewrite forallb_forall in Ha. by apply N.leb_le, (Ha (k, x)), list_elem_of_In, elem_of_map_to_list.
Qed.
Definition claim2 : PeerStatus := default (mkStatus 0 Hash_ZERO [] 0) (peer_status asked.1 !! peer2).
Lemma asked_late : late asked peer1 3009 && bool_decide (verifying asked.1 = None) && answered (local_status asked.2 (at_ 3009))
  && good_standing asked.1 peer2 && answered (peer_status asked.1 !! peer2)
  && negb (bytes_leb (p_chain_work claim2) (p_chain_work (local_of asked 3009))) && status_actionable asked.1 peer2 claim2 (at_ 3009)
  && above_genesis asked.1 = true.
Proof. by vm_compute. Qed.
Lemma stall_moves_on_witness : ∃ s' out q m, request_missing net asked.1 asked.2 (at_ 3009) = Some (s', out) ∧ Sent q m ∈ out ∧ q ≠ peer1.
Proof.
  pose proof asked_late as E. apply andb_prop in E as [E E8]. apply andb_prop in E as [E E7]. apply andb_prop in E as [E E6].
  apply andb_prop in E as [E E5]. apply andb_prop in E as [E E4]. apply andb_prop in E as [E E3]. apply andb_prop in E as [E1 E2].
  destruct (late_eq _ _ _ E1) as (f & Hf & Hp & Ht). destruct (standing_eq _ _ E4) as [Ha _].
  assert (peer_status asked.1 !! peer2 = Some claim2) as Hs by (unfold claim2; revert E5; destruct (peer_status asked.1 !! peer2); [reflexivity|discriminate]).
  destruct (stall_moves_on net asked.1 asked.2 (at_ 3009) (local_of asked 3009) f peer2 claim2) as (q & st & Hne & _ & _ & Hst & _ & _ & Hr).
  - exact (bool_decide_eq_true_1 _ E2).
  - exact Hf.
  - rewrite Hp. left.
  - exact Ht.
  - exact (local_eq asked 3009 E3).
  - rewrite Hp. discriminate.
  - exact Ha.
  - right. left.
  - exact Hs.
  - exact (proj1 (negb_true_iff _) E6).
  - exact E7.
  - destruct (p_height st =? 0) eqn:E0.
    + apply N.eqb_eq in E0. pose proof (above_eq _ E8 _ _ Hst) as Hh. cbn in Hh. lia.
    + destruct Hr as (s' & out & m & Hr & _ & _ & Hin & _). exists s', out, q, m. split; [exact Hr|]. split; [exact Hin|].
      rewrite <- Hp. exact Hne.
Defined.

(** ** Two forks, and a checkpoint that is not proven *)

Definition on_A : Node.t := with_chain node0 chainA.
Definition on_B : Node.t := with_chain node0 chainB.
#[local] Instance header_eq_dec : EqDecision BlockHeader.
Proof. solve_decision. Defined.
Definition distinct (c1 c2 : Blockchain) : bool :=
  forallb (λ b, forallb (λ b', negb (bool_decide (block_hash b = block_hash b')) || bool_decide (header b = header b')) (blocks c2)) (blocks c1).
Lemma distinct_eq c1 c2 : distinct c1 c2 = true → SyncSpec.no_collision c1 c2.
Proof.
  unfold distinct. intros Hd i j b b' Eb Eb' Eh. rewrite forallb_forall in Hd. specialize (Hd b (proj1 (list_elem_of_In _ _) (list_elem_of_lookup_2 _ _ _ Eb))).
  rewrite forallb_forall in Hd. specialize (Hd b' (proj1 (list_elem_of_In _ _) (list_elem_of_lookup_2 _ _ _ Eb'))).
  rewrite bool_decide_true in Hd by done. by apply bool_decide_eq_true in Hd.
Qed.
Definition parted (c1 c2 : Blockchain) : bool :=
  distinct c1 c2 && bool_decide (height_ c1 = Some 1) && bool_decide (height_ c2 = Some 1)
  && bool_decide (SyncSpec.active_hash c1 0 = SyncSpec.active_hash c2 0) && negb (bool_decide (SyncSpec.active_hash c1 1 = SyncSpec.active_hash c2 1)).
Lemma parted_eq c1 c2 : parted c1 c2 = true → SyncSpec.no_collision c1 c2 ∧ height_ c1 = Some 1 ∧ height_ c2 = Some 1 ∧
  SyncSpec.active_hash c1 0 = SyncSpec.active_hash c2 0 ∧ SyncSpec.active_hash c1 1 ≠ SyncSpec.active_hash c2 1.
Proof.
  unfold parted. intros E. rewrite !andb_true_iff, negb_true_iff, bool_decide_eq_false, !bool_decide_eq_true in E.
  destruct E as [[[[E1 E2] E3] E4] E5]. split; [by apply distinct_eq|done].
Qed.
Lemma forks : parted chainA chainB = true.
Proof. by vm_compute. Qed.
Lemma locator_finds_fork_witness : ∃ locator, build_locator on_A = Some locator.
Proof.
  destruct (parted_eq _ _ forks) as (E1 & E2 & E3 & E4 & E5).
  destruct (SyncSpec.locator_finds_fork gen on_A on_B fresh 1 1 0 gen_wf reachA reachB E1 E2 ltac:(reflexivity) E3 ltac:(reflexivity)
    ltac:(discriminate) E4) as (locator & _ & Hl & _).
  exists locator. exact Hl.
Defined.
(** A node at height 1 that is given a checkpoint at height 5. *)
Definition pinned_A : Node.t := with_chain node0 (Chain.set_checkpoints chainA [(5, Hash_ZERO)]).
Lemma reach_pinned : reachable gen (chain pinned_A).
Proof.
  destruct reachA as (c0 & c1 & H1 & H2 & H3). exists c0, c1. split; [exact H1|]. split; [exact H2|].
  eapply rtc_r; [exact H3|apply (st_pins chainA [(5, Hash_ZERO)])].
Qed.
Definition question (o : option (SyncState * list effect)) : option (SyncState * SocketAddr * list Hash * Hash) :=
  match o with Some (s, [Sent p (Net.GetHeaders locator stop)]) => Some (s, p, locator, stop) | _ => None end.
Definition asks : option (SyncState * list effect) := request_linkage net met1.1 pinned_A {[peer1]} (at_ 30).
Lemma question_eq o x : question o = Some x → o = Some (x.1.1.1, [Sent x.1.1.2 (Net.GetHeaders x.1.2 x.2)]).
Proof. unfold question. intros E. repeat (case_match; try done). by simplify_eq. Qed.
Definition at_height_1 (c c' : Blockchain) : bool :=
  bool_decide (height_ c = Some 1) && bool_decide (SyncSpec.active_hash c 1 = SyncSpec.active_hash c' 1).
Lemma at_height_1_eq c c' : at_height_1 c c' = true → height_ c = Some 1 ∧ SyncSpec.active_hash c 1 = SyncSpec.active_hash c' 1.
Proof. unfold at_height_1. intros E. by rewrite andb_true_iff, !bool_decide_eq_true in E. Qed.
Lemma asks_headers : answered (question asks) = true.
Proof. by vm_compute. Qed.
Lemma pinned_1 : at_height_1 (chain pinned_A) chainA = true.
Proof. by vm_compute. Qed.
Lemma linkage_unanswerable_witness : ∃ locator stop,
  matches (RLinkage 1) (Net.Headers (headers_from_fork_point chainA locator stop)) = false.
Proof.
  pose proof asks_headers as E1. destruct (at_height_1_eq _ _ pinned_1) as [E2 E3].
  destruct (question asks) as [[[[s p] locator] stop]|] eqn:Eq; [|discriminate E1]. apply question_eq in Eq. exists locator, stop.
  apply (linkage_unanswerable gen net met1.1 pinned_A on_A {[peer1]} (at_ 30) s _ p locator stop 1 gen_wf reach_pinned reachA eq_refl
    E2 ltac:(discriminate) E3 Eq eq_refl).
Defined.

(** ** An announced block, with a disk that works and one that does not *)

Definition recording (flushes : bool) : Io := mkIo (λ _, None) flushes.
Definition empty_log : BlockLog.t := BlockLog.mkLog (BlockLog.records []) (length (BlockLog.records [])) false.
Definition logging : system := (attach_verifier (Sync.new (Some empty_log)) true, node0).
Definition greeted_log : system := after logging peer1 (hello_of peer1 [8]) 5.
Definition announced : system := after greeted_log peer1 (Net.NewBlock blockA) 6.
Definition taken : system := (default announced.1 (take_job announced.1), announced.2).
Definition verified : system := default taken (verify_next taken.1 taken.2 (at_ 7) (recording true)).
Definition reported (flushes : bool) : system := (default verified.1 (send_report verified.1 (recording flushes)), verified.2).
Definition read_out (flushes : bool) : option (SyncState * list effect) :=
  collect_verify_reports net (reported flushes).1 (reported flushes).2 (at_ 8) true.
Definition passes_on (b : Block) (o : option (SyncState * list effect)) : bool :=
  match o with Some (_, [Broadcast (Net.NewBlock b')]) => bool_decide (block_hash b' = block_hash b) | _ => false end.
Definition passed (o : option (SyncState * list effect)) : Block :=
  match o with Some (_, Broadcast (Net.NewBlock b) :: _) => b | _ => genesis_block end.
Lemma passed_in b o : passes_on b o = true → ∃ s out, o = Some (s, out) ∧ Broadcast (Net.NewBlock (passed o)) ∈ out.
Proof.
  unfold passes_on, passed. intros E. destruct o as [[s out]|]; [|done]. exists s, out. split; [done|].
  destruct out as [|[] [|? ?]]; try done; destruct m; try done. left.
Qed.

Lemma read_out_eq flushes : read_out flushes = collect_verify_reports net (reported flushes).1 (reported flushes).2 (at_ 8) true.
Proof. unfold read_out. reflexivity. Qed.
Lemma ds_handle x p m t : rtc (durable_step cfg0) x (after x p m t).
Proof.
  destruct x as [s n]. unfold after. destruct (heard (s, n) p m t) as [[[s' n'] out]|] eqn:E; [|apply rtc_refl].
  apply rtc_once, ds_sync. exists (Some (net, p, m)). eapply ss_handle. exact E.
Qed.
Lemma ds_take x : rtc (durable_step cfg0) x (default x.1 (take_job x.1), x.2).
Proof.
  destruct x as [s n]. cbn [fst snd]. destruct (take_job s) as [s'|] eqn:E; [|apply rtc_refl]. apply rtc_once, ds_sync. exists None. by apply ss_take.
Qed.
Lemma ds_verify x t io : rtc (durable_step cfg0) x (default x (verify_next x.1 x.2 (at_ t) io)).
Proof.
  destruct x as [s n]. cbn [fst snd]. destruct (verify_next s n (at_ t) io) as [[s' n']|] eqn:E; [|apply rtc_refl].
  apply rtc_once, ds_sync. exists None. by eapply ss_verify.
Qed.
Lemma ds_report x io : rtc (durable_step cfg0) x (default x.1 (send_report x.1 io), x.2).
Proof.
  destruct x as [s n]. cbn [fst snd]. destruct (send_report s io) as [s'|] eqn:E; [|apply rtc_refl]. apply rtc_once, ds_sync. exists None. by eapply ss_report.
Qed.
Lemma reach_greeted : rtc (durable_step cfg0) logging greeted_log.
Proof. unfold greeted_log. apply ds_handle. Qed.
Lemma reach_announced : rtc (durable_step cfg0) greeted_log announced.
Proof. unfold announced. apply ds_handle. Qed.
Lemma reach_taken : rtc (durable_step cfg0) announced taken.
Proof. unfold taken. apply ds_take. Qed.
Lemma reach_verified : rtc (durable_step cfg0) taken verified.
Proof. unfold verified. apply ds_verify. Qed.
Lemma reach_reported flushes : rtc (durable_step cfg0) verified (reported flushes).
Proof. unfold reported. apply ds_report. Qed.
Lemma reported_reached flushes : rtc (durable_step cfg0) logging ((reported flushes).1, (reported flushes).2).
Proof.
  rewrite <- surjective_pairing. transitivity verified; [|apply reach_reported]. transitivity taken; [|exact reach_verified].
  transitivity announced; [|exact reach_taken]. transitivity greeted_log; [exact reach_greeted|exact reach_announced].
Qed.
Lemma passes_A : passes_on blockA (read_out true) = true.
Proof. by vm_compute. Qed.
Definition log_of (x : system) : BlockLog.t := default empty_log (block_log (importer x.1)).
Definition has_log (x : system) : bool := answered (block_log (importer x.1)) && negb (durable_broken (importer x.1)).
Lemma has_log_eq x : has_log x = true → block_log (importer x.1) = Some (log_of x) ∧ durable_broken (importer x.1) = false.
Proof. unfold has_log, log_of. destruct (block_log _), (durable_broken _); done. Qed.
Lemma reported_has_log : has_log (reported true) = true.
Proof. by vm_compute. Qed.
Lemma broadcast_is_durable_witness : ∃ ps rest, take (BlockLog.on_disk (log_of (reported true))) (BlockLog.file (log_of (reported true)))
  = BlockLog.records (ps ++ [to_vec (passed (read_out true))]) ++ rest.
Proof.
  destruct (has_log_eq _ reported_has_log) as [El Eb]. destruct (passed_in _ _ passes_A) as (s' & out & Ec & Hin). rewrite read_out_eq in Ec.
  destruct (broadcast_is_durable cfg0 [] true node0 (reported true).1 (reported true).2 net (at_ 8) true s' out (passed (read_out true))
    (reported_reached true) Ec Hin _ El) as [Hx|(ps & rest & Et & _)].
  - rewrite Eb in Hx. discriminate Hx.
  - exists ps, rest. exact Et.
Defined.

Lemma still_passed : passes_on blockA (read_out false) = true.
Proof. by vm_compute. Qed.
Lemma nothing_flushed : BlockLog.on_disk (log_of (reported false)) = 0%nat.
Proof. by vm_compute. Qed.
Lemma latched : durable_broken (importer (reported false).1) = true.
Proof. by vm_compute. Qed.
(** A failed flush does not stop the broadcast.  A peer announces a block, the
    verifier imports and writes it, the flush fails: the latch is set and nothing of the
    log is on disk, and the network thread still broadcasts the block, because the report
    already says it is new. *)
Theorem gossip_outruns_disk : passes_on blockA (read_out false) = true ∧
  BlockLog.on_disk (log_of (reported false)) = 0%nat ∧ durable_broken (importer (reported false).1) = true.
Proof.
  split; [exact still_passed|]. split; [exact nothing_flushed|exact latched].
Qed.
End SyncRun.
