(* ===== verification/Link.v ===== *)
(** * The sealed link (crates/network/src/pq.rs, link.rs and the framing of tcp.rs)

    One encrypted connection: the Noise handshake, the ML-KEM exchange inside it, the
    inner channel with its counter nonces, and frames cut into Noise messages.  Noise
    ([Noise]), ML-KEM-768 ([Kem]) and ChaCha20-Poly1305 ([Aead]) are third-party code:
    their operations are classes, what the code relies on are the laws of [AeadLaws],
    [KemLaws] and [NoiseLaws]. *)

From S2P Require Import Prelude Primitives Crypto Types Gas Block Network.
#[local] Open Scope N_scope.

Module Link.

(** ** What the link is built on *)

(** ChaCha20-Poly1305 under a key and a nonce; [None] is a failed tag. *)
Class Aead := {
  aead_encrypt : bytes → bytes → bytes → bytes;
  aead_decrypt : bytes → bytes → bytes → option bytes;
}.
(** Decryption recomputes the tag, so it accepts exactly the encryption of what it returns. *)
Class AeadLaws `{Aead} := {
  decrypt_encrypt k n p : aead_decrypt k n (aead_encrypt k n p) = Some p;
  decrypt_exact k n c p : aead_decrypt k n c = Some p → c = aead_encrypt k n p;
  length_encrypt k n p : length (aead_encrypt k n p) = (length p + 16)%nat;
}.

(** ML-KEM-768; a seed stands for the randomness of key generation and encapsulation. *)
Definition EK_LEN : nat := 1184.
Definition CT_LEN : nat := 1088.
Class Kem := {
  kem_keygen : bytes → option (bytes * bytes);
  ek_valid : bytes → bool;
  kem_encaps : bytes → bytes → option (bytes * bytes);
  ct_valid : bytes → bool;
  kem_decaps : bytes → bytes → option bytes;
}.
Class KemLaws `{Kem} := {
  keygen_total seed : is_Some (kem_keygen seed);
  keygen_valid seed ek dk : kem_keygen seed = Some (ek, dk) → length ek = EK_LEN ∧ ek_valid ek = true;
  encaps_total ek seed : ek_valid ek = true → is_Some (kem_encaps ek seed);
  encaps_valid ek seed s ct : kem_encaps ek seed = Some (s, ct) → length ct = CT_LEN ∧ ct_valid ct = true;
  decaps_encaps seed ek dk seed' s ct :
    kem_keygen seed = Some (ek, dk) → kem_encaps ek seed' = Some (s, ct) → kem_decaps dk ct = Some s;
}.

(** Noise XX: a handshake state that writes and reads messages with empty payloads, and
    after it one cipher state per direction. *)
Class Noise := {
  HandshakeState : Type;
  CipherState : Type;
  noise_build : bytes → bool → option HandshakeState;
  hs_write : HandshakeState → option (HandshakeState * bytes);
  hs_read : HandshakeState → bytes → option HandshakeState;
  hs_hash : HandshakeState → bytes;
  (** sending, receiving *)
  hs_split : HandshakeState → option (CipherState * CipherState);
  cs_encrypt : CipherState → bytes → option (CipherState * bytes);
  cs_decrypt : CipherState → bytes → option (CipherState * bytes);
}.

(** What the Noise specification promises two honest ends: the three messages of XX
    complete, with one hash, and leave a cipher state per direction; [paired n s r] says
    that [r] decrypts what [s] encrypts for [n] more messages (a cipher state stops when
    its 64-bit nonce is used up). *)
Definition NOISE_TAG : N := 16.
Class NoiseLaws `{Noise} := {
  paired : nat → CipherState → CipherState → Prop;
  capacity : nat;
  paired_weaken n s r : paired (S n) s r → paired n s r;
  paired_step n s r p : paired (S n) s r → len p + NOISE_TAG <= 65535 → ∃ s' r' c,
    cs_encrypt s p = Some (s', c) ∧ len c = len p + NOISE_TAG ∧ cs_decrypt r c = Some (r', p) ∧ paired n s' r';
  xx_completes ei er : ∃ i0 i1 i2 i3 r0 r1 r2 r3 m1 m2 m3 si ri sr rr,
    noise_build ei true = Some i0 ∧ noise_build er false = Some r0 ∧
    hs_write i0 = Some (i1, m1) ∧ hs_read r0 m1 = Some r1 ∧
    hs_write r1 = Some (r2, m2) ∧ hs_read i1 m2 = Some i2 ∧
    hs_write i2 = Some (i3, m3) ∧ hs_read r2 m3 = Some r3 ∧
    Forall (λ m, 0 < len m <= 65535) [m1; m2; m3] ∧ hs_hash i3 = hs_hash r3 ∧
    hs_split i3 = Some (si, ri) ∧ hs_split r3 = Some (sr, rr) ∧
    paired capacity si rr ∧ paired capacity sr ri;
}.

(** ** The inner channel (pq.rs) *)

Definition binding_domain : bytes := string_bytes "sov:pq-channel-binding:ml-kem-768:v1".
Definition binding_preimage (noise_handshake_hash encapsulation_key ciphertext : bytes) : bytes :=
  binding_domain ++ to_be 8 (len noise_handshake_hash) ++ noise_handshake_hash ++ encapsulation_key ++ ciphertext.

Record PqChannel := mkPqChannel {
  seal_cipher : bytes; open_cipher : bytes; seal_counter : N; open_counter : N }.

Section pq.
Context `{Blake3} `{Aead}.

Definition channel_binding (noise_handshake_hash encapsulation_key ciphertext : bytes) : bytes :=
  as_bytes (digest (binding_preimage noise_handshake_hash encapsulation_key ciphertext)).
Definition direction_key (domain : string) (handshake_hash kem_secret : bytes) : bytes :=
  as_bytes (digest (string_bytes domain ++ handshake_hash ++ kem_secret)).
Definition pq_new (handshake_hash kem_secret : bytes) (initiator : bool) : PqChannel :=
  let i2r := direction_key "sov:pq-channel:i2r:v1" handshake_hash kem_secret in
  let r2i := direction_key "sov:pq-channel:r2i:v1" handshake_hash kem_secret in
  let '(seal_key, open_key) := if initiator then (i2r, r2i) else (r2i, i2r) in
  mkPqChannel seal_key open_key 0 0.
(** Four zero bytes, then the counter. *)
Definition nonce (counter : N) : bytes := replicate 4 0 ++ to_le 8 counter.
Definition pq_seal (ch : PqChannel) (plaintext : bytes) : PqChannel * bytes :=
  (mkPqChannel (seal_cipher ch) (open_cipher ch) (wadd (seal_counter ch) 1) (open_counter ch),
   aead_encrypt (seal_cipher ch) (nonce (seal_counter ch)) plaintext).
Definition pq_open (ch : PqChannel) (ciphertext : bytes) : option (PqChannel * bytes) :=
  plaintext ← aead_decrypt (open_cipher ch) (nonce (open_counter ch)) ciphertext;
  Some (mkPqChannel (seal_cipher ch) (open_cipher ch) (seal_counter ch) (wadd (open_counter ch) 1), plaintext).
End pq.

(** ** Streams

    The input that is still to come and the output so far.  An input that ends is a peer
    that hung up or ran into the read timeout. *)

Inductive LinkError := UnexpectedEof | Other (what : string).
Definition io (A : Type) : Type := bytes * bytes → result LinkError (A * (bytes * bytes)).
#[global] Instance io_ret : MRet io := λ A a st, Ok (a, st).
#[global] Instance io_bind : MBind io := λ A B f m st, match m st with Ok (a, st) => f a st | Err e => Err e end.
Definition io_ok {A} (o : option A) (what : string) : io A :=
  λ st, match o with Some a => Ok (a, st) | None => Err (Other what) end.

(** [read_exact] on what is left of a stream. *)
Definition split_exact (n : N) (s : bytes) : option (bytes * bytes) :=
  if n <=? len s then Some (take (N.to_nat n) s, drop (N.to_nat n) s) else None.
Definition read_exact (n : N) : io bytes := λ '(i, o),
  match split_exact n i with Some (d, i) => Ok (d, (i, o)) | None => Err UnexpectedEof end.
Definition write_all (d : bytes) : io unit := λ '(i, o), Ok (tt, (i, o ++ d)).

Definition write_raw (data : bytes) : io unit := write_all (to_be 4 (len data) ++ data).
Definition read_raw : io bytes :=
  l ← read_exact 4;
  let n := be_val l in
  if (n =? 0) || (65535 <? n) then io_ok None "invalid handshake frame length" else read_exact n.

(** ** The handshakes (link.rs) *)

Section link.
Context `{Blake3} `{Aead} `{Kem} `{Noise}.

Definition NOISE_MAX_PLAINTEXT : N := 65535 - 16.
Definition MAX_FRAME : N := 8 * 1024 * 1024.

(** The two cipher states, sending and receiving, and the handshake hash. *)
Definition noise_handshake (seed : bytes) (initiator : bool) : io ((CipherState * CipherState) * bytes) :=
  hs ← io_ok (noise_build seed initiator) "noise build";
  hs ← (if initiator then
          '(hs, m) ← io_ok (hs_write hs) "noise msg1";
          _ ← write_raw m;
          msg ← read_raw;
          hs ← io_ok (hs_read hs msg) "noise msg2";
          '(hs, m) ← io_ok (hs_write hs) "noise msg3";
          _ ← write_raw m;
          mret hs
        else
          msg ← read_raw;
          hs ← io_ok (hs_read hs msg) "noise msg1";
          '(hs, m) ← io_ok (hs_write hs) "noise msg2";
          _ ← write_raw m;
          msg ← read_raw;
          io_ok (hs_read hs msg) "noise msg3");
  let handshake_hash := hs_hash hs in
  transport ← io_ok (hs_split hs) "noise transport";
  mret (transport, handshake_hash).

Definition noise_send (ts : CipherState * CipherState) (data : bytes) : io (CipherState * CipherState) :=
  '(sending, c) ← io_ok (cs_encrypt ts.1 data) "noise encrypt";
  _ ← write_raw c;
  mret (sending, ts.2).
Definition noise_recv (ts : CipherState * CipherState) : io ((CipherState * CipherState) * bytes) :=
  ct ← read_raw;
  '(receiving, p) ← io_ok (cs_decrypt ts.2 ct) "noise decrypt";
  mret ((ts.1, receiving), p).

(** The key exchange of [pq_handshake]: the encapsulation key, the ciphertext and the
    secret, as this end sees them. *)
Definition kem_exchange (seed : bytes) (initiator : bool) (ts : CipherState * CipherState) :
    io ((CipherState * CipherState) * (bytes * bytes * bytes)) :=
  if initiator then
    '(ek, dk) ← io_ok (kem_keygen seed) "ml-kem keygen";
    ts ← noise_send ts ek;
    '(ts, ct) ← noise_recv ts;
    if negb (length ct =? CT_LEN)%nat then io_ok None "ml-kem ciphertext has the wrong length" else
    if negb (ct_valid ct) then io_ok None "ml-kem ciphertext" else
    secret ← io_ok (kem_decaps dk ct) "ml-kem decaps";
    mret (ts, (ek, ct, secret))
  else
    '(ts, ek) ← noise_recv ts;
    if negb (length ek =? EK_LEN)%nat then io_ok None "ml-kem encaps key has the wrong length" else
    if negb (ek_valid ek) then io_ok None "ml-kem encaps key" else
    '(secret, ct) ← io_ok (kem_encaps ek seed) "ml-kem encaps";
    ts ← noise_send ts ct;
    mret (ts, (ek, ct, secret)).
Definition pq_handshake (seed : bytes) (ts : CipherState * CipherState) (initiator : bool) (handshake_hash : bytes) :
    io ((CipherState * CipherState) * (PqChannel * bytes)) :=
  '(ts, (ek, ct, secret)) ← kem_exchange seed initiator ts;
  mret (ts, (pq_new handshake_hash secret initiator, channel_binding handshake_hash ek ct)).

(** ** Frames *)

Record SealedLink := mkLink { noise : CipherState * CipherState; pq : PqChannel; handshake_hash : bytes }.
(** [seeds]: the randomness of the Noise keys and of the KEM. *)
Definition establish (seeds : bytes * bytes) (initiator : bool) : io SealedLink :=
  '(transport, noise_hash) ← noise_handshake seeds.1 initiator;
  '(transport, (pq, binding)) ← pq_handshake seeds.2 transport initiator noise_hash;
  mret (mkLink transport pq binding).

(** [slice::chunks]; one turn per chunk. *)
Fixpoint chunks_loop (fuel : nat) (k : nat) (l : bytes) : list bytes :=
  match fuel, l with
  | S fuel, _ :: _ => take k l :: chunks_loop fuel k (drop k l)
  | _, _ => []
  end.
Definition chunks (k : nat) (l : bytes) : list bytes := chunks_loop (length l) k l.
(** Each chunk encrypted, behind its length on two bytes. *)
Fixpoint send_chunks (s : CipherState) (cs : list bytes) : option (CipherState * bytes) :=
  match cs with
  | [] => Some (s, [])
  | c :: cs =>
      '(s, e) ← cs_encrypt s c;
      '(s, out) ← send_chunks s cs;
      Some (s, to_be 2 (len e) ++ e ++ out)
  end.
(** The link afterwards and the bytes written. *)
Definition send (l : SealedLink) (plaintext : bytes) : result LinkError (SealedLink * bytes) :=
  if MAX_FRAME <? len plaintext then Err (Other "frame exceeds maximum size") else
  let '(ch, inner) := pq_seal (pq l) plaintext in
  match send_chunks (noise l).1 (chunks (N.to_nat NOISE_MAX_PLAINTEXT) inner) with
  | None => Err (Other "noise encrypt")
  | Some (s, out) => Ok (mkLink (s, (noise l).2) ch (handshake_hash l), to_be 4 (len inner) ++ out)
  end.

(** What one read ends with; a frame comes with the link and the rest of the stream, the
    other two end the connection. *)
Inductive LinkRead := Frame (plaintext : bytes) (l : SealedLink) (rest : bytes) | Closed | Malformed.
(** The loop that gathers [total] bytes; every turn takes at least three from the
    stream. *)
Fixpoint gather (fuel : nat) (total : N) (inner : bytes) (r : CipherState) (s : bytes) :
    result bool (bytes * CipherState * bytes) :=
  match fuel with
  | O => Err false
  | S fuel =>
      if total <=? len inner then Ok (inner, r, s) else
      match split_exact 2 s with
      | None => Err false
      | Some (clen, s) =>
          let clen := be_val clen in
          if (clen =? 0) || (65535 <? clen) then Err true else
          match split_exact clen s with
          | None => Err false
          | Some (ct, s) =>
              match cs_decrypt r ct with
              | None => Err true
              | Some (r, p) => if total <? len inner + len p then Err true else gather fuel total (inner ++ p) r s
              end
          end
      end
  end.
(** The sealed string of the next frame; [Err true] is a violation, [Err false] a hang-up. *)
Definition read_inner (r : CipherState) (stream : bytes) : result bool (bytes * CipherState * bytes) :=
  match split_exact 4 stream with
  | None => Err false
  | Some (len_bytes, s) =>
      let total := be_val len_bytes in
      if (total =? 0) || (MAX_FRAME + 16 <? total) then Err true else gather (S (length s)) total [] r s
  end.
Definition recv (l : SealedLink) (stream : bytes) : LinkRead :=
  match read_inner (noise l).2 stream with
  | Err malformed => if (malformed : bool) then Malformed else Closed
  | Ok (inner, r, s) =>
      match pq_open (pq l) inner with
      | Some (ch, plaintext) => Frame plaintext (mkLink ((noise l).1, r) ch (handshake_hash l)) s
      | None => Malformed
      end
  end.

(** *** The framing of tcp.rs

    The same two routines again, around the encoding of messages, which Borsh derives. *)
Inductive FrameRead := Message (m : Net.NetMessage) (wire_bytes : N) (l : SealedLink) (rest : bytes) | FClosed | FMalformed.
Context (encode : Net.NetMessage → bytes) (decode : bytes → option Net.NetMessage).
Definition write_frame (l : SealedLink) (m : Net.NetMessage) : result LinkError (SealedLink * bytes) := send l (encode m).
Definition read_frame (l : SealedLink) (stream : bytes) : FrameRead :=
  match recv l stream with
  | Frame plaintext l rest =>
      match decode plaintext with Some m => Message m (len plaintext) l rest | None => FMalformed end
  | Closed => FClosed
  | Malformed => FMalformed
  end.
End link.
End Link.
