(* ===== verification/LinkSpec.v ===== *)
(** * The sealed link is a pair of queues

    What [Link] promises the code above it: two honest ends that establish a link have one
    binding and then two queues of frames, one per direction, whatever is sent and
    received when; and two ends with one binding agree on every key, so that what either
    accepts is what the other sealed, in order. *)

From S2P Require Import Prelude Primitives Crypto Types Gas Block Network Link.
#[local] Open Scope N_scope.

Module LinkSpec.
Import Link.

(** ** Streams and chunks *)

Lemma len_app {A} (a b : list A) : len (a ++ b) = len a + len b.
Proof. unfold len. rewrite length_app. lia. Qed.
Lemma len_to_be n v : len (to_be n v) = N.of_nat n.
Proof. unfold len. by rewrite length_to_be. Qed.
Lemma split_exact_app n a s : len a = n → split_exact n (a ++ s) = Some (a, s).
Proof.
  intros <-. unfold split_exact. rewrite len_app, (proj2 (N.leb_le _ _)) by lia. unfold len. rewrite Nat2N.id.
  by rewrite take_app_length, drop_app_length.
Qed.
Lemma split_exact_length n s a r : split_exact n s = Some (a, r) → length s = (N.to_nat n + length r)%nat ∧ length a = N.to_nat n.
Proof.
  unfold split_exact. case_match eqn:E; [|done]. intros [= <- <-]. apply N.leb_le in E. unfold len in E.
  rewrite length_drop, length_take. lia.
Qed.
Lemma be_val_be n v : v < 256 ^ N.of_nat n → be_val (to_be n v) = v.
Proof. intros Hv. rewrite be_val_to_be. by apply N.mod_small. Qed.

Lemma link_chunks_loop fuel k l : (0 < k)%nat → (length l ≤ fuel)%nat →
  concat (chunks_loop fuel k l) = l ∧ Forall (λ c, (0 < length c ≤ k)%nat) (chunks_loop fuel k l) ∧
  (k * (length (chunks_loop fuel k l) - 1) ≤ length l)%nat.
Proof.
  intros Hk. revert l. induction fuel as [|fuel IH]; intros [|x l] Hl; [simpl; split_and!; auto; lia|simpl in Hl; lia|
    simpl; split_and!; auto; lia|]. cbn [chunks_loop concat length] in *.
  destruct (IH (drop k (x :: l))) as (E & F & G); [rewrite length_drop; cbn [length]; lia|].
  rewrite E, take_drop. split; [done|]. split.
  - constructor; [|done]. rewrite length_take. cbn [length]. lia.
  - rewrite length_drop in G. cbn [length] in *.
    destruct (chunks_loop fuel k (drop k (x :: l))) as [|c cs] eqn:Ec; cbn [length] in *; [lia|].
    assert (k < S (length l))%nat; [|nia].
    destruct (decide (S (length l) ≤ k)%nat) as [Hle|]; [|lia].
    rewrite drop_ge in Ec by (cbn [length]; lia). by destruct fuel.
Qed.
Lemma link_chunks_spec k l : (0 < k)%nat →
  concat (chunks k l) = l ∧ Forall (λ c, (0 < length c ≤ k)%nat) (chunks k l) ∧ (k * (length (chunks k l) - 1) ≤ length l)%nat.
Proof. intros. by apply link_chunks_loop. Qed.

Section spec.
Context `{Blake3} `{AL : AeadLaws} `{KL : KemLaws} `{NL : NoiseLaws}.

(** ** One frame *)

(** The loop's fuel is never what ends it. *)
Lemma gather_enough f f' total inner r s : (length s < f)%nat → (length s < f')%nat →
  gather f total inner r s = gather f' total inner r s.
Proof.
  revert f' inner r s. induction f as [|f IH]; intros f' inner r s Hf Hf'; [lia|]. destruct f' as [|f']; [lia|].
  cbn [gather]. destruct (total <=? len inner); [done|].
  destruct (split_exact 2 s) as [[cl s1]|] eqn:E1; [|done]. apply split_exact_length in E1.
  destruct (_ || _); [done|]. destruct (split_exact (be_val cl) s1) as [[ct s2]|] eqn:E2; [|done].
  apply split_exact_length in E2. destruct (cs_decrypt r ct) as [[r' p]|]; [|done].
  destruct (total <? len inner + len p); [done|]. apply IH; lia.
Qed.

Lemma chunks_delivered n cs s r : paired (length cs + n) s r →
  Forall (λ c, (0 < length c ≤ N.to_nat NOISE_MAX_PLAINTEXT)%nat) cs →
  ∃ s' r' out, send_chunks s cs = Some (s', out) ∧ paired n s' r' ∧ (length cs ≤ length out)%nat ∧
    ∀ fuel inner total rest, (length cs < fuel)%nat → total = len inner + len (concat cs) →
      gather fuel total inner r (out ++ rest) = Ok (inner ++ concat cs, r', rest).
Proof.
  revert s r. induction cs as [|c cs IH]; intros s r Hp Hc.
  - exists s, r, []. split_and!; [done..|]. intros [|fuel] inner total rest Hf ->; [simpl in Hf; lia|]. cbn [gather concat].
    rewrite (proj2 (N.leb_le _ _)) by (unfold len; simpl; lia). by rewrite app_nil_r.
  - apply Forall_cons in Hc as [Hc Hcs]. unfold NOISE_MAX_PLAINTEXT in Hc.
    destruct (paired_step _ _ _ c Hp) as (s1 & r1 & e & He & Le & Hd & Hp1); [unfold len, NOISE_TAG; lia|].
    destruct (IH s1 r1 Hp1 Hcs) as (s2 & r2 & out & Hs & Hp2 & Ho & Hg).
    exists s2, r2, (to_be 2 (len e) ++ e ++ out). cbn [send_chunks]. rewrite He. cbn [mbind option_bind].
    rewrite Hs. cbn [mbind option_bind].
    split_and!; [done..| |].
    { rewrite !length_app, length_to_be. cbn [length]. lia. }
    intros [|fuel] inner total rest Hf ->; [simpl in Hf; lia|]. cbn [gather concat].
    assert (len e < 65536 ∧ len e ≠ 0) as [L1 L2] by (unfold len, NOISE_TAG in *; lia).
    rewrite (proj2 (N.leb_gt _ _)) by (rewrite len_app; unfold len; lia).
    rewrite <- app_assoc, split_exact_app by apply len_to_be. rewrite be_val_be by (simpl; lia).
    rewrite (proj2 (N.eqb_neq _ _) L2), (proj2 (N.ltb_ge _ _)) by lia. cbn [orb].
    rewrite <- app_assoc, split_exact_app, Hd by done. rewrite (proj2 (N.ltb_ge _ _)) by (rewrite len_app; lia).
    rewrite (app_assoc inner c). apply Hg; [simpl in Hf; lia|]. rewrite !len_app. lia.
Qed.

(** The most Noise messages a frame takes. *)
Definition FRAME_CHUNKS : nat := 130.
(** What [a] sends [b] can read, for [n] more frames. *)
Definition half (n : nat) (a b : SealedLink) : Prop :=
  paired (n * FRAME_CHUNKS) (noise a).1 (noise b).2 ∧ seal_cipher (pq a) = open_cipher (pq b) ∧
  seal_counter (pq a) = open_counter (pq b).
Lemma paired_less n m s r : paired (n + m) s r → paired m s r.
Proof. induction n as [|n IH]; [done|]. intros Hp. by apply IH, paired_weaken. Qed.
Lemma half_less n a b : half (S n) a b → half n a b.
Proof. intros (Hp & ?). split; [|done]. by apply (paired_less FRAME_CHUNKS). Qed.

Lemma noise_max_pos : (0 < N.to_nat NOISE_MAX_PLAINTEXT)%nat.
Proof. unfold NOISE_MAX_PLAINTEXT. lia. Qed.
Lemma frame_chunks (c p : bytes) : length c = (length p + 16)%nat → len p <= MAX_FRAME →
  (length (chunks (N.to_nat NOISE_MAX_PLAINTEXT) c) ≤ FRAME_CHUNKS)%nat.
Proof.
  intros Lc Hp. destruct (link_chunks_spec _ c noise_max_pos) as (_ & _ & Hn). unfold FRAME_CHUNKS.
  set (k := N.to_nat NOISE_MAX_PLAINTEXT) in *. set (m := length (chunks k c)) in *.
  destruct (decide (m ≤ 130)%nat) as [|Hm]; [done|exfalso].
  assert (k * 130 ≤ k * (m - 1))%nat by (apply Nat.mul_le_mono_l; lia).
  assert (N.of_nat k = 65519) by (unfold k; by rewrite N2Nat.id). unfold len, MAX_FRAME in Hp. lia.
Qed.

(** The link with the sending half of [m]. *)
Definition with_send (m l : SealedLink) : SealedLink :=
  mkLink ((noise m).1, (noise l).2)
    (mkPqChannel (seal_cipher (pq m)) (open_cipher (pq l)) (seal_counter (pq m)) (open_counter (pq l))) (handshake_hash l).
Lemma recv_with_send m l s :
  recv (with_send m l) s = match recv l s with Frame p l' rest => Frame p (with_send m l') rest | x => x end.
Proof.
  unfold recv. cbn [noise with_send snd]. destruct (read_inner _ _) as [[[inner r] s2]|[]]; [|done..]. unfold pq_open. cbn [pq with_send open_cipher open_counter].
  by destruct (aead_decrypt _ _ _).
Qed.
Lemma recv_keeps_send l s p l' rest : recv l s = Frame p l' rest → with_send l l' = l'.
Proof.
  unfold recv. destruct (read_inner _ _) as [[[inner r] s2]|[]]; [|done..]. unfold pq_open.
  destruct (aead_decrypt _ _ _); [|done]. by intros [= <- <- <-].
Qed.
Lemma send_keeps_recv l p l' out : send l p = Ok (l', out) → with_send l' l = l'.
Proof.
  unfold send. destruct (MAX_FRAME <? len p); [done|]. cbn [pq_seal].
  destruct (send_chunks _ _) as [[s o]|]; [|done]. by intros [= <- <-].
Qed.

Lemma frame_delivered n a b p : half (S n) a b → len p <= MAX_FRAME → ∃ a' b' out,
  send a p = Ok (a', out) ∧ half n a' b' ∧ out ≠ [] ∧ ∀ rest, recv b (out ++ rest) = Frame p b' rest.
Proof.
  intros (Hp & Hk & Hc) Lp. set (c := aead_encrypt (seal_cipher (pq a)) (nonce (seal_counter (pq a))) p).
  pose proof (length_encrypt (seal_cipher (pq a)) (nonce (seal_counter (pq a))) p) as Lc. fold c in Lc.
  pose proof (frame_chunks c p Lc Lp) as Hn. set (cs := chunks (N.to_nat NOISE_MAX_PLAINTEXT) c) in *.
  destruct (link_chunks_spec _ c noise_max_pos) as (Ec & Fc & _). fold cs in Ec, Fc.
  destruct (chunks_delivered (n * FRAME_CHUNKS) cs (noise a).1 (noise b).2) as (s' & r' & out & Hs & Hp' & Ho & Hg); [|done|].
  { apply (paired_less (FRAME_CHUNKS - length cs)). 
    replace (FRAME_CHUNKS - length cs + (length cs + n * FRAME_CHUNKS))%nat with (S n * FRAME_CHUNKS)%nat by lia. exact Hp. }
  eexists _, _, (to_be 4 (len c) ++ out). unfold send. rewrite (proj2 (N.ltb_ge _ _)) by done. cbn [pq_seal].
  fold c cs. rewrite Hs. split; [done|]. rewrite Ec in Hg.
  assert (0 < len c ∧ len c <= MAX_FRAME + 16) as [L0 L1] by (unfold len in *; lia).
  split; [|split; [by destruct (to_be 4 (len c)) eqn:E; [apply (f_equal length) in E; rewrite length_to_be in E|]|]].
  2:{ intros rest. unfold recv, read_inner. rewrite <- app_assoc, split_exact_app by apply len_to_be.
      rewrite be_val_be by (unfold MAX_FRAME in L1; simpl; lia).
      rewrite (proj2 (N.eqb_neq _ _)), (proj2 (N.ltb_ge _ _)) by lia. cbn [orb].
      rewrite Hg by (rewrite ?length_app; unfold len; simpl; lia). cbn [app].
      unfold pq_open. rewrite <- Hk, <- Hc. unfold c. rewrite decrypt_encrypt. cbn [mbind option_bind]. reflexivity. }
  unfold half. cbn [noise pq seal_cipher open_cipher seal_counter open_counter fst snd]. by rewrite Hc.
Qed.

(** ** Frames on their way *)

Fixpoint flight (n : nat) (a b : SealedLink) (pipe : bytes) (ps : list bytes) : Prop :=
  match ps with
  | [] => pipe = [] ∧ half n a b
  | p :: ps => ∃ out pipe' b', pipe = out ++ pipe' ∧ out ≠ [] ∧
      (∀ rest, recv b (out ++ rest) = Frame p b' rest) ∧ flight n a b' pipe' ps
  end.
Lemma flight_less n a b pipe ps : flight (S n) a b pipe ps → flight n a b pipe ps.
Proof. revert b pipe. induction ps as [|p ps IH]; simpl; [intuition by apply half_less|naive_solver]. Qed.
Lemma flight_send n a b pipe ps p : flight (S n) a b pipe ps → len p <= MAX_FRAME →
  ∃ a' out, send a p = Ok (a', out) ∧ flight n a' b (pipe ++ out) (ps ++ [p]).
Proof.
  intros Hf Hp. revert b pipe Hf. induction ps as [|q ps IH]; intros b pipe Hf.
  - destruct Hf as [-> Hh]. destruct (frame_delivered n a b p Hh Hp) as (a' & b' & out & Hs & Hh' & Hne & Hr).
    exists a', out. split; [done|]. exists out, [], b'. by rewrite app_nil_r.
  - destruct Hf as (o & pipe' & b' & -> & Hne & Hr & Hf). destruct (IH _ _ Hf) as (a' & out & Hs & Hf').
    exists a', out. split; [done|]. exists o, (pipe' ++ out), b'. by rewrite app_assoc.
Qed.
Lemma flight_sender n a a' b pipe ps : flight n a b pipe ps → flight n (with_send a a') b pipe ps.
Proof. revert b pipe. induction ps as [|p ps IH]; simpl; naive_solver. Qed.
Lemma flight_receiver n a m b pipe ps : flight n a b pipe ps → flight n a (with_send m b) pipe ps.
Proof.
  revert b pipe. induction ps as [|p ps IH]; intros b pipe; [done|].
  intros (out & pipe' & b' & -> & Hne & Hr & Hf). exists out, pipe', (with_send m b'). split_and!; [done..| |by apply IH].
  intros rest. by rewrite recv_with_send, Hr.
Qed.

(** ** Two ends *)

Inductive side := Initiator | Responder.
#[export] Instance side_eq_dec : EqDecision side.
Proof. solve_decision. Defined.
Definition other (s : side) : side := match s with Initiator => Responder | Responder => Initiator end.
Definition upd {A} (s : side) (v : A) (f : side → A) : side → A := λ t, if decide (s = t) then v else f t.
Lemma upd_same {A} s (v : A) f : upd s v f s = v.
Proof. unfold upd. by rewrite decide_True. Qed.
Lemma upd_other {A} s (v : A) f : upd (other s) v f s = f s.
Proof. unfold upd. rewrite decide_False; [done|]. by destruct s. Qed.
Lemma upd_other' {A} s (v : A) f : upd s v f (other s) = f (other s).
Proof. unfold upd. rewrite decide_False; [done|]. by destruct s. Qed.
Lemma other_other s : other (other s) = s.
Proof. by destruct s. Qed.

Inductive op := Send (s : side) (p : bytes) | Recv (s : side).
(** The two links, the bytes on their way to each, the frames each has read. *)
Record Ends := mkEnds { at_ : side → SealedLink; pipe : side → bytes; got : side → list bytes; broken : bool }.
Definition break (e : Ends) : Ends := mkEnds (at_ e) (pipe e) (got e) true.
Definition exec (e : Ends) (o : op) : Ends :=
  match o with
  | Send s p =>
      match send (at_ e s) p with
      | Ok (l, out) => mkEnds (upd s l (at_ e)) (upd (other s) (pipe e (other s) ++ out) (pipe e)) (got e) (broken e)
      | Err _ => if MAX_FRAME <? len p then e else break e
      end
  | Recv s =>
      if decide (pipe e s = []) then e else
      match recv (at_ e s) (pipe e s) with
      | Frame p l rest => mkEnds (upd s l (at_ e)) (upd s rest (pipe e)) (upd s (got e s ++ [p]) (got e)) (broken e)
      | _ => break e
      end
  end.
Definition connected (a b : SealedLink) : Ends :=
  mkEnds (λ s, match s with Initiator => a | Responder => b end) (λ _, []) (λ _, []) false.

(** *** The specification: a queue of frames to each end *)
Record Queues := mkQueues { queue : side → list bytes; taken : side → list bytes }.
Definition fifo (q : Queues) (o : op) : Queues :=
  match o with
  | Send s p => if MAX_FRAME <? len p then q else mkQueues (upd (other s) (queue q (other s) ++ [p]) (queue q)) (taken q)
  | Recv s =>
      match queue q s with
      | [] => q
      | p :: ps => mkQueues (upd s ps (queue q)) (upd s (taken q s ++ [p]) (taken q))
      end
  end.
Definition empty : Queues := mkQueues (λ _, []) (λ _, []).

Definition agrees (n : nat) (e : Ends) (q : Queues) : Prop :=
  broken e = false ∧
  ∀ s, got e s = taken q s ∧ flight n (at_ e (other s)) (at_ e s) (pipe e s) (queue q s).
Lemma sides (P : side → Prop) s : P s → P (other s) → ∀ t, P t.
Proof. by destruct s; intros ?? []. Qed.
Lemma send_too_long l p : MAX_FRAME < len p → ∃ e, send l p = Err e.
Proof. intros Hp. unfold send. rewrite (proj2 (N.ltb_lt _ _) Hp). eauto. Qed.
Lemma exec_agrees n e q o : agrees (S n) e q → agrees n (exec e o) (fifo q o).
Proof.
  intros [Hb Ha]. destruct o as [s p|s]; simpl.
  - destruct (N.ltb_spec MAX_FRAME (len p)) as [Hp|Hp].
    + destruct (send_too_long (at_ e s) p Hp) as [x ->]. split; [done|]. intros t. destruct (Ha t). eauto using flight_less.
    + destruct (Ha (other s)) as [Hg Hf]. rewrite other_other in Hf.
      destruct (flight_send _ _ _ _ _ p Hf Hp) as (l & out & Es & Hf'). rewrite Es. split; [done|].
      apply (sides _ s); cbn [at_ pipe got queue taken].
      * destruct (Ha s) as [Hg' Hf'']. rewrite upd_same, !upd_other, upd_other'. split; [done|].
        rewrite <- (send_keeps_recv _ _ _ _ Es). by apply flight_receiver, flight_less.
      * rewrite other_other, !upd_same, upd_other'. done.
  - destruct (Ha s) as [Hg Hf]. destruct (queue q s) as [|p ps] eqn:Eq.
    + destruct Hf as [-> _]. rewrite decide_True by done. split; [done|]. intros t. destruct (Ha t). eauto using flight_less.
    + destruct Hf as (out & rest & l & Ep & Hne & Hr & Hf). rewrite decide_False; [|by rewrite Ep; destruct out].
      rewrite Ep, Hr. split; [done|]. specialize (Hr []).
      apply (sides _ s); cbn [at_ pipe got queue taken].
      * rewrite !upd_same, upd_other', Hg. split; [done|]. by apply flight_less.
      * destruct (Ha (other s)) as [Hg' Hf']. rewrite other_other in *. rewrite upd_same, !upd_other'. split; [done|].
        rewrite <- (recv_keeps_send _ _ _ _ _ Hr). by apply flight_sender, flight_less.
Qed.
Lemma run_agrees n e q os : agrees (length os + n) e q → agrees n (foldl exec e os) (foldl fifo q os).
Proof. revert e q. induction os as [|o os IH]; intros e q Ha; [done|]. by apply IH, exec_agrees. Qed.

(** ** The handshake *)

Definition raw (m : bytes) : bytes := to_be 4 (len m) ++ m.
Lemma read_raw_app m i o : 0 < len m <= 65535 → read_raw (raw m ++ i, o) = Ok (m, (i, o)).
Proof.
  intros Hm. unfold read_raw, raw, mbind, io_bind, read_exact. rewrite <- app_assoc, split_exact_app by apply len_to_be.
  rewrite be_val_be by (simpl; lia). rewrite (proj2 (N.eqb_neq _ _)), (proj2 (N.ltb_ge _ _)) by lia. cbn [orb].
  by rewrite split_exact_app.
Qed.
Lemma io_bind_Ok {A B} (m : io A) (f : A → io B) st a st' : m st = Ok (a, st') → (m ≫= f) st = f a st'.
Proof. intros E. unfold mbind, io_bind. by rewrite E. Qed.
Lemma io_ok_Some {A} (o : option A) a what st : o = Some a → io_ok o what st = Ok (a, st).
Proof. by intros ->. Qed.
Lemma write_raw_Ok m i o : write_raw m (i, o) = Ok (tt, (i, o ++ raw m)).
Proof. done. Qed.

(** Runs the next operation of a stream program. *)
Ltac io_step := cbn beta iota; erewrite io_bind_Ok; [|first [by apply io_ok_Some|apply write_raw_Ok|by apply read_raw_app|eassumption|reflexivity]]; cbn beta iota.

Lemma noise_handshakes ei er : ∃ m1 m2 m3 si ri sr rr h,
  (∀ rest o, noise_handshake ei true (raw m2 ++ rest, o) = Ok ((si, ri, h), (rest, (o ++ raw m1) ++ raw m3))) ∧
  (∀ rest o, noise_handshake er false (raw m1 ++ raw m3 ++ rest, o) = Ok ((sr, rr, h), (rest, o ++ raw m2))) ∧
  paired capacity si rr ∧ paired capacity sr ri.
Proof.
  destruct (xx_completes ei er) as (i0&i1&i2&i3&r0&r1&r2&r3&m1&m2&m3&si&ri&sr&rr&Bi&Br&W1&R1&W2&R2&W3&R3&Lm&Eh&Si&Sr&Hp).
  rewrite !Forall_cons in Lm. destruct Lm as (L1 & L2 & L3 & _).
  exists m1, m2, m3, si, ri, sr, rr, (hs_hash i3). split_and!; [| |apply Hp..]; intros rest o; unfold noise_handshake.
  - io_step. rewrite (io_bind_Ok _ _ _ i3 (rest, (o ++ raw m1) ++ raw m3)).
    + by io_step.
    + io_step. io_step. io_step. io_step. io_step. by io_step.
  - io_step. rewrite (io_bind_Ok _ _ _ r3 (rest, o ++ raw m2)).
    + io_step. by rewrite Eh.
    + io_step. io_step. io_step. io_step. io_step. by apply io_ok_Some.
Qed.

Lemma noise_exchange n s r p x y : paired (S n) s r → 0 < len p → len p + NOISE_TAG <= 65535 → ∃ s' r' c,
  (∀ i o, noise_send (s, x) p (i, o) = Ok ((s', x), (i, o ++ raw c))) ∧
  (∀ rest o, noise_recv (y, r) (raw c ++ rest, o) = Ok ((y, r', p), (rest, o))) ∧ paired n s' r'.
Proof.
  intros Hp L0 Lp. destruct (paired_step n s r p Hp Lp) as (s' & r' & c & He & Lc & Hd & Hp').
  exists s', r', c. split_and!; [| |done]; intros.
  - unfold noise_send. io_step. by io_step.
  - unfold noise_recv. erewrite io_bind_Ok; [|apply read_raw_app; unfold NOISE_TAG in *; lia]. by io_step.
Qed.

Lemma kem_handshakes n e e' si ri sr rr : paired (S n) si rr → paired (S n) sr ri → ∃ c1 c2 si' ri' sr' rr' ek ct s,
  (∀ o, kem_exchange e true (si, ri) (raw c2, o) = Ok ((si', ri', (ek, ct, s)), ([], o ++ raw c1))) ∧
  (∀ o, kem_exchange e' false (sr, rr) (raw c1, o) = Ok ((sr', rr', (ek, ct, s)), ([], o ++ raw c2))) ∧
  paired n si' rr' ∧ paired n sr' ri'.
Proof.
  intros Hp1 Hp2. destruct (keygen_total e) as [[ek dk] Hk]. destruct (keygen_valid e ek dk Hk) as [Lek Vek].
  destruct (encaps_total ek e' Vek) as [[s ct] He]. destruct (encaps_valid ek e' s ct He) as [Lct Vct].
  destruct (noise_exchange n si rr ek ri sr Hp1) as (si' & rr' & c1 & S1 & R1 & P1);
    [unfold len, EK_LEN, NOISE_TAG in *; lia..|].
  destruct (noise_exchange n sr ri ct rr' si' Hp2) as (sr' & ri' & c2 & S2 & R2 & P2);
    [unfold len, CT_LEN, NOISE_TAG in *; lia..|].
  exists c1, c2, si', ri', sr', rr', ek, ct, s. split_and!; [| |done..]; intros o; unfold kem_exchange.
  - io_step. cbn beta iota. erewrite io_bind_Ok; [|apply S1].
    erewrite io_bind_Ok; [|rewrite <- (app_nil_r (raw c2)); apply R2]. cbn beta iota.
    rewrite Lct, Nat.eqb_refl, Vct. cbn [negb]. rewrite (io_bind_Ok _ _ _ s ([], o ++ raw c1)); [done|].
    apply io_ok_Some. by eapply decaps_encaps.
  - erewrite io_bind_Ok; [|rewrite <- (app_nil_r (raw c1)); apply R1]. cbn beta iota.
    rewrite Lek, Nat.eqb_refl, Vek. cbn [negb]. io_step. cbn beta iota. by erewrite io_bind_Ok; [|apply S2].
Qed.

Lemma establish_ok n ei er : capacity = S n → ∃ xi xr a b,
  establish ei true (xr, []) = Ok (a, ([], xi)) ∧ establish er false (xi, []) = Ok (b, ([], xr)) ∧
  handshake_hash a = handshake_hash b ∧
  (∀ k, (k * FRAME_CHUNKS ≤ n)%nat → half k a b ∧ half k b a).
Proof.
  intros Hn. destruct (noise_handshakes ei.1 er.1) as (m1&m2&m3&si&ri&sr&rr&h&Ni&Nr&P1&P2). rewrite Hn in P1, P2.
  destruct (kem_handshakes n ei.2 er.2 si ri sr rr P1 P2) as (c1&c2&si'&ri'&sr'&rr'&ek&ct&s&Ki&Kr&P1'&P2').
  exists (raw m1 ++ raw m3 ++ raw c1), (raw m2 ++ raw c2),
    (mkLink (si', ri') (pq_new h s true) (channel_binding h ek ct)), (mkLink (sr', rr') (pq_new h s false) (channel_binding h ek ct)).
  split_and!; [| |done|].
  - unfold establish. erewrite io_bind_Ok; [|apply Ni]. cbn beta iota. unfold pq_handshake.
    erewrite io_bind_Ok; [|erewrite io_bind_Ok; [|apply Ki]; reflexivity]. cbn beta iota. unfold mret, io_ret.
    by rewrite <- !app_assoc.
  - unfold establish. erewrite io_bind_Ok; [|apply Nr]. cbn beta iota. unfold pq_handshake.
    by erewrite io_bind_Ok; [|erewrite io_bind_Ok; [|apply Kr]; reflexivity].
  - intros k Hk. split; (split; [|done]); apply (paired_less (n - k * FRAME_CHUNKS));
      by replace (n - k * FRAME_CHUNKS + k * FRAME_CHUNKS)%nat with n by lia.
Qed.

(** C20: two ends that run the handshake with each other complete it with one binding, and from
    then on, whatever either sends and reads when, they are two queues of frames: every
    frame within the limit arrives, once, in order and unchanged, one above it is refused,
    and no read ever fails. *)
Theorem link_refines_queues ei er os : (length os * FRAME_CHUNKS < capacity)%nat → ∃ xi xr a b,
  establish ei true (xr, []) = Ok (a, ([], xi)) ∧ establish er false (xi, []) = Ok (b, ([], xr)) ∧
  handshake_hash a = handshake_hash b ∧
  (let e := foldl exec (connected a b) os in
   let q := foldl fifo empty os in
   broken e = false ∧ ∀ s, got e s = taken q s ∧ (pipe e s = [] ↔ queue q s = [])).
Proof.
  intros Hos. destruct capacity as [|n] eqn:Hn; [lia|].
  destruct (establish_ok n ei er Hn) as (xi & xr & a & b & Ea & Eb & Eh & Hh). exists xi, xr, a, b. split_and!; [done..|].
  destruct (Hh (length os) ltac:(lia)) as [Hab Hba].
  destruct (run_agrees 0 (connected a b) empty os) as [Hb Ha].
  { split; [done|]. rewrite Nat.add_0_r. by intros []. }
  split; [done|]. intros s. destruct (Ha s) as [Hg Hf]. split; [done|].
  destruct (queue _ s); [by destruct Hf as [-> _]|]. destruct Hf as (out & ? & ? & -> & Hne & _). by destruct out.
Qed.

(** ** Hostile streams *)

(** What [l] accepts from a stream, read after read. *)
Fixpoint accepted (n : nat) (l : SealedLink) (s : bytes) : list bytes :=
  match n with
  | O => []
  | S n => match recv l s with Frame p l rest => p :: accepted n l rest | _ => [] end
  end.
(** The sealed strings those frames came in. *)
Fixpoint presented (n : nat) (l : SealedLink) (s : bytes) : list bytes :=
  match n with
  | O => []
  | S n =>
      match read_inner (noise l).2 s, recv l s with
      | Ok (inner, _, _), Frame _ l rest => inner :: presented n l rest
      | _, _ => []
      end
  end.
(** [q] as the [i]-th frame under the key [k]. *)
Definition sealed_as (k : bytes) (i : nat) (q : bytes) : bytes := aead_encrypt k (nonce (N.of_nat i)) q.
(** The cipher is not forged: every string of [cs] is one the owner of [k] sealed for the
    frames [qs], and none of those opens under another frame's nonce. *)
Definition unforged (k : bytes) (cs qs : list bytes) : Prop :=
  (∀ c, c ∈ cs → ∃ j q, qs !! j = Some q ∧ c = sealed_as k j q) ∧
  (∀ i j q, (i < length cs)%nat → qs !! j = Some q → i ≠ j → aead_decrypt k (nonce (N.of_nat i)) (sealed_as k j q) = None).

Lemma recv_Frame l s p l' rest : recv l s = Frame p l' rest → ∃ inner r, read_inner (noise l).2 s = Ok (inner, r, rest) ∧
  aead_decrypt (open_cipher (pq l)) (nonce (open_counter (pq l))) inner = Some p ∧
  open_cipher (pq l') = open_cipher (pq l) ∧ open_counter (pq l') = wadd (open_counter (pq l)) 1.
Proof.
  unfold recv. destruct (read_inner _ _) as [[[inner r] s2]|[]]; [|done..]. unfold pq_open.
  destruct (aead_decrypt _ _ _) eqn:E; [|done]. intros [= <- <- <-]. eauto 7.
Qed.
Lemma accepted_opens n m l s : open_counter (pq l) = N.of_nat m → N.of_nat (m + n) < 2 ^ 64 →
  Forall2 (λ '(i, c) p, aead_decrypt (open_cipher (pq l)) (nonce (N.of_nat i)) c = Some p)
    (imap (λ i c, ((m + i)%nat, c)) (presented n l s)) (accepted n l s).
Proof.
  revert m l s. induction n as [|n IH]; intros m l s Hm Hn; [constructor|]. cbn [presented accepted].
  destruct (recv l s) as [p l' rest| |] eqn:E; [|destruct (read_inner _ _) as [[[??]?]|]; constructor..].
  destruct (recv_Frame _ _ _ _ _ E) as (inner & r & -> & Hd & Hk & Hc). rewrite imap_cons. constructor.
  - by rewrite Nat.add_0_r, <- Hm.
  - rewrite Hm in Hc. unfold wadd in Hc. rewrite u64_wrap_small in Hc by lia.
    specialize (IH (S m) l' rest ltac:(lia) ltac:(lia)). rewrite Hk in IH.
    rewrite (imap_ext _ (λ i c, ((S m + i)%nat, c))); [exact IH|]. intros i c _. simpl. f_equal. lia.
Qed.
Lemma accepted_prefix n k l s qs : open_cipher (pq l) = k → open_counter (pq l) = 0 → N.of_nat n < 2 ^ 64 →
  unforged k (presented n l s) qs → accepted n l s `prefix_of` qs.
Proof.
  intros <- H0' Hn [Hf Hsep]. pose proof (accepted_opens n 0 l s H0' Hn) as Ho.
  assert (∀ i p, accepted n l s !! i = Some p → qs !! i = Some p) as Hi.
  { intros i p Hp. destruct (Forall2_lookup_r _ _ _ _ _ Ho Hp) as ([i' c] & Hc & Hd).
    rewrite list_lookup_imap in Hc. apply fmap_Some in Hc as (c' & Hc & [= -> ->]). simpl in Hd.
    destruct (Hf c') as (j & q & Hq & ->); [by eapply list_elem_of_lookup_2|].
    destruct (decide (i = j)) as [->|Hij]; [|rewrite Hsep in Hd; eauto using lookup_lt_Some; done].
    unfold sealed_as in Hd. rewrite decrypt_encrypt in Hd. congruence. }
  clear -Hi. revert qs Hi. induction (accepted n l s) as [|p ps IH]; intros qs Hi; [apply prefix_nil|].
  pose proof (Hi 0%nat p eq_refl) as Hq. destruct qs as [|q qs]; [done|]. injection Hq as ->.
  apply prefix_cons, IH. intros i x Hx. exact (Hi (S i) x Hx).
Qed.

(** ** One binding, one exchange *)

Lemma io_bind_inv {A B} (m : io A) (f : A → io B) st r : (m ≫= f) st = Ok r → ∃ a st', m st = Ok (a, st') ∧ f a st' = Ok r.
Proof. unfold mbind, io_bind. destruct (m st) as [[a st']|]; [|done]. eauto. Qed.
Lemma io_ok_inv {A} (o : option A) what st a st' : io_ok o what st = Ok (a, st') → o = Some a ∧ st' = st.
Proof. unfold io_ok. destruct o; [|done]. by intros [= -> ->]. Qed.

Ltac io_inv H := let a := fresh "a" in let st := fresh "st" in let E := fresh "E" in
  apply io_bind_inv in H as (a & st & E & H); try (apply io_ok_inv in E as [E ->]).
Lemma kem_initiator e ts st ts' ek ct s st' : kem_exchange e true ts st = Ok ((ts', (ek, ct, s)), st') →
  ∃ dk, kem_keygen e = Some (ek, dk) ∧ length ct = CT_LEN ∧ kem_decaps dk ct = Some s.
Proof.
  unfold kem_exchange. intros Hk. io_inv Hk. destruct a as [ek' dk]. io_inv Hk. io_inv Hk. destruct a0 as [ts2 ct'].
  destruct (Nat.eqb_spec (length ct') CT_LEN); cbn [negb] in Hk; [|done]. destruct (ct_valid ct'); cbn [negb] in Hk; [|done].
  io_inv Hk. injection Hk as <- <- <- <- <-. eauto.
Qed.
Lemma kem_responder e ts st ts' ek ct s st' : kem_exchange e false ts st = Ok ((ts', (ek, ct, s)), st') →
  length ek = EK_LEN ∧ kem_encaps ek e = Some (s, ct).
Proof.
  unfold kem_exchange. intros Hk. io_inv Hk. destruct a as [ts1 ek'].
  destruct (Nat.eqb_spec (length ek') EK_LEN); cbn [negb] in Hk; [|done]. destruct (ek_valid ek'); cbn [negb] in Hk; [|done].
  io_inv Hk. destruct a as [s' ct']. io_inv Hk. injection Hk as <- <- <- <- <-. eauto.
Qed.
Lemma binding_preimage_inj h ek ct h' ek' ct' : length ek = length ek' → length ct = length ct' →
  binding_preimage h ek ct = binding_preimage h' ek' ct' → h = h' ∧ ek = ek' ∧ ct = ct'.
Proof.
  unfold binding_preimage. intros Le Lc E. apply app_inv_head in E.
  assert (length h = length h') as Lh.
  { apply (f_equal length) in E. rewrite !length_app, !length_to_be in E. lia. }
  apply app_inj_1 in E as [_ E]; [|by rewrite !length_to_be]. apply app_inj_1 in E as [-> E]; [|done].
  by apply app_inj_1 in E as [-> ->].
Qed.
Lemma pq_handshake_inv e ts init h st ts' ch bd st' : pq_handshake e ts init h st = Ok ((ts', (ch, bd)), st') →
  ∃ ek ct s, kem_exchange e init ts st = Ok ((ts', (ek, ct, s)), st') ∧ ch = pq_new h s init ∧ bd = channel_binding h ek ct.
Proof.
  unfold pq_handshake. intros Hp. io_inv Hp. destruct a as [ts1 [[ek ct] s]]. injection Hp as -> <- <- ->. eauto 6.
Qed.

(** C21: whatever an attacker in the middle put into the two streams: when both ends complete
    the key exchange and compute the same binding (which the signed [Hello] carries), then
    they saw one Noise hash, each end's sealing key is the other's opening key, and every
    sequence of frames either accepts afterwards, from any bytes, is an initial segment of
    what the other sealed, in order, none repeated, unless the cipher is forged or the two
    strings hashed collide. *)
Theorem binding_authenticates ei er tsi tsr hi hr sti str tsi' tsr' chi chr bi br sti' str' :
  pq_handshake ei tsi true hi sti = Ok ((tsi', (chi, bi)), sti') →
  pq_handshake er tsr false hr str = Ok ((tsr', (chr, br)), str') →
  (∀ ek ct s ek' ct' s', kem_exchange ei true tsi sti = Ok ((tsi', (ek, ct, s)), sti') →
     kem_exchange er false tsr str = Ok ((tsr', (ek', ct', s')), str') →
     digest (binding_preimage hi ek ct) = digest (binding_preimage hr ek' ct') →
     binding_preimage hi ek ct = binding_preimage hr ek' ct') →
  bi = br →
  hi = hr ∧ seal_cipher chi = open_cipher chr ∧ seal_cipher chr = open_cipher chi ∧
  ∀ n l s qs, N.of_nat n < 2 ^ 64 →
    (pq l = chr → unforged (seal_cipher chi) (presented n l s) qs → accepted n l s `prefix_of` qs) ∧
    (pq l = chi → unforged (seal_cipher chr) (presented n l s) qs → accepted n l s `prefix_of` qs).
Proof.
  intros Hi Hr Hcoll Hb. destruct (pq_handshake_inv _ _ _ _ _ _ _ _ _ Hi) as (ek & ct & s & Ki & -> & ->).
  destruct (pq_handshake_inv _ _ _ _ _ _ _ _ _ Hr) as (ek' & ct' & s' & Kr & -> & ->).
  destruct (kem_initiator _ _ _ _ _ _ _ _ Ki) as (dk & Hk & Lct & Hd).
  destruct (kem_responder _ _ _ _ _ _ _ _ Kr) as [Lek He].
  destruct (keygen_valid _ _ _ Hk) as [Lek' _]. destruct (encaps_valid _ _ _ _ He) as [Lct' _].
  apply as_bytes_inj in Hb. pose proof (Hcoll _ _ _ _ _ _ Ki Kr Hb) as E.
  destruct (binding_preimage_inj _ _ _ _ _ _ (eq_trans Lek' (eq_sym Lek)) (eq_trans Lct (eq_sym Lct')) E) as (<- & <- & <-).
  rewrite (decaps_encaps _ _ _ _ _ _ Hk He) in Hd. injection Hd as ->. split_and!; [done..|].
  intros n l x qs Hn. split; intros El Hu; (eapply accepted_prefix; [| |done|exact Hu]; by rewrite El).
Qed.
End spec.
End LinkSpec.
