(* ===== verification/LinkExamples.v ===== *)
(** * The sealed link at work

    A cipher that appends its nonce, a KEM that sends its secret in the clear and a
    handshake of three one-byte messages: enough to satisfy the laws the link relies on,
    and to run the handshake and the frames. *)

From S2P Require Import Prelude Primitives Crypto Types Gas Block Network Link LinkSpec.
#[local] Open Scope N_scope.

Module LinkRun.
Import Link LinkSpec.
#[local] Existing Instance Toy.blake3.

(** Sixteen bytes of [n]. *)
Definition tag (n : bytes) : bytes := take 16 (n ++ replicate 16 0).
Definition untag (n c : bytes) : option bytes :=
  let p := take (length c - 16) c in if decide (c = p ++ tag n) then Some p else None.
Lemma length_tag n : length (tag n) = 16%nat.
Proof. unfold tag. rewrite length_take, length_app, length_replicate. lia. Qed.
Lemma untag_app n p : untag n (p ++ tag n) = Some p.
Proof.
  unfold untag. rewrite length_app, length_tag. replace (length p + 16 - 16)%nat with (length p) by lia.
  rewrite take_app_length. by rewrite decide_True.
Qed.
Lemma untag_exact n c p : untag n c = Some p → c = p ++ tag n.
Proof. unfold untag. case_decide as E; [|done]. by intros [= <-]. Qed.

#[export] Instance aead : Aead := {| aead_encrypt _ n p := p ++ tag n; aead_decrypt _ n c := untag n c |}.
#[export] Instance aead_laws : AeadLaws.
Proof. split; simpl; intros; [apply untag_app|by apply untag_exact|by rewrite length_app, length_tag]. Qed.

Definition pad (n : nat) (l : bytes) : bytes := take n (l ++ replicate n 0).
Lemma length_pad n l : length (pad n l) = n.
Proof. unfold pad. rewrite length_take, length_app, length_replicate. lia. Qed.
#[export] Instance kem : Kem := {|
  kem_keygen seed := Some (pad EK_LEN seed, []); ek_valid ek := (length ek =? EK_LEN)%nat;
  kem_encaps _ seed := Some (take 32 (pad CT_LEN seed), pad CT_LEN seed); ct_valid ct := (length ct =? CT_LEN)%nat;
  kem_decaps _ ct := Some (take 32 ct) |}.
#[export] Instance kem_laws : KemLaws.
Proof.
  split; cbn [kem kem_keygen kem_encaps kem_decaps ek_valid ct_valid].
  - by eexists.
  - intros seed ek dk [= <- _]. rewrite length_pad. by rewrite Nat.eqb_refl.
  - by eexists.
  - intros ek seed s ct [= _ <-]. rewrite length_pad. by rewrite Nat.eqb_refl.
  - by intros seed ek dk seed' s ct _ [= <- <-].
Qed.

#[export] Instance snow : Noise := {|
  HandshakeState := N; CipherState := N; noise_build _ _ := Some 0; hs_write h := Some (h + 1, [h + 1]);
  hs_read h _ := Some (h + 1); hs_hash _ := [1; 2; 3]; hs_split _ := Some (0, 0);
  cs_encrypt n p := Some (n + 1, p ++ tag (to_le 8 n));
  cs_decrypt n c := p ← untag (to_le 8 n) c; Some (n + 1, p) |}.
#[export] Instance snow_laws : NoiseLaws.
Proof.
  refine {| paired _ s r := s = r :> N; capacity := 1000 |}; cbn [snow cs_encrypt cs_decrypt CipherState].
  - done.
  - intros n s r p -> _. eexists _, _, _. split; [done|]. split; [unfold len; rewrite length_app, length_tag; unfold NOISE_TAG; lia|].
    by rewrite untag_app.
  - intros ei er. eexists _, _, _, _, _, _, _, _, _, _, _, _, _, _, _. split_and!; try reflexivity.
    repeat (apply Forall_cons; split; [split; vm_compute; done|]). constructor.
Defined.

(** Both directions at once, with a read before anything has arrived. *)
Definition traffic : list op :=
  [Recv Responder; Send Initiator [1; 2]; Send Responder [7]; Send Initiator [3]; Recv Responder; Recv Initiator; Recv Responder].
Lemma link_refines_queues_witness : ∃ xi xr a b,
  establish ([5], [6]) true (xr, []) = Ok (a, ([], xi)) ∧ establish ([8], [9]) false (xi, []) = Ok (b, ([], xr)) ∧
  got (foldl exec (connected a b) traffic) Responder = [[1; 2]; [3]] ∧
  got (foldl exec (connected a b) traffic) Initiator = [[7]].
Proof.
  destruct (link_refines_queues ([5], [6]) ([8], [9]) traffic) as (xi & xr & a & b & Ei & Er & _ & _ & Hg).
  { apply Nat.ltb_lt. vm_compute. reflexivity. }
  exists xi, xr, a, b. split; [exact Ei|]. split; [exact Er|].
  split; [rewrite (proj1 (Hg Responder))|rewrite (proj1 (Hg Initiator))]; vm_compute; reflexivity.
Defined.

(** An exchange over honest streams, and a frame replayed behind two good ones. *)
Definition EK : bytes := pad EK_LEN [6].
Definition CT : bytes := pad CT_LEN [9].
Definition wire (m : bytes) : bytes := raw (m ++ tag (to_le 8 0)).
Definition hash : bytes := [1; 2; 3].
Definition chI : PqChannel := pq_new hash (take 32 CT) true.
Definition chR : PqChannel := pq_new hash (take 32 CT) false.
Definition key : bytes := seal_cipher chI.
Definition frame (n i : N) (p : bytes) : bytes :=
  let inner := p ++ tag (nonce i) in let c := inner ++ tag (to_le 8 n) in to_be 4 (len inner) ++ to_be 2 (len c) ++ c.
Definition hostile : bytes := frame 0 0 [4] ++ frame 1 1 [5; 5] ++ frame 2 0 [4].
Definition reader : SealedLink := mkLink (0, 0) chR (channel_binding hash EK CT).
Lemma exchanged_i : kem_exchange [6] true (0, 0) (wire CT, []) = Ok ((1, 1), (EK, CT, take 32 CT), ([], wire EK)).
Proof. vm_compute. reflexivity. Qed.
Lemma exchanged_r : kem_exchange [9] false (0, 0) (wire EK, []) = Ok ((1, 1), (EK, CT, take 32 CT), ([], wire CT)).
Proof. vm_compute. reflexivity. Qed.
Lemma heard : presented 3 reader hostile = [sealed_as key 0 [4]; sealed_as key 1 [5; 5]].
Proof. vm_compute. reflexivity. Qed.
Lemma not_forged : unforged key (presented 3 reader hostile) [[4]; [5; 5]; [6]].
Proof.
  rewrite heard. split.
  - intros c Hc. rewrite !elem_of_cons in Hc. destruct Hc as [->|[->|Hc]];
      [exists 0%nat; eauto|exists 1%nat; eauto|by apply not_elem_of_nil in Hc].
  - intros [|[|i]] [|[|[|j]]] q Hi Hq Hij; simpl in Hi, Hq; simplify_eq; try lia; vm_compute; reflexivity.
Qed.
Lemma binding_authenticates_witness : accepted 3 reader hostile `prefix_of` [[4]; [5; 5]; [6]] ∧
  accepted 3 reader hostile = [[4]; [5; 5]].
Proof.
  split; [|vm_compute; reflexivity].
  destruct (binding_authenticates (H2 := snow) [6] [9] (0, 0) (0, 0) hash hash (wire CT, []) (wire EK, []) (1, 1) (1, 1) chI chR
    (channel_binding hash EK CT) (channel_binding hash EK CT) ([], wire EK) ([], wire CT)) as (_ & _ & _ & Ha).
  - unfold pq_handshake. by rewrite (io_bind_Ok _ _ _ _ _ exchanged_i).
  - unfold pq_handshake. by rewrite (io_bind_Ok _ _ _ _ _ exchanged_r).
  - intros ek ct s ek' ct' s' Ei Er _. rewrite exchanged_i in Ei. rewrite exchanged_r in Er. congruence.
  - reflexivity.
  - destruct (Ha 3%nat reader hostile [[4]; [5; 5]; [6]]) as [Hr _]; [reflexivity|]. exact (Hr eq_refl not_forged).
Defined.
End LinkRun.
