(* ===== verification/Transport.v ===== *)
(** * The transport's state (crates/network/src/tcp.rs)

    What the threads of a [TcpNode] share: connections, the inbox, the address book, the
    dialer's queue and its backoff, the scores and bans of addresses.  One definition per
    operation; where the source takes a lock, tests and updates, that is one definition
    too.  Times are nanoseconds of a monotonic clock.  [f64] is IEEE binary64 as
    [SpecFloat] defines it; the exponential of [powf] is a parameter, its precision being
    unspecified.  The channel under a connection is [Link]. *)

From Stdlib Require Import SpecFloat.
From S2P Require Import Prelude Primitives Crypto Types Gas Block Network.
#[local] Open Scope N_scope.

Module Tcp.
Import Net.

(** ** Floating point *)

Definition f64 : Type := spec_float.
Definition f64_of (n : N) : f64 := binary_normalize 53 1024 (Z.of_N n) 0 false.
Definition f64_add : f64 → f64 → f64 := SFadd 53 1024.
Definition f64_sub : f64 → f64 → f64 := SFsub 53 1024.
Definition f64_mul : f64 → f64 → f64 := SFmul 53 1024.
Definition f64_div : f64 → f64 → f64 := SFdiv 53 1024.
Definition f64_le : f64 → f64 → bool := SFleb.
Definition f64_lt : f64 → f64 → bool := SFltb.
Definition f64_is_nan (x : f64) : bool := match x with S754_nan => true | _ => false end.
(** [f64::min]: the other one, where one is not a number. *)
Definition f64_min (x y : f64) : f64 :=
  if f64_is_nan x then y else if f64_is_nan y then x else if f64_lt y x then y else x.
(** [Duration::as_secs_f64] *)
Definition as_secs_f64 (ns : N) : f64 :=
  f64_add (f64_of (ns / 10 ^ 9)) (f64_div (f64_of (ns mod 10 ^ 9)) (f64_of (10 ^ 9))).

(** ** Constants *)

Definition secs (n : N) : N := n * 10 ^ 9.
Definition MAX_FRAME : N := 8 * 1024 * 1024.
Definition DIAL_BACKOFF_BASE : N := secs 5.
Definition DIAL_BACKOFF_MAX : N := secs 300.
Definition DIAL_DEAD_THRESHOLD : N := 5.
Definition MAX_INBOUND_PEERS : nat := 64.
Definition MAX_INBOUND_PER_IP : nat := 8.
Definition MAX_INBOUND_PER_GROUP : nat := 16.
Definition MSG_RATE_PER_SEC : f64 := f64_of 1000.
Definition MSG_BURST : f64 := f64_of 1500.
Definition MISBEHAVIOR_HALFLIFE_SECS : f64 := f64_of 30.
Definition MISBEHAVIOR_BAN : f64 := f64_of 100.
Definition RATE_VIOLATION_PENALTY : f64 := f64_of 12.
Definition MALFORMED_FRAME_PENALTY : f64 := f64_of 25.
Definition BAN_DURATION : N := secs 300.
Definition MAX_PEERS_PER_MSG : nat := 128.
Definition MAX_KNOWN_PEERS : nat := 4096.
Definition MAX_PEERS_REDIAL_ON_LOAD : nat := 32.
Definition MAX_INBOX : nat := 1024.
Definition MAX_INBOX_BYTES : N := 64 * 1024 * 1024.
Definition LAN_DISCO_TAG : string := "sov-disco1".

(** ** Addresses: four or sixteen octets, and a port *)

Definition IpAddr : Type := bytes.
Definition SocketAddr : Type := IpAddr * N.
Definition is_loopback (ip : IpAddr) : bool :=
  match ip with
  | [a; _; _; _] => a =? 127
  | _ => bool_decide (ip = replicate 15 0 ++ [1])
  end.
(** [Ipv4Addr::is_private] and [is_link_local]. *)
Definition is_private (ip : IpAddr) : bool :=
  match ip with
  | [a; b; _; _] => (a =? 10) || (a =? 172) && (16 <=? b) && (b <=? 31) || (a =? 192) && (b =? 168)
  | _ => false
  end.
Definition is_link_local (ip : IpAddr) : bool :=
  match ip with [a; b; _; _] => (a =? 169) && (b =? 254) | _ => false end.
Definition net_group (ip : IpAddr) : bytes :=
  match ip with [a; b; _; _] => [a; b] | _ => take 4 ip end.
Definition is_local (ip : IpAddr) : bool := is_loopback ip || is_private ip || is_link_local ip.

(** ** State *)

Record Inbox := mkInbox { queue : list (SocketAddr * NetMessage * N); queued_bytes : N }.
Record PeerScore := mkScore { tokens : f64; misbehavior : f64; updated : N; banned_until : option N }.
(** The channel binding of a connection and whether the application authenticated it. *)
Record Peer := mkPeer { binding : bytes; authenticated : bool }.
Record Shared := mkShared {
  local_addr : SocketAddr;
  peers : gmap SocketAddr Peer;
  inbox : Inbox;
  known : gset SocketAddr;
  dialing : gset SocketAddr;
  inbound : gset SocketAddr;
  scores : gmap IpAddr PeerScore;
  protected : gset IpAddr;
  (** the channel to the dial thread *)
  dials : list SocketAddr;
  shut : bool;
  (** the lines of [peers.dat], where persistence is enabled *)
  peers_file : option (list string);
  dial_backoff : gmap SocketAddr (N * N);
  self_addrs : gset SocketAddr;
  incompatible : gset SocketAddr }.
Definition Inbox_default : Inbox := mkInbox [] 0.
(** The state of [TcpNode::bind]. *)
Definition bind (local : SocketAddr) : Shared :=
  mkShared local ∅ Inbox_default ∅ ∅ ∅ ∅ {[ [127; 0; 0; 1]; replicate 15 0 ++ [1] ]} [] false None ∅ ∅ ∅.

(** *** The inbox *)

(** The eviction loop of [push]. *)
Fixpoint evict (q : list (SocketAddr * NetMessage * N)) (bytes cost : N) : list (SocketAddr * NetMessage * N) * N :=
  match q with
  | [] => ([], bytes)
  | e :: q' =>
      if bool_decide (MAX_INBOX ≤ length q)%nat || (MAX_INBOX_BYTES <? bytes + cost)
      then evict q' (saturating_sub bytes e.2) cost else (q, bytes)
  end.
Definition push (i : Inbox) (key : SocketAddr) (m : NetMessage) (wire_bytes : N) : Inbox :=
  let cost := N.min wire_bytes MAX_FRAME in
  let '(q, b) := evict (queue i) (queued_bytes i) cost in
  mkInbox (q ++ [(key, m, cost)]) (saturating_add u64_max b cost).
Definition drain_all (i : Inbox) : Inbox * list (SocketAddr * NetMessage) := (mkInbox [] 0, fst <$> queue i).

(** *** Scores and bans *)

Definition fresh (now : N) : PeerScore := mkScore MSG_BURST (f64_of 0) now None.

Section transport.
Context (powf : f64 → f64 → f64) (parse : string → option SocketAddr) (show : SocketAddr → string)
  (walk : gset SocketAddr → list SocketAddr).

Definition age (s : PeerScore) (now : N) : PeerScore :=
  let dt := as_secs_f64 (saturating_sub now (updated s)) in
  if f64_le dt (f64_of 0) then s else
  mkScore (f64_min (f64_add (tokens s) (f64_mul dt MSG_RATE_PER_SEC)) MSG_BURST)
    (f64_mul (misbehavior s) (powf (f64_div (f64_of 1) (f64_of 2)) (f64_div dt MISBEHAVIOR_HALFLIFE_SECS)))
    now (banned_until s).
(** Whether the address is banned; an expired ban is cleared. *)
Definition is_banned (s : Shared) (ip : IpAddr) (now : N) : bool * Shared :=
  if decide (ip ∈ protected s) then (false, s) else
  match scores s !! ip with
  | Some sc =>
      match banned_until sc with
      | Some until =>
          if now <? until then (true, s)
          else (false, {| s with scores := <[ip := mkScore (tokens sc) (misbehavior sc) (updated sc) None]> (scores s) |})
      | None => (false, s)
      end
  | None => (false, s)
  end.
(** [true] while the address remains in good standing. *)
Definition penalize_inner (s : Shared) (ip : IpAddr) (now : N) (adjust : PeerScore → PeerScore) : bool * Shared :=
  let exempt := bool_decide (ip ∈ protected s) in
  let sc := adjust (age (default (fresh now) (scores s !! ip)) now) in
  if f64_le MISBEHAVIOR_BAN (misbehavior sc) && negb exempt then
    (false, {| s with scores := <[ip := mkScore (tokens sc) (f64_of 0) (updated sc) (Some (now + BAN_DURATION))]> (scores s) |})
  else (true, {| s with scores := <[ip := sc]> (scores s) |}).
Definition note_message (s : Shared) (ip : IpAddr) (now : N) : bool * Shared :=
  penalize_inner s ip now (λ sc,
    if f64_le (f64_of 1) (tokens sc)
    then mkScore (f64_sub (tokens sc) (f64_of 1)) (misbehavior sc) (updated sc) (banned_until sc)
    else mkScore (tokens sc) (f64_add (misbehavior sc) RATE_VIOLATION_PENALTY) (updated sc) (banned_until sc)).
(** Whether the address is now banned. *)
Definition penalize (s : Shared) (ip : IpAddr) (now : N) (penalty : f64) : bool * Shared :=
  let '(good, s) := penalize_inner s ip now (λ sc,
    mkScore (tokens sc) (f64_add (misbehavior sc) penalty) (updated sc) (banned_until sc)) in
  (negb good, s).

(** *** Admission *)

Definition count_where (P : SocketAddr → bool) (X : gset SocketAddr) : nat := size (filter (λ a, P a = true) X).
Definition admit_inbound (inb : gset SocketAddr) (candidate : IpAddr) : bool :=
  if bool_decide (MAX_INBOUND_PEERS ≤ size inb)%nat then false else
  if is_local candidate then true else
  if bool_decide (MAX_INBOUND_PER_IP ≤ count_where (λ a, bool_decide (a.1 = candidate)) inb)%nat then false else
  bool_decide (count_where (λ a, bool_decide (net_group a.1 = net_group candidate)) inb < MAX_INBOUND_PER_GROUP)%nat.
(** The gate of [setup_connection]; an outbound connection passes. *)
Definition setup_begin (s : Shared) (key : SocketAddr) (initiator : bool) (now : N) : bool * Shared :=
  if initiator then (true, s) else
  let '(banned, s) := is_banned s key.1 now in
  if (banned : bool) then (false, s) else
  if admit_inbound (inbound s) key.1 then (true, {| s with inbound := {[ key ]} ∪ inbound s |}) else (false, s).
(** The handshake fails; the connection is up; its reader has returned. *)
Definition setup_failed (s : Shared) (key : SocketAddr) : Shared :=
  {| s with dialing := dialing s ∖ {[ key ]}; inbound := inbound s ∖ {[ key ]} |}.
Definition setup_up (s : Shared) (key : SocketAddr) (handshake_hash : bytes) : Shared :=
  {| s with peers := <[key := mkPeer handshake_hash false]> (peers s); dialing := dialing s ∖ {[ key ]} |}.
Definition reader_done (s : Shared) (key : SocketAddr) : Shared :=
  {| s with peers := delete key (peers s); inbound := inbound s ∖ {[ key ]} |}.

(** *** Dialing *)

Definition addr_is_dead (s : Shared) (addr : SocketAddr) : bool :=
  match dial_backoff s !! addr with Some (fails, _) => DIAL_DEAD_THRESHOLD <=? fails | None => false end.
Definition has_ip (ip : IpAddr) (X : gset SocketAddr) : bool := existsb (λ a, bool_decide (a.1 = ip)) (elements X).
Definition dial_would_duplicate (s : Shared) (addr : SocketAddr) : bool :=
  if decide (is_Some (peers s !! addr)) then true else
  if is_loopback addr.1 then false else
  if has_ip addr.1 (dom (peers s)) then true else has_ip addr.1 (inbound s).
Definition in_backoff (s : Shared) (addr : SocketAddr) (now : N) : bool :=
  match dial_backoff s !! addr with Some (_, next) => now <? next | None => false end.
(** The guards of [attempt_dial], up to the claim of the in-flight slot. *)
Definition dial_claim (s : Shared) (addr : SocketAddr) (now : N) : bool * Shared :=
  if decide (addr = local_addr s) then (false, s) else
  if decide (addr ∈ self_addrs s) then (false, s) else
  if decide (addr ∈ incompatible s) then (false, s) else
  let '(banned, s) := is_banned s addr.1 now in
  if (banned : bool) then (false, s) else
  if dial_would_duplicate s addr then (false, s) else
  if in_backoff s addr now then (false, s) else
  if decide (addr ∈ dialing s) then (false, s) else
  (true, {| s with dialing := {[ addr ]} ∪ dialing s; known := {[ addr ]} ∪ known s |}).
(** The wait after the [fails]-th failure in a row. *)
Definition backoff_delay (fails : N) : N :=
  N.min (DIAL_BACKOFF_BASE * 2 ^ N.min (fails - 1) 6) DIAL_BACKOFF_MAX.
(** How [connect_timeout] ends: connected, or failed at a time. *)
Definition dial_done (s : Shared) (addr : SocketAddr) (failed : option N) : Shared :=
  match failed with
  | None => {| s with dial_backoff := delete addr (dial_backoff s) |}
  | Some later =>
      let fails := saturating_add u32_max (default 0 (fst <$> dial_backoff s !! addr)) 1 in
      {| s with dialing := dialing s ∖ {[ addr ]}; known := known s ∖ {[ addr ]};
                dial_backoff := <[addr := (fails, later + backoff_delay fails)]> (dial_backoff s) |}
  end.
(** Whether a connection was attempted. *)
Definition attempt_dial (s : Shared) (addr : SocketAddr) (now : N) (failed : option N) : bool * Shared :=
  let '(go, s) := dial_claim s addr now in
  if (go : bool) then (true, dial_done s addr failed) else (false, s).

(** *** Discovery *)

Definition discovery_addresses (s : Shared) : list string :=
  show (local_addr s) :: (show <$> take (MAX_PEERS_PER_MSG - 1) (filter (λ a, addr_is_dead s a = false) (walk (known s)))).
(** The loop over the addresses of a [Peers] message. *)
Fixpoint learn (s : Shared) (addrs : list string) : Shared :=
  match addrs with
  | [] => s
  | text :: rest =>
      match parse text with
      | None => learn s rest
      | Some sa =>
          if decide (sa = local_addr s) then learn s rest else
          if is_private sa.1 || is_link_local sa.1 then learn s rest else
          if addr_is_dead s sa then learn s rest else
          if bool_decide (MAX_KNOWN_PEERS ≤ size (known s))%nat then s else
          let unseen := bool_decide (sa ∉ known s) in
          let s := {| s with known := {[ sa ]} ∪ known s |} in
          let s := if unseen && negb (dial_would_duplicate s sa) then {| s with dials := dials s ++ [sa] |} else s in
          learn s rest
      end
  end.

(** *** The reader *)

(** One turn of [reader_loop] on a message: whether it goes on, the state and a message
    written back.  [auth] is the flag of this connection. *)
Definition on_message (s : Shared) (key : SocketAddr) (auth : bool) (m : NetMessage) (wire_bytes now : N) :
    bool * Shared * option NetMessage :=
  let '(good, s) := note_message s key.1 now in
  if negb good then (false, s, None) else
  match m with
  | Peers addrs =>
      if negb auth then (true, s, None) else
      let s := if bool_decide (MAX_PEERS_PER_MSG < length addrs)%nat
               then (penalize s key.1 now MALFORMED_FRAME_PENALTY).2 else s in
      (true, learn s (take MAX_PEERS_PER_MSG addrs), None)
  | GetAddr => if negb auth then (true, s, None) else (true, s, Some (Peers (discovery_addresses s)))
  | m => (true, {| s with inbox := push (inbox s) key m wire_bytes |}, None)
  end.
(** A malformed frame is charged and ends the loop. *)
Definition on_malformed (s : Shared) (key : SocketAddr) (now : N) : Shared :=
  (penalize s key.1 now MALFORMED_FRAME_PENALTY).2.

(** *** The node's methods *)

Definition disconnect (s : Shared) (peer : SocketAddr) : Shared := {| s with peers := delete peer (peers s) |}.
Definition disconnect_ip (s : Shared) (ip : IpAddr) : Shared :=
  {| s with peers := filter (λ e, e.1.1 ≠ ip) (peers s) |}.
(** [write peer m]: whether the frame was written. *)
Definition send (write : SocketAddr → NetMessage → bool) (s : Shared) (peer : SocketAddr) (m : NetMessage) : bool * Shared :=
  if decide (is_Some (peers s !! peer)) then
    if write peer m then (true, s) else (false, disconnect s peer)
  else (false, s).
(** To every connection there was at the start; how many writes succeeded. *)
Definition broadcast (write : SocketAddr → NetMessage → bool) (s : Shared) (m : NetMessage) : nat * Shared :=
  foldl (λ '(sent, s) peer, if write peer m then (S sent, s) else (sent, disconnect s peer))
    (0%nat, s) (elements (dom (peers s))).
Definition drain (s : Shared) : list (SocketAddr * NetMessage) * Shared :=
  let '(i, ms) := drain_all (inbox s) in (ms, {| s with inbox := i |}).
Definition protect_ip (s : Shared) (ip : IpAddr) : Shared :=
  {| s with protected := {[ ip ]} ∪ protected s;
            scores := alter (λ sc, mkScore (tokens sc) (f64_of 0) (updated sc) None) ip (scores s) |}.
(** [targets]: what the host resolves to. *)
Definition protect_host (s : Shared) (targets : list SocketAddr) : Shared := foldl (λ s a, protect_ip s a.1) s targets.
Definition penalize_peer (s : Shared) (peer : SocketAddr) (now : N) (points : f64) : bool * Shared :=
  let '(banned, s) := penalize s peer.1 now points in
  (banned, if (banned : bool) then disconnect_ip s peer.1 else s).
Definition mark_self_addr (s : Shared) (addr : SocketAddr) : Shared :=
  {| s with self_addrs := {[ addr ]} ∪ self_addrs s; known := known s ∖ {[ addr ]} |}.
Definition mark_incompatible (s : Shared) (addr : SocketAddr) : Shared :=
  disconnect {| s with incompatible := {[ addr ]} ∪ incompatible s; known := known s ∖ {[ addr ]};
                       dialing := dialing s ∖ {[ addr ]} |} addr.
(** The first time only; the two messages are the request and the announcement. *)
Definition mark_authenticated (write : SocketAddr → NetMessage → bool) (s : Shared) (addr : SocketAddr) : Shared :=
  match peers s !! addr with
  | Some p =>
      if authenticated p then s else
      let s := {| s with peers := <[addr := mkPeer (binding p) true]> (peers s) |} in
      if write addr GetAddr && write addr (Peers (discovery_addresses s)) then s else disconnect s addr
  | None => s
  end.
Definition peer_handshake_hash (s : Shared) (peer : SocketAddr) : option bytes := binding <$> peers s !! peer.
Definition request_reconnect (s : Shared) (targets : list SocketAddr) : Shared := {| s with dials := dials s ++ targets |}.
(** [connect]: the targets in turn until one does not fail; [failed] per target. *)
Fixpoint connect (s : Shared) (targets : list (SocketAddr * N * option N)) : bool * Shared :=
  match targets with
  | [] => (false, s)
  | (addr, now, failed) :: rest =>
      let '(tried, s) := attempt_dial s addr now failed in
      match failed with Some _ => if (tried : bool) then connect s rest else (true, s) | None => (true, s) end
  end.
Definition shutdown (s : Shared) : Shared := {| s with shut := true |}.
(** A turn of the dial thread. *)
Definition dial_next (s : Shared) (now : N) (failed : option N) : bool * Shared :=
  match dials s with
  | [] => (false, s)
  | addr :: rest => attempt_dial {| s with dials := rest |} addr now failed
  end.

(** *** The address book on disk *)

Definition persist_peers (s : Shared) : Shared :=
  match peers_file s with
  | None => s
  | Some _ => {| s with peers_file := Some (show <$> take MAX_KNOWN_PEERS (filter (λ a, addr_is_dead s a = false) (walk (known s)))) |}
  end.
(** Loading: [redialed] so far. *)
Fixpoint load_book (s : Shared) (redialed : nat) (lines : list string) : Shared :=
  match lines with
  | [] => s
  | line :: lines =>
      match parse line with
      | None => load_book s redialed lines
      | Some addr =>
          if decide (addr = local_addr s) then load_book s redialed lines else
          if bool_decide (MAX_KNOWN_PEERS ≤ size (known s))%nat then load_book s redialed lines else
          if decide (addr ∈ known s) then load_book s redialed lines else
          let s := {| s with known := {[ addr ]} ∪ known s |} in
          if bool_decide (redialed < MAX_PEERS_REDIAL_ON_LOAD)%nat && negb (dial_would_duplicate s addr)
          then load_book {| s with dials := dials s ++ [addr] |} (S redialed) lines
          else load_book s redialed lines
      end
  end.
Definition enable_persistence (s : Shared) (contents : option (list string)) : Shared :=
  let s := match contents with Some lines => load_book s 0 lines | None => s end in
  {| s with peers_file := Some (default [] contents) |}.

(** *** LAN discovery *)

(** A beacon whose text names this chain and another node's nonce: dial its sender. *)
Definition on_beacon (s : Shared) (addr : option SocketAddr) : Shared :=
  match addr with
  | Some addr => if dial_would_duplicate s addr then s else {| s with dials := dials s ++ [addr] |}
  | None => s
  end.
End transport.

(** [str::split] on one character. *)
Fixpoint split_on (c : N) (cur l : bytes) : list bytes :=
  match l with
  | [] => [cur]
  | x :: l => if x =? c then cur :: split_on c [] l else split_on c (cur ++ [x]) l
  end.
Definition bar : N := 124.
(** Digits with their value; [None] on any other character and above [max]. *)
Fixpoint digits (max acc : N) (l : bytes) : option N :=
  match l with
  | [] => Some acc
  | x :: l => if (48 <=? x) && (x <=? 57) && (acc * 10 + (x - 48) <=? max) then digits max (acc * 10 + (x - 48)) l else None
  end.
(** [str::parse] of an unsigned integer: a plus sign may lead. *)
Definition parse_uint (max : N) (l : bytes) : option N :=
  match l with
  | [] => None
  | [43] => None
  | 43 :: l => digits max 0 l
  | l => digits max 0 l
  end.
(** [str::from_utf8]: the well-formed sequences of RFC 3629. *)
Definition cont (b : N) : bool := (128 <=? b) && (b <=? 191).
Definition three_ok (a b : N) : bool :=
  (a =? 224) && (160 <=? b) && (b <=? 191) || (225 <=? a) && (a <=? 236) && cont b
  || (a =? 237) && (128 <=? b) && (b <=? 159) || (238 <=? a) && (a <=? 239) && cont b.
Definition four_ok (a b : N) : bool :=
  (a =? 240) && (144 <=? b) && (b <=? 191) || (241 <=? a) && (a <=? 243) && cont b || (a =? 244) && (128 <=? b) && (b <=? 143).
Fixpoint utf8 (l : bytes) : bool :=
  match l with
  | [] => true
  | a :: r =>
      if a <? 128 then utf8 r else
      match r with
      | [] => false
      | b :: r1 =>
          if (194 <=? a) && (a <=? 223) && cont b then utf8 r1 else
          match r1 with
          | [] => false
          | c :: r2 =>
              if three_ok a b && cont c then utf8 r2 else
              match r2 with [] => false | d :: r3 => if four_ok a b && cont c && cont d then utf8 r3 else false end
          end
      end
  end.
Definition parse_beacon (data : bytes) (our_chain_id : bytes) (our_nonce : N) (src : IpAddr) :
    option SocketAddr :=
  if negb (utf8 data) then None else
  match split_on bar [] data with
  | tag :: chain :: port :: nonce :: _ =>
      if negb (bool_decide (tag = string_bytes LAN_DISCO_TAG)) then None else
      if negb (bool_decide (chain = our_chain_id)) then None else
      port ← parse_uint u16_max port;
      nonce ← parse_uint u64_max nonce;
      if nonce =? our_nonce then None else Some (src, port)
  | _ => None
  end.
End Tcp.
