(* ===== verification/TransportSpec.v ===== *)
(** * What the transport keeps to

    Whatever connections, messages and failures come in whatever order: the caps on
    inbound connections that stand in the way of an eclipse, the bounds of the inbox, what
    gossip can and cannot add to the address book, and how long a ban lasts. *)

From S2P Require Import Prelude Primitives Crypto Types Gas Block Network Transport.
#[local] Open Scope N_scope.

Module TcpSpec.
Import Net Tcp.

(** ** The inbox *)

Definition cost_of (q : list (SocketAddr * NetMessage * N)) : N := foldr (λ e n, e.2 + n) 0 q.
Record inbox_ok (i : Inbox) : Prop := {
  io_count : (length (queue i) ≤ MAX_INBOX)%nat;
  io_bytes : queued_bytes i = cost_of (queue i);
  io_limit : queued_bytes i <= MAX_INBOX_BYTES }.
Lemma evict_spec q cost : ∃ k, evict q (cost_of q) cost = (drop k q, cost_of (drop k q)) ∧
  (drop k q = [] ∨ (length (drop k q) < MAX_INBOX)%nat ∧ cost_of (drop k q) + cost <= MAX_INBOX_BYTES) ∧
  (∀ j, (j < k)%nat → (MAX_INBOX ≤ length (drop j q))%nat ∨ MAX_INBOX_BYTES < cost_of (drop j q) + cost).
Proof.
  induction q as [|e q (k & E & Hk & Hm)]; cbn [evict]; [exists 0%nat; split_and!; auto; lia|].
  destruct (bool_decide (MAX_INBOX ≤ length (e :: q))%nat || (MAX_INBOX_BYTES <? cost_of (e :: q) + cost)) eqn:C.
  - exists (S k). cbn [drop]. cbn [cost_of foldr] in *. unfold saturating_sub.
    replace (e.2 + foldr (λ e n, e.2 + n) 0 q - e.2) with (cost_of q) by (unfold cost_of; lia). split_and!; [done..|].
    intros [|j] Hj; [|apply Hm; lia]. cbn [drop]. apply orb_prop in C as [C|C]; [left; by apply bool_decide_eq_true in C|right; by apply N.ltb_lt].
  - exists 0%nat. cbn [drop]. apply orb_false_elim in C as [C1 C2]. apply bool_decide_eq_false in C1. apply N.ltb_ge in C2.
    split_and!; [done| |intros; lia]. right. split; [lia|done].
Qed.
Lemma cost_of_app q q' : cost_of (q ++ q') = cost_of q + cost_of q'.
Proof. induction q as [|e q IH]; simpl; [done|]. rewrite IH. lia. Qed.
(** [push] drops the oldest messages, no more than it must, and appends. *)
Lemma push_spec i key m n : inbox_ok i → let cost := N.min n MAX_FRAME in
  inbox_ok (push i key m n) ∧ ∃ k, queue (push i key m n) = drop k (queue i) ++ [(key, m, cost)] ∧
  (∀ j, (j < k)%nat → (MAX_INBOX ≤ length (drop j (queue i)))%nat ∨ MAX_INBOX_BYTES < cost_of (drop j (queue i)) + cost).
Proof.
  intros [Hc Hb Hl] cost. unfold push. fold cost. rewrite Hb. destruct (evict_spec (queue i) cost) as (k & -> & Hk & Hm).
  assert (cost <= MAX_FRAME) as Lc by (unfold cost; lia).
  assert (cost_of (drop k (queue i)) + cost <= MAX_INBOX_BYTES) as Lb.
  { destruct Hk as [->|[_ ?]]; [|done]. simpl. unfold MAX_INBOX_BYTES, MAX_FRAME in *. lia. }
  assert (saturating_add u64_max (cost_of (drop k (queue i))) cost = cost_of (drop k (queue i)) + cost) as Es.
  { unfold saturating_add. rewrite N.min_r; [done|]. unfold u64_max, MAX_INBOX_BYTES in *. lia. }
  split; [|by exists k]. rewrite Es. split; cbn [queue queued_bytes].
  - rewrite length_app. cbn [length]. destruct Hk as [->|[? _]]; [unfold MAX_INBOX; simpl; lia|lia].
  - rewrite cost_of_app. simpl. lia.
  - done.
Qed.
Lemma drain_ok i : inbox_ok (drain_all i).1.
Proof. split; simpl; [unfold MAX_INBOX; lia|done|unfold MAX_INBOX_BYTES; lia]. Qed.

(** ** Inbound connections *)

Definition nonlocal (a : SocketAddr) : bool := negb (is_local a.1).
(** At most 64 in all, 8 from an address that is not local, 16 from a network of such. *)
Definition caps (inb : gset SocketAddr) : Prop :=
  (size inb ≤ MAX_INBOUND_PEERS)%nat ∧
  ∀ ip, is_local ip = false →
    (count_where (λ a, bool_decide (a.1 = ip)) inb ≤ MAX_INBOUND_PER_IP)%nat ∧
    (count_where (λ a, nonlocal a && bool_decide (net_group a.1 = net_group ip)) inb ≤ MAX_INBOUND_PER_GROUP)%nat.
Lemma count_where_mono (P Q : SocketAddr → bool) (X Y : gset SocketAddr) : (∀ a, a ∈ X → P a = true → a ∈ Y ∧ Q a = true) →
  (count_where P X ≤ count_where Q Y)%nat.
Proof. intros Hs. unfold count_where. apply subseteq_size. intros a. rewrite !elem_of_filter. naive_solver. Qed.
Lemma count_where_insert (P : SocketAddr → bool) (k : SocketAddr) (X : gset SocketAddr) : (count_where P ({[k]} ∪ X) ≤ S (count_where P X))%nat.
Proof.
  unfold count_where. transitivity (size ({[k]} ∪ filter (λ a, P a = true) X)); [apply subseteq_size; set_solver|].
  rewrite size_union_alt, size_singleton. apply le_n_S, subseteq_size. set_solver.
Qed.
Lemma count_where_skip (P : SocketAddr → bool) (k : SocketAddr) (X : gset SocketAddr) : P k = false → (count_where P ({[k]} ∪ X) ≤ count_where P X)%nat.
Proof.
  intros Hk. apply count_where_mono. intros a Ha Hp. split; [|done]. apply elem_of_union in Ha as [Ha%elem_of_singleton|]; [|done].
  subst. congruence.
Qed.
Lemma caps_sub (X Y : gset SocketAddr) : X ⊆ Y → caps Y → caps X.
Proof.
  intros Hs [Hn Hc]. split; [etrans; [by apply subseteq_size|done]|]. intros ip Hip. destruct (Hc ip Hip) as [H1 H2].
  split; [etrans; [|exact H1]|etrans; [|exact H2]]; apply count_where_mono; auto.
Qed.
Lemma admit_caps (X : gset SocketAddr) (key : SocketAddr) : caps X → admit_inbound X key.1 = true → caps ({[key]} ∪ X).
Proof.
  intros [Hn Hc] Ha. unfold admit_inbound in Ha. case_bool_decide as Hfull; [done|]. split.
  { rewrite size_union_alt, size_singleton. etrans; [apply le_n_S, subseteq_size, (subseteq_difference_l _ _ X); done|lia]. }
  intros ip Hip. destruct (Hc ip Hip) as [H1 H2]. destruct (is_local key.1) eqn:El.
  { split; (etrans; [apply count_where_skip|done]); [|unfold nonlocal; by rewrite El].
    apply bool_decide_eq_false. intros <-. congruence. }
  case_bool_decide as Hip8; [done|]. apply bool_decide_eq_true in Ha. split.
  - destruct (decide (key.1 = ip)) as [<-|Hne]; [etrans; [apply count_where_insert|lia]|].
    etrans; [apply count_where_skip; by apply bool_decide_eq_false|done].
  - destruct (decide (net_group key.1 = net_group ip)) as [Eg|Hne].
    + etrans; [apply count_where_insert|]. rewrite Eg in Ha.
      assert (count_where (λ a, nonlocal a && bool_decide (net_group a.1 = net_group ip)) X
              ≤ count_where (λ a, bool_decide (net_group a.1 = net_group ip)) X)%nat; [|lia].
      apply count_where_mono. intros a Hin [_ Hg]%andb_prop. done.
    + etrans; [apply count_where_skip|done]. apply andb_false_intro2. by apply bool_decide_eq_false.
Qed.

(** ** What happens to a node *)

Inductive Event :=
| Accepted (key : SocketAddr) (now : N)
| HandshakeFailed (key : SocketAddr)
| HandshakeDone (key : SocketAddr) (hash : bytes)
| GotMessage (key : SocketAddr) (auth : bool) (m : NetMessage) (wire_bytes now : N)
| GotMalformed (key : SocketAddr) (now : N)
| ReaderEnded (key : SocketAddr)
| DialTurn (now : N) (failed : option N)
| GotBeacon (data chain_id : bytes) (nonce : N) (src : IpAddr)
| Sends (write : SocketAddr → NetMessage → bool) (peer : SocketAddr) (m : NetMessage)
| Broadcasts (write : SocketAddr → NetMessage → bool) (m : NetMessage)
| Drains
| Protects (ip : IpAddr)
| Penalizes (peer : SocketAddr) (now : N) (points : f64)
| MarksSelf (addr : SocketAddr)
| MarksIncompatible (addr : SocketAddr)
| MarksAuthenticated (write : SocketAddr → NetMessage → bool) (addr : SocketAddr)
| Disconnects (peer : SocketAddr)
| Reconnects (targets : list SocketAddr)
| Connects (targets : list (SocketAddr * N * option N))
| Persists
| Loads (contents : option (list string))
| Shuts.

Section spec.
Context (powf : f64 → f64 → f64) (parse : string → option SocketAddr) (show : SocketAddr → string)
  (walk : gset SocketAddr → list SocketAddr).

Definition step (s : Shared) (e : Event) : Shared :=
  match e with
  | Accepted key now => (setup_begin s key false now).2
  | HandshakeFailed key => setup_failed s key
  | HandshakeDone key hash => setup_up s key hash
  | GotMessage key auth m n now =>
      let '(go, s, _) := on_message powf parse show walk s key auth m n now in if (go : bool) then s else reader_done s key
  | GotMalformed key now => reader_done (on_malformed powf s key now) key
  | ReaderEnded key => reader_done s key
  | DialTurn now failed => (dial_next s now failed).2
  | GotBeacon data chain_id nonce src => on_beacon s (parse_beacon data chain_id nonce src)
  | Sends write peer m => (send write s peer m).2
  | Broadcasts write m => (broadcast write s m).2
  | Drains => (drain s).2
  | Protects ip => protect_ip s ip
  | Penalizes peer now points => (penalize_peer powf s peer now points).2
  | MarksSelf addr => mark_self_addr s addr
  | MarksIncompatible addr => mark_incompatible s addr
  | MarksAuthenticated write addr => mark_authenticated show walk write s addr
  | Disconnects peer => disconnect s peer
  | Reconnects targets => request_reconnect s targets
  | Connects targets => (connect s targets).2
  | Persists => persist_peers show walk s
  | Loads contents => enable_persistence parse s contents
  | Shuts => shutdown s
  end.
Definition after (local : SocketAddr) (es : list Event) : Shared := foldl step (bind local) es.

Record shared_ok (s : Shared) : Prop := {
  so_caps : caps (inbound s);
  so_inbox : inbox_ok (inbox s);
  so_local : local_addr s ∉ known s }.
(** All that [shared_ok] reads. *)
Definition core (s : Shared) := (local_addr s, inbound s, inbox s, known s).
Lemma shared_ok_core s s' : core s' = core s → shared_ok s → shared_ok s'.
Proof. intros [= El Ei Eb Ek] [Hc Hb Hl]. split; congruence. Qed.

Lemma is_banned_core s ip now : core (is_banned s ip now).2 = core s.
Proof. unfold is_banned. repeat case_match; done. Qed.
Lemma penalize_inner_core s ip now f : core (penalize_inner powf s ip now f).2 = core s.
Proof. unfold penalize_inner. by case_match. Qed.
Lemma penalize_core s ip now x : core (penalize powf s ip now x).2 = core s.
Proof.
  unfold penalize. set (f := λ sc, mkScore _ _ _ _). pose proof (penalize_inner_core s ip now f) as Hc.
  by destruct (penalize_inner _ _ _ _ f).
Qed.
Lemma note_message_core s ip now : core (note_message powf s ip now).2 = core s.
Proof. apply penalize_inner_core. Qed.
Lemma penalize_peer_core s p now x : core (penalize_peer powf s p now x).2 = core s.
Proof.
  unfold penalize_peer. pose proof (penalize_core s p.1 now x) as Hc. destruct (penalize _ _ _ _ _) as [[] s']; simpl in *; done.
Qed.
Lemma broadcast_core write s m : core (broadcast write s m).2 = core s.
Proof.
  unfold broadcast. apply (foldl_keeps (λ x : nat * Shared, core x.2 = core s)); [done|]. intros [n s'] a E. by destruct (write a m).
Qed.

Lemma known_ok s X : shared_ok s → local_addr s ∉ X → shared_ok {| s with known := X |}.
Proof. intros [Hc Hb Hl] HX. by split. Qed.
Lemma learn_ok s l : shared_ok s → shared_ok (learn parse s l).
Proof.
  revert s. induction l as [|a l IH]; intros s Hs; [done|]. cbn [learn]. destruct (parse a) as [sa|]; [|by apply IH].
  case_decide as Hl; [by apply IH|]. destruct (_ || _); [by apply IH|]. destruct (addr_is_dead s sa); [by apply IH|].
  case_bool_decide; [done|]. apply IH. assert (shared_ok {| s with known := {[sa]} ∪ known s |}) as Hk.
  { apply known_ok; [done|]. pose proof (so_local _ Hs). set_solver. }
  case_match; [|done]. by eapply shared_ok_core, Hk.
Qed.
Lemma load_book_ok s n l : shared_ok s → shared_ok (load_book parse s n l).
Proof.
  revert s n. induction l as [|a l IH]; intros s n Hs; [done|]. cbn [load_book]. destruct (parse a) as [sa|]; [|by apply IH].
  case_decide as Hl; [by apply IH|]. case_bool_decide; [by apply IH|]. case_decide; [by apply IH|].
  assert (shared_ok {| s with known := {[sa]} ∪ known s |}) as Hk.
  { apply known_ok; [done|]. pose proof (so_local _ Hs). set_solver. }
  case_match; apply IH; [|done]. by eapply shared_ok_core, Hk.
Qed.
Lemma attempt_dial_ok s addr now f : shared_ok s → shared_ok (attempt_dial s addr now f).2.
Proof.
  intros Hs. unfold attempt_dial, dial_claim. case_decide as Hl; [done|]. do 2 (case_decide; [done|]).
  pose proof (is_banned_core s addr.1 now) as Ec. destruct (is_banned s addr.1 now) as [banned s1]. cbn [snd] in Ec.
  apply (shared_ok_core _ _ Ec) in Hs. apply (f_equal (λ x, x.1.1.1)) in Ec. simpl in Ec.
  destruct banned; [done|]. destruct (dial_would_duplicate s1 addr); [done|]. destruct (in_backoff s1 addr now); [done|].
  case_decide; [done|]. pose proof (so_local _ Hs) as Hk. cbn [fst snd]. unfold dial_done.
  destruct f as [later|]; (destruct Hs as [Hc Hb _]; split; [done..|]; simpl; rewrite Ec in *; set_solver).
Qed.
Lemma on_message_ok s key auth m n now : shared_ok s → shared_ok (on_message powf parse show walk s key auth m n now).1.2.
Proof.
  intros Hs. unfold on_message. pose proof (note_message_core s key.1 now) as Ec.
  destruct (note_message powf s key.1 now) as [good s1]. cbn [snd] in Ec. apply (shared_ok_core _ _ Ec) in Hs.
  destruct good; [|done]. cbn [negb]. assert (shared_ok {| s1 with inbox := push (inbox s1) key m n |}) as Hp.
  { destruct Hs as [Hc Hb Hl]. split; [done| |done]. by apply push_spec. }
  destruct m; try exact Hp; destruct auth; try exact Hs. cbn [negb fst snd]. apply learn_ok.
  case_bool_decide; [|done]. by eapply shared_ok_core, Hs; apply penalize_core.
Qed.
Lemma reader_done_ok s key : shared_ok s → shared_ok (reader_done s key).
Proof. intros [Hc Hb Hl]. split; [|done..]. by eapply caps_sub, Hc; set_solver. Qed.

Lemma drop_known_ok s X Y : shared_ok s → shared_ok {| s with dialing := X; known := known s ∖ Y |}.
Proof. intros [Hc Hb Hl]. split; [done..|]. simpl. set_solver. Qed.
Lemma connect_ok s ts : shared_ok s → shared_ok (connect s ts).2.
Proof.
  revert s. induction ts as [|[[a now] f] ts IH]; intros s Hs; [done|]. cbn [connect].
  pose proof (attempt_dial_ok s a now f Hs) as Ha. destruct (attempt_dial s a now f) as [tried s1]. cbn [snd] in Ha.
  destruct f; [|done]. destruct tried; [by apply IH|done].
Qed.
Lemma setup_begin_ok s key now : shared_ok s → shared_ok (setup_begin s key false now).2.
Proof.
  intros Hs. unfold setup_begin. pose proof (is_banned_core s key.1 now) as Ec. destruct (is_banned s key.1 now) as [banned s1].
  cbn [snd] in Ec. apply (shared_ok_core _ _ Ec) in Hs. destruct banned; [done|].
  destruct (admit_inbound (inbound s1) key.1) eqn:Ea; [|done]. destruct Hs as [Hc Hb Hl]. split; [|done..].
  by apply admit_caps.
Qed.
Lemma step_ok s e : shared_ok s → shared_ok (step s e).
Proof.
  intros Hs. destruct e; cbn [step].
  - by apply setup_begin_ok.
  - destruct Hs as [Hc Hb Hl]. split; [|done..]. by eapply caps_sub, Hc; set_solver.
  - by eapply shared_ok_core, Hs.
  - pose proof (on_message_ok s key auth m wire_bytes now Hs) as Hm.
    destruct (on_message _ _ _ _ _ _ _ _ _ _) as [[[] s1] r]; [done|by apply reader_done_ok].
  - apply reader_done_ok. by eapply shared_ok_core, Hs; apply penalize_core.
  - by apply reader_done_ok.
  - unfold dial_next. destruct (dials s); [done|]. apply attempt_dial_ok. by eapply shared_ok_core, Hs.
  - unfold on_beacon. destruct (parse_beacon _ _ _ _); [|done]. case_match; [done|]. by eapply shared_ok_core, Hs.
  - unfold send. case_decide; [|done]. destruct (write peer m); [done|]. by eapply shared_ok_core, Hs.
  - by eapply shared_ok_core, Hs; apply broadcast_core.
  - destruct Hs as [Hc Hb Hl]. split; [done|apply (drain_ok (inbox s))|done].
  - by eapply shared_ok_core, Hs.
  - by eapply shared_ok_core, Hs; apply penalize_peer_core.
  - destruct Hs as [Hc Hb Hl]. split; [done..|]. simpl. set_solver.
  - destruct Hs as [Hc Hb Hl]. split; [done..|]. simpl. set_solver.
  - unfold mark_authenticated. repeat case_match; try done; by eapply shared_ok_core, Hs.
  - by eapply shared_ok_core, Hs.
  - by eapply shared_ok_core, Hs.
  - by apply connect_ok.
  - unfold persist_peers. case_match; [|done]. by eapply shared_ok_core, Hs.
  - unfold enable_persistence. destruct contents as [l|]; [|by eapply shared_ok_core, Hs].
    eapply shared_ok_core, (load_book_ok s 0 l Hs). done.
  - by eapply shared_ok_core, Hs.
Qed.
Lemma bind_ok local : shared_ok (bind local).
Proof.
  split; [|split; [apply Nat.le_0_l|done|apply N.le_0_l]|apply not_elem_of_empty].
  split; [apply Nat.le_0_l|]. intros ip _. split; apply Nat.le_0_l.
Qed.
Lemma after_ok local es : shared_ok (after local es).
Proof. unfold after. apply (foldl_keeps shared_ok); [apply bind_ok|]. intros s e. apply step_ok. Qed.

(** ** Gossip *)

(** What a list of addresses may add to the book. *)
Definition allowed (s : Shared) (l : list string) (a : SocketAddr) : Prop :=
  a ≠ local_addr s ∧ is_private a.1 = false ∧ is_link_local a.1 = false ∧ addr_is_dead s a = false ∧
  ∃ text, text ∈ l ∧ parse text = Some a.
Record learned (s s' : Shared) (l : list string) : Prop := {
  le_known a : a ∈ known s' → a ∈ known s ∨ allowed s l a;
  le_size : (size (known s') ≤ size (known s) `max` MAX_KNOWN_PEERS)%nat;
  le_dials : ∃ ds, dials s' = dials s ++ ds ∧ NoDup ds ∧ ∀ a, a ∈ ds → a ∈ known s' ∧ a ∉ known s;
  le_grows : known s ⊆ known s';
  le_rest : {| s' with known := known s; dials := dials s |} = s }.
Lemma learned_more s s' a l : learned s s' l → learned s s' (a :: l).
Proof.
  intros [Hk Hn Hd Hg Hr]. split; [|done..]. intros b Hb. destruct (Hk b Hb) as [?|(?&?&?&?&x&?&?)]; [by left|].
  right. split_and!; [done..|]. exists x. split; [by right|done].
Qed.
Lemma learn_spec s l : learned s (learn parse s l) l.
Proof.
  revert s. induction l as [|x l IH]; intros s.
  { split; simpl; [naive_solver|lia| |done|by destruct s]. exists []. rewrite app_nil_r. split_and!; [done|constructor|set_solver]. }
  cbn [learn]. destruct (parse x) as [sa|] eqn:Ex; [|by apply learned_more].
  case_decide as Hl; [by apply learned_more|]. destruct (is_private sa.1 || is_link_local sa.1) eqn:Ep; [by apply learned_more|].
  apply orb_false_elim in Ep as [Ep1 Ep2]. destruct (addr_is_dead s sa) eqn:Ed; [by apply learned_more|].
  case_bool_decide as Hfull.
  { split; [naive_solver|lia| |done|by destruct s]. exists []. rewrite app_nil_r. split_and!; [done|constructor|set_solver]. }
  match goal with |- learned _ (learn _ ?x _) _ => set (s2 := x) end.
  assert (known s2 = {[sa]} ∪ known s ∧ {| s2 with known := known s; dials := dials s |} = s ∧
          ∃ d, dials s2 = dials s ++ d ∧ NoDup d ∧ ∀ a, a ∈ d → a = sa ∧ sa ∉ known s) as (Ek & Er & d & Ed' & Nd & Hd).
  { unfold s2. destruct (bool_decide (sa ∉ known s)) eqn:Eu; cbn [andb].
    - apply bool_decide_eq_true in Eu. destruct (negb _).
      + split_and!; [done|by destruct s|]. exists [sa]. split_and!; [done|apply NoDup_singleton|]. intros a Ha%list_elem_of_singleton. done.
      + split_and!; [done|by destruct s|]. exists []. rewrite app_nil_r. split_and!; [done|constructor|set_solver].
    - split_and!; [done|by destruct s|]. exists []. rewrite app_nil_r. split_and!; [done|constructor|set_solver]. }
  clearbody s2. destruct (IH s2) as [Hk Hn (ds & Eds & Nds & Hds) Hg Hr]. split.
  - intros a Ha. destruct (Hk a Ha) as [Hin|Hal].
    + rewrite Ek in Hin. apply elem_of_union in Hin as [->%elem_of_singleton|?]; [|by left]. right. split_and!; [done..|].
      exists x. split; [left|done].
    + right. unfold allowed, addr_is_dead in Hal. rewrite <- Er. destruct Hal as (?&?&?&?&y&?&?). unfold allowed, addr_is_dead; simpl.
      split_and!; [done..|]. exists y. split; [by right|done].
  - etrans; [exact Hn|]. rewrite Ek. apply Nat.max_lub; [|lia].
    etrans; [|apply Nat.le_max_r]. rewrite size_union_alt, size_singleton.
    etrans; [apply le_n_S, subseteq_size, (subseteq_difference_l _ _ (known s)); done|lia].
  - exists (d ++ ds). rewrite Eds, Ed', app_assoc. split; [done|]. split.
    + apply NoDup_app. split_and!; [done| |done]. intros a Ha Hb. destruct (Hd a Ha) as [-> _]. destruct (Hds sa Hb) as [_ Hc].
      rewrite Ek in Hc. set_solver.
    + intros a [Ha|Ha]%elem_of_app.
      * destruct (Hd a Ha) as [-> ?]. split; [|done]. apply Hg. rewrite Ek. set_solver.
      * destruct (Hds a Ha) as [? Hc]. split; [done|]. rewrite Ek in Hc. set_solver.
  - etrans; [|exact Hg]. rewrite Ek. set_solver.
  - clear -Er Hr. generalize dependent (learn parse s2 l). intros s3 Hr. destruct s, s2, s3. simpl in *. injection Er. injection Hr. intros; subst. reflexivity.
Qed.

Lemma note_message_keeps s ip now : let s' := (note_message powf s ip now).2 in
  known s' = known s ∧ dials s' = dials s ∧ dial_backoff s' = dial_backoff s ∧ local_addr s' = local_addr s.
Proof. unfold note_message, penalize_inner. by case_match. Qed.
Lemma penalize_keeps s ip now x : let s' := (penalize powf s ip now x).2 in
  known s' = known s ∧ dials s' = dials s ∧ dial_backoff s' = dial_backoff s ∧ local_addr s' = local_addr s.
Proof. unfold penalize, penalize_inner. by destruct (_ && _). Qed.
Lemma allowed_frame s s' l a : dial_backoff s' = dial_backoff s → local_addr s' = local_addr s → allowed s' l a → allowed s l a.
Proof. unfold allowed, addr_is_dead. by intros -> ->. Qed.
(** A message adds to the book only if it is the list of an authenticated peer, and then
    no more than its first 128 entries, within the limit of the book; only new entries are
    dialed. *)
Lemma on_message_gossip s key auth m n now : let s' := (on_message powf parse show walk s key auth m n now).1.2 in
  (∃ ds, dials s' = dials s ++ ds ∧ NoDup ds ∧ ∀ a, a ∈ ds → a ∈ known s' ∧ a ∉ known s) ∧
  (size (known s') ≤ size (known s) `max` MAX_KNOWN_PEERS)%nat ∧
  ∀ a, a ∈ known s' → a ∈ known s ∨ (auth = true ∧ ∃ l, m = Peers l ∧ allowed s (take MAX_PEERS_PER_MSG l) a).
Proof.
  assert (∀ s', known s' = known s → dials s' = dials s →
    (∃ ds, dials s' = dials s ++ ds ∧ NoDup ds ∧ ∀ a, a ∈ ds → a ∈ known s' ∧ a ∉ known s) ∧
    (size (known s') ≤ size (known s) `max` MAX_KNOWN_PEERS)%nat ∧
    ∀ a, a ∈ known s' → a ∈ known s ∨ (auth = true ∧ ∃ l, m = Peers l ∧ allowed s (take MAX_PEERS_PER_MSG l) a)) as Hsame.
  { intros s' -> ->. split_and!; [|lia|auto]. exists []. rewrite app_nil_r. split_and!; [done|constructor|set_solver]. }
  unfold on_message. pose proof (note_message_keeps s key.1 now) as (Ek & Ed & Eb & El).
  destruct (note_message powf s key.1 now) as [good s1]. cbn [snd] in *.
  destruct good; cbn [negb]; [|by apply Hsame]. destruct m; try (by apply Hsame); (destruct auth; cbn [negb fst snd]; [|by apply Hsame]); [|by apply Hsame].
  set (s2 := if bool_decide _ then _ else s1).
  assert (known s2 = known s ∧ dials s2 = dials s ∧ dial_backoff s2 = dial_backoff s ∧ local_addr s2 = local_addr s) as (Ek2&Ed2&Eb2&El2).
  { unfold s2. case_bool_decide; [|done]. pose proof (penalize_keeps s1 key.1 now MALFORMED_FRAME_PENALTY) as (->&->&->&->). done. }
  clearbody s2. destruct (learn_spec s2 (take MAX_PEERS_PER_MSG addrs)) as [Hk Hn Hd _ _]. rewrite Ek2 in Hk, Hn, Hd. rewrite Ed2 in Hd.
  split_and!; [done..|]. intros a Ha. destruct (Hk a Ha) as [?|Hal]; [by left|right]. split; [done|].
  eexists. split; [done|]. by apply (allowed_frame _ s2).
Qed.
Lemma length_discovery s : (length (discovery_addresses show walk s) ≤ MAX_PEERS_PER_MSG)%nat.
Proof.
  unfold discovery_addresses. cbn [length]. rewrite length_fmap, length_take. unfold MAX_PEERS_PER_MSG. lia.
Qed.

(** C22: whatever happens to a node: it has at most 64 inbound connections, 8 from one address
    and 16 from one network that are not local; its inbox holds at most 1024 messages and
    64 MiB, which its counter is exact about; the address it is bound to is never in its
    book (other addresses of its own may come back: [self_address_relearned]); what it
    announces is never longer than what a receiver accepts without charging it.  The next
    message adds to the address book only what the list of an authenticated peer may add,
    within the limit of the book, and only that is dialed. *)
Theorem transport_bounded local es : let s := after local es in
  caps (inbound s) ∧ inbox_ok (inbox s) ∧ (local_addr s ∉ known s) ∧
  (length (discovery_addresses show walk s) ≤ MAX_PEERS_PER_MSG)%nat ∧
  ∀ key auth m n now, let s' := (on_message powf parse show walk s key auth m n now).1.2 in
    (∃ ds, dials s' = dials s ++ ds ∧ NoDup ds ∧ ∀ a, a ∈ ds → a ∈ known s' ∧ a ∉ known s) ∧
    (size (known s') ≤ size (known s) `max` MAX_KNOWN_PEERS)%nat ∧
    ∀ a, a ∈ known s' → a ∈ known s ∨ (auth = true ∧ ∃ l, m = Peers l ∧ allowed s (take MAX_PEERS_PER_MSG l) a).
Proof.
  intros s. destruct (after_ok local es) as [Hc Hb Hl]. split_and!; [done..|apply length_discovery|].
  intros. apply on_message_gossip.
Qed.

(** ** Bans *)

Definition times (e : Event) : list N :=
  match e with
  | Accepted _ now | GotMessage _ _ _ _ now | GotMalformed _ now | DialTurn now _ | Penalizes _ now _ => [now]
  | Connects ts => (λ t, t.1.2) <$> ts
  | _ => []
  end.
(** [ip] is banned to [until] at least. *)
Definition banned_to (until : N) (ip : IpAddr) (s : Shared) : Prop :=
  (ip ∉ protected s) ∧ ∃ sc u, scores s !! ip = Some sc ∧ banned_until sc = Some u ∧ until <= u.
(** Between [from] and [until], and nobody asks that [ip] be protected. *)
Definition meanwhile (from until : N) (ip : IpAddr) (e : Event) : Prop :=
  Forall (λ t, from <= t < until) (times e) ∧ e ≠ Protects ip.

Lemma banned_to_frame until ip s s' : protected s' = protected s → scores s' = scores s → banned_to until ip s → banned_to until ip s'.
Proof. unfold banned_to. by intros -> ->. Qed.
Lemma is_banned_true until ip s now : banned_to until ip s → now < until → is_banned s ip now = (true, s).
Proof.
  intros (Hp & sc & u & Es & Eu & Hu) Hn. unfold is_banned. rewrite decide_False, Es, Eu by done.
  by rewrite (proj2 (N.ltb_lt _ _)) by lia.
Qed.
Lemma is_banned_keeps until ip s ip' now : banned_to until ip s → now < until → banned_to until ip (is_banned s ip' now).2.
Proof.
  intros Hb Hn. destruct (decide (ip' = ip)) as [->|Hne]; [by rewrite (is_banned_true until)|].
  destruct Hb as (Hp & sc & u & Es & ?). unfold is_banned. repeat case_match; try (by split; eauto).
  split; [done|]. exists sc, u. simpl. by rewrite lookup_insert_ne.
Qed.
Lemma age_keeps_ban sc now : banned_until (age powf sc now) = banned_until sc.
Proof. unfold age. by case_match. Qed.
Lemma penalize_inner_ban until ip s ip' now f : (∀ sc, banned_until (f sc) = banned_until sc) → until <= now + BAN_DURATION →
  banned_to until ip s → banned_to until ip (penalize_inner powf s ip' now f).2.
Proof.
  intros Hf Hn (Hp & sc & u & Es & Eu & Hu). unfold penalize_inner. set (sc' := f _).
  destruct (decide (ip' = ip)) as [->|Hne].
  - assert (banned_until sc' = Some u) as Esc by (unfold sc'; rewrite Hf, age_keeps_ban, Es; done).
    case_match; (split; [done|]); simpl; rewrite lookup_insert_eq; eauto.
  - case_match; (split; [done|]); exists sc, u; simpl; by rewrite lookup_insert_ne.
Qed.
Lemma note_message_ban until ip s ip' now : until <= now + BAN_DURATION → banned_to until ip s →
  banned_to until ip (note_message powf s ip' now).2.
Proof. intros. apply penalize_inner_ban; [|done..]. intros sc. by case_match. Qed.
Lemma penalize_ban until ip s ip' now x : until <= now + BAN_DURATION → banned_to until ip s →
  banned_to until ip (penalize powf s ip' now x).2.
Proof.
  intros Hn Hb. unfold penalize. set (f := λ sc, mkScore _ _ _ _).
  pose proof (penalize_inner_ban until ip s ip' now f ltac:(done) Hn Hb). by destruct (penalize_inner _ _ _ _ f).
Qed.
Lemma learn_ban until ip s l : banned_to until ip s → banned_to until ip (learn parse s l).
Proof.
  intros Hb. destruct (learn_spec s l) as [_ _ _ _ Hr]. eapply banned_to_frame, Hb; [exact (f_equal protected Hr)|exact (f_equal scores Hr)].
Qed.
Lemma load_book_ban until ip s n l : banned_to until ip s → banned_to until ip (load_book parse s n l).
Proof.
  revert s n. induction l as [|a l IH]; intros s n Hs; [done|]. cbn [load_book]. repeat case_match; apply IH; exact Hs.
Qed.
Lemma attempt_dial_ban until ip s a now f : banned_to until ip s → now < until → banned_to until ip (attempt_dial s a now f).2.
Proof.
  intros Hb Hn. unfold attempt_dial, dial_claim. do 3 (case_decide; [done|]).
  pose proof (is_banned_keeps until ip s a.1 now Hb Hn) as Hb'. destruct (is_banned s a.1 now) as [[] s1]; [done|].
  destruct (dial_would_duplicate s1 a); [done|]. destruct (in_backoff s1 a now); [done|]. case_decide; [done|].
  by destruct f.
Qed.
Lemma connect_ban from until ip s ts : Forall (λ t, from <= t < until) ((λ t, t.1.2) <$> ts) →
  banned_to until ip s → banned_to until ip (connect s ts).2.
Proof.
  revert s. induction ts as [|[[a now] f] ts IH]; intros s Ht Hs; [done|]. apply Forall_cons in Ht as [Ht Hts]. cbn [connect].
  pose proof (attempt_dial_ban until ip s a now f Hs ltac:(simpl in Ht; lia)) as Ha.
  destruct (attempt_dial s a now f) as [tried s1]. destruct f; [|done]. destruct tried; [by apply IH|done].
Qed.
Lemma on_message_ban until ip s key auth m n now : until <= now + BAN_DURATION → banned_to until ip s →
  banned_to until ip (on_message powf parse show walk s key auth m n now).1.2.
Proof.
  intros Hn Hb. unfold on_message. pose proof (note_message_ban until ip s key.1 now Hn Hb) as Hb'.
  destruct (note_message powf s key.1 now) as [[] s1]; [|done]. cbn [negb].
  destruct m; try exact Hb'; destruct auth; try exact Hb'. cbn [negb fst snd]. apply learn_ban.
  case_bool_decide; [|done]. by apply penalize_ban.
Qed.
Lemma broadcast_ban until ip write s m : banned_to until ip s → banned_to until ip (broadcast write s m).2.
Proof.
  intros Hb. unfold broadcast. apply (foldl_keeps (λ x : nat * Shared, banned_to until ip x.2)); [done|].
  intros [n s'] a E. by destruct (write a m).
Qed.
Lemma step_ban from until ip s e : until <= from + BAN_DURATION → meanwhile from until ip e →
  banned_to until ip s → banned_to until ip (step s e).
Proof.
  intros Hd [Ht Hp] Hb. destruct e; cbn [step times] in *; try exact Hb;
    try (apply Forall_cons in Ht as [Ht _]; assert (until <= now + BAN_DURATION) as Hn by lia).
  - unfold setup_begin. pose proof (is_banned_keeps until ip s key.1 now Hb ltac:(lia)) as Hb'.
    destruct (is_banned s key.1 now) as [[] s1]; [done|]. by case_match.
  - pose proof (on_message_ban until ip s key auth m wire_bytes now Hn Hb) as Hb'.
    by destruct (on_message _ _ _ _ _ _ _ _ _ _) as [[[] s1] r].
  - exact (penalize_ban _ _ _ _ _ _ Hn Hb).
  - unfold dial_next. destruct (dials s); [done|]. apply attempt_dial_ban; [exact Hb|lia].
  - unfold on_beacon. by repeat case_match.
  - unfold send. by repeat case_match.
  - by apply broadcast_ban.
  - destruct Hb as (Hq & sc & u & Es & ?). assert (ip0 ≠ ip) by (intros ->; done). split; [simpl; set_solver|].
    exists sc, u. simpl. by rewrite lookup_alter_ne.
  - unfold penalize_peer. pose proof (penalize_ban until ip s peer.1 now points Hn Hb) as Hb'.
    by destruct (penalize _ _ _ _ _) as [[] s1].
  - unfold mark_authenticated. by repeat case_match.
  - by eapply connect_ban.
  - unfold persist_peers. by case_match.
  - unfold enable_persistence. destruct contents; [|exact Hb]. by apply load_book_ban.
Qed.
Lemma penalize_arms s ip now x : (penalize powf s ip now x).1 = true →
  banned_to (now + BAN_DURATION) ip (penalize powf s ip now x).2.
Proof.
  unfold penalize, penalize_inner. destruct (_ && negb _) eqn:E; [|done]. intros _. apply andb_prop in E as [_ E].
  rewrite negb_true_iff in E. apply bool_decide_eq_false in E. split; [done|]. simpl. rewrite lookup_insert_eq.
  eexists _, _. by split_and!.
Qed.
(** An address whose score earns it a ban is, for the five minutes of the ban and whatever
    else happens, neither let in nor dialed, unless the operator protects it; a protected
    address is never banned. *)
Theorem ban_holds s ip now x es later port f : (penalize powf s ip now x).1 = true →
  Forall (meanwhile now (now + BAN_DURATION) ip) es → now <= later < now + BAN_DURATION →
  let s' := foldl step (penalize powf s ip now x).2 es in
  (setup_begin s' (ip, port) false later).1 = false ∧ (attempt_dial s' (ip, port) later f).1 = false ∧
  (is_banned (protect_ip s' ip) ip later).1 = false.
Proof.
  intros Hb Hes Hl s'. assert (banned_to (now + BAN_DURATION) ip s') as Hb'.
  { subst s'. apply penalize_arms in Hb. revert Hb. generalize (penalize powf s ip now x).2. induction Hes as [|e es He Hes IH]; [done|].
    intros s0 Hs0. apply IH. by eapply step_ban. }
  split_and!.
  - unfold setup_begin. cbn [fst]. by rewrite (is_banned_true (now + BAN_DURATION)) by (done || lia).
  - unfold attempt_dial, dial_claim. do 3 (case_decide; [done|]). cbn [fst].
    by rewrite (is_banned_true (now + BAN_DURATION)) by (done || lia).
  - unfold is_banned. rewrite decide_True; [done|]. simpl. set_solver.
Qed.

(** ** Floods *)

(** Messages at one instant, as long as the peer stays in good standing. *)
Fixpoint burst (k : nat) (s : Shared) (ip : IpAddr) (now : N) : bool * Shared :=
  match k with
  | O => (true, s)
  | S k => let '(good, s) := note_message powf s ip now in if (good : bool) then burst k s ip now else (false, s)
  end.
Definition bump (sc : PeerScore) : PeerScore :=
  if f64_le (f64_of 1) (tokens sc)
  then mkScore (f64_sub (tokens sc) (f64_of 1)) (misbehavior sc) (updated sc) (banned_until sc)
  else mkScore (tokens sc) (f64_add (misbehavior sc) RATE_VIOLATION_PENALTY) (updated sc) (banned_until sc).
Fixpoint tolerated (k : nat) (sc : PeerScore) : bool :=
  match k with
  | O => true
  | S k => negb (f64_le MISBEHAVIOR_BAN (misbehavior (bump sc))) && tolerated k (bump sc)
  end.
Lemma age_now sc : age powf sc (updated sc) = sc.
Proof. unfold age, saturating_sub. rewrite N.sub_diag. reflexivity. Qed.
Lemma bump_updated sc : updated (bump sc) = updated sc.
Proof. unfold bump. by case_match. Qed.
Lemma note_message_now s ip now sc : ip ∉ protected s → default (fresh now) (scores s !! ip) = sc → updated sc = now →
  (note_message powf s ip now).1 = negb (f64_le MISBEHAVIOR_BAN (misbehavior (bump sc))) ∧
  (f64_le MISBEHAVIOR_BAN (misbehavior (bump sc)) = false →
   note_message powf s ip now = (true, {| s with scores := <[ip := bump sc]> (scores s) |})).
Proof.
  intros Hp Es Eu. unfold note_message, penalize_inner. rewrite Es, <- Eu, age_now. fold (bump sc).
  rewrite bool_decide_false by done. cbn [negb]. rewrite andb_true_r. by destruct (f64_le MISBEHAVIOR_BAN (misbehavior (bump sc))).
Qed.
Lemma burst_tolerated k s ip now sc : ip ∉ protected s → default (fresh now) (scores s !! ip) = sc → updated sc = now →
  (burst k s ip now).1 = tolerated k sc.
Proof.
  revert s sc. induction k as [|k IH]; intros s sc Hp Es Eu; [done|]. cbn [burst tolerated].
  destruct (note_message_now s ip now sc Hp Es Eu) as [E1 E2].
  destruct (f64_le MISBEHAVIOR_BAN (misbehavior (bump sc))); cbn [negb andb] in *.
  - destruct (note_message powf s ip now) as [good s1]. cbn [fst] in E1. by subst.
  - rewrite E2 by done. apply IH; [done| |by rewrite bump_updated]. simpl. by rewrite lookup_insert_eq.
Qed.
(** A new peer may send 1508 messages at once: 1500 spend the bucket, eight more stay below
    the threshold, and the next one earns the ban. *)
Theorem flood_banned s ip now : ip ∉ protected s → scores s !! ip = None →
  (burst 1508 s ip now).1 = true ∧ (burst 1509 s ip now).1 = false.
Proof.
  intros Hp Es. assert (default (fresh now) (scores s !! ip) = fresh now) as Ed by (by rewrite Es).
  rewrite !(burst_tolerated _ s ip now (fresh now) Hp Ed eq_refl). split; vm_compute; reflexivity.
Qed.

(** ** Two limits of the book *)

(** Forgetting an address that turned out to be the node's own lasts until the next list
    that names it: gossip does not look at [self_addrs] (nor at [incompatible]). *)
Theorem self_address_relearned s key a text n now : parse text = Some a → a ≠ local_addr s → is_private a.1 = false →
  is_link_local a.1 = false → addr_is_dead s a = false → (size (known s) < MAX_KNOWN_PEERS)%nat →
  (note_message powf (mark_self_addr s a) key.1 now).1 = true →
  a ∈ known (on_message powf parse show walk (mark_self_addr s a) key true (Peers [text]) n now).1.2.
Proof.
  intros Ep Hl H1 H2 Hd Hn Hg. unfold on_message. pose proof (note_message_keeps (mark_self_addr s a) key.1 now) as (Ek & _ & Eb & El).
  destruct (note_message _ _ _ _) as [good s1]. cbn [fst snd] in *. subst good. cbn [negb]. 
  rewrite bool_decide_false by (unfold MAX_PEERS_PER_MSG; simpl; lia).
  cbn [take fst snd learn MAX_PEERS_PER_MSG]. rewrite Ep, El. simpl in Ek, Eb, El. unfold mark_self_addr at 1. cbn [local_addr].
  rewrite decide_False, H1, H2 by done. cbn [orb]. unfold addr_is_dead in *. rewrite Eb, Hd.
  rewrite bool_decide_false.
  2:{ rewrite Ek. assert (size (known s ∖ {[a]}) ≤ size (known s))%nat by (apply subseteq_size; set_solver). lia. }
  destruct (_ && _); cbn [known]; apply elem_of_union_l; by apply elem_of_singleton.
Qed.
(** A failed dial leaves a backoff entry and takes the address out of the book; only a
    dial that connects removes an entry, so the limit of the book does not bound them. *)
Theorem failed_dial_leaves_entry s a now later : (attempt_dial s a now (Some later)).1 = true →
  let s' := (attempt_dial s a now (Some later)).2 in
  (a ∉ known s') ∧ is_Some (dial_backoff s' !! a) ∧ dom (dial_backoff s) ⊆ dom (dial_backoff s').
Proof.
  unfold attempt_dial, dial_claim. do 3 (case_decide; [done|]).
  assert (dial_backoff (is_banned s a.1 now).2 = dial_backoff s) as Eb by (unfold is_banned; repeat case_match; done).
  destruct (is_banned s a.1 now) as [[] s1]; [done|]. cbn [snd] in Eb.
  destruct (dial_would_duplicate s1 a); [done|]. destruct (in_backoff s1 a now); [done|]. case_decide; [done|].
  intros _. simpl. rewrite Eb. split_and!; [set_solver|rewrite lookup_insert_eq; eauto|]. rewrite dom_insert. set_solver.
Qed.
End spec.
End TcpSpec.
