(* ===== verification/ShareChain.v ===== *)
(** * The pool's share chain (tools/sov-sharechain)

    Shares, the rules a share passes, the payouts a block must carry, fork choice and
    retarget (lib.rs); the gossip's wire format (wire.rs) and the state of a gossip
    endpoint (gossip.rs), which runs over a [Link].  [u128] sums and products wrap, as in
    a release build. *)

From S2P Require Import Prelude Primitives Crypto Mining Types Gas Ledger.
#[local] Open Scope N_scope.

Module Share.

Definition u128_wrap (n : N) : N := n mod 2 ^ 128.
Definition add128 (a b : N) : N := u128_wrap (a + b).
Definition mul128 (a b : N) : N := u128_wrap (a * b).

(** [[u8; 32]]; a digest serves as the array. *)
Definition ShareId : Type := Hash.
#[global] Instance ShareId_eq_dec : EqDecision ShareId := Hash_eq_dec.
#[global] Instance ShareId_countable : Countable ShareId := Hash_countable.
Abbreviation Payouts := (gmap AccountId N).

Definition PPLNS_WINDOW : nat := 1000.
Definition UNCLE_WEIGHT_PCT : N := 75.
Definition SHARE_TARGET_INTERVAL_MS : N := 10000.
Definition RETARGET_WINDOW : nat := 45.

Record t := mkShare {
  id : ShareId; prev : option ShareId; uncles : list ShareId; finder : AccountId; work : N; is_block : bool;
  timestamp_ms : N }.
Inductive ShareError :=
| Duplicate (i : ShareId)
| UnknownParent (i : ShareId)
| ZeroWork
| BadUncle (i : ShareId)
| WrongPayouts (expected got : Payouts).
Record Entry := mkEntry { share : t; height : N; cumulative_work : N }.
Record ShareChain := mkChain { entries_ : gmap ShareId Entry; tip : option ShareId }.
Definition new : ShareChain := mkChain ∅ None.

Definition tip_work (c : ShareChain) : N :=
  default 0 (t ← tip c; e ← entries_ c !! t; Some (cumulative_work e)).
(** At most [room] shares back from [cur], newest first. *)
Fixpoint back (room : nat) (c : ShareChain) (cur : option ShareId) : list t :=
  match room with
  | O => []
  | S room =>
      match cur with
      | None => []
      | Some i => match entries_ c !! i with Some e => share e :: back room c (prev (share e)) | None => [] end
      end
  end.
(** One turn per share on the branch, of which there are no more than shares. *)
Definition best_branch (c : ShareChain) : list t := back (S (size (entries_ c))) c (tip c).

(** ** Payouts *)

Definition uncle_weight (w : N) : N := mul128 w UNCLE_WEIGHT_PCT / 100.
(** What one share of the window earns whom: its finder, then its uncles' finders. *)
Definition credits (c : ShareChain) (s : t) : list (AccountId * N) :=
  (finder s, work s) :: omap (λ u, e ← entries_ c !! u; Some (finder (share e), uncle_weight (work (share e)))) (uncles s).
Definition credit (acc : gmap AccountId N * N) (e : AccountId * N) : gmap AccountId N * N :=
  (<[e.1 := add128 (default 0 (acc.1 !! e.1)) e.2]> acc.1, add128 acc.2 e.2).
(** The weights of the window and their total. *)
Definition weigh (c : ShareChain) (parent : option ShareId) : gmap AccountId N * N :=
  foldl credit (∅, 0) (concat (credits c <$> back PPLNS_WINDOW c parent)).
(** The loop over the weights, and the sum it assigns. *)
Definition cut (reward total : N) (acc : Payouts * N) (e : AccountId * N) : Payouts * N :=
  let c := mul128 reward e.2 / total in
  if 0 <? c then (<[e.1 := c]> acc.1, add128 acc.2 c) else acc.
(** [max_by] with the account order reversed among equals: the last of the greatest. *)
Definition richer (a b : AccountId * N) : bool :=
  (b.2 <? a.2) || (a.2 =? b.2) && bytes_leb (acc_bytes a.1) (acc_bytes b.1) && negb (bool_decide (a.1 = b.1)).
Definition largest (l : list (AccountId * N)) : option (AccountId * N) :=
  foldl (λ best x, match best with Some b => if richer b x then Some b else Some x | None => Some x end) None l.
Definition split (ws : gmap AccountId N) (total reward : N) : Payouts :=
  if (total =? 0) || (reward =? 0) then ∅ else
  let '(out, assigned) := foldl (cut reward total) (∅, 0) (entries ws) in
  if assigned <? reward then
    match largest (entries ws) with
    | Some (acct, _) => <[acct := add128 (default 0 (out !! acct)) (reward - assigned)]> out
    | None => out
    end
  else out.
Definition payouts_for (c : ShareChain) (parent : option ShareId) (reward_grains : N) : Payouts :=
  let '(ws, total) := weigh c parent in split ws total reward_grains.

(** ** Accepting a share *)

(** The set of ancestors; a turn per new member, and one that finds an old or unknown one. *)
Fixpoint ancestry (fuel : nat) (c : ShareChain) (cur : option ShareId) (set : gset ShareId) : gset ShareId :=
  match fuel, cur with
  | S fuel, Some i => if decide (i ∈ set) then set else ancestry fuel c (e ← entries_ c !! i; prev (share e)) ({[ i ]} ∪ set)
  | _, _ => set
  end.
Definition ancestors (c : ShareChain) (cur : option ShareId) : gset ShareId := ancestry (S (S (size (entries_ c)))) c cur ∅.
(** The loop over the uncles: the work they add. *)
Fixpoint uncle_loop (c : ShareChain) (self : ShareId) (anc seen : gset ShareId) (acc : N) (us : list ShareId) :
    result ShareError N :=
  match us with
  | [] => Ok acc
  | u :: us =>
      if bool_decide (u = self) || bool_decide (u ∈ anc) || bool_decide (u ∈ seen) then Err (BadUncle u) else
      match entries_ c !! u with
      | None => Err (BadUncle u)
      | Some e => uncle_loop c self anc ({[ u ]} ∪ seen) (add128 acc (uncle_weight (work (share e)))) us
      end
  end.
Definition accept (c : ShareChain) (s : t) (reward_grains : N) (embedded_payouts : Payouts) : result ShareError ShareChain :=
  if decide (is_Some (entries_ c !! id s)) then Err (Duplicate (id s)) else
  if work s =? 0 then Err ZeroWork else
  parent ← match prev s with
           | None => Ok None
           | Some p => match entries_ c !! p with Some e => Ok (Some e) | None => Err (UnknownParent p) end
           end;
  uncle_work ← uncle_loop c (id s) (ancestors c (prev s)) ∅ 0 (uncles s);
  let expected := payouts_for c (prev s) reward_grains in
  if is_block s && negb (bool_decide (expected = embedded_payouts)) then Err (WrongPayouts expected embedded_payouts) else
  let h := match parent with Some p => height p + 1 | None => 0 end in
  let cw := add128 (add128 (default 0 (cumulative_work <$> parent)) (work s)) uncle_work in
  let es := <[id s := mkEntry s h cw]> (entries_ c) in
  let better := match (t ← tip c; es !! t) with None => true | Some e => cumulative_work e <? cw end in
  Ok (mkChain es (if (better : bool) then Some (id s) else tip c)).

(** ** Retarget *)

Fixpoint windows2 (l : list t) : list (t * t) :=
  match l with
  | a :: ((b :: _) as l) => (a, b) :: windows2 l
  | _ => []
  end.
Definition next_share_difficulty (c : ShareChain) : N :=
  let branch := best_branch c in
  if (length branch <? 2)%nat then Difficulty.MIN else
  let recent := take (Nat.min (RETARGET_WINDOW + 1) (length branch)) branch in
  let pairs := rev (windows2 recent) in
  Difficulty.lwma ((λ p, work p.1) <$> pairs) ((λ p, saturating_sub (timestamp_ms p.1) (timestamp_ms p.2)) <$> pairs)
    SHARE_TARGET_INTERVAL_MS.
Definition height_of (c : ShareChain) (i : ShareId) : option N := height <$> entries_ c !! i.
End Share.

(** ** The wire (wire.rs) *)

Module ShareWire.
Import Share.

Definition MAX_FRAME_BYTES : N := 1024 * 1024.
Definition MAX_SHARES_PER_MESSAGE : N := 256.
Definition MAX_UNCLES : N := 8.
Definition MAX_ACCOUNT_LEN : N := 64.
Inductive ShareMessage :=
| Hello (genesis : ShareId) (tip : option ShareId)
| Announce (s : Share.t)
| GetShares (after : option ShareId)
| Shares (l : list Share.t).
Inductive WireError := Truncated | UnknownTag (t : N) | TooLarge | TrailingBytes | BadAccount.

(** *** Reading *)

Definition reader (A : Type) : Type := bytes → result WireError (A * bytes).
#[global] Instance reader_ret : MRet reader := λ A a b, Ok (a, b).
#[global] Instance reader_bind : MBind reader := λ A B f m b, match m b with Ok (a, b) => f a b | Err e => Err e end.
Definition fail {A} (e : WireError) : reader A := λ _, Err e.
Definition r_take (n : nat) : reader bytes := λ b,
  if (length b <? n)%nat then Err Truncated else Ok (take n b, drop n b).
Definition r_u8 : reader N := b ← r_take 1; mret (hd 0 b).
Definition r_u32 : reader N := b ← r_take 4; mret (le_val b).
Definition r_u64 : reader N := b ← r_take 8; mret (le_val b).
Definition r_u128 : reader N := b ← r_take 16; mret (le_val b).
(** Thirty-two bytes are an id. *)
Definition r_id : reader ShareId :=
  b ← r_take 32; match Hash_try_from b with Some i => mret i | None => fail Truncated end.
Definition r_opt_id : reader (option ShareId) :=
  n ← r_u8; if n =? 0 then mret None else i ← r_id; mret (Some i).
(** Text that is not UTF-8 is not a legal account either. *)
Definition r_account : reader AccountId :=
  n ← r_u8;
  if (n =? 0) || (MAX_ACCOUNT_LEN <? n) then fail TooLarge else
  b ← r_take (N.to_nat n);
  match AccountId_new (bytes_string b) with Ok a => mret a | Err _ => fail BadAccount end.
Fixpoint r_list {A} (m : reader A) (n : nat) : reader (list A) :=
  match n with
  | O => mret []
  | S n => a ← m; l ← r_list m n; mret (a :: l)
  end.
Definition get_share : reader Share.t :=
  id ← r_id;
  prev ← r_opt_id;
  n ← r_u8;
  if MAX_UNCLES <? n then fail TooLarge else
  uncles ← r_list r_id (N.to_nat n);
  finder ← r_account;
  work ← r_u128;
  is_block ← r_u8;
  timestamp_ms ← r_u64;
  mret (mkShare id prev uncles finder work (negb (is_block =? 0)) timestamp_ms).
Definition r_message : reader ShareMessage :=
  tag ← r_u8;
  if tag =? 1 then g ← r_id; tip ← r_opt_id; mret (Hello g tip) else
  if tag =? 2 then s ← get_share; mret (Announce s) else
  if tag =? 3 then after ← r_opt_id; mret (GetShares after) else
  if tag =? 4 then
    n ← r_u32;
    if MAX_SHARES_PER_MESSAGE <? n then fail TooLarge else
    l ← r_list get_share (N.to_nat n); mret (Shares l)
  else fail (UnknownTag tag).
Definition decode (buf : bytes) : result WireError ShareMessage :=
  if MAX_FRAME_BYTES <? N.of_nat (length buf) then Err TooLarge else
  match r_message buf with
  | Ok (m, rest) => if bool_decide (rest = []) then Ok m else Err TrailingBytes
  | Err e => Err e
  end.

(** *** Writing *)

Definition put_opt_id (i : option ShareId) : bytes := match i with None => [0] | Some i => 1 :: as_bytes i end.
Definition put_share (s : Share.t) : bytes :=
  as_bytes (id s) ++ put_opt_id (prev s) ++ [N.of_nat (length (uncles s)) mod 256] ++ concat (as_bytes <$> uncles s) ++
  [N.of_nat (length (acc_bytes (finder s))) mod 256] ++ acc_bytes (finder s) ++ to_le 16 (work s) ++
  [if is_block s then 1 else 0] ++ to_le 8 (timestamp_ms s).
Definition encode (m : ShareMessage) : bytes :=
  match m with
  | Hello g tip => 1 :: as_bytes g ++ put_opt_id tip
  | Announce s => 2 :: put_share s
  | GetShares after => 3 :: put_opt_id after
  | Shares l => 4 :: to_le 4 (N.of_nat (length l)) ++ concat (put_share <$> l)
  end.
End ShareWire.

(** ** A gossip endpoint (gossip.rs) *)

Module Gossip.
Import ShareWire.

Definition SocketAddr : Type := bytes * N.
Definition MAX_PEERS : nat := 64.
Definition MAX_INBOX_BYTES : N := 8 * 1024 * 1024.
Record Inbox := mkInbox { queue : list (SocketAddr * ShareMessage * N); queued : N }.
(** The eviction loop of [push]. *)
Fixpoint evict (q : list (SocketAddr * ShareMessage * N)) (bytes : N) : Inbox :=
  match q with
  | [] => mkInbox [] (if MAX_INBOX_BYTES <? bytes then 0 else bytes)
  | e :: q' => if MAX_INBOX_BYTES <? bytes then evict q' (bytes - e.2) else mkInbox q bytes
  end.
Definition push (i : Inbox) (from : SocketAddr) (m : ShareMessage) (size : N) : Inbox :=
  evict (queue i ++ [(from, m, size)]) (queued i + size).
Definition drain_inbox (i : Inbox) : Inbox * list (SocketAddr * ShareMessage) := (mkInbox [] 0, fst <$> queue i).

Record Endpoint := mkEndpoint { peers : gset SocketAddr; inbox : Inbox; running : bool }.
Definition bind : Endpoint := mkEndpoint ∅ (mkInbox [] 0) true.
(** [add_peer] before its handshake: is there a slot? *)
Definition slot_free (g : Endpoint) : bool := bool_decide (size (peers g) < MAX_PEERS)%nat.
(** And after it. *)
Definition peer_up (g : Endpoint) (addr : SocketAddr) : Endpoint := mkEndpoint ({[ addr ]} ∪ peers g) (inbox g) (running g).
Definition peer_down (g : Endpoint) (addr : SocketAddr) : Endpoint := mkEndpoint (peers g ∖ {[ addr ]}) (inbox g) (running g).
(** A turn of a peer's read thread on a frame: whether it goes on. *)
Definition on_frame (g : Endpoint) (addr : SocketAddr) (plaintext : bytes) : bool * Endpoint :=
  match decode plaintext with
  | Err _ => (false, peer_down g addr)
  | Ok m =>
      let g := mkEndpoint (peers g) (push (inbox g) addr m (N.of_nat (length plaintext))) (running g) in
      if running g then (true, g) else (false, peer_down g addr)
  end.
Definition drain (g : Endpoint) : list (SocketAddr * ShareMessage) * Endpoint :=
  let '(i, ms) := drain_inbox (inbox g) in (ms, mkEndpoint (peers g) i (running g)).
(** [write addr m]: whether the link took the frame. *)
Definition send (write : SocketAddr → ShareMessage → bool) (g : Endpoint) (peer : SocketAddr) (m : ShareMessage) : bool * Endpoint :=
  if decide (peer ∈ peers g) then if write peer m then (true, g) else (false, peer_down g peer) else (false, g).
Definition broadcast (write : SocketAddr → ShareMessage → bool) (g : Endpoint) (m : ShareMessage) : nat * Endpoint :=
  let ok := filter (λ a, write a m = true) (peers g) in
  (size ok, mkEndpoint ok (inbox g) (running g)).
Definition shutdown (g : Endpoint) : Endpoint := mkEndpoint ∅ (inbox g) false.
End Gossip.
