(* ===== verification/ShareSpec.v ===== *)
(** * The pool pays by rule

    Over any shares offered in any order: the tip is a share of greatest work, every
    branch ends in a first share, what a block share had to pay is what the final chain
    says its window earned, and payouts add up to the reward.  And what the rules do not
    rule out: one share credited as uncle again and again. *)

From S2P Require Import Prelude Primitives Crypto Mining Types Gas Ledger ShareChain.
#[local] Open Scope N_scope.

Module ShareSpec.
Import Share.

(** ** What an accepted share adds *)

Record added (c : ShareChain) (s : t) (r : N) (emb : Payouts) (c' : ShareChain) (cw : N) : Prop := {
  ad_fresh : entries_ c !! id s = None;
  ad_work : work s ≠ 0;
  ad_parent : match prev s with None => True | Some p => is_Some (entries_ c !! p) end;
  ad_uncles : ∃ w, uncle_loop c (id s) (ancestors c (prev s)) ∅ 0 (uncles s) = Ok w ∧
    cw = add128 (add128 (default 0 (p ← prev s; e ← entries_ c !! p; Some (cumulative_work e))) (work s)) w;
  ad_pays : is_block s = true → emb = payouts_for c (prev s) r;
  ad_entries : entries_ c' =
    <[id s := mkEntry s (match prev s with None => 0 | Some p => match entries_ c !! p with Some e => height e + 1 | None => 0 end end) cw]>
      (entries_ c);
  ad_tip : tip c' = (if match (t ← tip c; entries_ c' !! t) with None => true | Some e => cumulative_work e <? cw end then Some (id s) else tip c) }.
Lemma accept_added c s r emb c' : accept c s r emb = Ok c' → ∃ cw, added c s r emb c' cw.
Proof.
  unfold accept. case_decide as Hf; [done|]. apply eq_None_not_Some in Hf. destruct (N.eqb_spec (work s) 0) as [|Hw]; [done|].
  intros Ha. destruct (match prev s with None => _ | Some p => _ end) as [parent|] eqn:Ep; [|done]. cbn [mbind result_bind] in Ha.
  destruct (uncle_loop _ _ _ _ _ _) as [uw|] eqn:Eu; [|done]. cbn [mbind result_bind] in Ha.
  destruct (is_block s && _) eqn:Eb; [done|]. injection Ha as <-.
  exists (add128 (add128 (default 0 (cumulative_work <$> parent)) (work s)) uw). split; cbn [entries_ tip]; try done.
  - destruct (prev s) as [p|]; [|done]. destruct (entries_ c !! p); [eauto|done].
  - exists uw. split; [done|]. destruct (prev s) as [p|]; [|by injection Ep as <-]. cbn [mbind option_bind].
    destruct (entries_ c !! p); by simplify_eq/=.
  - intros Hb. rewrite Hb in Eb. destruct (bool_decide_reflect (payouts_for c (prev s) r = emb)); [done|by simpl in Eb].
  - do 2 f_equal. destruct (prev s) as [p|]; [|by injection Ep as <-]. destruct (entries_ c !! p); by simplify_eq/=.
Qed.
Lemma uncle_loop_known c self anc seen acc us w : uncle_loop c self anc seen acc us = Ok w →
  Forall (λ u, is_Some (entries_ c !! u) ∧ (u ∉ anc) ∧ (u ∉ seen) ∧ u ≠ self) us ∧ NoDup us.
Proof.
  revert seen acc. induction us as [|u us IH]; intros seen acc Hu; [by split; constructor|]. cbn [uncle_loop] in Hu.
  destruct (bool_decide (u = self) || bool_decide (u ∈ anc) || bool_decide (u ∈ seen)) eqn:Eb; [done|].
  apply orb_false_elim in Eb as [Eb E3%bool_decide_eq_false]. apply orb_false_elim in Eb as [E1%bool_decide_eq_false E2%bool_decide_eq_false].
  destruct (entries_ c !! u) as [e|] eqn:E; [|done]. destruct (IH _ _ Hu) as [Hf Hn]. split.
  - constructor; [by split_and!|]. eapply Forall_impl; [exact Hf|]. set_solver.
  - constructor; [|done]. intros Hin. rewrite Forall_forall in Hf. destruct (Hf u Hin) as (_ & _ & Hs & _). set_solver.
Qed.

(** ** The invariant *)

Record wf (c : ShareChain) : Prop := {
  wf_id i e : entries_ c !! i = Some e → id (share e) = i;
  wf_root i e : entries_ c !! i = Some e → prev (share e) = None → height e = 0;
  wf_prev i e p : entries_ c !! i = Some e → prev (share e) = Some p → ∃ pe, entries_ c !! p = Some pe ∧ height e = height pe + 1;
  wf_uncles i e u : entries_ c !! i = Some e → u ∈ uncles (share e) → is_Some (entries_ c !! u);
  wf_tip t : tip c = Some t → is_Some (entries_ c !! t);
  wf_best i e : entries_ c !! i = Some e → cumulative_work e <= tip_work c }.
Lemma wf_new : wf new.
Proof. split; simpl; intros; simplify_map_eq. Qed.
Lemma added_wf c s r emb c' cw : wf c → added c s r emb c' cw → wf c'.
Proof.
  intros [Hid Hroot Hprev Hunc Htip Hbest] [Hf Hw Hp (w & Hu & Ew) _ Ee Et]. apply uncle_loop_known in Hu as [Hu _].
  rewrite Forall_forall in Hu.
  assert (∀ i, is_Some (entries_ c !! i) → entries_ c' !! i = entries_ c !! i) as Hold.
  { intros i [e Hi]. rewrite Ee, lookup_insert_ne; [done|]. intros <-. congruence. }
  split.
  - intros i e. rewrite Ee, lookup_insert_Some. intros [[<- <-]|[_ Hi]]; [done|eauto].
  - intros i e. rewrite Ee, lookup_insert_Some. intros [[<- <-]|[_ Hi]]; [simpl; by intros ->|eauto].
  - intros i e p Hi Hpe. rewrite Ee, lookup_insert_Some in Hi. destruct Hi as [[<- <-]|[_ Hi]].
    + simpl in *. rewrite Hpe in *. destruct Hp as [pe Hp]. exists pe. by rewrite Hold, Hp.
    + destruct (Hprev i e p Hi Hpe) as (pe & Hpe' & Hh). exists pe. by rewrite Hold, Hpe'.
  - intros i e u Hi Hin. rewrite Ee, lookup_insert_Some in Hi. destruct Hi as [[<- <-]|[_ Hi]].
    + destruct (Hu u Hin) as ([x Hx] & _). rewrite Hold; eauto.
    + destruct (Hunc i e u Hi Hin) as [x Hx]. rewrite Hold; eauto.
  - rewrite Et. intros x. case_match; [|intros Hx; rewrite Hold; auto]. intros [= <-]. rewrite Ee, lookup_insert_eq. eauto.
  - intros i e Hi. unfold tip_work. rewrite Et. destruct (tip c) as [tp|] eqn:Etip.
    + destruct (Htip tp eq_refl) as [te Hte]. cbn [mbind option_bind]. rewrite (Hold tp), Hte by eauto.
      assert (tip_work c = cumulative_work te) as Etw by (unfold tip_work; rewrite Etip; simpl; by rewrite Hte).
      rewrite Ee, lookup_insert_Some in Hi. destruct (N.ltb_spec (cumulative_work te) cw); simpl.
      * rewrite Ee, lookup_insert_eq. simpl. destruct Hi as [[<- <-]|[_ Hi]]; [done|]. specialize (Hbest i e Hi). lia.
      * rewrite (Hold tp), Hte by eauto. simpl. destruct Hi as [[<- <-]|[_ Hi]]; [done|]. specialize (Hbest i e Hi). lia.
    + simpl. rewrite Ee, lookup_insert_eq. simpl. rewrite Ee, lookup_insert_Some in Hi. destruct Hi as [[<- <-]|[_ Hi]]; [done|].
      specialize (Hbest i e Hi). unfold tip_work in Hbest. rewrite Etip in Hbest. simpl in Hbest. lia.
Qed.

(** ** What is behind a share is the same everywhere *)

(** One id, one share: the id is the hash of the sealed candidate. *)
Definition agree (c c' : ShareChain) : Prop := ∀ i e e', entries_ c !! i = Some e → entries_ c' !! i = Some e' → share e' = share e.
Definition grown (c c' : ShareChain) : Prop := ∀ i e, entries_ c !! i = Some e → entries_ c' !! i = Some e.
Definition placed (c : ShareChain) (cur : option ShareId) : Prop := match cur with None => True | Some i => is_Some (entries_ c !! i) end.
Lemma added_grown c s r emb c' cw : added c s r emb c' cw → grown c c'.
Proof. intros [Hf _ _ _ _ Ee _] i e Hi. rewrite Ee, lookup_insert_ne; [done|]. intros <-. congruence. Qed.
Lemma grown_agree c c' : grown c c' → agree c c'.
Proof. intros Hg i e e' Hi Hi'. rewrite (Hg i e Hi) in Hi'. congruence. Qed.
Lemma grown_placed c c' cur : grown c c' → placed c cur → placed c' cur.
Proof. intros Hg. destruct cur; [|done]. intros [e He]. exists e. by apply Hg. Qed.
Lemma prev_placed c i e : wf c → entries_ c !! i = Some e → placed c (prev (share e)).
Proof. intros Hwf Hi. destruct (prev (share e)) as [p|] eqn:Ep; [|done]. destruct (wf_prev c Hwf i e p Hi Ep) as (pe & ? & _). by exists pe. Qed.
Lemma back_agree n c c' cur : wf c → wf c' → agree c c' → placed c cur → placed c' cur → back n c' cur = back n c cur.
Proof.
  intros Hwf Hwf' Ha. revert cur. induction n as [|n IH]; intros [i|] Hp Hp'; try done. destruct Hp as [e Hi], Hp' as [e' Hi']. cbn [back].
  rewrite Hi, Hi', (Ha i e e' Hi Hi'). f_equal. apply IH; [by eapply prev_placed|]. rewrite <- (Ha i e e' Hi Hi'). by eapply prev_placed.
Qed.
Lemma back_known n c cur s : wf c → s ∈ back n c cur → ∃ e, entries_ c !! id s = Some e ∧ share e = s.
Proof.
  intros Hwf. revert cur. induction n as [|n IH]; intros [i|]; cbn [back]; try (intros Hs; by apply elem_of_nil in Hs).
  destruct (entries_ c !! i) as [e|] eqn:Hi; [|intros Hs; by apply elem_of_nil in Hs].
  intros [->|Hs]%elem_of_cons; [|eauto]. exists e. by rewrite (wf_id c Hwf i e Hi).
Qed.
Lemma credits_agree c c' s : wf c → wf c' → agree c c' → (∃ e, entries_ c !! id s = Some e ∧ share e = s) →
  (∃ e, entries_ c' !! id s = Some e ∧ share e = s) → credits c' s = credits c s.
Proof.
  intros Hwf Hwf' Ha (e & Hi & Es) (e' & Hi' & Es'). unfold credits. f_equal.
  pose proof (wf_uncles c Hwf (id s) e) as Hu. pose proof (wf_uncles c' Hwf' (id s) e') as Hu'. rewrite Es in Hu. rewrite Es' in Hu'.
  induction (uncles s) as [|u us IH]; [done|]. cbn [omap list_omap].
  destruct (Hu u Hi ltac:(left)) as [ue Hue]. destruct (Hu' u Hi' ltac:(left)) as [ue' Hue'].
  rewrite Hue, Hue'. simpl. rewrite (Ha u ue ue' Hue Hue'). f_equal. apply IH; intros v _ Hv; [apply Hu|apply Hu']; (done || by right).
Qed.
Lemma payouts_agree c c' cur r : wf c → wf c' → agree c c' → placed c cur → placed c' cur → payouts_for c' cur r = payouts_for c cur r.
Proof.
  intros Hwf Hwf' Ha Hp Hp'. pose proof (back_agree PPLNS_WINDOW c c' cur Hwf Hwf' Ha Hp Hp') as Eb.
  unfold payouts_for, weigh. assert (credits c' <$> back PPLNS_WINDOW c' cur = credits c <$> back PPLNS_WINDOW c cur) as ->; [|done].
  rewrite Eb. apply list_fmap_ext. intros k s Hs. apply list_elem_of_lookup_2 in Hs.
  apply credits_agree; [done..| |]; [by eapply back_known|]. rewrite <- Eb in Hs. by eapply back_known.
Qed.

(** ** Branches end *)

Definition ids (l : list t) : list ShareId := id <$> l.
(** A branch walks down to a first share, one height per step. *)
Lemma back_branch n c i e : wf c → entries_ c !! i = Some e → (N.to_nat (height e) < n)%nat →
  length (back n c (Some i)) = S (N.to_nat (height e)) ∧ (∃ s, last (back n c (Some i)) = Some s ∧ prev s = None) ∧
  NoDup (ids (back n c (Some i))) ∧
  ∀ s, s ∈ back n c (Some i) → ∃ e', entries_ c !! id s = Some e' ∧ share e' = s ∧ height e' <= height e.
Proof.
  intros Hwf. revert i e. induction n as [|n IH]; intros i e Hi Hn; [lia|]. cbn [back]. rewrite Hi.
  pose proof (wf_id c Hwf i e Hi) as Eid. destruct (prev (share e)) as [p|] eqn:Ep.
  - destruct (wf_prev c Hwf i e p Hi Ep) as (pe & Hpe & Hh). destruct (IH p pe Hpe ltac:(lia)) as (Hl & (s & Hs & Hr) & Hnd & Hk).
    split_and!.
    + cbn [length]. rewrite Hl. lia.
    + exists s. split; [|done]. destruct (back n c (Some p)); [done|]. done.
    + cbn [ids fmap list_fmap]. constructor; [|done]. intros (s' & Es & Hin)%list_elem_of_fmap.
      destruct (Hk s' Hin) as (e' & He' & _ & Hle). rewrite <- Es, Eid, Hi in He'. injection He' as <-. lia.
    + intros s' [->|Hin]%elem_of_cons; [exists e; by rewrite Eid|]. destruct (Hk s' Hin) as (e' & ? & ? & ?). exists e'. split_and!; [done..|lia].
  - rewrite (wf_root c Hwf i e Hi Ep). destruct n; cbn [back]; (split_and!; [done|by eexists|repeat constructor; by intros ?%elem_of_nil|];
      intros s' [->|Hin%elem_of_nil]%elem_of_cons; [|done]; exists e; rewrite Eid; split_and!; [done..|]; rewrite (wf_root c Hwf i e Hi Ep); lia).
Qed.
Lemma height_lt_size c i e : wf c → entries_ c !! i = Some e → (N.to_nat (height e) < size (entries_ c))%nat.
Proof.
  intros Hwf Hi. destruct (back_branch (S (N.to_nat (height e))) c i e Hwf Hi ltac:(lia)) as (Hl & _ & Hnd & Hk).
  rewrite <- size_dom. change (S (N.to_nat (height e)) ≤ size (dom (entries_ c)))%nat. rewrite <- Hl.
  transitivity (size (list_to_set (ids (back (S (N.to_nat (height e))) c (Some i))) : gset ShareId)).
  - rewrite size_list_to_set by done. unfold ids. by rewrite length_fmap.
  - apply subseteq_size. intros x Hx. apply elem_of_list_to_set, list_elem_of_fmap in Hx as (s & -> & Hin).
    destruct (Hk s Hin) as (e' & He' & _). apply elem_of_dom. by eexists.
Qed.
(** More room than the chain has shares makes no difference. *)
Lemma back_enough n m c i e : wf c → entries_ c !! i = Some e → (N.to_nat (height e) < n)%nat → (N.to_nat (height e) < m)%nat →
  back n c (Some i) = back m c (Some i).
Proof.
  intros Hwf. revert m i e. induction n as [|n IH]; intros m i e Hi Hn Hm; [lia|]. destruct m as [|m]; [lia|]. cbn [back]. rewrite Hi.
  f_equal. destruct (prev (share e)) as [p|] eqn:Ep; [|by destruct n, m].
  destruct (wf_prev c Hwf i e p Hi Ep) as (pe & Hpe & Hh). eapply IH; [exact Hpe|lia..].
Qed.

(** ** Payouts add up *)

Definition sumw (l : list (AccountId * N)) : N := foldr (λ e n, e.2 + n) 0 l.
Definition total_of (m : gmap AccountId N) : N := map_sum (λ w, w) m.
Lemma sumw_perm l l' : l ≡ₚ l' → sumw l = sumw l'.
Proof. unfold sumw. induction 1; simpl; lia. Qed.
Lemma total_entries m : total_of m = sumw (entries m).
Proof.
  rewrite (sumw_perm _ _ (entries_perm m)). unfold total_of, map_sum. rewrite map_fold_foldr. unfold sumw.
  induction (map_to_list m) as [|[k v] l IH]; simpl; [done|]. by rewrite IH.
Qed.
Lemma total_bump m k d : total_of (<[k := default 0 (m !! k) + d]> m) = total_of m + d.
Proof.
  unfold total_of. rewrite map_sum_insert, (map_sum_split _ m k). destruct (m !! k); simpl; lia.
Qed.
Lemma u128_wrap_small n : n < 2 ^ 128 → u128_wrap n = n.
Proof. apply N.mod_small. Qed.
Lemma lookup_le_total m k : default 0 (m !! k) <= total_of m.
Proof. destruct (m !! k) as [v|] eqn:E; simpl; [|lia]. by apply (map_sum_lookup_le (λ w, w) m k v). Qed.
Lemma credit_sum l ws : total_of ws + sumw l < 2 ^ 128 →
  let '(ws', tot) := foldl credit (ws, total_of ws) l in tot = total_of ws + sumw l ∧ total_of ws' = tot.
Proof.
  revert ws. induction l as [|[k w] l IH]; intros ws Hl; [simpl in *; lia|]. cbn [foldl]. unfold credit at 2. cbn [fst snd].
  cbn [sumw foldr snd] in Hl. change (foldr (λ e n, e.2 + n) 0 l) with (sumw l) in Hl. pose proof (lookup_le_total ws k).
  unfold add128. rewrite !u128_wrap_small by lia. rewrite <- (total_bump ws k w). specialize (IH (<[k:=default 0 (ws !! k) + w]> ws)).
  rewrite total_bump in IH |- *. specialize (IH ltac:(lia)). destruct (foldl credit _ l) as [ws' tot]. cbn [sumw foldr snd]. fold (sumw l). lia.
Qed.

(** What every account gets before the remainder. *)
Definition floors (r tot : N) (l : list (AccountId * N)) : N := foldr (λ e n, r * e.2 / tot + n) 0 l.
Lemma floors_le r tot l : tot ≠ 0 → floors r tot l * tot <= r * sumw l.
Proof.
  intros Ht. induction l as [|[k w] l IH]; simpl; [lia|]. fold (floors r tot l) (sumw l).
  pose proof (N.Div0.mul_div_le (r * w) tot). lia.
Qed.
Lemma cut_sum r tot l out a : tot ≠ 0 → r * sumw l < 2 ^ 128 → a + floors r tot l < 2 ^ 128 →
  NoDup l.*1 → (∀ k, k ∈ l.*1 → out !! k = None) →
  let '(out', a') := foldl (cut r tot) (out, a) l in a' = a + floors r tot l ∧ total_of out' = total_of out + floors r tot l.
Proof.
  intros Ht. revert out a. induction l as [|[k w] l IH]; intros out a Hr Ha Hn Hk; [simpl; lia|].
  cbn [floors foldr sumw snd] in *. change (foldr (λ e n, e.2 + n) 0 l) with (sumw l) in *.
  change (foldr (λ e n, r * e.2 / tot + n) 0 l) with (floors r tot l) in *. cbn [fmap list_fmap fst] in *.
  apply NoDup_cons in Hn as [Hn1 Hn2]. cbn [foldl]. unfold cut at 2. cbn [fst snd]. unfold mul128, add128.
  rewrite (u128_wrap_small (r * w)) by lia. destruct (N.ltb_spec 0 (r * w / tot)) as [Hc|Hc].
  - rewrite u128_wrap_small by lia. specialize (IH (<[k := r * w / tot]> out) (a + r * w / tot) ltac:(lia) ltac:(lia) Hn2).
    assert (∀ x, x ∈ l.*1 → <[k := r * w / tot]> out !! x = None) as Hx.
    { intros x Hx. rewrite lookup_insert_ne by (by intros ->). apply Hk. by right. }
    specialize (IH Hx). destruct (foldl (cut r tot) _ l) as [out' a']. destruct IH as [-> ->].
    unfold total_of. rewrite map_sum_insert_None by (apply Hk; left). lia.
  - apply N.le_0_r in Hc. rewrite Hc in *. rewrite !N.add_0_l. apply IH; [lia|lia|done|]. intros x Hx. apply Hk. by right.
Qed.
Lemma largest_Some l : l ≠ [] → is_Some (largest l).
Proof.
  intros Hl. assert (∀ l b, is_Some (foldl (λ best x, match best with Some b => if richer b x then Some b else Some x | None => Some x end) (Some b) l)) as Hs.
  { intros l'. induction l' as [|x l' IH]; intros b; simpl; [eauto|]. destruct (richer b x); apply IH. }
  destruct l as [|x l]; [done|]. unfold largest. cbn [foldl]. apply Hs.
Qed.
Lemma split_sum ws r : total_of ws ≠ 0 → r ≠ 0 → r * total_of ws < 2 ^ 128 → total_of (split ws (total_of ws) r) = r.
Proof.
  intros Ht Hr Hf. unfold split. rewrite (proj2 (N.eqb_neq _ _) Ht), (proj2 (N.eqb_neq _ _) Hr). cbn [orb].
  pose proof (floors_le r (total_of ws) (entries ws) Ht) as Hle. rewrite <- total_entries in Hle.
  assert (floors r (total_of ws) (entries ws) <= r) as Hfl by nia. assert (r < 2 ^ 128) as Hr128 by nia.
  pose proof (cut_sum r (total_of ws) (entries ws) ∅ 0 Ht) as Hc. rewrite <- total_entries in Hc.
  specialize (Hc Hf ltac:(lia)). assert (NoDup (entries ws).*1) as Hn by (rewrite entries_perm; apply NoDup_fst_map_to_list).
  specialize (Hc Hn ltac:(intros; apply lookup_empty)). destruct (foldl (cut r (total_of ws)) (∅, 0) (entries ws)) as [out a].
  destruct Hc as [-> Hs]. unfold total_of at 2 in Hs. rewrite map_sum_empty, N.add_0_l in *.
  destruct (N.ltb_spec (floors r (total_of ws) (entries ws)) r) as [Hlt|]; [|lia].
  destruct (largest_Some (entries ws)) as [[k w] ->].
  { intros E. apply Ht. rewrite total_entries, E. done. }
  pose proof (lookup_le_total out k). unfold add128. rewrite u128_wrap_small by lia. rewrite total_bump. lia.
Qed.
(** The weights of the window behind [parent], and whether splitting [r] by them stays
    within 128 bits. *)
Definition window_work (c : ShareChain) (parent : option ShareId) : N := sumw (concat (credits c <$> back PPLNS_WINDOW c parent)).
Lemma payouts_sum c parent r : window_work c parent < 2 ^ 128 → r * window_work c parent < 2 ^ 128 →
  total_of (payouts_for c parent r) = if window_work c parent =? 0 then 0 else r.
Proof.
  intros Hw Hf. unfold payouts_for, weigh. fold (window_work c parent) in *.
  pose proof (credit_sum (concat (credits c <$> back PPLNS_WINDOW c parent)) ∅) as Hc.
  change (total_of ∅) with 0 in Hc. fold (window_work c parent) in Hc. specialize (Hc Hw).
  destruct (foldl credit _ _) as [ws tot]. rewrite N.add_0_l in Hc. destruct Hc as [-> Hc].
  destruct (N.eqb_spec (window_work c parent) 0) as [E|E]; [unfold split; by rewrite E|].
  destruct (decide (r = 0)) as [->|Hr]; [unfold split; by rewrite orb_true_r|]. rewrite <- Hc in *. by apply split_sum.
Qed.

(** ** Any shares in any order *)

Definition offer : Type := t * N * Payouts.
(** The chain after offering shares with their rewards and payouts, and those accepted. *)
Fixpoint replay (c : ShareChain) (os : list offer) : ShareChain * list offer :=
  match os with
  | [] => (c, [])
  | (s, r, emb) :: os =>
      match accept c s r emb with
      | Ok c => let '(c, acc) := replay c os in (c, (s, r, emb) :: acc)
      | Err _ => replay c os
      end
  end.
Lemma grown_trans c1 c2 c3 : grown c1 c2 → grown c2 c3 → grown c1 c3.
Proof. unfold grown. eauto. Qed.
Lemma replay_wf c os : wf c → wf (replay c os).1 ∧ grown c (replay c os).1.
Proof.
  revert c. induction os as [|[[s r] emb] os IH]; intros c Hwf; [by split; [|intros i e]|]. cbn [replay].
  destruct (accept c s r emb) as [c1|] eqn:Ea; [|by apply IH]. apply accept_added in Ea as [cw Ha].
  pose proof (added_wf _ _ _ _ _ _ Hwf Ha) as Hwf1. destruct (IH c1 Hwf1) as [Hw Hg]. destruct (replay c1 os) as [c2 acc].
  split; [done|]. eapply grown_trans; [by eapply added_grown|done].
Qed.
Lemma replay_pays c os s r emb : wf c → (s, r, emb) ∈ (replay c os).2 → is_block s = true →
  emb = payouts_for (replay c os).1 (prev s) r ∧ placed (replay c os).1 (prev s).
Proof.
  revert c. induction os as [|[[s' r'] emb'] os IH]; intros c Hwf Hin Hb; [by apply elem_of_nil in Hin|]. cbn [replay] in *.
  destruct (accept c s' r' emb') as [c1|] eqn:Ea; [|by apply IH]. apply accept_added in Ea as [cw Ha].
  pose proof (added_wf _ _ _ _ _ _ Hwf Ha) as Hwf1. destruct (replay_wf c1 os Hwf1) as [Hwf2 Hg2].
  specialize (IH c1 Hwf1). destruct (replay c1 os) as [c2 acc]. cbn [fst snd] in *. apply elem_of_cons in Hin as [[= -> -> ->]|Hin]; [|by apply IH].
  assert (grown c c2) as Hg by (eapply grown_trans; [by eapply added_grown|done]).
  assert (placed c (prev s')) as Hp by exact (ad_parent _ _ _ _ _ _ Ha). split; [|by eapply grown_placed].
  rewrite (payouts_agree c c2); [by apply (ad_pays _ _ _ _ _ _ Ha)|done|done|by apply grown_agree|done|by eapply grown_placed].
Qed.

(** C23: whatever shares are offered, in whatever order, with whatever payouts: the tip is a
    share of greatest work and every branch goes down to a first share; a share that
    carries a block was accepted only with the payouts the final chain computes for its
    window; these add up to the reward, as long as reward times window work is below
    2{^128} and the window has any work: a block share without a parent has an empty
    window and pays nobody.  And two pools in which an id means one share compute the
    same payouts behind every share both know. *)
Theorem pool_pays_window os os' : let '(c, acc) := replay new os in let '(c', _) := replay new os' in
  (∀ i e, entries_ c !! i = Some e → cumulative_work e <= tip_work c ∧
     ∃ s, last (back (S (size (entries_ c))) c (Some i)) = Some s ∧ prev s = None) ∧
  (∀ s r emb, (s, r, emb) ∈ acc → is_block s = true → emb = payouts_for c (prev s) r ∧
     (window_work c (prev s) < 2 ^ 128 → r * window_work c (prev s) < 2 ^ 128 →
      total_of emb = if window_work c (prev s) =? 0 then 0 else r)) ∧
  (agree c c' → ∀ parent r, placed c parent → placed c' parent → payouts_for c' parent r = payouts_for c parent r).
Proof.
  pose proof (replay_wf new os wf_new) as [Hwf _]. pose proof (replay_wf new os' wf_new) as [Hwf' _].
  pose proof (replay_pays new os) as Hpay. destruct (replay new os) as [c acc], (replay new os') as [c' acc']. cbn [fst snd] in *.
  split_and!.
  - intros i e Hi. split; [by eapply wf_best|]. pose proof (height_lt_size c i e Hwf Hi).
    destruct (back_branch (S (size (entries_ c))) c i e Hwf Hi ltac:(lia)) as (_ & Hl & _). exact Hl.
  - intros s r emb Hin Hb. destruct (Hpay s r emb wf_new Hin Hb) as [-> _]. split; [done|]. apply payouts_sum.
  - intros Ha parent r. by apply payouts_agree.
Qed.

(** ** Uncles *)

Lemma ancestry_spec n c i e set : wf c → entries_ c !! i = Some e → (N.to_nat (height e) < n)%nat →
  (∀ x, x ∈ ids (back n c (Some i)) → x ∉ set) → ancestry n c (Some i) set = set ∪ list_to_set (ids (back n c (Some i))).
Proof.
  intros Hwf. revert i e set. induction n as [|n IH]; intros i e set Hi Hn Hd; [lia|].
  destruct (back_branch (S n) c i e Hwf Hi Hn) as (_ & _ & Hnd & _). cbn [ancestry back] in *. rewrite Hi in *.
  cbn [ids fmap list_fmap] in *. rewrite (wf_id c Hwf i e Hi) in *. rewrite decide_False by (apply Hd; left). cbn [mbind option_bind].
  apply NoDup_cons in Hnd as [Hn1 _]. destruct (prev (share e)) as [p|] eqn:Ep.
  - destruct (wf_prev c Hwf i e p Hi Ep) as (pe & Hpe & Hh). rewrite (IH p pe); [rewrite list_to_set_cons; set_solver|done|lia|].
    intros x Hx Hin. apply elem_of_union in Hin as [->%elem_of_singleton|Hin]; [done|]. apply (Hd x); [by right|done].
  - destruct n; cbn [ancestry back]; rewrite list_to_set_cons; set_solver.
Qed.
(** The shares behind [i], itself included. *)
Definition branch (c : ShareChain) (i : ShareId) : list ShareId := ids (back (S (size (entries_ c))) c (Some i)).
Lemma ancestors_branch c i : wf c → is_Some (entries_ c !! i) → ancestors c (Some i) = list_to_set (branch c i).
Proof.
  intros Hwf [e Hi]. pose proof (height_lt_size c i e Hwf Hi). unfold ancestors, branch.
  rewrite (ancestry_spec _ c i e); [|done|done|lia|intros; apply not_elem_of_empty].
  rewrite (back_enough (S (S (size (entries_ c)))) (S (size (entries_ c))) c i e) by (done || lia). set_solver.
Qed.
(** No uncle of an accepted share is behind it. *)
Lemma uncle_not_behind c s r emb c' p u : wf c → accept c s r emb = Ok c' → prev s = Some p → u ∈ uncles s →
  (u ∉ branch c p) ∧ u ≠ id s.
Proof.
  intros Hwf Ha Ep Hu. apply accept_added in Ha as [cw [_ _ Hp (w & Hl & _) _ _ _]]. rewrite Ep in Hp, Hl.
  apply uncle_loop_known in Hl as [Hl _]. rewrite Forall_forall in Hl. destruct (Hl u Hu) as (_ & Hn & _ & Hs).
  rewrite ancestors_branch in Hn by done. split; [|done]. by rewrite elem_of_list_to_set in Hn.
Qed.

(** One share after the other on top of [p], each with the uncle [u]. *)
Fixpoint with_uncle (p u : ShareId) (f : AccountId) (w : N) (l : list ShareId) : list t :=
  match l with
  | [] => []
  | i :: l => mkShare i (Some p) [u] f w false 0 :: with_uncle i u f w l
  end.
Lemma accept_with_uncle c p u f w i pe ue : wf c → entries_ c !! p = Some pe → entries_ c !! u = Some ue → u ∉ branch c p → w ≠ 0 →
  entries_ c !! i = None → ∃ c', accept c (mkShare i (Some p) [u] f w false 0) 0 ∅ = Ok c' ∧ wf c' ∧
    entries_ c' = <[i := mkEntry (mkShare i (Some p) [u] f w false 0) (height pe + 1)
                          (add128 (add128 (cumulative_work pe) w) (add128 0 (uncle_weight (work (share ue)))))]> (entries_ c) ∧
    (u ∉ branch c' i).
Proof.
  intros Hwf Hp Hu Hnb Hw Hi.
  set (es := <[i := _]> (entries_ c)). assert (∃ tp, accept c (mkShare i (Some p) [u] f w false 0) 0 ∅ = Ok (mkChain es tp)) as [tp Ea].
  { eexists. unfold accept. cbn [id work prev uncles is_block]. rewrite decide_False by (rewrite Hi; by intros []).
    rewrite (proj2 (N.eqb_neq _ _) Hw), Hp. cbn [mbind result_bind uncle_loop]. rewrite ancestors_branch by (done || eauto).
    rewrite (bool_decide_false (u = i)) by congruence. rewrite (bool_decide_false (u ∈ list_to_set _)) by (by rewrite elem_of_list_to_set).
    rewrite (bool_decide_false (u ∈ ∅)) by set_solver. cbn [orb]. rewrite Hu.
    cbn [mbind result_bind andb fmap option_fmap option_map default]. reflexivity. }
  exists (mkChain es tp). split; [exact Ea|]. pose proof Ea as Ha. apply accept_added in Ha as [cw Ha]. pose proof (added_wf _ _ _ _ _ _ Hwf Ha) as Hwf'.
  split; [done|]. split; [done|]. set (c' := mkChain es tp) in *. pose proof (added_grown _ _ _ _ _ _ Ha) as Hg. simpl in Ha.
  assert (branch c' i = i :: branch c p) as Eb.
  { assert (∃ h x, entries_ c' !! i = Some (mkEntry (mkShare i (Some p) [u] f w false 0) h x)) as (h & x & Hi')
      by (eexists _, _; apply lookup_insert_eq).
    assert (back (size (entries_ c')) c' (Some p) = back (S (size (entries_ c))) c (Some p)) as Ebk.
    { rewrite (back_agree _ c c'); [|done|done|by apply grown_agree|by exists pe|exists pe; by apply Hg].
      pose proof (height_lt_size c p pe Hwf Hp). apply (back_enough _ _ c p pe Hwf Hp); [|lia].
      unfold c', es. cbn [entries_]. rewrite map_size_insert_None by done. lia. }
    unfold branch. cbn [back]. rewrite Hi'. cbn [share ids fmap list_fmap id prev]. by rewrite Ebk. }
  rewrite Eb, not_elem_of_cons. split; [|done]. intros ->. congruence.
Qed.
(** The rules look at the uncles of one share at a time, so a share can be uncle to every
    share on a branch: however many refer to it, all are accepted, and each adds three
    quarters of its work to the branch once more. *)
Theorem uncle_counts_again l c p u f w pe ue : wf c → entries_ c !! p = Some pe → entries_ c !! u = Some ue → u ∉ branch c p →
  w ≠ 0 → NoDup l → (∀ i, i ∈ l → entries_ c !! i = None) →
  let os := (λ s, (s, 0, ∅)) <$> with_uncle p u f w l in
  (replay c os).2 = os ∧ ∃ e, entries_ (replay c os).1 !! default p (last l) = Some e ∧
    cumulative_work e mod 2 ^ 128 =
    (cumulative_work pe + N.of_nat (length l) * (w + uncle_weight (work (share ue)))) mod 2 ^ 128.
Proof.
  revert c p pe. induction l as [|i l IH]; intros c p pe Hwf Hp Hu Hnb Hw Hnd Hf.
  { split; [done|]. exists pe. split; [done|]. f_equal. simpl. lia. }
  apply NoDup_cons in Hnd as [Hi Hnd]. cbn [with_uncle fmap list_fmap replay].
  destruct (accept_with_uncle c p u f w i pe ue Hwf Hp Hu Hnb Hw (Hf i ltac:(left))) as (c' & -> & Hwf' & Ee & Hnb').
  assert (i ≠ u) by (intros ->; rewrite (Hf u ltac:(left)) in Hu; done).
  destruct (IH c' i (mkEntry (mkShare i (Some p) [u] f w false 0) (height pe + 1)
      (add128 (add128 (cumulative_work pe) w) (add128 0 (uncle_weight (work (share ue)))))) Hwf') as (Ea & e & He & Hc).
  { by rewrite Ee, lookup_insert_eq. }
  { by rewrite Ee, lookup_insert_ne. }
  { done. }
  { done. }
  { done. }
  { intros j Hj. rewrite Ee, lookup_insert_ne by (by intros ->). apply Hf. by right. }
  destruct (replay c' _) as [c2 acc]. cbn [fst snd] in *. split; [by rewrite Ea|]. exists e. split.
  { rewrite last_cons. by destruct (last l). }
  rewrite Hc. cbn [cumulative_work]. unfold add128, u128_wrap. rewrite N.add_0_l.
  rewrite <- N.Div0.add_mod, N.Div0.add_mod_idemp_l. f_equal. cbn [length]. lia.
Qed.
End ShareSpec.

(** ** The wire *)

Module ShareWireSpec.
Import Share ShareWire.

(** [m] reads [b] as [a] and leaves what follows. *)
Definition reads {A} (m : reader A) (b : bytes) (a : A) : Prop := ∀ rest, m (b ++ rest) = Ok (a, rest).
Lemma reads_bind {A B} (m : reader A) (f : A → reader B) b b' a x : reads m b a → reads (f a) b' x → reads (m ≫= f) (b ++ b') x.
Proof. intros Hm Hf rest. unfold mbind, reader_bind. by rewrite <- app_assoc, Hm. Qed.
Lemma reads_ret {A} (a : A) : reads (mret a) [] a.
Proof. done. Qed.
(** The last reader of a sequence. *)
Lemma reads_last {A B} (m : reader A) (f : A → B) b a : reads m b a → reads (x ← m; mret (f x)) b (f a).
Proof. intros Hm. rewrite <- (app_nil_r b). by eapply reads_bind. Qed.
Lemma reads_take n b : length b = n → reads (r_take n) b b.
Proof.
  intros <- rest. unfold r_take. rewrite (proj2 (Nat.ltb_ge _ _)) by (rewrite length_app; lia).
  by rewrite take_app_length, drop_app_length.
Qed.
Lemma reads_u8 n : reads r_u8 [n] n.
Proof. apply (reads_last (r_take 1) (hd 0) [n] [n]). by apply reads_take. Qed.
Lemma reads_le n v : v < 256 ^ N.of_nat n → reads (b ← r_take n; mret (le_val b)) (to_le n v) v.
Proof. intros Hv. rewrite <- (le_to_le n v Hv) at 2. apply (reads_last (r_take n) le_val). apply reads_take, length_to_le. Qed.
Lemma reads_id i : reads r_id (as_bytes i) i.
Proof.
  unfold r_id. rewrite <- (app_nil_r (as_bytes i)). eapply reads_bind; [apply reads_take, length_as_bytes|].
  rewrite Hash_try_from_as_bytes. apply reads_ret.
Qed.
Lemma reads_opt_id i : reads r_opt_id (put_opt_id i) i.
Proof.
  unfold r_opt_id. destruct i as [i|].
  - change (put_opt_id (Some i)) with ([1] ++ as_bytes i). eapply reads_bind; [apply reads_u8|]. simpl. by apply reads_last, reads_id.
  - change (put_opt_id None) with ([0] ++ []). eapply reads_bind; [apply reads_u8|]. apply reads_ret.
Qed.
Lemma AccountId_new_as_str a : AccountId_new (as_str a) = Ok a.
Proof.
  unfold AccountId_new. destruct (AccountId_build_valid (as_str a) _ eq_refl (as_str_valid a)) as [b Hb]. rewrite Hb. f_equal.
  apply as_str_inj. by apply AccountId_build_Ok in Hb.
Qed.
Lemma acc_length a : 0 < N.of_nat (length (acc_bytes a)) <= 64.
Proof.
  destruct (validate_ok _ (as_str_valid a)) as [_ Hl]. unfold acc_bytes. lia.
Qed.
Lemma reads_account a : reads r_account ([N.of_nat (length (acc_bytes a)) mod 256] ++ acc_bytes a) a.
Proof.
  pose proof (acc_length a) as Hl. rewrite N.mod_small by lia. unfold r_account. eapply reads_bind; [apply reads_u8|]. cbn beta.
  unfold MAX_ACCOUNT_LEN. rewrite (proj2 (N.eqb_neq _ _)), (proj2 (N.ltb_ge _ _)) by lia. cbn [orb].
  rewrite <- (app_nil_r (acc_bytes a)) at 2. eapply reads_bind; [apply reads_take; by rewrite Nat2N.id|].
  unfold acc_bytes. rewrite bytes_string_bytes, AccountId_new_as_str. apply reads_ret.
Qed.
Lemma reads_list {A} (m : reader A) (put : A → bytes) l : Forall (λ a, reads m (put a) a) l → reads (r_list m (length l)) (concat (put <$> l)) l.
Proof.
  induction 1 as [|a l Ha Hl IH]; [apply reads_ret|]. cbn [length r_list fmap list_fmap concat]. eapply reads_bind; [exact Ha|]. by apply reads_last.
Qed.

Definition share_ok (s : t) : Prop := (length (uncles s) ≤ 8)%nat ∧ work s < 2 ^ 128 ∧ timestamp_ms s < 2 ^ 64.
Definition message_ok (m : ShareMessage) : Prop :=
  match m with
  | Announce s => share_ok s
  | Shares l => (length l ≤ 256)%nat ∧ Forall share_ok l
  | _ => True
  end.
Lemma reads_share s : share_ok s → reads get_share (put_share s) s.
Proof.
  intros (Hu & Hw & Ht). unfold get_share, put_share. eapply reads_bind; [apply reads_id|]. eapply reads_bind; [apply reads_opt_id|].
  eapply reads_bind; [apply reads_u8|]. cbn beta. rewrite N.mod_small by lia. unfold MAX_UNCLES. rewrite (proj2 (N.ltb_ge _ _)) by lia.
  rewrite Nat2N.id. eapply reads_bind; [apply reads_list, Forall_true, reads_id|].
  rewrite (app_assoc [_] (acc_bytes _)). eapply reads_bind; [apply reads_account|]. eapply reads_bind; [by apply reads_le|].
  eapply reads_bind; [apply reads_u8|]. rewrite <- (app_nil_r (to_le 8 _)). eapply reads_bind; [by apply reads_le|].
  replace (negb ((if is_block s then 1 else 0) =? 0)) with (is_block s) by (by destruct (is_block s)). destruct s. apply reads_ret.
Qed.
Lemma reads_message m : message_ok m → reads r_message (encode m) m.
Proof.
  intros Hm. unfold r_message. destruct m as [g tip|s|after|l]; cbn [encode].
  - change (1 :: ?x) with ([1] ++ x). eapply reads_bind; [apply reads_u8|]. eapply reads_bind; [apply reads_id|]. by apply reads_last, reads_opt_id.
  - change (2 :: ?x) with ([2] ++ x). eapply reads_bind; [apply reads_u8|]. by apply reads_last, reads_share.
  - change (3 :: ?x) with ([3] ++ x). eapply reads_bind; [apply reads_u8|]. by apply reads_last, reads_opt_id.
  - destruct Hm as [Hl Hs]. change (4 :: ?x) with ([4] ++ x). eapply reads_bind; [apply reads_u8|].
    eapply reads_bind; [apply reads_le; simpl; lia|]. cbn beta. unfold MAX_SHARES_PER_MESSAGE. rewrite (proj2 (N.ltb_ge _ _)) by lia.
    rewrite Nat2N.id. apply reads_last, reads_list. eapply Forall_impl; [exact Hs|]. apply reads_share.
Qed.
Lemma length_put_share s : share_ok s → (length (put_share s) ≤ 412)%nat.
Proof.
  intros (Hu & _). unfold put_share. rewrite !length_app, !length_to_le, length_as_bytes. cbn [length]. pose proof (acc_length (finder s)).
  assert (length (concat (as_bytes <$> uncles s)) = 32 * length (uncles s))%nat as ->.
  { induction (uncles s) as [|u us IH]; [done|]. cbn [fmap list_fmap concat length]. rewrite length_app, length_as_bytes. simpl in Hu. rewrite IH; lia. }
  assert (length (put_opt_id (prev s)) ≤ 33)%nat by (destruct (prev s); simpl; rewrite ?length_as_bytes; lia). lia.
Qed.
Lemma length_encode m : message_ok m → N.of_nat (length (encode m)) <= 105477.
Proof.
  assert (∀ i, length (put_opt_id i) ≤ 33)%nat as Hi by (intros [i|]; simpl; rewrite ?length_as_bytes; lia).
  destruct m as [g tip|s|after|l]; cbn [encode length]; intros Hm.
  - rewrite length_app, length_as_bytes. specialize (Hi tip). lia.
  - pose proof (length_put_share s Hm). lia.
  - specialize (Hi after). lia.
  - destruct Hm as [Hl Hs]. rewrite length_app, length_to_le. assert (length (concat (put_share <$> l)) ≤ 412 * length l)%nat; [|lia].
    clear Hl. induction Hs as [|s l Hs Hl IH]; [done|]. cbn [fmap list_fmap concat length]. rewrite length_app. pose proof (length_put_share s Hs). lia.
Qed.
(** Every message within the limits is decoded from its encoding, which fits a frame. *)
Theorem share_wire_roundtrip m : message_ok m → decode (encode m) = Ok m.
Proof.
  intros Hm. unfold decode. pose proof (length_encode m Hm). unfold MAX_FRAME_BYTES. rewrite (proj2 (N.ltb_ge _ _)) by lia.
  rewrite <- (app_nil_r (encode m)). by rewrite (reads_message m Hm []).
Qed.
End ShareWireSpec.

(** ** The gossip endpoint *)

Module GossipSpec.
Import ShareWire Gossip.

Definition cost_of (q : list (SocketAddr * ShareMessage * N)) : N := foldr (λ e n, e.2 + n) 0 q.
Definition inbox_ok (i : Inbox) : Prop := queued i = cost_of (queue i) ∧ queued i <= MAX_INBOX_BYTES.
Lemma gossip_evict q : ∃ k, evict q (cost_of q) = mkInbox (drop k q) (cost_of (drop k q)) ∧ cost_of (drop k q) <= MAX_INBOX_BYTES.
Proof.
  induction q as [|e q (k & E & Hk)]; cbn [evict].
  { exists 0%nat. simpl. destruct (N.ltb_spec MAX_INBOX_BYTES 0); split; try done; unfold MAX_INBOX_BYTES in *; lia. }
  destruct (N.ltb_spec MAX_INBOX_BYTES (cost_of (e :: q))) as [Hlt|Hle]; [|by exists 0%nat].
  exists (S k). cbn [drop cost_of foldr]. fold (cost_of q). replace (e.2 + cost_of q - e.2) with (cost_of q) by lia. done.
Qed.
Lemma gossip_cost_app q q' : cost_of (q ++ q') = cost_of q + cost_of q'.
Proof. induction q as [|e q IH]; simpl; [done|]. fold (cost_of (q ++ q')) (cost_of q). rewrite IH. lia. Qed.
Lemma gossip_push i from m n : inbox_ok i → inbox_ok (push i from m n) ∧ ∃ k, queue (push i from m n) = drop k (queue i ++ [(from, m, n)]).
Proof.
  intros [Hq _]. unfold push. rewrite Hq. replace (cost_of (queue i) + n) with (cost_of (queue i ++ [(from, m, n)])).
  2:{ rewrite gossip_cost_app. simpl. lia. }
  destruct (gossip_evict (queue i ++ [(from, m, n)])) as (k & -> & Hk). split; [by split|by exists k].
Qed.
(** The slots of an endpoint are counted before a handshake and taken after it: as many
    dialers as are shaking hands at once are let in beyond the limit. *)
Definition dialers : list SocketAddr := (λ n, ([10; 0; 0; N.of_nat n], 9700)) <$> seq 0 65.
Theorem slots_overrun : slot_free bind = true ∧ (MAX_PEERS < size (peers (foldl peer_up bind dialers)))%nat.
Proof. split; [vm_compute; reflexivity|]. apply Nat.ltb_lt. vm_compute. reflexivity. Qed.
End GossipSpec.

(** ** A pool at work *)

Module ShareRun.
Import Share ShareSpec.

Definition alice : AccountId := mkAccountId "alice.sov" eq_refl.
Definition bob : AccountId := mkAccountId "bob.sov" eq_refl.
Definition carol : AccountId := mkAccountId "carol.sov" eq_refl.
Definition sid (n : N) : ShareId := Toy.hash_of n.
Definition s1 : t := mkShare (sid 1) None [] alice 100 false 1000.
Definition s2 : t := mkShare (sid 2) (Some (sid 1)) [] bob 50 false 9000.
Definition s3 : t := mkShare (sid 3) (Some (sid 1)) [] carol 40 false 9500.
Definition s4 : t := mkShare (sid 4) (Some (sid 2)) [sid 3] bob 60 false 20000.
Definition first : list offer := [(s1, 0, ∅); (s2, 0, ∅); (s3, 0, ∅); (s4, 0, ∅)].
(** A block by carol that keeps the reward, and one that pays the window. *)
Definition greedy : offer := (mkShare (sid 5) (Some (sid 4)) [] carol 70 true 31000, 1000, {[ carol := 1000 ]}).
Definition fair : offer :=
  (mkShare (sid 6) (Some (sid 4)) [] carol 70 true 31000, 1000, payouts_for (replay new first).1 (Some (sid 4)) 1000).
Definition pool : ShareChain := (replay new (first ++ [greedy; fair])).1.

#[local] Instance share_eq_dec : EqDecision t.
Proof. solve_decision. Defined.
#[local] Instance offer_eq_dec : EqDecision offer.
Proof. unfold offer. apply _. Defined.
(** Only the fair block is accepted; alice, bob and carol earn 100, 110 and three quarters
    of 40 of 240 parts. *)
Lemma fair_accepted : fair ∈ (replay new (first ++ [greedy; fair])).2.
Proof. apply (bool_decide_unpack _). vm_compute. exact I. Qed.
Lemma pool_pays_window_witness : total_of fair.2 = 1000 ∧ length (replay new (first ++ [greedy; fair])).2 = 5%nat ∧
  fair.2 = {[ alice := 416; bob := 459; carol := 125 ]}.
Proof.
  assert (window_work pool (Some (sid 4)) = 240) as W by (vm_compute; reflexivity).
  split; [|split; [vm_compute; reflexivity|apply (bool_decide_unpack _); vm_compute; exact I]].
  pose proof (pool_pays_window (first ++ [greedy; fair]) []) as H. pose proof fair_accepted as E. unfold pool in W.
  destruct (replay new (first ++ [greedy; fair])) as [c acc]. cbn [fst snd] in *.
  destruct H as (_ & Hp & _). destruct (Hp fair.1.1 1000 fair.2) as [_ Hs]; [exact E|reflexivity|].
  change (prev fair.1.1) with (Some (sid 4)) in Hs. rewrite W in Hs. apply Hs; reflexivity.
Defined.
End ShareRun.
