(* ===== verification/PqScan.v ===== *)
(** * A wallet's keys and note store (crates/shielded-pq/src/hd.rs, encrypt.rs, scan.rs)

    Keys derived from a leaf seed and the addresses they publish, notes encrypted to an
    address, and the incremental scan of a chain: which notes of the post-quantum pool a
    key owns, where they are in the tree and which are spent, with the roll back of a
    fork and the load of a stored scan; and, from node/src/gui.rs, the step that brings a
    stored scan back onto the node's chain.  ML-KEM and the AEAD are the classes of
    [Link], ML-DSA and the seeded key generations those of [WalletEnv], the stored form
    [StoreCodec]. *)

From stdpp Require Import vector.
From S2P Require Import Prelude Primitives Mining Crypto Compliance Types Smt Vault Ledger Gas Link.
From S2P Require Import ShieldedPq ShieldedV2 PqWire.
#[local] Open Scope N_scope.

Module Wallet.
Import Pq Wire Link.

(** ** What the wallet is built on *)

Class WalletEnv := {
  (** [ml_kem_768::KG::keygen_from_seed]: public and secret key *)
  kem_keygen_from_seed : bytes → bytes → bytes * bytes;
  (** [ml_dsa_65::KG::keygen_from_seed] *)
  dsa_keygen_from_seed : bytes → bytes * bytes;
  (** [try_sign_with_seed]: secret key, seed, message, context *)
  dsa_sign : bytes → bytes → bytes → bytes → option bytes;
}.
(** Key generation from seeds is key generation with that randomness; what a key signs its
    public half verifies. *)
Class WalletLaws `{Kem, AuthEnv, WalletEnv} := {
  seeded_keygen d z : kem_keygen (d ++ z) = Some (kem_keygen_from_seed d z);
  dsa_verifies xi seed msg ctx sig : dsa_sign (dsa_keygen_from_seed xi).2 seed msg ctx = Some sig →
    ml_dsa_verify (dsa_keygen_from_seed xi).1 msg sig ctx = true;
}.

Section wallet.
Context `{Rescue, Aead, Kem, AuthEnv, WalletEnv}.

(** ** Keys (hash.rs, note.rs, auth.rs, hd.rs) *)

Definition digest_from_bytes (domain : string) (l : bytes) : PqDigest :=
  let raw := derive_key domain l in
  [# limb_at raw 0 mod MODULUS; limb_at raw 1 mod MODULUS; limb_at raw 2 mod MODULUS; limb_at raw 3 mod MODULUS].
Definition spending_from_seed (seed : bytes) : PqDigest := digest_from_bytes "sov-shielded-pq:nsk:v2" seed.
Definition derive_rho (seed : bytes) (index : N) : PqDigest :=
  digest_from_bytes "sov-shielded-pq:rho:v2" (seed ++ u64_le index).

Record AuthKeypair := mkAuth { a_sk : bytes; a_pk : bytes; a_sign_seed : bytes }.
Definition auth_from_seed (seed : bytes) : AuthKeypair :=
  let '(pk, sk) := dsa_keygen_from_seed (derive_key "sov-shielded-pq:auth-keygen:v2" seed) in
  mkAuth sk pk (derive_key "sov-shielded-pq:auth-sign:v2" seed).
Definition auth_sign (k : AuthKeypair) (digest : bytes) : option bytes :=
  dsa_sign (a_sk k) (a_sign_seed k) digest (string_bytes "sov-shielded-pq:auth:v2").

Record PqShieldedKey := mkKey {
  spend_key : PqDigest; spend_seed : bytes; key_ek : bytes; key_dk : bytes; auth_key : AuthKeypair; rho_seed : bytes }.
Definition from_leaf_seed (leaf : bytes) : PqShieldedKey :=
  let spend_seed := derive_key "sov-shielded-pq:hd-spend:v2" leaf in
  let kem_d := derive_key "sov-shielded-pq:hd-kem-d:v2" leaf in
  let kem_z := derive_key "sov-shielded-pq:hd-kem-z:v2" leaf in
  let auth_seed := derive_key "sov-shielded-pq:hd-auth:v2" leaf in
  let rho_seed := derive_key "sov-shielded-pq:hd-rho:v2" leaf in
  let '(ek, dk) := kem_keygen_from_seed kem_d kem_z in
  mkKey (spending_from_seed spend_seed) spend_seed ek dk (auth_from_seed auth_seed) rho_seed.
Definition from_leaf_seed_suite2 (leaf : bytes) : PqShieldedKey :=
  from_leaf_seed (derive_key "sov-shielded-pq:hd-suite2:v1" leaf).
Definition tag_of (k : PqShieldedKey) : PqDigest := key_owner_tag (spend_key k).

Definition PQ_ADDRESS_LEN : nat := 32 + EK_LEN.
Record PqAddress := mkAddress { a_tag : PqDigest; a_ek : bytes }.
Definition address (k : PqShieldedKey) : PqAddress := mkAddress (tag_of k) (key_ek k).
Definition address_new (tag : PqDigest) (ek : bytes) : option PqAddress :=
  if bool_decide (tag = ZERO) then None else if ek_valid ek then Some (mkAddress tag ek) else None.
Definition address_to_bytes (a : PqAddress) : bytes := to_bytes (a_tag a) ++ a_ek a.
Definition address_from_bytes (l : bytes) : option PqAddress :=
  if negb (length l =? PQ_ADDRESS_LEN)%nat then None
  else tag ← from_bytes (take 32 l); address_new tag (drop 32 l).

(** ** Encrypted notes (encrypt.rs) *)

Inductive NoteEncryptionError := KemError (what : string) | DetectionTag | AeadError | InvalidPlaintext.
Definition derive_aead_key (shared : bytes) : bytes := derive_key "sov-shielded-pq:note-aead:v2" shared.
Definition derive_detection_tag (shared : bytes) : bytes := take 4 (derive_key "sov-shielded-pq:detect:v2" shared).
Definition zero_nonce : bytes := replicate 12 0.
Definition decrypt (dk : bytes) (ct : NoteCiphertext) : result NoteEncryptionError Note :=
  if negb (ct_valid (kem_ct ct)) then Err (KemError "ciphertext") else
  match kem_decaps dk (kem_ct ct) with
  | None => Err (KemError "decaps")
  | Some shared =>
      if negb (bool_decide (derive_detection_tag shared = detection_tag ct)) then Err DetectionTag else
      match aead_decrypt (derive_aead_key shared) zero_nonce (aead_ct ct) with
      | None => Err AeadError
      | Some pt =>
          if negb (length pt =? 72)%nat then Err InvalidPlaintext
          else ok_or (from_plaintext pt) InvalidPlaintext
      end
  end.
(** [seed] is the randomness of the encapsulation. *)
Definition encrypt_note (ek : bytes) (n : Note) (seed : bytes) : result NoteEncryptionError NoteCiphertext :=
  if negb (ek_valid ek) then Err (KemError "encaps key") else
  match kem_encaps ek seed with
  | None => Err (KemError "encaps")
  | Some (shared, ct) =>
      Ok (mkCiphertext ct (derive_detection_tag shared)
            (aead_encrypt (derive_aead_key shared) zero_nonce (to_plaintext n)))
  end.

(** ** The store (scan.rs) *)

Definition REORG_HORIZON : nat := 100.
Definition STORE_MAGIC : N := 1397772594.
Definition STORE_VERSION : N := 1.
Record ScanStats := mkStats {
  ciphertexts_examined : N; detection_hits : N; aead_failures : N; rejected_wrong_owner : N;
  rejected_commitment_mismatch : N; rejected_zero_value : N; rejected_duplicate_nullifier : N; notes_accepted : N }.
Definition no_stats : ScanStats := mkStats 0 0 0 0 0 0 0 0.
(** [self.stats.<counter> += 1], wrapping as in a release build. *)
Definition count_examined (st : ScanStats) : ScanStats := {| st with ciphertexts_examined := wadd (ciphertexts_examined st) 1 |}.
Definition count_hit (st : ScanStats) : ScanStats := {| st with detection_hits := wadd (detection_hits st) 1 |}.
Definition count_failure (st : ScanStats) : ScanStats := {| st with aead_failures := wadd (aead_failures st) 1 |}.
Definition count_wrong_owner (st : ScanStats) : ScanStats := {| st with rejected_wrong_owner := wadd (rejected_wrong_owner st) 1 |}.
Definition count_mismatch (st : ScanStats) : ScanStats := {| st with rejected_commitment_mismatch := wadd (rejected_commitment_mismatch st) 1 |}.
Definition count_zero (st : ScanStats) : ScanStats := {| st with rejected_zero_value := wadd (rejected_zero_value st) 1 |}.
Definition count_duplicate (st : ScanStats) : ScanStats := {| st with rejected_duplicate_nullifier := wadd (rejected_duplicate_nullifier st) 1 |}.
Definition count_accepted (st : ScanStats) : ScanStats := {| st with notes_accepted := wadd (notes_accepted st) 1 |}.
Record StoredNote := mkStored { sn_value : N; sn_rho : bytes; sn_position : N; sn_nullifier : bytes }.
Record Checkpoint := mkCheckpoint {
  cp_height : N; cp_hash : bytes; commitments_len : N; owned_len : N; spent_len : N }.
Record Persisted := mkPersisted {
  magic : N; version : N; p_birthday : N; p_height : N;
  commitments_ : list bytes; owned : list StoredNote; spent : list bytes; p_checkpoints : list Checkpoint }.
Record PqNoteStore := mkStore {
  data : Persisted; tree : CommitmentTree; spent_set : gset bytes; owned_nullifiers : gset bytes; stats : ScanStats }.

Definition store_new (birthday : N) : PqNoteStore :=
  mkStore (mkPersisted STORE_MAGIC STORE_VERSION birthday 0 [] [] [] []) tree_new ∅ ∅ no_stats.
Definition scanned_height (s : PqNoteStore) : N := p_height (data s).
Definition birthday (s : PqNoteStore) : N := p_birthday (data s).
Definition commitment_count (s : PqNoteStore) : N := N.of_nat (length (commitments_ (data s))).
Definition store_root (s : PqNoteStore) : PqDigest := tree_root (tree s).

(** *** Ingestion *)

Definition accept_note (key : PqShieldedKey) (owner_tag cm : PqDigest) (position : N) (n : Note) (s : PqNoteStore) : PqNoteStore :=
  if negb (bool_decide (Pq.owner_tag n = owner_tag)) then
    {| s with stats := count_wrong_owner (stats s) |}
  else if negb (bool_decide (note_commitment n = cm)) then
    {| s with stats := count_mismatch (stats s) |}
  else if value_grains n =? 0 then
    {| s with stats := count_zero (stats s) |}
  else
    let nf := to_bytes (nullifier (spend_key key) (rho n) position) in
    if decide (nf ∈ owned_nullifiers s) then
      {| s with stats := count_duplicate (stats s) |}
    else
      mkStore {| (data s) with owned := owned (data s) ++ [mkStored (value_grains n) (to_bytes (rho n)) position nf] |}
        (mark (tree s)).1 (spent_set s) ({[nf]} ∪ owned_nullifiers s)
        (count_accepted (stats s)).

(** An input slot: its dummy flag and nullifier. *)
Definition ingest_input (s : PqNoteStore) (e : bool * PqDigest) : PqNoteStore :=
  if e.1 then s else
  let nf := to_bytes e.2 in
  if decide (nf ∈ spent_set s) then s
  else {| s with data := {| (data s) with spent := spent (data s) ++ [nf] |}; spent_set := {[nf]} ∪ spent_set s |}.
(** An output slot: its dummy flag, commitment and ciphertext. *)
Definition ingest_output (key : PqShieldedKey) (decrypts : bool) (owner_tag : PqDigest) (s : PqNoteStore)
    (e : bool * (PqDigest * option NoteCiphertext)) : PqNoteStore :=
  let '(dummy, (cm, ct)) := e in
  if dummy : bool then s else
  match append (tree s) cm with
  | (_, None) => s
  | (t, Some position) =>
      let s := {| s with data := {| (data s) with commitments_ := commitments_ (data s) ++ [to_bytes cm] |}; tree := t |} in
      if negb decrypts then s else
      match ct with
      | None => s
      | Some ct =>
          let st := count_examined (stats s) in
          match decrypt (key_dk key) ct with
          | Ok n => accept_note key owner_tag cm position n {| s with stats := count_hit st |}
          | Err DetectionTag => {| s with stats := st |}
          | Err _ => {| s with stats := count_failure (count_hit st) |}
          end
      end
  end.
Definition ingest_bundle (key : PqShieldedKey) (decrypts : bool) (owner_tag : PqDigest) (s : PqNoteStore)
    (b : SpendBundle) : PqNoteStore :=
  let pi := public_inputs b in
  let s := foldl ingest_input s (zip (input_dummy pi) (ShieldedV2.nullifiers pi)) in
  foldl (ingest_output key decrypts owner_tag) s
    (zip (output_dummy pi) (zip (output_commitments pi) (output_ciphertexts b))).
(** [drain(0..len - REORG_HORIZON)] when there are more. *)
Definition keep_newest (l : list Checkpoint) : list Checkpoint := drop (length l - REORG_HORIZON) l.
Definition checkpoint (s : PqNoteStore) (height : N) (block_hash : bytes) : PqNoteStore :=
  let d := data s in
  {| s with data := {| d with p_height := height;
       p_checkpoints := keep_newest (p_checkpoints d ++
         [mkCheckpoint height block_hash (len (commitments_ d)) (len (owned d)) (len (spent d))]) |} |}.
(** [None] is the failed assertion. *)
Definition ingest_block (key : PqShieldedKey) (s : PqNoteStore) (height : N) (block_hash : bytes)
    (bundles : list SpendBundle) : option PqNoteStore :=
  if negb ((height =? wadd (scanned_height s) 1) || (scanned_height s =? 0)) then None
  else
    let decrypts := birthday s <=? height in
    Some (checkpoint (foldl (ingest_bundle key decrypts (tag_of key)) s bundles) height block_hash).

(** *** Rebuilding what is derived *)

Fixpoint derive_owned (count : N) (l : list StoredNote) (positions : gset N) (nfs : gset bytes) :
    option (gset N * gset bytes) :=
  match l with
  | [] => Some (positions, nfs)
  | n :: l =>
      if count <=? sn_position n then None
      else if decide (sn_position n ∈ positions) then None
      else if decide (sn_nullifier n ∈ nfs) then None
      else
        _ ← from_bytes (sn_rho n);
        if sn_value n =? 0 then None
        else derive_owned count l ({[sn_position n]} ∪ positions) ({[sn_nullifier n]} ∪ nfs)
  end.
Fixpoint derive_tree (i : N) (raws : list bytes) (positions : gset N) (t : CommitmentTree) : option CommitmentTree :=
  match raws with
  | [] => Some t
  | raw :: raws =>
      cm ← from_bytes raw;
      match append t cm with
      | (_, None) => None
      | (t, Some position) =>
          if negb (position =? i) then None
          else if decide (i ∈ positions) then
            match mark t with (t, Some _) => derive_tree (i + 1) raws positions t | (_, None) => None end
          else derive_tree (i + 1) raws positions t
      end
  end.
Fixpoint derive_spent (l : list bytes) (X : gset bytes) : option (gset bytes) :=
  match l with
  | [] => Some X
  | nf :: l => _ ← from_bytes nf; if decide (nf ∈ X) then None else derive_spent l ({[nf]} ∪ X)
  end.
Definition derive (d : Persisted) : option (CommitmentTree * gset bytes * gset bytes) :=
  '(positions, nfs) ← derive_owned (len (commitments_ d)) (owned d) ∅ ∅;
  t ← derive_tree 0 (commitments_ d) positions tree_new;
  X ← derive_spent (spent d) ∅;
  Some (t, X, nfs).

(** *** Forks *)

Definition tip_checkpoint (s : PqNoteStore) : option (N * bytes) :=
  (λ c, (cp_height c, cp_hash c)) <$> last (p_checkpoints (data s)).
Definition checkpoints (s : PqNoteStore) : list (N * bytes) :=
  (λ c, (cp_height c, cp_hash c)) <$> p_checkpoints (data s).
Definition rollback_to (s : PqNoteStore) (height : N) : PqNoteStore * bool :=
  let d := data s in
  if p_height d <=? height then (s, true) else
  match find (λ c, cp_height c =? height) (p_checkpoints d) with
  | None => (s, false)
  | Some cp =>
      let d := mkPersisted (magic d) (version d) (p_birthday d) height
                 (take (N.to_nat (commitments_len cp)) (commitments_ d)) (take (N.to_nat (owned_len cp)) (owned d))
                 (take (N.to_nat (spent_len cp)) (spent d)) (filter (λ c, cp_height c <= height) (p_checkpoints d)) in
      match derive d with
      | None => (s, false)
      | Some (t, X, nfs) => (mkStore d t X nfs (stats s), true)
      end
  end.

(** *** Queries *)

Definition live (s : PqNoteStore) : list StoredNote := filter (λ n, sn_nullifier n ∉ spent_set s) (owned (data s)).
Definition balance (s : PqNoteStore) : N := foldl (λ acc n, saturating_add u64_max acc (sn_value n)) 0 (live s).
Definition unspent_count (s : PqNoteStore) : nat := length (live s).
Definition unspent_values (s : PqNoteStore) : list N := sn_value <$> live s.
Definition unspent (key : PqShieldedKey) (s : PqNoteStore) : list (Note * N) :=
  omap (λ n, rho ← from_bytes (sn_rho n); note ← Note_new (sn_value n) (tag_of key) rho; Some (note, sn_position n)) (live s).
Definition store_witness (s : PqNoteStore) (position : N) : option (MerklePath * PqDigest) := witness (tree s) position.

(** *** The stored form *)

(** Borsh of [Persisted]. *)
Class StoreCodec := { codec_to : Persisted → bytes; codec_from : bytes → option Persisted }.
Fixpoint checkpoints_ok (d : Persisted) (previous : option Checkpoint) (l : list Checkpoint) : bool :=
  match l with
  | [] => true
  | cp :: l =>
      let stale := match previous with
        | Some prev => (cp_height cp <=? cp_height prev) || (commitments_len cp <? commitments_len prev)
                       || (owned_len cp <? owned_len prev) || (spent_len cp <? spent_len prev)
        | None => false
        end in
      if stale then false
      else if (len (commitments_ d) <? commitments_len cp) || (len (owned d) <? owned_len cp)
              || (len (spent d) <? spent_len cp) || (p_height d <? cp_height cp) then false
      else checkpoints_ok d (Some cp) l
  end.
Definition head_agrees (d : Persisted) : bool :=
  match last (p_checkpoints d) with
  | Some cp => (cp_height cp =? p_height d) && (commitments_len cp =? len (commitments_ d))
               && (owned_len cp =? len (owned d)) && (spent_len cp =? len (spent d))
  | None => p_height d =? 0
  end.
Definition load (d : Persisted) : option PqNoteStore :=
  if negb (magic d =? STORE_MAGIC) || negb (version d =? STORE_VERSION) then None
  else if Pq.MAX_V2_NOTES <? len (commitments_ d) then None
  else if len (commitments_ d) <? len (owned d) then None
  else if (REORG_HORIZON <? length (p_checkpoints d))%nat then None
  else if negb (checkpoints_ok d None (p_checkpoints d)) then None
  else if negb (head_agrees d) then None
  else '(t, X, nfs) ← derive d; Some (mkStore d t X nfs no_stats).
Definition store_to_bytes `{StoreCodec} (s : PqNoteStore) : bytes := codec_to (data s).
Definition store_from_bytes `{StoreCodec} (l : bytes) : option PqNoteStore := d ← codec_from l; load d.

(** ** Back onto the node's chain (node/src/gui.rs) *)

(** [ask] is the node's answer for a height; every height is asked at most once.  An error
    ends the scan, and the answers known so far go with it. *)
Definition canonical (ask : N → result string (option bytes)) (tip : N) (known : gmap N (option bytes)) (height : N) :
    result string (option bytes * gmap N (option bytes)) :=
  if tip <? height then Ok (None, known)
  else match known !! height with
       | Some hash => Ok (hash, known)
       | None => hash ← ask height; Ok (hash, <[height := hash]> known)
       end.
Fixpoint find_fork (ask : N → result string (option bytes)) (tip : N) (known : gmap N (option bytes))
    (s : PqNoteStore) (l : list (N * bytes)) : result string (option PqNoteStore * gmap N (option bytes)) :=
  match l with
  | [] => Ok (None, known)
  | (height, hash) :: l =>
      '(c, known) ← canonical ask tip known height;
      if bool_decide (c = Some hash) then
        let '(s', rolled) := rollback_to s height in
        if rolled : bool then Ok (Some s', known) else find_fork ask tip known s' l
      else find_fork ask tip known s l
  end.
Definition reconcile_v2_scan_cache (ask : N → result string (option bytes)) (s : PqNoteStore) (tip : N)
    (known : gmap N (option bytes)) : result string (PqNoteStore * gmap N (option bytes)) :=
  match tip_checkpoint s with
  | None => Ok (s, known)
  | Some (height, cached_hash) =>
      '(c, known) ← canonical ask tip known height;
      if bool_decide (c = Some cached_hash) then Ok (s, known)
      else
        '(r, known) ← find_fork ask tip known s (rev (checkpoints s));
        Ok (default (store_new (birthday s)) r, known)
  end.
End wallet.
End Wallet.
