(* ===== verification/PqScanSpec.v ===== *)
(** * The note store against the chain

    Whatever blocks are scanned, rolled back and stored in between, a store holds what one
    scan of the chain it stands on would ([store_is_rescan]), and is in step with the
    consensus pool of that chain: the same root, and for every note it offers a witness
    the pool accepts ([store_in_step]). *)

From stdpp Require Import vector sorting.
From S2P Require Import Prelude Primitives Mining Crypto Compliance Types Smt Vault Ledger Gas Link.
From S2P Require Import ShieldedPq ShieldedPqSpec ShieldedV2 PqWire PqScan.
#[local] Open Scope N_scope.

(** ** Lists *)

Lemma filter_nothing {A} (P : A → Prop) `{∀ x, Decision (P x)} (l : list A) : (∀ x, x ∈ l → ¬ P x) → filter P l = [].
Proof.
  induction l as [|a l IH]; intros Hl; [done|]. rewrite filter_cons_False by (apply Hl; left).
  apply IH. intros x Hx. apply Hl. by right.
Qed.
Lemma filter_every {A} (P : A → Prop) `{∀ x, Decision (P x)} (l : list A) : (∀ x, x ∈ l → P x) → filter P l = l.
Proof.
  induction l as [|a l IH]; intros Hl; [done|]. rewrite filter_cons_True by (apply Hl; left).
  f_equal. apply IH. intros x Hx. apply Hl. by right.
Qed.
Lemma sorted_filter_below (l : list N) i : StronglySorted N.lt l →
  filter (λ p, p < i + 1) l = filter (λ p, p < i) l ++ (if decide (i ∈ l) then [i] else []).
Proof.
  induction 1 as [|x l Hs IH Hx]; [by rewrite decide_False by apply not_elem_of_nil|].
  assert (∀ y, y ∈ l → x < y) as Hx' by (by apply Forall_forall). rewrite !filter_cons.
  destruct (decide (x < i)) as [Hi|Hi].
  - rewrite (decide_True (P := x < i + 1)) by lia. rewrite IH. cbn. f_equal. f_equal. apply decide_ext. rewrite elem_of_cons.
    split; [by right|intros [->|?]; [lia|done]].
  - assert (∀ k, k ≤ i + 1 → filter (λ p, p < k) l = []) as Hn.
    { intros k Hk. apply filter_nothing. intros y Hy. specialize (Hx' y Hy). lia. }
    rewrite !Hn by lia. destruct (decide (x < i + 1)) as [Hi1|Hi1].
    + assert (x = i) as -> by lia. by rewrite decide_True by left.
    + rewrite decide_False; [done|]. rewrite elem_of_cons. intros [->|Hin]; [lia|]. specialize (Hx' i Hin). lia.
Qed.
Lemma sorted_bounded (l : list N) n : StronglySorted N.lt l → (∀ x, x ∈ l → x < n) → N.of_nat (length l) ≤ n.
Proof.
  revert n. induction l as [|x l IH] using rev_ind; intros n Hs Hb; [cbn; lia|].
  assert (StronglySorted N.lt l ∧ ∀ y, y ∈ l → y < x) as [Hl Hx].
  { clear -Hs. induction l as [|y l IH]; [split; [constructor|by intros y ?%elem_of_nil]|].
    cbn in Hs. apply StronglySorted_inv in Hs as [Hs Hy]. destruct (IH Hs) as [H1 H2]. apply Forall_app in Hy as [Hy Hyx].
    split; [by constructor|]. intros z [->|Hz]%elem_of_cons; [by inversion Hyx|by apply H2]. }
  specialize (IH x Hl Hx). pose proof (Hb x ltac:(apply elem_of_app; right; left)). rewrite length_app. cbn. lia.
Qed.
Lemma sorted_snoc (l : list N) x : StronglySorted N.lt l → (∀ y, y ∈ l → y < x) → StronglySorted N.lt (l ++ [x]).
Proof.
  induction 1 as [|y l Hs IH Hy]; intros Hx; cbn; [repeat constructor|]. constructor.
  - apply IH. intros z Hz. apply Hx. by right.
  - apply Forall_app. split; [done|]. repeat constructor. apply Hx. left.
Qed.
Lemma filter_split {A} (P : A → Prop) `{∀ x, Decision (P x)} (l k : list A) :
  (∀ x, x ∈ l → P x) → (∀ x, x ∈ k → ¬ P x) → filter P (l ++ k) = l.
Proof.
  intros Hl Hk. by rewrite filter_app, (filter_nothing P k), app_nil_r, filter_every.
Qed.
Lemma list_to_set_snoc `{Countable A} (l : list A) x : list_to_set (l ++ [x]) =@{gset A} {[x]} ∪ list_to_set l.
Proof. rewrite list_to_set_app_L. cbn. set_solver. Qed.
Lemma NoDup_snoc {A} (l : list A) x : NoDup l → x ∉ l → NoDup (l ++ [x]).
Proof. intros Hl Hx. apply NoDup_app. split_and!; [done| |apply NoDup_singleton]. by intros y Hy ->%list_elem_of_singleton. Qed.

Lemma NoDup_filtered {A B} (f : A → B) (P : A → Prop) `{∀ x, Decision (P x)} (l : list A) :
  NoDup (f <$> l) → NoDup (f <$> filter P l).
Proof.
  induction l as [|a l IH]; [done|]. intros [Ha Hl]%NoDup_cons. rewrite filter_cons. case_decide; [|by apply IH].
  apply NoDup_cons. split; [|by apply IH]. intros (x & E & [_ Hx]%list_elem_of_filter)%list_elem_of_fmap. apply Ha. rewrite E. by apply list_elem_of_fmap_2.
Qed.

Module WalletSpec.
Import Pq PqSpec Wire Link Wallet.

Section spec.
Context `{Rescue, Aead, Kem, AuthEnv, WalletEnv}.

(** ** Contents

    Two stores hold the same when their logs and what is derived from them agree; counters,
    checkpoints and the scan height are left aside. *)
Definition core (s : PqNoteStore) :=
  (commitments_ (data s), owned (data s), spent (data s), tree s, spent_set s, owned_nullifiers s).
#[global] Instance store_equiv : Equiv PqNoteStore := λ s s', core s = core s'.
#[global] Instance store_equivalence : Equivalence (≡@{PqNoteStore}).
Proof. split; [by intros s|by intros s s'|intros s s' s'' E E'; etransitivity; eassumption]. Qed.
Lemma store_core_inv s s' : s ≡ s' → commitments_ (data s) = commitments_ (data s') ∧ owned (data s) = owned (data s') ∧
  spent (data s) = spent (data s') ∧ tree s = tree s' ∧ spent_set s = spent_set s' ∧ owned_nullifiers s = owned_nullifiers s'.
Proof. intros E. unfold equiv, store_equiv, core in E. by simplify_eq. Qed.
(** What the fold of a block leaves alone. *)
Definition frame (s : PqNoteStore) := (magic (data s), version (data s), p_birthday (data s), p_height (data s), p_checkpoints (data s)).

(** Only the branch that takes a note changes anything but the counters. *)
Lemma accept_cases key tag cm pos n s : (accept_note key tag cm pos n s ≡ s ∧ frame (accept_note key tag cm pos n s) = frame s) ∨
  (owner_tag n = tag ∧ note_commitment n = cm ∧ value_grains n ≠ 0 ∧
   to_bytes (nullifier (spend_key key) (rho n) pos) ∉ owned_nullifiers s).
Proof.
  unfold accept_note. repeat case_bool_decide; cbn [negb]; [|by left..].
  destruct (N.eqb_spec (value_grains n) 0); [by left|]. case_decide; [by left|by right].
Qed.

#[global] Instance input_proper : Proper ((≡) ==> (=) ==> (≡)) ingest_input.
Proof.
  intros s s' E e ? <-. apply store_core_inv in E as (E1 & E2 & E3 & E4 & E5 & E6). unfold ingest_input.
  destruct e.1; rewrite ?E5; [|case_decide]; unfold equiv, store_equiv, core; cbn; congruence.
Qed.
Lemma accept_proper key tag cm pos n s s' : s ≡ s' → accept_note key tag cm pos n s ≡ accept_note key tag cm pos n s'.
Proof.
  intros E. apply store_core_inv in E as (E1 & E2 & E3 & E4 & E5 & E6). unfold accept_note.
  repeat case_bool_decide; cbn [negb]; [|unfold equiv, store_equiv, core; cbn; congruence..].
  destruct (value_grains n =? 0); [unfold equiv, store_equiv, core; cbn; congruence|]. rewrite E6.
  case_decide; unfold equiv, store_equiv, core; cbn; congruence.
Qed.
#[global] Instance output_proper key d tag : Proper ((≡) ==> (=) ==> (≡)) (ingest_output key d tag).
Proof.
  intros s s' E [dummy [cm ct]] ? <-. pose proof E as (E1 & E2 & E3 & E4 & E5 & E6)%store_core_inv. unfold ingest_output.
  destruct dummy; [done|]. rewrite E4. destruct (append (tree s') cm) as [t [pos|]]; [|done].
  destruct d; cbn [negb]; [|unfold equiv, store_equiv, core; cbn; congruence].
  destruct ct as [ct|]; [|unfold equiv, store_equiv, core; cbn; congruence].
  destruct (decrypt (key_dk key) ct) as [n|[]]; [apply accept_proper|..]; unfold equiv, store_equiv, core; cbn; congruence.
Qed.
#[global] Instance foldl_store_proper {A} (f : PqNoteStore → A → PqNoteStore) :
  Proper ((≡) ==> (=) ==> (≡)) f → Proper ((≡) ==> (=) ==> (≡)) (foldl f).
Proof. intros Hf s s' E l ? <-. revert s s' E. induction l as [|a l IH]; intros s s' E; [done|]. cbn. by apply IH, Hf. Qed.
#[global] Instance bundle_proper key d tag : Proper ((≡) ==> (=) ==> (≡)) (ingest_bundle key d tag).
Proof. intros s s' E b ? <-. unfold ingest_bundle. by rewrite E. Qed.
#[global] Instance checkpoint_core : Proper ((≡) ==> (=) ==> (=) ==> (≡)) checkpoint.
Proof. intros s s' E h ? <- b ? <-. exact E. Qed.

(** ** What a fold does to the logs *)

Record grows (s s' : PqNoteStore) : Prop := {
  g_commitments : commitments_ (data s) `prefix_of` commitments_ (data s');
  g_owned : owned (data s) `prefix_of` owned (data s');
  g_spent : spent (data s) `prefix_of` spent (data s');
  g_frame : frame s' = frame s;
}.
#[global] Instance grows_preorder : PreOrder grows.
Proof.
  split; [by intros s|]. intros s s' s'' [A1 A2 A3 A4] [B1 B2 B3 B4]. split; [etransitivity; eassumption..|congruence].
Qed.
Lemma input_grows s e : grows s (ingest_input s e).
Proof. unfold ingest_input. destruct e.1; [done|]. case_decide; [done|]. split; cbn; [done..|by apply prefix_app_r|done]. Qed.
Lemma accept_grows key tag cm pos n s : grows s (accept_note key tag cm pos n s).
Proof.
  unfold accept_note. repeat case_bool_decide; cbn [negb]; [|by split..].
  destruct (value_grains n =? 0); [by split|]. case_decide; [by split|]. split; cbn; [done|by apply prefix_app_r|done..].
Qed.
Lemma output_grows key d tag s e : grows s (ingest_output key d tag s e).
Proof.
  destruct e as [[] [cm ct]]; [done|]. unfold ingest_output. destruct (append (tree s) cm) as [t [pos|]]; [|done].
  set (s1 := {| s with data := _; tree := t |}). assert (grows s s1) as G by (split; cbn; [by apply prefix_app_r|done..]).
  destruct d; cbn [negb]; [|done]. destruct ct as [ct|]; [|done].
  destruct (decrypt (key_dk key) ct) as [n|[]]; [etransitivity; [|apply accept_grows]|..]; destruct G; by split.
Qed.
Lemma foldl_grows {A} (f : PqNoteStore → A → PqNoteStore) l s : (∀ s a, grows s (f s a)) → grows s (foldl f s l).
Proof. intros Hf. revert s. induction l as [|a l IH]; intros s; [done|]. cbn. etransitivity; [apply Hf|apply IH]. Qed.
Lemma bundle_grows key d tag s b : grows s (ingest_bundle key d tag s b).
Proof. unfold ingest_bundle. cbv zeta. etransitivity; [apply (foldl_grows ingest_input), input_grows|apply (foldl_grows (ingest_output _ _ _)), output_grows]. Qed.

(** ** The invariant of the logs *)

Section key.
Context (key : PqShieldedKey).

(** A stored note stands for a note of the key that is in the tree. *)
Definition stands (ls : list PqDigest) (n : StoredNote) : Prop := ∃ r : PqDigest,
  sn_rho n = to_bytes r ∧ is_canonical r = true ∧ 0 < sn_value n <= MAX_NOTE_VALUE ∧
  ls !! N.to_nat (sn_position n) = Some (note_commitment (mkNote (sn_value n) (tag_of key) r)) ∧
  sn_nullifier n = to_bytes (nullifier (spend_key key) r (sn_position n)).
Record consistent (s : PqNoteStore) : Prop := {
  c_leaves : commitments_ (data s) = to_bytes <$> leaves (tree s);
  c_canonical : Forall (λ d, is_canonical d = true) (leaves (tree s));
  c_room : N.of_nat (length (leaves (tree s))) <= MAX_TREE_LEAVES;
  c_marks : marked (tree s) = sn_position <$> owned (data s);
  c_sorted : StronglySorted N.lt (sn_position <$> owned (data s));
  c_owned : Forall (stands (leaves (tree s))) (owned (data s));
  c_nullifiers : owned_nullifiers s = list_to_set (sn_nullifier <$> owned (data s));
  c_once : NoDup (sn_nullifier <$> owned (data s));
  c_spent : spent_set s = list_to_set (spent (data s));
  c_spent_once : NoDup (spent (data s));
  c_spent_real : Forall (λ b, ∃ d, is_canonical d = true ∧ b = to_bytes d) (spent (data s));
}.
#[global] Instance consistent_proper : Proper ((≡) ==> iff) consistent.
Proof.
  assert (∀ s s', s ≡ s' → consistent s → consistent s') as Hc; [|intros s s' E; split; by apply Hc].
  intros s s' (E1 & E2 & E3 & E4 & E5 & E6)%store_core_inv []. split; by rewrite <- ?E1, <- ?E2, <- ?E3, <- ?E4, <- ?E5, <- ?E6.
Qed.
Lemma new_consistent b : consistent (store_new b).
Proof. split; cbn; [done|constructor|done|done|constructor|constructor|done|constructor|done|constructor|constructor]. Qed.
Lemma stands_below ls n : stands ls n → sn_position n < N.of_nat (length ls).
Proof. intros (r & _ & _ & _ & Hl & _). apply lookup_lt_Some in Hl. lia. Qed.
Lemma stands_app ls cm n : stands ls n → stands (ls ++ [cm]) n.
Proof. intros (r & E1 & E2 & [E3 E4] & Hl & E5). exists r. split_and!; [done..| |done]. by apply lookup_app_l_Some. Qed.

Lemma input_consistent s (e : bool * PqDigest) : consistent s → (e.1 = false → is_canonical e.2 = true) →
  consistent (ingest_input s e).
Proof.
  intros C He. unfold ingest_input. destruct e.1; [done|]. case_decide as Hn; [done|]. destruct C. split; cbn; [done..| | |].
  - by rewrite c_spent0, list_to_set_snoc.
  - apply NoDup_snoc; [done|]. intros Hin. apply Hn. rewrite c_spent0. by apply elem_of_list_to_set.
  - apply Forall_app. split; [done|]. repeat constructor. eauto.
Qed.
Lemma append_consistent s cm t pos : consistent s → is_canonical cm = true → append (tree s) cm = (t, Some pos) →
  pos = N.of_nat (length (leaves (tree s))) ∧ leaves t = leaves (tree s) ++ [cm] ∧ marked t = marked (tree s) ∧
  consistent {| s with data := {| (data s) with commitments_ := commitments_ (data s) ++ [to_bytes cm] |}; tree := t |}.
Proof.
  intros C Hc. unfold append, tree_len. destruct (N.leb_spec MAX_TREE_LEAVES (N.of_nat (length (leaves (tree s))))) as [Hl|Hl]; [done|].
  intros [= <- <-]. split_and!; [done..|]. destruct C. split; cbn; try assumption.
  - by rewrite c_leaves0, fmap_app.
  - apply Forall_app. split; [done|]. by repeat constructor.
  - rewrite length_app. cbn. lia.
  - eapply Forall_impl; [done|]. intros n. apply stands_app.
Qed.
Lemma from_plaintext_inv pt n : from_plaintext pt = Some n → value_grains n <= MAX_NOTE_VALUE ∧ is_canonical (rho n) = true.
Proof.
  unfold from_plaintext, Note_new, from_bytes. intros E. repeat (case_match; simplify_option_eq; try done).
  split; [by apply N.ltb_ge|done].
Qed.
Lemma decrypt_inv dk ct n : decrypt dk ct = Ok n → value_grains n <= MAX_NOTE_VALUE ∧ is_canonical (rho n) = true.
Proof.
  unfold decrypt, ok_or. intros E. repeat (case_match; try done). simplify_eq. by eapply from_plaintext_inv.
Qed.

(** A note is offered to [accept_note] right after its commitment went in at the end of the tree. *)
Lemma accept_consistent s ls cm n : consistent s → leaves (tree s) = ls ++ [cm] →
  (∀ m, m ∈ owned (data s) → sn_position m < N.of_nat (length ls)) →
  value_grains n <= MAX_NOTE_VALUE → is_canonical (rho n) = true →
  consistent (accept_note key (tag_of key) cm (N.of_nat (length ls)) n s).
Proof.
  intros C El Hb Hv Hr. destruct (accept_cases key (tag_of key) cm (N.of_nat (length ls)) n s) as [[E _]|(Ht & Hc & Hz & Hn)].
  { by rewrite E. }
  unfold accept_note. rewrite !bool_decide_true, (proj2 (N.eqb_neq _ _)), decide_False by done. cbn [negb].
  assert ((mark (tree s)).1 = mkTree (leaves (tree s)) (marked (tree s) ++ [N.of_nat (length ls)])) as ->.
  { unfold mark, tree_len, checked_sub. rewrite El, length_app. cbn [length].
    replace (1 <=? N.of_nat (length ls + 1)) with true by (symmetry; apply N.leb_le; lia). cbn. f_equal. f_equal. f_equal. lia. }
  destruct C. split; cbn; try assumption.
  - by rewrite c_marks0, fmap_app.
  - rewrite fmap_app. apply sorted_snoc; [done|]. by intros y (m & -> & Hm)%list_elem_of_fmap; apply Hb.
  - apply Forall_app. split; [done|]. repeat constructor. exists (rho n). cbn. split_and!; [done..|lia|done| |done].
    rewrite El, Nat2N.id, list_lookup_middle by done. f_equal. rewrite <- Hc. by destruct n; cbn in *; subst.
  - rewrite fmap_app, c_nullifiers0. symmetry. apply list_to_set_snoc.
  - rewrite fmap_app. apply NoDup_snoc; [done|]. by rewrite c_nullifiers0, elem_of_list_to_set in Hn.
Qed.
Lemma output_consistent d s e : consistent s → (e.1 = false → is_canonical e.2.1 = true) →
  consistent (ingest_output key d (tag_of key) s e).
Proof.
  destruct e as [[] [cm ct]]; [done|]. intros C He. specialize (He eq_refl). cbn in He. unfold ingest_output.
  destruct (append (tree s) cm) as [t [pos|]] eqn:Ea; [|done].
  destruct (append_consistent _ _ _ _ C He Ea) as (-> & El & _ & C1).
  set (s1 := {| s with data := _; tree := t |}) in *. destruct d; cbn [negb]; [|done]. destruct ct as [ct|]; [|done].
  destruct (decrypt (key_dk key) ct) as [n|[]] eqn:Ed; [|by refine (proj1 (consistent_proper s1 _ _) C1)..].
  destruct (decrypt_inv _ _ _ Ed). apply accept_consistent; [by refine (proj1 (consistent_proper s1 _ _) C1)|done| |done..].
  intros m Hm. eapply stands_below. pose proof (c_owned _ C) as Ho. rewrite Forall_forall in Ho. by apply Ho.
Qed.
Lemma foldl_consistent {A} (f : PqNoteStore → A → PqNoteStore) (ok : A → Prop) l s :
  (∀ s a, ok a → consistent s → consistent (f s a)) → Forall ok l → consistent s → consistent (foldl f s l).
Proof. intros Hf Hl. revert s. induction Hl as [|a l Ha _ IH]; intros s C; [done|]. cbn. by apply IH, Hf. Qed.

(** The digests of a bundle that are used are canonical, as decoding and the pool require. *)
Definition digests_ok (b : SpendBundle) : Prop :=
  Forall (λ e, e.1 = false → is_canonical e.2 = true) (zip (input_dummy (public_inputs b)) (ShieldedV2.nullifiers (public_inputs b))) ∧
  Forall (λ e, e.1 = false → is_canonical e.2.1 = true)
    (zip (output_dummy (public_inputs b)) (zip (output_commitments (public_inputs b)) (output_ciphertexts b))).
Lemma bundle_consistent d s b : digests_ok b → consistent s → consistent (ingest_bundle key d (tag_of key) s b).
Proof.
  intros [Hi Ho] C. unfold ingest_bundle. cbv zeta.
  eapply foldl_consistent; [|exact Ho|eapply foldl_consistent; [|exact Hi|done]]; intros s' a Ha C'; cbn beta in Ha.
  - by apply output_consistent.
  - by apply input_consistent.
Qed.

(** ** Rebuilding *)

Lemma derive_owned_ok count l : (∀ n, n ∈ l → sn_position n < count ∧ is_Some (from_bytes (sn_rho n)) ∧ 0 < sn_value n) →
  NoDup (sn_position <$> l) → NoDup (sn_nullifier <$> l) → ∀ X Y,
  (∀ n, n ∈ l → (sn_position n ∉ X) ∧ (sn_nullifier n ∉ Y)) →
  derive_owned count l X Y = Some (list_to_set (sn_position <$> l) ∪ X, list_to_set (sn_nullifier <$> l) ∪ Y).
Proof.
  induction l as [|n l IH]; intros Hl Hp Hn X Y Hf; cbn.
  { f_equal. f_equal; set_solver. }
  destruct (Hl n ltac:(left)) as (L1 & [r Er] & L2). destruct (Hf n ltac:(left)) as [F1 F2].
  apply NoDup_cons in Hp as [P1 P2]. apply NoDup_cons in Hn as [Q1 Q2].
  rewrite (proj2 (N.leb_gt _ _)) by done. rewrite !decide_False by done. rewrite Er. cbn.
  rewrite (proj2 (N.eqb_neq _ _)) by lia. rewrite IH; [|intros m Hm; apply Hl; by right|done|done|].
  - f_equal. f_equal; set_solver.
  - intros m Hm. destruct (Hf m ltac:(by right)) as [F3 F4]. split.
    + intros [E%elem_of_singleton|?]%elem_of_union; [|done]. apply P1. rewrite <- E. by apply list_elem_of_fmap_2.
    + intros [E%elem_of_singleton|?]%elem_of_union; [|done]. apply Q1. rewrite <- E. by apply list_elem_of_fmap_2.
Qed.
Lemma derive_tree_ok (X : gset N) marks rest : StronglySorted N.lt marks → (∀ p, p ∈ X ↔ p ∈ marks) →
  Forall (λ d, is_canonical d = true) rest → ∀ done, N.of_nat (length (done ++ rest)) <= MAX_TREE_LEAVES →
  derive_tree (N.of_nat (length done)) (to_bytes <$> rest) X (mkTree done (filter (λ p, p < N.of_nat (length done)) marks)) =
  Some (mkTree (done ++ rest) (filter (λ p, p < N.of_nat (length (done ++ rest))) marks)).
Proof.
  intros Hs Hx. induction 1 as [|cm rest Hc _ IH]; intros don Hm; cbn; [by rewrite app_nil_r|].
  rewrite from_to_bytes by done. cbn. unfold append, tree_len. cbn [leaves marked]. rewrite length_app in Hm. cbn in Hm.
  rewrite (proj2 (N.leb_gt _ _)) by lia. rewrite N.eqb_refl. cbn [negb].
  specialize (IH (don ++ [cm])). rewrite <- !app_assoc in IH. cbn [app] in IH. rewrite <- IH by (rewrite length_app; cbn; lia).
  replace (N.of_nat (length (don ++ [cm]))) with (N.of_nat (length don) + 1) by (rewrite length_app; cbn; lia).
  rewrite sorted_filter_below by done. destruct (decide (N.of_nat (length don) ∈ X)) as [Hin|Hin].
  - rewrite (decide_True (P := _ ∈ marks)) by (by apply Hx). unfold mark, tree_len, checked_sub. cbn [leaves marked].
    rewrite length_app. cbn [length]. replace (1 <=? N.of_nat (length don + 1)) with true by (symmetry; apply N.leb_le; lia).
    replace (N.of_nat (length don + 1) - 1) with (N.of_nat (length don)) by lia. done.
  - rewrite (decide_False (P := _ ∈ marks)) by (by rewrite <- Hx). by rewrite app_nil_r.
Qed.
Lemma derive_spent_ok l : Forall (λ b, ∃ d, is_canonical d = true ∧ b = to_bytes d) l → NoDup l → ∀ X,
  (∀ b, b ∈ l → b ∉ X) → derive_spent l X = Some (list_to_set l ∪ X).
Proof.
  induction 1 as [|b l (d & Hd & ->) _ IH]; intros Hn X Hf; cbn; [f_equal; set_solver|].
  apply NoDup_cons in Hn as [N1 N2]. rewrite from_to_bytes by done. cbn. rewrite decide_False by (apply Hf; left).
  rewrite IH; [f_equal; set_solver|done|]. intros b Hb. specialize (Hf b ltac:(by right)). set_solver.
Qed.
Lemma sorted_NoDup (l : list N) : StronglySorted N.lt l → NoDup l.
Proof. induction 1 as [|x l _ IH Hx]; constructor; [|done]. rewrite Forall_forall in Hx. intros Hin. specialize (Hx x Hin). lia. Qed.
Lemma derive_ok s d : consistent s → commitments_ d = commitments_ (data s) → owned d = owned (data s) → spent d = spent (data s) →
  derive d = Some (tree s, spent_set s, owned_nullifiers s).
Proof.
  intros C E1 E2 E3. unfold derive, len. rewrite E1, E2, E3, (c_leaves s C), length_fmap.
  pose proof (c_owned s C) as Ho. rewrite Forall_forall in Ho.
  rewrite derive_owned_ok; [|..|intros n _; split; apply not_elem_of_empty].
  2: { intros n Hn. destruct (Ho n Hn) as (r & -> & Hr & [Hv _] & _). split_and!; [by eapply stands_below, Ho|rewrite from_to_bytes; eauto|done]. }
  2: { apply sorted_NoDup, (c_sorted s C). }
  2: { apply (c_once s C). }
  cbn. pose proof (derive_tree_ok (list_to_set (sn_position <$> owned (data s)) ∪ ∅) (sn_position <$> owned (data s))
    (leaves (tree s)) (c_sorted s C) ltac:(set_solver) (c_canonical s C) [] (c_room s C)) as Et.
  cbn in Et. rewrite filter_nothing in Et by (intros x _; lia). unfold tree_new. change (N.of_nat 0) with 0 in Et. rewrite Et. cbn.
  rewrite derive_spent_ok; [|apply (c_spent_real s C)|apply (c_spent_once s C)|intros b _; apply not_elem_of_empty].
  cbn. rewrite !union_empty_r_L, <- (c_spent s C), <- (c_nullifiers s C). rewrite filter_every.
  - rewrite <- (c_marks s C). by destruct (tree s).
  - intros p (n & -> & Hn)%list_elem_of_fmap. by eapply stands_below, Ho.
Qed.

(** ** Chains *)

Record block := mkBlock { b_height : N; b_hash : bytes; b_bundles : list SpendBundle }.
Definition block_ok (b : block) : Prop := 0 < b_height b < 2 ^ 64 ∧ Forall digests_ok (b_bundles b).
Definition height_of (bs : list block) : N := from_option b_height 0 (last bs).
Definition hash_of (bs : list block) : bytes := from_option b_hash [] (last bs).

Section birthday.
Context (bd : N).
Definition fold_block (s : PqNoteStore) (b : block) : PqNoteStore :=
  foldl (ingest_bundle key (bd <=? b_height b) (tag_of key)) s (b_bundles b).
(** The contents after a chain. *)
Definition folded (bs : list block) : PqNoteStore := foldl fold_block (store_new bd) bs.
Definition mark_of (bs : list block) : Checkpoint :=
  let d := data (folded bs) in
  mkCheckpoint (height_of bs) (hash_of bs) (len (commitments_ d)) (len (owned d)) (len (spent d)).
(** The checkpoints after every block of a chain. *)
Definition marks_of (bs : list block) : list Checkpoint := (λ n, mark_of (take n bs)) <$> seq 1 (length bs).

#[global] Instance fold_block_proper : Proper ((≡) ==> (=) ==> (≡)) fold_block.
Proof. intros s s' E b ? <-. unfold fold_block. by rewrite E. Qed.
Lemma folded_snoc bs b : folded (bs ++ [b]) = fold_block (folded bs) b.
Proof. unfold folded. by rewrite foldl_app. Qed.
Lemma folded_grows bs n : grows (folded (take n bs)) (folded bs).
Proof.
  unfold folded at 2. rewrite <- (take_drop n bs) at 2. rewrite foldl_app. apply foldl_grows. intros s b.
  unfold fold_block. apply foldl_grows, bundle_grows.
Qed.
Lemma folded_consistent bs : Forall block_ok bs → consistent (folded bs).
Proof.
  intros Hb. eapply foldl_consistent; [|exact Hb|apply new_consistent]. intros s b [_ Hd] C.
  eapply foldl_consistent; [|exact Hd|done]. intros. by apply bundle_consistent.
Qed.
Lemma height_snoc bs b : height_of (bs ++ [b]) = b_height b.
Proof. unfold height_of. by rewrite last_snoc. Qed.
Lemma height_take bs n b : bs !! n = Some b → height_of (take (S n) bs) = b_height b.
Proof. intros Hb. by rewrite (take_S_r _ _ _ Hb), height_snoc. Qed.
Lemma length_marks bs : length (marks_of bs) = length bs.
Proof. unfold marks_of. by rewrite length_fmap, length_seq. Qed.
Lemma marks_lookup bs i : (i < length bs)%nat → marks_of bs !! i = Some (mark_of (take (S i) bs)).
Proof. intros Hi. unfold marks_of. by rewrite list_lookup_fmap, lookup_seq_lt. Qed.
Lemma marks_take bs n : marks_of (take n bs) = take n (marks_of bs).
Proof.
  apply list_eq. intros i. destruct (decide (i < n)%nat) as [Hi|Hi].
  - rewrite lookup_take_lt by done. destruct (decide (i < length bs)%nat) as [Hl|Hl].
    + rewrite !marks_lookup by (rewrite ?length_take; lia). by rewrite take_take, Nat.min_l by lia.
    + rewrite !lookup_ge_None_2; [done|rewrite length_marks; lia|rewrite length_marks, length_take; lia].
  - rewrite !lookup_ge_None_2; [done|rewrite length_take; lia|rewrite length_marks, length_take; lia].
Qed.
Lemma marks_snoc bs b : marks_of (bs ++ [b]) = marks_of bs ++ [mark_of (bs ++ [b])].
Proof.
  pose proof (marks_take (bs ++ [b]) (length bs)) as E. rewrite take_app_length in E.
  rewrite E, <- (take_drop (length bs) (marks_of (bs ++ [b]))) at 1. f_equal.
  apply list_eq. intros [|i]; rewrite lookup_drop.
  - rewrite Nat.add_0_r, marks_lookup by (rewrite length_app; cbn; lia). rewrite take_ge by (rewrite length_app; cbn; lia). done.
  - rewrite lookup_ge_None_2 by (rewrite length_marks, length_app; cbn; lia). done.
Qed.

(** Heights from [h0] on, one after the other. *)
Definition linked (h0 : N) (bs : list block) : Prop := ∀ i b, bs !! i = Some b → b_height b = h0 + N.of_nat i.
Lemma linked_take h0 bs n : linked h0 bs → linked h0 (take n bs).
Proof. intros L i b [Hb _]%lookup_take_Some. by apply L. Qed.
Lemma heights_snoc h0 bs b : linked h0 bs → b_height b = h0 + N.of_nat (length bs) → linked h0 (bs ++ [b]).
Proof. intros L Hb i b' [Hi|[Hi [E <-]%list_lookup_singleton_Some]]%lookup_app_Some; [by apply L|]. lia. Qed.
Lemma linked_last h0 bs : linked h0 bs → bs ≠ [] → height_of bs = h0 + N.of_nat (length bs) - 1 ∧ h0 <= height_of bs.
Proof.
  intros L Hn. destruct bs as [|b bs _] using rev_ind; [done|]. rewrite height_snoc, length_app. cbn.
  rewrite (L (length bs) b) by (by rewrite list_lookup_middle). lia.
Qed.

(** ** A store that stands on a chain *)

Record tracks (bs : list block) (s : PqNoteStore) : Prop := {
  tr_blocks : Forall block_ok bs;
  tr_linked : ∃ h0, linked h0 bs;
  tr_core : s ≡ folded bs;
  tr_magic : magic (data s) = STORE_MAGIC ∧ version (data s) = STORE_VERSION ∧ p_birthday (data s) = bd;
  tr_height : p_height (data s) = height_of bs;
  tr_marks : ∃ k, p_checkpoints (data s) = drop k (marks_of bs) ∧ (k <= length bs - 1)%nat;
  tr_horizon : (length (p_checkpoints (data s)) <= REORG_HORIZON)%nat;
}.
Lemma tracks_consistent bs s : tracks bs s → consistent s.
Proof. intros T. rewrite (tr_core _ _ T). apply folded_consistent, (tr_blocks _ _ T). Qed.
Lemma new_tracks : tracks [] (store_new bd).
Proof. split; [constructor|by exists 0|done|done|done|exists 0%nat; split; [done|cbn; lia]|cbn; lia]. Qed.
Lemma tracks_scanned bs s : tracks bs s → bs ≠ [] → 0 < scanned_height s.
Proof.
  intros T Hn. unfold scanned_height. rewrite (tr_height _ _ T). pose proof (tr_blocks _ _ T) as Hb.
  destruct bs as [|b bs _] using rev_ind; [done|]. rewrite height_snoc. apply Forall_app in Hb as [_ Hb]. by inversion Hb as [|?? [[]]].
Qed.

Lemma ingest_tracks bs s b s' : tracks bs s → block_ok b →
  ingest_block key s (b_height b) (b_hash b) (b_bundles b) = Some s' → tracks (bs ++ [b]) s'.
Proof.
  intros T Hb. unfold ingest_block. destruct (_ || _) eqn:Eh; [|done]. cbn [negb]. intros [= <-].
  destruct (tr_magic _ _ T) as (M1 & M2 & M3). unfold birthday. rewrite M3. fold (fold_block s b).
  assert (frame (fold_block s b) = frame s) as Ef by apply (g_frame _ _ (foldl_grows _ _ _ (bundle_grows _ _ _))).
  unfold frame in Ef. injection Ef as F1 F2 F3 F4 F5. assert (fold_block s b ≡ folded (bs ++ [b])) as Ec.
  { by rewrite folded_snoc, (tr_core _ _ T). }
  destruct (tr_marks _ _ T) as (k & Ek & Hk). assert (p_checkpoints (data s) ++ [mkCheckpoint (b_height b) (b_hash b)
    (len (commitments_ (data (fold_block s b)))) (len (owned (data (fold_block s b)))) (len (spent (data (fold_block s b))))]
    = drop k (marks_of (bs ++ [b]))) as Em.
  { rewrite marks_snoc, drop_app_le, Ek by (rewrite length_marks; lia). f_equal. f_equal.
    unfold mark_of, hash_of. rewrite height_snoc, last_snoc. apply store_core_inv in Ec as (-> & -> & -> & _). done. }
  split; cbn.
  - apply Forall_app. split; [apply (tr_blocks _ _ T)|by apply Forall_singleton].
  - destruct (decide (bs = [])) as [->|Hn]; [exists (b_height b); intros [|i] b' Hb'; by simplify_eq/=; lia|].
    destruct (tr_linked _ _ T) as [h0 L]. exists h0. apply heights_snoc; [done|].
    pose proof (tracks_scanned _ _ T Hn) as Hs. destruct (linked_last _ _ L Hn) as [Hh _].
    unfold scanned_height in *. rewrite (tr_height _ _ T) in *. apply orb_true_iff in Eh as [Eh%N.eqb_eq|Eh%N.eqb_eq]; [|lia].
    unfold wadd, u64_wrap in Eh. destruct Hb as [[Hb1 Hb2] _]. destruct (decide (height_of bs + 1 < 2 ^ 64)).
    + rewrite N.mod_small in Eh by done. destruct bs; [done|]. cbn in *. lia.
    + assert (height_of bs < 2 ^ 64).
      { pose proof (tr_blocks _ _ T) as Hf. destruct bs as [|b' bs' _] using rev_ind; [done|]. rewrite height_snoc.
        apply Forall_app in Hf as [_ Hf]. by inversion Hf as [|?? [[]]]. }
      replace (height_of bs + 1) with (2 ^ 64) in Eh by lia. rewrite N.Div0.mod_same in Eh. lia.
  - exact Ec.
  - by rewrite F1, F2, F3.
  - by rewrite height_snoc.
  - unfold keep_newest. rewrite F5, Em, drop_drop. eexists. split; [reflexivity|].
    rewrite length_drop, length_marks, length_app. cbn. unfold REORG_HORIZON. lia.
  - unfold keep_newest. rewrite length_drop. lia.
Qed.

Lemma mark_height h0 bs i : linked h0 bs → (i < length bs)%nat → cp_height (mark_of (take (S i) bs)) = h0 + N.of_nat i.
Proof.
  intros L [b Hb]%lookup_lt_is_Some_2. unfold mark_of. cbn [cp_height]. rewrite (height_take _ _ _ Hb). by apply L.
Qed.
Lemma elem_of_marks bs cp : cp ∈ marks_of bs → ∃ i, (i < length bs)%nat ∧ cp = mark_of (take (S i) bs).
Proof.
  intros (i & -> & Hi)%list_elem_of_fmap. apply elem_of_seq in Hi. exists (i - 1)%nat. split; [lia|].
  by replace (S (i - 1)) with i by lia.
Qed.
(** The checkpoints up to a height are those of the chain up to it. *)
Lemma marks_below h0 bs k i : linked h0 bs → (k <= i < length bs)%nat →
  filter (λ c, cp_height c <= h0 + N.of_nat i) (drop k (marks_of bs)) = drop k (marks_of (take (S i) bs)).
Proof.
  intros L Hi. rewrite marks_take. rewrite <- (take_drop (S i) (marks_of bs)) at 1.
  rewrite drop_app_le by (rewrite length_take, length_marks; lia). apply filter_split.
  - intros c (j & Hj)%list_elem_of_lookup. rewrite lookup_drop in Hj. apply lookup_take_Some in Hj as [Hj Hlt].
    rewrite marks_lookup in Hj by lia. injection Hj as <-. rewrite (mark_height h0) by (done || lia). lia.
  - intros c (j & Hj)%list_elem_of_lookup. rewrite lookup_drop in Hj. pose proof (lookup_lt_Some _ _ _ Hj) as Hlt.
    rewrite length_marks in Hlt. rewrite marks_lookup in Hj by lia. injection Hj as <-. rewrite (mark_height h0) by (done || lia). lia.
Qed.
Lemma take_prefix {A} (l k : list A) : l `prefix_of` k → take (N.to_nat (len l)) k = l.
Proof. intros [m ->]. unfold len. by rewrite Nat2N.id, take_app_length. Qed.

Lemma rollback_spec bs s h : tracks bs s →
  (∃ n, (rollback_to s h).2 = true ∧ tracks (take n bs) (rollback_to s h).1 ∧
     (n = length bs ∧ height_of bs <= h ∨ n <> 0%nat ∧ height_of (take n bs) = h)) ∨
  (rollback_to s h = (s, false) ∧ h < height_of bs ∧ h ∉ (checkpoints s).*1).
Proof.
  intros T. unfold rollback_to. destruct (N.leb_spec (p_height (data s)) h) as [Hh|Hh]; rewrite (tr_height _ _ T) in Hh.
  { left. exists (length bs). rewrite take_ge by done. cbn. auto. }
  destruct (tr_marks _ _ T) as (k & Ek & Hk). destruct (tr_linked _ _ T) as [h0 L].
  destruct (find _ _) as [cp|] eqn:Ef.
  2: { right. split_and!; [done..|]. unfold checkpoints. rewrite <- list_fmap_compose. intros (c & -> & Hc)%list_elem_of_fmap.
       pose proof (find_none _ _ Ef c (proj1 (list_elem_of_In _ _) Hc)) as E. cbn in E. by apply N.eqb_neq in E. }
  apply find_some in Ef as [Hin Eh%N.eqb_eq]. apply list_elem_of_In, list_elem_of_lookup in Hin as [j Hj].
  rewrite Ek, lookup_drop in Hj. pose proof (lookup_lt_Some _ _ _ Hj) as Hlt. rewrite length_marks in Hlt.
  set (i := (k + j)%nat) in *. assert (k <= i)%nat as Hki by lia. clearbody i. rewrite marks_lookup in Hj by done. injection Hj as <-.
  set (p := take (S i) bs) in *. pose proof (folded_grows bs (S i)) as [G1 G2 G3 _]. fold p in G1, G2, G3.
  pose proof (store_core_inv _ _ (tr_core _ _ T)) as (C1 & C2 & C3 & _).
  assert (consistent (folded p)) as Cp by apply folded_consistent, Forall_take, (tr_blocks _ _ T).
  rewrite (derive_ok (folded p)); [|done|cbn; by rewrite C1, take_prefix|cbn; by rewrite C2, take_prefix|cbn; by rewrite C3, take_prefix].
  left. exists (S i). split; [done|]. split; [|right; split; [done|exact Eh]]. cbn [fst]. split; cbn.
  - by apply Forall_take, (tr_blocks _ _ T).
  - exists h0. by apply linked_take.
  - unfold equiv, store_equiv, core. cbn. by rewrite C1, C2, C3, !take_prefix.
  - apply (tr_magic _ _ T).
  - by rewrite <- Eh.
  - exists k. rewrite <- Eh. unfold p. rewrite (mark_height h0), Ek, marks_below by (done || lia). split; [done|]. rewrite length_take. lia.
  - etransitivity; [apply length_filter|apply (tr_horizon _ _ T)].
Qed.

(** ** The stored form *)

Lemma mark_grows bs i j : (i <= j)%nat → let m := mark_of (take i bs) in let m' := mark_of (take j bs) in
  commitments_len m <= commitments_len m' ∧ owned_len m <= owned_len m' ∧ spent_len m <= spent_len m'.
Proof.
  intros Hij. pose proof (folded_grows (take j bs) i) as [G1 G2 G3 _]. rewrite take_take, Nat.min_l in * by done.
  apply prefix_length in G1, G2, G3. unfold mark_of, len. cbn. lia.
Qed.
Lemma checkpoints_ok_drop h0 bs d : linked h0 bs → p_height d = height_of bs →
  commitments_len (mark_of bs) = len (commitments_ d) → owned_len (mark_of bs) = len (owned d) → spent_len (mark_of bs) = len (spent d) →
  ∀ n k prev, (n + k = length bs)%nat → (prev = None ∨ ∃ i, (i < k)%nat ∧ prev = Some (mark_of (take (S i) bs))) →
  checkpoints_ok d prev (drop k (marks_of bs)) = true.
Proof.
  intros L Eh E1 E2 E3. induction n as [|n IH]; intros k prev Hn Hp.
  { rewrite drop_ge by (rewrite length_marks; lia). done. }
  rewrite (drop_S _ (mark_of (take (S k) bs))) by (apply marks_lookup; lia). cbn [checkpoints_ok].
  pose proof (mark_grows bs (S k) (length bs) ltac:(lia)) as (A1 & A2 & A3). rewrite (take_ge bs (length bs)) in A1, A2, A3 by done.
  rewrite E1 in A1. rewrite E2 in A2. rewrite E3 in A3. pose proof (mark_height h0 bs k L ltac:(lia)) as Ek.
  assert (bs ≠ []) as Hne by (intros ->; cbn in Hn; lia). destruct (linked_last _ _ L Hne) as [El _].
  rewrite Eh, Ek, El. rewrite !(proj2 (N.ltb_ge _ _)) by lia. cbn [orb].
  assert (match prev with
    | Some prev => (h0 + N.of_nat k <=? cp_height prev) || (commitments_len (mark_of (take (S k) bs)) <? commitments_len prev)
        || (owned_len (mark_of (take (S k) bs)) <? owned_len prev) || (spent_len (mark_of (take (S k) bs)) <? spent_len prev)
    | None => false end = false) as ->; [|apply IH; [lia|right; exists k; split; [lia|done]]].
  destruct Hp as [->|(i & Hi & ->)]; [done|]. pose proof (mark_grows bs (S i) (S k) ltac:(lia)) as (B1 & B2 & B3).
  rewrite (mark_height h0) by (done || lia). rewrite (proj2 (N.leb_gt _ _)), !(proj2 (N.ltb_ge _ _)) by lia. done.
Qed.
Lemma load_tracks bs s : tracks bs s → load (data s) = Some {| s with stats := no_stats |}.
Proof.
  intros T. pose proof (tracks_consistent _ _ T) as C. destruct (tr_magic _ _ T) as (M1 & M2 & _).
  destruct (tr_marks _ _ T) as (k & Ek & Hk). destruct (tr_linked _ _ T) as [h0 L].
  pose proof (store_core_inv _ _ (tr_core _ _ T)) as (C1 & C2 & C3 & _). unfold load. rewrite M1, M2, !N.eqb_refl. cbn [negb orb].
  rewrite (proj2 (N.ltb_ge Pq.MAX_V2_NOTES _)) by (unfold len; rewrite (c_leaves _ C), length_fmap; apply (c_room _ C)).
  rewrite (proj2 (N.ltb_ge (len (commitments_ (data s))) (len (owned (data s))))).
  2: { unfold len. rewrite (c_leaves _ C), length_fmap, <- (length_fmap sn_position). apply sorted_bounded; [apply (c_sorted _ C)|].
       intros x (n & -> & Hn)%list_elem_of_fmap. pose proof (c_owned _ C) as Ho. rewrite Forall_forall in Ho. by apply stands_below, Ho. }
  rewrite (proj2 (Nat.ltb_ge _ _)) by apply (tr_horizon _ _ T).
  rewrite Ek, (checkpoints_ok_drop h0 bs) with (n := (length bs - k)%nat);
    [|done|apply (tr_height _ _ T)|by rewrite ?C1, ?C2, ?C3..|lia|by left]. cbn [negb].
  assert (head_agrees (data s) = true) as ->; [|cbn [negb]; rewrite (derive_ok s) by done; by destruct s].
  unfold head_agrees. rewrite Ek. destruct (decide (bs = [])) as [->|Hne].
  - rewrite (tr_height _ _ T). by destruct k.
  - rewrite last_lookup, length_drop, length_marks, lookup_drop.
    destruct bs as [|b0 bs0]; [done|]. set (bs := b0 :: bs0) in *. assert (length bs = S (length bs0)) as El by done.
    replace (k + Nat.pred (length bs - k))%nat with (length bs - 1)%nat by lia. rewrite marks_lookup by lia.
    replace (S (length bs - 1)) with (length bs) by lia. rewrite take_ge by done.
    unfold mark_of. cbn [cp_height commitments_len owned_len spent_len]. by rewrite (tr_height _ _ T), C1, C2, C3, !N.eqb_refl.
Qed.

(** ** Runs *)

(** One scan of a chain. *)
Fixpoint rescan (s : PqNoteStore) (bs : list block) : option PqNoteStore :=
  match bs with
  | [] => Some s
  | b :: bs => s ← ingest_block key s (b_height b) (b_hash b) (b_bundles b); rescan s bs
  end.
Lemma rescan_snoc bs b s : rescan s (bs ++ [b]) = s ← rescan s bs; ingest_block key s (b_height b) (b_hash b) (b_bundles b).
Proof.
  revert s. induction bs as [|b' bs IH]; intros s; cbn; [by destruct (ingest_block _ _ _ _ _)|].
  destruct (ingest_block _ _ _ _ _); cbn; [apply IH|done].
Qed.
Lemma rescan_tracks h0 bs : Forall block_ok bs → linked h0 bs → ∃ s0, rescan (store_new bd) bs = Some s0 ∧ tracks bs s0.
Proof.
  induction bs as [|b bs IH] using rev_ind; intros Hb L; [exists (store_new bd); split; [done|apply new_tracks]|].
  apply Forall_app in Hb as [Hb [Hb1 _]%Forall_cons]. destruct IH as (s0 & E0 & T0); [done| |].
  { intros i b' Hi. by apply L, lookup_app_l_Some. }
  rewrite rescan_snoc, E0. cbn. destruct (ingest_block key s0 _ _ _) as [s1|] eqn:E1; [exists s1; split; [done|by eapply ingest_tracks]|].
  exfalso. unfold ingest_block in E1. destruct (_ || _) eqn:Eh; [done|]. apply orb_false_iff in Eh as [Eh%N.eqb_neq Ez%N.eqb_neq].
  unfold scanned_height in *. rewrite (tr_height _ _ T0) in *. apply Eh.
  assert (bs ≠ []) as Hne by (intros ->; by apply Ez). assert (linked h0 bs) as L0 by (intros i b' Hi; by apply L, lookup_app_l_Some).
  destruct (linked_last _ _ L0 Hne) as [Hl _]. pose proof (L (length bs) b ltac:(by rewrite list_lookup_middle)) as Hl'.
  destruct Hb1 as [[_ Hb1] _]. unfold wadd, u64_wrap. rewrite Hl. assert (0 < N.of_nat (length bs)) by (destruct bs; [done|cbn; lia]).
  rewrite N.mod_small; lia.
Qed.

(** What happens to a store; with it goes the chain it stands on. *)
Inductive op := Scan (b : block) | Rollback (height : N) | Reload.
Definition op_ok (o : op) : Prop := match o with Scan b => block_ok b | _ => True end.
Definition step `{StoreCodec} (st : list block * PqNoteStore) (o : op) : option (list block * PqNoteStore) :=
  let '(bs, s) := st in
  match o with
  | Scan b => s ← ingest_block key s (b_height b) (b_hash b) (b_bundles b); Some (bs ++ [b], s)
  | Rollback h => let '(s, rolled) := rollback_to s h in Some (if (rolled : bool) then filter (λ b, b_height b <= h) bs else bs, s)
  | Reload => s ← store_from_bytes (store_to_bytes s); Some (bs, s)
  end.
Fixpoint run `{StoreCodec} (st : list block * PqNoteStore) (os : list op) : option (list block * PqNoteStore) :=
  match os with [] => Some st | o :: os => st ← step st o; run st os end.

Lemma filter_heights h0 bs n : linked h0 bs → (n <> 0)%nat → (n <= length bs)%nat →
  filter (λ b, b_height b <= height_of (take n bs)) bs = take n bs.
Proof.
  intros L Hn Hl. assert (take n bs ≠ []) as Hne by (intros E%(f_equal length); rewrite length_take in E; cbn in E; lia).
  destruct (linked_last _ _ (linked_take _ _ n L) Hne) as [-> _]. rewrite length_take, Nat.min_l by done.
  rewrite <- (take_drop n bs) at 1. apply filter_split.
  - intros b (i & [Hi Hlt]%lookup_take_Some)%list_elem_of_lookup. rewrite (L _ _ Hi). lia.
  - intros b (i & Hi)%list_elem_of_lookup. rewrite lookup_drop in Hi. rewrite (L _ _ Hi). lia.
Qed.
Lemma stats_tracks bs s st : tracks bs s → tracks bs {| s with stats := st |}.
Proof. by intros []. Qed.
Lemma rollback_tracks bs s h : tracks bs s → let '(s', rolled) := rollback_to s h in
  tracks (if rolled : bool then filter (λ b, b_height b <= h) bs else bs) s'.
Proof.
  intros T. destruct (tr_linked _ _ T) as [h0 L].
  destruct (rollback_spec bs s h T) as [(n & E2 & Tn & Hn)|(E & _)]; [|by rewrite E].
  destruct (rollback_to s h) as [s' []]; [|done]. cbn [fst] in Tn. destruct Hn as [[-> Hh]|[Hn Hh]].
  - rewrite take_ge in Tn by done. rewrite filter_every; [done|]. intros b (i & Hi)%list_elem_of_lookup.
    assert (bs ≠ []) as Hne by (by intros ->). destruct (linked_last _ _ L Hne) as [Hl _]. rewrite (L _ _ Hi).
    apply lookup_lt_Some in Hi. lia.
  - destruct (decide (n <= length bs)%nat) as [Hl|Hl].
    + rewrite <- Hh. by rewrite (filter_heights h0).
    + rewrite take_ge in * by lia. rewrite <- Hh. destruct (decide (bs = [])) as [->|Hne]; [done|].
      pose proof (filter_heights h0 bs (length bs) L) as Ef. rewrite take_ge in Ef by done. rewrite Ef; [done| |done]. by destruct bs.
Qed.
Lemma run_tracks `{StoreCodec} os : (∀ d, codec_from (codec_to d) = Some d) → Forall op_ok os → ∀ bs s bs' s', tracks bs s →
  run (bs, s) os = Some (bs', s') → tracks bs' s'.
Proof.
  intros Hc. induction 1 as [|o os Ho _ IH]; intros bs s bs' s' T; cbn [run]; [by intros [= -> ->]|]. destruct o as [b|h|]; cbn [step].
  - destruct (ingest_block _ _ _ _ _) as [s1|] eqn:E; [|done]. cbn. apply IH. by eapply ingest_tracks.
  - pose proof (rollback_tracks bs s h T) as Tr. destruct (rollback_to s h) as [s1 rolled]. cbn. by apply IH.
  - unfold store_from_bytes, store_to_bytes. rewrite Hc. cbn. rewrite (load_tracks _ _ T). cbn. by apply IH, stats_tracks.
Qed.
Lemma tracks_tip bs s : tracks bs s → tip_checkpoint s = (λ b, (b_height b, b_hash b)) <$> last bs.
Proof.
  intros T. destruct (tr_marks _ _ T) as (k & Ek & Hk). unfold tip_checkpoint. rewrite Ek.
  destruct bs as [|b bs _] using rev_ind; [by destruct k|]. rewrite length_app in Hk. cbn in Hk.
  rewrite marks_snoc, drop_app_le, !last_snoc by (rewrite length_marks; lia). cbn. unfold hash_of. by rewrite height_snoc, last_snoc.
Qed.
End birthday.

(** ** The pool of a chain *)

Definition real_commitments (pi : PublicInputs) : list PqDigest :=
  snd <$> filter (λ e, e.1 = false) (zip (output_dummy pi) (output_commitments pi)).
(** The consensus state after the bundles of a chain, each accepted. *)
Fixpoint apply_bundles (p : ShieldedV2State) (l : list SpendBundle) : option ShieldedV2State :=
  match l with
  | [] => Some p
  | b :: l =>
      match apply p (real_nullifiers (public_inputs b)) (real_commitments (public_inputs b)) with
      | Some (Ok p) => apply_bundles p l
      | _ => None
      end
  end.
Definition all_bundles (bs : list block) : list SpendBundle := bs ≫= b_bundles.
Definition pool_of (bs : list block) : option ShieldedV2State := apply_bundles new (all_bundles bs).
Definition cms_of (l : list SpendBundle) : list PqDigest := l ≫= (λ b, real_commitments (public_inputs b)).
Definition nfs_of (l : list SpendBundle) : list PqDigest := l ≫= (λ b, real_nullifiers (public_inputs b)).
Lemma bundles_reached l : ∀ p p' cms spent, reached cms spent p → apply_bundles p l = Some p' →
  reached (cms ++ cms_of l) (spent ++ nfs_of l) p'.
Proof.
  induction l as [|b l IH]; intros p p' cms spent R; cbn; [intros [= <-]; by rewrite !app_nil_r|].
  destruct (apply p _ _) as [[p1|]|] eqn:Ea; [|done..]. intros E. unfold cms_of, nfs_of. cbn. rewrite !app_assoc.
  eapply IH; [|done]. by econstructor.
Qed.

(** *** What a fold puts into tree and set *)

Lemma accept_tree tag cm pos n s : leaves (tree (accept_note key tag cm pos n s)) = leaves (tree s) ∧
  spent_set (accept_note key tag cm pos n s) = spent_set s.
Proof.
  unfold accept_note. repeat case_bool_decide; cbn [negb]; [|done..]. destruct (value_grains n =? 0); [done|].
  case_decide; [done|]. cbn. unfold mark. by destruct (checked_sub _ _).
Qed.
Lemma output_tree d s e : N.of_nat (length (leaves (tree s))) < MAX_TREE_LEAVES →
  leaves (tree (ingest_output key d (tag_of key) s e)) = leaves (tree s) ++ (if e.1 then [] else [e.2.1]) ∧
  spent_set (ingest_output key d (tag_of key) s e) = spent_set s.
Proof.
  intros Hl. destruct e as [[] [cm ct]]; [by rewrite app_nil_r|]. unfold ingest_output, append, tree_len.
  rewrite (proj2 (N.leb_gt _ _)) by done. destruct d; cbn [negb]; [|done]. destruct ct as [ct|]; [|done].
  destruct (decrypt (key_dk key) ct) as [n|[]]; [|done..]. edestruct accept_tree as [E1 E2]. rewrite E1, E2. done.
Qed.
Lemma outputs_tree d l : ∀ s, N.of_nat (length (leaves (tree s)) + length (filter (λ e, e.1 = false) l)) <= MAX_TREE_LEAVES →
  leaves (tree (foldl (ingest_output key d (tag_of key)) s l)) = leaves (tree s) ++ ((λ e, e.2.1) <$> filter (λ e, e.1 = false) l) ∧
  spent_set (foldl (ingest_output key d (tag_of key)) s l) = spent_set s.
Proof.
  induction l as [|e l IH]; intros s Hl; cbn [foldl]; [by rewrite app_nil_r|]. destruct e as [[] [cm ct]].
  - rewrite filter_cons_False in * by done. apply IH. done.
  - rewrite filter_cons_True in * by done. cbn [length] in Hl. destruct (output_tree d s (false, (cm, ct))) as [E1 E2]; [lia|].
    destruct (IH (ingest_output key d (tag_of key) s (false, (cm, ct)))) as [E3 E4].
    { rewrite E1. cbn [fst snd]. rewrite length_app. cbn [length]. lia. }
    rewrite E3, E4, E1, E2. split; [|done]. cbn. by rewrite <- app_assoc.
Qed.
Lemma inputs_tree l : ∀ s, tree (foldl ingest_input s l) = tree s ∧
  spent_set (foldl ingest_input s l) = list_to_set (to_bytes <$> (snd <$> filter (λ e, e.1 = false) l)) ∪ spent_set s.
Proof.
  induction l as [|e l IH]; intros s; cbn [foldl]; [split; [done|cbn; set_solver]|]. destruct (IH (ingest_input s e)) as [-> ->].
  unfold ingest_input. destruct e as [[] x]; [by rewrite filter_cons_False by done|]. rewrite filter_cons_True by done.
  cbn [fst snd fmap list_fmap list_to_set]. case_decide; (split; [done|]); set_solver.
Qed.
Lemma real_commitments_zip {A} (ds : list bool) (cms : list PqDigest) (cts : list A) : length cms = length cts →
  (λ e, e.2.1) <$> filter (λ e, e.1 = false) (zip ds (zip cms cts)) = snd <$> filter (λ e, e.1 = false) (zip ds cms).
Proof.
  revert cms cts. induction ds as [|d ds IH]; intros [|cm cms] [|ct cts] E; try done. cbn in E.
  cbn [zip zip_with]. rewrite !filter_cons. cbn [fst]. case_decide; cbn; rewrite IH by lia; done.
Qed.
Lemma bundle_tree d s b : N.of_nat (length (leaves (tree s) ++ real_commitments (public_inputs b))) <= MAX_TREE_LEAVES →
  leaves (tree (ingest_bundle key d (tag_of key) s b)) = leaves (tree s) ++ real_commitments (public_inputs b) ∧
  spent_set (ingest_bundle key d (tag_of key) s b) = list_to_set (to_bytes <$> real_nullifiers (public_inputs b)) ∪ spent_set s.
Proof.
  intros Hl. unfold ingest_bundle. cbv zeta. set (ins := zip (input_dummy _) _). set (outs := zip (output_dummy _) _).
  destruct (inputs_tree ins s) as [E1 E2].
  assert ((λ e, e.2.1) <$> filter (λ e, e.1 = false) outs = real_commitments (public_inputs b)) as Eo.
  { apply real_commitments_zip. by rewrite !length_vec_to_list. }
  destruct (outputs_tree d outs (foldl ingest_input s ins)) as [E3 E4].
  { rewrite E1, <- (length_fmap (λ e : bool * (PqDigest * option NoteCiphertext), e.2.1)), Eo. by rewrite length_app in Hl. }
  by rewrite E3, E4, E1, E2, Eo.
Qed.
Lemma bundles_tree d l : ∀ s, N.of_nat (length (leaves (tree s) ++ cms_of l)) <= MAX_TREE_LEAVES →
  leaves (tree (foldl (ingest_bundle key d (tag_of key)) s l)) = leaves (tree s) ++ cms_of l ∧
  spent_set (foldl (ingest_bundle key d (tag_of key)) s l) = list_to_set (to_bytes <$> nfs_of l) ∪ spent_set s.
Proof.
  induction l as [|b l IH]; intros s Hl; cbn [foldl]; [rewrite app_nil_r; split; [done|cbn; set_solver]|].
  unfold cms_of, nfs_of in *. cbn [mbind list_bind] in *. rewrite app_assoc in *.
  destruct (bundle_tree d s b) as [E1 E2]; [rewrite length_app in Hl; lia|]. destruct (IH (ingest_bundle key d (tag_of key) s b)) as [E3 E4].
  { by rewrite E1. }
  rewrite E3, E4, E1, E2. split; [done|]. rewrite fmap_app, list_to_set_app_L. clear. set_solver.
Qed.
Lemma folded_tree bd bs : N.of_nat (length (cms_of (all_bundles bs))) <= MAX_TREE_LEAVES →
  leaves (tree (folded bd bs)) = cms_of (all_bundles bs) ∧ spent_set (folded bd bs) = list_to_set (to_bytes <$> nfs_of (all_bundles bs)).
Proof.
  induction bs as [|b bs IH] using rev_ind; intros Hl; [done|]. rewrite folded_snoc. unfold fold_block.
  unfold all_bundles, cms_of, nfs_of in *. rewrite !bind_app in *. cbn [mbind list_bind] in *. rewrite !app_nil_r in *.
  rewrite length_app in Hl. destruct IH as [E1 E2]; [lia|].
  destruct (bundles_tree (bd <=? b_height b) (b_bundles b) (folded bd bs)) as [E3 E4]; [rewrite E1; unfold cms_of; rewrite length_app; lia|].
  rewrite E3, E4, E1, E2. split; [done|]. unfold nfs_of. rewrite fmap_app, list_to_set_app_L. clear. set_solver.
Qed.

(** *** Payments *)

(** A note the key can open, of its own, with a value, at the commitment. *)
Definition payment (cm : PqDigest) (ct : option NoteCiphertext) (n : Note) : Prop :=
  (ct ≫= λ ct, match decrypt (key_dk key) ct with Ok n => Some n | Err _ => None end) = Some n ∧
  owner_tag n = tag_of key ∧ note_commitment n = cm ∧ 0 < value_grains n.
Definition found (s : PqNoteStore) (cm : PqDigest) (n : Note) : Prop := ∃ pos,
  leaves (tree s) !! N.to_nat pos = Some cm ∧ to_bytes (nullifier (spend_key key) (rho n) pos) ∈ owned_nullifiers s.
Lemma found_grows s s' cm n : leaves (tree s) `prefix_of` leaves (tree s') → owned_nullifiers s ⊆ owned_nullifiers s' →
  found s cm n → found s' cm n.
Proof. intros Hp Hn (pos & Hl & Hin). exists pos. split; [by eapply prefix_lookup_Some|by apply Hn]. Qed.
Definition sees (s s' : PqNoteStore) : Prop :=
  leaves (tree s) `prefix_of` leaves (tree s') ∧ owned_nullifiers s ⊆ owned_nullifiers s'.
#[global] Instance sees_preorder : PreOrder sees.
Proof. split; [by intros s|]. intros s s' s'' [] []. split; etransitivity; eassumption. Qed.
Lemma accept_sees tag cm pos n s : sees s (accept_note key tag cm pos n s).
Proof.
  unfold accept_note. repeat case_bool_decide; cbn [negb]; [|by split..]. destruct (value_grains n =? 0); [by split|].
  case_decide; [by split|]. split; cbn; [unfold mark; by destruct (checked_sub _ _)|set_solver].
Qed.
Lemma input_sees s e : sees s (ingest_input s e).
Proof. unfold ingest_input. destruct e.1; [done|]. case_decide; [done|by split]. Qed.
Lemma append_sees s cm t pos d : append (tree s) cm = (t, Some pos) → sees s {| s with data := d; tree := t |}.
Proof.
  unfold append. destruct (_ <=? _); [done|]. intros [= <- _]. split; [by apply prefix_app_r|done].
Qed.
Lemma output_sees d s e : sees s (ingest_output key d (tag_of key) s e).
Proof.
  destruct e as [[] [cm ct]]; [done|]. unfold ingest_output. destruct (append (tree s) cm) as [t [pos|]] eqn:Ea; [|done].
  eapply append_sees in Ea. destruct d; cbn [negb]; [|exact Ea]. destruct ct as [ct|]; [|exact Ea].
  destruct (decrypt (key_dk key) ct) as [n|[]]; [|exact Ea..]. etransitivity; [|apply accept_sees]; exact Ea.
Qed.
Lemma output_found s cm ct n : N.of_nat (length (leaves (tree s))) < MAX_TREE_LEAVES → payment cm ct n →
  found (ingest_output key true (tag_of key) s (false, (cm, ct))) cm n.
Proof.
  intros Hl (Hd & Ht & Hc & Hv). destruct ct as [ct|]; [|done]. cbn in Hd. unfold ingest_output, append, tree_len.
  rewrite (proj2 (N.leb_gt _ _)) by done. cbn [negb]. destruct (decrypt (key_dk key) ct) as [n'|[]]; [|done..].
  injection Hd as ->. exists (N.of_nat (length (leaves (tree s)))). edestruct accept_tree as [-> _]. cbn [tree leaves].
  rewrite Nat2N.id, list_lookup_middle by done. split; [done|]. unfold accept_note.
  rewrite !bool_decide_true, (proj2 (N.eqb_neq _ _)) by (done || lia). cbn [negb]. case_decide as Hin; [done|]. cbn. set_solver.
Qed.
Lemma foldl_sees {A} (f : PqNoteStore → A → PqNoteStore) l s : (∀ s a, sees s (f s a)) → sees s (foldl f s l).
Proof. intros Hf. revert s. induction l as [|a l IH]; intros s; [done|]. cbn. etransitivity; [apply Hf|apply IH]. Qed.
Lemma bundle_sees d s b : sees s (ingest_bundle key d (tag_of key) s b).
Proof. unfold ingest_bundle. cbv zeta. etransitivity; [apply (foldl_sees ingest_input), input_sees|apply (foldl_sees (ingest_output _ _ _)), output_sees]. Qed.
(** What one member of a fold finds, the fold finds. *)
Lemma foldl_found {A} (f : PqNoteStore → A → PqNoteStore) l a s cm n : (∀ s a, sees s (f s a)) → a ∈ l →
  (∀ l1 l2, l = l1 ++ a :: l2 → found (f (foldl f s l1) a) cm n) → found (foldl f s l) cm n.
Proof.
  intros Hf (l1 & l2 & ->)%list_elem_of_split Ha. rewrite foldl_app. cbn [foldl].
  destruct (foldl_sees f l2 (f (foldl f s l1) a) Hf) as [Hs1 Hs2]. eapply found_grows; [exact Hs1|exact Hs2|by eapply Ha].
Qed.
Lemma bundle_found s b cm ct n :
  (false, (cm, ct)) ∈ zip (output_dummy (public_inputs b)) (zip (output_commitments (public_inputs b)) (output_ciphertexts b)) →
  payment cm ct n → N.of_nat (length (leaves (tree s) ++ real_commitments (public_inputs b))) <= MAX_TREE_LEAVES →
  found (ingest_bundle key true (tag_of key) s b) cm n.
Proof.
  intros Hin Hp Hl. unfold ingest_bundle. cbv zeta. set (ins := zip (input_dummy _) _). set (outs := zip (output_dummy _) _) in *.
  assert ((λ e, e.2.1) <$> filter (λ e, e.1 = false) outs = real_commitments (public_inputs b)) as Eo.
  { apply real_commitments_zip. by rewrite !length_vec_to_list. }
  rewrite <- Eo, length_app, length_fmap in Hl. eapply foldl_found; [apply output_sees|exact Hin|]. intros l1 l2 E.
  rewrite E, filter_app, filter_cons_True, length_app in Hl by done. cbn [length] in Hl. destruct (inputs_tree ins s) as [E1 _].
  apply output_found; [|done]. destruct (outputs_tree true l1 (foldl ingest_input s ins)) as [E2 _]; rewrite E1 in *; [lia|].
  rewrite E2, length_app, length_fmap. lia.
Qed.
Lemma folded_found bd bs bk b cm ct n : bk ∈ bs → b ∈ b_bundles bk → bd <= b_height bk →
  (false, (cm, ct)) ∈ zip (output_dummy (public_inputs b)) (zip (output_commitments (public_inputs b)) (output_ciphertexts b)) →
  payment cm ct n → N.of_nat (length (cms_of (all_bundles bs))) <= MAX_TREE_LEAVES → found (folded bd bs) cm n.
Proof.
  intros Hbk Hb Hd Hin Hp Hl. unfold folded. eapply foldl_found; [|exact Hbk|].
  { intros s b'. apply foldl_sees, bundle_sees. }
  intros l1 l2 ->. fold (folded bd l1). unfold fold_block. rewrite (proj2 (N.leb_le _ _)) by done.
  unfold all_bundles, cms_of in Hl. rewrite !bind_app in Hl. cbn [mbind list_bind] in Hl. rewrite !bind_app, !length_app in Hl.
  destruct (folded_tree bd l1) as [E1 _]; [unfold all_bundles, cms_of; lia|].
  eapply foldl_found; [apply bundle_sees|exact Hb|]. intros k1 k2 Ek. rewrite Ek, bind_app, length_app in Hl.
  cbn [mbind list_bind] in Hl. rewrite length_app in Hl.
  destruct (bundles_tree true k1 (folded bd l1)) as [E2 _]; [rewrite E1, length_app; unfold all_bundles, cms_of; lia|].
  eapply bundle_found; [done..|]. rewrite E2, E1, !length_app. unfold all_bundles, cms_of. lia.
Qed.

(** *** The two theorems *)

Lemma live_proper s s' : s ≡ s' → live s = live s'.
Proof. intros (_ & E2 & _ & _ & E5 & _)%store_core_inv. unfold live. by rewrite E2, E5. Qed.
Definition sum (l : list N) : N := foldr N.add 0 l.
Lemma balance_sum s : balance s = N.min u64_max (sum (unspent_values s)).
Proof.
  unfold balance, unspent_values, sum. assert (∀ acc, acc <= u64_max →
    foldl (λ acc n, saturating_add u64_max acc (sn_value n)) acc (live s) = N.min u64_max (acc + foldr N.add 0 (sn_value <$> live s))) as E.
  { induction (live s) as [|n l IH]; intros acc Ha; cbn [foldl fmap list_fmap foldr]; [rewrite N.add_0_r; by rewrite N.min_r|].
    rewrite IH by (unfold saturating_add; lia). unfold saturating_add. lia. }
  rewrite E by done. done.
Qed.
Lemma stored_note ls n : stands ls n → ∃ r, is_canonical r = true ∧ sn_value n <= MAX_NOTE_VALUE ∧
  (rho ← from_bytes (sn_rho n); note ← Note_new (sn_value n) (tag_of key) rho; Some (note, sn_position n)) =
  Some (mkNote (sn_value n) (tag_of key) r, sn_position n) ∧
  ls !! N.to_nat (sn_position n) = Some (note_commitment (mkNote (sn_value n) (tag_of key) r)) ∧
  sn_nullifier n = to_bytes (nullifier (spend_key key) r (sn_position n)).
Proof.
  intros (r & -> & Hr & [Hv1 Hv2] & Hl & Hn). exists r. rewrite from_to_bytes by done. unfold Note_new.
  rewrite (proj2 (N.ltb_ge _ _)) by done. split_and!; done.
Qed.
Lemma unspent_all s : consistent s → unspent key s = (λ n, (mkNote (sn_value n) (tag_of key)
  (default ZERO (from_bytes (sn_rho n))), sn_position n)) <$> live s.
Proof.
  intros C. unfold unspent. assert (Forall (stands (leaves (tree s))) (live s)) as Hl.
  { apply Forall_forall. intros n [_ Hn]%list_elem_of_filter. pose proof (c_owned _ C) as Ho. rewrite Forall_forall in Ho. by apply Ho. }
  induction Hl as [|n l (r & E1 & Hr & [_ Hv] & _) _ IH]; [done|]. cbn. rewrite E1, from_to_bytes by done. cbn. unfold Note_new.
  rewrite (proj2 (N.ltb_ge _ _)) by done. cbn. f_equal. exact IH.
Qed.

(** Marks play no part in roots and paths. *)
Lemma root_leaves t : tree_root t = tree_root (tree_of (leaves t)).
Proof. unfold tree_root. cbn [tree_of leaves]. reflexivity. Qed.
Lemma witness_leaves t pos : witness t pos = witness (tree_of (leaves t)) pos.
Proof. unfold witness, tree_len. rewrite <- (root_leaves t). cbn [tree_of leaves]. reflexivity. Qed.
Lemma witness_position t pos path r : witness t pos = Some (path, r) → Pq.position path = pos.
Proof.
  unfold witness. generalize (tree_root t) (witness_path (leaves t) TREE_DEPTH 0 pos). intros r' w.
  destruct (_ <=? _); [done|]. by intros [= <- _].
Qed.
(** What the pool of a chain says of a store that stands on it. *)
Lemma tracks_pool bd bs s p : tracks bd bs s → pool_of bs = Some p →
  models (leaves (tree s)) (nfs_of (all_bundles bs)) p ∧ leaves (tree s) = cms_of (all_bundles bs) ∧
  spent_set s = Pq.nullifiers p.
Proof.
  intros T Hp. pose proof (reached_models _ _ _ (bundles_reached _ _ _ _ _ reached_new Hp)) as M. cbn [app] in M.
  pose proof (h_room _ _ (m_holds _ _ _ M)) as Hr. rewrite (h_size _ _ (m_holds _ _ _ M)) in Hr.
  destruct (folded_tree bd bs Hr) as [E1 E2]. pose proof (store_core_inv _ _ (tr_core _ _ _ T)) as (_ & _ & _ & -> & -> & _).
  rewrite E1, E2, (m_spent _ _ _ M). auto.
Qed.
Lemma unspent_spendable bd bs s p n pos : tracks bd bs s → pool_of bs = Some p → (n, pos) ∈ unspent key s →
  owner_tag n = tag_of key ∧ is_canonical (rho n) = true ∧ 0 < value_grains n <= MAX_NOTE_VALUE ∧ nullifier_seen p (nullifier (spend_key key) (rho n) pos) = false ∧
  ∃ path, store_witness s pos = Some (path, root p) ∧ compute_root path (note_commitment n) = root p ∧ Pq.position path = pos.
Proof.
  intros T Hp Hin. pose proof (tracks_consistent _ _ _ T) as C. destruct (tracks_pool _ _ _ _ T Hp) as (M & El & Es).
  rewrite unspent_all in Hin by done. apply list_elem_of_fmap in Hin as (sn & [= -> ->] & [Hsp Hsn]%list_elem_of_filter).
  pose proof (c_owned _ C) as Ho. rewrite Forall_forall in Ho. destruct (Ho sn Hsn) as (r & Er & Hr & Hv & Hl & Hnf).
  cbn [owner_tag rho value_grains]. rewrite Er, from_to_bytes by done. change (default ZERO (Some r)) with r. split_and!; [done..|apply Hv|apply Hv| |].
  { unfold nullifier_seen. apply bool_decide_eq_false. rewrite <- Es, <- Hnf. exact Hsp. }
  pose proof (lookup_lt_Some _ _ _ Hl) as Hlt. destruct (witness_ok (leaves (tree s)) (sn_position sn)) as (path & Ew & Ec).
  { lia. }
  { pose proof (h_room _ _ (m_holds _ _ _ M)) as Hm. by rewrite (h_size _ _ (m_holds _ _ _ M)) in Hm. }
  rewrite <- (holds_root _ _ (m_holds _ _ _ M)) in *. exists path. split_and!.
  - unfold store_witness. by rewrite witness_leaves.
  - by rewrite (list_lookup_total_correct _ _ _ Hl) in Ec.
  - by eapply witness_position.
Qed.

(** ** Back onto the node's chain *)

Section reconcile.
Context (bd : N) (cs : list block) (tip : N) (ask : N → result string (option bytes)).
(** The node answers for its chain, from height 1 on. *)
Hypothesis truthful : ∀ h, 0 < h <= tip → ask h = Ok (b_hash <$> cs !! N.to_nat (h - 1)).
Definition answered (known : gmap N (option bytes)) : Prop :=
  ∀ h c, 0 < h → known !! h = Some c → c = b_hash <$> cs !! N.to_nat (h - 1).
Lemma canonical_spec known h c known' : 0 < h → answered known → canonical ask tip known h = Ok (c, known') →
  answered known' ∧ (∀ hash, c = Some hash → ∃ b, cs !! N.to_nat (h - 1) = Some b ∧ b_hash b = hash).
Proof.
  intros Hh Ha. unfold canonical. destruct (N.ltb_spec tip h) as [Ht|Ht]; [by intros [= <- <-]|].
  assert (∀ hash, b_hash <$> cs !! N.to_nat (h - 1) = Some hash → ∃ b, cs !! N.to_nat (h - 1) = Some b ∧ b_hash b = hash) as Hf.
  { intros hash (b & Hb & E)%fmap_Some. eauto. }
  destruct (known !! h) as [c0|] eqn:Ek; [intros [= <- <-]; split; [done|]; by rewrite (Ha h c0 Hh Ek)|].
  rewrite truthful by done. intros [= <- <-]. split; [|done]. intros h' c' Hh'. destruct (decide (h' = h)) as [->|Hne].
  - rewrite lookup_insert_eq. by intros [= <-].
  - rewrite lookup_insert_ne by done. by apply Ha.
Qed.

Context (bs : list block) (s : PqNoteStore).
Hypotheses (T : tracks bd bs s) (L : linked 1 bs).
(** A hash names a block and all below it. *)
Hypothesis same_past : ∀ i b c, bs !! i = Some b → cs !! i = Some c → b_hash b = b_hash c → take (S i) bs = take (S i) cs.

Lemma checkpoint_block h hash : (h, hash) ∈ checkpoints s → ∃ i b, bs !! i = Some b ∧ h = 1 + N.of_nat i ∧ b_hash b = hash.
Proof.
  destruct (tr_marks _ _ _ T) as (k & Ek & _). unfold checkpoints. rewrite Ek.
  intros (cp & [= -> ->] & Hin)%list_elem_of_fmap. apply subseteq_drop in Hin.
  apply elem_of_marks in Hin as (i & Hi & ->). destruct (lookup_lt_is_Some_2 _ _ Hi) as [b Hb]. exists i, b. split; [done|].
  rewrite (mark_height bd 1) by done. split; [done|]. unfold mark_of, hash_of. cbn. by rewrite (take_S_r _ _ _ Hb), last_snoc.
Qed.
Lemma matched_prefix h hash n : (h, hash) ∈ checkpoints s → (∃ b, cs !! N.to_nat (h - 1) = Some b ∧ b_hash b = hash) →
  n = length bs ∧ height_of bs <= h ∨ n <> 0%nat ∧ height_of (take n bs) = h → ∃ m, take n bs = take m cs.
Proof.
  intros (i & b & Hb & -> & Eh)%checkpoint_block (c & Hc & Eh') Hn. replace (N.to_nat (1 + N.of_nat i - 1)) with i in Hc by lia.
  exists (S i). rewrite <- (same_past i b c Hb Hc) by congruence. pose proof (lookup_lt_Some _ _ _ Hb) as Hi.
  assert (bs ≠ []) as Hne by (by intros ->). destruct Hn as [[-> Hh]|[Hn Hh]].
  - destruct (linked_last _ _ L Hne) as [El _]. rewrite !take_ge by lia. done.
  - assert (take n bs ≠ []) as Hne' by (intros E%(f_equal length); rewrite length_take in E; cbn in E; lia).
    destruct (linked_last _ _ (linked_take _ _ n L) Hne') as [El _]. rewrite length_take in El.
    destruct (decide (n <= length bs)%nat); [f_equal; lia|]. rewrite !take_ge by lia. done.
Qed.
Lemma find_fork_spec l known r known' : (∀ e, e ∈ l → e ∈ checkpoints s) → answered known →
  find_fork ask tip known s l = Ok (r, known') → ∀ s', r = Some s' → ∃ n, tracks bd (take n cs) s'.
Proof.
  revert known. induction l as [|[h hash] l IH]; intros known Hl Ha; cbn [find_fork]; [by intros [= <- <-]|].
  destruct (canonical ask tip known h) as [[c k1]|] eqn:Ec; [|done]. cbn.
  pose proof (Hl (h, hash) ltac:(left)) as Hin. destruct (checkpoint_block _ _ Hin) as (i & b & _ & Eh & _).
  destruct (canonical_spec known h c k1 ltac:(lia) Ha Ec) as [Ha1 Hc]. case_bool_decide as Hm; [|apply IH; [|done]; intros e He; apply Hl; by right].
  destruct (rollback_spec bd bs s h T) as [(n & E2 & Tn & Hn)|(E & _)].
  - destruct (rollback_to s h) as [s1 []]; [|done]. intros [= <- <-] s' [= <-].
    destruct (matched_prefix h hash n Hin (Hc _ Hm) Hn) as [m Em]. exists m. by rewrite <- Em.
  - rewrite E. apply IH; [|done]. intros e He. apply Hl. by right.
Qed.
End reconcile.
End key.

(** Whatever is done to a new store, blocks scanned in order, forks rolled back, the store
    written and read again: it holds what one scan of the chain it stands on holds, it
    loads back from its bytes, and every checkpoint it keeps can be rolled back to. *)
Theorem store_is_rescan `{StoreCodec} key bd os bs s : (∀ d, codec_from (codec_to d) = Some d) → Forall op_ok os →
  run key ([], store_new bd) os = Some (bs, s) →
  (∃ s0, rescan key (store_new bd) bs = Some s0 ∧ s ≡ s0 ∧ scanned_height s = scanned_height s0 ∧
     tip_checkpoint s = tip_checkpoint s0 ∧ balance s = balance s0 ∧ unspent key s = unspent key s0) ∧
  store_from_bytes (store_to_bytes s) = Some {| s with stats := no_stats |} ∧
  (∀ h, h ∈ (checkpoints s).*1 → (rollback_to s h).2 = true) ∧ (length (checkpoints s) <= REORG_HORIZON)%nat.
Proof.
  intros Hc Ho Hr. pose proof (run_tracks key bd os Hc Ho _ _ _ _ (new_tracks key bd) Hr) as T.
  destruct (tr_linked _ _ _ _ T) as [h0 L]. destruct (rescan_tracks key bd h0 bs (tr_blocks _ _ _ _ T) L) as (s0 & E0 & T0).
  assert (s ≡ s0) as E by (by rewrite (tr_core _ _ _ _ T), (tr_core _ _ _ _ T0)). pose proof (live_proper _ _ E) as El.
  split_and!.
  - exists s0. split_and!; [done|done|unfold scanned_height; by rewrite (tr_height _ _ _ _ T), (tr_height _ _ _ _ T0)| | |].
    + by rewrite (tracks_tip _ _ _ _ T), (tracks_tip _ _ _ _ T0).
    + unfold balance. by rewrite El.
    + unfold unspent. by rewrite El.
  - unfold store_from_bytes, store_to_bytes. rewrite Hc. exact (load_tracks _ _ _ _ T).
  - intros h Hh. destruct (rollback_spec _ _ _ _ h T) as [(n & -> & _)|(_ & _ & Hn)]; [done|by destruct Hn].
  - unfold checkpoints. rewrite length_fmap. apply (tr_horizon _ _ _ _ T).
Qed.

(** C40: whatever is done to a new store, blocks of canonical digests scanned in order, forks
    rolled back, the store written and read over a codec that round trips, it is in step with
    the pool that the bundles of the scanned blocks build when each is accepted: root and note
    count are the pool's, the balance is the sum of the notes offered (at most the [u64]
    maximum), each of them is owned, unspent in the pool and has a path to the root the pool
    accepts; and a note paid to the key in a scanned block, from the birthday on, has a position
    at which the pool has seen its nullifier or a note with that nullifier is offered. *)
Theorem store_in_step `{StoreCodec} key bd os bs s p : (∀ d, codec_from (codec_to d) = Some d) → Forall op_ok os →
  run key ([], store_new bd) os = Some (bs, s) → pool_of bs = Some p →
  store_root s = root p ∧ commitment_count s = note_count p ∧ anchor_is_known p (root p) = true ∧
  NoDup (unspent key s).*2 ∧ balance s = N.min u64_max (sum ((λ e, value_grains e.1) <$> unspent key s)) ∧
  (∀ n pos, (n, pos) ∈ unspent key s → owner_tag n = tag_of key ∧
     nullifier_seen p (nullifier (spend_key key) (rho n) pos) = false ∧
     ∃ path, store_witness s pos = Some (path, root p) ∧ compute_root path (note_commitment n) = root p) ∧
  (∀ bk b cm ct n, bk ∈ bs → b ∈ b_bundles bk → bd <= b_height bk →
     (false, (cm, ct)) ∈ zip (output_dummy (public_inputs b)) (zip (output_commitments (public_inputs b)) (output_ciphertexts b)) →
     payment key cm ct n → ∃ pos, Pq.commitments p !! N.to_nat pos = Some (to_bytes cm) ∧
     let nf := nullifier (spend_key key) (rho n) pos in
     nullifier_seen p nf = true ∨ ∃ n' pos', (n', pos') ∈ unspent key s ∧ to_bytes (nullifier (spend_key key) (rho n') pos') = to_bytes nf).
Proof.
  intros Hc Ho Hr Hp. pose proof (run_tracks key bd os Hc Ho _ _ _ _ (new_tracks key bd) Hr) as T.
  pose proof (tracks_consistent _ _ _ _ T) as C. destruct (tracks_pool _ _ _ _ _ T Hp) as (M & El & Es).
  pose proof (m_holds _ _ _ M) as Hh. pose proof (unspent_all _ _ C) as Eu. split_and!.
  - rewrite (holds_root _ _ Hh). apply root_leaves.
  - unfold commitment_count, note_count. by rewrite (c_leaves _ _ C), length_fmap, (h_size _ _ Hh).
  - eapply (anchor_known _ []); [apply (holds_root _ _ Hh)|rewrite app_nil_r; exact M|cbn; lia].
  - rewrite Eu, <- list_fmap_compose. pose proof (sorted_NoDup _ (c_sorted _ _ C)) as Hd. unfold live.
    by apply (NoDup_filtered sn_position).
  - rewrite balance_sum, Eu, <- list_fmap_compose. done.
  - intros n pos Hin. destruct (unspent_spendable _ _ _ _ _ _ _ T Hp Hin) as (H1' & _ & _ & H2' & path & Hw & Hcr & _). eauto 6.
  - intros bk b cm ct n Hbk Hb Hd Hin Hpay. rewrite El in Hh. pose proof (h_room _ _ Hh) as Hroom. rewrite (h_size _ _ Hh) in Hroom.
    destruct (folded_found key bd bs bk b cm ct n Hbk Hb Hd Hin Hpay Hroom) as (pos & Hl & Hnf).
    pose proof (store_core_inv _ _ (tr_core _ _ _ _ T)) as (_ & _ & _ & Et & _ & En). rewrite <- Et, El in Hl. rewrite <- En in Hnf.
    exists pos. rewrite (h_commitments _ _ Hh), list_lookup_fmap, Hl. split; [done|]. cbv zeta.
    rewrite (c_nullifiers _ _ C), elem_of_list_to_set in Hnf. apply list_elem_of_fmap in Hnf as (sn & Enf & Hsn).
    unfold nullifier_seen. rewrite bool_decide_eq_true, <- Es.
    destruct (decide (sn_nullifier sn ∈ spent_set s)) as [Hs|Hs]; [left; congruence|right].
    pose proof (c_owned _ _ C) as Hst. rewrite Forall_forall in Hst. destruct (Hst sn Hsn) as (r & Er & Hcan & _ & _ & Enr).
    eexists (mkNote _ _ r), (sn_position sn). split; [|cbn [rho]; by rewrite Enf, Enr]. rewrite Eu. apply list_elem_of_fmap. exists sn.
    rewrite Er, from_to_bytes by done. split; [reflexivity|]. by apply list_elem_of_filter.
Qed.

(** When the node answers for its own chain and a hash names a block with its past, the
    step that brings a stored scan back leaves the store standing on a part of the node's
    chain from its beginning, whatever the store stood on before. *)
Lemma reconcile_lands key bd cs tip ask bs s known r : (∀ h, 0 < h <= tip → ask h = Ok (b_hash <$> cs !! N.to_nat (h - 1))) →
  tracks key bd bs s → linked 1 bs →
  (∀ i b c, bs !! i = Some b → cs !! i = Some c → b_hash b = b_hash c → take (S i) bs = take (S i) cs) →
  answered cs known → reconcile_v2_scan_cache ask s tip known = Ok r → ∃ n, tracks key bd (take n cs) r.1.
Proof.
  intros Ht T L Hs Ha. unfold reconcile_v2_scan_cache. pose proof (tracks_tip _ _ _ _ T) as Et.
  destruct (tip_checkpoint s) as [[h hash]|] eqn:Ec.
  2: { intros [= <-]. exists 0%nat. cbn [fst take]. destruct (last bs) eqn:El; [done|]. apply last_None in El as ->. exact T. }
  assert ((h, hash) ∈ checkpoints s) as Hin.
  { unfold tip_checkpoint in Ec. apply fmap_Some in Ec as (cp & Hcp & [= -> ->]). unfold checkpoints.
    apply list_elem_of_fmap. exists cp. split; [done|by apply last_Some_elem_of]. }
  destruct (checkpoint_block _ _ _ _ T L _ _ Hin) as (i & b & Hb & Eh & _).
  destruct (canonical ask tip known h) as [[c k1]|] eqn:En; [|done]. cbn.
  destruct (canonical_spec cs tip ask Ht known h c k1 ltac:(lia) Ha En) as [Ha1 Hc]. case_bool_decide as Hm.
  - intros [= <-]. cbn. symmetry in Et. apply fmap_Some in Et as (b' & Hl & [= E1 E2]).
    destruct (matched_prefix key bd cs bs s T L Hs h hash (length bs) Hin (Hc _ Hm)) as [m Em].
    { left. split; [done|]. unfold height_of. rewrite Hl. cbn. lia. }
    rewrite take_ge in Em by done. exists m. by rewrite <- Em.
  - destruct (find_fork _ _ _ _ _) as [[[s1|] k2]|] eqn:Ef; [..|done]; intros [= <-]; cbn.
    + eapply (find_fork_spec key bd cs tip ask Ht bs s T L Hs); [|exact Ha1|exact Ef|done]. intros e. by rewrite !list_elem_of_In, <- in_rev.
    + exists 0%nat. destruct (tr_magic _ _ _ _ T) as (_ & _ & Eb). unfold birthday. rewrite Eb. apply new_tracks.
Qed.
End spec.
End WalletSpec.
