(* ===== verification/PqScanExamples.v ===== *)
(** * A wallet's scan at work

    A note paid to a key in the first block, an unrelated note in the second; the second
    block goes in a fork, the store is written and read, and another second block spends a
    note of someone else.  The cipher and KEM are those of [LinkRun], hashes stand for
    themselves, and a stored scan is kept as one number. *)

From stdpp Require Import vector.
From S2P Require Import Prelude Primitives Mining Crypto Compliance Types Smt Vault Ledger Gas Link LinkExamples.
From S2P Require Import ShieldedPq ShieldedPqSpec ShieldedV2 PqWire PqWireSpec PqScan PqScanSpec.
#[local] Open Scope N_scope.

Module WalletRun.
Import Pq Wire Link Wallet WalletSpec.
#[local] Existing Instance PqSpec.Pq_examples.toy_rescue.
#[local] Existing Instance LinkRun.aead.
#[local] Existing Instance LinkRun.kem.
#[local] Existing Instance WireSpec.Wire_examples.auth_env.
#[local] Instance wallet_env : WalletEnv := {|
  kem_keygen_from_seed d z := (LinkRun.pad EK_LEN (d ++ z), []); dsa_keygen_from_seed xi := (xi, xi);
  dsa_sign _ _ msg _ := Some msg |}.
#[local] Instance wallet_laws : WalletLaws.
Proof. by split. Qed.

(** ** The stored form *)

Definition note_fields (n : StoredNote) := (sn_value n, sn_rho n, sn_position n, sn_nullifier n).
Definition note_of '(v, r, p, nf) : StoredNote := mkStored v r p nf.
Definition cp_fields (c : Checkpoint) := (cp_height c, cp_hash c, commitments_len c, owned_len c, spent_len c).
Definition cp_of '(h, b, c, o, s) : Checkpoint := mkCheckpoint h b c o s.
Definition fields (d : Persisted) :=
  (magic d, version d, p_birthday d, p_height d, commitments_ d, note_fields <$> owned d, spent d, cp_fields <$> p_checkpoints d).
Definition of_fields '(m, v, b, h, cms, os, sp, cps) : Persisted :=
  mkPersisted m v b h cms (note_of <$> os) sp (cp_of <$> cps).
#[local] Instance codec : StoreCodec := {|
  codec_to d := [Npos (encode (fields d))];
  codec_from l := match l with [Npos p] => of_fields <$> decode p | _ => None end |}.
Lemma fmap_back {A B} (f : A → B) (g : B → A) (l : list A) : (∀ x, g (f x) = x) → g <$> (f <$> l) = l.
Proof. intros Hg. induction l as [|a l IH]; [done|]. cbn. by rewrite Hg, IH. Qed.
Lemma codec_ok d : codec_from (codec_to d) = Some d.
Proof.
  cbn [codec codec_from codec_to]. rewrite decode_encode. destruct d. cbn.
  by rewrite !fmap_back by (by intros []).
Qed.

(** ** The blocks *)

Definition key : PqShieldedKey := from_leaf_seed (map N.of_nat (seq 1 32)).
Definition mine : Note := mkNote 70 (tag_of key) [# 11; 12; 13; 14].
Definition theirs : Note := mkNote 30 [# 5; 6; 7; 8] [# 21; 22; 23; 24].
Definition sealed (n : Note) : option NoteCiphertext :=
  match encrypt_note (key_ek key) n (replicate 32 9) with Ok c => Some c | Err _ => None end.
(** One note spent, or none, and one received. *)
Definition bundle (nf : option PqDigest) (n : Note) : SpendBundle := mkBundle
  (mkPublicInputs [# ZERO; ZERO; ZERO; ZERO] [# default ZERO nf; ZERO; ZERO; ZERO] [# bool_decide (nf = None); true; true; true]
     [# note_commitment n; ZERO; ZERO; ZERO] [# false; true; true; true] 0 0 0)
  [] [# sealed n; None; None; None] [] [].
Definition block1 : block := mkBlock 1 [1] [bundle None theirs; bundle None mine].
Definition block2 : block := mkBlock 2 [2] [bundle None theirs].
Definition block2' : block := mkBlock 2 [3] [bundle (Some [# 9; 9; 9; 9]) theirs].
Definition ops : list op := [Scan block1; Scan block2; Rollback 1; Reload; Scan block2'].

Definition ran : option (list block * PqNoteStore) := run key ([], store_new 1) ops.
Definition store : PqNoteStore := match ran with Some (_, s) => s | None => store_new 1 end.
Definition pool : ShieldedV2State := default new (pool_of [block1; block2']).
Lemma ops_ok : Forall op_ok ops.
Proof. repeat constructor; done. Qed.
Lemma run_ops : run key ([], store_new 1) ops = Some ([block1; block2'], store).
Proof. vm_compute. reflexivity. Qed.
Lemma pool_ops : pool_of [block1; block2'] = Some pool.
Proof. vm_compute. reflexivity. Qed.
Lemma store_in_step_witness : store_root store = root pool ∧ balance store = 70 ∧
  ∃ path, store_witness store 1 = Some (path, root pool) ∧ compute_root path (note_commitment mine) = root pool.
Proof.
  destruct (store_in_step key 1 ops [block1; block2'] store pool codec_ok ops_ok run_ops pool_ops)
    as (Hr & _ & _ & _ & Hb & Hu & _).
  split; [exact Hr|]. split; [rewrite Hb; vm_compute; reflexivity|].
  destruct (Hu mine 1) as (_ & _ & Hp); [|exact Hp].
  apply (list_elem_of_lookup_2 _ 0%nat). vm_compute. reflexivity.
Defined.
End WalletRun.
